(* ===== verification/_CoqProject ===== *)
-Q . S2P
Prelude.v
Bytes.v
Rights.v
AuditLog.v
Capability.v
CapabilityInv.v
CapabilitySpec.v
CapabilityGrants.v
Format.v
BlockStore.v
Bitmap.v
BitmapSpec.v
BtreeNode.v
Btree.v
BtreeNodeSpec.v
BtreeIo.v
BtreeSafe.v
BtreeRep.v
BtreeSpec.v
BtreeMap.v
Memory.v
MemorySpec.v
Heap.v
BlockDev.v
Cache.v
CacheList.v
CacheClean.v
CacheSpec.v
CacheOps.v
CacheFlush.v
CacheRefine.v
Journal.v
Superblock.v
Object.v
ObjectSpec.v
ObjectStore.v
Paths.v
PathsSpec.v
PathsParse.v
PathsRebuild.v
PathsOps.v
PathsTheorems.v
Fs.v
FsSpec.v
FsTheorems.v
Stream.v
Gc.v
Range.v
DirectIo.v
CacheDirect.v
Chain.v
Aead.v
AeadSpec.v
Storage.v
StorageFrame.v
StorageObject.v
StorageSpec.v
StorageCommit.v
StorageRemove.v
StorageFormat.v
StorageTheorems.v
NetBytes.v
Csum.v
Ip.v
IpSpec.v
Frag.v
FragSpec.v
FragTheorems.v
Acd.v
Neigh.v
NeighSpec.v
NeighLive.v
DhcpMessage.v
DhcpLease.v
Dhcp.v
DhcpSpec.v
DnsPacket.v
