(* ===== verification/Prelude.v ===== *)
(** * A verification development of nopeekOS

    nopeekOS is a capability-based operating system kernel.  This development
    models three of its parts as the Rust source writes them, the authority every
    module acts under, the file system npkFS from paths down to the blocks of the
    disk, and the IP layer and services of the network stack, with the memory they
    live in, and proves what those parts promise.

    ** The parts and their files

    - The capability vault, [security/capability.rs], and its audit journal,
      [security/audit.rs].  [Rights] and [Capability] are the rights and the vault:
      [Sys] is the vault with the statics beside it, and every operation that
      changes it ([create], [revoke], [release], [check], the grants of paths) is a
      definition of the same name.  [AuditLog] is the journal.  [CapabilityInv] has
      the invariants, [CapabilitySpec] and [CapabilityGrants] the theorems.
    - Physical memory, [mm/memory.rs] and [boot_info.rs]: [Memory], [MemorySpec];
      the heap's reserve of frames, [mm/heap.rs]: [Heap].
    - npkFS, [storage/npkfs/], from the disk up:
      [Format] (types.rs, format.rs) is the layout of blocks as bytes;
      [Cache] (cache.rs) is the block cache over the device interface of [BlockDev];
      [BlockStore] is the interface of the cache to what uses it, and [DirectIo] the
      device's extent calls beside it, which [CacheDirect] shows the cache to allow;
      [Bitmap] (bitmap.rs) allocates blocks;
      [BtreeNode] and [Btree] (btree.rs) are the index from addresses to extents;
      [Journal] (journal.rs) defers frees until a commit;
      [Superblock] (sb_io.rs) is the ring of superblocks;
      [Chain] and [Storage] (storage.rs) are the object store: sealed objects in
      extents, the index over them, commits, removals, formatting and mounting;
      [Object] (object.rs) is the encoding of blobs, trees and chunked files;
      [ObjectStore] is the interface of the object store and its cache of trees;
      [Paths] (paths.rs) are directory trees that change by copying;
      [Fs], [Stream], [Gc] and [Range] (fs.rs) are the calls of the file system, the
      streaming writer, the garbage collector and the range reader.
    - The cipher of the disk keys, [crypto/aead.rs]: [Aead], [AeadSpec].
    - The network crate, [net/src/], on the words and maps of [NetBytes]:
      [Csum] (csum.rs) are checksums; [Ip] (ip.rs) are the checks of a datagram,
      routes, path MTUs and ICMP errors; [Frag] (frag.rs) is reassembly; [Acd]
      (acd.rs) is address conflict detection; [Neigh] (neigh.rs) is the ARP table;
      [DhcpMessage], [DhcpLease] and [Dhcp] (dhcp/message.rs, dhcp/lease.rs, dhcp.rs)
      are the DHCP client; [DnsPacket] (dns/packet.rs) are DNS names and messages.

    A component's definitions come first, in a file of its own or at the top of the
    file that proves things of them; files named after it with a suffix hold the
    lemmas and theorems ([BtreeMap], [CacheRefine], [StorageTheorems], [NeighLive]).

    ** How code is written

    A fallible call ends in [Ok], [Err] or [Panic] ([res]), and code that changes
    state is in the state monad [M], reasoned about with the weakest precondition
    [wp].  An index or slice out of range is a panic.  Machine integers are [Z] and
    wrap where a release build wraps ([u16], [u32], [u64] below); saturating and
    checked arithmetic is written out.  Bytes are [Byte.byte], buffers lists.
    Loops that are not structural take [fuel]; running out is a panic, so a theorem
    that excludes panics also proves the bound: the depth limit of the tree, the
    number of blocks of the disk, the blocks of a chain, the chunks of a file, the
    length of a buffer, or, for a DNS name, its start and the longest name.  The mark
    phase of garbage collection is given any amount of fuel from the entries of all
    trees on.  The loops over timers stop when their fuel is used up: four rounds for
    conflict detection, eight for DHCP; that none is due then is a theorem
    ([dhcp_client_never_stuck]).  Five rounds fold any checksum.

    What is not this code is a parameter with its documented behaviour: BLAKE3, plain
    and keyed ([Codec], [CodecOk]: no two contents have one address), AES-GCM,
    postcard's wire format, the block device and its extent calls (reads return what
    was written last, flushes make it durable, any request may fail), the clock,
    random numbers, the size of a packet in memory, the number of worker cores and
    the heap's answer to a reservation.  Each interface has an instance that meets it
    ([MemStore], [MemObjects], [RefCodec]), on which the witnesses of the theorems
    run; a random source is a step function on a state of its own.

    ** What the theorems show

    - Vault: in every reachable state a live token derives from the root through
      live tokens with no more rights and no later expiry; a passed check speaks for
      such a token; revocation and release take exactly the descendants; path grants
      and declared rights admit exactly what they say.
    - Audit journal: bounded, numbered without gaps, folding only equal entries.
    - Memory: boot frees exactly the firmware's usable RAM; each allocator returns
      the extreme free run it looks for and marks only that.
    - Bitmap: allocation hands out free data blocks, release takes back exactly the
      range, what is synced is loaded.  Index: insertion, deletion and lookup are a
      finite map's, copying on write; no disk content makes the tree code panic and
      the tolerant walk always ends.
    - Cache: requests in any order see the disk alone, flushed blocks are durable,
      memory is given back without losing data.  Journal and superblocks: committed
      frees are replayed and uncommitted ones are not; a superblock write that is cut
      off leaves the old or the new state.
    - Object store: puts, gets and removals are a finite map's; a commit makes the
      objects durable, and a crash and a mount bring back those of the last commit.
      Transfers stay inside the data area whatever the index says, and the walk along
      a chain ends on any disk.
    - Cipher: the limb arithmetic is Poly1305, sealed data opens, and nothing opens
      whose tag is not that of its bytes.
    - Objects: a blob's encoding is read back and its address is the content's.
    - Paths: with [fsview], the map from paths to what a root shows, [store],
      [mkdir], [delete], [rename] and [copy] change exactly the paths they name, or
      fail for the reason the path gives and change nothing; old roots stay readable
      in full.
    - Files: written data is read back whole, by ranges and through streams;
      a collection keeps every object a superblock slot's root uses and removes
      every other, and ends.
    - Datagrams: the checksum is that of RFC 1071 and its update the recomputed one;
      options are checked without a panic; routing is by the longest prefix; errors
      are rate limited.  A reassembled datagram is tiled by fragments of its own, and
      its fragments complete it in any order, in bounded memory.
    - Neighbours: every packet is sent to an address its next hop announced,
      reported, counted as dropped or still waiting; unanswered ones are reported.
      Conflict detection binds after three probes, and takes an address no one has.
    - DHCP: built messages are read back; a lease's times are ordered and its routes
      reach the link; an address is held only under a lease an ACK granted, the client
      always has a timer to wake it, and an offer is requested.
    - DNS: a name is read exactly when there is one, pointers and all, on any bytes;
      replies are well formed; the resolver's query is read back.

    Theorems that hold of an unexpected behaviour say so where they stand: a revoked
    token revokes ([CapabilitySpec]), deletion below a node without keys
    ([BtreeMap]), the block leaked by deleting the last entry ([BtreeMap]),
    discards of overlapping ranges ([BitmapSpec]), blocks of a committed object freed
    by a mount after a removal emptied the index ([StorageTheorems]) and the query
    for the root name ([DnsPacket]).

    ** Not modelled

    Of [storage.rs] the consistency check, the shrinker hook, the halts on an
    unreadable disk, timings and benchmarks; [tree_cache.rs] stands behind the
    interface of [ObjectStore].  Key slots and the random generator of [crypto/].
    TCP, the DNS resolver with its cache and the kernel's glue around the network
    crate.  The boundary-tag heap works on raw pointers.  Device drivers, partitions
    and foreign file systems, the GPU, the compositor, the microVM, the WASM host and
    the applications are I/O or build on external code.  Locks order the calls
    modelled here and make each a unit; interleavings inside a call are only looked
    at where the code handles them, as the stream counter in [gc], the unlocked
    transfers of the object store and a power loss during a superblock write. *)

From stdpp Require Export base tactics option list list_numbers numbers gmap sorting.
From Stdlib Require Export Strings.Byte.
From Stdlib Require Export Lia.

#[global] Open Scope Z_scope.
#[global] Set Default Goal Selector "!".

(** ** Results of fallible code

    A Rust function of the modelled code ends in one of three ways: it returns,
    it returns an [Err], or it panics (an index or slice out of range, an
    [unwrap] of [None]). *)
Inductive res (E A : Type) : Type :=
  | Ok (a : A)
  | Err (e : E)
  | Panic.
Arguments Ok {_ _} _.
Arguments Err {_ _} _.
Arguments Panic {_ _}.

(** ** The state and error monad

    [&mut] state survives an [Err]: the final state is returned next to the
    result in every case. *)
Definition M (S E A : Type) : Type := S → res E A * S.

#[global] Instance M_ret {S E} : MRet (M S E) := λ A a s, (Ok a, s).
#[global] Instance M_bind {S E} : MBind (M S E) := λ A B k m s,
  match m s with
  | (Ok a, s') => k a s'
  | (Err e, s') => (Err e, s')
  | (Panic, s') => (Panic, s')
  end.
#[global] Instance M_fmap {S E} : FMap (M S E) := λ A B f m,
  mbind (λ a, mret (f a)) m.

Definition fail {S E A} (e : E) : M S E A := λ s, (Err e, s).
Definition panic {S E A} : M S E A := λ s, (Panic, s).
Definition get {S E} : M S E S := λ s, (Ok s, s).
Definition put {S E} (s : S) : M S E unit := λ _, (Ok tt, s).

(** An [Option] whose [None] is a panic (slice or index out of range). *)
Definition of_opt {S E A} (o : option A) : M S E A :=
  match o with Some a => mret a | None => panic end.

(** [o.ok_or(e)?]. *)
Definition ok_or {S E A} (e : E) (o : option A) : M S E A :=
  match o with Some a => mret a | None => fail e end.

(** ** Weakest preconditions of the monad *)
Definition wp {S E A} (m : M S E A) (Q : res E A → S → Prop) (s : S) : Prop :=
  let '(r, s') := m s in Q r s'.

Section wp.
Context {S E : Type}.

Lemma wp_ret {A} (a : A) (Q : res E A → S → Prop) s :
  Q (Ok a) s → wp (mret a) Q s.
Proof. done. Qed.

Lemma wp_bind {A B} (m : M S E A) (k : A → M S E B) Q s :
  wp m (λ r s', match r with
                | Ok a => wp (k a) Q s'
                | Err e => Q (Err e) s'
                | Panic => Q Panic s'
                end) s →
  wp (m ≫= k) Q s.
Proof.
  unfold wp, mbind, M_bind. destruct (m s) as [[a|e|] s']; auto.
Qed.

Lemma wp_mono {A} (m : M S E A) (Q1 Q2 : res E A → S → Prop) s :
  wp m Q1 s → (∀ r s', Q1 r s' → Q2 r s') → wp m Q2 s.
Proof. unfold wp. destruct (m s); auto. Qed.

Lemma wp_and {A} (m : M S E A) (P Q : res E A → S → Prop) s : wp m P s → wp m Q s → wp m (λ r s', P r s' ∧ Q r s') s.
Proof. unfold wp. by destruct (m s). Qed.

Lemma wp_fail {A} (e : E) (Q : res E A → S → Prop) s :
  Q (Err e) s → wp (fail e) Q s.
Proof. done. Qed.

Lemma wp_of_opt {A} (o : option A) a (Q : res E A → S → Prop) s :
  o = Some a → Q (Ok a) s → wp (of_opt o) Q s.
Proof. by intros ->. Qed.

Lemma wp_get (Q : res E S → S → Prop) s : Q (Ok s) s → wp get Q s.
Proof. done. Qed.

Lemma wp_put s' (Q : res E unit → S → Prop) s : Q (Ok tt) s' → wp (put s') Q s.
Proof. done. Qed.

Lemma wp_run {A} (m : M S E A) (Q : res E A → S → Prop) s r s' :
  wp m Q s → m s = (r, s') → Q r s'.
Proof. unfold wp. intros H Hm. by rewrite Hm in H. Qed.
End wp.

(** ** Two mutable borrows side by side

    A function that takes [&mut] to two objects runs on their pair; what only
    touches one of them is lifted. *)
Definition on_fst {S T E A} (m : M S E A) : M (S * T) E A := λ st,
  let '(r, s') := m st.1 in (r, (s', st.2)).
Definition on_snd {S T E A} (m : M T E A) : M (S * T) E A := λ st,
  let '(r, t') := m st.2 in (r, (st.1, t')).

Section lift.
Context {S T E A : Type}.
Implicit Types (Q : res E A → S * T → Prop).

Lemma wp_on_fst (m : M S E A) Q s t :
  wp m (λ r s', Q r (s', t)) s → wp (on_fst m) Q (s, t).
Proof. unfold wp, on_fst. simpl. by destruct (m s). Qed.

Lemma wp_on_snd (m : M T E A) Q s t :
  wp m (λ r t', Q r (s, t')) t → wp (on_snd m) Q (s, t).
Proof. unfold wp, on_snd. simpl. by destruct (m t). Qed.
End lift.

(** ** Machine integers

    The kernel is built with [--release]: arithmetic wraps at its width. *)
Definition wrap (w z : Z) : Z := z `mod` 2 ^ w.
Notation u8 := (wrap 8).
Notation u16 := (wrap 16).
Notation u32 := (wrap 32).
Notation u64 := (wrap 64).

Definition fits (w z : Z) : Prop := 0 ≤ z < 2 ^ w.

Lemma wrap_fits w z : 0 ≤ w → fits w (wrap w z).
Proof.
  intros. unfold fits, wrap. apply Z.mod_pos_bound. by apply Z.pow_pos_nonneg.
Qed.

Lemma wrap_small w z : fits w z → wrap w z = z.
Proof. intros. by apply Z.mod_small. Qed.

Lemma fits_lor w a b : 0 ≤ w → fits w a → fits w b → fits w (Z.lor a b).
Proof.
  intros Hw Ha Hb.
  assert (Z.lor a b = wrap w (Z.lor a b)) as ->; [|by apply wrap_fits].
  unfold wrap. rewrite <- Z.land_ones, Z.land_lor_distr_l, !Z.land_ones by done.
  by rewrite !(Z.mod_small _ (2 ^ w)).
Qed.

(** Bits put above the ones already there. *)
Lemma lor_above a b n : 0 ≤ n → 0 ≤ a < 2 ^ n → 0 ≤ b → Z.lor a (Z.shiftl b n) = a + b * 2 ^ n.
Proof.
  intros Hn Ha Hb. rewrite Z.shiftl_mul_pow2 by done.
  assert (Hd : Z.land a (b * 2 ^ n) = 0).
  { apply Z.bits_inj'. intros k Hk. rewrite Z.land_spec, Z.bits_0.
    destruct (decide (k < n)); [rewrite Z.mul_pow2_bits_low by lia; apply andb_false_r|].
    rewrite <- (Z.mod_small a (2 ^ n)) by done. by rewrite Z.mod_pow2_bits_high by lia. }
  by rewrite <- Z.lxor_lor, <- Z.add_nocarry_lxor by done.
Qed.

(** [saturating_sub], [saturating_add] at width [w]. *)
Definition sat_sub (a b : Z) : Z := Z.max 0 (a - b).
Definition sat_add (w a b : Z) : Z := Z.min (2 ^ w - 1) (a + b).

(** [a.div_ceil(b)]. *)
Definition div_ceil (a b : Z) : Z := (a + b - 1) / b.

(** ** Tactics *)
Ltac simp :=
  repeat match goal with
  | H : _ ∧ _ |- _ => destruct H
  | H : ∃ _, _ |- _ => destruct H
  | H : Some _ = Some _ |- _ => injection H as H; subst
  | H : (_, _) = (_, _) |- _ => injection H as H; subst
  | H : Ok _ = Ok _ |- _ => injection H as H; subst
  | H : Some _ = None |- _ => discriminate H
  | H : None = Some _ |- _ => discriminate H
  end.

(** ** Lists *)
Definition zlen {A} (l : list A) : Z := Z.of_nat (length l).

Lemma zlen_nonneg {A} (l : list A) : 0 ≤ zlen l.
Proof. unfold zlen. lia. Qed.
Lemma zlen_app {A} (l k : list A) : zlen (l ++ k) = zlen l + zlen k.
Proof. unfold zlen. rewrite length_app. lia. Qed.
Lemma zlen_cons {A} (x : A) l : zlen (x :: l) = zlen l + 1.
Proof. unfold zlen. simpl. lia. Qed.
Lemma zlen_nil {A} : zlen (@nil A) = 0.
Proof. done. Qed.
Lemma zlen_replicate {A} n (x : A) : zlen (replicate n x) = Z.of_nat n.
Proof. unfold zlen. by rewrite length_replicate. Qed.

Create HintDb npk discriminated.
#[export] Hint Rewrite @zlen_app @zlen_cons @zlen_nil @zlen_replicate : npk.
#[export] Hint Resolve zlen_nonneg : npk.
