(* ===== verification/Bytes.v ===== *)
(** * Bytes, byte strings and little-endian words

    [u8] buffers as lists of [Byte.byte], the slices [&buf[a..b]] and
    [copy_from_slice] the code uses on them, [to_le_bytes]/[from_le_bytes], the
    lexicographic order of [[u8]] and ASCII literals for Rust strings. *)

From S2P Require Import Prelude.
From Stdlib Require Strings.String.
Export Strings.String.StringSyntax.

(** ** Single bytes *)
#[global] Instance byte_eq_dec : EqDecision byte := Byte.byte_eq_dec.
#[global] Instance byte_countable : Countable byte := inj_countable Byte.to_N Byte.of_N Byte.of_to_N.

Definition bval (b : byte) : Z := Z.of_N (Byte.to_N b).

(** [z as u8]. *)
Definition byte_of (z : Z) : byte :=
  match Byte.of_N (Z.to_N (z `mod` 256)) with Some b => b | None => x00 end.

Lemma bval_range b : 0 ≤ bval b < 256.
Proof. unfold bval. pose proof (Byte.to_N_bounded b). lia. Qed.

Lemma bval_inj a b : bval a = bval b → a = b.
Proof.
  unfold bval. intros H%N2Z.inj.
  pose proof (Byte.of_to_N a) as Ha. pose proof (Byte.of_to_N b) as Hb.
  rewrite H in Ha. congruence.
Qed.

Lemma bval_byte_of z : bval (byte_of z) = z `mod` 256.
Proof.
  unfold bval, byte_of. pose proof (Z.mod_pos_bound z 256 ltac:(lia)).
  destruct (Byte.of_N _) eqn:E.
  - apply Byte.to_of_N in E. rewrite E. lia.
  - apply Byte.of_N_None_iff in E. lia.
Qed.

Lemma byte_of_bval b : byte_of (bval b) = b.
Proof.
  apply bval_inj. rewrite bval_byte_of. apply Z.mod_small, bval_range.
Qed.

#[export] Hint Resolve bval_range : npk.

(** ** Strings

    A Rust [str] is its UTF-8 bytes. *)
Notation str := (list byte) (only parsing).
Definition ascii (s : String.string) : str := String.list_byte_of_string s.
Arguments ascii s%_string_scope.

(** ** Little-endian words *)
Fixpoint le_bytes (n : nat) (z : Z) : list byte :=
  match n with
  | O => []
  | S n => byte_of z :: le_bytes n (z / 256)
  end.

Fixpoint of_le (l : list byte) : Z :=
  match l with
  | [] => 0
  | b :: l => bval b + 256 * of_le l
  end.

Lemma length_le_bytes n z : length (le_bytes n z) = n.
Proof. revert z; induction n; simpl; auto. Qed.
Lemma zlen_le_bytes n z : zlen (le_bytes n z) = Z.of_nat n.
Proof. unfold zlen. by rewrite length_le_bytes. Qed.

Lemma of_le_le_bytes_mod n z : of_le (le_bytes n z) = z `mod` 256 ^ Z.of_nat n.
Proof.
  revert z. induction n as [|n IH]; intros z; simpl le_bytes; simpl of_le.
  - by rewrite Z.mod_1_r.
  - rewrite IH, bval_byte_of, Nat2Z.inj_succ, Z.pow_succ_r by lia.
    rewrite Z.rem_mul_r by lia. lia.
Qed.

Lemma of_le_le_bytes n z : 0 ≤ z < 256 ^ Z.of_nat n → of_le (le_bytes n z) = z.
Proof. intros. rewrite of_le_le_bytes_mod. by apply Z.mod_small. Qed.

Lemma of_le_range l : 0 ≤ of_le l < 256 ^ zlen l.
Proof.
  unfold zlen. induction l as [|b l IH]; simpl of_le; [simpl; lia|].
  simpl length. rewrite Nat2Z.inj_succ, Z.pow_succ_r by lia.
  pose proof (bval_range b). nia.
Qed.

Lemma le_bytes_of_le l : le_bytes (length l) (of_le l) = l.
Proof.
  induction l as [|b l IH]; simpl; [done|]. f_equal.
  - apply bval_inj. rewrite bval_byte_of.
    rewrite (Z.mul_comm 256), Z.mod_add by lia.
    apply Z.mod_small, bval_range.
  - rewrite (Z.mul_comm 256), Z.div_add by lia.
    rewrite (Z.div_small (bval b)) by apply bval_range. done.
Qed.

Lemma le_bytes_of_le_n n l : length l = n → le_bytes n (of_le l) = l.
Proof. intros <-. apply le_bytes_of_le. Qed.

(** Widths used on disk. *)
Definition le16 := le_bytes 2.
Definition le32 := le_bytes 4.
Definition le64 := le_bytes 8.

Lemma of_le16 z : fits 16 z → of_le (le16 z) = z.
Proof. intros [??]. apply of_le_le_bytes. simpl. lia. Qed.
Lemma of_le32 z : fits 32 z → of_le (le32 z) = z.
Proof. intros [??]. apply of_le_le_bytes. simpl. lia. Qed.
Lemma of_le64 z : fits 64 z → of_le (le64 z) = z.
Proof. intros [??]. apply of_le_le_bytes. simpl. lia. Qed.

Lemma zlen_le16 z : zlen (le16 z) = 2. Proof. done. Qed.
Lemma zlen_le32 z : zlen (le32 z) = 4. Proof. done. Qed.
Lemma zlen_le64 z : zlen (le64 z) = 8. Proof. done. Qed.
#[global] Arguments le_bytes : simpl never.
#[global] Arguments of_le : simpl never.
#[global] Arguments le16 : simpl never.
#[global] Arguments le32 : simpl never.
#[global] Arguments le64 : simpl never.
#[export] Hint Rewrite zlen_le16 zlen_le32 zlen_le64 zlen_le_bytes : npk.

(** ** Fixed layouts

    The bytes of a [repr(C)] struct without padding are the concatenation of its
    fields; [chunks] cuts them apart again. *)
Fixpoint chunks (ns : list nat) (bs : list byte) : list (list byte) :=
  match ns with
  | [] => []
  | n :: ns => take n bs :: chunks ns (drop n bs)
  end.

Lemma chunks_mjoin ns ls :
  Forall2 (λ n (l : list byte), length l = n) ns ls → chunks ns (mjoin ls) = ls.
Proof.
  induction 1 as [|n l ns ls <- H IH]; simpl; [done|].
  by rewrite take_app_length, drop_app_length, IH.
Qed.

Lemma chunks_lengths ns bs :
  length bs = sum_list ns → Forall2 (λ n (l : list byte), length l = n) ns (chunks ns bs).
Proof.
  revert bs. induction ns as [|n ns IH]; intros bs H; simpl in *; constructor.
  - rewrite length_take. lia.
  - apply IH. rewrite length_drop. lia.
Qed.

Lemma mjoin_chunks ns bs : length bs = sum_list ns → mjoin (chunks ns bs) = bs.
Proof.
  revert bs. induction ns as [|n ns IH]; intros bs H; simpl in *.
  - by destruct bs.
  - rewrite IH by (rewrite length_drop; lia). apply take_drop.
Qed.

Lemma chunks_app_l ns bs k :
  length bs = sum_list ns → chunks ns (bs ++ k) = chunks ns bs.
Proof.
  revert bs. induction ns as [|n ns IH]; intros bs H; simpl in *; [done|].
  rewrite take_app_le, drop_app_le by lia. rewrite IH; [done|]. rewrite length_drop. lia.
Qed.

(** ** Slices

    [sub buf a n] is [&buf[a..a + n]]: [None] when the range does not lie in
    the buffer, which is where Rust panics.  [splice buf a bs] is
    [buf[a..a + bs.len()].copy_from_slice(bs)]. *)
Definition in_range {A} (buf : list A) (a n : Z) : bool :=
  (0 <=? a) && (0 <=? n) && (a + n <=? zlen buf).

Definition raw_sub {A} (buf : list A) (a n : Z) : list A :=
  take (Z.to_nat n) (drop (Z.to_nat a) buf).
Definition raw_splice {A} (buf : list A) (a : Z) (bs : list A) : list A :=
  take (Z.to_nat a) buf ++ bs ++ drop (Z.to_nat (a + zlen bs)) buf.

Definition sub {A} (buf : list A) (a n : Z) : option (list A) :=
  if in_range buf a n then Some (raw_sub buf a n) else None.
Definition splice {A} (buf : list A) (a : Z) (bs : list A) : option (list A) :=
  if in_range buf a (zlen bs) then Some (raw_splice buf a bs) else None.

(** [buf[i]] *)
Definition at_ {A} (buf : list A) (i : Z) : option A :=
  if (0 <=? i) then buf !! Z.to_nat i else None.

Section slices.
Context {A : Type}.
Implicit Types buf bs : list A.

Lemma in_range_spec buf a n :
  in_range buf a n = true ↔ 0 ≤ a ∧ 0 ≤ n ∧ a + n ≤ zlen buf.
Proof. unfold in_range. rewrite !andb_true_iff, !Z.leb_le. tauto. Qed.

Lemma sub_Some buf a n :
  0 ≤ a → 0 ≤ n → a + n ≤ zlen buf → sub buf a n = Some (raw_sub buf a n).
Proof. intros. unfold sub. by rewrite (proj2 (in_range_spec _ _ _)). Qed.

Lemma sub_inv buf a n s :
  sub buf a n = Some s → 0 ≤ a ∧ 0 ≤ n ∧ a + n ≤ zlen buf ∧ s = raw_sub buf a n.
Proof.
  unfold sub. destruct (in_range _ _ _) eqn:E; [|done].
  apply in_range_spec in E. naive_solver.
Qed.

Lemma splice_Some buf a bs :
  0 ≤ a → a + zlen bs ≤ zlen buf → splice buf a bs = Some (raw_splice buf a bs).
Proof.
  intros. unfold splice. rewrite (proj2 (in_range_spec _ _ _)); [done|].
  pose proof (zlen_nonneg bs). lia.
Qed.

Lemma zlen_raw_sub buf a n :
  0 ≤ a → 0 ≤ n → a + n ≤ zlen buf → zlen (raw_sub buf a n) = n.
Proof.
  unfold zlen, raw_sub. intros. rewrite length_take, length_drop. lia.
Qed.

Lemma zlen_raw_splice buf a bs :
  0 ≤ a → a + zlen bs ≤ zlen buf → zlen (raw_splice buf a bs) = zlen buf.
Proof.
  unfold zlen, raw_splice. intros.
  rewrite !length_app, length_take, length_drop. unfold zlen. lia.
Qed.

Lemma lookup_raw_splice buf a bs (i : nat) :
  0 ≤ a → a + zlen bs ≤ zlen buf →
  raw_splice buf a bs !! i =
    if decide (a ≤ Z.of_nat i < a + zlen bs)
    then bs !! (i - Z.to_nat a)%nat else buf !! i.
Proof.
  unfold zlen, raw_splice. intros.
  destruct (decide (Z.of_nat i < a)).
  { rewrite decide_False by lia.
    rewrite lookup_app_l by (rewrite length_take; lia).
    by rewrite lookup_take_lt by lia. }
  rewrite lookup_app_r by (rewrite length_take; lia).
  rewrite length_take, Nat.min_l by lia.
  case_decide.
  - by rewrite lookup_app_l by lia.
  - rewrite lookup_app_r by lia. rewrite lookup_drop. f_equal. unfold zlen. lia.
Qed.

Lemma lookup_raw_sub buf a n (i : nat) :
  0 ≤ a → raw_sub buf a n !! i =
    if decide (Z.of_nat i < n) then buf !! (Z.to_nat a + i)%nat else None.
Proof.
  intros. unfold raw_sub. case_decide.
  - rewrite lookup_take_lt by lia. by rewrite lookup_drop.
  - by rewrite lookup_take_ge by lia.
Qed.

(** Reading back what was just written. *)
Lemma sub_splice_same buf a bs :
  0 ≤ a → a + zlen bs ≤ zlen buf → raw_sub (raw_splice buf a bs) a (zlen bs) = bs.
Proof.
  intros. apply list_eq. intros i. rewrite lookup_raw_sub by lia.
  case_decide.
  - rewrite lookup_raw_splice by lia. rewrite decide_True by lia. f_equal. lia.
  - symmetry. apply lookup_ge_None. unfold zlen in *. lia.
Qed.

(** Reading elsewhere. *)
Lemma sub_splice_disjoint buf a bs b n :
  0 ≤ a → a + zlen bs ≤ zlen buf → 0 ≤ b → b + n ≤ a ∨ a + zlen bs ≤ b →
  raw_sub (raw_splice buf a bs) b n = raw_sub buf b n.
Proof.
  intros. apply list_eq. intros i. rewrite !lookup_raw_sub by lia.
  case_decide; [|done].
  rewrite lookup_raw_splice by lia. rewrite decide_False by lia. done.
Qed.

Lemma at_Some buf i : 0 ≤ i < zlen buf → ∃ x, at_ buf i = Some x.
Proof.
  unfold at_, zlen. intros. rewrite (proj2 (Z.leb_le 0 i)) by lia.
  destruct (buf !! Z.to_nat i) eqn:E; eauto.
  apply lookup_ge_None in E. lia.
Qed.

Lemma at_sub buf i x : at_ buf i = Some x ↔ 0 ≤ i ∧ raw_sub buf i 1 = [x].
Proof.
  unfold at_. destruct (Z.leb_spec 0 i); [|naive_solver lia].
  unfold raw_sub. change (Z.to_nat 1) with 1%nat.
  rewrite <- (Nat.add_0_r (Z.to_nat i)) at 1. rewrite <- lookup_drop.
  destruct (drop (Z.to_nat i) buf) as [|y l]; simpl; [naive_solver|].
  rewrite take_0. naive_solver.
Qed.
End slices.

(** ** Lexicographic order on byte slices ([<] of [[u8]]) *)
Fixpoint bytes_ltb (k l : list byte) : bool :=
  match k, l with
  | [], [] => false
  | [], _ :: _ => true
  | _ :: _, [] => false
  | a :: k, b :: l =>
      if bval a <? bval b then true
      else if bval b <? bval a then false
      else bytes_ltb k l
  end.

Definition bytes_lt (k l : list byte) : Prop := bytes_ltb k l = true.

#[global] Instance bytes_lt_dec : RelDecision bytes_lt.
Proof. intros k l. unfold bytes_lt. apply _. Defined.

Lemma bytes_ltb_irrefl k : bytes_ltb k k = false.
Proof. induction k as [|a k IH]; simpl; [done|]. by rewrite Z.ltb_irrefl. Qed.

Lemma bytes_lt_trans k l m : bytes_lt k l → bytes_lt l m → bytes_lt k m.
Proof.
  unfold bytes_lt. revert l m. induction k as [|a k IH]; intros [|b l] [|c m]; simpl; try done.
  destruct (Z.ltb_spec (bval a) (bval b)), (Z.ltb_spec (bval b) (bval c)),
    (Z.ltb_spec (bval a) (bval c)), (Z.ltb_spec (bval b) (bval a)),
    (Z.ltb_spec (bval c) (bval b)), (Z.ltb_spec (bval c) (bval a)); try done; try lia.
  apply IH.
Qed.

Lemma bytes_lt_trichotomy k l : bytes_lt k l ∨ k = l ∨ bytes_lt l k.
Proof.
  unfold bytes_lt. revert l. induction k as [|a k IH]; intros [|b l]; simpl; auto.
  destruct (Z.ltb_spec (bval a) (bval b)), (Z.ltb_spec (bval b) (bval a)); auto; try lia.
  destruct (bval_inj a b ltac:(lia)). destruct (IH l) as [?|[->|?]]; auto.
Qed.

Lemma bytes_lt_irrefl k : ¬ bytes_lt k k.
Proof. unfold bytes_lt. by rewrite bytes_ltb_irrefl. Qed.

Lemma bytes_lt_asym k l : bytes_lt k l → ¬ bytes_lt l k.
Proof. intros H1 H2. eapply bytes_lt_irrefl, bytes_lt_trans; eauto. Qed.

Lemma bytes_ltb_false k l : bytes_ltb k l = false → k = l ∨ bytes_lt l k.
Proof.
  intros H. destruct (bytes_lt_trichotomy k l) as [E|?]; [|done].
  unfold bytes_lt in E. congruence.
Qed.

#[global] Instance bytes_lt_strict : StrictOrder bytes_lt.
Proof. split; [intros k; apply bytes_lt_irrefl|exact bytes_lt_trans]. Qed.

#[export] Hint Resolve bytes_lt_trans : npk.
