(* ===== verification/Rights.v ===== *)
(** * Capability rights (kernel/src/security/capability.rs, [bitflags! Rights])

    A set of rights is the [u32] of the [bitflags] type; [contains], [|] and
    [from_bits_truncate] are the bit operations of that crate. *)

From S2P Require Import Prelude Bytes.

Notation Rights := Z (only parsing).

Definition READ      : Rights := 0x1.
Definition WRITE     : Rights := 0x2.
Definition EXECUTE   : Rights := 0x4.
Definition DELEGATE  : Rights := 0x8.
Definition REVOKE    : Rights := 0x10.
Definition AUDIT     : Rights := 0x20.
Definition RENDER    : Rights := 0x40.
Definition CANVAS    : Rights := 0x80.
Definition CAPTURE   : Rights := 0x100.
Definition HARDWARE  : Rights := 0x200.
Definition NETCTL    : Rights := 0x400.
Definition NET       : Rights := 0x800.
Definition SHELL     : Rights := 0x1000.
Definition EXTERNAL  : Rights := 0x2000.
Definition CAMERA    : Rights := 0x4000.
Definition MIC       : Rights := 0x8000.
Definition SETTINGS  : Rights := 0x10000.
Definition ALL       : Rights := 0x1ffff.

(** The named flags in declaration order ([iter_names]). *)
Definition named : list (str * Rights) :=
  [(ascii "READ", READ); (ascii "WRITE", WRITE); (ascii "EXECUTE", EXECUTE);
   (ascii "DELEGATE", DELEGATE); (ascii "REVOKE", REVOKE); (ascii "AUDIT", AUDIT);
   (ascii "RENDER", RENDER); (ascii "CANVAS", CANVAS); (ascii "CAPTURE", CAPTURE);
   (ascii "HARDWARE", HARDWARE); (ascii "NETCTL", NETCTL); (ascii "NET", NET);
   (ascii "SHELL", SHELL); (ascii "EXTERNAL", EXTERNAL); (ascii "CAMERA", CAMERA);
   (ascii "MIC", MIC); (ascii "SETTINGS", SETTINGS); (ascii "ALL", ALL)].

Definition contains (r q : Rights) : bool := Z.land r q =? q.
Definition union (r q : Rights) : Rights := Z.lor r q.
Definition from_bits_truncate (bits : Z) : Rights := Z.land bits ALL.

(** ** Rights as sets of bits *)
Definition subrights (q r : Rights) : Prop := contains r q = true.

Lemma contains_spec r q :
  contains r q = true ↔ ∀ i, Z.testbit q i = true → Z.testbit r i = true.
Proof.
  unfold contains. rewrite Z.eqb_eq. split.
  - intros H i Hi. rewrite <- H, Z.land_spec, andb_true_iff in Hi. tauto.
  - intros H. apply Z.bits_inj. intros i. rewrite Z.land_spec.
    specialize (H i). destruct (Z.testbit q i), (Z.testbit r i); naive_solver.
Qed.

Lemma subrights_refl r : subrights r r.
Proof. apply contains_spec. auto. Qed.

Lemma subrights_trans p q r : subrights p q → subrights q r → subrights p r.
Proof. unfold subrights. rewrite !contains_spec. auto. Qed.

#[global] Instance subrights_preorder : PreOrder subrights.
Proof. split; [exact subrights_refl|exact subrights_trans]. Qed.

Lemma contains_union r p q :
  contains r (union p q) = contains r p && contains r q.
Proof.
  unfold union. apply eq_true_iff_eq.
  rewrite andb_true_iff, !contains_spec. setoid_rewrite Z.lor_spec.
  setoid_rewrite orb_true_iff. naive_solver.
Qed.

Lemma union_sub_l p q : subrights p (union p q).
Proof. apply contains_spec. intros i H. unfold union. by rewrite Z.lor_spec, H. Qed.
Lemma union_sub_r p q : subrights q (union p q).
Proof.
  apply contains_spec. intros i H. unfold union.
  by rewrite Z.lor_spec, H, orb_true_r.
Qed.

#[export] Hint Resolve subrights_refl subrights_trans union_sub_l union_sub_r : npk.
