(* ===== verification/AuditLog.v ===== *)
(** * The audit journal (kernel/src/security/audit.rs)

    The journal is a bounded queue of entries with a table of the live token
    holders.  A repeat of an event among the newest [FOLD_WINDOW] entries raises
    a count instead of adding an entry.  The clock readings each function takes
    ([stamp]) are an argument of its model. *)

From S2P Require Import Prelude Bytes Rights.

(** 256-bit token ids ([CapId = [u8; 32]]). *)
Notation CapId := (list byte) (only parsing).
Definition CAP_NULL : CapId := replicate 32 x00.

Definition MAX_ENTRIES : Z := 4096.
Definition FOLD_WINDOW : nat := 64.
Definition MAX_OBJECT : Z := 160.
Definition MAX_HOLDER : Z := 32.

Inductive Kind :=
  | Launch | Exit | Denied | Grant | Read | Write | Create | Delete | Rename
  | Mkdir | Net | DeviceOn | DeviceOff | Setting | Revoke.

#[global] Instance Kind_eq_dec : EqDecision Kind.
Proof. solve_decision. Defined.

Definition label (k : Kind) : str :=
  match k with
  | Launch => ascii "launch"
  | Exit => ascii "exit"
  | Denied => ascii "DENIED"
  | Grant => ascii "grant"
  | Read => ascii "read"
  | Write => ascii "write"
  | Create => ascii "create"
  | Delete => ascii "delete"
  | Rename => ascii "rename"
  | Mkdir => ascii "mkdir"
  | Net => ascii "net"
  | DeviceOn => ascii "on"
  | DeviceOff => ascii "off"
  | Setting => ascii "setting"
  | Revoke => ascii "revoke"
  end.

Record Entry := mkEntry {
  e_seq : Z;
  e_wall : Z;
  e_up_ms : Z;
  e_last_up_ms : Z;
  e_inst : Z;
  e_holder : str;
  e_kind : Kind;
  e_rights : Rights;
  e_count : Z;
  e_object : str;
  e_checks : Z;
  e_denied : Z;
}.

Record Holder := mkHolder {
  h_cap : CapId;
  h_inst : Z;
  h_name : str;
  h_denied : Z;
}.

Record Journal := mkJournal {
  entries : list Entry;
  holders : list Holder;
  next_seq : Z;
  next_inst : Z;
}.

Record Stamp := mkStamp { s_wall : Z; s_up_ms : Z }.

Definition new_journal : Journal := mkJournal [] [] 0 1.

(** [self.holders.iter().find(|h| h.cap == *cap)], with the position. *)
Definition find_holder (cap : CapId) (hs : list Holder) : option (nat * Holder) :=
  list_find (λ h, h_cap h = cap) hs.

Definition holder (j : Journal) (cap : CapId) : Z * str :=
  match find_holder cap (holders j) with
  | Some (_, h) => (h_inst h, h_name h)
  | None => (0, ascii "kernel")
  end.

Definition with_entries (j : Journal) (es : list Entry) : Journal :=
  mkJournal es (holders j) (next_seq j) (next_inst j).
Definition with_holders (j : Journal) (hs : list Holder) : Journal :=
  mkJournal (entries j) hs (next_seq j) (next_inst j).

Definition set_seq (e : Entry) (s : Z) : Entry :=
  mkEntry s (e_wall e) (e_up_ms e) (e_last_up_ms e) (e_inst e) (e_holder e) (e_kind e)
    (e_rights e) (e_count e) (e_object e) (e_checks e) (e_denied e).

Definition push (j : Journal) (e : Entry) : Journal :=
  let es := if MAX_ENTRIES <=? zlen (entries j)
            then drop 1 (entries j) else entries j in
  mkJournal (es ++ [set_seq e (next_seq j)]) (holders j)
    (u64 (next_seq j + 1)) (next_inst j).

(** [str::is_char_boundary]: not the middle of a UTF-8 sequence. *)
Definition is_char_boundary (s : str) (i : Z) : bool :=
  if i =? 0 then true
  else if i =? zlen s then true
  else match at_ s i with
       | Some b => negb ((128 <=? bval b) && (bval b <? 192))
       | None => false
       end.

(** [while !s.is_char_boundary(end) { end -= 1; }] *)
Fixpoint cut_end (s : str) (n : nat) : Z :=
  match n with
  | O => 0
  | S n' => if is_char_boundary s (Z.of_nat n) then Z.of_nat n else cut_end s n'
  end.

Definition cut (s : str) (max : Z) : str :=
  if zlen s <=? max then s else take (Z.to_nat (cut_end s (Z.to_nat max))) s.

Definition repeats (inst : Z) (hold : str) (kind : Kind) (r : Rights) (object : str)
    (e : Entry) : Prop :=
  e_inst e = inst ∧ e_kind e = kind ∧ e_rights e = r ∧ e_holder e = hold ∧ e_object e = object.

#[global] Instance repeats_dec i h k r o e : Decision (repeats i h k r o e).
Proof. unfold repeats. apply _. Defined.

Definition bump (t : Stamp) (e : Entry) : Entry :=
  mkEntry (e_seq e) (e_wall e) (e_up_ms e) (s_up_ms t) (e_inst e) (e_holder e) (e_kind e)
    (e_rights e) (sat_add 32 (e_count e) 1) (e_object e) (e_checks e) (e_denied e).

(** [for i in (start..len).rev()]: the newest entry of the window that repeats. *)
Definition fold_position (es : list Entry) (P : Entry → bool) : option nat :=
  let start := (length es - FOLD_WINDOW)%nat in
  snd <$> list_find (λ i : nat, (P <$> es !! i) = Some true)
            (reverse (seq start (length es - start))).

Definition note (j : Journal) (cap : CapId) (kind : Kind) (r : Rights) (object : str)
    (t : Stamp) : Journal :=
  let '(inst, hold) := holder j cap in
  let object := cut object MAX_OBJECT in
  match fold_position (entries j) (λ e, bool_decide (repeats inst hold kind r object e)) with
  | Some i => with_entries j (alter (bump t) i (entries j))
  | None =>
      push j (mkEntry 0 (s_wall t) (s_up_ms t) (s_up_ms t) inst hold kind r 1 object 0 0)
  end.

Definition issued (j : Journal) (cap : CapId) (name : str) (r : Rights) (t : Stamp) : Journal :=
  let inst := next_inst j in
  let name := cut name MAX_HOLDER in
  push (mkJournal (entries j) (holders j ++ [mkHolder cap inst name 0])
          (next_seq j) (Z.max (u32 (inst + 1)) 1))
    (mkEntry 0 (s_wall t) (s_up_ms t) (s_up_ms t) inst name Launch r 1 [] 0 0).

(** [Vec::swap_remove]: the last element takes the removed one's place. *)
Definition swap_remove {A} (l : list A) (i : nat) : list A :=
  match last l with
  | Some x => take (length l - 1) (<[i := x]> l)
  | None => l
  end.

Definition released (j : Journal) (cap : CapId) (checks : Z) (used : Rights) (t : Stamp)
    : Journal :=
  match find_holder cap (holders j) with
  | None => j
  | Some (pos, h) =>
      push (with_holders j (swap_remove (holders j) pos))
        (mkEntry 0 (s_wall t) (s_up_ms t) (s_up_ms t) (h_inst h) (h_name h) Exit used
           1 [] checks (h_denied h))
  end.

Definition count_denied (h : Holder) : Holder :=
  mkHolder (h_cap h) (h_inst h) (h_name h) (sat_add 32 (h_denied h) 1).

Definition denied (j : Journal) (cap : CapId) (r : Rights) (call why : str) (t : Stamp)
    : Journal :=
  let j := match find_holder cap (holders j) with
           | Some (i, _) => with_holders j (alter count_denied i (holders j))
           | None => j
           end in
  if decide (why = []) then note j cap Denied r call t
  else note j cap Denied r (call ++ ascii " (" ++ why ++ ascii ")") t.

Definition record (j : Journal) (cap : CapId) (kind : Kind) (object : str) (t : Stamp) : Journal :=
  note j cap kind 0 object t.

Definition granted (j : Journal) (cap : CapId) (path : str) (r : Rights) (t : Stamp) : Journal :=
  note j cap Grant r path t.

(** The microVM guest's pseudo token. *)
Definition GUEST : CapId := replicate 32 xff.

Definition guest_started (j : Journal) (name : str) (t1 t2 : Stamp) : Journal :=
  issued (released j GUEST 0 0 t1) GUEST (name ++ ascii " (VM)") 0 t2.

Definition guest_ended (j : Journal) (t : Stamp) : Journal := released j GUEST 0 0 t.

Definition newer (after_seq : option Z) (e : Entry) : Prop :=
  match after_seq with None => True | Some s => s < e_seq e end.

#[global] Instance newer_dec a e : Decision (newer a e).
Proof. destruct a; simpl; apply _. Defined.

Definition since (j : Journal) (after_seq : option Z) (hold : str) (max : nat) : list Entry :=
  reverse (take max
    (filter (λ e, hold = [] ∨ e_holder e = hold)
      (filter (newer after_seq)
        (reverse (entries j))))).

Definition touched_since (j : Journal) (since_ms : Z) : list Entry :=
  filter (λ e, since_ms ≤ e_last_up_ms e) (entries j).

(** [CHECKS_PASSED] is an atomic of its own. *)
Definition record_check_passed (checks_passed : Z) : Z := u64 (checks_passed + 1).

Definition total_count (j : Journal) : Z := next_seq j.

(** ** Well-formed journals *)
Definition entry_wf (e : Entry) : Prop :=
  1 ≤ e_count e ∧ zlen (e_object e) ≤ MAX_OBJECT ∧ zlen (e_holder e) ≤ MAX_HOLDER.

(** The queue is bounded and holds the newest entries, numbered without a gap up
    to [next_seq]. *)
Record journal_wf (j : Journal) : Prop := {
  jwf_len : zlen (entries j) ≤ MAX_ENTRIES;
  jwf_seq : e_seq <$> entries j = seqZ (next_seq j - zlen (entries j)) (zlen (entries j));
  jwf_entries : Forall entry_wf (entries j);
  jwf_holders : Forall (λ h, zlen (h_name h) ≤ MAX_HOLDER) (holders j);
}.

Lemma cut_end_range s n : 0 ≤ cut_end s n ≤ Z.of_nat n.
Proof.
  induction n as [|n IH]; [simpl; lia|].
  cbn [cut_end]. case_match; lia.
Qed.

Lemma cut_end_boundary s n : is_char_boundary s (cut_end s n) = true.
Proof.
  induction n as [|n IH]; [done|]. cbn [cut_end]. by case_match.
Qed.

(** [cut] keeps the longest prefix within [max] that ends on a character
    boundary. *)
Lemma cut_prefix s max : cut s max `prefix_of` s.
Proof. unfold cut. case_match; [done|]. apply prefix_take. Qed.

Lemma zlen_cut s max : 0 ≤ max → zlen (cut s max) ≤ max.
Proof.
  intros. unfold cut. destruct (Z.leb_spec (zlen s) max); [done|].
  unfold zlen. rewrite length_take.
  pose proof (cut_end_range s (Z.to_nat max)). lia.
Qed.

Lemma cut_boundary s max :
  0 ≤ max → is_char_boundary s (zlen (cut s max)) = true.
Proof.
  intros. unfold cut. destruct (Z.leb_spec (zlen s) max).
  - unfold is_char_boundary. rewrite Z.eqb_refl. by case_match.
  - pose proof (cut_end_range s (Z.to_nat max)) as Hr.
    replace (zlen (take _ s)) with (cut_end s (Z.to_nat max));
      [apply cut_end_boundary|].
    unfold zlen in *. rewrite length_take. lia.
Qed.

Lemma holder_name_wf j cap :
  journal_wf j → zlen (holder j cap).2 ≤ MAX_HOLDER.
Proof.
  intros Hj. unfold holder, find_holder.
  destruct (list_find _ _) as [[i h]|] eqn:E; simpl.
  - apply list_find_Some in E as (E & _ & _).
    eapply Forall_lookup_1 in E; [|apply (jwf_holders _ Hj)]. done.
  - vm_compute. done.
Qed.

Lemma set_seq_wf e s : entry_wf e → entry_wf (set_seq e s).
Proof. done. Qed.

Lemma bump_wf t e : entry_wf e → entry_wf (bump t e).
Proof. intros (?&?&?). split; [|done]. simpl. unfold sat_add. lia. Qed.

Lemma push_wf j e :
  journal_wf j → entry_wf e → next_seq j + 1 < 2 ^ 64 → 0 ≤ next_seq j →
  journal_wf (push j e).
Proof.
  intros [Hl Hs He Hh] Hwf Hb Hn. unfold push.
  assert (u64 (next_seq j + 1) = next_seq j + 1) as Hu.
  { apply wrap_small. unfold fits. lia. }
  destruct (Z.leb_spec MAX_ENTRIES (zlen (entries j))); split; simpl; rewrite ?Hu; auto.
  - rewrite zlen_app. unfold zlen in *. rewrite length_drop. simpl. unfold MAX_ENTRIES in *. lia.
  - rewrite fmap_app, fmap_drop, Hs. simpl.
    assert (zlen (drop 1 (entries j) ++ [set_seq e (next_seq j)]) = zlen (entries j)) as ->.
    { rewrite zlen_app. unfold zlen. rewrite length_drop. simpl. unfold MAX_ENTRIES, zlen in *. lia. }
    assert (0 < zlen (entries j)) by (unfold MAX_ENTRIES in *; lia).
    rewrite seqZ_cons by lia. simpl. rewrite drop_0.
    replace (zlen (entries j)) with (Z.pred (zlen (entries j)) + 1) at 4 by lia.
    rewrite seqZ_app by lia. simpl. f_equal; [f_equal; lia|].
    rewrite seqZ_cons by lia. rewrite seqZ_nil by lia. f_equal. lia.
  - apply Forall_app; split; [by apply Forall_drop|]. by apply Forall_singleton, set_seq_wf.
  - rewrite zlen_app, zlen_cons, zlen_nil. lia.
  - rewrite fmap_app, Hs, zlen_app, zlen_cons, zlen_nil. simpl.
    rewrite seqZ_app by (auto using zlen_nonneg; lia). f_equal; [f_equal; lia|].
    rewrite seqZ_cons by lia. rewrite seqZ_nil by lia. f_equal. lia.
  - apply Forall_app; split; [done|]. by apply Forall_singleton, set_seq_wf.
Qed.

Lemma alter_bump_wf j t i :
  journal_wf j → journal_wf (with_entries j (alter (bump t) i (entries j))).
Proof.
  intros [Hl Hs He Hh]. split; simpl; auto.
  - unfold zlen in *. by rewrite length_alter.
  - unfold zlen in *. rewrite length_alter. rewrite <- Hs.
    apply list_eq. intros k. rewrite !list_lookup_fmap.
    destruct (decide (i = k)) as [->|].
    + rewrite list_lookup_alter_eq. by destruct (entries j !! k).
    + by rewrite list_lookup_alter_ne.
  - apply Forall_alter; [done|]. intros. by apply bump_wf.
Qed.

Lemma note_wf j cap k r o t :
  journal_wf j → 0 ≤ next_seq j → next_seq j + 1 < 2 ^ 64 →
  journal_wf (note j cap k r o t).
Proof.
  intros Hj ??. unfold note. pose proof (holder_name_wf j cap Hj) as Hn.
  destruct (holder j cap) as [inst h]. case_match; [by apply alter_bump_wf|].
  apply push_wf; auto. split; [|split]; simpl; [lia| |done].
  apply zlen_cut. unfold MAX_OBJECT. lia.
Qed.

Lemma with_holders_wf j hs :
  journal_wf j → Forall (λ h, zlen (h_name h) ≤ MAX_HOLDER) hs → journal_wf (with_holders j hs).
Proof. intros [????] ?. by split. Qed.

Lemma swap_remove_Forall {A} (P : A → Prop) l i :
  Forall P l → Forall P (swap_remove l i).
Proof.
  intros H. unfold swap_remove. destruct (last l) eqn:E; [|done].
  apply Forall_take, Forall_insert; [done|].
  apply last_Some_elem_of in E. by eapply Forall_forall.
Qed.

Lemma issued_wf j cap n r t :
  journal_wf j → 0 ≤ next_seq j → next_seq j + 1 < 2 ^ 64 → journal_wf (issued j cap n r t).
Proof.
  intros [????] ??. unfold issued. apply push_wf; auto.
  - split; simpl; auto. apply Forall_app; split; [done|]. apply Forall_singleton.
    apply zlen_cut. unfold MAX_HOLDER. lia.
  - split; [|split]; simpl; [lia|done|]. apply zlen_cut. unfold MAX_HOLDER. lia.
Qed.

Lemma released_wf j cap n r t :
  journal_wf j → 0 ≤ next_seq j → next_seq j + 1 < 2 ^ 64 → journal_wf (released j cap n r t).
Proof.
  intros Hj ??. unfold released, find_holder.
  destruct (list_find _ _) as [[i h]|] eqn:E; [|done].
  apply list_find_Some in E as (E & _ & _).
  apply push_wf; auto.
  - apply with_holders_wf; [done|]. apply swap_remove_Forall, Hj.
  - split; [|split]; simpl; [lia|done|].
    eapply (Forall_lookup_1 _ _ _ _ (jwf_holders _ Hj)) in E. done.
Qed.

Lemma denied_wf j cap r c w t :
  journal_wf j → 0 ≤ next_seq j → next_seq j + 1 < 2 ^ 64 → journal_wf (denied j cap r c w t).
Proof.
  intros Hj ??. unfold denied.
  assert (journal_wf (match find_holder cap (holders j) with
    | Some (i, _) => with_holders j (alter count_denied i (holders j)) | None => j end)) as Hj'.
  { destruct (find_holder _ _) as [[i h]|]; [|done]. apply with_holders_wf; [done|].
    apply Forall_alter; [apply Hj|]. done. }
  assert (next_seq (match find_holder cap (holders j) with
    | Some (i, _) => with_holders j (alter count_denied i (holders j)) | None => j end)
    = next_seq j) as Hs by (destruct (find_holder _ _) as [[??]|]; done).
  case_decide; apply note_wf; rewrite ?Hs; auto.
Qed.

(** ** The journal as a state machine *)
Inductive jstep : Journal → Journal → Prop :=
  | js_issued j cap n r t : jstep j (issued j cap n r t)
  | js_released j cap c r t : jstep j (released j cap c r t)
  | js_denied j cap r c w t : jstep j (denied j cap r c w t)
  | js_record j cap k o t : jstep j (record j cap k o t)
  | js_granted j cap p r t : jstep j (granted j cap p r t).

Inductive jreach : nat → Journal → Prop :=
  | jreach_new : jreach 0 new_journal
  | jreach_step n j j' : jreach n j → jstep j j' → jreach (S n) j'.

Lemma push_next_seq j e : 0 ≤ next_seq j → next_seq j + 1 < 2 ^ 64 →
  next_seq (push j e) = next_seq j + 1.
Proof. intros. simpl. apply wrap_small. unfold fits. lia. Qed.

Lemma note_next_seq j cap k r o t : 0 ≤ next_seq j → next_seq j + 1 < 2 ^ 64 →
  next_seq j ≤ next_seq (note j cap k r o t) ≤ next_seq j + 1.
Proof.
  intros. unfold note. destruct (holder j cap). case_match; simpl; [lia|].
  rewrite wrap_small by (unfold fits; lia). lia.
Qed.

Lemma jstep_next_seq j j' : jstep j j' → 0 ≤ next_seq j → next_seq j + 1 < 2 ^ 64 →
  next_seq j ≤ next_seq j' ≤ next_seq j + 1.
Proof.
  destruct 1; intros ??; try by apply note_next_seq.
  - unfold issued. rewrite push_next_seq; simpl; lia.
  - unfold released. destruct (find_holder _ _) as [[??]|]; [|lia].
    rewrite push_next_seq; simpl; lia.
  - unfold denied. destruct (find_holder _ _) as [[i h]|]; case_decide;
      match goal with |- context [note ?a ?b ?c ?d ?e ?f] =>
        pose proof (note_next_seq a b c d e f) as Hn end;
      auto.
Qed.

(** In every journal reached by fewer than 2^64 - 1 journal calls the queue
    holds at most 4096 entries, and these are the newest ones, numbered without a
    gap up to the running sequence number; every entry counts at least one
    occurrence and its strings are within their caps. *)
Theorem journal_invariant n j :
  jreach n j → Z.of_nat n < 2 ^ 64 - 1 →
  journal_wf j ∧ 0 ≤ total_count j ≤ Z.of_nat n.
Proof.
  induction 1 as [|n j j' Hr IH Hs]; intros Hn.
  - split; [|done]. by split.
  - destruct IH as [Hwf Hb]; [lia|]. unfold total_count in *.
    pose proof (jstep_next_seq _ _ Hs). split; [|lia].
    destruct Hs; [apply issued_wf|apply released_wf|apply denied_wf|apply note_wf|apply note_wf];
      auto; lia.
Qed.

Lemma fold_position_Some es P i :
  fold_position es P = Some i →
  (length es - FOLD_WINDOW ≤ i)%nat ∧ (∃ e, es !! i = Some e ∧ P e = true) ∧
  (∀ k e, (i < k)%nat → es !! k = Some e → P e = false).
Proof.
  unfold fold_position. intros H. apply fmap_Some in H as ([p x] & H & ->). simpl.
  apply list_find_Some in H as (Hx & Hp & Hmin).
  apply fmap_Some in Hp as (e & He & Hpe).
  assert (Hsl : length (seq (length es - FOLD_WINDOW) (length es - (length es - FOLD_WINDOW)))
                = (length es - (length es - FOLD_WINDOW))%nat) by apply length_seq.
  rewrite reverse_lookup in Hx by (apply lookup_lt_Some in Hx; by rewrite length_reverse in Hx).
  rewrite Hsl in Hx. apply lookup_seq in Hx as [-> Hlt].
  split; [lia|]. split; [by eauto|].
  intros k e' Hk He'. pose proof (lookup_lt_Some _ _ _ He') as Hkl.
  destruct (P e') eqn:HP; [|done]. exfalso.
  apply (Hmin (length es - 1 - k)%nat k).
  - rewrite reverse_lookup by (rewrite Hsl; lia). rewrite Hsl.
    apply lookup_seq. lia.
  - lia.
  - by rewrite He', <- HP.
Qed.

Lemma fold_position_None es P i e :
  fold_position es P = None → (length es - FOLD_WINDOW ≤ i)%nat → es !! i = Some e → P e = false.
Proof.
  unfold fold_position. intros H Hi He.
  destruct (list_find _ _) as [[? ?]|] eqn:E; [done|]. apply list_find_None in E.
  destruct (P e) eqn:HP; [|done]. exfalso.
  eapply Forall_forall in E; [apply E; rewrite He; simpl; by rewrite HP|].
  pose proof (lookup_lt_Some _ _ _ He).
  apply elem_of_reverse, elem_of_seq. lia.
Qed.

(** Journalling an event loses nothing: either the newest entry among the
    last [FOLD_WINDOW] that names the same holder, kind, rights and object gets
    its count raised, and no other entry changes, or no entry of that window
    repeats the event and it is appended under the next sequence number, the
    oldest entry leaving when the queue is full. *)
Theorem note_folds_or_appends j cap k r o t :
  let inst := (holder j cap).1 in
  let hold := (holder j cap).2 in
  let same := repeats inst hold k r (cut o MAX_OBJECT) in
  let j' := note j cap k r o t in
  (∃ i e, entries j !! i = Some e ∧ same e ∧ (length (entries j) - FOLD_WINDOW ≤ i)%nat ∧
     (∀ i' e', (i < i')%nat → entries j !! i' = Some e' → ¬ same e') ∧
     entries j' = <[i := bump t e]> (entries j) ∧ next_seq j' = next_seq j)
  ∨ ((∀ i e, (length (entries j) - FOLD_WINDOW ≤ i)%nat → entries j !! i = Some e → ¬ same e) ∧
     ∃ new, same new ∧ e_count new = 1 ∧ e_seq new = next_seq j ∧
       entries j' = (if MAX_ENTRIES <=? zlen (entries j) then drop 1 (entries j)
                     else entries j) ++ [new] ∧
       next_seq j' = u64 (next_seq j + 1)).
Proof.
  intros inst hold same j'. subst j'. unfold note. subst inst hold.
  destruct (holder j cap) as [inst hold] eqn:Hh. simpl in same.
  destruct (fold_position _ _) as [i|] eqn:E; [left|right].
  - apply fold_position_Some in E as (Hi & (e & He & Hs) & Hmax).
    exists i, e. apply bool_decide_eq_true in Hs.
    refine (conj He (conj Hs (conj Hi (conj _ (conj _ eq_refl))))).
    + intros i' e' Hlt He' Hsame. apply (Hmax i' e') in Hlt; [|done].
      by apply bool_decide_eq_false in Hlt.
    + simpl. apply list_eq. intros n. destruct (decide (i = n)) as [->|].
      * rewrite list_lookup_alter_eq, He, list_lookup_insert_eq; [done|].
        by eapply lookup_lt_Some.
      * by rewrite list_lookup_alter_ne, list_lookup_insert_ne.
  - split.
    + intros i e Hi He. eapply fold_position_None in E; eauto. by apply bool_decide_eq_false in E.
    + eexists. by repeat split.
Qed.

Lemma reverse_take_reverse {A} (l : list A) n :
  reverse (take n (reverse l)) = drop (length l - n) l.
Proof.
  destruct (decide (n ≤ length l)%nat).
  - rewrite <- (take_drop (length l - n) l) at 1. rewrite reverse_app, take_app_le.
    2:{ rewrite length_reverse, length_drop. lia. }
    rewrite take_ge by (rewrite length_reverse, length_drop; lia). by rewrite reverse_involutive.
  - rewrite take_ge by (rewrite length_reverse; lia). rewrite reverse_involutive.
    by replace (length l - n)%nat with 0%nat by lia.
Qed.

Lemma filter_newer_suffix s b (es : list Entry) :
  e_seq <$> es = seqZ b (zlen es) →
  filter (newer (Some s)) es = drop (Z.to_nat (s + 1 - b)) es.
Proof.
  revert b. induction es as [|e es IH]; intros b H; [by rewrite drop_nil|].
  rewrite zlen_cons, seqZ_cons in H by (pose proof (zlen_nonneg es); lia).
  simpl in H. injection H as Hb H. replace (Z.pred _) with (zlen es) in H by lia.
  specialize (IH _ H). rewrite filter_cons. simpl.
  case_decide as Hd.
  - replace (Z.to_nat (s + 1 - b)) with 0%nat by lia. rewrite drop_0. f_equal.
    rewrite IH. by replace (Z.to_nat (s + 1 - Z.succ b)) with 0%nat by lia.
  - rewrite IH. replace (Z.to_nat (s + 1 - b)) with (S (Z.to_nat (s + 1 - Z.succ b))) by lia.
    done.
Qed.

Lemma filter_reverse {A} (P : A → Prop) `{∀ x, Decision (P x)} (l : list A) :
  filter P (reverse l) = reverse (filter P l).
Proof.
  induction l as [|x l IH]; [done|].
  rewrite reverse_cons, filter_app, IH, !filter_cons. simpl.
  case_decide; [by rewrite reverse_cons|]. by rewrite filter_nil, app_nil_r.
Qed.

(** A reader that asks the journal for everything after the last sequence
    number [s] it saw gets exactly the entries numbered above [s] that are still
    kept, oldest first, cut to the newest [max]. *)
Theorem since_returns_newer j s max :
  journal_wf j →
  let fresh := drop (Z.to_nat (s + 1 - (next_seq j - zlen (entries j)))) (entries j) in
  since j (Some s) [] max = drop (length fresh - max) fresh.
Proof.
  intros Hj fresh. unfold since.
  rewrite (list_filter_iff (λ e, [] = [] ∨ e_holder e = []) (λ _, True)) by tauto.
  rewrite filter_reverse, (filter_newer_suffix _ _ _ (jwf_seq _ Hj)).
  fold fresh.
  assert (filter (λ _ : Entry, True) (reverse fresh) = reverse fresh) as ->.
  { generalize (reverse fresh). induction l; [done|]. rewrite filter_cons, IHl. done. }
  apply reverse_take_reverse.
Qed.

(** ** Concrete runs *)
Definition ex_journal : Journal :=
  record (issued new_journal CAP_NULL (ascii "loft") 1 (mkStamp 0 0)) CAP_NULL Read
    (ascii "home/a") (mkStamp 0 1).

Lemma jreach_ex : jreach 2 ex_journal.
Proof. apply (jreach_step 1 (issued new_journal CAP_NULL (ascii "loft") 1 (mkStamp 0 0)));
  [apply (jreach_step 0 new_journal); constructor|constructor]. Qed.

Lemma journal_invariant_witness : journal_wf ex_journal ∧ 0 ≤ total_count ex_journal ≤ 2.
Proof. apply (journal_invariant 2 ex_journal); [apply jreach_ex|reflexivity]. Defined.

Lemma since_returns_newer_witness :
  e_object <$> since ex_journal (Some 0) [] 10 = [ascii "home/a"].
Proof.
  rewrite (since_returns_newer ex_journal 0 10); [by vm_compute|].
  apply note_wf; [apply issued_wf; [by split|done|done]|done|done].
Defined.
