(* ===== verification/Capability.v ===== *)
(** * The capability vault (kernel/src/security/capability.rs)

    [Sys] holds the statics the module keeps: the vault, the root token, the
    per-slot check counters, the path grants and the audit journal its functions
    write to.  Each public function is a definition that threads [Sys].

    Inputs from outside the module are arguments: the id drawn from the CSPRNG,
    the journal's clock stamps and the readings of [time::ticks].  A function
    that reads the tick clock more than once takes the successive readings as
    [tk : nat -> Z]; the counter is monotonic, so theorems ask for that and for
    nothing else. *)

From S2P Require Import Prelude Bytes Rights AuditLog.

Definition MAX_CAPABILITIES : nat := 256.

Inductive ResourceKind :=
  | Kernel
  | Memory (base size : Z)
  | Serial
  | Network
  | Store
  | Display
  | Execute
  | PciDevice (bus device function : Z).

Record Capability := mkCap {
  id : CapId;
  resource : ResourceKind;
  rights : Rights;
  parent : option CapId;
  active : bool;
  expires_at : option Z;
}.

Definition is_expired (now : Z) (c : Capability) : bool :=
  match expires_at c with Some e => e <=? now | None => false end.

Record Vault := mkVault { caps : list (option Capability); count : Z }.

Inductive CapError :=
  | NotFound | Revoked | Expired | InsufficientRights | EscalationAttempt | VaultFull.

Definition reason (e : CapError) : str :=
  match e with
  | NotFound => ascii "no token"
  | Revoked => ascii "revoked"
  | Expired => ascii "expired"
  | InsufficientRights => []
  | EscalationAttempt => ascii "escalation"
  | VaultFull => ascii "vault full"
  end.

Record PathGrant := mkGrant {
  g_cap : CapId;
  g_path : str;
  g_rights : Rights;
  g_tree : bool;
}.

Record Sys := mkSys {
  vault : Vault;
  root_cap : CapId;
  slot_checks : list Z;
  slot_uses : list Z;
  checks_passed : Z;
  log : Journal;
  path_grants : list PathGrant;
}.

Definition set_vault (s : Sys) (v : Vault) : Sys :=
  mkSys v (root_cap s) (slot_checks s) (slot_uses s) (checks_passed s) (log s) (path_grants s).
Definition set_log (s : Sys) (j : Journal) : Sys :=
  mkSys (vault s) (root_cap s) (slot_checks s) (slot_uses s) (checks_passed s) j (path_grants s).
Definition set_grants (s : Sys) (g : list PathGrant) : Sys :=
  mkSys (vault s) (root_cap s) (slot_checks s) (slot_uses s) (checks_passed s) (log s) g.

Definition vault_empty : Vault := mkVault (replicate MAX_CAPABILITIES None) 0.

(** The statics at boot. *)
Definition boot : Sys :=
  mkSys vault_empty CAP_NULL (replicate MAX_CAPABILITIES 0) (replicate MAX_CAPABILITIES 0)
    0 new_journal [].

(** [iter().position(..)], the predicate seeing the index too. *)
Fixpoint position_from {A} (p : nat → A → bool) (i : nat) (l : list A) : option nat :=
  match l with
  | [] => None
  | x :: l => if p i x then Some i else position_from p (S i) l
  end.
Definition position {A} (p : nat → A → bool) (l : list A) : option nat := position_from p 0 l.

Definition occupied_by (cap_id : CapId) (o : option Capability) : bool :=
  match o with Some c => bool_decide (id c = cap_id) | None => false end.

(** [Vault::find]. *)
Definition find (v : Vault) (cap_id : CapId) : option Capability :=
  snd <$> list_find (λ c, id c = cap_id) (omap (λ o, o) (caps v)).

Definition slot_used (s : Sys) (slot : nat) : Rights :=
  from_bits_truncate (default 0 (slot_uses s !! slot)).
Definition slot_checks_of (s : Sys) (slot : nat) : Z := default 0 (slot_checks s !! slot).

(** ** Issuing *)

(** A slot whose capability is revoked or expired, never the root's. *)
Definition reusable (tk : nat → Z) (root : CapId) (i : nat) (o : option Capability) : bool :=
  match o with
  | Some c => bool_decide (id c ≠ root) && (negb (active c) || is_expired (tk (S i)) c)
  | None => false
  end.

Definition find_slot (tk : nat → Z) (root : CapId) (cs : list (option Capability))
    : option nat :=
  match position (λ _ o, bool_decide (o = None)) cs with
  | Some i => Some i
  | None => position (reusable tk root) cs
  end.

(** The child's expiry: its own TTL capped by the parent's expiry. *)
Definition child_expiry (now : Z) (ttl parent_exp : option Z) : option Z :=
  match (λ t, u64 (now + t)) <$> ttl, parent_exp with
  | Some child, Some pe => Some (Z.min child pe)
  | None, Some pe => Some pe
  | exp, None => exp
  end.

Definition create (tk : nat → Z) (st : nat → Stamp) (next_id : CapId)
    (parent_id : CapId) (res_kind : ResourceKind) (rts : Rights) (ttl_ticks : option Z)
    (hold : str) : M Sys CapError CapId := λ s,
  let refuse e :=
    (Err e, set_log s (denied (log s) parent_id rts (ascii "issue " ++ hold) (reason e) (st 0%nat))) in
  match find (vault s) parent_id with
  | None => (Err NotFound, s)
  | Some par =>
    if negb (active par) then refuse Revoked
    else if is_expired (tk 0%nat) par then refuse Expired
    else if negb (contains (rights par) DELEGATE) then refuse InsufficientRights
    else if negb (contains (rights par) rts) then refuse EscalationAttempt
    else match find_slot tk (root_cap s) (caps (vault s)) with
    | None => refuse VaultFull
    | Some slot =>
      let log1 := match caps (vault s) !! slot with
                  | Some (Some old) =>
                      released (log s) (id old) (slot_checks_of s slot) (slot_used s slot) (st 0%nat)
                  | _ => log s
                  end in
      let exp := child_expiry (tk (S MAX_CAPABILITIES)) ttl_ticks (expires_at par) in
      let c := mkCap next_id res_kind rts (Some parent_id) true exp in
      (Ok next_id,
       mkSys (mkVault (<[slot := Some c]> (caps (vault s))) (u64 (count (vault s) + 1)))
         (root_cap s) (<[slot := 0]> (slot_checks s)) (<[slot := 0]> (slot_uses s))
         (checks_passed s) (issued log1 next_id hold rts (st 1%nat)) (path_grants s))
    end
  end.

Definition init (st : Stamp) (root_id : CapId) (s : Sys) : Sys :=
  mkSys (mkVault (<[0%nat := Some (mkCap root_id Kernel ALL None true None)]> (caps (vault s))) 1)
    root_id (slot_checks s) (slot_uses s) (checks_passed s)
    (issued (log s) root_id (ascii "system") ALL st) (path_grants s).

(** ** Checking *)
Definition check (now : Z) (cap_id : CapId) (required : Rights) : M Sys CapError Capability := λ s,
  match position (λ _ o, occupied_by cap_id o) (caps (vault s)) with
  | None => (Err NotFound, s)
  | Some slot =>
    match caps (vault s) !! slot with
    | Some (Some cap) =>
      if negb (active cap) then (Err Revoked, s)
      else if is_expired now cap then (Err Expired, s)
      else if negb (contains (rights cap) required) then (Err InsufficientRights, s)
      else (Ok cap,
            mkSys (vault s) (root_cap s)
              (alter (λ n, u64 (n + 1)) slot (slot_checks s))
              (alter (λ b, Z.lor b required) slot (slot_uses s))
              (u64 (checks_passed s + 1)) (log s) (path_grants s))
    | _ => (Err NotFound, s)
    end
  end.

Definition check_global (now : Z) (cap_id : CapId) (required : Rights) : M Sys CapError unit :=
  _ ← check now cap_id required; mret tt.

Definition require (now : Z) (t : Stamp) (cap_id : CapId) (required : Rights) (call : str) (s : Sys)
    : bool * Sys :=
  match check_global now cap_id required s with
  | (Ok _, s') => (true, s')
  | (Err e, s') => (false, set_log s' (denied (log s') cap_id required call (reason e) t))
  | (Panic, s') => (false, s')
  end.

Definition holds (now : Z) (cap_id : CapId) (required : Rights) (s : Sys) : bool * Sys :=
  match check_global now cap_id required s with
  | (Ok _, s') => (true, s')
  | (_, s') => (false, s')
  end.

Definition check_pci_device (now : Z) (cap_id : CapId) (required : Rights)
    (bus device function : Z) : M Sys CapError unit :=
  cap ← check now cap_id required;
  match resource cap with
  | PciDevice b d f =>
      if (b =? bus) && (d =? device) && (f =? function) then mret tt
      else fail InsufficientRights
  | Kernel => mret tt
  | _ => fail InsufficientRights
  end.

Definition usage_of (s : Sys) (cap_id : CapId) : option (Rights * Rights * Z) :=
  i ← position (λ _ o, occupied_by cap_id o) (caps (vault s));
  o ← caps (vault s) !! i;
  c ← o;
  Some (rights c, slot_used s i, slot_checks_of s i).

(** Each slot reads the clock itself. *)
Definition stats (tk : nat → Z) (v : Vault) : nat * nat :=
  (length (List.filter (λ p, match p.2 with
                             | Some c => active c && negb (is_expired (tk p.1) c)
                             | None => false
                             end) (imap (λ i o, (i, o)) (caps v))),
   MAX_CAPABILITIES).

(** ** Revoking *)
Definition deactivate (c : Capability) : Capability :=
  mkCap (id c) (resource c) (rights c) (parent c) false (expires_at c).

(** The first loop: the target itself. *)
Definition mark_target (target : CapId) (cs : list (option Capability)) : list (option Capability) :=
  (λ o, match o with
        | Some c => Some (if bool_decide (id c = target) then deactivate c else c)
        | None => None
        end) <$> cs.

(** [let revoked = ... filter(|c| !c.active).map(|c| c.id).collect()]. *)
Definition revoked_ids (cs : list (option Capability)) : list CapId :=
  id <$> filter (λ c, active c = false) (omap (λ o, o) cs).

Definition child_of_revoked (revoked : list CapId) (c : Capability) : bool :=
  active c && match parent c with Some p => bool_decide (p ∈ revoked) | None => false end.

(** One pass of the second loop: the slots after it and whether any changed. *)
Definition revoke_pass (cs : list (option Capability)) : list (option Capability) * bool :=
  let revoked := revoked_ids cs in
  ((λ o, match o with
         | Some c => Some (if child_of_revoked revoked c then deactivate c else c)
         | None => None
         end) <$> cs,
   existsb (λ o, match o with Some c => child_of_revoked revoked c | None => false end) cs).

(** [loop { ..; if !changed { break; } }]; [None] when the fuel runs out. *)
Fixpoint revoke_loop (fuel : nat) (cs : list (option Capability))
    : option (list (option Capability)) :=
  match fuel with
  | O => None
  | S fuel =>
      let '(cs', changed) := revoke_pass cs in
      if changed then revoke_loop fuel cs' else Some cs'
  end.

(** Every pass but the last deactivates a slot, so one pass per slot and one
    more are enough ([revoke_loop_total]). *)
Definition revoke_recursive (target : CapId) (cs : list (option Capability))
    : list (option Capability) :=
  let cs' := mark_target target cs in
  default cs' (revoke_loop (S (length cs')) cs').

(** ["{:08x}"]. *)
Definition hex_digit (d : Z) : byte := byte_of (if d <? 10 then 48 + d else 87 + d).
Definition hex8 (z : Z) : str :=
  (λ k, hex_digit (Z.land (Z.shiftr z (4 * k)) 15)) <$> reverse (seqZ 0 8).

(** [u32::from_be_bytes([id[0], id[1], id[2], id[3]])]. *)
Definition short_id (cap : CapId) : Z := of_le (reverse (take 4 cap)).

Definition revoke (t : Stamp) (revoker_id target_id : CapId) : M Sys CapError unit := λ s,
  match find (vault s) revoker_id with
  | None => (Err NotFound, s)
  | Some revoker =>
    if negb (contains (rights revoker) REVOKE)
    then (Err InsufficientRights,
          set_log s (denied (log s) revoker_id REVOKE (ascii "revoke") [] t))
    else
      let s1 := set_vault s (mkVault (revoke_recursive target_id (caps (vault s))) (count (vault s))) in
      (Ok tt, set_log s1 (record (log s1) revoker_id Revoke (hex8 (short_id target_id)) t))
  end.

(** The second half of [Vault::release]: inactive slots are emptied and their
    holders journalled, in slot order. *)
Fixpoint release_slots (st : nat → Stamp) (s : Sys) (i : nat) (todo : list (option Capability))
    (j : Journal) (cnt : Z) : list (option Capability) * Journal * Z :=
  match todo with
  | [] => ([], j, cnt)
  | o :: rest =>
      match o with
      | Some c =>
          if active c then
            let '(cs, j', cnt') := release_slots st s (S i) rest j cnt in (Some c :: cs, j', cnt')
          else
            let j1 := released j (id c) (slot_checks_of s i) (slot_used s i) (st i) in
            let '(cs, j', cnt') := release_slots st s (S i) rest j1 (sat_sub cnt 1) in
            (None :: cs, j', cnt')
      | None =>
          let '(cs, j', cnt') := release_slots st s (S i) rest j cnt in (None :: cs, j', cnt')
      end
  end.

Definition release (st : nat → Stamp) (cap : CapId) (s : Sys) : Sys :=
  let cs := revoke_recursive cap (caps (vault s)) in
  let '(cs', j', cnt') := release_slots st s 0 cs (log s) (count (vault s)) in
  set_log (set_vault s (mkVault cs' cnt')) j'.

(** ** The module's entry points *)
Definition create_module_cap (tk : nat → Z) (st : nat → Stamp) (next_id : CapId)
    (name : str) (rts : Rights) (ttl : option Z) : M Sys CapError CapId := λ s,
  create tk st next_id (root_cap s) Execute rts ttl name s.

Definition create_driver_cap (tk : nat → Z) (st : nat → Stamp) (next_id : CapId)
    (name : str) (bus device function : Z) (rts : Rights) (ttl : option Z)
    : M Sys CapError CapId := λ s,
  create tk st next_id (root_cap s) (PciDevice bus device function) rts ttl name s.

Definition release_module_cap (st : nat → Stamp) (cap : CapId) (s : Sys) : Sys :=
  if bool_decide (cap = root_cap s) then s else release st cap s.

(** ** Per-path grants *)
Definition MAX_PATH_GRANTS : nat := 64.
Definition SLASH : byte := x2f.

(** [path.split('/')]: always at least one segment. *)
Fixpoint split_slash (s : str) : list str :=
  match s with
  | [] => [[]]
  | b :: s' =>
      if decide (b = SLASH) then [] :: split_slash s'
      else match split_slash s' with
           | seg :: rest => (b :: seg) :: rest
           | [] => [[b]]
           end
  end.

Definition plain_segment (seg : str) : bool :=
  bool_decide (seg ≠ []) && bool_decide (seg ≠ ascii ".") && bool_decide (seg ≠ ascii "..").

Definition canonical (path : str) : bool :=
  bool_decide (path ≠ []) && forallb plain_segment (split_slash path).

(** The one grant of [cap] for this path and shape, if there is one. *)
Definition same_grant (cap : CapId) (path : str) (tree : bool) (e : PathGrant) : Prop :=
  g_cap e = cap ∧ g_path e = path ∧ g_tree e = tree.
#[global] Instance same_grant_dec cap path tree e : Decision (same_grant cap path tree e).
Proof. unfold same_grant. apply _. Defined.

Definition widen (rts : Rights) (e : PathGrant) : PathGrant :=
  mkGrant (g_cap e) (g_path e) (union (g_rights e) rts) (g_tree e).

(** [Vec::remove(i)]. *)
Definition remove_at {A} (i : nat) (l : list A) : list A := take i l ++ drop (S i) l.

Definition push_grant (cap : CapId) (path : str) (rts : Rights) (tree : bool)
    (g : list PathGrant) : list PathGrant :=
  match list_find (same_grant cap path tree) g with
  | Some (i, _) => alter (widen rts) i g
  | None =>
      let g1 :=
        if decide (MAX_PATH_GRANTS ≤ length (filter (λ e, g_cap e = cap) g))%nat
        then match position (λ _ e, bool_decide (g_cap e = cap)) g with
             | Some i => remove_at i g
             | None => g
             end
        else g in
      g1 ++ [mkGrant cap path rts tree]
  end.

Definition grant_path (t : Stamp) (cap : CapId) (path : str) (rts : Rights) (s : Sys) : Sys :=
  let s1 := set_grants s (push_grant cap path rts false (path_grants s)) in
  set_log s1 (granted (log s1) cap path rts t).

Definition grant_tree (t : Stamp) (cap : CapId) (dir : str) (rts : Rights) (s : Sys) : bool * Sys :=
  if negb (canonical dir) then (false, s)
  else
    let top := default [] (head (split_slash dir)) in
    if bool_decide (top = ascii "sys") || bool_decide (top = ascii ".system")
       || bool_decide (top = ascii "priv") then (false, s)
    else if bool_decide (dir = ascii "ext") then (false, s)
    else
      let s1 := set_grants s (push_grant cap dir rts true (path_grants s)) in
      (true, set_log s1 (granted (log s1) cap (dir ++ ascii "/") rts t)).

(** [path] lies below [dir], at a path boundary. *)
Definition below (dir path : str) : bool :=
  (zlen dir <? zlen path) && bool_decide (dir `prefix_of` path)
  && bool_decide (path !! length dir = Some SLASH).

Definition covers (canon : bool) (cap : CapId) (path : str) (rts : Rights) (e : PathGrant) : bool :=
  bool_decide (g_cap e = cap) && contains (g_rights e) rts
  && (bool_decide (g_path e = path) || (g_tree e && canon && below (g_path e) path)).

Definition check_path_grant (cap : CapId) (path : str) (rts : Rights) (s : Sys) : bool :=
  existsb (covers (canonical path) cap path rts) (path_grants s).

Definition revoke_path_grants (cap : CapId) (s : Sys) : Sys :=
  set_grants s (filter (λ e, g_cap e ≠ cap) (path_grants s)).

(** ** The [.npk.caps] section of a module *)
Definition has_bit (b mask : Z) : bool := negb (Z.land b mask =? 0).
Definition or_if (c : bool) (q r : Rights) : Rights := if c then union r q else r.

Definition rights_from_caps_byte (b : Z) : Rights :=
  or_if (has_bit b 0x80) NETCTL
  (or_if (has_bit b 0x40) HARDWARE
  (or_if (has_bit b 0x20) CANVAS
  (or_if (has_bit b 0x10) CAPTURE
  (or_if (has_bit b 0x08) RENDER
  (or_if (has_bit b 0x04) EXECUTE
  (or_if (has_bit b 0x02) WRITE
  (or_if (has_bit b 0x01) READ 0))))))).

Definition rights_from_caps_byte2 (b : Z) : Rights :=
  or_if (has_bit b 0x40) AUDIT
  (or_if (has_bit b 0x20) SETTINGS
  (or_if (has_bit b 0x10) MIC
  (or_if (has_bit b 0x08) CAMERA
  (or_if (has_bit b 0x04) EXTERNAL
  (or_if (has_bit b 0x02) SHELL
  (or_if (has_bit b 0x01) NET 0)))))).

Definition default_widget_rights : Rights := union (union READ EXECUTE) RENDER.

Fixpoint leb128_loop (buf : list byte) (i result shift : Z) : option (Z * Z) :=
  match buf with
  | [] => None
  | b :: buf =>
      if 32 <=? shift then None
      else
        let result := Z.lor result (u32 (Z.shiftl (Z.land (bval b) 0x7f) shift)) in
        if Z.land (bval b) 0x80 =? 0 then Some (result, i + 1)
        else leb128_loop buf (i + 1) result (shift + 7)
  end.

Definition read_leb128_u32 (buf : list byte) : option (Z * Z) := leb128_loop buf 0 0 0.

Definition WASM_MAGIC : list byte := [x00; x61; x73; x6d].
Definition WASM_VERSION : list byte := [x01; x00; x00; x00].

(** The section walk: [Ok None] is the code's [None], [Panic] an index out of
    range or the fuel running out.  Each turn consumes at least the section id,
    so the length of the module is fuel enough ([custom_section_total]). *)
Fixpoint custom_section_loop (fuel : nat) (target : str) (cur : list byte)
    : res Empty_set (option (list byte)) :=
  match fuel with
  | O => Panic
  | S fuel =>
      match cur with
      | [] => Ok None
      | section_id :: cur =>
          match read_leb128_u32 cur with
          | None => Ok None
          | Some (size, consumed) =>
              match sub cur consumed (zlen cur - consumed) with
              | None => Panic
              | Some cur =>
                  if zlen cur <? size then Ok None
                  else
                    match sub cur 0 size, sub cur size (zlen cur - size) with
                    | Some payload, Some rest =>
                        if negb (bval section_id =? 0) then custom_section_loop fuel target rest
                        else
                          match read_leb128_u32 payload with
                          | None => Ok None
                          | Some (name_len, consumed) =>
                              let name_end := consumed + name_len in
                              if zlen payload <? name_end then custom_section_loop fuel target rest
                              else
                                match sub payload consumed name_len,
                                      sub payload name_end (zlen payload - name_end) with
                                | Some name, Some body =>
                                    if bool_decide (name = target) then Ok (Some body)
                                    else custom_section_loop fuel target rest
                                | _, _ => Panic
                                end
                          end
                    | _, _ => Panic
                    end
              end
          end
      end
  end.

Definition extract_wasm_custom_section (wasm : list byte) (target : str)
    : res Empty_set (option (list byte)) :=
  if (zlen wasm <? 8) || bool_decide (take 4 wasm ≠ WASM_MAGIC)
     || bool_decide (take 4 (drop 4 wasm) ≠ WASM_VERSION)
  then Ok None
  else custom_section_loop (S (length wasm)) target (drop 8 wasm).

Definition widget_rights_from_wasm (wasm : list byte) : res Empty_set Rights :=
  match extract_wasm_custom_section wasm (ascii ".npk.caps") with
  | Ok (Some (b0 :: rest)) =>
      let r := rights_from_caps_byte (bval b0) in
      Ok (match rest with
          | b1 :: _ => union r (rights_from_caps_byte2 (bval b1))
          | [] => r
          end)
  | Ok _ => Ok default_widget_rights
  | Err e => Err e
  | Panic => Panic
  end.

(** [READ|WRITE|NET], [ALL], or [-]: [iter_names] yields each named flag that is
    contained and not yet accounted for. *)
Fixpoint iter_names (flags : list (str * Rights)) (remaining source : Rights) : list str :=
  match flags with
  | [] => []
  | (name, f) :: flags =>
      if contains source f && negb (Z.land remaining f =? 0)
      then name :: iter_names flags (Z.land remaining (Z.lnot f)) source
      else iter_names flags remaining source
  end.

Definition rights_names (r : Rights) : str :=
  if r =? 0 then ascii "-"
  else if r =? ALL then ascii "ALL"
  else foldl (λ out n, if bool_decide (out = []) then n else out ++ ascii "|" ++ n) []
         (iter_names named r r).
