(* ===== verification/CapabilityInv.v ===== *)
(** * Invariants of the capability vault

    What a token grants is derived from the root: every live token has a live
    parent with at least its rights and no earlier expiry, up to the root
    ([authorised]).  Issuing, checking, revoking, releasing and the passage of
    time preserve it; revocation takes exactly the descendants. *)

From S2P Require Import Prelude Bytes Rights AuditLog Capability.

(** Slot [i] holds [c]. *)
Definition occ (cs : list (option Capability)) (i : nat) (c : Capability) : Prop :=
  cs !! i = Some (Some c).

Definition live (now : Z) (c : Capability) : Prop :=
  active c = true ∧ is_expired now c = false.

(** An expiry no later than another ([None] never expires). *)
Definition exp_le (a b : option Z) : Prop :=
  match b with
  | None => True
  | Some e => match a with Some e' => e' ≤ e | None => False end
  end.

(** [d] may delegate [c]: rights and lifetime shrink. *)
Definition attenuates (d c : Capability) : Prop :=
  subrights (rights c) (rights d) ∧ contains (rights d) DELEGATE = true ∧
  exp_le (expires_at c) (expires_at d).

(** The token's authority derives from the root through live tokens. *)
Inductive authorised (now : Z) (root : CapId) (cs : list (option Capability))
    : Capability → Prop :=
  | auth_root i c :
      occ cs i c → live now c → parent c = None → id c = root →
      authorised now root cs c
  | auth_child i c k d :
      occ cs i c → live now c → parent c = Some (id d) →
      occ cs k d → attenuates d c → authorised now root cs d →
      authorised now root cs c.

Record vault_inv (now : Z) (root : CapId) (cs : list (option Capability)) : Prop := {
  vi_len : length cs = MAX_CAPABILITIES;
  vi_uniq i j c d : occ cs i c → occ cs j d → id c = id d → i = j;
  vi_auth i c : occ cs i c → live now c → authorised now root cs c;
}.

(** ** Searching the slots *)
Section position.
Context {A : Type} (p : nat → A → bool).

Lemma position_from_Some i l n :
  position_from p i l = Some n →
  ∃ x, l !! (n - i)%nat = Some x ∧ (i ≤ n)%nat ∧ p n x = true ∧
    ∀ k y, (i ≤ k < n)%nat → l !! (k - i)%nat = Some y → p k y = false.
Proof.
  revert i. induction l as [|x l IH]; intros i; simpl; [done|].
  destruct (p i x) eqn:E; intros H.
  - injection H as <-. exists x. rewrite Nat.sub_diag. repeat split; auto; lia.
  - apply IH in H as (y & Hy & Hin & Hp & Hmin). exists y.
    replace (n - i)%nat with (S (n - S i)) by lia. repeat split; auto; [lia|].
    intros k z Hk Hz. destruct (decide (k = i)) as [->|].
    + rewrite Nat.sub_diag in Hz. simpl in Hz. congruence.
    + apply (Hmin k z); [lia|]. by replace (k - i)%nat with (S (k - S i)) in Hz by lia.
Qed.

Lemma position_Some l n :
  position p l = Some n → ∃ x, l !! n = Some x ∧ p n x = true.
Proof.
  intros (x & Hx & _ & Hp & _)%position_from_Some. rewrite Nat.sub_0_r in Hx. eauto.
Qed.

Lemma position_from_None i l :
  position_from p i l = None → ∀ k x, l !! k = Some x → p (i + k)%nat x = false.
Proof.
  revert i. induction l as [|x l IH]; intros i; simpl; [done|].
  destruct (p i x) eqn:E; [done|]. intros H [|k] y Hy; simpl in Hy.
  - rewrite Nat.add_0_r. congruence.
  - rewrite Nat.add_succ_r. by apply (IH _ H).
Qed.

Lemma position_None l : position p l = None → ∀ k x, l !! k = Some x → p k x = false.
Proof. apply (position_from_None 0). Qed.
End position.

Lemma find_occ v cid c : find v cid = Some c → ∃ i, occ (caps v) i c ∧ id c = cid.
Proof.
  unfold find. intros ([? c'] & H & ->)%fmap_Some. simpl.
  apply list_find_Some in H as (H & Hid & _).
  assert (c' ∈ omap (λ o, o) (caps v)) as Hin by (eapply list_elem_of_lookup_2; eauto).
  apply list_elem_of_omap in Hin as (o & Ho & ->).
  apply list_elem_of_lookup in Ho as (i & Hi). by exists i.
Qed.

Lemma find_None v cid i c : find v cid = None → occ (caps v) i c → id c ≠ cid.
Proof.
  unfold find. intros H Hocc Hid. destruct (list_find _ _) eqn:E; [done|].
  apply list_find_None in E. eapply Forall_forall in E; [by apply E|].
  apply list_elem_of_omap. exists (Some c). split; [|done]. by eapply list_elem_of_lookup_2.
Qed.

Lemma find_slot_spec tk root cs n :
  find_slot tk root cs = Some n →
  cs !! n = Some None ∨
  ∃ c, occ cs n c ∧ id c ≠ root ∧ (active c = false ∨ is_expired (tk (S n)) c = true).
Proof.
  unfold find_slot. destruct (position _ cs) as [i|] eqn:E.
  - intros [= <-]. apply position_Some in E as (x & Hx & Hp). apply bool_decide_eq_true in Hp.
    subst. by left.
  - intros H. apply position_Some in H as (x & Hx & Hp). right.
    destruct x as [c|]; simpl in Hp; [|done]. exists c.
    apply andb_true_iff in Hp as [Hid Hp]. apply bool_decide_eq_true in Hid.
    apply orb_true_iff in Hp as [Hp|Hp]; [apply negb_true_iff in Hp|]; auto.
Qed.

(** ** Time *)
Lemma is_expired_mono now now' c :
  now ≤ now' → is_expired now c = true → is_expired now' c = true.
Proof. unfold is_expired. destruct (expires_at c); [|done]. rewrite !Z.leb_le. lia. Qed.

Lemma live_mono now now' c : now ≤ now' → live now' c → live now c.
Proof.
  intros Hle [Ha He]. split; [done|].
  destruct (is_expired now c) eqn:E; [|done].
  apply (is_expired_mono now now') in E; [congruence|done].
Qed.

Lemma exp_le_unexpired now c d :
  exp_le (expires_at c) (expires_at d) → is_expired now c = false → is_expired now d = false.
Proof.
  unfold exp_le, is_expired. destruct (expires_at d), (expires_at c); try done.
  rewrite !Z.leb_gt. lia.
Qed.

Lemma authorised_live now root cs c : authorised now root cs c → live now c.
Proof. by destruct 1. Qed.

Lemma authorised_occ now root cs c : authorised now root cs c → ∃ i, occ cs i c.
Proof. destruct 1; eauto. Qed.

Lemma authorised_time now now' root cs c :
  now ≤ now' → live now' c → authorised now root cs c → authorised now' root cs c.
Proof.
  intros Hle Hl H. induction H as [i c Ho Hlv Hp Hid|i c k d Ho Hlv Hp Hk Hatt Hd IH].
  - by eapply auth_root.
  - eapply auth_child; eauto. apply IH. destruct Hatt as (?&?&?). split.
    + by destruct (authorised_live _ _ _ _ Hd).
    + eapply exp_le_unexpired; [done|]. apply Hl.
Qed.

(** Time passing preserves the invariant. *)
Lemma vault_inv_time now now' root cs :
  now ≤ now' → vault_inv now root cs → vault_inv now' root cs.
Proof.
  intros Hle [Hl Hu Ha]. split; auto.
  intros i c Hi Hlive. eapply authorised_time; eauto. eapply Ha; eauto using live_mono.
Qed.

(** ** Issuing *)
Lemma child_expiry_le now ttl pe : exp_le (child_expiry now ttl pe) pe.
Proof. unfold child_expiry, exp_le. destruct ttl, pe; simpl; lia. Qed.

Lemma occ_insert cs n c i d :
  (n < length cs)%nat →
  occ (<[n := Some c]> cs) i d ↔ (i = n ∧ d = c) ∨ (i ≠ n ∧ occ cs i d).
Proof.
  intros Hn. unfold occ. destruct (decide (i = n)) as [->|].
  - rewrite list_lookup_insert_eq by done. naive_solver.
  - rewrite list_lookup_insert_ne by done. naive_solver.
Qed.

(** A slot taken over by a new token: tokens that are live stay authorised,
    since the token that leaves is not live. *)
Lemma authorised_insert now root cs n c' c :
  (n < length cs)%nat →
  (∀ old, occ cs n old → ¬ live now old) →
  authorised now root cs c → authorised now root (<[n := Some c']> cs) c.
Proof.
  intros Hn Hold H.
  assert (Hkeep : ∀ i d, occ cs i d → live now d → occ (<[n := Some c']> cs) i d).
  { intros i d Hd Hl. apply occ_insert; [done|]. right. split; [|done].
    intros ->. by apply (Hold d). }
  induction H as [i c Ho Hl Hp Hid|i c k d Ho Hl Hp Hk Hatt Hd IH].
  - eapply auth_root; eauto.
  - eapply auth_child; eauto. apply Hkeep; [done|]. by eapply authorised_live.
Qed.

Section create.
Context (tk : nat → Z) (Htk : ∀ i j, (i ≤ j)%nat → tk i ≤ tk j).

Lemma create_inv st nid pid rk rts ttl h s :
  vault_inv (tk 0%nat) (root_cap s) (caps (vault s)) →
  (∀ i c, occ (caps (vault s)) i c → id c ≠ nid) →
  let '(_, s') := create tk st nid pid rk rts ttl h s in
  vault_inv (tk (S MAX_CAPABILITIES)) (root_cap s') (caps (vault s')) ∧
  root_cap s' = root_cap s ∧ path_grants s' = path_grants s.
Proof using Htk.
  intros Hinv Hfresh.
  assert (Hend : vault_inv (tk (S MAX_CAPABILITIES)) (root_cap s) (caps (vault s))).
  { eapply vault_inv_time, Hinv. apply Htk. lia. }
  unfold create.
  destruct (find (vault s) pid) as [par|] eqn:Hf; [|done].
  destruct (active par) eqn:Hact; simpl; [|done].
  destruct (is_expired (tk 0%nat) par) eqn:Hexp; [done|].
  destruct (contains (rights par) DELEGATE) eqn:Hdel; simpl; [|done].
  destruct (contains (rights par) rts) eqn:Hsub; simpl; [|done].
  destruct (find_slot _ _ _) as [n|] eqn:Hs; [|done]. simpl.
  split; [|done].
  set (c' := mkCap nid rk rts (Some pid) true (child_expiry (tk 257%nat) ttl (expires_at par))).
  apply find_slot_spec in Hs.
  assert (Hold : ∀ old, occ (caps (vault s)) n old → ¬ live (tk 257%nat) old).
  { intros old Ho [Ha He]. destruct Hs as [Hs|(c & Hc & _ & Hd)]; unfold occ in *; [congruence|].
    assert (c = old) as -> by congruence. destruct Hd as [Hd|Hd]; [congruence|].
    assert (Hn : (n < 256)%nat).
    { pose proof (vi_len _ _ _ Hinv) as Hlen. apply lookup_lt_Some in Hc.
      unfold MAX_CAPABILITIES in Hlen. lia. }
    apply (is_expired_mono _ (tk 257%nat)) in Hd; [congruence|]. apply Htk. lia. }
  assert (Hlt : (n < length (caps (vault s)))%nat).
  { destruct Hs as [Hs|(c & Hc & _)]; by eapply lookup_lt_Some. }
  apply find_occ in Hf as (k & Hk & Hpid).
  destruct Hend as [Hl Hu Ha]. split.
  - by rewrite length_insert.
  - intros i j c d Hi Hj Hid.
    rewrite occ_insert in Hi, Hj by done.
    destruct Hi as [[-> ->]|[? Hi]], Hj as [[-> ->]|[? Hj]]; simpl in *; [done|..].
    + by apply Hfresh in Hj.
    + by apply Hfresh in Hi.
    + by eapply Hu.
  - intros i c Hi Hlive. rewrite occ_insert in Hi by done.
    destruct Hi as [[-> ->]|[? Hi]].
    + assert (Hpl : live (tk 257%nat) par).
      { split; [done|]. eapply exp_le_unexpired; [|apply Hlive]. apply child_expiry_le. }
      eapply auth_child with (k := k) (d := par).
      * apply occ_insert; eauto.
      * done.
      * simpl. by rewrite Hpid.
      * apply occ_insert; [done|]. right. split; [|done]. intros ->. by apply (Hold par).
      * split_and!; [done|done|]. apply child_expiry_le.
      * apply authorised_insert; eauto.
    + apply authorised_insert; eauto.
Qed.
End create.

(** ** Revoking *)

(** [cs'] is [cs] with some tokens deactivated. *)
Definition lowered (o o' : option Capability) : Prop :=
  match o, o' with
  | None, None => True
  | Some c, Some c' => c' = c ∨ c' = deactivate c
  | _, _ => False
  end.

(** The tokens a revocation of [t] has to take: [t] itself, what is inactive
    already, and what was delegated from either, however deep. *)
Inductive condemned (cs : list (option Capability)) (t : CapId) : Capability → Prop :=
  | cond_target i c : occ cs i c → id c = t → condemned cs t c
  | cond_inactive i c : occ cs i c → active c = false → condemned cs t c
  | cond_child i c k d :
      occ cs i c → parent c = Some (id d) → occ cs k d → condemned cs t d → condemned cs t c.

Lemma lowered_refl o : lowered o o.
Proof. destruct o; simpl; auto. Qed.

Lemma lowered_trans o1 o2 o3 : lowered o1 o2 → lowered o2 o3 → lowered o1 o3.
Proof. destruct o1, o2, o3; simpl; try done. naive_solver. Qed.

#[global] Instance lowered_preorder : PreOrder lowered.
Proof. split; [exact lowered_refl|exact lowered_trans]. Qed.

Lemma lowered_occ cs cs' i c' :
  Forall2 lowered cs cs' → occ cs' i c' →
  ∃ c, occ cs i c ∧ id c' = id c ∧ parent c' = parent c ∧ (active c' = true → c' = c).
Proof.
  intros H Ho. destruct (Forall2_lookup_r _ _ _ _ _ H Ho) as ([c|] & Hc & Hl); [|done].
  exists c. unfold occ. split; [done|]. destruct Hl as [->| ->]; simpl; auto.
  by split_and!.
Qed.

Lemma lowered_occ_inv cs cs' i c :
  Forall2 lowered cs cs' → occ cs i c →
  ∃ c', occ cs' i c' ∧ id c' = id c ∧ parent c' = parent c ∧ (active c' = true → c' = c).
Proof.
  intros H Ho. destruct (Forall2_lookup_l _ _ _ _ _ H Ho) as ([c'|] & Hc & Hl); [|done].
  exists c'. split; [done|]. destruct Hl as [->| ->]; simpl; auto. by split_and!.
Qed.

Lemma fmap_lowered (f : option Capability → option Capability) cs :
  (∀ o, lowered o (f o)) → Forall2 lowered cs (f <$> cs).
Proof. intros Hf. apply Forall2_fmap_r, Forall_Forall2_diag, Forall_true. auto. Qed.

Lemma mark_target_lowered t cs : Forall2 lowered cs (mark_target t cs).
Proof. apply fmap_lowered. intros [c|]; simpl; [|done]. case_bool_decide; auto. Qed.

Lemma revoke_pass_lowered cs : Forall2 lowered cs (revoke_pass cs).1.
Proof. apply fmap_lowered. intros [c|]; simpl; [|done]. destruct (child_of_revoked _ _); auto. Qed.

Lemma elem_of_revoked_ids cs p :
  p ∈ revoked_ids cs ↔ ∃ i c, occ cs i c ∧ active c = false ∧ id c = p.
Proof.
  unfold revoked_ids. rewrite list_elem_of_fmap. split.
  - intros (c & -> & [Ha Hc]%list_elem_of_filter).
    apply list_elem_of_omap in Hc as (o & Ho & ->).
    apply list_elem_of_lookup in Ho as (i & Hi). by exists i, c.
  - intros (i & c & Hi & Ha & <-). exists c. split; [done|].
    apply list_elem_of_filter. split; [done|]. apply list_elem_of_omap.
    exists (Some c). split; [|done]. by eapply list_elem_of_lookup_2.
Qed.

(** Every token a pass leaves inactive is condemned. *)
Definition sound (t : CapId) (cs0 cs : list (option Capability)) : Prop :=
  Forall2 lowered cs0 cs ∧
  ∀ i c, occ cs0 i c → (∃ c', occ cs i c' ∧ active c' = false) → condemned cs0 t c.

Lemma mark_target_sound t cs : sound t cs (mark_target t cs).
Proof.
  split; [apply mark_target_lowered|]. intros i c Hi (c' & Hc' & Ha).
  unfold occ, mark_target in Hc'. rewrite list_lookup_fmap, Hi in Hc'. simpl in Hc'.
  injection Hc' as <-. case_bool_decide.
  - by eapply cond_target.
  - by eapply cond_inactive.
Qed.

Lemma revoke_pass_sound t cs0 cs : sound t cs0 cs → sound t cs0 (revoke_pass cs).1.
Proof.
  intros [Hlow Hs]. split.
  { etrans; [done|apply revoke_pass_lowered]. }
  intros i c Hi (c' & Hc' & Ha).
  destruct (lowered_occ_inv _ _ _ _ Hlow Hi) as (c1 & Hc1 & Hid & Hpar & Hact).
  unfold occ in Hc', Hc1. simpl in Hc'. rewrite list_lookup_fmap, Hc1 in Hc'. simpl in Hc'.
  injection Hc' as <-. unfold child_of_revoked in Ha.
  destruct (active c1) eqn:Hac; simpl in Ha; [|eapply Hs; eauto].
  destruct (parent c1) as [p|] eqn:Hp; [|congruence].
  case_bool_decide as Hin; [|congruence].
  apply elem_of_revoked_ids in Hin as (k & d & Hd & Hda & Hdid).
  destruct (lowered_occ _ _ _ _ Hlow Hd) as (d0 & Hd0 & Hid0 & _ & _).
  eapply cond_child with (d := d0); eauto. congruence.
Qed.

(** A pass that changes nothing. *)
Lemma revoke_pass_stable cs :
  (revoke_pass cs).2 = false →
  (∀ i c, occ cs i c → child_of_revoked (revoked_ids cs) c = false) ∧ (revoke_pass cs).1 = cs.
Proof.
  simpl. intros Hch.
  assert (Hno : ∀ i c, occ cs i c → child_of_revoked (revoked_ids cs) c = false).
  { intros i c Hi. destruct (child_of_revoked _ c) eqn:Hc; [|done]. rewrite <- Hch. symmetry.
    apply existsb_exists. exists (Some c). split; [|done].
    apply list_elem_of_In. by eapply list_elem_of_lookup_2. }
  split; [done|]. apply list_eq. intros i. rewrite list_lookup_fmap.
  destruct (cs !! i) as [[c|]|] eqn:Hi; simpl; try done. by rewrite (Hno i c Hi).
Qed.

Lemma revoke_loop_sound t cs0 fuel cs cs' :
  sound t cs0 cs → revoke_loop fuel cs = Some cs' →
  sound t cs0 cs' ∧ (revoke_pass cs').2 = false ∧ Forall2 lowered cs cs'.
Proof.
  revert cs. induction fuel as [|fuel IH]; intros cs Hs; [done|].
  cbn [revoke_loop]. pose proof (revoke_pass_sound _ _ _ Hs) as Hs'.
  pose proof (revoke_pass_lowered cs) as Hlow.
  destruct (revoke_pass cs) as [cs1 ch] eqn:E. destruct ch; simpl in *.
  - intros H. destruct (IH _ Hs' H) as (? & ? & ?). split_and!; auto. by etrans.
  - intros [= <-].
    assert (Hst : (revoke_pass cs).2 = false) by by rewrite E.
    assert (cs1 = cs) as -> by (by rewrite <- (proj2 (revoke_pass_stable _ Hst)), E).
    by split_and!.
Qed.

(** ** Termination: every pass that reports a change lowers the number of active
    tokens. *)
Definition active_count (cs : list (option Capability)) : nat :=
  length (filter (λ c, active c = true) (omap (λ o, o) cs)).

Lemma active_count_cons o cs :
  active_count (o :: cs) =
    ((match o with Some c => if active c then 1 else 0 | None => 0 end) + active_count cs)%nat.
Proof.
  unfold active_count. destruct o as [c|]; simpl; [|done].
  rewrite filter_cons. destruct (active c); case_decide; naive_solver.
Qed.

Lemma active_count_le cs : (active_count cs ≤ length cs)%nat.
Proof.
  induction cs as [|o cs IH]; [done|]. rewrite active_count_cons. simpl.
  destruct o as [c|]; [destruct (active c)|]; lia.
Qed.

Lemma active_count_lowered cs cs' :
  Forall2 lowered cs cs' →
  (active_count cs' ≤ active_count cs)%nat ∧ (active_count cs' = active_count cs → cs' = cs ∨
    ∀ i, (active <$> (mjoin (cs' !! i))) = active <$> mjoin (cs !! i)).
Proof.
  induction 1 as [|o o' cs cs' Ho H IH]; [by auto|].
  rewrite !active_count_cons. destruct IH as [IH1 IH2].
  destruct o as [c|], o' as [c'|]; simpl in Ho; try done.
  - destruct Ho as [->| ->]; simpl.
    + split; [lia|]. intros He. right. intros [|i]; simpl; [done|].
      destruct IH2 as [->|]; [lia|done|auto].
    + destruct (active c) eqn:Ha; [split; [lia|intros; lia]|]. split; [lia|].
      intros He. right. intros [|i]; simpl; [by rewrite Ha|].
      destruct IH2 as [->|]; [lia|done|auto].
  - split; [lia|]. intros He. right. intros [|i]; simpl; [done|].
    destruct IH2 as [->|]; [lia|done|auto].
Qed.

Lemma revoke_pass_decreases cs :
  (revoke_pass cs).2 = true → (active_count (revoke_pass cs).1 < active_count cs)%nat.
Proof.
  intros Hch. pose proof (active_count_lowered _ _ (revoke_pass_lowered cs)) as [Hle Heq].
  destruct (decide (active_count (revoke_pass cs).1 = active_count cs)) as [E|]; [|lia].
  exfalso. simpl in Hch. apply existsb_exists in Hch as ([c|] & Hin & Hc); [|done].
  apply list_elem_of_In, list_elem_of_lookup in Hin as (i & Hi).
  assert (Hi' : (revoke_pass cs).1 !! i = Some (Some (deactivate c))).
  { simpl. rewrite list_lookup_fmap, Hi. simpl. by rewrite Hc. }
  unfold child_of_revoked in Hc. apply andb_true_iff in Hc as [Ha _].
  destruct (Heq E) as [Hid|Hact].
  - rewrite Hid, Hi in Hi'. injection Hi' as Hi'. by rewrite Hi' in Ha.
  - specialize (Hact i). rewrite Hi', Hi in Hact. simpl in Hact. congruence.
Qed.

Lemma revoke_loop_total fuel cs :
  (active_count cs < fuel)%nat → ∃ cs', revoke_loop fuel cs = Some cs'.
Proof.
  revert cs. induction fuel as [|fuel IH]; intros cs Hf; [lia|]. cbn [revoke_loop].
  pose proof (revoke_pass_decreases cs) as Hd.
  destruct (revoke_pass cs) as [cs1 [|]]; simpl in *; [|eauto]. apply IH.
  specialize (Hd eq_refl). lia.
Qed.

Lemma revoke_recursive_run t cs :
  ∃ cs', revoke_loop (S (length (mark_target t cs))) (mark_target t cs) = Some cs' ∧
    revoke_recursive t cs = cs'.
Proof.
  destruct (revoke_loop_total (S (length (mark_target t cs))) (mark_target t cs)) as [cs' H].
  { pose proof (active_count_le (mark_target t cs)). lia. }
  exists cs'. split; [done|]. unfold revoke_recursive. by rewrite H.
Qed.

Lemma revoke_recursive_lowered t cs : Forall2 lowered cs (revoke_recursive t cs).
Proof.
  destruct (revoke_recursive_run t cs) as (cs' & H & ->).
  by destruct (revoke_loop_sound _ _ _ _ _ (mark_target_sound t cs) H) as ((? & _) & _).
Qed.

Lemma revoke_recursive_stable t cs :
  (revoke_pass (revoke_recursive t cs)).2 = false.
Proof.
  destruct (revoke_recursive_run t cs) as (cs' & H & ->).
  by destruct (revoke_loop_sound _ _ _ _ _ (mark_target_sound t cs) H) as (_ & ? & _).
Qed.

Lemma revoke_recursive_target t cs i c :
  occ (revoke_recursive t cs) i c → id c = t → active c = false.
Proof.
  destruct (revoke_recursive_run t cs) as (cs' & H & ->). intros Hc Hid.
  destruct (revoke_loop_sound _ _ _ _ _ (mark_target_sound t cs) H) as (_ & _ & Hlow).
  destruct (lowered_occ _ _ _ _ Hlow Hc) as (c1 & Hc1 & Hid1 & _ & Hact).
  destruct (active c) eqn:Ha; [|done]. rewrite <- (Hact eq_refl) in Hc1.
  unfold occ, mark_target in Hc1. rewrite list_lookup_fmap in Hc1.
  destruct (cs !! i) as [[c0|]|]; simpl in Hc1; simplify_eq.
  by case_bool_decide; simplify_eq.
Qed.

(** No active token has an inactive parent after a revocation. *)
Lemma revoke_recursive_closed t cs i c k d :
  occ (revoke_recursive t cs) i c → occ (revoke_recursive t cs) k d →
  parent c = Some (id d) → active d = false → active c = false.
Proof.
  intros Hc Hd Hp Ha.
  destruct (revoke_pass_stable _ (revoke_recursive_stable t cs)) as [Hno _].
  specialize (Hno _ _ Hc). unfold child_of_revoked in Hno. rewrite Hp in Hno.
  apply andb_false_iff in Hno as [|Hno]; [done|].
  apply bool_decide_eq_false in Hno. exfalso. apply Hno, elem_of_revoked_ids. eauto.
Qed.

(** The specification of a revocation, as a set: it deactivates exactly the
    condemned tokens and leaves everything else of every slot as it was. *)
Lemma revoke_recursive_spec t cs i c :
  occ cs i c →
  ∃ c', occ (revoke_recursive t cs) i c' ∧ (c' = c ∨ c' = deactivate c) ∧
    (active c' = false ↔ condemned cs t c).
Proof.
  intros Hc. pose proof (revoke_recursive_lowered t cs) as Hlow.
  destruct (Forall2_lookup_l _ _ _ _ _ Hlow Hc) as ([c'|] & Hc' & Hl); [|done].
  exists c'. split; [done|]. split; [done|]. split.
  - intros Ha. destruct (revoke_recursive_run t cs) as (cs' & H & E).
    destruct (revoke_loop_sound _ _ _ _ _ (mark_target_sound t cs) H) as ((_ & Hs) & _).
    apply (Hs i c Hc). exists c'. by rewrite <- E.
  - intros Hcon. revert i c' Hc Hc' Hl.
    induction Hcon as [i0 c _ Hid|i0 c _ Ha|i0 c k d _ Hp Hd _ IH]; intros i c' Hc Hc' Hl.
    + eapply revoke_recursive_target; [exact Hc'|]. by destruct Hl as [->| ->].
    + destruct Hl as [->| ->]; [done|done].
    + destruct (Forall2_lookup_l _ _ _ _ _ Hlow Hd) as ([d'|] & Hd' & Hld); [|done].
      eapply (revoke_recursive_closed t cs i c' k d'); eauto.
      by destruct Hl as [->| ->], Hld as [->| ->].
Qed.

Lemma vault_inv_lowered now root cs cs' :
  vault_inv now root cs → Forall2 lowered cs cs' →
  (∀ i c k d, occ cs' i c → occ cs' k d → parent c = Some (id d) → active d = false →
     active c = false) →
  vault_inv now root cs'.
Proof.
  intros [Hl Hu Ha] Hlow Hcl. split.
  - by rewrite <- (Forall2_length _ _ _ Hlow).
  - intros i j c d Hi Hj Hid.
    destruct (lowered_occ _ _ _ _ Hlow Hi) as (c0 & Hc0 & ? & _).
    destruct (lowered_occ _ _ _ _ Hlow Hj) as (d0 & Hd0 & ? & _).
    eapply Hu; eauto. congruence.
  - intros i c Hi Hlive.
    destruct (lowered_occ _ _ _ _ Hlow Hi) as (c0 & Hc0 & _ & _ & Hact).
    rewrite <- (Hact (proj1 Hlive)) in Hc0. specialize (Ha _ _ Hc0 Hlive).
    clear Hact Hc0. revert i Hi. induction Ha as [i0 c Ho Hlv Hp Hid|i0 c k d Ho Hlv Hp Hk Hatt Hd IH];
      intros i Hi.
    + eapply auth_root; eauto.
    + destruct (lowered_occ_inv _ _ _ _ Hlow Hk) as (d' & Hd' & Hdid & _ & Hdact).
      destruct (active d') eqn:Hda.
      * rewrite (Hdact eq_refl) in *. eapply auth_child; eauto.
        eapply IH; [by eapply authorised_live|exact Hd'].
      * exfalso. assert (active c = false) by (eapply Hcl; eauto; congruence).
        destruct Hlive. congruence.
Qed.

Lemma revoke_recursive_inv now root t cs :
  vault_inv now root cs → vault_inv now root (revoke_recursive t cs).
Proof.
  intros H. eapply vault_inv_lowered; [done|apply revoke_recursive_lowered|].
  intros. by eapply revoke_recursive_closed.
Qed.

(** ** Releasing *)
Definition emptied (o : option Capability) : option Capability :=
  match o with Some c => if active c then Some c else None | None => None end.

Lemma release_slots_caps st s i todo j cnt :
  (release_slots st s i todo j cnt).1.1 = emptied <$> todo.
Proof.
  revert i j cnt. induction todo as [|[c|] todo IH]; intros i j cnt; [done|..]; simpl.
  - destruct (active c).
    + specialize (IH (S i) j cnt).
      destruct (release_slots st s (S i) todo j cnt) as [[??]?]. simpl in *. by f_equal.
    + match goal with |- context [release_slots st s (S i) todo ?a ?b] =>
        specialize (IH (S i) a b); destruct (release_slots st s (S i) todo a b) as [[??]?] end.
      simpl in *. by f_equal.
  - specialize (IH (S i) j cnt).
    destruct (release_slots st s (S i) todo j cnt) as [[??]?]. simpl in *. by f_equal.
Qed.

Lemma occ_emptied cs i c : occ (emptied <$> cs) i c ↔ occ cs i c ∧ active c = true.
Proof.
  unfold occ. rewrite list_lookup_fmap.
  destruct (cs !! i) as [[d|]|]; simpl; [|by split; [|intros [? _]]..].
  destruct (active d) eqn:E; split; [intros [= ->]|intros [[= ->] ?]| |intros [[= ->] ?]];
    congruence || auto.
Qed.

Lemma emptied_inv now root cs : vault_inv now root cs → vault_inv now root (emptied <$> cs).
Proof.
  intros [Hl Hu Ha]. split.
  - by rewrite length_fmap.
  - intros i j c d [Hi _]%occ_emptied [Hj _]%occ_emptied. by eapply Hu.
  - intros i c [Hi Hact]%occ_emptied Hlive. specialize (Ha _ _ Hi Hlive). clear Hi Hlive Hact.
    induction Ha as [i0 c Ho Hlv Hp Hid|i0 c k d Ho Hlv Hp Hk Hatt Hd IH].
    + eapply auth_root; eauto. apply occ_emptied. split; [done|apply Hlv].
    + eapply auth_child; eauto; apply occ_emptied; (split; [done|]); [apply Hlv|].
      by apply authorised_live in Hd as [].
Qed.

Lemma release_caps st cap s :
  caps (vault (release st cap s)) = emptied <$> revoke_recursive cap (caps (vault s)).
Proof.
  unfold release.
  pose proof (release_slots_caps st s 0 (revoke_recursive cap (caps (vault s))) (log s)
    (count (vault s))) as H.
  destruct (release_slots _ _ _ _ _ _) as [[??]?]. simpl in *. done.
Qed.

Lemma release_frame st cap s :
  root_cap (release st cap s) = root_cap s ∧ path_grants (release st cap s) = path_grants s.
Proof. unfold release. by destruct (release_slots _ _ _ _ _ _) as [[??]?]. Qed.
