(* ===== verification/CapabilitySpec.v ===== *)
(** * Theorems about the capability vault

    The vault as a state machine over its entry points, what its states satisfy,
    and the functional behaviour of each entry point. *)

From S2P Require Import Prelude Bytes Rights AuditLog Capability CapabilityInv.

(** ** The state machine

    A configuration is the tick clock and the statics.  The steps are the entry
    points, with any arguments a caller may pass, and time passing.  The only
    assumptions are on the inputs the module takes from elsewhere: the counter
    behind [ticks] does not run backwards, and a 256-bit id drawn from the CSPRNG
    is not the id of a token in the vault. *)
Definition monotone (tk : nat → Z) : Prop := ∀ i j, (i ≤ j)%nat → tk i ≤ tk j.

Definition unused_id (s : Sys) (nid : CapId) : Prop :=
  ∀ i c, occ (caps (vault s)) i c → id c ≠ nid.

Inductive sys_step : Z * Sys → Z * Sys → Prop :=
  | step_time now now' s : now ≤ now' → sys_step (now, s) (now', s)
  | step_create now tk st nid pid rk rts ttl h s r s' :
      now ≤ tk 0%nat → monotone tk → unused_id s nid →
      create tk st nid pid rk rts ttl h s = (r, s') →
      sys_step (now, s) (tk (S MAX_CAPABILITIES), s')
  | step_check now cap req s r s' :
      check now cap req s = (r, s') → sys_step (now, s) (now, s')
  | step_require now t cap req call s b s' :
      require now t cap req call s = (b, s') → sys_step (now, s) (now, s')
  | step_revoke now t by_ target s r s' :
      revoke t by_ target s = (r, s') → sys_step (now, s) (now, s')
  | step_release now st cap s :
      sys_step (now, s) (now, release_module_cap st cap s)
  | step_grant_path now t cap path rts s :
      sys_step (now, s) (now, grant_path t cap path rts s)
  | step_grant_tree now t cap dir rts s b s' :
      grant_tree t cap dir rts s = (b, s') → sys_step (now, s) (now, s')
  | step_revoke_grants now cap s :
      sys_step (now, s) (now, revoke_path_grants cap s).

Inductive reachable : Z * Sys → Prop :=
  | reach_init now t root : reachable (now, init t root boot)
  | reach_step x y : reachable x → sys_step x y → reachable y.

(** Checking changes counters only. *)
Lemma check_frame now cap req s r s' :
  check now cap req s = (r, s') →
  vault s' = vault s ∧ root_cap s' = root_cap s ∧ log s' = log s ∧ path_grants s' = path_grants s.
Proof.
  unfold check. repeat case_match; intros [= <- <-]; done.
Qed.

Lemma check_global_frame now cap req s r s' :
  check_global now cap req s = (r, s') →
  vault s' = vault s ∧ root_cap s' = root_cap s ∧ log s' = log s ∧ path_grants s' = path_grants s.
Proof.
  unfold check_global, mbind, M_bind, mret, M_ret.
  destruct (check now cap req s) as [[c|e|] s1] eqn:E; intros [= <- <-];
    by apply check_frame in E.
Qed.

Lemma require_frame now t cap req call s b s' :
  require now t cap req call s = (b, s') →
  vault s' = vault s ∧ root_cap s' = root_cap s ∧ path_grants s' = path_grants s.
Proof.
  unfold require. destruct (check_global now cap req s) as [[?|?|] s1] eqn:E;
    apply check_global_frame in E; intros [= <- <-]; simpl; naive_solver.
Qed.

Lemma init_inv now t root : vault_inv now root (caps (vault (init t root boot))).
Proof.
  set (c := mkCap root Kernel ALL None true None).
  assert (Hocc : ∀ i d, occ (caps (vault (init t root boot))) i d → i = 0%nat ∧ d = c).
  { intros i d.
    change (caps (vault (init t root boot)))
      with (<[0%nat := Some c]> (replicate MAX_CAPABILITIES None)).
    rewrite occ_insert by (rewrite length_replicate; unfold MAX_CAPABILITIES; lia).
    intros [?|[? Ho]]; [done|]. apply lookup_replicate in Ho. naive_solver. }
  split.
  - done.
  - intros i j d e [-> _]%Hocc [-> _]%Hocc. done.
  - intros i d Ho Hl. destruct (Hocc _ _ Ho) as [-> ->]. by eapply auth_root.
Qed.

Lemma sys_step_inv now s now' s' :
  sys_step (now, s) (now', s') →
  vault_inv now (root_cap s) (caps (vault s)) →
  vault_inv now' (root_cap s') (caps (vault s')) ∧ root_cap s' = root_cap s.
Proof.
  intros Hstep Hinv. inversion Hstep; subst.
  - split; [|done]. by eapply vault_inv_time.
  - match goal with Hm : monotone _, Hc : create _ _ _ _ _ _ _ _ _ = _ |- _ =>
      pose proof (create_inv tk Hm st nid pid rk rts ttl h s) as Hi; rewrite Hc in Hi end.
    destruct Hi as (? & ? & _); [|done|by split]. by eapply vault_inv_time.
  - match goal with Hc : check _ _ _ _ = _ |- _ => by apply check_frame in Hc as (-> & -> & _) end.
  - match goal with Hc : require _ _ _ _ _ _ = _ |- _ =>
      by apply require_frame in Hc as (-> & -> & _) end.
  - match goal with Hc : revoke _ _ _ _ = _ |- _ => unfold revoke in Hc end. destruct (find _ _) as [rv|]; [|by simplify_eq].
    destruct (contains _ _); simplify_eq/=; [|done]. split; [|done].
    by apply revoke_recursive_inv.
  - unfold release_module_cap. case_bool_decide; [done|].
    destruct (release_frame st cap s) as [-> _]. rewrite release_caps. split; [|done].
    by apply emptied_inv, revoke_recursive_inv.
  - done.
  - match goal with Hc : grant_tree _ _ _ _ _ = _ |- _ => unfold grant_tree in Hc end.
    repeat case_match; simplify_eq/=; done.
  - done.
Qed.

Lemma reachable_inv now s :
  reachable (now, s) → vault_inv now (root_cap s) (caps (vault s)).
Proof.
  remember (now, s) as x eqn:E. intros H. revert now s E.
  induction H as [now0 t root|x y Hx IH Hs]; intros now s E.
  - simplify_eq. apply init_inv.
  - subst y. destruct x as [now0 s0]. by apply (sys_step_inv _ _ _ _ Hs), IH.
Qed.

(** ** Authority *)

(** C1. In every state the vault can reach, a live token (active, not expired)
    derives from the root: it is the root token, or its parent sits in the vault,
    is live itself, holds the delegate right and every right of the token, does
    not expire before it, and again derives from the root.  Slots that are reused
    for new tokens never break such a chain. *)
Theorem live_tokens_derive_from_root now s i c :
  reachable (now, s) → occ (caps (vault s)) i c → live now c →
  authorised now (root_cap s) (caps (vault s)) c.
Proof. intros Hr Ho Hl. by eapply vi_auth; [apply reachable_inv|..]. Qed.

Lemma occupied_by_occ cid o : occupied_by cid o = true → ∃ c, o = Some c ∧ id c = cid.
Proof. destruct o; simpl; [|done]. intros ?%bool_decide_eq_true. eauto. Qed.

(** What [check] answers, on every branch. *)
Definition check_answer (now : Z) (cs : list (option Capability)) (cap : CapId) (req : Rights)
    (r : res CapError Capability) : Prop :=
  match r with
  | Ok c => ∃ i, occ cs i c ∧ id c = cap ∧ live now c ∧ subrights req (rights c)
  | Err NotFound => ∀ i c, occ cs i c → id c ≠ cap
  | Err Revoked => ∃ i c, occ cs i c ∧ id c = cap ∧ active c = false
  | Err Expired => ∃ i c, occ cs i c ∧ id c = cap ∧ active c = true ∧ is_expired now c = true
  | Err InsufficientRights =>
      ∃ i c, occ cs i c ∧ id c = cap ∧ live now c ∧ contains (rights c) req = false
  | _ => False
  end.

Lemma check_answers now cap req s :
  check_answer now (caps (vault s)) cap req (check now cap req s).1.
Proof.
  unfold check. destruct (position _ _) as [n|] eqn:Hp.
  - apply position_Some in Hp as (o & Ho & Hb). apply occupied_by_occ in Hb as (c & -> & Hid).
    rewrite Ho. simpl.
    destruct (active c) eqn:Ha; simpl; [|by exists n, c].
    destruct (is_expired now c) eqn:He; simpl; [by exists n, c|].
    destruct (contains (rights c) req) eqn:Hc; simpl; [|by exists n, c; unfold live].
    by exists n; unfold live, subrights.
  - simpl. intros i c Ho Hid. apply (position_None _ _ Hp i) in Ho. simpl in Ho.
    by apply bool_decide_eq_false in Ho.
Qed.

(** C17. A capability check that passes in a reachable state passes for a token
    that is in the vault, live, holds every right asked for and derives from the
    root; the vault, the root and the journal are unchanged by it. *)
Theorem check_passes_only_on_derived_authority now s cap req c s' :
  reachable (now, s) → check now cap req s = (Ok c, s') →
  id c = cap ∧ subrights req (rights c) ∧
  authorised now (root_cap s) (caps (vault s)) c ∧
  vault s' = vault s ∧ root_cap s' = root_cap s ∧ log s' = log s.
Proof.
  intros Hr Hc. pose proof (check_answers now cap req s) as Ha. rewrite Hc in Ha.
  destruct Ha as (i & Ho & Hid & Hl & Hsub).
  pose proof (check_frame _ _ _ _ _ _ Hc) as (? & ? & ? & _).
  split_and!; auto. by eapply vi_auth; [apply reachable_inv|..].
Qed.

(** ** Revocation *)

Lemma revoke_slots t by_ target s s' i c :
  revoke t by_ target s = (Ok tt, s') → occ (caps (vault s)) i c →
  ∃ c', occ (caps (vault s')) i c' ∧ (c' = c ∨ c' = deactivate c) ∧
    (active c' = false ↔ condemned (caps (vault s)) target c).
Proof.
  unfold revoke. destruct (find _ _) as [rv|]; [|done].
  destruct (contains _ _); [|done]. intros [= <-] Ho. simpl.
  by apply revoke_recursive_spec.
Qed.

(** C22. [revoke] by a holder of the revoke right deactivates exactly the target,
    the tokens delegated from it at any depth, and what hung below a token that
    was inactive already; every other slot, empty ones included, is as before. *)
Theorem revoke_takes_exactly_the_descendants t by_ target s s' :
  revoke t by_ target s = (Ok tt, s') →
  length (caps (vault s')) = length (caps (vault s)) ∧
  (∀ i, caps (vault s) !! i = Some None → caps (vault s') !! i = Some None) ∧
  (∀ i c, occ (caps (vault s)) i c →
     ∃ c', occ (caps (vault s')) i c' ∧ (c' = c ∨ c' = deactivate c) ∧
       (active c' = false ↔ condemned (caps (vault s)) target c)).
Proof.
  intros H. pose proof (λ i c, revoke_slots t by_ target s s' i c H) as Hs.
  assert (Hlow : Forall2 lowered (caps (vault s)) (caps (vault s'))).
  { unfold revoke in H. destruct (find _ _); [|done]. destruct (contains _ _); [|done].
    injection H as <-. apply revoke_recursive_lowered. }
  split; [by symmetry; eapply Forall2_length|]. split; [|done].
  intros i Hi. by destruct (Forall2_lookup_l _ _ _ _ _ Hlow Hi) as ([?|] & ? & ?).
Qed.

Lemma check_unique now cap req s i c :
  (∀ i j a b, occ (caps (vault s)) i a → occ (caps (vault s)) j b → id a = id b → i = j) →
  occ (caps (vault s)) i c → id c = cap → active c = false →
  (check now cap req s).1 = Err Revoked.
Proof.
  intros Hu Ho Hid Ha. unfold check. destruct (position _ _) as [n|] eqn:Hp.
  - apply position_Some in Hp as (o & Hn & Hb). apply occupied_by_occ in Hb as (d & -> & Hd).
    assert (n = i) as -> by (eapply Hu; eauto; congruence).
    unfold occ in Ho. rewrite Hn in Ho |- *. simplify_eq. by rewrite Ha.
  - apply (position_None _ _ Hp i) in Ho. simpl in Ho. by apply bool_decide_eq_false in Ho.
Qed.

(** Once a token is revoked, every later check of it or of anything delegated
    from it, however deep and whatever the rights asked for, is refused as
    revoked. *)
Theorem revoked_descendants_fail_every_check now t by_ target s s' i c now' req :
  reachable (now, s) → revoke t by_ target s = (Ok tt, s') →
  occ (caps (vault s)) i c → condemned (caps (vault s)) target c →
  (check now' (id c) req s').1 = Err Revoked.
Proof.
  intros Hr Hrev Ho Hc.
  destruct (revoke_slots _ _ _ _ _ _ _ Hrev Ho) as (c' & Ho' & Hl & Hact).
  assert (Hr' : reachable (now, s')) by (eapply reach_step; [done|by eapply step_revoke]).
  eapply check_unique; [|exact Ho'| |by apply Hact].
  - intros. by eapply (vi_uniq _ _ _ (reachable_inv _ _ Hr')).
  - by destruct Hl as [->| ->].
Qed.

(** ** Release of a module's token *)

(** When a module ends, the slots of its token and of everything delegated
    from it are emptied together with those of tokens already revoked, every
    other token stays exactly where and as it was, and releasing the root is
    refused. *)
Theorem release_frees_exactly_the_descendants st cap s :
  let s' := release_module_cap st cap s in
  if bool_decide (cap = root_cap s) then s' = s
  else length (caps (vault s')) = length (caps (vault s)) ∧
    ∀ i, (∀ c, occ (caps (vault s)) i c →
            (condemned (caps (vault s)) cap c → caps (vault s') !! i = Some None) ∧
            (¬ condemned (caps (vault s)) cap c → occ (caps (vault s')) i c)) ∧
         (caps (vault s) !! i = Some None → caps (vault s') !! i = Some None).
Proof.
  intros s'. subst s'. unfold release_module_cap. case_bool_decide; [done|].
  rewrite release_caps. pose proof (revoke_recursive_lowered cap (caps (vault s))) as Hlow.
  split; [by rewrite length_fmap, (Forall2_length _ _ _ Hlow)|].
  intros i. rewrite list_lookup_fmap. split.
  - intros c Ho. destruct (revoke_recursive_spec cap _ _ _ Ho) as (c' & Ho' & Hl & Hact).
    unfold occ in *. rewrite list_lookup_fmap, Ho'. simpl.
    destruct (active c') eqn:Ha.
    + split; [intros Hc; apply Hact in Hc; congruence|]. intros _.
      destruct Hl as [->| ->]; [done|by destruct c].
    + split; [done|]. intros Hn. exfalso. by apply Hn, Hact.
  - intros Hi. destruct (Forall2_lookup_l _ _ _ _ _ Hlow Hi) as ([?|] & Hj & ?); [done|].
    by rewrite Hj.
Qed.

(** ** Issuing *)

(** What [create] answers and does. *)
Definition create_effect (tk : nat → Z) (nid pid : CapId) (rk : ResourceKind) (rts : Rights)
    (ttl : option Z) (s : Sys) (r : res CapError CapId) (s' : Sys) : Prop :=
  let cs := caps (vault s) in
  match r with
  | Ok cid =>
      cid = nid ∧
      ∃ k par n, occ cs k par ∧ id par = pid ∧ live (tk 0%nat) par ∧
        contains (rights par) DELEGATE = true ∧ subrights rts (rights par) ∧
        (n < length cs)%nat ∧
        (cs !! n = Some None ∨
         ∃ old, occ cs n old ∧ id old ≠ root_cap s ∧
           (active old = false ∨ is_expired (tk (S n)) old = true)) ∧
        let exp := child_expiry (tk (S MAX_CAPABILITIES)) ttl (expires_at par) in
        exp_le exp (expires_at par) ∧
        caps (vault s') = <[n := Some (mkCap nid rk rts (Some pid) true exp)]> cs
  | Err e =>
      vault s' = vault s ∧
      match e with
      | NotFound => ∀ i c, occ cs i c → id c ≠ pid
      | Revoked => ∃ k par, occ cs k par ∧ id par = pid ∧ active par = false
      | Expired => ∃ k par, occ cs k par ∧ id par = pid ∧ is_expired (tk 0%nat) par = true
      | InsufficientRights =>
          ∃ k par, occ cs k par ∧ id par = pid ∧ contains (rights par) DELEGATE = false
      | EscalationAttempt =>
          ∃ k par, occ cs k par ∧ id par = pid ∧ contains (rights par) rts = false
      | VaultFull =>
          ∀ i, (i < length cs)%nat →
            ∃ c, occ cs i c ∧ (id c = root_cap s ∨ live (tk (S i)) c)
      end
  | Panic => False
  end.

Lemma find_slot_None tk root cs i :
  find_slot tk root cs = None → (i < length cs)%nat →
  ∃ c, occ cs i c ∧ (id c = root ∨ live (tk (S i)) c).
Proof.
  unfold find_slot. destruct (position _ cs) eqn:E; [done|]. intros H Hi.
  destruct (lookup_lt_is_Some_2 cs i Hi) as [o Ho].
  pose proof (position_None _ _ E _ _ Ho) as Hn. apply bool_decide_eq_false in Hn.
  destruct o as [c|]; [|done]. exists c. split; [done|].
  pose proof (position_None _ _ H _ _ Ho) as Hr. simpl in Hr.
  case_bool_decide as Hid; [|by left]. simpl in Hr.
  apply orb_false_iff in Hr as [Ha%negb_false_iff He]. by right.
Qed.

(** [create] issues a token only from a parent that is in the vault, live and
    allowed to delegate, with no right the parent lacks and no later expiry, into
    an empty slot or one whose token is dead and not the root; each refusal names
    a condition that really failed and leaves the vault as it was, and the vault
    is reported full only when every slot holds the root or a live token. *)
Theorem create_attenuates_or_refuses tk st nid pid rk rts ttl h s :
  let '(r, s') := create tk st nid pid rk rts ttl h s in
  create_effect tk nid pid rk rts ttl s r s'.
Proof.
  unfold create. destruct (find (vault s) pid) as [par|] eqn:Hf; simpl.
  2:{ split; [done|]. intros i c Hc. by eapply find_None. }
  apply find_occ in Hf as (k & Hk & Hid).
  destruct (active par) eqn:Ha; simpl; [|eauto 10].
  destruct (is_expired (tk 0%nat) par) eqn:He; simpl; [eauto 10|].
  destruct (contains (rights par) DELEGATE) eqn:Hd; simpl; [|eauto 10].
  destruct (contains (rights par) rts) eqn:Hs; simpl; [|eauto 10].
  destruct (find_slot _ _ _) as [n|] eqn:Hn; simpl.
  - split; [done|]. exists k, par, n. apply find_slot_spec in Hn.
    split_and!; auto; [by split| |apply child_expiry_le].
    destruct Hn as [Hn|(? & Hn & _)]; by eapply lookup_lt_Some.
  - split; [done|]. intros i Hi. by eapply find_slot_None.
Qed.

(** ** Concrete runs

    A boot followed by the launch of two modules; the states the witnesses below
    evaluate. *)
Lemma unused_id_check s nid :
  forallb (λ o, match o with Some c => bool_decide (id c ≠ nid) | None => true end)
    (caps (vault s)) = true → unused_id s nid.
Proof.
  intros H i c Ho. rewrite forallb_forall in H.
  assert (Hc : In (Some c) (caps (vault s))).
  { apply list_elem_of_In. by eapply list_elem_of_lookup_2. }
  apply H in Hc. by apply bool_decide_eq_true in Hc.
Qed.

Definition ex_root : CapId := replicate 32 x01.
Definition ex_mod : CapId := replicate 32 x02.
Definition ex_app : CapId := replicate 32 x03.
Definition ex_st : Stamp := mkStamp 0 0.
Definition ex_boot : Sys := init ex_st ex_root boot.
Definition ex_one : Sys :=
  (create (λ _, 5) (λ _, ex_st) ex_mod ex_root Execute
     (union DELEGATE (union REVOKE READ)) (Some 10) (ascii "loft") ex_boot).2.
Definition ex_two : Sys :=
  (create (λ _, 6) (λ _, ex_st) ex_app ex_mod Execute READ None (ascii "iris") ex_one).2.

Lemma reach_boot now : reachable (now, ex_boot).
Proof. constructor. Qed.

Lemma reach_one : reachable (5, ex_one).
Proof.
  eapply reach_step; [apply (reach_boot 5)|].
  eapply step_create with (tk := λ _, 5); [done|done| |unfold ex_one; apply surjective_pairing].
  apply unused_id_check. vm_compute. reflexivity.
Qed.

Lemma reach_two : reachable (6, ex_two).
Proof.
  eapply reach_step; [apply reach_one|].
  eapply step_create with (tk := λ _, 6); [done|done| |unfold ex_two; apply surjective_pairing].
  apply unused_id_check. vm_compute. reflexivity.
Qed.

Definition ex_app_cap : Capability := mkCap ex_app Execute READ (Some ex_mod) true (Some 15).
Definition ex_mod_cap : Capability :=
  mkCap ex_mod Execute (union DELEGATE (union REVOKE READ)) (Some ex_root) true (Some 15).

Lemma live_tokens_derive_from_root_witness :
  authorised 6 (root_cap ex_two) (caps (vault ex_two)) ex_app_cap.
Proof.
  apply (live_tokens_derive_from_root 6 ex_two 2); [apply reach_two|by vm_compute|by vm_compute].
Defined.

Lemma check_passes_only_on_derived_authority_witness :
  authorised 6 (root_cap ex_two) (caps (vault ex_two)) ex_app_cap.
Proof.
  apply (check_passes_only_on_derived_authority 6 ex_two ex_app READ ex_app_cap
           (check 6 ex_app READ ex_two).2); [apply reach_two|by vm_compute].
Defined.

Lemma revoke_takes_exactly_the_descendants_witness :
  length (caps (vault (revoke ex_st ex_root ex_mod ex_two).2)) = 256%nat.
Proof.
  apply (revoke_takes_exactly_the_descendants ex_st ex_root ex_mod ex_two). by vm_compute.
Defined.

Lemma ex_app_condemned : condemned (caps (vault ex_two)) ex_mod ex_app_cap.
Proof.
  eapply (cond_child _ _ 2 _ 1 ex_mod_cap); [by vm_compute|done|by vm_compute|].
  eapply (cond_target _ _ 1); [by vm_compute|done].
Qed.

Lemma revoked_descendants_fail_every_check_witness :
  (check 7 ex_app READ (revoke ex_st ex_root ex_mod ex_two).2).1 = Err Revoked.
Proof.
  apply (revoked_descendants_fail_every_check 6 ex_st ex_root ex_mod ex_two _ 2 ex_app_cap);
    [apply reach_two|by vm_compute|by vm_compute|apply ex_app_condemned].
Defined.

(** ** A token that is itself revoked still revokes

    [revoke] looks at the revoker's rights but not at whether it is still
    active: there is a reachable state in which a token that has been revoked, and
    that every check refuses, successfully revokes a live token. *)
Theorem revoked_token_still_revokes :
  ∃ s s', reachable (6, s) ∧
    (check 6 ex_mod REVOKE s).1 = Err Revoked ∧
    (check 6 ex_root READ s).1 = Ok (mkCap ex_root Kernel ALL None true None) ∧
    revoke ex_st ex_mod ex_root s = (Ok tt, s') ∧
    (check 6 ex_root READ s').1 = Err Revoked.
Proof.
  exists (revoke ex_st ex_root ex_mod ex_two).2.
  exists (revoke ex_st ex_mod ex_root (revoke ex_st ex_root ex_mod ex_two).2).2.
  split.
  { eapply reach_step; [apply reach_two|]. eapply step_revoke. apply surjective_pairing. }
  by vm_compute.
Qed.
