(* ===== verification/CapabilityGrants.v ===== *)
(** * Path grants and the module's declared rights

    Theorems about [grant_path], [grant_tree], [check_path_grant] and the
    [.npk.caps] section of capability.rs. *)

From S2P Require Import Prelude Bytes Rights AuditLog Capability CapabilityInv CapabilitySpec.

(** ** Paths as segments *)
Fixpoint join_slash (segs : list str) : str :=
  match segs with
  | [] => []
  | [s] => s
  | s :: rest => s ++ SLASH :: join_slash rest
  end.

Lemma split_slash_cons s : ∃ seg rest, split_slash s = seg :: rest.
Proof.
  induction s as [|b s (seg & rest & IH)]; simpl; [by eauto|].
  case_decide; [by eauto|]. rewrite IH. eauto.
Qed.

Lemma split_slash_app d r : split_slash (d ++ SLASH :: r) = split_slash d ++ split_slash r.
Proof.
  induction d as [|b d IH]; simpl.
  - done.
  - case_decide; [by rewrite IH|]. rewrite IH.
    destruct (split_slash_cons d) as (seg & rest & ->). done.
Qed.

Lemma join_slash_cons s rest : rest ≠ [] → join_slash (s :: rest) = s ++ SLASH :: join_slash rest.
Proof. by destruct rest. Qed.

Lemma join_split s : join_slash (split_slash s) = s.
Proof.
  induction s as [|b s IH]; simpl; [done|].
  destruct (split_slash_cons s) as (seg & rest & E). case_decide as Hb.
  - rewrite join_slash_cons by (by rewrite E). by rewrite IH, Hb.
  - rewrite E in IH |- *. destruct rest; simpl in *; by rewrite <- IH.
Qed.

Lemma join_slash_app xs ys :
  xs ≠ [] → ys ≠ [] → join_slash (xs ++ ys) = join_slash xs ++ SLASH :: join_slash ys.
Proof.
  intros Hx Hy. induction xs as [|x xs IH]; [done|].
  destruct (decide (xs = [])) as [->|Hne];
    [change ([x] ++ ys) with (x :: ys); by rewrite join_slash_cons|].
  change ((x :: xs) ++ ys) with (x :: (xs ++ ys)).
  rewrite !join_slash_cons, IH; auto; [|by destruct xs].
  by rewrite <- (assoc app), app_comm_cons.
Qed.

(** [path] is [dir] followed by at least one more segment. *)
Lemma below_segments dir path :
  below dir path = true ↔
  ∃ rest, rest ≠ [] ∧ split_slash path = split_slash dir ++ rest.
Proof.
  unfold below. rewrite !andb_true_iff, !bool_decide_eq_true, Z.ltb_lt. split.
  - intros [[Hlt [r ->]] Hs]. destruct r as [|b r].
    { rewrite app_nil_r in Hlt. lia. }
    rewrite lookup_app_r, Nat.sub_diag in Hs by lia. simpl in Hs. injection Hs as ->.
    exists (split_slash r). split; [|apply split_slash_app].
    by destruct (split_slash_cons r) as (? & ? & ->).
  - intros (rest & Hne & Hs). apply (f_equal join_slash) in Hs.
    destruct (split_slash_cons dir) as (seg & segs & E).
    rewrite join_split, join_slash_app, join_split in Hs by (rewrite ?E; done). subst path.
    rewrite zlen_app, zlen_cons. split; [split|].
    + pose proof (zlen_nonneg (join_slash rest)). lia.
    + by apply prefix_app_r.
    + by rewrite lookup_app_r, Nat.sub_diag by lia.
Qed.

Lemma covers_spec canon cap path rts e :
  covers canon cap path rts e = true ↔
  g_cap e = cap ∧ subrights rts (g_rights e) ∧
    (g_path e = path ∨
     g_tree e = true ∧ canon = true ∧
     ∃ rest, rest ≠ [] ∧ split_slash path = split_slash (g_path e) ++ rest).
Proof.
  unfold covers, subrights.
  rewrite !andb_true_iff, orb_true_iff, !andb_true_iff, !bool_decide_eq_true, below_segments.
  tauto.
Qed.

(** A path grant lets a token act on a path exactly when the token holds a
    grant with all the rights asked for, for that very path or for a folder whose
    segments the path continues, the path being free of empty, [.] and [..]
    segments: no spelling of a path reaches outside the folder. *)
Theorem check_path_grant_exact cap path rts s :
  check_path_grant cap path rts s = true ↔
  ∃ e, e ∈ path_grants s ∧ g_cap e = cap ∧ subrights rts (g_rights e) ∧
    (g_path e = path ∨
     g_tree e = true ∧ canonical path = true ∧
     ∃ rest, rest ≠ [] ∧ split_slash path = split_slash (g_path e) ++ rest).
Proof.
  unfold check_path_grant. rewrite existsb_exists.
  setoid_rewrite <- list_elem_of_In. setoid_rewrite covers_spec. done.
Qed.

(** ** Which grants exist *)
Definition reserved (top : str) : Prop :=
  top = ascii "sys" ∨ top = ascii ".system" ∨ top = ascii "priv".

Definition top_segment (path : str) : str := default [] (head (split_slash path)).

Definition of_cap (cap : CapId) (g : list PathGrant) : list PathGrant :=
  filter (λ e, g_cap e = cap) g.

Record grants_ok (g : list PathGrant) : Prop := {
  go_tree e : e ∈ g → g_tree e = true →
    canonical (g_path e) = true ∧ ¬ reserved (top_segment (g_path e)) ∧ g_path e ≠ ascii "ext";
  go_bound cap : (length (of_cap cap g) ≤ MAX_PATH_GRANTS)%nat;
}.

Lemma alter_widen_of_cap rts i g cap :
  length (of_cap cap (alter (widen rts) i g)) = length (of_cap cap g) ∧
  (∀ x, g !! i = Some x → g_cap x ≠ cap → of_cap cap (alter (widen rts) i g) = of_cap cap g).
Proof.
  unfold of_cap. revert i. induction g as [|e g IH]; intros [|i]; try done.
  - change (alter (widen rts) 0%nat (e :: g)) with (widen rts e :: g).
    rewrite !filter_cons. simpl. split; [case_decide; done|].
    intros x [= ->] Hne. by rewrite !decide_False by done.
  - change (alter (widen rts) (S i) (e :: g)) with (e :: alter (widen rts) i g).
    rewrite !filter_cons. destruct (IH i) as [H1 H2]. split.
    + case_decide; cbn [length]; congruence.
    + intros x Hx Hne. by rewrite (H2 x).
Qed.

Lemma of_cap_middle cap i g x :
  g !! i = Some x →
  of_cap cap g = of_cap cap (take i g) ++ (if decide (g_cap x = cap) then [x] else [])
                 ++ of_cap cap (drop (S i) g).
Proof.
  intros Hi. unfold of_cap. rewrite <- (take_drop_middle g i x Hi) at 1.
  rewrite filter_app, filter_cons. by case_decide.
Qed.

Lemma remove_at_of_cap cap i g x :
  g !! i = Some x →
  of_cap cap (remove_at i g) =
    if decide (g_cap x = cap) then remove_at (length (of_cap cap (take i g))) (of_cap cap g)
    else of_cap cap g.
Proof.
  intros Hi. rewrite (of_cap_middle cap i g x Hi). unfold remove_at, of_cap.
  rewrite filter_app. case_decide; [|done].
  rewrite take_app_length, <- (Nat.add_1_r (length _)), drop_app_add. done.
Qed.

Lemma remove_at_elem {A} i (l : list A) x : x ∈ remove_at i l → x ∈ l.
Proof.
  unfold remove_at. intros [H|H]%elem_of_app.
  - rewrite <- (take_drop i l). apply elem_of_app. by left.
  - rewrite <- (take_drop (S i) l). apply elem_of_app. by right.
Qed.

Lemma length_remove_at {A} i (l : list A) : (i < length l)%nat → length (remove_at i l) = (length l - 1)%nat.
Proof. intros. unfold remove_at. rewrite length_app, length_take, length_drop. lia. Qed.

(** Other tokens' grants are never touched. *)
Lemma push_grant_others cap path rts tree g cap' :
  cap' ≠ cap → of_cap cap' (push_grant cap path rts tree g) = of_cap cap' g.
Proof.
  intros Hne. unfold push_grant. destruct (list_find _ _) as [[i e]|] eqn:E.
  - apply list_find_Some in E as (Hi & (Hc & _) & _).
    apply (proj2 (alter_widen_of_cap rts i g cap') e Hi). congruence.
  - assert (Hkeep : of_cap cap' (if decide (MAX_PATH_GRANTS ≤ length (of_cap cap g))%nat
      then match position (λ _ e, bool_decide (g_cap e = cap)) g with
           | Some i => remove_at i g | None => g end else g) = of_cap cap' g).
    { case_decide; [|done]. destruct (position _ _) as [i|] eqn:Hp; [|done].
      apply position_Some in Hp as (x & Hx & Hb). apply bool_decide_eq_true in Hb.
      rewrite (remove_at_of_cap _ _ _ _ Hx). rewrite decide_False; [done|congruence]. }
    unfold of_cap in *. rewrite filter_app, Hkeep, filter_cons, filter_nil. simpl.
    rewrite decide_False by done. by rewrite app_nil_r.
Qed.

Lemma push_grant_own cap path rts tree g :
  (length (of_cap cap g) ≤ MAX_PATH_GRANTS)%nat →
  (length (of_cap cap (push_grant cap path rts tree g)) ≤ MAX_PATH_GRANTS)%nat.
Proof.
  intros Hb. unfold push_grant. destruct (list_find _ _) as [[i e]|] eqn:E.
  { destruct (alter_widen_of_cap rts i g cap) as [-> _]. done. }
  unfold of_cap in *. rewrite filter_app, length_app, filter_cons, filter_nil. simpl.
  destruct (decide (cap = cap)); [|done]. simpl. case_decide as Hd; [|lia].
  destruct (position _ _) as [i|] eqn:Hp.
  - apply position_Some in Hp as (x & Hx & Hc). apply bool_decide_eq_true in Hc.
    pose proof (remove_at_of_cap cap i g x Hx) as Hr. rewrite decide_True in Hr by done.
    unfold of_cap in Hr. rewrite Hr. rewrite length_remove_at; [unfold MAX_PATH_GRANTS in *; lia|].
    pose proof (of_cap_middle cap i g x Hx) as Hm. rewrite decide_True in Hm by done.
    unfold of_cap in Hm. rewrite Hm, !length_app. simpl. lia.
  - exfalso. destruct (filter (λ e, g_cap e = cap) g) as [|x l] eqn:Hf.
    { unfold MAX_PATH_GRANTS in Hd. simpl in Hd. lia. }
    assert (He : x ∈ filter (λ e, g_cap e = cap) g) by (rewrite Hf; left).
    apply list_elem_of_filter in He as [Hc He]. apply list_elem_of_lookup in He as (k & Hk).
    pose proof (position_None _ _ Hp _ _ Hk) as Hn. by apply bool_decide_eq_false in Hn.
Qed.

Lemma push_grant_elem cap path rts tree g e :
  e ∈ push_grant cap path rts tree g →
  (g_cap e = cap ∧ g_path e = path ∧ g_tree e = tree) ∨
  ∃ e0, e0 ∈ g ∧ g_cap e = g_cap e0 ∧ g_path e = g_path e0 ∧ g_tree e = g_tree e0.
Proof.
  unfold push_grant. destruct (list_find _ _) as [[i x]|] eqn:E.
  - intros He. right. apply list_elem_of_lookup in He as (k & Hk).
    destruct (decide (i = k)) as [->|].
    + rewrite list_lookup_alter_eq in Hk. apply fmap_Some in Hk as (y & Hy & ->).
      exists y. split; [by eapply list_elem_of_lookup_2|done].
    + rewrite list_lookup_alter_ne in Hk by done. exists e.
      split; [by eapply list_elem_of_lookup_2|done].
  - intros [He|He]%elem_of_app; [|by left; apply list_elem_of_singleton in He as ->].
    right. exists e. split; [|done]. case_decide; [|done].
    destruct (position _ _); [|done]. by eapply remove_at_elem.
Qed.

Lemma push_grant_ok cap path rts tree g :
  grants_ok g →
  (tree = true → canonical path = true ∧ ¬ reserved (top_segment path) ∧ path ≠ ascii "ext") →
  grants_ok (push_grant cap path rts tree g).
Proof.
  intros [Ht Hb] Hnew. split.
  - intros e He Htr. apply push_grant_elem in He as [(_ & -> & Hx)|(e0 & He0 & _ & -> & Hx)].
    + apply Hnew. congruence.
    + apply (Ht e0); [done|congruence].
  - intros cap'. destruct (decide (cap' = cap)) as [->|].
    + by apply push_grant_own.
    + by rewrite push_grant_others.
Qed.

Lemma filter_comm {A} (P Q : A → Prop) `{∀ x, Decision (P x)} `{∀ x, Decision (Q x)} (l : list A) :
  filter P (filter Q l) = filter Q (filter P l).
Proof.
  rewrite !list_filter_filter. apply list_filter_iff. tauto.
Qed.

Lemma reachable_grants now s : reachable (now, s) → grants_ok (path_grants s).
Proof.
  remember (now, s) as x eqn:E. intros H. revert now s E.
  induction H as [now0 t root|x y Hx IH Hs]; intros now s E.
  - simplify_eq. split; simpl; [by intros ? ?%elem_of_nil|]. intros cap. apply Nat.le_0_l.
  - subst y. destruct x as [now0 s0]. specialize (IH _ _ eq_refl). inversion Hs; subst; auto.
    + match goal with Hc : create _ _ _ _ _ _ _ _ _ = _ |- _ => unfold create in Hc end.
      repeat case_match; simplify_eq/=; done.
    + match goal with Hc : check _ _ _ _ = _ |- _ => by apply check_frame in Hc as (_ & _ & _ & ->) end.
    + match goal with Hc : require _ _ _ _ _ _ = _ |- _ => by apply require_frame in Hc as (_ & _ & ->) end.
    + match goal with Hc : revoke _ _ _ _ = _ |- _ => unfold revoke in Hc end.
      repeat case_match; simplify_eq/=; done.
    + unfold release_module_cap. case_bool_decide; [done|]. by rewrite (proj2 (release_frame _ _ _)).
    + apply push_grant_ok; [done|]. done.
    + match goal with Hc : grant_tree _ _ _ _ _ = _ |- _ => unfold grant_tree in Hc end.
      destruct (canonical dir) eqn:Hcan; simplify_eq/=; [|done].
      match goal with Hc : (if ?b then _ else _) = _ |- _ => destruct b eqn:Hb; simplify_eq/=; [done|] end.
      case_bool_decide; simplify_eq/=; [done|]. apply push_grant_ok; [done|]. intros _.
      apply orb_false_iff in Hb as [[Hb1 Hb2]%orb_false_iff Hb3].
      apply bool_decide_eq_false in Hb1, Hb2, Hb3. split_and!; auto.
      unfold reserved, top_segment. tauto.
    + destruct IH as [Ht Hb]. split.
      * intros e [_ He]%list_elem_of_filter. by apply Ht.
      * intros cap'. etrans; [|apply (Hb cap')]. unfold of_cap. simpl.
        rewrite filter_comm. apply sublist_length, sublist_filter.
Qed.

(** In every reachable state no token has more than 64 path grants, and a
    grant recorded for one token leaves the grants of every other token as they
    are, so one application's picks never push out another's. *)
Theorem grants_bounded_and_isolated now s t cap path rts cap' :
  reachable (now, s) →
  (length (of_cap cap' (path_grants s)) ≤ MAX_PATH_GRANTS)%nat ∧
  (cap' ≠ cap →
   of_cap cap' (path_grants (grant_path t cap path rts s)) = of_cap cap' (path_grants s) ∧
   of_cap cap' (path_grants (grant_tree t cap path rts s).2) = of_cap cap' (path_grants s) ∧
   of_cap cap' (path_grants (revoke_path_grants cap s)) = of_cap cap' (path_grants s)) ∧
  of_cap cap (path_grants (revoke_path_grants cap s)) = [].
Proof.
  intros Hr. split; [apply (reachable_grants _ _ Hr)|]. split.
  - intros Hne. split_and!.
    + by apply push_grant_others.
    + unfold grant_tree. repeat case_match; simpl; [done..|]. by apply push_grant_others.
    + unfold of_cap. simpl. apply list_filter_filter_l. naive_solver.
  - unfold of_cap. simpl. induction (path_grants s) as [|e g IH]; [done|].
    rewrite filter_cons. case_decide; [|done]. by rewrite filter_cons, decide_False.
Qed.

(** A folder grant never opens the system's own trees: in a reachable state a
    path below [sys], [.system] or [priv] is granted only by a grant of exactly
    that path. *)
Theorem folder_grants_stay_out_of_system_trees now s cap path rts :
  reachable (now, s) → reserved (top_segment path) →
  check_path_grant cap path rts s = true →
  ∃ e, e ∈ path_grants s ∧ g_cap e = cap ∧ g_path e = path ∧ subrights rts (g_rights e).
Proof.
  intros Hr Hres H. unfold check_path_grant in H. apply existsb_exists in H as (e & He & Hc).
  apply list_elem_of_In in He. apply covers_spec in Hc as (Hcap & Hsub & [Hp|(Ht & Hcan & rest & Hne & Hs)]).
  - by exists e.
  - exfalso. destruct (go_tree _ (reachable_grants _ _ Hr) e He Ht) as (_ & Hn & _). apply Hn.
    unfold top_segment in *. rewrite Hs in Hres.
    by destruct (split_slash_cons (g_path e)) as (seg & segs & E); rewrite E in Hres |- *.
Qed.

(** ** Declared rights *)
Lemma leb128_loop_bounds buf i result shift v n :
  leb128_loop buf i result shift = Some (v, n) → fits 32 result →
  fits 32 v ∧ i + 1 ≤ n ≤ i + zlen buf.
Proof.
  revert i result shift. induction buf as [|b buf IH]; intros i result shift; simpl; [done|].
  rewrite zlen_cons. pose proof (zlen_nonneg buf).
  destruct (32 <=? shift); [done|]. intros H0 Hr.
  assert (Hf : fits 32 (Z.lor result (u32 (Z.shiftl (Z.land (bval b) 127) shift)))).
  { apply fits_lor; [lia|done|by apply wrap_fits]. }
  destruct (_ =? 0).
  - injection H0 as <- <-. split; [done|lia].
  - apply IH in H0; [|done]. destruct H0. split; [done|lia].
Qed.

Lemma read_leb128_bounds buf v n :
  read_leb128_u32 buf = Some (v, n) → fits 32 v ∧ 1 ≤ n ≤ zlen buf.
Proof. intros H. apply leb128_loop_bounds in H; [|by unfold fits]. naive_solver lia. Qed.

(** The section walk indexes nothing out of range and ends. *)
Lemma custom_section_total fuel target cur :
  (length cur < fuel)%nat → ∃ o, custom_section_loop fuel target cur = Ok o.
Proof.
  revert cur. induction fuel as [|fuel IH]; intros cur Hf; [lia|]. cbn [custom_section_loop].
  destruct cur as [|sid cur]; [eauto|]. simpl in Hf.
  destruct (read_leb128_u32 cur) as [[size cons]|] eqn:E1; [|eauto].
  apply read_leb128_bounds in E1 as [[Hs _] Hc].
  rewrite sub_Some by lia.
  assert (Hl1 : zlen (raw_sub cur cons (zlen cur - cons)) = zlen cur - cons)
    by (apply zlen_raw_sub; lia).
  set (cur1 := raw_sub cur cons (zlen cur - cons)) in *.
  destruct (Z.ltb_spec (zlen cur1) size); [eauto|].
  rewrite !sub_Some by lia.
  assert (Hrest : (length (raw_sub cur1 size (zlen cur1 - size)) < fuel)%nat).
  { pose proof (zlen_raw_sub cur1 size (zlen cur1 - size)) as Hz. unfold zlen in *. lia. }
  destruct (negb _); [by apply IH|].
  destruct (read_leb128_u32 (raw_sub cur1 0 size)) as [[nl cons2]|] eqn:E2; [|eauto].
  apply read_leb128_bounds in E2 as [[Hn _] Hc2]. rewrite zlen_raw_sub in * by lia.
  destruct (Z.ltb_spec size (cons2 + nl)); [by apply IH|].
  rewrite !sub_Some by (rewrite ?zlen_raw_sub; lia).
  case_bool_decide; [eauto|by apply IH].
Qed.

Lemma extract_total wasm target : ∃ o, extract_wasm_custom_section wasm target = Ok o.
Proof.
  unfold extract_wasm_custom_section. destruct (_ || _); [eauto|].
  apply custom_section_total. rewrite length_drop. lia.
Qed.

Definition grants_bit (r q : Rights) : bool := negb (Z.land r q =? 0).

Lemma caps_byte_bits b :
  let r := rights_from_caps_byte (bval b) in
  (grants_bit r (union DELEGATE REVOKE), contains ALL r,
   Bool.eqb (grants_bit r WRITE) (has_bit (bval b) 2)) = (false, true, true).
Proof. destruct b; vm_compute; reflexivity. Qed.

Lemma caps_byte2_bits b :
  let r := rights_from_caps_byte2 (bval b) in
  (grants_bit r (union DELEGATE REVOKE), contains ALL r, grants_bit r WRITE) = (false, true, false).
Proof. destruct b; vm_compute; reflexivity. Qed.

Lemma grants_bit_union r p q : grants_bit (union r p) q = grants_bit r q || grants_bit p q.
Proof.
  unfold grants_bit, union. rewrite Z.land_lor_distr_l.
  destruct (Z.eqb_spec (Z.lor (Z.land r q) (Z.land p q)) 0) as [E|E].
  - apply Z.lor_eq_0_iff in E as [-> ->]. done.
  - destruct (Z.eqb_spec (Z.land r q) 0) as [E1|], (Z.eqb_spec (Z.land p q) 0) as [E2|]; try done.
    by rewrite E1, E2 in E.
Qed.

(** For any bytes whatever a module's rights are well defined (the section
    walk neither indexes out of range nor loops), never contain the delegate or
    revoke right, are among the defined rights, and contain the write right only
    if the module carries a [.npk.caps] section whose first byte declares it. *)
Theorem widget_rights_are_safe wasm :
  ∃ r, widget_rights_from_wasm wasm = Ok r ∧
    Z.land r (union DELEGATE REVOKE) = 0 ∧ subrights r ALL ∧
    (contains r WRITE = true →
     ∃ b0 rest, extract_wasm_custom_section wasm (ascii ".npk.caps") = Ok (Some (b0 :: rest)) ∧
       has_bit (bval b0) 2 = true).
Proof.
  unfold widget_rights_from_wasm.
  assert (Hz : ∀ r q, grants_bit r q = false → Z.land r q = 0).
  { unfold grants_bit. intros r q ?%negb_false_iff. by apply Z.eqb_eq. }
  assert (Hc : ∀ r, contains r WRITE = true → grants_bit r WRITE = true).
  { unfold contains, grants_bit. intros r ->%Z.eqb_eq. done. }
  destruct (extract_total wasm (ascii ".npk.caps")) as [[[|b0 rest]|] ->].
  1,3: eexists; split; [done|]; split; [done|]; split; [done|]; done.
  pose proof (caps_byte_bits b0) as H0. simpl in H0. injection H0 as Hd0 Ha0 Hw0.
  apply eqb_prop in Hw0. destruct rest as [|b1 rest].
  - eexists. split; [done|]. split; [by apply Hz|]. split; [done|].
    intros Hw. exists b0, []. by rewrite <- Hw0, Hc.
  - pose proof (caps_byte2_bits b1) as H1. simpl in H1. injection H1 as Hd1 Ha1 Hw1.
    eexists. split; [done|]. split; [apply Hz; by rewrite grants_bit_union, Hd0, Hd1|].
    split; [unfold subrights; by rewrite contains_union, Ha0, Ha1|].
    intros Hw. exists b0, (b1 :: rest). split; [done|].
    apply Hc in Hw. by rewrite grants_bit_union, Hw1, orb_false_r, Hw0 in Hw.
Qed.

(** ** Concrete runs *)
Definition ex_granted : Sys :=
  (grant_tree ex_st ex_mod (ascii "docs") READ
     (grant_path ex_st ex_mod (ascii "sys/wasm/a") READ ex_one)).2.

Lemma reach_granted : reachable (5, ex_granted).
Proof.
  eapply reach_step; [eapply reach_step; [apply reach_one|apply step_grant_path]|].
  eapply step_grant_tree. unfold ex_granted. apply surjective_pairing.
Qed.

Lemma grants_bounded_and_isolated_witness :
  (length (of_cap ex_mod (path_grants ex_granted)) ≤ 64)%nat.
Proof.
  apply (grants_bounded_and_isolated 5 ex_granted ex_st ex_app (ascii "x") READ ex_mod).
  apply reach_granted.
Defined.

Lemma folder_grants_stay_out_of_system_trees_witness :
  check_path_grant ex_mod (ascii "docs/a/b") READ ex_granted = true ∧
  ∃ e, e ∈ path_grants ex_granted ∧ g_cap e = ex_mod ∧ g_path e = ascii "sys/wasm/a" ∧
    subrights READ (g_rights e).
Proof.
  split; [by vm_compute|].
  apply (folder_grants_stay_out_of_system_trees 5 ex_granted); [apply reach_granted| |by vm_compute].
  left. by vm_compute.
Defined.
