(* ===== verification/Format.v ===== *)
(** * npkFS types and on-disk format (storage/npkfs/types.rs, format.rs)

    Block geometry, the error type, and the fixed-layout records the code casts
    between structs and bytes ([repr(C)], little-endian): leaf entries, node
    headers and the superblock.  BLAKE3 is not part of the repository's sources:
    the superblock's checksum takes it as an argument. *)

From S2P Require Import Prelude Bytes.

Definition BLOCK_SIZE : Z := 4096.
Notation block := (list byte) (only parsing).
Definition is_block (b : block) : Prop := zlen b = BLOCK_SIZE.
Definition zero_block : block := replicate (Z.to_nat BLOCK_SIZE) x00.

Definition JOURNAL_MAGIC : list byte := ascii "npkJRNL" ++ [x00].
Definition SUPERBLOCK_SLOTS : Z := 8.
Definition SUPERBLOCK_START : Z := 1.
Definition JOURNAL_START : Z := SUPERBLOCK_START + SUPERBLOCK_SLOTS.
Definition JOURNAL_BLOCKS : Z := 256.
Definition META_END : Z := JOURNAL_START + JOURNAL_BLOCKS.
Definition MAX_JOURNAL_ENTRIES : Z := (BLOCK_SIZE - 24) / 16.

(** drivers/virtio_blk.rs *)
Inductive BlkError :=
  | NotInitialized | OutOfRange | QueueFull | IoError | Unsupported | Timeout
  | Unknown (status : Z).

Inductive FsError :=
  | Disk (e : BlkError)
  | NotFormatted
  | NotMounted
  | Corrupt
  | ObjectNotFound
  | ObjectExists
  | NameTooLong
  | InvalidName
  | ReservedName
  | DiskFull
  | TreeTooDeep
  | TooManyExtents
  | Locked
  | OutOfMemory.

Record Extent := mkExtent { start_block : Z; block_count : Z }.
Definition extent_zero : Extent := mkExtent 0 0.

(** ** Format identity *)
Definition DISK_MAGIC : list byte := ascii "npkFS" ++ [x04; x00; x00].
Definition DISK_MAGIC_V2 : list byte := ascii "npkFS" ++ [x02; x00; x00].
Definition DISK_MAGIC_V3 : list byte := ascii "npkFS" ++ [x03; x00; x00].
Definition DISK_VERSION : Z := 4.
Definition KEYSLOTS : nat := 2.
Definition SLOT_BYTES : nat := 128.
Definition BTREE_NODE_MAGIC : Z := 0x324B504E.
Definition BTREE_INTERNAL : Z := 1.
Definition BTREE_LEAF : Z := 2.
Definition DIRECT_EXTENTS : nat := 3.
Definition EXTENTS_PER_INDIRECT : Z := 255.
Definition LEAF_ENTRY_SIZE : Z := 112.
Definition INTERNAL_ENTRY_SIZE : Z := 40.
Definition NODE_HEADER_SIZE : Z := 16.
Definition CHECKSUM_SIZE : Z := 32.
Definition MAX_INTERNAL_KEYS : Z :=
  (BLOCK_SIZE - NODE_HEADER_SIZE - CHECKSUM_SIZE) / INTERNAL_ENTRY_SIZE.
Definition MAX_LEAF_ENTRIES : Z :=
  (BLOCK_SIZE - NODE_HEADER_SIZE - CHECKSUM_SIZE) / LEAF_ENTRY_SIZE.

(** ** Leaf entries *)
Record BTreeEntryRaw := mkEntryRaw {
  hash : list byte;
  plaintext_size : Z;
  disk_size : Z;
  extent_count : Z;
  entry_pad : Z;
  extents : list Extent;
  indirect_block : Z;
}.

(** The struct's fields in declaration order; there is no padding. *)
Definition entry_layout : list nat := [32; 8; 8; 4; 4; 8; 8; 8; 8; 8; 8; 8]%nat.

Definition extent_fields (e : Extent) : list (list byte) :=
  [le64 (start_block e); le64 (block_count e)].

Definition entry_bytes (e : BTreeEntryRaw) : list byte :=
  mjoin ([hash e; le64 (plaintext_size e); le64 (disk_size e); le32 (extent_count e);
          le32 (entry_pad e)] ++ (extents e ≫= extent_fields) ++ [le64 (indirect_block e)]).

Definition entry_of (bs : list byte) : BTreeEntryRaw :=
  match chunks entry_layout bs with
  | [h; p; d; c; pad; s1; n1; s2; n2; s3; n3; i] =>
      mkEntryRaw h (of_le p) (of_le d) (of_le c) (of_le pad)
        [mkExtent (of_le s1) (of_le n1); mkExtent (of_le s2) (of_le n2);
         mkExtent (of_le s3) (of_le n3)] (of_le i)
  | _ => mkEntryRaw [] 0 0 0 0 [] 0
  end.

Definition extent_wf (e : Extent) : Prop := fits 64 (start_block e) ∧ fits 64 (block_count e).

Record entry_wf (e : BTreeEntryRaw) : Prop := {
  ew_hash : length (hash e) = 32%nat;
  ew_plain : fits 64 (plaintext_size e);
  ew_disk : fits 64 (disk_size e);
  ew_count : fits 32 (extent_count e);
  ew_pad : fits 32 (entry_pad e);
  ew_len : length (extents e) = DIRECT_EXTENTS;
  ew_ext : Forall extent_wf (extents e);
  ew_ind : fits 64 (indirect_block e);
}.

Lemma of_le_fits (n : nat) bs : length bs = n → fits (8 * Z.of_nat n) (of_le bs).
Proof.
  intros <-. pose proof (of_le_range bs) as H. unfold zlen in H.
  unfold fits. rewrite Z.pow_mul_r by lia. done.
Qed.

Lemma length_entry_bytes e : entry_wf e → length (entry_bytes e) = 112%nat.
Proof.
  intros [Hh _ _ _ _ Hl _ _]. unfold entry_bytes.
  destruct (extents e) as [|e1 [|e2 [|e3 [|]]]]; try done. simpl.
  rewrite !length_app, Hh. done.
Qed.

(** Storing an entry in a leaf and reading it back gives the entry. *)
Lemma entry_of_bytes e : entry_wf e → entry_of (entry_bytes e) = e.
Proof.
  intros [Hh Hp Hd Hc Hpad Hl Hx Hi]. destruct e as [h p d c pad xs i]. simpl in *.
  destruct xs as [|[] [|[] [|[] [|]]]]; try done. rewrite !Forall_cons in Hx.
  destruct Hx as ([] & [] & [] & _). unfold entry_of, entry_bytes.
  rewrite chunks_mjoin by (repeat constructor; auto). simpl in *.
  by rewrite !of_le64, !of_le32 by done.
Qed.

(** Any 112 bytes are a well-formed entry. *)
Lemma entry_of_wf bs : length bs = 112%nat → entry_wf (entry_of bs).
Proof.
  intros H. pose proof (chunks_lengths entry_layout bs H) as Hc. unfold entry_of.
  destruct (chunks entry_layout bs) as [|h [|p [|d [|c [|pad [|s1 [|n1 [|s2 [|n2 [|s3 [|n3
    [|i [|? ?]]]]]]]]]]]]] ; repeat (apply Forall2_cons in Hc as [? Hc]);
    try solve [inversion Hc].
  split; simpl; auto.
  all: repeat constructor; simpl; try by (apply (of_le_fits 8); auto).
  all: apply (of_le_fits 4); auto.
Qed.

(** Any 112 bytes are the bytes of the entry they encode. *)
Lemma entry_bytes_of bs : length bs = 112%nat → entry_bytes (entry_of bs) = bs.
Proof.
  intros H. pose proof (chunks_lengths entry_layout bs H) as Hc.
  rewrite <- (mjoin_chunks entry_layout bs) at 2 by done. unfold entry_of, entry_bytes.
  destruct (chunks entry_layout bs) as [|h [|p [|d [|c [|pad [|s1 [|n1 [|s2 [|n2 [|s3 [|n3
    [|i [|? ?]]]]]]]]]]]]] ; repeat (apply Forall2_cons in Hc as [? Hc]);
    try solve [inversion Hc].
  unfold extent_fields. cbn [hash plaintext_size disk_size extent_count entry_pad extents
    indirect_block start_block block_count mbind list_bind app]. unfold le64, le32.
  by rewrite !le_bytes_of_le_n by done.
Qed.

(** ** Node headers *)
Record BTreeNodeHeader := mkHeader {
  magic : Z;
  node_type : Z;
  hdr_pad : Z;
  num_entries : Z;
  right_child : Z;
}.

(** ** The superblock *)
Record SuperblockRaw := mkSb {
  sb_magic : list byte;
  version : Z;
  flags : Z;
  generation : Z;
  total_blocks : Z;
  free_blocks : Z;
  bitmap_start : Z;
  bitmap_count : Z;
  data_start : Z;
  btree_root : Z;
  root_tree_hash : list byte;
  object_count : Z;
  journal_head : Z;
  journal_seq : Z;
  install_salt : list byte;
  keyslot0 : list byte;
  keyslot1 : list byte;
  sb_reserved : list byte;
  checksum : list byte;
}.

Definition RESERVED_BYTES : nat := Z.to_nat 3664.

Definition sb_body_layout : list nat :=
  [8; 4; 4; 8; 8; 8; 8; 8; 8; 8; 32; 8; 8; 8; 16; SLOT_BYTES; SLOT_BYTES; RESERVED_BYTES]%nat.

(** The first [BLOCK_SIZE - 32] bytes. *)
Definition sb_body (sb : SuperblockRaw) : list byte :=
  mjoin [sb_magic sb; le32 (version sb); le32 (flags sb); le64 (generation sb);
         le64 (total_blocks sb); le64 (free_blocks sb); le64 (bitmap_start sb);
         le64 (bitmap_count sb); le64 (data_start sb); le64 (btree_root sb); root_tree_hash sb;
         le64 (object_count sb); le64 (journal_head sb); le64 (journal_seq sb); install_salt sb;
         keyslot0 sb; keyslot1 sb; sb_reserved sb].

Definition sb_bytes (sb : SuperblockRaw) : block := sb_body sb ++ checksum sb.

Definition sb_of (bs : block) : SuperblockRaw :=
  match chunks (sb_body_layout ++ [32%nat]) bs with
  | [m; v; fl; g; tb; fb; bst; bct; ds; br; rth; oc; jh; js; salt; k0; k1; rsv; cs] =>
      mkSb m (of_le v) (of_le fl) (of_le g) (of_le tb) (of_le fb) (of_le bst) (of_le bct)
        (of_le ds) (of_le br) rth (of_le oc) (of_le jh) (of_le js) salt k0 k1 rsv cs
  | _ => mkSb [] 0 0 0 0 0 0 0 0 0 [] 0 0 0 [] [] [] [] []
  end.

Record sb_wf (sb : SuperblockRaw) : Prop := {
  sw_magic : length (sb_magic sb) = 8%nat;
  sw_u32 : Forall (fits 32) [version sb; flags sb];
  sw_u64 : Forall (fits 64) [generation sb; total_blocks sb; free_blocks sb; bitmap_start sb;
             bitmap_count sb; data_start sb; btree_root sb; object_count sb; journal_head sb;
             journal_seq sb];
  sw_root : length (root_tree_hash sb) = 32%nat;
  sw_salt : length (install_salt sb) = 16%nat;
  sw_k0 : length (keyslot0 sb) = SLOT_BYTES;
  sw_k1 : length (keyslot1 sb) = SLOT_BYTES;
  sw_rsv : length (sb_reserved sb) = RESERVED_BYTES;
  sw_sum : length (checksum sb) = 32%nat;
}.

Lemma mjoin_snoc (ls : list (list byte)) l : mjoin ls ++ l = mjoin (ls ++ [l]).
Proof. rewrite join_app. simpl. by rewrite app_nil_r. Qed.

#[global] Opaque RESERVED_BYTES.

Lemma length_sb_body sb : sb_wf sb → length (sb_body sb) = (400 + RESERVED_BYTES)%nat.
Proof.
  intros [Hm _ _ Hr Hs H0 H1 Hv _]. unfold sb_body. rewrite length_join. cbn [fmap list_fmap].
  rewrite Hm, Hr, Hs, H0, H1, Hv. unfold le32, le64. rewrite !length_le_bytes.
  unfold SLOT_BYTES. cbn [sum_list sum_list_with foldr]. simpl. lia.
Qed.

Lemma sb_bytes_block sb : sb_wf sb → is_block (sb_bytes sb).
Proof.
  intros H. unfold is_block, sb_bytes, zlen. rewrite length_app, length_sb_body, (sw_sum _ H) by done.
  Transparent RESERVED_BYTES. unfold RESERVED_BYTES, BLOCK_SIZE. lia.
Qed.

(** A superblock written to disk reads back as it was. *)
Lemma sb_of_bytes sb : sb_wf sb → sb_of (sb_bytes sb) = sb.
Proof.
  intros [Hm H32 H64 Hr Hs H0 H1 Hv Hc]. destruct sb. simpl in *.
  repeat (apply Forall_cons in H32 as [? H32]). repeat (apply Forall_cons in H64 as [? H64]).
  unfold sb_of, sb_bytes, sb_body. cbn [sb_magic version flags generation total_blocks free_blocks
    bitmap_start bitmap_count data_start btree_root root_tree_hash object_count journal_head
    journal_seq install_salt keyslot0 keyslot1 sb_reserved checksum].
  rewrite mjoin_snoc. cbn [app].
  rewrite chunks_mjoin by (repeat constructor; auto). simpl.
  by rewrite !of_le64, !of_le32 by done.
Qed.

Section blake3.
(** [blake3::hash] of a byte string: 32 bytes. *)
Context (blake3 : list byte → list byte).

Definition compute_checksum (sb : SuperblockRaw) : list byte := blake3 (sb_body sb).

Definition is_valid (sb : SuperblockRaw) : bool :=
  bool_decide (sb_magic sb = DISK_MAGIC) && (version sb =? DISK_VERSION)
  && bool_decide (checksum sb = compute_checksum sb).

Definition with_checksum (sb : SuperblockRaw) (c : list byte) : SuperblockRaw :=
  mkSb (sb_magic sb) (version sb) (flags sb) (generation sb) (total_blocks sb)
    (free_blocks sb) (bitmap_start sb) (bitmap_count sb) (data_start sb) (btree_root sb)
    (root_tree_hash sb) (object_count sb) (journal_head sb) (journal_seq sb) (install_salt sb)
    (keyslot0 sb) (keyslot1 sb) (sb_reserved sb) c.

Definition set_checksum (sb : SuperblockRaw) : SuperblockRaw :=
  with_checksum sb (compute_checksum sb).
End blake3.
