(* ===== verification/BlockStore.v ===== *)
(** * The interface of the block cache

    What the B-tree, the bitmap, the journal and the superblock code call on
    [BlockCache] (storage/npkfs/cache.rs), and what they rely on.  [BlockStore]
    is the operations, [BlockStoreOk] their contract over an abstract view of
    the disk: the bytes a read of each block returns.  The clients' theorems are
    proved against the contract; Cache.v discharges it for the LRU cache. *)

From S2P Require Import Prelude Bytes Format.

Class BlockStore (C : Type) := {
  read : Z → M C FsError block;
  read_checked : Z → (block → bool) → M C FsError (bool * block);
  write : Z → block → M C FsError unit;
  write_checked : Z → block → M C FsError unit;
  invalidate : Z → C → C;
}.

(** [same f g] and [updated f b v g] relate two views pointwise. *)
Definition same (f g : Z → block) : Prop := ∀ b, g b = f b.
Definition updated (f : Z → block) (b : Z) (v : block) (g : Z → block) : Prop :=
  g b = v ∧ ∀ b', b' ≠ b → g b' = f b'.

#[global] Instance same_equivalence : Equivalence same.
Proof. split; unfold same; intros ?; try intros ?; congruence. Qed.

(** How an operation may end: an error is always possible unless the store is
    [healthy] (the device serves every request and a frame can be had). *)
Definition ends {A} (healthy : Prop) (r : res FsError A) (P : A → Prop) (Q : Prop) : Prop :=
  match r with
  | Ok a => P a
  | Err _ => Q ∧ ¬ healthy
  | Panic => False
  end.

Class BlockStoreOk (C : Type) `{!BlockStore C} (check : block → bool) := {
  view : C → Z → block;
  store_inv : C → Prop;
  healthy : C → Prop;

  view_block c b : store_inv c → is_block (view c b);

  (** A read returns the block's bytes and changes none. *)
  read_spec c b : store_inv c →
    wp (read b) (λ r c', store_inv c' ∧ same (view c) (view c') ∧ (healthy c → healthy c') ∧
                  ends (healthy c) r (λ v, v = view c b) True) c;

  (** A checked read reports whether the bytes it returns pass the check. *)
  read_checked_spec c b : store_inv c →
    wp (read_checked b check)
       (λ r c', store_inv c' ∧ same (view c) (view c') ∧ (healthy c → healthy c') ∧
          ends (healthy c) r (λ v, v = (check (view c b), view c b)) True) c;

  (** A write changes that block and no other; a failed one changes nothing. *)
  write_spec c b v : store_inv c → is_block v →
    wp (write b v)
       (λ r c', store_inv c' ∧ (healthy c → healthy c') ∧
          ends (healthy c) r (λ _, updated (view c) b v (view c')) (same (view c) (view c'))) c;

  (** The caller of [write_checked] vouches for the bytes. *)
  write_checked_spec c b v : store_inv c → is_block v → check v = true →
    wp (write_checked b v)
       (λ r c', store_inv c' ∧ (healthy c → healthy c') ∧
          ends (healthy c) r (λ _, updated (view c) b v (view c')) (same (view c) (view c'))) c;

  (** Dropping a block touches no other one. *)
  invalidate_spec c b : store_inv c →
    store_inv (invalidate b c) ∧ (healthy c → healthy (invalidate b c)) ∧
    ∀ b', b' ≠ b → view (invalidate b c) b' = view c b';

  (** [direct c b]: the device has what a read of [b] returns.  Only a write of [b]
      can end that. *)
  direct : C → Z → Prop;
  direct_read c b : store_inv c → wp (read b) (λ _ c', ∀ b', direct c b' → direct c' b') c;
  direct_read_checked c b : store_inv c → wp (read_checked b check) (λ _ c', ∀ b', direct c b' → direct c' b') c;
  direct_write c b v : store_inv c → is_block v →
    wp (write b v) (λ _ c', ∀ b', b' ≠ b → direct c b' → direct c' b') c;
  direct_write_checked c b v : store_inv c → is_block v → check v = true →
    wp (write_checked b v) (λ _ c', ∀ b', b' ≠ b → direct c b' → direct c' b') c;
  direct_invalidate c b : store_inv c → direct (invalidate b c) b ∧ ∀ b', direct c b' → direct (invalidate b c) b';
}.

(** ** Reading only *)
Section reading.
Context {C : Type} `{!BlockStore C} {check : block → bool} `{!BlockStoreOk C check}.
Notation view := (view (check := check)).
Notation store_inv := (store_inv (check := check)).
Notation healthy := (healthy (check := check)).
Notation direct := (direct (check := check)).

(** What a read-only walk leaves alone. *)
Definition unchanged (c c' : C) : Prop :=
  store_inv c' ∧ same (view c) (view c') ∧ (healthy c → healthy c') ∧ ∀ b, direct c b → direct c' b.

Lemma unchanged_refl c : store_inv c → unchanged c c.
Proof. intros I. by unfold unchanged; split_and!. Qed.
Lemma unchanged_trans c1 c2 c3 : unchanged c1 c2 → unchanged c2 c3 → unchanged c1 c3.
Proof. intros (? & ? & ? & ?) (? & ? & ? & ?). unfold unchanged. split_and!; [done|by etrans|auto|auto]. Qed.

Lemma read_unchanged c b : store_inv c →
  wp (read b) (λ r c', unchanged c c' ∧ ends (healthy c) r (λ v, v = view c b) True) c.
Proof.
  intros I. eapply wp_mono; [apply wp_and; [by apply read_spec|by apply direct_read]|].
  intros r c' [(H1 & H2 & H3 & H4) H5]. by split_and!.
Qed.
End reading.

(** ** A store without a cache

    The device alone, every request served: what the cache is transparent to.
    Unwritten blocks read as zeros. *)
Notation MemStore := (gmap Z (list byte)) (only parsing).
Definition mem_view (m : MemStore) (b : Z) : block := default zero_block (m !! b).

#[global] Instance mem_store : BlockStore MemStore := {
  read b := λ m, (Ok (mem_view m b), m);
  read_checked b check := λ m, (Ok (check (mem_view m b), mem_view m b), m);
  write b v := λ m, (Ok tt, <[b := v]> m);
  write_checked b v := λ m, (Ok tt, <[b := v]> m);
  invalidate _ m := m;
}.

Lemma zero_block_is_block : is_block zero_block.
Proof. unfold is_block, zero_block. rewrite zlen_replicate. done. Qed.

Lemma mem_view_updated (m : MemStore) b v : updated (mem_view m) b v (mem_view (<[b := v]> m)).
Proof.
  unfold updated, mem_view. split.
  - by rewrite lookup_insert_eq.
  - intros. by rewrite lookup_insert_ne.
Qed.

#[global] Program Instance mem_store_ok check : BlockStoreOk MemStore check := {
  view := mem_view;
  store_inv m := map_Forall (λ _ v, is_block v) m;
  healthy _ := True;
  direct _ _ := True;
}.
Next Obligation.
  intros check c b H. unfold mem_view. destruct (c !! b) eqn:E; simpl.
  - by apply (H b).
  - apply zero_block_is_block.
Qed.
Next Obligation. intros. unfold wp. simpl. split_and!; try done. Qed.
Next Obligation. intros. unfold wp. simpl. split_and!; try done. Qed.
Next Obligation.
  intros. unfold wp. simpl. split_and!; [|done|apply mem_view_updated].
  by apply map_Forall_insert_2.
Qed.
Next Obligation.
  intros. unfold wp. simpl. split_and!; [|done|apply mem_view_updated].
  by apply map_Forall_insert_2.
Qed.
Next Obligation. intros. simpl. split_and!; done. Qed.
Next Obligation. done. Qed.
Next Obligation. done. Qed.
Next Obligation. done. Qed.
Next Obligation. done. Qed.
Next Obligation. done. Qed.

(** ** Writing past the cache *)

(** A write past the cache, with [FUA]; the caller drops the cached copy first. *)
Class BlockFua (C : Type) := { write_block_fua : Z → block → M C FsError unit }.

Class BlockFuaOk (C : Type) `{!BlockStore C} `{!BlockFua C} (check : block → bool) `{!BlockStoreOk C check} := {
  write_block_fua_spec c b v : store_inv c → is_block v →
    wp (write_block_fua b v) (λ r c', store_inv c' ∧ (healthy c → healthy c') ∧
      (∀ b', b' ≠ b → view c' b' = view c b') ∧ ends (healthy c) r (λ _, view c' b = v) True) (invalidate b c);
  direct_fua c b v : store_inv c → is_block v →
    wp (write_block_fua b v) (λ _ c', ∀ b', b' = b ∨ direct c b' → direct c' b') (invalidate b c);
}.

#[global] Instance mem_fua : BlockFua MemStore := { write_block_fua b v := λ m, (Ok tt, <[b := v]> m) }.
#[global] Program Instance mem_fua_ok check : BlockFuaOk MemStore check.
Next Obligation.
  intros check c b v I Hv. unfold wp. simpl. destruct (mem_view_updated c b v) as [H1 H2].
  split_and!; [by apply map_Forall_insert_2|done|done|done].
Qed.
Next Obligation. done. Qed.
