(* ===== verification/Bitmap.v ===== *)
(** * The block allocation bitmap (storage/npkfs/bitmap.rs)

    One bit per block, set = used.  [alloc] is next-fit over the data area,
    [free] ignores ranges outside it, [sync] writes the bitmap blocks that
    changed to the store and [load_args] reads them back, [flush_trims] turns
    the freed ranges into discards. *)

From S2P Require Import Prelude Bytes Format BlockStore.

Module Bitmap.

(** ** Bits *)
Definition is_free (data : list byte) (b : Z) : option bool :=
  x ← at_ data (b / 8);
  Some (Z.land (bval x) (Z.shiftl 1 (b `mod` 8)) =? 0).

Definition set_used (data : list byte) (b : Z) : option (list byte) :=
  x ← at_ data (b / 8);
  Some (<[Z.to_nat (b / 8) := byte_of (Z.lor (bval x) (Z.shiftl 1 (b `mod` 8)))]> data).

Definition set_free (data : list byte) (b : Z) : option (list byte) :=
  x ← at_ data (b / 8);
  Some (<[Z.to_nat (b / 8) :=
            byte_of (Z.land (bval x) (Z.lxor 255 (Z.shiftl 1 (b `mod` 8))))]> data).

(** [for b in b..b + n]: how many are free. *)
Fixpoint count_loop (data : list byte) (n : nat) (b acc : Z) : option Z :=
  match n with
  | O => Some acc
  | S n =>
      f ← is_free data b;
      count_loop data n (b + 1) (if f : bool then acc + 1 else acc)
  end.

Definition count_free (data : list byte) (total : Z) : option Z :=
  count_loop data (Z.to_nat total) 0 0.

(** ** The allocator's state *)
Record t := mk {
  data : list byte;
  bitmap_start : Z;
  bitmap_count : Z;
  data_start : Z;
  total_blocks : Z;
  free_count : Z;
  dirty : bool;
  dirty_blocks : list bool;
  trim_pending : list (Z * Z);
  alloc_cursor : Z;
}.

Definition set_data (d : list byte) (s : t) : t :=
  mk d (bitmap_start s) (bitmap_count s) (data_start s) (total_blocks s) (free_count s)
    (dirty s) (dirty_blocks s) (trim_pending s) (alloc_cursor s).
Definition set_dirty_blocks (d : list bool) (s : t) : t :=
  mk (data s) (bitmap_start s) (bitmap_count s) (data_start s) (total_blocks s) (free_count s)
    (dirty s) d (trim_pending s) (alloc_cursor s).
Definition set_free_count (n : Z) (s : t) : t :=
  mk (data s) (bitmap_start s) (bitmap_count s) (data_start s) (total_blocks s) n
    (dirty s) (dirty_blocks s) (trim_pending s) (alloc_cursor s).
Definition set_dirty (d : bool) (s : t) : t :=
  mk (data s) (bitmap_start s) (bitmap_count s) (data_start s) (total_blocks s) (free_count s)
    d (dirty_blocks s) (trim_pending s) (alloc_cursor s).
Definition set_trim (l : list (Z * Z)) (s : t) : t :=
  mk (data s) (bitmap_start s) (bitmap_count s) (data_start s) (total_blocks s) (free_count s)
    (dirty s) (dirty_blocks s) l (alloc_cursor s).
Definition set_cursor (c : Z) (s : t) : t :=
  mk (data s) (bitmap_start s) (bitmap_count s) (data_start s) (total_blocks s) (free_count s)
    (dirty s) (dirty_blocks s) (trim_pending s) c.

Definition is_allocated (s : t) (b : Z) : option bool :=
  if total_blocks s <=? b then Some false else negb <$> is_free (data s) b.

Definition mark_block_dirty (b : Z) (s : t) : t :=
  let i := b / 8 / BLOCK_SIZE in
  if i <? zlen (dirty_blocks s)
  then set_dirty_blocks (<[Z.to_nat i := true]> (dirty_blocks s)) s
  else s.

(** ** Allocation

    The scan of [find_run]: [n] blocks from [b] on, the run so far being
    [run_len] blocks from [run_start].  [Some (Some r)] is a run of [count]
    blocks at [r], the outer [None] an index out of range. *)
Fixpoint scan (d : list byte) (count : Z) (n : nat) (b run_start run_len : Z)
  : option (option Z) :=
  match n with
  | O => Some None
  | S n =>
      f ← is_free d b;
      if f : bool then
        let run_start := if run_len =? 0 then b else run_start in
        let run_len := run_len + 1 in
        if run_len =? count then Some (Some run_start)
        else scan d count n (b + 1) run_start run_len
      else scan d count n (b + 1) run_start 0
  end.

(** [for i in 0..count]: mark the run used. *)
Fixpoint take_run (n : nat) (b : Z) (s : t) : option t :=
  match n with
  | O => Some s
  | S n =>
      d ← set_used (data s) b;
      take_run n (b + 1) (mark_block_dirty b (set_data d s))
  end.

Definition find_run (from to count : Z) (s : t) : option (option Z * t) :=
  r ← scan (data s) count (Z.to_nat (to - from)) from from 0;
  match r with
  | None => Some (None, s)
  | Some run_start =>
      s ← take_run (Z.to_nat count) run_start s;
      let s := set_dirty true (set_free_count (u64 (free_count s - count)) s) in
      let s := set_cursor (u64 (run_start + count)) s in
      let s := if total_blocks s <=? alloc_cursor s then set_cursor (data_start s) s else s in
      Some (Some run_start, s)
  end.

Definition alloc (count : Z) : M t FsError Z := λ s,
  if (count =? 0) || (free_count s <? count) then (Err DiskFull, s)
  else
    match find_run (alloc_cursor s) (total_blocks s) count s with
    | None => (Panic, s)
    | Some (Some b, s) => (Ok b, s)
    | Some (None, s) =>
        if data_start s <? alloc_cursor s then
          match find_run (data_start s) (alloc_cursor s) count s with
          | None => (Panic, s)
          | Some (Some b, s) => (Ok b, s)
          | Some (None, s) => (Err DiskFull, s)
          end
        else (Err DiskFull, s)
    end.

(** ** Freeing *)
Fixpoint free_run (n : nat) (b : Z) (s : t) : option t :=
  match n with
  | O => Some s
  | S n =>
      if b <? total_blocks s then
        f ← is_free (data s) b;
        if f : bool then free_run n (b + 1) s
        else
          d ← set_free (data s) b;
          let s := mark_block_dirty b (set_data d s) in
          free_run n (b + 1) (set_free_count (u64 (free_count s + 1)) s)
      else free_run n (b + 1) s
  end.

(** [start.checked_add(count)] *)
Definition in_data (s : t) (start count : Z) : bool :=
  (start + count <? 2 ^ 64) && (data_start s <=? start) && (start + count <=? total_blocks s).

Definition free (start count : Z) (s : t) : option t :=
  if negb (in_data s start count) then Some s
  else
    s ← free_run (Z.to_nat count) start s;
    Some (if 0 <? count
          then set_dirty true (set_trim (trim_pending s ++ [(start, count)]) s) else s).

(** ** Fresh, saved and loaded bitmaps *)
Fixpoint mark_used (n : nat) (b : Z) (d : list byte) : option (list byte) :=
  match n with
  | O => Some d
  | S n => d ← set_used d b; mark_used n (b + 1) d
  end.

Definition new_for_mkfs (total start count dstart : Z) : option t :=
  let byte_count := (total + 7) / 8 in
  d ← mark_used (Z.to_nat dstart) 0 (replicate (Z.to_nat byte_count) x00);
  Some (mk d start count dstart total (sat_sub total dstart) true
          (replicate (Z.to_nat count) true) [] dstart).

(** The bytes of bitmap block [i]: its share of [data], zero padded. *)
Definition chunk_of (d : list byte) (i : Z) : option block :=
  let offset := i * BLOCK_SIZE in
  let copy_len := Z.min BLOCK_SIZE (u64 (zlen d - offset)) in
  s ← sub d offset copy_len;
  splice zero_block 0 s.

Section store.
Context {C : Type} `{!BlockStore C}.

(** [for i in i..i + n] of [sync]. *)
Fixpoint sync_loop (n : nat) (i : Z) : M (C * t) FsError unit :=
  match n with
  | O => mret tt
  | S n =>
      '(_, s) ← get;
      if (i <? zlen (dirty_blocks s)) && negb (default true (at_ (dirty_blocks s) i))
      then sync_loop n (i + 1)
      else
        buf ← of_opt (chunk_of (data s) i);
        _ ← on_fst (write (u64 (bitmap_start s + i)) buf);
        '(c, s) ← get;
        _ ← put (c, if i <? zlen (dirty_blocks s)
                    then set_dirty_blocks (<[Z.to_nat i := false]> (dirty_blocks s)) s
                    else s);
        sync_loop n (i + 1)
  end.

Definition sync : M (C * t) FsError unit :=
  '(_, s) ← get;
  if dirty s then sync_loop (Z.to_nat (bitmap_count s)) 0 else mret tt.

(** [for i in i..i + n] of [load_args]. *)
Fixpoint load_loop (start : Z) (n : nat) (i : Z) (d : list byte) : M C FsError (list byte) :=
  match n with
  | O => mret d
  | S n =>
      buf ← read (u64 (start + i));
      let offset := i * BLOCK_SIZE in
      let copy_len := Z.min BLOCK_SIZE (u64 (zlen d - offset)) in
      s ← of_opt (sub buf 0 copy_len);
      d ← of_opt (splice d offset s);
      load_loop start n (i + 1) d
  end.

(** [reserve] is [try_reserve_exact]: whether the heap has that many bytes. *)
Definition load_args (reserve : Z → bool) (total start count dstart : Z) : M C FsError t :=
  let byte_count := div_ceil total 8 in
  if negb (count =? div_ceil byte_count BLOCK_SIZE)
     || (dstart <? sat_add 64 start count) || (total <? dstart)
  then fail Corrupt
  else if negb (reserve byte_count) then fail Corrupt
  else
    d ← load_loop start (Z.to_nat count) 0 (replicate (Z.to_nat byte_count) x00);
    n ← of_opt (count_free d total);
    mret (mk d start count dstart total n false (replicate (Z.to_nat count) false) [] dstart).
End store.

(** ** Discards *)

(** [while b < end && is_free(b) { b += 1 }] *)
Fixpoint free_end (d : list byte) (n : nat) (b : Z) : option Z :=
  match n with
  | O => Some b
  | S n => f ← is_free d b; if f : bool then free_end d n (b + 1) else Some b
  end.

(** The [match merged.last_mut()]; [merged] is kept last range first. *)
Definition push_merge (merged : list (Z * Z)) (run b : Z) : list (Z * Z) :=
  match merged with
  | (s, c) :: rest =>
      if run <=? u64 (s + c) then (s, Z.max c (u64 (b - s))) :: rest
      else (run, u64 (b - run)) :: merged
  | [] => [(run, u64 (b - run))]
  end.

Fixpoint trim_range (d : list byte) (fuel : nat) (b end_ : Z) (merged : list (Z * Z))
  : option (list (Z * Z)) :=
  match fuel with
  | O => None
  | S fuel =>
      if b <? end_ then
        f ← is_free d b;
        if f : bool then
          e ← free_end d (Z.to_nat (end_ - b)) b;
          trim_range d fuel e end_ (push_merge merged b e)
        else trim_range d fuel (b + 1) end_ merged
      else Some merged
  end.

Fixpoint trim_ranges (s : t) (pending merged : list (Z * Z)) : option (list (Z * Z)) :=
  match pending with
  | [] => Some merged
  | (start, count) :: pending =>
      let end_ := Z.min (u64 (start + count)) (total_blocks s) in
      merged ← trim_range (data s) (S (Z.to_nat (end_ - start))) start end_ merged;
      trim_ranges s pending merged
  end.

(** [sort_by_key(|&(s, _)| s)], stable. *)
Fixpoint insert_by_start (x : Z * Z) (l : list (Z * Z)) : list (Z * Z) :=
  match l with
  | [] => [x]
  | y :: l => if x.1 <=? y.1 then x :: y :: l else y :: insert_by_start x l
  end.
Definition sort_by_start (l : list (Z * Z)) : list (Z * Z) := foldr insert_by_start [] l.

(** The ranges given to [discard_ranges], and the state after. *)
Definition flush_trims (s : t) : option (list (Z * Z) * t) :=
  merged ← trim_ranges s (sort_by_start (trim_pending s)) [];
  Some (reverse merged, set_trim [] s).

End Bitmap.
