(* ===== verification/BitmapSpec.v ===== *)
(** * What the allocator promises

    Bits as a predicate [used], the number of free blocks [nfree], the
    allocator's invariant and what each operation does to them.  The theorems:
    an allocation returns blocks of the data area that were free and marks
    exactly these; one block can be had whenever the data area has a free one;
    [free] releases exactly its range or, outside the data area, nothing; the
    on-disk copy follows the one in memory; discards touch free blocks only
    as long as no pending ranges overlap, and not otherwise. *)

From S2P Require Import Prelude Bytes Format BlockStore Bitmap.
Import Bitmap.

(** ** Bits *)
Definition used (d : list byte) (b : Z) : bool :=
  Z.testbit (bval (default x00 (d !! Z.to_nat (b / 8)))) (b `mod` 8).

Definition covered (d : list byte) (b : Z) : Prop := 0 ≤ b < 8 * zlen d.

Lemma covered_at d b : covered d b →
  ∃ x, at_ d (b / 8) = Some x ∧ d !! Z.to_nat (b / 8) = Some x ∧ 0 ≤ b / 8 < zlen d.
Proof.
  intros [H0 H1].
  assert (0 ≤ b / 8 < zlen d) as Hr.
  { split; [by apply Z.div_pos|]. apply Z.div_lt_upper_bound; lia. }
  destruct (at_Some d (b / 8) Hr) as [x Hx]. exists x. split_and!; try lia; [done|].
  unfold at_ in Hx. by rewrite (proj2 (Z.leb_le _ _)) in Hx by lia.
Qed.

Lemma land_bit_eqb x k : 0 ≤ k → (Z.land x (Z.shiftl 1 k) =? 0) = negb (Z.testbit x k).
Proof.
  intros Hk. rewrite Z.shiftl_1_l. destruct (Z.testbit x k) eqn:E; simpl.
  - apply Z.eqb_neq. intros H. apply (f_equal (λ z, Z.testbit z k)) in H.
    rewrite Z.land_spec, Z.pow2_bits_true, E, Z.bits_0 in H by done. done.
  - apply Z.eqb_eq, Z.bits_inj'. intros j Hj. rewrite Z.land_spec, Z.bits_0.
    destruct (decide (j = k)) as [->|]; [by rewrite E|].
    rewrite Z.pow2_bits_false by done. apply andb_false_r.
Qed.

Lemma is_free_used d b : covered d b → is_free d b = Some (negb (used d b)).
Proof.
  intros H. destruct (covered_at d b H) as (x & Hx & Hl & _).
  unfold is_free, used. rewrite Hx, Hl. simpl. f_equal.
  apply land_bit_eqb, Z.mod_pos_bound. lia.
Qed.

Lemma used_poke d b y b' : covered d b → 0 ≤ b' →
  used (<[Z.to_nat (b / 8) := y]> d) b' =
    if decide (b' / 8 = b / 8) then Z.testbit (bval y) (b' `mod` 8) else used d b'.
Proof.
  intros H Hb'. destruct (covered_at d b H) as (x & _ & Hl & Hr).
  unfold used. case_decide as E.
  - rewrite E, list_lookup_insert_eq; [done|]. by eapply lookup_lt_Some.
  - rewrite list_lookup_insert_ne; [done|]. intros E'. apply E.
    assert (0 ≤ b' / 8) by (by apply Z.div_pos). lia.
Qed.

Lemma testbit_byte z k : 0 ≤ k < 8 → Z.testbit (bval (byte_of z)) k = Z.testbit z k.
Proof.
  intros. rewrite bval_byte_of. change 256 with (2 ^ 8). apply Z.mod_pow2_bits_low. lia.
Qed.

Lemma same_bit b b' : b' / 8 = b / 8 → (b' `mod` 8 = b `mod` 8 ↔ b' = b).
Proof.
  intros H. pose proof (Z.div_mod b 8). pose proof (Z.div_mod b' 8). split; [lia|by intros ->].
Qed.

Lemma set_used_spec d b : covered d b →
  ∃ y, set_used d b = Some (<[Z.to_nat (b / 8) := y]> d) ∧
    ∀ b', 0 ≤ b' →
      used (<[Z.to_nat (b / 8) := y]> d) b' = if decide (b' = b) then true else used d b'.
Proof.
  intros H. destruct (covered_at d b H) as (x & Hx & Hl & _). unfold set_used. rewrite Hx. simpl.
  eexists; split; [done|]. intros b' Hb'. rewrite used_poke by done.
  pose proof (Z.mod_pos_bound b 8). pose proof (Z.mod_pos_bound b' 8).
  case_decide as E; [|case_decide; [by subst|done]].
  rewrite testbit_byte, Z.lor_spec, Z.shiftl_1_l, Z.pow2_bits_eqb by lia.
  case_decide as E'.
  - subst. by rewrite Z.eqb_refl, orb_true_r.
  - rewrite (proj2 (Z.eqb_neq _ _)), orb_false_r.
    + unfold used. by rewrite E, Hl.
    + rewrite <- same_bit in E' by done. congruence.
Qed.

Lemma set_free_spec d b : covered d b →
  ∃ y, set_free d b = Some (<[Z.to_nat (b / 8) := y]> d) ∧
    ∀ b', 0 ≤ b' →
      used (<[Z.to_nat (b / 8) := y]> d) b' = if decide (b' = b) then false else used d b'.
Proof.
  intros H. destruct (covered_at d b H) as (x & Hx & Hl & _). unfold set_free. rewrite Hx. simpl.
  eexists; split; [done|]. intros b' Hb'. rewrite used_poke by done.
  pose proof (Z.mod_pos_bound b 8). pose proof (Z.mod_pos_bound b' 8).
  case_decide as E; [|case_decide; [by subst|done]].
  rewrite testbit_byte, Z.land_spec, Z.lxor_spec, Z.shiftl_1_l, Z.pow2_bits_eqb by lia.
  change 255 with (Z.ones 8). rewrite Z.ones_spec_low by lia.
  case_decide as E'.
  - subst. by rewrite Z.eqb_refl, andb_false_r.
  - rewrite (proj2 (Z.eqb_neq _ _)), andb_true_r.
    + unfold used. by rewrite E, Hl.
    + rewrite <- same_bit in E' by done. congruence.
Qed.

(** ** Counting free blocks *)
Fixpoint nfree (d : list byte) (n : nat) (b : Z) : Z :=
  match n with
  | O => 0
  | S n => (if used d b then 0 else 1) + nfree d n (b + 1)
  end.

Lemma nfree_range d n b : 0 ≤ nfree d n b ≤ Z.of_nat n.
Proof. revert b. induction n as [|n IH]; intros b; simpl; [lia|]. specialize (IH (b + 1)). case_match; lia. Qed.

Lemma count_loop_spec d n b acc :
  0 ≤ b → b + Z.of_nat n ≤ 8 * zlen d → count_loop d n b acc = Some (acc + nfree d n b).
Proof.
  revert b acc. induction n as [|n IH]; intros b acc Hb Hn; simpl; [f_equal; lia|].
  rewrite is_free_used by (unfold covered; lia). simpl. rewrite IH by lia.
  f_equal. destruct (used d b); simpl; lia.
Qed.

Lemma nfree_ext d d' n b :
  (∀ x, b ≤ x < b + Z.of_nat n → used d' x = used d x) → nfree d' n b = nfree d n b.
Proof.
  revert b. induction n as [|n IH]; intros b H; simpl; [done|].
  rewrite H, IH; [done| |lia]. intros x Hx. apply H. lia.
Qed.

(** Changing one bit changes the count by one. *)
Lemma nfree_flip d d' n b x v : b ≤ x < b + Z.of_nat n → used d x = negb v →
  (∀ y, b ≤ y → used d' y = if decide (y = x) then v else used d y) →
  nfree d' n b = nfree d n b + (if v then -1 else 1).
Proof.
  revert b. induction n as [|n IH]; intros b Hx Hu H; simpl; [lia|].
  rewrite H by lia. case_decide as E.
  - subst. rewrite Hu. rewrite (nfree_ext d d').
    + destruct v; simpl; lia.
    + intros y Hy. rewrite H by lia. by rewrite decide_False by lia.
  - rewrite IH; [lia|lia|done|]. intros y Hy. apply H. lia.
Qed.

Lemma nfree_pos d n b x : b ≤ x < b + Z.of_nat n → used d x = false → 0 < nfree d n b.
Proof.
  revert b. induction n as [|n IH]; intros b Hx Hu; simpl; [lia|].
  pose proof (nfree_range d n (b + 1)). destruct (decide (x = b)) as [->|].
  - rewrite Hu. lia.
  - specialize (IH (b + 1) ltac:(lia) Hu). case_match; lia.
Qed.

(** ** The invariant *)
Record geometry (s : t) : Prop := {
  g_len : zlen (data s) = div_ceil (total_blocks s) 8;
  g_total : fits 64 (total_blocks s);
  g_start : 0 < data_start s ≤ total_blocks s;
  g_blocks : bitmap_count s = div_ceil (zlen (data s)) BLOCK_SIZE;
  g_dirty : zlen (dirty_blocks s) = bitmap_count s;
  g_area : 0 ≤ bitmap_start s ∧ bitmap_start s + bitmap_count s ≤ data_start s;
}.

Record inv (s : t) : Prop := {
  i_geo : geometry s;
  i_cursor : data_start s ≤ alloc_cursor s ≤ total_blocks s;
  i_count : free_count s = nfree (data s) (Z.to_nat (total_blocks s)) 0;
  i_flag : dirty s = false → Forall (λ x, x = false) (dirty_blocks s);
}.

Definition on_disk (s : t) (b : Z) : Prop := 0 ≤ b < total_blocks s.

Lemma on_disk_covered s b : geometry s → on_disk s b → covered (data s) b.
Proof.
  intros [Hl Ht _ _ _ _] [H0 H1]. unfold covered. rewrite Hl. unfold div_ceil.
  pose proof (Z.div_mod (total_blocks s + 8 - 1) 8 ltac:(lia)).
  pose proof (Z.mod_pos_bound (total_blocks s + 8 - 1) 8 ltac:(lia)). lia.
Qed.

(** Bitmap block [i] covers [chunk_len] bytes of [data]; [v] holds them. *)
Definition chunk_len (d : list byte) (i : Z) : Z := Z.min BLOCK_SIZE (zlen d - i * BLOCK_SIZE).
Definition stored (d : list byte) (i : Z) (v : block) : Prop :=
  raw_sub v 0 (chunk_len d i) = raw_sub d (i * BLOCK_SIZE) (chunk_len d i).

(** [tracked f s]: every bitmap block not marked dirty is on disk as it is in
    memory, [f] being what the store holds. *)
Definition tracked (f : Z → block) (s : t) : Prop :=
  ∀ i : nat, dirty_blocks s !! i = Some false →
    stored (data s) (Z.of_nat i) (f (bitmap_start s + Z.of_nat i)).

(** What no operation in memory changes. *)
Record evolves (s s' : t) : Prop := {
  e_start : bitmap_start s' = bitmap_start s;
  e_bcount : bitmap_count s' = bitmap_count s;
  e_data : data_start s' = data_start s;
  e_total : total_blocks s' = total_blocks s;
  e_len : zlen (data s') = zlen (data s);
  e_dlen : zlen (dirty_blocks s') = zlen (dirty_blocks s);
  e_tracked f : geometry s → tracked f s → tracked f s';
}.

#[global] Instance evolves_refl : Reflexive evolves.
Proof. intros s. by split. Qed.

Lemma evolves_geometry s s' : evolves s s' → geometry s → geometry s'.
Proof. intros [] []. split; congruence. Qed.

#[global] Instance evolves_trans : Transitive evolves.
Proof.
  intros s1 s2 s3 E1 E2. pose proof (evolves_geometry _ _ E1). destruct E1, E2.
  split; try congruence. auto.
Qed.

(** One bit of block [b] rewritten and its bitmap block marked. *)
Definition poke (b : Z) (y : byte) (s : t) : t :=
  mark_block_dirty b (set_data (<[Z.to_nat (b / 8) := y]> (data s)) s).

Lemma stored_insert d (k : nat) y (i : Z) v : 0 ≤ i → Z.of_nat k / BLOCK_SIZE ≠ i →
  stored (<[k := y]> d) i v ↔ stored d i v.
Proof.
  intros Hi Hk. unfold stored, chunk_len, zlen. rewrite length_insert.
  match goal with |- _ = ?l ↔ _ = ?r => enough (l = r) as -> by done end.
  unfold raw_sub. apply list_eq. intros j.
  destruct (decide (j < Z.to_nat (Z.min BLOCK_SIZE (Z.of_nat (length d) - i * BLOCK_SIZE))))%nat.
  - rewrite !lookup_take_lt, !lookup_drop by done. apply list_lookup_insert_ne.
    intros ->. apply Hk. rewrite Nat2Z.inj_add, Z2Nat.id by (unfold BLOCK_SIZE; lia).
    rewrite Z.div_add_l by done. rewrite Z.div_small; lia.
  - by rewrite !lookup_take_ge by lia.
Qed.

Lemma poke_evolves b y s : covered (data s) b → evolves s (poke b y s).
Proof.
  intros Hb. destruct (covered_at _ b Hb) as (_ & _ & _ & Hr). unfold poke, mark_block_dirty. simpl.
  assert (0 ≤ b / 8 / BLOCK_SIZE) by (apply Z.div_pos; [lia|done]).
  destruct (Z.ltb_spec (b / 8 / BLOCK_SIZE) (zlen (dirty_blocks s))) as [Hlt|Hge]; split; simpl;
    try done; try by (unfold zlen; rewrite length_insert).
  - intros f _ Ht i Hi. simpl in *. apply stored_insert; [lia| |].
    + rewrite Z2Nat.id by lia. intros E.
      rewrite list_lookup_insert in Hi. case_decide as E'; [|unfold zlen in *; lia].
      done.
    + apply Ht. destruct (decide (i = Z.to_nat (b / 8 / BLOCK_SIZE))) as [->|].
      * rewrite list_lookup_insert_eq in Hi by (unfold zlen in *; lia). done.
      * by rewrite list_lookup_insert_ne in Hi by done.
  - intros f G Ht i Hi. simpl in *. exfalso. revert Hge. rewrite (g_dirty _ G), (g_blocks _ G).
    unfold div_ceil.
    assert (b / 8 / BLOCK_SIZE ≤ (zlen (data s) - 1) / BLOCK_SIZE) by (apply Z.div_le_mono; unfold BLOCK_SIZE; lia).
    replace (zlen (data s) + BLOCK_SIZE - 1) with (zlen (data s) - 1 + 1 * BLOCK_SIZE) by lia.
    rewrite Z.div_add by done. lia.
Qed.

Lemma poke_fields b y s :
  data (poke b y s) = <[Z.to_nat (b / 8) := y]> (data s) ∧
  free_count (poke b y s) = free_count s ∧ trim_pending (poke b y s) = trim_pending s ∧
  alloc_cursor (poke b y s) = alloc_cursor s.
Proof. unfold poke, mark_block_dirty. simpl. by case_match. Qed.

(** ** Searching *)
Definition run_free (d : list byte) (r count : Z) : Prop :=
  ∀ x, r ≤ x < r + count → used d x = false.

Lemma scan_spec d count n b rs rl :
  0 ≤ b → b + Z.of_nat n ≤ 8 * zlen d → 0 ≤ rl < count →
  (0 < rl → rs + rl = b ∧ run_free d rs rl) →
  ∃ r, scan d count n b rs rl = Some r ∧
    match r with
    | Some r => b - rl ≤ r ∧ r + count ≤ b + Z.of_nat n ∧ run_free d r count
    | None => ∀ r, b - rl ≤ r → r + count ≤ b + Z.of_nat n → ¬ run_free d r count
    end.
Proof.
  revert b rs rl. induction n as [|n IH]; intros b rs rl Hb Hn Hrl Hrun; cbn [scan].
  { exists None. split; [done|]. intros. lia. }
  rewrite is_free_used by (unfold covered; lia). cbn [mbind option_bind].
  destruct (used d b) eqn:Hu; simpl.
  - destruct (IH (b + 1) rs 0) as (r & -> & Hr); try lia. exists r. split; [done|].
    destruct r as [r|]; [destruct Hr as (?&?&?); split_and!; try lia; done|].
    intros r ?? Hf. destruct (decide (r ≤ b)).
    + specialize (Hf b ltac:(lia)). congruence.
    + by apply (Hr r); [lia..|].
  - set (rs' := if rl =? 0 then b else rs).
    assert (rs' + (rl + 1) = b + 1 ∧ run_free d rs' (rl + 1)) as [Hrs Hf].
    { unfold rs'. destruct (Z.eqb_spec rl 0) as [->|].
      - split; [lia|]. intros x Hx. by replace x with b by lia.
      - destruct Hrun as [? Hf]; [lia|]. split; [lia|]. intros x Hx.
        destruct (decide (x = b)) as [->|]; [done|]. apply Hf. lia. }
    destruct (Z.eqb_spec (rl + 1) count) as [<-|].
    + exists (Some rs'). split; [done|]. split_and!; try lia; done.
    + destruct (IH (b + 1) rs' (rl + 1)) as (r & -> & Hr); try lia; [done|].
      exists r. split; [done|]. destruct r as [r|].
      * destruct Hr as (?&?&?). split_and!; try lia; done.
      * intros r ??. apply Hr; lia.
Qed.

(** [remarked v s s' b n]: the bits of [[b, b + n)] are [v], the others as before. *)
Definition remarked (v : bool) (s s' : t) (b n : Z) : Prop :=
  ∀ x, 0 ≤ x → used (data s') x = if decide (b ≤ x < b + n) then v else used (data s) x.

Definition scalars (s s' : t) : Prop :=
  trim_pending s' = trim_pending s ∧ alloc_cursor s' = alloc_cursor s.

Lemma remarked_cons v s s1 s2 b n : 0 ≤ b → 0 ≤ n →
  remarked v s s1 b 1 → remarked v s1 s2 (b + 1) n → remarked v s s2 b (n + 1).
Proof.
  intros ?? H1 H2 x Hx. rewrite H2, H1 by done. repeat case_decide; try lia; done.
Qed.

Lemma take_run_spec n b s :
  geometry s → 0 ≤ b → b + Z.of_nat n ≤ total_blocks s →
  ∃ s', take_run n b s = Some s' ∧ evolves s s' ∧ scalars s s' ∧ free_count s' = free_count s ∧
    remarked true s s' b (Z.of_nat n) ∧
    (run_free (data s) b (Z.of_nat n) →
     nfree (data s') (Z.to_nat (total_blocks s)) 0 =
     nfree (data s) (Z.to_nat (total_blocks s)) 0 - Z.of_nat n).
Proof.
  revert b s. induction n as [|n IH]; intros b s G Hb Hn.
  { exists s. split_and!; try done; [|lia]. intros x ?. by rewrite decide_False by lia. }
  cbn [take_run].
  assert (covered (data s) b) as Hc by (apply on_disk_covered; [done|unfold on_disk; lia]).
  destruct (set_used_spec _ b Hc) as (y & -> & Hu). cbn [mbind option_bind].
  fold (poke b y s). pose proof (poke_evolves b y s Hc) as Hev.
  destruct (poke_fields b y s) as (Hd & Hf & Ht & Ha).
  destruct (IH (b + 1) (poke b y s)) as (s' & -> & Hev' & [Ht' Ha'] & Hf' & Hm & Hn').
  { by eapply evolves_geometry. } { lia. } { rewrite (e_total _ _ Hev). lia. }
  rewrite (e_total _ _ Hev), Hd in Hn'.
  assert (remarked true s (poke b y s) b 1) as H1.
  { intros x Hx. rewrite Hd, Hu by done. repeat case_decide; try lia; done. }
  exists s'. split_and!; [done|by etrans|split; congruence|congruence| |].
  - replace (Z.of_nat (S n)) with (Z.of_nat n + 1) by lia. eapply remarked_cons; eauto; lia.
  - intros Hfree. rewrite Hn'.
    + rewrite (nfree_flip (data s) _ _ 0 b true); [lia|lia| |done].
      by rewrite Hfree by lia.
    + intros x Hx. rewrite Hu, decide_False by lia. apply Hfree. lia.
Qed.

(** A run was found and taken, or there was none and nothing changed. *)
Definition took (s s' : t) (r count : Z) : Prop :=
  evolves s s' ∧ inv s' ∧ trim_pending s' = trim_pending s ∧
  run_free (data s) r count ∧ remarked true s s' r count ∧
  free_count s' = free_count s - count.

Lemma find_run_spec from to count s :
  inv s → data_start s ≤ from → to ≤ total_blocks s → 0 < count →
  ∃ r s', find_run from to count s = Some (r, s') ∧
    match r with
    | Some r => from ≤ r ∧ r + count ≤ to ∧ took s s' r count
    | None => s' = s ∧ ∀ r, from ≤ r → r + count ≤ to → ¬ run_free (data s) r count
    end.
Proof.
  intros I Hfrom Hto Hc. pose proof (i_geo _ I) as G. pose proof (g_start _ G).
  pose proof (g_total _ G) as [_ Htot]. unfold find_run.
  destruct (decide (to ≤ from)).
  { replace (Z.to_nat (to - from)) with 0%nat by lia. simpl. exists None, s. split_and!; try done.
    intros. lia. }
  destruct (scan_spec (data s) count (Z.to_nat (to - from)) from from 0) as (r & -> & Hr); try lia.
  { pose proof (on_disk_covered s (to - 1) G) as Hcov. unfold covered, on_disk in Hcov. lia. }
  rewrite Z2Nat.id in Hr by lia. cbn [mbind option_bind]. destruct r as [r|].
  2:{ exists None, s. split_and!; try done. intros r ??. apply Hr; lia. }
  destruct Hr as (Hr1 & Hr2 & Hfree).
  destruct (take_run_spec (Z.to_nat count) r s) as (s' & -> & Hev & [Ht Ha] & Hf & Hm & Hn); try done; try lia.
  rewrite Z2Nat.id in Hm, Hn by lia. specialize (Hn Hfree).
  pose proof (nfree_range (data s) (Z.to_nat (total_blocks s)) 0) as Hnr.
  pose proof (nfree_range (data s') (Z.to_nat (total_blocks s)) 0) as Hnr'.
  assert (u64 (free_count s' - count) = free_count s - count) as Hw.
  { rewrite Hf, (i_count _ I). apply wrap_small. unfold fits. lia. }
  assert (u64 (r + count) = r + count) as Hw2 by (apply wrap_small; unfold fits; lia).
  cbn [mbind option_bind]. rewrite Hw, Hw2. eexists (Some r), _. split; [done|].
  split_and!; [lia|lia|]. 
  assert (∀ k, data_start s ≤ k ≤ total_blocks s →
    took s (set_cursor k (set_dirty true (set_free_count (free_count s - count) s'))) r count) as Htook.
  { intros k Hk. destruct Hev as [E1 E2 E3 E4 E5 E6 E7]. split_and!; try done.
    split; simpl; try done.
    - destruct G. split; simpl; congruence.
    - lia.
    - rewrite E4, Hn, (i_count _ I). done. }
  simpl. destruct (Z.leb_spec (total_blocks s') (r + count)).
  - pose proof (Htook (data_start s') ltac:(rewrite (e_data _ _ Hev); lia)) as Hk. exact Hk.
  - apply Htook. lia.
Qed.

Lemma nfree_run d n b r count :
  b ≤ r → r + count ≤ b + Z.of_nat n → 0 ≤ count → run_free d r count → count ≤ nfree d n b.
Proof.
  revert b r count. induction n as [|n IH]; intros b r count Hb Hr Hc Hf; simpl; [lia|].
  destruct (decide (count = 0)); [pose proof (nfree_range d n (b + 1)); case_match; lia|].
  destruct (decide (r = b)) as [->|].
  - rewrite Hf by lia. specialize (IH (b + 1) (b + 1) (count - 1)).
    assert (count - 1 ≤ nfree d n (b + 1)); [apply IH; try lia|lia].
    intros x Hx. apply Hf. lia.
  - assert (count ≤ nfree d n (b + 1)) by (apply (IH (b + 1) r); try lia; done).
    case_match; lia.
Qed.

(** ** Allocation *)
Definition no_run (s : t) (lo hi count : Z) : Prop :=
  ∀ r, lo ≤ r → r + count ≤ hi → ¬ run_free (data s) r count.

Lemma alloc_spec count s : inv s → 0 ≤ count →
  wp (alloc count) (λ r s',
    match r with
    | Ok b => 0 < count ∧ data_start s ≤ b ∧ b + count ≤ total_blocks s ∧ took s s' b count
    | Err e => e = DiskFull ∧ s' = s ∧
        (0 < count → no_run s (alloc_cursor s) (total_blocks s) count ∧
                     no_run s (data_start s) (alloc_cursor s) count)
    | Panic => False
    end) s.
Proof.
  intros I Hc. pose proof (i_cursor _ I). pose proof (g_start _ (i_geo _ I)).
  unfold wp, alloc. destruct (Z.eqb_spec count 0) as [->|]; simpl; [done|].
  destruct (Z.ltb_spec (free_count s) count) as [Hlt|Hge]; simpl.
  { split_and!; try done. intros _. rewrite (i_count _ I) in Hlt.
    split; intros r ?? Hf; enough (count ≤ nfree (data s) (Z.to_nat (total_blocks s)) 0) by lia;
      apply (nfree_run _ _ _ r); try lia; done. }
  destruct (find_run_spec (alloc_cursor s) (total_blocks s) count s) as (r & s1 & -> & Hn); try lia; [done|].
  destruct r as [r|]; [destruct Hn as (? & ? & ?); split_and!; try lia; done|].
  destruct Hn as [-> Hn].
  destruct (Z.ltb_spec (data_start s) (alloc_cursor s)).
  2:{ split_and!; try done. intros _. split; [done|]. intros r ??. lia. }
  destruct (find_run_spec (data_start s) (alloc_cursor s) count s) as (r & s2 & -> & Hw); try lia; [done|].
  destruct r as [r|]; [destruct Hw as (? & ? & ?); split_and!; try lia; done|].
  destruct Hw as [-> Hw]. split_and!; try done.
Qed.

(** One block: it can be had exactly when the data area has a free one. *)
Lemma alloc_one s : inv s →
  wp (alloc 1) (λ r s',
    match r with
    | Ok b => data_start s ≤ b < total_blocks s ∧ used (data s) b = false ∧ took s s' b 1
    | Err e => e = DiskFull ∧ s' = s ∧ ∀ x, data_start s ≤ x < total_blocks s → used (data s) x = true
    | Panic => False
    end) s.
Proof.
  intros I. eapply wp_mono; [by apply alloc_spec|]. intros [b|e|] s'; simpl; [| |done].
  - intros (_ & ? & ? & Ht). split_and!; try lia; [|done]. destruct Ht as (_ & _ & _ & Hf & _).
    apply Hf. lia.
  - intros (-> & -> & H). split_and!; try done. intros x Hx. destruct (H ltac:(lia)) as [H1 H2].
    destruct (used (data s) x) eqn:E; [done|]. exfalso.
    assert (run_free (data s) x 1) as Hf by (intros y Hy; by replace y with x by lia).
    destruct (decide (alloc_cursor s ≤ x)); [eapply H1|eapply H2]; eauto; lia.
Qed.

(** ** Freeing *)
Lemma free_run_spec n b s :
  geometry s → free_count s = nfree (data s) (Z.to_nat (total_blocks s)) 0 →
  0 ≤ b → b + Z.of_nat n ≤ total_blocks s →
  ∃ s', free_run n b s = Some s' ∧ evolves s s' ∧ scalars s s' ∧ (dirty s' = dirty s) ∧
    remarked false s s' b (Z.of_nat n) ∧
    free_count s' = nfree (data s') (Z.to_nat (total_blocks s)) 0.
Proof.
  revert b s. induction n as [|n IH]; intros b s G Hfc Hb Hn.
  { exists s. split_and!; try done. intros x ?. by rewrite decide_False by lia. }
  cbn [free_run]. rewrite (proj2 (Z.ltb_lt _ _)) by lia.
  assert (covered (data s) b) as Hc by (apply on_disk_covered; [done|unfold on_disk; lia]).
  rewrite is_free_used by done. cbn [mbind option_bind].
  destruct (used (data s) b) eqn:Hu; simpl negb; cbn iota.
  2:{ destruct (IH (b + 1) s) as (s' & -> & Hev & Hs & Hd & Hm & Hf); try done; try lia.
      exists s'. split_and!; try done. replace (Z.of_nat (S n)) with (Z.of_nat n + 1) by lia.
      eapply remarked_cons; eauto; try lia. intros x Hx. case_decide; [|done].
      by replace x with b by lia. }
  destruct (set_free_spec _ b Hc) as (y & -> & Hy). cbn [mbind option_bind].
  fold (poke b y s). pose proof (poke_evolves b y s Hc) as Hev.
  destruct (poke_fields b y s) as (Hd & Hf & Ht & Ha).
  pose proof (g_total _ G) as [_ Htot].
  assert (nfree (data (poke b y s)) (Z.to_nat (total_blocks s)) 0 = free_count s + 1) as Hn1.
  { rewrite Hd, Hfc. apply (nfree_flip (data s) _ _ 0 b false); [lia|done|done]. }
  pose proof (nfree_range (data (poke b y s)) (Z.to_nat (total_blocks s)) 0).
  pose proof (nfree_range (data s) (Z.to_nat (total_blocks s)) 0).
  set (s1 := set_free_count (u64 (free_count (poke b y s) + 1)) (poke b y s)).
  assert (u64 (free_count (poke b y s) + 1) = free_count s + 1) as Hw.
  { rewrite Hf. apply wrap_small. unfold fits. lia. }
  assert (evolves s s1) as Hev1 by (destruct Hev; by split).
  destruct (IH (b + 1) s1) as (s' & -> & Hev' & [Ht' Ha'] & Hdd & Hm & Hn'); try lia.
  { by eapply evolves_geometry. }
  { simpl. rewrite Hw, (e_total _ _ Hev). by rewrite Hn1. }
  { simpl. rewrite (e_total _ _ Hev). lia. }
  rewrite (e_total _ _ Hev1) in Hn'.
  exists s'. split_and!; try done; [by etrans|split; [rewrite Ht'|rewrite Ha']; done| |].
  - rewrite Hdd. unfold s1, poke, mark_block_dirty. simpl. by case_match.
  - replace (Z.of_nat (S n)) with (Z.of_nat n + 1) by lia. eapply remarked_cons; eauto; try lia.
    intros x Hx. simpl. rewrite Hd, Hy by done. repeat case_decide; try lia; done.
Qed.

Lemma in_data_spec s start count : geometry s → 0 ≤ count →
  in_data s start count = true ↔ data_start s ≤ start ∧ start + count ≤ total_blocks s.
Proof.
  intros G Hc. destruct (g_total _ G). unfold in_data. rewrite !andb_true_iff, Z.ltb_lt, !Z.leb_le. lia.
Qed.

Lemma free_spec start count s : inv s → 0 ≤ count →
  ∃ s', free start count s = Some s' ∧ evolves s s' ∧ inv s' ∧
    if in_data s start count
    then remarked false s s' start count ∧
         trim_pending s' = trim_pending s ++ (if 0 <? count then [(start, count)] else [])
    else s' = s.
Proof.
  intros I Hc. pose proof (i_geo _ I) as G. unfold free.
  destruct (in_data s start count) eqn:E; simpl; [|by exists s].
  apply in_data_spec in E; [|done..]. pose proof (g_start _ G).
  destruct (decide (count = 0)) as [->|].
  { simpl. exists s. split_and!; try done; [|by rewrite app_nil_r].
    intros x Hx. by rewrite decide_False by lia. }
  destruct (free_run_spec (Z.to_nat count) start s) as (s' & -> & Hev & [Ht Ha] & Hd & Hm & Hf); try done; try lia.
  { apply I. }
  rewrite Z2Nat.id in Hm by lia. cbn [mbind option_bind]. eexists. split; [done|].
  rewrite <- (e_total _ _ Hev) in Hf. rewrite (proj2 (Z.ltb_lt _ _)) by lia.
  split_and!; simpl; [by destruct Hev; split| |done|by rewrite Ht].
  split; simpl; [|rewrite (e_data _ _ Hev), (e_total _ _ Hev), Ha; apply I|done|done].
  pose proof (evolves_geometry _ _ Hev G) as []. by split.
Qed.

(** ** The on-disk copy *)
Lemma chunk_count (d : list byte) i : 0 ≤ i < div_ceil (zlen d) BLOCK_SIZE → i * BLOCK_SIZE < zlen d.
Proof.
  unfold div_ceil. intros [_ H]. pose proof (Z.div_mod (zlen d + BLOCK_SIZE - 1) BLOCK_SIZE ltac:(done)).
  pose proof (Z.mod_pos_bound (zlen d + BLOCK_SIZE - 1) BLOCK_SIZE ltac:(done)).
  unfold BLOCK_SIZE in *. nia.
Qed.

Lemma chunk_len_wrap d i : zlen d < 2 ^ 64 → 0 ≤ i < div_ceil (zlen d) BLOCK_SIZE →
  Z.min BLOCK_SIZE (u64 (zlen d - i * BLOCK_SIZE)) = chunk_len d i ∧
  0 < chunk_len d i ≤ BLOCK_SIZE ∧ i * BLOCK_SIZE + chunk_len d i ≤ zlen d.
Proof.
  intros Hd Hi. pose proof (chunk_count d i Hi). unfold chunk_len.
  assert (0 ≤ i * BLOCK_SIZE) by (unfold BLOCK_SIZE; lia).
  rewrite wrap_small by (unfold fits; lia). unfold BLOCK_SIZE in *. lia.
Qed.

Lemma chunk_of_Some d i : zlen d < 2 ^ 64 → 0 ≤ i < div_ceil (zlen d) BLOCK_SIZE →
  let s := raw_sub d (i * BLOCK_SIZE) (chunk_len d i) in
  chunk_of d i = Some (raw_splice zero_block 0 s) ∧ zlen s = chunk_len d i.
Proof.
  intros Hd Hi. destruct (chunk_len_wrap d i Hd Hi) as (E & Hl & Hle). intros s.
  assert (0 ≤ i * BLOCK_SIZE) by (unfold BLOCK_SIZE; lia).
  assert (zlen s = chunk_len d i) as Hs by (apply zlen_raw_sub; lia).
  unfold chunk_of. rewrite E, sub_Some by lia. split; [|done]. simpl. apply splice_Some; [lia|].
  fold s. rewrite Hs, zero_block_is_block. lia.
Qed.

Lemma chunk_of_stored d i buf : zlen d < 2 ^ 64 → 0 ≤ i < div_ceil (zlen d) BLOCK_SIZE →
  chunk_of d i = Some buf → stored d i buf.
Proof.
  intros Hd Hi Hc. destruct (chunk_of_Some d i Hd Hi) as [Hc' Hl]. rewrite Hc in Hc'.
  injection Hc' as ->. unfold stored. destruct (chunk_len_wrap d i Hd Hi) as (_ & ? & _).
  pose proof zero_block_is_block as Hz. unfold is_block in Hz.
  set (sl := raw_sub d _ _) in *. rewrite <- Hl. apply sub_splice_same; lia.
Qed.

(** The blocks determine the bitmap. *)
Lemma stored_inj d e (f : Z → block) :
  zlen d = zlen e →
  (∀ i, 0 ≤ i < div_ceil (zlen d) BLOCK_SIZE → stored d i (f i) ∧ stored e i (f i)) → d = e.
Proof.
  intros Hl H. apply list_eq. intros k. destruct (decide (k < length d)%nat) as [Hk|].
  2:{ rewrite !lookup_ge_None_2; unfold zlen in *; [done|lia..]. }
  set (i := Z.of_nat k / BLOCK_SIZE).
  pose proof (Z.div_mod (Z.of_nat k) BLOCK_SIZE ltac:(done)) as Hdm. fold i in Hdm.
  pose proof (Z.mod_pos_bound (Z.of_nat k) BLOCK_SIZE ltac:(done)) as Hmb.
  set (j := Z.of_nat k `mod` BLOCK_SIZE) in *.
  assert (0 ≤ i) by (apply Z.div_pos; [lia|done]).
  assert (i < div_ceil (zlen d) BLOCK_SIZE) as Hi.
  { unfold div_ceil. replace (zlen d + BLOCK_SIZE - 1) with (zlen d - 1 + 1 * BLOCK_SIZE) by lia.
    rewrite Z.div_add by done. enough (i ≤ (zlen d - 1) / BLOCK_SIZE) by lia.
    apply Z.div_le_mono; unfold zlen; [done|lia]. }
  destruct (H i ltac:(lia)) as [H1 H2]. unfold stored in H1, H2.
  assert (chunk_len e i = chunk_len d i) as E by (unfold chunk_len; by rewrite Hl).
  rewrite E, H1 in H2. apply (f_equal (λ l, l !! Z.to_nat j)) in H2.
  rewrite !lookup_raw_sub in H2 by (unfold BLOCK_SIZE; lia).
  assert (j < chunk_len d i) by (unfold chunk_len, zlen; unfold BLOCK_SIZE in *; lia).
  rewrite !decide_True in H2 by lia.
  by replace (Z.to_nat (i * BLOCK_SIZE) + Z.to_nat j)%nat with k in H2 by (unfold BLOCK_SIZE in *; lia).
Qed.

Lemma data_fits s : geometry s → zlen (data s) < 2 ^ 64.
Proof.
  intros G. rewrite (g_len _ G). destruct (g_total _ G). unfold div_ceil.
  apply Z.div_lt_upper_bound; lia.
Qed.

Section store.
Context {C : Type} `{!BlockStore C} {check : block → bool} `{!BlockStoreOk C check}.

(** The blocks of the bitmap area. *)
Definition in_area (s : t) (b : Z) : Prop :=
  bitmap_start s ≤ b < bitmap_start s + bitmap_count s.

Record sync_post (i : Z) (n : nat) (c : C) (s : t) (r : res FsError unit) (c' : C) (s' : t)
  : Prop := {
  sp_inv : store_inv c';
  sp_healthy : healthy c → healthy c';
  sp_state : ∃ db : list bool, s' = set_dirty_blocks db s ∧ zlen db = zlen (dirty_blocks s);
  sp_tracked : tracked (view c') s';
  sp_frame b : ¬ in_area s b → view c' b = view c b;
  sp_clean (j : nat) : dirty_blocks s !! j = Some false → dirty_blocks s' !! j = Some false;
  sp_ends : ends (healthy c) r
    (λ _, ∀ j : nat, i ≤ Z.of_nat j < i + Z.of_nat n → dirty_blocks s' !! j = Some false) True;
}.

Lemma tracked_same f g s : same f g → tracked f s → tracked g s.
Proof. intros H Ht j Hj. rewrite H. by apply Ht. Qed.

(** Writing chunk [i] and clearing its mark keeps the copy tracked. *)
Lemma tracked_write f g s i buf :
  0 ≤ i → tracked f s → stored (data s) i buf → updated f (bitmap_start s + i) buf g →
  tracked g (set_dirty_blocks (<[Z.to_nat i := false]> (dirty_blocks s)) s).
Proof.
  intros Hi Ht Hb [Hu Ho] j Hj. simpl in *.
  destruct (decide (j = Z.to_nat i)) as [->|].
  - by rewrite Z2Nat.id, Hu by lia.
  - rewrite list_lookup_insert_ne in Hj by done. rewrite Ho by lia. by apply Ht.
Qed.

Lemma chunk_block s i : geometry s → 0 ≤ i < bitmap_count s →
  ∃ buf, chunk_of (data s) i = Some buf ∧ is_block buf ∧ stored (data s) i buf.
Proof.
  intros G Hi. rewrite (g_blocks _ G) in Hi. pose proof (data_fits s G) as Hd.
  destruct (chunk_of_Some _ i Hd Hi) as [E Hs]. eexists; split_and!; [done| |by apply chunk_of_stored].
  destruct (chunk_len_wrap _ i Hd Hi) as (_ & ? & _). pose proof zero_block_is_block as Hz.
  unfold is_block in *. rewrite zlen_raw_splice; [done|lia|]. rewrite Hs, Hz. lia.
Qed.

Lemma sync_loop_spec n i c s :
  store_inv c → geometry s → tracked (view c) s → 0 ≤ i → i + Z.of_nat n = bitmap_count s →
  wp (sync_loop n i) (λ r '(c', s'), sync_post i n c s r c' s') (c, s).
Proof.
  revert i c s. induction n as [|n IH]; intros i c s Hi G Ht H0 Hn.
  { split; try done; [|intros j Hj; lia]. exists (dirty_blocks s). by destruct s. }
  cbn [sync_loop]. apply wp_bind. unfold get, wp at 1. 
  assert (i < zlen (dirty_blocks s)) as Hlt by (rewrite (g_dirty _ G); lia).
  rewrite (proj2 (Z.ltb_lt _ _)) by done. rewrite andb_true_l.
  destruct (at_Some (dirty_blocks s) i) as [x Hx]; [lia|]. rewrite Hx. cbn [default].
  unfold at_ in Hx. rewrite (proj2 (Z.leb_le _ _)) in Hx by done.
  destruct x; cbn [negb].
  - destruct (chunk_block s i G) as (buf & Hbuf & Hblk & Hst); [lia|]. rewrite Hbuf.
    pose proof (g_area _ G). destruct (g_total _ G), (g_start _ G).
    rewrite wrap_small by (unfold fits; lia).
    apply wp_bind, wp_ret, wp_bind, wp_on_fst. eapply wp_mono; [by apply write_spec|].
    intros [[]|e|] c1; simpl; intros (Hi1 & Hh & He); [| |done].
    2:{ destruct He as [Hsame Hnh]. split; try done.
        - exists (dirty_blocks s). by destruct s.
        - by eapply tracked_same. }
    apply wp_bind. unfold get, wp at 1. apply wp_bind. unfold put, wp at 1.
    rewrite (proj2 (Z.ltb_lt _ _)) by done.
    set (s1 := set_dirty_blocks (<[Z.to_nat i := false]> (dirty_blocks s)) s).
    assert (tracked (view c1) s1) as Ht1 by (by eapply tracked_write).
    assert (zlen (dirty_blocks s1) = zlen (dirty_blocks s)) as Hz by (unfold zlen; simpl; by rewrite length_insert).
    eapply wp_mono; [apply (IH (i + 1) c1 s1); try done; try lia|].
    { destruct G as [? ? ? ? Gd ?]. split; try done. exact (eq_trans Hz Gd). }
    { simpl. lia. }
    intros r [c' s'] [P1 P2 (db & P3 & P3') P4 P5 P6 P7].
    assert (dirty_blocks s1 !! Z.to_nat i = Some false) as Hnew.
    { simpl. apply list_lookup_insert_eq. unfold zlen in *. lia. }
    split; auto.
    + exists db. split; [by rewrite P3|congruence].
    + intros b Hb. rewrite P5 by done. destruct He as [_ ->]; [done|].
      intros ->. apply Hb. unfold in_area. lia.
    + intros j Hj. apply P6. simpl. destruct (decide (j = Z.to_nat i)) as [->|]; [done|].
      by rewrite list_lookup_insert_ne.
    + destruct r as [[]|e|]; simpl in *; [|naive_solver|done].
      intros j Hj. destruct (decide (Z.of_nat j = i)) as [E|].
      * apply P6. by replace j with (Z.to_nat i) by lia.
      * apply P7. lia.
  - eapply wp_mono; [apply (IH (i + 1) c s); try done; lia|].
    intros r [c' s'] [P1 P2 P3 P4 P5 P6 P7]. split; auto.
    destruct r as [[]|e|]; simpl in *; [|done|done].
    intros j Hj. destruct (decide (Z.of_nat j = i)) as [<-|]; [|apply P7; lia].
    apply P6. by rewrite Nat2Z.id in Hx.
Qed.

Lemma sync_spec c s : store_inv c → inv s → tracked (view c) s →
  wp sync (λ r '(c', s'),
    store_inv c' ∧ (healthy c → healthy c') ∧ inv s' ∧ tracked (view c') s' ∧
    (∃ db : list bool, s' = set_dirty_blocks db s) ∧
    (∀ b, ¬ in_area s b → view c' b = view c b) ∧
    ends (healthy c) r (λ _, ∀ i, 0 ≤ i < bitmap_count s →
      stored (data s) i (view c' (bitmap_start s + i))) True) (c, s).
Proof.
  intros Hi I Ht. pose proof (i_geo _ I) as G. unfold sync. apply wp_bind. unfold get, wp at 1.
  destruct (dirty s) eqn:Hd.
  - assert (0 ≤ bitmap_count s) by (rewrite <- (g_dirty _ G); apply zlen_nonneg).
    eapply wp_mono; [apply (sync_loop_spec _ 0 c s); try done; lia|].
    intros r [c' s'] [P1 P2 (db & -> & P3) P4 P5 P6 P7]. split_and!; try done; [|by eexists|].
    + destruct I as [[] ? ? ?]. split; simpl in *; try done; [|congruence]. split; simpl; congruence.
    + destruct r as [[]|e|]; simpl in *; try done. intros i Hi'.
      assert (db !! Z.to_nat i = Some false) as Hc by (apply P7; lia).
      pose proof (P4 (Z.to_nat i) Hc) as Hp. simpl in Hp. by rewrite Z2Nat.id in Hp by lia.
  - apply wp_ret. split_and!; try done.
    + exists (dirty_blocks s). by destruct s.
    + intros i Hi'. pose proof (i_flag _ I Hd) as Hf.
      destruct (lookup_lt_is_Some_2 (dirty_blocks s) (Z.to_nat i)) as [x Hx].
      { pose proof (g_dirty _ G). unfold zlen in *. lia. }
      pose proof (Forall_lookup_1 _ _ _ _ Hf Hx) as ->.
      pose proof (Ht _ Hx) as Hp. by rewrite Z2Nat.id in Hp by lia.
Qed.

(** ** Loading *)
Lemma load_loop_spec start c0 L n i e c :
  0 ≤ L < 2 ^ 64 → 0 ≤ start → start + div_ceil L BLOCK_SIZE < 2 ^ 64 →
  store_inv c → same (view c0) (view c) →
  0 ≤ i → i + Z.of_nat n = div_ceil L BLOCK_SIZE → zlen e = L →
  (∀ j, 0 ≤ j < i → stored e j (view c0 (start + j))) →
  wp (load_loop start n i e)
     (λ r c', store_inv c' ∧ same (view c0) (view c') ∧ (healthy c → healthy c') ∧
        ends (healthy c) r
          (λ e', zlen e' = L ∧ ∀ j, 0 ≤ j < div_ceil L BLOCK_SIZE →
                 stored e' j (view c0 (start + j))) True) c.
Proof.
  intros HL Hs0 Hs1. revert i e c. induction n as [|n IH]; intros i e c Hi Hv H0 Hn He Hst.
  { apply wp_ret. split_and!; try done. simpl. split; [done|]. intros j Hj. apply Hst. lia. }
  cbn [load_loop]. rewrite (wrap_small 64 (start + i)) by (unfold fits; lia).
  apply wp_bind. eapply wp_mono; [by apply read_spec|].
  intros [buf|err|] c1; simpl; intros (Hi1 & Hv1 & Hh & He1);
    [|destruct He1; split_and!; [done|by etrans|done..]|done].
  subst buf. destruct (chunk_len_wrap e i ltac:(lia) ltac:(rewrite He; lia)) as (-> & Hr & Hle).
  pose proof (view_block c (start + i) Hi) as Hb. unfold is_block in Hb. rewrite Hv in *.
  assert (0 ≤ i * BLOCK_SIZE) by (unfold BLOCK_SIZE; lia).
  apply wp_bind. eapply wp_of_opt; [apply sub_Some; lia|].
  set (v := view c0 (start + i)) in *. set (sl := raw_sub v 0 (chunk_len e i)).
  assert (zlen sl = chunk_len e i) as Hsl by (apply zlen_raw_sub; lia).
  apply wp_bind. eapply wp_of_opt; [apply splice_Some; lia|].
  assert (zlen (raw_splice e (i * BLOCK_SIZE) sl) = zlen e) as Hz by (apply zlen_raw_splice; lia).
  eapply wp_mono; [apply (IH (i + 1)); try done; try lia|].
  - by etrans.
  - intros j Hj. unfold stored, chunk_len. rewrite Hz. fold (chunk_len e j).
    destruct (decide (j = i)) as [->|].
    + rewrite <- Hsl at 2. by rewrite sub_splice_same by lia.
    + rewrite sub_splice_disjoint; try lia; [apply Hst; lia|unfold BLOCK_SIZE; lia|].
      left. unfold chunk_len. unfold BLOCK_SIZE. lia.
  - simpl. intros r c' (? & ? & ? & ?). split_and!; auto. destruct r; simpl in *; naive_solver.
Qed.

(** Whatever the disk holds, a bitmap that loads satisfies the invariant and
    is the disk's. *)
Lemma load_args_spec reserve total start count dstart c :
  store_inv c → fits 64 total → 0 ≤ start → 0 ≤ count → 0 < dstart → start + count < 2 ^ 64 →
  wp (load_args reserve total start count dstart)
     (λ r c', store_inv c' ∧ same (view c) (view c') ∧ (healthy c → healthy c') ∧
        match r with
        | Ok s => inv s ∧ tracked (view c') s ∧ total_blocks s = total ∧ data_start s = dstart ∧
            bitmap_start s = start ∧ bitmap_count s = count ∧
            (∀ i, 0 ≤ i < count → stored (data s) i (view c (start + i)))
        | Err e => count ≠ div_ceil (div_ceil total 8) BLOCK_SIZE ∨ dstart < start + count ∨
            total < dstart ∨ reserve (div_ceil total 8) = false ∨ ¬ healthy c
        | Panic => False
        end) c.
Proof.
  intros Hi Ht Hs0 Hc0 Hds Hsc. unfold load_args.
  assert (sat_add 64 start count = start + count) as -> by (unfold sat_add; lia).
  destruct (Z.eqb_spec count (div_ceil (div_ceil total 8) BLOCK_SIZE)) as [Hcnt|]; simpl;
    [|apply wp_fail; split_and!; [done..|tauto]].
  destruct (Z.ltb_spec dstart (start + count)); simpl; [apply wp_fail; split_and!; [done..|tauto]|].
  destruct (Z.ltb_spec total dstart); simpl; [apply wp_fail; split_and!; [done..|tauto]|].
  destruct (reserve _) eqn:Hres; simpl; [|apply wp_fail; split_and!; [done..|tauto]].
  destruct Ht as [Ht0 Ht1]. set (L := div_ceil total 8) in *.
  assert (0 ≤ L < 2 ^ 64 ∧ total ≤ 8 * L) as [HL HL8].
  { unfold L, div_ceil. pose proof (Z.div_mod (total + 8 - 1) 8 ltac:(lia)).
    pose proof (Z.mod_pos_bound (total + 8 - 1) 8 ltac:(lia)). lia. }
  apply wp_bind. eapply wp_mono.
  { apply (load_loop_spec start c L _ 0); try done; try lia. rewrite zlen_replicate. lia. }
  intros [d|err|] c'; simpl; intros (Hi' & Hv & Hh & He); [| |done].
  2:{ destruct He. split_and!; [done..|tauto]. }
  destruct He as [Hd Hst]. unfold count_free.
  apply wp_bind. eapply wp_of_opt; [apply count_loop_spec; lia|].
  apply wp_ret. split_and!; try done.
  - split; simpl; [|lia|lia|].
    + split; simpl; rewrite ?zlen_replicate, ?Hd; unfold fits; lia || done.
    + intros _. by apply Forall_replicate.
  - intros i Hx. simpl in *. apply lookup_replicate in Hx as [_ Hx]. rewrite Hv. apply Hst. lia.
  - simpl. intros i Hx. apply Hst. lia.
Qed.
End store.

(** ** Formatting *)
Lemma used_zeros n x : used (replicate n x00) x = false.
Proof.
  unfold used. destruct (replicate n x00 !! Z.to_nat (x / 8)) eqn:E; simpl.
  - apply lookup_replicate in E as [-> _]. apply Z.bits_0.
  - apply Z.bits_0.
Qed.

Lemma mark_used_spec n b d : 0 ≤ b → b + Z.of_nat n ≤ 8 * zlen d →
  ∃ d', mark_used n b d = Some d' ∧ zlen d' = zlen d ∧
    ∀ x, 0 ≤ x → used d' x = if decide (b ≤ x < b + Z.of_nat n) then true else used d x.
Proof.
  revert b d. induction n as [|n IH]; intros b d Hb Hn.
  { exists d. split_and!; try done. intros. by rewrite decide_False by lia. }
  cbn [mark_used]. destruct (set_used_spec d b) as (y & -> & Hy); [unfold covered; lia|].
  cbn [mbind option_bind].
  assert (zlen (<[Z.to_nat (b / 8) := y]> d) = zlen d) as Hz by (unfold zlen; by rewrite length_insert).
  destruct (IH (b + 1) (<[Z.to_nat (b / 8) := y]> d)) as (d' & -> & Hz' & Hu); try lia.
  exists d'. split_and!; [done|lia|]. intros x Hx. rewrite Hu, Hy by done.
  repeat case_decide; try lia; done.
Qed.

Lemma nfree_threshold d n b k :
  (∀ x, b ≤ x < b + Z.of_nat n → used d x = (x <? k)) →
  nfree d n b = Z.max 0 (b + Z.of_nat n - Z.max b k).
Proof.
  revert b. induction n as [|n IH]; intros b H; simpl; [lia|].
  rewrite H by lia. rewrite IH by (intros x Hx; apply H; lia).
  destruct (Z.ltb_spec b k); lia.
Qed.

Lemma new_for_mkfs_inv total start count dstart :
  0 ≤ total < 2 ^ 63 → 0 < dstart ≤ total → 0 ≤ start → start + count ≤ dstart →
  count = div_ceil (div_ceil total 8) BLOCK_SIZE →
  ∃ s, new_for_mkfs total start count dstart = Some s ∧ inv s ∧
    total_blocks s = total ∧ data_start s = dstart ∧
    (∀ x, 0 ≤ x < total → used (data s) x = (x <? dstart)) ∧ ∀ f, tracked f s.
Proof.
  intros Ht Hd Hs Hsc Hc. unfold new_for_mkfs. set (L := (total + 7) / 8).
  assert (L = div_ceil total 8) as HL by (unfold L, div_ceil; f_equal; lia).
  assert (total ≤ 8 * L ∧ 0 ≤ L) as [HL8 HL0].
  { unfold L. pose proof (Z.div_mod (total + 7) 8 ltac:(lia)).
    pose proof (Z.mod_pos_bound (total + 7) 8 ltac:(lia)). lia. }
  destruct (mark_used_spec (Z.to_nat dstart) 0 (replicate (Z.to_nat L) x00)) as (d & -> & Hz & Hu).
  { lia. } { rewrite zlen_replicate. lia. }
  rewrite zlen_replicate in Hz. cbn [mbind option_bind]. eexists; split; [done|].
  assert (∀ x, 0 ≤ x < total → used d x = (x <? dstart)) as Hux.
  { intros x Hx. rewrite Hu by lia. rewrite used_zeros.
    destruct (Z.ltb_spec x dstart); [rewrite decide_True by lia|rewrite decide_False by lia]; done. }
  assert (0 ≤ count).
  { rewrite Hc. unfold div_ceil at 1. apply Z.div_pos; [|done]. rewrite <- HL. unfold BLOCK_SIZE. lia. }
  split_and!; try done.
  - split; simpl; [|lia| |done].
    + split; simpl; rewrite ?zlen_replicate, ?Hz; unfold fits; try lia.
      rewrite Z2Nat.id by lia. by rewrite HL.
    + rewrite (nfree_threshold _ _ _ dstart); [unfold sat_sub; lia|]. intros x Hx. apply Hux. lia.
  - intros f i Hi. simpl in Hi. by apply lookup_replicate in Hi as [? _].
Qed.

(** ** Discards *)
Definition in_ranges (l : list (Z * Z)) (x : Z) : Prop := ∃ r, r ∈ l ∧ r.1 ≤ x < r.1 + r.2.

Lemma in_ranges_cons r l x : in_ranges (r :: l) x ↔ r.1 ≤ x < r.1 + r.2 ∨ in_ranges l x.
Proof. unfold in_ranges. setoid_rewrite elem_of_cons. naive_solver. Qed.
Lemma in_ranges_nil x : ¬ in_ranges [] x.
Proof. intros (r & Hr & _). by apply elem_of_nil in Hr. Qed.

Lemma free_end_spec d n b : 0 ≤ b → b + Z.of_nat n ≤ 8 * zlen d →
  ∃ e, free_end d n b = Some e ∧ b ≤ e ≤ b + Z.of_nat n ∧ run_free d b (e - b) ∧
    (0 < Z.of_nat n → used d b = false → b < e).
Proof.
  revert b. induction n as [|n IH]; intros b Hb Hn; cbn [free_end].
  { exists b. split_and!; try lia; [done|]. intros x ?. lia. }
  rewrite is_free_used by (unfold covered; lia). cbn [mbind option_bind].
  destruct (used d b) eqn:Hu; simpl negb; cbn iota.
  { exists b. split_and!; try lia; try done. intros x ?. lia. }
  destruct (IH (b + 1)) as (e & -> & He & Hf & _); try lia.
  exists e. split_and!; try lia; [done|]. intros x Hx.
  destruct (decide (x = b)) as [->|]; [done|]. apply Hf. lia.
Qed.

(** The ranges so far end at or before [hi]. *)
Definition bounded (l : list (Z * Z)) (hi : Z) : Prop :=
  Forall (λ r, 0 ≤ r.1 ∧ 0 ≤ r.2 ∧ r.1 + r.2 ≤ hi) l.

Lemma push_merge_spec merged run e : bounded merged run → 0 ≤ run < e → e < 2 ^ 64 →
  bounded (push_merge merged run e) e ∧
  ∀ x, in_ranges (push_merge merged run e) x ↔ in_ranges merged x ∨ run ≤ x < e.
Proof.
  intros Hb Hr He.
  assert (bounded merged e) as Hb' by (eapply Forall_impl; [exact Hb|simpl; intros; lia]).
  assert (u64 (e - run) = e - run) as Hw by (apply wrap_small; unfold fits; lia).
  unfold push_merge. destruct merged as [|[s c] rest].
  { rewrite Hw. split; [apply Forall_cons; simpl; split; [lia|done]|]. intros x. rewrite in_ranges_cons. simpl.
    pose proof (in_ranges_nil x). split; [intros [?|?]; [right; lia|done]|intros [?|?]; [done|left; lia]]. }
  apply Forall_cons in Hb as [Hs _]. simpl in Hs. apply Forall_cons in Hb' as Hb''. destruct Hb'' as [_ Hrest].
  rewrite (wrap_small 64 (s + c)) by (unfold fits; lia). destruct (Z.leb_spec run (s + c)).
  - rewrite (wrap_small 64 (e - s)) by (unfold fits; lia). rewrite Z.max_r by lia.
    split; [apply Forall_cons; simpl; split; [lia|done]|]. intros x. rewrite !in_ranges_cons. simpl.
    assert (s ≤ x < s + (e - s) ↔ s ≤ x < s + c ∨ run ≤ x < e) by lia. tauto.
  - rewrite Hw. split; [apply Forall_cons; simpl; split; [lia|done]|]. intros x. rewrite !in_ranges_cons. simpl.
    assert (run ≤ x < run + (e - run) ↔ run ≤ x < e) by lia. tauto.
Qed.

Lemma trim_range_spec d fuel b end_ merged :
  (Z.to_nat (end_ - b) < fuel)%nat → 0 ≤ b → end_ ≤ 8 * zlen d → end_ < 2 ^ 64 → bounded merged b →
  ∃ m, trim_range d fuel b end_ merged = Some m ∧ bounded m (Z.max b end_) ∧
    ∀ x, in_ranges m x ↔ in_ranges merged x ∨ (b ≤ x < end_ ∧ used d x = false).
Proof.
  revert b merged. induction fuel as [|fuel IH]; intros b merged Hf Hb He Hw Hm; [lia|].
  cbn [trim_range]. destruct (Z.ltb_spec b end_).
  2:{ exists merged. split_and!; [done|by rewrite Z.max_l by lia|]. intros x.
      split; [tauto|]. intros [?|[? _]]; [done|lia]. }
  rewrite is_free_used by (unfold covered; lia). cbn [mbind option_bind].
  destruct (used d b) eqn:Hu; simpl negb; cbn iota.
  - destruct (IH (b + 1) merged) as (m & -> & Hbm & Hx); try lia.
    { eapply Forall_impl; [exact Hm|simpl; intros; lia]. }
    exists m. split_and!; [done|by replace (Z.max b end_) with (Z.max (b + 1) end_) by lia|].
    intros x. rewrite Hx. split; (intros [?|[??]]; [by left|]).
    + right. split; [lia|done].
    + destruct (decide (x = b)) as [->|]; [congruence|]. right. split; [lia|done].
  - destruct (free_end_spec d (Z.to_nat (end_ - b)) b) as (e & -> & Hbe & Hrun & Hlt); try lia.
    specialize (Hlt ltac:(lia) Hu). cbn [mbind option_bind].
    destruct (push_merge_spec merged b e) as [Hbp Hp]; [done|lia|lia|].
    destruct (IH e (push_merge merged b e)) as (m & -> & Hbm & Hx); try lia; [done|].
    exists m. split_and!; [done|by replace (Z.max b end_) with (Z.max e end_) by lia|].
    intros x. rewrite Hx, Hp. split.
    + intros [[?|?]|[??]]; [by left|right; split; [lia|apply Hrun; lia]|right; split; [lia|done]].
    + intros [?|[??]]; [auto|]. destruct (decide (x < e)); [left; right; lia|right; split; [lia|done]].
Qed.

(** Ranges that follow each other. *)
Fixpoint ascending (l : list (Z * Z)) (lo : Z) : Prop :=
  match l with
  | [] => True
  | r :: l => lo ≤ r.1 ∧ 0 < r.2 ∧ ascending l (r.1 + r.2)
  end.

Lemma ascending_weaken l lo lo' : lo' ≤ lo → ascending l lo → ascending l lo'.
Proof. destruct l; simpl; [done|]. intros ? (?&?&?). split_and!; lia || done. Qed.

Lemma ascending_insert x l lo :
  ascending l lo → lo ≤ x.1 → 0 < x.2 →
  (∀ r, r ∈ l → x.1 + x.2 ≤ r.1 ∨ r.1 + r.2 ≤ x.1) → ascending (insert_by_start x l) lo.
Proof.
  revert lo. induction l as [|y l IH]; intros lo Ha Hlo Hx Hd; cbn [insert_by_start ascending].
  { done. }
  destruct Ha as (H1 & H2 & H3). pose proof (Hd y ltac:(left)) as Hy.
  destruct (Z.leb_spec x.1 y.1); cbn [ascending].
  - split_and!; try done; lia.
  - split_and!; try done. apply IH; [done|lia|done|]. intros r Hr. apply Hd. by right.
Qed.

Lemma in_ranges_insert r l x :
  in_ranges (insert_by_start r l) x ↔ in_ranges (r :: l) x.
Proof.
  induction l as [|y l IH]; cbn [insert_by_start]; [done|]. case_match; [done|].
  rewrite !in_ranges_cons, IH, in_ranges_cons. tauto.
Qed.

Lemma insert_elem r l x : x ∈ insert_by_start r l ↔ x = r ∨ x ∈ l.
Proof.
  induction l as [|y l IH]; cbn [insert_by_start]; [set_solver|]. case_match; set_solver.
Qed.

(** No two pending ranges overlap. *)
Fixpoint disjoint_ranges (l : list (Z * Z)) : Prop :=
  match l with
  | [] => True
  | x :: l => (∀ r, r ∈ l → x.1 + x.2 ≤ r.1 ∨ r.1 + r.2 ≤ x.1) ∧ disjoint_ranges l
  end.

Lemma sort_elem l x : x ∈ sort_by_start l ↔ x ∈ l.
Proof.
  induction l as [|y l IH]; [done|]. simpl. rewrite insert_elem, IH. set_solver.
Qed.

Lemma sort_ascending l lo : disjoint_ranges l → Forall (λ r, lo ≤ r.1 ∧ 0 < r.2) l →
  ascending (sort_by_start l) lo.
Proof.
  induction l as [|x l IH]; [done|]. intros [Hx Hl] Hf. apply Forall_cons in Hf as [[??] ?].
  simpl. apply ascending_insert; auto. intros r Hr. apply Hx. by apply sort_elem.
Qed.

Lemma trim_ranges_spec s pending merged lo :
  geometry s → ascending pending lo → 0 ≤ lo → bounded merged lo →
  Forall (λ r, r.1 + r.2 ≤ total_blocks s) pending →
  ∃ m, trim_ranges s pending merged = Some m ∧
    ∀ x, in_ranges m x ↔ in_ranges merged x ∨ (in_ranges pending x ∧ used (data s) x = false).
Proof.
  intros G. revert merged lo. induction pending as [|[st ct] pending IH]; intros merged lo Ha Hlo Hb Hf.
  { exists merged. split; [done|]. intros x. pose proof (in_ranges_nil x). tauto. }
  simpl in Ha. destruct Ha as (H1 & H2 & H3). apply Forall_cons in Hf as [Hst Hf]. simpl in Hst.
  destruct (g_total _ G) as [_ Ht]. cbn [trim_ranges].
  rewrite wrap_small, Z.min_l by (unfold fits; lia).
  destruct (trim_range_spec (data s) (S (Z.to_nat (st + ct - st))) st (st + ct) merged)
    as (m & -> & Hbm & Hm); try lia.
  { pose proof (on_disk_covered s (st + ct - 1) G) as Hc. unfold covered, on_disk in Hc. lia. }
  { eapply Forall_impl; [exact Hb|simpl; intros; lia]. }
  cbn [mbind option_bind]. rewrite Z.max_r in Hbm by lia.
  destruct (IH m (st + ct)) as (m' & -> & Hm'); [done|lia|done|done|].
  exists m'. split; [done|]. intros x. rewrite Hm', Hm, in_ranges_cons. simpl. tauto.
Qed.

Lemma in_ranges_reverse l x : in_ranges (reverse l) x ↔ in_ranges l x.
Proof. unfold in_ranges. by setoid_rewrite elem_of_reverse. Qed.

(** ** Claims *)

(** C16. Allocation is safe and exact.  From a consistent allocator, [alloc
    count] never panics and keeps the allocator consistent.  When it succeeds
    the [count] blocks it returns lie in the data area, were all free, are now
    used, no other block's state changed and [free_count] fell by [count].
    When it fails nothing changed, and neither from the cursor to the end nor
    from the data area's start to the cursor is there a run of that length. *)
Theorem alloc_takes_free_data_blocks s count : inv s → 0 < count →
  let '(r, s') := alloc count s in
  inv s' ∧
  match r with
  | Ok b =>
      data_start s ≤ b ∧ b + count ≤ total_blocks s ∧
      (∀ x, b ≤ x < b + count → used (data s) x = false) ∧
      (∀ x, 0 ≤ x → used (data s') x = if decide (b ≤ x < b + count) then true else used (data s) x) ∧
      free_count s' = free_count s - count
  | Err e =>
      e = DiskFull ∧ s' = s ∧ no_run s (alloc_cursor s) (total_blocks s) count ∧
      no_run s (data_start s) (alloc_cursor s) count
  | Panic => False
  end.
Proof.
  intros I Hc. pose proof (alloc_spec count s I ltac:(lia)) as H. unfold wp in H.
  destruct (alloc count s) as [[b|e|] s']; [| |done].
  - destruct H as (_ & ? & ? & (_ & ? & _ & ? & ? & ?)). split_and!; try done; lia.
  - destruct H as (-> & -> & H). destruct (H Hc). by split_and!.
Qed.

(** A single block can be allocated exactly when some block of the data
    area is free: the next-fit cursor never hides the last free block. *)
Theorem alloc_one_succeeds_iff_space s : inv s →
  (∃ b s', alloc 1 s = (Ok b, s')) ↔
  ∃ x, data_start s ≤ x < total_blocks s ∧ used (data s) x = false.
Proof.
  intros I. pose proof (alloc_one s I) as H. unfold wp in H.
  destruct (alloc 1 s) as [[b|e|] s']; [| |done].
  - destruct H as (? & ? & _). split; intros _; eauto.
  - destruct H as (_ & _ & H). split.
    + intros (? & ? & ?). done.
    + intros (x & Hx & Hu). specialize (H x Hx). congruence.
Qed.

(** [free] releases exactly its range.  A range inside the data area
    becomes free and queues one discard; one that reaches outside it (or
    overflows) changes nothing at all, whatever an on-disk extent says. *)
Theorem free_releases_exactly_the_range s start count : inv s → 0 ≤ count →
  ∃ s', free start count s = Some s' ∧ inv s' ∧
    if bool_decide (data_start s ≤ start ∧ start + count ≤ total_blocks s)
    then (∀ x, 0 ≤ x → used (data s') x =
            if decide (start ≤ x < start + count) then false else used (data s) x) ∧
         trim_pending s' = trim_pending s ++ (if 0 <? count then [(start, count)] else [])
    else s' = s.
Proof.
  intros I Hc. destruct (free_spec start count s I Hc) as (s' & -> & _ & Hi & H).
  exists s'. split_and!; try done. pose proof (in_data_spec s start count (i_geo _ I) Hc) as Hd.
  destruct (in_data s start count); case_bool_decide as E; try done.
  - exfalso. apply E, Hd. done.
  - apply Hd in E. done.
Qed.

(** Discards are exact when no two pending ranges overlap: the blocks
    [flush_trims] discards are those of the pending ranges that are still free. *)
Theorem trims_are_exactly_the_free_blocks s :
  inv s → disjoint_ranges (trim_pending s) →
  Forall (λ r, 0 ≤ r.1 ∧ 0 < r.2 ∧ r.1 + r.2 ≤ total_blocks s) (trim_pending s) →
  ∃ discards, flush_trims s = Some (discards, set_trim [] s) ∧
    ∀ x, in_ranges discards x ↔ in_ranges (trim_pending s) x ∧ used (data s) x = false.
Proof.
  intros I Hd Hf. unfold flush_trims.
  destruct (trim_ranges_spec s (sort_by_start (trim_pending s)) [] 0) as (m & -> & Hm).
  - apply I.
  - apply sort_ascending; [done|]. eapply Forall_impl; [exact Hf|]. simpl. intros. lia.
  - done.
  - by apply Forall_nil.
  - apply Forall_forall. intros r Hr. rewrite sort_elem in Hr. rewrite Forall_forall in Hf.
    specialize (Hf r Hr). simpl in Hf. lia.
  - eexists. split; [done|]. intros x. rewrite in_ranges_reverse, Hm.
    pose proof (in_ranges_nil x).
    assert (in_ranges (sort_by_start (trim_pending s)) x ↔ in_ranges (trim_pending s) x) as ->
      by (unfold in_ranges; by setoid_rewrite sort_elem).
    tauto.
Qed.

(** What [sync] writes, [load_args] reads.  On a store that serves its
    requests, after [sync] the bitmap loaded from the disk is the one in
    memory, bit for bit, although only the blocks marked dirty were written. *)
Theorem sync_then_load_roundtrip {C} `{!BlockStore C} {check} `{!BlockStoreOk C check}
  reserve (c : C) s :
  store_inv c → healthy c → inv s → tracked (view c) s →
  reserve (div_ceil (total_blocks s) 8) = true →
  ∃ c1 s1 c2 s2, sync (c, s) = (Ok tt, (c1, s1)) ∧
    load_args reserve (total_blocks s) (bitmap_start s) (bitmap_count s) (data_start s) c1
      = (Ok s2, c2) ∧
    data s2 = data s ∧ free_count s2 = free_count s ∧ inv s2.
Proof.
  intros Hi Hh I Ht Hr. pose proof (i_geo _ I) as G.
  pose proof (sync_spec c s Hi I Ht) as Hs. unfold wp in Hs.
  destruct (sync (c, s)) as [[[]|e|] [c1 s1]]; [|by destruct Hs as (_&_&_&_&_&_&_&?)|
    by destruct Hs as (_&_&_&_&_&_&?)].
  destruct Hs as (Hi1 & Hh1 & _ & _ & _ & _ & Hst). specialize (Hh1 Hh). simpl in Hst.
  pose proof (g_area _ G). pose proof (g_start _ G). destruct (g_total _ G).
  assert (0 ≤ bitmap_count s) by (rewrite <- (g_dirty _ G); apply zlen_nonneg).
  assert (bitmap_count s = div_ceil (div_ceil (total_blocks s) 8) BLOCK_SIZE) as Hbc
    by (rewrite (g_blocks _ G); by rewrite (g_len _ G)).
  pose proof (load_args_spec reserve (total_blocks s) (bitmap_start s) (bitmap_count s)
    (data_start s) c1 Hi1) as Hl. unfold wp in Hl. unfold fits in Hl.
  specialize (Hl ltac:(lia) ltac:(lia) ltac:(lia) ltac:(lia) ltac:(lia)).
  destruct (load_args _ _ _ _ _ c1) as [[s2|e|] c2] eqn:El; destruct Hl as (_ & _ & _ & Hl); [| |done].
  2:{ exfalso. destruct Hl as [?|[?|[?|[?|?]]]]; try congruence; lia. }
  destruct Hl as (I2 & _ & Ht2 & _ & _ & _ & Hst2).
  assert (data s2 = data s) as Hd.
  { apply (stored_inj _ _ (λ i, view c1 (bitmap_start s + i))).
    - rewrite (g_len _ G), (g_len _ (i_geo _ I2)). by rewrite Ht2.
    - intros i Hx. rewrite (g_len _ (i_geo _ I2)), Ht2, <- Hbc in Hx. split; auto. }
  exists c1, s1, c2, s2. split_and!; [done..| |done].
  by rewrite (i_count _ I2), (i_count _ I), Hd, Ht2.
Qed.

(** ** A small disk

    64 blocks, the data area from block 10 on. *)
Definition ex_fresh : t :=
  Eval vm_compute in default (mk [] 0 0 0 0 0 false [] [] 0) (new_for_mkfs 64 1 1 10).

Lemma ex_fresh_inv : inv ex_fresh.
Proof.
  destruct (new_for_mkfs_inv 64 1 1 10) as (s & Hs & I & _); try lia; [done|].
  vm_compute in Hs. injection Hs as <-. exact I.
Qed.

Lemma alloc_takes_free_data_blocks_witness :
  inv ex_fresh ∧ ∃ b s', alloc 3 ex_fresh = (Ok b, s') ∧ inv s' ∧ 10 ≤ b.
Proof.
  split; [exact ex_fresh_inv|].
  pose proof (alloc_takes_free_data_blocks ex_fresh 3 ex_fresh_inv ltac:(lia)) as H.
  destruct (alloc 3 ex_fresh) as [[b|e|] s'] eqn:E.
  - exists b, s'. destruct H as (? & ? & _). split_and!; done.
  - vm_compute in E. discriminate.
  - vm_compute in E. discriminate.
Defined.

Lemma alloc_one_succeeds_iff_space_witness : ∃ b s', alloc 1 ex_fresh = (Ok b, s').
Proof.
  apply (alloc_one_succeeds_iff_space ex_fresh ex_fresh_inv). exists 10.
  split; [vm_compute; split; done|reflexivity].
Defined.

Lemma free_releases_exactly_the_range_witness :
  inv ex_fresh ∧ ∃ s', free 3 2 ex_fresh = Some s' ∧ s' = ex_fresh.
Proof.
  split; [exact ex_fresh_inv|].
  destruct (free_releases_exactly_the_range ex_fresh 3 2 ex_fresh_inv ltac:(lia)) as (s' & E & _ & H).
  exists s'. split; [done|]. rewrite bool_decide_false in H; [exact H|]. vm_compute. intros [? _]. done.
Defined.

Lemma trims_are_exactly_the_free_blocks_witness :
  ∃ discards, flush_trims (set_trim [(30, 5); (12, 3)] ex_fresh) = Some (discards, ex_fresh) ∧
    in_ranges discards 13.
Proof.
  assert (inv (set_trim [(30, 5); (12, 3)] ex_fresh)) as I by (destruct ex_fresh_inv as [[]]; by split).
  destruct (trims_are_exactly_the_free_blocks _ I) as (l & E & H).
  - simpl. split; [|split; [|done]; intros r Hr; by apply elem_of_nil in Hr].
    intros r Hr. apply list_elem_of_singleton in Hr as ->. simpl. lia.
  - repeat (apply Forall_cons; split; [vm_compute; split_and!; done|]). by apply Forall_nil.
  - exists l. split; [exact E|]. apply H. split; [|reflexivity].
    exists (12, 3). split; [right; left|simpl; lia].
Defined.

(** A block freed twice before a discard: ten blocks are allocated, the rest of
    the disk after them; the ten are freed, three of them handed out again, and
    the first of these freed again. *)
Definition ex_refreed : t :=
  let run m s := (m s).2 in
  let s := run (alloc 1) (run (alloc 1) (run (alloc 1)
             (default ex_fresh (free 10 10 (run (alloc 44) (run (alloc 10) ex_fresh)))))) in
  default ex_fresh (free 10 1 s).

(** With overlapping pending ranges [flush_trims] discards live blocks.
    On a state reached by allocations and frees alone, the run of the second
    range ends before the last merged range starts; [b - last.0] wraps and that
    range grows to the end of the address space, over block 20, which is in
    use. *)
Theorem overlapping_trims_discard_live_blocks :
  inv ex_refreed ∧ trim_pending ex_refreed = [(10, 10); (10, 1)] ∧
  used (data ex_refreed) 20 = true ∧
  ∃ s', flush_trims ex_refreed = Some ([(10, 1); (13, 2 ^ 64 - 2)], s') ∧
    in_ranges [(10, 1); (13, 2 ^ 64 - 2)] 20.
Proof.
  split_and!; [|vm_compute; reflexivity|vm_compute; reflexivity|].
  - assert (∀ s n, inv s → 0 ≤ n → inv (alloc n s).2) as Ha.
    { intros s n I Hn. pose proof (alloc_spec n s I Hn) as H. unfold wp in H.
      destruct (alloc n s) as [[]]; simpl; [by destruct H as (_ & _ & _ & _ & ? & _)| |done].
      destruct H as (_ & -> & _). done. }
    assert (∀ s a n, inv s → 0 ≤ n → inv (default ex_fresh (free a n s))) as Hf.
    { intros s a n I Hn. destruct (free_spec a n s I Hn) as (s' & -> & _ & ? & _). done. }
    unfold ex_refreed. cbv beta zeta. apply Hf; [|lia]. do 3 (apply Ha; [|lia]).
    apply Hf; [|lia]. do 2 (apply Ha; [|lia]). exact ex_fresh_inv.
  - eexists. split; [vm_compute; reflexivity|]. exists (13, 2 ^ 64 - 2).
    split; [right; left|simpl; lia].
Qed.

Lemma sync_then_load_roundtrip_witness :
  ∃ c1 s1 c2 s2, sync (∅ : MemStore, ex_fresh) = (Ok tt, (c1, s1)) ∧
    load_args (λ _, true) 64 1 1 10 c1 = (Ok s2, c2) ∧ data s2 = data ex_fresh.
Proof.
  destruct (sync_then_load_roundtrip (check := λ _, true) (λ _, true) (∅ : MemStore) ex_fresh)
    as (c1 & s1 & c2 & s2 & E1 & E2 & E3 & _).
  - apply map_Forall_empty.
  - done.
  - exact ex_fresh_inv.
  - intros i Hi. destruct i as [|i]; [discriminate|]. destruct i; discriminate.
  - done.
  - exists c1, s1, c2, s2. split_and!; [exact E1|exact E2|exact E3].
Defined.
