(* ===== verification/BtreeNode.v ===== *)
(** * B-tree nodes as 4 KiB blocks (storage/npkfs/btree.rs, the byte level)

    Headers, leaf and internal entries at their offsets in a node's block, the
    node checksum, and the loops that search and shift entries.  Offsets are
    computed at [usize] width; an access outside the block is a panic, [None]. *)

From S2P Require Import Prelude Bytes Format.

Definition MAX_TREE_DEPTH : nat := 8.
Definition CHECKSUM_OFFSET : Z := BLOCK_SIZE - 32.

(** ** Headers *)
Definition byte_at (buf : block) (i : nat) : Z := bval (default x00 (buf !! i)).

Definition node_cap (node_type : Z) : Z :=
  if node_type =? BTREE_LEAF then MAX_LEAF_ENTRIES
  else if node_type =? BTREE_INTERNAL then MAX_INTERNAL_KEYS
  else 0.

Definition read_header (buf : block) : BTreeNodeHeader :=
  let node_type := byte_at buf 4 in
  mkHeader (of_le (raw_sub buf 0 4)) node_type (byte_at buf 5)
    (Z.min (of_le (raw_sub buf 6 2)) (node_cap node_type))
    (of_le (raw_sub buf 8 8)).

Definition write_header (buf : block) (h : BTreeNodeHeader) : block :=
  let buf := raw_splice buf 0 (le32 (magic h)) in
  let buf := raw_splice buf 4 [byte_of (node_type h)] in
  let buf := raw_splice buf 5 [byte_of (hdr_pad h)] in
  let buf := raw_splice buf 6 (le16 (num_entries h)) in
  raw_splice buf 8 (le64 (right_child h)).

Definition with_count (h : BTreeNodeHeader) (n : Z) : BTreeNodeHeader :=
  mkHeader (magic h) (node_type h) (hdr_pad h) n (right_child h).
Definition with_right (h : BTreeNodeHeader) (b : Z) : BTreeNodeHeader :=
  mkHeader (magic h) (node_type h) (hdr_pad h) (num_entries h) b.

(** ** Entries *)
Definition internal_off (idx : Z) : Z := u64 (NODE_HEADER_SIZE + idx * INTERNAL_ENTRY_SIZE).
Definition child_off (idx : Z) : Z := u64 (NODE_HEADER_SIZE + idx * INTERNAL_ENTRY_SIZE + 32).
Definition leaf_off (idx : Z) : Z := u64 (NODE_HEADER_SIZE + idx * LEAF_ENTRY_SIZE).

Definition internal_key (buf : block) (idx : Z) : option (list byte) :=
  sub buf (internal_off idx) 32.

Definition internal_child (buf : block) (idx : Z) : option Z :=
  of_le <$> sub buf (child_off idx) 8.

Definition set_internal_entry (buf : block) (idx : Z) (key : list byte) (child : Z)
  : option block :=
  buf ← splice buf (internal_off idx) key;
  splice buf (child_off idx) (le64 child).

Definition leaf_entry (buf : block) (idx : Z) : option BTreeEntryRaw :=
  entry_of <$> sub buf (leaf_off idx) LEAF_ENTRY_SIZE.

Definition set_leaf_entry (buf : block) (idx : Z) (e : BTreeEntryRaw) : option block :=
  splice buf (leaf_off idx) (entry_bytes e).

Definition make_empty_leaf : block :=
  write_header zero_block (mkHeader BTREE_NODE_MAGIC BTREE_LEAF 0 0 0).

(** ** Searching a node *)

(** The first [i] of [i..i + n] with key [k] below the internal key at [i]. *)
Fixpoint first_key_above (buf : block) (n : nat) (i : Z) (k : list byte) : option (option Z) :=
  match n with
  | O => Some None
  | S n =>
      ki ← internal_key buf i;
      if bytes_ltb k ki then Some (Some i) else first_key_above buf n (i + 1) k
  end.

Definition find_child_with_idx (buf : block) (h : BTreeNodeHeader) (k : list byte)
  : option (Z * Z) :=
  r ← first_key_above buf (Z.to_nat (num_entries h)) 0 k;
  match r with
  | Some i => c ← internal_child buf i; Some (i, c)
  | None => Some (num_entries h, right_child h)
  end.

Definition find_child_block (buf : block) (h : BTreeNodeHeader) (k : list byte) : option Z :=
  snd <$> find_child_with_idx buf h k.

(** The first entry of [i..i + n] whose hash is [k], with its index. *)
Fixpoint find_hash (buf : block) (n : nat) (i : Z) (k : list byte)
  : option (option (Z * BTreeEntryRaw)) :=
  match n with
  | O => Some None
  | S n =>
      e ← leaf_entry buf i;
      if bool_decide (hash e = k) then Some (Some (i, e)) else find_hash buf n (i + 1) k
  end.

Fixpoint leaf_pos (buf : block) (n : nat) (i : Z) (k : list byte) : option Z :=
  match n with
  | O => Some i
  | S n =>
      e ← leaf_entry buf i;
      if bytes_ltb k (hash e) then Some i else leaf_pos buf n (i + 1) k
  end.

Definition find_leaf_insert_pos (buf : block) (h : BTreeNodeHeader) (k : list byte) : option Z :=
  leaf_pos buf (Z.to_nat (num_entries h)) 0 k.

(** ** Shifting entries of a leaf *)

(** [for i in (pos..pos + k).rev()] *)
Fixpoint shift_up (buf : block) (k : nat) (pos : Z) : option block :=
  match k with
  | O => Some buf
  | S k =>
      let i := pos + Z.of_nat k in
      e ← leaf_entry buf i;
      buf ← set_leaf_entry buf (i + 1) e;
      shift_up buf k pos
  end.

Definition insert_leaf_entry (buf : block) (h : BTreeNodeHeader) (pos : Z) (e : BTreeEntryRaw)
  : option block :=
  buf ← shift_up buf (Z.to_nat (num_entries h - pos)) pos;
  buf ← set_leaf_entry buf pos e;
  Some (write_header buf (with_count h (u16 (num_entries h + 1)))).

(** [for i in i..i + k] *)
Fixpoint shift_down (buf : block) (k : nat) (i : Z) : option block :=
  match k with
  | O => Some buf
  | S k =>
      e ← leaf_entry buf (i + 1);
      buf ← set_leaf_entry buf i e;
      shift_down buf k (i + 1)
  end.

Definition remove_leaf_entry (buf : block) (h : BTreeNodeHeader) (pos : Z) : option block :=
  buf ← shift_down buf (Z.to_nat (u64 (num_entries h - 1) - pos)) pos;
  Some (write_header buf (with_count h (u16 (num_entries h - 1)))).

(** [for i in 0..es.len()]: entries into consecutive slots. *)
Fixpoint fill_leaf (buf : block) (i : Z) (es : list BTreeEntryRaw) : option block :=
  match es with
  | [] => Some buf
  | e :: es => buf ← set_leaf_entry buf i e; fill_leaf buf (i + 1) es
  end.

Fixpoint fill_internal (buf : block) (i : Z) (es : list (list byte * Z)) : option block :=
  match es with
  | [] => Some buf
  | (k, c) :: es => buf ← set_internal_entry buf i k c; fill_internal buf (i + 1) es
  end.

(** ** Checksums *)
Section blake3.
Context (blake3 : list byte → list byte).

Definition compute_node_checksum (buf : block) : list byte :=
  blake3 (raw_sub buf 0 CHECKSUM_OFFSET).

Definition write_node_checksum (buf : block) : block :=
  raw_splice buf CHECKSUM_OFFSET (compute_node_checksum buf).

Definition verify_node_checksum (buf : block) : bool :=
  bool_decide (raw_sub buf CHECKSUM_OFFSET 32 = compute_node_checksum buf).
End blake3.
