(* ===== verification/Btree.v ===== *)
(** * The copy-on-write B-tree (storage/npkfs/btree.rs)

    [lookup], [insert], [delete] and the corruption-tolerant [walk] over a block
    store and the allocator.  The source keeps the descent in an array [path]
    with its length [depth]; here it is the list of the same pairs, deepest
    first.  Loops the source bounds by [MAX_TREE_DEPTH] run on that fuel, and
    running out of it is a panic, so that the absence of panics includes their
    termination. *)

From S2P Require Import Prelude Bytes Format BlockStore Bitmap BtreeNode.

Section btree.
Context (blake3 : list byte → list byte).
Context {C : Type} `{!BlockStore C}.

Definition read_node (b : Z) : M C FsError block :=
  '(ok, buf) ← read_checked b (verify_node_checksum blake3);
  if ok : bool then mret buf else fail Corrupt.

Definition write_node (b : Z) (buf : block) : M C FsError unit :=
  write_checked b (write_node_checksum blake3 buf).

(** ** Lookup *)
Fixpoint lookup_loop (fuel : nat) (b : Z) (key : list byte)
  : M C FsError (option BTreeEntryRaw) :=
  match fuel with
  | O => fail TreeTooDeep
  | S fuel =>
      buf ← read_node b;
      let hdr := read_header buf in
      if negb (magic hdr =? BTREE_NODE_MAGIC) then fail Corrupt
      else if node_type hdr =? BTREE_LEAF then
        r ← of_opt (find_hash buf (Z.to_nat (num_entries hdr)) 0 key);
        mret (snd <$> r)
      else if node_type hdr =? BTREE_INTERNAL then
        b ← of_opt (find_child_block buf hdr key);
        lookup_loop fuel b key
      else fail Corrupt
  end.

(** ** Copying the path *)
Notation T := (C * Bitmap.t)%type.

Definition alloc1 : M T FsError Z := on_snd (Bitmap.alloc 1).

Fixpoint fixup_path (path : list (Z * Z)) (child : Z) (old : list Z)
  : M T FsError (Z * list Z) :=
  match path with
  | [] => mret (child, old)
  | (parent, idx) :: path =>
      buf ← on_fst (read_node parent);
      let hdr := read_header buf in
      new_parent ← alloc1;
      new_buf ← of_opt (if idx <? num_entries hdr
                        then splice buf (child_off idx) (le64 child)
                        else splice buf 8 (le64 child));
      _ ← on_fst (write_node new_parent new_buf);
      fixup_path path new_parent (old ++ [parent])
  end.

(** ** Splitting *)

(** [for i in i..i + n]: the entries with the new one at its place. *)
Fixpoint merged_entries (buf : block) (n : nat) (i : Z) (new : BTreeEntryRaw)
  (inserted : bool) (acc : list BTreeEntryRaw) : option (list BTreeEntryRaw) :=
  match n with
  | O => Some (if inserted then acc else acc ++ [new])
  | S n =>
      e ← leaf_entry buf i;
      if negb inserted && bytes_ltb (hash new) (hash e)
      then merged_entries buf n (i + 1) new true (acc ++ [new; e])
      else merged_entries buf n (i + 1) new inserted (acc ++ [e])
  end.

Definition leaf_of (es : list BTreeEntryRaw) : option block :=
  fill_leaf (write_header zero_block
               (mkHeader BTREE_NODE_MAGIC BTREE_LEAF 0 (u16 (zlen es)) 0)) 0 es.

Definition split_leaf (buf : block) (hdr : BTreeNodeHeader) (new : BTreeEntryRaw)
  : M T FsError (Z * Z * list byte) :=
  entries ← of_opt (merged_entries buf (Z.to_nat (num_entries hdr)) 0 new false []);
  let mid := Z.to_nat ((num_entries hdr + 1) / 2) in
  left_block ← alloc1;
  right_block ← alloc1;
  left_buf ← of_opt (leaf_of (take mid entries));
  _ ← on_fst (write_node left_block left_buf);
  right_buf ← of_opt (leaf_of (drop mid entries));
  _ ← on_fst (write_node right_block right_buf);
  m ← of_opt (entries !! mid);
  mret (left_block, right_block, hash m).

Fixpoint merged_keys (buf : block) (n : nat) (i : Z) (key : list byte) (left : Z)
  (inserted : bool) (acc : list (list byte * Z)) : option (list (list byte * Z)) :=
  match n with
  | O => Some (if inserted then acc else acc ++ [(key, left)])
  | S n =>
      k ← internal_key buf i;
      c ← internal_child buf i;
      if negb inserted && bytes_ltb key k
      then merged_keys buf n (i + 1) key left true (acc ++ [(key, left); (k, c)])
      else merged_keys buf n (i + 1) key left inserted (acc ++ [(k, c)])
  end.

(** [entries.iter().position(|e| e.key == key)] *)
Fixpoint position (key : list byte) (es : list (list byte * Z)) : option nat :=
  match es with
  | [] => None
  | (k, _) :: es => if bool_decide (k = key) then Some O else S <$> position key es
  end.

Definition internal_of (es : list (list byte * Z)) (right : Z) : option block :=
  fill_internal (write_header zero_block
                   (mkHeader BTREE_NODE_MAGIC BTREE_INTERNAL 0 (u16 (zlen es)) right)) 0 es.

Definition split_internal (buf : block) (hdr : BTreeNodeHeader)
  (key : list byte) (left right : Z) : M T FsError (Z * Z * list byte) :=
  entries ← of_opt (merged_keys buf (Z.to_nat (num_entries hdr)) 0 key left false []);
  pos ← of_opt (position key entries);
  '(entries, rightmost) ←
    (if bool_decide (pos = (length entries - 1)%nat) then mret (entries, right)
     else
       '(k, _) ← of_opt (entries !! S pos);
       mret (<[S pos := (k, right)]> entries, right_child hdr));
  let mid := (length entries / 2)%nat in
  '(promoted, mid_child) ← of_opt (entries !! mid);
  left_block ← alloc1;
  right_block ← alloc1;
  left_buf ← of_opt (internal_of (take mid entries) mid_child);
  _ ← on_fst (write_node left_block left_buf);
  right_buf ← of_opt (internal_of (drop (S mid) entries) rightmost);
  _ ← on_fst (write_node right_block right_buf);
  mret (left_block, right_block, promoted).

(** [for i in (pos..pos + k).rev()] of [fixup_path_split]: from [buf] into [new]. *)
Fixpoint shift_keys_up (buf new : block) (k : nat) (pos : Z) : option block :=
  match k with
  | O => Some new
  | S k =>
      let i := pos + Z.of_nat k in
      key ← internal_key buf i;
      child ← internal_child buf i;
      new ← set_internal_entry new (i + 1) key child;
      shift_keys_up buf new k pos
  end.

(** The parent with [(split_key, left)] inserted and [right] after it. *)
Definition add_key (buf : block) (hdr : BTreeNodeHeader) (left right : Z) (key : list byte)
  : option block :=
  let n := num_entries hdr in
  r ← first_key_above buf (Z.to_nat n) 0 key;
  match r with
  | None =>
      let hdr := with_right (with_count hdr (u16 (n + 1))) right in
      set_internal_entry (write_header buf hdr) n key left
  | Some pos =>
      new ← shift_keys_up buf buf (Z.to_nat (n - pos)) pos;
      new ← set_internal_entry new pos key left;
      new ← splice new (child_off (pos + 1)) (le64 right);
      Some (write_header new (with_count hdr (u16 (n + 1))))
  end.

Fixpoint fixup_path_split (path : list (Z * Z)) (left right : Z) (key : list byte)
  (old : list Z) : M T FsError (Z * list Z) :=
  match path with
  | [] =>
      root ← alloc1;
      buf ← of_opt (set_internal_entry
               (write_header zero_block
                  (mkHeader BTREE_NODE_MAGIC BTREE_INTERNAL 0 1 right)) 0 key left);
      _ ← on_fst (write_node root buf);
      mret (root, old)
  | (parent, _) :: path =>
      buf ← on_fst (read_node parent);
      let hdr := read_header buf in
      if num_entries hdr <? MAX_INTERNAL_KEYS then
        new_parent ← alloc1;
        new_buf ← of_opt (add_key buf hdr left right key);
        _ ← on_fst (write_node new_parent new_buf);
        fixup_path path new_parent (old ++ [parent])
      else
        '(l, r, k) ← split_internal buf hdr key left right;
        fixup_path_split path l r k (old ++ [parent])
  end.

(** ** Insertion *)
Fixpoint insert_loop (fuel : nat) (root : Z) (path : list (Z * Z)) (b : Z)
  (entry : BTreeEntryRaw) : M T FsError (Z * list Z * bool) :=
  match fuel with
  | O => panic
  | S fuel =>
      buf ← on_fst (read_node b);
      let hdr := read_header buf in
      if negb (magic hdr =? BTREE_NODE_MAGIC) then fail Corrupt
      else if node_type hdr =? BTREE_LEAF then
        found ← of_opt (find_hash buf (Z.to_nat (num_entries hdr)) 0 (hash entry));
        match found with
        | Some _ => mret (root, [], false)
        | None =>
            if num_entries hdr <? MAX_LEAF_ENTRIES then
              pos ← of_opt (find_leaf_insert_pos buf hdr (hash entry));
              new_block ← alloc1;
              new_buf ← of_opt (insert_leaf_entry buf hdr pos entry);
              _ ← on_fst (write_node new_block new_buf);
              '(root, frees) ← fixup_path path new_block [b];
              mret (root, frees, true)
            else
              '(lb, rb, split_key) ← split_leaf buf hdr entry;
              '(root, frees) ← fixup_path_split path lb rb split_key [b];
              mret (root, frees, true)
        end
      else if node_type hdr =? BTREE_INTERNAL then
        '(idx, child) ← of_opt (find_child_with_idx buf hdr (hash entry));
        if (MAX_TREE_DEPTH - 1 <=? length path)%nat then fail TreeTooDeep
        else insert_loop fuel root ((b, idx) :: path) child entry
      else fail Corrupt
  end.

(** ** Deletion *)

(** [for i in i..i + k] of [remove_from_parent]: from [buf] into [new]. *)
Fixpoint shift_keys_down (buf new : block) (k : nat) (i : Z) : option block :=
  match k with
  | O => Some new
  | S k =>
      key ← internal_key buf (u64 (i + 1));
      child ← internal_child buf (u64 (i + 1));
      new ← set_internal_entry new i key child;
      shift_keys_down buf new k (i + 1)
  end.

(** The parent without its child [idx]. *)
Definition drop_child (buf : block) (hdr : BTreeNodeHeader) (idx : Z) : option block :=
  let n := num_entries hdr in
  if idx <? n then
    new ← shift_keys_down buf buf (Z.to_nat (u64 (n - 1) - idx)) idx;
    Some (write_header new (with_count hdr (u16 (n - 1))))
  else
    last ← internal_child buf (u64 (n - 1));
    Some (write_header buf (with_count (with_right hdr last) (u16 (n - 1)))).

Definition remove_from_parent (path : list (Z * Z)) (old : list Z)
  : M T FsError (Z * list Z) :=
  match path with
  | [] => mret (0, old)
  | (parent, idx) :: path =>
      buf ← on_fst (read_node parent);
      let hdr := read_header buf in
      let n := num_entries hdr in
      if (n <=? 1) && bool_decide (path = []) then
        remaining ← (if idx =? 0 then mret (if 0 <? n then right_child hdr else 0)
                     else of_opt (internal_child buf 0));
        mret (remaining, old ++ [parent])
      else
        new_parent ← alloc1;
        new_buf ← of_opt (drop_child buf hdr idx);
        _ ← on_fst (write_node new_parent new_buf);
        fixup_path path new_parent (old ++ [parent])
  end.

Fixpoint delete_loop (fuel : nat) (path : list (Z * Z)) (b : Z) (key : list byte)
  : M T FsError (Z * list Z) :=
  match fuel with
  | O => panic
  | S fuel =>
      buf ← on_fst (read_node b);
      let hdr := read_header buf in
      if negb (magic hdr =? BTREE_NODE_MAGIC) then fail Corrupt
      else if node_type hdr =? BTREE_LEAF then
        found ← of_opt (find_hash buf (Z.to_nat (num_entries hdr)) 0 key);
        '(pos, _) ← ok_or ObjectNotFound found;
        if (num_entries hdr =? 1) && negb (bool_decide (path = []))
        then remove_from_parent path [b]
        else
          new_block ← alloc1;
          new_buf ← of_opt (remove_leaf_entry buf hdr pos);
          _ ← on_fst (write_node new_block new_buf);
          if bool_decide (path = []) && (num_entries hdr =? 1) then mret (0, [b])
          else fixup_path path new_block [b]
      else if node_type hdr =? BTREE_INTERNAL then
        '(idx, child) ← of_opt (find_child_with_idx buf hdr key);
        if (MAX_TREE_DEPTH - 1 <=? length path)%nat then fail TreeTooDeep
        else delete_loop fuel ((b, idx) :: path) child key
      else fail Corrupt
  end.

(** ** The tolerant walk *)
Inductive Reason :=
  | TooDeep | VisitedTwice | FailsChecksum | Unreadable | BadMagic | BadType.

Inductive Walk :=
  | Entry (e : BTreeEntryRaw)
  | Child (b : Z)
  | Skip (b : Z) (why : Reason).

(** [for i in i..i + n] *)
Fixpoint walk_entries (buf : block) (n : nat) (i : Z) : option (list BTreeEntryRaw) :=
  match n with
  | O => Some []
  | S n => e ← leaf_entry buf i; es ← walk_entries buf n (i + 1); Some (e :: es)
  end.
Fixpoint walk_children (buf : block) (n : nat) (i : Z) : option (list Z) :=
  match n with
  | O => Some []
  | S n => c ← internal_child buf i; cs ← walk_children buf n (i + 1); Some (c :: cs)
  end.

(** What one node contributes: what is reported, and the children to visit. *)
Definition visit (buf : block) (b : Z) : option (list Walk * list Z) :=
  let hdr := read_header buf in
  if negb (magic hdr =? BTREE_NODE_MAGIC) then Some ([Skip b BadMagic], [])
  else if node_type hdr =? BTREE_LEAF then
    es ← walk_entries buf (Z.to_nat (Z.min (num_entries hdr) MAX_LEAF_ENTRIES)) 0;
    Some (map Entry es, [])
  else if node_type hdr =? BTREE_INTERNAL then
    cs ← walk_children buf (Z.to_nat (Z.min (num_entries hdr) MAX_INTERNAL_KEYS)) 0;
    let children := List.filter (λ c, negb (c =? 0)) (cs ++ [right_child hdr]) in
    Some (map Child children, children)
  else Some ([Skip b BadType], []).

(** [todo] is the work stack, its top first. *)
Fixpoint walk_loop (fuel : nat) (todo : list (Z * Z)) (seen : gset Z) (out : list Walk)
  : M C FsError (list Walk) := λ c,
  match todo with
  | [] => (Ok out, c)
  | (b, depth) :: todo =>
      match fuel with
      | O => (Panic, c)
      | S fuel =>
          if 64 <? depth then walk_loop fuel todo seen (out ++ [Skip b TooDeep]) c
          else if bool_decide (b ∈ seen)
          then walk_loop fuel todo seen (out ++ [Skip b VisitedTwice]) c
          else
            let seen := {[b]} ∪ seen in
            match read_node b c with
            | (Ok buf, c) =>
                match visit buf b with
                | Some (ws, children) =>
                    walk_loop fuel (map (λ x, (x, depth + 1)) children ++ todo) seen
                      (out ++ ws) c
                | None => (Panic, c)
                end
            | (Err Corrupt, c) => walk_loop fuel todo seen (out ++ [Skip b FailsChecksum]) c
            | (Err _, c) => walk_loop fuel todo seen (out ++ [Skip b Unreadable]) c
            | (Panic, c) => (Panic, c)
            end
      end
  end.

Definition walk (fuel : nat) (root depth : Z) : M C FsError (list Walk) :=
  walk_loop fuel [(root, depth)] ∅ [].

(** The entries [iter_all] hands to its callback, in order. *)
Definition entries_of (ws : list Walk) : list BTreeEntryRaw :=
  omap (λ w, match w with Entry e => Some e | _ => None end) ws.

Definition iter_all (fuel : nat) (root : Z) : M C FsError (list BTreeEntryRaw) :=
  if root =? 0 then mret [] else entries_of <$> walk fuel root 0.

Definition children_of (ws : list Walk) : list Z :=
  omap (λ w, match w with Child b => Some b | _ => None end) ws.
Definition skips_of (ws : list Walk) : list (Z * Reason) :=
  omap (λ w, match w with Skip b r => Some (b, r) | _ => None end) ws.

(** Node blocks, entries, and nodes that could not be walked. *)
Definition collect_for_fsck (fuel : nat) (root : Z)
  : M C FsError (list Z * list BTreeEntryRaw * list (Z * Reason)) :=
  if root =? 0 then mret ([], [], [])
  else
    ws ← walk fuel root 0;
    mret (root :: children_of ws, entries_of ws, skips_of ws).
End btree.

(** ** The public operations *)
Module Btree.
Section api.
Context (blake3 : list byte → list byte).
Context {C : Type} `{!BlockStore C}.

Definition lookup (root : Z) (key : list byte) : M C FsError (option BTreeEntryRaw) :=
  if root =? 0 then mret None else lookup_loop blake3 MAX_TREE_DEPTH root key.

Definition insert (root : Z) (entry : BTreeEntryRaw) : M (C * Bitmap.t) FsError (Z * list Z * bool) :=
  if root =? 0 then
    new_block ← alloc1;
    let hdr := with_count (read_header make_empty_leaf) 1 in
    buf ← of_opt (set_leaf_entry (write_header make_empty_leaf hdr) 0 entry);
    _ ← on_fst (write_node blake3 new_block buf);
    mret (new_block, [], true)
  else insert_loop blake3 MAX_TREE_DEPTH root [] root entry.

Definition delete (root : Z) (key : list byte) : M (C * Bitmap.t) FsError (Z * list Z) :=
  if root =? 0 then fail ObjectNotFound else delete_loop blake3 MAX_TREE_DEPTH [] root key.
End api.
End Btree.
