(* ===== verification/BtreeNodeSpec.v ===== *)
(** * What the node operations do to a node's entries

    [leaf_is buf es] and [internal_is buf kcs r]: the block [buf] is a leaf with
    the entries [es], or an internal node with the key/child pairs [kcs] and the
    rightmost child [r].  Every block with the node magic and a known type is one
    of the two, and each operation of BtreeNode.v acts on the list as the list
    operation it means to be. *)

From S2P Require Import Prelude Bytes Format BtreeNode Btree.

#[global] Arguments read_header : simpl never.
#[global] Arguments write_header : simpl never.
#[global] Arguments raw_sub : simpl never.
#[global] Arguments raw_splice : simpl never.

(** ** Buffers *)
Section buffers.
Context {A : Type}.
Implicit Types buf xs ys : list A.

Lemma raw_splice_app buf a xs b ys :
  b = a + zlen xs → 0 ≤ a → b + zlen ys ≤ zlen buf →
  raw_splice (raw_splice buf a xs) b ys = raw_splice buf a (xs ++ ys).
Proof.
  intros -> Ha Hl. pose proof (zlen_nonneg xs). pose proof (zlen_nonneg ys).
  apply list_eq. intros i. rewrite !lookup_raw_splice; rewrite ?zlen_app, ?zlen_raw_splice; try lia.
  repeat case_decide; try lia.
  - rewrite lookup_app_r by (unfold zlen in *; lia). f_equal. unfold zlen. lia.
  - rewrite lookup_app_l by (unfold zlen in *; lia). done.
  - done.
Qed.

Lemma raw_sub_sub buf a n b m : 0 ≤ a → 0 ≤ b → b + m ≤ n →
  raw_sub (raw_sub buf a n) b m = raw_sub buf (a + b) m.
Proof.
  intros. apply list_eq. intros i. rewrite !lookup_raw_sub by lia.
  case_decide; [|done]. rewrite decide_True by lia. f_equal. lia.
Qed.

Lemma raw_sub_all buf n : n = zlen buf → raw_sub buf 0 n = buf.
Proof. intros ->. unfold raw_sub, zlen. rewrite drop_0, Nat2Z.id. by apply firstn_all2. Qed.
End buffers.

(** ** Headers *)
Definition H (buf : block) : list byte := raw_sub buf 0 NODE_HEADER_SIZE.

Definition header_bytes (h : BTreeNodeHeader) : list byte :=
  le32 (magic h) ++ [byte_of (node_type h)] ++ [byte_of (hdr_pad h)] ++ le16 (num_entries h) ++
  le64 (right_child h).

Record header_wf (h : BTreeNodeHeader) : Prop := {
  hw_magic : fits 32 (magic h);
  hw_type : fits 8 (node_type h);
  hw_pad : fits 8 (hdr_pad h);
  hw_num : fits 16 (num_entries h);
  hw_right : fits 64 (right_child h);
}.

Lemma write_header_splice buf h : is_block buf →
  write_header buf h = raw_splice buf 0 (header_bytes h).
Proof.
  unfold is_block. intros Hb. unfold write_header, header_bytes.
  rewrite (raw_splice_app buf 0 _ 4), (raw_splice_app buf 0 _ 5), (raw_splice_app buf 0 _ 6),
    (raw_splice_app buf 0 _ 8) by (rewrite ?Hb; reflexivity || (vm_compute; discriminate)).
  by rewrite <- !app_assoc.
Qed.

Lemma zlen_header_bytes h : zlen (header_bytes h) = NODE_HEADER_SIZE.
Proof. reflexivity. Qed.

Lemma write_header_block buf h : is_block buf → is_block (write_header buf h).
Proof.
  intros Hb. rewrite write_header_splice by done. unfold is_block in *.
  rewrite zlen_raw_splice; [done|lia|]. rewrite zlen_header_bytes, Hb. done.
Qed.

Lemma H_write_header buf h : is_block buf → H (write_header buf h) = header_bytes h.
Proof.
  intros Hb. rewrite write_header_splice by done. unfold H. rewrite <- (zlen_header_bytes h).
  apply sub_splice_same; [lia|]. rewrite zlen_header_bytes. unfold is_block in Hb. rewrite Hb. done.
Qed.

Lemma sub_write_header buf h a n : is_block buf → NODE_HEADER_SIZE ≤ a →
  raw_sub (write_header buf h) a n = raw_sub buf a n.
Proof.
  intros Hb Ha. rewrite write_header_splice by done. unfold is_block, NODE_HEADER_SIZE in *.
  apply sub_splice_disjoint; rewrite ?zlen_header_bytes, ?Hb; unfold NODE_HEADER_SIZE, BLOCK_SIZE; lia.
Qed.

Lemma read_header_H buf : read_header buf = read_header (H buf).
Proof.
  unfold read_header, H, byte_at. rewrite !raw_sub_sub by (unfold NODE_HEADER_SIZE; lia).
  assert (∀ i : nat, (i < 16)%nat → raw_sub buf 0 NODE_HEADER_SIZE !! i = buf !! i) as E.
  { intros i Hi. rewrite lookup_raw_sub by lia. by rewrite decide_True by (unfold NODE_HEADER_SIZE; lia). }
  rewrite !E by lia. done.
Qed.

Lemma byte_of_fits z : fits 8 z → bval (byte_of z) = z.
Proof. intros [??]. rewrite bval_byte_of. apply Z.mod_small. lia. Qed.

(** What was written, with the count clamped to the node's capacity. *)
Lemma read_header_of buf h : header_wf h → H buf = header_bytes h →
  read_header buf = with_count h (Z.min (num_entries h) (node_cap (node_type h))).
Proof.
  intros [] E. rewrite read_header_H, E. destruct h as [m ty p n r]. simpl in *.
  unfold read_header.
  assert (byte_at (header_bytes (mkHeader m ty p n r)) 4 = ty) as ->
    by (transitivity (bval (byte_of ty)); [reflexivity|by apply byte_of_fits]).
  assert (byte_at (header_bytes (mkHeader m ty p n r)) 5 = p) as ->
    by (transitivity (bval (byte_of p)); [reflexivity|by apply byte_of_fits]).
  change (raw_sub (header_bytes (mkHeader m ty p n r)) 0 4) with (le32 m).
  change (raw_sub (header_bytes (mkHeader m ty p n r)) 6 2) with (le16 n).
  change (raw_sub (header_bytes (mkHeader m ty p n r)) 8 8) with (le64 r).
  rewrite of_le32, of_le16, of_le64 by done. done.
Qed.

Lemma zlen_H buf : is_block buf → zlen (H buf) = NODE_HEADER_SIZE.
Proof. unfold is_block, H. intros Hb. apply zlen_raw_sub; rewrite ?Hb; done. Qed.

Lemma node_cap_range ty : 0 ≤ node_cap ty ≤ 101.
Proof. unfold node_cap. repeat case_match; done. Qed.

Lemma read_header_wf buf : is_block buf → header_wf (read_header buf).
Proof.
  unfold is_block. intros Hb. pose proof (node_cap_range (byte_at buf 4)).
  assert (∀ a n, 0 ≤ a → 0 ≤ n → a + n ≤ 16 → 0 ≤ of_le (raw_sub buf a n) < 256 ^ n) as Hr.
  { intros a n ???. pose proof (of_le_range (raw_sub buf a n)) as Hr.
    rewrite zlen_raw_sub in Hr by (rewrite ?Hb; unfold BLOCK_SIZE; lia). done. }
  unfold read_header, fits. split; simpl; unfold fits.
  - pose proof (Hr 0 4). lia.
  - apply bval_range.
  - apply bval_range.
  - pose proof (Hr 6 2 ltac:(lia) ltac:(lia) ltac:(lia)). lia.
  - pose proof (Hr 8 8). lia.
Qed.

(** ** Slots *)
Definition slot (w : Z) (buf : block) (i : Z) : list byte := raw_sub buf (NODE_HEADER_SIZE + i * w) w.

Lemma slot_splice w buf i x : is_block buf → 0 ≤ i → 0 < w →
  NODE_HEADER_SIZE + (i + 1) * w ≤ BLOCK_SIZE → zlen x = w →
  let buf' := raw_splice buf (NODE_HEADER_SIZE + i * w) x in
  is_block buf' ∧ H buf' = H buf ∧
  ∀ j, 0 ≤ j → slot w buf' j = if decide (j = i) then x else slot w buf j.
Proof.
  intros Hb Hi Hw Hle Hx buf'. unfold is_block, NODE_HEADER_SIZE in *.
  assert (0 ≤ i * w) by nia.
  split_and!.
  - unfold buf'. rewrite zlen_raw_splice; lia.
  - unfold H, buf', NODE_HEADER_SIZE. apply sub_splice_disjoint; lia.
  - intros j Hj. unfold slot, buf', NODE_HEADER_SIZE. case_decide as E.
    + subst j. rewrite <- Hx at 3. apply sub_splice_same; lia.
    + apply sub_splice_disjoint; nia.
Qed.

Lemma zlen_slot w buf i : is_block buf → 0 ≤ i → 0 ≤ w →
  NODE_HEADER_SIZE + (i + 1) * w ≤ BLOCK_SIZE → zlen (slot w buf i) = w.
Proof.
  unfold is_block, slot, NODE_HEADER_SIZE. intros. apply zlen_raw_sub; nia.
Qed.

Lemma slot_write_header w buf h i : is_block buf → 0 ≤ i → 0 ≤ w →
  slot w (write_header buf h) i = slot w buf i.
Proof. intros. unfold slot. apply sub_write_header; [done|nia]. Qed.

(** ** Leaf entries *)
Lemma leaf_off_small i : 0 ≤ i < MAX_LEAF_ENTRIES →
  leaf_off i = NODE_HEADER_SIZE + i * LEAF_ENTRY_SIZE ∧
  NODE_HEADER_SIZE + (i + 1) * LEAF_ENTRY_SIZE ≤ CHECKSUM_OFFSET.
Proof.
  intros [? Hi]. change MAX_LEAF_ENTRIES with 36 in Hi.
  change NODE_HEADER_SIZE with 16. change LEAF_ENTRY_SIZE with 112. change CHECKSUM_OFFSET with 4064.
  split; [|lia]. unfold leaf_off. apply wrap_small. unfold fits, NODE_HEADER_SIZE, LEAF_ENTRY_SIZE. lia.
Qed.

Notation lslot := (slot LEAF_ENTRY_SIZE).

Lemma zlen_lslot buf i : is_block buf → 0 ≤ i < MAX_LEAF_ENTRIES → length (lslot buf i) = 112%nat.
Proof.
  intros Hb Hi. destruct (leaf_off_small i Hi) as [_ Hle].
  assert (zlen (lslot buf i) = LEAF_ENTRY_SIZE) as E.
  { apply zlen_slot; try lia; try done. unfold CHECKSUM_OFFSET in Hle. lia. }
  by apply Nat2Z.inj.
Qed.

Lemma leaf_entry_slot buf i : is_block buf → 0 ≤ i < MAX_LEAF_ENTRIES →
  leaf_entry buf i = Some (entry_of (lslot buf i)).
Proof.
  intros Hb Hi. destruct (leaf_off_small i Hi) as [E Hle]. unfold leaf_entry. rewrite E.
  unfold is_block, CHECKSUM_OFFSET in *. unfold NODE_HEADER_SIZE, LEAF_ENTRY_SIZE in *.
  rewrite sub_Some by lia. done.
Qed.

Lemma set_leaf_entry_slot buf i e : is_block buf → 0 ≤ i < MAX_LEAF_ENTRIES → entry_wf e →
  ∃ buf', set_leaf_entry buf i e = Some buf' ∧ is_block buf' ∧ H buf' = H buf ∧
    ∀ j, 0 ≤ j → lslot buf' j = if decide (j = i) then entry_bytes e else lslot buf j.
Proof.
  intros Hb Hi He. destruct (leaf_off_small i Hi) as [E Hle].
  assert (zlen (entry_bytes e) = LEAF_ENTRY_SIZE) as Hl
    by (unfold zlen; by rewrite length_entry_bytes).
  unfold set_leaf_entry. rewrite E.
  destruct (slot_splice LEAF_ENTRY_SIZE buf i (entry_bytes e)) as (H1 & H2 & H3); try done; try lia.
  { unfold CHECKSUM_OFFSET in Hle. lia. }
  eexists. split_and!; [|done..].
  unfold is_block, CHECKSUM_OFFSET in *. unfold NODE_HEADER_SIZE, LEAF_ENTRY_SIZE in *.
  apply splice_Some; lia.
Qed.

(** ** Leaves *)
Record leaf_is (buf : block) (es : list BTreeEntryRaw) : Prop := {
  li_block : is_block buf;
  li_magic : magic (read_header buf) = BTREE_NODE_MAGIC;
  li_type : node_type (read_header buf) = BTREE_LEAF;
  li_num : num_entries (read_header buf) = zlen es;
  li_cap : zlen es ≤ MAX_LEAF_ENTRIES;
  li_wf : Forall entry_wf es;
  li_slots i e : es !! i = Some e → lslot buf (Z.of_nat i) = entry_bytes e;
}.

Lemma leaf_is_entry buf es i e : leaf_is buf es → es !! i = Some e →
  leaf_entry buf (Z.of_nat i) = Some e.
Proof.
  intros L Hi. pose proof (lookup_lt_Some _ _ _ Hi). pose proof (li_cap _ _ L). unfold zlen in *.
  rewrite leaf_entry_slot; [|apply L|lia].
  rewrite (li_slots _ _ L _ _ Hi). f_equal. apply entry_of_bytes.
  by eapply Forall_lookup_1; [apply L|].
Qed.

(** Every block that claims to be a leaf is one, whatever its bytes. *)
Lemma leaf_any buf : is_block buf → magic (read_header buf) = BTREE_NODE_MAGIC →
  node_type (read_header buf) = BTREE_LEAF → ∃ es, leaf_is buf es.
Proof.
  intros Hb Hm Ht. set (n := num_entries (read_header buf)).
  assert (0 ≤ n ≤ MAX_LEAF_ENTRIES) as Hn.
  { pose proof (hw_num _ (read_header_wf buf Hb)) as [? _]. split; [done|].
    unfold n, read_header in *. simpl in *. rewrite Ht. apply Z.le_min_r. }
  exists ((λ i : nat, entry_of (lslot buf (Z.of_nat i))) <$> seq 0 (Z.to_nat n)).
  assert (∀ i, 0 ≤ i < n → length (lslot buf i) = 112%nat) as Hl by (intros; apply zlen_lslot; [done|lia]).
  split; try done.
  - unfold zlen. rewrite length_fmap, length_seq. fold n. lia.
  - unfold zlen. rewrite length_fmap, length_seq. lia.
  - apply Forall_fmap, Forall_seq. intros j Hj. simpl. apply entry_of_wf, Hl. lia.
  - intros i e Hi. rewrite list_lookup_fmap in Hi. apply fmap_Some in Hi as (j & Hj & ->).
    apply lookup_seq in Hj as [-> Hj]. simpl. symmetry. apply entry_bytes_of, Hl. lia.
Qed.

(** ** Insertion into a list at an index *)
Definition ins {A} (p : nat) (x : A) (xs : list A) : list A := take p xs ++ x :: drop p xs.

Lemma length_ins {A} p (x : A) xs : length (ins p x xs) = S (length xs).
Proof. unfold ins. rewrite length_app, length_take. simpl. rewrite length_drop. lia. Qed.

Lemma lookup_ins {A} p (x : A) xs j : (p ≤ length xs)%nat →
  ins p x xs !! j = if decide (j < p)%nat then xs !! j
                    else if decide (j = p) then Some x else xs !! (j - 1)%nat.
Proof.
  intros Hp. unfold ins. case_decide.
  - rewrite lookup_app_l by (rewrite length_take; lia). by apply lookup_take_lt.
  - rewrite lookup_app_r by (rewrite length_take; lia). rewrite length_take, Nat.min_l by lia.
    case_decide as E; [by subst; rewrite Nat.sub_diag|].
    destruct (j - p)%nat as [|k] eqn:Ek; [lia|]. simpl. rewrite lookup_drop. f_equal. lia.
Qed.

Lemma elem_of_ins {A} p (x y : A) xs : y ∈ ins p x xs ↔ y = x ∨ y ∈ xs.
Proof.
  unfold ins. rewrite <- (take_drop p xs) at 3. rewrite !elem_of_app, elem_of_cons. tauto.
Qed.

Lemma Forall_ins {A} (P : A → Prop) p x xs : Forall P (ins p x xs) ↔ P x ∧ Forall P xs.
Proof. rewrite !Forall_forall. setoid_rewrite elem_of_ins. naive_solver. Qed.

(** ** Shifting leaf entries *)
Lemma shift_up_spec k buf pos : is_block buf → 0 ≤ pos → pos + Z.of_nat k < MAX_LEAF_ENTRIES →
  ∃ buf', shift_up buf k pos = Some buf' ∧ is_block buf' ∧ H buf' = H buf ∧
    ∀ j, 0 ≤ j → lslot buf' j =
      if decide (pos < j ≤ pos + Z.of_nat k) then lslot buf (j - 1) else lslot buf j.
Proof.
  revert buf. induction k as [|k IH]; intros buf Hb Hp Hk; cbn [shift_up].
  { exists buf. split_and!; try done. intros. by rewrite decide_False by lia. }
  rewrite leaf_entry_slot by (done || lia). cbn [mbind option_bind].
  destruct (set_leaf_entry_slot buf (pos + Z.of_nat k + 1) (entry_of (lslot buf (pos + Z.of_nat k))))
    as (buf1 & -> & Hb1 & H1 & Hs1); [done|lia|apply entry_of_wf, zlen_lslot; done || lia|].
  cbn [mbind option_bind]. destruct (IH buf1) as (buf' & -> & Hb' & H' & Hs'); [done|done|lia|].
  exists buf'. split_and!; try done; [congruence|]. intros j Hj. rewrite Hs' by done.
  rewrite entry_bytes_of in Hs1 by (apply zlen_lslot; done || lia).
  repeat case_decide; try lia; rewrite ?Hs1 by lia; repeat case_decide; try lia; try done.
  f_equal. lia.
Qed.

Lemma shift_down_spec k buf i : is_block buf → 0 ≤ i → i + Z.of_nat k < MAX_LEAF_ENTRIES →
  ∃ buf', shift_down buf k i = Some buf' ∧ is_block buf' ∧ H buf' = H buf ∧
    ∀ j, 0 ≤ j → lslot buf' j =
      if decide (i ≤ j < i + Z.of_nat k) then lslot buf (j + 1) else lslot buf j.
Proof.
  revert buf i. induction k as [|k IH]; intros buf i Hb Hp Hk; cbn [shift_down].
  { exists buf. split_and!; try done. intros. by rewrite decide_False by lia. }
  rewrite leaf_entry_slot by (done || lia). cbn [mbind option_bind].
  destruct (set_leaf_entry_slot buf i (entry_of (lslot buf (i + 1))))
    as (buf1 & -> & Hb1 & H1 & Hs1); [done|lia|apply entry_of_wf, zlen_lslot; done || lia|].
  cbn [mbind option_bind]. destruct (IH buf1 (i + 1)) as (buf' & -> & Hb' & H' & Hs'); [done|lia|lia|].
  exists buf'. split_and!; try done; [congruence|]. intros j Hj. rewrite Hs' by done.
  rewrite entry_bytes_of in Hs1 by (apply zlen_lslot; done || lia).
  repeat case_decide; try lia; rewrite ?Hs1 by lia; repeat case_decide; try lia; try done.
  f_equal. lia.
Qed.

(** ** Leaves after an operation *)
Lemma leaf_is_header buf0 es0 buf es n :
  leaf_is buf0 es0 → is_block buf → n = zlen es → zlen es ≤ MAX_LEAF_ENTRIES → Forall entry_wf es →
  (∀ i e, es !! i = Some e → lslot buf (Z.of_nat i) = entry_bytes e) →
  leaf_is (write_header buf (with_count (read_header buf0) n)) es.
Proof.
  intros L Hb -> Hc Hw Hs. pose proof (zlen_nonneg es).
  pose proof (read_header_wf _ (li_block _ _ L)) as Hwf.
  assert (read_header (write_header buf (with_count (read_header buf0) (zlen es))) =
          with_count (read_header buf0) (zlen es)) as E.
  { rewrite (read_header_of _ (with_count (read_header buf0) (zlen es))).
    - unfold with_count. cbn [magic node_type hdr_pad num_entries right_child]. rewrite (li_type _ _ L). unfold node_cap. simpl.
      by rewrite Z.min_l by done.
    - destruct Hwf. split; simpl; try done. unfold fits. change MAX_LEAF_ENTRIES with 36 in Hc. lia.
    - by apply H_write_header. }
  split; rewrite ?E; simpl; try done; try apply L.
  - by apply write_header_block.
  - intros i e Hi. rewrite slot_write_header; [by apply Hs|done|lia|done].
Qed.

Lemma insert_leaf_entry_spec buf es p e :
  leaf_is buf es → zlen es < MAX_LEAF_ENTRIES → (p ≤ length es)%nat → entry_wf e →
  ∃ buf', insert_leaf_entry buf (read_header buf) (Z.of_nat p) e = Some buf' ∧
    leaf_is buf' (ins p e es).
Proof.
  intros L Hc Hp He. pose proof (li_block _ _ L) as Hb. unfold insert_leaf_entry.
  rewrite (li_num _ _ L). replace (Z.to_nat (zlen es - Z.of_nat p)) with (length es - p)%nat
    by (unfold zlen; lia).
  destruct (shift_up_spec (length es - p) buf (Z.of_nat p)) as (b1 & -> & Hb1 & H1 & Hs1);
    [done|lia|unfold zlen in *; lia|]. cbn [mbind option_bind].
  destruct (set_leaf_entry_slot b1 (Z.of_nat p) e) as (b2 & -> & Hb2 & H2 & Hs2);
    [done|unfold zlen in *; lia|done|]. cbn [mbind option_bind]. eexists. split; [done|].
  rewrite wrap_small by (unfold fits; change MAX_LEAF_ENTRIES with 36 in Hc; pose proof (zlen_nonneg es); lia).
  eapply leaf_is_header; [done|done| | | |].
  - unfold zlen. rewrite length_ins. lia.
  - unfold zlen in *. rewrite length_ins. lia.
  - apply Forall_ins. split; [done|apply L].
  - intros i x Hi. rewrite lookup_ins in Hi by done. rewrite Hs2 by lia.
    repeat case_decide; try lia; simplify_eq; try done; rewrite Hs1 by lia.
    + rewrite decide_False by lia. by apply L.
    + pose proof (lookup_lt_Some _ _ _ Hi). rewrite decide_True by lia.
      replace (Z.of_nat i - 1) with (Z.of_nat (i - 1)) by lia. by apply L.
Qed.

Lemma remove_leaf_entry_spec buf es p :
  leaf_is buf es → (p < length es)%nat →
  ∃ buf', remove_leaf_entry buf (read_header buf) (Z.of_nat p) = Some buf' ∧
    leaf_is buf' (delete p es).
Proof.
  intros L Hp. pose proof (li_block _ _ L) as Hb. pose proof (li_cap _ _ L) as Hc.
  change MAX_LEAF_ENTRIES with 36 in Hc. unfold remove_leaf_entry.
  rewrite (li_num _ _ L). rewrite (wrap_small 64) by (unfold fits, zlen in *; lia).
  replace (Z.to_nat (zlen es - 1 - Z.of_nat p)) with (length es - 1 - p)%nat by (unfold zlen; lia).
  destruct (shift_down_spec (length es - 1 - p) buf (Z.of_nat p)) as (b1 & -> & Hb1 & H1 & Hs1);
    [done|lia|change MAX_LEAF_ENTRIES with 36; unfold zlen in *; lia|]. cbn [mbind option_bind].
  eexists. split; [done|]. rewrite wrap_small by (unfold fits, zlen in *; lia).
  assert (length (delete p es) = (length es - 1)%nat) as Hl
    by (rewrite length_delete; [lia|by apply lookup_lt_is_Some_2]).
  eapply leaf_is_header; [done|done| | | |].
  - unfold zlen. rewrite Hl. lia.
  - change MAX_LEAF_ENTRIES with 36. unfold zlen in *. rewrite Hl. lia.
  - apply Forall_delete, L.
  - intros i x Hi. pose proof (lookup_lt_Some _ _ _ Hi). rewrite Hs1 by lia.
    destruct (decide (i < p)%nat).
    + rewrite list_lookup_delete_lt in Hi by done. rewrite decide_False by lia. by apply L.
    + rewrite list_lookup_delete_ge in Hi by lia. rewrite decide_True by lia.
      replace (Z.of_nat i + 1) with (Z.of_nat (S i)) by lia. by apply L.
Qed.

(** ** Searching a leaf *)
Fixpoint ipos (k : list byte) (es : list BTreeEntryRaw) : nat :=
  match es with
  | [] => 0
  | e :: es => if bytes_ltb k (hash e) then 0 else S (ipos k es)
  end.

Lemma ipos_le k es : (ipos k es ≤ length es)%nat.
Proof. induction es; simpl; [done|]. case_match; lia. Qed.

Definition has_hash (k : list byte) (e : BTreeEntryRaw) : Prop := hash e = k.
#[global] Instance has_hash_dec k e : Decision (has_hash k e) := decide (hash e = k).

Lemma leaf_is_split buf es1 e es2 : leaf_is buf (es1 ++ e :: es2) →
  leaf_entry buf (zlen es1) = Some e.
Proof. intros L. unfold zlen. eapply leaf_is_entry; [done|]. by apply list_lookup_middle. Qed.

Lemma find_hash_from buf es1 es2 k : leaf_is buf (es1 ++ es2) →
  find_hash buf (length es2) (zlen es1) k =
    Some ((λ x : nat * BTreeEntryRaw, (zlen es1 + Z.of_nat x.1, x.2)) <$> list_find (has_hash k) es2).
Proof.
  revert es1. induction es2 as [|e es2 IH]; intros es1 L; [done|].
  cbn [length find_hash list_find]. rewrite (leaf_is_split _ _ _ _ L). cbn [mbind option_bind].
  case_bool_decide as E.
  { rewrite decide_True by done. simpl. by rewrite Z.add_0_r. }
  rewrite decide_False by done.
  replace (es1 ++ e :: es2) with ((es1 ++ [e]) ++ es2) in L by (by rewrite <- app_assoc).
  specialize (IH _ L). rewrite zlen_app in IH. change (zlen [e]) with 1 in IH. rewrite IH.
  destruct (list_find _ es2) as [[j x]|]; simpl; [do 3 f_equal; lia|done].
Qed.

Lemma find_hash_spec buf es k : leaf_is buf es →
  find_hash buf (Z.to_nat (num_entries (read_header buf))) 0 k =
    Some ((λ x : nat * BTreeEntryRaw, (Z.of_nat x.1, x.2)) <$> list_find (has_hash k) es).
Proof.
  intros L. rewrite (li_num _ _ L). unfold zlen. rewrite Nat2Z.id.
  apply (find_hash_from buf [] es k L).
Qed.

Lemma leaf_pos_from buf es1 es2 k : leaf_is buf (es1 ++ es2) →
  leaf_pos buf (length es2) (zlen es1) k = Some (zlen es1 + Z.of_nat (ipos k es2)).
Proof.
  revert es1. induction es2 as [|e es2 IH]; intros es1 L; cbn [length leaf_pos ipos].
  { f_equal. lia. }
  rewrite (leaf_is_split _ _ _ _ L). cbn [mbind option_bind]. case_match; [f_equal; lia|].
  replace (es1 ++ e :: es2) with ((es1 ++ [e]) ++ es2) in L by (by rewrite <- app_assoc).
  specialize (IH _ L). rewrite zlen_app in IH. change (zlen [e]) with 1 in IH. rewrite IH.
  f_equal. lia.
Qed.

Lemma find_leaf_insert_pos_spec buf es k : leaf_is buf es →
  find_leaf_insert_pos buf (read_header buf) k = Some (Z.of_nat (ipos k es)).
Proof.
  intros L. unfold find_leaf_insert_pos. rewrite (li_num _ _ L). unfold zlen. rewrite Nat2Z.id.
  apply (leaf_pos_from buf [] es k L).
Qed.

(** ** Building leaves *)
Lemma merged_entries_from buf es1 es2 new ins_ acc : leaf_is buf (es1 ++ es2) →
  merged_entries buf (length es2) (zlen es1) new ins_ acc =
    Some (acc ++ if ins_ : bool then es2 else ins (ipos (hash new) es2) new es2).
Proof.
  revert es1 ins_ acc. induction es2 as [|e es2 IH]; intros es1 ins_ acc L.
  { cbn [length merged_entries]. destruct ins_; [by rewrite app_nil_r|done]. }
  cbn [length merged_entries ipos]. rewrite (leaf_is_split _ _ _ _ L). cbn [mbind option_bind].
  replace (es1 ++ e :: es2) with ((es1 ++ [e]) ++ es2) in L by (by rewrite <- app_assoc).
  pose proof (λ b a, IH _ b a L) as IH'. rewrite zlen_app in IH'. change (zlen [e]) with 1 in IH'.
  destruct ins_; simpl negb; cbn [andb].
  { rewrite IH'. by rewrite <- app_assoc. }
  destruct (bytes_ltb (hash new) (hash e)); rewrite IH', <- app_assoc; done.
Qed.

Lemma merged_entries_spec buf es new : leaf_is buf es →
  merged_entries buf (Z.to_nat (num_entries (read_header buf))) 0 new false [] =
    Some (ins (ipos (hash new) es) new es).
Proof.
  intros L. rewrite (li_num _ _ L). unfold zlen. rewrite Nat2Z.id.
  apply (merged_entries_from buf [] es new false [] L).
Qed.

Lemma fill_leaf_spec es buf i : is_block buf → 0 ≤ i → i + zlen es ≤ MAX_LEAF_ENTRIES →
  Forall entry_wf es →
  ∃ buf', fill_leaf buf i es = Some buf' ∧ is_block buf' ∧ H buf' = H buf ∧
    (∀ j e, es !! j = Some e → lslot buf' (i + Z.of_nat j) = entry_bytes e) ∧
    (∀ j, 0 ≤ j < i → lslot buf' j = lslot buf j).
Proof.
  revert buf i. induction es as [|e es IH]; intros buf i Hb Hi Hc Hw; cbn [fill_leaf].
  { exists buf. by split_and!. }
  apply Forall_cons in Hw as [He Hw]. rewrite zlen_cons in Hc. pose proof (zlen_nonneg es).
  destruct (set_leaf_entry_slot buf i e) as (b1 & -> & Hb1 & H1 & Hs1); [done|lia|done|].
  cbn [mbind option_bind].
  destruct (IH b1 (i + 1)) as (b2 & -> & Hb2 & H2 & Hs2 & Hk2); [done|lia|lia|done|].
  exists b2. split_and!; try done; [congruence| |].
  - intros j x Hj. destruct j as [|j]; simpl in Hj.
    + injection Hj as ->. rewrite Hk2 by lia. rewrite Hs1 by lia. by rewrite decide_True by lia.
    + replace (i + Z.of_nat (S j)) with (i + 1 + Z.of_nat j) by lia. by apply Hs2.
  - intros j Hj. rewrite Hk2 by lia. rewrite Hs1 by lia. by rewrite decide_False by lia.
Qed.

Lemma zero_block_block : is_block zero_block.
Proof. unfold is_block, zero_block. by rewrite zlen_replicate. Qed.

Lemma leaf_of_spec es : zlen es ≤ MAX_LEAF_ENTRIES → Forall entry_wf es →
  ∃ buf, leaf_of es = Some buf ∧ leaf_is buf es.
Proof.
  intros Hc Hw. unfold leaf_of. pose proof (zlen_nonneg es).
  set (h := mkHeader BTREE_NODE_MAGIC BTREE_LEAF 0 (u16 (zlen es)) 0).
  destruct (fill_leaf_spec es (write_header zero_block h) 0) as (buf & -> & Hb & HH & Hs & _);
    [by apply write_header_block, zero_block_block|lia|lia|done|].
  exists buf. split; [done|]. rewrite H_write_header in HH by apply zero_block_block.
  change MAX_LEAF_ENTRIES with 36 in Hc.
  assert (u16 (zlen es) = zlen es) as Hu by (apply wrap_small; unfold fits; lia).
  assert (read_header buf = h) as E.
  { rewrite (read_header_of _ h).
    - unfold h, with_count. simpl. rewrite Z.min_l by (rewrite Hu; unfold node_cap; simpl; done). done.
    - unfold h. split; simpl; rewrite ?Hu; unfold fits, BTREE_NODE_MAGIC, BTREE_LEAF; lia.
    - done. }
  split; rewrite ?E; done.
Qed.

(** ** Internal entries *)
Notation islot := (slot INTERNAL_ENTRY_SIZE).
Notation kc := (list byte * Z)%type.

Definition kc_bytes (x : kc) : list byte := x.1 ++ le64 x.2.
Definition kc_wf (x : kc) : Prop := length x.1 = 32%nat ∧ fits 64 x.2.

Lemma zlen_kc_bytes x : kc_wf x → zlen (kc_bytes x) = INTERNAL_ENTRY_SIZE.
Proof. intros [Hl _]. unfold kc_bytes. rewrite zlen_app. unfold zlen at 1. by rewrite Hl. Qed.

Lemma internal_off_small i : 0 ≤ i < MAX_INTERNAL_KEYS →
  internal_off i = NODE_HEADER_SIZE + i * INTERNAL_ENTRY_SIZE ∧
  child_off i = NODE_HEADER_SIZE + i * INTERNAL_ENTRY_SIZE + 32 ∧
  NODE_HEADER_SIZE + (i + 1) * INTERNAL_ENTRY_SIZE ≤ CHECKSUM_OFFSET.
Proof.
  intros [? Hi]. change MAX_INTERNAL_KEYS with 101 in Hi.
  unfold internal_off, child_off. change NODE_HEADER_SIZE with 16. change INTERNAL_ENTRY_SIZE with 40.
  change CHECKSUM_OFFSET with 4064. rewrite !wrap_small by (unfold fits; lia). lia.
Qed.

Lemma zlen_islot buf i : is_block buf → 0 ≤ i < MAX_INTERNAL_KEYS →
  zlen (islot buf i) = INTERNAL_ENTRY_SIZE.
Proof.
  intros Hb Hi. destruct (internal_off_small i Hi) as (_ & _ & Hle).
  apply zlen_slot; try done; try lia. unfold CHECKSUM_OFFSET in Hle. lia.
Qed.

Lemma internal_key_slot buf i : is_block buf → 0 ≤ i < MAX_INTERNAL_KEYS →
  internal_key buf i = Some (raw_sub (islot buf i) 0 32).
Proof.
  intros Hb Hi. destruct (internal_off_small i Hi) as (E & _ & Hle). unfold internal_key. rewrite E.
  unfold is_block, CHECKSUM_OFFSET in *. unfold slot.
  rewrite raw_sub_sub, Z.add_0_r by (unfold NODE_HEADER_SIZE, INTERNAL_ENTRY_SIZE in *; lia).
  apply sub_Some; unfold NODE_HEADER_SIZE, INTERNAL_ENTRY_SIZE in *; lia.
Qed.

Lemma internal_child_slot buf i : is_block buf → 0 ≤ i < MAX_INTERNAL_KEYS →
  internal_child buf i = Some (of_le (raw_sub (islot buf i) 32 8)).
Proof.
  intros Hb Hi. destruct (internal_off_small i Hi) as (_ & E & Hle). unfold internal_child. rewrite E.
  unfold is_block, CHECKSUM_OFFSET in *. unfold slot.
  rewrite raw_sub_sub by (unfold NODE_HEADER_SIZE, INTERNAL_ENTRY_SIZE in *; lia).
  rewrite sub_Some by (unfold NODE_HEADER_SIZE, INTERNAL_ENTRY_SIZE in *; lia). done.
Qed.

Definition kc_of (bs : list byte) : kc := (raw_sub bs 0 32, of_le (raw_sub bs 32 8)).

Lemma kc_of_wf bs : zlen bs = INTERNAL_ENTRY_SIZE → kc_wf (kc_of bs).
Proof.
  intros Hl. unfold INTERNAL_ENTRY_SIZE in Hl. split; simpl.
  - pose proof (zlen_raw_sub bs 0 32 ltac:(lia) ltac:(lia) ltac:(lia)) as E. unfold zlen in E. lia.
  - pose proof (zlen_raw_sub bs 32 8 ltac:(lia) ltac:(lia) ltac:(lia)) as E. unfold zlen in E.
    apply (of_le_fits 8). lia.
Qed.

Lemma kc_bytes_of bs : zlen bs = INTERNAL_ENTRY_SIZE → kc_bytes (kc_of bs) = bs.
Proof.
  intros Hl. unfold INTERNAL_ENTRY_SIZE in Hl. unfold kc_bytes, kc_of. simpl.
  pose proof (zlen_raw_sub bs 32 8 ltac:(lia) ltac:(lia) ltac:(lia)) as E. unfold zlen in *.
  unfold le64. rewrite le_bytes_of_le_n by lia. unfold raw_sub.
  change (Z.to_nat 0) with 0%nat. change (Z.to_nat 32) with 32%nat. rewrite drop_0.
  rewrite (take_ge (drop 32 bs)) by (rewrite length_drop; lia). apply take_drop.
Qed.

Lemma kc_of_bytes x : kc_wf x → kc_of (kc_bytes x) = x.
Proof.
  intros [Hl Hc]. destruct x as [k c]. unfold kc_of, kc_bytes. simpl in *.
  unfold raw_sub. change (Z.to_nat 0) with 0%nat. change (Z.to_nat 32) with 32%nat.
  rewrite drop_0. rewrite take_app_length' by done. rewrite drop_app_length' by done.
  rewrite take_ge by done. by rewrite of_le64.
Qed.

Lemma set_internal_entry_slot buf i k c : is_block buf → 0 ≤ i < MAX_INTERNAL_KEYS → kc_wf (k, c) →
  ∃ buf', set_internal_entry buf i k c = Some buf' ∧ is_block buf' ∧ H buf' = H buf ∧
    ∀ j, 0 ≤ j → islot buf' j = if decide (j = i) then kc_bytes (k, c) else islot buf j.
Proof.
  intros Hb Hi Hw. destruct (internal_off_small i Hi) as (E1 & E2 & Hle).
  pose proof (zlen_kc_bytes _ Hw) as Hl. destruct Hw as [Hk Hc]. simpl in *.
  unfold set_internal_entry. rewrite E1, E2.
  assert (zlen k = 32) as Hzk by (unfold zlen; lia).
  pose proof Hb as Hb'. unfold is_block, CHECKSUM_OFFSET in *.
  rewrite splice_Some by (unfold NODE_HEADER_SIZE, INTERNAL_ENTRY_SIZE in *; lia).
  cbn [mbind option_bind].
  rewrite splice_Some.
  2:{ unfold NODE_HEADER_SIZE, INTERNAL_ENTRY_SIZE in *; lia. }
  2:{ rewrite zlen_raw_splice, zlen_le64; unfold NODE_HEADER_SIZE, INTERNAL_ENTRY_SIZE in *; lia. }
  eexists. split; [done|].
  rewrite raw_splice_app by (rewrite ?zlen_le64, ?Hzk; unfold NODE_HEADER_SIZE, INTERNAL_ENTRY_SIZE in *; lia).
  change (k ++ le64 c) with (kc_bytes (k, c)).
  apply slot_splice; try done; lia.
Qed.

(** Replacing only the child. *)
Lemma set_child_slot buf i c : is_block buf → 0 ≤ i < MAX_INTERNAL_KEYS → fits 64 c →
  ∃ buf', splice buf (child_off i) (le64 c) = Some buf' ∧ is_block buf' ∧ H buf' = H buf ∧
    ∀ j, 0 ≤ j → islot buf' j =
      if decide (j = i) then kc_bytes (raw_sub (islot buf i) 0 32, c) else islot buf j.
Proof.
  intros Hb Hi Hc. destruct (internal_off_small i Hi) as (E1 & E2 & Hle).
  pose proof (zlen_islot buf i Hb Hi) as Hl.
  destruct (set_internal_entry_slot buf i (raw_sub (islot buf i) 0 32) c) as (b' & Hs & Hb' & HH & Hj);
    [done|done|by split; [apply kc_of_wf|]|].
  exists b'. split_and!; try done. rewrite <- Hs. unfold set_internal_entry. rewrite E1, E2.
  unfold INTERNAL_ENTRY_SIZE in Hl.
  assert (raw_sub (islot buf i) 0 32 = raw_sub buf (NODE_HEADER_SIZE + i * INTERNAL_ENTRY_SIZE) 32) as ->.
  { unfold slot. rewrite raw_sub_sub, Z.add_0_r by (unfold NODE_HEADER_SIZE, INTERNAL_ENTRY_SIZE; lia). done. }
  unfold is_block, CHECKSUM_OFFSET in *. unfold NODE_HEADER_SIZE, INTERNAL_ENTRY_SIZE in *.
  assert (zlen (raw_sub buf (16 + i * 40) 32) = 32) as Hz by (apply zlen_raw_sub; lia).
  rewrite (splice_Some buf (16 + i * 40)) by lia. cbn [mbind option_bind].
  f_equal. symmetry. apply list_eq. intros j.
  rewrite lookup_raw_splice by lia. case_decide; [|done].
  rewrite lookup_raw_sub by lia. rewrite decide_True by lia. f_equal. lia.
Qed.

(** ** Internal nodes

    [inode] says what the entries of a block are without its type: a parent is
    read again on the way up and only its count is used. *)
Record inode (buf : block) (kcs : list kc) (r : Z) : Prop := {
  in_block : is_block buf;
  in_num : num_entries (read_header buf) = zlen kcs;
  in_cap : zlen kcs ≤ MAX_INTERNAL_KEYS;
  in_right : right_child (read_header buf) = r;
  in_wf : Forall kc_wf kcs;
  in_slots i x : kcs !! i = Some x → islot buf (Z.of_nat i) = kc_bytes x;
}.

Definition internal_hdr (buf : block) : Prop :=
  magic (read_header buf) = BTREE_NODE_MAGIC ∧ node_type (read_header buf) = BTREE_INTERNAL.

Definition internal_is (buf : block) (kcs : list kc) (r : Z) : Prop :=
  internal_hdr buf ∧ inode buf kcs r.

Lemma inode_right_fits buf kcs r : inode buf kcs r → fits 64 r.
Proof. intros N. rewrite <- (in_right _ _ _ N). apply read_header_wf, N. Qed.

Lemma inode_any buf : is_block buf → ∃ kcs r, inode buf kcs r.
Proof.
  intros Hb. set (n := num_entries (read_header buf)).
  assert (0 ≤ n ≤ MAX_INTERNAL_KEYS) as Hn.
  { pose proof (hw_num _ (read_header_wf buf Hb)) as [? _]. split; [done|].
    unfold n, read_header in *. simpl. pose proof (node_cap_range (byte_at buf 4)).
    change MAX_INTERNAL_KEYS with 101. lia. }
  exists ((λ i : nat, kc_of (islot buf (Z.of_nat i))) <$> seq 0 (Z.to_nat n)), (right_child (read_header buf)).
  assert (∀ i, 0 ≤ i < n → zlen (islot buf i) = INTERNAL_ENTRY_SIZE) as Hl
    by (intros; apply zlen_islot; [done|lia]).
  split; try done.
  - unfold zlen. rewrite length_fmap, length_seq. fold n. lia.
  - unfold zlen. rewrite length_fmap, length_seq. lia.
  - apply Forall_fmap, Forall_seq. intros j Hj. simpl. apply kc_of_wf, Hl. lia.
  - intros i e Hi. rewrite list_lookup_fmap in Hi. apply fmap_Some in Hi as (j & Hj & ->).
    apply lookup_seq in Hj as [-> Hj]. simpl. symmetry. apply kc_bytes_of, Hl. lia.
Qed.

Lemma inode_lookup buf kcs r i k c : inode buf kcs r → kcs !! i = Some (k, c) →
  internal_key buf (Z.of_nat i) = Some k ∧ internal_child buf (Z.of_nat i) = Some c ∧ kc_wf (k, c).
Proof.
  intros N Hi. pose proof (lookup_lt_Some _ _ _ Hi). pose proof (in_cap _ _ _ N) as Hc.
  pose proof (in_block _ _ _ N) as Hb. unfold zlen in Hc.
  assert (kc_wf (k, c)) as Hw by (by eapply Forall_lookup_1; [apply N|]).
  pose proof (kc_of_bytes _ Hw) as E. rewrite <- (in_slots _ _ _ N _ _ Hi) in E. injection E as Ek Ec.
  rewrite internal_key_slot, internal_child_slot by (done || lia). rewrite Ek, Ec. done.
Qed.

(** ** Searching *)
Fixpoint kpos (k : list byte) (kcs : list kc) : nat :=
  match kcs with
  | [] => 0
  | (k', _) :: kcs => if bytes_ltb k k' then 0 else S (kpos k kcs)
  end.

Lemma kpos_le k kcs : (kpos k kcs ≤ length kcs)%nat.
Proof. induction kcs as [|[]]; simpl; [done|]. case_match; lia. Qed.

Definition child_at (kcs : list kc) (r : Z) (p : nat) : Z :=
  match kcs !! p with Some (_, c) => c | None => r end.

Lemma first_key_above_from buf r k kcs2 kcs1 : inode buf (kcs1 ++ kcs2) r →
  first_key_above buf (length kcs2) (zlen kcs1) k =
    Some (if decide (kpos k kcs2 < length kcs2)%nat then Some (zlen kcs1 + Z.of_nat (kpos k kcs2)) else None).
Proof.
  revert kcs1. induction kcs2 as [|[k' c] kcs2 IH]; intros kcs1 N; cbn [length first_key_above kpos].
  { by rewrite decide_False by lia. }
  destruct (inode_lookup _ _ _ (length kcs1) k' c N) as (Hk & _); [by apply list_lookup_middle|].
  change (Z.of_nat (length kcs1)) with (zlen kcs1) in Hk. rewrite Hk.
  cbn [mbind option_bind]. destruct (bytes_ltb k k').
  { rewrite decide_True by lia. do 2 f_equal. lia. }
  replace (kcs1 ++ (k', c) :: kcs2) with ((kcs1 ++ [(k', c)]) ++ kcs2) in N by (by rewrite <- app_assoc).
  specialize (IH _ N). rewrite zlen_app in IH. change (zlen [(k', c)]) with 1 in IH. rewrite IH.
  f_equal. repeat case_decide; try lia; [|done]. f_equal. lia.
Qed.

Lemma first_key_above_spec buf kcs r k : inode buf kcs r →
  first_key_above buf (Z.to_nat (num_entries (read_header buf))) 0 k =
    Some (if decide (kpos k kcs < length kcs)%nat then Some (Z.of_nat (kpos k kcs)) else None).
Proof.
  intros N. rewrite (in_num _ _ _ N). unfold zlen. rewrite Nat2Z.id.
  apply (first_key_above_from buf r k kcs [] N).
Qed.

Lemma find_child_spec buf kcs r k : inode buf kcs r →
  find_child_with_idx buf (read_header buf) k =
    Some (Z.of_nat (kpos k kcs), child_at kcs r (kpos k kcs)).
Proof.
  intros N. unfold find_child_with_idx. rewrite (first_key_above_spec _ _ _ _ N). cbn [mbind option_bind].
  unfold child_at. pose proof (kpos_le k kcs). case_decide.
  - destruct (lookup_lt_is_Some_2 kcs (kpos k kcs)) as [[k' c] E]; [done|]. rewrite E.
    destruct (inode_lookup _ _ _ _ _ _ N E) as (_ & -> & _). done.
  - rewrite lookup_ge_None_2 by lia. rewrite (in_num _ _ _ N), (in_right _ _ _ N).
    do 2 f_equal. unfold zlen. lia.
Qed.

Lemma child_at_fits buf kcs r p : inode buf kcs r → fits 64 (child_at kcs r p).
Proof.
  intros N. unfold child_at. destruct (kcs !! p) as [[k c]|] eqn:E; [|by eapply inode_right_fits].
  apply (Forall_lookup_1 _ _ _ _ (in_wf _ _ _ N) E).
Qed.

(** ** Rewriting headers and slots *)
Lemma internal_is_mk buf0 buf kcs r :
  internal_hdr buf0 → is_block buf0 → is_block buf →
  H buf = header_bytes (with_right (with_count (read_header buf0) (zlen kcs)) r) →
  zlen kcs ≤ MAX_INTERNAL_KEYS → Forall kc_wf kcs → fits 64 r →
  (∀ i x, kcs !! i = Some x → islot buf (Z.of_nat i) = kc_bytes x) →
  internal_is buf kcs r.
Proof.
  intros [Hm Ht] Hb0 Hb HH Hc Hw Hr Hs. pose proof (zlen_nonneg kcs).
  pose proof (read_header_wf _ Hb0) as Hwf.
  set (h := with_right (with_count (read_header buf0) (zlen kcs)) r) in *.
  assert (read_header buf = h) as E.
  { rewrite (read_header_of _ h); [|destruct Hwf; unfold h; split; simpl; try done|done].
    - unfold h, with_right, with_count. cbn [magic node_type hdr_pad num_entries right_child].
      rewrite Ht. unfold node_cap. simpl. by rewrite Z.min_l by done.
    - unfold fits. change MAX_INTERNAL_KEYS with 101 in Hc. lia. }
  split; [by split; rewrite E|]. by split; rewrite ?E.
Qed.

Lemma with_right_same h n : with_count h n = with_right (with_count h n) (right_child h).
Proof. done. Qed.

Lemma read_header_same buf buf' : H buf' = H buf → read_header buf' = read_header buf.
Proof. intros E. by rewrite (read_header_H buf), (read_header_H buf'), E. Qed.

Lemma read_header_right buf c : is_block buf → fits 64 c →
  read_header (raw_splice buf 8 (le64 c)) = with_right (read_header buf) c.
Proof.
  unfold is_block. intros Hb Hc.
  assert (8 + zlen (le64 c) ≤ zlen buf) as Hl by (by rewrite Hb).
  assert (∀ i : nat, (i < 8)%nat → raw_splice buf 8 (le64 c) !! i = buf !! i) as E.
  { intros i Hi. rewrite lookup_raw_splice by lia. by rewrite decide_False by lia. }
  unfold read_header, byte_at. rewrite !E by lia.
  rewrite (sub_splice_disjoint buf 8 (le64 c) 0 4), (sub_splice_disjoint buf 8 (le64 c) 6 2) by lia.
  pose proof (sub_splice_same buf 8 (le64 c) ltac:(lia) Hl) as ES. rewrite zlen_le64 in ES.
  rewrite ES. by rewrite of_le64.
Qed.

Lemma list_alter_ge {A} (f : A → A) p (l : list A) : (length l ≤ p)%nat → alter f p l = l.
Proof.
  intros. apply list_eq. intros i. rewrite list_lookup_alter. case_decide; [|done].
  subst. by rewrite lookup_ge_None_2.
Qed.

(** The parent's pointer to child [p] replaced. *)
Definition put_kcs (p : nat) (c : Z) (kcs : list kc) : list kc := alter (λ x, (x.1, c)) p kcs.
Definition put_right (p : nat) (c : Z) (kcs : list kc) (r : Z) : Z :=
  if decide (p < length kcs)%nat then r else c.

Lemma put_child_spec buf kcs r (p : nat) c : inode buf kcs r → fits 64 c →
  ∃ buf', (if Z.of_nat p <? num_entries (read_header buf)
           then splice buf (child_off (Z.of_nat p)) (le64 c)
           else splice buf 8 (le64 c)) = Some buf' ∧ is_block buf' ∧
    (internal_hdr buf → internal_is buf' (put_kcs p c kcs) (put_right p c kcs r)).
Proof.
  intros N Hc. pose proof (in_block _ _ _ N) as Hb. rewrite (in_num _ _ _ N).
  pose proof (in_cap _ _ _ N) as Hcap. unfold put_right, put_kcs.
  destruct (Z.ltb_spec (Z.of_nat p) (zlen kcs)) as [Hlt|Hge].
  - destruct (set_child_slot buf (Z.of_nat p) c) as (b & -> & Hb' & HH & Hs); [done|lia|done|].
    exists b. split_and!; try done. intros Hh. pose proof (read_header_same _ _ HH) as E.
    rewrite decide_True by (unfold zlen in *; lia).
    split; [by unfold internal_hdr; rewrite E|]. split; try done.
    + by rewrite E, (in_num _ _ _ N); unfold zlen; rewrite length_alter.
    + unfold zlen in *. by rewrite length_alter.
    + rewrite E. apply N.
    + apply Forall_alter; [apply N|]. intros x _ [? _]. by split.
    + intros i x Hi. rewrite Hs by lia. case_decide as Ei.
      * apply Nat2Z.inj in Ei as ->. rewrite list_lookup_alter_eq in Hi.
        apply fmap_Some in Hi as ([k c0] & Hk & ->). simpl.
        rewrite (in_slots _ _ _ N _ _ Hk). unfold kc_bytes. simpl. f_equal.
        pose proof (Forall_lookup_1 _ _ _ _ (in_wf _ _ _ N) Hk) as Hw.
        apply kc_of_bytes in Hw. by injection Hw.
      * rewrite list_lookup_alter_ne in Hi by lia. by apply N.
  - unfold is_block in Hb. rewrite splice_Some by (rewrite ?zlen_le64, ?Hb; unfold BLOCK_SIZE; lia).
    eexists. split_and!; [done| |].
    { unfold is_block. rewrite zlen_raw_splice; rewrite ?zlen_le64; unfold BLOCK_SIZE in *; lia. }
    intros Hh. rewrite decide_False by (unfold zlen in *; lia).
    rewrite list_alter_ge by (unfold zlen in *; lia).
    pose proof (read_header_right buf c Hb Hc) as E.
    split; [unfold internal_hdr; rewrite E; exact Hh|]. split; rewrite ?E; try done; try apply N.
    { unfold is_block. rewrite zlen_raw_splice; rewrite ?zlen_le64; unfold BLOCK_SIZE in *; lia. }
    intros i x Hi. rewrite <- (in_slots _ _ _ N _ _ Hi). unfold slot.
    apply sub_splice_disjoint; rewrite ?zlen_le64; unfold BLOCK_SIZE, NODE_HEADER_SIZE, INTERNAL_ENTRY_SIZE in *; lia.
Qed.

(** ** Adding a key *)
Lemma shift_keys_up_spec k buf new pos :
  is_block buf → is_block new → 0 ≤ pos → pos + Z.of_nat k < MAX_INTERNAL_KEYS →
  ∃ new', shift_keys_up buf new k pos = Some new' ∧ is_block new' ∧ H new' = H new ∧
    ∀ j, 0 ≤ j → islot new' j =
      if decide (pos < j ≤ pos + Z.of_nat k) then islot buf (j - 1) else islot new j.
Proof.
  revert new. induction k as [|k IH]; intros new Hb Hn Hp Hk; cbn [shift_keys_up].
  { exists new. split_and!; try done. intros. by rewrite decide_False by lia. }
  assert (zlen (islot buf (pos + Z.of_nat k)) = INTERNAL_ENTRY_SIZE) as Hl by (apply zlen_islot; [done|lia]).
  rewrite internal_key_slot, internal_child_slot by (done || lia). cbn [mbind option_bind].
  destruct (set_internal_entry_slot new (pos + Z.of_nat k + 1)
    (raw_sub (islot buf (pos + Z.of_nat k)) 0 32) (of_le (raw_sub (islot buf (pos + Z.of_nat k)) 32 8)))
    as (n1 & -> & Hn1 & H1 & Hs1); [done|lia|by apply kc_of_wf|].
  cbn [mbind option_bind]. destruct (IH n1) as (n2 & -> & Hn2 & H2 & Hs2); [done..|lia|].
  exists n2. split_and!; try done; [congruence|]. intros j Hj. rewrite Hs2 by done.
  change (kc_bytes _) with (kc_bytes (kc_of (islot buf (pos + Z.of_nat k)))) in Hs1.
  rewrite kc_bytes_of in Hs1 by done.
  repeat case_decide; try lia; rewrite ?Hs1 by lia; repeat case_decide; try lia; try done.
  f_equal. lia.
Qed.

(** [(key, left)] before the first greater key, [right] as the child after it. *)
Definition add_kcs (p : nat) (key : list byte) (left right : Z) (kcs : list kc) : list kc :=
  put_kcs (S p) right (ins p (key, left) kcs).
Definition add_right (p : nat) (right : Z) (kcs : list kc) (r : Z) : Z :=
  if decide (p < length kcs)%nat then r else right.

Lemma Forall_put_kcs p c kcs : fits 64 c → Forall kc_wf kcs → Forall kc_wf (put_kcs p c kcs).
Proof. intros Hc Hf. apply Forall_alter; [done|]. intros x _ [? _]. by split. Qed.

Lemma zlen_add_kcs p key left right kcs : zlen (add_kcs p key left right kcs) = zlen kcs + 1.
Proof. unfold zlen, add_kcs, put_kcs. rewrite length_alter, length_ins. lia. Qed.

Lemma add_key_spec buf kcs r key left right :
  inode buf kcs r → zlen kcs < MAX_INTERNAL_KEYS → kc_wf (key, left) → fits 64 right →
  ∃ buf', add_key buf (read_header buf) left right key = Some buf' ∧ is_block buf' ∧
    (internal_hdr buf →
     internal_is buf' (add_kcs (kpos key kcs) key left right kcs) (add_right (kpos key kcs) right kcs r)).
Proof.
  intros N Hc Hw Hr. pose proof (in_block _ _ _ N) as Hb. pose proof (kpos_le key kcs) as Hp.
  set (p := kpos key kcs) in *. change MAX_INTERNAL_KEYS with 101 in Hc. pose proof (zlen_nonneg kcs).
  assert (u16 (zlen kcs + 1) = zlen (add_kcs p key left right kcs)) as Hu.
  { rewrite zlen_add_kcs. apply wrap_small. unfold fits. lia. }
  assert (Forall kc_wf (add_kcs p key left right kcs)) as Hwf.
  { apply Forall_put_kcs; [done|]. apply Forall_ins. split; [done|apply N]. }
  unfold add_key. rewrite (first_key_above_spec _ _ _ _ N). cbn [mbind option_bind]. fold p.
  rewrite (in_num _ _ _ N), Hu. unfold add_right. case_decide as Hlt.
  - replace (Z.to_nat (zlen kcs - Z.of_nat p)) with (length kcs - p)%nat by (unfold zlen; lia).
    destruct (shift_keys_up_spec (length kcs - p) buf buf (Z.of_nat p)) as (n1 & -> & Hn1 & H1 & Hs1);
      [done..|lia|change MAX_INTERNAL_KEYS with 101; unfold zlen in *; lia|]. cbn [mbind option_bind].
    destruct (set_internal_entry_slot n1 (Z.of_nat p) key left) as (n2 & -> & Hn2 & H2 & Hs2);
      [done|change MAX_INTERNAL_KEYS with 101; unfold zlen in *; lia|done|]. cbn [mbind option_bind].
    destruct (set_child_slot n2 (Z.of_nat p + 1) right) as (n3 & -> & Hn3 & H3 & Hs3);
      [done|change MAX_INTERNAL_KEYS with 101; unfold zlen in *; lia|done|]. cbn [mbind option_bind].
    eexists. split_and!; [done|by apply write_header_block|]. intros Hh.
    apply (internal_is_mk buf); try done.
    + by apply write_header_block.
    + rewrite H_write_header by done. by rewrite with_right_same, (in_right _ _ _ N).
    + rewrite zlen_add_kcs. change MAX_INTERNAL_KEYS with 101. lia.
    + by eapply inode_right_fits.
    + intros i x Hi. rewrite slot_write_header by (done || lia). rewrite Hs3 by lia.
      unfold add_kcs, put_kcs in Hi. case_decide as Ei.
      * replace i with (S p) in * by lia. rewrite list_lookup_alter_eq in Hi.
        rewrite lookup_ins in Hi by done. rewrite decide_False, decide_False in Hi by lia.
        replace (S p - 1)%nat with p in Hi by lia.
        apply fmap_Some in Hi as ([k c] & Hk & ->). simpl. f_equal. f_equal.
        rewrite Hs2 by lia. rewrite decide_False by lia. rewrite Hs1 by lia.
        rewrite decide_True by lia. replace (Z.of_nat p + 1 - 1) with (Z.of_nat p) by lia.
        rewrite (in_slots _ _ _ N _ _ Hk).
        pose proof (Forall_lookup_1 _ _ _ _ (in_wf _ _ _ N) Hk) as Hkw.
        apply kc_of_bytes in Hkw. by injection Hkw.
      * rewrite list_lookup_alter_ne in Hi by lia. rewrite lookup_ins in Hi by done. rewrite Hs2 by lia.
        repeat case_decide; try lia; simplify_eq; try done; rewrite Hs1 by lia.
        -- rewrite decide_False by lia. by apply N.
        -- pose proof (lookup_lt_Some _ _ _ Hi). rewrite decide_True by lia.
           replace (Z.of_nat i - 1) with (Z.of_nat (i - 1)) by lia. by apply N.
  - set (h := with_right _ _). 
    destruct (set_internal_entry_slot (write_header buf h) (zlen kcs) key left) as (n1 & -> & Hn1 & H1 & Hs1);
      [by apply write_header_block|change MAX_INTERNAL_KEYS with 101; lia|done|].
    exists n1. split_and!; [done|done|]. intros Hh.
    apply (internal_is_mk buf); try done.
    + rewrite zlen_add_kcs. change MAX_INTERNAL_KEYS with 101. lia.
    + intros i x Hi. rewrite Hs1 by lia. unfold add_kcs, put_kcs in Hi.
      rewrite list_alter_ge in Hi by (rewrite length_ins; lia). rewrite lookup_ins in Hi by done.
      rewrite slot_write_header by (done || lia).
      repeat case_decide; simplify_eq; try done; unfold zlen in *; try lia; [by apply N|].
      apply lookup_lt_Some in Hi. lia.
Qed.

(** ** Building internal nodes *)
Lemma merged_keys_from buf r key left kcs2 kcs1 ins_ acc : inode buf (kcs1 ++ kcs2) r →
  merged_keys buf (length kcs2) (zlen kcs1) key left ins_ acc =
    Some (acc ++ if ins_ : bool then kcs2 else ins (kpos key kcs2) (key, left) kcs2).
Proof.
  revert kcs1 ins_ acc. induction kcs2 as [|[k c] kcs2 IH]; intros kcs1 ins_ acc N.
  { cbn [length merged_keys]. destruct ins_; [by rewrite app_nil_r|done]. }
  cbn [length merged_keys kpos].
  destruct (inode_lookup _ _ _ (length kcs1) k c N) as (Hk & Hc & _); [by apply list_lookup_middle|].
  change (Z.of_nat (length kcs1)) with (zlen kcs1) in Hk, Hc. rewrite Hk, Hc. cbn [mbind option_bind].
  replace (kcs1 ++ (k, c) :: kcs2) with ((kcs1 ++ [(k, c)]) ++ kcs2) in N by (by rewrite <- app_assoc).
  pose proof (λ b a, IH _ b a N) as IH'. rewrite zlen_app in IH'. change (zlen [(k, c)]) with 1 in IH'.
  destruct ins_; simpl negb; cbn [andb].
  { rewrite IH'. by rewrite <- app_assoc. }
  destruct (bytes_ltb key k); rewrite IH', <- app_assoc; done.
Qed.

Lemma merged_keys_spec buf kcs r key left : inode buf kcs r →
  merged_keys buf (Z.to_nat (num_entries (read_header buf))) 0 key left false [] =
    Some (ins (kpos key kcs) (key, left) kcs).
Proof.
  intros N. rewrite (in_num _ _ _ N). unfold zlen. rewrite Nat2Z.id.
  apply (merged_keys_from buf r key left kcs [] false [] N).
Qed.

Lemma position_spec key es i c : es !! i = Some (key, c) →
  ∃ q, position key es = Some q ∧ (q ≤ i)%nat ∧ (∃ c, es !! q = Some (key, c)).
Proof.
  revert i. induction es as [|[k c'] es IH]; intros i Hi; [done|]. simpl.
  case_bool_decide as E; [subst; exists 0%nat; split_and!; [done|lia|by exists c']|].
  destruct i as [|i]; simpl in Hi; [congruence|].
  destruct (IH i Hi) as (q & -> & Hq & Hc). exists (S q). split_and!; [done|lia|done].
Qed.

Lemma fill_internal_spec es buf i : is_block buf → 0 ≤ i → i + zlen es ≤ MAX_INTERNAL_KEYS →
  Forall kc_wf es →
  ∃ buf', fill_internal buf i es = Some buf' ∧ is_block buf' ∧ H buf' = H buf ∧
    (∀ j x, es !! j = Some x → islot buf' (i + Z.of_nat j) = kc_bytes x) ∧
    (∀ j, 0 ≤ j < i → islot buf' j = islot buf j).
Proof.
  revert buf i. induction es as [|[k c] es IH]; intros buf i Hb Hi Hc Hw; cbn [fill_internal].
  { exists buf. by split_and!. }
  apply Forall_cons in Hw as [He Hw]. rewrite zlen_cons in Hc. pose proof (zlen_nonneg es).
  destruct (set_internal_entry_slot buf i k c) as (b1 & -> & Hb1 & H1 & Hs1); [done|lia|done|].
  cbn [mbind option_bind].
  destruct (IH b1 (i + 1)) as (b2 & -> & Hb2 & H2 & Hs2 & Hk2); [done|lia|lia|done|].
  exists b2. split_and!; try done; [congruence| |].
  - intros j x Hj. destruct j as [|j]; simpl in Hj.
    + injection Hj as <-. rewrite Hk2 by lia. rewrite Hs1 by lia. by rewrite decide_True by lia.
    + replace (i + Z.of_nat (S j)) with (i + 1 + Z.of_nat j) by lia. by apply Hs2.
  - intros j Hj. rewrite Hk2 by lia. rewrite Hs1 by lia. by rewrite decide_False by lia.
Qed.

Lemma internal_of_spec es r : zlen es ≤ MAX_INTERNAL_KEYS → Forall kc_wf es → fits 64 r →
  ∃ buf, internal_of es r = Some buf ∧ internal_is buf es r.
Proof.
  intros Hc Hw Hr. unfold internal_of. pose proof (zlen_nonneg es).
  set (h := mkHeader BTREE_NODE_MAGIC BTREE_INTERNAL 0 (u16 (zlen es)) r).
  destruct (fill_internal_spec es (write_header zero_block h) 0) as (buf & -> & Hb & HH & Hs & _);
    [by apply write_header_block, zero_block_block|lia|lia|done|].
  exists buf. split; [done|]. rewrite H_write_header in HH by apply zero_block_block.
  change MAX_INTERNAL_KEYS with 101 in Hc.
  assert (u16 (zlen es) = zlen es) as Hu by (apply wrap_small; unfold fits; lia).
  assert (read_header buf = h) as E.
  { rewrite (read_header_of _ h).
    - unfold h, with_count. simpl. rewrite Z.min_l by (rewrite Hu; unfold node_cap; simpl; done). done.
    - unfold h. split; simpl; rewrite ?Hu; unfold fits, BTREE_NODE_MAGIC, BTREE_INTERNAL in *; lia.
    - done. }
  split; [by split; rewrite E|]. by split; rewrite ?E.
Qed.

(** ** Dropping a child *)
Lemma shift_keys_down_spec k buf new i :
  is_block buf → is_block new → 0 ≤ i → i + Z.of_nat k < MAX_INTERNAL_KEYS →
  ∃ new', shift_keys_down buf new k i = Some new' ∧ is_block new' ∧ H new' = H new ∧
    ∀ j, 0 ≤ j → islot new' j =
      if decide (i ≤ j < i + Z.of_nat k) then islot buf (j + 1) else islot new j.
Proof.
  revert new i. induction k as [|k IH]; intros new i Hb Hn Hp Hk; cbn [shift_keys_down].
  { exists new. split_and!; try done. intros. by rewrite decide_False by lia. }
  change MAX_INTERNAL_KEYS with 101 in Hk. rewrite (wrap_small 64 (i + 1)) by (unfold fits; lia).
  assert (zlen (islot buf (i + 1)) = INTERNAL_ENTRY_SIZE) as Hl
    by (apply zlen_islot; [done|change MAX_INTERNAL_KEYS with 101; lia]).
  rewrite internal_key_slot, internal_child_slot by (done || (change MAX_INTERNAL_KEYS with 101; lia)).
  cbn [mbind option_bind].
  destruct (set_internal_entry_slot new i (raw_sub (islot buf (i + 1)) 0 32)
    (of_le (raw_sub (islot buf (i + 1)) 32 8)))
    as (n1 & -> & Hn1 & H1 & Hs1); [done|change MAX_INTERNAL_KEYS with 101; lia|by apply kc_of_wf|].
  cbn [mbind option_bind].
  destruct (IH n1 (i + 1)) as (n2 & -> & Hn2 & H2 & Hs2); [done..|lia|change MAX_INTERNAL_KEYS with 101; lia|].
  exists n2. split_and!; try done; [congruence|]. intros j Hj. rewrite Hs2 by done.
  change (kc_bytes _) with (kc_bytes (kc_of (islot buf (i + 1)))) in Hs1.
  rewrite kc_bytes_of in Hs1 by done.
  repeat case_decide; try lia; rewrite ?Hs1 by lia; repeat case_decide; try lia; try done.
  f_equal. lia.
Qed.

Definition drop_kcs (p : nat) (kcs : list kc) : list kc :=
  if decide (p < length kcs)%nat then base.delete p kcs else take (length kcs - 1) kcs.
Definition drop_right (p : nat) (kcs : list kc) (r : Z) : Z :=
  if decide (p < length kcs)%nat then r else child_at kcs r (length kcs - 1).

Lemma drop_child_spec buf kcs r (p : nat) : inode buf kcs r → kcs ≠ [] →
  ∃ buf', drop_child buf (read_header buf) (Z.of_nat p) = Some buf' ∧ is_block buf' ∧
    (internal_hdr buf → internal_is buf' (drop_kcs p kcs) (drop_right p kcs r)).
Proof.
  intros N Hne. pose proof (in_block _ _ _ N) as Hb. pose proof (in_cap _ _ _ N) as Hc.
  change MAX_INTERNAL_KEYS with 101 in Hc.
  assert (0 < length kcs)%nat as Hpos by (destruct kcs; simpl; [done|lia]).
  unfold drop_child. rewrite (in_num _ _ _ N).
  rewrite (wrap_small 64), (wrap_small 16) by (unfold fits, zlen in *; lia).
  unfold drop_kcs, drop_right. destruct (Z.ltb_spec (Z.of_nat p) (zlen kcs)) as [Hlt|Hge].
  - replace (Z.to_nat (zlen kcs - 1 - Z.of_nat p)) with (length kcs - 1 - p)%nat by (unfold zlen; lia).
    destruct (shift_keys_down_spec (length kcs - 1 - p) buf buf (Z.of_nat p)) as (n1 & -> & Hn1 & H1 & Hs1);
      [done..|lia|change MAX_INTERNAL_KEYS with 101; unfold zlen in *; lia|]. cbn [mbind option_bind].
    eexists. split_and!; [done|by apply write_header_block|]. intros Hh.
    rewrite !decide_True by (unfold zlen in *; lia).
    assert (length (base.delete p kcs) = (length kcs - 1)%nat) as Hl
      by (rewrite length_delete; [lia|apply lookup_lt_is_Some_2; unfold zlen in *; lia]).
    apply (internal_is_mk buf); try done.
    + by apply write_header_block.
    + rewrite H_write_header by done. rewrite with_right_same, (in_right _ _ _ N).
      repeat f_equal. unfold zlen. lia.
    + change MAX_INTERNAL_KEYS with 101. unfold zlen in *. lia.
    + apply Forall_delete, N.
    + by eapply inode_right_fits.
    + intros i x Hi. rewrite slot_write_header by (done || lia). pose proof (lookup_lt_Some _ _ _ Hi).
      rewrite Hs1 by lia. destruct (decide (i < p)%nat).
      * rewrite list_lookup_delete_lt in Hi by done. rewrite decide_False by lia. by apply N.
      * rewrite list_lookup_delete_ge in Hi by lia. rewrite decide_True by lia.
        replace (Z.of_nat i + 1) with (Z.of_nat (S i)) by lia. by apply N.
  - destruct (lookup_lt_is_Some_2 kcs (length kcs - 1)) as [[k c] Hk]; [lia|].
    destruct (inode_lookup _ _ _ _ _ _ N Hk) as (_ & Hch & _ & Hfit). simpl in Hfit.
    replace (zlen kcs - 1) with (Z.of_nat (length kcs - 1)) by (unfold zlen; lia).
    rewrite Hch. cbn [mbind option_bind].
    eexists. split_and!; [done|by apply write_header_block|]. intros Hh.
    rewrite !decide_False by (unfold zlen in *; lia). unfold child_at. rewrite Hk.
    apply (internal_is_mk buf); try done.
    + by apply write_header_block.
    + rewrite H_write_header by done.
      replace (zlen (take (length kcs - 1) kcs)) with (Z.of_nat (length kcs - 1))
        by (unfold zlen; rewrite length_take; lia). done.
    + change MAX_INTERNAL_KEYS with 101. unfold zlen in *. rewrite length_take. lia.
    + apply Forall_take, N.
    + intros i x Hi. rewrite slot_write_header by (done || lia). apply lookup_take_Some in Hi as [Hi _].
      by apply N.
Qed.

(** ** Checksums

    BLAKE3 returns 32 bytes; nothing else about it is used. *)
Section checksum.
Context (blake3 : list byte → list byte).
Hypothesis blake3_len : ∀ bs, length (blake3 bs) = 32%nat.

Lemma checksum_fits buf : is_block buf →
  zlen (compute_node_checksum blake3 buf) = 32 ∧
  CHECKSUM_OFFSET + zlen (compute_node_checksum blake3 buf) ≤ zlen buf.
Proof.
  unfold is_block. intros Hb. unfold compute_node_checksum, zlen at 1 2. rewrite blake3_len, Hb. done.
Qed.

Lemma write_node_checksum_block buf : is_block buf → is_block (write_node_checksum blake3 buf).
Proof.
  intros Hb. destruct (checksum_fits buf Hb). unfold is_block in *. unfold write_node_checksum.
  rewrite zlen_raw_splice; [done|done|lia].
Qed.

Lemma sub_checksum buf a n : is_block buf → 0 ≤ a → a + n ≤ CHECKSUM_OFFSET →
  raw_sub (write_node_checksum blake3 buf) a n = raw_sub buf a n.
Proof.
  intros Hb Ha Hn. destruct (checksum_fits buf Hb). apply sub_splice_disjoint; try lia; done.
Qed.

(** What is written verifies. *)
Lemma verify_written buf : is_block buf →
  verify_node_checksum blake3 (write_node_checksum blake3 buf) = true.
Proof.
  intros Hb. destruct (checksum_fits buf Hb) as [Hl Hle]. unfold verify_node_checksum.
  apply bool_decide_eq_true. unfold compute_node_checksum at 1.
  rewrite (sub_checksum buf 0 CHECKSUM_OFFSET) by done. fold (compute_node_checksum blake3 buf).
  unfold write_node_checksum. rewrite <- Hl at 1. by apply sub_splice_same.
Qed.

Lemma H_checksum buf : is_block buf → H (write_node_checksum blake3 buf) = H buf.
Proof. intros Hb. by apply sub_checksum. Qed.

Lemma leaf_is_checksum buf es : leaf_is buf es → leaf_is (write_node_checksum blake3 buf) es.
Proof.
  intros L. pose proof (li_block _ _ L) as Hb.
  pose proof (read_header_same _ _ (H_checksum buf Hb)) as E.
  split; rewrite ?E; try apply L; [by apply write_node_checksum_block|].
  intros i e Hi. rewrite <- (li_slots _ _ L _ _ Hi). pose proof (lookup_lt_Some _ _ _ Hi).
  pose proof (li_cap _ _ L). unfold zlen in *.
  destruct (leaf_off_small (Z.of_nat i)) as [_ Hle]; [lia|].
  apply sub_checksum; [done|unfold NODE_HEADER_SIZE, LEAF_ENTRY_SIZE; lia|lia].
Qed.

Lemma internal_is_checksum buf kcs r :
  internal_is buf kcs r → internal_is (write_node_checksum blake3 buf) kcs r.
Proof.
  intros [Hh N]. pose proof (in_block _ _ _ N) as Hb.
  pose proof (read_header_same _ _ (H_checksum buf Hb)) as E.
  split; [by unfold internal_hdr; rewrite E|].
  split; rewrite ?E; try apply N; [by apply write_node_checksum_block|].
  intros i e Hi. rewrite <- (in_slots _ _ _ N _ _ Hi). pose proof (lookup_lt_Some _ _ _ Hi).
  pose proof (in_cap _ _ _ N). unfold zlen in *.
  destruct (internal_off_small (Z.of_nat i)) as (_ & _ & Hle); [lia|].
  apply sub_checksum; [done|unfold NODE_HEADER_SIZE, INTERNAL_ENTRY_SIZE; lia|lia].
Qed.
End checksum.
