(* ===== verification/BtreeIo.v ===== *)
(** * Reasoning about the tree's reads, allocations and writes

    [ext al st st']: from [st] to [st'] the blocks [al] were allocated, all of
    them free before, and no other block changed.  Every step of the B-tree code
    is such an extension: this is copy-on-write.  [tri m st P E] is a triple over
    it; its rules follow the code's shape, an allocation and the write that fills
    it being one step. *)

From S2P Require Import Prelude Bytes Format BlockStore Bitmap BitmapSpec BtreeNode Btree BtreeNodeSpec.

Section io.
Context (blake3 : list byte → list byte).
Hypothesis blake3_len : ∀ bs, length (blake3 bs) = 32%nat.
Context {C : Type} `{!BlockStore C} `{!BlockStoreOk C (verify_node_checksum blake3)}.

(** [ok]: whether the store is assumed to serve every request. *)
Context (ok : Prop).

Notation St := (C * Bitmap.t)%type.
Implicit Types (st : St) (al : list Z).

Definition vw st : Z → block := view st.1.
Definition in_use st (b : Z) : bool := used (Bitmap.data st.2) b.
Definition in_area st (b : Z) : Prop := Bitmap.data_start st.2 ≤ b < Bitmap.total_blocks st.2.
Definition full st : Prop := ∀ b, in_area st b → in_use st b = true.

Record good st : Prop := {
  gd_store : store_inv st.1;
  gd_map : inv st.2;
  gd_ok : ok → healthy st.1;
}.

Record ext al st st' : Prop := {
  x_good : good st';
  x_geo : evolves st.2 st'.2;
  x_used b : 0 ≤ b → in_use st' b = in_use st b || bool_decide (b ∈ al);
  x_fresh : Forall (λ b, in_area st b ∧ in_use st b = false) al;
  x_nodup : NoDup al;
  x_frame b : b ∉ al → vw st' b = vw st b;
  x_direct b : b ∉ al → direct st.1 b → direct st'.1 b;
}.

Lemma in_area_pos st b : good st → in_area st b → 0 < b ∧ fits 64 b.
Proof.
  intros G [??]. destruct (g_start _ (i_geo _ (gd_map _ G))), (g_total _ (i_geo _ (gd_map _ G))).
  unfold fits. lia.
Qed.

Lemma ext_refl st : good st → ext [] st st.
Proof.
  intros G. split; try done; try constructor; try apply reflexivity. intros b _.
  rewrite bool_decide_false, orb_false_r; [done|]. apply not_elem_of_nil.
Qed.

Lemma ext_area al st st' b : ext al st st' → in_area st' b ↔ in_area st b.
Proof. intros X. unfold in_area. by rewrite (e_data _ _ (x_geo _ _ _ X)), (e_total _ _ (x_geo _ _ _ X)). Qed.

Lemma ext_fresh_pos al st st' b : ext al st st' → b ∈ al → 0 < b ∧ fits 64 b.
Proof.
  intros X Hb. pose proof (proj1 (Forall_forall _ _) (x_fresh _ _ _ X) b Hb) as [Ha _].
  apply (in_area_pos st'); [apply X|]. by apply (ext_area _ _ _ _ X).
Qed.

Lemma ext_trans al1 al2 st st1 st2 : ext al1 st st1 → ext al2 st1 st2 → ext (al1 ++ al2) st st2.
Proof.
  intros X1 X2.
  assert (∀ b, b ∈ al2 → b ∉ al1 ∧ in_area st b ∧ in_use st b = false) as H2.
  { intros b Hb. pose proof (proj1 (Forall_forall _ _) (x_fresh _ _ _ X2) b Hb) as [Ha Hu].
    destruct (ext_fresh_pos _ _ _ _ X2 Hb). rewrite (x_used _ _ _ X1) in Hu by lia.
    apply orb_false_iff in Hu as [Hu Hn]. apply bool_decide_eq_false in Hn.
    split_and!; [done|by apply (ext_area _ _ _ _ X1)|done]. }
  split.
  - apply X2.
  - etrans; [apply X1|apply X2].
  - intros b Hb. rewrite (x_used _ _ _ X2), (x_used _ _ _ X1) by done.
    rewrite <- orb_assoc. f_equal. rewrite <- bool_decide_or. apply bool_decide_ext.
    by rewrite elem_of_app.
  - apply Forall_app. split; [apply X1|]. apply Forall_forall. intros b Hb. by apply H2.
  - apply NoDup_app. split_and!; [apply X1| |apply X2]. intros b H1 Hb. by destruct (H2 b Hb).
  - intros b Hb. rewrite not_elem_of_app in Hb. destruct Hb.
    by rewrite (x_frame _ _ _ X2), (x_frame _ _ _ X1).
  - intros b Hb Hd. rewrite not_elem_of_app in Hb. destruct Hb. by apply (x_direct _ _ _ X2), (x_direct _ _ _ X1).
Qed.

(** Blocks in use keep their bytes and stay in use. *)
Lemma ext_keeps al st st' b : ext al st st' → in_use st b = true → 0 ≤ b →
  b ∉ al ∧ vw st' b = vw st b ∧ in_use st' b = true.
Proof.
  intros X Hu Hb. assert (b ∉ al) as Hn.
  { intros Hin. pose proof (proj1 (Forall_forall _ _) (x_fresh _ _ _ X) b Hin) as [_ ?]. congruence. }
  split_and!; [done|by apply X|]. by rewrite (x_used _ _ _ X), Hu.
Qed.

(** ** Triples *)
Definition tri {A} (m : M St FsError A) st (P : A → list Z → St → Prop)
  (E : FsError → St → Prop) : Prop :=
  wp m (λ r st', ∃ al, ext al st st' ∧
          match r with Ok a => P a al st' | Err e => E e st' | Panic => False end) st.

Lemma tri_ret {A} (a : A) st P E : good st → P a [] st → tri (mret a) st P E.
Proof. intros G HP. apply wp_ret. exists []. split; [by apply ext_refl|done]. Qed.

Lemma tri_fail {A} e st (P : A → list Z → St → Prop) (E : FsError → St → Prop) :
  good st → E e st → tri (fail e) st P E.
Proof. intros G HE. apply wp_fail. exists []. split; [by apply ext_refl|done]. Qed.

Lemma tri_bind {A B} (m : M St FsError A) (k : A → M St FsError B) st P Q E :
  tri m st P E →
  (∀ a al st1, ext al st st1 → P a al st1 →
     tri (k a) st1 (λ b al2 st2, Q b (al ++ al2) st2) E) →
  tri (m ≫= k) st Q E.
Proof.
  intros Hm Hk. apply wp_bind. eapply wp_mono; [exact Hm|].
  intros [a|e|] st1 (al & X & HP); [|by exists al|done].
  eapply wp_mono; [by apply (Hk a al st1)|]. intros r st2 (al2 & X2 & HQ).
  exists (al ++ al2). split; [by eapply ext_trans|done].
Qed.

Lemma tri_mono {A} (m : M St FsError A) st (P Q : A → list Z → St → Prop) (E : FsError → St → Prop) :
  tri m st P E → (∀ a al st', ext al st st' → P a al st' → Q a al st') → tri m st Q E.
Proof.
  intros Hm H. eapply wp_mono; [exact Hm|]. intros r st' (al & X & HP). exists al.
  split; [done|]. destruct r; auto.
Qed.

Lemma tri_of_opt {A B} (o : option A) a (k : A → M St FsError B) st Q E :
  o = Some a → tri (k a) st Q E → tri (of_opt o ≫= k) st Q E.
Proof. by intros ->. Qed.

(** ** Reading a node *)
Notation sum_ok := (verify_node_checksum blake3).
Notation wsum := (write_node_checksum blake3).

Lemma good_view st b : good st → is_block (vw st b).
Proof. intros G. apply view_block, G. Qed.

Lemma read_node_c c b : store_inv c →
  wp (read_node blake3 b) (λ r c', store_inv c' ∧ same (view c) (view c') ∧
    (healthy c → healthy c') ∧
    match r with
    | Ok buf => buf = view c b ∧ sum_ok (view c b) = true
    | Err e => ¬ healthy c ∨ (e = Corrupt ∧ sum_ok (view c b) = false)
    | Panic => False
    end) c.
Proof.
  intros Hi. unfold read_node. apply wp_bind. eapply wp_mono; [by apply read_checked_spec|].
  intros [[x buf]|e|] c'; simpl; intros (H1 & H2 & H3 & H4); [| |done].
  - injection H4 as -> ->. destruct (sum_ok (view c b)) eqn:E.
    + apply wp_ret. split_and!; done.
    + apply wp_fail. split_and!; try done. by right.
  - destruct H4 as [_ ?]. split_and!; try done. by left.
Qed.

Lemma read_node_direct c b : store_inv c →
  wp (read_node blake3 b) (λ _ c', ∀ b', direct c b' → direct c' b') c.
Proof.
  intros Hi. unfold read_node. apply wp_bind. eapply wp_mono; [by apply direct_read_checked|].
  intros [[x buf]|e|] c' H; [|done|done]. destruct x; [by apply wp_ret|by apply wp_fail].
Qed.

Lemma tri_read {B} b (k : block → M St FsError B) st Q (E : FsError → St → Prop) : good st →
  (∀ e st', ¬ ok → E e st') →
  (sum_ok (vw st b) = false → ∀ st', E Corrupt st') →
  (∀ st1, ext [] st st1 → vw st1 b = vw st b → sum_ok (vw st b) = true → tri (k (vw st b)) st1 Q E) →
  tri (on_fst (read_node blake3 b) ≫= k) st Q E.
Proof.
  intros G HE1 HE2 Hk. destruct st as [c s]. apply wp_bind, wp_on_fst.
  eapply wp_mono; [apply wp_and; [apply read_node_c, G|apply read_node_direct, G]|]. intros r c' [(H1 & H2 & H3 & H4) H5].
  assert (ext [] (c, s) (c', s)) as X.
  { destruct G as [G1 G2 G3]. split; [by split; simpl; auto|reflexivity| |by constructor|by constructor| |].
    - intros x _. rewrite bool_decide_false, orb_false_r; [done|]. apply not_elem_of_nil.
    - intros x _. unfold vw. simpl. apply H2.
    - intros x _. apply H5. }
  destruct r as [buf|e|]; [|exists []; split; [done|]|done].
  - destruct H4 as [-> Hs]. eapply wp_mono; [apply (Hk (c', s) X); [apply H2|done]|].
    intros r st2 (al & X2 & HQ). exists al. split; [by apply (ext_trans [] al _ _ _ X)|done].
  - destruct H4 as [Hn|[-> Hs]]; [apply HE1|by apply HE2].
    intros Hok. apply Hn. by apply (gd_ok _ G).
Qed.

(** ** Allocating a block and filling it *)
Lemma alloc1_spec st : good st →
  wp alloc1 (λ r st', match r with
    | Ok b => ext [b] st st' ∧ vw st' = vw st ∧ in_area st b
    | Err e => e = DiskFull ∧ st' = st ∧ full st
    | Panic => False
    end) st.
Proof.
  intros G. destruct st as [c s]. unfold alloc1. apply wp_on_snd.
  eapply wp_mono; [apply alloc_one, G|]. intros [b|e|] s'; [| |done].
  - intros (Ha & Hu & Ht). destruct Ht as (T1 & T2 & _ & _ & T5 & _).
    split_and!; [|done|done]. destruct G as [G1 G2 G3]. split; try done; simpl.
    + intros x Hx. unfold in_use. simpl. rewrite T5 by done.
      destruct (decide (x = b)) as [->|].
      * rewrite decide_True by lia. rewrite bool_decide_true by set_solver. by rewrite orb_true_r.
      * rewrite decide_False by lia. rewrite bool_decide_false by set_solver. by rewrite orb_false_r.
    + apply Forall_singleton. done.
    + apply NoDup_singleton.
  - intros (-> & -> & Hf). split_and!; done.
Qed.

Lemma write_node_spec st b buf : good st → is_block buf →
  wp (on_fst (write_node blake3 b buf)) (λ r st',
    st'.2 = st.2 ∧ good st' ∧ (∀ x, x ≠ b → vw st' x = vw st x ∧ (direct st.1 x → direct st'.1 x)) ∧
    match r with
    | Ok _ => vw st' b = wsum buf
    | Err _ => ¬ ok
    | Panic => False
    end) st.
Proof.
  intros G Hb. destruct st as [c s]. apply wp_on_fst. unfold write_node.
  eapply wp_mono.
  { apply wp_and; [apply write_checked_spec|apply direct_write_checked];
      [apply G|by apply write_node_checksum_block|by apply verify_written|apply G|by apply write_node_checksum_block|by apply verify_written]. }
  intros r c' [(H1 & H2 & H3) H4]. destruct G as [G1 G2 G3].
  split_and!; [done|split; simpl; auto| |].
  - unfold vw. simpl. intros x Hx. split; [|by apply H4]. destruct r as [[]|e|]; simpl in H3; [|by apply H3|done].
    by apply H3.
  - destruct r as [[]|e|]; simpl in H3; [apply H3| |done]. destruct H3 as [_ Hn]. auto.
Qed.

(** Filling blocks that were allocated in this extension. *)
Lemma ext_fill al st st1 st2 : ext al st st1 → st2.2 = st1.2 → good st2 →
  (∀ x, x ∉ al → vw st2 x = vw st1 x ∧ (direct st1.1 x → direct st2.1 x)) → ext al st st2.
Proof.
  intros X E G Hv. destruct X. split; try done.
  - by rewrite E.
  - unfold in_use in *. by rewrite E.
  - intros x Hx. rewrite (proj1 (Hv x Hx)). auto.
  - intros x Hx Hd. apply Hv; auto.
Qed.

Lemma ext_write al st st1 st2 b : ext al st st1 → b ∈ al → st2.2 = st1.2 → good st2 →
  (∀ x, x ≠ b → vw st2 x = vw st1 x ∧ (direct st1.1 x → direct st2.1 x)) → ext al st st2.
Proof. intros X Hb E G Hv. eapply ext_fill; [done..|]. intros x Hx. apply Hv. by intros ->. Qed.

Lemma tri_alloc_write {B} (o : option block) buf (k : Z → M St FsError B) st Q (E : FsError → St → Prop) :
  good st → o = Some buf → is_block buf →
  (∀ e st', ¬ ok → E e st') → (∀ st', full st' → E DiskFull st') →
  (∀ b st1, ext [b] st st1 → vw st1 b = wsum buf → in_area st b →
     tri (k b) st1 (λ x al st2, Q x (b :: al) st2) E) →
  tri (b ← alloc1; x ← of_opt o; _ ← on_fst (write_node blake3 b x); k b) st Q E.
Proof.
  intros G -> Hb HE HF Hk. apply wp_bind. eapply wp_mono; [by apply alloc1_spec|].
  intros [b|e|] st1; [| |done].
  2:{ intros (-> & -> & Hfull). exists []. split; [by apply ext_refl|auto]. }
  intros (X1 & Hv1 & Ha). apply wp_bind. apply wp_ret. apply wp_bind.
  eapply wp_mono; [apply write_node_spec; [apply X1|done]|].
  intros r st2 (E2 & G2 & F2 & R2).
  assert (ext [b] st st2) as X2 by (eapply ext_write; eauto; set_solver).
  destruct r as [[]|e|]; [|exists [b]; split; [done|auto]|done].
  eapply wp_mono; [by apply (Hk b st2)|]. intros r st3 (al & X3 & HQ).
  exists (b :: al). split; [by apply (ext_trans [b] al _ _ _ X2)|done].
Qed.

Lemma tri_alloc2_write2 {B} (o1 o2 : option block) buf1 buf2 (k : Z → Z → M St FsError B) st Q
  (E : FsError → St → Prop) :
  good st → o1 = Some buf1 → o2 = Some buf2 → is_block buf1 → is_block buf2 →
  (∀ e st', ¬ ok → E e st') → (∀ st', full st' → E DiskFull st') →
  (∀ l r st1, ext [l; r] st st1 → vw st1 l = wsum buf1 → vw st1 r = wsum buf2 →
     in_area st l → in_area st r →
     tri (k l r) st1 (λ x al st2, Q x (l :: r :: al) st2) E) →
  tri (l ← alloc1; r ← alloc1;
       x ← of_opt o1; _ ← on_fst (write_node blake3 l x);
       y ← of_opt o2; _ ← on_fst (write_node blake3 r y); k l r) st Q E.
Proof.
  intros G -> -> Hb1 Hb2 HE HF Hk. apply wp_bind. eapply wp_mono; [by apply alloc1_spec|].
  intros [l|e|] st1; [| |done].
  2:{ intros (-> & -> & Hfull). exists []. split; [by apply ext_refl|auto]. }
  intros (X1 & Hv1 & Hl). apply wp_bind. eapply wp_mono; [apply alloc1_spec, X1|].
  intros [r|e|] st2; [| |done].
  2:{ intros (-> & -> & Hfull). exists [l]. split; [done|auto]. }
  intros (X2 & Hv2 & Hr%(ext_area _ _ _ _ X1)). pose proof (ext_trans _ _ _ _ _ X1 X2) as X12. simpl in X12.
  apply wp_bind, wp_ret, wp_bind. eapply wp_mono; [apply write_node_spec; [apply X2|done]|].
  intros w st3 (E3 & G3 & F3 & R3).
  assert (ext [l; r] st st3) as X3 by (eapply ext_write; eauto; set_solver).
  destruct w as [[]|e|]; [|by exists [l; r]; auto|done].
  apply wp_bind, wp_ret, wp_bind. eapply wp_mono; [by apply write_node_spec|].
  intros w st4 (E4 & G4 & F4 & R4).
  assert (ext [l; r] st st4) as X4 by (eapply ext_write; eauto; set_solver).
  destruct w as [[]|e|]; [|by exists [l; r]; auto|done].
  assert (l ≠ r) as Hne.
  { pose proof (x_nodup _ _ _ X4) as Hnd. apply NoDup_cons in Hnd as [Hnd _]. set_solver. }
  eapply wp_mono; [apply (Hk l r st4); try done; by rewrite (proj1 (F4 l Hne))|].
  intros w st5 (al & X5 & HQ). exists (l :: r :: al). split; [by apply (ext_trans [l; r] al _ _ _ X4)|done].
Qed.
End io.
