(* ===== verification/BtreeSafe.v ===== *)
(** * No disk content makes the tree code panic

    First what splitting a node writes, for any node.  Then, with nothing
    assumed about the blocks the tree reads (a forged or corrupt disk, nodes the
    bitmap believes free), [lookup], [insert], [delete] and [walk] end without a
    panic, within their loop bounds, and write no block that was in use. *)

From S2P Require Import Prelude Bytes Format BlockStore Bitmap BitmapSpec BtreeNode Btree BtreeNodeSpec BtreeIo.

Section splits.
Context (blake3 : list byte → list byte).
Hypothesis blake3_len : ∀ bs, length (blake3 bs) = 32%nat.
Context {C : Type} `{!BlockStore C} `{!BlockStoreOk C (verify_node_checksum blake3)}.
Context (ok : Prop) (E : FsError → C * Bitmap.t → Prop).
Hypothesis E_io : ∀ e st, ¬ ok → E e st.
Hypothesis E_full : ∀ st, full st → E DiskFull st.

Notation sum_ok := (verify_node_checksum blake3).
Notation good := (good blake3 ok).
Notation tri := (tri blake3 ok).

(** A node just written: its bytes verify and hold what was built. *)
Lemma written_leaf (v buf : block) es : leaf_is buf es → v = write_node_checksum blake3 buf →
  leaf_is v es ∧ sum_ok v = true.
Proof.
  intros L ->. split; [by apply leaf_is_checksum|by apply verify_written, L].
Qed.

Lemma written_internal (v buf : block) kcs r : internal_is buf kcs r →
  v = write_node_checksum blake3 buf → internal_is v kcs r ∧ sum_ok v = true.
Proof.
  intros I ->. split; [by apply internal_is_checksum|]. apply verify_written; [done|apply I].
Qed.

Lemma split_leaf_spec buf es new st Q :
  good st → leaf_is buf es → zlen es = MAX_LEAF_ENTRIES → entry_wf new →
  (let K := ins (ipos (hash new) es) new es in
   ∀ l r m st1, ext blake3 ok [l; r] st st1 → in_area st l → in_area st r →
     leaf_is (vw blake3 st1 l) (take 18 K) → sum_ok (vw blake3 st1 l) = true →
     leaf_is (vw blake3 st1 r) (drop 18 K) → sum_ok (vw blake3 st1 r) = true →
     K !! 18%nat = Some m → Q (l, r, hash m) [l; r] st1) →
  tri (split_leaf blake3 buf (read_header buf) new) st Q E.
Proof.
  intros G L Hn Hw HQ. set (K := ins (ipos (hash new) es) new es) in *.
  assert (length K = 37%nat) as HK.
  { unfold K. rewrite length_ins. unfold zlen in Hn. change MAX_LEAF_ENTRIES with 36 in Hn. lia. }
  assert (Forall entry_wf K) as HwK by (apply Forall_ins; split; [done|apply L]).
  unfold split_leaf. eapply tri_of_opt; [by apply merged_entries_spec|]. fold K.
  rewrite (li_num _ _ L), Hn. change (Z.to_nat ((MAX_LEAF_ENTRIES + 1) / 2)) with 18%nat.
  destruct (leaf_of_spec (take 18 K)) as (b1 & E1 & L1).
  { unfold zlen. rewrite length_take, HK. done. } { by apply Forall_take. }
  destruct (leaf_of_spec (drop 18 K)) as (b2 & E2 & L2).
  { unfold zlen. rewrite length_drop, HK. done. } { by apply Forall_drop. }
  destruct (lookup_lt_is_Some_2 K 18) as [m Hm]; [lia|].
  eapply tri_alloc2_write2; eauto; [apply L1|apply L2|].
  intros l r st1 X Hl Hr Al Ar. rewrite Hm.
  destruct (written_leaf _ _ _ L1 Hl), (written_leaf _ _ _ L2 Hr).
  apply tri_ret; [apply X|]. by apply HQ.
Qed.

Lemma split_internal_spec buf kcs r0 key left right st Q :
  good st → inode buf kcs r0 → zlen kcs = MAX_INTERNAL_KEYS → kc_wf (key, left) → fits 64 right →
  (let K := ins (kpos key kcs) (key, left) kcs in
   ∀ q c0, position key K = Some q → K !! q = Some (key, c0) → (q ≤ kpos key kcs)%nat →
   let K' := put_kcs (S q) right K in
   let r1 := put_right (S q) right K r0 in
   ∀ l r k c st1, ext blake3 ok [l; r] st st1 → in_area st l → in_area st r →
     K' !! 51%nat = Some (k, c) →
     internal_is (vw blake3 st1 l) (take 51 K') c → sum_ok (vw blake3 st1 l) = true →
     internal_is (vw blake3 st1 r) (drop 52 K') r1 → sum_ok (vw blake3 st1 r) = true →
     Q (l, r, k) [l; r] st1) →
  tri (split_internal blake3 buf (read_header buf) key left right) st Q E.
Proof.
  intros G N Hn Hw Hr HQ. set (K := ins (kpos key kcs) (key, left) kcs) in *. cbv zeta in HQ.
  assert (length K = 102%nat) as HK.
  { unfold K. rewrite length_ins. unfold zlen in Hn. change MAX_INTERNAL_KEYS with 101 in Hn. lia. }
  assert (Forall kc_wf K) as HwK by (apply Forall_ins; split; [done|apply N]).
  unfold split_internal. eapply tri_of_opt; [by eapply merged_keys_spec|]. fold K.
  destruct (position_spec key K (kpos key kcs) left) as (q & Hq & Hqle & c0 & HqK).
  { unfold K. rewrite lookup_ins by apply kpos_le. by rewrite decide_False, decide_True by lia. }
  specialize (HQ q c0 Hq HqK Hqle). eapply tri_of_opt; [exact Hq|]. rewrite HK.
  set (K' := put_kcs (S q) right K) in *. set (r1 := put_right (S q) right K r0) in *.
  assert (fits 64 r1) as Hr1.
  { unfold r1, put_right. case_decide; [by eapply inode_right_fits|done]. }
  assert (length K' = 102%nat) as HK' by (unfold K', put_kcs; by rewrite length_alter).
  assert (Forall kc_wf K') as HwK' by (by apply Forall_put_kcs).
  pose proof (lookup_lt_Some _ _ _ HqK) as Hqlt.
  eapply (tri_bind _ _ _ _ _ (λ x al st', x = (K', r1) ∧ al = [] ∧ st' = st)).
  { case_bool_decide as Eq.
    - apply tri_ret; [done|]. split_and!; try done. f_equal.
      + unfold K', put_kcs. rewrite list_alter_ge; [done|lia].
      + unfold r1, put_right. by rewrite decide_False by lia.
    - destruct (lookup_lt_is_Some_2 K (S q)) as [[k1 c1] H1]; [lia|]. rewrite H1.
      apply tri_of_opt with (k1, c1); [done|]. apply tri_ret; [done|]. split_and!; try done.
      f_equal.
      + unfold K', put_kcs. apply list_eq. intros i.
        rewrite list_lookup_alter. case_decide as Ei.
        * subst i. rewrite list_lookup_insert_eq by lia. by rewrite H1.
        * by rewrite list_lookup_insert_ne by done.
      + unfold r1, put_right. rewrite decide_True by lia. by rewrite (in_right _ _ _ N). }
  intros x al st' _ (-> & -> & ->). rewrite HK'. change (102 / 2)%nat with 51%nat.
  destruct (lookup_lt_is_Some_2 K' 51) as [[k c] Hm]; [lia|].
  pose proof (Forall_lookup_1 _ _ _ _ HwK' Hm) as [_ Hc]. simpl in Hc.
  destruct (internal_of_spec (take 51 K') c) as (b1 & E1 & I1).
  { unfold zlen. rewrite length_take, HK'. done. } { by apply Forall_take. } { done. }
  destruct (internal_of_spec (drop 52 K') r1) as (b2 & E2 & I2).
  { unfold zlen. rewrite length_drop, HK'. done. } { by apply Forall_drop. } { done. }
  eapply tri_of_opt; [exact Hm|].
  eapply tri_alloc2_write2; eauto; [apply I1|apply I2|].
  intros l r st1 X Hl Hr' Al Ar.
  destruct (written_internal _ _ _ _ I1 Hl), (written_internal _ _ _ _ I2 Hr').
  apply tri_ret; [apply X|]. by eapply HQ.
Qed.
End splits.

Section safe.
Context (blake3 : list byte → list byte).
Hypothesis blake3_len : ∀ bs, length (blake3 bs) = 32%nat.
Context {C : Type} `{!BlockStore C} `{!BlockStoreOk C (verify_node_checksum blake3)}.

Notation good := (good blake3 False).
Notation St := (C * Bitmap.t)%type.
Notation any_err := (λ (_ : FsError) (_ : St), True).

Definition safe {A} (m : M St FsError A) (st : St) : Prop :=
  tri blake3 False m st (λ _ _ _, True) any_err.

(** The path holds child indices. *)
Definition path_ok (path : list (Z * Z)) : Prop := Forall (λ x, 0 ≤ x.2) path.

Lemma fixup_path_safe path child old st : good st → path_ok path → fits 64 child →
  safe (fixup_path blake3 path child old) st.
Proof.
  revert child old st. induction path as [|[parent idx] path IH]; intros child old st G Hp Hc; cbn [fixup_path].
  { by apply tri_ret. }
  apply Forall_cons in Hp as [Hi Hp]. simpl in Hi.
  apply tri_read; try done. intros st1 X _ _.
  destruct (inode_any (vw blake3 st parent)) as (kcs & r & N); [by eapply good_view|].
  destruct (put_child_spec _ _ _ (Z.to_nat idx) child N Hc) as (buf & Hbuf & Hb & _).
  rewrite Z2Nat.id in Hbuf by done.
  eapply tri_alloc_write; eauto; [apply X|].
  intros b st2 X2 _ Ha. eapply tri_mono; [apply IH; [apply X2|done|]|done].
  eapply (ext_fresh_pos _ _ _ _ _ b X2). set_solver.
Qed.

Lemma fixup_path_split_safe path left right key old st :
  good st → path_ok path → fits 64 left → fits 64 right → length key = 32%nat →
  safe (fixup_path_split blake3 path left right key old) st.
Proof.
  revert left right key old st.
  induction path as [|[parent idx] path IH]; intros left right key old st G Hp Hl Hr Hk;
    cbn [fixup_path_split].
  { destruct (internal_of_spec [(key, left)] right) as (buf & Hbuf & I); [done|by constructor|done|].
    unfold internal_of in Hbuf. simpl in Hbuf. change (u16 (zlen [(key, left)])) with 1 in Hbuf.
    destruct (set_internal_entry _ 0 key left) as [b|] eqn:Eb; [|done]. simpl in Hbuf. injection Hbuf as ->.
    eapply tri_alloc_write; eauto; [apply I|]. intros b st1 X _ _. apply tri_ret; [apply X|done]. }
  apply Forall_cons in Hp as [Hi Hp]. simpl in Hi.
  apply tri_read; try done. intros st1 X _ _.
  destruct (inode_any (vw blake3 st parent)) as (kcs & r & N); [by eapply good_view|].
  rewrite (in_num _ _ _ N). destruct (Z.ltb_spec (zlen kcs) MAX_INTERNAL_KEYS) as [Hlt|Hge].
  - destruct (add_key_spec _ _ _ key left right N Hlt) as (buf & Hbuf & Hb & _); [done..|].
    eapply tri_alloc_write; eauto; [apply X|].
    intros b st2 X2 _ Ha. eapply tri_mono; [apply fixup_path_safe; [apply X2|done|]|done].
    eapply (ext_fresh_pos _ _ _ _ _ b X2). set_solver.
  - eapply tri_bind.
    { eapply (split_internal_spec blake3 blake3_len False any_err (λ _ _ _, I) (λ _ _, I) _ kcs r _ _ _ _
        (λ x _ _, fits 64 x.1.1 ∧ fits 64 x.1.2 ∧ length x.2 = 32%nat));
        try done; [apply X|pose proof (in_cap _ _ _ N); lia|].
      cbv zeta. intros q c0 _ _ _ l r' k c st2 X2 Al Ar HK _ _ _ _. simpl.
      split_and!; [apply (in_area_pos blake3 False st1); [apply X|done]..|].
      assert (Forall kc_wf (put_kcs (S q) right (ins (kpos key kcs) (key, left) kcs))) as HF.
      { apply Forall_put_kcs; [done|]. apply Forall_ins. split; [done|apply N]. }
      by apply (Forall_lookup_1 _ _ _ _ HF HK). }
    intros [[l r'] k] al st2 X2 (Hl' & Hr' & Hk'). simpl in *.
    eapply tri_mono; [apply IH; try done; apply X2|done].
Qed.

Lemma find_hash_any buf key : is_block buf → magic (read_header buf) = BTREE_NODE_MAGIC →
  node_type (read_header buf) = BTREE_LEAF →
  ∃ es, leaf_is buf es ∧
    find_hash buf (Z.to_nat (num_entries (read_header buf))) 0 key =
      Some ((λ x : nat * BTreeEntryRaw, (Z.of_nat x.1, x.2)) <$> list_find (has_hash key) es).
Proof.
  intros Hb Hm Ht. destruct (leaf_any buf Hb Hm Ht) as [es L]. exists es. split; [done|].
  by apply find_hash_spec.
Qed.

Lemma insert_loop_safe fuel root path b entry st :
  good st → path_ok path → entry_wf entry → (fuel + length path = MAX_TREE_DEPTH)%nat → (0 < fuel)%nat →
  safe (insert_loop blake3 fuel root path b entry) st.
Proof.
  revert path b st. induction fuel as [|fuel IH]; intros path b st G Hp Hw Hf Hpos; [lia|].
  cbn [insert_loop]. apply tri_read; try done. intros st1 X Ev _.
  pose proof (good_view _ _ st b G) as Hb. set (buf := vw blake3 st b) in *.
  destruct (Z.eqb_spec (magic (read_header buf)) BTREE_NODE_MAGIC) as [Hm|]; simpl negb; cbn iota;
    [|apply tri_fail; [apply X|done]].
  destruct (Z.eqb_spec (node_type (read_header buf)) BTREE_LEAF) as [Ht|Ht].
  - destruct (find_hash_any buf (hash entry) Hb Hm Ht) as (es & L & Hfh). rewrite Hfh.
    eapply tri_of_opt; [done|]. destruct (list_find _ es) as [[i e]|]; simpl fmap; cbn iota.
    { apply tri_ret; [apply X|done]. }
    rewrite (li_num _ _ L). destruct (Z.ltb_spec (zlen es) MAX_LEAF_ENTRIES) as [Hlt|Hge].
    + eapply tri_of_opt; [by apply find_leaf_insert_pos_spec|].
      destruct (insert_leaf_entry_spec buf es (ipos (hash entry) es) entry L Hlt) as (nb & Hnb & Lnb);
        [apply ipos_le|done|].
      eapply tri_alloc_write; eauto; [apply X|apply Lnb|].
      intros n st2 X2 _ _. eapply tri_bind.
      { apply fixup_path_safe; [apply X2|done|]. eapply (ext_fresh_pos _ _ _ _ _ n X2). set_solver. }
      intros [rt fr] al st3 X3 _. apply tri_ret; [apply X3|done].
    + eapply tri_bind.
      { eapply (split_leaf_spec blake3 blake3_len False any_err (λ _ _ _, I) (λ _ _, I) buf es _ _
          (λ x _ _, fits 64 x.1.1 ∧ fits 64 x.1.2 ∧ length x.2 = 32%nat));
          try done; [apply X|pose proof (li_cap _ _ L); lia|].
        cbv zeta. intros l r m st2 X2 Al Ar _ _ _ _ HK. simpl.
        split_and!; [apply (in_area_pos blake3 False st1); [apply X|done]..|].
        assert (Forall entry_wf (ins (ipos (hash entry) es) entry es)) as HF
          by (apply Forall_ins; split; [done|apply L]).
        apply (Forall_lookup_1 _ _ _ _ HF HK). }
      intros [[l r] k] al st2 X2 (Hl & Hr & Hk). simpl in *. eapply tri_bind.
      { apply fixup_path_split_safe; try done. apply X2. }
      intros [rt fr] al2 st3 X3 _. apply tri_ret; [apply X3|done].
  - destruct (Z.eqb_spec (node_type (read_header buf)) BTREE_INTERNAL) as [Ht'|Ht'];
      [|apply tri_fail; [apply X|done]].
    destruct (inode_any buf Hb) as (kcs & r & N).
    eapply tri_of_opt; [by eapply find_child_spec|]. cbn iota beta.
    destruct (Nat.leb_spec (MAX_TREE_DEPTH - 1) (length path)); [apply tri_fail; [apply X|done]|].
    unfold MAX_TREE_DEPTH in *.
    eapply tri_mono; [apply IH; try done; simpl; try lia; [apply X|]|done].
    apply Forall_cons. split; [simpl; lia|done].
Qed.

(** In a node without keys [n - 1] wraps and the offset with it, to the
    header's own child field: an in-range read, no panic. *)
Lemma drop_child_empty buf r idx : inode buf [] r → 0 ≤ idx →
  drop_child buf (read_header buf) idx =
    Some (write_header buf (with_count (with_right (read_header buf) r) (2 ^ 16 - 1))).
Proof.
  intros N Hi. unfold drop_child. rewrite (in_num _ _ _ N). change (zlen []) with 0.
  destruct (Z.ltb_spec idx 0); [lia|]. change (u16 (0 - 1)) with (2 ^ 16 - 1).
  assert (internal_child buf (u64 (0 - 1)) = Some r) as ->; [|done].
  unfold internal_child. change (child_off (u64 (0 - 1))) with 8.
  pose proof (in_block _ _ _ N) as Hb. unfold is_block in Hb.
  rewrite sub_Some by (rewrite ?Hb; unfold BLOCK_SIZE; lia). simpl. f_equal.
  rewrite <- (in_right _ _ _ N). done.
Qed.

Lemma drop_child_any buf idx : is_block buf → 0 ≤ idx →
  ∃ buf', drop_child buf (read_header buf) idx = Some buf' ∧ is_block buf'.
Proof.
  intros Hb Hi. destruct (inode_any buf Hb) as (kcs & r & N).
  destruct (decide (kcs = [])) as [->|Hne].
  - eexists. split; [by apply drop_child_empty|]. by apply write_header_block.
  - destruct (drop_child_spec buf kcs r (Z.to_nat idx) N Hne) as (b & Hd & Hb' & _).
    rewrite Z2Nat.id in Hd by done. by exists b.
Qed.

Lemma remove_from_parent_safe path old st : good st → path_ok path →
  safe (remove_from_parent blake3 path old) st.
Proof.
  intros G Hp. destruct path as [|[parent idx] path]; cbn [remove_from_parent].
  { by apply tri_ret. }
  apply Forall_cons in Hp as [Hi Hp]. simpl in Hi.
  apply tri_read; try done. intros st1 X _ _.
  pose proof (good_view _ _ st parent G) as Hb. set (buf := vw blake3 st parent) in *.
  destruct (_ && _) eqn:Econd.
  - apply andb_true_iff in Econd as [Hn _]. destruct (idx =? 0) eqn:Ei.
    + apply tri_ret; [apply X|done].
    + destruct (internal_child buf 0) as [c|] eqn:Ec.
      * eapply tri_of_opt; [done|]. apply tri_ret; [apply X|done].
      * rewrite internal_child_slot in Ec by done. done.
  - destruct (drop_child_any buf idx Hb Hi) as (nb & Hnb & Hbn).
    eapply tri_alloc_write; eauto; [apply X|]. intros n st2 X2 _ _.
    eapply tri_mono; [apply fixup_path_safe; [apply X2|done|]|done].
    eapply (ext_fresh_pos _ _ _ _ _ n X2). set_solver.
Qed.

Lemma delete_loop_safe fuel path b key st :
  good st → path_ok path → (fuel + length path = MAX_TREE_DEPTH)%nat → (0 < fuel)%nat →
  safe (delete_loop blake3 fuel path b key) st.
Proof.
  revert path b st. induction fuel as [|fuel IH]; intros path b st G Hp Hf Hpos; [lia|].
  cbn [delete_loop]. apply tri_read; try done. intros st1 X Ev _.
  pose proof (good_view _ _ st b G) as Hb. set (buf := vw blake3 st b) in *.
  destruct (Z.eqb_spec (magic (read_header buf)) BTREE_NODE_MAGIC) as [Hm|]; simpl negb; cbn iota;
    [|apply tri_fail; [apply X|done]].
  destruct (Z.eqb_spec (node_type (read_header buf)) BTREE_LEAF) as [Ht|Ht].
  - destruct (find_hash_any buf key Hb Hm Ht) as (es & L & Hfh). rewrite Hfh.
    eapply tri_of_opt; [done|]. destruct (list_find _ es) as [[i e]|] eqn:Ef; simpl fmap.
    2:{ apply tri_fail; [apply X|done]. }
    apply list_find_Some in Ef as (Hi & _ & _). pose proof (lookup_lt_Some _ _ _ Hi).
    eapply (tri_bind _ _ _ _ _ (λ x al st', x = (Z.of_nat i, e) ∧ st' = st1)).
    { apply tri_ret; [apply X|done]. }
    intros x al st2 _ [-> ->]. cbn iota beta.
    destruct (_ && negb _).
    { eapply tri_mono; [apply remove_from_parent_safe; [apply X|done]|done]. }
    destruct (remove_leaf_entry_spec buf es i L) as (nb & Hnb & Lnb); [done|].
    eapply tri_alloc_write; eauto; [apply X|apply Lnb|].
    intros n st2 X2 _ _. destruct (_ && _); [apply tri_ret; [apply X2|done]|].
    eapply tri_mono; [apply fixup_path_safe; [apply X2|done|]|done].
    eapply (ext_fresh_pos _ _ _ _ _ n X2). set_solver.
  - destruct (Z.eqb_spec (node_type (read_header buf)) BTREE_INTERNAL) as [Ht'|Ht'];
      [|apply tri_fail; [apply X|done]].
    destruct (inode_any buf Hb) as (kcs & r & N).
    eapply tri_of_opt; [by eapply find_child_spec|]. cbn iota beta.
    destruct (Nat.leb_spec (MAX_TREE_DEPTH - 1) (length path)); [apply tri_fail; [apply X|done]|].
    unfold MAX_TREE_DEPTH in *.
    eapply tri_mono; [apply IH; try done; simpl; try lia; [apply X|]|done].
    apply Forall_cons. split; [simpl; lia|done].
Qed.

(** ** Lookup and walk only read *)
Definition reads {A} (m : M C FsError A) (c : C) (P : A → Prop) : Prop :=
  wp m (λ r c', store_inv c' ∧ same (view c) (view c') ∧ (healthy c → healthy c') ∧
          match r with Ok a => P a | Err _ => True | Panic => False end) c.

Lemma lookup_loop_safe fuel b key c : store_inv c →
  reads (lookup_loop blake3 fuel b key) c (λ o, ∀ e, o = Some e → entry_wf e).
Proof.
  revert b c. induction fuel as [|fuel IH]; intros b c Hi; cbn [lookup_loop].
  { apply wp_fail. by split_and!. }
  apply wp_bind. eapply wp_mono; [by apply read_node_c|].
  intros [buf|e|] c1 (H1 & H2 & H3 & H4); [| by split_and! |done].
  destruct H4 as [-> _]. pose proof (view_block c b Hi) as Hb. set (buf := view c b) in *.
  destruct (Z.eqb_spec (magic (read_header buf)) BTREE_NODE_MAGIC) as [Hm|]; simpl negb; cbn iota;
    [|apply wp_fail; by split_and!].
  destruct (Z.eqb_spec (node_type (read_header buf)) BTREE_LEAF) as [Ht|Ht].
  { destruct (find_hash_any buf key Hb Hm Ht) as (es & L & Hfh). apply wp_bind.
    eapply wp_of_opt; [exact Hfh|]. apply wp_ret. split_and!; try done. intros e He.
    destruct (list_find _ es) as [[i y]|] eqn:El; [|done]. injection He as <-. apply list_find_Some in El as (Hy & _).
    by eapply Forall_lookup_1, Hy; apply L. }
  destruct (node_type (read_header buf) =? BTREE_INTERNAL); [|apply wp_fail; by split_and!].
  destruct (inode_any buf Hb) as (kcs & r & N). apply wp_bind.
  eapply wp_of_opt; [unfold find_child_block; by rewrite (find_child_spec _ _ _ _ N)|].
  eapply wp_mono; [by apply IH|]. intros rr c' (? & ? & ? & ?). split_and!; auto. by etrans.
Qed.

Lemma walk_entries_from buf es2 es1 : leaf_is buf (es1 ++ es2) →
  walk_entries buf (length es2) (zlen es1) = Some es2.
Proof.
  revert es1. induction es2 as [|e es2 IH]; intros es1 L; [done|]. cbn [length walk_entries].
  rewrite (leaf_is_split _ _ _ _ L). cbn [mbind option_bind].
  replace (es1 ++ e :: es2) with ((es1 ++ [e]) ++ es2) in L by (by rewrite <- app_assoc).
  specialize (IH _ L). rewrite zlen_app in IH. change (zlen [e]) with 1 in IH. by rewrite IH.
Qed.

Lemma walk_children_from buf r kcs2 kcs1 : inode buf (kcs1 ++ kcs2) r →
  walk_children buf (length kcs2) (zlen kcs1) = Some (map snd kcs2).
Proof.
  revert kcs1. induction kcs2 as [|[k c] kcs2 IH]; intros kcs1 N; [done|]. cbn [length walk_children].
  destruct (inode_lookup _ _ _ (length kcs1) k c N) as (_ & Hc & _); [by apply list_lookup_middle|].
  change (Z.of_nat (length kcs1)) with (zlen kcs1) in Hc. rewrite Hc. cbn [mbind option_bind].
  replace (kcs1 ++ (k, c) :: kcs2) with ((kcs1 ++ [(k, c)]) ++ kcs2) in N by (by rewrite <- app_assoc).
  specialize (IH _ N). rewrite zlen_app in IH. change (zlen [(k, c)]) with 1 in IH. by rewrite IH.
Qed.

Lemma visit_leaf buf b es : leaf_is buf es → visit buf b = Some (map Entry es, []).
Proof.
  intros L. unfold visit. rewrite (li_magic _ _ L), (li_type _ _ L), (li_num _ _ L). simpl.
  rewrite Z.min_l by apply L. unfold zlen. rewrite Nat2Z.id. pose proof (walk_entries_from buf es [] L) as E.
  change (zlen []) with 0 in E. by rewrite E.
Qed.

Definition nonzero (l : list Z) : list Z := List.filter (λ c, negb (c =? 0)) l.

Lemma visit_internal buf b kcs r : internal_is buf kcs r →
  visit buf b = Some (map Child (nonzero (map snd kcs ++ [r])), nonzero (map snd kcs ++ [r])).
Proof.
  intros [[Hm Ht] N]. unfold visit. rewrite Hm, Ht, (in_num _ _ _ N), (in_right _ _ _ N). simpl.
  rewrite Z.min_l by apply N. unfold zlen. rewrite Nat2Z.id. pose proof (walk_children_from buf r kcs [] N) as E.
  change (zlen []) with 0 in E. by rewrite E.
Qed.

Lemma visit_any buf b : is_block buf →
  ∃ ws ch, visit buf b = Some (ws, ch) ∧ (length ch ≤ 102)%nat.
Proof.
  intros Hb. destruct (decide (magic (read_header buf) = BTREE_NODE_MAGIC)) as [Hm|Hm].
  2:{ unfold visit. rewrite (proj2 (Z.eqb_neq _ _)) by done. simpl. eexists _, _. split; [done|simpl; lia]. }
  destruct (decide (node_type (read_header buf) = BTREE_LEAF)) as [Ht|Ht].
  { destruct (leaf_any buf Hb Hm Ht) as [es L]. rewrite (visit_leaf _ b _ L). eexists _, _.
    split; [done|simpl; lia]. }
  destruct (decide (node_type (read_header buf) = BTREE_INTERNAL)) as [Hi|Hi].
  { destruct (inode_any buf Hb) as (kcs & r & N).
    rewrite (visit_internal _ b kcs r) by done. eexists _, _. split; [done|].
    unfold nonzero. etrans; [apply List.filter_length_le|]. rewrite length_app, length_map. simpl.
    pose proof (in_cap _ _ _ N) as Hc. change MAX_INTERNAL_KEYS with 101 in Hc. unfold zlen in Hc. lia. }
  unfold visit. rewrite Hm. simpl. rewrite !(proj2 (Z.eqb_neq _ _)) by done. eexists _, _.
  split; [done|simpl; lia].
Qed.

(** Work left on the stack: a node at depth [d] stands for at most
    [103 ^ (65 - d)] visits. *)
Definition weight (d : Z) : Z := 103 ^ Z.max 0 (65 - d).
Fixpoint work (todo : list (Z * Z)) : Z :=
  match todo with
  | [] => 0
  | (_, d) :: todo => weight d + work todo
  end.

Lemma weight_pos d : 1 ≤ weight d.
Proof. unfold weight. pose proof (Z.pow_pos_nonneg 103 (Z.max 0 (65 - d))). lia. Qed.

Lemma weight_step d : d ≤ 64 → weight d = 103 * weight (d + 1).
Proof.
  intros. unfold weight. replace (Z.max 0 (65 - d)) with (Z.succ (Z.max 0 (65 - (d + 1)))) by lia.
  rewrite Z.pow_succ_r by lia. done.
Qed.

Lemma work_pushed d ch todo :
  work (map (λ x, (x, d)) ch ++ todo) = Z.of_nat (length ch) * weight d + work todo.
Proof. induction ch as [|x ch IH]; [simpl; lia|]. simpl map. cbn [app work]. rewrite IH. simpl length. lia. Qed.

Lemma work_nonneg todo : 0 ≤ work todo.
Proof. induction todo as [|[b d] todo IH]; simpl; [lia|]. pose proof (weight_pos d). lia. Qed.

Lemma walk_loop_safe fuel todo seen out c : store_inv c → work todo ≤ Z.of_nat fuel →
  wp (walk_loop blake3 fuel todo seen out)
     (λ r c', store_inv c' ∧ same (view c) (view c') ∧ ∃ ws, r = Ok ws) c.
Proof.
  revert todo seen out c. induction fuel as [|fuel IH]; intros todo seen out c Hi Hw.
  all: destruct todo as [|[b d] todo]; [split_and!; [done..|by eexists]|].
  all: pose proof (weight_pos d) as Hp; pose proof (work_nonneg todo); cbn [work] in Hw.
  { lia. }
  unfold wp. cbn [walk_loop]. destruct (Z.ltb_spec 64 d) as [Hd|Hd]; [apply IH; [done|lia]|].
  case_bool_decide; [apply IH; [done|lia]|].
  pose proof (read_node_c blake3 c b Hi) as Hr. unfold wp in Hr.
  destruct (read_node blake3 b c) as [[buf|e|] c1]; destruct Hr as (H1 & H2 & _ & H4); [| |done].
  - destruct (visit_any buf b) as (ws & ch & -> & Hch); [destruct H4 as [-> _]; by apply view_block|].
    pose proof (IH (map (λ x, (x, d + 1)) ch ++ todo) ({[b]} ∪ seen) (out ++ ws) c1 H1) as IH'.
    unfold wp in IH'. rewrite work_pushed in IH'. rewrite weight_step in Hw by done.
    pose proof (weight_pos (d + 1)). specialize (IH' ltac:(nia)).
    destruct (walk_loop _ _ _ _ _ c1) as [r c2]. destruct IH' as (? & ? & ?). split_and!; [done|by etrans|done].
  - assert (∀ why, let '(r, c') := walk_loop blake3 fuel todo ({[b]} ∪ seen) (out ++ [Skip b why]) c1 in
      store_inv c' ∧ same (view c) (view c') ∧ ∃ ws, r = Ok ws) as Hskip.
    { intros why. pose proof (IH todo ({[b]} ∪ seen) (out ++ [Skip b why]) c1 H1 ltac:(lia)) as IH'.
      unfold wp in IH'. destruct (walk_loop _ _ _ _ _ c1) as [r c2].
      destruct IH' as (? & ? & ?). split_and!; [done|by etrans|done]. }
    destruct e; apply Hskip.
Qed.

Lemma enough_fuel z : ∃ n : nat, z ≤ Z.of_nat n.
Proof. exists (Z.to_nat z). lia. Qed.

(** ** Claims *)

(** C24. No disk content makes the tree code panic.  For every store and
    allocator satisfying their invariants, whatever bytes the tree's blocks
    hold and whatever they point to, [lookup], [insert] and [delete] end with
    a value or an error, their loops within [MAX_TREE_DEPTH] steps; a lookup
    changes no block, an insertion or deletion only blocks that were free. *)
Theorem tree_never_panics (c : C) (s : Bitmap.t) root key entry :
  store_inv c → inv s → entry_wf entry →
  (let '(r, c') := Btree.lookup blake3 root key c in r ≠ Panic ∧ same (view c) (view c')) ∧
  (let '(r, (c', s')) := Btree.insert blake3 root entry (c, s) in
   r ≠ Panic ∧ inv s' ∧ ∀ b, 0 ≤ b → used (Bitmap.data s) b = true → view c' b = view c b) ∧
  (let '(r, (c', s')) := Btree.delete blake3 root key (c, s) in
   r ≠ Panic ∧ inv s' ∧ ∀ b, 0 ≤ b → used (Bitmap.data s) b = true → view c' b = view c b).
Proof.
  intros Hc Hs Hw. assert (good (c, s)) as G by (by split).
  assert (∀ {A} (m : M St FsError A), safe m (c, s) →
    let '(r, (c', s')) := m (c, s) in
    r ≠ Panic ∧ inv s' ∧ ∀ b, 0 ≤ b → used (Bitmap.data s) b = true → view c' b = view c b) as Hsafe.
  { intros A m H. unfold safe, tri, wp in H. destruct (m (c, s)) as [r [c' s']].
    destruct H as (al & X & H). split_and!; [by intros ->|apply (gd_map _ _ _ (x_good _ _ _ _ _ X))|].
    intros b Hb Hu. by apply (ext_keeps _ _ _ _ _ b X). }
  split_and!.
  - unfold Btree.lookup. destruct (root =? 0); [done|].
    pose proof (lookup_loop_safe MAX_TREE_DEPTH root key c Hc) as H. unfold reads, wp in H.
    destruct (lookup_loop _ _ _ _ c) as [r c']. destruct H as (_ & ? & _ & H).
    split; [by intros ->|done].
  - apply Hsafe. unfold Btree.insert. destruct (root =? 0); [|apply insert_loop_safe;
      [done|by constructor|done|done|unfold MAX_TREE_DEPTH; lia]].
    destruct (set_leaf_entry_slot (write_header make_empty_leaf (with_count (read_header make_empty_leaf) 1)) 0 entry)
      as (buf & Hbuf & Hbb & _); [by apply write_header_block, write_header_block, zero_block_block|done|done|].
    eapply tri_alloc_write; eauto. intros n st1 X _ _. apply tri_ret; [apply X|done].
  - apply Hsafe. unfold Btree.delete. destruct (root =? 0); [by apply tri_fail|].
    apply delete_loop_safe; [done|by constructor|done|unfold MAX_TREE_DEPTH; lia].
Qed.

(** The tolerant walk ends on every disk: cycles, shared children and
    nodes nested past depth 64 included, it returns what it reported without
    a panic and without changing a block. *)
Theorem walk_terminates (c : C) root : store_inv c →
  ∃ fuel ws c', walk blake3 fuel root 0 c = (Ok ws, c') ∧ same (view c) (view c').
Proof.
  intros Hi. destruct (enough_fuel (work [(root, 0)])) as [fuel Hf]. exists fuel. unfold walk.
  pose proof (walk_loop_safe fuel [(root, 0)] ∅ [] c Hi Hf) as H. unfold wp in H.
  destruct (walk_loop _ _ _ _ _ c) as [r c']. destruct H as (_ & ? & ws & ->). eauto.
Qed.
End safe.

(** ** An empty disk of zeros *)
Definition ex_hash (bs : list byte) : list byte := replicate 32 x00.
Definition ex_entry : BTreeEntryRaw := entry_of (replicate 112 x01).

Lemma ex_entry_wf : entry_wf ex_entry.
Proof. by apply entry_of_wf. Qed.

Lemma tree_never_panics_witness :
  (Btree.lookup ex_hash 20 (hash ex_entry) (∅ : MemStore)).1 = Err Corrupt ∧
  (Btree.insert ex_hash 20 ex_entry (∅ : MemStore, ex_fresh)).1 ≠ Panic.
Proof.
  destruct (tree_never_panics ex_hash ltac:(done) (C := MemStore) ∅ ex_fresh 20 (hash ex_entry) ex_entry)
    as (_ & H & _).
  - apply map_Forall_empty.
  - exact ex_fresh_inv.
  - exact ex_entry_wf.
  - split; [vm_compute; reflexivity|]. destruct (Btree.insert _ _ _ _) as [r [c s]]. apply H.
Defined.

Lemma walk_terminates_witness :
  ∃ fuel ws c', walk ex_hash fuel 20 0 (∅ : MemStore) = (Ok ws, c').
Proof.
  destruct (walk_terminates ex_hash (C := MemStore) ∅ 20) as (fuel & ws & c' & E & _).
  - apply map_Forall_empty.
  - exists fuel, ws, c'. exact E.
Defined.
