(* ===== verification/BtreeRep.v ===== *)
(** * The tree a disk holds

    [rep f h lo hi b m bs]: under the view [f] of the disk, block [b] is the root
    of a search tree of height [h] whose entries, in key order, are [m], all in
    the key interval [lo .. hi), and whose nodes are the blocks [bs].  [ctx] is a
    tree with a hole, along the path the descent records; plugging, splitting and
    removing the child in the hole are lemmas on it. *)

From S2P Require Import Prelude Bytes Format BlockStore Bitmap BitmapSpec BtreeNode Btree BtreeNodeSpec.

(** ** Key intervals

    [None] is unbounded on its side. *)
Notation bound := (option (list byte)).

Definition above (lo : bound) (k : list byte) : Prop :=
  match lo with None => True | Some l => ¬ bytes_lt k l end.
Definition over (lo : bound) (k : list byte) : Prop :=
  match lo with None => True | Some l => bytes_lt l k end.
Definition below (k : list byte) (hi : bound) : Prop :=
  match hi with None => True | Some h => bytes_lt k h end.

(** [lo1] is no higher than [lo2]; [hi1] no higher than [hi2]. *)
Definition lo_le (lo1 lo2 : bound) : Prop :=
  match lo1, lo2 with
  | None, _ => True
  | Some _, None => False
  | Some a, Some b => ¬ bytes_lt b a
  end.
Definition hi_le (hi1 hi2 : bound) : Prop :=
  match hi1, hi2 with
  | _, None => True
  | None, Some _ => False
  | Some a, Some b => ¬ bytes_lt b a
  end.

Lemma not_lt_le_trans a b c : ¬ bytes_lt b a → bytes_lt b c → bytes_lt a c.
Proof.
  intros H1 H2. destruct (bytes_lt_trichotomy a b) as [?|[->|?]]; [by eapply bytes_lt_trans|done|done].
Qed.
Lemma lt_not_lt_trans a b c : bytes_lt a b → ¬ bytes_lt c b → bytes_lt a c.
Proof.
  intros H1 H2. destruct (bytes_lt_trichotomy b c) as [?|[->|?]]; [by eapply bytes_lt_trans|done|done].
Qed.
Lemma not_lt_trans a b c : ¬ bytes_lt b a → ¬ bytes_lt c b → ¬ bytes_lt c a.
Proof. intros H1 H2 H3. apply H2. by eapply lt_not_lt_trans. Qed.

Lemma lo_le_refl lo : lo_le lo lo.
Proof. destruct lo; simpl; [apply bytes_lt_irrefl|done]. Qed.
Lemma hi_le_refl hi : hi_le hi hi.
Proof. destruct hi; simpl; [apply bytes_lt_irrefl|done]. Qed.
Lemma lo_le_trans a b c : lo_le a b → lo_le b c → lo_le a c.
Proof. destruct a, b, c; simpl; try done. apply not_lt_trans. Qed.
Lemma above_le lo1 lo2 k : lo_le lo1 lo2 → above lo2 k → above lo1 k.
Proof. destruct lo1, lo2; simpl; try done. apply not_lt_trans. Qed.
Lemma over_le lo1 lo2 k : lo_le lo1 lo2 → over lo2 k → over lo1 k.
Proof. destruct lo1, lo2; simpl; try done. apply not_lt_le_trans. Qed.
Lemma below_le k hi1 hi2 : hi_le hi1 hi2 → below k hi1 → below k hi2.
Proof. destruct hi1, hi2; simpl; try done. intros ??. by eapply lt_not_lt_trans. Qed.
Lemma over_above lo k : over lo k → above lo k.
Proof. destruct lo; simpl; [apply bytes_lt_asym|done]. Qed.
Lemma over_lo_le lo k : over lo k → lo_le lo (Some k).
Proof. destruct lo; simpl; [apply bytes_lt_asym|done]. Qed.
Lemma below_hi_le k hi : below k hi → hi_le (Some k) hi.
Proof. destruct hi; simpl; [apply bytes_lt_asym|done]. Qed.

#[global] Hint Resolve lo_le_refl hi_le_refl over_above over_lo_le below_hi_le : npk.

(** ** Sorted entries *)
Definition entry_lt (a b : BTreeEntryRaw) : Prop := bytes_lt (hash a) (hash b).
Definition sorted : list BTreeEntryRaw → Prop := StronglySorted entry_lt.
Definition inb (lo hi : bound) (e : BTreeEntryRaw) : Prop := above lo (hash e) ∧ below (hash e) hi.

Lemma sorted_app a b :
  sorted (a ++ b) ↔ sorted a ∧ sorted b ∧ ∀ x y, x ∈ a → y ∈ b → entry_lt x y.
Proof.
  unfold sorted. induction a as [|z a IH]; simpl.
  { split; [intros; split_and!; [constructor|done|set_solver]|naive_solver]. }
  split.
  - intros H. inversion H as [|? ? Hs Hf]; subst. apply IH in Hs as (? & ? & Hab).
    apply Forall_app in Hf as [Hf1 Hf2]. split_and!; [by constructor|done|].
    intros x y Hx Hy. apply elem_of_cons in Hx as [->|Hx]; [|by apply Hab].
    rewrite Forall_forall in Hf2. by apply Hf2.
  - intros (H & Hb & Hab). inversion H as [|? ? Hs Hf]; subst. constructor.
    + apply IH. split_and!; [done..|]. intros x y Hx Hy. apply Hab; [by right|done].
    + apply Forall_app. split; [done|]. apply Forall_forall. intros y Hy. apply Hab; [by left|done].
Qed.

Lemma sorted_hash_inj m x y : sorted m → x ∈ m → y ∈ m → hash x = hash y → x = y.
Proof.
  unfold sorted. induction 1 as [|z m Hs IH Hf]; [set_solver|]. intros Hx Hy E.
  rewrite Forall_forall in Hf. unfold entry_lt in Hf.
  apply elem_of_cons in Hx as [->|Hx], Hy as [?|Hy]; subst; auto.
  - pose proof (Hf y Hy) as Hlt. rewrite E in Hlt. by apply bytes_lt_irrefl in Hlt.
  - pose proof (Hf x Hx) as Hlt. rewrite E in Hlt. by apply bytes_lt_irrefl in Hlt.
Qed.

(** Everything in the first list below [k], everything in the second above. *)
Definition around (k : list byte) (ml mr : list BTreeEntryRaw) : Prop :=
  Forall (λ e, bytes_lt (hash e) k) ml ∧ Forall (λ e, bytes_lt k (hash e)) mr.

Lemma around_app k a b c d : around k a d → around k b c → around k (a ++ b) (c ++ d).
Proof. intros [] []. split; by apply Forall_app. Qed.

(** ** Children in order *)
Section kids.
Context (R : bound → bound → Z → list BTreeEntryRaw → list Z → Prop).

(** The subtrees left of each key, from [lo] up to the last key [lo']. *)
Inductive lefts (hi : bound) : bound → list kc → list BTreeEntryRaw → list Z → bound → Prop :=
  | lefts_nil lo : lefts hi lo [] [] [] lo
  | lefts_cons lo k c l m ms bs bss lo' :
      over lo k → below k hi → R lo (Some k) c m bs → lefts hi (Some k) l ms bss lo' →
      lefts hi lo ((k, c) :: l) (m ++ ms) (bs ++ bss) lo'.

Definition kids (lo hi : bound) (kcs : list kc) (r : Z) (m : list BTreeEntryRaw) (bs : list Z) : Prop :=
  ∃ lo' m1 b1 m2 b2, lefts hi lo kcs m1 b1 lo' ∧ R lo' hi r m2 b2 ∧ m = m1 ++ m2 ∧ bs = b1 ++ b2.

Lemma lefts_app hi lo l1 l2 m bs lo' :
  lefts hi lo (l1 ++ l2) m bs lo' ↔
  ∃ mid m1 b1 m2 b2, lefts hi lo l1 m1 b1 mid ∧ lefts hi mid l2 m2 b2 lo' ∧ m = m1 ++ m2 ∧ bs = b1 ++ b2.
Proof.
  revert lo m bs. induction l1 as [|[k c] l1 IH]; intros lo m bs; simpl.
  - split.
    + intros H. exists lo, [], [], m, bs. split_and!; try done. constructor.
    + intros (mid & m1 & b1 & m2 & b2 & H1 & H2 & -> & ->). inversion H1; subst. done.
  - split.
    + intros H. inversion H as [|? ? ? ? m0 ms bs0 bss ? Ho Hb HR Hl]; subst.
      apply IH in Hl as (mid & m1 & b1 & m2 & b2 & H1 & H2 & -> & ->).
      exists mid, (m0 ++ m1), (bs0 ++ b1), m2, b2. split_and!; [by constructor|done|by rewrite app_assoc..].
    + intros (mid & m1 & b1 & m2 & b2 & H1 & H2 & -> & ->).
      inversion H1 as [|? ? ? ? m0 ms bs0 bss ? Ho Hb HR Hl]; subst. rewrite <- !app_assoc.
      constructor; try done. apply IH. naive_solver.
Qed.

Lemma kids_cons lo hi k c l r m bs :
  kids lo hi ((k, c) :: l) r m bs ↔
  ∃ m1 b1 m2 b2, over lo k ∧ below k hi ∧ R lo (Some k) c m1 b1 ∧ kids (Some k) hi l r m2 b2 ∧
    m = m1 ++ m2 ∧ bs = b1 ++ b2.
Proof.
  unfold kids. split.
  - intros (lo' & m1 & b1 & m2 & b2 & H1 & H2 & -> & ->).
    inversion H1 as [|? ? ? ? m0 ms bs0 bss ? Ho Hb HR Hl]; subst.
    exists m0, bs0, (ms ++ m2), (bss ++ b2). rewrite !app_assoc. split_and!; try done. by eexists _, _, _, _, _.
  - intros (m1 & b1 & m2 & b2 & Ho & Hb & HR & (lo' & ma & ba & mb & bb & H1 & H2 & -> & ->) & -> & ->).
    exists lo', (m1 ++ ma), (b1 ++ ba), mb, bb. rewrite !app_assoc. split_and!; try done. by constructor.
Qed.

(** A key list and its last bound. *)
Lemma lefts_bounds hi lo l m bs lo' : lefts hi lo l m bs lo' →
  lo_le lo lo' ∧ Forall (λ x, over lo x.1 ∧ below x.1 hi) l ∧ Forall (λ x, lo_le (Some x.1) lo') l.
Proof.
  induction 1 as [lo|lo k c l m ms bs bss lo' Ho Hb HR Hl (IH1 & IH2 & IH3)].
  { split_and!; auto with npk. }
  pose proof (over_lo_le _ _ Ho) as Hle. split_and!; [by eapply lo_le_trans| |].
  - constructor; [done|]. eapply Forall_impl; [exact IH2|]. intros x [? ?]. split; [by eapply over_le|done].
  - constructor; done.
Qed.

(** ** A hole in a node *)
Inductive kctx (lo hi : bound) : list kc → Z → nat → bound → bound →
    list BTreeEntryRaw → list Z → list BTreeEntryRaw → list Z → Prop :=
  | kctx_last l1 r m1 b1 clo :
      lefts hi lo l1 m1 b1 clo → kctx lo hi l1 r (length l1) clo hi m1 b1 [] []
  | kctx_mid l1 k c l2 r m1 b1 clo m2 b2 :
      lefts hi lo l1 m1 b1 clo → over clo k → below k hi → kids (Some k) hi l2 r m2 b2 →
      kctx lo hi (l1 ++ (k, c) :: l2) r (length l1) clo (Some k) m1 b1 m2 b2.

Lemma put_kcs_middle l1 k c l2 c' :
  put_kcs (length l1) c' (l1 ++ (k, c) :: l2) = l1 ++ (k, c') :: l2.
Proof.
  unfold put_kcs. replace (length l1) with (length l1 + 0)%nat by lia. by rewrite alter_app_r.
Qed.

Lemma kctx_plug lo hi kcs r p clo chi m1 b1 m2 b2 c' m' b' :
  kctx lo hi kcs r p clo chi m1 b1 m2 b2 → R clo chi c' m' b' →
  kids lo hi (put_kcs p c' kcs) (put_right p c' kcs r) (m1 ++ m' ++ m2) (b1 ++ b' ++ b2).
Proof.
  destruct 1 as [l1 r m1 b1 clo Hl|l1 k c l2 r m1 b1 clo m2 b2 Hl Ho Hb Hk]; intros HR.
  - unfold put_kcs, put_right. rewrite list_alter_ge, decide_False by lia. rewrite !app_nil_r.
    by eexists _, _, _, _, _.
  - rewrite put_kcs_middle. unfold put_right. rewrite decide_True by (rewrite length_app; simpl; lia).
    destruct Hk as (lo' & ma & ba & mb & bb & H1 & H2 & -> & ->).
    exists lo', (m1 ++ m' ++ ma), (b1 ++ b' ++ ba), mb, bb. rewrite !app_assoc. split_and!; try done.
    rewrite <- !app_assoc. apply lefts_app. eexists clo, _, _, _, _. split_and!; [done| |done..].
    by constructor.
Qed.

Lemma kctx_split lo hi kcs r p clo chi m1 b1 m2 b2 k cl ml bl cr mr br :
  kctx lo hi kcs r p clo chi m1 b1 m2 b2 → hi_le chi hi →
  over clo k → below k chi → R clo (Some k) cl ml bl → R (Some k) chi cr mr br →
  kids lo hi (add_kcs p k cl cr kcs) (add_right p cr kcs r) (m1 ++ (ml ++ mr) ++ m2) (b1 ++ (bl ++ br) ++ b2).
Proof.
  unfold add_kcs, add_right, ins.
  destruct 1 as [l1 r m1 b1 clo Hl|l1 k0 c l2 r m1 b1 clo m2 b2 Hl Ho Hb Hk]; intros Hch Hok Hbk HL HR.
  - rewrite take_ge, drop_ge by lia. rewrite decide_False by lia. unfold put_kcs.
    rewrite list_alter_ge by (rewrite length_app; simpl; lia). rewrite !app_nil_r, !app_assoc.
    exists (Some k), (m1 ++ ml), (b1 ++ bl), mr, br. split_and!; try done.
    apply lefts_app. eexists clo, _, _, _, _. split_and!; [done| |done..].
    rewrite <- (app_nil_r ml), <- (app_nil_r bl). constructor; try done. constructor.
  - rewrite decide_True by (rewrite length_app; simpl; lia).
    rewrite take_app_length, drop_app_length.
    replace (l1 ++ (k, cl) :: (k0, c) :: l2) with ((l1 ++ [(k, cl)]) ++ (k0, c) :: l2) by (by rewrite <- app_assoc).
    replace (S (length l1)) with (length (l1 ++ [(k, cl)])) by (rewrite length_app; simpl; lia).
    rewrite put_kcs_middle. destruct Hk as (lo' & ma & ba & mb & bb & H1 & H2 & -> & ->).
    exists lo', (m1 ++ ml ++ mr ++ ma), (b1 ++ bl ++ br ++ ba), mb, bb.
    rewrite <- !app_assoc. split_and!; try done. simpl.
    apply lefts_app. eexists clo, m1, b1, _, _. split_and!; [done| |done..].
    constructor; try done; [by eapply below_le|]. by constructor.
Qed.

Lemma kctx_cons lo hi k c l r p clo chi m0 b0 m1 b1 m2 b2 :
  over lo k → below k hi → R lo (Some k) c m0 b0 → kctx (Some k) hi l r p clo chi m1 b1 m2 b2 →
  kctx lo hi ((k, c) :: l) r (S p) clo chi (m0 ++ m1) (b0 ++ b1) m2 b2.
Proof.
  intros Ho Hb HR [l1 r' m1' b1' clo' Hl|l1 k0 c0 l2 r' m1' b1' clo' m2' b2' Hl Ho' Hb' Hk].
  - apply (kctx_last lo hi ((k, c) :: l1)). by constructor.
  - apply (kctx_mid lo hi ((k, c) :: l1)); try done. by constructor.
Qed.

(** The child a search for [key] goes to. *)
Lemma kids_focus lo hi kcs r m bs key :
  kids lo hi kcs r m bs → above lo key → below key hi →
  ∃ clo chi mc bc m1 b1 m2 b2,
    kctx lo hi kcs r (kpos key kcs) clo chi m1 b1 m2 b2 ∧
    R clo chi (child_at kcs r (kpos key kcs)) mc bc ∧ above clo key ∧ below key chi ∧
    lo_le lo clo ∧ hi_le chi hi ∧ m = m1 ++ mc ++ m2 ∧ bs = b1 ++ bc ++ b2.
Proof.
  revert lo m bs. induction kcs as [|[k c] kcs IH]; intros lo m bs Hk Ha Hb.
  - destruct Hk as (lo' & m1 & b1 & m2 & b2 & Hl & HR & -> & ->). inversion Hl; subst.
    exists lo', hi, m2, b2, [], [], [], []. rewrite !app_nil_r. split_and!; auto with npk.
    apply (kctx_last lo' hi []). constructor.
  - apply kids_cons in Hk as (m1 & b1 & m2 & b2 & Ho & Hbk & HR & Hk & -> & ->). simpl kpos.
    destruct (bytes_ltb key k) eqn:E.
    1: exists lo, (Some k), m1, b1, [], [], m2, b2; split_and!; auto with npk;
      [apply (kctx_mid lo hi [] k c); auto; constructor].
    all: destruct (IH (Some k) m2 b2 Hk) as (clo & chi & mc & bc & ma & ba & mb & bb & H1 & H2 & H3 & H4 & H5 & H6 & -> & ->);
      [unfold above, bytes_lt; by rewrite E|done|].
    all: exists clo, chi, mc, bc, (m1 ++ ma), (b1 ++ ba), mb, bb; rewrite <- !app_assoc.
    all: split_and!; try done; [by eapply kctx_cons|].
    all: eapply lo_le_trans; [by apply over_lo_le|done].
Qed.

(** The recorded index is where any key of the hole's interval belongs. *)
Lemma kctx_kpos lo hi kcs r p clo chi m1 b1 m2 b2 k :
  kctx lo hi kcs r p clo chi m1 b1 m2 b2 → above clo k → below k chi → kpos k kcs = p.
Proof.
  assert (∀ l1 l2, Forall (λ x : kc, ¬ bytes_lt k x.1) l1 → kpos k (l1 ++ l2) = (length l1 + kpos k l2)%nat) as Happ.
  { induction l1 as [|[k0 c0] l1 IH]; intros l2; [done|]. intros [H0 Hl]%Forall_cons. simpl in *.
    destruct (bytes_ltb k k0) eqn:E; [by unfold bytes_lt in H0|]. by rewrite IH. }
  assert (∀ l m b c, lefts hi lo l m b c → above c k → Forall (λ x : kc, ¬ bytes_lt k x.1) l) as Hl.
  { intros l m b c Hl Hc. destruct (lefts_bounds _ _ _ _ _ _ Hl) as (_ & _ & H3).
    eapply Forall_impl; [exact H3|]. intros x Hx. destruct c as [c|]; [|done]. simpl in *.
    by eapply not_lt_trans. }
  destruct 1 as [l1 r m1 b1 clo H|l1 k0 c l2 r m1 b1 clo m2 b2 H Ho Hb Hk]; intros Ha Hbe.
  - rewrite <- (app_nil_r l1) at 1. rewrite Happ by eauto. simpl. lia.
  - rewrite Happ by eauto. simpl. simpl in Hbe. unfold bytes_lt in Hbe. rewrite Hbe. lia.
Qed.

(** No key of the node lies strictly inside the hole's interval. *)
Lemma kctx_fresh lo hi kcs r p clo chi m1 b1 m2 b2 k i x :
  kctx lo hi kcs r p clo chi m1 b1 m2 b2 → over clo k → kcs !! i = Some x → (i < p)%nat → x.1 ≠ k.
Proof.
  assert (∀ l m b c, lefts hi lo l m b c → over c k → l !! i = Some x → x.1 ≠ k) as Hl.
  { intros l m b c Hl Hc Hi E. destruct (lefts_bounds _ _ _ _ _ _ Hl) as (_ & _ & H3).
    pose proof (Forall_lookup_1 _ _ _ _ H3 Hi) as Hx. simpl in Hx. rewrite E in Hx.
    destruct c as [c|]; [|done]. by apply Hx. }
  destruct 1 as [l1 r m1 b1 clo H|l1 k0 c l2 r m1 b1 clo m2 b2 H Ho Hb Hk]; intros Ha Hi Hp.
  - by eapply Hl.
  - rewrite lookup_app_l in Hi by done. by eapply Hl.
Qed.

Lemma lefts_retop hi hi' lo l m bs lo' :
  lefts hi lo l m bs lo' → Forall (λ x, below x.1 hi') l → lefts hi' lo l m bs lo'.
Proof. induction 1; [constructor|]. intros [? ?]%Forall_cons. constructor; auto. Qed.

(** A node cut at one of its keys. *)
Lemma kids_cut lo hi l1 k c l2 r m bs : kids lo hi (l1 ++ (k, c) :: l2) r m bs →
  ∃ ma ba mb bb, kids lo (Some k) l1 c ma ba ∧ kids (Some k) hi l2 r mb bb ∧
    over lo k ∧ below k hi ∧ m = ma ++ mb ∧ bs = ba ++ bb.
Proof.
  intros (lo' & m1 & b1 & m2 & b2 & Hl & HR & -> & ->).
  apply lefts_app in Hl as (mid & ma & ba & mb & bb & H1 & H2 & -> & ->).
  inversion H2 as [|? ? ? ? mc ms bc bss ? Ho Hb HRc Hn]; subst.
  destruct (lefts_bounds _ _ _ _ _ _ H1) as (Hle & _ & H3).
  exists (ma ++ mc), (ba ++ bc), (ms ++ m2), (bss ++ b2). rewrite !app_assoc. split_and!; try done.
  - exists mid, ma, ba, mc, bc. split_and!; try done. eapply lefts_retop; [done|].
    eapply Forall_impl; [exact H3|]. intros x Hx. destruct mid as [mid|]; [|done]. simpl in *.
    by eapply not_lt_le_trans.
  - by eexists _, _, _, _, _.
  - by eapply over_le.
Qed.

(** ** Facts about the whole from facts about the parts *)
Section parts.
Hypothesis R_inb : ∀ lo hi c m bs, R lo hi c m bs → Forall (inb lo hi) m.
Hypothesis R_sorted : ∀ lo hi c m bs, R lo hi c m bs → sorted m.
Hypothesis R_weaken : ∀ lo hi lo1 hi1 c m bs,
  lo_le lo1 lo → hi_le hi hi1 → R lo hi c m bs → R lo1 hi1 c m bs.

Lemma inb_le lo hi lo1 hi1 e : lo_le lo1 lo → hi_le hi hi1 → inb lo hi e → inb lo1 hi1 e.
Proof. intros ?? []. split; [by eapply above_le|by eapply below_le]. Qed.

Lemma lefts_inb hi lo l m bs lo' : lefts hi lo l m bs lo' →
  sorted m ∧ Forall (inb lo hi) m ∧ Forall (λ e, ∃ k, lo' = Some k ∧ bytes_lt (hash e) k) m.
Proof.
  induction 1 as [lo|lo k c l m ms bs bss lo' Ho Hb HR Hl (IH1 & IH2 & IH3)].
  { split_and!; constructor. }
  destruct (lefts_bounds _ _ _ _ _ _ Hl) as (Hle & _ & _).
  pose proof (R_inb _ _ _ _ _ HR) as Hi. pose proof (R_sorted _ _ _ _ _ HR) as Hs.
  split_and!.
  - apply sorted_app. split_and!; [done..|]. intros x y Hx Hy.
    rewrite Forall_forall in Hi, IH2. destruct (Hi x Hx) as [_ Hx2], (IH2 y Hy) as [Hy1 _]. simpl in *.
    unfold entry_lt. by eapply lt_not_lt_trans.
  - apply Forall_app. split.
    + eapply Forall_impl; [exact Hi|]. intros e. apply inb_le; auto with npk.
    + eapply Forall_impl; [exact IH2|]. intros e. apply inb_le; auto with npk.
  - apply Forall_app. split; [|done]. destruct lo' as [k'|]; [|done]. simpl in Hle.
    eapply Forall_impl; [exact Hi|]. intros e [_ He]. simpl in He. exists k'. split; [done|].
    by eapply lt_not_lt_trans.
Qed.

Lemma kids_inb lo hi kcs r m bs : kids lo hi kcs r m bs → sorted m ∧ Forall (inb lo hi) m.
Proof.
  intros (lo' & m1 & b1 & m2 & b2 & Hl & HR & -> & ->).
  destruct (lefts_inb _ _ _ _ _ _ Hl) as (H1 & H2 & H3).
  destruct (lefts_bounds _ _ _ _ _ _ Hl) as (Hle & _ & _).
  pose proof (R_inb _ _ _ _ _ HR) as Hi. pose proof (R_sorted _ _ _ _ _ HR) as Hs. split.
  - apply sorted_app. split_and!; [done..|]. intros x y Hx Hy.
    rewrite Forall_forall in H3, Hi. destruct (H3 x Hx) as (k & -> & Hk), (Hi y Hy) as [Hy1 _].
    simpl in *. unfold entry_lt. by eapply lt_not_lt_trans.
  - apply Forall_app. split; [done|]. eapply Forall_impl; [exact Hi|]. intros e. apply inb_le; auto with npk.
Qed.

Lemma kctx_around lo hi kcs r p clo chi m1 b1 m2 b2 key :
  kctx lo hi kcs r p clo chi m1 b1 m2 b2 → above clo key → below key chi → around key m1 m2.
Proof.
  assert (∀ l m b c, lefts hi lo l m b c → above c key → Forall (λ e, bytes_lt (hash e) key) m) as Hlefts.
  { intros l m b c Hl Hc. destruct (lefts_inb _ _ _ _ _ _ Hl) as (_ & _ & H3).
    eapply Forall_impl; [exact H3|]. intros e (k & -> & Hk). simpl in Hc. by eapply lt_not_lt_trans. }
  destruct 1 as [l1 r m1 b1 clo Hl|l1 k c l2 r m1 b1 clo m2 b2 Hl Ho Hb Hk]; intros Ha Hbe.
  - split; [by eapply Hlefts|constructor].
  - split; [by eapply Hlefts|]. destruct (kids_inb _ _ _ _ _ _ Hk) as [_ Hi].
    eapply Forall_impl; [exact Hi|]. intros e [He _]. simpl in *. by eapply lt_not_lt_trans.
Qed.

Lemma lefts_weaken hi hi1 lo lo1 l m bs lo' : hi_le hi hi1 → lo_le lo1 lo →
  lefts hi lo l m bs lo' → ∃ lo1', lo_le lo1' lo' ∧ lefts hi1 lo1 l m bs lo1'.
Proof.
  intros Hh Hlo. destruct 1 as [lo|lo k c l m ms bs bss lo' Ho Hb HR Hl].
  { exists lo1. split; [done|constructor]. }
  exists lo'. split; [apply lo_le_refl|]. constructor; [by eapply over_le|by eapply below_le| |].
  - eapply R_weaken; [..|exact HR]; auto with npk.
  - clear -Hl Hh. induction Hl; constructor; auto. by eapply below_le.
Qed.

Lemma kids_weaken lo hi lo1 hi1 kcs r m bs : lo_le lo1 lo → hi_le hi hi1 →
  kids lo hi kcs r m bs → kids lo1 hi1 kcs r m bs.
Proof.
  intros Hlo Hh (lo' & m1 & b1 & m2 & b2 & Hl & HR & -> & ->).
  destruct (lefts_weaken _ _ _ _ _ _ _ _ Hh Hlo Hl) as (lo1' & Hle & Hl').
  exists lo1', m1, b1, m2, b2. split_and!; try done. by eapply R_weaken.
Qed.

Lemma kctx_drop lo hi kcs r p clo chi m1 b1 m2 b2 :
  kctx lo hi kcs r p clo chi m1 b1 m2 b2 → kcs ≠ [] →
  kids lo hi (drop_kcs p kcs) (drop_right p kcs r) (m1 ++ m2) (b1 ++ b2).
Proof.
  unfold drop_kcs, drop_right.
  destruct 1 as [l1 r m1 b1 clo Hl|l1 k c l2 r m1 b1 clo m2 b2 Hl Ho Hb Hk]; intros Hne.
  - rewrite !decide_False by lia. rewrite !app_nil_r.
    destruct (exists_last Hne) as (l' & [k c] & ->). rewrite length_app. simpl.
    replace (length l' + 1 - 1)%nat with (length l') by lia. rewrite take_app_length.
    unfold child_at. rewrite list_lookup_middle by done.
    apply lefts_app in Hl as (mid & ma & ba & mb & bb & H1 & H2 & -> & ->).
    inversion H2 as [|? ? ? ? mc ms bc bss ? Ho Hb HR Hn]; subst. inversion Hn; subst.
    rewrite !app_nil_r. exists mid, ma, ba, mc, bc. split_and!; try done.
    eapply R_weaken; [..|exact HR]; auto with npk.
  - rewrite !decide_True by (rewrite length_app; simpl; lia). rewrite delete_middle.
    apply (kids_weaken _ _ clo hi) in Hk; auto with npk.
    destruct Hk as (lo' & ma & ba & mb & bb & H1 & H2 & -> & ->).
    exists lo', (m1 ++ ma), (b1 ++ ba), mb, bb. rewrite !app_assoc. split_and!; try done.
    apply lefts_app. by eexists clo, _, _, _, _.
Qed.
End parts.
End kids.

(** The same children under another description of them. *)
Lemma kids_frame R R' lo hi kcs r m bs : kids R lo hi kcs r m bs →
  (∀ lo hi c m b, b ⊆ bs → R lo hi c m b → R' lo hi c m b) → kids R' lo hi kcs r m bs.
Proof.
  intros (lo' & m1 & b1 & m2 & b2 & Hl & HR & -> & ->) HRR.
  exists lo', m1, b1, m2, b2. split_and!; try done; [|by apply HRR; [set_solver|]].
  assert (∀ lo hi c m b, b ⊆ b1 → R lo hi c m b → R' lo hi c m b) as HR1 by (intros; apply HRR; set_solver).
  clear -Hl HR1. induction Hl as [|lo k c l m ms bs bss lo' Ho Hb HR Hl IH]; constructor; try done.
  - apply HR1; [set_solver|done].
  - apply IH. intros. apply HR1; [set_solver|done].
Qed.

Lemma kctx_frame R R' lo hi kcs r p clo chi m1 b1 m2 b2 :
  kctx R lo hi kcs r p clo chi m1 b1 m2 b2 →
  (∀ lo hi c m b, b ⊆ b1 ++ b2 → R lo hi c m b → R' lo hi c m b) →
  kctx R' lo hi kcs r p clo chi m1 b1 m2 b2.
Proof.
  intros K HRR.
  assert (∀ l m b c, b ⊆ b1 ++ b2 → lefts R hi lo l m b c → lefts R' hi lo l m b c) as Hlefts.
  { clear K. intros l m b c Hsub Hl. induction Hl as [|lo' k c l m ms bs bss lo'' Ho Hb HR Hl IH]; constructor; try done.
    - apply HRR; [set_solver|done].
    - apply IH. set_solver. }
  destruct K; constructor; try done; try (apply Hlefts; [set_solver|done]).
  eapply kids_frame; [done|]. intros. apply HRR; [set_solver|done].
Qed.

(** ** Trees *)
Section rep.
Context (blake3 : list byte → list byte).
Notation sum_ok := (verify_node_checksum blake3).

Fixpoint rep (f : Z → block) (h : nat) (lo hi : bound) (b : Z) (m : list BTreeEntryRaw)
  (bs : list Z) : Prop :=
  sum_ok (f b) = true ∧
  match h with
  | O => leaf_is (f b) m ∧ sorted m ∧ Forall (inb lo hi) m ∧ bs = [b]
  | S h => ∃ kcs r bs', internal_is (f b) kcs r ∧ kids (rep f h) lo hi kcs r m bs' ∧ bs = b :: bs'
  end.

Lemma rep_root f h lo hi b m bs : rep f h lo hi b m bs → b ∈ bs ∧ sum_ok (f b) = true.
Proof.
  destruct h as [|h]; simpl; intros [Hs H]; (split; [|done]).
  - destruct H as (_ & _ & _ & ->). by left.
  - destruct H as (kcs & r & bs' & _ & _ & ->). by left.
Qed.

Lemma rep_frame f f' h lo hi b m bs : rep f h lo hi b m bs → (∀ x, x ∈ bs → f' x = f x) →
  rep f' h lo hi b m bs.
Proof.
  revert lo hi b m bs. induction h as [|h IH]; simpl; intros lo hi b m bs [Hs H] Hf.
  - destruct H as (L & ? & ? & ->). rewrite Hf by set_solver. done.
  - destruct H as (kcs & r & bs' & I & K & ->). rewrite Hf by set_solver. split; [done|].
    exists kcs, r, bs'. split_and!; try done. eapply kids_frame; [exact K|].
    intros. apply IH; [done|]. set_solver.
Qed.

Lemma rep_facts f h lo hi b m bs : rep f h lo hi b m bs → sorted m ∧ Forall (inb lo hi) m.
Proof.
  revert lo hi b m bs. induction h as [|h IH]; simpl; intros lo hi b m bs [_ H].
  - naive_solver.
  - destruct H as (kcs & r & bs' & _ & K & _). eapply kids_inb; [..|exact K]; intros; by eapply IH.
Qed.
Lemma rep_sorted f h lo hi b m bs : rep f h lo hi b m bs → sorted m.
Proof. intros H. by destruct (rep_facts _ _ _ _ _ _ _ H). Qed.
Lemma rep_inb f h lo hi b m bs : rep f h lo hi b m bs → Forall (inb lo hi) m.
Proof. intros H. by destruct (rep_facts _ _ _ _ _ _ _ H). Qed.

Lemma rep_weaken f h lo hi lo1 hi1 b m bs : lo_le lo1 lo → hi_le hi hi1 →
  rep f h lo hi b m bs → rep f h lo1 hi1 b m bs.
Proof.
  revert lo hi lo1 hi1 b m bs. induction h as [|h IH]; simpl; intros lo hi lo1 hi1 b m bs Hlo Hhi [Hs H].
  - destruct H as (L & ? & Hi & ->). split_and!; try done.
    eapply Forall_impl; [exact Hi|]. intros e. by apply inb_le.
  - destruct H as (kcs & r & bs' & I & K & ->). split; [done|]. exists kcs, r, bs'. split_and!; try done.
    eapply kids_weaken; [|exact Hlo|exact Hhi|done]. intros. by eapply IH.
Qed.

(** ** A tree with a hole

    [ctx f root top path h b lo hi ml kept mr]: descending from [root] along
    [path] ends at block [b], where a tree of height [h] with keys in
    [lo .. hi) belongs.  [ml] and [mr] are the entries left and right of it,
    [kept] the blocks of the subtrees off the path. *)
Inductive ctx (f : Z → block) (root : Z) (top : nat) :
    list (Z * Z) → nat → Z → bound → bound →
    list BTreeEntryRaw → list Z → list BTreeEntryRaw → Prop :=
  | ctx_nil : ctx f root top [] top root None None [] [] []
  | ctx_cons path h p lo hi ml kept mr idx kcs r clo chi m1 b1 m2 b2 :
      ctx f root top path (S h) p lo hi ml kept mr →
      sum_ok (f p) = true → internal_is (f p) kcs r → hi_le chi hi →
      kctx (rep f h) lo hi kcs r idx clo chi m1 b1 m2 b2 →
      ctx f root top ((p, Z.of_nat idx) :: path) h (child_at kcs r idx) clo chi
        (ml ++ m1) (kept ++ b1 ++ b2) (m2 ++ mr).

Lemma ctx_frame f f' root top path h b lo hi ml kept mr :
  ctx f root top path h b lo hi ml kept mr →
  (∀ x, x ∈ path.*1 ++ kept → f' x = f x) →
  ctx f' root top path h b lo hi ml kept mr.
Proof.
  induction 1 as [|path h p lo hi ml kept mr idx kcs r clo chi m1 b1 m2 b2 Hc IH Hs Hi Hh Hk];
    intros Hf; [constructor|]. simpl in Hf. econstructor.
  - apply IH. intros. apply Hf. set_solver.
  - rewrite Hf by set_solver. done.
  - rewrite Hf by set_solver. done.
  - done.
  - eapply kctx_frame; [exact Hk|]. intros. eapply rep_frame; [done|]. set_solver.
Qed.

(** Going one level down. *)
Lemma ctx_down f root top path h p lo hi ml kept mr kcs r m bs key :
  ctx f root top path (S h) p lo hi ml kept mr →
  sum_ok (f p) = true → internal_is (f p) kcs r → kids (rep f h) lo hi kcs r m bs →
  above lo key → below key hi →
  ∃ clo chi mc bc m1 b1 m2 b2,
    ctx f root top ((p, Z.of_nat (kpos key kcs)) :: path) h (child_at kcs r (kpos key kcs)) clo chi
      (ml ++ m1) (kept ++ b1 ++ b2) (m2 ++ mr) ∧
    rep f h clo chi (child_at kcs r (kpos key kcs)) mc bc ∧ above clo key ∧ below key chi ∧
    around key m1 m2 ∧ m = m1 ++ mc ++ m2 ∧ bs = b1 ++ bc ++ b2.
Proof.
  intros Hc Hs Hi Hk Ha Hb.
  destruct (kids_focus _ _ _ _ _ _ _ _ Hk Ha Hb) as (clo & chi & mc & bc & m1 & b1 & m2 & b2 & H1 & H2 & H3 & H4 & H5 & H6 & -> & ->).
  exists clo, chi, mc, bc, m1, b1, m2, b2. split_and!; try done; [by econstructor|].
  eapply kctx_around; [..|exact H1|done|done]; intros; [by eapply rep_inb|by eapply rep_sorted].
Qed.
End rep.

(** ** The finite map a list of entries stands for *)
Definition map_of (m : list BTreeEntryRaw) : gmap (list byte) BTreeEntryRaw :=
  list_to_map ((λ e, (hash e, e)) <$> m).

Lemma map_of_lookup m k e : sorted m → map_of m !! k = Some e ↔ e ∈ m ∧ hash e = k.
Proof.
  intros Hs. unfold map_of. rewrite <- elem_of_list_to_map.
  - rewrite list_elem_of_fmap. split; [|naive_solver]. intros (e' & [= -> ->] & ?). done.
  - rewrite <- list_fmap_compose. simpl. clear k e. induction Hs as [|e m Hs IH Hf]; simpl; [constructor|].
    constructor; [|done]. intros (e' & E & He')%list_elem_of_fmap. rewrite Forall_forall in Hf.
    specialize (Hf _ He'). unfold entry_lt in Hf. simpl in E. rewrite E in Hf. by apply bytes_lt_irrefl in Hf.
Qed.

Lemma map_of_none m k : map_of m !! k = None ↔ Forall (λ e, hash e ≠ k) m.
Proof.
  unfold map_of. rewrite <- not_elem_of_list_to_map, <- list_fmap_compose, Forall_forall.
  rewrite list_elem_of_fmap. naive_solver.
Qed.

Lemma map_of_eq m m' : sorted m → sorted m' → (∀ e, e ∈ m ↔ e ∈ m') → map_of m = map_of m'.
Proof.
  intros H1 H2 He. apply map_eq. intros k. apply option_eq. intros e.
  rewrite !map_of_lookup by done. by rewrite He.
Qed.
