(* ===== verification/BtreeSpec.v ===== *)
(** * The tree implements a finite map, copying on write

    On a tree that [rep] describes, whose blocks the allocator holds as used:
    [lookup] is the map's lookup, [insert] and [delete] produce a tree of the
    updated map, the old tree staying as it was, and the blocks are accounted
    for exactly: the old tree is what is returned for freeing and what is kept,
    the new tree is what was allocated and what is kept. *)

From S2P Require Import Prelude Bytes Format BlockStore Bitmap BitmapSpec BtreeNode Btree BtreeNodeSpec BtreeIo BtreeSafe BtreeRep.

(** ** Lists of entries under insertion and removal *)
Lemma sorted_ins e es : sorted es → Forall (λ x, hash x ≠ hash e) es →
  sorted (ins (ipos (hash e) es) e es).
Proof.
  unfold sorted, ins. induction 1 as [|x es Hs IH Hf]; intros Hn; simpl.
  { by repeat constructor. }
  apply Forall_cons in Hn as [Hx Hn]. destruct (bytes_ltb (hash e) (hash x)) eqn:E; simpl.
  - constructor; [by constructor|]. constructor; [done|]. eapply Forall_impl; [exact Hf|].
    intros y Hy. by eapply bytes_lt_trans.
  - constructor; [by apply IH|].
    assert (bytes_lt (hash x) (hash e)) as Hlt.
    { destruct (bytes_lt_trichotomy (hash x) (hash e)) as [?|[?|?]]; try done. unfold bytes_lt in *. congruence. }
    apply Forall_app. split; [by apply Forall_take|]. constructor; [done|by apply Forall_drop].
Qed.

Lemma sorted_sub a b c : sorted (a ++ b ++ c) → sorted (a ++ c).
Proof.
  rewrite !sorted_app. intros (Ha & (Hb & Hc & Hbc) & Habc). split_and!; try done.
  intros x y Hx Hy. apply Habc; set_solver.
Qed.

Lemma map_of_insert m m' e : sorted m → sorted m' → map_of m !! hash e = None →
  (∀ x, x ∈ m' ↔ x = e ∨ x ∈ m) → map_of m' = <[hash e := e]> (map_of m).
Proof.
  intros Hs Hs' Hn He. apply map_eq. intros k. apply option_eq. intros x.
  rewrite (map_of_lookup _ _ _ Hs'), He, lookup_insert_Some, (map_of_lookup _ _ _ Hs).
  split.
  - intros [[->|Hx] <-]; [by left|]. right. split; [|done]. intros E.
    apply map_of_none in Hn. rewrite Forall_forall in Hn. by eapply Hn.
  - intros [[<- ->]|[_ [Hx Hk]]]; auto.
Qed.

Lemma map_of_delete m m' k : sorted m → sorted m' → (∀ x, x ∈ m' ↔ x ∈ m ∧ hash x ≠ k) →
  map_of m' = delete k (map_of m).
Proof.
  intros Hs Hs' He. apply map_eq. intros j. apply option_eq. intros x.
  rewrite (map_of_lookup _ _ _ Hs'), He, lookup_delete_Some, (map_of_lookup _ _ _ Hs).
  naive_solver.
Qed.

(** Nothing beside the leaf has a key of the leaf's interval. *)
Lemma around_absent k ml m mr : around k ml mr → Forall (λ e, hash e ≠ k) m →
  map_of (ml ++ m ++ mr) !! k = None.
Proof.
  intros [Hl Hr] Hm. apply map_of_none. rewrite !Forall_app. split_and!; [|done|].
  - eapply Forall_impl; [exact Hl|]. intros e He E. cbv beta in He. rewrite E in He. by apply bytes_lt_irrefl in He.
  - eapply Forall_impl; [exact Hr|]. intros e He E. cbv beta in He. rewrite E in He. by apply bytes_lt_irrefl in He.
Qed.

Lemma list_find_hash_none k es : list_find (has_hash k) es = None → Forall (λ e, hash e ≠ k) es.
Proof. intros H%list_find_None. eapply Forall_impl; [exact H|]. done. Qed.

Lemma around_neq k ml mr y : around k ml mr → y ∈ ml ∨ y ∈ mr → hash y ≠ k.
Proof.
  intros [Hl Hr] Hy <-. rewrite Forall_forall in Hl, Hr.
  destruct Hy as [Hy|Hy]; [apply Hl in Hy|apply Hr in Hy]; by apply bytes_lt_irrefl in Hy.
Qed.

(** Dropping the entry with key [k] from a sorted list. *)
Lemma sorted_delete es i e : sorted es → es !! i = Some e →
  sorted (delete i es) ∧ ∀ y, y ∈ delete i es ↔ y ∈ es ∧ hash y ≠ hash e.
Proof.
  intros Hs Hi. rewrite delete_take_drop. rewrite <- (take_drop_middle _ _ _ Hi) in Hs.
  split; [by apply (sorted_sub _ [e])|]. intros y. rewrite <- (take_drop_middle _ _ _ Hi) at 3.
  rewrite !elem_of_app, elem_of_cons. apply sorted_app in Hs as (_ & Hs2 & H12).
  inversion Hs2 as [|? ? _ Hf]; subst. rewrite Forall_forall in Hf. unfold entry_lt in *.
  split.
  - intros Hy. split; [tauto|]. intros E. destruct Hy as [Hy|Hy].
    + pose proof (H12 y e Hy ltac:(by left)) as Hlt. rewrite E in Hlt. by apply bytes_lt_irrefl in Hlt.
    + pose proof (Hf y Hy) as Hlt. rewrite E in Hlt. by apply bytes_lt_irrefl in Hlt.
  - intros [[Hy|[->|Hy]] Hn]; auto. done.
Qed.

Section spec.
Context (blake3 : list byte → list byte).
Hypothesis blake3_len : ∀ bs, length (blake3 bs) = 32%nat.
Context {C : Type} `{!BlockStore C} `{!BlockStoreOk C (verify_node_checksum blake3)}.
Context (ok : Prop).

Notation sum_ok := (verify_node_checksum blake3).
Notation good := (good blake3 ok).
Notation tri := (tri blake3 ok).
Notation ext := (ext blake3 ok).
Notation vw := (vw blake3).
Notation rep := (rep blake3).
Notation ctx := (ctx blake3).
Notation St := (C * Bitmap.t)%type.

(** Why an operation may fail: the store, or a full data area. *)
Definition fault (e : FsError) (st : St) : Prop := ¬ ok ∨ (e = DiskFull ∧ full st).

Lemma fault_io e st : ¬ ok → fault e st.
Proof. by left. Qed.
Lemma fault_full st : full st → fault DiskFull st.
Proof. by right. Qed.
#[local] Hint Resolve fault_io fault_full : npk.

Definition owned (st : St) (b : Z) : Prop := in_area st b ∧ in_use st b = true.

Lemma owned_pos st b : good st → owned st b → 0 < b ∧ fits 64 b.
Proof. intros G [Ha _]. by apply (in_area_pos blake3 ok st). Qed.

Lemma ext_owned al st st' b : good st → ext al st st' → owned st b →
  owned st' b ∧ b ∉ al ∧ vw st' b = vw st b.
Proof.
  intros G X Ho. pose proof (owned_pos st b G Ho). destruct Ho as [Ha Hu].
  destruct (ext_keeps _ _ _ _ _ b X Hu) as (H1 & H2 & H3); [lia|].
  split_and!; try done. split; [by apply (ext_area _ _ _ _ _ _ X)|done].
Qed.

Lemma ext_owned_all al st st' bs : good st → ext al st st' → Forall (owned st) bs → Forall (owned st') bs.
Proof. intros G X H. eapply Forall_impl; [exact H|]. intros b Hb. by eapply ext_owned. Qed.

Lemma ext_new al st st' b : ext al st st' → b ∈ al → owned st' b.
Proof.
  intros X Hb. pose proof (proj1 (Forall_forall _ _) (x_fresh _ _ _ _ _ X) b Hb) as [Ha _].
  destruct (ext_fresh_pos _ _ _ _ _ _ X Hb). split; [by apply (ext_area _ _ _ _ _ _ X)|].
  rewrite (x_used _ _ _ _ _ X) by lia. rewrite bool_decide_true by done. apply orb_true_r.
Qed.

Lemma ext_rep al st st' h lo hi b m bs : good st → ext al st st' → Forall (owned st) bs →
  rep (vw st) h lo hi b m bs → rep (vw st') h lo hi b m bs.
Proof.
  intros G X Ho R. eapply rep_frame; [exact R|]. intros x Hx. rewrite Forall_forall in Ho.
  by eapply ext_owned; [..|apply Ho].
Qed.

Lemma ext_ctx al st st' root top path h b lo hi ml kept mr : good st → ext al st st' →
  Forall (owned st) (path.*1 ++ kept) →
  ctx (vw st) root top path h b lo hi ml kept mr → ctx (vw st') root top path h b lo hi ml kept mr.
Proof.
  intros G X Ho R. eapply ctx_frame; [exact R|]. intros x Hx. rewrite Forall_forall in Ho.
  by eapply ext_owned; [..|apply Ho].
Qed.

(** ** Copying the path up *)
Lemma fixup_path_spec root top path h b lo hi ml kept mr c m bs old st :
  good st → ctx (vw st) root top path h b lo hi ml kept mr →
  rep (vw st) h lo hi c m bs → Forall (owned st) (path.*1 ++ kept) → Forall (owned st) bs →
  tri (fixup_path blake3 path c old) st (λ r al st',
    ∃ bs', rep (vw st') top None None r.1 (ml ++ m ++ mr) bs' ∧ bs' ≡ₚ al ++ bs ++ kept ∧
      r.2 = old ++ path.*1) fault.
Proof.
  revert h b lo hi ml kept mr c m bs old st.
  induction path as [|[p i] path IH]; intros h b lo hi ml kept mr c m bs old st G Hc Hr Ho Hob; cbn [fixup_path].
  { inversion Hc; subst. apply tri_ret; [done|]. simpl. exists bs. rewrite !app_nil_r. done. }
  inversion Hc as [|? ? ? lo0 hi0 ml0 kept0 mr0 idx kcs r ? ? m1 b1 m2 b2 Hc0 Hs Hi Hh Hk]; subst.
  apply tri_read; eauto with npk; [congruence|]. intros st1 X1 _ _.
  apply Forall_cons in Ho as [Hop Ho]. simpl in Ho.
  destruct (rep_root _ _ _ _ _ _ _ _ Hr) as [Hcb _].
  assert (owned st c) as Hoc by (rewrite Forall_forall in Hob; by apply Hob).
  destruct (put_child_spec _ _ _ idx c (proj2 Hi)) as (buf & Hbuf & Hb & HI); [by eapply owned_pos|].
  destruct Hi as [Hih Hin]. specialize (HI Hih).
  eapply tri_alloc_write; eauto with npk; [apply X1|].
  intros np st2 X2 Hnp Ha. destruct (written_internal blake3 blake3_len _ _ _ _ HI Hnp) as [Hwi Hws].
  pose proof (ext_trans _ _ _ _ _ _ _ X1 X2) as X. simpl in X.
  assert (Forall (owned st) (path.*1 ++ kept0) ∧ Forall (owned st) (b1 ++ bs ++ b2)) as [Ho0 Hos].
  { rewrite !Forall_app in *. tauto. }
  eapply tri_mono.
  { eapply (IH (S h) p lo0 hi0 ml0 kept0 mr0 np (m1 ++ m ++ m2) (np :: b1 ++ bs ++ b2)).
    - apply X2.
    - eapply ext_ctx; [exact G|exact X|done|done].
    - split; [done|]. eexists _, _, (b1 ++ bs ++ b2). split_and!; [done| |done].
      eapply kctx_plug; [eapply kctx_frame; [exact Hk|]|]; intros.
      + eapply rep_frame; [done|]. intros x Hx. eapply (ext_owned [np]); [exact G|exact X|].
        rewrite !Forall_app in Hos. destruct Hos as (H1 & _ & H2). rewrite Forall_forall in H1, H2.
        apply elem_of_subseteq in H. set_solver.
      + eapply ext_rep; [exact G|exact X|done|done].
    - by eapply ext_owned_all.
    - constructor; [eapply ext_new; [exact X|set_solver]|]. by eapply ext_owned_all. }
  intros [r' fr] al st3 X3 (bs' & HR & HP & HF). simpl in *. exists bs'.
  rewrite <- !app_assoc in *. split_and!; [done| |by rewrite HF].
  rewrite HP. solve_Permutation.
Qed.

(** A node's new contents, its other children being as before. *)
Lemma kids_step al st st' h lo hi kcs r m bs : good st → ext al st st' → Forall (owned st) bs →
  kids (rep (vw st) h) lo hi kcs r m bs → kids (rep (vw st') h) lo hi kcs r m bs.
Proof.
  intros G X Ho K. eapply kids_frame; [exact K|]. intros lo1 hi1 c m1 b1 Hsub R.
  eapply rep_frame; [exact R|]. intros x Hx. rewrite Forall_forall in Ho.
  eapply (ext_owned al); [done..|]. by apply Ho, Hsub.
Qed.

Lemma rep_node f h lo hi b kcs r m bs : sum_ok (f b) = true → internal_is (f b) kcs r →
  kids (rep f h) lo hi kcs r m bs → rep f (S h) lo hi b m (b :: bs).
Proof. intros Hs Hi K. split; [done|]. by eexists _, _, _. Qed.

(** Two subtrees where one was: what [fixup_path_split] is given. *)
Definition two (st : St) h lo hi l r k ml bl mr br : Prop :=
  rep (vw st) h lo (Some k) l ml bl ∧ rep (vw st) h (Some k) hi r mr br ∧
  over lo k ∧ below k hi ∧ length k = 32%nat ∧ Forall (owned st) (bl ++ br).

Lemma two_fits st h lo hi l r k ml bl mr br : good st → two st h lo hi l r k ml bl mr br →
  kc_wf (k, l) ∧ fits 64 r.
Proof.
  intros G (Hl & Hr & _ & _ & Hk & Ho). apply Forall_app in Ho as [Hol Hor]. rewrite Forall_forall in Hol, Hor.
  destruct (rep_root _ _ _ _ _ _ _ _ Hl) as [Hl' _], (rep_root _ _ _ _ _ _ _ _ Hr) as [Hr' _].
  split; [split; [done|]|]; by eapply owned_pos; [|eauto].
Qed.

(** The key goes to the recorded index, and it is new to the node. *)
Lemma split_at_index f h lo hi kcs r0 idx clo chi m1 b1 m2 b2 key left q :
  kctx (rep f h) lo hi kcs r0 idx clo chi m1 b1 m2 b2 → over clo key → below key chi →
  kpos key kcs = idx ∧
  ((q ≤ idx)%nat → (∃ c0, ins idx (key, left) kcs !! q = Some (key, c0)) → q = idx).
Proof.
  intros Hk Ho Hb. assert (kpos key kcs = idx) as E by (eapply kctx_kpos; [done|by apply over_above|done]).
  split; [done|]. intros Hq (c0 & Hl). rewrite lookup_ins in Hl by (rewrite <- E; apply kpos_le).
  destruct (decide (q < idx)%nat) as [Hlt|]; [|lia].
  exfalso. by eapply (kctx_fresh _ _ _ _ _ _ _ _ _ _ _ _ key q (key, c0) Hk).
Qed.

(** Splitting a full node around the two subtrees. *)
Lemma split_internal_two st st1 buf h lo0 hi0 kcs r0 idx lo hi ma ba mb bb l r k m1 bl m2 br :
  good st → ext [] st st1 → internal_is buf kcs r0 → zlen kcs = MAX_INTERNAL_KEYS →
  kctx (rep (vw st) h) lo0 hi0 kcs r0 idx lo hi ma ba mb bb → hi_le hi hi0 →
  two st h lo hi l r k m1 bl m2 br → Forall (owned st) (ba ++ (bl ++ br) ++ bb) →
  tri (split_internal blake3 buf (read_header buf) k l r) st1 (λ x al st2,
    ∃ ma' ba' mb' bb', al = [x.1.1; x.1.2] ∧
      ba' ++ bb' = ba ++ (bl ++ br) ++ bb ∧ ma' ++ mb' = ma ++ (m1 ++ m2) ++ mb ∧
      two st2 (S h) lo0 hi0 x.1.1 x.1.2 x.2 ma' (x.1.1 :: ba') mb' (x.1.2 :: bb')) fault.
Proof.
  intros G X1 [Hih Hin] Hn Hk Hh T Hos. destruct (two_fits _ _ _ _ _ _ _ _ _ _ _ G T) as [Hkw Hrf].
  destruct T as (Hl & Hr & Hok & Hbk & Hk32 & Hoc).
  pose proof (kctx_split _ _ _ _ _ _ _ _ _ _ _ _ _ _ _ _ _ _ _ Hk Hh Hok Hbk Hl Hr) as HK.
  eapply (split_internal_spec blake3 blake3_len ok fault fault_io fault_full _ kcs r0); try done; [apply X1|].
  cbv zeta. intros q c0 _ Hq Hqle nl nr nk nc st2 X2 Al Ar H51 Il Sl Ir Sr.
  destruct (split_at_index _ _ _ _ _ _ _ _ _ _ _ _ _ k l q Hk Hok Hbk) as [Hpos Hqi].
  rewrite Hpos in *. assert (q = idx) as -> by (apply Hqi; [done|by exists c0]).
  fold (add_kcs idx k l r kcs) in *.
  assert (put_right (S idx) r (ins idx (k, l) kcs) r0 = add_right idx r kcs r0) as Er.
  { unfold put_right, add_right. rewrite length_ins. repeat case_decide; try done; lia. }
  rewrite Er in *. pose proof (ext_trans _ _ _ _ _ _ _ X1 X2) as X. simpl in X.
  rewrite <- (take_drop_middle _ _ _ H51) in HK.
  apply kids_cut in HK as (ma' & ba' & mb' & bb' & K1 & K2 & Ov & Be & Em & Eb).
  assert (Forall (owned st) ba' ∧ Forall (owned st) bb') as [Hoa Hobb] by (apply Forall_app; by rewrite <- Eb).
  exists ma', ba', mb', bb'. simpl. split_and!; try done. split_and!; try done.
  - eapply rep_node; [done..|]. by eapply kids_step; [exact G|exact X|..].
  - eapply rep_node; [done..|]. by eapply kids_step; [exact G|exact X|..].
  - assert (Forall kc_wf (add_kcs idx k l r kcs)) as HF.
    { apply Forall_put_kcs; [done|]. apply Forall_ins. split; [done|apply Hin]. }
    apply (Forall_lookup_1 _ _ _ _ HF H51).
  - apply Forall_app. split; (constructor; [eapply ext_new; [exact X|set_solver]|]); by eapply ext_owned_all.
Qed.

Lemma fixup_path_split_spec root top path h b lo hi ml kept mr l r k m1 bl m2 br old st :
  good st → ctx (vw st) root top path h b lo hi ml kept mr →
  two st h lo hi l r k m1 bl m2 br → Forall (owned st) (path.*1 ++ kept) →
  tri (fixup_path_split blake3 path l r k old) st (λ x al st',
    ∃ top' bs', (top ≤ top' ≤ S top)%nat ∧ rep (vw st') top' None None x.1 (ml ++ (m1 ++ m2) ++ mr) bs' ∧
      bs' ≡ₚ al ++ (bl ++ br) ++ kept ∧ x.2 = old ++ path.*1) fault.
Proof.
  revert h b lo hi ml kept mr l r k m1 bl m2 br old st.
  induction path as [|[p i] path IH];
    intros h b lo hi ml kept mr l r k m1 bl m2 br old st G Hc T Ho; cbn [fixup_path_split];
    destruct (two_fits _ _ _ _ _ _ _ _ _ _ _ G T) as [Hkw Hrf]; destruct T as (Hl & Hr & Hok & Hbk & Hk32 & Hoc).
  - inversion Hc; subst. apply Forall_app in Hoc as [Hol Hor].
    destruct (internal_of_spec [(k, l)] r) as (buf & Hbuf & I); [done|by constructor|done|].
    unfold internal_of in Hbuf. simpl in Hbuf. change (u16 (zlen [(k, l)])) with 1 in Hbuf.
    destruct (set_internal_entry _ 0 k l) as [b1|] eqn:Eb; [|done]. simpl in Hbuf. injection Hbuf as ->.
    eapply tri_alloc_write; eauto with npk; [apply I|]. intros nb st1 X Hnb _.
    destruct (written_internal blake3 blake3_len _ _ _ _ I Hnb) as [Hwi Hws].
    apply tri_ret; [apply X|]. simpl. rewrite !app_nil_r.
    exists (S h), (nb :: bl ++ br). split_and!; [lia..| |done|done].
    eapply rep_node; [done..|]. exists (Some k), m1, bl, m2, br.
    split_and!; try done; [|by eapply ext_rep; [exact G|exact X|..]].
    rewrite <- (app_nil_r m1), <- (app_nil_r bl). constructor; try done; [|constructor].
    by eapply ext_rep; [exact G|exact X|..].
  - inversion Hc as [|? ? ? lo0 hi0 ml0 kept0 mr0 idx kcs r0 ? ? ma ba mb bb Hc0 Hs Hi Hh Hk]; subst.
    apply Forall_cons in Ho as [Hop Ho]. simpl in Ho.
    apply tri_read; eauto with npk; [congruence|]. intros st1 X1 _ _.
    assert (Forall (owned st) (path.*1 ++ kept0) ∧ Forall (owned st) (ba ++ (bl ++ br) ++ bb)) as [Ho0 Hos].
    { rewrite !Forall_app in *. tauto. }
    pose proof (kctx_split _ _ _ _ _ _ _ _ _ _ _ _ _ _ _ _ _ _ _ Hk Hh Hok Hbk Hl Hr) as HK.
    destruct Hi as [Hih Hin]. rewrite (in_num _ _ _ Hin).
    destruct (Z.ltb_spec (zlen kcs) MAX_INTERNAL_KEYS) as [Hlt|Hge].
    + destruct (add_key_spec _ _ _ k l r Hin Hlt Hkw Hrf) as (buf & Hbuf & Hb & HI). specialize (HI Hih).
      destruct (split_at_index _ _ _ _ _ _ _ _ _ _ _ _ _ k l 0 Hk Hok Hbk) as [Hpos _].
      rewrite Hpos in HI.
      eapply tri_alloc_write; eauto with npk; [apply X1|]. intros np st2 X2 Hnp Ha.
      destruct (written_internal blake3 blake3_len _ _ _ _ HI Hnp) as [Hwi Hws].
      pose proof (ext_trans _ _ _ _ _ _ _ X1 X2) as X. simpl in X.
      eapply tri_mono.
      { eapply (fixup_path_spec root top path (S h) p lo0 hi0 ml0 kept0 mr0 np _ (np :: ba ++ (bl ++ br) ++ bb)).
        - apply X2.
        - eapply ext_ctx; [exact G|exact X|done|done].
        - eapply rep_node; [done..|]. eapply kids_step; [exact G|exact X|exact Hos|exact HK].
        - by eapply ext_owned_all.
        - constructor; [eapply ext_new; [exact X|set_solver]|]. by eapply ext_owned_all. }
      intros [r' fr] al st3 X3 (bs' & HR & HP & HF). simpl in *. exists top, bs'.
      rewrite <- !app_assoc in *. split_and!; [lia..|done| |by rewrite HF]. rewrite HP. solve_Permutation.
    + eapply tri_bind.
      { eapply (split_internal_two st); eauto. { by split. } { pose proof (in_cap _ _ _ Hin); lia. }
        by split_and!. }
      intros [[nl nr] nk] al st2 X2 (ma' & ba' & mb' & bb' & -> & Eb & Em & T). simpl in *.
      pose proof (ext_trans _ _ _ _ _ _ _ X1 X2) as X. simpl in X.
      eapply tri_mono.
      { eapply IH; [apply X2|eapply ext_ctx; [exact G|exact X|done|done]|exact T|by eapply ext_owned_all]. }
      intros [r' fr] al st3 X3 (top' & bs' & Ht & HR & HP & HF). simpl in *. exists top', bs'.
      rewrite Em in HR. rewrite <- !app_assoc in *. split_and!; [lia..|done| |by rewrite HF].
      rewrite HP. transitivity (al ++ nl :: nr :: (ba' ++ bb') ++ kept0); [solve_Permutation|].
      rewrite Eb. solve_Permutation.
Qed.

(** ** Accounting for blocks

    The old tree is what is freed and what is kept; the new one what is
    allocated and what is kept. *)
Definition swapped (al frees bs bs' : list Z) : Prop :=
  ∃ keep, bs ≡ₚ frees ++ keep ∧ bs' ≡ₚ al ++ keep.

Lemma swapped_owned al frees bs bs' st st' : good st → ext al st st' → swapped al frees bs bs' →
  NoDup bs → Forall (owned st) bs → NoDup bs' ∧ Forall (owned st') bs'.
Proof.
  intros G X (keep & E1 & E2) Hn Ho. rewrite E1 in Hn, Ho. rewrite E2.
  apply NoDup_app in Hn as (_ & _ & Hn). apply Forall_app in Ho as [_ Ho]. split.
  - apply NoDup_app. split_and!; [apply X| |done]. intros b Hb Hk. rewrite Forall_forall in Ho.
    destruct (ext_owned _ _ _ b G X (Ho b Hk)) as (_ & Hna & _). done.
  - apply Forall_app. split; [|by eapply ext_owned_all].
    apply Forall_forall. intros b Hb. by eapply ext_new.
Qed.

(** ** Insertion *)

(** What inserting [e] into the tree of [m0] on the blocks [bs0] gives. *)
Definition inserted (root : Z) (top : nat) m0 bs0 (e : BTreeEntryRaw)
  (x : Z * list Z * bool) (al : list Z) (st' : St) : Prop :=
  if x.2 then
    map_of m0 !! hash e = None ∧
    ∃ top' m' bs', (top ≤ top' ≤ S top)%nat ∧ rep (vw st') top' None None x.1.1 m' bs' ∧
      (∀ y, y ∈ m' ↔ y = e ∨ y ∈ m0) ∧ swapped al x.1.2 bs0 bs'
  else is_Some (map_of m0 !! hash e) ∧ x.1 = (root, []) ∧ al = [].

Lemma leaf_rep (v : block) f b lo hi es : v = f b → leaf_is v es → sum_ok v = true → sorted es →
  Forall (inb lo hi) es → rep f 0 lo hi b es [b].
Proof. intros -> L Hs So Hi. by split; [|split_and!]. Qed.

(** The leaf with the entry, cut in two. *)
Lemma split_leaf_two st st1 buf lo hi es e :
  good st → ext [] st st1 → leaf_is buf es → zlen es = MAX_LEAF_ENTRIES → entry_wf e →
  sorted (ins (ipos (hash e) es) e es) → Forall (inb lo hi) (ins (ipos (hash e) es) e es) →
  tri (split_leaf blake3 buf (read_header buf) e) st1 (λ x al st2,
    ∃ m1 m2, al = [x.1.1; x.1.2] ∧ m1 ++ m2 = ins (ipos (hash e) es) e es ∧
      two st2 0 lo hi x.1.1 x.1.2 x.2 m1 [x.1.1] m2 [x.1.2]) fault.
Proof.
  intros G X1 L Hn Hw Hs Hi.
  eapply (split_leaf_spec blake3 blake3_len ok fault fault_io fault_full _ es); try done; [apply X1|].
  cbv zeta. set (K := ins (ipos (hash e) es) e es) in *.
  intros l r m st2 X2 Al Ar Ll Sl Lr Sr Hm. exists (take 18 K), (drop 18 K).
  assert (entry_wf m) as Hwm.
  { assert (Forall entry_wf K) as HF by (apply Forall_ins; split; [done|apply L]). by eapply Forall_lookup_1. }
  pose proof (take_drop_middle _ _ _ Hm) as EK. rewrite (drop_S _ _ _ Hm) in *. simpl.
  assert (sorted (take 18 K ++ m :: drop 19 K)) as HsK by (by rewrite EK).
  assert (Forall (inb lo hi) (take 18 K ++ m :: drop 19 K)) as HiK by (by rewrite EK).
  apply sorted_app in HsK as (S1 & S2 & S12). apply Forall_app in HiK as [I1 I2].
  destruct (K !! 0%nat) as [e0|] eqn:E0.
  2:{ apply lookup_ge_None in E0. apply lookup_lt_Some in Hm. lia. }
  assert (e0 ∈ take 18 K) as He0 by (apply (list_elem_of_lookup_2 _ 0); by rewrite lookup_take_lt by lia).
  split_and!; [done..|]. split_and!.
  - eapply leaf_rep; try done. apply Forall_forall. intros y Hy. rewrite Forall_forall in I1.
    split; [by apply I1|]. apply (S12 y m Hy). by left.
  - eapply leaf_rep; try done. apply Forall_forall. intros y Hy. rewrite Forall_forall in I2.
    split; [|by apply I2]. simpl. inversion S2 as [|? ? _ Hf]; subst.
    apply elem_of_cons in Hy as [->|Hy]; [apply bytes_lt_irrefl|].
    rewrite Forall_forall in Hf. apply bytes_lt_asym. by apply Hf.
  - rewrite Forall_forall in I1. destruct (I1 e0 He0) as [Ha _]. pose proof (S12 e0 m He0 ltac:(by left)) as Hlt.
    destruct lo as [lo|]; [|done]. simpl in *. by eapply not_lt_le_trans.
  - apply Forall_cons in I2 as [[_ Hb] _]. done.
  - apply Hwm.
  - pose proof (ext_trans _ _ _ _ _ _ _ X1 X2) as X. simpl in X.
    repeat constructor; (eapply ext_new; [exact X|set_solver]).
Qed.

(** At the leaf. *)
Lemma insert_leaf_spec st st1 root top path b lo hi ml kept mr es e buf :
  good st → ext [] st st1 → buf = vw st b → ctx (vw st) root top path 0 b lo hi ml kept mr →
  leaf_is buf es → sorted es → Forall (inb lo hi) es →
  above lo (hash e) → below (hash e) hi → Forall (λ x, hash x ≠ hash e) es →
  Forall (owned st) (path.*1 ++ kept) → entry_wf e →
  tri (if num_entries (read_header buf) <? MAX_LEAF_ENTRIES then
         pos ← of_opt (find_leaf_insert_pos buf (read_header buf) (hash e));
         new_block ← alloc1;
         new_buf ← of_opt (insert_leaf_entry buf (read_header buf) pos e);
         _ ← on_fst (write_node blake3 new_block new_buf);
         '(root, frees) ← fixup_path blake3 path new_block [b];
         mret (root, frees, true)
       else
         '(lb, rb, split_key) ← split_leaf blake3 buf (read_header buf) e;
         '(root, frees) ← fixup_path_split blake3 path lb rb split_key [b];
         mret (root, frees, true)) st1 (λ x al st',
    x.2 = true ∧ x.1.2 = b :: path.*1 ∧
    ∃ top' bs', (top ≤ top' ≤ S top)%nat ∧
      rep (vw st') top' None None x.1.1 (ml ++ ins (ipos (hash e) es) e es ++ mr) bs' ∧
      bs' ≡ₚ al ++ kept) fault.
Proof.
  intros G X1 -> Hc L Hs Hi Ha Hb Hn Ho Hw. rewrite (li_num _ _ L).
  assert (sorted (ins (ipos (hash e) es) e es)) as HsK by (by apply sorted_ins).
  assert (Forall (inb lo hi) (ins (ipos (hash e) es) e es)) as HiK by (apply Forall_ins; by split).
  destruct (Z.ltb_spec (zlen es) MAX_LEAF_ENTRIES) as [Hlt|Hge].
  - eapply tri_of_opt; [by apply find_leaf_insert_pos_spec|].
    destruct (insert_leaf_entry_spec _ es (ipos (hash e) es) e L Hlt) as (nb & Hnb & Lnb);
      [apply ipos_le|done|].
    eapply tri_alloc_write; eauto with npk; [apply X1|apply Lnb|].
    intros n st2 X2 Hv _. destruct (written_leaf blake3 blake3_len _ _ _ Lnb Hv) as [Lw Sw].
    pose proof (ext_trans _ _ _ _ _ _ _ X1 X2) as X. simpl in X. eapply tri_bind.
    { eapply fixup_path_spec; [apply X2|eapply ext_ctx; [exact G|exact X|done|done]| | |].
      - by apply (leaf_rep (vw st2 n) _ _ _ _ (ins (ipos (hash e) es) e es)).
      - by eapply ext_owned_all.
      - constructor; [eapply ext_new; [exact X|set_solver]|done]. }
    intros [rt fr] al st3 X3 (bs' & HR & HP & HF). apply tri_ret; [apply X3|]. simpl in *.
    split_and!; try done. exists top, bs'. split_and!; [lia..|done|].
    rewrite HP, app_nil_r. solve_Permutation.
  - eapply tri_bind.
    { eapply (split_leaf_two st); eauto. pose proof (li_cap _ _ L). lia. }
    intros [[lb rb] k] al st2 X2 (m1 & m2 & -> & Em & T). simpl in *.
    pose proof (ext_trans _ _ _ _ _ _ _ X1 X2) as X. simpl in X. eapply tri_bind.
    { eapply fixup_path_split_spec; [apply X2|eapply ext_ctx; [exact G|exact X|done|done]|exact T|].
      by eapply ext_owned_all. }
    intros [rt fr] al st3 X3 (top' & bs' & Ht & HR & HP & HF). apply tri_ret; [apply X3|]. simpl in *.
    split_and!; try done. exists top', bs'. rewrite Em in HR. split_and!; [lia..|done|].
    rewrite HP, app_nil_r. solve_Permutation.
Qed.

Lemma insert_loop_spec fuel root top path h b lo hi ml kept mr m bs m0 bs0 e st :
  good st → entry_wf e → ctx (vw st) root top path h b lo hi ml kept mr →
  rep (vw st) h lo hi b m bs → above lo (hash e) → below (hash e) hi → around (hash e) ml mr →
  Forall (owned st) bs0 → m0 = ml ++ m ++ mr → bs0 ≡ₚ path.*1 ++ kept ++ bs →
  (fuel + length path = MAX_TREE_DEPTH)%nat → (h < fuel)%nat →
  tri (insert_loop blake3 fuel root path b e) st (inserted root top m0 bs0 e) fault.
Proof.
  revert path h b lo hi ml kept mr m bs st. induction fuel as [|fuel IH];
    intros path h b lo hi ml kept mr m bs st G Hw Hc Hr Ha Hb Har Ho Em Eb Hf Hh; [lia|].
  assert (Forall (owned st) (path.*1 ++ kept ++ bs)) as Ho' by (by rewrite <- Eb).
  destruct h as [|h]; simpl in Hr; destruct Hr as [Hs Hr]; cbn [insert_loop];
    (apply tri_read; eauto with npk; [congruence|]); intros st1 X1 _ _.
  - destruct Hr as (L & So & Hi & ->). rewrite (li_magic _ _ L), (li_type _ _ L). simpl negb.
    change (BTREE_NODE_MAGIC =? BTREE_NODE_MAGIC) with true. change (BTREE_LEAF =? BTREE_LEAF) with true. cbn iota.
    eapply tri_of_opt; [by apply find_hash_spec|].
    destruct (list_find _ m) as [[i e0]|] eqn:El; simpl fmap; cbn iota.
    + apply tri_ret; [apply X1|]. apply list_find_Some in El as (Hi0 & He0 & _).
      unfold inserted. simpl. split_and!; try done. subst m0.
      destruct (map_of (ml ++ m ++ mr) !! hash e) eqn:Em; [done|]. exfalso.
      apply map_of_none in Em. rewrite Forall_forall in Em. apply (Em e0); [|done].
      rewrite !elem_of_app. right; left. by eapply list_elem_of_lookup_2.
    + apply list_find_hash_none in El. eapply tri_mono.
      { eapply (insert_leaf_spec st); try done. rewrite !Forall_app in *. tauto. }
      intros [[rt fr] wn] al st' X (Ewn & Efr & top' & bs' & Ht & HR & HP). simpl in *. subst wn.
      unfold inserted. simpl. subst m0. split; [by apply around_absent|].
      eexists top', _, bs'. split_and!; [lia..|exact HR| |].
      * intros y. rewrite !elem_of_app, elem_of_ins. tauto.
      * exists kept. split; [|done]. rewrite Eb, Efr. solve_Permutation.
  - destruct Hr as (kcs & r & bs' & [[Hm Ht] Hin] & K & ->). rewrite Hm, Ht. simpl negb.
    change (BTREE_NODE_MAGIC =? BTREE_NODE_MAGIC) with true. change (BTREE_INTERNAL =? BTREE_LEAF) with false.
    change (BTREE_INTERNAL =? BTREE_INTERNAL) with true. cbn iota.
    eapply tri_of_opt; [by eapply find_child_spec|]. cbn iota beta.
    destruct (Nat.leb_spec (MAX_TREE_DEPTH - 1) (length path)) as [Hle|_]; [lia|].
    destruct (ctx_down _ _ _ _ _ _ _ _ _ _ _ _ _ _ _ _ (hash e) Hc Hs (conj (conj Hm Ht) Hin) K Ha Hb)
      as (clo & chi & mc & bc & m1 & b1 & m2 & b2 & Hc' & Hr' & Ha' & Hb' & Har' & -> & ->).
    assert (Forall (owned st) (((b, Z.of_nat (kpos (hash e) kcs)) :: path).*1 ++ kept ++ b1 ++ b2) ∧
      Forall (owned st) bc) as [Hoc Hobc].
    { simpl. rewrite Forall_cons, !Forall_app in *. rewrite Forall_cons, !Forall_app in Ho'. tauto. }
    eapply tri_mono; [eapply (IH _ h _ clo chi (ml ++ m1) (kept ++ b1 ++ b2) (m2 ++ mr) mc bc); try done|done].
    + apply X1.
    + eapply ext_ctx; [exact G|exact X1|done|exact Hc'].
    + eapply ext_rep; [exact G|exact X1|done|exact Hr'].
    + by apply around_app.
    + by eapply ext_owned_all.
    + rewrite Em. by rewrite <- !app_assoc.
    + rewrite Eb. simpl. solve_Permutation.
    + simpl. lia.
    + lia.
Qed.

(** ** Deletion *)
Lemma tri_weaken {A} (m : M St FsError A) st (P : A → list Z → St → Prop) (E E' : FsError → St → Prop) :
  tri m st P E → (∀ e st', E e st' → E' e st') → tri m st P E'.
Proof.
  intros Hm HE. eapply wp_mono; [exact Hm|]. intros r st' (al & X & HP). exists al.
  split; [done|]. destruct r; auto.
Qed.

(** The root is the last block of the path. *)
Lemma ctx_root f root top path h b lo hi ml kept mr : ctx f root top path h b lo hi ml kept mr →
  (path = [] ∧ b = root ∧ h = top) ∨ root ∈ path.*1.
Proof.
  induction 1 as [|path h p lo hi ml kept mr idx kcs r clo chi m1 b1 m2 b2 Hc IH Hs Hi Hh Hk]; [by left|].
  right. simpl. destruct IH as [(-> & -> & _)|IH]; set_solver.
Qed.

(** A tree without its last entry is block 0; otherwise a tree without the
    entry, on the blocks kept and allocated. *)
Definition deleted (top : nat) m' bs0 (x : Z * list Z) (al : list Z) (st' : St) : Prop :=
  (x.1 = 0 ∧ m' = [] ∧ x.2 ≡ₚ bs0) ∨
  ∃ top' bs', (top' ≤ top)%nat ∧ rep (vw st') top' None None x.1 m' bs' ∧ swapped al x.2 bs0 bs'.

(** No internal node but the root is without keys. *)
Definition keyed (st : St) (root : Z) (bs : list Z) : Prop :=
  ∀ p r, p ∈ bs → p ≠ root → ¬ internal_is (vw st p) [] r.

Lemma remove_from_parent_spec root top path b lo hi ml kept mr old st :
  good st → ctx (vw st) root top path 0 b lo hi ml kept mr → path ≠ [] →
  Forall (owned st) (path.*1 ++ kept) → NoDup (path.*1) → keyed st root (path.*1) →
  tri (remove_from_parent blake3 path old) st (λ x al st',
    (x.1 = 0 ∧ ml ++ mr = [] ∧ kept = [] ∨
     ∃ top' bs', (top' ≤ top)%nat ∧ rep (vw st') top' None None x.1 (ml ++ mr) bs' ∧ bs' ≡ₚ al ++ kept) ∧
    x.2 = old ++ path.*1) fault.
Proof.
  intros G Hc Hne Ho Hnd Hz. inversion Hc
    as [|path' h p lo0 hi0 ml0 kept0 mr0 idx kcs r0 ? ? ma ba mb bb Hc0 Hs Hi Hh Hk]; subst; [done|].
  cbn [remove_from_parent]. apply tri_read; eauto with npk; [congruence|]. intros st1 X1 _ _.
  apply Forall_cons in Ho as [Hop Ho]. simpl in Ho, Hnd. apply NoDup_cons in Hnd as [Hnp Hnd].
  assert (Forall (owned st) (path'.*1 ++ kept0) ∧ Forall (owned st) (ba ++ bb)) as [Ho0 Hos].
  { rewrite !Forall_app in *. tauto. }
  assert (kcs ≠ [] → kids (rep (vw st) 0) lo0 hi0 (drop_kcs idx kcs) (drop_right idx kcs r0) (ma ++ mb) (ba ++ bb)) as HK.
  { intros Hk0. eapply kctx_drop; [..|exact Hk|done]. intros. by eapply rep_weaken. }
  pose proof (proj2 Hi) as Hin. rewrite (in_num _ _ _ Hin).
  destruct ((zlen kcs <=? 1) && bool_decide (path' = [])) eqn:Ec.
  - apply andb_true_iff in Ec as [Hn%Z.leb_le ->%bool_decide_eq_true].
    inversion Hc0; subst. rewrite (in_right _ _ _ Hin).
    destruct kcs as [|[k c] [|? ?]]; [| |unfold zlen in Hn; simpl in Hn; lia].
    + inversion Hk as [? ? ? ? ? Hl|l1 ? ? ? ? ? ? ? ? ? ? ? ? ? E]; subst; [|by destruct l1].
      inversion Hl; subst. simpl. apply tri_ret; [apply X1|]. split; [by left|done].
    + specialize (HK ltac:(done)). eapply (tri_bind _ _ _ _ _ (λ x al st', x = drop_right idx [(k, c)] r0 ∧ al = [] ∧ st' = st1)).
      { inversion Hk as [? ? ? ? ? Hl|l1 k1 c1 l2 ? ? ? ? ? ? Hl ? ? ? E]; subst.
        - simpl. destruct (inode_lookup _ _ _ 0 k c Hin) as (_ & Hc1 & _); [done|].
          change (Z.of_nat 0) with 0 in Hc1. rewrite Hc1. apply tri_ret; [apply X1|done].
        - destruct l1 as [|? [|]]; simplify_eq. simpl. apply tri_ret; [apply X1|done]. }
      intros x al st' _ (-> & -> & ->). apply tri_ret; [apply X1|]. simpl. split; [right|done].
      destruct HK as (lo' & m1 & b1 & m2 & b2 & Hl & HR & Em & Eb).
      assert (drop_kcs idx [(k, c)] = []) as Ed.
      { unfold drop_kcs. case_decide as Hd; [|done]. simpl in Hd. by destruct idx; [|lia]. }
      rewrite Ed in Hl. inversion Hl; subst. simpl in Em, Eb. exists 0%nat, (ba ++ bb).
      rewrite !app_nil_r, Em, Eb. split_and!; [lia| |done].
      eapply ext_rep; [exact G|exact X1|by rewrite <- Eb|exact HR].
  - assert (kcs ≠ []) as Hk0.
    { intros ->. apply andb_false_iff in Ec as [?|Hp%bool_decide_eq_false]; [done|].
      destruct (ctx_root _ _ _ _ _ _ _ _ _ _ _ Hc0) as [(-> & _)|Hr]; [done|].
      apply (Hz p r0); [by left| |done]. intros ->. done. }
    specialize (HK Hk0). destruct (drop_child_spec _ _ _ idx Hin Hk0) as (buf & Hbuf & Hb & HI).
    specialize (HI (proj1 Hi)). eapply tri_alloc_write; eauto with npk; [apply X1|].
    intros np st2 X2 Hv _. destruct (written_internal blake3 blake3_len _ _ _ _ HI Hv) as [Hwi Hws].
    pose proof (ext_trans _ _ _ _ _ _ _ X1 X2) as X. simpl in X. eapply tri_mono.
    { eapply (fixup_path_spec root top path' 1 p lo0 hi0 ml0 kept0 mr0 np (ma ++ mb) (np :: ba ++ bb)).
      - apply X2.
      - eapply ext_ctx; [exact G|exact X|done|done].
      - eapply rep_node; [done..|]. eapply kids_step; [exact G|exact X|exact Hos|exact HK].
      - by eapply ext_owned_all.
      - constructor; [eapply ext_new; [exact X|set_solver]|]. by eapply ext_owned_all. }
    intros [r' fr] al st3 X3 (bs' & HR & HP & HF). simpl in *. rewrite <- !app_assoc in *.
    split; [right|by rewrite HF]. exists top, bs'. split_and!; [lia|done|].
    rewrite HP. solve_Permutation.
Qed.

Definition del_post (key : list byte) (top : nat) m0 bs0 x al st' : Prop :=
  is_Some (map_of m0 !! key) ∧
  ∃ m', (∀ y, y ∈ m' ↔ y ∈ m0 ∧ hash y ≠ key) ∧ deleted top m' bs0 x al st'.

(** An entry in the leaf and none of its key beside it: what is left. *)
Lemma leaf_delete key ml es mr i e : sorted es → around key ml mr → es !! i = Some e → hash e = key →
  is_Some (map_of (ml ++ es ++ mr) !! key) ∧
  ∀ y, y ∈ ml ++ delete i es ++ mr ↔ y ∈ ml ++ es ++ mr ∧ hash y ≠ key.
Proof.
  intros Hs Ha Hi He. split.
  - destruct (map_of _ !! key) eqn:Em; [done|]. exfalso. apply map_of_none in Em. rewrite Forall_forall in Em.
    apply (Em e); [|done]. rewrite !elem_of_app. right; left. by eapply list_elem_of_lookup_2.
  - intros y. destruct (sorted_delete _ _ _ Hs Hi) as [_ Hd]. rewrite !elem_of_app, Hd, He.
    pose proof (around_neq key ml mr y Ha). tauto.
Qed.

Lemma delete_leaf_spec st st1 root top path b lo hi ml kept mr es buf i e bs0 :
  good st → ext [] st st1 → buf = vw st b → ctx (vw st) root top path 0 b lo hi ml kept mr →
  leaf_is buf es → sorted es → Forall (inb lo hi) es → around (hash e) ml mr →
  es !! i = Some e → Forall (owned st) bs0 → NoDup bs0 → keyed st root bs0 →
  bs0 ≡ₚ path.*1 ++ kept ++ [b] →
  tri (if (num_entries (read_header buf) =? 1) && negb (bool_decide (path = []))
       then remove_from_parent blake3 path [b]
       else
         new_block ← alloc1;
         new_buf ← of_opt (remove_leaf_entry buf (read_header buf) (Z.of_nat i));
         _ ← on_fst (write_node blake3 new_block new_buf);
         if bool_decide (path = []) && (num_entries (read_header buf) =? 1) then mret (0, [b])
         else fixup_path blake3 path new_block [b]) st1
    (deleted top (ml ++ delete i es ++ mr) bs0) fault.
Proof.
  intros G X1 -> Hc L Hs Hi Ha He Ho Hnd Hz Eb. rewrite (li_num _ _ L).
  assert (Forall (owned st) (path.*1 ++ kept) ∧ NoDup path.*1) as [Ho' Hnd'].
  { rewrite Eb in Ho, Hnd. rewrite !Forall_app in *. apply NoDup_app in Hnd. tauto. }
  assert (zlen es = 1 → delete i es = []) as Hone.
  { intros H1. destruct es as [|e0 [|]]; unfold zlen in H1; simpl in H1; try lia. by destruct i as [|[]]. }
  destruct ((zlen es =? 1) && negb (bool_decide (path = []))) eqn:Ec.
  - apply andb_true_iff in Ec as [H1%Z.eqb_eq Hp%negb_true_iff%bool_decide_eq_false].
    rewrite Hone by done. eapply tri_mono.
    { eapply (remove_from_parent_spec root top path b lo hi ml kept mr [b] st1);
        [apply X1|by eapply ext_ctx; [exact G|exact X1|..]|done|by eapply ext_owned_all|done|].
      intros p r Hpp Hne Hin.
      assert (p ∈ bs0) as Hp0 by (rewrite Eb; set_solver).
      rewrite Forall_forall in Ho. destruct (ext_owned _ _ _ p G X1 (Ho p Hp0)) as (_ & _ & Ev).
      rewrite Ev in Hin. by eapply Hz. }
    intros [x fr] al st' X ([(Ex & Em & Ek)|(top' & bs' & Ht & HR & HP)] & HF); simpl in *; subst.
    + left. simpl. rewrite Eb. split_and!; [done|done|]. solve_Permutation.
    + right. exists top', bs'. split_and!; [done..|]. exists kept. split; [|done].
      simpl. rewrite Eb. solve_Permutation.
  - pose proof (lookup_lt_Some _ _ _ He) as Hil.
    destruct (remove_leaf_entry_spec _ es i L Hil) as (nb & Hnb & Lnb).
    eapply tri_alloc_write; eauto with npk; [apply X1|apply Lnb|].
    intros n st2 X2 Hv _. destruct (written_leaf blake3 blake3_len _ _ _ Lnb Hv) as [Lw Sw].
    pose proof (ext_trans _ _ _ _ _ _ _ X1 X2) as X. simpl in X.
    destruct (bool_decide (path = []) && (zlen es =? 1)) eqn:Ec2.
    + apply andb_true_iff in Ec2 as [->%bool_decide_eq_true H1%Z.eqb_eq]. inversion Hc; subst.
      apply tri_ret; [apply X2|]. left. simpl in *. rewrite Hone by done. by rewrite Eb.
    + destruct (sorted_delete _ _ _ Hs He) as [Hsd Hde]. eapply tri_mono.
      { eapply fixup_path_spec; [apply X2|eapply ext_ctx; [exact G|exact X|done|done]| | |].
        - eapply (leaf_rep (vw st2 n) _ _ _ _ (delete i es)); try done.
          apply Forall_forall. intros y Hy. rewrite Forall_forall in Hi. apply Hi. by apply Hde.
        - by eapply ext_owned_all.
        - constructor; [eapply ext_new; [exact X|set_solver]|done]. }
      intros [rt fr] al st3 X3 (bs' & HR & HP & HF). simpl in *. right. exists top, bs'.
      split_and!; [lia|done|]. exists kept. simpl. rewrite HF, HP, Eb. split; solve_Permutation.
Qed.

Lemma delete_loop_spec fuel root top path h b lo hi ml kept mr m bs m0 bs0 key st :
  good st → ctx (vw st) root top path h b lo hi ml kept mr →
  rep (vw st) h lo hi b m bs → above lo key → below key hi → around key ml mr →
  Forall (owned st) bs0 → NoDup bs0 → keyed st root bs0 → m0 = ml ++ m ++ mr →
  bs0 ≡ₚ path.*1 ++ kept ++ bs →
  (fuel + length path = MAX_TREE_DEPTH)%nat → (h < fuel)%nat →
  tri (delete_loop blake3 fuel path b key) st (del_post key top m0 bs0)
    (λ e st', fault e st' ∨ (e = ObjectNotFound ∧ map_of m0 !! key = None)).
Proof.
  revert path h b lo hi ml kept mr m bs st. induction fuel as [|fuel IH];
    intros path h b lo hi ml kept mr m bs st G Hc Hr Ha Hb Har Ho Hnd Hz Em Eb Hf Hh; [lia|].
  assert (Forall (owned st) (path.*1 ++ kept ++ bs)) as Ho' by (by rewrite <- Eb).
  destruct h as [|h]; simpl in Hr; destruct Hr as [Hs Hr]; cbn [delete_loop];
    (apply tri_read; [done|intros; by left; left|congruence|]); intros st1 X1 _ _.
  - destruct Hr as (L & So & Hi & ->). rewrite (li_magic _ _ L), (li_type _ _ L). simpl negb.
    change (BTREE_NODE_MAGIC =? BTREE_NODE_MAGIC) with true. change (BTREE_LEAF =? BTREE_LEAF) with true. cbn iota.
    eapply tri_of_opt; [by apply find_hash_spec|].
    destruct (list_find _ m) as [[i e0]|] eqn:El; simpl fmap; cbn iota.
    + apply list_find_Some in El as (Hi0 & He0 & _). unfold has_hash in He0. subst key.
      eapply tri_weaken; [|by left]. eapply tri_mono.
      { by eapply (delete_leaf_spec st st1 root top path b lo hi ml kept mr m _ i e0 bs0). }
      intros x al st' X HD. unfold del_post. subst m0.
      destruct (leaf_delete (hash e0) ml m mr i e0) as [H1 H2]; [done..|]. split; [done|]. by eexists.
    + apply list_find_hash_none in El. apply tri_fail; [apply X1|]. right. split; [done|].
      subst m0. by apply around_absent.
  - destruct Hr as (kcs & r & bs' & [[Hm Ht] Hin] & K & ->). rewrite Hm, Ht. simpl negb.
    change (BTREE_NODE_MAGIC =? BTREE_NODE_MAGIC) with true. change (BTREE_INTERNAL =? BTREE_LEAF) with false.
    change (BTREE_INTERNAL =? BTREE_INTERNAL) with true. cbn iota.
    eapply tri_of_opt; [by eapply find_child_spec|]. cbn iota beta.
    destruct (Nat.leb_spec (MAX_TREE_DEPTH - 1) (length path)) as [Hle|_]; [lia|].
    destruct (ctx_down _ _ _ _ _ _ _ _ _ _ _ _ _ _ _ _ key Hc Hs (conj (conj Hm Ht) Hin) K Ha Hb)
      as (clo & chi & mc & bc & m1 & b1 & m2 & b2 & Hc' & Hr' & Ha' & Hb' & Har' & -> & ->).
    assert (Forall (owned st) (((b, Z.of_nat (kpos key kcs)) :: path).*1 ++ kept ++ b1 ++ b2) ∧
      Forall (owned st) bc) as [Hoc Hobc].
    { simpl. rewrite Forall_cons, !Forall_app in *. rewrite Forall_cons, !Forall_app in Ho'. tauto. }
    eapply tri_mono; [eapply (IH _ h _ clo chi (ml ++ m1) (kept ++ b1 ++ b2) (m2 ++ mr) mc bc); try done|done].
    + apply X1.
    + eapply ext_ctx; [exact G|exact X1|done|exact Hc'].
    + eapply ext_rep; [exact G|exact X1|done|exact Hr'].
    + by apply around_app.
    + by eapply ext_owned_all.
    + intros p r' Hp Hne HI. rewrite Forall_forall in Ho.
      destruct (ext_owned _ _ _ p G X1 (Ho p Hp)) as (_ & _ & Ev). rewrite Ev in HI. by eapply Hz.
    + rewrite Em. by rewrite <- !app_assoc.
    + rewrite Eb. simpl. solve_Permutation.
    + simpl. lia.
    + lia.
Qed.
End spec.
