(* ===== verification/BtreeMap.v ===== *)
(** * What the tree's operations promise

    [tree st root h mm bs]: block [root] carries the finite map [mm] from
    content addresses to entries, in a tree of height [h] on the distinct, used
    blocks [bs]; block 0 is the empty map.  The public operations refine the
    map's, and the tolerant walk of a sound tree reports exactly its entries and
    its blocks.  Two edge cases of deletion where the code does not keep this
    promise close the file. *)

From S2P Require Import Prelude Bytes Format BlockStore Bitmap BitmapSpec BtreeNode Btree BtreeNodeSpec BtreeIo BtreeSafe BtreeRep BtreeSpec.

Section map.
Context (blake3 : list byte → list byte).
Hypothesis blake3_len : ∀ bs, length (blake3 bs) = 32%nat.
Context {C : Type} `{!BlockStore C} `{!BlockStoreOk C (verify_node_checksum blake3)}.

Notation St := (C * Bitmap.t)%type.
Notation vw := (vw blake3).

Definition tree (st : St) (root : Z) (h : nat) (mm : gmap (list byte) BTreeEntryRaw)
  (bs : list Z) : Prop :=
  (root = 0 ∧ h = 0%nat ∧ mm = ∅ ∧ bs = []) ∨
  ∃ m, rep blake3 (vw st) h None None root m bs ∧ mm = map_of m ∧ NoDup bs ∧ Forall (owned st) bs.

Lemma tree_keeps ok al st st' root h mm bs : good blake3 ok st → ext blake3 ok al st st' →
  tree st root h mm bs → tree st' root h mm bs.
Proof.
  intros G X [T|(m & R & Em & Hn & Ho)]; [by left|right]. exists m.
  split_and!; [by eapply ext_rep|done|done|by eapply ext_owned_all].
Qed.

Lemma rep_nonzero ok st h lo hi b m bs : good blake3 ok st → rep blake3 (vw st) h lo hi b m bs →
  Forall (owned st) bs → (b =? 0) = false.
Proof.
  intros G R Ho. destruct (rep_root _ _ _ _ _ _ _ _ R) as [Hb _]. rewrite Forall_forall in Ho.
  destruct (owned_pos blake3 ok st b G (Ho b Hb)). apply Z.eqb_neq. lia.
Qed.

(** ** Lookup *)
Lemma map_of_middle key ml m mr : around key ml mr → sorted (ml ++ m ++ mr) →
  map_of (ml ++ m ++ mr) !! key = map_of m !! key.
Proof.
  intros Ha Hs. assert (sorted m) as Hm by (by apply sorted_app in Hs as (_ & (? & _ & _)%sorted_app & _)).
  apply option_eq. intros e. rewrite !map_of_lookup by done. rewrite !elem_of_app.
  pose proof (around_neq key ml mr e Ha). naive_solver.
Qed.

Lemma lookup_loop_spec fuel h lo hi b m bs key c : store_inv c → rep blake3 (view c) h lo hi b m bs →
  above lo key → below key hi → (h < fuel)%nat →
  wp (lookup_loop blake3 fuel b key) (λ r c', unchanged (check := verify_node_checksum blake3) c c' ∧
    match r with Ok o => o = map_of m !! key | Err _ => ¬ healthy c | Panic => False end) c.
Proof.
  revert h lo hi b m bs c. induction fuel as [|fuel IH]; intros h lo hi b m bs c Hi R Ha Hb Hh; [lia|].
  cbn [lookup_loop]. apply wp_bind. eapply wp_mono; [apply wp_and; [by apply read_node_c|by apply read_node_direct]|].
  intros r c1 [(H1 & H2 & H3 & H4) H5]. assert (unchanged (check := verify_node_checksum blake3) c c1) as U by by split_and!.
  destruct (rep_root _ _ _ _ _ _ _ _ R) as [_ Hs].
  pose proof (rep_sorted _ _ _ _ _ _ _ _ R) as Hsm.
  destruct r as [buf|e|]; [|split; [done|]; by destruct H4 as [?|[_ ?]]; [|congruence]|done].
  destruct H4 as [-> _]. destruct h as [|h]; simpl in R; destruct R as [_ R].
  - destruct R as (L & So & _ & ->). rewrite (li_magic _ _ L), (li_type _ _ L). simpl negb.
    change (BTREE_NODE_MAGIC =? BTREE_NODE_MAGIC) with true. change (BTREE_LEAF =? BTREE_LEAF) with true. cbn iota.
    apply wp_bind. eapply wp_of_opt; [by apply find_hash_spec|]. apply wp_ret. split; [done|].
    destruct (list_find _ m) as [[i e]|] eqn:El; simpl; symmetry.
    + apply list_find_Some in El as (Hie & Hk & _). apply map_of_lookup; [done|].
      split; [by eapply list_elem_of_lookup_2|done].
    + apply map_of_none. by apply list_find_hash_none.
  - destruct R as (kcs & r & bs' & [[Hm Ht] Hin] & K & ->). rewrite Hm, Ht. simpl negb.
    change (BTREE_NODE_MAGIC =? BTREE_NODE_MAGIC) with true. change (BTREE_INTERNAL =? BTREE_LEAF) with false.
    change (BTREE_INTERNAL =? BTREE_INTERNAL) with true. cbn iota. apply wp_bind.
    eapply wp_of_opt; [unfold find_child_block; by rewrite (find_child_spec _ _ _ key Hin)|].
    destruct (kids_focus _ _ _ _ _ _ _ _ K Ha Hb) as (clo & chi & mc & bc & m1 & b1 & m2 & b2 & Hk & Hr & Ha' & Hb' & _ & _ & -> & ->).
    assert (around key m1 m2) as Har.
    { eapply kctx_around; [..|exact Hk|done|done]; intros; [by eapply rep_inb|by eapply rep_sorted]. }
    eapply wp_mono; [eapply (IH h clo chi _ mc bc c1)|]; try done; [|lia|].
    + eapply rep_frame; [exact Hr|]. intros x _. apply H2.
    + intros o c' [U' R']. split; [by eapply unchanged_trans|].
      rewrite map_of_middle by done. destruct o; auto.
Qed.

Lemma tree_lookup ok st root h mm bs key : good blake3 ok st → tree st root h mm bs → (h < MAX_TREE_DEPTH)%nat →
  wp (Btree.lookup blake3 root key) (λ r c', unchanged (check := verify_node_checksum blake3) st.1 c' ∧
    match r with Ok o => o = mm !! key | Err _ => ¬ healthy st.1 | Panic => False end) st.1.
Proof.
  intros G T Hh. unfold Btree.lookup. destruct T as [(-> & _ & -> & _)|(m & R & -> & _ & Ho)].
  - apply wp_ret. split; [apply unchanged_refl, G|done].
  - rewrite (rep_nonzero _ _ _ _ _ _ _ _ G R Ho). by eapply lookup_loop_spec; [apply G|done..|].
Qed.

(** The first leaf. *)
Lemma first_leaf e : entry_wf e →
  ∃ buf, set_leaf_entry (write_header make_empty_leaf (with_count (read_header make_empty_leaf) 1)) 0 e = Some buf ∧
    leaf_is buf [e].
Proof.
  intros Hw. destruct (leaf_of_spec [e]) as (buf & Hbuf & L); [done|by constructor|].
  exists buf. split; [|done]. unfold leaf_of in Hbuf. simpl in Hbuf.
  assert (write_header make_empty_leaf (with_count (read_header make_empty_leaf) 1) =
    write_header zero_block (mkHeader BTREE_NODE_MAGIC BTREE_LEAF 0 (u16 (zlen [e])) 0)) as -> by (by vm_compute).
  by destruct (set_leaf_entry _ 0 e).
Qed.

Lemma insert_first ok e st : good blake3 ok st → entry_wf e →
  tri blake3 ok (Btree.insert blake3 0 e) st (λ x al st',
    ∃ n, x = (n, [], true) ∧ al = [n] ∧ rep blake3 (vw st') 0 None None n [e] [n]) (fault ok).
Proof.
  intros G Hw. destruct (first_leaf e Hw) as (buf & Hbuf & L). unfold Btree.insert. change (0 =? 0) with true. cbn iota.
  eapply tri_alloc_write; [done|done|exact Hbuf|apply L|by left|by right|]. intros n st1 X Hv _.
  destruct (written_leaf blake3 blake3_len _ _ _ L Hv) as [Lw Sw].
  apply tri_ret; [apply X|]. exists n. split_and!; [done..|].
  apply (leaf_rep blake3 (vw st1 n)); [done..|unfold sorted; repeat constructor|repeat constructor].
Qed.

(** ** The walk of a sound tree *)

(** The subtrees on the walk's stack, each with its height, entries and blocks. *)
Record sub := Sub { sub_root : Z; sub_h : nat; sub_m : list BTreeEntryRaw; sub_bs : list Z }.

Definition sub_ok (f : Z → block) (s : sub) : Prop :=
  ∃ lo hi, rep blake3 f (sub_h s) lo hi (sub_root s) (sub_m s) (sub_bs s).

Lemma kids_subs f h lo hi kcs r m bs : kids (rep blake3 f h) lo hi kcs r m bs →
  ∃ ss, map sub_root ss = map snd kcs ++ [r] ∧ Forall (sub_ok f) ss ∧ Forall (λ s, sub_h s = h) ss ∧
    m = mjoin (map sub_m ss) ∧ bs = mjoin (map sub_bs ss).
Proof.
  revert lo m bs. induction kcs as [|[k c] kcs IH]; intros lo m bs K.
  - destruct K as (lo' & m1 & b1 & m2 & b2 & Hl & R & -> & ->). inversion Hl; subst.
    exists [Sub r h m2 b2]. simpl. rewrite !app_nil_r. split_and!; try done.
    + constructor; [by eexists _, _|done].
    + by constructor.
  - apply kids_cons in K as (m1 & b1 & m2 & b2 & _ & _ & R & K & -> & ->).
    destruct (IH _ _ _ K) as (ss & E1 & F1 & F2 & -> & ->).
    exists (Sub c h m1 b1 :: ss). simpl. rewrite E1. split_and!; try done.
    + constructor; [by eexists _, _|done].
    + by constructor.
Qed.

(** What a finished walk reports beyond [out]: the entries in key order, the
    blocks below the stacked roots, and nothing skipped. *)
Definition reports (out ws : list Walk) (m : list BTreeEntryRaw) (bs : list Z) : Prop :=
  entries_of ws = entries_of out ++ m ∧ children_of ws ≡ₚ children_of out ++ bs ∧ skips_of ws = skips_of out.

Lemma entries_of_entries es : entries_of (map Entry es) = es ∧ children_of (map Entry es) = [] ∧ skips_of (map Entry es) = [].
Proof. induction es as [|e es (I1 & I2 & I3)]; [done|]. split_and!; [simpl; by f_equal|done|done]. Qed.
Lemma children_of_children cs : entries_of (map Child cs) = [] ∧ children_of (map Child cs) = cs ∧ skips_of (map Child cs) = [].
Proof. induction cs as [|c cs (I1 & I2 & I3)]; [done|]. split_and!; [done|simpl; by f_equal|done]. Qed.

Lemma nonzero_id l : 0 ∉ l → nonzero l = l.
Proof.
  induction l as [|x l IH]; [done|]. rewrite not_elem_of_cons. intros [Hx Hl]. unfold nonzero in *. simpl.
  rewrite (proj2 (Z.eqb_neq x 0)) by done. simpl. by rewrite IH.
Qed.

(** The blocks below the stacked roots. *)
Definition under (ss : list sub) : list Z := mjoin (map (λ s, tail (sub_bs s)) ss).

Lemma sub_ok_head f s : sub_ok f s → sub_bs s = sub_root s :: tail (sub_bs s).
Proof.
  destruct s as [b h m bs]. intros (lo & hi & R). simpl in *. destruct h; simpl in R; destruct R as [_ R].
  - destruct R as (_ & _ & _ & ->). done.
  - destruct R as (kcs & r & bs' & _ & _ & ->). done.
Qed.

Lemma subs_blocks f ss : Forall (sub_ok f) ss → mjoin (map sub_bs ss) ≡ₚ map sub_root ss ++ under ss.
Proof.
  induction 1 as [|s ss Hs _ IH]; [done|]. simpl. unfold under in *. simpl.
  rewrite (sub_ok_head _ _ Hs) at 1. simpl. rewrite IH. solve_Permutation.
Qed.

Lemma reports_step out ws0 ws m0 b0 m b : entries_of ws0 = m0 → children_of ws0 = b0 → skips_of ws0 = [] →
  reports (out ++ ws0) ws m b → reports out ws (m0 ++ m) (b0 ++ b).
Proof.
  unfold reports, entries_of, children_of, skips_of. rewrite !omap_app. intros -> -> -> (-> & -> & ->).
  rewrite app_nil_r, <- !app_assoc. done.
Qed.

Lemma walk_loop_reports fuel ts seen out c : store_inv c → healthy c →
  Forall (λ x, sub_ok (view c) x.1 ∧ x.2 + Z.of_nat (sub_h x.1) ≤ 64) ts →
  let bs := mjoin (map sub_bs (map fst ts)) in
  NoDup bs → 0 ∉ bs → (∀ b, b ∈ bs → b ∉ seen) → (length bs ≤ fuel)%nat →
  wp (walk_loop blake3 fuel (map (λ x, (sub_root x.1, x.2)) ts) seen out)
     (λ r c', same (view c) (view c') ∧
        ∃ ws, r = Ok ws ∧ reports out ws (mjoin (map sub_m (map fst ts))) (under (map fst ts))) c.
Proof.
  revert ts seen out c. induction fuel as [|fuel IH]; intros ts seen out c Hi Hh Hts; cbv zeta;
    (destruct ts as [|[[b h m bs] d] ts];
      [intros _ _ _ _; split; [done|]; exists out; split; [done|]; unfold reports; by rewrite !app_nil_r|]);
    apply Forall_cons in Hts as [[Hok Hd] Hts]; pose proof (sub_ok_head _ _ Hok) as Hbs; simpl in *;
    intros Hn H0 Hseen Hf; rewrite Hbs in Hf; simpl in Hf; [lia|].
  unfold wp. cbn [walk_loop]. rewrite (proj2 (Z.ltb_ge 64 d)) by lia.
  assert (b ∉ seen) as Hbn by (apply Hseen; rewrite Hbs; set_solver). rewrite bool_decide_false by done.
  pose proof (read_node_c blake3 c b Hi) as Hr. unfold wp in Hr.
  destruct (read_node blake3 b c) as [rr c1]; destruct Hr as (H1 & H2 & H3 & H4).
  destruct Hok as (lo & hi & R). simpl in R. destruct (rep_root _ _ _ _ _ _ _ _ R) as [_ Hs].
  destruct rr as [buf|e|]; [|by destruct H4 as [?|[_ ?]]; [|congruence]|done]. destruct H4 as [-> _].
  assert (Forall (λ x : sub * Z, sub_ok (view c1) x.1 ∧ x.2 + Z.of_nat (sub_h x.1) ≤ 64) ts) as Hts1.
  { eapply Forall_impl; [exact Hts|]. intros x [(lo0 & hi0 & R0) ?]. split; [|done]. exists lo0, hi0.
    eapply rep_frame; [exact R0|]. intros. apply H2. }
  assert (∀ ws0 ss, visit (view c b) b = Some (ws0, map sub_root ss) → skips_of ws0 = [] →
    children_of ws0 = map sub_root ss → entries_of ws0 ++ mjoin (map sub_m ss) = m →
    tail bs = mjoin (map sub_bs ss) → Forall (λ s, sub_ok (view c) s ∧ d + 1 + Z.of_nat (sub_h s) ≤ 64) ss →
    let '(r, c') := match visit (view c b) b with
      | Some (ws, children) => walk_loop blake3 fuel (map (λ x, (x, d + 1)) children ++
          map (λ x : sub * Z, (sub_root x.1, x.2)) ts) ({[b]} ∪ seen) (out ++ ws) c1
      | None => (Panic, c1) end in
    same (view c) (view c') ∧ ∃ ws, r = Ok ws ∧
      reports out ws (m ++ mjoin (map sub_m (map fst ts))) (under (Sub b h m bs :: (map fst ts)))) as Hgo.
  { intros ws0 ss -> Ek Ec Em Et Hss. assert (Forall (sub_ok (view c)) ss) as Hss' by (eapply Forall_impl; [exact Hss|naive_solver]).
    pose proof (IH (map (λ s, (s, d + 1)) ss ++ ts) ({[b]} ∪ seen) (out ++ ws0) c1 H1 (H3 Hh)) as IH'.
    cbv zeta in IH'. rewrite !map_app, join_app in IH'.
    assert (map fst (map (λ s, (s, d + 1)) ss) = ss) as E1 by (rewrite map_map; apply map_id).
    assert (map (λ x : sub * Z, (sub_root x.1, x.2)) (map (λ s, (s, d + 1)) ss) =
      map (λ x, (x, d + 1)) (map sub_root ss)) as E2 by (by rewrite !map_map).
    rewrite E1, E2, <- Et in IH'.
    rewrite Hbs in Hn, H0, Hseen. simpl in Hn, H0, Hseen. apply NoDup_cons in Hn as [Hnb Hn].
    unfold wp in IH'. destruct (walk_loop _ _ _ _ _ c1) as [r c2].
    destruct IH' as (I1 & ws & -> & I2).
    - apply Forall_app. split; [|done]. apply Forall_map. eapply Forall_impl; [exact Hss|].
      intros s [(lo0 & hi0 & R0) ?]. split; [|done]. exists lo0, hi0.
      eapply rep_frame; [exact R0|]. intros. apply H2.
    - done.
    - set_solver.
    - intros x Hx. apply not_elem_of_union. split; [|apply Hseen; set_solver].
      apply not_elem_of_singleton. intros ->. done.
    - lia.
    - split; [by etrans|]. exists ws. split; [done|]. rewrite join_app in I2.
      eapply reports_step in I2; [|done..]. rewrite app_assoc, Em in I2.
      destruct I2 as (J1 & J2 & J3). split_and!; [done| |done]. rewrite J2. f_equiv.
      unfold under. simpl. rewrite map_app, join_app, app_assoc. f_equiv. rewrite Et. symmetry. by eapply subs_blocks. }
  destruct h as [|h]; simpl in R; destruct R as [_ R].
  - destruct R as (L & _ & _ & ->). destruct (entries_of_entries m) as (E1 & E2 & E3).
    eapply (Hgo (map Entry m) []); try done; [by apply visit_leaf|]. rewrite E1. apply app_nil_r.
  - destruct R as (kcs & r & bs' & HI & K & Eb). destruct (kids_subs _ _ _ _ _ _ _ _ K) as (ss & E1 & F1 & F2 & Em & Ebs).
    assert (nonzero (map snd kcs ++ [r]) = map sub_root ss) as Ez.
    { rewrite <- E1. apply nonzero_id. intros Hz. apply H0. subst bs bs'. simpl.
      rewrite (subs_blocks _ _ F1). set_solver. }
    destruct (children_of_children (map sub_root ss)) as (C1 & C2 & C3).
    eapply (Hgo (map Child (map sub_root ss)) ss); try done.
    + rewrite (visit_internal _ b kcs r HI). by rewrite Ez.
    + by rewrite C1, Em.
    + by rewrite Eb.
    + apply Forall_and. split; [done|]. eapply Forall_impl; [exact F2|]. intros s ->. lia.
Qed.

(** ** Insertion and deletion *)

(** What [Btree.insert] and [Btree.delete] leave of a tree. *)
Definition insert_post (root : Z) h mm bs e (x : Z * list Z * bool) (al : list Z) (st' : St) : Prop :=
  match x with
  | (root', frees, true) =>
      mm !! hash e = None ∧
      ∃ h' bs', (h ≤ h' ≤ S h)%nat ∧ tree st' root' h' (<[hash e := e]> mm) bs' ∧ swapped al frees bs bs'
  | (root', frees, false) => is_Some (mm !! hash e) ∧ root' = root ∧ frees = [] ∧ al = []
  end.

Lemma tree_insert ok st root h mm bs e : good blake3 ok st → tree st root h mm bs → (h < MAX_TREE_DEPTH)%nat → entry_wf e →
  tri blake3 ok (Btree.insert blake3 root e) st (insert_post root h mm bs e) (fault ok).
Proof.
  intros G T Hh Hw. destruct T as [(-> & -> & -> & ->)|(m & R & -> & Hn & Ho)].
  - eapply tri_mono; [by apply insert_first|]. intros x al st' X (n & -> & -> & R'). split; [done|]. exists 0%nat, [n].
    split_and!; [lia..| |by exists []]. right. exists [e]. split_and!; [done|done|apply NoDup_singleton|].
    constructor; [|done]. eapply ext_new; [exact X|set_solver].
  - unfold Btree.insert. rewrite (rep_nonzero _ _ _ _ _ _ _ _ G R Ho).
    eapply tri_mono; [apply (insert_loop_spec blake3 blake3_len ok MAX_TREE_DEPTH root h [] h root None None
      [] [] [] m bs m bs e st G Hw (ctx_nil _ _ _ _) R I I (conj (Forall_nil_2 _) (Forall_nil_2 _)) Ho
      ltac:(by rewrite app_nil_r) ltac:(done) ltac:(done) Hh)|].
    intros [[x fr] [|]] al st' X H; unfold inserted in H; simpl in H.
    + destruct H as (Hnone & top' & m' & bs' & Ht & R' & He & Hsw). split; [done|]. exists top', bs'.
      split_and!; [lia..| |done]. right. exists m'.
      destruct (swapped_owned _ _ _ _ _ _ _ _ G X Hsw Hn Ho). split_and!; try done.
      symmetry. apply map_of_insert; [by eapply rep_sorted|by eapply rep_sorted|done|done].
    + by destruct H as (? & [= -> ->] & ->).
Qed.

Lemma tree_delete ok st root h mm bs key : good blake3 ok st → tree st root h mm bs → (h < MAX_TREE_DEPTH)%nat →
  keyed blake3 st root bs →
  tri blake3 ok (Btree.delete blake3 root key) st (λ '(root', frees) al st', is_Some (mm !! key) ∧
      ∃ h' bs', (h' ≤ h)%nat ∧ tree st' root' h' (delete key mm) bs' ∧ (root' = 0 ∧ frees ≡ₚ bs ∨ swapped al frees bs bs'))
    (λ err st', fault ok err st' ∨ (err = ObjectNotFound ∧ mm !! key = None)).
Proof.
  intros G T Hh Hz. destruct T as [(-> & -> & -> & ->)|(m & R & -> & Hn & Ho)].
  - unfold Btree.delete. simpl. apply tri_fail; [done|by right].
  - unfold Btree.delete. rewrite (rep_nonzero _ _ _ _ _ _ _ _ G R Ho).
    eapply tri_mono; [apply (delete_loop_spec blake3 blake3_len ok MAX_TREE_DEPTH root h [] h root None None
      [] [] [] m bs m bs key st G (ctx_nil _ _ _ _) R I I (conj (Forall_nil_2 _) (Forall_nil_2 _)) Ho
      Hn Hz ltac:(by rewrite app_nil_r) ltac:(done) ltac:(done) Hh)|].
    intros [x fr] al st' X H. destruct H as (Hs & m' & He & HD). split; [done|].
    destruct HD as [(Hx & -> & Hp)|(top' & bs' & Ht & R' & Hsw)]; simpl in *.
    + exists 0%nat, []. split_and!; [lia| |by left]. left. split_and!; [done..| |done].
      symmetry. by apply (map_of_delete m []); [eapply rep_sorted|constructor|].
    + exists top', bs'. split_and!; [lia| |by right]. right. exists m'.
      destruct (swapped_owned _ _ _ _ _ _ _ _ G X Hsw Hn Ho). split_and!; try done.
      symmetry. apply map_of_delete; [by eapply rep_sorted|by eapply rep_sorted|done].
Qed.

(** ** Claims *)

(** Looking a key up in a tree gives the map's entry for it, on every
    tree [lookup] can descend ([MAX_TREE_DEPTH] levels); no block changes, and
    an error means the store failed. *)
Theorem lookup_is_map_lookup (st : St) root h mm bs key :
  store_inv st.1 → inv st.2 → tree st root h mm bs → (h < MAX_TREE_DEPTH)%nat →
  let '(r, c') := Btree.lookup blake3 root key st.1 in
  same (view st.1) (view c') ∧
  match r with Ok o => o = mm !! key | Err _ => ¬ healthy st.1 | Panic => False end.
Proof.
  intros Hi Hm T Hh. assert (good blake3 False st) as G by (by split).
  pose proof (tree_lookup False st root h mm bs key G T Hh) as H. unfold wp in H.
  destruct (Btree.lookup _ _ _ _) as [r c']. by destruct H as [(_ & ? & _) ?].
Qed.

(** C2. Insertion is the map's insertion, copying on write.  Whatever the
    outcome, the old tree stays intact under its old root.  A key already
    present changes nothing and is reported as not new.  Otherwise the new root
    carries the map with the entry added, in a tree at most one level higher;
    the blocks returned for freeing are exactly those of the old tree the new
    one does not share, and every block allocated is in the new tree.  The only
    failures are a full data area and a failing store. *)
Theorem insert_is_map_insert (st : St) root h mm bs e :
  store_inv st.1 → inv st.2 → tree st root h mm bs → (h < MAX_TREE_DEPTH)%nat → entry_wf e →
  let '(r, st') := Btree.insert blake3 root e st in
  tree st' root h mm bs ∧
  ∃ al, ext blake3 (healthy st.1) al st st' ∧
  match r with
  | Ok (root', frees, true) =>
      mm !! hash e = None ∧
      ∃ h' bs', (h ≤ h' ≤ S h)%nat ∧ tree st' root' h' (<[hash e := e]> mm) bs' ∧
        swapped al frees bs bs'
  | Ok (root', frees, false) => is_Some (mm !! hash e) ∧ root' = root ∧ frees = [] ∧ al = []
  | Err err => fault (healthy st.1) err st'
  | Panic => False
  end.
Proof.
  intros Hi Hm T Hh Hw. assert (good blake3 (healthy st.1) st) as G by (by split).
  pose proof (tree_insert (healthy st.1) st root h mm bs e G T Hh Hw) as H. unfold tri, wp in H.
  destruct (Btree.insert _ _ _ st) as [r st']. destruct H as (al & X & H).
  split; [by eapply tree_keeps|]. exists al. split; [done|]. by destruct r as [[[x fr] [|]]|err|].
Qed.


(** On a sound tree the tolerant walk of [iter_all] and
    [collect_for_fsck] loses nothing: a visit per block is enough fuel, the
    entries come out complete and in key order, the blocks reported are exactly
    the tree's, and nothing is skipped. *)
Theorem walk_reports_the_tree (st : St) root h mm bs fuel :
  store_inv st.1 → inv st.2 → healthy st.1 → tree st root h mm bs → (h ≤ 64)%nat →
  (length bs ≤ fuel)%nat → root ≠ 0 →
  ∃ es blocks c', collect_for_fsck blake3 fuel root st.1 = (Ok (blocks, es, []), c') ∧
    (∃ c2, iter_all blake3 fuel root st.1 = (Ok es, c2)) ∧
    StronglySorted entry_lt es ∧ map_of es = mm ∧ blocks ≡ₚ bs ∧ same (view st.1) (view c').
Proof.
  intros Hi Hm Hh T Hd Hf Hr0. assert (good blake3 False st) as G by (by split).
  destruct T as [(-> & _)|(m & R & -> & Hn & Ho)]; [done|].
  assert (0 ∉ bs) as H0.
  { intros Hz. rewrite Forall_forall in Ho. destruct (owned_pos blake3 False st 0 G (Ho _ Hz)). lia. }
  pose proof (walk_loop_reports fuel [(Sub root h m bs, 0)] ∅ [] st.1 Hi Hh) as H. cbv zeta in H.
  simpl map in H. simpl mjoin in H. unfold under in H. simpl in H. rewrite !app_nil_r in H. unfold wp in H.
  unfold collect_for_fsck, iter_all, walk. rewrite (proj2 (Z.eqb_neq root 0)) by done.
  unfold fmap, M_fmap, mbind, M_bind.
  destruct (walk_loop _ _ _ _ _ st.1) as [r c'].
  destruct H as (Hsame & ws & -> & E1 & E2 & E3); [|done|done|by intros b _; apply not_elem_of_empty|done|].
  { constructor; [|done]. split; [by eexists _, _|simpl; lia]. }
  simpl in E1, E2, E3. exists m, (root :: children_of ws), c'. rewrite E1, E3. split_and!; try done.
  - by exists c'.
  - by eapply rep_sorted.
  - rewrite E2. pose proof (sub_ok_head (view st.1) (Sub root h m bs)) as Hb. simpl in Hb.
    rewrite Hb at 2; [done|]. by eexists _, _.
Qed.
End map.

(** ** A disk with one entry *)
Definition ex_run := Btree.insert ex_hash 0 ex_entry (∅ : MemStore, ex_fresh).
Definition ex_one : MemStore * Bitmap.t := ex_run.2.

Lemma ex_run_root : ex_run.1 = Ok (10, [], true).
Proof. vm_compute. reflexivity. Qed.

Lemma ex_one_ok : store_inv (check := verify_node_checksum ex_hash) ex_one.1 ∧ inv ex_one.2 ∧
  tree ex_hash ex_one 10 0 {[hash ex_entry := ex_entry]} [10] ∧ keyed ex_hash ex_one 10 [10].
Proof.
  assert (good ex_hash True (∅ : MemStore, ex_fresh)) as G.
  { split; [apply map_Forall_empty|exact ex_fresh_inv|done]. }
  pose proof (insert_first ex_hash ltac:(done) True ex_entry (∅ : MemStore, ex_fresh) G ex_entry_wf) as H.
  unfold tri, wp in H. fold ex_run in H. unfold ex_one. pose proof ex_run_root as E.
  destruct ex_run as [r st]. simpl in E. subst r. simpl snd.
  destruct H as (al & X & n & Hn & -> & R). injection Hn as <-.
  split_and!; [apply X|apply X| |].
  - right. exists [ex_entry]. split_and!; [exact R|done|apply NoDup_singleton|].
    constructor; [|done]. eapply ext_new; [exact X|set_solver].
  - intros p r Hp Hne. set_solver.
Qed.

Definition ex_entry2 : BTreeEntryRaw := entry_of (replicate 112 x02).

Lemma lookup_is_map_lookup_witness :
  ∃ c', Btree.lookup ex_hash 10 (hash ex_entry) ex_one.1 = (Ok (Some ex_entry), c').
Proof.
  destruct ex_one_ok as (H1 & H2 & H3 & _).
  pose proof (lookup_is_map_lookup ex_hash ex_one 10 0 _ [10] (hash ex_entry) H1 H2 H3
    ltac:(unfold MAX_TREE_DEPTH; lia)) as H.
  destruct (Btree.lookup _ _ _ _) as [r c']. destruct H as [_ H].
  destruct r as [o|e|]; [|exfalso; by apply H|done].
  exists c'. by rewrite H, lookup_singleton_eq.
Defined.

Lemma insert_is_map_insert_witness :
  ∃ root' frees st' h' bs', Btree.insert ex_hash 10 ex_entry2 ex_one = (Ok (root', frees, true), st') ∧
    tree ex_hash st' root' h' {[hash ex_entry2 := ex_entry2; hash ex_entry := ex_entry]} bs' ∧
    tree ex_hash st' 10 0 {[hash ex_entry := ex_entry]} [10].
Proof.
  destruct ex_one_ok as (H1 & H2 & H3 & _).
  assert ((Btree.insert ex_hash 10 ex_entry2 ex_one).1 = Ok (11, [10], true)) as E by (vm_compute; reflexivity).
  pose proof (insert_is_map_insert ex_hash ltac:(done) ex_one 10 0 _ [10] ex_entry2 H1 H2 H3
    ltac:(unfold MAX_TREE_DEPTH; lia) ltac:(by apply entry_of_wf)) as H.
  destruct (Btree.insert _ _ _ _) as [r st']. simpl in E. subst r.
  destruct H as (T & al & X & Hn & h' & bs' & _ & T' & _). by exists 11, [10], st', h', bs'.
Defined.


Lemma walk_reports_the_tree_witness :
  ∃ es blocks c', collect_for_fsck ex_hash 1 10 ex_one.1 = (Ok (blocks, es, []), c') ∧
    map_of es = {[hash ex_entry := ex_entry]} ∧ blocks ≡ₚ [10].
Proof.
  destruct ex_one_ok as (H1 & H2 & H3 & _).
  destruct (walk_reports_the_tree ex_hash ltac:(done) ex_one 10 0 _ [10] 1 H1 H2 Logic.I H3 ltac:(lia) ltac:(simpl; lia) ltac:(lia))
    as (es & blocks & c' & E & _ & _ & Em & Hp & _).
  exists es, blocks, c'. exact (conj E (conj Em Hp)).
Defined.

(** ** Two edge cases of deletion

    A tree of height two whose left internal node has no key and one leaf with
    one entry: the shape emptying that node's other leaf leaves. *)
Definition ex_node (o : option block) : block := write_node_checksum ex_hash (default zero_block o).
Definition ex_keyless : MemStore * Bitmap.t :=
  (list_to_map [(10, ex_node (internal_of [(hash ex_entry2, 11)] 12));
                (11, ex_node (internal_of [] 13)); (12, ex_node (internal_of [] 14));
                (13, ex_node (leaf_of [ex_entry])); (14, ex_node (leaf_of [ex_entry2]))],
   (Bitmap.alloc 5 ex_fresh).2).

(** Deleting the only entry below an internal node without keys, not the
    root, does not delete it.  The count of the node's copy wraps to 65535 and
    its right child stays the leaf that was removed: the key is still found
    through the new root, in block 13, which the call returned for freeing. *)
Theorem delete_below_keyless_node_keeps_entry :
  (Btree.lookup ex_hash 10 (hash ex_entry) ex_keyless.1).1 = Ok (Some ex_entry) ∧
  let '(r, st') := Btree.delete ex_hash 10 (hash ex_entry) ex_keyless in
  r = Ok (16, [13; 11; 10]) ∧
  (Btree.lookup ex_hash 16 (hash ex_entry) st'.1).1 = Ok (Some ex_entry).
Proof. vm_compute. split_and!; reflexivity. Qed.

(** Deleting the last entry of a tree that is a single leaf leaks a block:
    the empty tree is root 0, the old leaf is returned for freeing, and block
    11, allocated and written on the way, is in use and in no tree. *)
Theorem delete_last_entry_leaks_block :
  let '(r, st') := Btree.delete ex_hash 10 (hash ex_entry) ex_one in
  r = Ok (0, [10]) ∧ in_use ex_one 11 = false ∧ in_use st' 11 = true.
Proof. vm_compute. split_and!; reflexivity. Qed.
