(* ===== verification/Memory.v ===== *)
(** * The physical frame allocator (mm/memory.rs, boot_info.rs)

    One bit per 4 KiB frame, set = used or reserved.  [allocate] takes the lowest
    free frame from a cursor on, the [contiguous] functions search runs from the
    top of memory down, [mark_region_free] and [mark_region_used] build the
    bitmap from the firmware's memory map, [is_device_window] and its siblings
    answer what a module may map.  [None] is a panic of the code (an index out
    of range), and of the model a search that did not end within its bound. *)

From S2P Require Import Prelude Bytes Bitmap.

Module Memory.

Definition PAGE_SIZE : Z := 4096.
Definition STATIC_FRAMES : Z := Z.shiftl 64 30 / PAGE_SIZE.

Record FrameAllocator := mk {
  bitmap : list byte;
  free_count : Z;
  memory_top : Z;
  next_byte : Z;
}.

Definition frames (s : FrameAllocator) : Z := u64 (zlen (bitmap s) * 8).

Definition mark_all_used (s : FrameAllocator) : FrameAllocator :=
  mk (replicate (length (bitmap s)) xff) 0 (memory_top s) (next_byte s).

Definition set_free (frame : Z) (s : FrameAllocator) : option FrameAllocator :=
  if frames s <=? frame then Some s
  else
    f ← Bitmap.is_free (bitmap s) frame;
    if f : bool then Some s
    else
      d ← Bitmap.set_free (bitmap s) frame;
      Some (mk d (u64 (free_count s + 1)) (memory_top s) (Z.min (next_byte s) (frame / 8))).

Definition set_used (frame : Z) (s : FrameAllocator) : option FrameAllocator :=
  if frames s <=? frame then Some s
  else
    f ← Bitmap.is_free (bitmap s) frame;
    if f : bool then
      d ← Bitmap.set_used (bitmap s) frame;
      Some (mk d (if 0 <? free_count s then free_count s - 1 else free_count s)
              (memory_top s) (next_byte s))
    else Some s.

(** [for frame in frame..frame + n] *)
Fixpoint free_frames (n : nat) (frame : Z) (s : FrameAllocator) : option FrameAllocator :=
  match n with
  | O => Some s
  | S n =>
      s ← set_free frame s;
      free_frames n (frame + 1)
        (mk (bitmap s) (free_count s)
            (if memory_top s <=? frame then frame + 1 else memory_top s) (next_byte s))
  end.
Fixpoint use_frames (n : nat) (frame : Z) (s : FrameAllocator) : option FrameAllocator :=
  match n with
  | O => Some s
  | S n => s ← set_used frame s; use_frames n (frame + 1) s
  end.

Definition mark_region_free (base length : Z) (s : FrameAllocator) : option FrameAllocator :=
  if length =? 0 then Some s
  else
    let start := u64 (base + PAGE_SIZE - 1) / PAGE_SIZE in
    let end_ := u64 (base + length) / PAGE_SIZE in
    free_frames (Z.to_nat (Z.min end_ (frames s) - start)) start s.

Definition mark_region_used (base length : Z) (s : FrameAllocator) : option FrameAllocator :=
  if length =? 0 then Some s
  else
    let start := base / PAGE_SIZE in
    let end_ := u64 (u64 (base + length) + PAGE_SIZE - 1) / PAGE_SIZE in
    use_frames (Z.to_nat (Z.min end_ (frames s) - start)) start s.

(** [b.trailing_ones()] *)
Fixpoint trailing_ones (n : nat) (z : Z) : Z :=
  match n with
  | O => 0
  | S n => if Z.odd z then 1 + trailing_ones n (Z.div2 z) else 0
  end.

(** [for byte_idx in byte_idx..byte_idx + n], [top_byte] being the end. *)
Fixpoint allocate_loop (n : nat) (byte_idx top_byte : Z) (s : FrameAllocator)
  : option (option Z * FrameAllocator) :=
  match n with
  | O => Some (None, mk (bitmap s) (free_count s) (memory_top s) top_byte)
  | S n =>
      b ← at_ (bitmap s) byte_idx;
      if bval b =? 255 then allocate_loop n (byte_idx + 1) top_byte s
      else
        let frame := byte_idx * 8 + trailing_ones 8 (bval b) in
        if memory_top s <=? frame
        then Some (None, mk (bitmap s) (free_count s) (memory_top s) byte_idx)
        else
          d ← Bitmap.set_used (bitmap s) frame;
          Some (Some (u64 (frame * PAGE_SIZE)),
                mk d (u64 (free_count s - 1)) (memory_top s) byte_idx)
  end.

Definition allocate (s : FrameAllocator) : option (option Z * FrameAllocator) :=
  let top_byte := Z.min ((memory_top s + 7) / 8) (zlen (bitmap s)) in
  allocate_loop (Z.to_nat (top_byte - next_byte s)) (next_byte s) top_byte s.

Definition deallocate (addr : Z) (s : FrameAllocator) : option FrameAllocator :=
  set_free (addr / PAGE_SIZE) s.

(** ** Runs of frames *)

(** [for i in 0..count]: the first used frame of [frame .. frame + n). *)
Fixpoint first_used (d : list byte) (n : nat) (frame : Z) : option (option Z) :=
  match n with
  | O => Some None
  | S n =>
      f ← Bitmap.is_free d frame;
      if f : bool then first_used d n (frame + 1) else Some (Some frame)
  end.

Definition take_frames (count start : Z) (s : FrameAllocator)
  : option (option Z * FrameAllocator) :=
  s ← use_frames (Z.to_nat count) start s;
  Some (Some (u64 (start * PAGE_SIZE)), s).

Fixpoint below_loop (fuel : nat) (count start : Z) (s : FrameAllocator)
  : option (option Z * FrameAllocator) :=
  match fuel with
  | O => None
  | S fuel =>
      u ← first_used (bitmap s) (Z.to_nat count) start;
      match u with
      | None => take_frames count start s
      | Some frame =>
          if start =? 0 then Some (None, s)
          else
            let skip_to := if count <? frame then frame - count else 0 in
            if start <=? skip_to then below_loop fuel count (start - 1) s
            else below_loop fuel count skip_to s
      end
  end.

Definition contiguous_below (count limit_bytes : Z) (s : FrameAllocator)
  : option (option Z * FrameAllocator) :=
  if count =? 0 then Some (None, s)
  else
    let top := if 0 <? limit_bytes
               then Z.min (limit_bytes / PAGE_SIZE) (memory_top s) else memory_top s in
    if top <? count then Some (None, s)
    else below_loop (S (Z.to_nat (top - count))) count (top - count) s.

Definition is_power_of_two (z : Z) : bool := (0 <? z) && (Z.land z (z - 1) =? 0).
(** [start & !(align - 1)] *)
Definition align_down (start align : Z) : Z := Z.land start (u64 (Z.lnot (align - 1))).

Fixpoint aligned_loop (fuel : nat) (count align start : Z) (s : FrameAllocator)
  : option (option Z * FrameAllocator) :=
  match fuel with
  | O => None
  | S fuel =>
      u ← first_used (bitmap s) (Z.to_nat count) start;
      match u with
      | None => take_frames count start s
      | Some _ =>
          if start <? align then Some (None, s)
          else aligned_loop fuel count align (start - align) s
      end
  end.

Definition contiguous_aligned_below (count align limit_bytes : Z) (s : FrameAllocator)
  : option (option Z * FrameAllocator) :=
  if (count =? 0) || (align =? 0) || negb (is_power_of_two align) then Some (None, s)
  else
    let top := Z.min (limit_bytes / PAGE_SIZE) (memory_top s) in
    if top <? count then Some (None, s)
    else
      let start := align_down (top - count) align in
      aligned_loop (S (Z.to_nat start)) count align start s.

(** The byte-wise search of [contiguous_aligned]. *)
Fixpoint bytes_loop (fuel : nat) (count align start : Z) (s : FrameAllocator)
  : option (option Z * FrameAllocator) :=
  match fuel with
  | O => None
  | S fuel =>
      bs ← sub (bitmap s) (start / 8) ((start + count) / 8 - start / 8);
      if forallb (λ b, bval b =? 0) bs then take_frames count start s
      else if start <? align then Some (None, s)
      else bytes_loop fuel count align (start - align) s
  end.

Definition contiguous_aligned (count align : Z) (s : FrameAllocator)
  : option (option Z * FrameAllocator) :=
  if (count =? 0) || negb (count `mod` 8 =? 0) || (align <? 8) || negb (is_power_of_two align)
  then Some (None, s)
  else
    let top := Z.min (memory_top s) (frames s) in
    if top <? count then Some (None, s)
    else
      let start := align_down (top - count) align in
      bytes_loop (S (Z.to_nat start)) count align start s.

(** [for i in 0..count] of [deallocate_contiguous]. *)
Fixpoint free_run (n : nat) (frame : Z) (s : FrameAllocator) : option FrameAllocator :=
  match n with
  | O => Some s
  | S n => s ← set_free frame s; free_run n (frame + 1) s
  end.
Definition deallocate_contiguous (base count : Z) (s : FrameAllocator) : option FrameAllocator :=
  free_run (Z.to_nat count) (base / PAGE_SIZE) s.

Definition reserve_region : Z → Z → FrameAllocator → option FrameAllocator := mark_region_used.
Definition stats (s : FrameAllocator) : Z * Z :=
  (free_count s, u64 (free_count s * PAGE_SIZE) / (1024 * 1024)).

(** ** Reclaim

    A shrinker frees up to as many frames as it is asked for and returns how
    many; [None] is the lock on the list being held. *)
Definition Shrinker : Type := Z → FrameAllocator → Z * FrameAllocator.

Fixpoint reclaim_loop (l : list Shrinker) (want freed : Z) (s : FrameAllocator) : Z * FrameAllocator :=
  match l with
  | [] => (freed, s)
  | f :: l =>
      if want <=? freed then (freed, s)
      else let '(n, s) := f (want - freed) s in reclaim_loop l want (u64 (freed + n)) s
  end.
Definition reclaim (shrinkers : option (list Shrinker)) (want : Z) (s : FrameAllocator) : Z * FrameAllocator :=
  match shrinkers with None => (0, s) | Some l => reclaim_loop l want 0 s end.

Definition with_reclaim (shrinkers : option (list Shrinker)) (want : Z)
  (alloc : FrameAllocator → option (option Z * FrameAllocator)) (s : FrameAllocator)
  : option (option Z * FrameAllocator) :=
  '(r, s) ← alloc s;
  match r with
  | Some a => Some (Some a, s)
  | None => let '(freed, s) := reclaim shrinkers want s in
            if 0 <? freed then alloc s else Some (None, s)
  end.

Definition register_shrinker (f : Shrinker) (l : list Shrinker) : list Shrinker := l ++ [f].

Definition deallocate_frame : Z → FrameAllocator → option FrameAllocator := deallocate.
Definition allocate_frame shrinkers := with_reclaim shrinkers 1 allocate.
Definition allocate_contiguous_below shrinkers count limit :=
  with_reclaim shrinkers count (contiguous_below count limit).
Definition allocate_contiguous shrinkers count := allocate_contiguous_below shrinkers count 0.
Definition allocate_contiguous_aligned_below shrinkers count align limit :=
  with_reclaim shrinkers count (contiguous_aligned_below count align limit).
Definition allocate_contiguous_aligned shrinkers count align :=
  with_reclaim shrinkers count (contiguous_aligned count align).

(** ** The firmware's memory map *)
Record MemoryRegion := Region { physical_start : Z; page_count : Z; uefi_type : Z }.

Definition UEFI_CONVENTIONAL_MEMORY : Z := 7.
Definition is_usable (r : MemoryRegion) : bool :=
  match uefi_type r with 7 | 3 | 4 => true | _ => false end.
Definition usable_regions (rs : list MemoryRegion) : list MemoryRegion :=
  List.filter (λ r, is_usable r && (0 <? page_count r)) rs.

(** [(base, length, type)] *)
Definition span (r : MemoryRegion) : Z * Z * Z :=
  (physical_start r, Z.min (2 ^ 64 - 1) (page_count r * PAGE_SIZE), uefi_type r).

Definition is_ram_type (t : Z) : bool :=
  match t with 1 | 2 | 3 | 4 | 5 | 6 | 7 | 8 | 13 | 14 => true | _ => false end.

Record FirmwareMap := Firmware { regions : list MemoryRegion; complete : bool }.

(** [image]: the kernel image, from the linker's [__image_base] up to
    [__heap_start]. *)
Definition is_device_window (image : Z * Z) (map : FirmwareMap) (addr : Z) : bool :=
  if (image.1 <=? addr) && (addr <? image.2) then false
  else
    match List.find (λ x : Z * Z * Z, (x.1.1 <=? addr) && (addr <? sat_add 64 x.1.1 x.1.2))
            (List.map span (regions map)) with
    | Some (_, _, t) => negb (is_ram_type t)
    | None => complete map
    end.

Definition is_firmware_device_region (image : Z * Z) (map : FirmwareMap) (base len : Z) : bool :=
  if 2 ^ 64 <=? base + len then false
  else
    let end_ := base + len in
    if (base <? image.2) && (image.1 <? end_) then false
    else existsb (λ x : Z * Z * Z, negb (is_ram_type x.2) && (x.1.1 <=? base) &&
                     (end_ <=? sat_add 64 x.1.1 x.1.2))
           (List.map span (regions map)).

Definition firmware_ram_in (map : FirmwareMap) (base length : Z) : bool :=
  existsb (λ x : Z * Z * Z, is_ram_type x.2 && (x.1.1 <? sat_add 64 base length) &&
              (base <? sat_add 64 x.1.1 x.1.2))
    (List.map span (regions map)).

(** ** Boot *)

(** [x.next_multiple_of(page)] *)
Definition next_multiple_of (x page : Z) : Z := u64 (div_ceil x page * page).

Fixpoint mark_usable (rs : list MemoryRegion) (s : FrameAllocator) : option FrameAllocator :=
  match rs with
  | [] => Some s
  | r :: rs =>
      let length := u64 (page_count r * PAGE_SIZE) in
      s ← (if length =? 0 then Some s else mark_region_free (physical_start r) length s);
      mark_usable rs s
  end.

(** Where a bitmap of [bytes] bytes goes. *)
Definition bitmap_home (identity_max bytes : Z) (rs : list MemoryRegion) : option Z :=
  fst <$> List.find (λ x : Z * Z, (u64 (x.1 + bytes) <=? x.2) && (u64 (x.1 + bytes) <=? identity_max))
    (List.map (λ r, (next_multiple_of (Z.max (physical_start r) 1048576) PAGE_SIZE,
                     u64 (physical_start r + page_count r * PAGE_SIZE)))
       (List.filter (λ r, uefi_type r =? UEFI_CONVENTIONAL_MEMORY) rs)).

(** Bytes of bitmap the machine needs, one bit per frame up to the highest
    usable one the identity map reaches. *)
Definition bitmap_need (identity_max : Z) (rs : list MemoryRegion) : Z :=
  div_ceil (Z.min (fold_right Z.max 0
              (List.map (λ r, u64 (physical_start r + page_count r * PAGE_SIZE) / PAGE_SIZE)
                 (usable_regions rs))) (identity_max / PAGE_SIZE)) 8.

(** The RAM [(base, bytes)] set aside for a bitmap larger than the static one. *)
Definition carve (identity_max : Z) (rs : list MemoryRegion) (s : FrameAllocator) : option (Z * Z) :=
  let need := bitmap_need identity_max rs in
  let bytes := next_multiple_of need PAGE_SIZE in
  if zlen (bitmap s) <? need then (λ base, (base, bytes)) <$> bitmap_home identity_max bytes rs else None.

(** [init] from the allocator's static bitmap; the last component is
    [USABLE_FRAMES]. *)
Definition init (identity_max : Z) (rs : list MemoryRegion) (s : FrameAllocator)
  : option (FrameAllocator * FirmwareMap * Z) :=
  let carved := carve identity_max rs s in
  let s := match carved with
           | Some _ => mk (replicate (Z.to_nat (bitmap_need identity_max rs)) x00)
                         (free_count s) (memory_top s) (next_byte s)
           | None => s
           end in
  s ← mark_usable (usable_regions rs) (mark_all_used s);
  s ← mark_region_used 0 1048576 s;
  s ← match carved with Some (base, bytes) => mark_region_used base bytes s | None => Some s end;
  Some (s, Firmware rs (negb (bool_decide (length rs = 0%nat))), free_count s).
End Memory.
