(* ===== verification/MemorySpec.v ===== *)
(** * What the frame allocator promises

    The invariant: [free_count] counts the clear bits, no frame below the cursor
    [next_byte] and none from [memory_top] on is free.  Every operation keeps it.
    An allocation returns the lowest free frame, a contiguous one the highest run
    that fits; they fail only when there is none.  What boot leaves free is
    usable RAM above 1 MiB. *)

From S2P Require Import Prelude Bytes Format BlockStore Bitmap BitmapSpec Memory.
Import Memory.

(** ** Bytes as eight bits *)
Lemma used_byte d i k b : d !! i = Some b → 0 ≤ k < 8 →
  used d (Z.of_nat i * 8 + k) = Z.testbit (bval b) k.
Proof.
  intros Hi Hk. unfold used.
  assert ((Z.of_nat i * 8 + k) / 8 = Z.of_nat i) as -> by (rewrite Z.div_add_l by lia; rewrite Z.div_small by lia; lia).
  assert ((Z.of_nat i * 8 + k) `mod` 8 = k) as -> by (rewrite Z.add_comm, Z.mod_add by lia; by apply Z.mod_small).
  by rewrite Nat2Z.id, Hi.
Qed.

Lemma byte_split f : 0 ≤ f → ∃ (i : nat) k, f = Z.of_nat i * 8 + k ∧ 0 ≤ k < 8.
Proof.
  intros. exists (Z.to_nat (f / 8)), (f `mod` 8). pose proof (Z.div_mod f 8). pose proof (Z.mod_pos_bound f 8).
  assert (0 ≤ f / 8) by (by apply Z.div_pos). lia.
Qed.

Lemma testbit_255 k : 0 ≤ k < 8 → Z.testbit 255 k = true.
Proof. intros. change 255 with (Z.ones 8). by apply Z.ones_spec_low. Qed.

Lemma all_bits_255 b : (∀ k, 0 ≤ k < 8 → Z.testbit (bval b) k = true) → bval b = 255.
Proof.
  intros H. pose proof (bval_range b). apply Z.bits_inj'. intros k Hk.
  destruct (decide (k < 8)); [rewrite H, testbit_255 by lia; done|].
  rewrite !Z.bits_above_log2; try lia.
  - change (Z.log2 255) with 7. lia.
  - destruct (decide (bval b = 0)) as [->|]; [simpl; lia|].
    assert (Z.log2 (bval b) < 8); [|lia]. apply Z.log2_lt_pow2; lia.
Qed.

Lemma trailing_ones_spec n z : 0 ≤ trailing_ones n z ≤ Z.of_nat n ∧
  (∀ k, 0 ≤ k < trailing_ones n z → Z.testbit z k = true) ∧
  (trailing_ones n z < Z.of_nat n → Z.testbit z (trailing_ones n z) = false).
Proof.
  revert z. induction n as [|n IH]; intros z; cbn [trailing_ones]; [split_and!; intros; lia|].
  destruct (Z.odd z) eqn:Eo.
  - destruct (IH (Z.div2 z)) as (H1 & H2 & H3).
    assert (∀ k, 0 ≤ k → Z.testbit z (1 + k) = Z.testbit (Z.div2 z) k) as Hd.
    { intros k Hk. rewrite Z.div2_spec, Z.shiftr_spec by lia. f_equal. lia. }
    split_and!; [lia|lia| |].
    + intros k Hk. destruct (decide (k = 0)) as [->|]; [by rewrite Z.bit0_odd|].
      replace k with (1 + (k - 1)) by lia. rewrite Hd by lia. apply H2. lia.
    + intros Hlt. rewrite Hd by lia. apply H3. lia.
  - split_and!; [lia|lia|intros; lia|]. intros _. by rewrite Z.bit0_odd.
Qed.

(** ** The invariant *)
Definition tracks (s : FrameAllocator) (f : Z) : Prop := 0 ≤ f < 8 * zlen (bitmap s).

Record inv0 (s : FrameAllocator) : Prop := {
  m_len : 8 * zlen (bitmap s) * PAGE_SIZE < 2 ^ 64;
  m_count : free_count s = nfree (bitmap s) (8 * length (bitmap s)) 0;
  m_top : 0 ≤ memory_top s ≤ 8 * zlen (bitmap s);
  m_next0 : 0 ≤ next_byte s;
  m_next f : 0 ≤ f < 8 * next_byte s → tracks s f → used (bitmap s) f = true;
}.

Definition topped (s : FrameAllocator) : Prop :=
  ∀ f, memory_top s ≤ f → tracks s f → used (bitmap s) f = true.

Definition inv (s : FrameAllocator) : Prop := inv0 s ∧ topped s.

(** Frames [lo .. hi) now read [v], the others as before. *)
Record marked (v : bool) (lo hi : Z) (s s' : FrameAllocator) : Prop := {
  k_len : length (bitmap s') = length (bitmap s);
  k_bits f : 0 ≤ f → used (bitmap s') f = if decide (lo ≤ f < hi) then v else used (bitmap s) f;
}.

Lemma frames_eq s : inv0 s → frames s = 8 * zlen (bitmap s).
Proof.
  intros I. pose proof (m_len _ I) as Hl. unfold PAGE_SIZE in Hl. pose proof (zlen_nonneg (bitmap s)).
  unfold frames. rewrite wrap_small by (unfold fits; lia). lia.
Qed.

Lemma tracks_marked v lo hi s s' f : marked v lo hi s s' → tracks s' f ↔ tracks s f.
Proof. intros K. unfold tracks, zlen. by rewrite (k_len _ _ _ _ _ K). Qed.

Lemma marked_nil v lo s : marked v lo lo s s.
Proof. split; [done|]. intros. by rewrite decide_False by lia. Qed.

Lemma marked_app v lo mid hi s s1 s2 : lo ≤ mid ≤ hi → marked v lo mid s s1 → marked v mid hi s1 s2 →
  marked v lo hi s s2.
Proof.
  intros H [L1 B1] [L2 B2]. split; [congruence|]. intros f Hf. rewrite B2, B1 by done.
  repeat case_decide; try done; lia.
Qed.

(** One bit. *)
Lemma count_flip d d' x v : covered d x → length d' = length d → used d x = negb v →
  (∀ f, 0 ≤ f → used d' f = if decide (f = x) then v else used d f) →
  nfree d' (8 * length d') 0 = nfree d (8 * length d) 0 + (if v then -1 else 1).
Proof.
  intros [H0 H1] Hl Hu Hb. rewrite Hl. unfold zlen in H1. apply (nfree_flip d d' _ 0 x v); [lia|done|].
  intros. by apply Hb.
Qed.

Lemma marked_one v x s s' : length (bitmap s') = length (bitmap s) →
  (∀ f, 0 ≤ f → used (bitmap s') f = if decide (f = x) then v else used (bitmap s) f) →
  marked v x (x + 1) s s'.
Proof.
  intros Hl Hb. split; [done|]. intros f Hf. rewrite Hb by done.
  destruct (decide (f = x)), (decide (x ≤ f < x + 1)); done || lia.
Qed.

Lemma frame_free_spec s x : inv0 s → tracks s x →
  ∃ s', set_free x s = Some s' ∧ inv0 s' ∧ marked false x (x + 1) s s' ∧ memory_top s' = memory_top s.
Proof.
  intros I Ht. unfold set_free. rewrite (frames_eq s I). destruct Ht as [H0 H1].
  rewrite (proj2 (Z.leb_gt _ _)) by lia. rewrite is_free_used by done. cbn [mbind option_bind].
  destruct (used (bitmap s) x) eqn:Eu; cbn [negb].
  - destruct (set_free_spec (bitmap s) x) as (y & -> & Hb); [done|]. cbn [mbind option_bind].
    set (d := <[Z.to_nat (x / 8) := y]> (bitmap s)) in *.
    assert (length d = length (bitmap s)) as Hl by (unfold d; by rewrite length_insert).
    assert (free_count s + 1 = nfree d (8 * length d) 0) as Hc.
    { rewrite (count_flip (bitmap s) d x false) by done. rewrite (m_count _ I). cbv iota. lia. }
    pose proof (nfree_range d (8 * length d) 0) as Hr. pose proof (m_len _ I) as Hlen. unfold PAGE_SIZE, zlen in Hlen.
    eexists. split; [done|]. split_and!; [|by apply marked_one|done].
    assert (0 ≤ x / 8) by (by apply Z.div_pos).
    pose proof I as [I1 I2 I3 I4 I5]. split; simpl; unfold zlen, tracks in *; rewrite ?Hl; try done.
    + rewrite wrap_small by (unfold fits; lia). by rewrite Hc, Hl.
    + lia.
    + intros f Hf Hft. rewrite Hb by lia. case_decide as E; [|apply I5; [lia|]; unfold zlen in *; simpl in Hft; by rewrite Hl in Hft].
      subst. pose proof (Z.div_mod x 8). pose proof (Z.mod_pos_bound x 8). lia.
  - exists s. split; [done|]. split_and!; [done| |done]. split; [done|]. intros f Hf. case_decide; [|done].
    assert (f = x) as -> by lia. done.
Qed.

(** Taking a free frame, with the cursor at a byte below which all is used. *)
Lemma take_bit s x nb : inv0 s → tracks s x → used (bitmap s) x = false → 0 ≤ nb →
  (∀ f, 0 ≤ f < 8 * nb → tracks s f → used (bitmap s) f = true) →
  ∃ d, Bitmap.set_used (bitmap s) x = Some d ∧ 0 < free_count s ∧
    u64 (free_count s - 1) = free_count s - 1 ∧
    let s' := mk d (free_count s - 1) (memory_top s) nb in inv0 s' ∧ marked true x (x + 1) s s'.
Proof.
  intros I [H0 H1] Eu Hn Hnb.
  destruct (set_used_spec (bitmap s) x) as (y & -> & Hb); [done|].
  set (d := <[Z.to_nat (x / 8) := y]> (bitmap s)) in *.
  assert (length d = length (bitmap s)) as Hl by (unfold d; by rewrite length_insert).
  assert (free_count s - 1 = nfree d (8 * length d) 0) as Hc.
  { rewrite (count_flip (bitmap s) d x true) by done. rewrite (m_count _ I). cbv iota. lia. }
  assert (0 < free_count s) as Hpos.
  { rewrite (m_count _ I). apply (nfree_pos _ _ _ x); [unfold zlen in H1; lia|done]. }
  pose proof (nfree_range d (8 * length d) 0) as Hr. pose proof (m_len _ I) as Hlen. unfold PAGE_SIZE, zlen in Hlen.
  exists d. split_and!; [done|done|apply wrap_small; unfold fits; lia|]. split; [|by apply marked_one].
  pose proof I as [I1 I2 I3 I4 I5]. split; simpl; unfold zlen, tracks in *; rewrite ?Hl; try done.
  - by rewrite Hc, Hl.
  - intros f Hf Hft. rewrite Hb by lia. case_decide; [done|]. apply Hnb; [done|]. unfold zlen in *. simpl in Hft. by rewrite <- Hl.
Qed.

Lemma frame_use_spec s x : inv0 s → tracks s x →
  ∃ s', set_used x s = Some s' ∧ inv0 s' ∧ marked true x (x + 1) s s' ∧ memory_top s' = memory_top s.
Proof.
  intros I Ht. unfold set_used. rewrite (frames_eq s I). pose proof Ht as [H0 H1].
  rewrite (proj2 (Z.leb_gt _ _)) by lia. rewrite is_free_used by done. cbn [mbind option_bind].
  destruct (used (bitmap s) x) eqn:Eu; cbn [negb].
  - exists s. split; [done|]. split_and!; [done| |done]. split; [done|]. intros f Hf. case_decide; [|done].
    assert (f = x) as -> by lia. done.
  - destruct (take_bit s x (next_byte s) I Ht Eu (m_next0 _ I) (m_next _ I)) as (d & -> & Hp & _ & I' & K').
    cbn [mbind option_bind]. rewrite (proj2 (Z.ltb_lt _ _)) by done. by eexists.
Qed.

(** ** Ranges of frames *)
Lemma use_frames_spec n x s : inv0 s → 0 ≤ x → x + Z.of_nat n ≤ 8 * zlen (bitmap s) →
  ∃ s', use_frames n x s = Some s' ∧ inv0 s' ∧ marked true x (x + Z.of_nat n) s s' ∧
    memory_top s' = memory_top s.
Proof.
  revert x s. induction n as [|n IH]; intros x s I H0 H1; cbn [use_frames].
  { exists s. split_and!; try done. rewrite Z.add_0_r. apply marked_nil. }
  destruct (frame_use_spec s x I) as (s1 & -> & I1 & K1 & T1); [unfold tracks; lia|]. cbn [mbind option_bind].
  destruct (IH (x + 1) s1 I1) as (s2 & -> & I2 & K2 & T2); [lia|unfold zlen; rewrite (k_len _ _ _ _ _ K1); unfold zlen in H1; lia|].
  exists s2. split_and!; [done|done| |congruence].
  replace (x + Z.of_nat (S n)) with (x + 1 + Z.of_nat n) by lia. eapply marked_app; [|done|done]. lia.
Qed.

Lemma free_run_frames n x s : inv0 s → 0 ≤ x → x + Z.of_nat n ≤ 8 * zlen (bitmap s) →
  ∃ s', free_run n x s = Some s' ∧ inv0 s' ∧ marked false x (x + Z.of_nat n) s s' ∧
    memory_top s' = memory_top s.
Proof.
  revert x s. induction n as [|n IH]; intros x s I H0 H1; cbn [free_run].
  { exists s. split_and!; try done. rewrite Z.add_0_r. apply marked_nil. }
  destruct (frame_free_spec s x I) as (s1 & -> & I1 & K1 & T1); [unfold tracks; lia|]. cbn [mbind option_bind].
  destruct (IH (x + 1) s1 I1) as (s2 & -> & I2 & K2 & T2); [lia|unfold zlen; rewrite (k_len _ _ _ _ _ K1); unfold zlen in H1; lia|].
  exists s2. split_and!; [done|done| |congruence].
  replace (x + Z.of_nat (S n)) with (x + 1 + Z.of_nat n) by lia. eapply marked_app; [|done|done]. lia.
Qed.

Lemma topped_used s s' lo hi : topped s → marked true lo hi s s' → memory_top s' = memory_top s → topped s'.
Proof.
  intros T K E f Hf Ht. rewrite (k_bits _ _ _ _ _ K) by (destruct Ht; lia). case_decide; [done|].
  apply T; [by rewrite <- E|by apply (tracks_marked _ _ _ _ _ _ K)].
Qed.

Lemma topped_free s s' lo hi : topped s → marked false lo hi s s' → memory_top s' = memory_top s →
  hi ≤ memory_top s → topped s'.
Proof.
  intros T K E Hh f Hf Ht. rewrite (k_bits _ _ _ _ _ K) by (destruct Ht; lia). rewrite decide_False by lia.
  apply T; [by rewrite <- E|by apply (tracks_marked _ _ _ _ _ _ K)].
Qed.

Lemma inv0_top s top : inv0 s → 0 ≤ top ≤ 8 * zlen (bitmap s) →
  inv0 (mk (bitmap s) (free_count s) top (next_byte s)).
Proof. intros [] ?. by split. Qed.

(** [free_frames] also raises [memory_top]. *)
Lemma free_frames_spec n x s : inv s → 0 ≤ x → x + Z.of_nat n ≤ 8 * zlen (bitmap s) →
  ∃ s', free_frames n x s = Some s' ∧ inv s' ∧ marked false x (x + Z.of_nat n) s s' ∧
    memory_top s ≤ memory_top s'.
Proof.
  revert x s. induction n as [|n IH]; intros x s [I T] H0 H1; cbn [free_frames].
  { exists s. split_and!; try done. rewrite Z.add_0_r. apply marked_nil. }
  destruct (frame_free_spec s x I) as (s1 & -> & I1 & K1 & T1); [unfold tracks; lia|]. cbn [mbind option_bind].
  set (top := if memory_top s1 <=? x then x + 1 else memory_top s1).
  assert (memory_top s1 ≤ top ∧ x + 1 ≤ top ∧ top ≤ 8 * zlen (bitmap s1)) as (Ht1 & Ht2 & Ht3).
  { pose proof (m_top _ I1). unfold top. destruct (Z.leb_spec (memory_top s1) x); [|lia].
    unfold zlen in *. rewrite (k_len _ _ _ _ _ K1). lia. }
  set (s1' := mk (bitmap s1) (free_count s1) top (next_byte s1)).
  assert (marked false x (x + 1) s s1') as K1' by (split; apply K1).
  destruct (IH (x + 1) s1') as (s2 & -> & I2 & K2 & T2).
  - split; [apply inv0_top; [done|pose proof (m_top _ I1); lia]|]. intros f Hf Ht. simpl in Hf, Ht.
    rewrite (k_bits _ _ _ _ _ K1') by (destruct Ht; lia). rewrite decide_False by lia.
    apply T; [lia|by apply (tracks_marked _ _ _ _ _ _ K1)].
  - lia.
  - simpl. unfold zlen in *. rewrite (k_len _ _ _ _ _ K1). lia.
  - exists s2. split_and!; [done|done| |simpl in T2; lia].
    replace (x + Z.of_nat (S n)) with (x + 1 + Z.of_nat n) by lia. eapply marked_app; [|done|done]. lia.
Qed.

(** ** One frame *)

(** What [allocate] gives: the lowest free frame, or nothing when there is none. *)
Definition allocated (s : FrameAllocator) (r : option Z) (s' : FrameAllocator) : Prop :=
  match r with
  | Some a => ∃ f, a = f * PAGE_SIZE ∧ 0 ≤ f < memory_top s ∧ used (bitmap s) f = false ∧
      (∀ g, 0 ≤ g < f → used (bitmap s) g = true) ∧ marked true f (f + 1) s s'
  | None => (∀ f, tracks s f → used (bitmap s) f = true) ∧ bitmap s' = bitmap s
  end.

Lemma lowest_in_byte s (i : nat) b : bitmap s !! i = Some b → bval b ≠ 255 →
  let f := Z.of_nat i * 8 + trailing_ones 8 (bval b) in
  Z.of_nat i * 8 ≤ f < Z.of_nat i * 8 + 8 ∧ used (bitmap s) f = false ∧
  ∀ g, Z.of_nat i * 8 ≤ g < f → used (bitmap s) g = true.
Proof.
  intros Hb Hne f. destruct (trailing_ones_spec 8 (bval b)) as (H1 & H2 & H3).
  assert (trailing_ones 8 (bval b) < 8) as Hlt.
  { destruct (decide (trailing_ones 8 (bval b) = 8)) as [E|]; [|lia]. exfalso. apply Hne, all_bits_255.
    intros k Hk. apply H2. lia. }
  unfold f. split_and!; [lia|lia| |].
  - rewrite (used_byte _ _ _ b) by (done || lia). by apply H3.
  - intros g Hg. replace g with (Z.of_nat i * 8 + (g - Z.of_nat i * 8)) by lia.
    rewrite (used_byte _ _ _ b) by (done || lia). apply H2. lia.
Qed.

Lemma allocate_loop_spec n i top s : inv s → 0 ≤ i → n = Z.to_nat (top - i) → 0 ≤ top ≤ zlen (bitmap s) →
  memory_top s ≤ 8 * top → (∀ f, 0 ≤ f < 8 * i → tracks s f → used (bitmap s) f = true) →
  ∃ r s', allocate_loop n i top s = Some (r, s') ∧ inv s' ∧ memory_top s' = memory_top s ∧ allocated s r s'.
Proof.
  revert i. induction n as [|n IH]; intros i [I T] Hi En Htop Hmt Hbelow; cbn [allocate_loop].
  - eexists None, _. split; [done|]. split_and!; [|done|split; [|done]].
    + split; [|done]. pose proof I as [I1 I2 I3 I4 I5]. split; try done; simpl; [lia|].
      intros f Hf. apply Hbelow. lia.
    + intros f Ht. destruct (decide (f < 8 * i)); [apply Hbelow; [destruct Ht|]; done || lia|].
      apply T; [|done]. lia.
  - destruct (at_Some (bitmap s) i) as [b Hb]; [lia|]. rewrite Hb. cbn [mbind option_bind].
    unfold at_ in Hb. rewrite (proj2 (Z.leb_le 0 i)) in Hb by done.
    destruct (Z.eqb_spec (bval b) 255) as [E|E].
    + apply IH; [done|lia|lia|lia|lia|]. intros f Hf Ht. destruct (decide (f < 8 * i)); [apply Hbelow; [lia|done]|].
      replace f with (Z.of_nat (Z.to_nat i) * 8 + (f - 8 * i)) by lia.
      rewrite (used_byte _ _ _ b) by (done || lia). rewrite E. apply testbit_255. lia.
    + destruct (lowest_in_byte s (Z.to_nat i) b Hb E) as (Hr & Hu & Hg). rewrite !Z2Nat.id in * by done.
      set (f := i * 8 + trailing_ones 8 (bval b)) in *.
      assert (tracks s f) as Hf by (unfold tracks; lia).
      destruct (Z.leb_spec (memory_top s) f) as [Hle|Hlt]; [rewrite (T f Hle Hf) in Hu; done|].
      destruct (take_bit s f i I Hf Hu Hi Hbelow) as (d & -> & _ & -> & I' & K'). cbn [mbind option_bind].
      assert (u64 (f * PAGE_SIZE) = f * PAGE_SIZE) as ->.
      { apply wrap_small. pose proof (m_len _ I). destruct Hf. unfold fits, PAGE_SIZE in *. lia. }
      eexists _, _. split; [done|]. split_and!; [|done|].
      * split; [done|]. by eapply topped_used.
      * exists f. split_and!; [done|unfold tracks in Hf; lia|done|done| |done].
        intros g Hgf. destruct (decide (g < i * 8)); [apply Hbelow; [lia|unfold tracks in *; lia]|apply Hg; lia].
Qed.

Lemma allocate_spec s : inv s →
  ∃ r s', allocate s = Some (r, s') ∧ inv s' ∧ memory_top s' = memory_top s ∧ allocated s r s'.
Proof.
  intros I. pose proof I as [I0 _]. pose proof (m_top _ I0). pose proof (m_next0 _ I0).
  assert (memory_top s ≤ (memory_top s + 7) / 8 * 8 ∧ 0 ≤ (memory_top s + 7) / 8).
  { pose proof (Z.div_mod (memory_top s + 7) 8). pose proof (Z.mod_pos_bound (memory_top s + 7) 8).
    split; [lia|]. apply Z.div_pos; lia. }
  unfold allocate. apply allocate_loop_spec; try done; try lia. apply I0.
Qed.

(** ** Runs *)
Lemma first_used_spec d n x : 0 ≤ x → x + Z.of_nat n ≤ 8 * zlen d →
  ∃ u, first_used d n x = Some u ∧
    match u with
    | None => run_free d x (Z.of_nat n)
    | Some y => x ≤ y < x + Z.of_nat n ∧ used d y = true
    end.
Proof.
  revert x. induction n as [|n IH]; intros x H0 H1; cbn [first_used].
  { exists None. split; [done|]. intros f Hf. lia. }
  rewrite is_free_used by (unfold covered; lia). cbn [mbind option_bind].
  destruct (used d x) eqn:E; cbn [negb].
  - exists (Some x). split; [done|]. split; [lia|done].
  - destruct (IH (x + 1)) as (u & -> & Hu); [lia|lia|]. exists u. split; [done|].
    destruct u as [y|]; [split; [lia|apply Hu]|]. intros f Hf.
    destruct (decide (f = x)) as [->|]; [done|]. apply Hu. lia.
Qed.

(** The highest free run of [count] frames that starts at a candidate and ends
    below [top], or nothing when there is none. *)
Definition run_result (cand : Z → Prop) (top count : Z) (s : FrameAllocator) (r : option Z)
  (s' : FrameAllocator) : Prop :=
  match r with
  | Some a => ∃ x, a = x * PAGE_SIZE ∧ cand x ∧ 0 ≤ x ∧ x + count ≤ top ∧
      run_free (bitmap s) x count ∧
      (∀ y, cand y → x < y → y + count ≤ top → ¬ run_free (bitmap s) y count) ∧
      marked true x (x + count) s s'
  | None => s' = s ∧ ∀ y, cand y → 0 ≤ y → y + count ≤ top → ¬ run_free (bitmap s) y count
  end.

Lemma take_frames_spec (cand : Z → Prop) top count x s : inv s → 0 < count → cand x → 0 ≤ x → x + count ≤ top →
  top ≤ memory_top s → run_free (bitmap s) x count →
  (∀ y, cand y → x < y → y + count ≤ top → ¬ run_free (bitmap s) y count) →
  ∃ r s', take_frames count x s = Some (r, s') ∧ inv s' ∧ run_result cand top count s r s'.
Proof.
  intros [I T] Hc Hx H0 H1 Ht Hf Hno. pose proof (m_top _ I). unfold take_frames.
  destruct (use_frames_spec (Z.to_nat count) x s I) as (s' & -> & I' & K' & T'); [lia|lia|]. cbn [mbind option_bind].
  rewrite Z2Nat.id in K' by lia. eexists _, _. split; [done|]. split; [split; [done|by eapply topped_used]|].
  exists x. split_and!; try done. apply wrap_small. pose proof (m_len _ I). unfold fits, PAGE_SIZE in *. lia.
Qed.

Lemma run_blocked d x y u count : used d u = true → x ≤ u < x + count → u - count < y ≤ x → ¬ run_free d y count.
Proof. intros Hu Hx Hy Hr. rewrite Hr in Hu; [done|lia]. Qed.

Lemma below_loop_spec fuel top count x s : inv s → 0 < count → 0 ≤ x → x + count ≤ top →
  top ≤ memory_top s → (∀ y, x < y → y + count ≤ top → ¬ run_free (bitmap s) y count) → x < Z.of_nat fuel →
  ∃ r s', below_loop fuel count x s = Some (r, s') ∧ inv s' ∧ run_result (λ _, True) top count s r s'.
Proof.
  revert x. induction fuel as [|fuel IH]; intros x I Hc H0 H1 Ht Hno Hf; [lia|]. cbn [below_loop].
  pose proof (m_top _ (proj1 I)).
  destruct (first_used_spec (bitmap s) (Z.to_nat count) x) as (u & -> & Hu); [lia|lia|]. cbn [mbind option_bind].
  rewrite Z2Nat.id in Hu by lia. destruct u as [u|].
  - destruct Hu as [Hr Hu]. destruct (Z.eqb_spec x 0) as [->|Hx].
    + eexists None, s. split; [done|]. split; [done|]. split; [done|]. intros y _ Hy0 Hy.
      destruct (decide (y = 0)) as [->|]; [by eapply run_blocked; [exact Hu|exact Hr|lia]|]. apply Hno; lia.
    + set (skip := if count <? u then u - count else 0).
      assert (0 ≤ skip < x ∧ (∀ y, skip < y ≤ x → u - count < y ≤ x)) as [Hs Hsy].
      { unfold skip. split; [|intros y]; destruct (Z.ltb_spec count u); lia. }
      rewrite (proj2 (Z.leb_gt x skip)) by lia.
      apply IH; try done; try lia. intros y Hy Hyt. destruct (decide (y ≤ x)); [|apply Hno; lia].
      by eapply run_blocked; [exact Hu|exact Hr|apply Hsy; lia].
  - apply take_frames_spec; try done. intros y _. apply Hno.
Qed.

Lemma contiguous_below_spec count limit s : inv s → 0 ≤ count → 0 ≤ limit →
  let top := if 0 <? limit then Z.min (limit / PAGE_SIZE) (memory_top s) else memory_top s in
  ∃ r s', contiguous_below count limit s = Some (r, s') ∧ inv s' ∧
    (if count =? 0 then r = None ∧ s' = s else run_result (λ _, True) top count s r s').
Proof.
  intros I Hc Hl top. unfold contiguous_below. fold top. destruct (Z.eqb_spec count 0).
  { by eexists None, s. }
  assert (top ≤ memory_top s) by (unfold top; case_match; lia).
  destruct (Z.ltb_spec top count).
  - eexists None, s. split; [done|]. split; [done|]. split; [done|]. intros. lia.
  - apply below_loop_spec; try done; try lia.
Qed.

(** ** Aligned runs *)
Lemma is_power_of_two_spec z : is_power_of_two z = true → ∃ k, 0 ≤ k ∧ z = 2 ^ k.
Proof.
  unfold is_power_of_two. intros [Hp%Z.ltb_lt Hl%Z.eqb_eq]%andb_true_iff.
  exists (Z.log2 z). pose proof (Z.log2_spec z Hp) as [H1 H2]. pose proof (Z.log2_nonneg z). split; [done|].
  destruct (decide (z = 2 ^ Z.log2 z)) as [|Hne]; [done|]. exfalso.
  assert (Z.log2 (z - 1) = Z.log2 z) as E by (apply Z.log2_unique; lia).
  assert (Z.testbit (Z.land z (z - 1)) (Z.log2 z) = true) as Hb.
  { rewrite Z.land_spec, Z.bit_log2 by done. rewrite <- E at 1. rewrite Z.bit_log2 by lia. done. }
  rewrite Hl, Z.bits_0 in Hb. done.
Qed.

Lemma align_down_spec x k : 0 ≤ k < 64 → fits 64 x → align_down x (2 ^ k) = x / 2 ^ k * 2 ^ k.
Proof.
  intros Hk [Hx0 Hx]. unfold align_down, wrap. rewrite <- Z.land_ones by lia.
  rewrite Z.land_assoc, <- (Z.land_assoc x), (Z.land_comm _ (Z.ones 64)), Z.land_assoc.
  rewrite (Z.land_ones x 64), (Z.mod_small x) by lia.
  replace (2 ^ k - 1) with (Z.ones k) by (rewrite Z.ones_equiv; lia).
  rewrite <- Z.ldiff_land, Z.ldiff_ones_r by lia. rewrite Z.shiftl_mul_pow2, Z.shiftr_div_pow2 by lia. done.
Qed.

Definition aligned (align y : Z) : Prop := (align | y).

Lemma aligned_between align x y : 0 < align → aligned align x → aligned align y → x - align < y ≤ x → y = x.
Proof.
  intros Ha [p ->] [q ->] H. assert (p = q) as ->; [|done].
  destruct (Z.lt_trichotomy q p) as [?|[?|?]]; [nia|done|nia].
Qed.

(** One step of either aligned search: the window at [x] is not free. *)
Lemma aligned_step (d : list byte) top count align x :
  0 < align → aligned align x → 0 ≤ x → ¬ run_free d x count →
  (∀ y, aligned align y → x < y → y + count ≤ top → ¬ run_free d y count) →
  (x < align → ∀ y, aligned align y → 0 ≤ y → y + count ≤ top → ¬ run_free d y count) ∧
  (∀ y, aligned align y → x - align < y → y + count ≤ top → ¬ run_free d y count) ∧
  aligned align (x - align).
Proof.
  intros Ha Hx H0 Hnf Hno. split_and!.
  - intros Hlt y Hy Hy0 Hyt. destruct (decide (x < y)); [by apply Hno|].
    by rewrite (aligned_between align x y) by (done || lia).
  - intros y Hy Hyx Hyt. destruct (decide (x < y)); [by apply Hno|].
    by rewrite (aligned_between align x y) by (done || lia).
  - apply Z.divide_sub_r; [done|apply Z.divide_refl].
Qed.

Lemma aligned_loop_spec fuel top count align x s : inv s → 0 < count → 0 < align → aligned align x →
  0 ≤ x → x + count ≤ top → top ≤ memory_top s →
  (∀ y, aligned align y → x < y → y + count ≤ top → ¬ run_free (bitmap s) y count) → x < Z.of_nat fuel →
  ∃ r s', aligned_loop fuel count align x s = Some (r, s') ∧ inv s' ∧ run_result (aligned align) top count s r s'.
Proof.
  revert x. induction fuel as [|fuel IH]; intros x I Hc Ha Hx H0 H1 Ht Hno Hf; [lia|]. cbn [aligned_loop].
  pose proof (m_top _ (proj1 I)).
  destruct (first_used_spec (bitmap s) (Z.to_nat count) x) as (u & -> & Hu); [lia|lia|]. cbn [mbind option_bind].
  rewrite Z2Nat.id in Hu by lia. destruct u as [u|]; [|by apply take_frames_spec].
  assert (¬ run_free (bitmap s) x count) as Hnf by (intros Hr; rewrite Hr in Hu; naive_solver).
  destruct (aligned_step _ top count align x Ha Hx H0 Hnf Hno) as (A1 & A2 & A3).
  destruct (Z.ltb_spec x align).
  - eexists None, s. split; [done|]. split; [done|]. split; [done|]. by apply A1.
  - apply IH; try done; lia.
Qed.

(** Whole bytes of the bitmap. *)
Lemma bytes_free d x count : 0 ≤ x → 0 < count → x `mod` 8 = 0 → count `mod` 8 = 0 → x + count ≤ 8 * zlen d →
  ∃ bs, sub d (x / 8) ((x + count) / 8 - x / 8) = Some bs ∧
    (forallb (λ b, bval b =? 0) bs = true ↔ run_free d x count).
Proof.
  intros H0 Hc Hx Hm Hl.
  assert (x = 8 * (x / 8) ∧ x + count = 8 * ((x + count) / 8)) as [Ex Ec].
  { pose proof (Z.div_mod x 8). split; [lia|]. pose proof (Z.div_mod (x + count) 8).
    rewrite Z.add_mod, Hx, Hm in * by lia. change ((0 + 0) `mod` 8) with 0 in *. lia. }
  set (a := x / 8) in *. set (b := (x + count) / 8) in *.
  eexists. split; [apply sub_Some; lia|]. rewrite forallb_forall. setoid_rewrite Z.eqb_eq.
  assert (∀ (j : nat) v, raw_sub d a (b - a) !! j = Some v → (Z.of_nat j < b - a)%Z ∧ d !! (Z.to_nat a + j)%nat = Some v) as Hs.
  { intros j v Hj. unfold raw_sub in Hj. apply lookup_take_Some in Hj as [Hj ?]. rewrite lookup_drop in Hj. split; [lia|done]. }
  split.
  - intros H f Hf. destruct (byte_split f) as (i & k & -> & Hk); [lia|].
    destruct (lookup_lt_is_Some_2 d i) as [v Hv]; [unfold zlen in Hl; lia|].
    rewrite (used_byte _ _ _ v) by done. rewrite (H v); [apply Z.bits_0|].
    apply list_elem_of_In, (list_elem_of_lookup_2 _ (i - Z.to_nat a)). unfold raw_sub.
    rewrite lookup_take_lt by lia. rewrite lookup_drop. replace (Z.to_nat a + (i - Z.to_nat a))%nat with i by lia. done.
  - intros H v Hv%list_elem_of_In. apply list_elem_of_lookup_1 in Hv as [j Hj]. destruct (Hs j v Hj) as [Hjl Hjv].
    pose proof (bval_range v). apply Z.bits_inj'. intros k Hk. rewrite Z.bits_0.
    destruct (decide (k < 8)).
    + rewrite <- (used_byte _ _ k _ Hjv) by lia. apply H. lia.
    + destruct (decide (bval v = 0)) as [->|]; [apply Z.bits_0|]. apply Z.bits_above_log2; [lia|].
      assert (Z.log2 (bval v) < 8); [|lia]. apply Z.log2_lt_pow2; lia.
Qed.

Lemma bytes_loop_spec fuel top count align x s : inv s → 0 < count → 0 < align → aligned align x →
  0 ≤ x → x + count ≤ top → top ≤ memory_top s → count `mod` 8 = 0 → (8 | align) →
  (∀ y, aligned align y → x < y → y + count ≤ top → ¬ run_free (bitmap s) y count) → x < Z.of_nat fuel →
  ∃ r s', bytes_loop fuel count align x s = Some (r, s') ∧ inv s' ∧ run_result (aligned align) top count s r s'.
Proof.
  revert x. induction fuel as [|fuel IH]; intros x I Hc Ha Hx H0 H1 Ht Hm H8 Hno Hf; [lia|]. cbn [bytes_loop].
  pose proof (m_top _ (proj1 I)).
  assert (x `mod` 8 = 0) as Hx8 by (apply Z.mod_divide; [lia|]; by eapply Z.divide_trans).
  destruct (bytes_free (bitmap s) x count) as (bs & -> & Hb); try done; [lia|]. cbn [mbind option_bind].
  destruct (forallb _ bs) eqn:E; [apply take_frames_spec; try done; by apply Hb|].
  assert (¬ run_free (bitmap s) x count) as Hnf by (intros Hr%Hb; congruence).
  destruct (aligned_step _ top count align x Ha Hx H0 Hnf Hno) as (A1 & A2 & A3).
  destruct (Z.ltb_spec x align).
  - eexists None, s. split; [done|]. split; [done|]. split; [done|]. by apply A1.
  - apply IH; try done; lia.
Qed.

(** Where the aligned searches begin: the highest candidate. *)
Lemma align_start top count align : is_power_of_two align = true → align < 2 ^ 64 → 0 < count ≤ top → top < 2 ^ 64 →
  let x := align_down (top - count) align in
  0 < align ∧ aligned align x ∧ 0 ≤ x ∧ x + count ≤ top ∧ ∀ y, aligned align y → x < y → ¬ y + count ≤ top.
Proof.
  intros Hp Hlt Hc Ht x. destruct (is_power_of_two_spec align Hp) as (k & Hk & ->).
  assert (0 < 2 ^ k) by (by apply Z.pow_pos_nonneg).
  assert (k < 64) by (by apply (Z.pow_lt_mono_r_iff 2)).
  unfold x. rewrite align_down_spec by (unfold fits; lia).
  pose proof (Z.div_mod (top - count) (2 ^ k)). pose proof (Z.mod_pos_bound (top - count) (2 ^ k)).
  assert (0 ≤ (top - count) / 2 ^ k) by (apply Z.div_pos; lia).
  split_and!; [done|by eexists|nia|nia|]. intros y [q ->] Hy Hyt.
  assert (q ≤ (top - count) / 2 ^ k) by (apply Z.div_le_lower_bound; lia). nia.
Qed.

(** ** Regions of the firmware's map *)

(** The whole frame lies in the region; some byte of it does. *)
Definition covers (base len f : Z) : Prop := base ≤ f * PAGE_SIZE ∧ (f + 1) * PAGE_SIZE ≤ base + len.
Definition touches (base len f : Z) : Prop := f * PAGE_SIZE < base + len ∧ base < (f + 1) * PAGE_SIZE.

Lemma mark_region_free_spec base len s : inv s → 0 ≤ base → 0 ≤ len → base + len + PAGE_SIZE ≤ 2 ^ 64 →
  ∃ s', mark_region_free base len s = Some s' ∧ inv s' ∧ length (bitmap s') = length (bitmap s) ∧
    ∀ f, tracks s f → (used (bitmap s') f = false ↔ used (bitmap s) f = false ∨ covers base len f).
Proof.
  intros I H0 H1 H2. unfold mark_region_free, covers, PAGE_SIZE in *.
  destruct (Z.eqb_spec len 0) as [->|Hl].
  { exists s. split_and!; try done. intros f _. split; [by left|]. intros [?|?]; [done|lia]. }
  rewrite !wrap_small by (unfold fits; lia). rewrite (frames_eq s (proj1 I)).
  set (x := (base + 4096 - 1) / 4096). set (y := Z.min ((base + len) / 4096) (8 * zlen (bitmap s))).
  assert (0 ≤ x) by (apply Z.div_pos; lia).
  pose proof (Z.div_mod (base + 4096 - 1) 4096). pose proof (Z.mod_pos_bound (base + 4096 - 1) 4096).
  pose proof (Z.div_mod (base + len) 4096). pose proof (Z.mod_pos_bound (base + len) 4096).
  destruct (decide (x ≤ y)) as [Hxy|Hxy].
  - destruct (free_frames_spec (Z.to_nat (y - x)) x s I) as (s' & -> & I' & K & _); [done|lia|].
    exists s'. split_and!; [done|done|apply K|]. intros f Ht. rewrite (k_bits _ _ _ _ _ K) by (destruct Ht; lia).
    destruct Ht. unfold x, y in *. case_decide as Hd; [split; [intros _; right; lia|done]|].
    split; [by left|]. intros [?|?]; [done|]. lia.
  - rewrite Z2Nat.nonpos by lia. exists s. split_and!; try done. intros f [? ?]. split; [by left|].
    intros [?|?]; [done|]. unfold x, y in *. lia.
Qed.

Lemma mark_region_used_spec base len s : inv s → 0 ≤ base → 0 ≤ len → base + len + PAGE_SIZE ≤ 2 ^ 64 →
  ∃ s', mark_region_used base len s = Some s' ∧ inv s' ∧ length (bitmap s') = length (bitmap s) ∧
    ∀ f, tracks s f → (used (bitmap s') f = false ↔ used (bitmap s) f = false ∧ (len = 0 ∨ ¬ touches base len f)).
Proof.
  intros I H0 H1 H2. unfold mark_region_used, touches, PAGE_SIZE in *.
  destruct (Z.eqb_spec len 0) as [->|Hl].
  { exists s. split_and!; try done. intros f _. tauto. }
  rewrite !wrap_small by (rewrite ?wrap_small; unfold fits; lia). rewrite (frames_eq s (proj1 I)).
  set (x := base / 4096). set (y := Z.min ((base + len + 4096 - 1) / 4096) (8 * zlen (bitmap s))).
  assert (0 ≤ x) by (apply Z.div_pos; lia).
  pose proof (Z.div_mod base 4096). pose proof (Z.mod_pos_bound base 4096).
  pose proof (Z.div_mod (base + len + 4096 - 1) 4096). pose proof (Z.mod_pos_bound (base + len + 4096 - 1) 4096).
  destruct (decide (x ≤ y)) as [Hxy|Hxy].
  - destruct (use_frames_spec (Z.to_nat (y - x)) x s (proj1 I)) as (s' & -> & I' & K & T'); [done|lia|].
    exists s'. split_and!; [done|split; [done|by eapply topped_used; [apply I|..]]|apply K|].
    intros f Ht. rewrite (k_bits _ _ _ _ _ K) by (destruct Ht; lia).
    destruct Ht. unfold x, y in *. case_decide as Hd; [split; [done|]; intros [_ [?|Hn]]; [lia|]; exfalso; apply Hn; lia|].
    split; [intros Hu|by intros [? _]]. split; [done|]. right. lia.
  - rewrite Z2Nat.nonpos by lia. exists s. split_and!; try done. intros f [? ?]. split; [|by intros [? _]].
    intros Hu. split; [done|]. right. unfold x, y in *. lia.
Qed.

Definition region_ok (r : MemoryRegion) : Prop :=
  0 ≤ physical_start r ∧ 0 ≤ page_count r ∧ physical_start r + page_count r * PAGE_SIZE ≤ 2 ^ 62.

Lemma mark_usable_spec rs s : inv s → Forall region_ok rs →
  ∃ s', mark_usable rs s = Some s' ∧ inv s' ∧ length (bitmap s') = length (bitmap s) ∧
    ∀ f, tracks s f → (used (bitmap s') f = false ↔ used (bitmap s) f = false ∨
      ∃ r, r ∈ rs ∧ covers (physical_start r) (page_count r * PAGE_SIZE) f).
Proof.
  intros I Hrs. revert s I. induction Hrs as [|r rs (R1 & R2 & R3) _ IH]; intros s I; cbn [mark_usable].
  { exists s. split_and!; try done. set_solver. }
  unfold PAGE_SIZE in *. rewrite (wrap_small 64) by (unfold fits; lia).
  destruct (mark_region_free_spec (physical_start r) (page_count r * 4096) s I) as (s1 & E1 & I1 & L1 & B1);
    [done|lia|unfold PAGE_SIZE; lia|].
  assert ((if page_count r * 4096 =? 0 then Some s else mark_region_free (physical_start r) (page_count r * 4096) s) = Some s1) as ->.
  { rewrite <- E1. unfold mark_region_free. by destruct (page_count r * 4096 =? 0). }
  cbn [mbind option_bind]. destruct (IH s1 I1) as (s2 & -> & I2 & L2 & B2).
  exists s2. split_and!; [done|done|congruence|]. intros f Ht.
  rewrite B2 by (unfold tracks, zlen in *; by rewrite L1). rewrite B1 by done.
  setoid_rewrite elem_of_cons. unfold PAGE_SIZE in *. naive_solver.
Qed.

(** ** Boot *)
Lemma nfree_none d n b : (∀ x, b ≤ x < b + Z.of_nat n → used d x = true) → nfree d n b = 0.
Proof.
  revert b. induction n as [|n IH]; intros b H; [done|]. cbn [nfree]. rewrite H by lia.
  rewrite IH; [done|]. intros. apply H. lia.
Qed.

Lemma used_ff n f : 0 ≤ f < 8 * Z.of_nat n → used (replicate n xff) f = true.
Proof.
  intros Hf. destruct (byte_split f) as (i & k & -> & Hk); [lia|].
  rewrite (used_byte _ _ _ xff); [|apply lookup_replicate; split; [done|lia]|done]. by apply testbit_255.
Qed.

Lemma mark_all_used_inv s : 8 * zlen (bitmap s) * PAGE_SIZE < 2 ^ 64 →
  0 ≤ memory_top s ≤ 8 * zlen (bitmap s) → 0 ≤ next_byte s →
  inv (mark_all_used s) ∧ ∀ f, tracks s f → used (bitmap (mark_all_used s)) f = true.
Proof.
  intros Hl Ht Hn. assert (∀ f, tracks s f → used (bitmap (mark_all_used s)) f = true) as Hu.
  { intros f Hf. apply used_ff. exact Hf. }
  unfold mark_all_used, tracks, zlen in *. simpl in *. split; [|done].
  split; [split|]; unfold topped, tracks, zlen; simpl; rewrite ?length_replicate; try done; try lia.
  - symmetry. apply nfree_none. intros x Hx. apply Hu. lia.
  - intros f _. apply Hu.
  - intros f _. apply Hu.
Qed.

Lemma bitmap_need_bound identity_max rs : 0 ≤ identity_max ≤ 2 ^ 62 →
  0 ≤ bitmap_need identity_max rs ∧ 8 * bitmap_need identity_max rs * PAGE_SIZE < 2 ^ 63.
Proof.
  intros H. unfold bitmap_need, div_ceil, PAGE_SIZE.
  set (t := Z.min _ _). assert (0 ≤ t ≤ 2 ^ 50) as Ht.
  { unfold t. assert (∀ l : list Z, 0 ≤ fold_right Z.max 0 l) as Hm by (induction l; simpl; lia).
    specialize (Hm (List.map (λ r, u64 (physical_start r + page_count r * 4096) / 4096) (usable_regions rs))).
    assert (0 ≤ identity_max / 4096 ≤ 2 ^ 50); [|lia].
    split; [apply Z.div_pos; lia|]. apply (Z.div_le_upper_bound _ 4096); lia. }
  pose proof (Z.div_mod (t + 8 - 1) 8). pose proof (Z.mod_pos_bound (t + 8 - 1) 8).
  assert (0 ≤ (t + 8 - 1) / 8) by (apply Z.div_pos; lia). lia.
Qed.

Lemma next_multiple_bound x : 0 ≤ x ≤ 2 ^ 63 → x ≤ next_multiple_of x PAGE_SIZE < x + PAGE_SIZE.
Proof.
  intros H. unfold next_multiple_of, div_ceil, PAGE_SIZE.
  pose proof (Z.div_mod (x + 4096 - 1) 4096). pose proof (Z.mod_pos_bound (x + 4096 - 1) 4096).
  rewrite wrap_small by (unfold fits; lia). lia.
Qed.

(** The RAM set aside lies in a conventional region, above 1 MiB. *)
Lemma carve_spec identity_max rs s base bytes : 0 ≤ identity_max ≤ 2 ^ 62 → Forall region_ok rs →
  carve identity_max rs s = Some (base, bytes) →
  0 ≤ base ∧ 0 ≤ bytes ∧ bitmap_need identity_max rs ≤ bytes ∧ base + bytes + PAGE_SIZE ≤ 2 ^ 64 ∧
  ∃ r, r ∈ rs ∧ uefi_type r = UEFI_CONVENTIONAL_MEMORY ∧ physical_start r ≤ base ∧ 1048576 ≤ base ∧
    base + bytes ≤ physical_start r + page_count r * PAGE_SIZE.
Proof.
  intros Hi Hrs. unfold carve. destruct (bitmap_need_bound identity_max rs Hi) as [Hn0 Hn].
  destruct (_ <? _); [|done]. unfold bitmap_home.
  destruct (List.find _ _) as [[b e]|] eqn:Ef; [|done]. simpl. intros [= <- <-].
  apply find_some in Ef as [Hin Hc]. apply in_map_iff in Hin as (r & [= <- <-] & Hr).
  apply filter_In in Hr as [Hr Ht%Z.eqb_eq]. simpl in Hc.
  apply list_elem_of_In in Hr. rewrite Forall_forall in Hrs. destruct (Hrs r Hr) as (R1 & R2 & R3).
  pose proof (next_multiple_bound (bitmap_need identity_max rs)) as Hb. unfold PAGE_SIZE in *.
  pose proof (next_multiple_bound (physical_start r `max` 1048576)) as Hm. unfold PAGE_SIZE in *.
  apply andb_true_iff in Hc as [Hc1%Z.leb_le Hc2%Z.leb_le].
  rewrite wrap_small in Hc1 by (unfold fits; lia). rewrite wrap_small in Hc1 by (unfold fits; lia).
  split_and!; try lia. exists r. split_and!; try done; lia.
Qed.

(** ** Claims *)

(** [allocate] hands out the lowest free frame, below the top of memory,
    and marks that frame and no other; it fails only when every frame is used.
    Giving the frame back restores the bitmap and the count.  The allocator's
    invariant holds throughout. *)
Theorem allocate_takes_lowest_free_frame s : inv s →
  ∃ r s', allocate s = Some (r, s') ∧ inv s' ∧ allocated s r s' ∧
    match r with
    | Some a => ∃ s'', deallocate a s' = Some s'' ∧ inv s'' ∧ free_count s'' = free_count s ∧
        ∀ f, 0 ≤ f → used (bitmap s'') f = used (bitmap s) f
    | None => True
    end.
Proof.
  intros I. destruct (allocate_spec s I) as (r & s1 & E & I1 & T1 & A). exists r, s1. split_and!; try done.
  destruct r as [a|]; [|done]. destruct A as (f & -> & Hf & Hu & _ & K).
  unfold deallocate, PAGE_SIZE. rewrite Z.div_mul by lia.
  assert (tracks s f) as Ht by (pose proof (m_top _ (proj1 I)); unfold tracks; lia).
  destruct (frame_free_spec s1 f (proj1 I1)) as (s2 & -> & I2 & K2 & T2); [by apply (tracks_marked _ _ _ _ _ _ K)|].
  assert (∀ g, 0 ≤ g → used (bitmap s2) g = used (bitmap s) g) as Hb.
  { intros g Hg. rewrite (k_bits _ _ _ _ _ K2), (k_bits _ _ _ _ _ K) by done.
    repeat case_decide; try lia; try done. assert (g = f) as -> by lia. done. }
  exists s2. split_and!; [done| | |done].
  - split; [done|]. eapply topped_free; [apply I1|done|done|lia].
  - rewrite (m_count _ I2), (m_count _ (proj1 I)), (k_len _ _ _ _ _ K2), (k_len _ _ _ _ _ K).
    apply nfree_ext. intros. apply Hb. lia.
Qed.

(** The contiguous search returns the highest free run of [count] frames
    below the limit, marked used as a whole, and fails only when there is no
    such run: skipping past the used frame that blocks a window misses none. *)
Theorem contiguous_below_takes_highest_run s count limit : inv s → 0 < count → 0 ≤ limit →
  let top := if 0 <? limit then Z.min (limit / PAGE_SIZE) (memory_top s) else memory_top s in
  ∃ r s', contiguous_below count limit s = Some (r, s') ∧ inv s' ∧
    run_result (λ _, True) top count s r s'.
Proof.
  intros I Hc Hl top. destruct (contiguous_below_spec count limit s I) as (r & s' & E & I' & H); [lia|done|].
  rewrite (proj2 (Z.eqb_neq _ _)) in H by lia. eauto.
Qed.

(** C25. Both aligned searches return the highest free run that starts at a
    multiple of [align], within the limit and the top of memory, and fail only
    when there is none; the byte-wise one on whole bytes of the bitmap agrees
    with the bit-wise one. *)
Theorem contiguous_aligned_takes_highest_aligned_run s count align limit :
  inv s → 0 < count → 0 ≤ limit → is_power_of_two align = true → align < 2 ^ 64 →
  (∃ r s', contiguous_aligned_below count align limit s = Some (r, s') ∧ inv s' ∧
     run_result (aligned align) (Z.min (limit / PAGE_SIZE) (memory_top s)) count s r s') ∧
  (count `mod` 8 = 0 → 8 ≤ align →
   ∃ r s', contiguous_aligned count align s = Some (r, s') ∧ inv s' ∧
     run_result (aligned align) (memory_top s) count s r s').
Proof.
  intros I Hc Hl Hp Ha. pose proof (m_top _ (proj1 I)) as Ht. pose proof (m_len _ (proj1 I)) as Hm.
  unfold PAGE_SIZE in Hm. assert (0 < align) as Hpos.
  { apply andb_true_iff in Hp as [Hp%Z.ltb_lt _]. done. }
  assert (0 ≤ limit / PAGE_SIZE) by (apply Z.div_pos; [done|unfold PAGE_SIZE; lia]). split.
  - unfold contiguous_aligned_below. rewrite Hp, !(proj2 (Z.eqb_neq _ _)) by lia. simpl orb. cbn iota.
    set (top := Z.min (limit / PAGE_SIZE) (memory_top s)). assert (top ≤ memory_top s) by lia.
    destruct (Z.ltb_spec top count).
    { eexists None, s. split; [done|]. split; [done|]. split; [done|]. intros. lia. }
    destruct (align_start top count align Hp Ha) as (_ & A1 & A2 & A3 & A4); [lia|lia|].
    apply aligned_loop_spec; try done; [intros y Hy Hlt Hle; by destruct (A4 y Hy Hlt)|lia].
  - intros Hc8 Ha8. unfold contiguous_aligned. rewrite Hp, Hc8, (proj2 (Z.eqb_neq count 0)), (proj2 (Z.ltb_ge align 8)) by lia.
    simpl orb. cbn iota. rewrite (frames_eq s (proj1 I)), Z.min_l by lia.
    destruct (Z.ltb_spec (memory_top s) count).
    { eexists None, s. split; [done|]. split; [done|]. split; [done|]. intros. lia. }
    destruct (align_start (memory_top s) count align Hp Ha) as (_ & A1 & A2 & A3 & A4); [lia|lia|].
    apply bytes_loop_spec; try done; [|intros y Hy Hlt Hle; by destruct (A4 y Hy Hlt)|lia].
    destruct (is_power_of_two_spec align Hp) as (k & Hk & ->). exists (2 ^ (k - 3)).
    assert (3 ≤ k) by (apply (Z.pow_le_mono_r_iff 2); [lia|done|done]).
    change 8 with (2 ^ 3). rewrite <- Z.pow_add_r by lia. f_equal. lia.
Qed.

(** What boot leaves free is exactly the usable RAM of the firmware's map:
    a frame the bitmap covers is free iff it lies wholly in a usable region,
    above the first MiB, and outside the RAM set aside for the bitmap.  The
    free count is the number of such frames, and no frame is handed out that
    the map does not list. *)
Theorem boot_frees_exactly_usable_ram identity_max rs s :
  0 ≤ identity_max ≤ 2 ^ 62 → Forall region_ok rs →
  8 * zlen (bitmap s) * PAGE_SIZE < 2 ^ 64 → memory_top s = 0 → 0 ≤ next_byte s →
  ∃ s' map n, init identity_max rs s = Some (s', map, n) ∧ inv s' ∧ n = free_count s' ∧
    regions map = rs ∧
    ∀ f, tracks s' f →
      (used (bitmap s') f = false ↔
       (∃ r, r ∈ usable_regions rs ∧ covers (physical_start r) (page_count r * PAGE_SIZE) f) ∧
       1048576 ≤ f * PAGE_SIZE ∧
       match carve identity_max rs s with
       | Some (base, bytes) => bytes = 0 ∨ ¬ touches base bytes f
       | None => True
       end).
Proof.
  intros Hi Hrs Hl Ht Hn. unfold init. destruct (bitmap_need_bound identity_max rs Hi) as [Hn0 Hnb].
  set (s0 := match carve identity_max rs s with Some _ => _ | None => s end).
  destruct (mark_all_used_inv s0) as [I0 B0].
  { unfold s0. destruct (carve _ _ _); [|done]. simpl. rewrite zlen_replicate. lia. }
  { unfold s0. destruct (carve _ _ _); simpl; rewrite Ht; [rewrite zlen_replicate; lia|]. pose proof (zlen_nonneg (bitmap s)). lia. }
  { unfold s0. by destruct (carve _ _ _). }
  destruct (mark_usable_spec (usable_regions rs) (mark_all_used s0) I0) as (s1 & -> & I1 & L1 & B1).
  { rewrite Forall_forall in *. intros r Hr. apply Hrs. apply list_elem_of_In in Hr.
    apply filter_In in Hr as [Hr _]. by apply list_elem_of_In. }
  cbn [mbind option_bind].
  destruct (mark_region_used_spec 0 1048576 s1 I1) as (s2 & -> & I2 & L2 & B2); [lia..|unfold PAGE_SIZE; lia|].
  cbn [mbind option_bind].
  assert (∀ f, tracks s2 f → tracks s0 f ∧ tracks s1 f) as Htr.
  { intros f. unfold tracks, zlen. rewrite L2, L1. simpl. rewrite length_replicate. done. }
  assert (∀ f, tracks s2 f → (used (bitmap s2) f = false ↔
    (∃ r, r ∈ usable_regions rs ∧ covers (physical_start r) (page_count r * PAGE_SIZE) f) ∧ 1048576 ≤ f * PAGE_SIZE)) as H2.
  { intros f Hf. destruct (Htr f Hf) as [Hf0 Hf1]. rewrite B2 by done.
    rewrite B1 by (unfold tracks, zlen in *; simpl; by rewrite length_replicate). rewrite B0 by done.
    unfold touches, PAGE_SIZE. destruct Hf. split; [intros [[?|?] ?]|intros [? ?]]; [done| |].
    - split; [done|]. lia.
    - split; [by right|]. lia. }
  destruct (carve identity_max rs s) as [[base bytes]|] eqn:Ec.
  - destruct (carve_spec _ _ _ _ _ Hi Hrs Ec) as (C1 & C2 & C3 & C4 & _).
    destruct (mark_region_used_spec base bytes s2 I2) as (s3 & -> & I3 & L3 & B3); [done..|]. cbn [mbind option_bind].
    eexists _, _, _. split_and!; try done. intros f Hf.
    assert (tracks s2 f) as Hf2 by (unfold tracks, zlen in *; by rewrite <- L3).
    rewrite B3, H2 by done. tauto.
  - eexists _, _, _. split_and!; try done. intros f Hf. rewrite H2 by done. tauto.
Qed.

(** The addresses of a region. *)
Definition holds (r : MemoryRegion) (addr : Z) : Prop :=
  physical_start r ≤ addr < physical_start r + page_count r * PAGE_SIZE.

(** [is_device_window] lets a module map no RAM and no byte of the kernel
    image: on a map whose regions do not overlap at [addr], an address in a
    region of a RAM type is refused, and while the map is not complete only
    an address in a region the firmware typed as something else passes. *)
Theorem device_windows_exclude_ram image map addr : fits 64 addr →
  Forall region_ok (regions map) →
  (∀ r1 r2, r1 ∈ regions map → r2 ∈ regions map → holds r1 addr → holds r2 addr → r1 = r2) →
  is_device_window image map addr = true →
  ¬ (image.1 ≤ addr < image.2) ∧
  (∀ r, r ∈ regions map → holds r addr → is_ram_type (uefi_type r) = false) ∧
  (complete map = false → ∃ r, r ∈ regions map ∧ holds r addr).
Proof.
  intros Ha Hr Hd. unfold is_device_window.
  destruct ((image.1 <=? addr) && (addr <? image.2)) eqn:Ei; [done|].
  assert (∀ r, r ∈ regions map → ((span r).1.1 <=? addr) && (addr <? sat_add 64 (span r).1.1 (span r).1.2) = true ↔ holds r addr) as Hs.
  { intros r Hin. rewrite Forall_forall in Hr. destruct (Hr r Hin) as (R1 & R2 & R3). unfold span, holds, sat_add, PAGE_SIZE, fits in *. simpl.
    rewrite andb_true_iff, Z.leb_le, Z.ltb_lt. lia. }
  assert (¬ (image.1 ≤ addr < image.2)) as Himg.
  { intros [H1 H2]. rewrite (proj2 (Z.leb_le _ _) H1), (proj2 (Z.ltb_lt _ _) H2) in Ei. done. }
  destruct (List.find _ _) as [[[b l] t]|] eqn:Ef.
  - apply find_some in Ef as [Hin Hc]. apply in_map_iff in Hin as (r & Hsp & Hin). apply list_elem_of_In in Hin.
    rewrite <- Hsp in Hc. apply Hs in Hc; [|done]. injection Hsp as <- <- <-. intros Ht%negb_true_iff.
    split_and!; [done| |by exists r]. intros r' Hin' Hh. by rewrite (Hd r' r).
  - intros Hc. split_and!; [done| |congruence]. intros r Hin Hh. exfalso.
    pose proof (find_none _ _ Ef (span r)) as Hn. cbv beta in Hn. rewrite (proj2 (Hs r Hin) Hh) in Hn.
    discriminate Hn. apply in_map_iff. exists r. split; [done|]. by apply list_elem_of_In.
Qed.

(** ** A small machine

    512 frames, of which the second MiB is usable but for a device window. *)
Definition ex_map : list MemoryRegion :=
  [Region 0 256 7; Region 1048576 250 7; Region 2072576 6 11].
Definition ex_boot : FrameAllocator :=
  Eval vm_compute in
    match init (2 ^ 40) ex_map (mk (replicate 64 x00) 0 0 0) with
    | Some (s, _, _) => s
    | None => mk [] 0 0 0
    end.

Lemma ex_map_ok : Forall region_ok ex_map.
Proof. repeat constructor; vm_compute; discriminate. Qed.

Lemma boot_frees_exactly_usable_ram_witness :
  ∃ s' map n, init (2 ^ 40) ex_map (mk (replicate 64 x00) 0 0 0) = Some (s', map, n) ∧ inv s' ∧ n = free_count s'.
Proof.
  destruct (boot_frees_exactly_usable_ram (2 ^ 40) ex_map (mk (replicate 64 x00) 0 0 0))
    as (s' & map & n & E & I & En & _).
  - lia.
  - exact ex_map_ok.
  - vm_compute. reflexivity.
  - reflexivity.
  - simpl. lia.
  - exists s', map, n. exact (conj E (conj I En)).
Defined.

Lemma ex_boot_inv : inv ex_boot.
Proof.
  destruct (mark_all_used_inv (mk (replicate 64 x00) 0 0 0)) as [I0 _]; [vm_compute; reflexivity|vm_compute; intuition discriminate|simpl; lia|].
  destruct (mark_usable_spec (usable_regions ex_map) _ I0) as (s1 & E1 & I1 & _).
  { repeat constructor; vm_compute; discriminate. }
  destruct (mark_region_used_spec 0 1048576 s1 I1) as (s2 & E2 & I2 & _); [lia..|unfold PAGE_SIZE; lia|].
  vm_compute in E1. injection E1 as <-. vm_compute in E2. injection E2 as <-. exact I2.
Qed.

Lemma allocate_takes_lowest_free_frame_witness :
  ∃ s', allocate ex_boot = Some (Some 1048576, s') ∧ inv s'.
Proof.
  destruct (allocate_takes_lowest_free_frame ex_boot ex_boot_inv) as (r & s' & E & I & _).
  exists s'. split; [|exact I]. assert (allocate ex_boot = Some (Some 1048576, s')) as H.
  { vm_compute in E. injection E as <- <-. vm_compute. reflexivity. }
  exact H.
Defined.

Lemma contiguous_below_takes_highest_run_witness :
  ∃ r s', contiguous_below 4 0 ex_boot = Some (r, s') ∧ r = Some 2056192.
Proof.
  destruct (contiguous_below_takes_highest_run ex_boot 4 0 ex_boot_inv) as (r & s' & E & _); [lia..|].
  exists r, s'. split; [exact E|]. vm_compute in E. injection E as <- <-. reflexivity.
Defined.

Lemma contiguous_aligned_takes_highest_aligned_run_witness :
  ∃ r s', contiguous_aligned 8 8 ex_boot = Some (r, s') ∧ r = Some 2031616.
Proof.
  destruct (contiguous_aligned_takes_highest_aligned_run ex_boot 8 8 4194304 ex_boot_inv) as [_ H];
    [lia|lia|reflexivity|lia|]. destruct H as (r & s' & E & _); [reflexivity|lia|].
  exists r, s'. split; [exact E|]. vm_compute in E. injection E as <- <-. reflexivity.
Defined.

Lemma device_windows_exclude_ram_witness :
  is_device_window (4096, 8192) (Firmware ex_map true) 2072576 = true ∧
  ¬ (4096 ≤ 2072576 < 8192).
Proof.
  assert (is_device_window (4096, 8192) (Firmware ex_map true) 2072576 = true) as E by reflexivity.
  split; [exact E|].
  apply (device_windows_exclude_ram (4096, 8192) (Firmware ex_map true) 2072576); [|exact ex_map_ok| |exact E].
  - unfold fits. lia.
  - intros r1 r2 H1 H2 Hh1 Hh2. simpl regions in H1, H2. unfold ex_map in H1, H2.
    rewrite !elem_of_cons, elem_of_nil in H1, H2. unfold holds, PAGE_SIZE in *.
    destruct H1 as [->|[->|[->|[]]]], H2 as [->|[->|[->|[]]]]; simpl in *; reflexivity || lia.
Defined.
