(* ===== verification/Heap.v ===== *)
(** * The heap's memory reserve (mm/heap.rs)

    How many frames the heap and the block cache leave to others: Linux's
    [min_free_kbytes], an integer square root of the machine's RAM.  The root is
    Newton's iteration on [u64]; it is shown to be the exact floor, and to need no
    more than 65 steps. *)

From S2P Require Import Prelude.

(** [while y < x]; running out of fuel is excluded below. *)
Fixpoint isqrt_loop (fuel : nat) (n x y : Z) : option Z :=
  match fuel with
  | O => None
  | S fuel => if y <? x then isqrt_loop fuel n y (u64 (y + n / y) / 2) else Some x
  end.

Definition isqrt (n : Z) : option Z :=
  if n <? 2 then Some n else isqrt_loop 66 n n (div_ceil n 2).

(** [x.clamp(lo, hi)] *)
Definition clamp (x lo hi : Z) : Z := if x <? lo then lo else if hi <? x then hi else x.

Definition min_free_frames (usable_bytes : Z) : option Z :=
  let kbytes := usable_bytes / 1024 in
  r ← isqrt (u64 (kbytes * 16));
  Some (clamp r 128 262144 / 4).

(** ** The square root *)

(** A guess above the root: the next one is not below it, and at least halves
    the distance. *)
Lemma newton_step n x : 0 < n → Z.sqrt n < x →
  Z.sqrt n ≤ (x + n / x) / 2 ∧ (x + n / x) / 2 - Z.sqrt n ≤ (x - Z.sqrt n) / 2.
Proof.
  intros Hn Hx. pose proof (Z.sqrt_nonneg n) as Hr. pose proof (Z.sqrt_spec n ltac:(lia)) as [H1 H2].
  set (r := Z.sqrt n) in *. pose proof (Z.div_mod n x ltac:(lia)) as Hd. pose proof (Z.mod_pos_bound n x ltac:(lia)) as Hm.
  set (q := n / x) in *. assert (q ≤ r) as Hq by nia. split.
  - apply Z.div_le_lower_bound; [lia|]. nia.
  - assert ((x + q) / 2 ≤ (x + r) / 2) by (apply Z.div_le_mono; lia).
    replace (x + r) with (x - r + r * 2) in * by lia. rewrite Z.div_add in * by lia. lia.
Qed.

(** At the root or below it the iteration stops there. *)
Lemma newton_stop n x : 0 < n → 0 < x → x ≤ Z.sqrt n → x ≤ (x + n / x) / 2.
Proof.
  intros Hn Hp Hx. pose proof (Z.sqrt_spec n ltac:(lia)) as [H1 _].
  assert (x ≤ n / x) by (apply Z.div_le_lower_bound; nia). apply Z.div_le_lower_bound; lia.
Qed.

Lemma isqrt_loop_spec fuel k n x : 2 ≤ n < 2 ^ 64 → Z.sqrt n ≤ x ≤ 2 ^ 63 → 0 ≤ k →
  x - Z.sqrt n < 2 ^ k → k < Z.of_nat fuel →
  isqrt_loop fuel n x (u64 (x + n / x) / 2) = Some (Z.sqrt n).
Proof.
  revert x k. induction fuel as [|fuel IH]; intros x k Hn Hx Hk Hd Hf; [lia|]. cbn [isqrt_loop].
  assert (0 < Z.sqrt n) as Hr by (apply Z.sqrt_pos; lia).
  assert (n / x ≤ Z.sqrt n + 2) as Hq.
  { pose proof (Z.sqrt_spec n ltac:(lia)) as [H1 H2]. apply Z.div_le_upper_bound; [lia|]. nia. }
  assert (Z.sqrt n < 2 ^ 32) as Hr32 by (apply Z.sqrt_lt_square; lia).
  assert (0 ≤ n / x) by (apply Z.div_pos; lia).
  rewrite (wrap_small 64 (x + n / x)) by (unfold fits; lia).
  destruct (decide (x = Z.sqrt n)) as [E|E].
  - rewrite (proj2 (Z.ltb_ge _ _)); [by rewrite E|]. apply newton_stop; lia.
  - destruct (newton_step n x) as [S1 S2]; [lia|lia|].
    assert (0 < k) as Hk0. { destruct (decide (k = 0)) as [->|]; [change (2 ^ 0) with 1 in Hd; lia|lia]. }
    assert ((x + n / x) / 2 < x) as Hlt.
    { pose proof (Z.div_lt (x - Z.sqrt n) 2). lia. }
    rewrite (proj2 (Z.ltb_lt _ _)) by done.
    apply (IH _ (k - 1)); try lia. eapply Z.le_lt_trans; [exact S2|].
    apply Z.div_lt_upper_bound; [lia|]. rewrite <- (Z.pow_succ_r 2 (k - 1)) by lia.
    by replace (Z.succ (k - 1)) with k by lia.
Qed.

Lemma isqrt_loop_S fuel n x y : isqrt_loop (S fuel) n x y =
  if y <? x then isqrt_loop fuel n y (u64 (y + n / y) / 2) else Some x.
Proof. done. Qed.

(** [isqrt] is the integer square root on every [u64]. *)
Lemma isqrt_spec n : fits 64 n → isqrt n = Some (Z.sqrt n).
Proof.
  intros [H0 H1]. unfold isqrt. destruct (Z.ltb_spec n 2) as [Hlt|Hge].
  { assert (n = 0 ∨ n = 1) as [-> | ->] by lia; done. }
  assert (div_ceil n 2 = (n + n / n) / 2) as E.
  { unfold div_ceil. rewrite Z.div_same by lia. f_equal. lia. }
  rewrite (isqrt_loop_S 65). assert (div_ceil n 2 < n) as Hlt.
  { unfold div_ceil. apply Z.div_lt_upper_bound; lia. }
  rewrite (proj2 (Z.ltb_lt _ _)) by done.
  destruct (decide (n < 4)) as [H4|H4].
  { assert (n = 2 ∨ n = 3) as [-> | ->] by lia; vm_compute; reflexivity. }
  assert (Z.sqrt n < n) as Hs by (apply Z.sqrt_lt_lin; lia).
  destruct (newton_step n n) as [S1 S2]; [lia|lia|]. rewrite <- E in S1, S2.
  assert (0 < Z.sqrt n) by (apply Z.sqrt_pos; lia).
  assert (div_ceil n 2 ≤ 2 ^ 63) by (unfold div_ceil; apply Z.div_le_upper_bound; lia).
  apply (isqrt_loop_spec 65 63); try lia.
Qed.

(** The reserve is a quarter of the square root of sixteen times the RAM in
    KiB, kept within 32 and 65536 frames, for every amount of RAM: Newton's
    iteration ends within its 64 halvings at the exact floor of the root, and no
    step of it overflows. *)
Theorem reserve_is_bounded_root usable : fits 64 usable →
  min_free_frames usable = Some (clamp (Z.sqrt (usable / 1024 * 16)) 128 262144 / 4) ∧
  32 ≤ clamp (Z.sqrt (usable / 1024 * 16)) 128 262144 / 4 ≤ 65536.
Proof.
  intros [H0 H1]. unfold min_free_frames.
  assert (0 ≤ usable / 1024 < 2 ^ 54) as Hk.
  { split; [apply Z.div_pos; lia|apply Z.div_lt_upper_bound; lia]. }
  rewrite wrap_small by (unfold fits; lia). rewrite isqrt_spec by (unfold fits; lia). split; [done|].
  unfold clamp.
  split; [apply Z.div_le_lower_bound; [lia|]|apply Z.div_le_upper_bound; [lia|]]; repeat case_match; lia.
Qed.

Lemma reserve_is_bounded_root_witness : min_free_frames (16 * 1024 ^ 3) = Some 4096.
Proof.
  destruct (reserve_is_bounded_root (16 * 1024 ^ 3)) as [E _]; [unfold fits; lia|]. rewrite E. reflexivity.
Defined.
