(* ===== verification/BlockDev.v ===== *)
(** * The interface of the block device

    What the cache, the journal and the superblock code call on
    drivers/blkdev.rs, and what they rely on: [dview d b] is what block [b] reads
    as.  A failed write may leave its own blocks in any state and no other. *)

From S2P Require Import Prelude Bytes Format BlockStore.

Class BlockDev (D : Type) := {
  read_block : Z → M D BlkError block;
  write_block : Z → block → M D BlkError unit;
  write_fua : Z → block → M D BlkError unit;   (* blkdev::write_block_fua *)
  write_blocks_batch : list (Z * block) → M D BlkError unit;
}.

(** How a request may end: an error excludes that the device serves all. *)
Definition served {A} (dev_ok : Prop) (r : res BlkError A) (P : A → Prop) : Prop :=
  match r with Ok a => P a | Err _ => ¬ dev_ok | Panic => False end.

Class BlockDevOk (D : Type) `{!BlockDev D} := {
  dview : D → Z → block;
  dev_inv : D → Prop;
  dev_ok : D → Prop;

  dview_block d b : dev_inv d → is_block (dview d b);

  read_block_spec d b : dev_inv d →
    wp (read_block b) (λ r d', dev_inv d' ∧ same (dview d) (dview d') ∧ (dev_ok d → dev_ok d') ∧
                         served (dev_ok d) r (λ v, v = dview d b)) d;

  write_block_spec d b v : dev_inv d → is_block v →
    wp (write_block b v) (λ r d', dev_inv d' ∧ (dev_ok d → dev_ok d') ∧
      (∀ b', b' ≠ b → dview d' b' = dview d b') ∧ served (dev_ok d) r (λ _, dview d' b = v)) d;

  write_fua_spec d b v : dev_inv d → is_block v →
    wp (write_fua b v) (λ r d', dev_inv d' ∧ (dev_ok d → dev_ok d') ∧
      (∀ b', b' ≠ b → dview d' b' = dview d b') ∧ served (dev_ok d) r (λ _, dview d' b = v)) d;

  write_blocks_batch_spec d items : dev_inv d → Forall (λ x, is_block x.2) items → NoDup items.*1 →
    wp (write_blocks_batch items) (λ r d', dev_inv d' ∧ (dev_ok d → dev_ok d') ∧
      (∀ b', b' ∉ items.*1 → dview d' b' = dview d b') ∧
      served (dev_ok d) r (λ _, ∀ b v, (b, v) ∈ items → dview d' b = v)) d;
}.

(** [?] on a device call: [From<BlkError> for FsError]. *)
Definition from_blk {S A} (m : M S BlkError A) : M S FsError A := λ s,
  match m s with
  | (Ok a, s') => (Ok a, s')
  | (Err e, s') => (Err (Disk e), s')
  | (Panic, s') => (Panic, s')
  end.

Lemma wp_from_blk {S A} (m : M S BlkError A) (Q : res FsError A → S → Prop) s :
  wp m (λ r s', match r with Ok a => Q (Ok a) s' | Err e => Q (Err (Disk e)) s' | Panic => Q Panic s' end) s →
  wp (from_blk m) Q s.
Proof. unfold wp, from_blk. destruct (m s) as [[a|e|] s']; auto. Qed.

(** ** A device that serves every request *)
Fixpoint mem_write_all (items : list (Z * block)) (m : MemStore) : MemStore :=
  match items with [] => m | (b, v) :: items => mem_write_all items (<[b := v]> m) end.

#[global] Instance mem_dev : BlockDev MemStore := {
  read_block b := λ m, (Ok (mem_view m b), m);
  write_block b v := λ m, (Ok tt, <[b := v]> m);
  write_fua b v := λ m, (Ok tt, <[b := v]> m);
  write_blocks_batch items := λ m, (Ok tt, mem_write_all items m);
}.

Lemma mem_write_all_spec items (m : MemStore) : map_Forall (λ _ v, is_block v) m →
  Forall (λ x, is_block x.2) items → NoDup items.*1 →
  map_Forall (λ _ v, is_block v) (mem_write_all items m) ∧
  (∀ b, b ∉ items.*1 → mem_view (mem_write_all items m) b = mem_view m b) ∧
  (∀ b v, (b, v) ∈ items → mem_view (mem_write_all items m) b = v).
Proof.
  revert m. induction items as [|[b v] items IH]; intros m Hm Hf Hn; [by split_and!; [|done|intros ?? []%not_elem_of_nil]|].
  apply Forall_cons in Hf as [Hv Hf]. simpl in Hn. apply NoDup_cons in Hn as [Hb Hn]. simpl.
  destruct (IH (<[b := v]> m)) as (H1 & H2 & H3); [by apply map_Forall_insert_2|done|done|].
  split_and!; [done| |].
  - intros b' Hb'. rewrite not_elem_of_cons in Hb'. destruct Hb'. rewrite H2 by done.
    by apply mem_view_updated.
  - intros b' v' [[= -> ->]|Hin]%elem_of_cons; [|by apply H3]. rewrite H2 by done. apply mem_view_updated.
Qed.

#[global] Program Instance mem_dev_ok : BlockDevOk MemStore := {
  dview := mem_view;
  dev_inv m := map_Forall (λ _ v, is_block v) m;
  dev_ok _ := True;
}.
Next Obligation.
  intros c b H. unfold mem_view. destruct (c !! b) eqn:E; simpl; [by apply (H b)|apply zero_block_is_block].
Qed.
Next Obligation. intros. unfold wp. simpl. by split_and!. Qed.
Next Obligation.
  intros d b v Hd Hv. unfold wp. simpl. destruct (mem_view_updated d b v) as [H1 H2].
  split_and!; [by apply map_Forall_insert_2|done|done|done].
Qed.
Next Obligation.
  intros d b v Hd Hv. unfold wp. simpl. destruct (mem_view_updated d b v) as [H1 H2].
  split_and!; [by apply map_Forall_insert_2|done|done|done].
Qed.
Next Obligation.
  intros d items Hd Hf Hn. unfold wp. simpl. destruct (mem_write_all_spec items d Hd Hf Hn) as (H1 & H2 & H3).
  by split_and!.
Qed.
