(* ===== verification/Cache.v ===== *)
(** * The block cache (storage/npkfs/cache.rs)

    Slots with a frame each, found by block number in a hash map and threaded
    on a doubly linked list in order of use; [idle] slots hold a frame and no
    block, [spare] ones neither, [dirty] lists slots written since the last
    flush.  A frame's bytes are a page of memory: a slot is a reference, and
    [pages] is what the frames hold.  The stacks [idle] and [spare] have their top
    first. *)

From S2P Require Import Prelude Bytes Format BlockStore BlockDev Memory Heap.

Definition NIL : Z := 2 ^ 32 - 1.

Record Slot := mkSlot {
  s_block : Z; s_frame : Z; s_dirty : bool; s_checked : bool; s_prev : Z; s_next : Z }.

Definition with_block (b : Z) (x : Slot) := mkSlot b (s_frame x) (s_dirty x) (s_checked x) (s_prev x) (s_next x).
Definition with_frame (f : Z) (x : Slot) := mkSlot (s_block x) f (s_dirty x) (s_checked x) (s_prev x) (s_next x).
Definition with_dirty (d : bool) (x : Slot) := mkSlot (s_block x) (s_frame x) d (s_checked x) (s_prev x) (s_next x).
Definition with_checked (c : bool) (x : Slot) := mkSlot (s_block x) (s_frame x) (s_dirty x) c (s_prev x) (s_next x).
Definition with_prev (p : Z) (x : Slot) := mkSlot (s_block x) (s_frame x) (s_dirty x) (s_checked x) p (s_next x).
Definition with_next (n : Z) (x : Slot) := mkSlot (s_block x) (s_frame x) (s_dirty x) (s_checked x) (s_prev x) n.

Record BlockCache := mkCache {
  slots : list Slot; cmap : gmap Z Z; head : Z; tail : Z;
  idle : list Z; spare : list Z; dirty : list Z }.

Definition set_slots (l : list Slot) (c : BlockCache) :=
  mkCache l (cmap c) (head c) (tail c) (idle c) (spare c) (dirty c).
Definition set_cmap (m : gmap Z Z) (c : BlockCache) :=
  mkCache (slots c) m (head c) (tail c) (idle c) (spare c) (dirty c).
Definition set_head (h : Z) (c : BlockCache) :=
  mkCache (slots c) (cmap c) h (tail c) (idle c) (spare c) (dirty c).
Definition set_tail (t : Z) (c : BlockCache) :=
  mkCache (slots c) (cmap c) (head c) t (idle c) (spare c) (dirty c).
Definition set_idle (l : list Z) (c : BlockCache) :=
  mkCache (slots c) (cmap c) (head c) (tail c) l (spare c) (dirty c).
Definition set_spare (l : list Z) (c : BlockCache) :=
  mkCache (slots c) (cmap c) (head c) (tail c) (idle c) l (dirty c).
Definition set_dirty (l : list Z) (c : BlockCache) :=
  mkCache (slots c) (cmap c) (head c) (tail c) (idle c) (spare c) l.

Definition new : BlockCache := mkCache [] ∅ NIL NIL [] [] [].

(** [self.slots[s as usize]], and an assignment to one of its fields. *)
Definition slot (c : BlockCache) (s : Z) : option Slot := at_ (slots c) s.
Definition mod_slot (s : Z) (f : Slot → Slot) (c : BlockCache) : option BlockCache :=
  x ← slot c s; Some (set_slots (<[Z.to_nat s := f x]> (slots c)) c).

(** ** The list in order of use *)
Definition unlink (s : Z) (c : BlockCache) : option BlockCache :=
  x ← slot c s;
  c ← (if s_prev x =? NIL then Some (set_head (s_next x) c) else mod_slot (s_prev x) (with_next (s_next x)) c);
  if s_next x =? NIL then Some (set_tail (s_prev x) c) else mod_slot (s_next x) (with_prev (s_prev x)) c.

Definition push_front (s : Z) (c : BlockCache) : option BlockCache :=
  c ← mod_slot s (with_prev NIL) c;
  c ← mod_slot s (with_next (head c)) c;
  c ← (if negb (head c =? NIL) then mod_slot (head c) (with_prev s) c else Some c);
  let c := set_head s c in
  Some (if tail c =? NIL then set_tail s c else c).

Definition touch (s : Z) (c : BlockCache) : option BlockCache :=
  if head c =? s then Some c else c ← unlink s c; push_front s c.

(** ** The cache with its memory and its device *)
Section cache.
Context {D : Type} `{!BlockDev D}.

Record St := mkSt {
  cache : BlockCache;
  mem : Memory.FrameAllocator;
  usable : Z;                    (* memory::usable_bytes() *)
  pages : gmap Z (list byte);    (* the bytes of a frame, by its address *)
  dev : D }.

Definition page (st : St) (frame : Z) : block := default zero_block (pages st !! frame).

Definition set_cache (c : BlockCache) (st : St) := mkSt c (mem st) (usable st) (pages st) (dev st).
Definition set_mem (m : Memory.FrameAllocator) (st : St) := mkSt (cache st) m (usable st) (pages st) (dev st).
Definition set_page (f : Z) (v : block) (st : St) :=
  mkSt (cache st) (mem st) (usable st) (<[f := v]> (pages st)) (dev st).
Definition set_dev (d : D) (st : St) := mkSt (cache st) (mem st) (usable st) (pages st) d.

Notation MS := (M St FsError).

(** A pure step on the cache; [None] is an index out of range. *)
Definition step (f : BlockCache → option BlockCache) : MS unit := λ st,
  match f (cache st) with Some c => (Ok tt, set_cache c st) | None => (Panic, st) end.
Definition gets {A} (f : St → A) : MS A := λ st, (Ok (f st), st).
Definition modify (f : St → St) : MS unit := λ st, (Ok tt, f st).
Definition on_mem (f : Memory.FrameAllocator → option Memory.FrameAllocator) : MS unit := λ st,
  match f (mem st) with Some m => (Ok tt, set_mem m st) | None => (Panic, st) end.
Definition on_dev {A} (m : M D BlkError A) : MS A := λ st,
  let '(r, d) := from_blk m (dev st) in (r, set_dev d st).

Definition get_slot (s : Z) : MS Slot := o ← gets (λ st, slot (cache st) s); of_opt o.

Definition bytes (s : Z) : MS block := x ← get_slot s; gets (λ st, page st (s_frame x)).
(** [self.bytes_mut(s).copy_from_slice(buf)] *)
Definition copy_in (s : Z) (buf : block) : MS unit :=
  x ← get_slot s; modify (set_page (s_frame x) buf).

Definition high_watermark (st : St) : option Z :=
  min ← min_free_frames (usable st); Some (min + min / 2).

(** Shrinkers registered with the allocator, which the cache calls only when
    memory is plentiful. *)
Context (shrinkers : option (list Memory.Shrinker)).

Definition writeback (s : Z) : MS unit :=
  x ← get_slot s;
  if negb (s_dirty x) then mret tt
  else
    buf ← bytes s;
    _ ← on_dev (write_block (s_block x) buf);
    step (mod_slot s (with_dirty false)).

(** A frame while memory is plentiful: [(stats().0 > high_watermark())
    .then(allocate_frame).flatten()]. *)
Definition fresh_frame : MS (option Z) := λ st,
  match high_watermark st with
  | None => (Panic, st)
  | Some w =>
      if w <? fst (Memory.stats (mem st)) then
        match Memory.allocate_frame shrinkers (mem st) with
        | Some (r, m) => (Ok r, set_mem m st)
        | None => (Panic, st)
        end
      else (Ok None, st)
  end.

Definition new_slot (frame : Z) : MS Z :=
  sp ← gets (λ st, spare (cache st));
  match sp with
  | s :: rest =>
      _ ← step (λ c, Some (set_spare rest c));
      _ ← step (mod_slot s (with_frame frame));
      mret s
  | [] =>
      _ ← step (λ c, Some (set_slots (slots c ++ [mkSlot 0 frame false false NIL NIL]) c));
      gets (λ st, u32 (zlen (slots (cache st)) - 1))
  end.

(** The least recently used block gives up its slot. *)
Definition evict : MS Z :=
  t ← gets (λ st, tail (cache st));
  if negb (t =? NIL) then
    _ ← writeback t;
    _ ← step (unlink t);
    x ← get_slot t;
    _ ← step (λ c, Some (set_cmap (base.delete (s_block x) (cmap c)) c));
    mret t
  else fail OutOfMemory.

Definition take (block : Z) : MS Z :=
  il ← gets (λ st, idle (cache st));
  s ← (match il with
       | s :: rest => _ ← step (λ c, Some (set_idle rest c)); mret s
       | [] =>
           fr ← fresh_frame;
           match fr with Some frame => new_slot frame | None => evict end
       end);
  _ ← step (mod_slot s (with_block block));
  _ ← step (mod_slot s (with_dirty false));
  _ ← step (mod_slot s (with_checked false));
  _ ← step (λ c, Some (set_cmap (<[block := s]> (cmap c)) c));
  _ ← step (push_front s);
  mret s.

(** ** Reading and writing *)
Definition cache_read (block : Z) : MS (list byte) :=
  hit ← gets (λ st, cmap (cache st) !! block);
  match hit with
  | Some s => _ ← step (touch s); bytes s
  | None =>
      buf ← on_dev (read_block block);
      s ← take block;
      _ ← copy_in s buf;
      mret buf
  end.

Definition cache_read_checked (block : Z) (check : list byte → bool) : MS (bool * list byte) :=
  buf ← cache_read block;
  slot ← gets (λ st, cmap (cache st) !! block);
  known ← (match slot with Some s => x ← get_slot s; mret (s_checked x) | None => mret false end);
  if known : bool then mret (true, buf)
  else if negb (check buf) then mret (false, buf)
  else
    _ ← (match slot with Some s => step (mod_slot s (with_checked true)) | None => mret tt end);
    mret (true, buf).

Definition write_as (block : Z) (buf : list byte) (checked : bool) : MS unit :=
  hit ← gets (λ st, cmap (cache st) !! block);
  s ← (match hit with Some s => _ ← step (touch s); mret s | None => take block end);
  _ ← step (mod_slot s (with_checked checked));
  _ ← copy_in s buf;
  x ← get_slot s;
  if negb (s_dirty x) then
    _ ← step (mod_slot s (with_dirty true));
    step (λ c, Some (set_dirty (dirty c ++ [s]) c))
  else mret tt.

Definition cache_write (block : Z) (buf : list byte) : MS unit := write_as block buf false.
Definition cache_write_checked (block : Z) (buf : list byte) : MS unit := write_as block buf true.

(** ** Flushing *)

(** [list.sort_unstable(); list.dedup()] *)
Fixpoint insert_sorted (s : Z) (l : list Z) : list Z :=
  match l with
  | [] => [s]
  | x :: l' => if s =? x then l else if s <? x then s :: l else x :: insert_sorted s l'
  end.
Definition sort_dedup (l : list Z) : list Z := fold_right insert_sorted [] l.

Fixpoint filter_dirty (c : BlockCache) (l : list Z) : option (list Z) :=
  match l with
  | [] => Some []
  | s :: l => x ← slot c s; r ← filter_dirty c l; Some (if s_dirty x then s :: r else r)
  end.
Fixpoint batch_of (l : list Z) : MS (list (Z * list byte)) :=
  match l with
  | [] => mret []
  | s :: l => x ← get_slot s; buf ← bytes s; r ← batch_of l; mret ((s_block x, buf) :: r)
  end.
Fixpoint clean_all (l : list Z) : MS unit :=
  match l with
  | [] => mret tt
  | s :: l => _ ← step (mod_slot s (with_dirty false)); clean_all l
  end.

Definition flush : MS unit :=
  o ← gets (λ st, filter_dirty (cache st) (dirty (cache st)));
  listed ← of_opt o;
  let list := sort_dedup listed in
  if bool_decide (list = []) then step (λ c, Some (set_dirty [] c))
  else
    batch ← batch_of list;
    _ ← on_dev (write_blocks_batch batch);
    _ ← clean_all list;
    step (λ c, Some (set_dirty [] c)).

(** ** Giving frames back *)
Definition give_back (s : Z) : MS unit :=
  x ← get_slot s;
  _ ← on_mem (Memory.deallocate (s_frame x));
  _ ← step (mod_slot s (with_frame 0));
  step (λ c, Some (set_spare (s :: spare c) c)).

(** [while freed < want], on the idle slots. *)
Fixpoint release_loop (il : list Z) (want freed : Z) : MS Z :=
  if want <=? freed then mret freed
  else
    match il with
    | [] => mret freed
    | s :: il =>
        _ ← step (λ c, Some (set_idle il c));
        _ ← give_back s;
        release_loop il want (freed + 1)
    end.
Definition release_idle (want : Z) : MS Z := il ← gets (λ st, idle (cache st)); release_loop il want 0.

(** [while freed < want && s != NIL], towards the most recent end; each round
    goes one slot on, so the number of slots bounds them. *)
Fixpoint shrink_loop (fuel : nat) (want freed s : Z) : MS Z :=
  if (want <=? freed) || (s =? NIL) then mret freed
  else
    match fuel with
    | O => panic
    | S fuel =>
        x ← get_slot s;
        if negb (s_dirty x) then
          _ ← step (unlink s);
          _ ← step (λ c, Some (set_cmap (base.delete (s_block x) (cmap c)) c));
          _ ← give_back s;
          shrink_loop fuel want (freed + 1) (s_prev x)
        else shrink_loop fuel want freed (s_prev x)
    end.
Definition shrink (want : Z) : MS Z :=
  freed ← release_idle want;
  '(n, t) ← gets (λ st, (length (slots (cache st)), tail (cache st)));
  shrink_loop n want freed t.

Definition cache_invalidate (block : Z) : MS unit :=
  hit ← gets (λ st, cmap (cache st) !! block);
  match hit with
  | Some s =>
      _ ← step (λ c, Some (set_cmap (base.delete block (cmap c)) c));
      _ ← step (unlink s);
      _ ← step (mod_slot s (with_dirty false));
      step (λ c, Some (set_idle (s :: idle c) c))
  | None => mret tt
  end.

(** [while self.tail != NIL] of [drop_all]. *)
Fixpoint forget_loop (fuel : nat) : MS unit :=
  t ← gets (λ st, tail (cache st));
  if t =? NIL then mret tt
  else
    match fuel with
    | O => panic
    | S fuel =>
        _ ← step (unlink t);
        x ← get_slot t;
        _ ← step (λ c, Some (set_cmap (base.delete (s_block x) (cmap c)) c));
        _ ← step (λ c, Some (set_idle (t :: idle c) c));
        forget_loop fuel
    end.
Definition drop_all : MS unit :=
  _ ← flush;
  n ← gets (λ st, length (slots (cache st)));
  _ ← forget_loop n;
  _ ← release_idle (2 ^ 64 - 1);
  mret tt.

Definition held (c : BlockCache) : Z * Z :=
  (Z.of_nat (size (cmap c)),
   zlen (List.filter (λ x, negb (s_frame x =? 0) && s_dirty x) (slots c))).
End cache.
