(* ===== verification/CacheList.v ===== *)
(** * The cache's linked list

    [dll c l]: the [prev] and [next] fields of the slots thread exactly the slots
    [l], most recent first.  [unlink], [push_front] and [touch] change the list as
    their names say and nothing else of the cache. *)

From S2P Require Import Prelude Bytes Format BlockStore BlockDev Memory Heap Cache.

Definition nb (o : option Z) : Z := default NIL o.
Definition prv (l : list Z) (i : nat) : option Z := match i with O => None | S i => l !! i end.

Record dll (c : BlockCache) (l : list Z) : Prop := {
  d_nodup : NoDup l;
  d_head : head c = nb (l !! 0%nat);
  d_tail : tail c = nb (last l);
  d_range s : s ∈ l → 0 ≤ s < NIL;
  d_node i s : l !! i = Some s →
    ∃ x, slot c s = Some x ∧ s_prev x = nb (prv l i) ∧ s_next x = nb (l !! S i);
}.

(** ** One slot at a time *)
Lemma slot_range c s x : slot c s = Some x → 0 ≤ s < zlen (slots c).
Proof.
  unfold slot, at_. destruct (Z.leb_spec 0 s); [|done]. intros Hx%lookup_lt_Some. unfold zlen. lia.
Qed.

Lemma slot_insert c s x y t : slot c s = Some x →
  slot (set_slots (<[Z.to_nat s := y]> (slots c)) c) t = if decide (t = s) then Some y else slot c t.
Proof.
  intros Hx. pose proof (slot_range _ _ _ Hx) as Hr. unfold slot, at_ in *. simpl. case_decide as E.
  - subst. rewrite (proj2 (Z.leb_le 0 s)) by lia. apply list_lookup_insert_eq. unfold zlen in Hr. lia.
  - destruct (Z.leb_spec 0 t); [|done]. apply list_lookup_insert_ne. lia.
Qed.

Lemma mod_slot_Some c s x f : slot c s = Some x →
  mod_slot s f c = Some (set_slots (<[Z.to_nat s := f x]> (slots c)) c).
Proof. intros Hx. unfold mod_slot. by rewrite Hx. Qed.

(** ** Changes of links only *)
Definition alike (x y : Slot) : Prop :=
  s_block y = s_block x ∧ s_frame y = s_frame x ∧ s_dirty y = s_dirty x ∧ s_checked y = s_checked x.

Record relinked (c c' : BlockCache) : Prop := {
  r_map : cmap c' = cmap c;
  r_idle : idle c' = idle c;
  r_spare : spare c' = spare c;
  r_dirty : dirty c' = dirty c;
  r_len : length (slots c') = length (slots c);
  r_slot t : match slot c t, slot c' t with
             | Some x, Some y => alike x y
             | None, None => True
             | _, _ => False
             end;
}.

#[global] Instance relinked_preorder : PreOrder relinked.
Proof.
  split.
  - intros c. split; try done. intros t. by destruct (slot c t).
  - intros a b c [A1 A2 A3 A4 A5 A6] [B1 B2 B3 B4 B5 B6]. split; try congruence. intros t.
    specialize (A6 t). specialize (B6 t). unfold alike in *.
    destruct (slot a t), (slot b t), (slot c t); try done. intuition congruence.
Qed.

Lemma relinked_slot c c' t x : relinked c c' → slot c t = Some x → ∃ y, slot c' t = Some y ∧ alike x y.
Proof. intros R Hx. pose proof (r_slot _ _ R t) as H. rewrite Hx in H. destruct (slot c' t); [eauto|done]. Qed.
Lemma relinked_slot_back c c' t y : relinked c c' → slot c' t = Some y → ∃ x, slot c t = Some x ∧ alike x y.
Proof. intros R Hy. pose proof (r_slot _ _ R t) as H. rewrite Hy in H. destruct (slot c t); [eauto|done]. Qed.

Lemma relinked_mod c s x f : slot c s = Some x → alike x (f x) →
  relinked c (set_slots (<[Z.to_nat s := f x]> (slots c)) c).
Proof.
  intros Hx Ha. split; try done; [simpl; apply length_insert|]. intros t. rewrite (slot_insert c s x) by done.
  case_decide as E; [subst; by rewrite Hx|]. by destruct (slot c t).
Qed.

Lemma relinked_head c h : relinked c (set_head h c).
Proof. split; try done. intros t. change (slot (set_head h c) t) with (slot c t). by destruct (slot c t). Qed.
Lemma relinked_tail c h : relinked c (set_tail h c).
Proof. split; try done. intros t. change (slot (set_tail h c) t) with (slot c t). by destruct (slot c t). Qed.

(** ** Taking a slot out *)
Lemma lookup_delete_list {A} (l : list A) i j :
  base.delete i l !! j = if decide (j < i)%nat then l !! j else l !! S j.
Proof.
  case_decide; [by apply list_lookup_delete_lt|apply list_lookup_delete_ge; lia].
Qed.

Lemma last_delete (l : list Z) i s : l !! i = Some s →
  last (base.delete i l) = if decide (S i = length l) then prv l i else last l.
Proof.
  intros Hi. pose proof (lookup_lt_Some _ _ _ Hi). rewrite !last_lookup, length_delete by eauto.
  rewrite lookup_delete_list. destruct (decide (S i = length l)) as [E|E].
  - rewrite <- E. destruct i as [|i]; simpl; [apply lookup_ge_None; lia|].
    by rewrite decide_True by lia.
  - rewrite decide_False by lia. f_equal. lia.
Qed.

(** The neighbour of the slot taken out that precedes it gets its successor,
    the one that follows it gets its predecessor. *)
Definition bypass (l : list Z) (i : nat) (t : Z) (x : Slot) : Slot :=
  let x := if decide (prv l i = Some t) then with_next (nb (l !! S i)) x else x in
  if decide (l !! S i = Some t) then with_prev (nb (prv l i)) x else x.

Lemma bypass_alike l i t x : alike x (bypass l i t x).
Proof. unfold bypass, alike. repeat case_decide; done. Qed.

Lemma unlink_steps c l i s : dll c l → l !! i = Some s →
  ∃ c', unlink s c = Some c' ∧ relinked c c' ∧
    (∀ t, slot c' t = bypass l i t <$> slot c t) ∧
    head c' = (if decide (i = 0%nat) then nb (l !! 1%nat) else head c) ∧
    tail c' = (if decide (S i = length l) then nb (prv l i) else tail c).
Proof.
  intros L Hi. destruct (d_node _ _ L i s Hi) as (x & Hx & Hp & Hn). unfold unlink. rewrite Hx. cbn [mbind option_bind].
  rewrite Hp, Hn. pose proof (lookup_lt_Some _ _ _ Hi) as Hlt.
  assert (∃ c1, (if nb (prv l i) =? NIL then Some (set_head (nb (l !! S i)) c)
    else mod_slot (nb (prv l i)) (with_next (nb (l !! S i))) c) = Some c1 ∧ relinked c c1 ∧
    (∀ t, slot c1 t = (λ y, if decide (prv l i = Some t) then with_next (nb (l !! S i)) y else y) <$> slot c t) ∧
    head c1 = (if decide (i = 0%nat) then nb (l !! 1%nat) else head c) ∧ tail c1 = tail c) as (c1 & E1 & R1 & S1 & H1 & T1).
  { destruct i as [|i]; simpl prv.
    - eexists. split; [done|]. split_and!; [apply relinked_head| |done|done].
      intros t. change (slot (set_head _ c) t) with (slot c t). by destruct (slot c t).
    - destruct (l !! i) as [p|] eqn:Ep; [|apply lookup_ge_None in Ep; lia].
      pose proof (d_range _ _ L p (list_elem_of_lookup_2 _ _ _ Ep)) as Hr. simpl nb.
      rewrite (proj2 (Z.eqb_neq p NIL)) by lia. destruct (d_node _ _ L i p Ep) as (y & Hy & _).
      rewrite (mod_slot_Some c p y) by done. eexists. split; [done|].
      split_and!; [by apply (relinked_mod c p y (with_next (nb (l !! S (S i)))))| |done|done].
      intros t. rewrite (slot_insert c p y) by done. case_decide as E.
      + subst. rewrite Hy. simpl. by rewrite decide_True.
      + destruct (slot c t); simpl; [|done]. by rewrite decide_False by congruence. }
  rewrite E1. cbn [mbind option_bind].
  destruct (l !! S i) as [n|] eqn:En; simpl nb.
  - pose proof (d_range _ _ L n (list_elem_of_lookup_2 _ _ _ En)) as Hr. pose proof (lookup_lt_Some _ _ _ En).
    rewrite (proj2 (Z.eqb_neq n NIL)) by lia. destruct (d_node _ _ L (S i) n En) as (y & Hy & _).
    destruct (relinked_slot _ _ _ _ R1 Hy) as (y1 & Hy1 & _).
    rewrite (mod_slot_Some c1 n y1) by done. eexists. split; [done|].
    split_and!; [etrans; [exact R1|by apply (relinked_mod c1 n y1 (with_prev (nb (prv l i))))]| |done|simpl; by rewrite T1, decide_False by lia].
    intros t. rewrite (slot_insert c1 n y1) by done. rewrite S1. unfold bypass. rewrite En.
    destruct (decide (t = n)) as [->|E].
    + rewrite S1 in Hy1. destruct (slot c n); simpl in *; [|done]. injection Hy1 as <-. by rewrite (decide_True (P := Some n = Some n)) by done.
    + destruct (slot c t); simpl; [|done]. by rewrite (decide_False (P := Some n = Some t)) by congruence.
  - apply lookup_ge_None in En. rewrite Z.eqb_refl. eexists. split; [done|].
    split_and!; [etrans; [exact R1|apply relinked_tail]| |done|simpl; by rewrite decide_True by lia].
    intros t. change (slot (set_tail _ c1) t) with (slot c1 t). rewrite S1. unfold bypass.
    rewrite (lookup_ge_None_2 l (S i)) by lia. simpl. by destruct (slot c t).
Qed.

Lemma bypass_next l i t x : prv l i ≠ Some t → s_next (bypass l i t x) = s_next x.
Proof. intros H. unfold bypass. rewrite (decide_False (P := prv l i = Some t)) by done. by case_decide. Qed.
Lemma bypass_prev l i t x : l !! S i ≠ Some t → s_prev (bypass l i t x) = s_prev x.
Proof. intros H. unfold bypass. rewrite (decide_False (P := l !! S i = Some t)) by done. by case_decide. Qed.
Lemma bypass_next_eq l i t x : prv l i = Some t → s_next (bypass l i t x) = nb (l !! S i).
Proof. intros H. unfold bypass. rewrite (decide_True (P := prv l i = Some t)) by done. by case_decide. Qed.
Lemma bypass_prev_eq l i t x : l !! S i = Some t → s_prev (bypass l i t x) = nb (prv l i).
Proof. intros H. unfold bypass. by rewrite (decide_True (P := l !! S i = Some t)) by done. Qed.

Lemma unlink_spec c l i s : dll c l → l !! i = Some s →
  ∃ c', unlink s c = Some c' ∧ relinked c c' ∧ dll c' (base.delete i l).
Proof.
  intros L Hi. destruct (unlink_steps c l i s L Hi) as (c' & E & R & S' & H' & T').
  exists c'. split_and!; [done..|]. pose proof (d_nodup _ _ L) as Hn. pose proof (lookup_lt_Some _ _ _ Hi) as Hlt.
  assert (∀ j k t, l !! j = Some t → l !! k = Some t → j = k) as Hinj by (intros; by eapply NoDup_lookup).
  split.
  - rewrite (delete_Permutation _ _ _ Hi) in Hn. by apply NoDup_cons in Hn as [_ ?].
  - rewrite H', lookup_delete_list, (d_head _ _ L). destruct i as [|i]; [done|].
    rewrite decide_False, decide_True by lia. done.
  - rewrite T', (last_delete _ _ _ Hi), (d_tail _ _ L). by case_decide.
  - intros t Ht. apply (d_range _ _ L). apply list_elem_of_lookup in Ht as [j Hj]. rewrite lookup_delete_list in Hj.
    case_decide; by eapply list_elem_of_lookup_2.
  - intros j t Hj. pose proof Hj as Hj0. rewrite lookup_delete_list in Hj0. rewrite lookup_delete_list.
    destruct (decide (j < i)%nat) as [Hji|Hji].
    + destruct (d_node _ _ L j t Hj0) as (x & Hx & Hp & Hnx). exists (bypass l i t x). rewrite S', Hx.
      split_and!; [done| |].
      * rewrite bypass_prev by (intros Et; specialize (Hinj _ _ _ Et Hj0); lia). rewrite Hp. f_equal.
        destruct j as [|j]; [done|]. simpl. rewrite lookup_delete_list, decide_True by lia. done.
      * destruct (decide (S j = i)) as [<-|Hne].
        -- rewrite bypass_next_eq by done. by rewrite decide_False by lia.
        -- rewrite bypass_next; [by rewrite Hnx, decide_True by lia|].
           intros Et. destruct i as [|i]; [done|]. simpl in Et. specialize (Hinj _ _ _ Et Hj0). lia.
    + destruct (d_node _ _ L (S j) t Hj0) as (x & Hx & Hp & Hnx). exists (bypass l i t x). rewrite S', Hx.
      split_and!; [done| |].
      * destruct (decide (i = j)) as [->|Hne].
        -- rewrite bypass_prev_eq by done. f_equal. destruct j as [|j]; [done|]. simpl.
           rewrite lookup_delete_list, decide_True by lia. done.
        -- rewrite bypass_prev by (intros Et; specialize (Hinj _ _ _ Et Hj0); lia). rewrite Hp. f_equal.
           destruct j as [|j]; [lia|]. simpl. rewrite lookup_delete_list, decide_False by lia. done.
      * rewrite bypass_next; [by rewrite Hnx, decide_False by lia|].
        intros Et. destruct i as [|i]; [done|]. simpl in Et. specialize (Hinj _ _ _ Et Hj0). lia.
Qed.

(** ** Putting a slot in front *)
Lemma dll_slot c l s : dll c l → s ∈ l → ∃ x, slot c s = Some x.
Proof.
  intros L [i Hi]%list_elem_of_lookup. destruct (d_node _ _ L i s Hi) as (x & Hx & _). eauto.
Qed.

Lemma push_front_spec c l s x : dll c l → s ∉ l → slot c s = Some x → 0 ≤ s < NIL →
  ∃ c', push_front s c = Some c' ∧ relinked c c' ∧ dll c' (s :: l).
Proof.
  intros L Hs Hx Hr. unfold push_front. rewrite (mod_slot_Some c s x) by done. cbn [mbind option_bind].
  set (c1 := set_slots _ c). assert (slot c1 s = Some (with_prev NIL x)) as Hx1.
  { unfold c1. rewrite (slot_insert c s x) by done. by rewrite decide_True. }
  rewrite (mod_slot_Some c1 s (with_prev NIL x)) by done. cbn [mbind option_bind].
  set (x2 := with_next (head c1) (with_prev NIL x)). set (c2 := set_slots _ c1).
  assert (∀ t, slot c2 t = if decide (t = s) then Some x2 else slot c t) as S2.
  { intros t. unfold c2. rewrite (slot_insert c1 s _ _ _ Hx1). case_decide; [done|].
    unfold c1. rewrite (slot_insert c s x) by done. by rewrite decide_False. }
  assert (relinked c c2) as R2.
  { etrans; [by apply (relinked_mod c s x (with_prev NIL))|]. by apply (relinked_mod c1 s _ (with_next (head c1)) Hx1). }
  change (head c2) with (head c). rewrite (d_head _ _ L).
  assert (∃ c3, (if negb (nb (l !! 0%nat) =? NIL) then mod_slot (nb (l !! 0%nat)) (with_prev s) c2 else Some c2) = Some c3 ∧
    relinked c2 c3 ∧ head c3 = head c ∧ tail c3 = tail c ∧
    ∀ t, slot c3 t = (λ y, if decide (l !! 0%nat = Some t) then with_prev s y else y) <$> slot c2 t) as (c3 & E3 & R3 & H3 & T3 & S3).
  { destruct (l !! 0%nat) as [h|] eqn:Eh; simpl nb.
    - pose proof (list_elem_of_lookup_2 _ _ _ Eh) as Hh. pose proof (d_range _ _ L h Hh).
      rewrite (proj2 (Z.eqb_neq h NIL)) by lia. simpl negb. cbn iota.
      destruct (dll_slot c l h L Hh) as [y Hy]. assert (h ≠ s) as Hne by (intros ->; done).
      assert (slot c2 h = Some y) as Hy2 by (rewrite S2; by rewrite decide_False).
      rewrite (mod_slot_Some c2 h y) by done. eexists. split; [done|].
      split_and!; [by apply (relinked_mod c2 h y (with_prev s))|done|done|].
      intros t. rewrite (slot_insert c2 h y) by done. destruct (decide (t = h)) as [->|].
      + rewrite Hy2. simpl. by rewrite decide_True.
      + destruct (slot c2 t); simpl; [|done]. by rewrite decide_False by congruence.
    - rewrite Z.eqb_refl. eexists. split; [done|]. split_and!; try done.
      intros t. by destruct (slot c2 t). }
  rewrite E3. cbn [mbind option_bind]. eexists. split; [done|].
  set (c4 := if tail (set_head s c3) =? NIL then _ else _).
  assert (∀ t, slot c4 t = slot c3 t) as S4 by (intros; unfold c4; destruct (tail (set_head s c3) =? NIL); reflexivity).
  assert (relinked c c4) as R4.
  { etrans; [exact R2|]. etrans; [exact R3|]. unfold c4.
    etrans; [apply (relinked_head c3 s)|]. destruct (tail (set_head s c3) =? NIL); [apply relinked_tail|reflexivity]. }
  split; [done|]. split.
  - constructor; [done|apply L].
  - unfold c4. by destruct (tail (set_head s c3) =? NIL).
  - unfold c4. simpl tail. rewrite T3, (d_tail _ _ L).
    destruct (last l) as [z|] eqn:El; simpl nb.
    + pose proof (d_range _ _ L z) as Hz. rewrite (proj2 (Z.eqb_neq z NIL)).
      * rewrite last_cons, El. simpl. by rewrite T3, (d_tail _ _ L), El.
      * apply last_Some_elem_of in El. specialize (Hz El). lia.
    + rewrite Z.eqb_refl. apply last_None in El as ->. done.
  - intros t [->|Ht]%elem_of_cons; [done|by apply (d_range _ _ L)].
  - intros i t Hi. rewrite S4, S3, S2. destruct i as [|i]; simpl in Hi.
    + injection Hi as <-. rewrite decide_True by done. simpl. eexists. split; [done|].
      rewrite decide_False by (intros E0; apply Hs; by eapply list_elem_of_lookup_2).
      unfold x2. simpl. split; [done|]. apply (d_head _ _ L).
    + assert (t ≠ s) as Hne by (intros ->; apply Hs; by eapply list_elem_of_lookup_2).
      rewrite decide_False by done. destruct (d_node _ _ L i t Hi) as (y & -> & Hp & Hnx). simpl.
      eexists. split; [done|]. destruct i as [|i].
      * rewrite decide_True by done. simpl. done.
      * rewrite decide_False; [done|]. intros E0.
        pose proof (NoDup_lookup _ _ _ _ (d_nodup _ _ L) E0 Hi). lia.
Qed.

Lemma touch_spec c l s : dll c l → s ∈ l →
  ∃ c' l', touch s c = Some c' ∧ relinked c c' ∧ dll c' l' ∧ l' ≡ₚ l.
Proof.
  intros L Hs. unfold touch. destruct (Z.eqb_spec (head c) s) as [E|E].
  { exists c, l. by split_and!. }
  apply list_elem_of_lookup in Hs as [i Hi].
  destruct (unlink_spec c l i s L Hi) as (c1 & -> & R1 & L1). cbn [mbind option_bind].
  destruct (d_node _ _ L i s Hi) as (x & Hx & _). destruct (relinked_slot _ _ _ _ R1 Hx) as (x1 & Hx1 & _).
  assert (l ≡ₚ s :: base.delete i l) as Hp by (by apply delete_Permutation).
  destruct (push_front_spec c1 _ s x1 L1) as (c2 & -> & R2 & L2); [|done| |].
  - pose proof (d_nodup _ _ L) as Hn. rewrite Hp in Hn. by apply NoDup_cons in Hn as [? _].
  - apply (d_range _ _ L). by eapply list_elem_of_lookup_2.
  - eexists c2, _. split_and!; [done|by etrans|done|by rewrite <- Hp].
Qed.
