(* ===== verification/CacheClean.v ===== *)
(** * Which blocks the cache has yet to write

    [clean c b]: no slot holds a version of block [b] newer than the device's.
    Reading, evicting and relinking make no block dirty; [write_as] only its own.
    These facts need no invariant. *)

From S2P Require Import Prelude Bytes Format BlockStore BlockDev Memory Heap Cache CacheList.

Definition clean (c : BlockCache) (b : Z) : Prop :=
  ∀ s x, slot c s = Some x → s_block x = b → s_dirty x = false.

Lemma clean_slots c c' b : slots c' = slots c → clean c b → clean c' b.
Proof. intros E H s x. unfold slot. rewrite E. apply H. Qed.

Lemma clean_mod s f c c' b : mod_slot s f c = Some c' →
  (∀ x, (s_block x = b → s_dirty x = false) → s_block (f x) = b → s_dirty (f x) = false) → clean c b → clean c' b.
Proof.
  unfold mod_slot. destruct (slot c s) as [x|] eqn:Hx; [|done]. intros [= <-] Hf H t y.
  rewrite (slot_insert c s x) by done. case_decide; [intros [= <-]|by apply H].
  apply Hf. intros Hb. by apply (H s x).
Qed.

(** The block and the flag are set together. *)
Lemma clean_assign s b0 c c1 c2 b : mod_slot s (with_block b0) c = Some c1 → mod_slot s (with_dirty false) c1 = Some c2 →
  clean c b → clean c2 b.
Proof.
  intros E1 E2 H. destruct (slot c s) as [x|] eqn:Hx; [|unfold mod_slot in E1; by rewrite Hx in E1].
  rewrite (mod_slot_Some c s x) in E1 by done. injection E1 as E1.
  assert (slot c1 s = Some (with_block b0 x)) as Hx1 by (subst; rewrite (slot_insert c s x) by done; by rewrite decide_True).
  rewrite (mod_slot_Some c1 s _ _ Hx1) in E2. injection E2 as <-. intros t y.
  rewrite (slot_insert c1 s _ _ _ Hx1). case_decide; [by intros [= <-]|].
  subst c1. rewrite (slot_insert c s x), decide_False by done. apply H.
Qed.

Lemma clean_unlink s c c' b : unlink s c = Some c' → clean c b → clean c' b.
Proof.
  unfold unlink. destruct (slot c s) as [x|]; [|done]. simpl. intros E H.
  destruct (s_prev x =? NIL).
  - simpl in E. destruct (s_next x =? NIL); [injection E as <-; by eapply clean_slots|].
    eapply clean_mod; [done| |by eapply (clean_slots c)]. done.
  - destruct (mod_slot (s_prev x) _ c) as [c1|] eqn:E1; [|done]. simpl in E.
    assert (clean c1 b) as H1 by (by eapply clean_mod).
    destruct (s_next x =? NIL); [injection E as <-; by eapply clean_slots|]. by eapply clean_mod.
Qed.

Lemma clean_push_front s c c' b : push_front s c = Some c' → clean c b → clean c' b.
Proof.
  unfold push_front. destruct (mod_slot s (with_prev NIL) c) as [c1|] eqn:E1; [|done]. simpl.
  destruct (mod_slot s (with_next (head c1)) c1) as [c2|] eqn:E2; [|done]. simpl. intros E H.
  assert (clean c2 b) as H2 by (eapply clean_mod; [done|done|by eapply clean_mod]).
  destruct (head c2 =? NIL); simpl in E.
  - destruct (tail c2 =? NIL); injection E as <-; by eapply clean_slots.
  - destruct (mod_slot (head c2) _ c2) as [c3|] eqn:E3; [|done]. simpl in E.
    assert (clean c3 b) by (by eapply clean_mod). destruct (tail c3 =? NIL); injection E as <-; by eapply (clean_slots c3).
Qed.

Lemma clean_touch s c c' b : touch s c = Some c' → clean c b → clean c' b.
Proof.
  unfold touch. destruct (head c =? s); [by intros [= <-]|].
  destruct (unlink s c) as [c1|] eqn:E1; [|done]. intros E H. eapply clean_push_front; [done|]. by eapply clean_unlink.
Qed.

(** ** On the calls *)
Section clean_ops.
Context {D : Type} `{!BlockDev D}.
Context (shrinkers : option (list Memory.Shrinker)).
Notation St := (@St D).
Notation MS := (M St FsError).

Definition keeps {A} (b : Z) (m : MS A) : Prop :=
  ∀ st, clean (cache st) b → wp m (λ r st', r ≠ Panic → clean (cache st') b) st.

Lemma keeps_bind {A B} b (m : MS A) (k : A → MS B) : keeps b m → (∀ a, keeps b (k a)) → keeps b (mbind k m).
Proof.
  intros Hm Hk st H. apply wp_bind. eapply wp_mono; [by apply Hm|]. intros [a|e|] st' H'; [|intros _; by apply H'|done].
  by apply Hk, H'.
Qed.
Lemma keeps_pure {A} b (m : MS A) : (∀ st, cache (m st).2 = cache st) → keeps b m.
Proof. intros E st H. unfold wp. specialize (E st). destruct (m st) as [r st']. simpl in E. by rewrite E. Qed.
Lemma keeps_step b f : (∀ c c', f c = Some c' → clean c b → clean c' b) → keeps b (step f).
Proof. intros Hf st H. unfold wp, step. destruct (f (cache st)) eqn:E; [|done]. intros _. by eapply Hf. Qed.
Lemma keeps_slots b f : (∀ c, slots (f c) = slots c) → keeps b (step (λ c, Some (f c))).
Proof. intros Hf. apply keeps_step. intros c c' [= <-]. by apply clean_slots. Qed.

Lemma keeps_ret {A} b (a : A) : keeps b (mret a : MS A).
Proof. by apply keeps_pure. Qed.
Lemma keeps_gets {A} b (f : St → A) : keeps b (gets f).
Proof. by apply keeps_pure. Qed.
Lemma keeps_get_slot b s : keeps b (get_slot s).
Proof. apply keeps_pure. intros st. unfold get_slot, gets, mbind, M_bind. by destruct (slot (cache st) s). Qed.
Lemma keeps_bytes b s : keeps b (bytes s).
Proof. apply keeps_bind; [apply keeps_get_slot|intros; apply keeps_gets]. Qed.
Lemma keeps_copy_in b s v : keeps b (copy_in s v).
Proof. apply keeps_bind; [apply keeps_get_slot|intros; by apply keeps_pure]. Qed.
Lemma keeps_on_dev {A} b (m : M D BlkError A) : keeps b (on_dev m).
Proof. apply keeps_pure. intros st. unfold on_dev. by destruct (from_blk m (dev st)). Qed.
Lemma keeps_fresh_frame b : keeps b (fresh_frame shrinkers).
Proof.
  apply keeps_pure. intros st. unfold fresh_frame. destruct (high_watermark st); [|done].
  destruct (_ <? _); [|done]. by destruct (Memory.allocate_frame _ _) as [[]|].
Qed.
Lemma keeps_mod b s f : (∀ x, (s_block x = b → s_dirty x = false) → s_block (f x) = b → s_dirty (f x) = false) →
  keeps b (step (mod_slot s f)).
Proof. intros Hf. apply keeps_step. intros c c' E. by eapply clean_mod. Qed.

Lemma keeps_writeback b s : keeps b (writeback s).
Proof.
  apply keeps_bind; [apply keeps_get_slot|]. intros x. destruct (negb (s_dirty x)); [apply keeps_ret|].
  apply keeps_bind; [apply keeps_bytes|]. intros v. apply keeps_bind; [apply keeps_on_dev|]. intros _. by apply keeps_mod.
Qed.

Lemma keeps_evict b : keeps b evict.
Proof.
  apply keeps_bind; [apply keeps_gets|]. intros t. destruct (negb (t =? NIL)); [|by apply keeps_pure].
  apply keeps_bind; [apply keeps_writeback|]. intros _.
  apply keeps_bind; [apply keeps_step; intros; by eapply clean_unlink|]. intros _.
  apply keeps_bind; [apply keeps_get_slot|]. intros x.
  apply keeps_bind; [by apply keeps_slots|]. intros _. apply keeps_ret.
Qed.

Lemma keeps_new_slot b f : keeps b (new_slot f).
Proof.
  apply keeps_bind; [apply keeps_gets|]. intros [|s rest].
  - apply keeps_bind; [|intros; apply keeps_gets]. apply keeps_step. intros c c' [= <-] H s x. unfold slot, at_. simpl.
    destruct (0 <=? s) eqn:Es; [|done]. rewrite lookup_app. destruct (slots c !! Z.to_nat s) as [y|] eqn:E.
    + intros [= <-]. apply (H s). unfold slot, at_. by rewrite Es.
    + rewrite list_lookup_singleton. destruct (Z.to_nat s - _)%nat; [by intros [= <-]|done].
  - apply keeps_bind; [by apply keeps_slots|]. intros _.
    apply keeps_bind; [by apply keeps_mod|]. intros _. apply keeps_ret.
Qed.

Lemma keeps_take b b0 : keeps b (take shrinkers b0).
Proof.
  apply keeps_bind; [apply keeps_gets|]. intros il. apply keeps_bind.
  { destruct il as [|s rest].
    - apply keeps_bind; [apply keeps_fresh_frame|]. intros [f|]; [apply keeps_new_slot|apply keeps_evict].
    - apply keeps_bind; [by apply keeps_slots|]. intros _. apply keeps_ret. }
  intros s st H. apply wp_bind. unfold wp at 1, step at 1. destruct (mod_slot s (with_block b0) _) as [c1|] eqn:E1; [|done].
  apply wp_bind. unfold wp at 1, step at 1. simpl cache. destruct (mod_slot s (with_dirty false) c1) as [c2|] eqn:E2; [|done].
  pose proof (clean_assign _ _ _ _ _ b E1 E2 H) as H2. revert H2. change c2 with (cache (set_cache c2 (set_cache c1 st))) at 1.
  generalize (set_cache c2 (set_cache c1 st)). clear. intros st H. revert st H.
  apply keeps_bind; [by apply keeps_mod|]. intros _. apply keeps_bind; [by apply keeps_slots|]. intros _.
  apply keeps_bind; [apply keeps_step; intros; by eapply clean_push_front|]. intros _. apply keeps_ret.
Qed.

Lemma keeps_read b b0 : keeps b (cache_read shrinkers b0).
Proof.
  apply keeps_bind; [apply keeps_gets|]. intros [s|].
  - apply keeps_bind; [apply keeps_step; intros; by eapply clean_touch|]. intros _. apply keeps_bytes.
  - apply keeps_bind; [apply keeps_on_dev|]. intros v. apply keeps_bind; [apply keeps_take|]. intros s.
    apply keeps_bind; [apply keeps_copy_in|]. intros _. apply keeps_ret.
Qed.

Lemma keeps_read_checked check b b0 : keeps b (cache_read_checked shrinkers b0 check).
Proof.
  apply keeps_bind; [apply keeps_read|]. intros v. apply keeps_bind; [apply keeps_gets|]. intros o.
  apply keeps_bind.
  { destruct o; [|apply keeps_ret]. apply keeps_bind; [apply keeps_get_slot|]. intros; apply keeps_ret. }
  intros [|]; [apply keeps_ret|]. destruct (negb (check v)); [apply keeps_ret|].
  apply keeps_bind; [|intros; apply keeps_ret]. destruct o; [by apply keeps_mod|apply keeps_ret].
Qed.

Lemma keeps_invalidate b b0 : keeps b (cache_invalidate b0).
Proof.
  apply keeps_bind; [apply keeps_gets|]. intros [s|]; [|apply keeps_ret].
  apply keeps_bind; [by apply keeps_slots|]. intros _.
  apply keeps_bind; [apply keeps_step; intros; by eapply clean_unlink|]. intros _.
  apply keeps_bind; [by apply keeps_mod|]. intros _. by apply keeps_slots.
Qed.
End clean_ops.
