(* ===== verification/CacheSpec.v ===== *)
(** * The cache is transparent

    [view st b]: what a read of block [b] gives, the cached bytes or the
    device's.  The invariant: the slots in use, idle and spare partition the
    slots, the map finds exactly the slots in use, their frames are distinct
    frames of the allocator, a clean slot holds what the device holds, a checked
    one bytes that pass the check.  Every operation keeps it and reads and writes
    the view, whatever it evicts: the cache implements [BlockStoreOk]. *)

From S2P Require Import Prelude Bytes Format BlockStore BlockDev Bitmap BitmapSpec Memory MemorySpec Heap Cache CacheList.

Section cache_spec.
Context {D : Type} `{!BlockDev D} `{!BlockDevOk D}.
Context (check : list byte → bool).
Notation St := (@St D).
Implicit Types (st : St) (c : BlockCache) (h l : list Z).

(** A frame of RAM the allocator has handed out. *)
Definition owns (m : Memory.FrameAllocator) (a : Z) : Prop :=
  ∃ f, a = f * Memory.PAGE_SIZE ∧ tracks m f ∧ f < Memory.memory_top m ∧ used (Memory.bitmap m) f = true.

Definition slot_of st s : option Slot := slot (cache st) s.

(** [h]: slots taken off the list and not yet put back. *)
Record core st h l : Prop := {
  k_dll : dll (cache st) l;
  k_part : NoDup (h ++ l ++ idle (cache st) ++ spare (cache st));
  k_all s : s ∈ h ++ l ++ idle (cache st) ++ spare (cache st) ↔ is_Some (slot_of st s);
  k_count : zlen (slots (cache st)) < NIL;
  k_map b s : cmap (cache st) !! b = Some s ↔ s ∈ l ∧ ∃ x, slot_of st s = Some x ∧ s_block x = b;
  k_frame s x : s ∈ h ++ l ++ idle (cache st) → slot_of st s = Some x → owns (mem st) (s_frame x);
  k_inj s t x y : s ∈ h ++ l ++ idle (cache st) → t ∈ h ++ l ++ idle (cache st) →
    slot_of st s = Some x → slot_of st t = Some y → s_frame x = s_frame y → s = t;
  k_dirty s x : slot_of st s = Some x → s_dirty x = true → s ∈ h ++ l ∧ s ∈ dirty (cache st);
  k_listed : Forall (λ s, is_Some (slot_of st s)) (dirty (cache st));
  k_pages : map_Forall (λ _ v, is_block v) (pages st);
  k_mem : MemorySpec.inv (mem st);
  k_top : 8 * zlen (Memory.bitmap (mem st)) ≤ 2 ^ 31;
  k_usable : fits 64 (usable st);
  k_dev : dev_inv (dev st);
}.

Definition content st (x : Slot) : Prop :=
  (s_dirty x = false → page st (s_frame x) = dview (dev st) (s_block x)) ∧
  (s_checked x = true → check (page st (s_frame x)) = true).
Definition contents st l : Prop := ∀ s x, s ∈ l → slot_of st s = Some x → content st x.

Definition cache_inv st : Prop := ∃ l, core st [] l ∧ contents st l.

Definition cache_view st (b : Z) : block :=
  match cmap (cache st) !! b with
  | Some s => match slot_of st s with Some x => page st (s_frame x) | None => zero_block end
  | None => dview (dev st) b
  end.

(** A slot can be had: one is idle or can be evicted, or memory is plentiful. *)
Definition roomy st : Prop :=
  cmap (cache st) ≠ ∅ ∨ idle (cache st) ≠ [] ∨
  ∃ w, high_watermark st = Some w ∧ w < Memory.free_count (mem st).
Definition cache_healthy st : Prop := dev_ok (dev st) ∧ roomy st.

(** ** Rules *)
Lemma wp_gets {A} (f : St → A) (Q : res FsError A → St → Prop) st : Q (Ok (f st)) st → wp (gets f) Q st.
Proof. done. Qed.
Lemma wp_step f c (Q : res FsError unit → St → Prop) st :
  f (cache st) = Some c → Q (Ok tt) (set_cache c st) → wp (step f) Q st.
Proof. intros E HQ. unfold wp, step. by rewrite E. Qed.
Lemma wp_get_slot s x (Q : res FsError Slot → St → Prop) st :
  slot_of st s = Some x → Q (Ok x) st → wp (get_slot s) Q st.
Proof. intros E HQ. unfold wp, get_slot, gets, mbind, M_bind. unfold slot_of in E. by rewrite E. Qed.
Lemma wp_bytes s x (Q : res FsError block → St → Prop) st :
  slot_of st s = Some x → Q (Ok (page st (s_frame x))) st → wp (bytes s) Q st.
Proof. intros E HQ. apply wp_bind. by eapply wp_get_slot. Qed.
Lemma wp_copy_in s x buf (Q : res FsError unit → St → Prop) st :
  slot_of st s = Some x → Q (Ok tt) (set_page (s_frame x) buf st) → wp (copy_in s buf) Q st.
Proof. intros E HQ. apply wp_bind. by eapply wp_get_slot. Qed.

Lemma wp_on_dev {A} (m : M D BlkError A) (Q : res FsError A → St → Prop) st :
  wp m (λ r d, match r with
               | Ok a => Q (Ok a) (set_dev d st)
               | Err e => Q (Err (Disk e)) (set_dev d st)
               | Panic => Q Panic (set_dev d st)
               end) (dev st) → wp (on_dev m) Q st.
Proof. unfold wp, on_dev, from_blk. destruct (m (dev st)) as [[a|e|] d]; auto. Qed.

Lemma page_set f v st g : page (set_page f v st) g = if decide (g = f) then v else page st g.
Proof.
  unfold page. simpl. case_decide as E; [subst; by rewrite lookup_insert_eq|by rewrite lookup_insert_ne].
Qed.

Lemma page_block st h l g : core st h l → is_block (page st g).
Proof.
  intros K. unfold page. destruct (pages st !! g) eqn:E; simpl; [by apply (k_pages _ _ _ K g)|apply zero_block_is_block].
Qed.

Lemma core_slot st h l s : core st h l → s ∈ h ++ l ++ idle (cache st) → ∃ x, slot_of st s = Some x.
Proof. intros K Hs. apply (k_all _ _ _ K). set_solver. Qed.

(** ** Changes that keep the core *)

(** Links, the map, and which slots are on the list. *)
Lemma core_move st h l m' c' h' l' : core st h l → relinked (set_cmap m' (cache st)) c' → dll c' l' →
  h' ++ l' ≡ₚ h ++ l →
  (∀ b s, m' !! b = Some s ↔ s ∈ l' ∧ ∃ x, slot_of st s = Some x ∧ s_block x = b) →
  core (set_cache c' st) h' l'.
Proof.
  intros K R L Hp Hm. destruct K. unfold slot_of in *.
  assert (∀ s y, slot c' s = Some y → ∃ x, slot (cache st) s = Some x ∧ alike x y) as Hb
    by (intros; by eapply (relinked_slot_back (set_cmap m' (cache st)))).
  assert (∀ s x, slot (cache st) s = Some x → ∃ y, slot c' s = Some y ∧ alike x y) as Hf
    by (intros; by eapply (relinked_slot (set_cmap m' (cache st)))).
  assert (∀ k, h' ++ l' ++ k ≡ₚ h ++ l ++ k) as Hpk by (intros; by rewrite !app_assoc, Hp).
  split; unfold slot_of; simpl; rewrite ?(r_idle _ _ R), ?(r_spare _ _ R), ?(r_map _ _ R), ?(r_dirty _ _ R); simpl; try done.
  - by rewrite Hpk.
  - intros s. rewrite Hpk, k_all0. split; intros [x Hx]; [destruct (Hf _ _ Hx) as (? & ? & _)|destruct (Hb _ _ Hx) as (? & ? & _)]; eauto.
  - unfold zlen. rewrite (r_len _ _ R). done.
  - intros b s. rewrite Hm. split; intros (Hin & x & Hx & Hxb); (split; [done|]).
    + destruct (Hf _ _ Hx) as (y & ? & (? & _)). exists y. split; congruence.
    + destruct (Hb _ _ Hx) as (y & ? & (? & _)). exists y. split; congruence.
  - intros s x Hs Hx. rewrite Hpk in Hs. destruct (Hb _ _ Hx) as (y & Hy & (_ & -> & _)). by eapply k_frame0.
  - intros s t x y Hs Ht Hx Hy E. rewrite Hpk in Hs, Ht. destruct (Hb _ _ Hx) as (x0 & Hx0 & (_ & Ex & _)).
    destruct (Hb _ _ Hy) as (y0 & Hy0 & (_ & Ey & _)). eapply k_inj0; eauto. congruence.
  - intros s x Hx Hd. destruct (Hb _ _ Hx) as (y & Hy & (_ & _ & Ed & _)). rewrite Hp. eapply k_dirty0; [done|congruence].
  - eapply Forall_impl; [done|]. intros s [x Hx]. destruct (Hf _ _ Hx) as (y & Hy & _). eauto.
Qed.

(** Links only, and the order of use. *)
Lemma set_cmap_id c : set_cmap (cmap c) c = c.
Proof. by destruct c. Qed.
Lemma core_relink st h l c' l' : core st h l → relinked (cache st) c' → dll c' l' → l' ≡ₚ l →
  core (set_cache c' st) h l'.
Proof.
  intros K R L Hp. apply (core_move st h l (cmap (cache st))); try done.
  - by rewrite set_cmap_id.
  - by rewrite Hp.
  - intros b s. rewrite Hp. apply (k_map _ _ _ K).
Qed.

Lemma contents_relink st l c' l' : contents st l → relinked (cache st) c' → l' ≡ₚ l → contents (set_cache c' st) l'.
Proof.
  intros Hc R Hp s y Hs Hy. destruct (relinked_slot_back _ _ _ _ R Hy) as (x & Hx & (E1 & E2 & E3 & E4)).
  rewrite Hp in Hs. specialize (Hc s x Hs Hx). unfold content in *. rewrite E1, E2, E3, E4. exact Hc.
Qed.

Lemma view_relink st c' : relinked (cache st) c' → same (cache_view st) (cache_view (set_cache c' st)).
Proof.
  intros R b. unfold cache_view. simpl. rewrite (r_map _ _ R). destruct (cmap (cache st) !! b) as [s|]; [|done].
  unfold slot_of. simpl. pose proof (r_slot _ _ R s) as H. destruct (slot (cache st) s), (slot c' s); try done.
  by destruct H as (_ & -> & _).
Qed.

(** The device's contents replaced by the same. *)
Lemma core_dev st h l d : core st h l → dev_inv d → core (set_dev d st) h l.
Proof. intros [] ?. by split. Qed.

Lemma contents_dev st l d : contents st l → (∀ s x, s ∈ l → slot_of st s = Some x → s_dirty x = false →
  dview d (s_block x) = dview (dev st) (s_block x)) → contents (set_dev d st) l.
Proof.
  intros Hc Hd s x Hs Hx. destruct (Hc s x Hs Hx) as [H1 H2]. split; [|done].
  intros Hcl. simpl. rewrite (Hd s x) by done. by apply H1.
Qed.

(** One slot's fields, its links and frame kept. *)
Definition upd s y st : St := set_cache (set_slots (<[Z.to_nat s := y]> (slots (cache st))) (cache st)) st.

Lemma slot_upd st s x y t : slot_of st s = Some x → slot_of (upd s y st) t = if decide (t = s) then Some y else slot_of st t.
Proof. intros Hx. unfold slot_of, upd. simpl. by apply (slot_insert _ s x). Qed.

Lemma wp_mod s x f (Q : res FsError unit → St → Prop) st :
  slot_of st s = Some x → Q (Ok tt) (upd s (f x) st) → wp (step (mod_slot s f)) Q st.
Proof. intros Hx HQ. eapply wp_step; [by apply mod_slot_Some|exact HQ]. Qed.

Lemma dll_upd c l s x y : dll c l → slot c s = Some x → s_prev y = s_prev x → s_next y = s_next x →
  dll (set_slots (<[Z.to_nat s := y]> (slots c)) c) l.
Proof.
  intros L Hx Hp Hn. destruct L. split; try done. intros i t Hi. destruct (d_node i t Hi) as (z & Hz & H1 & H2).
  rewrite (slot_insert c s x) by done. case_decide as E; [|by eauto]. subst. rewrite Hz in Hx. injection Hx as ->.
  exists y. split_and!; [done|congruence|congruence].
Qed.

Lemma core_upd st h l s x y : core st h l → slot_of st s = Some x → s_frame y = s_frame x →
  s_prev y = s_prev x → s_next y = s_next x → (s ∈ l → s_block y = s_block x) →
  (s_dirty y = true → s ∈ h ++ l ∧ s ∈ dirty (cache st)) → core (upd s y st) h l.
Proof.
  intros K Hx Ef Ep En Eb Ed. pose proof (λ t, slot_upd st s x y t Hx) as HU.
  assert (∀ t z, slot_of (upd s y st) t = Some z → ∃ z', slot_of st t = Some z' ∧ s_frame z = s_frame z' ∧
    (t ∈ l → s_block z = s_block z') ∧ (t ≠ s → z = z') ∧ (t = s → z = y)) as Hb.
  { intros t z. rewrite HU. case_decide as E; [subst|].
    - intros [= <-]. exists x. by split_and!.
    - intros Hz. exists z. by split_and!. }
  destruct K. split; simpl; try done.
  - eapply dll_upd; eauto.
  - intros t. rewrite HU, k_all0. case_decide; [subst|done]. split; [by eexists|by rewrite Hx].
  - unfold zlen. rewrite length_insert. done.
  - intros b t. rewrite k_map0. split; intros (Hin & z & Hz & Hzb); (split; [done|]).
    + rewrite HU. case_decide as E; [|by eauto]. subst. exists y. split; [done|]. rewrite Eb by done. congruence.
    + destruct (Hb t z Hz) as (z' & Hz' & _ & Hbl & _). exists z'. split; [done|]. by rewrite <- Hbl.
  - intros t z Ht Hz. destruct (Hb t z Hz) as (z' & Hz' & -> & _). by eapply k_frame0.
  - intros t u z w Ht Hu Hz Hw E. destruct (Hb t z Hz) as (z' & Hz' & Ez & _), (Hb u w Hw) as (w' & Hw' & Ew & _).
    eapply k_inj0; eauto. congruence.
  - intros t z Hz Hd. destruct (decide (t = s)) as [->|Hne].
    + destruct (Hb s z Hz) as (_ & _ & _ & _ & _ & Hy). rewrite Hy in Hd by done. by apply Ed.
    + destruct (Hb t z Hz) as (z' & Hz' & _ & _ & Heq & _). rewrite Heq in Hd by done. by eapply k_dirty0.
  - eapply Forall_impl; [done|]. intros t [z Hz]. rewrite HU. case_decide; eauto.
Qed.

(** A slot off the list changes no content and no view. *)
Lemma contents_upd st l s x y : contents st l → slot_of st s = Some x → s ∉ l → contents (upd s y st) l.
Proof.
  intros Hc Hx Hs t z Ht. rewrite (slot_upd st s x) by done. rewrite decide_False by (intros ->; done). by apply Hc.
Qed.

Lemma view_upd st h l s x y : core st h l → slot_of st s = Some x → s_frame y = s_frame x →
  same (cache_view st) (cache_view (upd s y st)).
Proof.
  intros K Hx Ef b. unfold cache_view. change (cmap (cache (upd s y st))) with (cmap (cache st)).
  destruct (cmap (cache st) !! b) as [t|]; [|done]. rewrite (slot_upd st s x) by done. case_decide; [|done].
  subst. rewrite Hx. by rewrite Ef.
Qed.

(** ** Slots off the list *)
Lemma dll_same c c' l : dll c l → slots c' = slots c → head c' = head c → tail c' = tail c → dll c' l.
Proof. intros [] Es Eh Et. split; unfold slot in *; rewrite ?Es, ?Eh, ?Et; done. Qed.

Lemma core_idle st h l h' il : core st h l → h' ++ l ++ il ≡ₚ h ++ l ++ idle (cache st) →
  (∀ s x, slot_of st s = Some x → s_dirty x = true → s ∈ h ++ l → s ∈ h' ++ l) →
  core (set_cache (set_idle il (cache st)) st) h' l.
Proof.
  intros K Hp Hd. destruct K.
  assert (∀ k, h' ++ l ++ il ++ k ≡ₚ h ++ l ++ idle (cache st) ++ k) as Hpk.
  { intros k. rewrite !app_assoc, <- (app_assoc h'), Hp. by rewrite <- !app_assoc. }
  split; simpl; try done.
  - by eapply dll_same.
  - by rewrite Hpk.
  - intros s. rewrite Hpk. apply k_all0.
  - intros s x. rewrite Hp. apply k_frame0.
  - intros s t x y. rewrite Hp. apply k_inj0.
  - intros s x Hx Hdx. destruct (k_dirty0 s x Hx Hdx). split; [|done]. by eapply Hd.
Qed.

Lemma owns_mark v lo hi m m' a : marked v lo hi m m' → (v = true ∨ ∀ f, a = f * Memory.PAGE_SIZE → ¬ lo ≤ f < hi) →
  Memory.memory_top m' = Memory.memory_top m → owns m a → owns m' a.
Proof.
  intros K Hv Et (f & -> & Ht & Hf & Hu). exists f. split_and!; [done|by apply (tracks_marked _ _ _ _ _ _ K)|by rewrite Et|].
  rewrite (k_bits _ _ _ _ _ K) by apply Ht. case_decide; [|done]. destruct Hv as [->|Hn]; [done|]. by destruct (Hn f).
Qed.

(** A frame was handed out that no slot holds. *)
Definition granted st m' a : Prop :=
  MemorySpec.inv m' ∧ Memory.memory_top m' = Memory.memory_top (mem st) ∧
  ∃ f, a = f * Memory.PAGE_SIZE ∧ tracks (mem st) f ∧ f < Memory.memory_top (mem st) ∧
    used (Memory.bitmap (mem st)) f = false ∧ marked true f (f + 1) (mem st) m'.

Lemma granted_new st h l m' a s x : core st h l → granted st m' a → s ∈ h ++ l ++ idle (cache st) →
  slot_of st s = Some x → s_frame x ≠ a.
Proof.
  intros K (_ & _ & f & -> & _ & _ & Hu & _) Hs Hx E. destruct (k_frame _ _ _ K s x Hs Hx) as (g & Hg & _ & _ & Hug).
  rewrite E in Hg. unfold Memory.PAGE_SIZE in Hg. assert (f = g) as -> by lia. congruence.
Qed.

Lemma granted_owns st m' a : granted st m' a → owns m' a.
Proof.
  intros (_ & Et & f & -> & Ht & Hf & _ & K). exists f. split_and!; [done|by apply (tracks_marked _ _ _ _ _ _ K)|by rewrite Et|].
  rewrite (k_bits _ _ _ _ _ K) by apply Ht. by rewrite decide_True by lia.
Qed.

(** The cache after a frame was given to a slot that had none. *)
Lemma core_grant st l s x c' m' a : core st [] l → granted st m' a → s ∉ l ++ idle (cache st) →
  idle c' = idle (cache st) → cmap c' = cmap (cache st) → dirty c' = dirty (cache st) →
  (∀ t, slot c' t = if decide (t = s) then Some x else slot_of st t) →
  s_frame x = a → s_dirty x = false → dll c' l → NoDup ([s] ++ l ++ idle c' ++ spare c') →
  (∀ t, t ∈ [s] ++ l ++ idle c' ++ spare c' ↔ is_Some (slot c' t)) → zlen (slots c') < NIL →
  core (set_cache c' (set_mem m' st)) [s] l.
Proof.
  intros K Gr Hs Ei Em Ed HS Hf Hcl L Hn Hall Hlen. pose proof K as [].
  pose proof Gr as (Hm' & Et & f & _ & _ & _ & _ & Km).
  assert (∀ t y, t ∈ l ++ idle (cache st) → slot c' t = Some y → slot_of st t = Some y) as Hold.
  { intros t y Ht. rewrite HS. rewrite decide_False; [done|]. intros ->. done. }
  split; unfold slot_of in *; simpl in *; rewrite ?Ei, ?Em, ?Ed in *; try done.
  - intros b t. rewrite k_map0. split; intros (Hin & z & Hz & Hzb); (split; [done|]); exists z; (split; [|done]).
    + rewrite HS. rewrite decide_False; [done|]. intros ->. set_solver.
    + apply Hold; [set_solver|done].
  - intros t y Ht Hy. apply elem_of_cons in Ht as [->|Ht].
    + rewrite HS, decide_True in Hy by done. injection Hy as <-. rewrite Hf. by eapply granted_owns.
    + eapply owns_mark; [exact Km|by left|exact Et|]. eapply k_frame0; [done|by apply Hold].
  - intros t u y z Ht Hu Hy Hz E. apply elem_of_cons in Ht as [->|Ht], Hu as [->|Hu]; try done.
    + rewrite HS, decide_True in Hy by done. injection Hy as <-. exfalso. apply Hold in Hz; [|done].
      eapply (granted_new st [] l m' a u z); [done|done|done|done|congruence].
    + rewrite HS, decide_True in Hz by done. injection Hz as <-. exfalso. apply Hold in Hy; [|done].
      eapply (granted_new st [] l m' a t y); [done|done|done|done|congruence].
    + eapply k_inj0; [exact Ht|exact Hu|by apply Hold|by apply Hold|done].
  - intros t y Hy Hd. rewrite HS in Hy. destruct (decide (t = s)) as [->|Hne].
    + injection Hy as <-. congruence.
    + destruct (k_dirty0 t y Hy Hd). split; [by right|done].
  - eapply Forall_impl; [done|]. intros t [z Hz]. rewrite HS. case_decide; eauto.
  - unfold zlen in *. by rewrite (k_len _ _ _ _ _ Km).
Qed.

(** Slots on the list, the map, the pages and the device as before. *)
Lemma kept st h l c' m' : core st h l → contents st l → cmap c' = cmap (cache st) →
  (∀ t, t ∈ l → slot c' t = slot_of st t) →
  contents (set_cache c' (set_mem m' st)) l ∧ same (cache_view st) (cache_view (set_cache c' (set_mem m' st))).
Proof.
  intros K Hc Em HS. split.
  - intros s x Hs Hx. unfold slot_of in Hx. simpl in Hx. rewrite HS in Hx by done. exact (Hc s x Hs Hx).
  - intros b. unfold cache_view, slot_of. simpl. rewrite Em. destruct (cmap (cache st) !! b) as [s|] eqn:E; [|done].
    apply (k_map _ _ _ K) in E as [Hs _]. by rewrite (HS s Hs).
Qed.

Context (shrinkers : option (list Memory.Shrinker)).

Lemma high_watermark_Some st h l : core st h l → ∃ w, high_watermark st = Some w ∧ 0 ≤ w.
Proof.
  intros K. unfold high_watermark. unfold min_free_frames.
  assert (fits 64 (u64 (usable st / 1024 * 16))) as Hf by (by apply wrap_fits).
  rewrite isqrt_spec by done. cbn [mbind option_bind]. eexists. split; [done|].
  set (z := clamp _ _ _). assert (0 ≤ z) by (unfold z, clamp; repeat case_match; lia).
  assert (0 ≤ z / 4) by (apply Z.div_pos; lia). assert (0 ≤ z / 4 / 2) by (apply Z.div_pos; lia). lia.
Qed.

Lemma fresh_frame_spec st h l : core st h l →
  wp (fresh_frame shrinkers) (λ r st', match r with
    | Ok (Some a) => ∃ m', st' = set_mem m' st ∧ granted st m' a
    | Ok None => st' = st ∧ ¬ ∃ w, high_watermark st = Some w ∧ w < Memory.free_count (mem st)
    | _ => False
    end) st.
Proof.
  intros K. unfold wp, fresh_frame. destruct (high_watermark_Some st h l K) as (w & -> & Hw).
  unfold Memory.stats. simpl fst. destruct (Z.ltb_spec w (Memory.free_count (mem st))) as [Hlt|Hge].
  2:{ split; [done|]. intros (w' & [= <-] & ?). lia. }
  unfold Memory.allocate_frame, Memory.with_reclaim.
  destruct (allocate_spec (mem st) (k_mem _ _ _ K)) as (r & m1 & -> & I1 & T1 & A). cbn [mbind option_bind].
  destruct r as [a|].
  - exists m1. split; [done|]. split; [done|]. split; [done|]. destruct A as (f & -> & Hf & Hu & _ & Km). exists f.
    split_and!; try done; try lia. pose proof (m_top _ (proj1 (k_mem _ _ _ K))). unfold tracks. lia.
  - exfalso. destruct A as [A _]. pose proof (m_count _ (proj1 (k_mem _ _ _ K))) as Hc.
    rewrite nfree_none in Hc; [lia|]. intros x Hx. apply A. unfold tracks, zlen. lia.
Qed.

(** Distinct frames: no more slots hold one than the bitmap has bits. *)
Lemma frame_numbers st h l k : core st h l → NoDup k → (∀ s, s ∈ k → s ∈ h ++ l ++ idle (cache st)) →
  ∃ fs, length fs = length k ∧ NoDup fs ∧ ∀ f, f ∈ fs → tracks (mem st) f ∧
    ∃ s x, s ∈ k ∧ slot_of st s = Some x ∧ s_frame x = f * Memory.PAGE_SIZE.
Proof.
  intros K. induction 1 as [|s k Hs Hn IH]; intros Hk.
  { exists []. split_and!; [done|constructor|set_solver]. }
  destruct IH as (fs & El & Hnf & Hfs); [set_solver|].
  assert (s ∈ h ++ l ++ idle (cache st)) as Hin by set_solver.
  destruct (core_slot _ _ _ _ K Hin) as [x Hx]. destruct (k_frame _ _ _ K s x Hin Hx) as (f & Ef & Ht & _).
  exists (f :: fs). split_and!; [simpl; lia| |].
  - constructor; [|done]. intros Hf. destruct (Hfs f Hf) as (_ & t & y & Htk & Hy & Ey).
    assert (s = t) as ->; [|done].
    eapply (k_inj _ _ _ K s t x y); [done|apply Hk; by right|done|done|congruence].
  - intros g [->|Hg]%elem_of_cons; [split; [done|]; exists s, x; set_solver|].
    destruct (Hfs g Hg) as (? & t & y & ? & ? & ?). split; [done|]. exists t, y. set_solver.
Qed.

Lemma slots_bound st l : core st [] l → idle (cache st) = [] → spare (cache st) = [] →
  zlen (slots (cache st)) ≤ 2 ^ 31.
Proof.
  intros K Ei Es. pose proof (k_part _ _ _ K) as Hn. rewrite Ei, Es in Hn. simpl in Hn. rewrite app_nil_r in Hn.
  destruct (frame_numbers st [] l l K Hn) as (fs & El & Hnf & Hfs); [set_solver|].
  assert (fs ⊆+ seqZ 0 (8 * zlen (Memory.bitmap (mem st)))) as H1%submseteq_length.
  { apply NoDup_submseteq; [done|]. intros f Hf. apply elem_of_seqZ. destruct (Hfs f Hf) as [[? ?] _]. lia. }
  assert (seqZ 0 (zlen (slots (cache st))) ⊆+ l) as H2%submseteq_length.
  { apply NoDup_submseteq; [apply NoDup_seqZ|]. intros s Hs%elem_of_seqZ.
    assert (is_Some (slot_of st s)) as Hss by (unfold slot_of, slot; destruct (at_Some (slots (cache st)) s) as [x ->]; [lia|by eexists]).
    apply (k_all _ _ _ K) in Hss. rewrite Ei, Es in Hss. simpl in Hss. by rewrite app_nil_r in Hss. }
  rewrite length_seqZ in H1, H2. pose proof (k_top _ _ _ K). pose proof (zlen_nonneg (slots (cache st))). lia.
Qed.

(** What a slot acquired for another block comes with. *)
Definition acquired st s st' : Prop :=
  (∃ l', core st' [s] l' ∧ contents st' l') ∧ same (cache_view st) (cache_view st') ∧
  (∀ b, cmap (cache st) !! b = None → cmap (cache st') !! b = None) ∧ (dev_ok (dev st) → dev_ok (dev st')).

Lemma new_slot_spec st l m' a : core st [] l → contents st l → idle (cache st) = [] → granted st m' a →
  wp (new_slot a) (λ r st', ∃ s, r = Ok s ∧ acquired st s st') (set_mem m' st).
Proof.
  intros K Hc Ei Gr. unfold new_slot. apply wp_bind, wp_gets. simpl.
  destruct (spare (cache st)) as [|s rest] eqn:Es.
  - pose proof (slots_bound st l K Ei Es) as Hb. apply wp_bind. eapply wp_step; [done|]. apply wp_gets. simpl.
    set (c' := set_slots _ (cache st)). set (n := zlen (slots (cache st))) in *.
    pose proof (zlen_nonneg (slots (cache st))) as Hn0. fold n in Hn0.
    assert (u32 (zlen (slots (cache st) ++ [mkSlot 0 a false false NIL NIL]) - 1) = n) as ->.
    { rewrite zlen_app. change (zlen [_]) with 1. fold n. rewrite Z.add_simpl_r. apply wrap_small. unfold fits. lia. }
    assert (∀ t, slot c' t = if decide (t = n) then Some (mkSlot 0 a false false NIL NIL) else slot_of st t) as HS.
    { intros t. unfold slot_of, slot, at_, c'. simpl. unfold n, zlen in *. destruct (Z.leb_spec 0 t).
      - destruct (decide (t = Z.of_nat (length (slots (cache st))))) as [->|Hne].
        + rewrite Nat2Z.id. by apply list_lookup_middle.
        + destruct (decide (t < Z.of_nat (length (slots (cache st))))); [by rewrite lookup_app_l by lia|].
          rewrite !lookup_ge_None_2; [done|lia|rewrite length_app; simpl; lia].
      - by rewrite decide_False by lia. }
    assert (slot_of st n = None) as Hnone.
    { unfold slot_of, slot, at_. destruct (0 <=? n); [|done]. apply lookup_ge_None. unfold n, zlen. lia. }
    assert (n ∉ l ++ idle (cache st) ++ spare (cache st)) as Hnin.
    { intros Hin. apply (k_all _ _ _ K) in Hin. rewrite Hnone in Hin. by destruct Hin. }
    exists n. split; [done|]. destruct (kept st [] l c' m' K Hc) as [Kc Kv]; [done| |].
    { intros t Ht. rewrite HS, decide_False; [done|]. intros ->. apply Hnin. set_solver. }
    split_and!; try done. exists l. split; [|done]. eapply core_grant; try done.
    + set_solver.
    + pose proof (k_dll _ _ _ K) as []. split; try done. intros i t Hi. destruct (d_node i t Hi) as (z & Hz & H1).
      exists z. rewrite HS, decide_False; [done|]. intros ->. unfold slot_of in Hnone. congruence.
    + simpl. constructor; [done|]. apply (k_part _ _ _ K).
    + intros t. simpl. rewrite elem_of_cons, HS. pose proof (k_all _ _ _ K t) as Ha. simpl in Ha. rewrite Ha.
      case_decide; [subst; naive_solver|]. naive_solver.
    + simpl. rewrite zlen_app. change (zlen [_]) with 1. unfold NIL. fold n. lia.
  - assert (s ∈ l ++ idle (cache st) ++ spare (cache st)) as Hin by (rewrite Es; set_solver).
    pose proof (proj1 (k_all _ _ _ K s) Hin) as [x Hx].
    pose proof (k_part _ _ _ K) as Hnd. simpl in Hnd. rewrite Es in Hnd.
    assert (s ∉ l ++ idle (cache st)) as Hsl.
    { rewrite app_assoc in Hnd. apply NoDup_app in Hnd as (_ & Hd & _). intros Hin'. apply (Hd s Hin'). set_solver. }
    apply wp_bind. eapply wp_step; [done|]. apply wp_bind. simpl.
    eapply (wp_mod s x); [exact Hx|]. apply wp_ret. exists s. split; [done|].
    set (st1 := set_cache (set_spare rest (cache st)) (set_mem m' st)).
    change (acquired st s (set_cache (cache (upd s (with_frame a x) st1)) (set_mem m' st))).
    set (c' := cache (upd s (with_frame a x) st1)).
    assert (∀ t, slot c' t = if decide (t = s) then Some (with_frame a x) else slot_of st t) as HS.
    { intros t. exact (slot_upd st1 s x (with_frame a x) t Hx). }
    destruct (kept st [] l c' m' K Hc) as [Kc Kv]; [done| |].
    { intros t Ht. rewrite HS, decide_False; [done|]. intros ->. set_solver. }
    split_and!; try done. exists l. split; [|done]. eapply (core_grant st l s (with_frame a x)); try done.
    + simpl. destruct (s_dirty x) eqn:Ed; [|done]. destruct (k_dirty _ _ _ K s x Hx Ed) as [Hd _]. set_solver.
    + eapply (dll_upd (cache st1)); [by eapply dll_same; [apply (k_dll _ _ _ K)|..]|exact Hx|done|done].
    + change (NoDup (s :: l ++ idle (cache st) ++ rest)).
      assert (s :: l ++ idle (cache st) ++ rest ≡ₚ l ++ idle (cache st) ++ s :: rest) as -> by solve_Permutation. done.
    + intros t. change (t ∈ s :: l ++ idle (cache st) ++ rest ↔ is_Some (slot c' t)).
      rewrite HS. pose proof (k_all _ _ _ K t) as Ha. simpl in Ha. rewrite Es in Ha. rewrite elem_of_cons. case_decide; [subst; naive_solver|]. rewrite <- Ha. set_solver.
    + unfold c'. simpl. unfold zlen. rewrite length_insert. apply (k_count _ _ _ K).
Qed.

(** ** Eviction *)
Lemma same_block st h l s t x y : core st h l → s ∈ l → t ∈ l → slot_of st s = Some x → slot_of st t = Some y →
  s_block x = s_block y → s = t.
Proof.
  intros K Hs Ht Hx Hy E.
  assert (cmap (cache st) !! s_block x = Some s) as H1 by (apply (k_map _ _ _ K); eauto).
  assert (cmap (cache st) !! s_block y = Some t) as H2 by (apply (k_map _ _ _ K); eauto). congruence.
Qed.

(** The device block of a cached, dirty slot may hold anything. *)
Lemma dev_behind st h l s x d : core st h l → contents st l → s ∈ l → slot_of st s = Some x → s_dirty x = true →
  dev_inv d → (∀ b, b ≠ s_block x → dview d b = dview (dev st) b) →
  core (set_dev d st) h l ∧ contents (set_dev d st) l ∧ same (cache_view st) (cache_view (set_dev d st)).
Proof.
  intros K Hc Hs Hx Hd Hi Ho. split_and!; [by apply core_dev| |].
  - apply contents_dev; [done|]. intros t y Ht Hy Hcl. apply Ho. intros E.
    assert (t = s) as -> by (by eapply (same_block st h l t s y x)). congruence.
  - intros b. unfold cache_view, slot_of. simpl. destruct (cmap (cache st) !! b) eqn:Eb; [done|]. apply Ho.
    intros ->. assert (cmap (cache st) !! s_block x = Some s) by (apply (k_map _ _ _ K); eauto). congruence.
Qed.

Lemma writeback_spec st h l s x : core st h l → contents st l → s ∈ l → slot_of st s = Some x →
  wp (writeback s) (λ r st', core st' h l ∧ contents st' l ∧ same (cache_view st) (cache_view st') ∧
    cmap (cache st') = cmap (cache st) ∧ (dev_ok (dev st) → dev_ok (dev st')) ∧
    match r with
    | Ok _ => slot_of st' s = Some (with_dirty false x)
    | Err _ => ¬ dev_ok (dev st)
    | Panic => False
    end) st.
Proof.
  intros K Hc Hs Hx. unfold writeback. apply wp_bind. eapply wp_get_slot; [exact Hx|].
  destruct (s_dirty x) eqn:Ed; simpl negb; cbn iota.
  2:{ apply wp_ret. split_and!; try done. destruct x; simpl in *; by subst. }
  apply wp_bind. eapply wp_bytes; [exact Hx|]. apply wp_bind, wp_on_dev.
  eapply wp_mono; [apply write_block_spec; [apply (k_dev _ _ _ K)|by eapply page_block]|].
  intros r d (Hi & Hok & Hoth & Hr). destruct (dev_behind st h l s x d K Hc Hs Hx Ed Hi Hoth) as (K1 & Hc1 & V1).
  destruct r as [[]|e|]; simpl in Hr; [|by split_and!|done].
  eapply (wp_mod s x); [exact Hx|]. set (st1 := set_dev d st) in *.
  assert (slot_of st1 s = Some x) as Hx1 by exact Hx. pose proof (λ t, slot_upd st1 s x (with_dirty false x) t Hx1) as HU.
  split_and!; try done.
  - by eapply core_upd.
  - intros t y Ht. rewrite HU. case_decide as E; [|by apply Hc1]. intros [= <-]. subst.
    destruct (Hc s x Hs Hx) as [_ H2]. split; [|exact H2]. intros _. simpl. symmetry. exact Hr.
  - etrans; [exact V1|]. by eapply view_upd.
  - by rewrite HU, decide_True.
Qed.

Lemma perm_cons (l k : list Z) s : l ≡ₚ s :: k → NoDup l → s ∉ k ∧ ∀ t, t ∈ l ↔ t = s ∨ t ∈ k.
Proof.
  intros Hp Hn. rewrite Hp in Hn. apply NoDup_cons in Hn as [Hs _]. split; [done|]. intros t. rewrite Hp. apply elem_of_cons.
Qed.

(** Taking the slot [s], now clean, off the list and out of the map. *)
Lemma detach st l i s x c' : core st [] l → contents st l → l !! i = Some s → slot_of st s = Some x →
  relinked (set_cmap (base.delete (s_block x) (cmap (cache st))) (cache st)) c' → dll c' (base.delete i l) →
  let st' := set_cache c' st in
  core st' [s] (base.delete i l) ∧ contents st' (base.delete i l) ∧
  (s_dirty x = false → same (cache_view st) (cache_view st')) ∧
  (∀ b, b ≠ s_block x → cache_view st' b = cache_view st b).
Proof.
  intros K Hc Hi Hx R L st'. pose proof (list_elem_of_lookup_2 _ _ _ Hi) as Hs.
  assert (l ≡ₚ s :: base.delete i l) as Hp by (by apply delete_Permutation).
  set (st0 := set_cache (set_cmap (base.delete (s_block x) (cmap (cache st))) (cache st)) st).
  destruct (perm_cons _ _ _ Hp (d_nodup _ _ (k_dll _ _ _ K))) as [Hns Hel].
  assert (∀ b t, base.delete (s_block x) (cmap (cache st)) !! b = Some t ↔
    t ∈ base.delete i l ∧ ∃ y, slot_of st t = Some y ∧ s_block y = b) as Hm.
  { intros b t. rewrite lookup_delete_Some, (k_map _ _ _ K), Hel. split.
    - intros (Hne & [->|Ht] & y & Hy & Hyb); [congruence|eauto].
    - intros (Ht & y & Hy & Hyb). split; [|eauto]. intros E.
      apply Hns. assert (s = t) as ->; [|done]. eapply (same_block st [] l s t x y); eauto; [|congruence].
      apply Hel. by right. }
  assert (contents st' (base.delete i l)) as Hc'.
  { assert (contents st (base.delete i l)) as Hcd by (intros t y Ht; apply Hc, Hel; by right).
    apply (contents_relink st0 (base.delete i l) c'); [exact Hcd|exact R|done]. }
  assert (∀ b, b ≠ s_block x → cache_view st' b = cache_view st b) as Hv.
  { intros b Hb. transitivity (cache_view st0 b); [apply (view_relink st0 c' R)|].
    unfold cache_view. simpl. by rewrite lookup_delete_ne by done. }
  split_and!; [|done| |done].
  - eapply (core_move st [] l); [done|exact R|done|by symmetry|exact Hm].
  - intros Hcl b. destruct (decide (b = s_block x)) as [->|]; [|by apply Hv].
    unfold cache_view. simpl. rewrite (r_map _ _ R). simpl. rewrite lookup_delete_eq.
    assert (cmap (cache st) !! s_block x = Some s) as -> by (apply (k_map _ _ _ K); eauto).
    rewrite Hx. symmetry. by apply (Hc s x Hs Hx).
Qed.

Lemma relinked_unmap c c' b : relinked c c' →
  relinked (set_cmap (base.delete b (cmap c)) c) (set_cmap (base.delete b (cmap c')) c').
Proof. intros []. split; simpl; try done. by rewrite r_map. Qed.

Lemma evict_spec st l : core st [] l → contents st l →
  wp evict (λ r st', match r with
    | Ok s => acquired st s st'
    | Err _ => cache_inv st' ∧ same (cache_view st) (cache_view st') ∧ (¬ dev_ok (dev st) ∨ l = [])
    | Panic => False
    end) st.
Proof.
  intros K Hc. unfold evict. apply wp_bind, wp_gets. rewrite (d_tail _ _ (k_dll _ _ _ K)).
  destruct (last l) as [t|] eqn:El; simpl nb.
  2:{ rewrite Z.eqb_refl. apply last_None in El as ->. apply wp_fail. split_and!; [by exists []|done|by right]. }
  rewrite last_lookup in El. pose proof (list_elem_of_lookup_2 _ _ _ El) as Ht.
  pose proof (d_range _ _ (k_dll _ _ _ K) t Ht). rewrite (proj2 (Z.eqb_neq t NIL)) by lia. simpl negb. cbn iota.
  destruct (core_slot st [] l t K) as [x Hx]; [set_solver|].
  apply wp_bind. eapply wp_mono; [by apply (writeback_spec st [] l t x)|].
  intros r st1 (K1 & Hc1 & V1 & M1 & D1 & Hr). destruct r as [[]|e|]; [| |done].
  2:{ split_and!; [by exists l|done|by left]. }
  destruct (unlink_spec (cache st1) l _ t (k_dll _ _ _ K1) El) as (c' & Ec & R & L).
  destruct (detach st1 l _ t _ (set_cmap (base.delete (s_block x) (cmap c')) c') K1 Hc1 El Hr) as (K2 & Hc2 & V2 & _);
    [by apply relinked_unmap|by eapply dll_same|].
  apply wp_bind. eapply wp_step; [exact Ec|]. apply wp_bind.
  destruct (relinked_slot _ _ _ _ R Hr) as (y & Hy & (Eb & _)). eapply wp_get_slot; [exact Hy|].
  apply wp_bind. eapply wp_step; [done|]. apply wp_ret. rewrite Eb. simpl.
  split_and!; [by eexists|etrans; [exact V1|by apply V2]| |done].
  intros b Hb. simpl. rewrite (r_map _ _ R), M1. by rewrite lookup_delete_None, Hb; right.
Qed.
End cache_spec.
