(* ===== verification/CacheOps.v ===== *)
(** * Reading and writing through the cache

    [take], [read], [read_checked], [write_as], [invalidate] and [flush] on the
    invariant of CacheSpec.v, and the instance of [BlockStoreOk] they make. *)

From S2P Require Import Prelude Bytes Format BlockStore BlockDev Bitmap BitmapSpec Memory MemorySpec Heap Cache CacheList CacheClean CacheSpec.

Section ops.
Context {D : Type} `{!BlockDev D} `{!BlockDevOk D}.
Context (check : list byte → bool) (shrinkers : option (list Memory.Shrinker)).
Notation St := (@St D).
Notation contents := (contents check).
Notation cache_inv := (cache_inv check).
Implicit Types (st : St) (c : BlockCache) (h l : list Z).

(** ** A slot for a block *)

(** The slot [s] at the front holds [b], clean and unchecked, its bytes yet to
    be filled in; everything else is as before. *)
Definition taken st (b s : Z) st' : Prop :=
  (∃ l x, core st' [] (s :: l) ∧ contents st' l ∧ slot_of st' s = Some x ∧ s_block x = b ∧
     s_dirty x = false ∧ s_checked x = false) ∧
  (∀ b', b' ≠ b → cache_view st' b' = cache_view st b') ∧ dview (dev st') b = dview (dev st) b ∧
  (dev_ok (dev st) → dev_ok (dev st')).

Lemma acquire_spec st : cache_inv st →
  wp (match idle (cache st) with
      | s :: rest => _ ← step (λ c, Some (set_idle rest c)); mret s
      | [] =>
          fr ← fresh_frame shrinkers;
          match fr with Some frame => new_slot frame | None => evict end
      end)
    (λ r st', match r with
       | Ok s => acquired check st s st'
       | Err _ => cache_inv st' ∧ same (cache_view st) (cache_view st') ∧ ¬ cache_healthy st
       | Panic => False
       end) st.
Proof.
  intros (l & K & Hc). destruct (idle (cache st)) as [|s rest] eqn:Ei.
  - apply wp_bind. eapply wp_mono; [by eapply fresh_frame_spec|]. intros [[a|]|e|] st1; [| |done|done].
    + intros (m' & -> & Gr). eapply wp_mono; [by eapply (new_slot_spec check)|].
      intros r st' (s & -> & Ha). exact Ha.
    + intros [-> Hno]. eapply wp_mono; [by eapply (evict_spec check)|]. intros [s|e|] st'; try done.
      intros (I' & V' & Hor). split_and!; try done. intros [Hok Hroom].
      destruct Hor as [Hd| ->]; [done|]. destruct Hroom as [Hm|[Hi|Hw]]; [|by rewrite Ei in Hi|done].
      apply Hm, map_eq. intros b. rewrite lookup_empty. destruct (cmap (cache st) !! b) eqn:E; [|done].
      apply (k_map _ _ _ K) in E as [[]%not_elem_of_nil _].
  - apply wp_bind. eapply wp_step; [done|]. apply wp_ret.
    split_and!; [|done|done|done]. exists l. split; [|done]. eapply core_idle; [done| |].
    + rewrite Ei. simpl. solve_Permutation.
    + intros t x _ _ Ht. by right.
Qed.

(** The last steps of [take]. *)
Definition settle (block s : Z) : M St FsError Z :=
  _ ← step (mod_slot s (with_block block));
  _ ← step (mod_slot s (with_dirty false));
  _ ← step (mod_slot s (with_checked false));
  _ ← step (λ c, Some (set_cmap (<[block := s]> (cmap c)) c));
  _ ← step (push_front s);
  mret s.

Lemma core_settle st l s x b : core st [s] l → slot_of st s = Some x → s_block x = b → cmap (cache st) !! b = None →
  ∃ c', push_front s (set_cmap (<[b := s]> (cmap (cache st))) (cache st)) = Some c' ∧
    relinked (set_cmap (<[b := s]> (cmap (cache st))) (cache st)) c' ∧ core (set_cache c' st) [] (s :: l).
Proof.
  intros K Hx Hb Hm. set (c1 := set_cmap _ (cache st)).
  assert (s ∉ l) as Hs by (pose proof (k_part _ _ _ K) as Hn; apply NoDup_cons in Hn as [Hn _]; set_solver).
  assert (dll c1 l) as L1 by (by eapply dll_same; [apply (k_dll _ _ _ K)|..]).
  pose proof (slot_range _ _ _ Hx) as Hr. pose proof (k_count _ _ _ K).
  destruct (push_front_spec c1 l s x L1 Hs Hx) as (c' & Ec & R & L'); [lia|].
  exists c'. split_and!; try done. eapply (core_move st [s] l); [done|exact R|done|done|].
  intros b' t. rewrite lookup_insert_Some, (k_map _ _ _ K), elem_of_cons. split.
  - intros [[<- <-]|(Hne & Ht & Hy)]; [split; [by left|eauto]|split; [by right|done]].
  - intros [[->|Ht] (y & Hy & Hyb)].
    + left. split; [congruence|done].
    + right. split; [|eauto]. intros <-. assert (cmap (cache st) !! b = Some t) by (apply (k_map _ _ _ K); eauto). congruence.
Qed.

Lemma settle_spec st st0 s b : acquired check st0 s st → cmap (cache st0) !! b = None →
  wp (settle b s) (λ r st', r = Ok s ∧ taken st0 b s st') st.
Proof.
  intros ((l & K & Hc) & V & Hm & Hd) Hb. specialize (Hm b Hb).
  destruct (core_slot st [s] l s K) as [x Hx]; [set_solver|].
  assert (s ∉ l) as Hs by (pose proof (k_part _ _ _ K) as Hn; apply NoDup_cons in Hn as [Hn _]; set_solver).
  assert (∀ st1 x1 y, core st1 [s] l → contents st1 l → slot_of st1 s = Some x1 → s_frame y = s_frame x1 →
    s_prev y = s_prev x1 → s_next y = s_next x1 → (s_dirty y = true → s_dirty x1 = true) →
    core (upd s y st1) [s] l ∧ contents (upd s y st1) l ∧ slot_of (upd s y st1) s = Some y ∧
    same (cache_view st1) (cache_view (upd s y st1))) as Hstep.
  { intros st1 x1 y K1 C1 X1 F1 P1 N1 D1. split_and!.
    - eapply core_upd; try done. intros Hdy. by eapply (k_dirty _ _ _ K1), D1.
    - by eapply contents_upd.
    - rewrite (slot_upd st1 s x1) by done. by rewrite decide_True.
    - by eapply view_upd. }
  unfold settle.
  apply wp_bind. eapply (wp_mod s x); [exact Hx|].
  destruct (Hstep st x (with_block b x) K Hc Hx) as (K1 & C1 & X1 & V1); [done..|]. set (st1 := upd s _ st) in *.
  apply wp_bind. eapply (wp_mod s); [exact X1|].
  destruct (Hstep st1 _ (with_dirty false (with_block b x)) K1 C1 X1) as (K2 & C2 & X2 & V2); [done..|]. set (st2 := upd s _ st1) in *.
  apply wp_bind. eapply (wp_mod s); [exact X2|].
  destruct (Hstep st2 _ (with_checked false (with_dirty false (with_block b x))) K2 C2 X2) as (K3 & C3 & X3 & V3); [done..|].
  set (st3 := upd s _ st2) in *. clear Hstep.
  destruct (core_settle st3 l s _ b K3 X3) as (c' & Ec & R & K'); [done|exact Hm|].
  apply wp_bind. eapply wp_step; [done|]. set (st4 := set_cache _ st3).
  apply wp_bind. eapply (wp_step _ c'); [exact Ec|]. apply wp_ret. split; [done|].
  destruct (relinked_slot _ _ s _ R X3) as (y & Hy & (Eb & Ef & Ed & Eck)).
  assert (same (cache_view st0) (cache_view st3)) as V03 by (etrans; [exact V|]; etrans; [exact V1|]; etrans; [exact V2|exact V3]).
  split_and!.
  - exists l, y. split_and!; try done. apply (contents_relink check st4 l c' l); [exact C3|exact R|done].
  - intros b' Hne. rewrite <- V03. transitivity (cache_view st4 b').
    + apply (view_relink st4 c' R b').
    + unfold cache_view. simpl. by rewrite lookup_insert_ne by done.
  - specialize (V b). unfold cache_view in V. by rewrite Hb, Hm in V.
  - exact Hd.
Qed.

Lemma take_spec st b : cache_inv st → cmap (cache st) !! b = None →
  wp (take shrinkers b) (λ r st', match r with
    | Ok s => taken st b s st'
    | Err _ => cache_inv st' ∧ same (cache_view st) (cache_view st') ∧ ¬ cache_healthy st
    | Panic => False
    end) st.
Proof.
  intros I Hb. apply wp_bind, wp_gets, wp_bind. eapply wp_mono; [by apply acquire_spec|].
  intros [s|e|] st1; [|done|done]. intros Ha. eapply wp_mono; [by eapply settle_spec|].
  intros r st' [-> Ht]. exact Ht.
Qed.

(** ** Filling a slot *)

(** The slots of [l] other than [s] are right. *)
Definition others st s l : Prop := ∀ t y, t ∈ l → t ≠ s → slot_of st t = Some y → content check st y.

(** The slot [s] of the list holds block [b]; all the rest is as in [st]. *)
Definition holds st (b s : Z) x l st' : Prop :=
  core st' [] l ∧ s ∈ l ∧ others st' s l ∧ slot_of st' s = Some x ∧ s_block x = b ∧
  (∀ b', b' ≠ b → cache_view st' b' = cache_view st b') ∧ (dev_ok (dev st) → dev_ok (dev st')).

Lemma others_all st s l x : others st s l → slot_of st s = Some x → content check st x → contents st l.
Proof.
  intros Ho Hx Hcx t y Ht Hy. destruct (decide (t = s)) as [->|]; [|by eapply Ho].
  rewrite Hx in Hy. by injection Hy as <-.
Qed.

Lemma core_page st h l f v : core st h l → is_block v → core (set_page f v st) h l.
Proof. intros [] Hv. split; try done. by apply map_Forall_insert_2. Qed.

Lemma hit_slot st h l b s : core st h l → cmap (cache st) !! b = Some s →
  s ∈ l ∧ ∃ x, slot_of st s = Some x ∧ s_block x = b ∧ cache_view st b = page st (s_frame x).
Proof.
  intros K Hm. pose proof Hm as Hm'. apply (k_map _ _ _ K) in Hm' as (Hs & x & Hx & Hb).
  split; [done|]. exists x. split_and!; try done. unfold cache_view. by rewrite Hm, Hx.
Qed.

Lemma held_slot st l b s x : core st [] l → s ∈ l → slot_of st s = Some x → s_block x = b →
  cmap (cache st) !! b = Some s.
Proof. intros K Hs Hx Hb. apply (k_map _ _ _ K). eauto. Qed.

(** The bytes of [s] change; no other slot in use has that frame. *)
Lemma holds_page st b s x l st1 v : holds st b s x l st1 → is_block v →
  let st2 := set_page (s_frame x) v st1 in holds st b s x l st2 ∧ cache_view st2 b = v.
Proof.
  intros (K & Hs & Ho & Hx & Hb & Hv & Hd) Hblk st2.
  assert (∀ t y, t ∈ l → t ≠ s → slot_of st1 t = Some y → page st2 (s_frame y) = page st1 (s_frame y)) as Hpg.
  { intros t y Ht Hne Hy. unfold st2. rewrite page_set, decide_False; [done|]. intros E. apply Hne.
    eapply (k_inj _ _ _ K t s y x); simpl; try done; apply elem_of_app; by left. }
  pose proof (held_slot st1 l b s x K Hs Hx Hb) as Hm. split; [split_and!|]; try done.
  - by apply core_page.
  - intros t y Ht Hne Hy. destruct (Ho t y Ht Hne Hy) as [H1 H2]. pose proof (Hpg t y Ht Hne Hy) as E.
    split; rewrite E; done.
  - intros b' Hne. rewrite <- Hv by done. unfold cache_view. change (cmap (cache st2)) with (cmap (cache st1)).
    destruct (cmap (cache st1) !! b') as [t|] eqn:Et; [|done].
    destruct (hit_slot st1 [] l b' t K Et) as (Ht & y & Hy & Hyb & _).
    change (slot_of st2 t) with (slot_of st1 t). rewrite Hy. apply (Hpg t y); try done. intros ->. congruence.
  - unfold cache_view. change (cmap (cache st2)) with (cmap (cache st1)). rewrite Hm.
    change (slot_of st2 s) with (slot_of st1 s). rewrite Hx. unfold st2. by rewrite page_set, decide_True.
Qed.

(** A field of [s] other than its block and its frame changes. *)
Lemma holds_upd st b s x l st1 y : holds st b s x l st1 → s_frame y = s_frame x → s_block y = s_block x →
  s_prev y = s_prev x → s_next y = s_next x → (s_dirty y = true → s ∈ dirty (cache st1)) →
  holds st b s y l (upd s y st1) ∧ cache_view (upd s y st1) b = cache_view st1 b.
Proof.
  intros (K & Hs & Ho & Hx & Hb & Hv & Hd) Ef Eb Ep En Hdy.
  pose proof (view_upd st1 [] l s x y K Hx Ef) as V. split; [split_and!|by apply V]; try done.
  - eapply core_upd; try done. intros Ht. split; [|by apply Hdy]. apply elem_of_app. by right.
  - intros t z Ht Hne. rewrite (slot_upd st1 s x) by done. rewrite decide_False by done. by apply Ho.
  - rewrite (slot_upd st1 s x) by done. by rewrite decide_True.
  - congruence.
  - intros b' Hne. rewrite (V b'). by apply Hv.
Qed.

Lemma holds_healthy st b s x l st' : holds st b s x l st' → cache_healthy st → cache_healthy st'.
Proof.
  intros (K & Hs & _ & Hx & Hb & _ & Hd) [Hok _]. split; [by apply Hd|]. left. intros E.
  pose proof (held_slot st' l b s x K Hs Hx Hb) as Hm. by rewrite E, lookup_empty in Hm.
Qed.

Lemma taken_holds st b s st' : taken st b s st' →
  ∃ l x, holds st b s x l st' ∧ s_dirty x = false ∧ s_checked x = false ∧ dview (dev st') b = dview (dev st) b.
Proof.
  intros ((l & x & K & Hc & Hx & Hb & Hdy & Hck) & Hv & Hdv & Hd). exists (s :: l), x. split; [split_and!|]; try done.
  - apply elem_of_cons; by left.
  - intros t y [->|Ht]%elem_of_cons; [done|]. intros _. by apply Hc.
Qed.

(** The hit: [s] moves to the front. *)
Lemma touch_holds st l b s x : core st [] l → contents st l → cmap (cache st) !! b = Some s → slot_of st s = Some x →
  ∃ c' l' x', touch s (cache st) = Some c' ∧ alike x x' ∧ contents (set_cache c' st) l' ∧
    same (cache_view st) (cache_view (set_cache c' st)) ∧ holds st b s x' l' (set_cache c' st).
Proof.
  intros K Hc Hm Hx. destruct (hit_slot st [] l b s K Hm) as (Hs & x0 & Hx0 & Hb & _).
  rewrite Hx in Hx0. injection Hx0 as <-.
  destruct (touch_spec (cache st) l s (k_dll _ _ _ K) Hs) as (c' & l' & Ec & R & L' & Hp).
  destruct (relinked_slot _ _ _ _ R Hx) as (x' & Hx' & Hal).
  pose proof (contents_relink check st l c' l' Hc R Hp) as Hc'. pose proof (view_relink st c' R) as V.
  exists c', l', x'. split_and!; try done. unfold holds. split_and!; try done.
  - by apply (core_relink st [] l c' l').
  - by rewrite Hp.
  - intros t y Ht _ Hy. by eapply Hc'.
  - destruct Hal as [E _]. congruence.
Qed.

(** ** Reading *)

Lemma dev_same st d : cache_inv st → dev_inv d → same (dview (dev st)) (dview d) → (dev_ok (dev st) → dev_ok d) →
  cache_inv (set_dev d st) ∧ same (cache_view st) (cache_view (set_dev d st)) ∧
  (cache_healthy st → cache_healthy (set_dev d st)).
Proof.
  intros (l & K & Hc) Hi Hs Hd. split_and!.
  - exists l. split; [by apply core_dev|]. eapply contents_dev; [done|]. intros s x _ _ _. apply Hs.
  - intros b. unfold cache_view. simpl. destruct (cmap (cache st) !! b); [done|apply Hs].
  - intros [Hok Hr]. split; [by apply Hd|exact Hr].
Qed.

Lemma cache_read_spec st b : cache_inv st →
  wp (cache_read shrinkers b) (λ r st', cache_inv st' ∧ same (cache_view st) (cache_view st') ∧
    (cache_healthy st → cache_healthy st') ∧ ends (cache_healthy st) r (λ v, v = cache_view st b) True) st.
Proof.
  intros (l & K & Hc). apply wp_bind, wp_gets. destruct (cmap (cache st) !! b) as [s|] eqn:Hm.
  - destruct (hit_slot st [] l b s K Hm) as (Hs & x & Hx & Hb & Hvb).
    destruct (touch_holds st l b s x K Hc Hm Hx) as (c' & l' & x' & Ec & Hal & Hc' & V & Hh).
    apply wp_bind. eapply wp_step; [exact Ec|]. eapply wp_bytes; [by apply Hh|].
    split_and!; [exists l'; split; [by apply Hh|done]|done|by eapply holds_healthy|].
    simpl. rewrite Hvb. destruct Hal as (_ & E & _). by rewrite E.
  - apply wp_bind, wp_on_dev. eapply wp_mono; [apply read_block_spec, (k_dev _ _ _ K)|].
    intros r d (Hi & Hsd & Hok & Hr).
    destruct (dev_same st d) as (I1 & V1 & H1); [by exists l|done..|].
    destruct r as [buf|e|]; [|split_and!; try done; split; [done|by intros [? _]]|done]. simpl in Hr.
    apply wp_bind. eapply wp_mono; [by apply take_spec|]. intros [s|e|] st2; [| |done].
    2:{ intros (I2 & V2 & Hno). split_and!; [done|by etrans| |split; [done|]]; intros Hh; by destruct Hno; apply H1. }
    intros (l2 & x & Hh & Hdy & Hck & Hdv)%taken_holds. apply wp_bind. eapply wp_copy_in; [by apply Hh|].
    assert (is_block buf) as Hbuf by (subst; apply dview_block, (k_dev _ _ _ K)).
    destruct (holds_page _ b s x l2 st2 buf Hh Hbuf) as [Hh' Hv']. pose proof Hh' as (K' & Hs' & Ho' & Hx' & Hb' & Hv'' & _).
    assert (cache_view st b = buf) as Evb by (unfold cache_view; by rewrite Hm, Hr).
    apply wp_ret. split_and!; [| | |by simpl].
    + exists l2. split; [done|]. eapply others_all; [done..|]. split.
      * intros _. rewrite page_set, decide_True, Hb' by done. simpl. by rewrite Hdv, Hr, Hsd.
      * by rewrite Hck.
    + intros b'. destruct (decide (b' = b)) as [->|Hne]; [congruence|]. rewrite Hv'' by done. apply V1.
    + intros Hst. by eapply holds_healthy, H1.
Qed.

Lemma cache_read_checked_spec st b : cache_inv st →
  wp (cache_read_checked shrinkers b check) (λ r st', cache_inv st' ∧ same (cache_view st) (cache_view st') ∧
    (cache_healthy st → cache_healthy st') ∧
    ends (cache_healthy st) r (λ v, v = (check (cache_view st b), cache_view st b)) True) st.
Proof.
  intros I. apply wp_bind. eapply wp_mono; [by apply cache_read_spec|]. intros r st1 (I1 & V1 & H1 & Hr).
  destruct r as [buf|e|]; [|by split_and!|done]. simpl in Hr. destruct I1 as (l & K & Hc).
  apply wp_bind, wp_gets. destruct (cmap (cache st1) !! b) as [s|] eqn:Hm.
  2:{ apply wp_bind, wp_ret. cbn iota. subst buf. destruct (check (cache_view st b)) eqn:Ek; simpl negb; cbn iota.
      - apply wp_bind, wp_ret, wp_ret. split_and!; [by exists l|done|done|done].
      - apply wp_ret. split_and!; [by exists l|done|done|done]. }
  destruct (hit_slot st1 [] l b s K Hm) as (Hs & x & Hx & Hb & Hvb). rewrite V1, <- Hr in Hvb.
  apply wp_bind, wp_bind. eapply wp_get_slot; [done|]. apply wp_ret. destruct (s_checked x) eqn:Ek.
  { apply wp_ret. split_and!; [by exists l|done|done|]. simpl. rewrite <- Hr, Hvb. by rewrite (proj2 (Hc s x Hs Hx) Ek). }
  destruct (check buf) eqn:Eb; simpl negb; cbn iota.
  2:{ apply wp_ret. split_and!; [by exists l|done|done|]. simpl. by rewrite <- Hr, Eb. }
  apply wp_bind. eapply wp_mod; [done|]. apply wp_ret.
  assert (holds st1 b s x l st1) as Hh by (split_and!; try done; intros t y Ht _ Hy; by eapply Hc).
  destruct (holds_upd st1 b s x l st1 (with_checked true x) Hh) as [Hh2 Hv2]; [done..| |].
  { intros Hd. by apply (k_dirty _ _ _ K s x). }
  destruct Hh2 as (K2 & Hs2 & Ho2 & Hx2 & Hb2 & Hvo & Hd2). split_and!.
  - exists l. split; [done|]. eapply others_all; [done..|]. split; [by apply (Hc s x)|]. intros _.
    change (page _ _) with (page st1 (s_frame x)). congruence.
  - intros b'. destruct (decide (b' = b)) as [->|Hne]; [by rewrite Hv2|by rewrite Hvo].
  - intros Hst. exact (H1 Hst).
  - simpl. by rewrite <- Hr, Eb.
Qed.

(** ** Writing *)

Lemma core_listed st h l dl : core st h l → Forall (λ s, is_Some (slot_of st s)) dl →
  (∀ s x, slot_of st s = Some x → s_dirty x = true → s ∈ dl) →
  core (set_cache (set_dirty dl (cache st)) st) h l.
Proof.
  intros K Hf Hd. destruct K. split; try done.
  - by eapply dll_same.
  - intros s x Hx Hdy. split; [by eapply k_dirty|by eapply Hd].
Qed.

Lemma holds_listed st b s x l st1 : holds st b s x l st1 →
  holds st b s x l (set_cache (set_dirty (dirty (cache st1) ++ [s]) (cache st1)) st1).
Proof.
  intros (K & Hs & Ho & Hx & Hb & Hv & Hd). unfold holds. split_and!; try done. apply core_listed; [done| |].
  - apply Forall_app. split; [apply (k_listed _ _ _ K)|]. apply Forall_singleton. eauto.
  - intros t y Ht Hdy. apply elem_of_app. left. by eapply (k_dirty _ _ _ K).
Qed.

(** [write_as] once it has its slot. *)
Definition write_into (s : Z) (buf : list byte) (checked : bool) : M St FsError unit :=
  _ ← step (mod_slot s (with_checked checked));
  _ ← copy_in s buf;
  x ← get_slot s;
  if negb (s_dirty x) then
    _ ← step (mod_slot s (with_dirty true));
    step (λ c, Some (set_dirty (dirty c ++ [s]) c))
  else mret tt.

Lemma write_into_spec st b s x l st1 v checked : holds st b s x l st1 → is_block v → (checked = true → check v = true) →
  wp (write_into s v checked) (λ r st', r = Ok tt ∧ cache_inv st' ∧ updated (cache_view st) b v (cache_view st') ∧
    (cache_healthy st → cache_healthy st')) st1.
Proof.
  intros Hh Hv Hck. assert (s_dirty x = true → s ∈ dirty (cache st1)) as Hdx.
  { intros Hd. apply (k_dirty _ _ _ (proj1 Hh) s x); [apply Hh|done]. }
  assert (slot_of st1 s = Some x) as Hx by apply Hh.
  apply wp_bind. eapply wp_mod; [exact Hx|].
  destruct (holds_upd st b s x l st1 (with_checked checked x) Hh) as [Hh2 _]; [done..|].
  set (st2 := upd s _ st1) in *. apply wp_bind. eapply wp_copy_in; [by apply Hh2|].
  destruct (holds_page st b s _ l st2 v Hh2 Hv) as [Hh3 Hv3]. set (st3 := set_page _ v st2) in *.
  apply wp_bind. eapply wp_get_slot; [by apply Hh3|].
  assert (∀ st' y, holds st b s y l st' → cache_view st' b = v → s_dirty y = true → s_checked y = checked →
    cache_inv st' ∧ updated (cache_view st) b v (cache_view st') ∧ (cache_healthy st → cache_healthy st')) as Hend.
  { intros st' y Hh' Hv' Hdy Hcky. pose proof Hh' as (K & Hs & Ho & Hy & Hb & Hvo & Hd). split_and!.
    - exists l. split; [done|]. eapply others_all; [done..|]. split; [by rewrite Hdy|]. rewrite Hcky. intros E.
      pose proof (held_slot st' l b s y K Hs Hy Hb) as Hm. unfold cache_view in Hv'. rewrite Hm, Hy in Hv'. rewrite Hv'. by apply Hck.
    - done.
    - by eapply holds_healthy. }
  destruct (s_dirty (with_checked checked x)) eqn:Ed; simpl negb; cbn iota.
  { apply wp_ret. split; [done|]. by apply (Hend st3 (with_checked checked x)). }
  apply wp_bind. eapply wp_mod; [by apply Hh3|]. eapply wp_step; [done|]. split; [done|].
  pose proof (holds_listed st b s _ l st3 Hh3) as Hh4.
  destruct (holds_upd st b s _ l _ (with_dirty true (with_checked checked x)) Hh4) as [Hh5 Hv5]; [done..| |].
  { intros _. simpl. apply elem_of_app. right. by apply list_elem_of_singleton. }
  apply (Hend _ (with_dirty true (with_checked checked x))); [exact Hh5| |done|done].
  etrans; [exact Hv5|]. exact Hv3.
Qed.

Lemma write_as_spec st b v checked : cache_inv st → is_block v → (checked = true → check v = true) →
  wp (write_as shrinkers b v checked) (λ r st', cache_inv st' ∧ (cache_healthy st → cache_healthy st') ∧
    ends (cache_healthy st) r (λ _, updated (cache_view st) b v (cache_view st')) (same (cache_view st) (cache_view st'))) st.
Proof.
  intros I Hv Hck. pose proof I as (l & K & Hc). apply wp_bind, wp_gets.
  assert (∀ s x l' st1, holds st b s x l' st1 → wp (write_into s v checked) (λ r st', cache_inv st' ∧
    (cache_healthy st → cache_healthy st') ∧
    ends (cache_healthy st) r (λ _, updated (cache_view st) b v (cache_view st')) (same (cache_view st) (cache_view st'))) st1) as Hw.
  { intros s x l' st1 Hh. eapply wp_mono; [by eapply write_into_spec|]. intros r st' (-> & I' & U & H'). by split_and!. }
  destruct (cmap (cache st) !! b) as [s|] eqn:Hm.
  - destruct (hit_slot st [] l b s K Hm) as (Hs & x & Hx & _).
    destruct (touch_holds st l b s x K Hc Hm Hx) as (c' & l' & x' & Ec & _ & _ & _ & Hh).
    apply wp_bind, wp_bind. eapply wp_step; [exact Ec|]. apply wp_ret. by eapply Hw.
  - apply wp_bind. eapply wp_mono; [by apply take_spec|]. intros [s|e|] st2; [| |done].
    + intros (l2 & x & Hh & _)%taken_holds. by eapply Hw.
    + intros (I2 & V2 & Hno). split_and!; [done|by intros|by split].
Qed.

(** ** What is left to write *)

(** A fact about every outcome but a panic, of a call that does not panic. *)
Lemma wp_safely {A} (m : M St FsError A) (Q : res FsError A → St → Prop) st :
  wp m (λ r st', r ≠ Panic → Q r st') st → wp m (λ r _, r ≠ Panic) st → wp m Q st.
Proof. unfold wp. destruct (m st) as [r st']. auto. Qed.

Lemma read_keeps_clean st b b' : cache_inv st → clean (cache st) b' →
  wp (cache_read shrinkers b) (λ _ st', clean (cache st') b') st.
Proof.
  intros I H. eapply wp_safely; [by apply keeps_read|]. eapply wp_mono; [by apply cache_read_spec|].
  by intros [] st' (_ & _ & _ & Hr).
Qed.

Lemma read_checked_keeps_clean st b b' : cache_inv st → clean (cache st) b' →
  wp (cache_read_checked shrinkers b check) (λ _ st', clean (cache st') b') st.
Proof.
  intros I H. eapply wp_safely; [by apply keeps_read_checked|]. eapply wp_mono; [by apply cache_read_checked_spec|].
  by intros [] st' (_ & _ & _ & Hr).
Qed.

Lemma write_into_keeps_clean st b s x v checked b' : slot_of st s = Some x → s_block x = b → b' ≠ b →
  clean (cache st) b' → wp (write_into s v checked) (λ r st', r ≠ Panic → clean (cache st') b') st.
Proof.
  intros Hx Hb Hne H. apply wp_bind. eapply wp_mod; [exact Hx|].
  assert (∀ (d : St) y, (s_block y = b) → clean (cache d) b' → slot_of d s = Some x ∨ slot_of d s = Some (with_checked checked x) →
    clean (cache (upd s y d)) b') as Hu.
  { intros d y Hy Hd Hs t z. destruct Hs as [Hs|Hs]; change (slot (cache ?d) ?t) with (slot_of d t);
      rewrite (slot_upd d s _ _ _ Hs); (case_decide; [|by apply Hd]); intros [= <-]; congruence. }
  set (st1 := upd s _ st). assert (slot_of st1 s = Some (with_checked checked x)) as Hx1.
  { unfold st1. rewrite (slot_upd st s x) by done. by rewrite decide_True. }
  assert (clean (cache st1) b') as H1 by (apply Hu; auto).
  apply wp_bind. eapply wp_copy_in; [exact Hx1|]. apply wp_bind. eapply wp_get_slot; [exact Hx1|].
  destruct (negb _); [|apply wp_ret; intros _; exact H1].
  apply wp_bind. eapply wp_mod; [exact Hx1|]. eapply wp_step; [done|]. intros _.
  eapply clean_slots; [|apply (Hu st1 (with_dirty true (with_checked checked x))); auto]. done.
Qed.

Lemma write_as_keeps_clean st b v checked b' : cache_inv st → is_block v → (checked = true → check v = true) →
  b' ≠ b → clean (cache st) b' → wp (write_as shrinkers b v checked) (λ _ st', clean (cache st') b') st.
Proof.
  intros I Hv Hck Hne H. eapply wp_safely; [|eapply wp_mono; [by apply write_as_spec|by intros [] st' (_ & _ & Hr)]].
  pose proof I as (l & K & Hc). apply wp_bind, wp_gets. destruct (cmap (cache st) !! b) as [s|] eqn:Hm.
  - destruct (hit_slot st [] l b s K Hm) as (Hs & x & Hx & _).
    destruct (touch_holds st l b s x K Hc Hm Hx) as (c' & l' & x' & Ec & _ & _ & _ & Hh).
    apply wp_bind, wp_bind. eapply wp_step; [exact Ec|]. apply wp_ret.
    eapply (write_into_keeps_clean _ b); [by apply Hh|by apply Hh|done|]. by eapply clean_touch.
  - apply wp_bind. eapply wp_mono; [apply wp_and; [by apply take_spec|by apply (keeps_take shrinkers b' b)]|].
    intros [s|e|] st2 [Ht Hk]; [|intros _; by apply Hk|done]. apply taken_holds in Ht as (l2 & x & Hh & _).
    eapply (write_into_keeps_clean _ b); [by apply Hh|by apply Hh|done|by apply Hk].
Qed.

(** ** Dropping a block *)
Lemma cache_invalidate_spec st b : cache_inv st →
  wp (cache_invalidate b) (λ r st', r = Ok tt ∧ cache_inv st' ∧ (cache_healthy st → cache_healthy st') ∧
    dev st' = dev st ∧ cmap (cache st') !! b = None ∧
    ∀ b', b' ≠ b → cache_view st' b' = cache_view st b') st.
Proof.
  intros (l & K & Hc). apply wp_bind, wp_gets. destruct (cmap (cache st) !! b) as [s|] eqn:Hm.
  2:{ apply wp_ret. by split_and!; [|exists l|..]. }
  destruct (hit_slot st [] l b s K Hm) as ([i Hi]%list_elem_of_lookup & x & Hx & Hb & _).
  assert (dll (set_cmap (base.delete b (cmap (cache st))) (cache st)) l) as L0 by (by eapply dll_same; [apply (k_dll _ _ _ K)|..]).
  destruct (unlink_spec _ l i s L0 Hi) as (c1 & Ec1 & R1 & L1).
  apply wp_bind. eapply wp_step; [done|]. apply wp_bind. eapply wp_step; [exact Ec1|].
  rewrite <- Hb in R1. destruct (detach check st l i s x c1 K Hc Hi Hx R1 L1) as (K1 & Hc1 & _ & V1).
  destruct (relinked_slot _ _ s x R1 Hx) as (x1 & Hx1 & _).
  set (st1 := set_cache c1 st) in *. set (l1 := base.delete i l) in *.
  apply wp_bind. eapply (wp_mod s x1 (with_dirty false) _ st1); [exact Hx1|].
  assert (core (upd s (with_dirty false x1) st1) [s] l1) as K2.
  { eapply core_upd; try done. }
  assert (s ∉ l1) as Hns.
  { pose proof (k_part _ _ _ K1) as Hn. apply NoDup_cons in Hn as [Hn _]. intros Hin. apply Hn, elem_of_app. by left. }
  assert (contents (upd s (with_dirty false x1) st1) l1) as Hc2 by (by eapply contents_upd).
  eapply wp_step; [done|].
  assert (cmap c1 !! b = None) as Hm1 by (rewrite (r_map _ _ R1); simpl; by rewrite Hb, lookup_delete_eq).
  split_and!; [done| | |done| |].
  - exists l1. split; [|exact Hc2]. eapply (core_idle _ [s]); [exact K2|simpl; solve_Permutation|].
    intros t y. rewrite (slot_upd st1 s x1) by done. case_decide; [by intros [= <-]|].
    intros _ _. rewrite !elem_of_app, list_elem_of_singleton. intros [?|?]; [done|by right].
  - intros [Hok _]. split; [exact Hok|]. right. left. done.
  - exact Hm1.
  - intros b' Hne. rewrite <- V1 by congruence.
    rewrite <- (view_upd st1 [s] l1 s x1 (with_dirty false x1) K1 Hx1 eq_refl b'). done.
Qed.

#[global] Instance cache_store : BlockStore St := {
  read := cache_read shrinkers;
  read_checked := cache_read_checked shrinkers;
  write := cache_write shrinkers;
  write_checked := cache_write_checked shrinkers;
  invalidate b st := (cache_invalidate b st).2;
}.

Lemma cache_view_block st b : cache_inv st → is_block (cache_view st b).
Proof.
  intros (l & K & Hc). unfold cache_view. destruct (cmap (cache st) !! b) as [s|] eqn:Hm.
  - destruct (hit_slot st [] l b s K Hm) as (_ & x & -> & _). by eapply page_block.
  - apply dview_block, (k_dev _ _ _ K).
Qed.

Lemma cache_drop_spec st b : cache_inv st →
  cache_inv (cache_invalidate b st).2 ∧ (cache_healthy st → cache_healthy (cache_invalidate b st).2) ∧
  ∀ b', b' ≠ b → cache_view (cache_invalidate b st).2 b' = cache_view st b'.
Proof.
  intros I. pose proof (cache_invalidate_spec st b I) as Hi. unfold wp in Hi.
  destruct (cache_invalidate b st) as [r st']. destruct Hi as (_ & I' & H' & _ & _ & V'). exact (conj I' (conj H' V')).
Qed.

Lemma wp_all_clean {A} (m : M St FsError A) st :
  (∀ b', clean (cache st) b' → wp m (λ _ st', clean (cache st') b') st) →
  wp m (λ _ st', ∀ b', clean (cache st) b' → clean (cache st') b') st.
Proof. unfold wp. destruct (m st). auto. Qed.
Lemma wp_but_clean {A} (m : M St FsError A) st b :
  (∀ b', b' ≠ b → clean (cache st) b' → wp m (λ _ st', clean (cache st') b') st) →
  wp m (λ _ st', ∀ b', b' ≠ b → clean (cache st) b' → clean (cache st') b') st.
Proof. unfold wp. destruct (m st). auto. Qed.

(** A block with no slot of its own has nothing to write. *)
Lemma uncached_clean st b : cache_inv st → cmap (cache st) !! b = None → clean (cache st) b.
Proof.
  intros (l & K & _) Hm s x Hx Hb. destruct (s_dirty x) eqn:Hd; [|done].
  apply (k_dirty _ _ _ K s x Hx) in Hd as [Hs _]. simpl in Hs. pose proof (held_slot st l b s x K Hs Hx Hb). congruence.
Qed.

Lemma clean_view st b : cache_inv st → clean (cache st) b → cache_view st b = dview (dev st) b.
Proof.
  intros (l & K & Hc) Hcl. unfold cache_view. destruct (cmap (cache st) !! b) as [s|] eqn:Hm; [|done].
  destruct (hit_slot st [] l b s K Hm) as (Hs & x & Hx & Hb & _). rewrite Hx. destruct (Hc s x Hs Hx) as [Hp _].
  rewrite Hp; [by rewrite Hb|]. by apply (Hcl s x).
Qed.

Lemma cache_drop_clean st b : cache_inv st → clean (cache (cache_invalidate b st).2) b ∧
  ∀ b', clean (cache st) b' → clean (cache (cache_invalidate b st).2) b'.
Proof.
  intros I. pose proof (cache_invalidate_spec st b I) as Hi. pose proof (λ b', keeps_invalidate b' b st) as Hk.
  unfold wp in *. destruct (cache_invalidate b st) as [r st']. destruct Hi as (-> & I' & _ & _ & Hm & _).
  split; [by apply uncached_clean|]. intros b' Hb'. by apply Hk.
Qed.

#[global] Instance cache_store_ok : @BlockStoreOk St cache_store check := {|
  view := cache_view;
  store_inv := cache_inv;
  healthy := cache_healthy;
  view_block := cache_view_block;
  read_spec := cache_read_spec;
  read_checked_spec := cache_read_checked_spec;
  write_spec st b v I Hv := write_as_spec st b v false I Hv (λ E, match Bool.diff_false_true E with end);
  write_checked_spec st b v I Hv Hck := write_as_spec st b v true I Hv (λ _, Hck);
  invalidate_spec := cache_drop_spec;
  direct st b := clean (cache st) b;
  direct_read st b I := wp_all_clean _ st (λ b' H, read_keeps_clean st b b' I H);
  direct_read_checked st b I := wp_all_clean _ st (λ b' H, read_checked_keeps_clean st b b' I H);
  direct_write st b v I Hv := wp_but_clean _ st b
    (λ b' Hne H, write_as_keeps_clean st b v false b' I Hv (λ E, match Bool.diff_false_true E with end) Hne H);
  direct_write_checked st b v I Hv Hck := wp_but_clean _ st b
    (λ b' Hne H, write_as_keeps_clean st b v true b' I Hv (λ _, Hck) Hne H);
  direct_invalidate st b I := cache_drop_clean st b I;
|}.

(** The device written past the cache, the block not cached. *)
#[global] Instance cache_fua : BlockFua St := { write_block_fua b v := on_dev (write_fua b v) }.

Lemma fua_spec st b v : cache_inv st → is_block v →
  wp (on_dev (write_fua b v)) (λ r st', cache_inv st' ∧ (cache_healthy st → cache_healthy st') ∧
    (∀ b', b' ≠ b → cache_view st' b' = cache_view st b') ∧
    ends (cache_healthy st) r (λ _, cache_view st' b = v) True) (cache_invalidate b st).2.
Proof.
  intros I Hv. pose proof (cache_invalidate_spec st b I) as Hi. unfold wp in Hi.
  destruct (cache_invalidate b st) as [r0 st1]. destruct Hi as (_ & (l & K & Hc) & H1 & Ed & Hm & V1). cbn [snd].
  apply wp_on_dev. eapply wp_mono; [apply write_fua_spec; [apply (k_dev _ _ _ K)|done]|].
  intros r d (Hi & Hok & Ho & Hr).
  assert (cache_inv (set_dev d st1)) as I2.
  { exists l. split; [by apply core_dev|]. eapply contents_dev; [done|]. intros s x Hs Hx _. apply Ho. intros Eb.
    pose proof (held_slot st1 l b s x K Hs Hx Eb). congruence. }
  assert (cache_healthy st → cache_healthy (set_dev d st1)) as H2.
  { intros Hh. destruct (H1 Hh) as [Hd1 Hr1]. split; [by apply Hok|exact Hr1]. }
  assert (∀ b', b' ≠ b → cache_view (set_dev d st1) b' = cache_view st b') as V2.
  { intros b' Hne. rewrite <- V1 by done. unfold cache_view. simpl. destruct (cmap (cache st1) !! b'); [done|by apply Ho]. }
  destruct r as [[]|e|]; [| |done]; (split; [done|]; split; [done|]; split; [done|]); cbn [ends served] in *.
  - unfold cache_view. simpl. by rewrite Hm.
  - split; [done|]. intros Hh. apply Hr. by apply H1.
Qed.

Lemma fua_keeps_clean st b v : cache_inv st →
  wp (on_dev (write_fua b v)) (λ _ st', ∀ b', b' = b ∨ clean (cache st) b' → clean (cache st') b') (cache_invalidate b st).2.
Proof.
  intros I. destruct (cache_drop_clean st b I) as [H1 H2]. unfold wp, on_dev.
  destruct (from_blk _ _) as [r d]. intros b' [->|Hb']; [exact H1|by apply H2].
Qed.

#[global] Instance cache_fua_ok : @BlockFuaOk St cache_store cache_fua check cache_store_ok := {|
  write_block_fua_spec st b v I Hv := fua_spec st b v I Hv;
  direct_fua st b v I _ := fua_keeps_clean st b v I;
|}.
End ops.
