(* ===== verification/CacheFlush.v ===== *)
(** * Writing back and giving memory back

    [flush], [shrink] and [drop_all] on the invariant of CacheSpec.v: a flush
    leaves the device with exactly what reads return, and frames leave the cache
    without a byte of unwritten data going with them. *)

From S2P Require Import Prelude Bytes Format BlockStore BlockDev Bitmap BitmapSpec Memory MemorySpec Heap Cache CacheList CacheSpec CacheOps.

(** ** Sorting the dirty list *)
Lemma elem_of_insert_sorted s t l : t ∈ insert_sorted s l ↔ t = s ∨ t ∈ l.
Proof.
  induction l as [|x l IH]; simpl; [set_solver|].
  destruct (Z.eqb_spec s x) as [->|]; [set_solver|]. destruct (s <? x); [set_solver|].
  rewrite !elem_of_cons, IH. tauto.
Qed.

Lemma elem_of_sort_dedup t l : t ∈ sort_dedup l ↔ t ∈ l.
Proof. induction l as [|x l IH]; simpl; [done|]. rewrite elem_of_insert_sorted, IH, elem_of_cons. done. Qed.

Lemma insert_sorted_lt s l : StronglySorted Z.lt l → StronglySorted Z.lt (insert_sorted s l).
Proof.
  induction 1 as [|x l Hs IH Hx]; simpl; [repeat constructor|].
  destruct (Z.eqb_spec s x) as [->|]; [by constructor|]. destruct (Z.ltb_spec s x).
  - constructor; [by constructor|]. constructor; [done|]. eapply Forall_impl; [done|]. simpl. lia.
  - constructor; [done|]. apply Forall_forall. intros y [->|Hy]%elem_of_insert_sorted; [lia|].
    by eapply Forall_forall in Hx.
Qed.

Lemma sort_dedup_NoDup l : NoDup (sort_dedup l).
Proof.
  assert (StronglySorted Z.lt (sort_dedup l)) as Hs by (induction l; simpl; [constructor|by apply insert_sorted_lt]).
  induction Hs as [|x k Hs IH Hx]; constructor; [|done]. intros Hin. eapply Forall_forall in Hx; [|done]. lia.
Qed.

Section flush.
Context {D : Type} `{!BlockDev D} `{!BlockDevOk D}.
Context (check : list byte → bool).
Notation St := (@St D).
Notation contents := (contents check).
Notation cache_inv := (cache_inv check).
Implicit Types (st : St) (c : BlockCache) (h l : list Z).

Lemma filter_dirty_spec c k : Forall (λ s, is_Some (slot c s)) k →
  ∃ r, filter_dirty c k = Some r ∧ ∀ s, s ∈ r ↔ s ∈ k ∧ ∃ x, slot c s = Some x ∧ s_dirty x = true.
Proof.
  induction 1 as [|s k [x Hx] Hk IH]; simpl; [exists []; split; [done|set_solver]|].
  destruct IH as (r & -> & Hr). rewrite Hx. cbn [mbind option_bind]. eexists. split; [done|]. intros t.
  destruct (s_dirty x) eqn:E; rewrite ?elem_of_cons, Hr, ?elem_of_cons; split.
  - intros [->|[? ?]]; eauto.
  - intros [[->|?] ?]; eauto.
  - intros [? ?]; eauto.
  - intros [[->|?] (y & Hy & Ey)]; [|eauto]. congruence.
Qed.

(** What the batch of slot [s] is. *)
Definition staged st s : Z * list byte :=
  match slot_of st s with Some x => (s_block x, page st (s_frame x)) | None => (0, []) end.

Lemma batch_of_spec st k : Forall (λ s, is_Some (slot_of st s)) k →
  wp (batch_of k) (λ r st', st' = st ∧ r = Ok (staged st <$> k)) st.
Proof.
  induction 1 as [|s k [x Hx] Hk IH]; simpl; [by apply wp_ret|].
  apply wp_bind. eapply wp_get_slot; [exact Hx|]. apply wp_bind. eapply wp_bytes; [exact Hx|].
  apply wp_bind. eapply wp_mono; [exact IH|]. intros r st' [-> ->]. apply wp_ret.
  split; [done|]. assert (staged st s = (s_block x, page st (s_frame x))) as -> by (unfold staged; by rewrite Hx). done.
Qed.

(** Marking clean slots whose bytes the device now holds. *)
Lemma clean_all_spec k st l : core st [] l → contents st l →
  Forall (λ s, ∃ x, s ∈ l ∧ slot_of st s = Some x ∧ page st (s_frame x) = dview (dev st) (s_block x)) k →
  wp (clean_all k) (λ r st', r = Ok tt ∧ core st' [] l ∧ contents st' l ∧ same (cache_view st) (cache_view st') ∧
    dev st' = dev st ∧ cmap (cache st') = cmap (cache st) ∧
    ∀ t y, slot_of st' t = Some y → s_dirty y = true → t ∉ k ∧ ∃ x, slot_of st t = Some x ∧ s_dirty x = true) st.
Proof.
  revert st. induction k as [|s k IH]; intros st K Hc Hk; simpl.
  { apply wp_ret. split_and!; try done. intros t y Hy Hd. split; [apply not_elem_of_nil|eauto]. }
  apply Forall_cons in Hk as [(x & Hs & Hx & Hp) Hk]. apply wp_bind. eapply wp_mod; [exact Hx|].
  set (st1 := upd s _ st). pose proof (λ t, slot_upd st s x (with_dirty false x) t Hx) as HU. fold st1 in HU.
  assert (core st1 [] l) as K1 by (by eapply core_upd).
  assert (contents st1 l) as Hc1.
  { intros t y Ht. rewrite HU. case_decide; [intros [= <-]; split; [done|apply (Hc s x Hs Hx)]|by apply Hc]. }
  eapply wp_mono; [apply (IH st1 K1 Hc1)|].
  - eapply Forall_impl; [exact Hk|]. intros t (y & Ht & Hy & Hpy). rewrite HU. case_decide; [|eauto].
    subst. rewrite Hx in Hy. injection Hy as <-. exists (with_dirty false x). done.
  - intros r st' (-> & K' & C' & V' & D' & M' & Hd'). split_and!; try done.
    { etrans; [|exact V']. by eapply view_upd. }
    intros t y Hy Hdy. destruct (Hd' t y Hy Hdy) as (Hnt & z & Hz & Hdz). rewrite HU in Hz. case_decide; [by injection Hz as <-|].
    split; [by apply not_elem_of_cons|eauto].
Qed.

Lemma listed_slot st l s : core st [] l → s ∈ l → ∃ x, slot_of st s = Some x.
Proof. intros K Hs. apply (core_slot st [] l s K). apply elem_of_app. right. apply elem_of_app. by left. Qed.

Lemma staged_NoDup st l k : core st [] l → NoDup k → (∀ s, s ∈ k → s ∈ l) → NoDup ((staged st <$> k).*1).
Proof.
  intros K. induction 1 as [|s k Hs Hn IH]; intros Hk; simpl; [constructor|]. constructor; [|apply IH; intros t Ht; apply Hk, elem_of_cons; by right].
  intros (p & E & Hin)%list_elem_of_fmap. apply list_elem_of_fmap in Hin as (t & -> & Ht).
  assert (s ∈ l ∧ t ∈ l) as [Hsl Htl] by (split; apply Hk, elem_of_cons; auto).
  destruct (listed_slot st l s K Hsl) as [x Hx], (listed_slot st l t K Htl) as [y Hy].
  unfold staged in E. rewrite Hx, Hy in E. assert (s = t) as ->; [|done].
  by eapply (same_block st [] l s t x y).
Qed.

(** All of the batch reached the device, or it fails every guarantee. *)
Lemma written_through st l k d : core st [] l → contents st l → dev_inv d →
  (∀ s, s ∈ k ↔ ∃ x, slot_of st s = Some x ∧ s_dirty x = true) →
  (∀ b, b ∉ (staged st <$> k).*1 → dview d b = dview (dev st) b) →
  core (set_dev d st) [] l ∧ contents (set_dev d st) l ∧ same (cache_view st) (cache_view (set_dev d st)).
Proof.
  intros K Hc Hi Hk Ho. split_and!; [by apply core_dev| |].
  - eapply contents_dev; [done|]. intros s x Hs Hx Hcl. apply Ho.
    intros (p & E & Hin)%list_elem_of_fmap. apply list_elem_of_fmap in Hin as (t & -> & Ht).
    apply Hk in Ht as (y & Hy & Hdy). unfold staged in E. rewrite Hy in E. simpl in E.
    assert (t ∈ l) by (by eapply (k_dirty _ _ _ K)). assert (s = t) as -> by (by eapply (same_block st [] l s t x y)). congruence.
  - intros b. unfold cache_view. simpl. destruct (cmap (cache st) !! b) as [s|] eqn:Em; [done|]. apply Ho.
    intros (p & E & Hin)%list_elem_of_fmap. apply list_elem_of_fmap in Hin as (t & -> & Ht).
    apply Hk in Ht as (y & Hy & Hdy). unfold staged in E. rewrite Hy in E. simpl in E.
    assert (cmap (cache st) !! b = Some t); [|congruence]. apply (k_map _ _ _ K).
    split; [by eapply (k_dirty _ _ _ K)|eauto].
Qed.

Definition all_clean st : Prop := ∀ s x, slot_of st s = Some x → s_dirty x = false.

Lemma clean_durable st l : core st [] l → contents st l → all_clean st → same (cache_view st) (dview (dev st)).
Proof.
  intros K Hc Hcl b. unfold cache_view. destruct (cmap (cache st) !! b) as [s|] eqn:Em; [|done].
  destruct (hit_slot st [] l b s K Em) as (Hs & x & Hx & Hb & _). rewrite Hx.
  symmetry. rewrite <- Hb. apply (Hc s x Hs Hx). by eapply Hcl.
Qed.

Lemma all_clean_intro st : (∀ s x, slot_of st s = Some x → s_dirty x = true → False) → all_clean st.
Proof. intros H s x Hx. destruct (s_dirty x) eqn:E; [|done]. by destruct (H s x). Qed.

(** Emptying the dirty list once nothing is dirty. *)
Lemma unlist st l : core st [] l → contents st l → all_clean st →
  let st' := set_cache (set_dirty [] (cache st)) st in core st' [] l ∧ contents st' l ∧ all_clean st'.
Proof.
  intros K Hc Hcl st'. split_and!; [|exact Hc|exact Hcl]. apply core_listed; [done|done|].
  intros s x Hx Hd. pose proof (Hcl s x Hx). congruence.
Qed.

Definition flushed st st' : Prop :=
  cache_inv st' ∧ same (cache_view st) (cache_view st') ∧ (dev_ok (dev st) → dev_ok (dev st')) ∧
  cmap (cache st') = cmap (cache st).

Lemma flush_spec st : cache_inv st →
  wp flush (λ r st', flushed st st' ∧ match r with
    | Ok _ => all_clean st' ∧ same (cache_view st) (dview (dev st'))
    | Err _ => ¬ dev_ok (dev st)
    | Panic => False
    end) st.
Proof.
  intros (l & K & Hc). unfold flush. apply wp_bind, wp_gets.
  destruct (filter_dirty_spec (cache st) (dirty (cache st)) (k_listed _ _ _ K)) as (ls & -> & Hls).
  apply wp_bind. simpl of_opt. apply wp_ret. set (k := sort_dedup ls).
  assert (∀ s, s ∈ k ↔ ∃ x, slot_of st s = Some x ∧ s_dirty x = true) as Hk.
  { intros s. unfold k. rewrite elem_of_sort_dedup, Hls. split; [by intros [_ ?]|]. intros (x & Hx & Hd).
    split; [by eapply (k_dirty _ _ _ K)|eauto]. }
  assert (∀ s, s ∈ k → s ∈ l) as Hkl by (intros s (x & Hx & Hd)%Hk; by eapply (k_dirty _ _ _ K)).
  case_bool_decide as Ek.
  - assert (all_clean st) as Hcl.
    { apply all_clean_intro. intros s x Hx Hd. assert (s ∈ k) as Hs by (apply Hk; eauto). rewrite Ek in Hs. by apply not_elem_of_nil in Hs. }
    destruct (unlist st l K Hc Hcl) as (K' & C' & Hcl'). eapply wp_step; [done|].
    split; [split_and!; [by exists l|done|done|done]|]. split; [done|]. exact (clean_durable st l K Hc Hcl).
  - assert (Forall (λ s, is_Some (slot_of st s)) k) as Hf.
    { apply Forall_forall. intros s (x & Hx & _)%Hk. eauto. }
    apply wp_bind. eapply wp_mono; [by apply batch_of_spec|]. intros r st0 [-> ->].
    apply wp_bind, wp_on_dev. eapply wp_mono; [apply write_blocks_batch_spec; [apply (k_dev _ _ _ K)| |]|].
    + apply Forall_fmap, Forall_forall. intros s (x & Hx & _)%Hk. unfold compose, staged. rewrite Hx. by eapply page_block.
    + eapply staged_NoDup; [exact K|apply sort_dedup_NoDup|done].
    + intros r d (Hi & Hok & Ho & Hr). destruct (written_through st l k d K Hc Hi Hk Ho) as (K1 & C1 & V1).
      destruct r as [[]|e|]; [| |done]; simpl in Hr.
      2:{ split; [|done]. split_and!; [by exists l|done|done|done]. }
      apply wp_bind. eapply wp_mono; [apply (clean_all_spec k _ l K1 C1)|].
      * apply Forall_forall. intros s Hs. pose proof Hs as (x & Hx & Hd)%Hk. exists x. split_and!; [by apply Hkl|done|].
        symmetry. apply Hr. apply list_elem_of_fmap. exists s. split; [|done]. unfold staged. by rewrite Hx.
      * intros r st2 (-> & K2 & C2 & V2 & D2 & M2 & Hd2).
        assert (all_clean st2) as Hcl.
        { apply all_clean_intro. intros s y Hy Hdy. destruct (Hd2 s y Hy Hdy) as [Hns Hex]. by apply Hns, Hk. }
        destruct (unlist st2 l K2 C2 Hcl) as (K3 & C3 & Hcl3). eapply wp_step; [done|].
        assert (same (cache_view st) (cache_view st2)) as V by (by etrans).
        split; [split_and!; [by exists l|exact V|by simpl; rewrite D2|by simpl; rewrite M2]|]. split; [done|].
        etrans; [exact V|]. exact (clean_durable st2 l K2 C2 Hcl).
Qed.

(** ** Giving frames back *)

Definition retired s x m' st : St :=
  let st1 := upd s (with_frame 0 x) (set_mem m' st) in
  set_cache (set_spare (s :: spare (cache st)) (cache st1)) st1.

Lemma retired_slot s x m' st t : slot_of st s = Some x →
  slot_of (retired s x m' st) t = if decide (t = s) then Some (with_frame 0 x) else slot_of st t.
Proof. intros Hx. exact (slot_upd (set_mem m' st) s x (with_frame 0 x) t Hx). Qed.

(** A slot off the list, clean, becomes spare; its frame goes back. *)
Lemma core_spare st l s x m' f : core st [s] l → slot_of st s = Some x → s_dirty x = false →
  s_frame x = f * Memory.PAGE_SIZE → MemorySpec.inv m' → Memory.memory_top m' = Memory.memory_top (mem st) →
  marked false f (f + 1) (mem st) m' →
  core (retired s x m' st) [] l.
Proof.
  intros K Hx Hcl Ef Hm Et Km. pose proof (λ t, retired_slot s x m' st t Hx) as HS. set (st2 := retired s x m' st) in *.
  assert (∀ t, t ∈ l ++ idle (cache st) → t ≠ s) as Hne.
  { intros t Ht ->. pose proof (k_part _ _ _ K) as Hn. apply NoDup_cons in Hn as [Hn _]. apply Hn.
    rewrite app_assoc. apply elem_of_app. by left. }
  assert (∀ t y, t ∈ l ++ idle (cache st) → slot_of st2 t = Some y → slot_of st t = Some y) as Hold.
  { intros t y Ht. rewrite HS, decide_False by (by apply Hne). done. }
  assert (∀ t, t ∈ l ++ idle (cache st) → t ∈ [s] ++ l ++ idle (cache st)) as Hin by (intros; by apply elem_of_app; right).
  assert (∀ t y, slot_of st2 t = Some y → s_dirty y = true → slot_of st t = Some y) as Hdy.
  { intros t y. rewrite HS. case_decide; [|done]. intros [= <-] Hd. simpl in Hd. congruence. }
  pose proof K as []. split; try done.
  - eapply (dll_same (cache (upd s (with_frame 0 x) st))); [by eapply dll_upd|done..].
  - change (NoDup (l ++ idle (cache st) ++ s :: spare (cache st))).
    assert (l ++ idle (cache st) ++ s :: spare (cache st) ≡ₚ [s] ++ l ++ idle (cache st) ++ spare (cache st)) as -> by solve_Permutation.
    done.
  - intros t. change (t ∈ l ++ idle (cache st) ++ s :: spare (cache st) ↔ is_Some (slot_of st2 t)).
    assert (t ∈ l ++ idle (cache st) ++ s :: spare (cache st) ↔ t ∈ [s] ++ l ++ idle (cache st) ++ spare (cache st)) as ->
      by (rewrite !elem_of_app, !elem_of_cons, elem_of_nil; tauto).
    rewrite k_all, HS. case_decide; [subst|done]. split; intros _; [done|eauto].
  - change (zlen (<[Z.to_nat s := with_frame 0 x]> (slots (cache st))) < NIL). unfold zlen in *. by rewrite length_insert.
  - intros b t. change (cmap (cache st2)) with (cmap (cache st)). rewrite k_map.
    split; intros (Ht & y & Hy & Hyb); (split; [done|]); exists y; (split; [|done]).
    + rewrite HS, decide_False; [done|]. apply Hne, elem_of_app. by left.
    + apply Hold; [apply elem_of_app; by left|done].
  - intros t y Ht Hy. apply (owns_mark false f (f + 1) (mem st)); [done| |done|by eapply k_frame; [apply Hin|apply Hold]].
    right. intros g Eg Hg. apply (Hne t Ht). assert (f = g) as <- by lia.
    eapply (k_inj t s y x); [by apply Hin|by apply elem_of_app; left; apply list_elem_of_singleton|by apply Hold|done|congruence].
  - intros t u y z Ht Hu Hy Hz. eapply k_inj; [by apply Hin|by apply Hin|by apply Hold|by apply Hold].
  - intros t y Hy Hd. pose proof (Hdy t y Hy Hd) as Hy'. destruct (k_dirty t y Hy' Hd) as [Ht1 Ht2].
    split; [|done]. apply elem_of_app in Ht1 as [->%list_elem_of_singleton|?]; [congruence|done].
  - eapply Forall_impl; [exact k_listed|]. intros t Ht. rewrite HS. by case_decide.
  - change (8 * zlen (Memory.bitmap m') ≤ 2 ^ 31). unfold zlen in *. by rewrite (MemorySpec.k_len _ _ _ _ _ Km).
Qed.

(** What giving frames back keeps: what reads return, what the device holds and
    what is in the map. *)
Definition spared st st' : Prop :=
  same (cache_view st) (cache_view st') ∧ dev st' = dev st ∧ usable st' = usable st ∧
  length (slots (cache st')) = length (slots (cache st)) ∧
  ∀ s x, slot_of st s = Some x → s_dirty x = true → ∃ y, slot_of st' s = Some y ∧ alike x y.

#[local] Instance spared_preorder : PreOrder spared.
Proof.
  split.
  - intros st. split_and!; try done. intros s x Hx _. exists x. done.
  - intros a b c (V1 & D1 & U1 & L1 & S1) (V2 & D2 & U2 & L2 & S2). split_and!; [by etrans|congruence..|].
    intros s x Hx Hd. destruct (S1 s x Hx Hd) as (y & Hy & (Y1 & Y2 & Y3 & Y4)).
    destruct (S2 s y Hy) as (z & Hz & (Z1 & Z2 & Z3 & Z4)); [congruence|]. exists z. split; [done|]. split_and!; congruence.
Qed.

Lemma freed_count m m' f : MemorySpec.inv m → MemorySpec.inv m' → tracks m f → used (Memory.bitmap m) f = true →
  marked false f (f + 1) m m' → Memory.free_count m' = Memory.free_count m + 1.
Proof.
  intros [I _] [I' _] Ht Hu K. rewrite (m_count _ I'), (m_count _ I).
  rewrite (count_flip (Memory.bitmap m) (Memory.bitmap m') f false); [done|done|by apply K|done|].
  intros g Hg. rewrite (k_bits _ _ _ _ _ K) by done.
  destruct (decide (f ≤ g < f + 1)), (decide (g = f)); done || lia.
Qed.

Lemma give_back_spec st l s x : core st [s] l → contents st l → slot_of st s = Some x → s_dirty x = false →
  wp (give_back s) (λ r st', r = Ok tt ∧ core st' [] l ∧ contents st' l ∧ spared st st' ∧
    idle (cache st') = idle (cache st) ∧ cmap (cache st') = cmap (cache st) ∧
    (∀ t, t ≠ s → slot_of st' t = slot_of st t) ∧
    Memory.free_count (mem st') = Memory.free_count (mem st) + 1) st.
Proof.
  intros K Hc Hx Hcl. apply wp_bind. eapply wp_get_slot; [done|].
  destruct (k_frame _ _ _ K s x) as (f & Ef & Ht & Hft & Hu); [by apply elem_of_app; left; apply list_elem_of_singleton|done|].
  destruct (frame_free_spec (mem st) f (proj1 (k_mem _ _ _ K)) Ht) as (m' & Em & I0 & Km & Et).
  assert (MemorySpec.inv m') as Im.
  { split; [done|]. eapply topped_free; [apply (k_mem _ _ _ K)|done|done|lia]. }
  apply wp_bind. unfold wp at 1, on_mem. unfold Memory.deallocate. rewrite Ef. unfold Memory.PAGE_SIZE. rewrite Z.div_mul by done.
  rewrite Em. apply wp_bind. eapply (wp_mod s x (with_frame 0) _ (set_mem m' st)); [exact Hx|]. eapply wp_step; [done|].
  change (set_cache _ _) with (retired s x m' st). pose proof (λ t, retired_slot s x m' st t Hx) as HS.
  assert (∀ t, t ≠ s → slot_of (retired s x m' st) t = slot_of st t) as HO by (intros t Hne; by rewrite HS, decide_False).
  assert (s ∉ l) as Hns.
  { intros Hin. pose proof (k_part _ _ _ K) as Hn. apply NoDup_cons in Hn as [Hn _]. apply Hn, elem_of_app. by left. }
  destruct (kept check st [s] l (cache (retired s x m' st)) m' K Hc) as [C' V']; [done| |].
  { intros t Hin. apply HO. intros ->. done. }
  split_and!; [done|by eapply core_spare|exact C'| |done|done|exact HO|].
  - split_and!; [exact V'|done|done|apply length_insert|]. intros t y Hy Hd. exists y. rewrite HO; [done|]. intros ->. congruence.
  - by apply (freed_count _ _ f (k_mem _ _ _ K) Im).
Qed.

Lemma idle_clean st l s x : core st [] l → s ∈ idle (cache st) → slot_of st s = Some x → s_dirty x = false.
Proof.
  intros K Hs Hx. destruct (s_dirty x) eqn:E; [|done]. destruct (k_dirty _ _ _ K s x Hx E) as [Hl _].
  pose proof (k_part _ _ _ K) as Hn. simpl in Hn, Hl. apply NoDup_app in Hn as (_ & Hn & _).
  destruct (Hn s Hl). apply elem_of_app. by left.
Qed.

(** What [n] frames given back by a loop leave. *)
Definition released st l (want freed n : Z) st' l' : Prop :=
  core st' [] l' ∧ contents st' l' ∧ spared st st' ∧ freed ≤ n ∧ (freed ≤ want → n ≤ want) ∧
  Memory.free_count (mem st') = Memory.free_count (mem st) + (n - freed).

Lemma release_loop_spec il st l want freed : core st [] l → contents st l → idle (cache st) = il →
  wp (release_loop il want freed) (λ r st', ∃ n, r = Ok n ∧ released st l want freed n st' l ∧
    cmap (cache st') = cmap (cache st) ∧ (want ≤ n ∨ idle (cache st') = [])) st.
Proof.
  revert st freed. induction il as [|s il IH]; intros st freed K Hc Ei; simpl.
  { destruct (Z.leb_spec want freed); apply wp_ret; exists freed; (split; [done|]); (split; [|split; [done|auto]]);
      split_and!; try done; lia. }
  destruct (Z.leb_spec want freed) as [Hw|Hw].
  { apply wp_ret. exists freed. split; [done|]. split; [|split; [done|auto]]. split_and!; try done; lia. }
  assert (s ∈ idle (cache st)) as Hs by (rewrite Ei; by left).
  destruct (core_slot st [] l s K) as [x Hx]; [by apply elem_of_app; right; apply elem_of_app; right|].
  pose proof (idle_clean st l s x K Hs Hx) as Hcl.
  apply wp_bind. eapply wp_step; [done|]. set (st1 := set_cache _ st).
  assert (core st1 [s] l) as K1.
  { eapply (core_idle st []); [done|rewrite Ei; simpl; solve_Permutation|]. intros t y _ _ Ht. by apply elem_of_app; right. }
  apply wp_bind. eapply wp_mono; [apply (give_back_spec st1 l s x K1 Hc Hx Hcl)|].
  intros r st2 (-> & K2 & C2 & S2 & I2 & M2 & _ & F2).
  assert (spared st st1) as S1 by (split_and!; try done; intros t y Hy _; by exists y).
  eapply wp_mono; [apply (IH st2 (freed + 1) K2 C2 I2)|]. intros r st' (n & -> & (K' & C' & S' & Hlo & Hhi & F') & M' & Hor).
  exists n. split; [done|]. split; [|split; [by rewrite M', M2|done]]. split_and!; [done|done|exact (transitivity S1 (transitivity S2 S'))|lia|lia|].
  change (mem st1) with (mem st) in F2. lia.
Qed.

Lemma prv_delete l i : prv (base.delete i l) i = prv l i.
Proof. destruct i as [|i]; [done|]. simpl. apply list_lookup_delete_lt. lia. Qed.

(** The walk from the cold end; positions from [n] on hold dirty blocks only. *)
Lemma shrink_loop_spec fuel st l (n : nat) want freed : core st [] l → contents st l → (n ≤ length l)%nat → (n ≤ fuel)%nat →
  idle (cache st) = [] ∨ want ≤ freed →
  (∀ j s x, (n ≤ j)%nat → l !! j = Some s → slot_of st s = Some x → s_dirty x = true) →
  wp (shrink_loop fuel want freed (nb (prv l n))) (λ r st', ∃ m l', r = Ok m ∧ released st l want freed m st' l' ∧
    (want ≤ m ∨ idle (cache st') = [] ∧ ∀ s x, s ∈ l' → slot_of st' s = Some x → s_dirty x = true)) st.
Proof.
  revert st l n freed. induction fuel as [|fuel IH]; intros st l n freed K Hc Hn Hfuel Hi Hd; simpl shrink_loop.
  - assert (n = 0%nat) as -> by lia. simpl prv. rewrite Z.eqb_refl, orb_true_r. apply wp_ret. exists freed, l.
    split; [done|]. split; [split_and!; try done; lia|]. destruct Hi; [|by left]. right. split; [done|].
    intros s x [j Hj]%list_elem_of_lookup Hx. eapply Hd; [|done|done]. lia.
  - destruct (Z.leb_spec want freed) as [Hw|Hw].
    { simpl orb. cbv iota. apply wp_ret. exists freed, l. split; [done|]. split; [split_and!; try done; lia|by left]. }
    destruct Hi as [Hi|]; [|lia]. destruct n as [|n].
    { simpl prv. apply wp_ret. exists freed, l. split; [done|]. split; [split_and!; try done; lia|]. right. split; [done|].
      intros s x [j Hj]%list_elem_of_lookup Hx. eapply Hd; [|done|done]. lia. }
    simpl prv. destruct (lookup_lt_is_Some_2 l n Hn) as [s Es]. rewrite Es. simpl nb.
    pose proof (list_elem_of_lookup_2 _ _ _ Es) as Hs. pose proof (d_range _ _ (k_dll _ _ _ K) s Hs).
    rewrite (proj2 (Z.eqb_neq s NIL)) by lia. simpl orb. cbv iota.
    destruct (d_node _ _ (k_dll _ _ _ K) n s Es) as (x & Hx & Hp & _).
    apply wp_bind. eapply wp_get_slot; [exact Hx|]. rewrite Hp. destruct (s_dirty x) eqn:Ed; simpl negb; cbv iota.
    { apply IH; try done; [lia|lia|by left|]. intros j t y Hj Ht Hy. destruct (decide (j = n)) as [->|]; [|apply (Hd j t y); [lia|done|done]].
      rewrite Es in Ht. injection Ht as <-. unfold slot_of in Hy. congruence. }
    destruct (unlink_spec (cache st) l n s (k_dll _ _ _ K) Es) as (c' & Ec & R & L).
    destruct (detach check st l n s x (set_cmap (base.delete (s_block x) (cmap c')) c') K Hc Es Hx) as (K1 & C1 & V1 & _);
      [by apply relinked_unmap|by eapply dll_same|].
    destruct (relinked_slot _ _ _ _ R Hx) as (x1 & Hx1 & (_ & _ & Ed1 & _)).
    apply wp_bind. eapply wp_step; [exact Ec|]. apply wp_bind. eapply wp_step; [done|].
    set (st1 := set_cache (set_cmap _ _) _).
    assert (spared st st1) as S1.
    { split_and!; [by apply V1|done|done|apply (r_len _ _ R)|]. intros t y Hy _. destruct (relinked_slot _ _ _ _ R Hy) as (z & Hz & Ha). by exists z. }
    apply wp_bind. eapply wp_mono; [apply (give_back_spec st1 (base.delete n l) s x1 K1 C1 Hx1); congruence|].
    intros r st2 (-> & K2 & C2 & S2 & I2 & M2 & O2 & F2). rewrite <- (prv_delete l n).
    eapply wp_mono; [apply (IH st2 (base.delete n l) n (freed + 1) K2 C2)|].
    + rewrite length_delete by done. lia.
    + lia.
    + left. rewrite I2. change (idle c' = []). by rewrite (r_idle _ _ R).
    + intros j t y Hj Ht Hy. rewrite list_lookup_delete_ge in Ht by done.
      assert (t ≠ s) as Hne.
      { intros ->. assert (S j = n) by (eapply NoDup_lookup; [apply (d_nodup _ _ (k_dll _ _ _ K))|done|done]). lia. }
      rewrite O2 in Hy by done. destruct (relinked_slot_back _ _ _ _ R Hy) as (z & Hz & (_ & _ & Ez & _)).
      rewrite Ez. eapply (Hd (S j) t z); [lia|done|done].
    + intros r st' (m & l' & -> & (K' & C' & S' & Hlo & Hhi & F') & Hor). exists m, l'. split; [done|]. split; [|done].
      split_and!; [done|done|exact (transitivity S1 (transitivity S2 S'))|lia|lia|]. change (mem st1) with (mem st) in F2. lia.
Qed.

Lemma length_slots st h l : core st h l → (length l ≤ length (slots (cache st)))%nat.
Proof.
  intros K. assert (NoDup l) as Hn by apply (k_dll _ _ _ K).
  assert (l ⊆+ seqZ 0 (zlen (slots (cache st)))) as Hsub.
  { apply NoDup_submseteq; [done|]. intros s Hs. destruct (dll_slot _ _ _ (k_dll _ _ _ K) Hs) as [x Hx].
    apply slot_range in Hx. apply elem_of_seqZ. lia. }
  apply submseteq_length in Hsub. rewrite length_seqZ in Hsub. unfold zlen in Hsub. lia.
Qed.

Lemma shrink_spec st want : cache_inv st →
  wp (shrink want) (λ r st', ∃ n l l', r = Ok n ∧ released st l want 0 n st' l' ∧
    (want ≤ n ∨ idle (cache st') = [] ∧ ∀ s x, s ∈ l' → slot_of st' s = Some x → s_dirty x = true)) st.
Proof.
  intros (l & K & Hc). apply wp_bind, wp_bind, wp_gets. eapply wp_mono; [by apply (release_loop_spec _ st l want 0)|].
  intros r st1 (f & -> & (K1 & C1 & S1 & Hlo & Hhi & F1) & M1 & Hor). apply wp_bind, wp_gets.
  rewrite (d_tail _ _ (k_dll _ _ _ K1)).
  assert (last l = prv l (length l)) as -> by (rewrite last_lookup; by destruct l).
  eapply wp_mono; [apply (shrink_loop_spec _ st1 l (length l) want f K1 C1)|].
  - lia.
  - by eapply length_slots.
  - destruct Hor; auto.
  - intros j s x Hj Hs. apply lookup_lt_Some in Hs. lia.
  - intros r st' (m & l' & -> & (K' & C' & S' & Hlo' & Hhi' & F') & Hor'). exists m, l, l'. split; [done|]. split; [|done].
    split_and!; [done|done|by etrans|lia|lia|lia].
Qed.

(** ** Dropping the whole cache *)
Lemma forget_loop_spec fuel st l : core st [] l → contents st l → all_clean st → (length l ≤ fuel)%nat →
  wp (forget_loop fuel) (λ r st', r = Ok tt ∧ core st' [] [] ∧ same (cache_view st) (cache_view st') ∧
    dev st' = dev st ∧ mem st' = mem st ∧ length (slots (cache st')) = length (slots (cache st))) st.
Proof.
  revert st l. induction fuel as [|fuel IH]; intros st l K Hc Hcl Hf; simpl; apply wp_bind, wp_gets; rewrite (d_tail _ _ (k_dll _ _ _ K)).
  { destruct l; [|simpl in Hf; lia]. simpl. by apply wp_ret. }
  destruct (last l) as [t|] eqn:El; simpl nb.
  2:{ apply last_None in El as ->. simpl. by apply wp_ret. }
  rewrite last_lookup in El. pose proof (list_elem_of_lookup_2 _ _ _ El) as Ht.
  pose proof (d_range _ _ (k_dll _ _ _ K) t Ht). rewrite (proj2 (Z.eqb_neq t NIL)) by lia.
  destruct (listed_slot st l t K Ht) as [x Hx].
  destruct (unlink_spec (cache st) l _ t (k_dll _ _ _ K) El) as (c' & Ec & R & L).
  destruct (detach check st l _ t x (set_cmap (base.delete (s_block x) (cmap c')) c') K Hc El Hx) as (K1 & C1 & V1 & _);
    [by apply relinked_unmap|by eapply dll_same|].
  destruct (relinked_slot _ _ _ _ R Hx) as (y & Hy & (Eb & _)).
  apply wp_bind. eapply wp_step; [exact Ec|]. apply wp_bind. eapply wp_get_slot; [exact Hy|]. rewrite Eb.
  apply wp_bind. eapply wp_step; [done|]. set (st1 := set_cache (set_cmap _ _) _). apply wp_bind. eapply wp_step; [done|].
  assert (all_clean st1) as Hcl1.
  { intros u z Hz. destruct (relinked_slot_back _ _ _ _ R Hz) as (w & Hw & (_ & _ & E & _)). rewrite E. by eapply Hcl. }
  eapply wp_mono; [eapply (IH _ (base.delete (pred (length l)) l))|].
  - eapply (core_idle st1 [t]); [exact K1|simpl; solve_Permutation|]. intros u z Hz Hd. by rewrite (Hcl1 u z Hz) in Hd.
  - exact C1.
  - exact Hcl1.
  - rewrite length_delete by done. pose proof (lookup_lt_Some _ _ _ El). lia.
  - intros r st' (-> & K' & V' & D' & M' & L'). split_and!; [done|done|etrans; [by apply V1, (Hcl t)|exact V']|done|done|].
    rewrite L'. apply (r_len _ _ R).
Qed.

Lemma core_nil st : core st [] [] → cmap (cache st) = ∅.
Proof.
  intros K. apply map_eq. intros b. rewrite lookup_empty. destruct (cmap (cache st) !! b) eqn:E; [|done].
  by apply (k_map _ _ _ K) in E as [[]%not_elem_of_nil _].
Qed.

Lemma drop_all_spec st : cache_inv st →
  wp drop_all (λ r st', cache_inv st' ∧ same (cache_view st) (cache_view st') ∧ match r with
    | Ok _ => cmap (cache st') = ∅ ∧ idle (cache st') = [] ∧ same (cache_view st) (dview (dev st'))
    | Err _ => ¬ dev_ok (dev st)
    | Panic => False
    end) st.
Proof.
  intros I. apply wp_bind. eapply wp_mono; [by apply flush_spec|]. intros r st1 [(I1 & V1 & D1 & M1) Hr].
  destruct r as [[]|e|]; [|by split_and!|done]. destruct Hr as [Hcl Hdur], I1 as (l & K1 & C1).
  apply wp_bind, wp_gets, wp_bind. eapply wp_mono; [apply (forget_loop_spec _ st1 l K1 C1 Hcl); by eapply length_slots|].
  intros r st2 (-> & K2 & V2 & D2 & M2 & L2).
  assert (contents st2 []) as C2 by (intros ? ? []%not_elem_of_nil).
  apply wp_bind, wp_bind, wp_gets. eapply wp_mono; [by apply (release_loop_spec _ st2 [])|].
  intros r st3 (n & -> & (K3 & C3 & (V3 & D3 & _ & L3 & _) & Hlo & Hhi & F3) & M3 & Hor). apply wp_ret.
  split_and!; [by exists []|exact (transitivity V1 (transitivity V2 V3))|by apply core_nil| |by rewrite D3, D2].
  destruct Hor as [Hbig|]; [|done]. exfalso.
  pose proof (m_count _ (proj1 (k_mem _ _ _ K3))) as Hc3. pose proof (m_count _ (proj1 (k_mem _ _ _ K2))) as Hc2.
  pose proof (nfree_range (Memory.bitmap (mem st3)) (8 * length (Memory.bitmap (mem st3))) 0) as H3.
  pose proof (nfree_range (Memory.bitmap (mem st2)) (8 * length (Memory.bitmap (mem st2))) 0) as H2.
  pose proof (k_top _ _ _ K3) as Ht. unfold zlen in Ht. lia.
Qed.
End flush.
