(* ===== verification/CacheRefine.v ===== *)
(** * The cache behaves as the disk alone

    Requests to the cache in any order, and what a plain array of blocks answers
    to them: the cache gives the same answers, whatever it evicts, flushes or
    gives back in between. *)

From S2P Require Import Prelude Bytes Format BlockStore BlockDev Bitmap BitmapSpec Memory MemorySpec Heap Cache CacheList CacheSpec CacheOps CacheFlush.

Inductive request :=
  | Rd (b : Z) | RdChecked (b : Z) | Wr (b : Z) (v : block) | WrChecked (b : Z) (v : block)
  | Fl | Shr (want : Z) | Dr.
Inductive answer := Bytes (v : block) | Verdict (ok : bool) (v : block) | Done.

Section refine.
Context {D : Type} `{!BlockDev D} `{!BlockDevOk D}.
Context (check : list byte → bool) (shrinkers : option (list Memory.Shrinker)).
Notation St := (@St D).
Implicit Types (st : St) (f g : Z → block).

Definition serve (q : request) : M St FsError answer :=
  match q with
  | Rd b => v ← cache_read shrinkers b; mret (Bytes v)
  | RdChecked b => '(ok, v) ← cache_read_checked shrinkers b check; mret (Verdict ok v)
  | Wr b v => _ ← cache_write shrinkers b v; mret Done
  | WrChecked b v => _ ← cache_write_checked shrinkers b v; mret Done
  | Fl => _ ← flush; mret Done
  | Shr want => _ ← shrink want; mret Done
  | Dr => _ ← drop_all; mret Done
  end.

Fixpoint run (qs : list request) st : list (res FsError answer) * St :=
  match qs with
  | [] => ([], st)
  | q :: qs => let '(r, st) := serve q st in let '(rs, st) := run qs st in (r :: rs, st)
  end.

(** The disk alone. *)
Definition reply f (q : request) : answer :=
  match q with Rd b => Bytes (f b) | RdChecked b => Verdict (check (f b)) (f b) | _ => Done end.
Definition effect f (q : request) : Z → block :=
  match q with
  | Wr b v | WrChecked b v => λ b', if decide (b' = b) then v else f b'
  | _ => f
  end.

(** Each answer is the plain disk's; a request that failed had no effect. *)
Fixpoint consistent f (qs : list request) (rs : list (res FsError answer)) g : Prop :=
  match qs, rs with
  | [], [] => same f g
  | q :: qs, Ok a :: rs => a = reply f q ∧ consistent (effect f q) qs rs g
  | _ :: qs, Err _ :: rs => consistent f qs rs g
  | _, _ => False
  end.

Definition valid (q : request) : Prop :=
  match q with Wr _ v => is_block v | WrChecked _ v => is_block v ∧ check v = true | _ => True end.
Definition transfer (q : request) : bool :=
  match q with Rd _ | RdChecked _ | Wr _ _ | WrChecked _ _ => true | _ => false end.

(** One request. *)
Definition served_as st q (r : res FsError answer) st' : Prop :=
  cache_inv check st' ∧ (transfer q = true → cache_healthy st → cache_healthy st') ∧
  match r with
  | Ok a => a = reply (cache_view st) q ∧ same (effect (cache_view st) q) (cache_view st')
  | Err _ => same (cache_view st) (cache_view st') ∧ (transfer q = true → ¬ cache_healthy st)
  | Panic => False
  end.

Lemma effect_updated f b v g : updated f b v g → same (λ b', if decide (b' = b) then v else f b') g.
Proof. intros [H1 H2] b'. case_decide; [by subst|by apply H2]. Qed.

Lemma serve_write st b v checked q : q = (if checked : bool then WrChecked b v else Wr b v) → cache_inv check st → valid q →
  wp (_ ← write_as shrinkers b v checked; mret Done) (λ r st', served_as st q r st') st.
Proof.
  intros -> I Hv. apply wp_bind. eapply wp_mono; [apply (write_as_spec check); [done|by destruct checked; apply Hv|]|].
  { by destruct checked; [intros _; apply Hv|]. }
  intros [[]|e|] st' (I' & H' & R); [| |done].
  - apply wp_ret. destruct checked; (split_and!; [done|done|done|by apply effect_updated]).
  - destruct R as [V Hno]. by split_and!.
Qed.

Lemma serve_spec q st : cache_inv check st → valid q → wp (serve q) (λ r st', served_as st q r st') st.
Proof.
  intros I Hv. destruct q as [b|b|b v|b v| |want|]; simpl serve.
  - apply wp_bind. eapply wp_mono; [by apply (cache_read_spec check)|]. intros [v|e|] st' (I' & V & H' & R); [| |done].
    + apply wp_ret. split_and!; [done|done|simpl in *; by rewrite R|done].
    + destruct R as [_ Hno]. by split_and!.
  - apply wp_bind. eapply wp_mono; [by apply cache_read_checked_spec|]. intros [[ok v]|e|] st' (I' & V & H' & R); [| |done].
    + apply wp_ret. split_and!; [done|done| |done]. simpl in *. by injection R as -> ->.
    + destruct R as [_ Hno]. by split_and!.
  - by apply (serve_write st b v false).
  - by apply (serve_write st b v true).
  - apply wp_bind. eapply wp_mono; [by apply (flush_spec check)|]. intros [[]|e|] st' [(I' & V & _ & _) R]; [| |done].
    + apply wp_ret. by split_and!.
    + by split_and!.
  - apply wp_bind. eapply wp_mono; [by apply (shrink_spec check)|].
    intros r st' (n & l & l' & -> & (K' & C' & (V & _) & _) & _). apply wp_ret. by split_and!; [exists l'|..].
  - apply wp_bind. eapply wp_mono; [by apply (drop_all_spec check)|]. intros [[]|e|] st' (I' & V & R); [| |done].
    + apply wp_ret. by split_and!.
    + by split_and!.
Qed.

Lemma consistent_ext f f' qs rs g : same f f' → consistent f' qs rs g → consistent f qs rs g.
Proof.
  revert f f' rs. induction qs as [|q qs IH]; intros f f' rs E; destruct rs as [|r rs]; simpl; try done.
  - intros. by etrans.
  - destruct r as [a|e|]; try done; [|by apply IH]. intros [-> Hc]. split.
    + destruct q; simpl; try done; by rewrite (E b).
    + eapply IH; [|exact Hc]. intros b'. destruct q; simpl; try apply E; case_decide; try done; apply E.
Qed.

Lemma run_spec qs st : cache_inv check st → Forall valid qs →
  let '(rs, st') := run qs st in
  cache_inv check st' ∧ consistent (cache_view st) qs rs (cache_view st') ∧
  (cache_healthy st → forallb transfer qs = true → Forall (λ r, ∃ a, r = Ok a) rs).
Proof.
  revert st. induction qs as [|q qs IH]; intros st I Hv; simpl; [by split_and!|].
  apply Forall_cons in Hv as [Hq Hv]. pose proof (serve_spec q st I Hq) as Hs. unfold wp in Hs.
  destruct (serve q st) as [r st1]. destruct Hs as (I1 & H1 & R). specialize (IH st1 I1 Hv).
  destruct (run qs st1) as [rs st2]. destruct IH as (I2 & C2 & O2). destruct r as [a|e|]; [| |done].
  - destruct R as [-> V]. simpl. split; [done|]. split; [by split; [|eapply consistent_ext]|].
    intros Hh [Ht Hts]%andb_true_iff. constructor; [by eexists|]. apply O2; [by apply H1|done].
  - destruct R as [V Hno]. simpl. split; [done|]. split; [by eapply consistent_ext|].
    intros Hh [Ht _]%andb_true_iff. by destruct (Hno Ht).
Qed.

Lemma fresh_inv m u p d : MemorySpec.inv m → 8 * zlen (Memory.bitmap m) ≤ 2 ^ 31 → fits 64 u → map_Forall (λ _ v, is_block v) p → dev_inv d →
  cache_inv check (mkSt Cache.new m u p d).
Proof.
  intros Hm Ht Hu Hp Hd. exists []. split; [|by intros ? ? []%not_elem_of_nil].
  assert (∀ s, slot_of (mkSt Cache.new m u p d) s = None) as Hn.
  { intros s. unfold slot_of, slot, at_. simpl. destruct (0 <=? s); [by rewrite lookup_nil|done]. }
  split; simpl; try done.
  - split; try done.
    + constructor.
    + intros s []%not_elem_of_nil.
  - constructor.
  - intros s. rewrite Hn. split; [by intros ?%not_elem_of_nil|by intros []].
  - intros b s. rewrite lookup_empty. split; [done|by intros [?%not_elem_of_nil _]].
  - intros s x ?%not_elem_of_nil. done.
  - intros s t x y ?%not_elem_of_nil. done.
  - intros s x Hx. by rewrite Hn in Hx.
Qed.

(** C9. The cache is transparent.  Requests in any order, reads and writes,
    flushes, frames given back and the whole cache dropped, are answered as a
    plain array of blocks would answer them, and a request that fails has no
    effect, so no eviction, flush or shrink ever loses or resurrects a byte.  From a
    state where a slot can be had and the device serves its requests, reads and
    writes never fail. *)
Theorem cache_is_transparent qs st : cache_inv check st → Forall valid qs →
  let '(rs, st') := run qs st in
  cache_inv check st' ∧ consistent (cache_view st) qs rs (cache_view st') ∧
  (cache_healthy st → forallb transfer qs = true → Forall (λ r, ∃ a, r = Ok a) rs).
Proof. apply run_spec. Qed.

(** After a flush the device holds every block as reads return it and no slot
    is dirty; a flush that fails leaves every unwritten block in the cache, so a
    later one still finds it, and fails only when the device does. *)
Theorem flush_makes_durable st : cache_inv check st →
  wp flush (λ r st', cache_inv check st' ∧ same (cache_view st) (cache_view st') ∧ match r with
    | Ok _ => all_clean st' ∧ same (cache_view st) (dview (dev st'))
    | Err _ => ¬ dev_ok (dev st)
    | Panic => False
    end) st.
Proof. intros I. eapply wp_mono; [by apply (flush_spec check)|]. intros r st' [(I' & V & _) R]. by split_and!. Qed.

(** Shrinking gives memory back without losing data.  It returns the number of
    frames the allocator got back, never more than asked for, changes no block,
    keeps every dirty slot, and stops short only when all that is left is dirty. *)
Theorem shrink_frees_clean_frames_only st want : cache_inv check st → 0 ≤ want →
  wp (shrink want) (λ r st', ∃ n, r = Ok n ∧ 0 ≤ n ≤ want ∧ cache_inv check st' ∧
    same (cache_view st) (cache_view st') ∧ dev st' = dev st ∧
    Memory.free_count (mem st') = Memory.free_count (mem st) + n ∧
    (∀ s x, slot_of st s = Some x → s_dirty x = true → ∃ y, slot_of st' s = Some y ∧ alike x y) ∧
    (n < want → idle (cache st') = [] ∧
       ∀ b s x, cmap (cache st') !! b = Some s → slot_of st' s = Some x → s_dirty x = true)) st.
Proof.
  intros I Hw. eapply wp_mono; [by apply (shrink_spec check)|].
  intros r st' (n & l & l' & -> & (K' & C' & (V & Dv & _ & _ & Sl) & Hlo & Hhi & F) & Hor).
  exists n. split; [done|]. split; [split; [lia|by apply Hhi]|]. split_and!; [by exists l'|done|done|lia|done|].
  intros Hlt. destruct Hor as [?|[Hi Hd]]; [lia|]. split; [done|]. intros b s x Hm. apply Hd.
  by apply (k_map _ _ _ K') in Hm as [? _].
Qed.
End refine.

(** ** On a device *)
Definition ex_cache : @St MemStore := mkSt Cache.new ex_boot (250 * 4096) ∅ ∅.
Definition ex_requests : list request :=
  [Wr 300 (replicate 4096 x01); Rd 300; Fl; Wr 301 zero_block; Shr 1; RdChecked 300; Dr; Rd 300].
Definition accept (_ : list byte) : bool := true.

Lemma ex_cache_inv : cache_inv accept ex_cache.
Proof.
  apply fresh_inv; [exact ex_boot_inv|vm_compute; discriminate|vm_compute; split; [discriminate|reflexivity]|apply map_Forall_empty|].
  apply map_Forall_empty.
Qed.

Lemma cache_is_transparent_witness :
  let '(rs, st') := run accept None ex_requests ex_cache in
  cache_inv accept st' ∧ consistent accept (cache_view ex_cache) ex_requests rs (cache_view st') ∧ length rs = 8%nat.
Proof.
  pose proof (cache_is_transparent accept None ex_requests ex_cache ex_cache_inv) as H.
  assert (length (run accept None ex_requests ex_cache).1 = 8%nat) as Hl by (vm_compute; reflexivity).
  destruct (run accept None ex_requests ex_cache) as [rs st'].
  destruct H as (I & C & _); [repeat constructor|]. exact (conj I (conj C Hl)).
Defined.

(** One block written and not flushed, one read. *)
Definition ex_used : @St MemStore := (run accept None [Wr 300 (replicate 4096 x01); Rd 301] ex_cache).2.

Lemma ex_used_inv : cache_inv accept ex_used.
Proof.
  pose proof (run_spec accept None [Wr 300 (replicate 4096 x01); Rd 301] ex_cache ex_cache_inv) as H. unfold ex_used.
  destruct (run accept None _ ex_cache) as [rs st']. by apply H; repeat constructor.
Qed.

Lemma flush_makes_durable_witness :
  held (cache ex_used) = (2, 1) ∧
  wp flush (λ r st', cache_inv accept st' ∧ same (cache_view ex_used) (cache_view st') ∧ match r with
    | Ok _ => all_clean st' ∧ same (cache_view ex_used) (dview (dev st'))
    | Err _ => ¬ dev_ok (dev ex_used)
    | Panic => False
    end) ex_used.
Proof. split; [vm_compute; reflexivity|]. apply (flush_makes_durable accept), ex_used_inv. Defined.

Lemma shrink_frees_clean_frames_only_witness :
  (∃ st', shrink 4 ex_used = (Ok 1, st')) ∧
  wp (shrink 4) (λ r st', ∃ n, r = Ok n ∧ 0 ≤ n ≤ 4 ∧ cache_inv accept st') ex_used.
Proof.
  split.
  - assert ((shrink 4 ex_used).1 = Ok 1) as E by (vm_compute; reflexivity).
    destruct (shrink 4 ex_used) as [r st']. exists st'. simpl in E. by rewrite E.
  - eapply wp_mono; [apply (shrink_frees_clean_frames_only accept ex_used 4 ex_used_inv); lia|].
    intros r st' (n & -> & Hn & I & _). exact (ex_intro _ n (conj eq_refl (conj Hn I))).
Defined.
