(* ===== verification/Journal.v ===== *)
(** * The deferred-free journal (storage/npkfs/journal.rs)

    A ring of [JOURNAL_BLOCKS] blocks.  [prepare] writes the ranges a commit will
    free, marked uncommitted; [finalize] marks them committed once the superblock
    is durable; [replay] reads back, at mount, what was committed and may not have
    reached the bitmap.  The code runs on the cache and the journal side by side;
    [replay] on the cache alone. *)

From S2P Require Import Prelude Bytes Format BlockStore.

Record Journal := mkJournal {
  j_head : Z;                        (* next write position in the ring *)
  j_seq : Z;
  pending_frees : list (Z * Z);
  uncommitted_blocks : list Z }.

Definition set_pending (l : list (Z * Z)) (j : Journal) :=
  mkJournal (j_head j) (j_seq j) l (uncommitted_blocks j).

Definition new (head seq : Z) : Journal := mkJournal head seq [] [].
Definition pending (j : Journal) : Z := zlen (pending_frees j).

Definition record_free (start count : Z) (j : Journal) : Journal :=
  if 0 <? count then set_pending (pending_frees j ++ [(start, count)]) j else j.

(** ** Ranges *)

(** [sort_unstable] on pairs: the order is total, so the result is the sorted
    list. *)
Definition pair_leb (x y : Z * Z) : bool :=
  (x.1 <? y.1) || ((x.1 =? y.1) && (x.2 <=? y.2)).
Fixpoint insert_pair (x : Z * Z) (l : list (Z * Z)) : list (Z * Z) :=
  match l with
  | [] => [x]
  | y :: l' => if pair_leb x y then x :: l else y :: insert_pair x l'
  end.
Definition sort_pairs (l : list (Z * Z)) : list (Z * Z) := fold_right insert_pair [] l.

(** [for &(start, cnt) in &self.pending_frees], [merged] with its last element
    first. *)
Definition merge_range (merged : list (Z * Z)) (x : Z * Z) : list (Z * Z) :=
  match merged with
  | (s, c) :: rest => if u64 (s + c) =? x.1 then (s, u64 (c + x.2)) :: rest else x :: merged
  | [] => [x]
  end.
Definition merge_ranges (l : list (Z * Z)) : list (Z * Z) := rev (fold_left merge_range l []).

Definition room : Z := JOURNAL_BLOCKS * MAX_JOURNAL_ENTRIES.

(** ** One journal block *)
Fixpoint put_entries (l : list (Z * Z)) (i : Z) (buf : block) : option block :=
  match l with
  | [] => Some buf
  | (start, cnt) :: l =>
      let off := 24 + i * 16 in
      buf ← splice buf off (le64 start);
      buf ← splice buf (off + 8) (le64 cnt);
      put_entries l (i + 1) buf
  end.

Definition journal_block (seq : Z) (l : list (Z * Z)) : option block :=
  buf ← splice zero_block 0 JOURNAL_MAGIC;
  buf ← splice buf 8 (le64 seq);
  buf ← splice buf 16 (le32 (u32 (zlen l)));
  buf ← splice buf 20 (le32 0);
  put_entries l 0 buf.

(** [for j in 0..entry_count] of [replay]. *)
Fixpoint get_entries (n : nat) (j : Z) (buf : block) : option (list (Z * Z)) :=
  match n with
  | O => Some []
  | S n =>
      let off := 24 + j * 16 in
      s ← sub buf off 8;
      c ← sub buf (off + 8) 8;
      let '(start, cnt) := (of_le s, of_le c) in
      r ← get_entries n (j + 1) buf;
      Some (if (0 <? start) && (0 <? cnt) then (start, cnt) :: r else r)
  end.

Section store.
Context {C : Type} `{!BlockStore C}.
Notation MJ := (M (C * Journal) FsError).

Definition modify_journal (f : Journal → Journal) : MJ unit := λ '(c, j), (Ok tt, (c, f j)).

(** ** Phase 1 *)

(** [while offset < self.pending_frees.len()], on the ranges from [offset] on. *)
Fixpoint prepare_loop (fuel : nat) (rest : list (Z * Z)) : MJ unit :=
  match rest with
  | [] => mret tt
  | _ :: _ =>
      match fuel with
      | O => panic
      | S fuel =>
          let count := Z.min (zlen rest) MAX_JOURNAL_ENTRIES in
          '(_, j) ← get;
          buf ← of_opt (journal_block (j_seq j) (take (Z.to_nat count) rest));
          let jb := u64 (JOURNAL_START + j_head j) in
          _ ← on_fst (write jb buf);
          _ ← modify_journal (λ j, mkJournal (u64 (j_head j + 1) `mod` JOURNAL_BLOCKS) (j_seq j)
                 (pending_frees j) (uncommitted_blocks j ++ [jb]));
          prepare_loop fuel (drop (Z.to_nat count) rest)
      end
  end.

Definition prepare : MJ unit :=
  '(_, j) ← get;
  if bool_decide (pending_frees j = []) then mret tt
  else
    let merged := merge_ranges (sort_pairs (pending_frees j)) in
    let kept := if room <? zlen merged then take (Z.to_nat room) merged else merged in
    _ ← modify_journal (λ j, mkJournal (j_head j) (u64 (j_seq j + 1)) kept []);
    _ ← prepare_loop (length kept) kept;
    modify_journal (set_pending []).

(** ** Phase 2 *)
Fixpoint finalize_loop (blocks : list Z) : MJ unit :=
  match blocks with
  | [] => mret tt
  | b :: blocks =>
      buf ← on_fst (read b);
      buf ← of_opt (splice buf 20 (le32 1));
      _ ← on_fst (write b buf);
      finalize_loop blocks
  end.
Definition finalize : MJ unit :=
  '(_, j) ← get;
  _ ← finalize_loop (uncommitted_blocks j);
  modify_journal (λ j, mkJournal (j_head j) (j_seq j) (pending_frees j) []).

(** ** Mount *)
Definition check_pos (head i : Z) : Z :=
  if 1 + i <=? head then head - 1 - i else u64 (JOURNAL_BLOCKS - 1 - i + head).

(** [for i in 0..JOURNAL_BLOCKS], [n] rounds left; [frees] so far. *)
Fixpoint replay_loop (n : nat) (i head expected_seq : Z) (frees : list (Z * Z)) : M C FsError (list (Z * Z)) :=
  match n with
  | O => mret frees
  | S n =>
      buf ← read (u64 (JOURNAL_START + check_pos head i));
      m ← of_opt (sub buf 0 8);
      if negb (bool_decide (m = JOURNAL_MAGIC)) then mret frees
      else
        s ← of_opt (sub buf 8 8);
        cnt ← of_opt (sub buf 16 4);
        com ← of_opt (sub buf 20 4);
        let '(seq, count, committed) := (of_le s, of_le cnt, of_le com) in
        if negb (committed =? 1) then replay_loop n (i + 1) head expected_seq frees
        else if seq <? expected_seq then mret frees
        else
          let entry_count := Z.min count MAX_JOURNAL_ENTRIES in
          es ← of_opt (get_entries (Z.to_nat entry_count) 0 buf);
          replay_loop n (i + 1) head expected_seq (frees ++ es)
  end.
Definition replay (head expected_seq : Z) : M C FsError (list (Z * Z)) :=
  replay_loop (Z.to_nat JOURNAL_BLOCKS) 0 head expected_seq [].
End store.

(** * What the journal replays

    The ranges [prepare] and [finalize] recorded are exactly the blocks [replay]
    frees, and until [finalize] has run none of them is. *)

(** ** Sets of blocks *)
Definition covers (l : list (Z * Z)) (b : Z) : Prop := ∃ s n, (s, n) ∈ l ∧ s ≤ b < s + n.

Lemma covers_nil b : ¬ covers [] b.
Proof. by intros (s & n & []%not_elem_of_nil & _). Qed.
Lemma covers_cons x l b : covers (x :: l) b ↔ x.1 ≤ b < x.1 + x.2 ∨ covers l b.
Proof.
  destruct x as [s n]. unfold covers. setoid_rewrite elem_of_cons. split.
  - intros (s' & n' & [[= -> ->]|Hin] & Hb); eauto 10.
  - intros [Hb|(s' & n' & Hin & Hb)]; eauto 10.
Qed.
#[global] Instance covers_perm : Proper ((≡ₚ) ==> eq ==> iff) covers.
Proof. intros l k E b ? <-. unfold covers. by setoid_rewrite E. Qed.

Definition range_ok (x : Z * Z) : Prop := 0 < x.1 ∧ 0 < x.2 ∧ x.1 + x.2 < 2 ^ 64.

Lemma insert_pair_perm x l : insert_pair x l ≡ₚ x :: l.
Proof. induction l as [|y l IH]; simpl; [done|]. case_match; [done|]. rewrite IH. apply perm_swap. Qed.
Lemma sort_pairs_perm l : sort_pairs l ≡ₚ l.
Proof. induction l as [|x l IH]; simpl; [done|]. by rewrite insert_pair_perm, IH. Qed.

(** One merging step covers what was covered and the new range. *)
Lemma merge_range_covers acc x b : Forall range_ok acc → range_ok x →
  Forall range_ok (merge_range acc x) ∧ (covers (merge_range acc x) b ↔ covers acc b ∨ x.1 ≤ b < x.1 + x.2).
Proof.
  intros Ha Hx. destruct acc as [|[s c] rest]; simpl.
  - split; [by constructor|]. rewrite covers_cons. pose proof (covers_nil b). tauto.
  - apply Forall_cons in Ha as [Hs Hr]. destruct x as [t n], Hs as (H1 & H2 & H3), Hx as (X1 & X2 & X3). simpl in *.
    unfold wrap. rewrite (Z.mod_small (s + c)) by lia. destruct (Z.eqb_spec (s + c) t) as [<-|Hne].
    + rewrite (Z.mod_small (c + n)) by lia. split; [constructor; [|done]; split_and!; simpl; lia|].
      rewrite !covers_cons. simpl. split; intros; destruct_or?; simp; try tauto; try lia.
    + split; [constructor; [by split_and!|constructor; [by split_and!|done]]|]. rewrite !covers_cons. simpl. tauto.
Qed.

Lemma merge_ranges_covers l : Forall range_ok l →
  Forall range_ok (merge_ranges l) ∧ ∀ b, covers (merge_ranges l) b ↔ covers l b.
Proof.
  intros Hl. unfold merge_ranges.
  assert (∀ acc, Forall range_ok acc → Forall range_ok (fold_left merge_range l acc) ∧
    ∀ b, covers (fold_left merge_range l acc) b ↔ covers acc b ∨ covers l b) as H.
  { induction Hl as [|x l Hx Hl IH]; intros acc Ha; simpl.
    - split; [done|]. intros b. pose proof (covers_nil b). tauto.
    - destruct (IH (merge_range acc x)) as [H1 H2]; [by apply (merge_range_covers acc x 0)|]. split; [done|].
      intros b. rewrite H2, covers_cons. destruct (merge_range_covers acc x b Ha Hx) as [_ ->]. tauto. }
  destruct (H []) as [H1 H2]; [done|]. split; [by apply Forall_rev|].
  intros b. rewrite <- (Permutation_rev (fold_left merge_range l [])), H2. pose proof (covers_nil b). tauto.
Qed.

(** ** One journal block *)
Definition jmagic (v : block) : bool := bool_decide (raw_sub v 0 8 = JOURNAL_MAGIC).
Definition jseq (v : block) : Z := of_le (raw_sub v 8 8).
Definition jcount (v : block) : Z := of_le (raw_sub v 16 4).
Definition jcommitted (v : block) : Z := of_le (raw_sub v 20 4).
Definition jentry (v : block) (i : Z) : Z * Z := (of_le (raw_sub v (24 + i * 16) 8), of_le (raw_sub v (24 + i * 16 + 8) 8)).

(** The ranges [replay] takes from a block. *)
Definition nonzero (x : Z * Z) : bool := (0 <? x.1) && (0 <? x.2).
Definition jranges (v : block) : list (Z * Z) :=
  List.filter nonzero (jentry v <$> seqZ 0 (Z.min (jcount v) MAX_JOURNAL_ENTRIES)).

Lemma get_entries_spec n j v : is_block v → 0 ≤ j → j + Z.of_nat n ≤ MAX_JOURNAL_ENTRIES →
  get_entries n j v = Some (List.filter nonzero (jentry v <$> seqZ j (Z.of_nat n))).
Proof.
  intros Hv. revert j. induction n as [|n IH]; intros j Hj Hn; [done|].
  rewrite seqZ_cons by lia. replace (Z.pred (Z.of_nat (S n))) with (Z.of_nat n) by lia. unfold is_block, BLOCK_SIZE in Hv.
  replace MAX_JOURNAL_ENTRIES with 254 in * by done. unfold get_entries; fold get_entries.
  rewrite !sub_Some by lia. cbn [mbind option_bind]. rewrite IH by lia. replace (Z.succ j) with (j + 1) by lia. done.
Qed.

Lemma sub_splice_le64 (v : block) a z : 0 ≤ a → a + 8 ≤ zlen v → raw_sub (raw_splice v a (le64 z)) a 8 = le64 z.
Proof. exact (sub_splice_same v a (le64 z)). Qed.

Lemma sub_splice_le32 (v : block) a z : 0 ≤ a → a + 4 ≤ zlen v → raw_sub (raw_splice v a (le32 z)) a 4 = le32 z.
Proof. exact (sub_splice_same v a (le32 z)). Qed.

(** Writing the entries leaves the header and sets them. *)
Lemma put_entries_spec l i v : is_block v → 0 ≤ i → i + zlen l ≤ MAX_JOURNAL_ENTRIES →
  Forall (λ x, fits 64 x.1 ∧ fits 64 x.2) l →
  ∃ v', put_entries l i v = Some v' ∧ is_block v' ∧
    (∀ a n, 0 ≤ a → a + n ≤ 24 + i * 16 → raw_sub v' a n = raw_sub v a n) ∧
    (∀ k, (k < length l)%nat → l !! k = Some (jentry v' (i + Z.of_nat k))).
Proof.
  unfold is_block, BLOCK_SIZE. replace MAX_JOURNAL_ENTRIES with 254 by done.
  revert i v. induction l as [|[s c] l IH]; intros i v Hv Hi Hn Hf; simpl put_entries.
  { exists v. split_and!; try done. simpl. intros. lia. }
  apply Forall_cons in Hf as [[Hs Hc] Hf]. rewrite zlen_cons in Hn. pose proof (zlen_nonneg l).
  rewrite splice_Some by (rewrite ?zlen_le64; lia). cbn [mbind option_bind].
  set (v1 := raw_splice v (24 + i * 16) (le64 s)).
  assert (zlen v1 = 4096) as H1 by (unfold v1; rewrite zlen_raw_splice; rewrite ?zlen_le64; lia).
  rewrite splice_Some by (rewrite ?zlen_le64; lia). cbn [mbind option_bind].
  set (v2 := raw_splice v1 (24 + i * 16 + 8) (le64 c)).
  assert (zlen v2 = 4096) as H2 by (unfold v2; rewrite zlen_raw_splice; rewrite ?zlen_le64; lia).
  destruct (IH (i + 1) v2) as (v' & -> & Hb & Hlow & He); [done|lia|lia|done|]. exists v'. split_and!; try done.
  - intros a n Ha Hn'. rewrite Hlow by lia. unfold v2. rewrite sub_splice_disjoint by (rewrite ?zlen_le64; lia).
    unfold v1. by rewrite sub_splice_disjoint by (rewrite ?zlen_le64; lia).
  - intros [|k] Hk; simpl lookup.
    + f_equal. unfold jentry. replace (i + Z.of_nat 0) with i by lia. rewrite !Hlow by lia.
      assert (raw_sub v2 (24 + i * 16 + 8) 8 = le64 c) as ->.
      { apply sub_splice_le64; lia. }
      assert (raw_sub v2 (24 + i * 16) 8 = le64 s) as ->.
      { unfold v2. rewrite sub_splice_disjoint by (rewrite ?zlen_le64; lia). apply sub_splice_le64; lia. }
      by rewrite !of_le64 by done.
    + simpl in Hk. rewrite He by lia. by replace (i + 1 + Z.of_nat k) with (i + Z.of_nat (S k)) by lia.
Qed.

(** A block [prepare] writes for the ranges [l]. *)
Record journalled (v : block) (seq : Z) (l : list (Z * Z)) (committed : Z) : Prop := {
  jd_block : is_block v;
  jd_magic : jmagic v = true;
  jd_seq : jseq v = seq;
  jd_committed : jcommitted v = committed;
  jd_ranges : jranges v = List.filter nonzero l;
}.

Lemma entries_fmap v (l : list (Z * Z)) :
  (∀ k, (k < length l)%nat → l !! k = Some (jentry v (0 + Z.of_nat k))) → jentry v <$> seqZ 0 (zlen l) = l.
Proof.
  intros H. apply list_eq. intros k. rewrite list_lookup_fmap.
  destruct (decide (k < length l)%nat) as [Hk|Hk].
  - rewrite H by done. unfold zlen. rewrite lookup_seqZ_lt by lia. done.
  - rewrite (lookup_ge_None_2 l) by lia. unfold zlen. rewrite lookup_seqZ_ge by lia. done.
Qed.

Lemma journal_block_spec seq l : fits 64 seq → zlen l ≤ MAX_JOURNAL_ENTRIES →
  Forall (λ x, fits 64 x.1 ∧ fits 64 x.2) l →
  ∃ v, journal_block seq l = Some v ∧ journalled v seq l 0.
Proof.
  intros Hseq Hl Hf. unfold journal_block. replace MAX_JOURNAL_ENTRIES with 254 in Hl by done. pose proof (zlen_nonneg l).
  assert (zlen zero_block = 4096) as H0 by (exact zero_block_is_block).
  assert (zlen JOURNAL_MAGIC = 8) as Hm by done.
  rewrite splice_Some by lia. cbn [mbind option_bind]. set (v1 := raw_splice zero_block _ _).
  assert (zlen v1 = 4096) as H1 by (unfold v1; rewrite zlen_raw_splice; lia).
  rewrite splice_Some by (rewrite ?zlen_le64; lia). cbn [mbind option_bind]. set (v2 := raw_splice v1 _ _).
  assert (zlen v2 = 4096) as H2 by (unfold v2; rewrite zlen_raw_splice; rewrite ?zlen_le64; lia).
  rewrite splice_Some by (rewrite ?zlen_le32; lia). cbn [mbind option_bind]. set (v3 := raw_splice v2 _ _).
  assert (zlen v3 = 4096) as H3 by (unfold v3; rewrite zlen_raw_splice; rewrite ?zlen_le32; lia).
  rewrite splice_Some by (rewrite ?zlen_le32; lia). cbn [mbind option_bind]. set (v4 := raw_splice v3 _ _).
  assert (zlen v4 = 4096) as H4 by (unfold v4; rewrite zlen_raw_splice; rewrite ?zlen_le32; lia).
  destruct (put_entries_spec l 0 v4) as (v & -> & Hb & Hlow & He); [done|lia|by replace MAX_JOURNAL_ENTRIES with 254|done|].
  exists v. split; [done|].
  assert (jcount v = zlen l) as Hc.
  { unfold jcount. rewrite Hlow by lia. unfold v4. rewrite sub_splice_disjoint by (rewrite ?zlen_le32; lia).
    unfold v3. rewrite sub_splice_le32 by lia.
    rewrite wrap_small by (unfold fits; lia). apply of_le32. unfold fits. lia. }
  split; [done|..].
  - unfold jmagic. apply bool_decide_eq_true. rewrite Hlow by lia. unfold v4. rewrite sub_splice_disjoint by (rewrite ?zlen_le32; lia).
    unfold v3. rewrite sub_splice_disjoint by (rewrite ?zlen_le32; lia).
    unfold v2. rewrite sub_splice_disjoint by (rewrite ?zlen_le64; lia). exact (sub_splice_same zero_block 0 JOURNAL_MAGIC ltac:(lia) ltac:(lia)).
  - unfold jseq. rewrite Hlow by lia. unfold v4. rewrite sub_splice_disjoint by (rewrite ?zlen_le32; lia).
    unfold v3. rewrite sub_splice_disjoint by (rewrite ?zlen_le32; lia).
    unfold v2. rewrite sub_splice_le64 by lia. by apply of_le64.
  - unfold jcommitted. rewrite Hlow by lia. unfold v4. rewrite sub_splice_le32 by lia. done.
  - unfold jranges. rewrite Hc. replace MAX_JOURNAL_ENTRIES with 254 by done. rewrite Z.min_l by lia. f_equal.
    apply entries_fmap. done.
Qed.

(** What [finalize] does to a block. *)
Lemma committed_block v seq l : journalled v seq l 0 → journalled (raw_splice v 20 (le32 1)) seq l 1.
Proof.
  intros [Hb Hm Hs Hc Hr]. unfold is_block, BLOCK_SIZE in Hb. set (v' := raw_splice v 20 (le32 1)).
  assert (zlen v' = 4096) as Hb' by (unfold v'; rewrite zlen_raw_splice; rewrite ?zlen_le32; lia).
  assert (∀ a n, 0 ≤ a → a + n ≤ 20 ∨ 24 ≤ a → raw_sub v' a n = raw_sub v a n) as Ho.
  { intros a n Ha Hn. unfold v'. apply sub_splice_disjoint; rewrite ?zlen_le32; lia. }
  split; [done|..].
  - unfold jmagic. by rewrite Ho by lia.
  - unfold jseq. by rewrite Ho by lia.
  - unfold jcommitted, v'. rewrite sub_splice_le32 by lia. done.
  - rewrite <- Hr. unfold jranges, jcount. rewrite Ho by lia. f_equal. apply list_fmap_ext.
    intros k i Hi%list_elem_of_lookup_2%elem_of_seqZ. unfold jentry. by rewrite !Ho by lia.
Qed.

(** ** The scan *)

(** [replay] on a view of the disk. *)
Fixpoint scan (f : Z → block) (n : nat) (i head expected : Z) : list (Z * Z) :=
  match n with
  | O => []
  | S n =>
      let v := f (u64 (JOURNAL_START + check_pos head i)) in
      if negb (jmagic v) then []
      else if negb (jcommitted v =? 1) then scan f n (i + 1) head expected
      else if jseq v <? expected then []
      else jranges v ++ scan f n (i + 1) head expected
  end.

Lemma scan_ext f g n i head expected : same f g → scan g n i head expected = scan f n i head expected.
Proof. intros E. revert i. induction n as [|n IH]; intros i; simpl; [done|]. by rewrite E, IH. Qed.

Section store.
Context {C : Type} `{!BlockStore C} {check : block → bool} `{!BlockStoreOk C check}.
Implicit Types (c : C) (j : Journal).

Lemma replay_loop_spec n i head expected frees c : store_inv c →
  wp (replay_loop n i head expected frees) (λ r c', store_inv c' ∧ same (view c) (view c') ∧ (healthy c → healthy c') ∧
    ends (healthy c) r (λ fs, fs = frees ++ scan (view c) n i head expected) True) c.
Proof.
  revert i frees c. induction n as [|n IH]; intros i frees c I; simpl replay_loop; simpl scan.
  { apply wp_ret. split_and!; try done. simpl. by rewrite app_nil_r. }
  apply wp_bind. eapply wp_mono; [by apply (read_spec (check := check))|]. intros r c1 (I1 & V1 & H1 & R).
  destruct r as [v|e|]; [|by split_and!|done]. simpl in R. set (v0 := view c _) in *. subst v.
  assert (is_block v0) as Hb by (by apply view_block). unfold is_block, BLOCK_SIZE in Hb.
  assert (∀ rest, wp (replay_loop n (i + 1) head expected rest) (λ r c', store_inv c' ∧ same (view c) (view c') ∧
    (healthy c → healthy c') ∧ ends (healthy c) r (λ fs, fs = rest ++ scan (view c) n (i + 1) head expected) True) c1) as Hgo.
  { intros rest. eapply wp_mono; [by apply IH|]. intros r c2 (I2 & V2 & H2 & R). split_and!; [done|by etrans|auto|].
    destruct r as [fs|e|]; simpl in *; [|tauto|done]. by rewrite R, (scan_ext _ _ _ _ _ _ V1). }
  apply wp_bind. eapply wp_of_opt; [apply sub_Some; lia|]. fold (jmagic v0).
  destruct (jmagic v0); simpl negb; cbv iota.
  2:{ apply wp_ret. split_and!; try done. simpl. by rewrite app_nil_r. }
  do 3 (apply wp_bind; eapply wp_of_opt; [apply sub_Some; lia|]).
  fold (jcommitted v0) (jseq v0) (jcount v0). destruct (jcommitted v0 =? 1); simpl negb; cbv iota; [|apply Hgo].
  destruct (jseq v0 <? expected).
  { apply wp_ret. split_and!; try done. simpl. by rewrite app_nil_r. }
  assert (0 ≤ jcount v0) as Hc by (unfold jcount; apply of_le_range). replace MAX_JOURNAL_ENTRIES with 254 by done.
  apply wp_bind. eapply wp_of_opt; [apply get_entries_spec; [done|lia|replace MAX_JOURNAL_ENTRIES with 254 by done; lia]|].
  rewrite Z2Nat.id by lia. replace 254 with MAX_JOURNAL_ENTRIES by done. fold (jranges v0). eapply wp_mono; [apply Hgo|].
  intros r c2 (I2 & V2 & H2 & R). split_and!; try done. destruct r; simpl in *; [|done|done]. by rewrite R, app_assoc.
Qed.

(** ** Writing *)
Definition slot_at (head k : Z) : Z := JOURNAL_START + (head + k) `mod` JOURNAL_BLOCKS.

Definition in_ring (b : Z) : Prop := JOURNAL_START ≤ b < META_END.

Lemma slot_at_ring head k : in_ring (slot_at head k).
Proof. unfold in_ring, slot_at. pose proof (Z.mod_pos_bound (head + k) 256). unfold META_END, JOURNAL_BLOCKS, JOURNAL_START in *. lia. Qed.

Lemma slot_at_inj head k k' : slot_at head k = slot_at head k' → Z.abs (k - k') < JOURNAL_BLOCKS → k = k'.
Proof.
  unfold slot_at, JOURNAL_BLOCKS. intros E Ha. assert ((head + k) `mod` 256 = (head + k') `mod` 256) as E' by lia.
  pose proof (Z.div_mod (head + k) 256). pose proof (Z.div_mod (head + k') 256). nia.
Qed.

Lemma slot_at_step head k : slot_at ((head + 1) `mod` JOURNAL_BLOCKS) k = slot_at head (k + 1).
Proof. unfold slot_at. f_equal. rewrite Zplus_mod_idemp_l. f_equal. lia. Qed.

(** The chunks [bs] in the slots from [head] on, the rest of the ring unchanged. *)
Record logged (f g : Z → block) (head seq : Z) (bs : list (list (Z * Z))) : Prop := {
  lg_blocks (k : nat) l : bs !! k = Some l → journalled (g (slot_at head (Z.of_nat k))) seq l 0;
  lg_other b : in_ring b → (∀ k, 0 ≤ k < zlen bs → b ≠ slot_at head k) → g b = f b;
}.

(** Blocks changed are uncommitted entries of the ring. *)
Definition scratched (f g : Z → block) : Prop :=
  ∀ b, g b = f b ∨ in_ring b ∧ jcommitted (g b) = 0.

#[local] Instance scratched_trans : Transitive scratched.
Proof. intros f g h H1 H2 b. destruct (H2 b) as [->|]; [apply H1|by right]. Qed.

Lemma scratched_write f b v g : in_ring b → jcommitted v = 0 → updated f b v g → scratched f g.
Proof.
  intros Hb Hv [E O] b'. destruct (decide (b' = b)) as [->|Hne]; [right; by rewrite E|left; by apply O].
Qed.

Lemma same_scratched f g : same f g → scratched f g.
Proof. intros E b. by left. Qed.

Lemma logged_cons f f1 g head seq l bs : 0 ≤ head < JOURNAL_BLOCKS → zlen bs < JOURNAL_BLOCKS →
  journalled (f1 (slot_at head 0)) seq l 0 → (∀ b, b ≠ slot_at head 0 → f1 b = f b) →
  logged f1 g ((head + 1) `mod` JOURNAL_BLOCKS) seq bs → logged f g head seq (l :: bs).
Proof.
  intros Hh Hn Hj Ho [Lb Lo]. split.
  - intros [|k] l' Hk.
    + injection Hk as <-. simpl Z.of_nat. rewrite Lo; [done|apply slot_at_ring|]. intros k Hk E. rewrite slot_at_step in E.
      apply slot_at_inj in E; unfold JOURNAL_BLOCKS in *; lia.
    + specialize (Lb k l' Hk). rewrite slot_at_step in Lb. by replace (Z.of_nat (S k)) with (Z.of_nat k + 1) by lia.
  - intros b Hr Hb. rewrite zlen_cons in Hb. rewrite Lo; [|done|].
    + apply Ho, Hb. pose proof (zlen_nonneg bs). lia.
    + intros k Hk. rewrite slot_at_step. apply Hb. lia.
Qed.

Definition prepared c j rest (r : res FsError unit) c' j' : Prop :=
  store_inv c' ∧ (healthy c → healthy c') ∧ scratched (view c) (view c') ∧
  0 ≤ j_head j' < JOURNAL_BLOCKS ∧ j_seq j' = j_seq j ∧ pending_frees j' = pending_frees j ∧
  ends (healthy c) r (λ _, ∃ bs, mjoin bs = rest ∧ MAX_JOURNAL_ENTRIES * zlen bs < zlen rest + MAX_JOURNAL_ENTRIES ∧
    logged (view c) (view c') (j_head j) (j_seq j) bs ∧ j_head j' = (j_head j + zlen bs) `mod` JOURNAL_BLOCKS ∧
    uncommitted_blocks j' = uncommitted_blocks j ++ (slot_at (j_head j) <$> seqZ 0 (zlen bs))) True.

Lemma prepared_nil c j : store_inv c → 0 ≤ j_head j < JOURNAL_BLOCKS → prepared c j [] (Ok tt) c j.
Proof.
  intros I Hh. split; [done|]. split; [done|]. split; [by apply same_scratched|]. split; [done|]. split; [done|]. split; [done|].
  exists []. split; [done|]. split; [done|]. split; [by split|]. rewrite zlen_nil, Z.add_0_r, Z.mod_small by done.
  split; [done|]. by rewrite app_nil_r.
Qed.

Lemma prepare_loop_S fuel rest : rest ≠ [] → prepare_loop (C := C) (S fuel) rest =
  (let count := Z.min (zlen rest) MAX_JOURNAL_ENTRIES in
   '(_, j) ← get;
   buf ← of_opt (journal_block (j_seq j) (take (Z.to_nat count) rest));
   let jb := u64 (JOURNAL_START + j_head j) in
   _ ← on_fst (write jb buf);
   _ ← modify_journal (λ j, mkJournal (u64 (j_head j + 1) `mod` JOURNAL_BLOCKS) (j_seq j)
          (pending_frees j) (uncommitted_blocks j ++ [jb]));
   prepare_loop fuel (drop (Z.to_nat count) rest)).
Proof. by destruct rest. Qed.

Lemma prepare_loop_spec fuel rest c j : store_inv c → 0 ≤ j_head j < JOURNAL_BLOCKS → fits 64 (j_seq j) →
  (length rest ≤ fuel)%nat → zlen rest ≤ room → Forall (λ x, fits 64 x.1 ∧ fits 64 x.2) rest →
  wp (prepare_loop fuel rest) (λ r '(c', j'), prepared c j rest r c' j') (c, j).
Proof.
  revert rest c j. induction fuel as [|fuel IH]; intros rest c j I Hh Hs Hf Hr Hfit;
    (destruct rest as [|x rest']; [apply wp_ret; by apply prepared_nil|]); [simpl in Hf; lia|].
  set (rest := x :: rest') in *. set (count := Z.min (zlen rest) MAX_JOURNAL_ENTRIES).
  assert (MAX_JOURNAL_ENTRIES = 254) as HM by done. assert (room = 65024) as HR by done. assert (JOURNAL_BLOCKS = 256) as HJ by done.
  assert (0 < count ≤ zlen rest ∧ count ≤ 254 ∧ (zlen rest = count ∨ count = 254)) as Hc.
  { unfold count, rest. rewrite zlen_cons. pose proof (zlen_nonneg rest'). lia. }
  set (now := take (Z.to_nat count) rest). set (later := drop (Z.to_nat count) rest).
  assert (now ++ later = rest) as Hsplit by apply take_drop.
  assert (zlen now = count) as Hnow by (unfold now, zlen; rewrite length_take; unfold zlen in Hc; lia).
  assert (zlen later = zlen rest - count) as Hlater by (rewrite <- Hsplit, zlen_app in *; lia).
  rewrite <- Hsplit in Hfit. apply Forall_app in Hfit as [Hfn Hfl].
  destruct (journal_block_spec (j_seq j) now Hs) as (v & Ev & Hv); [lia|done|].
  rewrite prepare_loop_S by done. cbv zeta. fold count now later.
  apply wp_bind. unfold wp at 1, get. apply wp_bind. eapply wp_of_opt; [exact Ev|]. apply wp_bind, wp_on_fst.
  assert (u64 (JOURNAL_START + j_head j) = slot_at (j_head j) 0) as ->.
  { unfold slot_at. rewrite Z.add_0_r, Z.mod_small by lia. apply wrap_small. unfold fits, JOURNAL_START, SUPERBLOCK_START, SUPERBLOCK_SLOTS. lia. }
  eapply wp_mono; [apply (write_spec (check := check)); [done|apply Hv]|]. intros r c1 (I1 & H1 & R).
  destruct r as [[]|e|]; cbn [ends] in R; [| |by destruct R].
  2:{ destruct R as [V Hno]. exact (conj I1 (conj H1 (conj (same_scratched _ _ V) (conj Hh (conj eq_refl (conj eq_refl (conj Logic.I Hno))))))). }
  assert (scratched (view c) (view c1)) as S1 by (eapply scratched_write; [apply slot_at_ring|apply Hv|exact R]).
  apply wp_bind. unfold wp at 1, modify_journal. set (j1 := mkJournal _ _ _ _).
  assert (j_head j1 = (j_head j + 1) `mod` JOURNAL_BLOCKS) as Hj1.
  { unfold j1. simpl. f_equal. apply wrap_small. unfold fits. lia. }
  eapply wp_mono; [apply (IH later c1 j1 I1); [|exact Hs| | |exact Hfl]|].
  - rewrite Hj1. apply Z.mod_pos_bound. lia.
  - unfold zlen in Hlater, Hc. simpl in Hf. unfold rest in Hlater, Hc. simpl in Hlater, Hc. lia.
  - lia.
  - intros r [c2 j2] (I2 & H2 & S2 & Hh2 & Hs2 & Hp2 & R2). split; [done|]. split; [auto|]. split; [by etrans|].
    split; [done|]. split; [done|]. split; [done|]. destruct r as [[]|e|]; simpl in *; [| |done].
    2:{ split; [done|]. intros Hh2'. by apply R2, H1. }
    destruct R2 as (bs & Hbs & Hn & Lg & Hd & Hu). exists (now :: bs). rewrite zlen_cons. pose proof (zlen_nonneg bs).
    split; [simpl; by rewrite Hbs|]. split; [lia|]. split.
    { apply (logged_cons _ (view c1)); [lia|lia| |by apply R|by rewrite Hj1 in Lg]. destruct R as [-> _]. done. }
    split.
    { rewrite Hd, Hj1, Zplus_mod_idemp_l. f_equal. lia. }
    rewrite Hu. change (uncommitted_blocks j1) with (uncommitted_blocks j ++ [slot_at (j_head j) 0]). rewrite <- app_assoc. f_equal.
    rewrite (seqZ_cons 0 (zlen bs + 1)) by lia. replace (Z.pred (zlen bs + 1)) with (zlen bs) by lia.
    rewrite Hj1. cbn [app fmap list_fmap]. f_equal.
    apply list_eq. intros k. rewrite !list_lookup_fmap. destruct (decide (Z.of_nat k < zlen bs)).
    + rewrite !lookup_seqZ_lt by lia. simpl. f_equal. rewrite slot_at_step. f_equal. lia.
    + rewrite !lookup_seqZ_ge by lia. done.
Qed.

(** ** Committing *)
Definition mark (v : block) : block := raw_splice v 20 (le32 1).

Lemma finalize_loop_spec bl c j : store_inv c → NoDup bl →
  wp (finalize_loop bl) (λ r '(c', j'), j' = j ∧ store_inv c' ∧ (healthy c → healthy c') ∧
    (∀ b, b ∉ bl → view c' b = view c b) ∧ (∀ b, b ∈ bl → view c' b = view c b ∨ view c' b = mark (view c b)) ∧
    ends (healthy c) r (λ _, ∀ b, b ∈ bl → view c' b = mark (view c b)) True) (c, j).
Proof.
  intros I Hn. revert c I. induction Hn as [|b bl Hb Hn IH]; intros c I; simpl finalize_loop.
  { apply wp_ret. split_and!; try done; by intros b ?%not_elem_of_nil. }
  apply wp_bind, wp_on_fst. eapply wp_mono; [by apply (read_spec (check := check))|]. intros r c1 (I1 & V1 & H1 & R).
  destruct r as [v|e|]; cbn [ends] in R; [|split_and!; try done; by left; apply V1|by destruct R]. subst v.
  assert (is_block (view c b)) as Hv by (by apply view_block). unfold is_block, BLOCK_SIZE in Hv.
  assert (is_block (mark (view c b))) as Hm by (unfold is_block, BLOCK_SIZE, mark; rewrite zlen_raw_splice; rewrite ?zlen_le32; lia).
  apply wp_bind. eapply wp_of_opt; [apply splice_Some; rewrite ?zlen_le32; lia|]. fold (mark (view c b)).
  apply wp_bind, wp_on_fst. eapply wp_mono; [by apply (write_spec (check := check))|]. intros r c2 (I2 & H2 & R).
  destruct r as [[]|e|]; cbn [ends] in R; [| |by destruct R].
  2:{ destruct R as [V2 Hno]. assert (same (view c) (view c2)) as V by (by etrans).
      split; [done|]. split; [done|]. split; [auto|]. split; [intros; apply V|]. split; [left; apply V|]. split; [done|auto]. }
  assert (∀ b', b' ≠ b → view c2 b' = view c b') as O2 by (intros; rewrite (proj2 R) by done; apply V1).
  eapply wp_mono; [apply (IH c2 I2)|]. intros r [c' j'] (-> & I' & H' & O' & M' & R').
  assert (view c' b = mark (view c b)) as Eb by (rewrite O' by done; apply R).
  assert (∀ b', b' ∈ bl → view c2 b' = view c b') as O3 by (intros b' Hb'; apply O2; intros ->; done).
  split; [done|]. split; [done|]. split; [auto|]. split.
  { intros b' Hb'. rewrite not_elem_of_cons in Hb'. rewrite O' by tauto. apply O2. tauto. }
  split.
  { intros b' [->|Hb']%elem_of_cons; [by right|]. rewrite <- (O3 b') by done. by apply M'. }
  destruct r as [[]|e|]; cbn [ends] in *; [| |done].
  - intros b' [->|Hb']%elem_of_cons; [done|]. rewrite <- (O3 b') by done. by apply R'.
  - split; [done|]. intros Hh. apply R'. auto.
Qed.

Record journal_inv c j : Prop := {
  ji_store : store_inv c;
  ji_head : 0 ≤ j_head j < JOURNAL_BLOCKS;
  ji_seq : fits 64 (j_seq j);
  ji_ring b : in_ring b → jmagic (view c b) = true → jcommitted (view c b) = 1 → jseq (view c b) ≤ j_seq j;
}.

(** ** The scan from a head *)
Lemma check_pos_slot head i : 0 ≤ head < JOURNAL_BLOCKS → 0 ≤ i < JOURNAL_BLOCKS →
  u64 (JOURNAL_START + check_pos head i) = slot_at head (- 1 - i).
Proof.
  unfold check_pos, slot_at. assert (JOURNAL_BLOCKS = 256) as HJ by done. assert (JOURNAL_START = 9) as HS by done. intros Hh Hi.
  rewrite HJ, HS in *. destruct (Z.leb_spec (1 + i) head).
  - rewrite (Z.mod_small (head + _)) by lia. rewrite wrap_small by (unfold fits; lia). lia.
  - rewrite (wrap_small 64 (256 - 1 - i + head)) by (unfold fits; lia). rewrite wrap_small by (unfold fits; lia).
    assert ((head + (-1 - i)) `mod` 256 = 256 - 1 - i + head) as ->; [|lia].
    symmetry. apply (Z.mod_unique_pos _ _ (-1)); lia.
Qed.

Lemma scan_dead f n i head expected : 0 ≤ head < JOURNAL_BLOCKS → 0 ≤ i → i + Z.of_nat n ≤ JOURNAL_BLOCKS →
  (∀ k, i ≤ k < i + Z.of_nat n → let v := f (slot_at head (- 1 - k)) in
     jmagic v = true → jcommitted v = 1 → jseq v < expected) → scan f n i head expected = [].
Proof.
  intros Hh. revert i. induction n as [|n IH]; intros i Hi Hn Hd; simpl; [done|].
  rewrite check_pos_slot by lia. pose proof (Hd i ltac:(lia)) as Hv. simpl in Hv.
  destruct (jmagic _); simpl; [|done]. destruct (Z.eqb_spec (jcommitted (f (slot_at head (-1 - i)))) 1); simpl.
  - rewrite (proj2 (Z.ltb_lt _ _)) by auto. done.
  - apply IH; [lia|lia|]. intros k Hk. apply Hd. lia.
Qed.

Lemma scan_commit f n i head0 seq bs : 0 ≤ head0 → 0 ≤ i → i + Z.of_nat n = JOURNAL_BLOCKS → zlen bs ≤ JOURNAL_BLOCKS →
  (∀ (k : nat) l, bs !! k = Some l → journalled (f (slot_at head0 (Z.of_nat k))) seq l 1) →
  (∀ b, in_ring b → (∀ k, 0 ≤ k < zlen bs → b ≠ slot_at head0 k) → jmagic (f b) = true → jcommitted (f b) = 1 → jseq (f b) < seq) →
  scan f n i ((head0 + zlen bs) `mod` JOURNAL_BLOCKS) seq =
    mjoin (rev (List.filter nonzero <$> take (Z.to_nat (zlen bs - i)) bs)).
Proof.
  assert (JOURNAL_BLOCKS = 256) as HJ by done. intros Hh Hi Hn Hm Hj Ho. pose proof (Z.mod_pos_bound (head0 + zlen bs) JOURNAL_BLOCKS ltac:(lia)) as Hhd.
  assert (∀ k, slot_at ((head0 + zlen bs) `mod` JOURNAL_BLOCKS) (- 1 - k) = slot_at head0 (zlen bs - 1 - k)) as Hslot.
  { intros k. unfold slot_at. f_equal. rewrite Zplus_mod_idemp_l. f_equal. lia. }
  revert i Hi Hn. induction n as [|n IH]; intros i Hi Hn.
  { simpl. assert (Z.to_nat (zlen bs - i) = 0%nat) as -> by lia. done. }
  destruct (decide (i < zlen bs)) as [Hlt|Hge].
  - simpl scan. rewrite check_pos_slot, Hslot by lia. set (k := Z.to_nat (zlen bs - 1 - i)).
    destruct (lookup_lt_is_Some_2 bs k) as [l Hl]; [unfold zlen in *; lia|].
    pose proof (Hj k l Hl) as Hv. replace (Z.of_nat k) with (zlen bs - 1 - i) in Hv by lia.
    rewrite (jd_magic _ _ _ _ Hv), (jd_committed _ _ _ _ Hv), (jd_seq _ _ _ _ Hv), Z.ltb_irrefl. simpl negb. cbv iota.
    rewrite (jd_ranges _ _ _ _ Hv), IH by lia. replace (Z.to_nat (zlen bs - i)) with (S k) by lia.
    replace (Z.to_nat (zlen bs - (i + 1))) with k by lia. rewrite (take_S_r _ _ l) by done.
    rewrite fmap_app, rev_app_distr. done.
  - rewrite scan_dead; [|done|lia|lia|].
    + assert (Z.to_nat (zlen bs - i) = 0%nat) as -> by lia. done.
    + intros k Hk. rewrite Hslot. apply Ho; [apply slot_at_ring|]. intros k' Hk' E. apply slot_at_inj in E; lia.
Qed.

(** ** The two phases *)
Definition kept_of (l : list (Z * Z)) : list (Z * Z) :=
  let merged := merge_ranges (sort_pairs l) in if room <? zlen merged then take (Z.to_nat room) merged else merged.

Lemma kept_of_spec l : Forall range_ok l → zlen (kept_of l) ≤ room ∧ Forall range_ok (kept_of l) ∧
  (zlen (merge_ranges (sort_pairs l)) ≤ room → ∀ b, covers (kept_of l) b ↔ covers l b).
Proof.
  intros Hl. destruct (merge_ranges_covers (sort_pairs l)) as [Hm Hc]; [by rewrite sort_pairs_perm|].
  unfold kept_of. destruct (Z.ltb_spec room (zlen (merge_ranges (sort_pairs l)))).
  - split_and!; [|by apply Forall_take|lia]. unfold zlen. rewrite length_take. assert (room = 65024) as -> by done. lia.
  - split_and!; [done|done|]. intros _ b. by rewrite Hc, sort_pairs_perm.
Qed.

Lemma kept_of_subset l b : Forall range_ok l → covers (kept_of l) b → covers l b.
Proof.
  intros Hl. destruct (merge_ranges_covers (sort_pairs l)) as [_ Hc]; [by rewrite sort_pairs_perm|].
  assert (covers (merge_ranges (sort_pairs l)) b → covers l b) as Hm by (by rewrite Hc, sort_pairs_perm).
  unfold kept_of. destruct (room <? _); [|done]. intros (s & n & Hin & Hb). apply Hm. exists s, n. split; [|done].
  eapply subseteq_take, Hin.
Qed.

(** Only the ring matters. *)
Lemma scan_frame f g n i head expected : 0 ≤ head < JOURNAL_BLOCKS → 0 ≤ i → i + Z.of_nat n ≤ JOURNAL_BLOCKS →
  (∀ b, in_ring b → g b = f b) → scan g n i head expected = scan f n i head expected.
Proof.
  intros Hh Hi Hn Hf. revert i Hi Hn. induction n as [|n IH]; intros i Hi Hn; cbn [scan]; [done|].
  rewrite check_pos_slot by lia. rewrite Hf by apply slot_at_ring. by rewrite IH by lia.
Qed.

Lemma journal_inv_frame c j c' : journal_inv c j → store_inv c' → (∀ b, in_ring b → view c' b = view c b) → journal_inv c' j.
Proof. intros [] I' Hf. split; [done..|]. intros b Hb. rewrite Hf by done. by apply ji_ring0. Qed.

(** With nothing recorded, both phases do nothing. *)
Lemma prepare_idle c j : pending_frees j = [] → prepare (c, j) = (Ok tt, (c, j)).
Proof. intros E. unfold prepare, mbind, M_bind, get. rewrite bool_decide_true by done. done. Qed.
Lemma finalize_idle c j : uncommitted_blocks j = [] → finalize (c, j) = (Ok tt, (c, j)).
Proof. intros E. unfold finalize, mbind, M_bind, get. rewrite E. simpl. unfold modify_journal. destruct j. simpl in *. by rewrite E. Qed.

Lemma scratched_inv c j c' j' : journal_inv c j → store_inv c' → scratched (view c) (view c') →
  0 ≤ j_head j' < JOURNAL_BLOCKS → fits 64 (j_seq j') → j_seq j ≤ j_seq j' → journal_inv c' j'.
Proof.
  intros [] I' S Hh Hs Hle. split; try done. intros b Hb Hm Hc. destruct (S b) as [E|[_ E]]; [|congruence].
  rewrite E in *. etrans; [by apply ji_ring0|done].
Qed.

Definition staged_entries c j c' j' : Prop := ∃ bs, mjoin bs = kept_of (pending_frees j) ∧ zlen bs ≤ JOURNAL_BLOCKS ∧
  logged (view c) (view c') (j_head j) (j_seq j + 1) bs ∧ j_head j' = (j_head j + zlen bs) `mod` JOURNAL_BLOCKS ∧
  uncommitted_blocks j' = slot_at (j_head j) <$> seqZ 0 (zlen bs).

Lemma staged_frame c j c1 c2 j' : staged_entries c j c1 j' → (∀ b, in_ring b → view c2 b = view c1 b) → staged_entries c j c2 j'.
Proof.
  intros (bs & H1 & H2 & [Lb Lo] & H3) Hf. exists bs. split; [done|]. split; [done|]. split; [|done]. split.
  - intros k l Hk. rewrite Hf by apply slot_at_ring. by apply Lb.
  - intros b Hr Hb. rewrite Hf by done. by apply Lo.
Qed.

Lemma prepare_spec c j : journal_inv c j → Forall range_ok (pending_frees j) → j_seq j + 1 < 2 ^ 64 → pending_frees j ≠ [] →
  wp prepare (λ r '(c', j'), journal_inv c' j' ∧ (healthy c → healthy c') ∧ scratched (view c) (view c') ∧
    j_seq j' = j_seq j + 1 ∧ ends (healthy c) r (λ _, pending_frees j' = [] ∧ staged_entries c j c' j') True) (c, j).
Proof.
  intros J Hok Hseq Hne. pose proof J as []. unfold prepare. apply wp_bind. unfold wp at 1, get.
  rewrite bool_decide_false by done. fold (kept_of (pending_frees j)).
  destruct (kept_of_spec _ Hok) as (Hlen & Hrk & _). set (kept := kept_of (pending_frees j)) in *.
  assert (fits 64 (j_seq j + 1)) as Hs1 by (destruct ji_seq0; split; lia).
  apply wp_bind. unfold wp at 1, modify_journal. rewrite (wrap_small 64) by done. set (j1 := mkJournal _ _ _ _).
  apply wp_bind. eapply wp_mono; [apply (prepare_loop_spec (length kept) kept c j1); [done|done|done|lia|done|]|].
  { eapply Forall_impl; [exact Hrk|]. intros [s n] (H1 & H2 & H3). simpl in *. unfold fits. simpl. lia. }
  intros r [c' j'] (I' & H' & S' & Hh' & Hs' & Hp' & R).
  assert (journal_inv c' j') as J' by (eapply scratched_inv; [exact J|done|done|done|by rewrite Hs'|rewrite Hs'; simpl; lia]).
  destruct r as [[]|e|]; cbn [ends] in R; [| |by destruct R].
  2:{ split; [done|]. split; [done|]. split; [done|]. split; [done|]. done. }
  unfold wp, modify_journal. split; [by destruct J'; split|]. split; [done|]. split; [done|]. split; [done|].
  cbn [ends]. split; [done|]. destruct R as (bs & Hbs & Hn & Lg & Hd & Hu). exists bs. split; [done|].
  split; [assert (room = 65024) as E1 by done; assert (MAX_JOURNAL_ENTRIES = 254) as E2 by done; assert (JOURNAL_BLOCKS = 256) as E3 by done; lia|].
  split; [exact Lg|]. split; [exact Hd|]. exact Hu.
Qed.

Lemma slot_at_NoDup head n : n ≤ JOURNAL_BLOCKS → NoDup (slot_at head <$> seqZ 0 n).
Proof.
  intros Hn. apply NoDup_fmap_2_strong; [|apply NoDup_seqZ]. intros a b Ha%elem_of_seqZ Hb%elem_of_seqZ E.
  apply slot_at_inj in E; [done|lia].
Qed.

Lemma finalize_spec c0 c j0 j : journal_inv c j → j_seq j = j_seq j0 + 1 → 0 ≤ j_head j0 →
  (∀ b, in_ring b → jmagic (view c0 b) = true → jcommitted (view c0 b) = 1 → jseq (view c0 b) ≤ j_seq j0) →
  staged_entries c0 j0 c j →
  wp finalize (λ r '(c', j'), journal_inv c' j' ∧ (healthy c → healthy c') ∧ j_head j' = j_head j ∧ j_seq j' = j_seq j ∧
    pending_frees j' = pending_frees j ∧ (∀ b, ¬ in_ring b → view c' b = view c b) ∧
    ends (healthy c) r (λ _, uncommitted_blocks j' = [] ∧ scan (view c') (Z.to_nat JOURNAL_BLOCKS) 0 (j_head j') (j_seq j') ≡ₚ
      List.filter nonzero (kept_of (pending_frees j0))) True) (c, j).
Proof.
  intros J Hseq Hh0 Hold (bs & Hbs & Hn & Lg & Hd & Hu). unfold finalize. apply wp_bind. unfold wp at 1, get. rewrite Hu.
  apply wp_bind. eapply wp_mono; [apply finalize_loop_spec; [apply J|by apply slot_at_NoDup]|].
  intros r [c' j'] (-> & I' & H' & O' & M' & R).
  assert (∀ k, 0 ≤ k < zlen bs → slot_at (j_head j0) k ∈ slot_at (j_head j0) <$> seqZ 0 (zlen bs)) as Hin.
  { intros k Hk. apply list_elem_of_fmap. exists k. split; [done|]. apply elem_of_seqZ. lia. }
  assert (∀ b, b ∈ slot_at (j_head j0) <$> seqZ 0 (zlen bs) →
    ∃ (k : nat) l, bs !! k = Some l ∧ b = slot_at (j_head j0) (Z.of_nat k) ∧ journalled (view c b) (j_seq j0 + 1) l 0) as Hb.
  { intros b (k & -> & Hk%elem_of_seqZ)%list_elem_of_fmap. destruct (lookup_lt_is_Some_2 bs (Z.to_nat k)) as [l Hl]; [unfold zlen in Hk; lia|].
    exists (Z.to_nat k), l. rewrite Z2Nat.id by lia. split_and!; [done|done|]. pose proof (lg_blocks _ _ _ _ _ Lg _ _ Hl) as Hj.
    by rewrite Z2Nat.id in Hj by lia. }
  assert (journal_inv c' j) as J'.
  { pose proof J as []. split; [done|done|done|]. intros b Hr Hm Hc.
    destruct (decide (b ∈ slot_at (j_head j0) <$> seqZ 0 (zlen bs))) as [Hbin|Hbin].
    - destruct (Hb b Hbin) as (k & l & _ & _ & Hj). destruct (M' b Hbin) as [E|E]; rewrite E in *; [by apply ji_ring0|].
      unfold mark. rewrite (jd_seq _ _ _ _ (committed_block _ _ _ Hj)). lia.
    - rewrite O' in * by done. by apply ji_ring0. }
  assert (∀ b, ¬ in_ring b → view c' b = view c b) as Hfr.
  { intros b Hb'. apply O'. intros (k & -> & _)%list_elem_of_fmap. apply Hb', slot_at_ring. }
  destruct r as [[]|e|]; cbn [ends] in R; [| |by destruct R].
  2:{ split; [done|]. split; [done|]. split; [done|]. split; [done|]. split; [done|]. split; [done|]. done. }
  unfold wp, modify_journal. split; [by destruct J'; split|]. split; [done|]. split; [done|]. split; [done|]. split; [done|]. split; [done|].
  cbn [ends j_head j_seq]. split; [done|]. rewrite Hd, Hseq.
  rewrite (scan_commit (view c') _ 0 (j_head j0) (j_seq j0 + 1) bs); [|lia|lia|done|done| |].
  - rewrite Z.sub_0_r. unfold zlen at 1. rewrite Nat2Z.id, take_ge by done. rewrite <- Hbs.
    rewrite <- Permutation_rev. clear. induction bs as [|l bs IH]; simpl; [done|]. by rewrite List.filter_app, IH.
  - intros k l Hk. assert (slot_at (j_head j0) (Z.of_nat k) ∈ slot_at (j_head j0) <$> seqZ 0 (zlen bs)) as Hs.
    { apply Hin. apply lookup_lt_Some in Hk. unfold zlen. lia. }
    rewrite (R _ Hs). apply committed_block. by apply (lg_blocks _ _ _ _ _ Lg).
  - intros b Hr Hnot Hm Hc.
    assert (b ∉ slot_at (j_head j0) <$> seqZ 0 (zlen bs)) as Hnb.
    { intros (k & E & Hk%elem_of_seqZ)%list_elem_of_fmap. apply (Hnot k); [lia|done]. }
    rewrite O' in * by done. rewrite (lg_other _ _ _ _ _ Lg) in * by done. specialize (Hold b Hr Hm Hc). lia.
Qed.

Lemma filter_nonzero_ok l : Forall range_ok l → List.filter nonzero l = l.
Proof.
  induction 1 as [|[s n] l (H1 & H2 & _) Hl IH]; simpl; [done|]. unfold nonzero at 1. simpl in *.
  rewrite !(proj2 (Z.ltb_lt _ _)) by done. simpl. by rewrite IH.
Qed.

Lemma replay_rounds head expected :
  replay (C := C) head expected = replay_loop (Z.to_nat JOURNAL_BLOCKS) 0 head expected [].
Proof. reflexivity. Qed.
#[local] Opaque JOURNAL_BLOCKS.

Lemma replay_spec c head expected : store_inv c →
  wp (replay head expected) (λ r c', store_inv c' ∧ same (view c) (view c') ∧ (healthy c → healthy c') ∧
    ends (healthy c) r (λ fs, fs = scan (view c) (Z.to_nat JOURNAL_BLOCKS) 0 head expected) True) c.
Proof.
  intros I. rewrite replay_rounds. apply (replay_loop_spec (Z.to_nat JOURNAL_BLOCKS) 0 head expected [] c I).
Qed.


(** Nothing uncommitted is replayed.  After [prepare], whether it succeeded or
    failed half way, a replay from the journal's head and sequence number frees
    nothing: no entry of the ring is committed under the new number. *)
Theorem uncommitted_frees_are_not_replayed c j : journal_inv c j → Forall range_ok (pending_frees j) →
  j_seq j + 1 < 2 ^ 64 → pending_frees j ≠ [] →
  wp prepare (λ _ '(c', j'), journal_inv c' j' ∧
    wp (replay (j_head j') (j_seq j')) (λ r2 c2, same (view c') (view c2) ∧ ends (healthy c') r2 (λ frees, frees = []) True) c') (c, j).
Proof.
  intros J Hok Hseq Hne. eapply wp_mono; [by apply prepare_spec|]. intros r [c1 j1] (J1 & _ & S1 & Hs1 & _). split; [done|].
  eapply wp_mono; [apply replay_spec, J1|]. intros r2 c2 (_ & V & _ & R). split; [done|].
  destruct r2 as [fs|e|]; cbn [ends] in *; [|done|done]. rewrite R. apply scan_dead; [apply J1|lia|by rewrite Z2Nat.id|].
  intros k Hk v Hm Hc. unfold v in *. destruct (S1 (slot_at (j_head j1) (- 1 - k))) as [E|[_ E]]; [|congruence].
  rewrite E in *. pose proof (ji_ring _ _ J _ (slot_at_ring (j_head j1) (- 1 - k)) Hm Hc). lia.
Qed.
End store.

(** ** A ring about to wrap *)
Definition ex_journal : Journal := record_free 302 1 (record_free 400 8 (record_free 300 2 (new 255 7))).
Definition ex_check (_ : block) : bool := true.

Lemma ex_journal_inv : journal_inv (check := ex_check) (∅ : MemStore) ex_journal.
Proof.
  split; [apply map_Forall_empty|vm_compute; intuition discriminate|vm_compute; intuition discriminate|].
  intros b _ Hm. exfalso. revert Hm. change (view ∅ b) with (mem_view ∅ b). unfold mem_view. rewrite lookup_empty.
  vm_compute. discriminate.
Qed.

Lemma ex_ranges_ok : Forall range_ok (pending_frees ex_journal).
Proof. repeat constructor. Qed.

Notation ex_commit := (mbind (M := M (MemStore * Journal) FsError) (λ _, finalize) prepare).

Lemma ex_commit_ok : ∃ c' j', ex_commit (∅, ex_journal) = (Ok tt, (c', j')) ∧ j_head j' = 0 ∧ j_seq j' = 8 ∧
  (replay 0 8 c').1 = Ok [(300, 3); (400, 8)].
Proof.
  assert ((ex_commit (∅, ex_journal)).1 = Ok tt) as E1 by (vm_compute; reflexivity).
  assert (j_head (ex_commit (∅, ex_journal)).2.2 = 0) as E2 by (vm_compute; reflexivity).
  assert (j_seq (ex_commit (∅, ex_journal)).2.2 = 8) as E3 by (vm_compute; reflexivity).
  assert ((replay 0 8 (ex_commit (∅, ex_journal)).2.1).1 = Ok [(300, 3); (400, 8)]) as E4 by (vm_compute; reflexivity).
  destruct (ex_commit (∅, ex_journal)) as [r [c' j']]. cbn [fst snd] in *. subst r. by exists c', j'.
Qed.

#[local] Opaque prepare finalize replay.

Lemma ex_journal_bounds : j_seq ex_journal + 1 < 2 ^ 64 ∧ pending_frees ex_journal ≠ [] ∧
  zlen (merge_ranges (sort_pairs (pending_frees ex_journal))) ≤ room.
Proof. split_and!; [reflexivity|discriminate|vm_compute; discriminate]. Qed.


Lemma uncommitted_frees_are_not_replayed_witness :
  wp prepare (λ _ '(c', j'), journal_inv (check := ex_check) c' j' ∧
    wp (replay (j_head j') (j_seq j')) (λ r2 c2, r2 = Ok []) c') ((∅ : MemStore), ex_journal).
Proof.
  eapply wp_mono; [apply (uncommitted_frees_are_not_replayed (check := ex_check) (∅ : MemStore) ex_journal ex_journal_inv ex_ranges_ok); apply ex_journal_bounds|].
  intros r [c' j'] [J R]. split; [exact J|]. eapply wp_mono; [exact R|]. intros [fs|e|] c2 [_ R2]; cbn [ends] in R2; [by rewrite R2| |done].
  destruct R2 as [_ Hno]. destruct Hno. exact Logic.I.
Defined.
