(* ===== verification/Superblock.v ===== *)
(** * The superblock ring (storage/npkfs/sb_io.rs)

    Eight slots written in turn; the newest valid one counts.  The checksum's hash
    is an argument of the code that checks it. *)

From S2P Require Import Prelude Bytes Format BlockStore.

(** [cache.read(..).is_err()]: the error is dropped. *)
Definition attempt {S E A} (m : M S E A) : M S E (option A) := λ s,
  match m s with
  | (Ok a, s') => (Ok (Some a), s')
  | (Err _, s') => (Ok None, s')
  | (Panic, s') => (Panic, s')
  end.

Lemma wp_attempt {S E A} (m : M S E A) (Q : res E (option A) → S → Prop) s :
  wp m (λ r s', match r with Ok a => Q (Ok (Some a)) s' | Err _ => Q (Ok None) s' | Panic => Q Panic s' end) s →
  wp (attempt m) Q s.
Proof. unfold wp, attempt. destruct (m s) as [[a|e|] s']; auto. Qed.

Section sb_io.
Context (blake3 : list byte → list byte).
Context {C : Type} `{!BlockStore C} `{!BlockFua C}.
Notation MC := (M C FsError).

(** The checks of [read_best]. *)
Definition acceptable (sb : SuperblockRaw) : bool :=
  bool_decide (sb_magic sb = DISK_MAGIC) && (version sb =? DISK_VERSION)
  && bool_decide (checksum sb = compute_checksum blake3 sb).

(** [for slot in 0..SUPERBLOCK_SLOTS], [n] slots left. *)
Fixpoint best_loop (n : nat) (slot : Z) (best : option SuperblockRaw) (best_gen : Z) : MC (option SuperblockRaw) :=
  match n with
  | O => mret best
  | S n =>
      r ← attempt (read (SUPERBLOCK_START + slot));
      match r with
      | None => best_loop n (slot + 1) best best_gen
      | Some buf =>
          let sb := sb_of buf in
          if negb (acceptable sb) then best_loop n (slot + 1) best best_gen
          else if best_gen <=? generation sb then best_loop n (slot + 1) (Some sb) (generation sb)
          else best_loop n (slot + 1) best best_gen
      end
  end.
Definition read_best : MC (option SuperblockRaw) := best_loop (Z.to_nat SUPERBLOCK_SLOTS) 0 None 0.

Record SbProbe := mkProbe {
  read_errors : Z; blank : Z; p_valid : Z; bad_checksum : Z; legacy : Z; foreign : Z }.
Definition probe_default : SbProbe := mkProbe 0 0 0 0 0 0.

Definition is_pristine (p : SbProbe) : bool := (blank p =? SUPERBLOCK_SLOTS) && (read_errors p =? 0).

(** The classes of a readable slot, in the order [probe] tests them. *)
Definition classify (buf : block) (p : SbProbe) : SbProbe :=
  let first := take 8 buf in
  if bool_decide (first = replicate 8 x00) then
    mkProbe (read_errors p) (blank p + 1) (p_valid p) (bad_checksum p) (legacy p) (foreign p)
  else if bool_decide (first = DISK_MAGIC_V2) || bool_decide (first = DISK_MAGIC_V3) then
    mkProbe (read_errors p) (blank p) (p_valid p) (bad_checksum p) (legacy p + 1) (foreign p)
  else if negb (bool_decide (first = DISK_MAGIC)) then
    mkProbe (read_errors p) (blank p) (p_valid p) (bad_checksum p) (legacy p) (foreign p + 1)
  else
    let sb := sb_of buf in
    if negb (version sb =? DISK_VERSION) then
      mkProbe (read_errors p) (blank p) (p_valid p) (bad_checksum p) (legacy p + 1) (foreign p)
    else if negb (bool_decide (checksum sb = compute_checksum blake3 sb)) then
      mkProbe (read_errors p) (blank p) (p_valid p) (bad_checksum p + 1) (legacy p) (foreign p)
    else
      mkProbe (read_errors p) (blank p) (p_valid p + 1) (bad_checksum p) (legacy p) (foreign p).

Fixpoint probe_loop (n : nat) (slot : Z) (p : SbProbe) : MC SbProbe :=
  match n with
  | O => mret p
  | S n =>
      r ← attempt (read (SUPERBLOCK_START + slot));
      match r with
      | None => probe_loop n (slot + 1)
          (mkProbe (read_errors p + 1) (blank p) (p_valid p) (bad_checksum p) (legacy p) (foreign p))
      | Some buf => probe_loop n (slot + 1) (classify buf p)
      end
  end.
Definition probe : MC SbProbe := probe_loop (Z.to_nat SUPERBLOCK_SLOTS) 0 probe_default.

Fixpoint legacy_loop (n : nat) (slot : Z) : MC (option Z) :=
  match n with
  | O => mret None
  | S n =>
      r ← attempt (read (SUPERBLOCK_START + slot));
      match r with
      | None => legacy_loop n (slot + 1)
      | Some buf =>
          if bool_decide (take 8 buf = DISK_MAGIC_V2) then mret (Some 2)
          else if bool_decide (take 8 buf = DISK_MAGIC_V3) then mret (Some 3)
          else legacy_loop n (slot + 1)
      end
  end.
Definition read_legacy_magic : MC (option Z) := legacy_loop (Z.to_nat SUPERBLOCK_SLOTS) 0.

(** [sb] is borrowed mutably: its checksum is set whatever happens. *)
Definition write_next_durable : M (C * SuperblockRaw) FsError Z :=
  '(c, sb) ← get;
  let sb := set_checksum blake3 sb in
  let slot := SUPERBLOCK_START + generation sb `mod` SUPERBLOCK_SLOTS in
  _ ← put (invalidate slot c, sb);
  _ ← on_fst (write_block_fua slot (sb_bytes sb));
  mret slot.

Fixpoint write_all_loop (n : nat) (slot : Z) (buf : block) : MC unit :=
  match n with
  | O => mret tt
  | S n => _ ← write (SUPERBLOCK_START + slot) buf; write_all_loop n (slot + 1) buf
  end.
Definition write_all : M (C * SuperblockRaw) FsError unit :=
  '(c, sb) ← get;
  let sb := set_checksum blake3 sb in
  _ ← put (c, sb);
  on_fst (write_all_loop (Z.to_nat SUPERBLOCK_SLOTS) 0 (sb_bytes sb)).
End sb_io.

(** * The superblock ring commits atomically

    [read_best] returns the newest valid superblock; writing the next one takes
    the place of the oldest, so that until it is complete the previous one
    counts, and from then on the new one. *)

Section ring.
Context (blake3 : list byte → list byte) (blake3_len : ∀ l, length (blake3 l) = 32%nat).
Notation acceptable := (acceptable blake3).
Notation set_checksum := (set_checksum blake3).
Implicit Types (f g : Z → block) (sb : SuperblockRaw).

Definition is_slot (s : Z) : Prop := 0 ≤ s < SUPERBLOCK_SLOTS.
Definition sb_at f s : SuperblockRaw := sb_of (f (SUPERBLOCK_START + s)).
Definition ok_slot f s : Prop := is_slot s ∧ acceptable (sb_at f s) = true.

(** [read_best] on a view of the disk. *)
Fixpoint best_of f (n : nat) (slot : Z) (best : option SuperblockRaw) (best_gen : Z) : option SuperblockRaw :=
  match n with
  | O => best
  | S n =>
      let sb := sb_at f slot in
      if acceptable sb && (best_gen <=? generation sb) then best_of f n (slot + 1) (Some sb) (generation sb)
      else best_of f n (slot + 1) best best_gen
  end.
Definition newest f : option SuperblockRaw := best_of f (Z.to_nat SUPERBLOCK_SLOTS) 0 None 0.

(** [best] is the newest of the slots before [s]. *)
Definition newest_below f s (best : option SuperblockRaw) (best_gen : Z) : Prop :=
  match best with
  | None => best_gen = 0 ∧ ∀ t, t < s → ¬ ok_slot f t
  | Some sb => best_gen = generation sb ∧ (∃ t, t < s ∧ ok_slot f t ∧ sb_at f t = sb) ∧
      ∀ t, t < s → ok_slot f t → generation (sb_at f t) ≤ generation sb
  end.

Definition gens_nonneg f : Prop := ∀ s, ok_slot f s → 0 ≤ generation (sb_at f s).

Lemma best_of_spec f n s best gen : gens_nonneg f → 0 ≤ s → s + Z.of_nat n = SUPERBLOCK_SLOTS → newest_below f s best gen →
  ∃ gen', newest_below f SUPERBLOCK_SLOTS (best_of f n s best gen) gen'.
Proof.
  intros Hg. revert s best gen. induction n as [|n IH]; intros s best gen Hs Hn Hb; cbn [best_of].
  { exists gen. replace SUPERBLOCK_SLOTS with s by lia. done. }
  assert (∀ t, t < s + 1 → t < s ∨ t = s) as Hcase by lia.
  assert (is_slot s) as Hslot by (unfold is_slot; lia).
  destruct (acceptable (sb_at f s)) eqn:Ea; cbn [andb].
  - assert (ok_slot f s) as Hok by done. pose proof (Hg s Hok) as H0.
    destruct (Z.leb_spec gen (generation (sb_at f s))) as [Hle|Hgt]; (apply IH; [lia|lia|]).
    + split_and!; [done|exists s; split_and!; [lia|done|done]|]. intros t [Ht| ->]%Hcase Hokt; [|done].
      destruct best as [b|]; destruct Hb as [Eg Hb]; [|by destruct (Hb t)]. destruct Hb as [_ Hb]. specialize (Hb t Ht Hokt). lia.
    + destruct best as [b|]; [|destruct Hb; lia]. destruct Hb as (Eg & (t0 & Ht0 & Hok0 & E0) & Hb).
      split_and!; [done|exists t0; split_and!; [lia|done|done]|]. intros t [Ht| ->]%Hcase Hokt; [by apply Hb|lia].
  - apply IH; [lia|lia|]. assert (¬ ok_slot f s) as Hno by (intros [_ ?]; congruence). destruct best as [b|].
    + destruct Hb as (Eg & (t0 & Ht0 & Hok0 & E0) & Hb). split_and!; [done|exists t0; split_and!; [lia|done|done]|].
      intros t [Ht| ->]%Hcase Hokt; [by apply Hb|done].
    + destruct Hb as [Eg Hb]. split; [done|]. intros t [Ht| ->]%Hcase; [by apply Hb|done].
Qed.

Lemma best_of_ext f g n s best gen : (∀ t, sb_at g t = sb_at f t) → best_of g n s best gen = best_of f n s best gen.
Proof. intros E. revert s best gen. induction n as [|n IH]; intros s best gen; cbn [best_of]; [done|]. by rewrite E, !IH. Qed.

Lemma newest_spec f : gens_nonneg f →
  match newest f with
  | None => ∀ s, ¬ ok_slot f s
  | Some sb => (∃ s, ok_slot f s ∧ sb_at f s = sb) ∧ ∀ s, ok_slot f s → generation (sb_at f s) ≤ generation sb
  end.
Proof.
  intros Hg. destruct (best_of_spec f (Z.to_nat SUPERBLOCK_SLOTS) 0 None 0 Hg) as [gen Hb]; [lia|by rewrite Z2Nat.id|split; [done|]|].
  { intros t Ht [[? _] _]. lia. }
  fold (newest f) in Hb. destruct (newest f) as [sb|].
  - destruct Hb as (_ & (t & _ & Hok & E) & Hmax). split; [by exists t|]. intros s Hs. apply Hmax; [apply Hs|done].
  - destruct Hb as [_ Hno]. intros s Hs. apply (Hno s); [apply Hs|done].
Qed.

(** ** The ring's invariant *)
Record ring f sb : Prop := {
  rg_gens : gens_nonneg f;
  rg_gen : 0 ≤ generation sb;
  rg_slot : ok_slot f (generation sb `mod` SUPERBLOCK_SLOTS);
  rg_here : sb_at f (generation sb `mod` SUPERBLOCK_SLOTS) = sb;
  rg_max s : ok_slot f s → generation (sb_at f s) ≤ generation sb;
  rg_tie s : ok_slot f s → generation (sb_at f s) = generation sb → sb_at f s = sb;
}.

Lemma ring_newest f sb : ring f sb → newest f = Some sb.
Proof.
  intros []. pose proof (newest_spec f rg_gens0) as H. destruct (newest f) as [b|]; [|by destruct (H _ rg_slot0)].
  destruct H as [(s & Hs & <-) Hmax]. f_equal. apply rg_tie0; [done|].
  specialize (Hmax _ rg_slot0). rewrite rg_here0 in Hmax. pose proof (rg_max0 s Hs). lia.
Qed.

Lemma slot_mod n : is_slot (n `mod` SUPERBLOCK_SLOTS).
Proof. apply Z.mod_pos_bound. done. Qed.
Lemma slot_succ n : (n + 1) `mod` SUPERBLOCK_SLOTS ≠ n `mod` SUPERBLOCK_SLOTS.
Proof.
  unfold SUPERBLOCK_SLOTS. intros E. pose proof (Z.div_mod (n + 1) 8). pose proof (Z.div_mod n 8). lia.
Qed.

Definition fresh_sb sb0 sb : Prop :=
  sb_wf sb ∧ sb_magic sb = DISK_MAGIC ∧ version sb = DISK_VERSION ∧ generation sb = generation sb0 + 1.

Lemma set_checksum_ok sb : sb_wf sb → sb_magic sb = DISK_MAGIC → version sb = DISK_VERSION →
  sb_wf (set_checksum sb) ∧ acceptable (set_checksum sb) = true ∧ sb_of (sb_bytes (set_checksum sb)) = set_checksum sb.
Proof.
  intros Hwf Hm Hv. assert (sb_wf (set_checksum sb)) as Hwf' by (destruct Hwf; split; [done..|apply blake3_len]).
  split_and!; [done| |by apply sb_of_bytes]. unfold Superblock.acceptable.
  rewrite !andb_true_iff, !bool_decide_eq_true, Z.eqb_eq. done.
Qed.

(** Writing the next superblock into its slot. *)
Lemma ring_next f g sb0 sb : ring f sb0 → fresh_sb sb0 sb →
  let s := generation sb `mod` SUPERBLOCK_SLOTS in
  (∀ b, b ≠ SUPERBLOCK_START + s → g b = f b) → g (SUPERBLOCK_START + s) = sb_bytes (set_checksum sb) →
  ring g (set_checksum sb).
Proof.
  intros R (Hwf & Hm & Hv & Hgen) s Ho He. pose proof R as []. destruct (set_checksum_ok sb Hwf Hm Hv) as (Hwf' & Ha & Hof).
  assert (sb_at g s = set_checksum sb) as Es by (unfold sb_at; by rewrite He).
  assert (∀ t, t ≠ s → sb_at g t = sb_at f t) as Eo by (intros t Ht; unfold sb_at; rewrite Ho; [done|lia]).
  assert (∀ t, ok_slot g t → t ≠ s → ok_slot f t) as Hok by (intros t [Ht1 Ht2] Hne; rewrite Eo in Ht2 by done; done).
  assert (generation (set_checksum sb) = generation sb) as Eg by done.
  split; rewrite ?Eg.
  - intros t Ht. destruct (decide (t = s)) as [->|Hne]; [rewrite Es; simpl; lia|]. rewrite Eo by done. by apply rg_gens0, Hok.
  - lia.
  - split; [apply slot_mod|]. fold s. by rewrite Es.
  - exact Es.
  - intros t Ht. destruct (decide (t = s)) as [->|Hne]; [by rewrite Es|]. rewrite Eo by done. pose proof (rg_max0 t (Hok t Ht Hne)). lia.
  - intros t Ht. destruct (decide (t = s)) as [->|Hne]; [done|]. rewrite Eo by done. pose proof (rg_max0 t (Hok t Ht Hne)). lia.
Qed.

(** A slot that does not validate, or a valid one not newer, changes nothing. *)
Lemma ring_torn f g sb0 sb : ring f sb0 → fresh_sb sb0 sb →
  let s := generation sb `mod` SUPERBLOCK_SLOTS in
  (∀ b, b ≠ SUPERBLOCK_START + s → g b = f b) → acceptable (sb_at g s) = false → ring g sb0.
Proof.
  intros R (_ & _ & _ & Hgen) s Ho Hbad. pose proof R as [].
  assert (∀ t, t ≠ s → sb_at g t = sb_at f t) as Eo by (intros t Ht; unfold sb_at; rewrite Ho; [done|lia]).
  assert (∀ t, ok_slot g t → t ≠ s) as Hne by (intros t [_ Ht] ->; congruence).
  assert (∀ t, ok_slot g t → ok_slot f t) as Hok by (intros t Ht; pose proof (Hne t Ht); destruct Ht as [Ht1 Ht2]; rewrite Eo in Ht2 by done; done).
  assert (generation sb0 `mod` SUPERBLOCK_SLOTS ≠ s) as Hs0 by (unfold s; rewrite Hgen; pose proof (slot_succ (generation sb0)); congruence).
  split; [..|done| | | |].
  - intros t Ht. rewrite Eo by (by apply Hne). by apply rg_gens0, Hok.
  - destruct rg_slot0 as [H1 H2]. split; [done|]. by rewrite Eo.
  - by rewrite Eo.
  - intros t Ht. rewrite Eo by (by apply Hne). by apply rg_max0, Hok.
  - intros t Ht. rewrite Eo by (by apply Hne). by apply rg_tie0, Hok.
Qed.

(** Only the slots matter. *)
Lemma ring_frame f g sb : ring f sb → (∀ s, is_slot s → g (SUPERBLOCK_START + s) = f (SUPERBLOCK_START + s)) → ring g sb.
Proof.
  intros [] E. assert (∀ s, is_slot s → sb_at g s = sb_at f s) as Es by (intros s Hs; unfold sb_at; by rewrite E).
  assert (∀ s, ok_slot g s → ok_slot f s) as Ho by (intros s [Hs Ha]; split; [done|]; by rewrite <- Es).
  split; [|done| | | |].
  - intros s Hs. rewrite Es by apply Hs. by apply rg_gens0, Ho.
  - destruct rg_slot0. split; [done|]. by rewrite Es.
  - rewrite Es; [done|]. apply rg_slot0.
  - intros s Hs. rewrite Es by apply Hs. by apply rg_max0, Ho.
  - intros s Hs. rewrite Es by apply Hs. by apply rg_tie0, Ho.
Qed.

(** ** The code *)
Context {C : Type} `{!BlockStore C} `{!BlockFua C} {check : block → bool} `{!BlockStoreOk C check} `{!BlockFuaOk C check}.
Implicit Types (c : C).

(** A read whose error is dropped. *)
Lemma attempt_read_spec c b : store_inv c →
  wp (attempt (read b)) (λ r c', store_inv c' ∧ same (view c) (view c') ∧ (healthy c → healthy c') ∧
    ∃ o, r = Ok o ∧ (o = Some (view c b) ∨ o = None ∧ ¬ healthy c)) c.
Proof.
  intros I. apply wp_attempt. eapply wp_mono; [by apply (read_spec (check := check))|].
  intros [v|e|] c' (I' & V & H & R); cbn [ends] in R; [| |done].
  - split_and!; try done. exists (Some v). split; [done|]. left. by rewrite R.
  - split_and!; try done. exists None. split; [done|]. right. tauto.
Qed.

Lemma best_loop_spec n s best gen c : store_inv c →
  wp (best_loop blake3 n s best gen) (λ r c', store_inv c' ∧ same (view c) (view c') ∧ (healthy c → healthy c') ∧
    ∃ o, r = Ok o ∧ (healthy c → o = best_of (view c) n s best gen) ∧
      (o = best ∨ ∃ t, s ≤ t < s + Z.of_nat n ∧ acceptable (sb_at (view c) t) = true ∧ o = Some (sb_at (view c) t))) c.
Proof.
  revert s best gen c. induction n as [|n IH]; intros s best gen c I; cbn [best_loop best_of].
  { apply wp_ret. split_and!; try done. exists best. split_and!; [done|done|by left]. }
  apply wp_bind. eapply wp_mono; [by apply attempt_read_spec|]. intros r c1 (I1 & V1 & H1 & o & -> & Ho).
  assert (∀ t, sb_at (view c1) t = sb_at (view c) t) as Es by (intros t; unfold sb_at; by rewrite V1).
  assert (∀ b k, best_of (view c1) n (s + 1) b k = best_of (view c) n (s + 1) b k) as Eb.
  { intros b k. by apply best_of_ext. }
  assert (∀ best' gen', (best' = best ∨ acceptable (sb_at (view c) s) = true ∧ best' = Some (sb_at (view c) s)) →
    (healthy c → best_of (view c) (S n) s best gen = best_of (view c) n (s + 1) best' gen') →
    wp (best_loop blake3 n (s + 1) best' gen') (λ r c', store_inv c' ∧ same (view c) (view c') ∧ (healthy c → healthy c') ∧
    ∃ o, r = Ok o ∧ (healthy c → o = best_of (view c) (S n) s best gen) ∧
      (o = best ∨ ∃ t, s ≤ t < s + Z.of_nat (S n) ∧ acceptable (sb_at (view c) t) = true ∧ o = Some (sb_at (view c) t))) c1) as Hgo.
  { intros best' gen' Hb' Heq. eapply wp_mono; [by apply IH|]. intros r c2 (I2 & V2 & H2 & o' & -> & He & Hor).
    split_and!; [done|by etrans|auto|]. exists o'. split; [done|]. split.
    - intros Hh. rewrite Heq, He, Eb by auto. done.
    - destruct Hor as [->|(t & Ht & Ha & ->)].
      + destruct Hb' as [->|[Ha ->]]; [by left|]. right. exists s. split_and!; [lia|lia|done|done].
      + right. exists t. rewrite Es in *. split_and!; [lia|lia|done|done]. }
  destruct Ho as [->|[-> Hno]]; [|apply Hgo; [by left|done]].
  fold (sb_at (view c) s). cbn [best_of] in Hgo. destruct (acceptable (sb_at (view c) s)) eqn:Ea; cbn [negb andb] in *.
  - destruct (gen <=? generation (sb_at (view c) s)); apply Hgo; auto.
  - apply Hgo; auto.
Qed.

Lemma read_best_spec c : store_inv c →
  wp (read_best blake3) (λ r c', store_inv c' ∧ same (view c) (view c') ∧ (healthy c → healthy c') ∧ ∃ o, r = Ok o ∧
    (healthy c → o = newest (view c)) ∧ ∀ sb, o = Some sb → ∃ s, ok_slot (view c) s ∧ sb_at (view c) s = sb) c.
Proof.
  intros I. unfold read_best. eapply wp_mono; [by apply best_loop_spec|].
  intros r c' (I' & V & H' & o & -> & He & Hor). split_and!; [done|done|done|]. exists o. split_and!; [done|done|].
  intros sb ->. destruct Hor as [|(t & Ht & Ha & [= ->])]; [done|]. exists t. split; [|done]. split; [|done]. exact Ht.
Qed.

(** [read_best] finds the newest superblock: with the store serving its
    reads, the valid one of the highest generation, or nothing exactly when no slot
    validates; a slot that cannot be read is skipped, and what is returned has
    always passed the magic, version and checksum tests. *)
Theorem read_best_finds_newest c : store_inv c → gens_nonneg (view c) →
  wp (read_best blake3) (λ r c', same (view c) (view c') ∧ ∃ o, r = Ok o ∧
    (∀ sb, o = Some sb → ∃ s, ok_slot (view c) s ∧ sb_at (view c) s = sb) ∧
    (healthy c → match o with
                 | None => ∀ s, ¬ ok_slot (view c) s
                 | Some sb => ∀ s, ok_slot (view c) s → generation (sb_at (view c) s) ≤ generation sb
                 end)) c.
Proof.
  intros I Hg. eapply wp_mono; [by apply read_best_spec|]. intros r c' (_ & V & _ & o & -> & He & Ho).
  split; [done|]. exists o. split_and!; [done|done|]. intros Hh. rewrite He by done.
  pose proof (newest_spec _ Hg). destruct (newest (view c)); naive_solver.
Qed.

(** The write of the next superblock, whatever the ring holds. *)
Lemma write_next_spec c sb : store_inv c → sb_wf sb → sb_magic sb = DISK_MAGIC → version sb = DISK_VERSION →
  let s := SUPERBLOCK_START + generation sb `mod` SUPERBLOCK_SLOTS in
  wp (write_next_durable blake3) (λ r '(c', sb'), store_inv c' ∧ (healthy c → healthy c') ∧ sb' = set_checksum sb ∧
    (∀ b, b ≠ s → view c' b = view c b) ∧
    ends (healthy c) r (λ slot, slot = s ∧ view c' s = sb_bytes (set_checksum sb)) True) (c, sb).
Proof.
  intros I Hwf Hm Hv s. unfold write_next_durable.
  apply wp_bind. unfold wp at 1, get. apply wp_bind. unfold wp at 1, put.
  change (generation (Format.set_checksum blake3 sb)) with (generation sb). fold s.
  apply wp_bind, wp_on_fst. eapply wp_mono; [apply (write_block_fua_spec (check := check)); [done|apply sb_bytes_block; by apply set_checksum_ok]|].
  intros r c' (I' & H' & Ho & Hr). destruct r as [[]|e|]; cbn [ends] in Hr; [apply wp_ret| |done]; by split_and!.
Qed.


(** ** Formatting *)

Lemma write_all_loop_spec n s v c : store_inv c → is_block v →
  wp (write_all_loop n s v) (λ r c', store_inv c' ∧ (healthy c → healthy c') ∧
    ends (healthy c) r (λ _, (∀ t, s ≤ t < s + Z.of_nat n → view c' (SUPERBLOCK_START + t) = v) ∧
      ∀ b, ¬ SUPERBLOCK_START + s ≤ b < SUPERBLOCK_START + s + Z.of_nat n → view c' b = view c b) True) c.
Proof.
  intros I Hv. revert s c I. induction n as [|n IH]; intros s c I; cbn [write_all_loop].
  { apply wp_ret. split_and!; [done|done|]. cbn [ends]. split; [lia|done]. }
  apply wp_bind. eapply wp_mono; [by apply (write_spec (check := check))|]. intros r c1 (I1 & H1 & R).
  destruct r as [[]|e|]; cbn [ends] in R; [| |done].
  2:{ split_and!; [done|done|]. cbn [ends]. tauto. }
  eapply wp_mono; [by apply IH|]. intros r c2 (I2 & H2 & R2). split_and!; [done|auto|].
  destruct r as [[]|e|]; cbn [ends] in *; [| |done].
  - destruct R2 as [Hin Hout], R as [E O]. split.
    + intros t Ht. destruct (decide (t = s)) as [->|]; [rewrite Hout by lia; done|apply Hin; lia].
    + intros b Hb. rewrite Hout by lia. apply O. lia.
  - split; [done|]. intros Hh. apply R2. auto.
Qed.

(** What [mkfs] leaves is a ring. *)
Lemma write_all_ring c sb : store_inv c → sb_wf sb → sb_magic sb = DISK_MAGIC → version sb = DISK_VERSION →
  wp (write_all blake3) (λ r '(c', sb'), store_inv c' ∧ (healthy c → healthy c') ∧ sb' = set_checksum sb ∧
    ends (healthy c) r (λ _, ring (view c') sb' ∧
      ∀ b, ¬ SUPERBLOCK_START ≤ b < SUPERBLOCK_START + SUPERBLOCK_SLOTS → view c' b = view c b) True) (c, sb).
Proof.
  intros I Hwf Hm Hv. destruct (set_checksum_ok sb Hwf Hm Hv) as (Hwf' & Ha & Hof). unfold write_all.
  apply wp_bind. unfold wp at 1, get. apply wp_bind. unfold wp at 1, put. apply wp_on_fst.
  eapply wp_mono; [apply write_all_loop_spec; [done|by apply sb_bytes_block]|]. intros r c' (I' & H' & R).
  split_and!; [done|done|done|]. destruct r as [[]|e|]; cbn [ends] in *; [|done|done].
  assert (∀ t, is_slot t → sb_at (view c') t = set_checksum sb) as Es by (intros t Ht; unfold sb_at; rewrite (proj1 R); [done|apply Ht]).
  assert (0 ≤ generation sb) as Hg by (destruct Hwf' as [_ _ H64 _ _ _ _ _ _]; by apply Forall_cons in H64 as [[? _] _]).
  split; [|intros b Hb; apply R; revert Hb; unfold SUPERBLOCK_SLOTS; lia]. split; [..|done| | | |].
  - intros t [Ht _]. by rewrite Es.
  - split; [apply slot_mod|]. by rewrite Es by apply slot_mod.
  - apply Es, slot_mod.
  - intros t [Ht _]. by rewrite Es.
  - intros t [Ht _] _. by apply Es.
Qed.

(** ** Probing *)
Definition blank_slot f s : Prop := take 8 (f (SUPERBLOCK_START + s)) = replicate 8 x00.

Definition slots_seen (p : SbProbe) : Z := read_errors p + blank p + p_valid p + bad_checksum p + legacy p + foreign p.
Definition probe_nonneg (p : SbProbe) : Prop :=
  0 ≤ read_errors p ∧ 0 ≤ blank p ∧ 0 ≤ p_valid p ∧ 0 ≤ bad_checksum p ∧ 0 ≤ legacy p ∧ 0 ≤ foreign p.

Lemma classify_spec v p : probe_nonneg p →
  let p' := classify blake3 v p in
  probe_nonneg p' ∧ slots_seen p' = slots_seen p + 1 ∧ read_errors p' = read_errors p ∧
  blank p' = blank p + (if bool_decide (take 8 v = replicate 8 x00) then 1 else 0).
Proof.
  unfold probe_nonneg, slots_seen, classify. intros Hp. cbv zeta.
  repeat case_match; cbn [read_errors blank p_valid bad_checksum legacy foreign]; split_and!; lia.
Qed.

Definition probed f s p : Prop := probe_nonneg p ∧ slots_seen p = s ∧ (blank p = s → ∀ t, 0 ≤ t < s → blank_slot f t).

Lemma probed_ext f g s p : same f g → probed f s p → probed g s p.
Proof. intros E (H1 & H2 & H3). split_and!; [done|done|]. intros Hb t Ht. unfold blank_slot. rewrite E. by apply H3. Qed.

Lemma probe_loop_spec n s p c : store_inv c → 0 ≤ s → probed (view c) s p →
  wp (probe_loop blake3 n s p) (λ r c', store_inv c' ∧ same (view c) (view c') ∧ ∃ p', r = Ok p' ∧
    probed (view c) (s + Z.of_nat n) p' ∧
    (healthy c → read_errors p' = read_errors p ∧
       ((∀ t, s ≤ t < s + Z.of_nat n → blank_slot (view c) t) → blank p' = blank p + Z.of_nat n))) c.
Proof.
  revert s p c. induction n as [|n IH]; intros s p c I Hs Hp; cbn [probe_loop].
  { apply wp_ret. split_and!; [done|done|]. exists p. rewrite Z.add_0_r. split_and!; [done|done|]. intros _. split; [done|lia]. }
  apply wp_bind. eapply wp_mono; [by apply attempt_read_spec|]. intros r c1 (I1 & V1 & H1 & o & -> & Ho).
  assert (∀ k p, probed (view c1) k p ↔ probed (view c) k p) as Ep by (split; by apply probed_ext).
  destruct Hp as (Hn & Hsum & Hb). destruct Ho as [->|[-> Hno]].
  - destruct (classify_spec (view c (SUPERBLOCK_START + s)) p Hn) as (Hn' & Hsum' & He' & Hb'). set (p1 := classify _ _ _) in *.
    eapply wp_mono; [apply (IH (s + 1) p1); [done|lia|]|].
    + apply Ep. split_and!; [done|lia|]. intros E t Ht. unfold slots_seen, probe_nonneg in *.
      case_bool_decide as Eb; [|lia]. destruct (decide (t = s)) as [->|]; [exact Eb|apply Hb; lia].
    + intros r c2 (I2 & V2 & p' & -> & Hp' & Hh). apply Ep in Hp'. split_and!; [done|by etrans|]. exists p'.
      replace (s + Z.of_nat (S n)) with (s + 1 + Z.of_nat n) by lia. split_and!; [done|done|]. intros Hhc.
      destruct (Hh (H1 Hhc)) as [He Hall]. split; [congruence|]. intros Ht. rewrite Hall.
      * rewrite Hb', bool_decide_true; [lia|]. apply Ht. lia.
      * intros t Ht'. unfold blank_slot. rewrite V1. apply Ht. lia.
  - eapply wp_mono; [apply IH; [done|lia|]|].
    + apply Ep. unfold probed, probe_nonneg, slots_seen in *. cbn [read_errors blank p_valid bad_checksum legacy foreign].
      split_and!; lia.
    + intros r c2 (I2 & V2 & p' & -> & Hp' & _). apply Ep in Hp'. split_and!; [done|by etrans|]. exists p'.
      replace (s + Z.of_nat (S n)) with (s + 1 + Z.of_nat n) by lia. split_and!; [done|done|]. done.
Qed.

(** Formatting is offered on an empty ring only.  [probe] classifies each of
    the eight slots once, and [is_pristine] holds only when all of them could be read
    and are blank, so never on a disk with a superblock that validates; on a store
    that serves its reads it holds exactly then. *)
Theorem pristine_means_blank c : store_inv c →
  wp (probe blake3) (λ r c', same (view c) (view c') ∧ ∃ p, r = Ok p ∧ slots_seen p = SUPERBLOCK_SLOTS ∧
    (is_pristine p = true → (∀ s, is_slot s → blank_slot (view c) s) ∧ ∀ s, ¬ ok_slot (view c) s) ∧
    (healthy c → (is_pristine p = true ↔ ∀ s, is_slot s → blank_slot (view c) s))) c.
Proof.
  intros I. unfold probe. eapply wp_mono; [apply (probe_loop_spec (Z.to_nat SUPERBLOCK_SLOTS) 0 probe_default c I); [lia|]|].
  { split_and!; try done. lia. }
  rewrite Z2Nat.id by done. intros r c' (_ & V & p & -> & (Hn & Hsum & Hb) & Hh). split; [done|]. exists p. split; [done|]. split; [done|].
  rewrite Z.add_0_l in *. assert (is_pristine p = true ↔ blank p = SUPERBLOCK_SLOTS ∧ read_errors p = 0) as Hpr
    by (unfold is_pristine; by rewrite andb_true_iff, !Z.eqb_eq).
  split.
  - intros [Ep _]%Hpr. assert (∀ s, is_slot s → blank_slot (view c) s) as Hall by (intros s Hs; by apply Hb). split; [done|].
    intros s [Hs Ha]. specialize (Hall s Hs). unfold Superblock.acceptable in Ha. rewrite !andb_true_iff, bool_decide_eq_true in Ha.
    destruct Ha as [[Hm _] _]. unfold blank_slot in Hall. revert Hm. unfold sb_at.
    assert (∀ v, take 8 v = replicate 8 x00 → sb_magic (sb_of v) = replicate 8 x00) as Hz by (intros v Hv; exact Hv).
    by rewrite (Hz _ Hall).
  - intros Hhc. destruct (Hh Hhc) as [He Hall]. rewrite Hpr. split; [intros [Ep _] s Hs; by apply Hb|]. intros Hbl.
    split; [|done]. rewrite Hall; [done|]. intros t Ht. by apply Hbl.
Qed.
End ring.

(** ** A freshly formatted ring *)
Definition ex_hash (_ : list byte) : list byte := replicate 32 x2a.
Definition ex_accept (_ : block) : bool := true.
Definition ex_sb (gen : Z) : SuperblockRaw :=
  mkSb DISK_MAGIC DISK_VERSION 0 gen 1000 700 265 1 266 0 (replicate 32 x00) 0 0 0 (replicate 16 x00)
    (replicate SLOT_BYTES x00) (replicate SLOT_BYTES x00) (replicate RESERVED_BYTES x00) (replicate 32 x00).

Lemma ex_sb_wf gen : fits 64 gen → sb_wf (ex_sb gen).
Proof.
  intros Hg. split; cbn [sb_magic version flags generation total_blocks free_blocks bitmap_start bitmap_count data_start btree_root
    root_tree_hash object_count journal_head journal_seq install_salt keyslot0 keyslot1 sb_reserved checksum ex_sb];
    rewrite ?length_replicate; try done; repeat (apply Forall_cons_2; [done|]); by apply Forall_nil_2.
Qed.

Lemma ex_ring : ∃ c : MemStore, store_inv (check := ex_accept) c ∧
  ring ex_hash (view (check := ex_accept) c) (set_checksum ex_hash (ex_sb 1)).
Proof.
  assert (store_inv (check := ex_accept) (∅ : MemStore)) as I0 by apply map_Forall_empty.
  pose proof (write_all_ring ex_hash (λ _, eq_refl) (check := ex_accept) (∅ : MemStore) (ex_sb 1) I0
    (ex_sb_wf 1 ltac:(done)) eq_refl eq_refl) as H.
  unfold wp in H. destruct (write_all ex_hash (∅ : MemStore, ex_sb 1)) as [r [c' sb']]. destruct H as (I' & _ & -> & R).
  destruct r as [[]|e|]; cbn [ends] in R; [destruct R as [R _]; by exists c'| |done]. by destruct R.
Qed.

Lemma read_best_finds_newest_witness : ∃ c : MemStore,
  wp (read_best ex_hash) (λ r _, ∃ o, r = Ok o ∧
    ∀ sb, o = Some sb → ∃ s, ok_slot ex_hash (view (check := ex_accept) c) s ∧ sb_at (view (check := ex_accept) c) s = sb) c.
Proof.
  destruct ex_ring as (c & I & R). exists c.
  eapply wp_mono; [apply (read_best_finds_newest ex_hash (check := ex_accept) c I (rg_gens _ _ _ R))|].
  intros r c' (_ & o & E & Ho & _). exact (ex_intro _ o (conj E Ho)).
Defined.


Lemma pristine_means_blank_witness :
  wp (probe ex_hash) (λ r c', ∃ p, r = Ok p ∧ slots_seen p = SUPERBLOCK_SLOTS) (∅ : MemStore).
Proof.
  eapply wp_mono; [apply (pristine_means_blank ex_hash (check := ex_accept) (∅ : MemStore)); apply map_Forall_empty|].
  intros r c' (_ & p & E & Hs & _). exact (ex_intro _ p (conj E Hs)).
Defined.
