(* ===== verification/Object.v ===== *)
(** * Content-addressed objects (storage/npkfs/object.rs)

    Blobs, trees and chunked files.  [postcard] and keyed BLAKE3 are libraries:
    the encoder, the decoder and the address function are arguments of the code
    that uses them.  The blob encoding the file writes and reads itself, the
    variant tag, a LEB128 length and the bytes, is modelled byte for byte. *)

From S2P Require Import Prelude Bytes.

Definition MAX_NAME_LEN : Z := 255.

Inductive EntryKind := File | Dir.
#[global] Instance entry_kind_eq_dec : EqDecision EntryKind.
Proof. solve_decision. Defined.

Record TreeEntry := mkTreeEntry {
  t_name : list byte;
  t_hash : list byte;
  t_kind : EntryKind;
  t_size : Z;
  t_mtime : Z;
  t_flags : Z }.
#[global] Instance tree_entry_eq_dec : EqDecision TreeEntry.
Proof. solve_decision. Defined.

Definition FLAG_CHUNKED : Z := 0x01.
Definition FLAG_BLOB : Z := 0x02.

Inductive Object :=
  | Blob (data : list byte)
  | Tree (entries : list TreeEntry)
  | Chunked (total_size : Z) (chunks : list (list byte)).

Inductive ObjectError := EEncode | EDecode | EInvalidName | ELocked.
Notation OR := (res ObjectError).

(** ** Names *)
Definition validate_name (name : list byte) : OR unit :=
  if bool_decide (name = []) || (MAX_NAME_LEN <? zlen name) then Err EInvalidName
  else if existsb (λ b, (bval b =? 0) || (bval b =? 47)) name then Err EInvalidName
  else Ok tt.

Fixpoint validate_all (l : list TreeEntry) : OR unit :=
  match l with
  | [] => Ok tt
  | e :: l => match validate_name (t_name e) with Ok _ => validate_all l | Err x => Err x | Panic => Panic end
  end.

(** [entries.sort_by(|a, b| a.name.cmp(&b.name))]: a stable sort, an entry goes
    before the ones that compare greater only. *)
Fixpoint insert_entry (e : TreeEntry) (l : list TreeEntry) : list TreeEntry :=
  match l with
  | [] => [e]
  | x :: l' => if bytes_ltb (t_name x) (t_name e) then x :: insert_entry e l' else e :: l
  end.
Definition sort_entries (l : list TreeEntry) : list TreeEntry := fold_right insert_entry [] l.

Definition tree_sorted (entries : list TreeEntry) : OR Object :=
  match validate_all entries with
  | Ok _ => Ok (Tree (sort_entries entries))
  | Err x => Err x
  | Panic => Panic
  end.

(** ** The blob encoding *)

(** [while x >= 0x80] of [encode_varint_u64]: the bytes written and their number;
    [fuel] rounds, of which ten are enough for a [u64]. *)
Fixpoint varint_loop (fuel : nat) (x i : Z) (buf : list byte) : option (list byte * Z) :=
  if 0x80 <=? x then
    match fuel with
    | O => None
    | S fuel =>
        buf ← splice buf i [byte_of (Z.lor (Z.land x 0x7F) 0x80)];
        varint_loop fuel (Z.shiftr x 7) (i + 1) buf
    end
  else
    buf ← splice buf i [byte_of x];
    Some (buf, i + 1).
Definition encode_varint_u64 (x : Z) (buf : list byte) : option (list byte * Z) := varint_loop 10 x 0 buf.
Definition varint_buf : list byte := replicate 10 x00.

Definition encode_blob (data : list byte) : option (list byte) :=
  '(varint, n) ← encode_varint_u64 (zlen data) varint_buf;
  v ← sub varint 0 n;
  Some ([x00] ++ v ++ data).

(** [(1..=10).find_map(..)], from [k] on. *)
Fixpoint find_len (fuel : nat) (k encoded : Z) (buf : list byte) : option (option Z) :=
  match fuel with
  | O => Some None
  | S fuel =>
      if encoded <? 1 + k then find_len fuel (k + 1) encoded buf
      else
        let n := encoded - (1 + k) in
        '(buf, len) ← encode_varint_u64 n buf;
        if len =? k then Some (Some n) else find_len fuel (k + 1) encoded buf
  end.
Definition blob_len_from_encoded (encoded : Z) : option (option Z) := find_len 10 1 encoded varint_buf.

(** The [loop] of [decode_blob_inplace]: the length and where the content starts. *)
Fixpoint prefix_loop (fuel : nat) (bytes : list byte) (len shift idx : Z) : OR (Z * Z) :=
  match fuel with
  | O => Panic
  | S fuel =>
      if (zlen bytes <=? idx) || (5 <? idx) then Err EDecode
      else
        match at_ bytes idx with
        | None => Panic
        | Some b =>
            let len := Z.lor len (u64 (Z.shiftl (Z.land (bval b) 0x7F) shift)) in
            let idx := idx + 1 in
            if Z.land (bval b) 0x80 =? 0 then Ok (len, idx)
            else
              let shift := shift + 7 in
              if 64 <=? shift then Err EDecode else prefix_loop fuel bytes len shift idx
        end
  end.

Definition decode_blob_inplace (bytes : list byte) : OR (list byte) :=
  match bytes with
  | [] => Err EDecode
  | b :: _ =>
      if negb (bval b =? 0) then Err EDecode
      else
        match prefix_loop 6 bytes 0 0 1 with
        | Ok (blob_len, prefix) =>
            if zlen bytes <? prefix + blob_len then Err EDecode
            else Ok (take (Z.to_nat blob_len) (drop (Z.to_nat prefix) bytes))
        | Err x => Err x
        | Panic => Panic
        end
  end.

(** ** The libraries

    [postcard::to_allocvec] and [from_bytes], and keyed BLAKE3 of a byte string,
    [None] while the disk is locked. *)
Class Codec := {
  to_allocvec : Object → option (list byte);
  from_bytes : list byte → option Object;
  object_address : list byte → option (list byte) }.

(** "No object here": [paths::EMPTY_ROOT]. *)
Definition EMPTY_ROOT : list byte := replicate 32 x00.

(** The variant index, which is the first byte of an encoding. *)
Definition tag (o : Object) : byte :=
  match o with Blob _ => x00 | Tree _ => x01 | Chunked _ _ => x02 end.

(** What the code relies on.  Postcard's wire format is documented: the variant's
    index first, a blob as [encode_blob] writes it, and decoding inverts encoding.
    The disk is unlocked, and BLAKE3 is taken to be free of collisions: an address
    names one content and none is the empty root's. *)
Class CodecOk `{Codec} := {
  from_bytes_to_allocvec o b : to_allocvec o = Some b → from_bytes b = Some o;
  encode_total o : (∀ d, o = Blob d → zlen d < 2 ^ 35) → is_Some (to_allocvec o);
  encode_wire d : zlen d < 2 ^ 35 → to_allocvec (Blob d) = encode_blob d;
  encode_tag o b : to_allocvec o = Some b → ∃ l, b = tag o :: l;
  address_total b : is_Some (object_address b);
  address_inj b b' h : object_address b = Some h → object_address b' = Some h → b = b';
  address_nonzero b : object_address b ≠ Some EMPTY_ROOT }.

Section library.
Context `{Codec}.

Definition encode (o : Object) : OR (list byte) :=
  match to_allocvec o with Some b => Ok b | None => Err EEncode end.
Definition decode (b : list byte) : OR Object :=
  match from_bytes b with Some o => Ok o | None => Err EDecode end.
Definition hash (o : Object) : OR (list byte) :=
  match encode o with
  | Ok b => match object_address b with Some h => Ok h | None => Err ELocked end
  | Err x => Err x
  | Panic => Panic
  end.
Definition encode_and_hash (o : Object) : OR (list byte * list byte) :=
  match encode o with
  | Ok b => match object_address b with Some h => Ok (b, h) | None => Err ELocked end
  | Err x => Err x
  | Panic => Panic
  end.

(** The three [update]s hash the concatenation; [None] from the address hasher
    comes before anything is written to it. *)
Definition blob_content_hash (data : list byte) : option (option (list byte)) :=
  '(varint, n) ← encode_varint_u64 (zlen data) varint_buf;
  v ← sub varint 0 n;
  Some (object_address ([x00] ++ v ++ data)).
End library.
