(* ===== verification/ObjectSpec.v ===== *)
(** * The blob encoding read back (storage/npkfs/object.rs)

    The writer's LEB128 length against a reference encoder, the in-place decoder
    and the length recovered from an encoding's size, and what [tree_sorted]
    makes of a directory. *)

From stdpp Require Import sorting.
From S2P Require Import Prelude Bytes Object.

(** ** Base 128 *)

(** The digits of [x], least significant first, the high bit set on all but the
    last. *)
Fixpoint leb (fuel : nat) (x : Z) : list byte :=
  match fuel with
  | O => [byte_of x]
  | S fuel =>
      if 0x80 <=? x then byte_of (Z.lor (Z.land x 0x7F) 0x80) :: leb fuel (Z.shiftr x 7) else [byte_of x]
  end.

Lemma leb_len fuel x : 1 ≤ zlen (leb fuel x) ≤ Z.of_nat fuel + 1.
Proof.
  revert x; induction fuel as [|fuel IH]; intros x; cbn [leb].
  - rewrite zlen_cons, zlen_nil. lia.
  - destruct (0x80 <=? x); rewrite zlen_cons, ?zlen_nil; [specialize (IH (Z.shiftr x 7))|]; lia.
Qed.

Lemma shiftr7 x : Z.shiftr x 7 = x / 128.
Proof. by rewrite Z.shiftr_div_pow2 by lia. Qed.

Lemma digit x : Z.lor (Z.land x 0x7F) 0x80 = x `mod` 128 + 128.
Proof.
  change 0x7F with (Z.ones 7). rewrite Z.land_ones by lia. change (2 ^ 7) with 128.
  pose proof (Z.mod_pos_bound x 128 ltac:(lia)) as Hb.
  rewrite <- Z.lxor_lor, <- Z.add_nocarry_lxor; [done| |].
  all: apply Z.bits_inj'; intros n Hn; rewrite Z.land_spec, Z.bits_0.
  all: destruct (decide (n = 7)) as [->|]; [|change 128 with (2 ^ 7); rewrite Z.pow2_bits_false by lia; apply andb_false_r].
  all: rewrite <- (Z.mod_small (x `mod` 128) (2 ^ 7)) by (change (2 ^ 7) with 128; lia);
    rewrite Z.mod_pow2_bits_high by lia; done.
Qed.

Lemma digit_bval x : bval (byte_of (Z.lor (Z.land x 0x7F) 0x80)) = x `mod` 128 + 128.
Proof.
  rewrite digit, bval_byte_of. pose proof (Z.mod_pos_bound x 128 ltac:(lia)).
  apply Z.mod_small. lia.
Qed.

(** The number of digits. *)
Lemma leb_len_le fuel x k :
  0 ≤ x < 2 ^ (7 * Z.of_nat k) → (1 ≤ k)%nat → zlen (leb fuel x) ≤ Z.of_nat k.
Proof.
  revert x k; induction fuel as [|fuel IH]; intros x k Hx Hk; cbn [leb].
  - rewrite zlen_cons, zlen_nil. lia.
  - destruct (Z.leb_spec 0x80 x); rewrite zlen_cons, ?zlen_nil; [|lia].
    destruct k as [|[|k]]; [lia|change (2 ^ (7 * Z.of_nat 1)) with 128 in Hx; lia|].
    cut (zlen (leb fuel (Z.shiftr x 7)) ≤ Z.of_nat (S k)); [lia|]. apply IH; [|lia].
    rewrite shiftr7. split; [apply Z.div_pos; lia|]. apply Z.div_lt_upper_bound; [lia|].
    replace (7 * Z.of_nat (S (S k))) with (7 + 7 * Z.of_nat (S k)) in Hx by lia.
    rewrite Z.pow_add_r in Hx by lia. change (2 ^ 7) with 128 in Hx. lia.
Qed.

(** A longer encoding is of a larger number. *)
Lemma leb_len_mono fuel x y : 0 ≤ x ≤ y → zlen (leb fuel x) ≤ zlen (leb fuel y).
Proof.
  revert x y; induction fuel as [|fuel IH]; intros x y Hx; cbn [leb]; [rewrite !zlen_cons; lia|].
  destruct (Z.leb_spec 0x80 x), (Z.leb_spec 0x80 y); rewrite !zlen_cons, ?zlen_nil; try lia.
  - specialize (IH (Z.shiftr x 7) (Z.shiftr y 7)). rewrite !shiftr7 in IH |- *.
    assert (0 ≤ x / 128 ≤ y / 128); [|lia]. split; [apply Z.div_pos; lia|apply Z.div_le_mono; lia].
  - pose proof (zlen_nonneg (leb fuel (Z.shiftr y 7))). lia.
Qed.

(** The loop of [encode_varint_u64] writes the digits at [i] and nothing below. *)
Lemma varint_loop_spec fuel x i buf :
  0 ≤ x < 2 ^ (7 * (Z.of_nat fuel + 1)) → 0 ≤ i → i + zlen (leb fuel x) ≤ zlen buf →
  ∃ buf', varint_loop fuel x i buf = Some (buf', i + zlen (leb fuel x)) ∧
    zlen buf' = zlen buf ∧ raw_sub buf' i (zlen (leb fuel x)) = leb fuel x ∧
    ∀ a n, 0 ≤ a → a + n ≤ i → raw_sub buf' a n = raw_sub buf a n.
Proof.
  assert (Hlast : ∀ x i buf, 0 ≤ i → i + zlen [byte_of x] ≤ zlen buf →
    ∃ buf', (splice buf i [byte_of x] ≫= λ buf, Some (buf, i + 1)) = Some (buf', i + zlen [byte_of x]) ∧
    zlen buf' = zlen buf ∧ raw_sub buf' i (zlen [byte_of x]) = [byte_of x] ∧
    ∀ a n, 0 ≤ a → a + n ≤ i → raw_sub buf' a n = raw_sub buf a n).
  { clear. intros x i buf Hi Hb. rewrite splice_Some by done. eexists. split; [done|].
    split; [by apply zlen_raw_splice|]. split; [by apply sub_splice_same|].
    intros. apply sub_splice_disjoint; [done|done|done|]. lia. }
  revert x i buf; induction fuel as [|fuel IH]; intros x i buf Hx Hi Hb; cbn [varint_loop leb] in *.
  - change (2 ^ _) with 128 in Hx. destruct (Z.leb_spec 0x80 x); [lia|]. by apply Hlast.
  - destruct (Z.leb_spec 0x80 x); [|by apply Hlast]. rewrite zlen_cons in *.
    pose proof (leb_len fuel (Z.shiftr x 7)) as Hl.
    set (d := byte_of _) in *. rewrite (splice_Some buf i [d]) by (rewrite ?zlen_cons, ?zlen_nil; lia). cbn [mbind option_bind].
    assert (Hz : zlen (raw_splice buf i [d]) = zlen buf)
      by (apply zlen_raw_splice; rewrite ?zlen_cons, ?zlen_nil; lia).
    destruct (IH (Z.shiftr x 7) (i + 1) (raw_splice buf i [d])) as (buf' & Hr & Hlen & Hs & Hbelow); [|lia|lia|].
    { rewrite shiftr7. split; [apply Z.div_pos; lia|]. apply Z.div_lt_upper_bound; [lia|].
      replace (7 * (Z.of_nat (S fuel) + 1)) with (7 + 7 * (Z.of_nat fuel + 1)) in Hx by lia.
      rewrite Z.pow_add_r in Hx by lia. change (2 ^ 7) with 128 in Hx. lia. }
    exists buf'. split; [rewrite Hr; do 2 f_equal; lia|]. split; [lia|]. split.
    + assert (H1 : raw_sub buf' i 1 = [d]).
      { rewrite Hbelow by lia. by apply (sub_splice_same buf i [d]); rewrite ?zlen_cons, ?zlen_nil; lia. }
      transitivity (raw_sub buf' i 1 ++ raw_sub buf' (i + 1) (zlen (leb fuel (Z.shiftr x 7)))); [|by rewrite H1, Hs].
      clear -Hi Hl. unfold raw_sub. rewrite Z.add_comm, Z2Nat.inj_add, <- take_take_drop by lia. f_equal.
      rewrite drop_drop. do 2 f_equal. lia.
    + intros a n Ha Hn. rewrite Hbelow by lia.
      apply sub_splice_disjoint; rewrite ?zlen_cons, ?zlen_nil; lia.
Qed.

Lemma encode_varint_spec x buf :
  0 ≤ x < 2 ^ 64 → zlen buf = 10 →
  ∃ buf', encode_varint_u64 x buf = Some (buf', zlen (leb 10 x)) ∧ zlen buf' = 10 ∧
    raw_sub buf' 0 (zlen (leb 10 x)) = leb 10 x.
Proof.
  intros Hx Hb. assert (zlen (leb 10 x) ≤ 10).
  { apply (leb_len_le 10 x 10); [|lia]. split; [lia|]. etrans; [apply Hx|]. by apply Z.pow_lt_mono_r. }
  destruct (varint_loop_spec 10 x 0 buf) as (buf' & Hr & Hl & Hs & _); [|lia|lia|].
  { split; [lia|]. etrans; [apply Hx|]. by apply Z.pow_lt_mono_r. }
  exists buf'. split; [done|]. split; [lia|done].
Qed.

Lemma encode_blob_spec data : zlen data < 2 ^ 64 → encode_blob data = Some (x00 :: leb 10 (zlen data) ++ data).
Proof.
  intros Hd. pose proof (zlen_nonneg data) as Hn. unfold encode_blob.
  destruct (encode_varint_spec (zlen data) varint_buf) as (buf & -> & Hl & Hs); [lia|done|].
  cbn [mbind option_bind]. pose proof (zlen_nonneg (leb 10 (zlen data))).
  assert (zlen (leb 10 (zlen data)) ≤ 10).
  { apply (leb_len_le 10 _ 10); [|lia]. split; [lia|]. etrans; [exact Hd|]. by apply Z.pow_lt_mono_r. }
  rewrite sub_Some by lia. by rewrite Hs.
Qed.

(** ** Reading it back *)

Lemma digit_continues x :
  Z.land (bval (byte_of (Z.lor (Z.land x 0x7F) 0x80))) 0x80 ≠ 0 ∧
  Z.land (bval (byte_of (Z.lor (Z.land x 0x7F) 0x80))) 0x7F = x `mod` 128.
Proof.
  rewrite digit_bval. pose proof (Z.mod_pos_bound x 128 ltac:(lia)) as Hb. split.
  - intros H. assert (Z.testbit (Z.land (x `mod` 128 + 128) 0x80) 7 = false) as H7 by (rewrite H; done).
    rewrite Z.land_spec in H7. change (Z.testbit 0x80 7) with true in H7. rewrite andb_true_r in H7.
    apply Z.testbit_false in H7; [|lia]. change (2 ^ 7) with 128 in H7.
    replace ((x `mod` 128 + 128) / 128) with 1 in H7; [done|].
    apply Z.div_unique with (x `mod` 128); lia.
  - change 0x7F with (Z.ones 7). rewrite Z.land_ones by lia. change (2 ^ 7) with 128.
    rewrite Z.add_mod, Z.mod_same, Z.add_0_r, !Z.mod_mod by lia. done.
Qed.

Lemma digit_last x :
  0 ≤ x < 128 → Z.land (bval (byte_of x)) 0x80 = 0 ∧ Z.land (bval (byte_of x)) 0x7F = x.
Proof.
  intros Hx. rewrite bval_byte_of, Z.mod_small by lia. split.
  - apply Z.bits_inj'. intros n Hn. rewrite Z.land_spec, Z.bits_0.
    destruct (decide (n = 7)) as [->|]; [|change 0x80 with (2 ^ 7); rewrite Z.pow2_bits_false by lia; apply andb_false_r].
    rewrite <- (Z.mod_small x (2 ^ 7)) by (change (2 ^ 7) with 128; lia). by rewrite Z.mod_pow2_bits_high by lia.
  - change 0x7F with (Z.ones 7). rewrite Z.land_ones by lia. by apply Z.mod_small.
Qed.

Lemma prefix_loop_spec k bytes fuel f x len idx shift rest :
  (k ≤ fuel)%nat → (k ≤ f)%nat → (1 ≤ k)%nat →
  0 ≤ x < 2 ^ (7 * Z.of_nat k) → shift = 7 * (idx - 1) → 1 ≤ idx → idx + Z.of_nat k ≤ 6 →
  0 ≤ len < 2 ^ shift → drop (Z.to_nat idx) bytes = leb f x ++ rest →
  prefix_loop fuel bytes len shift idx = Ok (len + x * 2 ^ shift, idx + zlen (leb f x)).
Proof.
  revert bytes fuel f x len idx shift rest; induction k as [|k IH]; [lia|].
  intros bytes [|fuel] [|f] x len idx shift rest Hf Hf' _ Hx Hs Hi Hk Hlen Hd; [lia|lia|lia|].
  cbn [prefix_loop]. pose proof (leb_len (S f) x) as Hpos.
  assert (Hidx : idx < zlen bytes).
  { assert (length (drop (Z.to_nat idx) bytes) = length (leb (S f) x ++ rest)) as E by (by rewrite Hd).
    rewrite length_drop, length_app in E. unfold zlen in *. lia. }
  rewrite (proj2 (Z.leb_gt (zlen bytes) idx)), (proj2 (Z.ltb_ge 5 idx)) by lia. cbn [orb].
  assert (Hat : ∀ b l, leb (S f) x ++ rest = b :: l → at_ bytes idx = Some b ∧ drop (Z.to_nat (idx + 1)) bytes = l).
  { intros b l E. rewrite E in Hd. split.
    - apply at_sub. split; [lia|]. unfold raw_sub. by rewrite Hd.
    - replace (Z.to_nat (idx + 1)) with (Z.to_nat idx + 1)%nat by lia. by rewrite <- drop_drop, Hd. }
  cbn [leb] in *. rewrite shiftr7 in *. destruct (Z.leb_spec 0x80 x).
  - destruct (Hat _ _ eq_refl) as [-> Hd']. destruct (digit_continues x) as [H1 H2].
    rewrite (proj2 (Z.eqb_neq _ _) H1), H2.
    destruct k as [|k]; [change (2 ^ (7 * Z.of_nat 1)) with 128 in Hx; lia|].
    pose proof (Z.mod_pos_bound x 128 ltac:(lia)) as Hm.
    assert (Hp : 2 ^ (shift + 7) = 2 ^ shift * 128) by (rewrite Z.pow_add_r by lia; done).
    assert (0 < 2 ^ shift) by (apply Z.pow_pos_nonneg; lia).
    assert (2 ^ shift ≤ 2 ^ 28) by (apply Z.pow_le_mono_r; lia). change (2 ^ 28) with 268435456 in *.
    rewrite wrap_small by (unfold fits; rewrite Z.shiftl_mul_pow2 by lia; split; [nia|]; change (2 ^ 64) with 18446744073709551616; nia).
    rewrite lor_above by lia.
    rewrite (proj2 (Z.leb_gt 64 (shift + 7))) by lia.
    rewrite (IH bytes fuel f (x / 128) _ (idx + 1) (shift + 7) rest); [|lia|lia|lia| |lia|lia|lia| |done].
    + rewrite zlen_cons, Hp. f_equal. f_equal; [|lia]. rewrite (Z.div_mod x 128) at 3 by lia. nia.
    + split; [apply Z.div_pos; lia|]. apply Z.div_lt_upper_bound; [lia|].
      replace (7 * Z.of_nat (S (S k))) with (7 + 7 * Z.of_nat (S k)) in Hx by lia.
      rewrite Z.pow_add_r in Hx by lia. change (2 ^ 7) with 128 in Hx. lia.
    + rewrite Hp. nia.
  - destruct (Hat _ _ eq_refl) as [-> Hd']. destruct (digit_last x) as [H1 H2]; [lia|].
    rewrite H1, H2. cbn [Z.eqb].
    assert (0 < 2 ^ shift) by (apply Z.pow_pos_nonneg; lia).
    assert (2 ^ shift ≤ 2 ^ 28) by (apply Z.pow_le_mono_r; lia). change (2 ^ 28) with 268435456 in *.
    rewrite wrap_small by (unfold fits; rewrite Z.shiftl_mul_pow2 by lia; split; [nia|]; change (2 ^ 64) with 18446744073709551616; nia).
    rewrite lor_above by lia. done.
Qed.

Lemma decode_blob_spec data : zlen data < 2 ^ 35 → decode_blob_inplace (x00 :: leb 10 (zlen data) ++ data) = Ok data.
Proof.
  intros Hd. pose proof (zlen_nonneg data) as Hn. unfold decode_blob_inplace.
  change (negb (bval x00 =? 0)) with false. cbv iota.
  rewrite (prefix_loop_spec 5 _ 6 10 (zlen data) 0 1 0 data); [|lia|lia|lia| |lia|lia|lia| |done].
  - change (2 ^ 0) with 1. rewrite Z.mul_1_r, Z.add_0_l, zlen_cons, zlen_app.
    rewrite (proj2 (Z.ltb_ge _ _)) by lia. f_equal.
    pose proof (zlen_nonneg (leb 10 (zlen data))).
    replace (Z.to_nat (1 + zlen (leb 10 (zlen data)))) with (S (length (leb 10 (zlen data)))) by (unfold zlen; lia).
    cbn [drop]. rewrite drop_app_length. unfold zlen. by rewrite Nat2Z.id, firstn_all.
  - split; [lia|]. change (7 * Z.of_nat 5) with 35. lia.
  - change (2 ^ 0) with 1. lia.
Qed.

(** [find_map] stops at the number of digits of the length. *)
Lemma find_len_spec fuel k n buf :
  0 ≤ n → 1 + zlen (leb 10 n) + n < 2 ^ 64 → zlen buf = 10 → 1 ≤ k ≤ zlen (leb 10 n) →
  zlen (leb 10 n) < k + Z.of_nat fuel →
  find_len fuel k (1 + zlen (leb 10 n) + n) buf = Some (Some n).
Proof.
  revert k buf; induction fuel as [|fuel IH]; intros k buf Hn Hb Hbuf Hk Hf; [lia|].
  cbn [find_len]. set (L := zlen (leb 10 n)) in *.
  rewrite (proj2 (Z.ltb_ge (1 + L + n) (1 + k))) by lia.
  destruct (encode_varint_spec (1 + L + n - (1 + k)) buf) as (buf' & -> & Hl & _); [lia|done|].
  cbn [mbind option_bind]. destruct (decide (k = L)) as [->|].
  - replace (1 + L + n - (1 + L)) with n by lia. fold L. by rewrite Z.eqb_refl.
  - pose proof (leb_len_mono 10 n (1 + L + n - (1 + k)) ltac:(lia)) as Hm. fold L in Hm.
    rewrite (proj2 (Z.eqb_neq _ _)) by lia. apply IH; lia.
Qed.

Lemma blob_len_of_encoding data bytes :
  zlen data < 2 ^ 35 → encode_blob data = Some bytes → blob_len_from_encoded (zlen bytes) = Some (Some (zlen data)).
Proof.
  intros Hd He. pose proof (zlen_nonneg data) as Hn.
  assert (H64 : zlen data < 2 ^ 64) by (etrans; [exact Hd|by apply Z.pow_lt_mono_r]).
  rewrite (encode_blob_spec data H64) in He. apply (inj Some) in He. subst bytes.
  pose proof (leb_len 10 (zlen data)) as Hl.
  assert (Hl' : zlen (leb 10 (zlen data)) ≤ 10).
  { apply (leb_len_le 10 _ 10); [|lia]. split; [lia|]. etrans; [exact H64|]. by apply Z.pow_lt_mono_r. }
  rewrite zlen_cons, zlen_app. replace (_ + _ + 1) with (1 + zlen (leb 10 (zlen data)) + zlen data) by lia.
  apply find_len_spec; [done| |done|lia|lia]. change (2 ^ 64) with 18446744073709551616.
  change (2 ^ 35) with 34359738368 in Hd. lia.
Qed.

Lemma content_hash_of_encoding `{Codec} data bytes :
  encode_blob data = Some bytes → blob_content_hash data = Some (object_address bytes).
Proof.
  unfold encode_blob, blob_content_hash. generalize (zlen data) as z. intros z.
  destruct (encode_varint_u64 z varint_buf) as [[v n]|]; cbn [mbind option_bind]; [|done].
  destruct (sub v 0 n) as [w|]; cbn [mbind option_bind]; [|done]. by intros [= <-].
Qed.

(** Round trip of a file's content.  For up to 2^35 bytes, [encode_blob] yields
    an encoding that [decode_blob_inplace] turns back into the same bytes, whose
    length alone [blob_len_from_encoded] turns back into the content's, and whose
    address is the one [blob_content_hash] streams without building it. *)
Theorem blob_roundtrip `{Codec} data :
  zlen data < 2 ^ 35 →
  ∃ bytes, encode_blob data = Some bytes ∧ decode_blob_inplace bytes = Ok data ∧
    blob_len_from_encoded (zlen bytes) = Some (Some (zlen data)) ∧
    blob_content_hash data = Some (object_address bytes).
Proof.
  intros Hd. pose proof (zlen_nonneg data) as Hn.
  assert (H64 : zlen data < 2 ^ 64) by (etrans; [exact Hd|by apply Z.pow_lt_mono_r]).
  pose proof (encode_blob_spec data H64) as He. eexists. split; [exact He|].
  split; [by apply decode_blob_spec|]. split; [by apply blob_len_of_encoding|by apply content_hash_of_encoding].
Qed.

(** ** A codec

    One that the assumptions on the libraries hold of: blobs as on the wire, other
    objects as the bits of their number, and every byte string its own address. *)
Module RefCodec.
#[export] Instance entry_kind_countable : Countable EntryKind.
Proof.
  refine (inj_countable' (λ k, match k with File => false | Dir => true end)
            (λ b : bool, if b then Dir else File) _).
  by intros [].
Defined.
#[export] Instance tree_entry_countable : Countable TreeEntry.
Proof.
  refine (inj_countable' (λ e, (t_name e, t_hash e, t_kind e, t_size e, t_mtime e, t_flags e))
            (λ '(n, h, k, s, t, f), mkTreeEntry n h k s t f) _).
  by intros [].
Defined.

Fixpoint bits (p : positive) : list byte :=
  match p with xH => [] | xO p => x00 :: bits p | xI p => x01 :: bits p end.
Fixpoint unbits (l : list byte) : positive :=
  match l with [] => xH | x00 :: l => xO (unbits l) | _ :: l => xI (unbits l) end.
Lemma unbits_bits p : unbits (bits p) = p.
Proof. induction p; simpl; congruence. Qed.

Definition enc (o : Object) : option (list byte) :=
  match o with
  | Blob d => if zlen d <? 2 ^ 35 then encode_blob d else None
  | Tree es => Some (x01 :: bits (countable.encode es))
  | Chunked n c => Some (x02 :: bits (countable.encode (n, c)))
  end.
Definition dec (b : list byte) : option Object :=
  match b with
  | x00 :: _ => match decode_blob_inplace b with Ok d => Some (Blob d) | _ => None end
  | x01 :: l => Tree <$> countable.decode (unbits l)
  | x02 :: l => '(n, c) ← countable.decode (unbits l); Some (Chunked n c)
  | _ => None
  end.

#[export] Instance codec : Codec :=
  { to_allocvec := enc; from_bytes := dec; object_address b := Some (x01 :: b) }.

Lemma wire d : zlen d < 2 ^ 35 → encode_blob d = Some (x00 :: leb 10 (zlen d) ++ d).
Proof. intros Hd. apply encode_blob_spec. etrans; [exact Hd|]. by apply Z.pow_lt_mono_r. Qed.

#[export] Instance codec_ok : CodecOk.
Proof.
  split; cbn [to_allocvec from_bytes object_address codec].
  - intros [d|es|n c] b; cbn [enc].
    + destruct (Z.ltb_spec (zlen d) (2 ^ 35)) as [Hd|]; [|done]. rewrite wire by done. intros Hb%(inj Some); subst b.
      pose proof (decode_blob_spec d Hd) as E. unfold dec. by rewrite E.
    + intros [= <-]. cbn [dec]. by rewrite unbits_bits, countable.decode_encode.
    + intros [= <-]. cbn [dec]. by rewrite unbits_bits, countable.decode_encode.
  - intros [d|es|n c] Ho; cbn [enc]; [|by eexists|by eexists].
    rewrite (proj2 (Z.ltb_lt _ _)) by (by apply Ho). rewrite wire by (by apply Ho). by eexists.
  - intros d Hd. cbn [enc]. by rewrite (proj2 (Z.ltb_lt _ _)).
  - intros [d|es|n c] b; cbn [enc tag]; [|intros [= <-]; by eexists..].
    destruct (Z.ltb_spec (zlen d) (2 ^ 35)); [|done]. rewrite wire by done. intros Hb%(inj Some); subst b. by eexists.
  - by eexists.
  - intros b b' h [= <-] [= <-]. done.
  - done.
Qed.
End RefCodec.

Lemma blob_roundtrip_witness :
  ∃ bytes, encode_blob (replicate 300 x07) = Some bytes ∧ decode_blob_inplace bytes = Ok (replicate 300 x07) ∧
    blob_len_from_encoded (zlen bytes) = Some (Some (zlen (replicate 300 x07))) ∧
    @blob_content_hash RefCodec.codec (replicate 300 x07) = Some (@object_address RefCodec.codec bytes).
Proof. apply (@blob_roundtrip RefCodec.codec (replicate 300 x07)). vm_compute. reflexivity. Defined.

(** ** Directories *)
Definition name_le (a b : TreeEntry) : Prop := t_name a = t_name b ∨ bytes_lt (t_name a) (t_name b).

#[global] Instance name_le_trans : Transitive name_le.
Proof.
  unfold name_le. intros a b c [->|Hab] [<-|Hbc]; auto. right. by eapply bytes_lt_trans.
Qed.

Lemma insert_entry_perm e l : insert_entry e l ≡ₚ e :: l.
Proof.
  induction l as [|x l IH]; simpl; [done|]. destruct (bytes_ltb _ _); [|done]. rewrite IH. constructor.
Qed.
Lemma sort_entries_perm l : sort_entries l ≡ₚ l.
Proof. induction l as [|e l IH]; simpl; [done|]. by rewrite insert_entry_perm, IH. Qed.

Lemma insert_entry_sorted e l : StronglySorted name_le l → StronglySorted name_le (insert_entry e l).
Proof.
  induction 1 as [|x l Hs IH Hx]; simpl; [repeat constructor|].
  destruct (bytes_ltb (t_name x) (t_name e)) eqn:E.
  - constructor; [done|]. rewrite insert_entry_perm. constructor; [|done]. by right.
  - assert (name_le e x) by (apply bytes_ltb_false in E; destruct E; [by left|by right]).
    constructor; [by constructor|]. constructor; [done|].
    eapply Forall_impl; [done|]. intros y Hy. by etrans.
Qed.
Lemma sort_entries_sorted l : StronglySorted name_le (sort_entries l).
Proof. induction l as [|e l IH]; simpl; [constructor|]. by apply insert_entry_sorted. Qed.

(** Sorted lists of the same differently named entries are equal. *)
Lemma sorted_names_unique l k :
  StronglySorted name_le l → StronglySorted name_le k → NoDup (t_name <$> l) → l ≡ₚ k → l = k.
Proof.
  revert k; induction l as [|a l IH]; intros k Hl Hk Hnd Hp.
  { by apply Permutation_nil_l in Hp as <-. }
  destruct k as [|b k]; [by apply Permutation_nil_r in Hp|].
  inversion Hl as [|?? Hl' Ha]; inversion Hk as [|?? Hk' Hb]; subst. simpl in Hnd. apply NoDup_cons in Hnd as [Hna Hnd].
  assert (a = b) as ->.
  { destruct (decide (a = b)) as [|Hne]; [done|exfalso].
    assert (Hbl : b ∈ l).
    { assert (Hin : b ∈ a :: l) by (rewrite Hp; apply elem_of_cons; by left).
      apply elem_of_cons in Hin as [|]; [by subst|done]. }
    assert (Hak : a ∈ k).
    { assert (Hin : a ∈ b :: k) by (rewrite <- Hp; apply elem_of_cons; by left).
      apply elem_of_cons in Hin as [|]; [by subst|done]. }
    rewrite Forall_forall in Ha, Hb. destruct (Ha b Hbl) as [He|H1].
    - apply Hna. rewrite He. by apply list_elem_of_fmap_2.
    - destruct (Hb a Hak) as [He|H2].
      + apply Hna. rewrite <- He. by apply list_elem_of_fmap_2.
      + by eapply bytes_lt_asym. }
  f_equal. apply IH; [done|done|done|]. by eapply Permutation_cons_inv.
Qed.

Lemma validate_all_spec l : validate_all l = Ok tt ↔ Forall (λ e, validate_name (t_name e) = Ok tt) l.
Proof.
  induction l as [|e l IH]; simpl; [split; constructor|].
  rewrite Forall_cons, <- IH. destruct (validate_name _) as [[]| |]; naive_solver.
Qed.

Lemma validate_all_perm l k : l ≡ₚ k → validate_all l = validate_all k.
Proof.
  assert (Hcase : ∀ l, validate_all l = Ok tt ∨ validate_all l = Err EInvalidName).
  { clear. induction l as [|e l IH]; simpl; [by left|]. unfold validate_name.
    destruct (_ || _); [by right|]. destruct (existsb _ _); [by right|done]. }
  intros Hp. destruct (Hcase l) as [H|H], (Hcase k) as [H'|H']; try congruence.
  - apply validate_all_spec in H. rewrite Hp in H. apply validate_all_spec in H. congruence.
  - apply validate_all_spec in H'. rewrite <- Hp in H'. apply validate_all_spec in H'. congruence.
Qed.

(** A directory's object does not depend on the order its entries came in. *)
Lemma tree_sorted_canonical l k :
  l ≡ₚ k → NoDup (t_name <$> l) → tree_sorted l = tree_sorted k.
Proof.
  intros Hp Hnd. unfold tree_sorted. rewrite (validate_all_perm l k Hp).
  destruct (validate_all k); [|done|done]. do 2 f_equal.
  apply sorted_names_unique; [apply sort_entries_sorted..| |].
  - by rewrite sort_entries_perm.
  - by rewrite !sort_entries_perm.
Qed.
