(* ===== verification/ObjectStore.v ===== *)
(** * What the object store promises the path layer

    The operations of storage.rs and tree_cache.rs that paths.rs and fs.rs call,
    and their contract over the objects held.  The path layer is proved against
    the contract; [MemObjects] is a store that meets it. *)

From S2P Require Import Prelude Bytes Format Object ObjectSpec BlockStore.

Notation addr := (list byte).

(** A call that cannot fail, and one that returns nothing. *)
Definition total {S E A} (f : S → A * S) : M S E A := λ s, let '(a, s') := f s in (Ok a, s').
Definition modify {S E} (f : S → S) : M S E unit := λ s, (Ok tt, f s).

Class ObjectStore (S : Type) := {
  obj_get : addr → M S FsError (option (list byte));
  obj_put : addr → list byte → M S FsError unit;
  obj_put_addressed : addr → list byte → M S FsError unit;
  obj_has : addr → S → bool * S;
  plaintext_size : addr → M S FsError (option Z);
  tree_get : addr → S → option (list byte) * S;
  tree_put : addr → list byte → S → S;
  tree_forget : list addr → S → S;
  current_root : S → option addr;
  commit_root : addr → M S FsError unit;
  flush_pending : M S FsError unit;
  all_root_hashes : M S FsError (list addr);
  all_object_hashes : M S FsError (list addr);
  remove_many : list addr → M S FsError (Z * Z);
  obj_trim : M S FsError unit }.

Section contract.
Context {S : Type} (objects : S → gmap addr (list byte)) (root : S → option addr)
  (snapshots : S → list addr) (inv serving : S → Prop).

(** Nothing written: the superblock ring may turn, repeating the current root. *)
Record kept (s s' : S) : Prop := {
  kept_inv : inv s';
  kept_objects : objects s' = objects s;
  kept_root : root s' = root s;
  kept_snapshots r : r ∈ snapshots s' → r ∈ snapshots s ∨ root s = Some r;
  kept_serving : serving s → serving s' }.

(** Objects added: none lost or changed. *)
Record grown (s s' : S) : Prop := {
  grown_inv : inv s';
  grown_objects : objects s ⊆ objects s';
  grown_root : root s' = root s;
  grown_snapshots r : r ∈ snapshots s' → r ∈ snapshots s ∨ root s = Some r;
  grown_serving : serving s → serving s' }.

Lemma kept_grown s s' : kept s s' → grown s s'.
Proof. intros [? Ho ???]. split; try done. by rewrite Ho. Qed.

Lemma kept_refl s : inv s → kept s s.
Proof. by split; auto. Qed.
Lemma grown_refl s : inv s → grown s s.
Proof. by split; auto. Qed.
#[export] Instance kept_trans : Transitive kept.
Proof.
  intros s1 s2 s3 [? Ho1 Hr1 Hs1 ?] [? Ho2 Hr2 Hs2 ?]. split; [done|congruence|congruence| |auto].
  intros r Hr. apply Hs2 in Hr as [Hr|Hr]; [by apply Hs1|]. right. congruence.
Qed.
#[export] Instance grown_trans : Transitive grown.
Proof.
  intros s1 s2 s3 [? Ho1 Hr1 Hs1 ?] [? Ho2 Hr2 Hs2 ?]. split; [done|by etrans|congruence| |auto].
  intros r Hr. apply Hs2 in Hr as [Hr|Hr]; [by apply Hs1|]. right. congruence.
Qed.
End contract.

(** A store is [serving] while no request fails, for want of room, memory or the
    device.  An object is held under its address; cached bytes have the address
    they are cached under. *)
Class ObjectStoreOk (S : Type) `{!ObjectStore S} `{!Codec} := {
  objects : S → gmap addr (list byte);
  snapshots : S → list addr;
  os_inv : S → Prop;
  serving : S → Prop;
  okept := kept objects current_root snapshots os_inv serving;
  ogrown := grown objects current_root snapshots os_inv serving;

  objects_addressed s h b : os_inv s → objects s !! h = Some b → object_address b = Some h;

  obj_get_spec s h : os_inv s →
    wp (obj_get h) (λ r s', okept s s' ∧ ends (serving s) r (λ v, v = objects s !! h) True) s;

  obj_put_spec s h b : os_inv s → object_address b = Some h →
    wp (obj_put h b) (λ r s', ogrown s s' ∧
      ends (serving s) r (λ _, objects s' = <[h := b]> (objects s)) True) s;
  obj_put_addressed_spec s h b : os_inv s → object_address b = Some h →
    wp (obj_put_addressed h b) (λ r s', ogrown s s' ∧
      ends (serving s) r (λ _, objects s' = <[h := b]> (objects s)) True) s;

  (** A lookup that fails says the object is not there. *)
  obj_has_spec s h : os_inv s →
    okept s (obj_has h s).2 ∧ ((obj_has h s).1 = true → is_Some (objects s !! h));

  plaintext_size_spec s h : os_inv s →
    wp (plaintext_size h) (λ r s', okept s s' ∧ ends (serving s) r (λ v, v = zlen <$> objects s !! h) True) s;

  tree_get_spec s h : os_inv s →
    okept s (tree_get h s).2 ∧ ∀ b, (tree_get h s).1 = Some b → object_address b = Some h;
  tree_put_spec s h b : os_inv s → object_address b = Some h → okept s (tree_put h b s);
  tree_forget_spec s hs : os_inv s → okept s (tree_forget hs s);

  (** The commit that fails may have moved the root in memory. *)
  commit_root_spec s h : os_inv s → is_Some (current_root s) →
    wp (commit_root h) (λ r s', os_inv s' ∧ objects s' = objects s ∧ (serving s → serving s') ∧
      (∀ x, x ∈ snapshots s' → x ∈ snapshots s ∨ x = h) ∧
      (current_root s' = current_root s ∨ current_root s' = Some h) ∧
      ends (serving s) r (λ _, current_root s' = Some h) True) s;
  flush_pending_spec s : os_inv s → is_Some (current_root s) →
    wp flush_pending (λ r s', okept s s' ∧ ends (serving s) r (λ _, True) True) s;

  (** A slot that cannot be read is left out. *)
  all_root_hashes_spec s : os_inv s →
    wp all_root_hashes (λ r s', okept s s' ∧
      ends (serving s) r (λ v, (∀ x, x ∈ v → x ∈ snapshots s) ∧ (serving s → ∀ x, x ∈ snapshots s → x ∈ v)) True) s;
  all_object_hashes_spec s : os_inv s →
    wp all_object_hashes (λ r s', okept s s' ∧
      ends (serving s) r (λ v, ∀ h, h ∈ v ↔ is_Some (objects s !! h)) True) s;
  (** Removal takes out the objects named, or some of them. *)
  remove_many_spec s hs : os_inv s →
    wp (remove_many hs) (λ r s', os_inv s' ∧ current_root s' = current_root s ∧ (serving s → serving s') ∧
      (∀ x, x ∈ snapshots s' → x ∈ snapshots s ∨ current_root s = Some x) ∧
      objects s' ⊆ objects s ∧ (∀ h, h ∉ hs → objects s' !! h = objects s !! h) ∧
      ends (serving s) r (λ _, serving s → ∀ h, h ∈ hs → objects s' !! h = None) True) s;
  obj_trim_spec s : os_inv s →
    wp obj_trim (λ r s', okept s s' ∧ ends (serving s) r (λ _, True) True) s }.

(** ** A store in memory *)
Record MemObjects := mkMemObjects {
  mo_objects : gmap addr (list byte);
  mo_trees : gmap addr (list byte);
  mo_root : option addr;
  mo_ring : list addr }.

Definition mo_put (h : addr) (b : list byte) (s : MemObjects) : MemObjects :=
  mkMemObjects (<[h := b]> (mo_objects s)) (mo_trees s) (mo_root s) (mo_ring s).
Definition mo_cache (t : gmap addr (list byte)) (s : MemObjects) : MemObjects :=
  mkMemObjects (mo_objects s) t (mo_root s) (mo_ring s).

#[global] Instance mem_objects : ObjectStore MemObjects := {
  obj_get h := λ s, (Ok (mo_objects s !! h), s);
  obj_put h b := λ s, (Ok tt, mo_put h b s);
  obj_put_addressed h b := λ s, (Ok tt, mo_put h b s);
  obj_has h := λ s, (bool_decide (is_Some (mo_objects s !! h)), s);
  plaintext_size h := λ s, (Ok (zlen <$> mo_objects s !! h), s);
  tree_get h := λ s, (mo_trees s !! h, s);
  tree_put h b := λ s, mo_cache (<[h := b]> (mo_trees s)) s;
  tree_forget hs := λ s, mo_cache (filter (λ kv, kv.1 ∉ hs) (mo_trees s)) s;
  current_root := mo_root;
  commit_root h := λ s, (Ok tt, mkMemObjects (mo_objects s) (mo_trees s) (Some h) (take 8 (h :: mo_ring s)));
  flush_pending := λ s, (Ok tt, s);
  all_root_hashes := λ s, (Ok (mo_ring s), s);
  all_object_hashes := λ s, (Ok (map_to_list (mo_objects s)).*1, s);
  remove_many hs := λ s,
    (Ok (zlen hs, 0), mkMemObjects (filter (λ kv, kv.1 ∉ hs) (mo_objects s)) (mo_trees s) (mo_root s) (mo_ring s));
  obj_trim := λ s, (Ok tt, s) }.

Definition addressed `{!Codec} (m : gmap addr (list byte)) : Prop :=
  map_Forall (λ h b, object_address b = Some h) m.

Lemma addressed_insert `{!Codec, !CodecOk} m h b :
  addressed m → object_address b = Some h → addressed (<[h := b]> m) ∧ m ⊆ <[h := b]> m.
Proof.
  intros Hm Hb. split; [by apply map_Forall_insert_2|].
  destruct (m !! h) as [b'|] eqn:E; [|by apply insert_subseteq].
  assert (b' = b) as -> by (eapply address_inj; [by apply Hm|done]). by rewrite insert_id.
Qed.

Lemma addressed_filter `{!Codec} (P : addr * list byte → Prop) `{!∀ x, Decision (P x)} m :
  addressed m → addressed (filter P m).
Proof. intros Hm h b [Hh _]%map_lookup_filter_Some. by apply Hm. Qed.

#[global] Instance mem_objects_ok `{!Codec, !CodecOk} : ObjectStoreOk MemObjects.
Proof.
  refine {| objects := mo_objects; snapshots := mo_ring; serving := λ _, True;
            os_inv := λ s, addressed (mo_objects s) ∧ addressed (mo_trees s) |}.
  - intros s h b [Hm _]. apply Hm.
  - intros s h I. by split; [apply kept_refl|].
  - intros s h b [Io It] Hb. destruct (addressed_insert _ h b Io Hb). by split; [split; simpl; auto|].
  - intros s h b [Io It] Hb. destruct (addressed_insert _ h b Io Hb). by split; [split; simpl; auto|].
  - intros s h I. split; [by apply kept_refl|]. simpl. by intros ?%bool_decide_eq_true.
  - intros s h I. by split; [apply kept_refl|].
  - intros s h I. split; [by apply kept_refl|]. intros b. apply I.
  - intros s h b [Io It] Hb. destruct (addressed_insert _ h b It Hb). split; simpl; auto.
  - intros s hs [Io It]. split; simpl; auto. split; [done|]. by apply addressed_filter.
  - intros s h [Io It] _. unfold wp. simpl. split; [done|]. split; [done|]. split; [done|].
    split; [|split; [by right|done]]. intros x [->|Hx]%elem_of_cons; [by right|left].
    rewrite <- (take_drop 7 (mo_ring s)). apply elem_of_app. by left.
  - intros s I _. by split; [apply kept_refl|].
  - intros s I. split; [by apply kept_refl|]. by split.
  - intros s I. split; [by apply kept_refl|]. cbn. intros h. split.
    + intros [[h' b] [-> Hb]]%list_elem_of_fmap. apply elem_of_map_to_list in Hb. by eexists.
    + intros [b Hb]. apply list_elem_of_fmap. exists (h, b). split; [done|]. by apply elem_of_map_to_list.
  - intros s hs [Io It]. unfold wp. simpl. split; [by split; [apply addressed_filter|]|]. split; [done|].
    split; [done|]. split; [by left|]. split; [apply map_filter_subseteq|]. split.
    + intros h Hh. destruct (mo_objects s !! h) as [b|] eqn:E.
      * by apply map_lookup_filter_Some.
      * apply map_lookup_filter_None. by left.
    + intros _ h Hh. apply map_lookup_filter_None. right. intros b _ Hn. by apply Hn.
  - intros s I. by split; [apply kept_refl|].
Defined.
