(* ===== verification/Paths.v ===== *)
(** * The path layer (storage/npkfs/paths.rs)

    Every operation takes a root's address and a slash path and returns a new
    root's address.  The clock is an argument; [par::for_each] over the chunks runs
    them in order, as it does without helper cores. *)

From S2P Require Import Prelude Bytes Format Object BlockStore ObjectStore Superblock.

Inductive PathError :=
  | InvalidPath
  | NotFound
  | NotADirectory
  | AlreadyExists
  | NotEmpty
  | PCorrupt
  | Storage (e : FsError).

Record WalkOk := mkWalk { w_hash : addr; w_kind : EntryKind; w_size : Z; w_mtime : Z }.

(** ** Parsing *)
Definition slash : byte := x2f.
Fixpoint trim_start (l : list byte) : list byte :=
  match l with
  | [] => []
  | c :: l' => if bool_decide (c = slash) then trim_start l' else l
  end.
Definition trim_matches (l : list byte) : list byte := rev (trim_start (rev (trim_start l))).

Fixpoint split (l : list byte) : list (list byte) :=
  match l with
  | [] => [[]]
  | c :: l =>
      if bool_decide (c = slash) then [] :: split l
      else match split l with s :: ss => (c :: s) :: ss | [] => [[c]] end
  end.

(** [crate::ext::ROOT] *)
Definition EXT_ROOT : list byte := ascii "ext".

Fixpoint check_segs (l : list (list byte)) : res PathError unit :=
  match l with
  | [] => Ok tt
  | s :: l =>
      if bool_decide (s = []) then Err InvalidPath
      else if existsb (λ b, bval b =? 0) s then Err InvalidPath
      else if bool_decide (s = ascii ".") || bool_decide (s = ascii "..") then Err InvalidPath
      else if MAX_NAME_LEN <? zlen s then Err InvalidPath
      else check_segs l
  end.

Definition parse_path (path : list byte) : res PathError (list (list byte)) :=
  let trimmed := trim_matches path in
  if bool_decide (trimmed = []) then Ok []
  else
    let out := split trimmed in
    match check_segs out with
    | Ok _ =>
        match out with
        | [] => Panic
        | s :: _ => if bool_decide (s = EXT_ROOT) then Err InvalidPath else Ok out
        end
    | Err e => Err e
    | Panic => Panic
    end.

(** ** Errors of the layers below *)
Section lifting.
Context {S : Type}.
Notation MP := (M S PathError).

Definition lift_fs {A} (m : M S FsError A) : MP A := λ s,
  match m s with
  | (Ok a, s') => (Ok a, s')
  | (Err e, s') => (Err (Storage e), s')
  | (Panic, s') => (Panic, s')
  end.
(** [.map_err(|_| PathError::Corrupt)?] *)
Definition or_corrupt {A} (r : OR A) : MP A := λ s,
  match r with Ok a => (Ok a, s) | Err _ => (Err PCorrupt, s) | Panic => (Panic, s) end.
Definition of_res {A} (r : res PathError A) : MP A := λ s, (r, s).
End lifting.

Definition find_entry (name : list byte) (es : list TreeEntry) : option TreeEntry :=
  List.find (λ e, bool_decide (t_name e = name)) es.

(** [entries.iter().fold(0u64, |acc, e| acc.saturating_add(e.size))] *)
Definition sum_sizes (es : list TreeEntry) : Z := fold_left (λ acc e, sat_add 64 acc (t_size e)) es 0.

(** [iter().position(..)] *)
Fixpoint position (name : list byte) (es : list TreeEntry) : option Z :=
  match es with
  | [] => None
  | e :: es => if bool_decide (t_name e = name) then Some 0 else Z.succ <$> position name es
  end.

(** The inner loop of [rebuild_up]: the first entry of that name is pointed at the
    new subtree; [None] when there is none. *)
Fixpoint repoint (seg : list byte) (h : addr) (size : Z) (es : list TreeEntry) : option (list TreeEntry) :=
  match es with
  | [] => None
  | e :: es =>
      if bool_decide (t_name e = seg)
      then Some (mkTreeEntry (t_name e) h (t_kind e) size (t_mtime e) (t_flags e) :: es)
      else cons e <$> repoint seg h size es
  end.

(** [slice.chunks(n)] *)
Fixpoint chunks_fuel (fuel : nat) (n : Z) (data : list byte) : list (list byte) :=
  match fuel, data with
  | S fuel, _ :: _ => take (Z.to_nat n) data :: chunks_fuel fuel n (drop (Z.to_nat n) data)
  | _, _ => []
  end.
Definition chunks (n : Z) (data : list byte) : list (list byte) := chunks_fuel (length data) n data.

Definition STREAMING_CHUNK_SIZE : Z := 1024 * 1024.

(** ** Operations *)
Section paths.
Context `{!Codec} {S : Type} `{!ObjectStore S}.
Notation MP := (M S PathError).

Definition fetch_tree (h : addr) : MP (list TreeEntry) :=
  if bool_decide (h = EMPTY_ROOT) then mret []
  else
    held ← total (tree_get h);
    read ← match held with
           | Some b => mret (b, true)
           | None => o ← lift_fs (obj_get h); b ← ok_or PCorrupt o; mret (b, false)
           end;
    let '(bytes, cached) := (read : list byte * bool) in
    o ← or_corrupt (decode bytes);
    match o with
    | Tree entries =>
        _ ← (if cached then mret tt else modify (tree_put h bytes));
        mret entries
    | Blob _ | Chunked _ _ => fail NotADirectory
    end.

Definition store_tree (entries : list TreeEntry) : MP (addr * Z) :=
  let recursive_size := sum_sizes entries in
  obj ← or_corrupt (tree_sorted entries);
  '(bytes, h) ← or_corrupt (encode_and_hash obj);
  _ ← lift_fs (obj_put h bytes);
  _ ← modify (tree_put h bytes);
  mret (h, recursive_size).

(** [for (i, seg) in segs.iter().enumerate()] *)
Fixpoint walk_loop (cur_hash : addr) (segs : list (list byte)) : MP WalkOk :=
  match segs with
  | [] => panic
  | seg :: segs =>
      entries ← fetch_tree cur_hash;
      entry ← ok_or NotFound (find_entry seg entries);
      match segs with
      | [] => mret (mkWalk (t_hash entry) (t_kind entry) (t_size entry) (t_mtime entry))
      | _ =>
          if negb (bool_decide (t_kind entry = Dir)) then fail NotADirectory
          else walk_loop (t_hash entry) segs
      end
  end.

Definition walk (root : addr) (path : list byte) : MP WalkOk :=
  segs ← of_res (parse_path path);
  match segs with
  | [] => entries ← fetch_tree root; mret (mkWalk root Dir (sum_sizes entries) 0)
  | _ => walk_loop root segs
  end.

Fixpoint chain_loop (cur : list TreeEntry) (segs : list (list byte)) (trees : list (list TreeEntry)) :
    MP (list (list TreeEntry)) :=
  match segs with
  | [] => mret trees
  | seg :: segs =>
      entry ← ok_or NotFound (find_entry seg cur);
      if negb (bool_decide (t_kind entry = Dir)) then fail NotADirectory
      else
        next ← fetch_tree (t_hash entry);
        chain_loop next segs (trees ++ [next])
  end.
Definition walk_for_mutation (root : addr) (parent_segs : list (list byte)) : MP (list (list TreeEntry)) :=
  t ← fetch_tree root;
  chain_loop t parent_segs [t].

(** [for i in (0..parent_segs.len()).rev()], the segments and the trees from the
    last one back. *)
Fixpoint rebuild_loop (segs : list (list byte)) (trees : list (list TreeEntry)) (cur : addr * Z) : MP (addr * Z) :=
  match segs with
  | [] => mret cur
  | seg :: segs =>
      match trees with
      | [] => panic
      | anc :: trees =>
          anc ← ok_or PCorrupt (repoint seg cur.1 cur.2 anc);
          cur ← store_tree anc;
          rebuild_loop segs trees cur
      end
  end.
Definition rebuild_up (parent_segs : list (list byte)) (trees : list (list TreeEntry))
    (new_leaf_entries : list TreeEntry) : MP addr :=
  match rev trees with
  | [] => panic
  | _ :: trees =>
      cur ← store_tree new_leaf_entries;
      cur ← rebuild_loop (rev parent_segs) trees cur;
      mret cur.1
  end.

Definition insert_entry_at (root : addr) (segs : list (list byte)) (new_entry : TreeEntry)
    (allow_replace : bool) : MP addr :=
  match rev segs with
  | [] => fail InvalidPath
  | name :: parent =>
      let parent_segs := rev parent in
      trees ← walk_for_mutation root parent_segs;
      leaf ← of_opt (last trees);
      leaf ← match find_entry name leaf with
             | Some existing =>
                 let same_kind := bool_decide (t_kind existing = t_kind new_entry) in
                 if negb (allow_replace && same_kind) then fail AlreadyExists
                 else mret (List.filter (λ e, negb (bool_decide (t_name e = name))) leaf)
             | None => mret leaf
             end;
      rebuild_up parent_segs trees (leaf ++ [new_entry])
  end.

Definition remove_entry_at (root : addr) (segs : list (list byte)) (require_empty_dir : bool) :
    MP (TreeEntry * addr) :=
  match rev segs with
  | [] => fail InvalidPath
  | name :: parent =>
      let parent_segs := rev parent in
      trees ← walk_for_mutation root parent_segs;
      leaf ← of_opt (last trees);
      pos ← ok_or NotFound (position name leaf);
      entry ← of_opt (at_ leaf pos);
      _ ← (if require_empty_dir && bool_decide (t_kind entry = Dir) then
             dir_tree ← fetch_tree (t_hash entry);
             if negb (bool_decide (dir_tree = [])) then fail NotEmpty else mret tt
           else mret tt);
      new_root ← rebuild_up parent_segs trees (delete (Z.to_nat pos) leaf);
      mret (entry, new_root)
  end.

(** [now_unix()] is read once per operation, when the entry is made. *)
Context (now_unix : Z).

Definition install_chunked_file (root : addr) (path : list byte) (manifest_hash : addr) (total_size : Z) : MP addr :=
  segs ← of_res (parse_path path);
  match last segs with
  | None => fail InvalidPath
  | Some name =>
      insert_entry_at root segs (mkTreeEntry name manifest_hash File total_size now_unix FLAG_CHUNKED) true
  end.

(** The closure of [store_chunked]: one piece stored, its address. *)
Definition store_piece (piece : list byte) : MP addr :=
  o ← of_opt (blob_content_hash piece);
  h ← ok_or PCorrupt o;
  there ← total (obj_has h);
  _ ← (if negb there then b ← of_opt (encode_blob piece); lift_fs (obj_put_addressed h b) else mret tt);
  mret h.

(** [for_each]: every piece is tried; [hashes] keeps zeros for one that failed,
    and [failed] the first error. *)
Fixpoint store_pieces (pieces : list (list byte)) (hashes : list addr) (failed : option PathError) :
    MP (list addr * option PathError) :=
  match pieces with
  | [] => mret (hashes, failed)
  | p :: pieces => λ s,
      match store_piece p s with
      | (Ok h, s') => store_pieces pieces (hashes ++ [h]) failed s'
      | (Err e, s') =>
          store_pieces pieces (hashes ++ [EMPTY_ROOT]) (match failed with Some f => Some f | None => Some e end) s'
      | (Panic, s') => (Panic, s')
      end
  end.

Definition store_chunked (root : addr) (path data : list byte) : MP addr :=
  '(hashes, failed) ← store_pieces (chunks STREAMING_CHUNK_SIZE data) [] None;
  match failed with
  | Some e => fail e
  | None =>
      '(encoded, manifest_hash) ← or_corrupt (encode_and_hash (Chunked (zlen data) hashes));
      _ ← lift_fs (obj_put manifest_hash encoded);
      install_chunked_file root path manifest_hash (zlen data)
  end.

Definition store (root : addr) (path data : list byte) : MP addr :=
  segs ← of_res (parse_path path);
  match last segs with
  | None => fail InvalidPath
  | Some name =>
      if STREAMING_CHUNK_SIZE <? zlen data then store_chunked root path data
      else
        o ← of_opt (blob_content_hash data);
        blob_hash ← ok_or PCorrupt o;
        there ← total (obj_has blob_hash);
        _ ← (if negb there then
               '(blob_bytes, full_hash) ← or_corrupt (encode_and_hash (Blob data));
               lift_fs (obj_put full_hash blob_bytes)
             else mret tt);
        insert_entry_at root segs (mkTreeEntry name blob_hash File (zlen data) now_unix FLAG_BLOB) true
  end.

Definition mkdir (root : addr) (path : list byte) : MP addr :=
  segs ← of_res (parse_path path);
  match last segs with
  | None => fail InvalidPath
  | Some name =>
      '(bytes, h) ← or_corrupt (encode_and_hash (Tree []));
      _ ← lift_fs (obj_put h bytes);
      _ ← modify (tree_put h bytes);
      insert_entry_at root segs (mkTreeEntry name h Dir 0 now_unix 0) false
  end.

Definition delete (root : addr) (path : list byte) : MP addr :=
  segs ← of_res (parse_path path);
  match segs with
  | [] => fail InvalidPath
  | _ => '(_, new_root) ← remove_entry_at root segs true; mret new_root
  end.

Definition with_name (e : TreeEntry) (name : list byte) : TreeEntry :=
  mkTreeEntry name (t_hash e) (t_kind e) (t_size e) (t_mtime e) (t_flags e).
Definition with_mtime (e : TreeEntry) (t : Z) : TreeEntry :=
  mkTreeEntry (t_name e) (t_hash e) (t_kind e) (t_size e) t (t_flags e).

Definition rename (root : addr) (old new : list byte) : MP addr :=
  old_segs ← of_res (parse_path old);
  new_segs ← of_res (parse_path new);
  if bool_decide (old_segs = []) || bool_decide (new_segs = []) then fail InvalidPath
  else if bool_decide (old_segs = new_segs) then mret root
  else if (zlen old_segs <? zlen new_segs) && bool_decide (take (length old_segs) new_segs = old_segs) then fail InvalidPath
  else
    '(entry, root1) ← remove_entry_at root old_segs false;
    name ← of_opt (last new_segs);
    insert_entry_at root1 new_segs (with_name entry name) false.

Definition copy (root : addr) (old new : list byte) : MP addr :=
  old_segs ← of_res (parse_path old);
  new_segs ← of_res (parse_path new);
  if bool_decide (old_segs = []) || bool_decide (new_segs = []) then fail InvalidPath
  else if bool_decide (old_segs = new_segs) then fail AlreadyExists
  else
    match rev old_segs with
    | [] => panic
    | name :: parent =>
        trees ← walk_for_mutation root (rev parent);
        leaf ← of_opt (last trees);
        src ← ok_or NotFound (find_entry name leaf);
        name ← of_opt (last new_segs);
        insert_entry_at root new_segs (with_mtime (with_name src name) now_unix) false
    end.

Fixpoint list_loop (cur_hash : addr) (segs : list (list byte)) : MP (list TreeEntry) :=
  match segs with
  | [] => fetch_tree cur_hash
  | seg :: segs =>
      entries ← fetch_tree cur_hash;
      entry ← ok_or NotFound (find_entry seg entries);
      if negb (bool_decide (t_kind entry = Dir)) then fail NotADirectory
      else list_loop (t_hash entry) segs
  end.
Definition list_dir (root : addr) (path : list byte) : MP (list TreeEntry) :=
  segs ← of_res (parse_path path);
  list_loop root segs.
End paths.
