(* ===== verification/PathsSpec.v ===== *)
(** * Directory trees as maps from paths (storage/npkfs/paths.rs)

    What a root's address denotes: a map from paths to what is there.  Reading a
    tree, descending and rebuilding the ancestors of a changed directory, proved
    against that map. *)

From S2P Require Import Prelude Bytes Format Object ObjectSpec BlockStore ObjectStore Paths.

(** ** The view *)
Inductive Stat :=
  | SFile (h : addr) (size mtime flags : Z)
  | SDir (mtime flags : Z).

Definition stat_of (e : TreeEntry) : Stat :=
  match t_kind e with
  | File => SFile (t_hash e) (t_size e) (t_mtime e) (t_flags e)
  | Dir => SDir (t_mtime e) (t_flags e)
  end.

Notation name := (list byte).
Notation path := (list (list byte)).

(** The rest of [p] after [pre]. *)
Fixpoint strip (pre p : path) : option path :=
  match pre, p with
  | [], _ => Some p
  | a :: pre, b :: p => if bool_decide (a = b) then strip pre p else None
  | _ :: _, [] => None
  end.

Lemma strip_Some pre p q : strip pre p = Some q ↔ p = pre ++ q.
Proof.
  revert p; induction pre as [|a pre IH]; intros p; simpl; [naive_solver|].
  destruct p as [|b p]; [naive_solver|]. case_bool_decide as E; [|naive_solver]. subst. rewrite IH. naive_solver.
Qed.
Lemma strip_app pre q : strip pre (pre ++ q) = Some q.
Proof. by apply strip_Some. Qed.
Lemma strip_self p : strip p p = Some [].
Proof. apply strip_Some. by rewrite app_nil_r. Qed.
Lemma strip_snoc pre n p :
  strip (pre ++ [n]) p = match strip pre p with Some (x :: q) => if bool_decide (n = x) then Some q else None | _ => None end.
Proof.
  revert p; induction pre as [|a pre IH]; intros [|b p]; simpl; try done. by case_bool_decide.
Qed.

Definition valid (n : name) : Prop := validate_name n = Ok tt.

Section view.
Context {CD : Codec}.
Implicit Types (m : gmap addr (list byte)) (e : TreeEntry) (es : list TreeEntry) (p q : path).

Definition tree_at m (h : addr) : option (list TreeEntry) :=
  if bool_decide (h = EMPTY_ROOT) then Some []
  else b ← m !! h; match from_bytes b with Some (Tree es) => Some es | _ => None end.

Fixpoint look m es p : option Stat :=
  match p with
  | [] => Some (SDir 0 0)
  | n :: p =>
      e ← find_entry n es;
      match p with
      | [] => Some (stat_of e)
      | _ => match t_kind e with File => None | Dir => es' ← tree_at m (t_hash e); look m es' p end
      end
  end.
(** What is at [p] under the root [h]. *)
Definition fsview m (h : addr) p : option Stat := es ← tree_at m h; look m es p.

(** What is at [q] below an entry. *)
Definition entry_view m e q : option Stat :=
  match q with
  | [] => Some (stat_of e)
  | _ => match t_kind e with File => None | Dir => fsview m (t_hash e) q end
  end.

Lemma look_cons m es n p : look m es (n :: p) = e ← find_entry n es; entry_view m e p.
Proof. done. Qed.

(** The object at [h] is the blob [d]. *)
Definition blob_at m (h : addr) (d : list byte) : Prop :=
  zlen d < 2 ^ 35 ∧ ∃ b, m !! h = Some b ∧ to_allocvec (Blob d) = Some b.
(** The file whose object is at [h] holds [d]: a blob, or a manifest of blobs. *)
Definition file_content m (h : addr) (d : list byte) : Prop :=
  blob_at m h d ∨
  ∃ b hs ds, m !! h = Some b ∧ to_allocvec (Chunked (zlen d) hs) = Some b ∧ d = concat ds ∧
    Forall2 (λ d h, blob_at m h d) ds hs.
(** The flags call a single blob. *)
Definition known_blob (flags : Z) : bool := negb (Z.land flags FLAG_BLOB =? 0) && (Z.land flags FLAG_CHUNKED =? 0).
(** A file's entry: its content is there, of that size and of the shape its flags
    say. *)
Definition file_ok m e : Prop :=
  ∃ d, file_content m (t_hash e) d ∧ t_size e = zlen d ∧ (known_blob (t_flags e) = true → blob_at m (t_hash e) d).

(** A directory's entries before they are sorted, and as stored: names valid and
    different, files whole, and an entry for a directory holds what its subtree adds
    up to. *)
Inductive wf m : list TreeEntry → Prop :=
  | wf_intro es :
      StronglySorted name_le es → NoDup (t_name <$> es) →
      (∀ e, e ∈ es → valid (t_name e) ∧ fits 64 (t_size e)) →
      (∀ e, e ∈ es → t_kind e = File → file_ok m e) →
      (∀ e, e ∈ es → t_kind e = Dir → ∃ es', tree_at m (t_hash e) = Some es' ∧ t_size e = sum_sizes es') →
      (∀ e es', e ∈ es → t_kind e = Dir → tree_at m (t_hash e) = Some es' → wf m es') →
      wf m es.

Definition entry_ok m e : Prop :=
  valid (t_name e) ∧ fits 64 (t_size e) ∧
  (t_kind e = Dir → ∃ es, tree_at m (t_hash e) = Some es ∧ t_size e = sum_sizes es ∧ wf m es) ∧
  (t_kind e = File → file_ok m e).
Definition draft m es : Prop := NoDup (t_name <$> es) ∧ Forall (entry_ok m) es.
Definition root_ok m (h : addr) : Prop := ∃ es, tree_at m h = Some es ∧ wf m es.

Lemma wf_draft m es : wf m es ↔ StronglySorted name_le es ∧ draft m es.
Proof.
  split.
  - intros [es' Hs Hn Hv Hf Hd Hw]. split; [done|]. split; [done|]. apply Forall_forall. intros e He.
    destruct (Hv e He). split; [done|]. split; [done|]. split; [|by apply Hf].
    intros Hk. destruct (Hd e He Hk) as (es0 & ? & ?). eauto 10.
  - intros [Hs [Hn He]]. rewrite Forall_forall in He. constructor; [done|done| | | |].
    + intros e (? & ? & _)%He. done.
    + intros e (_ & _ & _ & Hf)%He. done.
    + intros e (_ & _ & Hk & _)%He Hd. destruct (Hk Hd) as (es' & ? & ? & _). eauto.
    + intros e es' (_ & _ & Hk & _)%He Hd Ht. destruct (Hk Hd) as (es'' & ? & ? & ?). by simplify_eq.
Qed.

(** ** Finding an entry *)
Lemma find_entry_Some n es e : find_entry n es = Some e → e ∈ es ∧ t_name e = n.
Proof.
  intros [H1 H2]%List.find_some. split; [by apply list_elem_of_In|]. by apply bool_decide_eq_true in H2.
Qed.
Lemma find_entry_None n es : find_entry n es = None ↔ n ∉ t_name <$> es.
Proof.
  split.
  - intros H [e [-> He]]%list_elem_of_fmap. apply list_elem_of_In in He.
    pose proof (List.find_none _ _ H e He) as E. by apply bool_decide_eq_false in E.
  - intros H. destruct (find_entry n es) as [e|] eqn:E; [|done]. apply find_entry_Some in E as [? <-].
    destruct H. by apply list_elem_of_fmap_2.
Qed.
Lemma find_entry_in n es e : NoDup (t_name <$> es) → e ∈ es → t_name e = n → find_entry n es = Some e.
Proof.
  intros Hnd He Hn. destruct (find_entry n es) as [e'|] eqn:E.
  - apply find_entry_Some in E as [He' Hn']. f_equal. clear -Hnd He He' Hn Hn'.
    induction es as [|x es IH]; [by apply elem_of_nil in He|].
    simpl in Hnd. apply NoDup_cons in Hnd as [Hx Hnd].
    apply elem_of_cons in He as [->|He]; apply elem_of_cons in He' as [->|He']; [done| | |by auto].
    + destruct Hx. rewrite Hn, <- Hn'. by apply list_elem_of_fmap_2.
    + destruct Hx. rewrite Hn', <- Hn. by apply list_elem_of_fmap_2.
  - apply find_entry_None in E. destruct E. rewrite <- Hn. by apply list_elem_of_fmap_2.
Qed.
Lemma find_entry_perm n l k : NoDup (t_name <$> l) → l ≡ₚ k → find_entry n l = find_entry n k.
Proof.
  intros Hnd Hp. destruct (find_entry n l) as [e|] eqn:E.
  - apply find_entry_Some in E as [He Hn]. symmetry. apply find_entry_in; [by rewrite <- Hp|by rewrite <- Hp|done].
  - symmetry. apply find_entry_None. apply find_entry_None in E. by rewrite <- Hp.
Qed.
Lemma look_perm m l k p : NoDup (t_name <$> l) → l ≡ₚ k → look m l p = look m k p.
Proof.
  intros Hnd Hp. destruct p as [|n p]; [done|]. rewrite !look_cons. by rewrite (find_entry_perm n l k).
Qed.

(** ** More objects *)
Lemma tree_at_mono m m' h es : m ⊆ m' → tree_at m h = Some es → tree_at m' h = Some es.
Proof.
  intros Hm. unfold tree_at. case_bool_decide; [done|].
  intros (b & Hb & He)%bind_Some. apply bind_Some. exists b. split; [|done]. by eapply lookup_weaken.
Qed.
Lemma blob_at_mono m m' h d : m ⊆ m' → blob_at m h d → blob_at m' h d.
Proof. intros Hm (Hz & b & Hb & Hd). split; [done|]. exists b. split; [|done]. by eapply lookup_weaken. Qed.
Lemma file_content_mono m m' h d : m ⊆ m' → file_content m h d → file_content m' h d.
Proof.
  intros Hm [Hb|(b & hs & ds & Hb & He & -> & Hf)]; [left; by eapply blob_at_mono|right].
  exists b, hs, ds. split; [by eapply lookup_weaken|]. split; [done|]. split; [done|].
  eapply Forall2_impl; [done|]. intros x y. by apply blob_at_mono.
Qed.
Lemma file_ok_mono m m' e : m ⊆ m' → file_ok m e → file_ok m' e.
Proof.
  intros Hm (d & Hc & Hs & Hb). exists d. split; [by eapply file_content_mono|]. split; [done|].
  intros Hk. eapply blob_at_mono; [done|by apply Hb].
Qed.
Lemma wf_mono m m' es : m ⊆ m' → wf m es → wf m' es.
Proof.
  intros Hm. induction 1 as [es Hs Hn Hv Hf Hd Hw IH]. constructor; [done|done|done| | |].
  - intros e He Hk. eapply file_ok_mono; [done|by apply Hf].
  - intros e He Hk. destruct (Hd e He Hk) as (es' & Ht & ?). exists es'. split; [|done]. by eapply tree_at_mono.
  - intros e es' He Hk Ht. destruct (Hd e He Hk) as (es'' & Ht' & _).
    pose proof (tree_at_mono _ _ _ _ Hm Ht') as E. rewrite E in Ht. simplify_eq. by eapply IH.
Qed.
Lemma entry_ok_mono m m' e : m ⊆ m' → entry_ok m e → entry_ok m' e.
Proof.
  intros Hm (? & ? & Hd & Hf). split; [done|]. split; [done|]. split.
  - intros Hk. destruct (Hd Hk) as (es & ? & ? & ?).
    exists es. split; [by eapply tree_at_mono|]. split; [done|]. by eapply wf_mono.
  - intros Hk. eapply file_ok_mono; [done|by apply Hf].
Qed.
Lemma draft_mono m m' es : m ⊆ m' → draft m es → draft m' es.
Proof. intros Hm [? He]. split; [done|]. eapply Forall_impl; [done|]. intros e. by apply entry_ok_mono. Qed.
Lemma root_ok_mono m m' h : m ⊆ m' → root_ok m h → root_ok m' h.
Proof. intros Hm (es & ? & ?). exists es. split; [by eapply tree_at_mono|by eapply wf_mono]. Qed.

Lemma look_mono m m' es p : m ⊆ m' → draft m es → look m' es p = look m es p.
Proof.
  intros Hm. revert es; induction p as [|n p IH]; intros es [Hn He]; [done|].
  cbn [look]. destruct (find_entry n es) as [e|] eqn:E; [|done]. cbn [mbind option_bind].
  destruct p as [|n' p]; [done|]. destruct (t_kind e) eqn:Hk; [done|].
  apply find_entry_Some in E as [Hin _]. rewrite Forall_forall in He.
  destruct (He e Hin) as (_ & _ & Hd & _). destruct (Hd Hk) as (es' & Ht & _ & Hw).
  rewrite Ht, (tree_at_mono _ _ _ _ Hm Ht). apply IH. by apply wf_draft in Hw as [_ ?].
Qed.
(** An old root shows what it showed. *)
Lemma fsview_mono m m' h p : m ⊆ m' → root_ok m h → fsview m' h p = fsview m h p.
Proof.
  intros Hm (es & Ht & Hw). unfold fsview. rewrite Ht, (tree_at_mono _ _ _ _ Hm Ht).
  apply look_mono; [done|]. by apply wf_draft in Hw as [_ ?].
Qed.
Lemma entry_view_mono m m' e q : m ⊆ m' → entry_ok m e → entry_view m' e q = entry_view m e q.
Proof.
  intros Hm (_ & _ & Hd & _). unfold entry_view. destruct q; [done|]. destruct (t_kind e); [done|].
  destruct (Hd eq_refl) as (es & ? & _ & ?). apply fsview_mono; [done|]. by exists es.
Qed.

(** ** Sizes *)
Lemma sum_sizes_acc es acc :
  0 ≤ acc → Forall (λ e, 0 ≤ t_size e) es →
  fold_left (λ acc e, sat_add 64 acc (t_size e)) es acc =
    match es with [] => acc | _ => Z.min (2 ^ 64 - 1) (acc + foldr (λ e, Z.add (t_size e)) 0 es) end.
Proof.
  assert (Hpos : ∀ es, Forall (λ e, 0 ≤ t_size e) es → 0 ≤ foldr (λ e, Z.add (t_size e)) 0 es).
  { clear. induction 1; simpl; lia. }
  revert acc; induction es as [|e es IH]; intros acc Ha Hf; [done|]. cbn [fold_left foldr].
  apply Forall_cons in Hf as [He Hf]. specialize (Hpos es Hf). rewrite IH; [|unfold sat_add; lia|done].
  unfold sat_add. destruct es; [simpl; lia|]. lia.
Qed.
Lemma sum_sizes_perm l k : Forall (λ e, 0 ≤ t_size e) l → l ≡ₚ k → sum_sizes l = sum_sizes k.
Proof.
  intros Hl Hp. assert (Hk : Forall (λ e, 0 ≤ t_size e) k) by (by rewrite <- Hp).
  unfold sum_sizes. rewrite !sum_sizes_acc by done.
  destruct l as [|a l]; [by apply Permutation_nil_l in Hp as <-|].
  destruct k as [|b k]; [by apply Permutation_nil_r in Hp|]. do 2 f_equal.
  clear Hl Hk. induction Hp; simpl in *; lia.
Qed.
Lemma sum_sizes_fits l : Forall (λ e, 0 ≤ t_size e) l → fits 64 (sum_sizes l).
Proof.
  intros Hl. unfold sum_sizes. rewrite sum_sizes_acc by done. unfold fits.
  assert (0 ≤ foldr (λ e, Z.add (t_size e)) 0 l) by (induction Hl; simpl; lia).
  destruct l; lia.
Qed.
Lemma draft_sizes m es : draft m es → Forall (λ e, 0 ≤ t_size e) es.
Proof. intros [_ H]. eapply Forall_impl; [done|]. intros e (_ & Hf & _). apply Hf. Qed.
End view.
