(* ===== verification/PathsParse.v ===== *)
(** * Parsing paths (storage/npkfs/paths.rs, [parse_path]) *)

From S2P Require Import Prelude Bytes Format Object ObjectSpec BlockStore ObjectStore Paths PathsSpec.

(** A segment [parse_path] accepts. *)
Definition segment (n : name) : Prop :=
  n ≠ [] ∧ (∀ b, b ∈ n → bval b ≠ 0) ∧ slash ∉ n ∧ n ≠ ascii "." ∧ n ≠ ascii ".." ∧ zlen n ≤ MAX_NAME_LEN.

Fixpoint join (segs : path) : list byte :=
  match segs with
  | [] => []
  | [n] => n
  | n :: segs => n ++ slash :: join segs
  end.

Lemma join_cons n segs : segs ≠ [] → join (n :: segs) = n ++ slash :: join segs.
Proof. by destruct segs. Qed.

Lemma split_nonempty l : split l ≠ [].
Proof. destruct l as [|c l]; [done|]. cbn [split]. case_bool_decide; [done|]. by destruct (split l). Qed.

Lemma path_join_split l : join (split l) = l.
Proof.
  induction l as [|c l IH]; [done|]. cbn [split]. pose proof (split_nonempty l) as Hne. case_bool_decide as Hc.
  - subst c. rewrite join_cons by done. by rewrite IH.
  - destruct (split l) as [|n segs]; [done|]. rewrite <- IH. by destruct segs.
Qed.

Lemma split_segment n l : slash ∉ n → split (n ++ slash :: l) = n :: split l.
Proof.
  induction n as [|c n IH]; intros Hn; cbn [app split].
  - by rewrite bool_decide_true.
  - apply not_elem_of_cons in Hn as [Hc Hn]. rewrite bool_decide_false by congruence. by rewrite IH.
Qed.
Lemma split_last n : slash ∉ n → split n = [n].
Proof.
  induction n as [|c n IH]; intros Hn; [done|]. cbn [split].
  apply not_elem_of_cons in Hn as [Hc Hn]. rewrite bool_decide_false by congruence. by rewrite IH.
Qed.
Lemma split_join segs : segs ≠ [] → Forall (λ n, slash ∉ n) segs → split (join segs) = segs.
Proof.
  intros Hne Hf. induction Hf as [|n segs Hn Hf IH]; [done|]. destruct (decide (segs = [])) as [->|Hs].
  - by apply split_last.
  - rewrite join_cons by done. rewrite split_segment by done. by rewrite IH.
Qed.
Lemma split_no_slash l : Forall (λ n, slash ∉ n) (split l).
Proof.
  induction l as [|c l IH]; cbn [split]; [by constructor; [apply not_elem_of_nil|]|].
  case_bool_decide as Hc; [constructor; [apply not_elem_of_nil|done]|].
  destruct (split l) as [|n segs]; inversion IH; subst.
  - constructor; [|done]. intros E%list_elem_of_singleton. congruence.
  - constructor; [|done]. apply not_elem_of_cons. by split.
Qed.

Lemma check_segs_spec l :
  check_segs l = Ok tt ∨ check_segs l = Err InvalidPath.
Proof.
  induction l as [|n l IH]; cbn [check_segs]; [by left|].
  case_bool_decide; [by right|]. destruct (existsb _ n); [by right|]. destruct (_ || _); [by right|].
  by destruct (_ <? _); [right|].
Qed.
Lemma check_segs_Ok l : Forall (λ n, slash ∉ n) l → check_segs l = Ok tt ↔ Forall segment l.
Proof.
  induction 1 as [|n l Hn Hl IH]; cbn [check_segs]; [split; constructor|].
  rewrite Forall_cons, <- IH. unfold segment.
  destruct (bool_decide_reflect (n = [])); [naive_solver|].
  destruct (existsb (λ b, bval b =? 0) n) eqn:E.
  { split; [done|]. intros [(_ & Hz & _) _]. apply existsb_exists in E as (b & Hb & E).
    apply list_elem_of_In in Hb. apply Z.eqb_eq in E. by apply Hz in Hb. }
  destruct (bool_decide_reflect (n = ascii ".")); [naive_solver|].
  destruct (bool_decide_reflect (n = ascii "..")); [naive_solver|]. cbn [orb].
  destruct (Z.ltb_spec MAX_NAME_LEN (zlen n)) as [Hlt|Hle].
  { split; [done|]. intros [(_ & _ & _ & _ & _ & Hmax) _]. lia. }
  split; [|naive_solver]. intros Hl'. split; [|done]. split; [done|]. split; [|done].
  intros b Hb Hz. assert (existsb (λ b, bval b =? 0) n = true); [|congruence].
  apply existsb_exists. exists b. split; [by apply list_elem_of_In|]. by apply Z.eqb_eq.
Qed.

Lemma segment_valid n : segment n → valid n.
Proof.
  intros (Hne & Hz & Hs & _ & _ & Hl). unfold valid, validate_name. rewrite bool_decide_false by done.
  rewrite (proj2 (Z.ltb_ge _ _)) by done. cbn [orb].
  destruct (existsb _ n) eqn:E; [|done]. apply existsb_exists in E as (b & Hb & E). apply list_elem_of_In in Hb.
  apply orb_true_iff in E as [E|E]; apply Z.eqb_eq in E; [by apply Hz in Hb|].
  assert (b = slash) as -> by (by apply bval_inj). done.
Qed.

(** What [trim_matches] leaves does not start or end with a slash; what does not is
    left alone. *)
Lemma trim_start_id l : (∀ c k, l = c :: k → c ≠ slash) → trim_start l = l.
Proof. destruct l as [|c l]; [done|]. intros H. cbn [trim_start]. by rewrite bool_decide_false by (by eapply H). Qed.

Lemma join_head segs c k : Forall segment segs → join segs = c :: k → c ≠ slash.
Proof.
  intros Hf. destruct segs as [|n segs]; [done|]. apply Forall_cons in Hf as [(Hne & _ & Hs & _) _].
  destruct n as [|a n]; [done|]. intros E. assert (c = a) as -> by (destruct segs; cbn in E; congruence).
  intros ->. apply Hs, elem_of_cons. by left.
Qed.
Lemma join_last segs c k : Forall segment segs → join segs = k ++ [c] → c ≠ slash.
Proof.
  revert k; induction segs as [|n segs IH]; intros k Hf E; [by destruct k|].
  apply Forall_cons in Hf as [(Hne & _ & Hs & _) Hf]. destruct (decide (segs = [])) as [->|Hseg].
  - cbn in E. intros ->. apply Hs. rewrite E. apply elem_of_app. right. by apply list_elem_of_singleton.
  - rewrite join_cons in E by done. destruct (exists_last (l := join segs)) as (k' & c' & Ej).
    { destruct segs as [|n' segs]; [done|]. apply Forall_cons in Hf as [(Hne' & _) _]. by destruct n', segs. }
    rewrite Ej in E.
    replace (n ++ slash :: k' ++ [c']) with ((n ++ slash :: k') ++ [c']) in E by (by rewrite <- app_assoc).
    apply app_inj_tail in E as [_ <-]. by apply (IH k').
Qed.
Lemma trim_join segs : Forall segment segs → trim_matches (join segs) = join segs.
Proof.
  intros Hf. unfold trim_matches. rewrite (trim_start_id (join segs)) by (intros; by eapply join_head).
  rewrite trim_start_id, rev_involutive; [done|]. intros c k E.
  eapply (join_last segs c (rev k)); [done|]. by rewrite <- (rev_involutive (join segs)), E.
Qed.

Lemma parse_path_inv path segs :
  parse_path path = Ok segs →
  Forall segment segs ∧ join segs = trim_matches path ∧ head segs ≠ Some EXT_ROOT.
Proof.
  unfold parse_path. case_bool_decide as Ht; [intros [= <-]; by rewrite Ht|].
  destruct (check_segs _) as [[]| |] eqn:E; [|done|done].
  pose proof (proj1 (check_segs_Ok _ (split_no_slash _)) E) as Hf. pose proof (path_join_split (trim_matches path)) as Hj.
  destruct (split (trim_matches path)) as [|n l]; [done|]. case_bool_decide as Hx; [done|].
  intros [= <-]. split; [done|]. split; [done|]. simpl. congruence.
Qed.
Lemma parse_path_join segs :
  Forall segment segs → head segs ≠ Some EXT_ROOT → parse_path (join segs) = Ok segs.
Proof.
  intros Hf Hx. unfold parse_path. rewrite trim_join by done. destruct (decide (segs = [])) as [->|Hne]; [done|].
  assert (Hs : Forall (λ n, slash ∉ n) segs) by (eapply Forall_impl; [done|]; by intros n (_ & _ & ? & _)).
  rewrite split_join by done. rewrite bool_decide_false.
  - rewrite (proj2 (check_segs_Ok segs Hs) Hf). destruct segs as [|n segs]; [done|].
    rewrite bool_decide_false; [done|]. intros ->. done.
  - intros E. destruct segs as [|n segs]; [done|]. apply Forall_cons in Hf as [(Hn & _) _]. by destruct n, segs.
Qed.
Lemma parse_path_cases path : (∃ segs, parse_path path = Ok segs) ∨ parse_path path = Err InvalidPath.
Proof.
  unfold parse_path. case_bool_decide; [eauto|]. destruct (check_segs_spec (split (trim_matches path))) as [-> | ->]; [|by right].
  pose proof (split_nonempty (trim_matches path)). destruct (split (trim_matches path)) as [|n l]; [done|].
  case_bool_decide; eauto.
Qed.

Lemma join_snoc segs n : segs ≠ [] → join (segs ++ [n]) = join segs ++ slash :: n.
Proof.
  induction segs as [|a segs IH]; intros Hne; [done|]. destruct (decide (segs = [])) as [->|Hs]; [done|].
  cbn [app]. rewrite !join_cons by (by destruct segs). by rewrite IH, <- app_assoc.
Qed.

(** [parse_path] is a canonical form: it accepts exactly the paths that are, up
    to slashes at either end, a join of segments that are nonempty, free of slashes
    and zero bytes, not [.] or [..] and at most 255 bytes long, the first of them not
    [ext]; it returns those segments, parsing their join gives them back, and any
    other path is refused as invalid. *)
Theorem parse_path_canonical path :
  match parse_path path with
  | Ok segs => Forall segment segs ∧ head segs ≠ Some EXT_ROOT ∧ trim_matches path = join segs ∧
      parse_path (join segs) = Ok segs
  | Err e => e = InvalidPath ∧
      ∀ segs, Forall segment segs → head segs ≠ Some EXT_ROOT → trim_matches path ≠ join segs
  | Panic => False
  end.
Proof.
  destruct (parse_path_cases path) as [[segs E]|E]; rewrite E.
  - destruct (parse_path_inv _ _ E) as (Hf & Hj & Hx). split; [done|]. split; [done|]. split; [done|].
    by apply parse_path_join.
  - split; [done|]. intros segs Hf Hx Ht. pose proof (parse_path_join segs Hf Hx) as E'.
    unfold parse_path in E, E'. rewrite trim_join, <- Ht in E' by done. congruence.
Qed.
