(* ===== verification/PathsRebuild.v ===== *)
(** * Descending and rebuilding (storage/npkfs/paths.rs)

    [fetch_tree], [store_tree], [walk_for_mutation] and [rebuild_up] against the
    view of a root. *)

From S2P Require Import Prelude Bytes Format Object ObjectSpec BlockStore ObjectStore Paths PathsSpec.

(** A path operation ends in [P], in an error the path explains, or in one of the
    store's, which a serving store does not have. *)
Definition pends {A} (serving : Prop) (r : res PathError A) (P : A → Prop) (Q : PathError → Prop) : Prop :=
  match r with
  | Ok a => P a
  | Err (Storage _) => ¬ serving
  | Err e => Q e
  | Panic => False
  end.

Lemma pends_err {A B} (s s' : Prop) x (P : A → Prop) (P' : B → Prop) (Q Q' : PathError → Prop) :
  pends s (Err x) P Q → (s' → s) → (∀ x, Q x → Q' x) → pends s' (Err x) P' Q'.
Proof. intros H Hs HQ. destruct x; cbn [pends] in *; auto. Qed.

Section wp.
Context {S : Type}.
Implicit Types (s : S).

Lemma wp_lift_fs {A} (m : M S FsError A) (Q : res PathError A → S → Prop) s :
  wp m (λ r s', match r with Ok a => Q (Ok a) s' | Err e => Q (Err (Storage e)) s' | Panic => Q Panic s' end) s →
  wp (lift_fs m) Q s.
Proof. unfold wp, lift_fs. by destruct (m s) as [[]]. Qed.
Lemma wp_total {E A} (f : S → A * S) (Q : res E A → S → Prop) s : Q (Ok (f s).1) (f s).2 → wp (total f) Q s.
Proof. unfold wp, total. by destruct (f s). Qed.
Lemma wp_modify {E} (f : S → S) (Q : res E unit → S → Prop) s : Q (Ok tt) (f s) → wp (modify f) Q s.
Proof. done. Qed.
Lemma wp_or_corrupt {A} (r : OR A) a (Q : res PathError A → S → Prop) s :
  r = Ok a → Q (Ok a) s → wp (or_corrupt r) Q s.
Proof. by intros ->. Qed.
Lemma wp_ok_or {E A} (e : E) (o : option A) (Q : res E A → S → Prop) s :
  match o with Some a => Q (Ok a) s | None => Q (Err e) s end → wp (ok_or e o) Q s.
Proof. by destruct o. Qed.
Lemma wp_ext {E A} (m m' : M S E A) (Q : res E A → S → Prop) s : m s = m' s → wp m' Q s → wp m Q s.
Proof. unfold wp. by intros ->. Qed.
Lemma wp_assoc {E A B C} (m : M S E A) (k : A → M S E B) (l : B → M S E C) Q s :
  wp (x ← m; k x ≫= l) Q s → wp ((x ← m; k x) ≫= l) Q s.
Proof. apply wp_ext. unfold mbind, M_bind. by destruct (m s) as [[]]. Qed.
End wp.

Section rebuild.
Context {CD : Codec} {CO : CodecOk} {S : Type} {OS : ObjectStore S} {OK : ObjectStoreOk S}.
Implicit Types (s : S) (e : TreeEntry) (es : list TreeEntry) (m : gmap addr (list byte)).

Lemma okept_refl s : os_inv s → okept s s.
Proof. apply kept_refl. Qed.
Lemma okept_trans s1 s2 s3 : okept s1 s2 → okept s2 s3 → okept s1 s3.
Proof. apply kept_trans. Qed.
Lemma ogrown_refl s : os_inv s → ogrown s s.
Proof. apply grown_refl. Qed.
Lemma ogrown_trans s1 s2 s3 : ogrown s1 s2 → ogrown s2 s3 → ogrown s1 s3.
Proof. apply grown_trans. Qed.
Lemma okept_grown s s' : okept s s' → ogrown s s'.
Proof. apply kept_grown. Qed.

(** ** One tree *)
Lemma decode_tree_at s h b es :
  os_inv s → h ≠ EMPTY_ROOT → tree_at (objects s) h = Some es → object_address b = Some h →
  decode b = Ok (Tree es) ∧ objects s !! h = Some b.
Proof.
  intros I Hh Ht Hb. unfold tree_at in Ht. rewrite bool_decide_false in Ht by done.
  apply bind_Some in Ht as (b' & Hb' & Ht). assert (b' = b) as ->.
  { eapply address_inj; [by eapply objects_addressed|done]. }
  split; [|done]. unfold decode. by destruct (from_bytes b) as [[]|]; simplify_eq.
Qed.

Lemma fetch_tree_spec s h es :
  os_inv s → tree_at (objects s) h = Some es →
  wp (fetch_tree h) (λ r s', okept s s' ∧ pends (serving s) r (λ v, v = es) (λ _, False)) s.
Proof.
  intros I Ht. unfold fetch_tree. case_bool_decide as Hh.
  { subst h. unfold tree_at in Ht. rewrite bool_decide_true in Ht by done. simplify_eq.
    apply wp_ret. by split; [apply okept_refl|]. }
  apply wp_bind, wp_total. destruct (tree_get_spec s h I) as [Hk Hg].
  destruct (tree_get h s) as [held s1]. cbn [fst snd] in *.
  assert (Hrest : ∀ b cached s2, okept s s2 → object_address b = Some h →
    wp (o ← or_corrupt (decode b);
        match o with
        | Tree entries => _ ← (if cached : bool then mret tt else modify (tree_put h b)); mret entries
        | Blob _ | Chunked _ _ => fail NotADirectory
        end) (λ r s', okept s s' ∧ pends (serving s) r (λ v, v = es) (λ _, False)) s2).
  { intros b cached s2 Hk2 Hb. destruct (decode_tree_at s h b es) as [Hd _]; [done..|].
    apply wp_bind. eapply wp_or_corrupt; [done|]. destruct cached; apply wp_bind.
    - apply wp_ret, wp_ret. by split.
    - apply wp_modify, wp_ret. split; [|done]. eapply okept_trans; [done|].
      apply tree_put_spec; [|done]. by destruct Hk2. }
  destruct held as [b|]; cbn [mbind].
  - apply wp_bind, wp_ret. apply (Hrest b true); auto.
  - apply wp_bind, wp_bind, wp_lift_fs. eapply wp_mono; [apply obj_get_spec; by destruct Hk|].
    intros r s2 [Hk2 Hr]. destruct r as [v|x|]; simpl in Hr; [|split; [by eapply okept_trans|]|done].
    + subst v. rewrite (kept_objects _ _ _ _ _ _ _ Hk).
      unfold tree_at in Ht. rewrite bool_decide_false in Ht by done.
      pose proof Ht as (b & Hb & _)%bind_Some. rewrite Hb. apply wp_bind, wp_ret, wp_ret.
      apply (Hrest b false); [by eapply okept_trans|]. by eapply objects_addressed.
    + intros Hs. by apply Hr, (kept_serving _ _ _ _ _ _ _ Hk).
Qed.

Lemma tree_sorted_draft m es : draft m es → tree_sorted es = Ok (Tree (sort_entries es)).
Proof.
  intros [_ He]. unfold tree_sorted. rewrite (proj2 (validate_all_spec es)); [done|].
  eapply Forall_impl; [done|]. by intros e [Hv _].
Qed.

Lemma encode_and_hash_ok o :
  (∀ d, o = Blob d → zlen d < 2 ^ 35) →
  ∃ b h, encode_and_hash o = Ok (b, h) ∧ to_allocvec o = Some b ∧ object_address b = Some h.
Proof.
  intros Ho. destruct (encode_total o Ho) as [b Hb], (address_total b) as [h Hh].
  exists b, h. unfold encode_and_hash, encode. by rewrite Hb, Hh.
Qed.

Lemma tree_at_stored m b h es :
  m !! h = Some b → to_allocvec (Tree es) = Some b → object_address b = Some h → tree_at m h = Some es.
Proof.
  intros Hm Hb Hh. unfold tree_at. rewrite bool_decide_false.
  - rewrite Hm. simpl. by rewrite (from_bytes_to_allocvec _ _ Hb).
  - intros ->. by eapply address_nonzero.
Qed.

Lemma draft_sorted m es : draft m es → wf m (sort_entries es).
Proof.
  intros [Hn He]. apply wf_draft. split; [apply sort_entries_sorted|]. unfold draft. by rewrite !sort_entries_perm.
Qed.

(** What [store_tree] leaves: the entries, sorted, at the address returned. *)
Definition stored s' es (hs : addr * Z) : Prop :=
  tree_at (objects s') hs.1 = Some (sort_entries es) ∧ wf (objects s') (sort_entries es) ∧
  hs.2 = sum_sizes (sort_entries es).

Lemma store_tree_spec s es :
  os_inv s → draft (objects s) es →
  wp (store_tree es) (λ r s', ogrown s s' ∧ pends (serving s) r (stored s' es) (λ _, False)) s.
Proof.
  intros I Hd. unfold store_tree. apply wp_bind. eapply wp_or_corrupt; [by eapply tree_sorted_draft|].
  destruct (encode_and_hash_ok (Tree (sort_entries es))) as (b & h & He & Hb & Hh); [done|].
  apply wp_bind. eapply wp_or_corrupt; [done|]. apply wp_bind, wp_lift_fs.
  eapply wp_mono; [by apply obj_put_spec|]. intros r s1 [Hg Hr].
  destruct r as [[]|x|]; simpl in Hr; [|split; [done|]; by destruct Hr|done].
  assert (I1 : os_inv s1) by (by destruct Hg).
  assert (Hk : okept s1 (tree_put h b s1)) by (by apply tree_put_spec).
  apply wp_bind, wp_modify, wp_ret. split; [by eapply ogrown_trans, okept_grown|]. unfold pends, stored. cbn [fst snd].
  rewrite (kept_objects _ _ _ _ _ _ _ Hk). split; [|split].
  - eapply tree_at_stored; [|done|done]. rewrite Hr. by rewrite lookup_insert_eq.
  - apply draft_sorted. eapply draft_mono; [|done]. by destruct Hg.
  - apply sum_sizes_perm; [by eapply draft_sizes|]. by rewrite sort_entries_perm.
Qed.

(** ** A chain of trees *)

(** The trees below [es] along [segs], or why there are none. *)
Fixpoint descend m es (segs : path) : list (list TreeEntry) + PathError :=
  match segs with
  | [] => inl []
  | n :: segs =>
      match find_entry n es with
      | None => inr NotFound
      | Some e =>
          match t_kind e with
          | File => inr NotADirectory
          | Dir =>
              match tree_at m (t_hash e) with
              | None => inr PCorrupt
              | Some es' => match descend m es' segs with inl l => inl (es' :: l) | inr x => inr x end
              end
          end
      end
  end.

Lemma descend_not_storage m es segs x : descend m es segs ≠ inr (Storage x).
Proof.
  revert es; induction segs as [|n segs IH]; intros es; simpl; [done|].
  destruct (find_entry n es) as [e|]; [|done]. destruct (t_kind e); [done|].
  destruct (tree_at m (t_hash e)) as [es'|]; [|done]. specialize (IH es').
  destruct (descend m es' segs); congruence.
Qed.

Lemma wf_child m es n e :
  draft m es → find_entry n es = Some e → t_kind e = Dir →
  ∃ es', tree_at m (t_hash e) = Some es' ∧ t_size e = sum_sizes es' ∧ wf m es'.
Proof.
  intros [_ He] [Hin _]%find_entry_Some Hk. rewrite Forall_forall in He. by apply He.
Qed.

Lemma chain_loop_spec segs s cur acc :
  os_inv s → wf (objects s) cur →
  wp (chain_loop cur segs acc) (λ r s', okept s s' ∧
    pends (serving s) r (λ v, ∃ l, descend (objects s) cur segs = inl l ∧ v = acc ++ l)
      (λ x, descend (objects s) cur segs = inr x)) s.
Proof.
  revert s cur acc; induction segs as [|n segs IH]; intros s cur acc I Hw; cbn [chain_loop descend].
  { apply wp_ret. split; [by apply okept_refl|]. exists []. by rewrite app_nil_r. }
  apply wp_bind, wp_ok_or. destruct (find_entry n cur) as [e|] eqn:E; [|by split; [apply okept_refl|]].
  destruct (t_kind e) eqn:Hk; cbn [bool_decide decide]; [by apply wp_fail; split; [apply okept_refl|]|].
  pose proof (proj1 (wf_draft _ _) Hw) as [_ Hd].
  destruct (wf_child _ _ _ _ Hd E Hk) as (es' & Ht & _ & Hw'). rewrite Ht.
  change (negb _) with false. cbv iota.
  apply wp_bind. eapply wp_mono; [by apply fetch_tree_spec|]. intros r s1 [Hk1 Hr].
  destruct r as [v|x|]; [|split; [done|]; by destruct x|done]. simpl in Hr. subst v.
  pose proof (kept_objects _ _ _ _ _ _ _ Hk1) as Ho.
  eapply wp_mono; [apply (IH s1 es'); [by destruct Hk1|by rewrite Ho]|].
  intros r s2 [Hk2 Hr]. split; [by eapply okept_trans|]. rewrite Ho in Hr.
  destruct r as [v|x|]; [| |done].
  - destruct Hr as (l & -> & ->). exists (es' :: l). by rewrite <- app_assoc.
  - destruct x; cbn [pends] in Hr |- *; try by rewrite Hr.
    intros Hs. by apply Hr, (kept_serving _ _ _ _ _ _ _ Hk1).
Qed.

Lemma walk_for_mutation_spec s root segs es :
  os_inv s → tree_at (objects s) root = Some es → wf (objects s) es →
  wp (walk_for_mutation root segs) (λ r s', okept s s' ∧
    pends (serving s) r (λ v, ∃ l, descend (objects s) es segs = inl l ∧ v = es :: l)
      (λ x, descend (objects s) es segs = inr x)) s.
Proof.
  intros I Ht Hw. unfold walk_for_mutation. apply wp_bind. eapply wp_mono; [by apply fetch_tree_spec|].
  intros r s1 [Hk1 Hr]. destruct r as [v|x|]; [|split; [done|]; by destruct x|done]. simpl in Hr. subst v.
  pose proof (kept_objects _ _ _ _ _ _ _ Hk1) as Ho.
  eapply wp_mono; [apply (chain_loop_spec segs s1 es); [by destruct Hk1|by rewrite Ho]|].
  intros r s2 [Hk2 Hr]. split; [by eapply okept_trans|]. rewrite Ho in Hr.
  destruct r as [v|x|]; [done| |done]. destruct x; try done.
  intros Hs. by apply Hr, (kept_serving _ _ _ _ _ _ _ Hk1).
Qed.

(** ** Rebuilding the ancestors *)
Lemma rebuild_loop_snoc segs seg trees t cur s :
  length segs = length trees →
  rebuild_loop (segs ++ [seg]) (trees ++ [t]) cur s =
    (cur ← rebuild_loop segs trees cur; anc ← ok_or PCorrupt (repoint seg cur.1 cur.2 t); store_tree anc) s.
Proof.
  revert trees cur s; induction segs as [|a segs IH]; intros [|b trees] cur s Hl; try done.
  - cbn [app rebuild_loop]. unfold mbind, M_bind, mret, M_ret.
    destruct (ok_or PCorrupt (repoint seg cur.1 cur.2 t) s) as [[]]; try done.
    by destruct (store_tree a s0) as [[]].
  - cbn [app rebuild_loop]. unfold mbind, M_bind.
    destruct (ok_or PCorrupt (repoint a cur.1 cur.2 b) s) as [[anc| |] s1]; try done.
    destruct (store_tree anc s1) as [[cur'| |] s2]; try done. apply IH. simpl in Hl. lia.
Qed.

Definition repointed e (h : addr) (size : Z) : TreeEntry :=
  mkTreeEntry (t_name e) h (t_kind e) size (t_mtime e) (t_flags e).

Lemma repoint_spec seg h size es e :
  find_entry seg es = Some e →
  ∃ l k, es = l ++ e :: k ∧ repoint seg h size es = Some (l ++ repointed e h size :: k) ∧ seg ∉ t_name <$> l.
Proof.
  induction es as [|x es IH]; cbn [find_entry List.find repoint]; [done|].
  case_bool_decide as Hx; intros He.
  - simplify_eq. exists [], es. split; [done|]. split; [done|]. apply not_elem_of_nil.
  - destruct (IH He) as (l & k & -> & -> & Hl). exists (x :: l), k. split; [done|]. split; [done|].
    simpl. apply not_elem_of_cons. by split.
Qed.

Lemma find_entry_app n l k :
  find_entry n (l ++ k) = match find_entry n l with Some e => Some e | None => find_entry n k end.
Proof. induction l as [|x l IH]; cbn [find_entry List.find app]; [done|]. by case_bool_decide. Qed.

Lemma find_repointed n seg h size l e k :
  t_name e = seg → seg ∉ t_name <$> l →
  find_entry n (l ++ repointed e h size :: k) =
    if bool_decide (n = seg) then Some (repointed e h size) else find_entry n (l ++ e :: k).
Proof.
  intros He Hl. rewrite !find_entry_app. case_bool_decide as Hn.
  - subst n. rewrite (proj2 (find_entry_None _ _) Hl). cbn [find_entry List.find repointed t_name].
    by rewrite bool_decide_true.
  - destruct (find_entry n l); [done|]. cbn [find_entry List.find repointed t_name].
    by rewrite !bool_decide_false by congruence.
Qed.

Lemma draft_repointed m l e k h size es :
  draft m (l ++ e :: k) → t_kind e = Dir → tree_at m h = Some es → wf m es → size = sum_sizes es → fits 64 size →
  draft m (l ++ repointed e h size :: k).
Proof.
  intros [Hn He] Hk Ht Hw -> Hf. split.
  - rewrite fmap_app in *. apply Hn.
  - apply Forall_app in He as [H1 [H2 H3]%Forall_cons]. apply Forall_app. split; [done|].
    apply Forall_cons. split; [|done]. destruct H2 as (Hv & _). split; [done|]. split; [done|].
    split; [intros _; by exists es|]. cbn [repointed t_kind]. congruence.
Qed.

(** The tree [es] with the directory at [segs] replaced by [leaf]. *)
Definition replaced m' leaf m es (segs p : path) : option Stat :=
  match strip segs p with Some (n :: q) => look m' leaf (n :: q) | _ => look m es p end.

Definition leaf_of es (l : list (list TreeEntry)) : list TreeEntry := List.last l es.

(** The rebuilt root [hs] holds [leaf] at [segs] and the rest of [es] unchanged. *)
Definition rebuilt s s' leaf es segs (hs : addr * Z) : Prop :=
  ∃ es', tree_at (objects s') hs.1 = Some es' ∧ wf (objects s') es' ∧ hs.2 = sum_sizes es' ∧
    ∀ p, look (objects s') es' p = replaced (objects s') leaf (objects s) es segs p.

Lemma descend_length m es segs l : descend m es segs = inl l → length (removelast (es :: l)) = length segs.
Proof.
  revert es l. induction segs as [|n segs IH]; intros es l; cbn [descend]; [by intros [= <-]|].
  destruct (find_entry n es) as [e|]; [|done]. destruct (t_kind e); [done|].
  destruct (tree_at m (t_hash e)) as [es1|]; [|done].
  destruct (descend m es1 segs) as [l1|] eqn:H1; [|done]. intros [= <-].
  change (removelast (es :: es1 :: l1)) with (es :: removelast (es1 :: l1)). cbn [length].
  by rewrite (IH _ _ H1).
Qed.

(** One level up: the entry [e] for the directory [es1] now points at its
    replacement [es']. *)
Lemma replaced_above m m1 m2 leaf l e k es1 es' segs n h size p :
  m ⊆ m1 → m1 ⊆ m2 → draft m (l ++ e :: k) → draft m leaf →
  t_name e = n → n ∉ t_name <$> l → t_kind e = Dir → tree_at m (t_hash e) = Some es1 →
  tree_at m1 h = Some es' → wf m1 es' → (∀ p, look m1 es' p = replaced m1 leaf m es1 segs p) →
  look m2 (l ++ repointed e h size :: k) p = replaced m2 leaf m (l ++ e :: k) (n :: segs) p.
Proof.
  intros Hm1 Hm2 Hd Hleaf Hn Hl Hk Ht1 Ht' Hw' Hv. unfold replaced.
  destruct p as [|a p]; [done|]. cbn [strip]. rewrite look_cons, (find_repointed a n) by done.
  destruct (decide (a = n)) as [->|Ha].
  - rewrite !bool_decide_true by done. cbn [mbind option_bind].
    assert (E : find_entry n (l ++ e :: k) = Some e).
    { rewrite find_entry_app, (proj2 (find_entry_None _ _) Hl). cbn [find_entry List.find]. by rewrite bool_decide_true. }
    rewrite (look_cons m), E. cbn [mbind option_bind]. unfold entry_view. cbn [repointed t_kind t_hash]. rewrite Hk.
    destruct p as [|b p].
    + destruct (strip segs []) as [[]|] eqn:Es; cbn [look]; try (by unfold stat_of; cbn; rewrite Hk).
      apply strip_Some in Es. by destruct segs.
    + unfold fsview. rewrite Ht1, (tree_at_mono m1 m2 h es') by done. cbn [mbind option_bind].
      rewrite (look_mono m1 m2) by (done || by apply wf_draft in Hw' as [_ ?]). rewrite Hv. unfold replaced.
      destruct (strip segs (b :: p)) as [[|x q]|]; [done| |done].
      apply symmetry, look_mono; [done|]. by eapply draft_mono.
  - rewrite !bool_decide_false by congruence.
    rewrite <- look_cons, (look_mono m m2); [done|by etrans|done].
Qed.

Lemma rebuild_spec segs s es l leaf :
  os_inv s → draft (objects s) es → descend (objects s) es segs = inl l → draft (objects s) leaf →
  wp (cur ← store_tree leaf; rebuild_loop (rev segs) (rev (removelast (es :: l))) cur)
     (λ r s', ogrown s s' ∧ pends (serving s) r (rebuilt s s' leaf es segs) (λ _, False)) s.
Proof.
  revert s es l; induction segs as [|n segs IH]; intros s es l I Hd Hl Hleaf; cbn [descend] in Hl.
  { injection Hl as <-. cbn [removelast rev rebuild_loop]. apply wp_bind.
    eapply wp_mono; [by apply store_tree_spec|]. intros r s1 [Hg Hr].
    destruct r as [hs|x|]; [|split; [done|]; by destruct x|done]. apply wp_ret. split; [done|].
    destruct Hr as (Ht & Hw & Hs). exists (sort_entries leaf). split; [done|]. split; [done|]. split; [done|].
    intros p. unfold replaced. cbn [strip]. destruct p as [|a p]; [done|].
    apply look_perm; [|by rewrite sort_entries_perm]. rewrite sort_entries_perm. apply Hleaf. }
  destruct (find_entry n es) as [e|] eqn:E; [|done]. destruct (t_kind e) eqn:Hk; [done|].
  destruct (wf_child _ _ _ _ Hd E Hk) as (es1 & Ht1 & _ & Hw1). rewrite Ht1 in Hl.
  destruct (descend (objects s) es1 segs) as [l1|] eqn:Hl1; [|done]. injection Hl as <-.
  pose proof (proj1 (wf_draft _ _) Hw1) as [_ Hd1].
  change (removelast (es :: es1 :: l1)) with (es :: removelast (es1 :: l1)). cbn [rev].
  eapply (wp_ext _ ((cur ← store_tree leaf; rebuild_loop (rev segs) (rev (removelast (es1 :: l1))) cur) ≫=
    λ cur, anc ← ok_or PCorrupt (repoint n cur.1 cur.2 es); store_tree anc)).
  { unfold mbind, M_bind. destruct (store_tree leaf s) as [[cur| |] s1]; [|done|done].
    rewrite rebuild_loop_snoc by (by rewrite !length_rev, (descend_length _ _ _ _ Hl1)). unfold mbind, M_bind.
    by destruct (rebuild_loop _ _ cur s1) as [[]]. }
  apply wp_bind. eapply wp_mono; [by apply (IH s es1 l1)|].
  intros r s1 [Hg Hr]. destruct r as [[h size]|x|]; [|split; [done|]; by destruct x|done].
  destruct Hr as (es' & Ht' & Hw' & Hs' & Hv'). cbn [fst snd] in *.
  destruct (repoint_spec n h size es e E) as (l & k & -> & Hrp & Hnl).
  apply find_entry_Some in E as [Hin Hne]. pose proof (grown_objects _ _ _ _ _ _ _ Hg) as Hm.
  apply wp_bind, wp_ok_or. rewrite Hrp.
  assert (Hdr : draft (objects s1) (l ++ repointed e h size :: k)).
  { eapply draft_repointed; [by eapply draft_mono|done|done|done|done|].
    rewrite Hs'. apply sum_sizes_fits. apply wf_draft in Hw' as [_ ?]. by eapply draft_sizes. }
  eapply wp_mono; [apply store_tree_spec; [by destruct Hg|done]|].
  intros r s2 [Hg2 Hr]. split; [by eapply ogrown_trans|].
  destruct r as [[h2 size2]|x|]; [| |done].
  2:{ destruct x; try done. intros Hs. by apply Hr, (grown_serving _ _ _ _ _ _ _ Hg). }
  destruct Hr as (Ht2 & Hw2 & Hs2). pose proof (grown_objects _ _ _ _ _ _ _ Hg2) as Hm2.
  eexists. split; [done|]. split; [done|]. split; [done|]. intros p.
  rewrite <- (look_perm _ (l ++ repointed e h size :: k)); [|apply Hdr|by rewrite sort_entries_perm].
  by eapply (replaced_above (objects s) (objects s1)).
Qed.

Lemma rebuild_up_spec segs s es l leaf :
  os_inv s → draft (objects s) es → descend (objects s) es segs = inl l → draft (objects s) leaf →
  wp (rebuild_up segs (es :: l) leaf)
     (λ r s', ogrown s s' ∧ pends (serving s) r (λ h, ∃ size, rebuilt s s' leaf es segs (h, size)) (λ _, False)) s.
Proof.
  intros I Hd Hl Hleaf. unfold rebuild_up.
  destruct (exists_last (l := es :: l)) as (front & x & E); [done|].
  assert (Hf : removelast (es :: l) = front) by (rewrite E; apply removelast_last).
  rewrite E, rev_app_distr. cbn [rev app]. pose proof (rebuild_spec segs s es l leaf I Hd Hl Hleaf) as H.
  rewrite Hf in H. unfold wp, mbind, M_bind in *.
  destruct (store_tree leaf s) as [[cur| |] s1]; [|done|done].
  destruct (rebuild_loop _ _ cur s1) as [[[h size]| |] s2]; [|done|done].
  destruct H as [? H]. split; [done|]. by exists size.
Qed.
End rebuild.
