(* ===== verification/PathsOps.v ===== *)
(** * Path operations on the view of a root (storage/npkfs/paths.rs) *)

From S2P Require Import Prelude Bytes Format Object ObjectSpec BlockStore ObjectStore Paths PathsSpec PathsRebuild.

(** ** Which parents can be reached *)

(** The first segment along [segs] that is missing or is a file. *)
Fixpoint reach (v : path → option Stat) (pre segs : path) : option PathError :=
  match segs with
  | [] => None
  | n :: segs =>
      match v (pre ++ [n]) with
      | None => Some NotFound
      | Some (SFile _ _ _ _) => Some NotADirectory
      | Some (SDir _ _) => reach v (pre ++ [n]) segs
      end
  end.

Section chain.
Context {CD : Codec}.
Implicit Types (m : gmap addr (list byte)) (e : TreeEntry) (es : list TreeEntry).

Lemma descend_reach m segs es v pre :
  draft m es → (∀ n q, v (pre ++ n :: q) = look m es (n :: q)) →
  reach v pre segs = match descend m es segs with inl _ => None | inr x => Some x end.
Proof.
  revert es pre; induction segs as [|n segs IH]; intros es pre Hd Hv; [done|]. cbn [reach descend].
  rewrite (Hv n []), look_cons. destruct (find_entry n es) as [e|] eqn:E; [|done]. cbn [mbind option_bind entry_view].
  unfold stat_of. destruct (t_kind e) eqn:Hk; [done|].
  destruct (wf_child _ _ _ _ Hd E Hk) as (es' & Ht & _ & Hw). rewrite Ht.
  apply wf_draft in Hw as [_ Hd']. rewrite (IH es'); [by destruct (descend m es' segs)|done|].
  intros n' q. rewrite <- app_assoc. cbn [app]. rewrite (Hv n), look_cons, E. cbn [mbind option_bind entry_view].
  rewrite Hk. unfold fsview. by rewrite Ht.
Qed.

Lemma List_last_cons {A} (x y : A) l : List.last (y :: l) x = List.last l y.
Proof. revert x y; induction l as [|z l IH]; intros x y; [done|]. etrans; [apply (IH x z)|]. symmetry. apply (IH y z). Qed.
Lemma last_List_last {A} (x : A) l : last (x :: l) = Some (List.last l x).
Proof. revert x; induction l as [|y l IH]; intros x; [done|]. by rewrite last_cons, IH, List_last_cons. Qed.

(** The directory [descend] ends in. *)
Lemma descend_leaf m segs es l :
  draft m es → descend m es segs = inl l →
  draft m (List.last l es) ∧ ∀ n q, look m es (segs ++ n :: q) = look m (List.last l es) (n :: q).
Proof.
  revert es l; induction segs as [|n segs IH]; intros es l Hd; cbn [descend]; [by intros [= <-]|].
  destruct (find_entry n es) as [e|] eqn:E; [|done]. destruct (t_kind e) eqn:Hk; [done|].
  destruct (wf_child _ _ _ _ Hd E Hk) as (es' & Ht & _ & Hw). rewrite Ht.
  apply wf_draft in Hw as [_ Hd']. destruct (descend m es' segs) as [l'|] eqn:Hl; [|done]. intros [= <-].
  destruct (IH es' l' Hd' Hl) as [Hd'' Hv].
  rewrite List_last_cons. split; [done|]. intros n' q. rewrite <- Hv. cbn [app]. rewrite look_cons, E. cbn [mbind option_bind].
  unfold entry_view. destruct (segs ++ n' :: q) eqn:Eq; [by destruct segs|]. rewrite Hk. unfold fsview. by rewrite Ht.
Qed.

(** ** Removing and adding a name in a directory *)

Lemma find_entry_cons x e es :
  find_entry x (e :: es) = if bool_decide (t_name e = x) then Some e else find_entry x es.
Proof. done. Qed.

(** [F] is [es] without the entries named [n]. *)
Definition without m (n : name) es F : Prop :=
  draft m F ∧ ∀ x, find_entry x F = if bool_decide (x = n) then None else find_entry x es.

Lemma without_absent m n es : draft m es → find_entry n es = None → without m n es es.
Proof. intros Hd Hn. split; [done|]. intros x. case_bool_decide; by subst. Qed.

Lemma without_filter m n es :
  draft m es → without m n es (List.filter (λ e, negb (bool_decide (t_name e = n))) es).
Proof.
  intros [Hn He]. split; [split|].
  - clear He. induction es as [|x es IH]; simpl in *; [constructor|]. apply NoDup_cons in Hn as [Hx Hn].
    case_bool_decide; simpl; [by apply IH|]. apply NoDup_cons. split; [|by apply IH].
    intros [y [Hy Hin]]%list_elem_of_fmap. apply Hx. rewrite Hy. apply list_elem_of_fmap_2.
    apply list_elem_of_In in Hin. apply List.filter_In in Hin as [Hin _]. by apply list_elem_of_In.
  - clear Hn. induction He; simpl; [constructor|]. case_bool_decide; simpl; [done|]. by constructor.
  - intros x. clear. induction es as [|y es IH]; cbn [List.filter]; [by case_bool_decide|].
    rewrite (find_entry_cons x y es).
    destruct (decide (t_name y = n)) as [Hy|Hy], (decide (x = n)) as [Hx|Hx];
      rewrite ?(bool_decide_true (t_name y = n)), ?(bool_decide_false (t_name y = n)),
        ?(bool_decide_true (x = n)), ?(bool_decide_false (x = n)) in * by done; cbn [negb].
    + done.
    + rewrite IH. by rewrite bool_decide_false by congruence.
    + rewrite find_entry_cons, IH. by rewrite bool_decide_false by congruence.
    + by rewrite find_entry_cons, IH.
Qed.

Lemma position_nonneg n es pos : position n es = Some pos → 0 ≤ pos.
Proof.
  revert pos; induction es as [|y es IH]; intros pos; cbn [position]; [done|].
  case_bool_decide; [by intros [= <-]|]. intros (p & Hp & ->)%fmap_Some. specialize (IH _ Hp). lia.
Qed.

Lemma position_split n es pos e :
  position n es = Some pos → at_ es pos = Some e →
  ∃ l k, es = l ++ e :: k ∧ base.delete (Z.to_nat pos) es = l ++ k ∧ t_name e = n ∧ n ∉ t_name <$> l.
Proof.
  revert pos. induction es as [|x es IH]; intros pos; cbn [position]; [done|]. case_bool_decide as Hx.
  - intros [= <-] He. injection He as <-. exists [], es. split; [done|]. split; [done|]. split; [done|]. apply not_elem_of_nil.
  - intros (p & Hp & ->)%fmap_Some He. pose proof (position_nonneg _ _ _ Hp).
    assert (Hn : Z.to_nat (Z.succ p) = S (Z.to_nat p)) by lia.
    unfold at_ in He. rewrite (proj2 (Z.leb_le _ _)) in He by lia. rewrite Hn in He |- *. cbn in He.
    destruct (IH p Hp) as (l & k & -> & Hdel & Hne & Hl).
    { unfold at_. by rewrite (proj2 (Z.leb_le _ _)) by lia. }
    exists (x :: l), k. split; [done|]. split; [cbn; by rewrite <- Hdel|]. split; [done|].
    simpl. apply not_elem_of_cons. split; [congruence|done].
Qed.

Lemma position_at n es pos : position n es = Some pos → ∃ e, at_ es pos = Some e.
Proof.
  intros Hp. pose proof (position_nonneg _ _ _ Hp). apply at_Some. split; [done|]. revert pos Hp H.
  induction es as [|y es IH]; intros pos; cbn [position]; [done|]. rewrite zlen_cons. pose proof (zlen_nonneg es).
  case_bool_decide; [intros [= <-]; lia|]. intros (p & Hp & ->)%fmap_Some.
  pose proof (position_nonneg _ _ _ Hp). specialize (IH _ Hp). lia.
Qed.
Lemma entry_position_None n es : position n es = None → find_entry n es = None.
Proof.
  induction es as [|y es IH]; cbn [position]; [done|]. rewrite find_entry_cons. case_bool_decide; [done|].
  destruct (position n es); [done|]. auto.
Qed.

Lemma without_delete m n es pos e :
  draft m es → position n es = Some pos → at_ es pos = Some e →
  find_entry n es = Some e ∧ without m n es (base.delete (Z.to_nat pos) es).
Proof.
  intros Hd Hp He. pose proof (position_split _ _ _ _ Hp He) as H.
  destruct H as (l & k & -> & -> & Hne & Hl). split.
  { rewrite find_entry_app, (proj2 (find_entry_None _ _) Hl). rewrite find_entry_cons. by rewrite bool_decide_true. }
  destruct Hd as [Hnd He']. apply Forall_app in He' as [H1 [H2 H3]%Forall_cons].
  rewrite fmap_app, fmap_cons in Hnd. split; [split|].
  - rewrite fmap_app. apply NoDup_app in Hnd as (? & Hx & Hk). apply NoDup_cons in Hk as [_ Hk]. apply NoDup_app.
    split; [done|]. split; [|done]. intros y Hy Hy'. apply (Hx y Hy). apply elem_of_cons. by right.
  - by apply Forall_app.
  - intros x. rewrite !find_entry_app. case_bool_decide as Hx.
    + subst x. rewrite (proj2 (find_entry_None _ _) Hl). apply find_entry_None.
      apply NoDup_app in Hnd as (_ & _ & Hk). apply NoDup_cons in Hk as [Hk _]. by rewrite Hne in Hk.
    + destruct (find_entry x l); [done|]. rewrite find_entry_cons. by rewrite bool_decide_false by congruence.
Qed.

Lemma draft_snoc m F e : draft m F → entry_ok m e → find_entry (t_name e) F = None → draft m (F ++ [e]).
Proof.
  intros [Hn Hf] He Hnone. apply find_entry_None in Hnone. split; [|by apply Forall_app; split; [|constructor]].
  rewrite fmap_app. apply NoDup_app. split; [done|]. split; [|apply NoDup_singleton].
  intros x Hx ->%list_elem_of_singleton. done.
Qed.
End chain.

Definition kind_of (st : Stat) : EntryKind := match st with SFile _ _ _ _ => File | SDir _ _ => Dir end.
Definition may_insert (o : option Stat) (k : EntryKind) (replace : bool) : Prop :=
  match o with None => True | Some st => replace = true ∧ kind_of st = k end.

Lemma kind_stat e : kind_of (stat_of e) = t_kind e.
Proof. unfold stat_of. by destruct (t_kind e). Qed.

Section ops.
Context {CD : Codec} {CO : CodecOk} {S : Type} {OS : ObjectStore S} {OK : ObjectStoreOk S}.
Implicit Types (s : S) (e : TreeEntry) (m : gmap addr (list byte)).

(** The root [root'] shows [root] with [e] at [segs]. *)
Definition inserted m m' (root root' : addr) (segs : path) e : Prop :=
  root_ok m' root' ∧
  ∀ p, fsview m' root' p = match strip segs p with Some q => entry_view m' e q | None => fsview m root p end.
(** The root [root'] shows [root] without what is at [segs]. *)
Definition removed m m' (root root' : addr) (segs : path) : Prop :=
  root_ok m' root' ∧
  ∀ p, fsview m' root' p = match strip segs p with Some _ => None | None => fsview m root p end.

(** The directory at [parent] replaced by one that has [e] under its name. *)
Lemma add_to_leaf s s1 root parent es l e F :
  os_inv s → okept s s1 → tree_at (objects s) root = Some es → draft (objects s) es →
  descend (objects s) es parent = inl l → without (objects s) (t_name e) (List.last l es) F → entry_ok (objects s) e →
  wp (rebuild_up parent (es :: l) (F ++ [e])) (λ r s', ogrown s s' ∧
    pends (serving s) r (λ root', inserted (objects s) (objects s') root root' (parent ++ [t_name e]) e) (λ _, False)) s1.
Proof.
  intros I Hk Ht Hd Hl [HdF HF] He. pose proof (kept_objects _ _ _ _ _ _ _ Hk) as Ho.
  assert (Hnone : find_entry (t_name e) F = None) by (rewrite HF; by rewrite bool_decide_true).
  eapply wp_mono.
  { apply (rebuild_up_spec parent s1 es l (F ++ [e])); rewrite ?Ho; [by destruct Hk|done|done|by apply draft_snoc]. }
  intros r s2 [Hg Hr]. split; [by eapply ogrown_trans; [apply okept_grown|]|].
  destruct r as [root'|x|]; [| |done].
  2:{ destruct x; try done. intros Hs. by apply Hr, (kept_serving _ _ _ _ _ _ _ Hk). }
  destruct Hr as (size & es' & Ht' & Hw' & _ & Hv'). pose proof (grown_objects _ _ _ _ _ _ _ Hg) as Hm.
  rewrite Ho in *. cbn [fst] in Ht'. split; [by exists es'|]. intros p. unfold fsview at 1. rewrite Ht'. cbn [mbind option_bind].
  rewrite Hv', strip_snoc. unfold replaced, fsview. rewrite Ht. cbn [mbind option_bind].
  destruct (strip parent p) as [[|x q]|] eqn:Es; [done| |done]. apply strip_Some in Es as ->.
  destruct (descend_leaf _ _ _ _ Hd Hl) as [Hdl Hvl]. rewrite Hvl, look_cons, find_entry_app, HF, find_entry_cons.
  destruct (decide (t_name e = x)) as [<-|Hx].
  - by rewrite !bool_decide_true by done.
  - rewrite !bool_decide_false by congruence. destruct (find_entry x (List.last l es)) as [e'|] eqn:E.
    + cbn [mbind option_bind]. rewrite look_cons, E. apply entry_view_mono; [done|].
      apply find_entry_Some in E as [Hin _]. destruct Hdl as [_ Hdl]. rewrite Forall_forall in Hdl. by apply Hdl.
    + by rewrite look_cons, E.
Qed.

Lemma insert_entry_at_spec s root parent e replace :
  os_inv s → root_ok (objects s) root → entry_ok (objects s) e →
  wp (insert_entry_at root (parent ++ [t_name e]) e replace) (λ r s', ogrown s s' ∧
    let v := fsview (objects s) root in
    pends (serving s) r
      (λ root', inserted (objects s) (objects s') root root' (parent ++ [t_name e]) e ∧
         reach v [] parent = None ∧ may_insert (v (parent ++ [t_name e])) (t_kind e) replace)
      (λ x, reach v [] parent = Some x ∨
         reach v [] parent = None ∧ x = AlreadyExists ∧ ¬ may_insert (v (parent ++ [t_name e])) (t_kind e) replace)) s.
Proof.
  intros I (es & Ht & Hw) He. cbv zeta. pose proof (proj1 (wf_draft _ _) Hw) as [_ Hd].
  assert (Hv : ∀ p, fsview (objects s) root p = look (objects s) es p) by (intros p; unfold fsview; by rewrite Ht).
  rewrite (descend_reach (objects s) parent es) by (done || intros; by rewrite <- Hv).
  unfold insert_entry_at. rewrite rev_unit, rev_involutive. apply wp_bind.
  eapply wp_mono; [by apply walk_for_mutation_spec|]. intros r s1 [Hk1 Hr].
  assert (Hs1 : serving s → serving s1) by (by destruct Hk1).
  destruct r as [v|x|]; [| |done].
  2:{ split; [by apply okept_grown|]. destruct x; try done; cbn [pends] in *; by rewrite Hr; left. }
  destruct Hr as (l & Hl & ->). rewrite Hl.
  destruct (descend_leaf _ _ _ _ Hd Hl) as [Hdl Hvl].
  apply wp_bind. eapply wp_of_opt; [apply last_List_last|]. set (leaf := List.last l es) in *.
  rewrite (Hv (parent ++ [t_name e])), Hvl, look_cons.
  pose proof (kept_objects _ _ _ _ _ _ _ Hk1) as Ho.
  set (o := find_entry (t_name e) leaf ≫= λ e0, entry_view (objects s) e0 []) in *.
  assert (Hgo : ∀ F, without (objects s) (t_name e) leaf F → may_insert o (t_kind e) replace →
    wp (rebuild_up parent (es :: l) (F ++ [e])) (λ r s', ogrown s s' ∧ pends (serving s) r
      (λ root', inserted (objects s) (objects s') root root' (parent ++ [t_name e]) e ∧
         @None PathError = None ∧ may_insert o (t_kind e) replace)
      (λ x, None = Some x ∨ @None PathError = None ∧ x = AlreadyExists ∧ ¬ may_insert o (t_kind e) replace)) s1).
  { intros F HF Hmay. eapply wp_mono; [by eapply (add_to_leaf s)|].
    intros r s2 [Hg Hr]. split; [done|]. by destruct r as [|[]|]. }
  destruct (find_entry (t_name e) leaf) as [e0|] eqn:E; apply wp_bind.
  - subst o. cbn [mbind option_bind entry_view may_insert] in *. rewrite kind_stat in *.
    destruct replace; cbn [andb]; [|apply wp_fail; split; [by apply okept_grown|]; right; naive_solver].
    case_bool_decide as Hkk; cbn [negb].
    + apply wp_ret. apply Hgo; [|done]. by apply without_filter.
    + apply wp_fail. split; [by apply okept_grown|]. right. naive_solver.
  - apply wp_ret. apply Hgo; [|done]. by apply without_absent.
Qed.

Lemma drop_from_leaf s s1 root parent es l n F :
  os_inv s → okept s s1 → tree_at (objects s) root = Some es → draft (objects s) es →
  descend (objects s) es parent = inl l → without (objects s) n (List.last l es) F →
  wp (rebuild_up parent (es :: l) F) (λ r s', ogrown s s' ∧
    pends (serving s) r (λ root', removed (objects s) (objects s') root root' (parent ++ [n])) (λ _, False)) s1.
Proof.
  intros I Hk Ht Hd Hl [HdF HF]. pose proof (kept_objects _ _ _ _ _ _ _ Hk) as Ho. eapply wp_mono.
  { apply (rebuild_up_spec parent s1 es l F); rewrite ?Ho; [by destruct Hk|done..]. }
  intros r s2 [Hg Hr]. split; [by eapply ogrown_trans; [apply okept_grown|]|].
  destruct r as [root'|x|]; [| |done].
  2:{ destruct x; try done. intros Hs. by apply Hr, (kept_serving _ _ _ _ _ _ _ Hk). }
  destruct Hr as (size & es' & Ht' & Hw' & _ & Hv'). pose proof (grown_objects _ _ _ _ _ _ _ Hg) as Hm.
  rewrite Ho in *. cbn [fst] in Ht'. split; [by exists es'|]. intros p. unfold fsview at 1. rewrite Ht'. cbn [mbind option_bind].
  rewrite Hv', strip_snoc. unfold replaced, fsview. rewrite Ht. cbn [mbind option_bind].
  destruct (strip parent p) as [[|x q]|] eqn:Es; [done| |done]. apply strip_Some in Es as ->.
  destruct (descend_leaf _ _ _ _ Hd Hl) as [Hdl Hvl]. rewrite Hvl, look_cons, HF.
  destruct (decide (n = x)) as [<-|Hx].
  - by rewrite !bool_decide_true by done.
  - rewrite !bool_decide_false by congruence. rewrite <- look_cons. by apply look_mono.
Qed.

(** The entry at [segs], as the view shows it. *)
Definition entry_at m (root : addr) (segs : path) e : Prop :=
  entry_ok m e ∧ last segs = Some (t_name e) ∧ ∀ q, entry_view m e q = fsview m root (segs ++ q).

Lemma entry_at_leaf m root parent es l n e :
  tree_at m root = Some es → draft m es → descend m es parent = inl l →
  find_entry n (List.last l es) = Some e → entry_at m root (parent ++ [n]) e.
Proof.
  intros Ht Hd Hl E. destruct (descend_leaf _ _ _ _ Hd Hl) as [[_ Hdl] Hvl]. rewrite Forall_forall in Hdl.
  pose proof (find_entry_Some _ _ _ E) as [Hin Hn]. split; [by apply Hdl|]. split; [rewrite last_snoc; congruence|].
  intros q. unfold fsview. rewrite Ht, <- app_assoc. cbn [mbind option_bind app]. by rewrite Hvl, look_cons, E.
Qed.

(** The test of [remove_entry_at]: a directory must have no entries. *)
Lemma empty_check_spec s e empty :
  os_inv s → entry_ok (objects s) e →
  wp (if empty && bool_decide (t_kind e = Dir) then
        dir_tree ← fetch_tree (t_hash e);
        if negb (bool_decide (dir_tree = [])) then fail NotEmpty else mret tt
      else mret tt)
     (λ r s', okept s s' ∧ pends (serving s) r
        (λ _, empty = true → ∀ x q, entry_view (objects s) e (x :: q) = None)
        (λ x, x = NotEmpty ∧ empty = true ∧ ∃ y, entry_view (objects s) e [y] ≠ None)) s.
Proof.
  intros I (_ & _ & Hd & _). destruct empty; cbn [andb]; [|by apply wp_ret; split; [apply okept_refl|]].
  case_bool_decide as Hk.
  2:{ apply wp_ret. split; [by apply okept_refl|]. intros _ x q. unfold entry_view. by destruct (t_kind e). }
  destruct (Hd Hk) as (es & Ht & _ & Hw). apply wp_bind. eapply wp_mono; [by apply fetch_tree_spec|].
  intros r s1 [Hk1 Hr]. destruct r as [v|x|]; [|split; [done|]; by destruct x|done]. simpl in Hr. subst v.
  case_bool_decide as He; cbn [negb].
  - apply wp_ret. split; [done|]. intros _ x q. unfold entry_view. rewrite Hk. unfold fsview. by rewrite Ht, He.
  - apply wp_fail. split; [done|]. split; [done|]. split; [done|]. destruct es as [|e0 es]; [done|].
    exists (t_name e0). unfold entry_view. rewrite Hk. unfold fsview. rewrite Ht. cbn [mbind option_bind].
    rewrite look_cons, find_entry_cons. by rewrite bool_decide_true.
Qed.

Lemma remove_entry_at_spec s root parent n empty :
  os_inv s → root_ok (objects s) root →
  wp (remove_entry_at root (parent ++ [n]) empty) (λ r s', ogrown s s' ∧
    let v := fsview (objects s) root in
    pends (serving s) r
      (λ er, removed (objects s) (objects s') root er.2 (parent ++ [n]) ∧ reach v [] parent = None ∧
         entry_at (objects s) root (parent ++ [n]) er.1 ∧
         (empty = true → ∀ x q, v (parent ++ [n] ++ x :: q) = None))
      (λ x, reach v [] parent = Some x ∨
         reach v [] parent = None ∧ x = NotFound ∧ v (parent ++ [n]) = None ∨
         reach v [] parent = None ∧ x = NotEmpty ∧ empty = true ∧ ∃ y, v (parent ++ [n; y]) ≠ None)) s.
Proof.
  intros I (es & Ht & Hw). cbv zeta. pose proof (proj1 (wf_draft _ _) Hw) as [_ Hd].
  assert (Hv : ∀ p, fsview (objects s) root p = look (objects s) es p) by (intros p; unfold fsview; by rewrite Ht).
  rewrite (descend_reach (objects s) parent es) by (done || intros; by rewrite <- Hv).
  unfold remove_entry_at. rewrite rev_unit, rev_involutive. apply wp_bind.
  eapply wp_mono; [by apply walk_for_mutation_spec|]. intros r s1 [Hk1 Hr].
  assert (Hs1 : serving s → serving s1) by (by destruct Hk1).
  destruct r as [v|x|]; [| |done].
  2:{ split; [by apply okept_grown|]. destruct x; try done; cbn [pends] in *; by rewrite Hr; left. }
  destruct Hr as (l & Hl & ->). rewrite Hl. destruct (descend_leaf _ _ _ _ Hd Hl) as [Hdl Hvl].
  apply wp_bind. eapply wp_of_opt; [apply last_List_last|]. set (leaf := List.last l es) in *.
  apply wp_bind, wp_ok_or. destruct (position n leaf) as [pos|] eqn:Hp.
  2:{ split; [by apply okept_grown|]. right; left. split; [done|]. split; [done|].
      by rewrite Hv, Hvl, look_cons, (entry_position_None _ _ Hp). }
  destruct (position_at _ _ _ Hp) as [e He]. apply wp_bind. eapply wp_of_opt; [done|].
  destruct (without_delete (objects s) n leaf pos e Hdl Hp He) as [E HF].
  pose proof (entry_at_leaf _ _ _ _ _ _ _ Ht Hd Hl E) as Hat.
  pose proof (kept_objects _ _ _ _ _ _ _ Hk1) as Ho.
  destruct Hat as (Hok & Hlast & Hev). apply wp_bind.
  eapply wp_mono; [apply empty_check_spec; [by destruct Hk1|by rewrite Ho]|].
  intros r s2 [Hk2 Hr]. rewrite Ho in Hr. assert (Hk12 : okept s s2) by (by eapply okept_trans).
  destruct r as [u|x|]; [| |done].
  2:{ split; [by apply okept_grown|]. destruct x; cbn [pends] in *; try (by destruct Hr); [|by auto].
      destruct Hr as (_ & -> & y & Hy). right; right. split; [done|]. split; [done|]. split; [done|].
      exists y. by rewrite Hev, <- app_assoc in Hy. }
  apply wp_bind. eapply wp_mono; [by eapply (drop_from_leaf s)|].
  intros r s3 [Hg Hr3]. destruct r as [h|x|]; [|split; [done|]; by destruct x|done]. apply wp_ret.
  split; [done|]. split; [done|]. split; [done|]. split; [done|].
  intros Hem x q. rewrite <- (Hr Hem x q), Hev. by rewrite <- app_assoc.
Qed.
End ops.
