(* ===== verification/PathsTheorems.v ===== *)
(** * What the path operations do (storage/npkfs/paths.rs)

    Each public operation as a change to one path of the view, its errors, and
    what it leaves alone: every root that was there before still shows what it
    showed. *)

From S2P Require Import Prelude Bytes Format Object ObjectSpec BlockStore ObjectStore Paths PathsSpec PathsParse PathsRebuild PathsOps.

#[local] Opaque STREAMING_CHUNK_SIZE.

Lemma Ok_inj {E A} (a b : A) : @Ok E A a = Ok b → a = b.
Proof. by intros [=]. Qed.

(** Why an operation that makes an entry at [path] refuses. *)
Definition refused (v : path → option Stat) (path : list byte) (k : EntryKind) (replace : bool) (x : PathError) : Prop :=
  match parse_path path with
  | Ok segs =>
      match rev segs with
      | [] => x = InvalidPath
      | n :: parent =>
          reach v [] (rev parent) = Some x ∨
          reach v [] (rev parent) = None ∧ x = AlreadyExists ∧ ¬ may_insert (v segs) k replace
      end
  | Err e => x = e
  | Panic => False
  end.

(** ** Pieces of a file *)
Lemma chunks_spec n data :
  0 < n → concat (chunks n data) = data ∧ Forall (λ p, 0 < zlen p ≤ n) (chunks n data).
Proof.
  intros Hn. unfold chunks. cut (∀ fuel data, (length data ≤ fuel)%nat →
    concat (chunks_fuel fuel n data) = data ∧ Forall (λ p, 0 < zlen p ≤ n) (chunks_fuel fuel n data)); [eauto|].
  clear data. intros fuel.
  induction fuel as [|fuel IH]; intros data Hl.
  { destruct data; [done|]. simpl in Hl. lia. }
  destruct data as [|b data]; [done|]. cbn [chunks_fuel concat].
  destruct (IH (drop (Z.to_nat n) (b :: data))) as [Hc Hf].
  { rewrite length_drop. cbn [length] in *. lia. }
  split; [rewrite Hc; apply take_drop|]. constructor; [|done].
  unfold zlen. rewrite length_take. cbn [length]. lia.
Qed.

Section claims.
Context {CD : Codec} {CO : CodecOk} {S : Type} {OS : ObjectStore S} {OK : ObjectStoreOk S}.
Implicit Types (s : S) (e : TreeEntry) (m : gmap addr (list byte)).

(** Every root that could be read before shows what it showed. *)
Definition snapshots_kept m m' : Prop :=
  ∀ r, root_ok m r → root_ok m' r ∧ ∀ p, fsview m' r p = fsview m r p.
Lemma grown_snapshots_kept s s' : ogrown s s' → snapshots_kept (objects s) (objects s').
Proof.
  intros Hg r Hr. pose proof (grown_objects _ _ _ _ _ _ _ Hg).
  split; [by eapply root_ok_mono|]. intros p. by apply fsview_mono.
Qed.

Lemma with_snapshots {A} (m : M S PathError A) (P : res PathError A → S → Prop) s :
  wp m (λ r s', ogrown s s' ∧ P r s') s →
  wp m (λ r s', ogrown s s' ∧ snapshots_kept (objects s) (objects s') ∧ P r s') s.
Proof.
  intros H. eapply wp_mono; [exact H|]. intros r s' [Hg HP]. split; [done|]. split; [by apply grown_snapshots_kept|done].
Qed.

Lemma blob_address d :
  zlen d < 2 ^ 35 → ∃ b h, encode_blob d = Some b ∧ to_allocvec (Blob d) = Some b ∧ from_bytes b = Some (Blob d) ∧
    blob_content_hash d = Some (Some h) ∧ object_address b = Some h ∧ encode_and_hash (Blob d) = Ok (b, h).
Proof.
  intros Hd. destruct (encode_total (Blob d)) as [b Hb]; [by intros ? [= <-]|].
  pose proof (encode_wire d Hd) as Hw. rewrite Hb in Hw. destruct (address_total b) as [h Hh].
  exists b, h. split; [done|]. split; [done|]. split; [by eapply from_bytes_to_allocvec|].
  split; [|split; [done|]].
  - rewrite (content_hash_of_encoding d b) by done. by rewrite Hh.
  - unfold encode_and_hash, encode. by rewrite Hb, Hh.
Qed.

(** Storing an object: what [put] of its encoding does. *)
Definition puts (h : addr) (b : list byte) (k : M S PathError unit) : Prop :=
  ∀ s, os_inv s → wp k (λ r s', ogrown s s' ∧
    pends (serving s) r (λ _, objects s' = <[h := b]> (objects s)) (λ _, False)) s.

Lemma puts_lift h b (m : M S FsError unit) :
  (∀ s, os_inv s → wp m (λ r s', ogrown s s' ∧ ends (serving s) r (λ _, objects s' = <[h := b]> (objects s)) True) s) →
  puts h b (lift_fs m).
Proof.
  intros Hm s I. apply wp_lift_fs. eapply wp_mono; [by apply Hm|]. intros r s' [Hg Hr].
  destruct r as [[]|x|]; simpl in Hr; [done|split; [done|]; by destruct Hr|done].
Qed.
Lemma obj_put_puts h b : object_address b = Some h → puts h b (lift_fs (obj_put h b)).
Proof. intros Hb. apply puts_lift. intros s I. by apply obj_put_spec. Qed.

(** The object of [d] stored unless it is there already, then [rest]. *)
Lemma blob_put_spec {A} s d b h k (rest : M S PathError A) (Q : res PathError A → S → Prop) :
  os_inv s → zlen d < 2 ^ 35 → to_allocvec (Blob d) = Some b → object_address b = Some h → puts h b k →
  (∀ s', ogrown s s' → blob_at (objects s') h d → wp rest Q s') →
  (∀ x s', ogrown s s' → ¬ serving s → Q (Err (Storage x)) s') →
  wp (there ← total (obj_has h); _ ← (if negb there then k else mret tt); rest) Q s.
Proof.
  intros I Hz Hd Hh Hk HQ Herr. apply wp_bind, wp_total. destruct (obj_has_spec s h I) as [Hs Hhas].
  destruct (obj_has h s) as [there s1]. cbn [fst snd] in *. pose proof (kept_objects _ _ _ _ _ _ _ Hs) as Ho.
  apply wp_bind. destruct there; cbn [negb].
  - apply wp_ret, HQ; [by apply okept_grown|]. destruct (Hhas eq_refl) as [b' Hb'].
    assert (b' = b) as -> by (eapply address_inj; [by eapply objects_addressed|done]).
    split; [done|]. exists b. by rewrite Ho, Hb'.
  - eapply wp_mono; [apply Hk; by destruct Hs|].
    intros r s2 [Hg Hr]. assert (Hg' : ogrown s s2) by (eapply ogrown_trans; [by apply okept_grown|done]).
    destruct r as [[]|[]|]; simpl in Hr; try done.
    + apply HQ; [done|]. split; [done|]. exists b. by rewrite Hr, lookup_insert_eq.
    + apply Herr; [done|]. intros Hsv. by apply Hr, (kept_serving _ _ _ _ _ _ _ Hs).
Qed.

Lemma store_piece_spec s d :
  os_inv s → zlen d < 2 ^ 35 →
  wp (store_piece d) (λ r s', ogrown s s' ∧
    pends (serving s) r (λ h, blob_at (objects s') h d) (λ _, False)) s.
Proof.
  intros I Hz. destruct (blob_address d Hz) as (b & h & He & Hd & _ & Hc & Ha & _). unfold store_piece.
  apply wp_bind. eapply wp_of_opt; [done|]. apply wp_bind, wp_ok_or.
  eapply (blob_put_spec s d b h); [done..| | |].
  - intros s1 I1. apply wp_bind. eapply wp_of_opt; [done|]. apply puts_lift; [|done].
    intros s2 I2. by apply obj_put_addressed_spec.
  - intros s1 Hg Hb. by apply wp_ret.
  - intros x s1 Hg Hs. by split.
Qed.

Lemma store_pieces_spec ps s hs failed :
  os_inv s → Forall (λ p, zlen p < 2 ^ 35) ps →
  wp (store_pieces ps hs failed) (λ r s', ogrown s s' ∧
    match r with
    | Ok (l, None) => failed = None ∧ ∃ k, l = hs ++ k ∧ Forall2 (λ p h, blob_at (objects s') h p) ps k
    | Ok (l, Some x) => failed = Some x ∨ (∃ y, x = Storage y) ∧ ¬ serving s
    | _ => False
    end) s.
Proof.
  revert s hs failed; induction ps as [|p ps IH]; intros s hs failed I Hf; cbn [store_pieces].
  { apply wp_ret. split; [by apply ogrown_refl|]. destruct failed; [by left|]. split; [done|].
    exists []. split; [by rewrite app_nil_r|constructor]. }
  apply Forall_cons in Hf as [Hp Hf]. pose proof (store_piece_spec s p I Hp) as H1.
  unfold wp in *. destruct (store_piece p s) as [[h|x|] s1]; [| |by destruct H1].
  - destruct H1 as [Hg Hb]. specialize (IH s1 (hs ++ [h]) failed ltac:(by destruct Hg) Hf).
    destruct (store_pieces ps (hs ++ [h]) failed s1) as [[[l [x|]]|x|] s2]; destruct IH as [Hg2 IH]; try done.
    + split; [by eapply ogrown_trans|]. destruct IH as [|[? Hs]]; [by left|right]. split; [done|].
      intros Hsv. by apply Hs, (grown_serving _ _ _ _ _ _ _ Hg).
    + split; [by eapply ogrown_trans|]. destruct IH as (Hn & k & -> & Hk). split; [done|].
      exists (h :: k). split; [by rewrite <- app_assoc|]. constructor; [|done].
      eapply blob_at_mono; [|done]. apply (grown_objects _ _ _ _ _ _ _ Hg2).
  - destruct H1 as [Hg Hx]. assert (Hx' : (∃ y, x = Storage y) ∧ ¬ serving s) by (destruct x; try done; eauto).
    specialize (IH s1 (hs ++ [EMPTY_ROOT]) (match failed with Some f => Some f | None => Some x end) ltac:(by destruct Hg) Hf).
    destruct (store_pieces ps _ _ s1) as [[[l [y|]]|y|] s2]; destruct IH as [Hg2 IH]; try done.
    + split; [by eapply ogrown_trans|]. destruct IH as [Hy|[Hy Hs]]; [|right; split; [done|]; by destruct Hx'].
      destruct failed; [by left|right]. simplify_eq. done.
    + destruct IH as [IH _]. by destruct failed.
Qed.

(** ** Entries made at a path *)
Lemma reach_ext (v w : path → option Stat) pre segs : (∀ p, v p = w p) → reach v pre segs = reach w pre segs.
Proof.
  intros H. revert pre; induction segs as [|n segs IH]; intros pre; [done|]. cbn [reach]. rewrite <- H.
  by destruct (v (pre ++ [n])) as [[]|].
Qed.

(** Only a directory has something below it. *)
Lemma look_below m es p x q :
  p ≠ [] → look m es (p ++ x :: q) ≠ None → ∃ t f, look m es p = Some (SDir t f).
Proof.
  revert es; induction p as [|n p IH]; intros es Hp; [done|]. cbn [app]. rewrite !look_cons.
  destruct (find_entry n es) as [e|]; [|done]. cbn [mbind option_bind]. unfold entry_view.
  destruct (p ++ x :: q) as [|y p'] eqn:E; [by destruct p|]. unfold stat_of.
  destruct (t_kind e); [done|]. intros H. destruct p as [|n' p]; [eauto|].
  unfold fsview in *. destruct (tree_at m (t_hash e)) as [es'|]; [|done]. apply IH; [done|]. exact H.
Qed.

Lemma view_below m root p x q :
  p ≠ [] → (∀ t f, fsview m root p ≠ Some (SDir t f)) → fsview m root (p ++ x :: q) = None.
Proof.
  intros Hp Hn. unfold fsview in *. destruct (tree_at m root) as [es|]; [|done]. cbn [mbind option_bind] in *.
  destruct (look m es (p ++ x :: q)) eqn:E; [|done].
  destruct (look_below m es p x q Hp) as (t & f & Hd); [by rewrite E|]. by destruct (Hn t f).
Qed.

(** What the view shows can be reached. *)
Lemma present_reach m root parent pre n :
  fsview m root (pre ++ parent ++ [n]) ≠ None → reach (fsview m root) pre parent = None.
Proof.
  revert pre; induction parent as [|a parent IH]; intros pre Hv; [done|]. cbn [reach].
  assert (Hpa : fsview m root ((pre ++ [a]) ++ parent ++ [n]) ≠ None) by (by rewrite <- app_assoc).
  destruct (fsview m root (pre ++ [a])) as [[h k t f|t f]|] eqn:E; [exfalso| |exfalso].
  2:{ by apply IH. }
  all: destruct (parent ++ [n]) as [|x q] eqn:Eq; [by destruct parent|]; apply Hpa, view_below;
    [by destruct pre|intros t' f'; by rewrite E].
Qed.

(** A file, or a directory with nothing in it, put at a path of [root]. *)
Lemma insert_one_spec s s1 root path segs e replace :
  ogrown s s1 → root_ok (objects s) root → parse_path path = Ok segs → last segs = Some (t_name e) →
  fits 64 (t_size e) → t_kind e = File ∨ replace = false →
  (t_kind e = Dir → t_size e = 0 ∧ tree_at (objects s1) (t_hash e) = Some []) →
  (t_kind e = File → file_ok (objects s1) e) →
  wp (insert_entry_at root segs e replace) (λ r s', ogrown s1 s' ∧ pends (serving s) r
    (λ root', root_ok (objects s') root' ∧
       ∀ p, fsview (objects s') root' p = if decide (p = segs) then Some (stat_of e) else fsview (objects s) root p)
    (refused (fsview (objects s) root) path (t_kind e) replace)) s1.
Proof.
  intros Hg Hr Hp Hlast Hf Hk Hdir Hfile. destruct (grown_snapshots_kept _ _ Hg root Hr) as [Hr1 Hv].
  destruct (parse_path_inv _ _ Hp) as (Hsegs & _ & _).
  destruct (proj1 (last_Some segs (t_name e)) Hlast) as [parent ->].
  assert (He : entry_ok (objects s1) e).
  { split; [|split; [done|]].
    - apply segment_valid. rewrite Forall_app, Forall_singleton in Hsegs. apply Hsegs.
    - split; [|done]. intros Hd. destruct (Hdir Hd) as [-> Ht]. exists []. split; [done|]. split; [done|].
      apply wf_draft. split; [constructor|]. split; constructor. }
  eapply wp_mono; [apply (insert_entry_at_spec s1 root parent e replace); [by destruct Hg|done|done]|].
  cbv zeta. intros r s2 [Hg2 Hr2]. split; [done|].
  rewrite (reach_ext _ (fsview (objects s) root)) in Hr2 by done. rewrite Hv in Hr2.
  assert (Href : ∀ x, reach (fsview (objects s) root) [] parent = Some x ∨
      reach (fsview (objects s) root) [] parent = None ∧ x = AlreadyExists ∧
        ¬ may_insert (fsview (objects s) root (parent ++ [t_name e])) (t_kind e) replace →
      refused (fsview (objects s) root) path (t_kind e) replace x).
  { intros x Hx. unfold refused. by rewrite Hp, rev_unit, rev_involutive. }
  destruct r as [root'|x|]; [| |done].
  2:{ destruct x; cbn [pends] in *; try by apply Href. intros Hs. by apply Hr2, (grown_serving _ _ _ _ _ _ _ Hg). }
  destruct Hr2 as ([Hok Hv'] & _ & Hmay). split; [done|]. intros p. rewrite Hv', Hv.
  destruct (strip (parent ++ [t_name e]) p) as [[|x q]|] eqn:Es.
  - apply strip_Some in Es as ->. rewrite app_nil_r. by rewrite decide_True.
  - apply strip_Some in Es as ->. rewrite decide_False by (intros E; apply (f_equal length) in E; rewrite length_app in E; simpl in E; lia).
    rewrite view_below; [|by destruct parent|].
    + unfold entry_view. destruct (t_kind e) eqn:Hkind; [done|]. destruct (Hdir eq_refl) as [_ Ht].
      unfold fsview. rewrite (tree_at_mono _ _ _ _ (grown_objects _ _ _ _ _ _ _ Hg2) Ht). done.
    + intros t f E. rewrite E in Hmay. cbn [may_insert kind_of] in Hmay. destruct Hmay as [-> Hkd].
      destruct Hk as [Hk|Hk]; [congruence|done].
  - rewrite decide_False; [done|]. intros ->. by rewrite strip_self in Es.
Qed.

(** ** Storing a file *)
Lemma refused_root v path k replace :
  parse_path path = Ok [] → refused v path k replace InvalidPath.
Proof. intros H. unfold refused. by rewrite H. Qed.

Lemma parse_step {A} (k : path → M S PathError A) Q path s :
  (∀ segs, parse_path path = Ok segs → wp (k segs) Q s) →
  (parse_path path = Err InvalidPath → Q (Err InvalidPath) s) →
  wp (segs ← of_res (parse_path path); k segs) Q s.
Proof.
  intros H1 H2. apply wp_bind. unfold wp at 1, of_res.
  destruct (parse_path_cases path) as [[segs E]|E]; rewrite E; auto.
Qed.

(** The file at [path] has the content [data] under [root'], everything else is as
    under [root]. *)
Definition wrote m m' (root root' : addr) (path data : list byte) (now : Z) : Prop :=
  ∃ segs h flags, parse_path path = Ok segs ∧ root_ok m' root' ∧ file_content m' h data ∧
    ∀ p, fsview m' root' p = if decide (p = segs) then Some (SFile h (zlen data) now flags) else fsview m root p.

Lemma install_chunked_file_spec s s1 now root path h data :
  ogrown s s1 → root_ok (objects s) root → fits 64 (zlen data) → file_content (objects s1) h data →
  wp (install_chunked_file now root path h (zlen data)) (λ r s', ogrown s s' ∧ pends (serving s) r
    (λ root', wrote (objects s) (objects s') root root' path data now)
    (refused (fsview (objects s) root) path File true)) s1.
Proof.
  intros Hg Hr Hf Hc. unfold install_chunked_file. apply parse_step.
  - intros segs Hp. destruct (last segs) as [n|] eqn:El.
    + eapply wp_mono; [eapply (insert_one_spec s s1); [done|done|done|done|done|by left|done|intros _; by exists data]|].
      intros r s2 [Hg2 Hr2]. split; [by eapply ogrown_trans|]. destruct r as [root'|x|]; [|done|done].
      destruct Hr2 as [Hok Hv]. exists segs, h, FLAG_CHUNKED. split; [done|]. split; [done|]. split; [|done].
      eapply file_content_mono; [|done]. apply (grown_objects _ _ _ _ _ _ _ Hg2).
    + apply wp_fail. split; [done|]. apply refused_root. by apply last_None in El as ->.
  - intros E. split; [done|]. unfold pends, refused. by rewrite E.
Qed.

Lemma store_chunked_spec s now root path data :
  os_inv s → root_ok (objects s) root → fits 64 (zlen data) →
  wp (store_chunked now root path data) (λ r s', ogrown s s' ∧ pends (serving s) r
    (λ root', wrote (objects s) (objects s') root root' path data now)
    (refused (fsview (objects s) root) path File true)) s.
Proof.
  intros I Hr Hf. unfold store_chunked. apply wp_bind.
  destruct (chunks_spec STREAMING_CHUNK_SIZE data) as [Hc Hps]; [done|].
  eapply wp_mono; [apply store_pieces_spec; [done|]|].
  { eapply Forall_impl; [done|]. intros p [_ Hp]. eapply Z.le_lt_trans; [exact Hp|]. by vm_compute. }
  intros r s1 [Hg Hr1]. destruct r as [[hs [x|]]|x|]; [| |done|done].
  - apply wp_fail. split; [done|]. destruct Hr1 as [|[[y ->] ?]]; done.
  - destruct Hr1 as (_ & k & -> & Hk). cbn [app].
    destruct (encode_and_hash_ok (Chunked (zlen data) k)) as (b & h & He & Hb & Hh); [done|].
    apply wp_bind. eapply wp_or_corrupt; [done|]. apply wp_bind.
    eapply wp_mono; [apply (obj_put_puts h b Hh); by destruct Hg|]. intros r s2 [Hg2 Hr2].
    assert (Hg12 : ogrown s s2) by (by eapply ogrown_trans).
    destruct r as [[]|x|]; [| |done].
    + eapply install_chunked_file_spec; [done..|]. cbn [pends] in Hr2. rewrite <- Hc.
      right. exists b, k, (chunks STREAMING_CHUNK_SIZE data). split; [by rewrite Hr2, lookup_insert_eq|].
      split; [by rewrite Hc|]. split; [done|].
      eapply Forall2_impl; [done|]. intros d h'. apply blob_at_mono. apply (grown_objects _ _ _ _ _ _ _ Hg2).
    + split; [done|]. destruct x; try done. intros Hs. by apply Hr2, (grown_serving _ _ _ _ _ _ _ Hg).
Qed.

Lemma store_spec s now root path data :
  os_inv s → root_ok (objects s) root → fits 64 (zlen data) →
  wp (store now root path data) (λ r s',
    ogrown s s' ∧ snapshots_kept (objects s) (objects s') ∧
    pends (serving s) r (λ root', wrote (objects s) (objects s') root root' path data now)
      (refused (fsview (objects s) root) path File true)) s.
Proof.
  intros I Hr Hf. apply with_snapshots.
  unfold store. apply parse_step.
  2:{ intros E. split; [by apply ogrown_refl|]. unfold pends, refused. by rewrite E. }
  intros segs Hp. destruct (last segs) as [n|] eqn:El.
  2:{ apply wp_fail. split; [by apply ogrown_refl|]. apply refused_root. by apply last_None in El as ->. }
  destruct (Z.ltb_spec STREAMING_CHUNK_SIZE (zlen data)) as [|Hz]; [by apply store_chunked_spec|].
  assert (Hz' : zlen data < 2 ^ 35) by (eapply Z.le_lt_trans; [exact Hz|]; by vm_compute).
  destruct (blob_address data Hz') as (b & h & _ & Hd & _ & Hc & Ha & He).
  apply wp_bind. eapply wp_of_opt; [done|]. apply wp_bind, wp_ok_or.
  eapply (blob_put_spec s data b h); [done..| | |].
  - intros s1 I1. apply wp_bind. eapply wp_or_corrupt; [done|]. by apply obj_put_puts.
  - intros s1 Hg Hb. eapply wp_mono.
    { eapply (insert_one_spec s s1); [done|done|done|done|done|by left|done|]. intros _. exists data. split; [by left|done]. }
    intros r s2 [Hg2 Hr2]. split; [by eapply ogrown_trans|]. destruct r as [root'|x|]; [|done|done].
    destruct Hr2 as [Hok Hv]. exists segs, h, FLAG_BLOB. split; [done|]. split; [done|]. split; [|done].
    eapply file_content_mono; [apply (grown_objects _ _ _ _ _ _ _ Hg2)|by left].
  - intros x s1 Hg Hs. by split.
Qed.

(** C10. Storing a file.  [store] of [data] at [path] either yields a root that shows,
    at that path and nowhere else, a file of that content, size and time, or refuses
    for the reason the path gives (an invalid path, a parent missing or not a
    directory, a directory in the way), or reports an error of a store that was not
    serving; in every case each root readable before still shows what it showed. *)
Theorem store_writes_one_path s now root path data :
  os_inv s → root_ok (objects s) root → fits 64 (zlen data) →
  wp (store now root path data) (λ r s',
    ogrown s s' ∧ snapshots_kept (objects s) (objects s') ∧
    pends (serving s) r (λ root', wrote (objects s) (objects s') root root' path data now)
      (refused (fsview (objects s) root) path File true)) s.
Proof. apply store_spec. Qed.

Lemma mkdir_spec s now root path :
  os_inv s → root_ok (objects s) root →
  wp (mkdir now root path) (λ r s',
    ogrown s s' ∧ snapshots_kept (objects s) (objects s') ∧
    pends (serving s) r
      (λ root', ∃ segs, parse_path path = Ok segs ∧ root_ok (objects s') root' ∧ ∀ p,
         fsview (objects s') root' p = if decide (p = segs) then Some (SDir now 0) else fsview (objects s) root p)
      (refused (fsview (objects s) root) path Dir false)) s.
Proof.
  intros I Hr. apply with_snapshots.
  unfold mkdir. apply parse_step.
  2:{ intros E. split; [by apply ogrown_refl|]. unfold pends, refused. by rewrite E. }
  intros segs Hp. destruct (last segs) as [n|] eqn:El.
  2:{ apply wp_fail. split; [by apply ogrown_refl|]. apply refused_root. by apply last_None in El as ->. }
  destruct (encode_and_hash_ok (Tree [])) as (b & h & He & Hb & Hh); [done|].
  apply wp_bind. eapply wp_or_corrupt; [done|]. apply wp_bind.
  eapply wp_mono; [by apply (obj_put_puts h b Hh)|]. intros r s1 [Hg Hr1].
  destruct r as [[]|x|]; [|split; [done|]; by destruct x|done]. cbn [pends] in Hr1.
  assert (Hk : okept s1 (tree_put h b s1)) by (apply tree_put_spec; [by destruct Hg|done]).
  apply wp_bind, wp_modify. eapply wp_mono.
  { eapply (insert_one_spec s (tree_put h b s1)); [eapply ogrown_trans; [done|by apply okept_grown]|done..|by right| |done].
    intros _. split; [done|]. rewrite (kept_objects _ _ _ _ _ _ _ Hk).
    eapply tree_at_stored; [by rewrite Hr1, lookup_insert_eq|done|done]. }
  intros r s2 [Hg2 Hr2]. split; [eapply ogrown_trans; [done|]; eapply ogrown_trans; [by apply okept_grown|done]|].
  destruct r as [root'|x|]; [|done|done]. by exists segs.
Qed.

(** Making a directory.  [mkdir] either yields a root that differs from the old
    one by an empty directory at [path], or refuses because the path is invalid, a
    parent cannot be reached or something is there already. *)
Theorem mkdir_adds_an_empty_directory s now root path :
  os_inv s → root_ok (objects s) root →
  wp (mkdir now root path) (λ r s',
    ogrown s s' ∧ snapshots_kept (objects s) (objects s') ∧
    pends (serving s) r
      (λ root', ∃ segs, parse_path path = Ok segs ∧ root_ok (objects s') root' ∧ ∀ p,
         fsview (objects s') root' p = if decide (p = segs) then Some (SDir now 0) else fsview (objects s) root p)
      (refused (fsview (objects s) root) path Dir false)) s.
Proof. apply mkdir_spec. Qed.

(** ** Taking entries away and moving them *)

(** Why an operation that takes the entry at [segs] away refuses. *)
Definition absent (v : path → option Stat) (segs : path) (x : PathError) : Prop :=
  ∃ parent n, segs = parent ++ [n] ∧
    (reach v [] parent = Some x ∨ reach v [] parent = None ∧ x = NotFound ∧ v segs = None).

Lemma present_not_absent m root segs x : fsview m root segs ≠ None → ¬ absent (fsview m root) segs x.
Proof.
  intros Hv (parent & n & -> & [Hx|(_ & _ & Hx)]); [|done]. by rewrite (present_reach m root parent [] n Hv) in Hx.
Qed.

Lemma snoc_case (segs : path) : segs ≠ [] → ∃ parent n, segs = parent ++ [n].
Proof. intros H. destruct (exists_last H) as (parent & n & ->). eauto. Qed.

Lemma delete_spec s root path :
  os_inv s → root_ok (objects s) root →
  wp (delete root path) (λ r s',
    ogrown s s' ∧ snapshots_kept (objects s) (objects s') ∧
    let v := fsview (objects s) root in
    pends (serving s) r
      (λ root', ∃ segs, parse_path path = Ok segs ∧ v segs ≠ None ∧ (∀ x q, v (segs ++ x :: q) = None) ∧
         root_ok (objects s') root' ∧ ∀ p, fsview (objects s') root' p = if decide (p = segs) then None else v p)
      (λ x, parse_path path = Err x ∨ ∃ segs, parse_path path = Ok segs ∧
         (segs = [] ∧ x = InvalidPath ∨ absent v segs x ∨ x = NotEmpty ∧ ∃ y, v (segs ++ [y]) ≠ None))) s.
Proof.
  intros I Hr. cbv zeta. apply with_snapshots. unfold delete. apply parse_step.
  2:{ intros E. split; [by apply ogrown_refl|]. by left. }
  intros segs Hp. destruct segs as [|n0 segs0].
  { apply wp_fail. split; [by apply ogrown_refl|]. right. exists []. split; [done|]. by left. }
  set (segs := n0 :: segs0) in *. destruct (snoc_case segs) as (parent & n & E); [done|]. rewrite E.
  apply wp_bind. eapply wp_mono; [by apply remove_entry_at_spec|]. cbv zeta. intros r s1 [Hg H1].
  rewrite E in Hp. destruct r as [[e root']|x|]; [| |done].
  2:{ split; [done|]. eapply pends_err; [exact H1|done|]. intros y0 Hx. right. exists (parent ++ [n]). split; [done|].
      destruct Hx as [Hx|[(Hx & -> & H2)|(Hx & -> & _ & y & Hy)]]; right.
      - left. exists parent, n. split; [done|]. by left.
      - left. exists parent, n. split; [done|]. by right.
      - right. split; [done|]. exists y. by rewrite <- app_assoc. }
  apply wp_ret. destruct H1 as ([Hok Hv] & _ & (He & _ & Hev) & Hempty). cbn [fst snd] in *. split; [done|].
  exists (parent ++ [n]). split; [done|]. split; [pose proof (Hev []) as H0; rewrite app_nil_r in H0; by rewrite <- H0|].
  assert (Hb : ∀ x q, fsview (objects s) root ((parent ++ [n]) ++ x :: q) = None).
  { intros x q. rewrite <- app_assoc. by apply Hempty. }
  split; [done|]. split; [done|]. intros p. rewrite Hv.
  destruct (strip (parent ++ [n]) p) as [[|x q]|] eqn:Es.
  - apply strip_Some in Es as ->. rewrite app_nil_r. by rewrite decide_True.
  - apply strip_Some in Es as ->. by destruct (decide _).
  - rewrite decide_False; [done|]. intros ->. by rewrite strip_self in Es.
Qed.

(** Deleting.  [delete] either yields a root without what was at [path], which
    was a file or an empty directory, and is otherwise unchanged; or refuses: an
    invalid path or the root itself, a parent that cannot be reached, nothing there,
    or a directory that still has entries. *)
Theorem delete_removes_one_path s root path :
  os_inv s → root_ok (objects s) root →
  wp (delete root path) (λ r s',
    ogrown s s' ∧ snapshots_kept (objects s) (objects s') ∧
    let v := fsview (objects s) root in
    pends (serving s) r
      (λ root', ∃ segs, parse_path path = Ok segs ∧ v segs ≠ None ∧ (∀ x q, v (segs ++ x :: q) = None) ∧
         root_ok (objects s') root' ∧ ∀ p, fsview (objects s') root' p = if decide (p = segs) then None else v p)
      (λ x, parse_path path = Err x ∨ ∃ segs, parse_path path = Ok segs ∧
         (segs = [] ∧ x = InvalidPath ∨ absent v segs x ∨ x = NotEmpty ∧ ∃ y, v (segs ++ [y]) ≠ None))) s.
Proof. apply delete_spec. Qed.

Lemma entry_view_renamed m e n q : entry_view m (with_name e n) q = entry_view m e q.
Proof. done. Qed.
Lemma entry_ok_renamed m e n : entry_ok m e → valid n → entry_ok m (with_name e n).
Proof. intros (_ & ? & ?) ?. by split. Qed.

(** [v] without what is at [segs]. *)
Definition cut (v : path → option Stat) (segs p : path) : option Stat :=
  match strip segs p with Some _ => None | None => v p end.
(** [v] with what [w] has below [old] at [new]. *)
Definition graft (v w : path → option Stat) (old new p : path) : option Stat :=
  match strip new p with Some q => w (old ++ q) | None => v p end.

Lemma valid_last path segs n : parse_path path = Ok segs → last segs = Some n → valid n.
Proof.
  intros (Hf & _)%parse_path_inv Hl. apply segment_valid. rewrite Forall_forall in Hf. apply Hf. by apply last_Some_elem_of.
Qed.

(** The entry at [os] taken away and put at [ns]. *)
Lemma move_spec s root new os ns :
  os_inv s → root_ok (objects s) root → parse_path new = Ok ns → os ≠ [] → ns ≠ [] →
  let v := fsview (objects s) root in
  wp ('(entry, root1) ← remove_entry_at root os false; n ← of_opt (last ns);
      insert_entry_at root1 ns (with_name entry n) false)
    (λ r s', ogrown s s' ∧ pends (serving s) r
      (λ root', root_ok (objects s') root' ∧ ∀ p, fsview (objects s') root' p = graft (cut v os) v os ns p)
      (λ x, absent v os x ∨ ∃ k, refused (cut v os) new k false x)) s.
Proof.
  intros I Hr Hp Hos Hns v. destruct (snoc_case os Hos) as (op & on & ->), (snoc_case ns Hns) as (np & nn & ->).
  apply wp_bind. eapply wp_mono; [by apply remove_entry_at_spec|]. cbv zeta. intros r s1 [Hg H1].
  destruct r as [[e root1]|x|]; [| |done].
  2:{ split; [done|]. eapply pends_err; [exact H1|done|]. intros y Hy. left. exists op, on. split; [done|].
      destruct Hy as [Hy|[Hy|(_ & _ & ? & _)]]; [by left|by right|done]. }
  destruct H1 as ([Hok1 Hv1] & _ & (He & _ & Hev) & _). cbn [fst snd] in *.
  pose proof (grown_objects _ _ _ _ _ _ _ Hg) as Hm1.
  apply wp_bind. eapply wp_of_opt; [apply last_snoc|].
  assert (He' : entry_ok (objects s1) (with_name e nn)).
  { apply entry_ok_renamed; [by eapply entry_ok_mono|]. eapply valid_last; [done|apply last_snoc]. }
  eapply wp_mono; [apply (insert_entry_at_spec s1 root1 np (with_name e nn) false); [by destruct Hg|done..]|].
  cbv zeta. intros r s2 [Hg2 H2]. split; [by eapply ogrown_trans|]. cbn [with_name t_name] in H2.
  rewrite (reach_ext _ (cut v (op ++ [on]))), (Hv1 (np ++ [nn])) in H2 by done.
  destruct r as [root'|x|]; [| |done].
  2:{ eapply pends_err; [exact H2|by destruct Hg|]. intros y Hy. right. exists (t_kind e). unfold refused.
      by rewrite Hp, rev_unit, rev_involutive. }
  destruct H2 as ([Hok2 Hv2] & _). split; [done|]. intros p. rewrite Hv2. unfold graft.
  destruct (strip (np ++ [nn]) p) as [q|]; [|by rewrite Hv1].
  rewrite (entry_view_mono (objects s1)), entry_view_renamed, (entry_view_mono (objects s)), Hev; [done|done|done| |done].
  apply (grown_objects _ _ _ _ _ _ _ Hg2).
Qed.

Definition moved m m' (root root' : addr) (old new : list byte) : Prop :=
  let v := fsview m root in
  ∃ os ns, parse_path old = Ok os ∧ parse_path new = Ok ns ∧ root_ok m' root' ∧
    ∀ p, fsview m' root' p = graft (if decide (os = ns) then v else cut v os) v os ns p.
Definition move_refused (v : path → option Stat) (old new : list byte) (x : PathError) : Prop :=
  parse_path old = Err x ∨ parse_path new = Err x ∨ ∃ os ns, parse_path old = Ok os ∧ parse_path new = Ok ns ∧
    (x = InvalidPath ∧ (os = [] ∨ ns = [] ∨ ∃ y q, ns = os ++ y :: q) ∨
     absent v os x ∨ ∃ k, refused (cut v os) new k false x).

Lemma rename_spec s root old new :
  os_inv s → root_ok (objects s) root →
  wp (rename root old new) (λ r s',
    ogrown s s' ∧ snapshots_kept (objects s) (objects s') ∧
    pends (serving s) r (λ root', moved (objects s) (objects s') root root' old new)
      (move_refused (fsview (objects s) root) old new)) s.
Proof.
  intros I Hr. apply with_snapshots. unfold rename. apply parse_step.
  2:{ intros E. split; [by apply ogrown_refl|]. by left. }
  intros os Hos. apply parse_step.
  2:{ intros E. split; [by apply ogrown_refl|]. right. by left. }
  intros ns Hns.
  assert (Hinv : os = [] ∨ ns = [] ∨ (∃ y q, ns = os ++ y :: q) → move_refused (fsview (objects s) root) old new InvalidPath).
  { intros H. right; right. exists os, ns. split; [done|]. split; [done|]. by left. }
  case_bool_decide as Ho; [apply wp_fail; split; [by apply ogrown_refl|]; apply Hinv; by left|].
  case_bool_decide as Hn; [apply wp_fail; split; [by apply ogrown_refl|]; apply Hinv; right; by left|]. cbn [orb].
  case_bool_decide as Heq.
  { apply wp_ret. split; [by apply ogrown_refl|]. exists os, ns. split; [done|]. split; [done|]. split; [done|].
    intros p. subst ns. rewrite decide_True by done. unfold graft. destruct (strip os p) eqn:Es; [|done].
    by apply strip_Some in Es as ->. }
  destruct ((zlen os <? zlen ns) && bool_decide (take (length os) ns = os)) eqn:Hbelow.
  { apply wp_fail. split; [by apply ogrown_refl|].
    apply Hinv. right; right. apply andb_true_iff in Hbelow as [Hlt Ht]. apply bool_decide_eq_true in Ht.
    apply Z.ltb_lt in Hlt. pose proof (take_drop (length os) ns) as E. rewrite Ht in E.
    destruct (drop (length os) ns) as [|y q]; [|by exists y, q]. rewrite app_nil_r in E. subst ns. done. }
  eapply wp_mono; [by apply move_spec|]. intros r s1 [Hg H1]. split; [done|]. destruct r as [root'|x|]; [| |done].
  - destruct H1 as [Hok Hv]. exists os, ns. split; [done|]. split; [done|]. split; [done|]. by rewrite decide_False.
  - eapply pends_err; [exact H1|done|]. intros y Hy. right; right. exists os, ns. split; [done|]. split; [done|]. by right.
Qed.


Definition restamp (now : Z) (st : Stat) : Stat :=
  match st with SFile h n _ f => SFile h n now f | SDir _ f => SDir now f end.
Lemma restamp_entry now e n : stat_of (with_mtime (with_name e n) now) = restamp now (stat_of e).
Proof. unfold stat_of. cbn [with_mtime with_name t_kind t_hash t_size t_flags t_mtime]. by destruct (t_kind e). Qed.

Definition copied m m' (root root' : addr) (old new : list byte) (now : Z) : Prop :=
  let v := fsview m root in
  ∃ os ns, parse_path old = Ok os ∧ parse_path new = Ok ns ∧ root_ok m' root' ∧
    ∀ p, fsview m' root' p = if decide (p = ns) then restamp now <$> v os else graft v v os ns p.
Definition copy_refused (v : path → option Stat) (old new : list byte) (x : PathError) : Prop :=
  parse_path old = Err x ∨ parse_path new = Err x ∨ ∃ os ns, parse_path old = Ok os ∧ parse_path new = Ok ns ∧
    (x = InvalidPath ∧ (os = [] ∨ ns = []) ∨ x = AlreadyExists ∧ os = ns ∨
     absent v os x ∨ ∃ k, refused v new k false x).

(** Reading the entry at [op ++ [on]]. *)
Lemma source_spec {A} s root op on (k : TreeEntry → M S PathError A) (Q : res PathError A → S → Prop) :
  os_inv s → root_ok (objects s) root →
  (∀ e s1, okept s s1 → entry_at (objects s) root (op ++ [on]) e → wp (k e) Q s1) →
  (∀ x s1, okept s s1 →
     pends (serving s) (Err x) (λ _ : unit, True) (absent (fsview (objects s) root) (op ++ [on])) → Q (Err x) s1) →
  wp (trees ← walk_for_mutation root op; leaf ← of_opt (last trees); src ← ok_or NotFound (find_entry on leaf); k src) Q s.
Proof.
  intros I (es & Ht & Hw) Hok Herr. pose proof (proj1 (wf_draft _ _) Hw) as [_ Hd]. set (v := fsview (objects s) root) in *.
  assert (Hv : ∀ p, v p = look (objects s) es p) by (intros p; unfold v, fsview; by rewrite Ht).
  assert (Hreach : reach v [] op = match descend (objects s) es op with inl _ => None | inr x => Some x end)
    by (apply descend_reach; [done|intros; by rewrite Hv]).
  apply wp_bind. eapply wp_mono; [by apply walk_for_mutation_spec|]. intros r s1 [Hk H1].
  destruct r as [trees|x|]; [| |done].
  2:{ apply Herr; [done|]. eapply pends_err; [exact H1|done|]. intros y Hy.
      exists op, on. split; [done|]. left. by rewrite Hreach, Hy. }
  destruct H1 as (l & Hl & ->). rewrite Hl in Hreach. apply wp_bind. eapply wp_of_opt; [apply last_List_last|].
  apply wp_bind, wp_ok_or. destruct (find_entry on (List.last l es)) as [e|] eqn:E.
  - apply Hok; [done|]. by eapply entry_at_leaf.
  - apply Herr; [done|]. exists op, on. split; [done|]. right. split; [done|]. split; [done|].
    destruct (descend_leaf _ _ _ _ Hd Hl) as [_ Hvl]. by rewrite Hv, Hvl, look_cons, E.
Qed.

Lemma copy_spec s now root old new :
  os_inv s → root_ok (objects s) root →
  wp (copy now root old new) (λ r s',
    ogrown s s' ∧ snapshots_kept (objects s) (objects s') ∧
    pends (serving s) r (λ root', copied (objects s) (objects s') root root' old new now)
      (copy_refused (fsview (objects s) root) old new)) s.
Proof.
  intros I Hr. apply with_snapshots. unfold copy. apply parse_step.
  2:{ intros E. split; [by apply ogrown_refl|]. by left. }
  intros os Hos. apply parse_step.
  2:{ intros E. split; [by apply ogrown_refl|]. right. by left. }
  intros ns Hns. set (v := fsview (objects s) root).
  assert (Href : ∀ x, x = InvalidPath ∧ (os = [] ∨ ns = []) ∨ x = AlreadyExists ∧ os = ns ∨
     absent v os x ∨ (∃ k, refused v new k false x) → copy_refused v old new x).
  { intros x H. right; right. exists os, ns. split; [done|]. by split. }
  case_bool_decide as Ho; [apply wp_fail; split; [by apply ogrown_refl|]; apply Href; left; auto|].
  case_bool_decide as Hn; [apply wp_fail; split; [by apply ogrown_refl|]; apply Href; left; auto|]. cbn [orb].
  case_bool_decide as Heq; [apply wp_fail; split; [by apply ogrown_refl|]; apply Href; auto|].
  destruct (snoc_case os Ho) as (op & on & ->), (snoc_case ns Hn) as (np & nn & ->).
  rewrite rev_unit, rev_involutive. apply source_spec; [done..| |].
  2:{ intros x s1 Hk Hx. split; [by apply okept_grown|]. eapply pends_err; [exact Hx|done|]. auto. }
  intros e s1 Hk (He & _ & Hev). fold v in Hev.
  apply wp_bind. eapply wp_of_opt; [apply last_snoc|]. pose proof (okept_grown _ _ Hk) as Hg.
  pose proof (grown_objects _ _ _ _ _ _ _ Hg) as Hm. set (e' := with_mtime (with_name e nn) now).
  assert (He' : entry_ok (objects s1) e').
  { destruct (entry_ok_renamed (objects s1) e nn) as (? & ? & ?); [by eapply entry_ok_mono| |by split].
    eapply valid_last; [done|apply last_snoc]. }
  destruct (grown_snapshots_kept _ _ Hg root Hr) as [Hr1 Hv1].
  eapply wp_mono; [apply (insert_entry_at_spec s1 root np e' false); [by destruct Hg|done..]|].
  cbv zeta. intros r s2 [Hg2 H2]. split; [by eapply ogrown_trans|]. change (t_name e') with nn in H2.
  rewrite (reach_ext _ v), (Hv1 (np ++ [nn])) in H2 by done. fold v in H2.
  destruct r as [root'|x|]; [| |done].
  2:{ eapply pends_err; [exact H2|by destruct Hg|]. intros y Hy. apply Href. right; right; right. exists (t_kind e').
      unfold refused. by rewrite Hns, rev_unit, rev_involutive. }
  destruct H2 as ([Hok2 Hv2] & _). exists (op ++ [on]), (np ++ [nn]). split; [done|]. split; [done|]. split; [done|].
  intros p. rewrite Hv2, Hv1. fold v. unfold graft.
  destruct (strip (np ++ [nn]) p) as [[|y q]|] eqn:Es.
  - apply strip_Some in Es as ->. rewrite app_nil_r, decide_True by done. cbn [entry_view]. unfold e'.
    rewrite restamp_entry. pose proof (Hev []) as H0. rewrite app_nil_r in H0. by rewrite <- H0.
  - rewrite decide_False by (intros ->; by rewrite strip_self in Es). rewrite <- (Hev (y :: q)).
    change (entry_view (objects s2) e' (y :: q)) with (entry_view (objects s2) e (y :: q)).
    apply entry_view_mono; [|done]. etrans; [done|]. apply (grown_objects _ _ _ _ _ _ _ Hg2).
  - rewrite decide_False by (intros ->; by rewrite strip_self in Es). done.
Qed.

(** Copying.  [copy] either yields a root where [new] shows all that is at [old],
    with the copy's own time, and the rest is as before (the copy of a directory
    shares its objects, also below itself); or refuses: a path invalid or the root,
    both the same, nothing at [old], [new] taken or its parent out of reach. *)
Theorem copy_aliases_the_subtree s now root old new :
  os_inv s → root_ok (objects s) root →
  wp (copy now root old new) (λ r s',
    ogrown s s' ∧ snapshots_kept (objects s) (objects s') ∧
    pends (serving s) r (λ root', copied (objects s) (objects s') root root' old new now)
      (copy_refused (fsview (objects s) root) old new)) s.
Proof. apply copy_spec. Qed.

(** ** Reading *)
Lemma walk_loop_spec parent n s h es :
  os_inv s → tree_at (objects s) h = Some es → wf (objects s) es →
  wp (walk_loop h (parent ++ [n])) (λ r s', okept s s' ∧ pends (serving s) r
    (λ w, ∃ l e, descend (objects s) es parent = inl l ∧ find_entry n (List.last l es) = Some e ∧
       w = mkWalk (t_hash e) (t_kind e) (t_size e) (t_mtime e))
    (λ x, descend (objects s) es parent = inr x ∨
       ∃ l, descend (objects s) es parent = inl l ∧ find_entry n (List.last l es) = None ∧ x = NotFound)) s.
Proof.
  revert s h es; induction parent as [|a parent IH]; intros s h es I Ht Hw; cbn [app walk_loop];
    apply wp_bind; (eapply wp_mono; [by apply fetch_tree_spec|]); intros r s1 [Hk H1];
    (destruct r as [v|x|]; [|split; [done|]; by destruct x|done]); simpl in H1; subst v; apply wp_bind, wp_ok_or.
  - destruct (find_entry n es) as [e|] eqn:E.
    + apply wp_ret. split; [done|]. by exists [], e.
    + split; [done|]. right. by exists [].
  - cbn [descend]. destruct (find_entry a es) as [e|] eqn:E; [|by split; [|left]].
    destruct (parent ++ [n]) as [|b rest] eqn:Er; [by destruct parent|]. rewrite <- Er in *.
    destruct (t_kind e) eqn:Hkind; [by apply wp_fail; split; [|left]|]. cbn [bool_decide]. change (negb _) with false. cbv iota.
    pose proof (proj1 (wf_draft _ _) Hw) as [_ Hd]. destruct (wf_child _ _ _ _ Hd E Hkind) as (es' & Ht' & _ & Hw').
    rewrite Ht'. pose proof (kept_objects _ _ _ _ _ _ _ Hk) as Ho.
    eapply wp_mono; [apply (IH s1 (t_hash e) es'); rewrite ?Ho; [by destruct Hk|done|done]|].
    intros r s2 [Hk2 H2]. split; [by eapply okept_trans|]. rewrite Ho in H2. destruct r as [w|x|]; [| |done].
    + destruct H2 as (l & e' & -> & He' & ->). exists (es' :: l), e'. by rewrite List_last_cons.
    + eapply pends_err; [exact H2|by destruct Hk|]. intros y [->|(l & -> & Hn & ->)]; [by left|right].
      exists (es' :: l). by rewrite List_last_cons.
Qed.

Lemma list_loop_spec segs s h es :
  os_inv s → tree_at (objects s) h = Some es → wf (objects s) es →
  wp (list_loop h segs) (λ r s', okept s s' ∧ pends (serving s) r
    (λ v, ∃ l, descend (objects s) es segs = inl l ∧ v = List.last l es ∧ wf (objects s) v)
    (λ x, descend (objects s) es segs = inr x)) s.
Proof.
  revert s h es; induction segs as [|a segs IH]; intros s h es I Ht Hw; cbn [list_loop descend].
  { eapply wp_mono; [by apply fetch_tree_spec|]. intros r s1 [Hk H1]. split; [done|].
    destruct r as [v|x|]; [|by destruct x|done]. simpl in H1. subst v. by exists []. }
  apply wp_bind. eapply wp_mono; [by apply fetch_tree_spec|]. intros r s1 [Hk H1].
  destruct r as [v|x|]; [|split; [done|]; by destruct x|done]. simpl in H1. subst v. apply wp_bind, wp_ok_or.
  destruct (find_entry a es) as [e|] eqn:E; [|by split].
  destruct (t_kind e) eqn:Hkind; [by apply wp_fail; split|]. change (negb _) with false. cbv iota.
  pose proof (proj1 (wf_draft _ _) Hw) as [_ Hd]. destruct (wf_child _ _ _ _ Hd E Hkind) as (es' & Ht' & _ & Hw').
  rewrite Ht'. pose proof (kept_objects _ _ _ _ _ _ _ Hk) as Ho.
  eapply wp_mono; [apply (IH s1 (t_hash e) es'); rewrite ?Ho; [by destruct Hk|done|done]|].
  intros r s2 [Hk2 H2]. split; [by eapply okept_trans|]. rewrite Ho in H2. destruct r as [w|x|]; [| |done].
  - destruct H2 as (l & -> & -> & Hw2). exists (es' :: l). by rewrite List_last_cons.
  - eapply pends_err; [exact H2|by destruct Hk|]. by intros y ->.
Qed.

(** What is found at a path: a file as the view shows it, or a directory whose size is
    the sum of what its tree holds. *)
Definition found m (root : addr) (segs : path) (w : WalkOk) : Prop :=
  match fsview m root segs with
  | Some (SFile h n t f) => w = mkWalk h File n t
  | Some (SDir t f) => w_kind w = Dir ∧ w_mtime w = t ∧
      ∃ es, tree_at m (w_hash w) = Some es ∧ wf m es ∧ w_size w = sum_sizes es ∧
        ∀ x q, fsview m root (segs ++ x :: q) = look m es (x :: q)
  | None => False
  end.

Lemma found_entry m root segs e :
  entry_at m root segs e → found m root segs (mkWalk (t_hash e) (t_kind e) (t_size e) (t_mtime e)).
Proof.
  intros ((_ & _ & Hd & _) & _ & Hev). unfold found. pose proof (Hev []) as H0. rewrite app_nil_r in H0. rewrite <- H0.
  cbn [entry_view]. unfold stat_of. destruct (t_kind e) eqn:Hk; [done|]. cbn [w_kind w_mtime w_hash w_size].
  split; [done|]. split; [done|]. destruct (Hd eq_refl) as (es & Ht & Hs & Hw). exists es.
  split; [done|]. split; [done|]. split; [done|]. intros x q. rewrite <- Hev. unfold entry_view. rewrite Hk.
  unfold fsview. by rewrite Ht.
Qed.

Lemma walk_spec s root path :
  os_inv s → root_ok (objects s) root →
  wp (walk root path) (λ r s', okept s s' ∧ pends (serving s) r
    (λ w, ∃ segs, parse_path path = Ok segs ∧ found (objects s) root segs w)
    (λ x, parse_path path = Err x ∨ ∃ segs, parse_path path = Ok segs ∧ absent (fsview (objects s) root) segs x)) s.
Proof.
  intros I (es & Ht & Hw). pose proof (proj1 (wf_draft _ _) Hw) as [_ Hd]. unfold walk. apply parse_step.
  2:{ intros E. split; [by apply okept_refl|]. by left. }
  intros segs Hp. assert (Hv : ∀ p, fsview (objects s) root p = look (objects s) es p) by (intros p; unfold fsview; by rewrite Ht).
  destruct segs as [|n0 segs0].
  { apply wp_bind. eapply wp_mono; [by apply fetch_tree_spec|]. intros r s1 [Hk H1].
    destruct r as [v|x|]; [|split; [done|]; by destruct x|done]. simpl in H1. subst v. apply wp_ret. split; [done|].
    exists []. split; [done|]. unfold found. rewrite Hv. cbn [look w_kind w_mtime w_hash w_size]. split; [done|].
    split; [done|]. by exists es. }
  destruct (snoc_case (n0 :: segs0)) as (parent & n & E); [done|]. rewrite E in *.
  eapply wp_mono; [by apply walk_loop_spec|]. intros r s1 [Hk H1]. split; [done|]. destruct r as [w|x|]; [| |done].
  - destruct H1 as (l & e & Hl & He & ->). exists (parent ++ [n]). split; [done|]. apply found_entry. by eapply entry_at_leaf.
  - eapply pends_err; [exact H1|done|]. intros y Hy. right. exists (parent ++ [n]). split; [done|]. exists parent, n. split; [done|].
    rewrite (descend_reach (objects s) parent es) by (done || intros; by rewrite Hv).
    destruct Hy as [->|(l & Hl & Hn & ->)]; [by left|right]. rewrite Hl. split; [done|]. split; [done|].
    destruct (descend_leaf _ _ _ _ Hd Hl) as [_ Hvl]. by rewrite Hv, Hvl, look_cons, Hn.
Qed.

(** Reading the tree.  [walk] finds what the view shows at a path, a directory
    with the size its tree adds up to, and fails with the first parent that is
    missing or not a directory, or when nothing is there.  [list] returns the entries
    of a directory, sorted and with different names, which are all that is below it. *)
Theorem walk_and_list_report_the_view s root path :
  os_inv s → root_ok (objects s) root →
  let v := fsview (objects s) root in
  wp (walk root path) (λ r s', okept s s' ∧ pends (serving s) r
    (λ w, ∃ segs, parse_path path = Ok segs ∧ found (objects s) root segs w)
    (λ x, parse_path path = Err x ∨ ∃ segs, parse_path path = Ok segs ∧ absent v segs x)) s ∧
  wp (list_dir root path) (λ r s', okept s s' ∧ pends (serving s) r
    (λ es, ∃ segs, parse_path path = Ok segs ∧ reach v [] segs = None ∧ wf (objects s) es ∧
       ∀ x q, v (segs ++ x :: q) = look (objects s) es (x :: q))
    (λ x, parse_path path = Err x ∨ ∃ segs, parse_path path = Ok segs ∧ reach v [] segs = Some x)) s.
Proof.
  intros I Hr v. split; [by apply walk_spec|]. destruct Hr as (es & Ht & Hw). pose proof (proj1 (wf_draft _ _) Hw) as [_ Hd].
  assert (Hv : ∀ p, v p = look (objects s) es p) by (intros p; unfold v, fsview; by rewrite Ht).
  unfold list_dir. apply parse_step.
  2:{ intros E. split; [by apply okept_refl|]. by left. }
  intros segs Hp.
  assert (Hreach : reach v [] segs = match descend (objects s) es segs with inl _ => None | inr x => Some x end)
    by (apply descend_reach; [done|intros; by rewrite Hv]).
  eapply wp_mono; [by apply list_loop_spec|]. intros r s1 [Hk H1]. split; [done|]. destruct r as [w|x|]; [| |done].
  - destruct H1 as (l & Hl & -> & Hwl). exists segs. split; [done|]. rewrite Hreach, Hl. split; [done|]. split; [done|].
    destruct (descend_leaf _ _ _ _ Hd Hl) as [_ Hvl]. intros x q. by rewrite Hv, Hvl.
  - eapply pends_err; [exact H1|done|]. intros y Hy. right. exists segs. split; [done|]. by rewrite Hreach, Hy.
Qed.
End claims.

(** ** A root to run on: one file, [g] *)
Import RefCodec.
Module Example.

Definition tree_bytes (es : list TreeEntry) : list byte := x01 :: bits (countable.encode es).
Definition tree_addr (es : list TreeEntry) : addr := x01 :: tree_bytes es.
Definition g_data : list byte := [x61; x62; x63].
Definition g_bytes : list byte := x00 :: x03 :: g_data.
Definition g_addr : addr := x01 :: g_bytes.
Definition objects_of (es : list TreeEntry) : gmap addr (list byte) :=
  <[tree_addr es := tree_bytes es]> {[g_addr := g_bytes]}.
Definition store_of (es : list TreeEntry) : MemObjects :=
  mkMemObjects (objects_of es) ∅ (Some (tree_addr es)) [tree_addr es].

Lemma store_inv es : os_inv (store_of es).
Proof. split; [apply map_Forall_insert_2; [done|by apply map_Forall_singleton]|apply map_Forall_empty]. Qed.
Lemma store_tree_at es : tree_at (objects (store_of es)) (tree_addr es) = Some es.
Proof.
  apply tree_at_stored with (tree_bytes es); [|done|done].
  change (objects (store_of es)) with (objects_of es). apply lookup_insert_eq.
Qed.
Lemma g_blob es : blob_at (objects (store_of es)) g_addr g_data.
Proof.
  split; [by vm_compute|]. exists g_bytes. split; [|done].
  change (objects (store_of es)) with (objects_of es). unfold objects_of.
  rewrite lookup_insert_ne by done. apply lookup_singleton_eq.
Qed.

Definition g : TreeEntry := mkTreeEntry (ascii "g") g_addr File 3 7 FLAG_BLOB.
Definition store0 : MemObjects := store_of [g].
Definition root0 : addr := tree_addr [g].

Lemma root0_ok : root_ok (objects store0) root0.
Proof.
  exists [g]. split; [apply store_tree_at|]. apply wf_draft. split; [repeat constructor|]. split.
  - apply NoDup_singleton.
  - constructor; [|constructor]. split; [by vm_compute|]. split; [by vm_compute|]. split; [done|]. intros _.
    exists g_data. split; [left; apply g_blob|]. split; [done|]. intros _. apply g_blob.
Qed.
Lemma view0 p : fsview (objects store0) root0 p = look (objects store0) [g] p.
Proof. unfold fsview, root0, store0. by rewrite store_tree_at. Qed.

(** Nothing is at [/a]: what is made there is not refused. *)
Lemma not_refused k replace x : ¬ refused (fsview (objects store0) root0) (ascii "/a") k replace x.
Proof.
  unfold refused. change (parse_path (ascii "/a")) with (@Ok PathError _ [ascii "a"]). cbn [rev app reach].
  rewrite view0. intros [|(_ & _ & H)]; [done|]. by apply H.
Qed.
Lemma not_refused0 {A} (r : res PathError A) P k replace :
  pends (serving store0) r P (refused (fsview (objects store0) root0) (ascii "/a") k replace) → ∃ a, r = Ok a ∧ P a.
Proof.
  destruct r as [a|x|]; [eauto| |done]. destruct x; intros Hx; try (by apply not_refused in Hx). by destruct Hx.
Qed.
Lemma parse_a : parse_path (ascii "/a") = Ok [ascii "a"]. Proof. done. Qed.
Lemma parse_g : parse_path (ascii "/g") = Ok [ascii "g"]. Proof. done. Qed.
(** [/g] is there, and has nothing below it. *)
Lemma present0 x : ¬ absent (fsview (objects store0) root0) [ascii "g"] x.
Proof.
  intros (parent & n & E & H). destruct parent as [|a [|]]; [|done|done]. cbn [reach] in H.
  rewrite view0 in H. by destruct H as [|(_ & _ & ?)].
Qed.
Lemma below0 y : fsview (objects store0) root0 ([ascii "g"] ++ [y]) = None.
Proof. by rewrite view0. Qed.
Lemma serving0 : serving store0. Proof. done. Qed.
End Example.

Lemma store_writes_one_path_witness :
  wp (store 9 Example.root0 (ascii "/a") [x61; x62]) (λ r s', ∃ root', r = Ok root' ∧
    wrote (objects Example.store0) (objects s') Example.root0 root' (ascii "/a") [x61; x62] 9) Example.store0.
Proof.
  eapply wp_mono; [apply (store_writes_one_path Example.store0); [apply Example.store_inv|apply Example.root0_ok|by vm_compute]|].
  intros r s' (_ & _ & H). by apply Example.not_refused0 in H.
Defined.

Lemma mkdir_adds_an_empty_directory_witness :
  wp (mkdir 9 Example.root0 (ascii "/a")) (λ r s', ∃ root', r = Ok root' ∧
    fsview (objects s') root' [ascii "a"] = Some (SDir 9 0)) Example.store0.
Proof.
  eapply wp_mono; [apply (mkdir_adds_an_empty_directory Example.store0); [apply Example.store_inv|apply Example.root0_ok]|].
  intros r s' (_ & _ & H). apply Example.not_refused0 in H as (root' & -> & segs & Hp & _ & Hv). exists root'. split; [done|].
  rewrite Hv. rewrite Example.parse_a in Hp. apply Ok_inj in Hp as <-. by rewrite decide_True.
Defined.

Lemma delete_removes_one_path_witness :
  wp (delete Example.root0 (ascii "/g")) (λ r s', ∃ root', r = Ok root' ∧
    fsview (objects s') root' [ascii "g"] = None) Example.store0.
Proof.
  eapply wp_mono; [apply (delete_removes_one_path Example.store0); [apply Example.store_inv|apply Example.root0_ok]|].
  cbv zeta. rewrite Example.parse_g. intros r s' (_ & _ & H). destruct r as [root'|x|]; [| |done].
  - exists root'. split; [done|]. destruct H as (segs & Hp & _ & _ & _ & Hv). apply Ok_inj in Hp as <-. rewrite Hv.
    by rewrite decide_True.
  - exfalso. eapply (pends_err (B := unit) _ True _ _ (λ _, True) _ (λ _, False)) in H; [|intros _; apply Example.serving0|].
    + destruct x; by try destruct H.
    + intros y [?|(segs & Hp & [[-> _]|[Ha|[_ (z & Hz)]]])]; [done|done| |]; apply Ok_inj in Hp as <-.
      * by apply Example.present0 in Ha.
      * by rewrite Example.below0 in Hz.
Defined.


Lemma copy_aliases_the_subtree_witness :
  wp (copy 9 Example.root0 (ascii "/g") (ascii "/a")) (λ r s', match r with
    | Ok root' => fsview (objects s') root' [ascii "a"] = Some (restamp 9 (stat_of Example.g)) ∧
                  fsview (objects s') root' [ascii "g"] = Some (stat_of Example.g)
    | _ => True
    end) Example.store0.
Proof.
  eapply wp_mono; [apply (copy_aliases_the_subtree Example.store0); [apply Example.store_inv|apply Example.root0_ok]|].
  intros r s' (_ & _ & H). destruct r as [root'|x|]; [|done|done]. destruct H as (os & ns & Ho & Hn & _ & Hv).
  rewrite Example.parse_g in Ho. rewrite Example.parse_a in Hn. apply Ok_inj in Ho as <-. apply Ok_inj in Hn as <-.
  rewrite !Hv. rewrite decide_True by done. split; [by rewrite Example.view0|].
  rewrite decide_False by done. unfold graft. cbn [strip]. rewrite bool_decide_false by done. by rewrite Example.view0.
Defined.

Lemma walk_and_list_report_the_view_witness :
  wp (walk Example.root0 (ascii "/g")) (λ r s', match r with
    | Ok w => w = mkWalk (t_hash Example.g) File 3 7
    | _ => False
    end) Example.store0.
Proof.
  eapply wp_mono; [apply (walk_and_list_report_the_view Example.store0); [apply Example.store_inv|apply Example.root0_ok]|].
  rewrite Example.parse_g. intros r s' (_ & H). destruct r as [w|x|]; [| |done].
  - destruct H as (segs & Hp & Hf). apply Ok_inj in Hp as <-. unfold found in Hf. by rewrite Example.view0 in Hf.
  - exfalso. eapply (pends_err (B := unit) _ True _ _ (λ _, True) _ (λ _, False)) in H; [|intros _; apply Example.serving0|].
    + destruct x; by try destruct H.
    + intros y [?|(segs & Hp & Ha)]; [done|]. apply Ok_inj in Hp as <-. by apply Example.present0 in Ha.
Defined.
