(* ===== verification/Fs.v ===== *)
(** * The file system's interface (storage/npkfs/fs.rs): paths, reads and writes

    Each call takes the current root, runs the path layer and, for a change,
    commits the new root.  [ROOT_MUTEX] orders the changes, so a call runs as a
    whole; timing and its logs are left out.  The heap's answer to a large
    reservation and the number of worker cores are arguments. *)

From S2P Require Import Prelude Bytes Format Object BlockStore ObjectStore Superblock Paths.

Record LastGc := mkLastGc { when_unix : Z; lg_kept : Z; lg_removed : Z; lg_failed : Z }.

(** The store and fs.rs's own statics: live streams, the last collection, the zero
    chunk last asked for, commits since the last collection, and the paths reported
    to [notify]. *)
Record Fs (S : Type) := mkFs {
  fs_store : S;
  ACTIVE_STREAMS : Z;
  LAST_GC : option LastGc;
  ZERO_CHUNK : option (Z * addr);
  MUTATIONS_SINCE_GC : Z;
  path_changed : list (list byte) }.
Arguments mkFs {_}. Arguments fs_store {_}. Arguments ACTIVE_STREAMS {_}. Arguments LAST_GC {_}.
Arguments ZERO_CHUNK {_}. Arguments MUTATIONS_SINCE_GC {_}. Arguments path_changed {_}.

Section fs.
Context `{!Codec} {S : Type} `{!ObjectStore S}.
Notation MP := (M S PathError).
Notation MF := (M (Fs S) PathError).

Definition set_store (f : Fs S) (s : S) : Fs S :=
  mkFs s (ACTIVE_STREAMS f) (LAST_GC f) (ZERO_CHUNK f) (MUTATIONS_SINCE_GC f) (path_changed f).
Definition on_store {A} (m : MP A) : MF A := λ f, let '(r, s') := m (fs_store f) in (r, set_store f s').
Definition notify_changed (p : list byte) : MF unit := λ f,
  (Ok tt, mkFs (fs_store f) (ACTIVE_STREAMS f) (LAST_GC f) (ZERO_CHUNK f) (MUTATIONS_SINCE_GC f) (path_changed f ++ [p])).

(** [match r { Ok(..) => .., Err(..) => .. }] on a call's result. *)
Definition catch {T E A} (m : M T E A) : M T E (A + E) := λ s,
  match m s with
  | (Ok a, s') => (Ok (inl a), s')
  | (Err e, s') => (Ok (inr e), s')
  | (Panic, s') => (Panic, s')
  end.

Definition fs_current_root : MP addr := λ s,
  match current_root s with Some h => (Ok h, s) | None => (Err (Storage NotMounted), s) end.
Definition commit (new_root : addr) : MP unit := lift_fs (commit_root new_root).

(** ** Reads *)
Definition stat (path : list byte) : MP (option (EntryKind * Z * Z)) :=
  root ← fs_current_root;
  r ← catch (walk root path);
  match r with
  | inl w => mret (Some (w_kind w, w_size w, w_mtime w))
  | inr NotFound => mret None
  | inr e => fail e
  end.
Definition exists_ (path : list byte) : MP bool :=
  o ← stat path;
  mret (match o with Some _ => true | None => false end).

(** One chunk of a file. *)
Definition read_chunk (h : addr) : MP (list byte) :=
  o ← lift_fs (obj_get h);
  bytes ← ok_or PCorrupt o;
  or_corrupt (decode_blob_inplace bytes).

Definition chunk_len (h : addr) : MP Z :=
  o ← lift_fs (plaintext_size h);
  encoded ← ok_or PCorrupt o;
  o ← of_opt (blob_len_from_encoded encoded);
  ok_or PCorrupt o.

Context (worker_count : Z) (try_reserve : Z → bool).

(** [starts.windows(2).any(|w| w[1] - w[0] > budget as u64)] *)
Fixpoint over_window (starts : list Z) (budget : Z) : bool :=
  match starts with
  | a :: (b :: _) as rest => (budget <? u64 (b - a)) || over_window rest budget
  | _ => false
  end.

(** The parts of [dst], one per chunk, each as long as its chunk should be; [None]
    when [dst] is too short, where [split_at_mut] panics. *)
Fixpoint part_lens (starts : list Z) (rest : Z) : option (list Z) :=
  match starts with
  | a :: (b :: _) as tl =>
      let n := u64 (b - a) in
      if rest <? n then None else cons n <$> part_lens tl (rest - n)
  | _ => Some []
  end.

(** [for_each] with [shared]: each chunk read into its part, zeros where it failed,
    and the first error. *)
Fixpoint read_parts (chunks : list addr) (lens : list Z) (old : list byte) (out : list byte) (failed : option PathError) :
    MP (list byte * option PathError) :=
  match chunks, lens with
  | h :: chunks, n :: lens => λ s,
      let keep := take (Z.to_nat n) old in
      let old := drop (Z.to_nat n) old in
      let fail_with e := match failed with Some f => Some f | None => Some e end in
      match read_chunk h s with
      | (Ok c, s') =>
          if zlen c =? n then read_parts chunks lens old (out ++ c) failed s'
          else read_parts chunks lens old (out ++ keep) (fail_with PCorrupt) s'
      | (Err e, s') => read_parts chunks lens old (out ++ keep) (fail_with e) s'
      | (Panic, s') => (Panic, s')
      end
  | [], _ => mret (out ++ old, failed)
  | _ :: _, [] => panic
  end.

(** [for_each] over one window without [shared]. *)
Fixpoint fetch_window (chunks : list addr) (got : list (option (list byte))) (failed : option PathError) :
    MP (list (option (list byte)) * option PathError) :=
  match chunks with
  | [] => mret (got, failed)
  | h :: chunks => λ s,
      match read_chunk h s with
      | (Ok c, s') => fetch_window chunks (got ++ [Some c]) failed s'
      | (Err e, s') => fetch_window chunks (got ++ [None]) (match failed with Some f => Some f | None => Some e end) s'
      | (Panic, s') => (Panic, s')
      end
  end.
(** [for (k, slot) in got.into_iter().enumerate()]; [starts] from the window's first
    chunk on. *)
Fixpoint place_window (got : list (option (list byte))) (starts : list Z) (base : Z) (dst : list byte)
    (failed : option PathError) : option (list byte * option PathError) :=
  match got with
  | [] => Some (dst, failed)
  | None :: _ => Some (dst, failed)
  | Some c :: got =>
      match starts with
      | a :: (b :: _) as rest =>
          let at' := u64 (a - base) in
          let to := u64 (b - base) in
          if negb (zlen c =? u64 (to - at')) then
            Some (dst, match failed with Some f => Some f | None => Some PCorrupt end)
          else
            dst ← splice dst at' c;
            place_window got rest base dst failed
      | _ => None
      end
  end.
Fixpoint window_loop (fuel : nat) (chunks : list addr) (starts : list Z) (base window first : Z) (dst : list byte)
    (failed : option PathError) : MP (list byte * option PathError) :=
  match fuel with
  | O => panic
  | Datatypes.S fuel =>
      if (first <? zlen chunks) && match failed with None => true | Some _ => false end then
        let last := Z.min (first + window) (zlen chunks) in
        '(got, failed) ← fetch_window (raw_sub chunks first (last - first)) [] failed;
        '(dst, failed) ← of_opt (place_window got (drop (Z.to_nat first) starts) base dst failed);
        window_loop fuel chunks starts base window last dst failed
      else mret (dst, failed)
  end.

Definition read_chunks_into (chunks : list addr) (starts : list Z) (dst : list byte) (budget : Z) (shared : bool) :
    MP (list byte) :=
  base ← of_opt (at_ starts 0);
  end_ ← of_opt (at_ starts (zlen chunks));
  if negb (u64 (end_ - base) =? zlen dst) then fail PCorrupt
  else if over_window starts budget then fail (Storage OutOfMemory)
  else
    r ← (if shared then
           lens ← of_opt (part_lens starts (zlen dst));
           read_parts chunks lens dst [] None
         else window_loop (Datatypes.S (length chunks)) chunks starts base (2 * (worker_count + 1)) 0 dst None);
    match r with
    | (dst, None) => mret dst
    | (_, Some e) => fail e
    end.

(** [for h in chunks] of [stitch_chunked]: where each chunk starts. *)
Fixpoint stitch_starts (chunks : list addr) (starts : list Z) : MP (list Z) :=
  match chunks with
  | [] => mret starts
  | h :: chunks =>
      prev ← of_opt (last starts);
      n ← chunk_len h;
      let next := prev + n in
      if 2 ^ 64 <=? next then fail PCorrupt else stitch_starts chunks (starts ++ [next])
  end.
Definition stitch_chunked (total_size : Z) (chunks : list addr) : MP (list byte) :=
  starts ← stitch_starts chunks [0];
  end_ ← of_opt (at_ starts (zlen chunks));
  if negb (end_ =? total_size) then fail PCorrupt
  else if negb (try_reserve total_size) then fail (Storage OutOfMemory)
  else read_chunks_into chunks starts (replicate (Z.to_nat total_size) x00) (2 ^ 64 - 1) true.

Definition first_is_zero (bytes : list byte) : bool :=
  match bytes with b :: _ => bval b =? 0 | [] => false end.

Definition read_with_hash (path : list byte) : MP (option (list byte * addr)) :=
  root ← fs_current_root;
  r ← catch (walk root path);
  match r with
  | inr NotFound => mret None
  | inr e => fail e
  | inl w =>
      if negb (bool_decide (w_kind w = File)) then fail NotADirectory
      else
        o ← lift_fs (obj_get (w_hash w));
        bytes ← ok_or PCorrupt o;
        blob ← (if first_is_zero bytes then or_corrupt (decode_blob_inplace bytes)
                else
                  o ← or_corrupt (decode bytes);
                  match o with
                  | Blob b => mret b
                  | Chunked total_size chunks => stitch_chunked total_size chunks
                  | Tree _ => fail PCorrupt
                  end);
        mret (Some (blob, w_hash w))
  end.
Definition read_file (path : list byte) : MP (option (list byte)) :=
  o ← read_with_hash path;
  mret (fst <$> o).

Definition fs_list (path : list byte) : MP (option (list TreeEntry)) :=
  root ← fs_current_root;
  r ← catch (list_dir root path);
  match r with
  | inl v => mret (Some v)
  | inr NotFound => mret None
  | inr e => fail e
  end.

(** ** Changes *)
Context (now_unix : Z).

Definition fs_write (path data : list byte) : MF unit :=
  _ ← on_store (cur ← fs_current_root; new ← store now_unix cur path data; commit new);
  notify_changed path.

Definition fs_mkdir (path : list byte) : MP unit :=
  cur ← fs_current_root;
  new ← mkdir now_unix cur path;
  commit new.

Definition ensure_dir (path : list byte) : MP unit :=
  cur ← fs_current_root;
  r ← catch (walk cur path);
  match r with
  | inl w => if bool_decide (w_kind w = Dir) then mret tt else fail AlreadyExists
  | inr NotFound => new ← mkdir now_unix cur path; commit new
  | inr e => fail e
  end.

(** [for (i, seg) in segs.iter().enumerate()] of [ensure_dirs]: [acc] is the path so
    far. *)
Fixpoint ensure_loop (segs : list (list byte)) (i : Z) (acc : list byte) : MP unit :=
  match segs with
  | [] => mret tt
  | seg :: segs =>
      let acc := (if 0 <? i then acc ++ [slash] else acc) ++ seg in
      _ ← ensure_dir acc;
      ensure_loop segs (i + 1) acc
  end.
Definition ensure_dirs (path : list byte) : MP unit :=
  segs ← of_res (parse_path path);
  ensure_loop segs 0 [].

Definition fs_delete (path : list byte) : MF unit :=
  r ← on_store (cur ← fs_current_root; catch (delete cur path));
  match r with
  | inl new => _ ← on_store (commit new); notify_changed path
  | inr NotFound => mret tt
  | inr e => fail e
  end.

Definition fs_rename (old new : list byte) : MF unit :=
  _ ← on_store (cur ← fs_current_root; new_root ← rename cur old new; commit new_root);
  _ ← notify_changed old;
  notify_changed new.

Definition fs_copy (old new : list byte) : MF unit :=
  _ ← on_store (cur ← fs_current_root; new_root ← copy now_unix cur old new; commit new_root);
  notify_changed new.

Definition chunk_list (path : list byte) : MP (option (Z * list addr)) :=
  root ← fs_current_root;
  r ← catch (walk root path);
  match r with
  | inr NotFound => mret None
  | inr e => fail e
  | inl w =>
      if negb (bool_decide (w_kind w = File)) then fail NotADirectory
      else
        o ← lift_fs (obj_get (w_hash w));
        bytes ← ok_or PCorrupt o;
        if first_is_zero bytes then mret None
        else
          o ← or_corrupt (decode bytes);
          match o with
          | Chunked total_size chunks => mret (Some (total_size, chunks))
          | Blob _ => mret None
          | Tree _ => fail PCorrupt
          end
  end.
End fs.
