(* ===== verification/FsSpec.v ===== *)
(** * Reading files back (storage/npkfs/fs.rs)

    A chunked file read in one piece, and what [read] returns for each path. *)

From S2P Require Import Prelude Bytes Format Object ObjectSpec BlockStore ObjectStore Paths PathsSpec PathsParse PathsRebuild PathsOps PathsTheorems Fs.

(** Where pieces of these lengths start, from [a] on, and where the last ends. *)
Fixpoint sums (a : Z) (ds : list (list byte)) : list Z :=
  a :: match ds with [] => [] | d :: ds => sums (a + zlen d) ds end.

Lemma sums_cons a d ds : sums a (d :: ds) = a :: sums (a + zlen d) ds. Proof. done. Qed.
Lemma sums_length a ds : length (sums a ds) = S (length ds).
Proof. revert a; induction ds as [|d ds IH]; intros a; simpl; [done|]. by rewrite IH. Qed.
Lemma zlen_concat_cons (d : list byte) ds : zlen (concat (d :: ds)) = zlen d + zlen (concat ds).
Proof. apply zlen_app. Qed.
Lemma sums_lookup a ds i :
  (i ≤ length ds)%nat → sums a ds !! i = Some (a + zlen (concat (take i ds))).
Proof.
  revert a i; induction ds as [|d ds IH]; intros a i Hi.
  - simpl in Hi. assert (i = 0%nat) as -> by lia. cbn. f_equal. rewrite zlen_nil. lia.
  - rewrite sums_cons. destruct i as [|i]; [cbn [lookup list_lookup take concat]; rewrite zlen_nil; f_equal; lia|].
    cbn [lookup list_lookup take]. rewrite IH by (simpl in Hi; lia). rewrite zlen_concat_cons. f_equal. lia.
Qed.
Lemma sums_end a ds : at_ (sums a ds) (Z.of_nat (length ds)) = Some (a + zlen (concat ds)).
Proof.
  unfold at_. rewrite (proj2 (Z.leb_le _ _)) by lia. rewrite Nat2Z.id, sums_lookup by lia.
  by rewrite take_ge.
Qed.

Lemma part_lens_sums a ds rest :
  0 ≤ a → a + zlen (concat ds) < 2 ^ 64 → zlen (concat ds) ≤ rest → part_lens (sums a ds) rest = Some (zlen <$> ds).
Proof.
  revert a rest; induction ds as [|d ds IH]; intros a rest Ha Hb Hr; [done|].
  rewrite zlen_concat_cons in *. pose proof (zlen_nonneg d). pose proof (zlen_nonneg (concat ds)).
  rewrite sums_cons. specialize (IH (a + zlen d) (rest - zlen d) ltac:(lia) ltac:(lia) ltac:(lia)).
  destruct ds as [|d' ds]; cbn [sums part_lens] in *.
  all: replace (a + zlen d - a) with (zlen d) by lia; rewrite wrap_small by (unfold fits; lia);
    rewrite (proj2 (Z.ltb_ge rest (zlen d))) by lia; by rewrite IH.
Qed.

Lemma over_window_sums a ds budget :
  0 ≤ a → a + zlen (concat ds) < 2 ^ 64 → Forall (λ d, zlen d ≤ budget) ds → over_window (sums a ds) budget = false.
Proof.
  revert a; induction ds as [|d ds IH]; intros a Ha Hb Hf; [done|]. rewrite zlen_concat_cons in *.
  pose proof (zlen_nonneg d). pose proof (zlen_nonneg (concat ds)). apply Forall_cons in Hf as [Hd Hf].
  specialize (IH (a + zlen d) ltac:(lia) ltac:(lia) Hf). rewrite sums_cons. destruct ds as [|d' ds]; cbn [sums over_window] in *.
  all: replace (a + zlen d - a) with (zlen d) by lia; rewrite wrap_small by (unfold fits; lia);
    rewrite (proj2 (Z.ltb_ge budget (zlen d))) by lia; exact IH.
Qed.

Section reads.
Context {CD : Codec} {CO : CodecOk} {S : Type} {OS : ObjectStore S} {OK : ObjectStoreOk S}.
Implicit Types (s : S) (m : gmap addr (list byte)) (ds : list (list byte)) (hs : list addr).

Lemma blob_bytes m h d b :
  blob_at m h d → m !! h = Some b →
  decode_blob_inplace b = Ok d ∧ blob_len_from_encoded (zlen b) = Some (Some (zlen d)) ∧ first_is_zero b = true.
Proof.
  intros (Hz & b' & Hb' & He) Hb. simplify_eq. rewrite encode_wire in He by done.
  split; [|split; [by apply blob_len_of_encoding|]].
  - rewrite encode_blob_spec in He by (etrans; [exact Hz|by apply Z.pow_lt_mono_r]). apply (inj Some) in He. subst b'.
    by apply decode_blob_spec.
  - rewrite encode_blob_spec in He by (etrans; [exact Hz|by apply Z.pow_lt_mono_r]). apply (inj Some) in He. by subst b'.
Qed.

Lemma read_chunk_spec s h d :
  os_inv s → blob_at (objects s) h d →
  wp (read_chunk h) (λ r s', okept s s' ∧ pends (serving s) r (λ v, v = d) (λ _, False)) s.
Proof.
  intros I Hd. pose proof Hd as (_ & b & Hb & _). destruct (blob_bytes _ _ _ _ Hd Hb) as (Hdec & _ & _).
  unfold read_chunk. apply wp_bind, wp_lift_fs. eapply wp_mono; [by apply obj_get_spec|].
  intros r s1 [Hk Hr]. destruct r as [o|x|]; simpl in Hr; [|split; [done|]; by destruct Hr|done]. subst o.
  rewrite Hb. apply wp_bind, wp_ret. eapply wp_or_corrupt; [done|]. by split.
Qed.

Lemma chunk_len_spec s h d :
  os_inv s → blob_at (objects s) h d →
  wp (chunk_len h) (λ r s', okept s s' ∧ pends (serving s) r (λ v, v = zlen d) (λ _, False)) s.
Proof.
  intros I Hd. pose proof Hd as (_ & b & Hb & _). destruct (blob_bytes _ _ _ _ Hd Hb) as (_ & Hlen & _).
  unfold chunk_len. apply wp_bind, wp_lift_fs. eapply wp_mono; [by apply plaintext_size_spec|].
  intros r s1 [Hk Hr]. destruct r as [o|x|]; simpl in Hr; [|split; [done|]; by destruct Hr|done]. subst o.
  rewrite Hb. apply wp_bind, wp_ret. apply wp_bind. eapply wp_of_opt; [done|]. by apply wp_ret.
Qed.

Lemma stitch_starts_spec hs ds s pre a :
  os_inv s → Forall2 (λ d h, blob_at (objects s) h d) ds hs → 0 ≤ a → a + zlen (concat ds) < 2 ^ 64 →
  wp (stitch_starts hs (pre ++ [a])) (λ r s', okept s s' ∧ pends (serving s) r (λ v, v = pre ++ sums a ds) (λ _, False)) s.
Proof.
  intros I Hf. revert s pre a I Hf; induction hs as [|h hs IH] in ds |- *; intros s pre a I Hf Ha Hb;
    inversion Hf as [|d h' ds' hs' Hd Hf' E1 E2]; subst; cbn [stitch_starts].
  { apply wp_ret. by split; [apply okept_refl|]. }
  rewrite zlen_concat_cons in Hb. pose proof (zlen_nonneg d). pose proof (zlen_nonneg (concat ds')).
  apply wp_bind. eapply wp_of_opt; [apply last_snoc|]. apply wp_bind.
  eapply wp_mono; [by apply (chunk_len_spec s h d)|]. intros r s1 [Hk Hr].
  destruct r as [v|x|]; [|split; [done|]; by destruct x|done]. simpl in Hr. subst v.
  pose proof (kept_objects _ _ _ _ _ _ _ Hk) as Ho. rewrite (proj2 (Z.leb_gt _ _)) by lia.
  eapply wp_mono; [eapply (IH ds'); [by destruct Hk|by rewrite Ho|lia|lia]|].
  intros r s2 [Hk2 Hr2]. split; [by eapply okept_trans|]. destruct r as [v|x|]; [| |done].
  - simpl in Hr2. subst v. by rewrite sums_cons, <- app_assoc.
  - eapply pends_err; [exact Hr2|by destruct Hk|done].
Qed.

Lemma read_parts_spec hs ds s old out failed :
  os_inv s → Forall2 (λ d h, blob_at (objects s) h d) ds hs → zlen old = zlen (concat ds) →
  wp (read_parts hs (zlen <$> ds) old out failed) (λ r s', okept s s' ∧
    match r with
    | Ok (v, None) => failed = None ∧ v = out ++ concat ds
    | Ok (_, Some x) => failed = Some x ∨ (∃ y, x = Storage y) ∧ ¬ serving s
    | _ => False
    end) s.
Proof.
  revert ds s old out failed; induction hs as [|h hs IH]; intros ds s old out failed I Hf Hold;
    inversion Hf as [|d h' ds' hs' Hd Hf' E1 E2]; subst; cbn [read_parts fmap list_fmap].
  { apply wp_ret. split; [by apply okept_refl|]. destruct failed; [by left|]. split; [done|].
    f_equal. cbn in Hold. destruct old; [done|]. rewrite zlen_cons, zlen_nil in Hold. pose proof (zlen_nonneg old). lia. }
  rewrite zlen_concat_cons in Hold. pose proof (zlen_nonneg (concat ds')). pose proof (zlen_nonneg d).
  assert (Hdrop : zlen (drop (Z.to_nat (zlen d)) old) = zlen (concat ds')).
  { unfold zlen in *. rewrite length_drop. lia. }
  pose proof (read_chunk_spec s h d I Hd) as H1. unfold wp in *.
  destruct (read_chunk h s) as [[c|x|] s1]; [| |by destruct H1].
  - destruct H1 as [Hk ->]. pose proof (kept_objects _ _ _ _ _ _ _ Hk) as Ho. rewrite Z.eqb_refl.
    specialize (IH ds' s1 (drop (Z.to_nat (zlen d)) old) (out ++ d) failed ltac:(by destruct Hk) ltac:(by rewrite Ho) Hdrop).
    destruct (read_parts hs _ _ _ failed s1) as [[[v [x|]]|x|] s2]; destruct IH as [Hk2 IH]; try done.
    + split; [by eapply okept_trans|]. destruct IH as [|[? Hs]]; [by left|right]. split; [done|].
      intros Hsv. by apply Hs, (kept_serving _ _ _ _ _ _ _ Hk).
    + split; [by eapply okept_trans|]. destruct IH as [Hn ->]. split; [done|]. by rewrite <- app_assoc.
  - destruct H1 as [Hk Hx]. assert (Hx' : (∃ y, x = Storage y) ∧ ¬ serving s) by (destruct x; try done; eauto).
    pose proof (kept_objects _ _ _ _ _ _ _ Hk) as Ho.
    specialize (IH ds' s1 (drop (Z.to_nat (zlen d)) old) (out ++ take (Z.to_nat (zlen d)) old)
      (match failed with Some f => Some f | None => Some x end) ltac:(by destruct Hk) ltac:(by rewrite Ho) Hdrop).
    destruct (read_parts hs _ _ _ _ s1) as [[[v [y|]]|y|] s2]; destruct IH as [Hk2 IH]; try done.
    + split; [by eapply okept_trans|]. destruct IH as [Hy|[Hy Hs]]; [|right; split; [done|]; by destruct Hx'].
      destruct failed; [by left|right]. simplify_eq. done.
    + destruct IH as [IH _]. by destruct failed.
Qed.

(** A failed [for_each] reports the first error: only the store's. *)
Lemma read_shared_spec wc hs ds s dst budget a :
  os_inv s → Forall2 (λ d h, blob_at (objects s) h d) ds hs → Forall (λ d, zlen d ≤ budget) ds →
  0 ≤ a → a + zlen (concat ds) < 2 ^ 64 → zlen dst = zlen (concat ds) →
  wp (read_chunks_into wc hs (sums a ds) dst budget true)
     (λ r s', okept s s' ∧ pends (serving s) r (λ v, v = concat ds) (λ _, False)) s.
Proof.
  intros I Hf Hbud Ha Hb Hdst. unfold read_chunks_into. pose proof (zlen_nonneg (concat ds)).
  apply wp_bind. eapply (wp_of_opt _ a); [by destruct ds|].
  apply wp_bind. eapply wp_of_opt.
  { replace (zlen hs) with (Z.of_nat (length ds)) by (unfold zlen; by rewrite (Forall2_length _ _ _ Hf)). apply sums_end. }
  replace (a + zlen (concat ds) - a) with (zlen (concat ds)) by lia. rewrite wrap_small by (unfold fits; lia).
  rewrite Hdst, Z.eqb_refl, over_window_sums by done. cbn [negb]. apply wp_bind, wp_bind.
  eapply wp_of_opt; [apply part_lens_sums; lia|].
  eapply wp_mono; [by apply read_parts_spec|]. intros r s1 [Hk Hr].
  destruct r as [[v [x|]]|x|]; [| |done|done].
  - apply wp_fail. split; [done|]. destruct Hr as [|[[y ->] ?]]; done.
  - destruct Hr as [_ ->]. by apply wp_ret.
Qed.

Lemma stitch_chunked_spec wc res hs ds s :
  os_inv s → Forall2 (λ d h, blob_at (objects s) h d) ds hs → zlen (concat ds) < 2 ^ 64 →
  res (zlen (concat ds)) = true →
  wp (stitch_chunked wc res (zlen (concat ds)) hs)
     (λ r s', okept s s' ∧ pends (serving s) r (λ v, v = concat ds) (λ _, False)) s.
Proof.
  intros I Hf Hb Hres. unfold stitch_chunked. pose proof (zlen_nonneg (concat ds)).
  apply wp_bind. eapply wp_mono; [apply (stitch_starts_spec hs ds s [] 0); [done|done|lia|lia]|].
  intros r s1 [Hk Hr]. destruct r as [v|x|]; [|split; [done|]; by destruct x|done]. simpl in Hr. subst v.
  pose proof (kept_objects _ _ _ _ _ _ _ Hk) as Ho.
  apply wp_bind. eapply wp_of_opt.
  { replace (zlen hs) with (Z.of_nat (length ds)) by (unfold zlen; by rewrite (Forall2_length _ _ _ Hf)). apply sums_end. }
  rewrite Z.add_0_l, Z.eqb_refl, Hres. cbn [negb].
  eapply wp_mono; [apply (read_shared_spec wc hs ds s1); [by destruct Hk|by rewrite Ho| |lia|lia|]|].
  - apply Forall_forall. intros d Hd. assert (zlen d ≤ zlen (concat ds)); [|lia].
    apply list_elem_of_split in Hd as (l & k & ->). rewrite concat_app. cbn [concat]. rewrite !zlen_app.
    pose proof (zlen_nonneg (concat l)). pose proof (zlen_nonneg (concat k)). lia.
  - rewrite zlen_replicate. lia.
  - intros r s2 [Hk2 Hr2]. split; [by eapply okept_trans|]. destruct r as [v|x|]; [done| |done].
    eapply pends_err; [exact Hr2|by destruct Hk|done].
Qed.

(** ** Reading by path *)
Lemma current_root_step {A} (k : addr → M S PathError A) Q s root :
  current_root s = Some root → wp (k root) Q s → wp (root ← fs_current_root; k root) Q s.
Proof. intros Hr Hk. apply wp_bind. unfold wp at 1, fs_current_root. by rewrite Hr. Qed.

Lemma wp_catch {T E A} (m : M T E A) (Q : res E (A + E) → T → Prop) t :
  wp m (λ r t', match r with Ok a => Q (Ok (inl a)) t' | Err e => Q (Ok (inr e)) t' | Panic => Q Panic t' end) t →
  wp (catch m) Q t.
Proof. unfold wp, catch. by destruct (m t) as [[]]. Qed.

(** The object of a file decoded. *)
Lemma read_object_spec wc res s h d :
  os_inv s → file_content (objects s) h d → zlen d < 2 ^ 64 → res (zlen d) = true →
  wp (o ← lift_fs (obj_get h); bytes ← ok_or PCorrupt o;
      blob ← (if first_is_zero bytes then or_corrupt (decode_blob_inplace bytes)
              else o ← or_corrupt (decode bytes);
                   match o with
                   | Blob b => mret b
                   | Chunked total_size chunks => stitch_chunked wc res total_size chunks
                   | Tree _ => fail PCorrupt
                   end);
      mret (Some (blob, h)))
     (λ r s', okept s s' ∧ pends (serving s) r (λ o, o = Some (d, h)) (λ _, False)) s.
Proof.
  intros I Hd Hz Hres. apply wp_bind, wp_lift_fs. eapply wp_mono; [by apply obj_get_spec|].
  intros r s1 [Hk Hr]. destruct r as [o|x|]; simpl in Hr; [|split; [done|]; by destruct Hr|done]. subst o.
  pose proof (kept_objects _ _ _ _ _ _ _ Hk) as Ho.
  destruct Hd as [Hd|(b & hs & ds & Hb & He & -> & Hf)].
  - pose proof Hd as (_ & b & Hb & _). destruct (blob_bytes _ _ _ _ Hd Hb) as (Hdec & _ & H0). rewrite Hb.
    apply wp_bind, wp_ret. rewrite H0. apply wp_bind. eapply wp_or_corrupt; [done|]. by apply wp_ret.
  - rewrite Hb. apply wp_bind, wp_ret. destruct (encode_tag _ _ He) as [l ->]. change (first_is_zero (tag _ :: l)) with false.
    apply wp_bind, wp_bind. eapply wp_or_corrupt; [unfold decode; by rewrite (from_bytes_to_allocvec _ _ He)|].
    eapply wp_mono; [apply (stitch_chunked_spec wc res hs ds s1); [by destruct Hk|by rewrite Ho|done|done]|].
    intros r s2 [Hk2 Hr2]. assert (okept s s2) by (by eapply okept_trans).
    destruct r as [v|x|]; [simpl in Hr2; subst v; by apply wp_ret| |done].
    split; [done|]. eapply pends_err; [exact Hr2|by destruct Hk|done].
Qed.

(** Every file of the view has a content, of the size shown. *)
Lemma look_file m es p h n t fl :
  draft m es → look m es p = Some (SFile h n t fl) → fits 64 n ∧ ∃ d, file_content m h d ∧ n = zlen d.
Proof.
  revert es; induction p as [|a p IH]; intros es [Hn He]; [done|]. rewrite look_cons.
  destruct (find_entry a es) as [e|] eqn:E; [|done]. cbn [mbind option_bind]. apply find_entry_Some in E as [Hin _].
  rewrite Forall_forall in He. destruct (He e Hin) as (_ & Hf & Hd & Hfile). unfold entry_view, stat_of.
  destruct p as [|b p]; destruct (t_kind e); [|done|done|].
  - intros [= <- <- <- <-]. split; [done|]. destruct (Hfile eq_refl) as (d & Hc & Hs & _). by exists d.
  - destruct (Hd eq_refl) as (es' & Ht & _ & Hw). unfold fsview. rewrite Ht. apply IH. by apply wf_draft in Hw as [_ ?].
Qed.
Lemma view_file m root p h n t fl :
  root_ok m root → fsview m root p = Some (SFile h n t fl) → fits 64 n ∧ ∃ d, file_content m h d ∧ n = zlen d.
Proof.
  intros (es & Ht & Hw). unfold fsview. rewrite Ht. apply look_file. by apply wf_draft in Hw as [_ ?].
Qed.

(** The heap grants a buffer of the size of the file at [path]. *)
Definition granted (res : Z → bool) m (root : addr) (path : list byte) : Prop :=
  ∀ segs h n t fl, parse_path path = Ok segs → fsview m root segs = Some (SFile h n t fl) → res n = true.

(** Why a path names no file. *)
Definition no_file m (root : addr) (path : list byte) (x : PathError) : Prop :=
  parse_path path = Err x ∨ ∃ segs, parse_path path = Ok segs ∧
    (absent (fsview m root) segs x ∨ x = NotADirectory ∧ ∃ t f, fsview m root segs = Some (SDir t f)).

(** A call on the file at [path]: [None] if it is missing. *)
Lemma on_file_spec {A} (k : WalkOk → M S PathError (option A)) (P : addr → list byte → A → Prop) s root path :
  os_inv s → current_root s = Some root → root_ok (objects s) root →
  (∀ w segs d t fl s1, okept s s1 → parse_path path = Ok segs →
     fsview (objects s) root segs = Some (SFile (w_hash w) (zlen d) t fl) → zlen d < 2 ^ 64 →
     file_content (objects s1) (w_hash w) d →
     wp (k w) (λ r s', okept s1 s' ∧ pends (serving s1) r (λ o, ∃ v, o = Some v ∧ P (w_hash w) d v) (λ _, False)) s1) →
  wp (root ← fs_current_root;
      r ← catch (walk root path);
      match r with
      | inr NotFound => mret None
      | inr e => fail e
      | inl w => if negb (bool_decide (w_kind w = File)) then fail NotADirectory else k w
      end) (λ r s', okept s s' ∧ pends (serving s) r
    (λ o, ∃ segs, parse_path path = Ok segs ∧
       match o with
       | Some v => ∃ h d t fl, fsview (objects s) root segs = Some (SFile h (zlen d) t fl) ∧
           file_content (objects s) h d ∧ P h d v
       | None => absent (fsview (objects s) root) segs NotFound
       end) (no_file (objects s) root path)) s.
Proof.
  intros I Hc Hr Hcont. eapply current_root_step; [done|].
  apply wp_bind, wp_catch. eapply wp_mono; [by apply walk_spec|]. intros r s1 [Hk H1].
  pose proof (kept_objects _ _ _ _ _ _ _ Hk) as Ho.
  destruct r as [w|x|]; [| |done].
  2:{ assert (Hx : pends (serving s) (Err x) (λ _ : unit, True)
        (λ x, parse_path path = Err x ∨ ∃ segs, parse_path path = Ok segs ∧ absent (fsview (objects s) root) segs x))
        by (by eapply pends_err).
      destruct x; try (apply wp_fail; split; [done|]; by destruct Hx as [|(segs & ? & ?)]; [left|right; exists segs; auto]).
      - apply wp_ret. split; [done|]. destruct Hx as [Hx|(segs & ? & ?)]; [|by exists segs].
        by destruct (parse_path_cases path) as [[? E]|E]; rewrite E in Hx.
      - by apply wp_fail. }
  destruct H1 as (segs & Hp & Hf). unfold found in Hf.
  destruct (fsview (objects s) root segs) as [[h n t f|t f]|] eqn:Ev; [| |done].
  - subst w. cbn [w_kind w_hash]. rewrite bool_decide_true by done. cbn [negb].
    destruct (view_file _ _ _ _ _ _ _ Hr Ev) as (Hz & d & Hd & ->).
    eapply wp_mono; [eapply (Hcont _ segs d); cbn [w_hash]; [done|done|done|apply Hz|by rewrite Ho]|].
    intros r s2 [Hk2 H2]. split; [by eapply okept_trans|]. destruct r as [o|x|]; [| |done].
    + destruct H2 as (v & -> & HP). exists segs. split; [done|]. exists h, d, t, f. by split.
    + eapply pends_err; [exact H2|by destruct Hk|done].
  - destruct Hf as (-> & _). change (bool_decide (Dir = File)) with false. apply wp_fail. split; [done|]. right.
    exists segs. split; [done|]. right. split; [done|]. eauto.
Qed.

Lemma read_with_hash_spec wc res s root path :
  os_inv s → current_root s = Some root → root_ok (objects s) root → granted res (objects s) root path →
  wp (read_with_hash wc res path) (λ r s', okept s s' ∧ pends (serving s) r
    (λ o, ∃ segs, parse_path path = Ok segs ∧
       match o with
       | Some v => ∃ h d t fl, fsview (objects s) root segs = Some (SFile h (zlen d) t fl) ∧
           file_content (objects s) h d ∧ v = (d, h)
       | None => absent (fsview (objects s) root) segs NotFound
       end) (no_file (objects s) root path)) s.
Proof.
  intros I Hc Hr Hres. unfold read_with_hash.
  apply (on_file_spec _ (λ h d v, v = (d, h))); [done|done|done|]. intros w segs d t fl s1 Hk Hp Hv Hz Hd.
  eapply wp_mono; [apply (read_object_spec wc res s1 (w_hash w) d); [by destruct Hk|done|done|by eapply Hres]|].
  intros r s2 [Hk2 H2]. split; [done|]. destruct r as [o|x|]; [|done|done]. simpl in H2. subst o. by eexists.
Qed.
End reads.
