(* ===== verification/FsTheorems.v ===== *)
(** * What the file system's calls do (storage/npkfs/fs.rs) *)

From S2P Require Import Prelude Bytes Format Object ObjectSpec BlockStore ObjectStore Paths PathsSpec PathsParse PathsRebuild PathsOps PathsTheorems Fs FsSpec.

Section fs.
Context {CD : Codec} {CO : CodecOk} {S : Type} {OS : ObjectStore S} {OK : ObjectStoreOk S}.
Implicit Types (s : S) (f : Fs S) (m : gmap addr (list byte)).

(** The current root and every root a superblock slot names can be read in full. *)
Definition fs_ok s : Prop :=
  os_inv s ∧ (∃ r, current_root s = Some r ∧ root_ok (objects s) r) ∧ ∀ r, r ∈ snapshots s → root_ok (objects s) r.
(** What the current root shows. *)
Definition current_view s (p : path) : option Stat := r ← current_root s; fsview (objects s) r p.

Lemma fs_ok_kept s s' : fs_ok s → okept s s' → fs_ok s'.
Proof.
  intros (I & (r & Hc & Hr) & Hs) [I' Ho Hroot Hsn _]. split; [done|]. rewrite Ho, Hroot. split; [by exists r|].
  intros x [Hx|Hx]%Hsn; [by apply Hs|]. by simplify_eq.
Qed.
Lemma fs_ok_grown s s' : fs_ok s → ogrown s s' → fs_ok s'.
Proof.
  intros (I & (r & Hc & Hr) & Hs) [I' Ho Hroot Hsn _]. split; [done|]. rewrite Hroot.
  split; [exists r; split; [done|]; by eapply root_ok_mono|].
  intros x [Hx|Hx]%Hsn; [eapply root_ok_mono; [done|]; by apply Hs|]. simplify_eq. by eapply root_ok_mono.
Qed.

Lemma commit_spec s h :
  fs_ok s → root_ok (objects s) h →
  wp (commit h) (λ r s', fs_ok s' ∧ objects s' = objects s ∧ (serving s → serving s') ∧
    pends (serving s) r (λ _, current_root s' = Some h) (λ _, False)) s.
Proof.
  intros (I & (root & Hc & Hr) & Hs) Hh. unfold commit. apply wp_lift_fs.
  eapply wp_mono; [apply commit_root_spec; [done|by eexists]|].
  intros r s' (I' & Ho & Hsv & Hsn & Hroot & Hr').
  assert (Hok : fs_ok s').
  { split; [done|]. rewrite Ho. split.
    - destruct Hroot as [-> | ->]; [by exists root|by exists h].
    - intros x [Hx | ->]%Hsn; [by apply Hs|done]. }
  destruct r as [[]|x|]; simpl in Hr'; [done|split; [done|]; split; [done|]; split; [done|]; by destruct Hr'|done].
Qed.

(** A change: run on the current root, then committed. *)
Definition changed {A} s (r : res PathError A) s' (P : gmap addr (list byte) → addr → addr → Prop)
    (Q : addr → PathError → Prop) : Prop :=
  fs_ok s' ∧ snapshots_kept (objects s) (objects s') ∧ (serving s → serving s') ∧
  pends (serving s) r
    (λ _, ∃ root root', current_root s = Some root ∧ current_root s' = Some root' ∧ P (objects s') root root')
    (λ x, current_root s' = current_root s ∧ ∃ root, current_root s = Some root ∧ Q root x).

Lemma change_spec s (op : addr → M S PathError addr) P Q :
  fs_ok s →
  (∀ root, current_root s = Some root → root_ok (objects s) root →
     wp (op root) (λ r s', ogrown s s' ∧ snapshots_kept (objects s) (objects s') ∧
       pends (serving s) r (λ root', root_ok (objects s') root' ∧ P (objects s') root root') (Q root)) s) →
  wp (cur ← fs_current_root; new ← op cur; commit new) (λ r s', changed s r s' P Q) s.
Proof.
  intros Hok Hop. pose proof Hok as (I & (root & Hc & Hr) & Hs). eapply current_root_step; [done|].
  apply wp_bind. eapply wp_mono; [by apply Hop|]. intros r s1 (Hg & Hsk & H1).
  pose proof (fs_ok_grown _ _ Hok Hg) as Hok1.
  destruct r as [root'|x|]; [| |done].
  2:{ split; [done|]. split; [done|]. split; [by destruct Hg|]. eapply pends_err; [exact H1|done|]. intros y Hy.
      split; [apply (grown_root _ _ _ _ _ _ _ Hg)|]. by exists root. }
  destruct H1 as [Hr1 HP]. eapply wp_mono; [by apply commit_spec|]. intros r s2 (Hok2 & Ho & Hsv & H2).
  assert (Hsv' : serving s → serving s2) by (intros H0; apply Hsv; by apply (grown_serving _ _ _ _ _ _ _ Hg)).
  split; [done|]. rewrite Ho. split; [done|]. split; [done|]. destruct r as [[]|x|]; [| |done].
  - simpl in H2. by exists root, root'.
  - eapply pends_err; [exact H2|by destruct Hg|done].
Qed.

Lemma wrote_root_ok m m' root root' path data now : wrote m m' root root' path data now → root_ok m' root'.
Proof. by intros (? & ? & ? & _ & ? & _). Qed.

Lemma wp_on_store {A} (m : M S PathError A) (Q : res PathError A → Fs S → Prop) f :
  wp m (λ r s', Q r (set_store f s')) (fs_store f) → wp (on_store m) Q f.
Proof. unfold wp, on_store. by destruct (m (fs_store f)). Qed.

Lemma write_change s now path data :
  fs_ok s → fits 64 (zlen data) →
  wp (cur ← fs_current_root; new ← store now cur path data; commit new)
     (λ r s', changed s r s' (λ m' root root', wrote (objects s) m' root root' path data now)
        (λ root, refused (fsview (objects s) root) path File true)) s.
Proof.
  intros Hok Hf. apply change_spec; [done|]. intros root Hc Hr. destruct Hok as (I & _).
  eapply wp_mono; [by apply store_spec|]. intros r s1 (Hg & Hk & H1). split; [done|]. split; [done|].
  destruct r as [root'|x|]; [|done|done]. split; [by eapply wrote_root_ok|done].
Qed.

(** The other changes of the current root. *)
Definition added m m' (root root' : addr) (path : list byte) (now : Z) : Prop :=
  ∃ segs, parse_path path = Ok segs ∧ root_ok m' root' ∧
    ∀ p, fsview m' root' p = if decide (p = segs) then Some (SDir now 0) else fsview m root p.

Lemma mkdir_change s now path :
  fs_ok s →
  wp (cur ← fs_current_root; new ← mkdir now cur path; commit new)
     (λ r s', changed s r s' (λ m' root root', added (objects s) m' root root' path now)
        (λ root, refused (fsview (objects s) root) path Dir false)) s.
Proof.
  intros Hok. apply change_spec; [done|]. intros root Hc Hr. destruct Hok as (I & _).
  eapply wp_mono; [by apply mkdir_spec|]. intros r s1 (Hg & Hk & H1). split; [done|]. split; [done|].
  destruct r as [root'|x|]; [|done|done]. split; [by destruct H1 as (? & _ & ? & _)|done].
Qed.

Lemma rename_change s old new :
  fs_ok s →
  wp (cur ← fs_current_root; root ← rename cur old new; commit root)
     (λ r s', changed s r s' (λ m' root root', moved (objects s) m' root root' old new)
        (λ root, move_refused (fsview (objects s) root) old new)) s.
Proof.
  intros Hok. apply change_spec; [done|]. intros root Hc Hr. destruct Hok as (I & _).
  eapply wp_mono; [by apply rename_spec|]. intros r s1 (Hg & Hk & H1). split; [done|]. split; [done|].
  destruct r as [root'|x|]; [|done|done]. split; [by destruct H1 as (? & ? & _ & _ & ? & _)|done].
Qed.

Lemma copy_change s now old new :
  fs_ok s →
  wp (cur ← fs_current_root; root ← copy now cur old new; commit root)
     (λ r s', changed s r s' (λ m' root root', copied (objects s) m' root root' old new now)
        (λ root, copy_refused (fsview (objects s) root) old new)) s.
Proof.
  intros Hok. apply change_spec; [done|]. intros root Hc Hr. destruct Hok as (I & _).
  eapply wp_mono; [by apply copy_spec|]. intros r s1 (Hg & Hk & H1). split; [done|]. split; [done|].
  destruct r as [root'|x|]; [|done|done]. split; [by destruct H1 as (? & ? & _ & _ & ? & _)|done].
Qed.

(** ** What a file holds is what was written *)
Lemma blob_at_fun m h d d' : blob_at m h d → blob_at m h d' → d = d'.
Proof.
  intros (_ & b & Hb & He) (_ & b' & Hb' & He'). simplify_eq.
  apply from_bytes_to_allocvec in He, He'. congruence.
Qed.
Lemma file_content_fun m h d d' : file_content m h d → file_content m h d' → d = d'.
Proof.
  intros [Hd|(b & hs & ds & Hb & He & -> & Hf)] [Hd'|(b' & hs' & ds' & Hb' & He' & -> & Hf')].
  - by eapply blob_at_fun.
  - destruct Hd as (_ & b & Hb & He). simplify_eq. apply from_bytes_to_allocvec in He, He'. congruence.
  - destruct Hd' as (_ & b' & Hb' & He'). simplify_eq. apply from_bytes_to_allocvec in He, He'. congruence.
  - simplify_eq. apply from_bytes_to_allocvec in He, He'. assert (hs = hs') as <- by congruence. f_equal.
    clear -CO Hf Hf'. revert ds' Hf'; induction Hf as [|d h ds hs Hd Hf IH]; intros ds' Hf'; inversion Hf'; subst; [done|].
    f_equal; [by eapply blob_at_fun|by apply IH].
Qed.

(** C12. Written data is read back.  On a serving store, [write] followed by [read] of
    the same path returns exactly the bytes written, whether they went into one
    object or into chunks; otherwise the write was refused for the reason its path
    gives.  The file system stays readable in full. *)
Theorem write_then_read wc res now path data f :
  fs_ok (fs_store f) → serving (fs_store f) → fits 64 (zlen data) → res (zlen data) = true →
  wp (_ ← fs_write now path data; on_store (read_file wc res path)) (λ r f',
    fs_ok (fs_store f') ∧
    match r with
    | Ok o => o = Some data
    | Err x => ∃ root, current_root (fs_store f) = Some root ∧
        refused (fsview (objects (fs_store f)) root) path File true x
    | Panic => False
    end) f.
Proof.
  intros Hok Hsv Hf Hres. unfold fs_write. apply wp_assoc, wp_bind, wp_on_store.
  eapply wp_mono; [by apply write_change|]. intros r s1 (Hok1 & _ & Hsv1 & H1).
  destruct r as [[]|x|]; [| |done].
  2:{ split; [done|]. destruct x; cbn [pends] in H1; try apply H1. done. }
  destruct H1 as (root & root' & Hc & Hc' & (segs & h & flags & Hp & Hr' & Hcont & Hv)).
  apply wp_bind, wp_ret. apply wp_on_store. cbn [fs_store set_store]. unfold read_file. apply wp_bind.
  assert (Hseg : fsview (objects s1) root' segs = Some (SFile h (zlen data) now flags)) by (rewrite Hv; by rewrite decide_True).
  eapply wp_mono; [apply (read_with_hash_spec wc res s1 root' path); [by destruct Hok1|done|done|]|].
  { intros segs' h' n t fl Hp' Hv'. assert (segs' = segs) as -> by congruence. rewrite Hseg in Hv'. by simplify_eq. }
  intros r s2 [Hk H2]. assert (Hok2 : fs_ok s2) by (by eapply fs_ok_kept).
  destruct r as [o|x|]; [| |done].
  - apply wp_ret. split; [done|]. destruct H2 as (segs' & Hp' & Ho). assert (segs' = segs) as -> by congruence.
    destruct o as [v|]; cbn [fst fmap option_fmap option_map].
    + destruct Ho as (h' & d & t & fl & Hv' & Hd & ->). rewrite Hseg in Hv'. simplify_eq. f_equal. by eapply file_content_fun.
    + by apply present_not_absent in Ho; [|rewrite Hseg].
  - exfalso. eapply (pends_err (B := unit) _ True _ _ (λ _, True) _ (λ _, False)) in H2; [by destruct x|by intros _; auto|].
    intros y [E|(segs' & Hp' & [Ha|(_ & t & fl & E)])]; [congruence| |]; (assert (segs' = segs) as -> by congruence).
    + by apply present_not_absent in Ha; [|rewrite Hseg].
    + congruence.
Qed.

(** ** Directory chains *)

(** The view [v] with an empty directory at [segs] if nothing was there. *)
Definition with_dir (now : Z) (v : path → option Stat) (segs p : path) : option Stat :=
  if decide (p = segs ∧ v p = None) then Some (SDir now 0) else v p.
Definition is_dir (o : option Stat) : Prop := ∃ t fl, o = Some (SDir t fl).
Definition is_file (o : option Stat) : Prop := ∃ h n t fl, o = Some (SFile h n t fl).

(** How [ensure_dir] and [ensure_dirs] end: [V] is what the new root shows, with a
    directory at [segs]. *)
Definition ensured {A} s (r : res PathError A) s' (segs : path) (V : path → option Stat) (Q : PathError → Prop) : Prop :=
  fs_ok s' ∧ snapshots_kept (objects s) (objects s') ∧ (serving s → serving s') ∧
  pends (serving s) r (λ _, is_dir (V segs) ∧
    ∃ root', current_root s' = Some root' ∧ ∀ p, fsview (objects s') root' p = V p) Q.

Lemma snapshots_kept_trans m1 m2 m3 : snapshots_kept m1 m2 → snapshots_kept m2 m3 → snapshots_kept m1 m3.
Proof.
  intros H1 H2 r Hr. destruct (H1 r Hr) as [Hr2 Hv2], (H2 r Hr2) as [Hr3 Hv3]. split; [done|]. intros p. by rewrite Hv3.
Qed.
Lemma snapshots_kept_refl m m' : m' = m → snapshots_kept m m'.
Proof. by intros -> r Hr. Qed.

(** A walk to a path whose parent can be reached. *)
Lemma walk_reached s root path parent n :
  os_inv s → root_ok (objects s) root → parse_path path = Ok (parent ++ [n]) →
  reach (fsview (objects s) root) [] parent = None →
  wp (walk root path) (λ r s', okept s s' ∧ pends (serving s) r (found (objects s) root (parent ++ [n]))
    (λ x, x = NotFound ∧ fsview (objects s) root (parent ++ [n]) = None)) s.
Proof.
  intros I Hr Hp Hreach. eapply wp_mono; [by apply walk_spec|]. intros r s1 [Hk H1]. split; [done|].
  destruct r as [w|x|]; [| |done].
  - destruct H1 as (segs & Hp' & Hf). by assert (segs = parent ++ [n]) as -> by congruence.
  - eapply pends_err; [exact H1|done|]. intros y [E|(segs & Hp' & (par & m & E & Hy))]; [congruence|].
    assert (segs = parent ++ [n]) as -> by congruence. apply app_inj_tail in E as [<- <-].
    destruct Hy as [Hy|(_ & -> & ?)]; [congruence|done].
Qed.

Lemma ensure_dir_spec s now path parent n root :
  fs_ok s → current_root s = Some root → parse_path path = Ok (parent ++ [n]) →
  reach (fsview (objects s) root) [] parent = None →
  wp (ensure_dir now path) (λ r s', ensured s r s' (parent ++ [n]) (with_dir now (fsview (objects s) root) (parent ++ [n]))
    (λ x, x = AlreadyExists ∧ is_file (fsview (objects s) root (parent ++ [n])))) s.
Proof.
  intros Hok Hc Hp Hreach. unfold ensure_dir. eapply current_root_step; [done|]. set (v := fsview (objects s) root) in *.
  pose proof Hok as (I & (root0 & Hc0 & Hr) & _). rewrite Hc in Hc0. injection Hc0 as <-.
  apply wp_bind, wp_catch. eapply wp_mono; [by eapply walk_reached|]. intros r s1 [Hk H1]. fold v in H1.
  pose proof (fs_ok_kept _ _ Hok Hk) as Hok1. pose proof (kept_objects _ _ _ _ _ _ _ Hk) as Ho.
  pose proof (kept_root _ _ _ _ _ _ _ Hk) as Hcr.
  assert (Hsk : snapshots_kept (objects s) (objects s1)) by (by apply snapshots_kept_refl).
  assert (Hsv : serving s → serving s1) by (by destruct Hk).
  destruct r as [w|x|]; [| |done].
  - unfold found in H1. fold v in H1. simpl in H1. destruct (v (parent ++ [n])) as [[h k t fl|t fl]|] eqn:Ev; [| |done].
    + subst w. change (bool_decide (w_kind _ = Dir)) with false. apply wp_fail.
      split; [done|]. split; [done|]. split; [done|]. split; [done|]. by exists h, k, t, fl.
    + destruct H1 as (-> & _). rewrite bool_decide_true by done. apply wp_ret. split; [done|].
      split; [done|]. split; [done|]. split; [unfold with_dir; rewrite Ev, decide_False by naive_solver; by exists t, fl|].
      exists root. split; [congruence|].
      intros p. rewrite Ho. fold v. unfold with_dir. rewrite decide_False; [done|]. intros [-> ?]. congruence.
  - destruct x; try (by destruct H1).
    2:{ apply wp_fail. by split. }
    destruct H1 as [_ Ev].
    assert (Hmk : wp (cur ← fs_current_root; new ← mkdir now cur path; commit new)
      (λ r s', changed s1 r s' (λ m' root root', added (objects s1) m' root root' path now)
         (λ root, refused (fsview (objects s1) root) path Dir false)) s1) by (by apply mkdir_change).
    unfold wp, fs_current_root in Hmk. unfold mbind at 1, M_bind at 1 in Hmk. rewrite Hcr, Hc in Hmk. cbv beta iota in Hmk.
    eapply wp_mono; [exact Hmk|]. clear Hmk. intros r s2 (Hok2 & Hsk2 & Hsv2 & H2).
    split; [done|]. split; [by eapply snapshots_kept_trans|]. split; [by auto|]. destruct r as [[]|x|]; [| |done].
    + destruct H2 as (rt & root' & Hc1 & Hc2 & (segs & Hp' & _ & Hv)).
      split; [unfold with_dir; rewrite decide_True by done; by exists now, 0|]. exists root'. split; [done|].
      assert (rt = root) as -> by congruence. assert (segs = parent ++ [n]) as -> by congruence.
      intros p. rewrite Hv, Ho. fold v. unfold with_dir.
      destruct (decide (p = parent ++ [n])) as [->|]; [by rewrite decide_True|]. rewrite decide_False; naive_solver.
    + eapply pends_err; [exact H2|done|]. intros y (_ & rt & Hc1 & Href). assert (rt = root) as -> by congruence.
      unfold refused in Href. rewrite Hp, Ho in Href. fold v in Href. rewrite rev_unit, rev_involutive, Hreach, Ev in Href.
      by destruct Href as [|(_ & _ & [])].
Qed.

(** [v] with an empty directory wherever nothing was along [segs]. *)
Definition with_dirs (now : Z) (v : path → option Stat) (segs p : path) : option Stat :=
  if decide (v p = None ∧ p `prefix_of` segs) then Some (SDir now 0) else v p.

Lemma reach_dirs v pre segs p :
  reach v pre segs = None → p `prefix_of` segs → p ≠ [] → is_dir (v (pre ++ p)).
Proof.
  revert pre p; induction segs as [|n segs IH]; intros pre p Hr Hp Hne.
  { by apply prefix_nil_inv in Hp. }
  cbn [reach] in Hr. destruct p as [|a p]; [done|]. apply prefix_cons_inv_1 in Hp as Ha. subst a.
  apply prefix_cons_inv_2 in Hp. destruct (v (pre ++ [n])) as [[|t fl]|] eqn:E; [done| |done].
  destruct (decide (p = [])) as [->|Hp0]; [by exists t, fl|].
  destruct (IH (pre ++ [n]) p Hr Hp Hp0) as (t' & fl' & E'). exists t', fl'. by rewrite <- app_assoc in E'.
Qed.

Lemma with_dirs_step now v a full p :
  a `prefix_of` full → with_dirs now (with_dir now v a) full p = with_dirs now v full p.
Proof.
  intros Ha. unfold with_dirs, with_dir. destruct (decide (p = a ∧ v p = None)) as [[-> Hn]|Hn].
  - rewrite decide_False by naive_solver. by rewrite decide_True.
  - done.
Qed.
Lemma with_dirs_ext now v w full p : (∀ p, v p = w p) → with_dirs now v full p = with_dirs now w full p.
Proof. intros H. unfold with_dirs. by rewrite H. Qed.
Lemma is_file_with_dir now v a q : is_file (with_dir now v a q) → is_file (v q).
Proof. unfold with_dir. case_decide; [|done]. by intros (? & ? & ? & ? & ?). Qed.

(** All along [pre] is there already. *)
Lemma with_dirs_done now m root pre p :
  root_ok m root → reach (fsview m root) [] pre = None → with_dirs now (fsview m root) pre p = fsview m root p.
Proof.
  intros (es & Ht & _) Hreach. unfold with_dirs. rewrite decide_False; [done|]. intros [Hn Hp].
  destruct (decide (p = [])) as [->|Hne]; [unfold fsview in Hn; by rewrite Ht in Hn|].
  destruct (reach_dirs _ [] pre p Hreach Hp Hne) as (t & fl & E). cbn in E. congruence.
Qed.
Lemma reached_is_dir m root pre : root_ok m root → reach (fsview m root) [] pre = None → is_dir (fsview m root pre).
Proof.
  intros (es & Ht & _) Hreach. destruct (decide (pre = [])) as [->|Hne].
  - exists 0, 0. unfold fsview. by rewrite Ht.
  - by apply (reach_dirs _ [] pre pre).
Qed.
Lemma reach_snoc m root pre n :
  is_dir (fsview m root (pre ++ [n])) → reach (fsview m root) [] (pre ++ [n]) = None.
Proof.
  intros (t & fl & E). assert (H : ∀ a b v q, reach v q (a ++ b) = match reach v q a with None => reach v (q ++ a) b | x => x end).
  { clear. induction a as [|x a IH]; intros b v q; [by rewrite app_nil_r|]. cbn [app reach].
    destruct (v (q ++ [x])) as [[]|]; [done| |done]. by rewrite IH, <- app_assoc. }
  rewrite H, (present_reach m root pre [] n) by (cbn; by rewrite E). cbn [reach app]. by rewrite E.
Qed.

Lemma ensure_loop_spec now rest s root pre :
  fs_ok s → current_root s = Some root → Forall segment (pre ++ rest) → head (pre ++ rest) ≠ Some EXT_ROOT →
  reach (fsview (objects s) root) [] pre = None →
  wp (ensure_loop now rest (zlen pre) (join pre)) (λ r s', ensured s r s' (pre ++ rest) (with_dirs now (fsview (objects s) root) (pre ++ rest))
    (λ x, x = AlreadyExists ∧ ∃ q, q `prefix_of` pre ++ rest ∧ is_file (fsview (objects s) root q))) s.
Proof.
  revert s root pre; induction rest as [|n rest IH]; intros s root pre Hok Hc Hf Hx Hreach; cbn [ensure_loop];
    pose proof Hok as (I & (root0 & Hc0 & Hr) & _); rewrite Hc in Hc0; injection Hc0 as <-;
    set (v := fsview (objects s) root) in *.
  { apply wp_ret. split; [done|]. split; [by apply snapshots_kept_refl|]. split; [done|]. rewrite app_nil_r. split.
    - unfold v. rewrite with_dirs_done by done. by apply reached_is_dir.
    - exists root. split; [done|]. intros p. symmetry. by apply with_dirs_done. }
  assert (Hacc : (if 0 <? zlen pre then join pre ++ [slash] else join pre) ++ n = join (pre ++ [n])).
  { destruct (decide (pre = [])) as [->|Hne]; [done|]. rewrite join_snoc by done. destruct pre; [done|].
    rewrite (proj2 (Z.ltb_lt _ _)) by (rewrite zlen_cons; pose proof (zlen_nonneg pre); lia). by rewrite <- app_assoc. }
  rewrite Hacc. replace (pre ++ n :: rest) with ((pre ++ [n]) ++ rest) in * by (by rewrite <- app_assoc).
  assert (Hp : parse_path (join (pre ++ [n])) = Ok (pre ++ [n])).
  { apply parse_path_join; [by apply Forall_app in Hf as [? _]|]. by destruct pre. }
  apply wp_bind. eapply wp_mono; [by apply (ensure_dir_spec s now _ pre n root)|].
  intros r s1 (Hok1 & Hsk1 & Hsv1 & H1). fold v in H1. destruct r as [[]|x|]; [| |done].
  2:{ split; [done|]. split; [done|]. split; [done|]. eapply pends_err; [exact H1|done|]. intros y [-> Hy]. split; [done|].
      exists (pre ++ [n]). split; [by apply prefix_app_r|done]. }
  destruct H1 as (Hd & root1 & Hc1 & Hv1). replace (zlen pre + 1) with (zlen (pre ++ [n])) by (rewrite zlen_app; done).
  eapply wp_mono; [apply (IH s1 root1); [done..|]; apply reach_snoc; by rewrite Hv1|].
  assert (Hw : ∀ p, with_dirs now (fsview (objects s1) root1) ((pre ++ [n]) ++ rest) p = with_dirs now v ((pre ++ [n]) ++ rest) p).
  { intros p. rewrite (with_dirs_ext _ _ _ _ _ Hv1). apply with_dirs_step. by apply prefix_app_r. }
  intros r s2 (Hok2 & Hsk2 & Hsv2 & H2). split; [done|]. split; [by eapply snapshots_kept_trans|]. split; [by auto|].
  destruct r as [[]|x|]; [| |done].
  - destruct H2 as (Hd2 & root2 & Hc2 & Hv2). rewrite Hw in Hd2. split; [done|]. exists root2. split; [done|].
    intros p. by rewrite Hv2.
  - eapply pends_err; [exact H2|done|]. intros y (-> & q & Hq & Hy). split; [done|]. exists q. split; [done|].
    rewrite Hv1 in Hy. by eapply is_file_with_dir.
Qed.

(** [ensure_dirs] is [mkdir -p].  It ends with a directory at [path], made, with
    those of its parents that were missing, empty and at the current time; nothing
    that was there changes.  It fails only if the path is invalid or a file stands
    along it. *)
Theorem ensure_dirs_makes_the_chain now path s root :
  fs_ok s → current_root s = Some root →
  wp (ensure_dirs now path) (λ r s', match parse_path path with
    | Ok segs => ensured s r s' segs (with_dirs now (fsview (objects s) root) segs)
        (λ x, x = AlreadyExists ∧ ∃ q, q `prefix_of` segs ∧ is_file (fsview (objects s) root q))
    | Err x => r = Err x ∧ s' = s
    | Panic => False
    end) s.
Proof.
  intros Hok Hc. unfold ensure_dirs. apply parse_step; [|by intros ->]. intros segs Hp. rewrite Hp.
  destruct (parse_path_inv _ _ Hp) as (Hf & _ & Hx). by apply (ensure_loop_spec now segs s root []).
Qed.
End fs.

Import RefCodec.
Module FsExample.
Lemma ok0 : fs_ok Example.store0.
Proof.
  split; [apply Example.store_inv|]. split; [exists Example.root0; split; [done|apply Example.root0_ok]|].
  intros r Hr. change (r ∈ [Example.root0]) in Hr. apply list_elem_of_singleton in Hr as ->. apply Example.root0_ok.
Qed.
Definition fs0 : Fs MemObjects := mkFs Example.store0 0 None None 0 [].
End FsExample.

Lemma write_then_read_witness :
  wp (_ ← fs_write 9 (ascii "/a") [x61; x62]; on_store (read_file 1 (λ _, true) (ascii "/a")))
    (λ r f', r = Ok (Some [x61; x62])) FsExample.fs0.
Proof.
  eapply wp_mono; [apply (write_then_read 1 (λ _, true) 9 (ascii "/a") [x61; x62] FsExample.fs0);
    [apply FsExample.ok0|apply Example.serving0|by vm_compute|done]|].
  intros r f' [_ H]. destruct r as [o|x|]; [by subst o| |done]. exfalso. destruct H as (root & Hc & H).
  change (Some Example.root0 = Some root) in Hc. apply (inj Some) in Hc as <-. by apply Example.not_refused in H.
Defined.

Lemma ensure_dirs_makes_the_chain_witness :
  wp (ensure_dirs 9 (ascii "/a")) (λ r s', ∃ root', current_root s' = Some root' ∧
    fsview (objects s') root' [ascii "a"] = Some (SDir 9 0) ∧
    fsview (objects s') root' [ascii "g"] = Some (stat_of Example.g)) Example.store0.
Proof.
  eapply wp_mono; [apply (ensure_dirs_makes_the_chain 9 (ascii "/a") Example.store0 Example.root0); [apply FsExample.ok0|done]|].
  rewrite Example.parse_a. intros r s' (_ & _ & _ & H). destruct r as [[]|x|]; [| |done].
  - destruct H as (_ & root' & Hc & Hv). exists root'. split; [done|]. rewrite !Hv. unfold with_dirs. rewrite !Example.view0.
    split; [by rewrite decide_True|by rewrite decide_False by naive_solver].
  - exfalso. destruct x; try (by destruct H).
    destruct H as (_ & q & Hq & Hf).
    destruct q as [|a q].
    + destruct Hf as (? & ? & ? & ? & E). by rewrite Example.view0 in E.
    + pose proof (prefix_cons_inv_1 _ _ _ _ Hq) as ->. apply prefix_cons_inv_2, prefix_nil_inv in Hq as ->.
      destruct Hf as (? & ? & ? & ? & E). by rewrite Example.view0 in E.
Defined.
