(* ===== verification/Stream.v ===== *)
(** * The streaming writer (storage/npkfs/fs.rs)

    A file fed in pieces of any size: full chunks are stored as they fill, the
    manifest and the path only at the end.  A writer counts as live from [open] to
    its drop, at the end of [finish] or without it. *)

From S2P Require Import Prelude Bytes Format Object BlockStore ObjectStore Superblock Paths Fs ObjectSpec PathsSpec PathsParse PathsRebuild PathsOps PathsTheorems FsSpec FsTheorems.

Record StreamingWriter := mkWriter {
  sw_path : list byte;
  chunk_size : Z;
  buf : list byte;
  chunk_hashes : list addr;
  written : Z }.

Definition STREAM_COMMIT_EVERY : Z := 16.

Section stream.
Context `{!Codec} {S : Type} `{!ObjectStore S}.
Notation MP := (M S PathError).
Notation MF := (M (Fs S) PathError).
Notation MW := (M (Fs S * StreamingWriter) PathError).

Definition on_obj {A} (m : MP A) : MW A := on_fst (on_store m).
Definition writer : MW StreamingWriter := λ fw, (Ok fw.2, fw).
Definition set_writer (w : StreamingWriter) : MW unit := λ fw, (Ok tt, (fw.1, w)).

Definition stream_active (f : Fs S) : bool := 0 <? ACTIVE_STREAMS f.
Definition set_streams (f : Fs S) (n : Z) : Fs S :=
  mkFs (fs_store f) n (LAST_GC f) (ZERO_CHUNK f) (MUTATIONS_SINCE_GC f) (path_changed f).
Definition stream_begin (f : Fs S) : Fs S := set_streams f (u64 (ACTIVE_STREAMS f + 1)).
Definition stream_end (f : Fs S) : Fs S := set_streams f (u64 (ACTIVE_STREAMS f - 1)).

(** [StreamingWriter::written] *)
Definition written_total (w : StreamingWriter) : Z := u64 (written w + zlen (buf w)).

Definition open_streaming_write (path : list byte) (f : Fs S) : Fs S * StreamingWriter :=
  (stream_begin f, mkWriter path STREAMING_CHUNK_SIZE [] [] 0).

Definition push_chunk (w : StreamingWriter) (buf' : list byte) (h : addr) (len : Z) : StreamingWriter :=
  mkWriter (sw_path w) (chunk_size w) buf' (chunk_hashes w ++ [h]) (u64 (written w + len)).

Definition flush_chunk : MW unit :=
  w ← writer;
  if bool_decide (buf w = []) then mret tt
  else
    let chunk_len := zlen (buf w) in
    h ← on_obj (store_piece (buf w));
    _ ← set_writer (push_chunk w [] h chunk_len);
    if (zlen (chunk_hashes w) + 1) `mod` STREAM_COMMIT_EVERY =? 0 then on_obj (lift_fs flush_pending) else mret tt.

(** [while !remaining.is_empty()], at most [fuel] times. *)
Fixpoint write_loop (fuel : nat) (remaining : list byte) : MW unit :=
  match remaining with
  | [] => mret tt
  | _ =>
      match fuel with
      | O => panic
      | Datatypes.S fuel =>
          w ← writer;
          let n := Z.min (u64 (chunk_size w - zlen (buf w))) (zlen remaining) in
          let buf' := buf w ++ take (Z.to_nat n) remaining in
          _ ← set_writer (mkWriter (sw_path w) (chunk_size w) buf' (chunk_hashes w) (written w));
          _ ← (if chunk_size w <=? zlen buf' then flush_chunk else mret tt);
          write_loop fuel (drop (Z.to_nat n) remaining)
      end
  end.
Definition sw_write (data : list byte) : MW unit := write_loop (length data) data.

Definition append_stored_chunk (h : addr) (len : Z) : MW unit :=
  w ← writer;
  if negb (bool_decide (buf w = [])) || (chunk_size w <? len) then fail PCorrupt
  else
    there ← on_obj (total (obj_has h));
    if negb there then fail PCorrupt else set_writer (push_chunk w (buf w) h len).

Definition set_zero (z : option (Z * addr)) : MW unit := λ fw,
  let f := fw.1 in
  (Ok tt, (mkFs (fs_store f) (ACTIVE_STREAMS f) (LAST_GC f) z (MUTATIONS_SINCE_GC f) (path_changed f), fw.2)).
Definition hash_zeros (len : Z) : MW (option addr) :=
  o ← of_opt (blob_content_hash (replicate (Z.to_nat len) x00));
  match o with
  | None => mret None
  | Some h => _ ← set_zero (Some (len, h)); mret (Some h)
  end.
Definition zero_chunk_hash (len : Z) : MW (option addr) :=
  fw ← get;
  match ZERO_CHUNK fw.1 with
  | Some (l, h) => if l =? len then mret (Some h) else hash_zeros len
  | None => hash_zeros len
  end.

Definition append_zero_chunk (len : Z) : MW unit :=
  w ← writer;
  if negb (bool_decide (buf w = [])) || (len =? 0) || (chunk_size w <? len) then fail PCorrupt
  else
    o ← zero_chunk_hash len;
    h ← ok_or PCorrupt o;
    there ← on_obj (total (obj_has h));
    h ← (if negb there then
           '(encoded, stored) ← on_obj (or_corrupt (encode_and_hash (Blob (replicate (Z.to_nat len) x00))));
           _ ← on_obj (lift_fs (obj_put stored encoded));
           mret stored
         else mret h);
    set_writer (push_chunk w (buf w) h len).

Context (now_unix : Z).

(** [finish] up to the writer's drop. *)
Definition finish_body : MW Z :=
  _ ← flush_chunk;
  w ← writer;
  let total_size := written w in
  _ ← set_writer (mkWriter (sw_path w) (chunk_size w) (buf w) [] (written w));
  '(encoded, manifest_hash) ← on_obj (or_corrupt (encode_and_hash (Chunked total_size (chunk_hashes w))));
  there ← on_obj (total (obj_has manifest_hash));
  _ ← (if negb there then on_obj (lift_fs (obj_put manifest_hash encoded)) else mret tt);
  _ ← on_obj (cur ← fs_current_root;
              new_root ← install_chunked_file now_unix cur (sw_path w) manifest_hash total_size;
              commit new_root);
  mret total_size.
Definition sw_drop (fw : Fs S * StreamingWriter) : Fs S := stream_end fw.1.
Definition finish (w : StreamingWriter) : MF Z := λ f,
  let '(r, fw) := finish_body (f, w) in (r, sw_drop fw).
End stream.

(** * A stream publishes what was written (storage/npkfs/fs.rs) *)

#[local] Opaque STREAMING_CHUNK_SIZE.

Lemma chunk_size_bound : 0 < STREAMING_CHUNK_SIZE < 2 ^ 35.
Proof. by vm_compute. Qed.

Section stream.
Context {CD : Codec} {CO : CodecOk} {S : Type} {OS : ObjectStore S} {OK : ObjectStoreOk S}.
Implicit Types (s : S) (f : Fs S) (w : StreamingWriter) (m : gmap addr (list byte)).
Notation MW := (M (Fs S * StreamingWriter) PathError).

(** The writer holds [d]: its chunks, in order, and what is still in the buffer. *)
Definition holds_data m w (d : list byte) : Prop :=
  chunk_size w = STREAMING_CHUNK_SIZE ∧ zlen (buf w) ≤ chunk_size w ∧
  ∃ ds, Forall2 (λ d h, blob_at m h d) ds (chunk_hashes w) ∧ written w = zlen (concat ds) ∧ d = concat ds ++ buf w.

Lemma holds_data_mono m m' w d : m ⊆ m' → holds_data m w d → holds_data m' w d.
Proof.
  intros Hm (? & ? & ds & Hf & ? & ?). split; [done|]. split; [done|]. exists ds. split; [|done].
  eapply Forall2_impl; [done|]. intros x y. by apply blob_at_mono.
Qed.

(** The zero chunk remembered is one. *)
Definition zero_ok f : Prop :=
  ∀ l h, ZERO_CHUNK f = Some (l, h) → blob_content_hash (replicate (Z.to_nat l) x00) = Some (Some h).

(** What a step of a writer leaves alone. *)
Record wstep (fw fw' : Fs S * StreamingWriter) : Prop := {
  ws_grown : ogrown (fs_store fw.1) (fs_store fw'.1);
  ws_streams : ACTIVE_STREAMS fw'.1 = ACTIVE_STREAMS fw.1;
  ws_changed : path_changed fw'.1 = path_changed fw.1;
  ws_zero : zero_ok fw.1 → zero_ok fw'.1;
  ws_path : sw_path fw'.2 = sw_path fw.2 }.

Lemma wstep_refl fw : os_inv (fs_store fw.1) → wstep fw fw.
Proof. intros I. split; [by apply ogrown_refl|done..]. Qed.
Lemma wstep_trans a b c : wstep a b → wstep b c → wstep a c.
Proof. intros [????] [????]. split; [by eapply ogrown_trans|congruence|congruence|auto|congruence]. Qed.
Lemma wstep_store f w s w' : ogrown (fs_store f) s → sw_path w' = sw_path w → wstep (f, w) (set_store f s, w').
Proof. by split. Qed.

Lemma wp_on_obj {A} (p : M S PathError A) (Q : res PathError A → Fs S * StreamingWriter → Prop) f w :
  wp p (λ r s', Q r (set_store f s', w)) (fs_store f) → wp (on_obj p) Q (f, w).
Proof. intros H. apply wp_on_fst, wp_on_store. exact H. Qed.
Lemma wp_writer (Q : res PathError StreamingWriter → Fs S * StreamingWriter → Prop) f w : Q (Ok w) (f, w) → wp writer Q (f, w).
Proof. done. Qed.
Lemma wp_set_writer w' (Q : res PathError unit → Fs S * StreamingWriter → Prop) f w : Q (Ok tt) (f, w') → wp (set_writer w') Q (f, w).
Proof. done. Qed.

(** One more chunk. *)
Lemma push_holds m w ds c h :
  chunk_size w = STREAMING_CHUNK_SIZE → Forall2 (λ d h, blob_at m h d) ds (chunk_hashes w) →
  written w = zlen (concat ds) → blob_at m h c → zlen (concat ds ++ c) < 2 ^ 64 →
  holds_data m (push_chunk w [] h (zlen c)) (concat ds ++ c).
Proof.
  intros Hc Hf Hw Hblob Hlen. pose proof chunk_size_bound. split; [done|]. split; [cbn; rewrite zlen_nil; lia|].
  exists (ds ++ [c]). split; [|split].
  - apply Forall2_app; [done|]. by constructor.
  - cbn [push_chunk written]. rewrite Hw, concat_app. cbn [concat]. rewrite app_nil_r, zlen_app.
    rewrite zlen_app in Hlen. pose proof (zlen_nonneg c). pose proof (zlen_nonneg (concat ds)).
    apply wrap_small. unfold fits. lia.
  - rewrite concat_app. cbn [concat push_chunk buf]. by rewrite !app_nil_r.
Qed.

(** A step of the writer ends with [d] held, or in an error the store explains, or in
    one of [Q]. *)
Definition wends {A} (fw fw' : Fs S * StreamingWriter) (r : res PathError A) (d : list byte) (Q : PathError → Prop) : Prop :=
  wstep fw fw' ∧ pends (serving (fs_store fw.1)) r (λ _, holds_data (objects (fs_store fw'.1)) fw'.2 d) Q.

Lemma wends_trans {A} a b c (r : res PathError A) d (Q Q' : PathError → Prop) :
  wstep a b → wends b c r d Q → (∀ x, Q x → Q' x) → wends a c r d Q'.
Proof.
  intros Hab [Hbc Hr] HQ. split; [by eapply wstep_trans|]. destruct r as [v|x|]; [done| |done].
  eapply pends_err; [exact Hr| |done]. apply (grown_serving _ _ _ _ _ _ _ (ws_grown _ _ Hab)).
Qed.

Lemma flush_chunk_spec f w d :
  fs_ok (fs_store f) → holds_data (objects (fs_store f)) w d → zlen d < 2 ^ 64 →
  wp flush_chunk (λ r fw', wends (f, w) fw' r d (λ _, False) ∧ (r = Ok tt → buf fw'.2 = [])) (f, w).
Proof.
  intros Hok (Hc & Hb & ds & Hf & Hw & ->) Hlen. pose proof Hok as (I & _ & _). unfold flush_chunk.
  apply wp_bind, wp_writer. case_bool_decide as E.
  { apply wp_ret. split; [|done]. split; [by apply wstep_refl|]. split; [done|]. split; [done|]. by exists ds. }
  pose proof chunk_size_bound as Hsz. apply wp_bind, wp_on_obj.
  eapply wp_mono; [apply store_piece_spec; [done|]; rewrite Hc in Hb; lia|]. intros r s1 [Hg H1].
  destruct r as [h|x|]; [| |done].
  2:{ split; [|done]. split; [by apply wstep_store|]. by destruct x. }
  simpl in H1. set (w' := push_chunk w [] h (zlen (buf w))).
  assert (Hh : holds_data (objects s1) w' (concat ds ++ buf w)).
  { apply push_holds; [done| |done|done|done]. eapply Forall2_impl; [done|]. intros x y. apply blob_at_mono.
    apply (grown_objects _ _ _ _ _ _ _ Hg). }
  apply wp_bind, wp_set_writer. destruct (_ =? 0).
  2:{ apply wp_ret. split; [|done]. by split; [apply wstep_store|]. }
  apply wp_on_obj, wp_lift_fs. cbn [fs_store set_store].
  pose proof (fs_ok_grown _ _ Hok Hg) as (I1 & (root & Hroot & _) & _).
  eapply wp_mono; [apply flush_pending_spec; [done|by eexists]|]. intros r s2 [Hk H2].
  change (set_store (set_store f s1) s2) with (set_store f s2).
  assert (Hg2 : ogrown (fs_store f) s2) by (eapply ogrown_trans; [done|by apply okept_grown]).
  pose proof (kept_objects _ _ _ _ _ _ _ Hk) as Ho.
  destruct r as [[]|x|]; simpl in H2; [| |done].
  - split; [|done]. split; [by apply wstep_store|]. cbn [pends fst snd fs_store set_store]. by rewrite Ho.
  - split; [|done]. split; [by apply wstep_store|]. intros Hs. apply H2. by apply (grown_serving _ _ _ _ _ _ _ Hg).
Qed.

Lemma zlen_take_drop {A} (l : list A) n : 0 ≤ n ≤ zlen l → zlen (take (Z.to_nat n) l) = n ∧ zlen (drop (Z.to_nat n) l) = zlen l - n.
Proof. unfold zlen. intros. rewrite length_take, length_drop. lia. Qed.

Lemma write_loop_spec fuel rem f w d :
  fs_ok (fs_store f) → holds_data (objects (fs_store f)) w d → zlen (buf w) < chunk_size w →
  (length rem ≤ fuel)%nat → zlen (d ++ rem) < 2 ^ 64 →
  wp (write_loop fuel rem) (λ r fw', wends (f, w) fw' r (d ++ rem) (λ _, False) ∧
    (r = Ok tt → zlen (buf fw'.2) < chunk_size fw'.2)) (f, w).
Proof.
  revert rem f w d; induction fuel as [|fuel IH]; intros rem f w d Hok Hh Hopen Hfuel Hlen;
    (destruct rem as [|x rem0]; [rewrite app_nil_r; apply wp_ret; split; [|done]; split; [apply wstep_refl; apply Hok|done]|]).
  { simpl in Hfuel. lia. }
  set (rem := x :: rem0) in *. cbn [write_loop]. apply wp_bind, wp_writer.
  pose proof Hh as (Hc & Hb & ds & Hf & Hw & ->). pose proof chunk_size_bound as Hsz. pose proof (zlen_nonneg (buf w)).
  assert (Hrem : 0 < zlen rem) by (unfold rem; rewrite zlen_cons; pose proof (zlen_nonneg rem0); lia).
  rewrite wrap_small by (unfold fits; rewrite Hc; change (2 ^ 64) with 18446744073709551616; change (2 ^ 35) with 34359738368 in Hsz; lia).
  set (n := Z.min (chunk_size w - zlen (buf w)) (zlen rem)). assert (Hn : 0 < n ≤ zlen rem) by lia.
  destruct (zlen_take_drop rem n ltac:(lia)) as [Ht Hd].
  set (w1 := mkWriter _ _ _ _ _). apply wp_bind, wp_set_writer.
  assert (Hsplit : (concat ds ++ buf w) ++ rem = (concat ds ++ buf w1) ++ drop (Z.to_nat n) rem).
  { cbn [w1 buf]. rewrite <- !app_assoc. by rewrite take_drop. }
  assert (Hh1 : holds_data (objects (fs_store f)) w1 (concat ds ++ buf w1)).
  { split; [done|]. split; [cbn [w1 buf chunk_size]; rewrite zlen_app; lia|]. by exists ds. }
  rewrite Hsplit in Hlen |- *. pose proof (zlen_nonneg (drop (Z.to_nat n) rem)). rewrite zlen_app in Hlen.
  assert (Hfuel' : (length (drop (Z.to_nat n) rem) ≤ fuel)%nat) by (rewrite length_drop; unfold rem in *; cbn [length] in *; lia).
  apply wp_bind. destruct (Z.leb_spec (chunk_size w) (zlen (buf w ++ take (Z.to_nat n) rem))) as [Hfull|Hfull].
  - eapply wp_mono; [apply (flush_chunk_spec f w1); [done|done|lia]|]. intros r [f2 w2] [[Hs H1] He].
    assert (Hs' : wstep (f, w) (f2, w2)) by (by destruct Hs; split).
    destruct r as [[]|y|]; [|split; [|done]; split; [done|]; by destruct y|done].
    cbn [pends fst snd] in H1. specialize (He eq_refl). cbn [snd] in He.
    eapply wp_mono; [apply (IH _ f2 w2); [eapply fs_ok_grown; [exact Hok|apply Hs]|exact H1| |done|rewrite zlen_app; lia]|].
    + rewrite He, zlen_nil. destruct H1 as (-> & _). lia.
    + intros r [f3 w3] [H2 H3]. split; [|done]. by eapply wends_trans.
  - apply wp_ret. eapply wp_mono; [apply (IH _ f w1); [done|done|exact Hfull|done|rewrite zlen_app; lia]|].
    intros r fw [H2 H3]. split; [|done]. eapply wends_trans; [|exact H2|done]. split; [apply ogrown_refl; apply Hok|done..].
Qed.

Lemma sw_write_spec f w d data :
  fs_ok (fs_store f) → holds_data (objects (fs_store f)) w d → zlen (buf w) < chunk_size w → zlen (d ++ data) < 2 ^ 64 →
  wp (sw_write data) (λ r fw', wends (f, w) fw' r (d ++ data) (λ _, False) ∧
    (r = Ok tt → zlen (buf fw'.2) < chunk_size fw'.2)) (f, w).
Proof. intros. by apply write_loop_spec. Qed.

Lemma append_stored_chunk_spec f w d h c :
  fs_ok (fs_store f) → holds_data (objects (fs_store f)) w d → blob_at (objects (fs_store f)) h c → zlen (d ++ c) < 2 ^ 64 →
  wp (append_stored_chunk h (zlen c)) (λ r fw', wends (f, w) fw' r (d ++ c) (λ x, x = PCorrupt) ∧ (r = Ok tt → buf fw'.2 = [])) (f, w).
Proof.
  intros Hok (Hc & Hb & ds & Hf & Hw & ->) Hblob Hlen. pose proof Hok as (I & _). unfold append_stored_chunk.
  apply wp_bind, wp_writer. case_bool_decide as E; cbn [negb orb].
  2:{ apply wp_fail. split; [|done]. by split; [apply wstep_refl|]. }
  destruct (chunk_size w <? zlen c); [apply wp_fail; split; [|done]; by split; [apply wstep_refl|]|].
  apply wp_bind, wp_on_obj, wp_total. destruct (obj_has_spec (fs_store f) h I) as [Hk _].
  destruct (obj_has h (fs_store f)) as [there s1]. cbn [fst snd] in *. pose proof (okept_grown _ _ Hk) as Hg.
  destruct there; cbn [negb]; [|apply wp_fail; split; [|done]; by split; [apply wstep_store|]].
  apply wp_set_writer. split; [|by cbn]. split; [by apply wstep_store|]. cbn [pends fst snd fs_store set_store].
  rewrite E, app_nil_r in *. rewrite (kept_objects _ _ _ _ _ _ _ Hk). by apply push_holds.
Qed.

Lemma hash_zeros_spec f w n :
  0 ≤ n → n < 2 ^ 35 →
  wp (hash_zeros n) (λ r fw', ∃ h, r = Ok (Some h) ∧ blob_content_hash (replicate (Z.to_nat n) x00) = Some (Some h) ∧
    fw' = (mkFs (fs_store f) (ACTIVE_STREAMS f) (LAST_GC f) (Some (n, h)) (MUTATIONS_SINCE_GC f) (path_changed f), w)) (f, w).
Proof.
  intros Hn Hb. destruct (blob_address (replicate (Z.to_nat n) x00)) as (b & h & _ & _ & _ & Hc & _); [rewrite zlen_replicate; lia|].
  unfold hash_zeros. apply wp_bind. eapply wp_of_opt; [done|]. by exists h.
Qed.

Lemma zero_chunk_hash_spec f w n :
  zero_ok f → os_inv (fs_store f) → 0 ≤ n → n < 2 ^ 35 →
  wp (zero_chunk_hash n) (λ r fw', ∃ h, r = Ok (Some h) ∧ blob_content_hash (replicate (Z.to_nat n) x00) = Some (Some h) ∧
    fw'.2 = w ∧ fs_store fw'.1 = fs_store f ∧ wstep (f, w) fw') (f, w).
Proof.
  intros Hz I Hn Hb. unfold zero_chunk_hash. apply wp_bind. unfold wp at 1, get. cbn [fst].
  assert (Hhash : wp (hash_zeros n) (λ r fw', ∃ h, r = Ok (Some h) ∧ blob_content_hash (replicate (Z.to_nat n) x00) = Some (Some h) ∧
    fw'.2 = w ∧ fs_store fw'.1 = fs_store f ∧ wstep (f, w) fw') (f, w)).
  { eapply wp_mono; [by apply hash_zeros_spec|]. intros r fw (h & -> & Hh & ->). exists h. split; [done|]. split; [done|].
    split; [done|]. split; [done|]. split; [by apply ogrown_refl|done|done| |done]. intros _ l h' [= <- <-]. done. }
  destruct (ZERO_CHUNK f) as [[l h]|] eqn:E; [|done]. destruct (Z.eqb_spec l n) as [->|]; [|done].
  apply wp_ret. exists h. split; [done|]. split; [by apply Hz|]. split; [done|]. split; [done|]. by apply wstep_refl.
Qed.

Lemma append_zero_chunk_spec f w d n :
  fs_ok (fs_store f) → zero_ok f → holds_data (objects (fs_store f)) w d → 0 ≤ n →
  zlen (d ++ replicate (Z.to_nat n) x00) < 2 ^ 64 →
  wp (append_zero_chunk n) (λ r fw', wends (f, w) fw' r (d ++ replicate (Z.to_nat n) x00) (λ x, x = PCorrupt) ∧
    (r = Ok tt → buf fw'.2 = [])) (f, w).
Proof.
  intros Hok Hz (Hc & Hb & ds & Hf & Hw & ->) Hn Hlen. pose proof Hok as (I & _). pose proof chunk_size_bound as Hsz.
  set (zs := replicate (Z.to_nat n) x00) in *. assert (Hzs : zlen zs = n) by (unfold zs; rewrite zlen_replicate; lia).
  unfold append_zero_chunk. apply wp_bind, wp_writer. case_bool_decide as E; cbn [negb orb].
  2:{ apply wp_fail. split; [|done]. by split; [apply wstep_refl|]. }
  destruct (n =? 0); cbn [orb]; [apply wp_fail; split; [|done]; by split; [apply wstep_refl|]|].
  destruct (Z.ltb_spec (chunk_size w) n) as [|Hle]; [apply wp_fail; split; [|done]; by split; [apply wstep_refl|]|].
  apply wp_bind. eapply wp_mono; [apply zero_chunk_hash_spec; [done|done|done|lia]|].
  intros r [f1 w1] (h & -> & Hh & Hw1 & Hst & Hs1). cbn [fst snd] in *. subst w1. apply wp_bind, wp_ret.
  destruct (blob_address zs) as (b & h' & _ & He & _ & Hch & Ha & Heh); [lia|].
  assert (h' = h) as -> by (fold zs in Hh; congruence).
  apply wp_bind, wp_on_obj, wp_total. rewrite Hst. destruct (obj_has_spec (fs_store f) h I) as [Hk Hhas].
  destruct (obj_has h (fs_store f)) as [there s2]. cbn [fst snd] in *. pose proof (okept_grown _ _ Hk) as Hg.
  pose proof (kept_objects _ _ _ _ _ _ _ Hk) as Ho.
  assert (Hs2 : ∀ s' w', ogrown (fs_store f) s' → sw_path w' = sw_path w → wstep (f, w) (set_store f1 s', w')).
  { intros s' w' Hgs Hp. destruct Hs1. by split. }
  assert (Hend : ∀ s', ogrown (fs_store f) s' → objects s' !! h = Some b →
    wp (set_writer (push_chunk w (buf w) h n)) (λ r fw', wends (f, w) fw' r (concat ds ++ buf w ++ zs) (λ x, x = PCorrupt) ∧
      (r = Ok tt → buf fw'.2 = [])) (set_store f1 s', w)).
  { intros s' Hgs Hl. apply wp_set_writer. split; [|by cbn]. split; [by apply Hs2|]. cbn [pends fst snd fs_store set_store].
    rewrite E, app_nil_l in *. rewrite <- Hzs. apply push_holds; [done| |done| |by rewrite app_nil_r in Hlen].
    - eapply Forall2_impl; [done|]. intros x y. apply blob_at_mono, (grown_objects _ _ _ _ _ _ _ Hgs).
    - split; [lia|]. by exists b. }
  rewrite <- app_assoc. apply wp_bind. destruct there; cbn [negb].
  - apply wp_ret, Hend; [done|]. destruct (Hhas eq_refl) as [b' Hb'].
    assert (b' = b) as -> by (eapply address_inj; [by eapply objects_addressed|done]). by rewrite Ho.
  - apply wp_bind, wp_on_obj. eapply wp_or_corrupt; [done|]. apply wp_bind, wp_on_obj. cbn [fs_store set_store].
    eapply wp_mono; [apply (obj_put_puts h b Ha); by destruct Hk|]. intros r s3 [Hg3 H3].
    change (set_store (set_store (set_store f1 s2) s2) s3) with (set_store f1 s3).
    assert (Hg' : ogrown (fs_store f) s3) by (by eapply ogrown_trans).
    destruct r as [[]|x|]; [| |done].
    + apply wp_ret. simpl in H3. apply Hend; [done|]. by rewrite H3, lookup_insert_eq.
    + split; [|done]. split; [by apply Hs2|]. eapply pends_err; [exact H3|by destruct Hg|done].
Qed.

(** ** The whole stream *)
Lemma publish_spec s now path h d :
  fs_ok s → fits 64 (zlen d) → file_content (objects s) h d →
  wp (cur ← fs_current_root; new ← install_chunked_file now cur path h (zlen d); commit new)
     (λ r s', changed s r s' (λ m' root root', wrote (objects s) m' root root' path d now)
        (λ root, refused (fsview (objects s) root) path File true)) s.
Proof.
  intros Hok Hf Hc. apply change_spec; [done|]. intros root Hroot Hr.
  eapply wp_mono; [apply with_snapshots, (install_chunked_file_spec s s); [apply ogrown_refl; apply Hok|done..]|].
  intros r s1 (Hg & Hk & H1). split; [done|]. split; [done|]. destruct r as [root'|x|]; [|done|done].
  split; [by eapply wrote_root_ok|done].
Qed.

(** The current root now shows [d] at [path], or, the publication refused, is the same. *)
Definition published s (r : res PathError Z) s' (path d : list byte) (now : Z) (Q : PathError → Prop) : Prop :=
  fs_ok s' ∧ snapshots_kept (objects s) (objects s') ∧
  pends (serving s) r
    (λ n, n = zlen d ∧ ∃ root root', current_root s = Some root ∧ current_root s' = Some root' ∧
       wrote (objects s) (objects s') root root' path d now)
    (λ x, current_root s' = current_root s ∧
       (Q x ∨ ∃ root, current_root s = Some root ∧ refused (fsview (objects s) root) path File true x)).

Lemma refused_ext v v' path k replace x : (∀ p, v p = v' p) → refused v path k replace x → refused v' path k replace x.
Proof.
  intros Hv. unfold refused. destruct (parse_path path) as [segs| |]; [|done|done].
  destruct (rev segs) as [|n parent]; [done|]. by rewrite (reach_ext v v'), Hv.
Qed.

Lemma published_grown s0 s r s' path d now Q :
  fs_ok s0 → ogrown s0 s → published s r s' path d now Q → published s0 r s' path d now Q.
Proof.
  intros (_ & (root & Hc & Hr) & _) Hg (Hok & Hsk & Hp). pose proof (grown_snapshots_kept _ _ Hg) as Hsk0.
  pose proof (grown_root _ _ _ _ _ _ _ Hg) as Hcr. destruct (Hsk0 root Hr) as [_ Hv].
  split; [done|]. split; [by eapply snapshots_kept_trans|]. destruct r as [n|x|]; [| |done].
  - destruct Hp as (-> & rt & root' & Hrt & Hr' & (segs & h & fl & Hps & Hok' & Hcont & Hv')). split; [done|].
    exists rt, root'. rewrite Hcr in Hrt. split; [done|]. split; [done|]. exists segs, h, fl. split; [done|]. split; [done|].
    split; [done|]. intros p. assert (rt = root) as -> by congruence. by rewrite Hv', Hv.
  - eapply pends_err; [exact Hp|by destruct Hg|]. intros y (Hc' & Hy). split; [congruence|]. destruct Hy as [Hy|(rt & Hrt & Hy)]; [by left|right].
    rewrite Hcr in Hrt. exists rt. split; [done|]. eapply refused_ext; [|exact Hy]. intros p.
    assert (rt = root) as -> by congruence. by rewrite Hv.
Qed.

(** An error before the publication. *)
Lemma published_err s s' x path d now (Q : PathError → Prop) :
  fs_ok s → ogrown s s' → pends (serving s) (Err x) (λ _ : unit, True) Q → published s (Err x) s' path d now Q.
Proof.
  intros Hok Hg Hx. split; [by eapply fs_ok_grown|]. split; [by apply grown_snapshots_kept|].
  eapply pends_err; [exact Hx|done|]. intros y Hy. split; [apply (grown_root _ _ _ _ _ _ _ Hg)|by left].
Qed.

Lemma publish_step f w now path h d :
  fs_ok (fs_store f) → fits 64 (zlen d) → file_content (objects (fs_store f)) h d →
  wp (_ ← on_obj (cur ← fs_current_root; new ← install_chunked_file now cur path h (zlen d); commit new); mret (zlen d))
     (λ r fw', ACTIVE_STREAMS fw'.1 = ACTIVE_STREAMS f ∧ published (fs_store f) r (fs_store fw'.1) path d now (λ _, False)) (f, w).
Proof.
  intros Hok Hf Hc. apply wp_bind, wp_on_obj. eapply wp_mono; [by apply publish_spec|].
  intros r s1 (Hok1 & Hsk & _ & H1). destruct r as [[]|x|]; [| |done].
  - apply wp_ret. split; [done|]. split; [done|]. split; [done|]. by split.
  - split; [done|]. split; [done|]. split; [done|]. eapply pends_err; [exact H1|done|]. intros y [? Hy]. split; [done|by right].
Qed.

Lemma finish_body_spec now f w d :
  fs_ok (fs_store f) → holds_data (objects (fs_store f)) w d → fits 64 (zlen d) →
  wp (finish_body now) (λ r fw', ACTIVE_STREAMS fw'.1 = ACTIVE_STREAMS f ∧
    published (fs_store f) r (fs_store fw'.1) (sw_path w) d now (λ _, False)) (f, w).
Proof.
  intros Hok Hh Hf. unfold finish_body. apply wp_bind.
  eapply wp_mono; [apply flush_chunk_spec; [done|done|apply Hf]|]. intros r [f1 w1] [[Hs1 H1] He].
  destruct Hs1 as [Hg1 Ha1 _ _ Hp1]. cbn [fst snd] in *. pose proof (fs_ok_grown _ _ Hok Hg1) as Hok1.
  destruct r as [[]|x|]; [|split; [done|]; apply published_err; [done|done|by destruct x]|done].
  specialize (He eq_refl). destruct H1 as (Hc & _ & ds & Hf2 & Hw & Hd). cbn [snd fst] in *. rewrite He, app_nil_r in Hd.
  apply wp_bind, wp_writer, wp_bind, wp_set_writer. rewrite Hw, <- Hd.
  destruct (encode_and_hash_ok (Chunked (zlen d) (chunk_hashes w1))) as (b & h & Heh & Hb & Hh1); [done|].
  apply wp_bind, wp_on_obj. eapply wp_or_corrupt; [done|]. apply wp_bind, wp_on_obj, wp_total. cbn [fs_store set_store].
  pose proof Hok1 as (I1 & _). destruct (obj_has_spec (fs_store f1) h I1) as [Hk Hhas].
  destruct (obj_has h (fs_store f1)) as [there s2]. cbn [fst snd] in *. pose proof (okept_grown _ _ Hk) as Hg2.
  pose proof (kept_objects _ _ _ _ _ _ _ Hk) as Ho. set (w2 := mkWriter _ _ _ _ _). rewrite <- Hp1.
  assert (Hend : ∀ s3, ogrown (fs_store f1) s3 → objects s3 !! h = Some b →
    wp (_ ← on_obj (cur ← fs_current_root; new ← install_chunked_file now cur (sw_path w1) h (zlen d); commit new); mret (zlen d))
     (λ r fw', ACTIVE_STREAMS fw'.1 = ACTIVE_STREAMS f ∧
        published (fs_store f) r (fs_store fw'.1) (sw_path w1) d now (λ _, False)) (set_store f1 s3, w2)).
  { intros s3 Hg3 Hl. assert (Hg : ogrown (fs_store f) s3) by (by eapply ogrown_trans).
    eapply wp_mono; [apply (publish_step (set_store f1 s3)); [by eapply fs_ok_grown|done|]|].
    - right. exists b, (chunk_hashes w1), ds. split; [done|]. split; [done|]. split; [done|].
      eapply Forall2_impl; [done|]. intros x y. apply blob_at_mono, (grown_objects _ _ _ _ _ _ _ Hg3).
    - intros r fw [Ha Hpub]. split; [by rewrite Ha|]. by eapply published_grown. }
  apply wp_bind. destruct there; cbn [negb].
  - apply wp_ret, Hend; [done|]. destruct (Hhas eq_refl) as [b' Hb'].
    assert (b' = b) as -> by (eapply address_inj; [by eapply objects_addressed|done]). by rewrite Ho.
  - apply wp_on_obj. cbn [fs_store set_store]. eapply wp_mono; [apply (obj_put_puts h b Hh1); by destruct Hk|].
    intros r s3 [Hg3 H3]. assert (Hg' : ogrown (fs_store f1) s3) by (by eapply ogrown_trans).
    destruct r as [[]|x|]; [| |done].
    + simpl in H3. apply Hend; [done|]. by rewrite H3, lookup_insert_eq.
    + split; [done|]. apply published_err; [done|by eapply ogrown_trans|]. eapply pends_err; [exact H3| |done].
      intros Hsv. apply (grown_serving _ _ _ _ _ _ _ Hg2), (grown_serving _ _ _ _ _ _ _ Hg1), Hsv.
Qed.

(** What a client may append: bytes, a run of zeros, a chunk already stored. *)
Inductive Piece := PBytes (d : list byte) | PZeros (n : Z) | PStored (h : addr) (c : list byte).
Definition piece_bytes (p : Piece) : list byte :=
  match p with PBytes d => d | PZeros n => replicate (Z.to_nat n) x00 | PStored _ c => c end.
Definition piece_ok m (p : Piece) : Prop :=
  match p with PBytes _ => True | PZeros n => 0 ≤ n | PStored h c => blob_at m h c end.
Definition append_piece (p : Piece) : MW unit :=
  match p with PBytes d => sw_write d | PZeros n => append_zero_chunk n | PStored h c => append_stored_chunk h (zlen c) end.
Fixpoint feed (ps : list Piece) : MW unit :=
  match ps with [] => mret tt | p :: ps => _ ← append_piece p; feed ps end.
(** A chunk appended whole may be refused. *)
Definition whole_chunk (ps : list Piece) : Prop := ∃ p, p ∈ ps ∧ ∀ d, p ≠ PBytes d.

Lemma append_piece_spec f w d p :
  fs_ok (fs_store f) → zero_ok f → holds_data (objects (fs_store f)) w d → zlen (buf w) < chunk_size w →
  piece_ok (objects (fs_store f)) p → zlen (d ++ piece_bytes p) < 2 ^ 64 →
  wp (append_piece p) (λ r fw', wends (f, w) fw' r (d ++ piece_bytes p) (λ x, x = PCorrupt ∧ ∀ d, p ≠ PBytes d) ∧
    (r = Ok tt → zlen (buf fw'.2) < chunk_size fw'.2)) (f, w).
Proof.
  intros Hok Hz Hh Hopen Hp Hlen. pose proof chunk_size_bound as Hsz.
  assert (Hempty : ∀ Q fw' (r : res PathError unit) x, wends (f, w) fw' r x Q ∧ (r = Ok tt → buf fw'.2 = []) →
    (∀ y, Q y → y = PCorrupt ∧ ∀ d, p ≠ PBytes d) →
    wends (f, w) fw' r x (λ x, x = PCorrupt ∧ ∀ d, p ≠ PBytes d) ∧ (r = Ok tt → zlen (buf fw'.2) < chunk_size fw'.2)).
  { intros Q fw' r x [[Hs Hr] He] HQ. split; [split; [done|]|].
    - destruct r as [[]|y|]; [done| |done]. eapply pends_err; [exact Hr|done|done].
    - intros ->. rewrite (He eq_refl), zlen_nil. simpl in Hr. destruct Hr as (-> & _). lia. }
  destruct p as [data|n|h c]; cbn [append_piece piece_bytes piece_ok] in *.
  - eapply wp_mono; [by apply sw_write_spec|]. intros r fw' [[Hs Hr] Ho]. split; [split; [done|]|done].
    destruct r as [[]|y|]; [done| |done]. by eapply pends_err.
  - eapply wp_mono; [by apply (append_zero_chunk_spec f w d n)|]. intros r fw' H. eapply Hempty; [exact H|]. by intros y ->.
  - eapply wp_mono; [by apply (append_stored_chunk_spec f w d h c)|]. intros r fw' H. eapply Hempty; [exact H|]. by intros y ->.
Qed.

Lemma feed_spec ps f w d :
  fs_ok (fs_store f) → zero_ok f → holds_data (objects (fs_store f)) w d → zlen (buf w) < chunk_size w →
  Forall (piece_ok (objects (fs_store f))) ps → zlen (d ++ concat (piece_bytes <$> ps)) < 2 ^ 64 →
  wp (feed ps) (λ r fw', wends (f, w) fw' r (d ++ concat (piece_bytes <$> ps)) (λ x, x = PCorrupt ∧ whole_chunk ps)) (f, w).
Proof.
  revert f w d; induction ps as [|p ps IH]; intros f w d Hok Hz Hh Hopen Hps Hlen; cbn [feed fmap list_fmap concat] in *.
  { rewrite app_nil_r. apply wp_ret. split; [apply wstep_refl; apply Hok|done]. }
  apply Forall_cons in Hps as [Hp Hps]. rewrite app_assoc in *.
  apply wp_bind. eapply wp_mono; [apply (append_piece_spec f w d p); [done..|]|].
  { rewrite zlen_app in Hlen. pose proof (zlen_nonneg (concat (piece_bytes <$> ps))). lia. }
  intros r [f1 w1] [[Hs Hr] Ho]. destruct r as [[]|x|]; [| |done].
  - simpl in Hr. pose proof (ws_grown _ _ Hs) as Hg. cbn [fst] in Hg.
    eapply wp_mono; [apply (IH f1 w1); [by eapply fs_ok_grown|by apply (ws_zero _ _ Hs)|done|by apply Ho| |done]|].
    + eapply Forall_impl; [done|]. intros [| |h c]; [done|done|]. apply blob_at_mono, (grown_objects _ _ _ _ _ _ _ Hg).
    + intros r fw' H. eapply wends_trans; [exact Hs|exact H|]. intros x (-> & q & Hq & Hnb). split; [done|].
      exists q. split; [by apply elem_of_cons; right|done].
  - split; [done|]. eapply pends_err; [exact Hr|done|]. intros y [-> Hnb]. split; [done|]. exists p. split; [by apply elem_of_cons; left|done].
Qed.

(** A stream from open to its end. *)
Definition stream_file (now : Z) (path : list byte) (ps : list Piece) : M (Fs S) PathError Z := λ f,
  match feed ps (open_streaming_write path f) with
  | (Ok _, (f', w)) => finish now w f'
  | (Err x, fw) => (Err x, sw_drop fw)
  | (Panic, fw) => (Panic, sw_drop fw)
  end.

End stream.

Import RefCodec.
