(* ===== verification/Gc.v ===== *)
(** * Garbage collection (storage/npkfs/fs.rs, [gc])

    Mark every object a superblock slot's root reaches, then remove the rest.
    [ROOT_MUTEX] is held throughout, so no change of the tree runs meanwhile; the
    second look at the stream counter sees a value of its own.  The [HashSet] is a
    finite set; the work list is written with its end, where [Vec] pushes and pops,
    at the head. *)

From S2P Require Import Prelude Bytes Format Object BlockStore ObjectStore Superblock Paths Fs Stream ObjectSpec PathsSpec PathsRebuild PathsTheorems FsSpec FsTheorems PathsParse.

Record GcStats := mkGcStats { kept_count : Z; removed_count : Z; skipped : bool }.

Section gc.
Context `{!Codec} {S : Type} `{!ObjectStore S}.
Notation MP := (M S PathError).
Notation MF := (M (Fs S) PathError).

(** [Ok(Some(entries))], [Ok(None)] or [Err(())], the last as [None]. *)
Definition read_tree_for_gc (h : addr) : MP (option (option (list TreeEntry))) :=
  held ← total (tree_get h);
  r ← match held with
      | Some b => mret (inl (Some b))
      | None => catch (lift_fs (obj_get h))
      end;
  match r with
  | inr _ => mret None
  | inl None => mret (Some None)
  | inl (Some bytes) =>
      mret (match decode bytes with Ok (Tree entries) => Some (Some entries) | _ => Some None end)
  end.

Fixpoint mark_chunks (chunks : list addr) (reachable : gset addr) : gset addr :=
  match chunks with
  | [] => reachable
  | c :: chunks => mark_chunks chunks (if bool_decide (c = EMPTY_ROOT) then reachable else {[c]} ∪ reachable)
  end.

(** The set, and whether the object could be read. *)
Definition mark_file_object (h : addr) (reachable : gset addr) : MP (gset addr * bool) :=
  r ← catch (lift_fs (obj_get h));
  match r with
  | inr _ => mret (reachable, false)
  | inl None => mret (reachable, true)
  | inl (Some bytes) =>
      mret (match decode bytes with
            | Ok (Chunked _ chunks) => (mark_chunks chunks reachable, true)
            | Ok _ => (reachable, true)
            | _ => (reachable, false)
            end)
  end.

(** [for e in entries] *)
Fixpoint mark_entries (entries : list TreeEntry) (work : list addr) (reachable : gset addr) (incomplete : bool) :
    MP (list addr * gset addr * bool) :=
  match entries with
  | [] => mret (work, reachable, incomplete)
  | e :: entries =>
      if bool_decide (t_hash e = EMPTY_ROOT) then mark_entries entries work reachable incomplete
      else
        match t_kind e with
        | Dir => mark_entries entries (t_hash e :: work) reachable incomplete
        | File =>
            let reachable := {[t_hash e]} ∪ reachable in
            let chunked := negb (Z.land (t_flags e) FLAG_CHUNKED =? 0) in
            let known := negb (Z.land (t_flags e) FLAG_BLOB =? 0) in
            if chunked || negb known then
              '(reachable, read) ← mark_file_object (t_hash e) reachable;
              mark_entries entries work reachable (if read : bool then incomplete else true)
            else mark_entries entries work reachable incomplete
        end
  end.

(** [while let Some(hash) = tree_work.pop()], at most [fuel] times. *)
Fixpoint mark_loop (fuel : nat) (work : list addr) (reachable : gset addr) (incomplete : bool) : MP (gset addr * bool) :=
  match fuel with
  | O => panic
  | Datatypes.S fuel =>
      match work with
      | [] => mret (reachable, incomplete)
      | h :: work =>
          if bool_decide (h = EMPTY_ROOT) then mark_loop fuel work reachable incomplete
          else if bool_decide (h ∈ reachable) then mark_loop fuel work reachable incomplete
          else
            let reachable := {[h]} ∪ reachable in
            r ← read_tree_for_gc h;
            match r with
            | Some (Some entries) =>
                '(work, reachable, incomplete) ← mark_entries entries work reachable incomplete;
                mark_loop fuel work reachable incomplete
            | _ => mark_loop fuel work reachable true
            end
      end
  end.

Context (disk_unlocked : bool) (now_unix : Z).

(** What the sweep leaves in the statics. *)
Definition record_gc (g : LastGc) : MF unit := λ f,
  (Ok tt, mkFs (fs_store f) (ACTIVE_STREAMS f) (Some g) (ZERO_CHUNK f) 0 (path_changed f)).

(** [streams_later] is the counter as the second check reads it. *)
Definition gc (fuel : nat) (streams_later : Z) : MF GcStats :=
  f ← get;
  if negb disk_unlocked then fail (Storage Locked)
  else if stream_active f then mret (mkGcStats 0 0 true)
  else
    roots ← on_store (lift_fs all_root_hashes);
    '(reachable, mark_incomplete) ← on_store (mark_loop fuel (rev roots) ∅ false);
    let size := Z.of_nat (base.size (reachable : gset addr)) in
    if mark_incomplete : bool then mret (mkGcStats size 0 true)
    else
      all ← on_store (lift_fs all_object_hashes);
      if 0 <? streams_later then mret (mkGcStats size 0 true)
      else
        let orphans := List.filter (λ h, negb (bool_decide (h ∈ (reachable : gset addr)))) all in
        '(removed, failed) ← on_store (lift_fs (remove_many orphans));
        _ ← on_store (modify (tree_forget orphans));
        _ ← on_store (lift_fs obj_trim);
        _ ← record_gc (mkLastGc now_unix size removed failed);
        mret (mkGcStats size removed false).
End gc.

(** * What garbage collection marks (storage/npkfs/fs.rs, [gc])

    The objects a set of roots uses, and the mark phase as a work-list search for
    them: it ends, and unless a read failed it finds exactly those. *)

Section uses.
Context {CD : Codec} {CO : CodecOk}.
Implicit Types (m : gmap addr (list byte)) (e : TreeEntry) (es : list TreeEntry) (R : gset addr) (work : list addr).

(** What [roots] use: themselves, the entries of their trees, the chunks of their
    manifests. *)
Inductive uses m (roots : list addr) : addr → Prop :=
  | uses_root r : r ∈ roots → r ≠ EMPTY_ROOT → uses m roots r
  | uses_entry h es e :
      uses m roots h → tree_at m h = Some es → e ∈ es → t_hash e ≠ EMPTY_ROOT → uses m roots (t_hash e)
  | uses_chunk h b n hs c :
      uses m roots h → m !! h = Some b → from_bytes b = Some (Chunked n hs) → c ∈ hs → c ≠ EMPTY_ROOT →
      uses m roots c.

(** ** Marked *)
Definition chunks_marked m R (h : addr) : Prop :=
  ∀ b n hs, m !! h = Some b → from_bytes b = Some (Chunked n hs) → ∀ c, c ∈ hs → c = EMPTY_ROOT ∨ c ∈ R.
Definition entry_marked m R work e : Prop :=
  t_hash e = EMPTY_ROOT ∨
  match t_kind e with
  | Dir => t_hash e ∈ R ∨ t_hash e ∈ work
  | File => t_hash e ∈ R ∧ chunks_marked m R (t_hash e)
  end.
(** The trees marked have their entries marked or to be visited. *)
Definition marking m R work : Prop :=
  ∀ h es, h ∈ R → h ≠ EMPTY_ROOT → tree_at m h = Some es → Forall (entry_marked m R work) es.
(** What [R'] has beyond [R] are no trees. *)
Definition no_trees m R R' : Prop := ∀ h, h ∈ R' → h ∈ R ∨ tree_at m h = None.

Lemma chunks_marked_mono m R R' h : R ⊆ R' → chunks_marked m R h → chunks_marked m R' h.
Proof. intros HR H b n hs Hb Hd c Hc. destruct (H b n hs Hb Hd c Hc); auto. Qed.
Lemma entry_marked_mono m R R' work work' e :
  R ⊆ R' → (∀ h, h ∈ work → h ∈ R' ∨ h ∈ work') → entry_marked m R work e → entry_marked m R' work' e.
Proof.
  intros HR Hw [He|He]; [by left|right]. destruct (t_kind e).
  - destruct He. split; [auto|by eapply chunks_marked_mono].
  - destruct He as [?|?%Hw]; auto.
Qed.

(** ** Files are not trees *)
Lemma decoded_no_tree m h b o :
  h ≠ EMPTY_ROOT → m !! h = Some b → from_bytes b = Some o → (∀ es, o ≠ Tree es) → tree_at m h = None.
Proof. intros Hh Hb Ho Hn. unfold tree_at. rewrite bool_decide_false by done. rewrite Hb. simpl. rewrite Ho. by destruct o; [|edestruct Hn|]. Qed.
Lemma blob_no_tree m h d : h ≠ EMPTY_ROOT → blob_at m h d → tree_at m h = None.
Proof. intros Hh (_ & b & Hb & He). eapply decoded_no_tree; [done|done|by apply from_bytes_to_allocvec|done]. Qed.
Lemma file_no_tree m h d : h ≠ EMPTY_ROOT → file_content m h d → tree_at m h = None.
Proof.
  intros Hh [Hb|(b & hs & ds & Hb & He & _)]; [by eapply blob_no_tree|].
  eapply decoded_no_tree; [done|done|by apply from_bytes_to_allocvec|done].
Qed.
Lemma blob_chunks_marked m R h d : blob_at m h d → chunks_marked m R h.
Proof. intros (_ & b & Hb & He) b' n hs Hb' Hd. apply from_bytes_to_allocvec in He. congruence. Qed.
Lemma file_chunks m h d b n hs c :
  file_content m h d → m !! h = Some b → from_bytes b = Some (Chunked n hs) → c ∈ hs → ∃ d', blob_at m c d'.
Proof.
  intros [(_ & b' & Hb' & He)|(b' & hs' & ds & Hb' & He & _ & Hf)] Hb Hd Hc;
    apply from_bytes_to_allocvec in He; simplify_eq.
  apply list_elem_of_lookup in Hc as [i Hi]. destruct (Forall2_lookup_r _ _ _ _ _ Hf Hi) as (d' & _ & ?). by exists d'.
Qed.

(** ** The finished mark *)
Lemma marks_every_use m roots R h :
  Forall (root_ok m) roots → marking m R [] → (∀ r, r ∈ roots → r = EMPTY_ROOT ∨ r ∈ R) → uses m roots h →
  h ≠ EMPTY_ROOT ∧ h ∈ R ∧ (root_ok m h ∨ ∃ d, file_content m h d ∧ chunks_marked m R h).
Proof.
  intros Hroots HR Hin. rewrite Forall_forall in Hroots.
  induction 1 as [r Hr Hne|h es e _ (Hh & HhR & IH) Ht He Hne|h b n hs c _ (Hh & HhR & IH) Hb Hd Hc Hne].
  - split; [done|]. destruct (Hin r Hr); [done|]. split; [done|]. left. by apply Hroots.
  - split; [done|]. pose proof (HR h es HhR Hh Ht) as Hm. rewrite Forall_forall in Hm.
    destruct (Hm e He) as [?|Hme]; [done|].
    destruct IH as [(es' & Ht' & Hw)|(d & Hf & _)]; [|by rewrite (file_no_tree _ _ _ Hh Hf) in Ht].
    simplify_eq. destruct Hw as [es _ _ _ Hfile Hdir Hsub]. destruct (t_kind e) eqn:Hk.
    + destruct Hme. split; [done|]. right. destruct (Hfile e He Hk) as (d & ? & _). by exists d.
    + destruct Hme as [?|[]%not_elem_of_nil]. split; [done|]. left.
      destruct (Hdir e He Hk) as (es' & ? & _). exists es'. split; [done|]. by eapply Hsub.
  - split; [done|]. destruct IH as [(es & Ht & _)|(d & Hf & Hm)].
    + unfold tree_at in Ht. rewrite bool_decide_false, Hb in Ht by done. simpl in Ht. by rewrite Hd in Ht.
    + destruct (Hm b n hs Hb Hd c Hc); [done|]. split; [done|]. right.
      destruct (file_chunks _ _ _ _ _ _ _ Hf Hb Hd Hc) as (d' & Hd'). exists d'. split; [by left|]. by eapply blob_chunks_marked.
Qed.

(** ** What the marked objects alone show *)

(** [h] shows in [m'] what it shows in [m], with the same contents. *)
Definition preserved m m' (h : addr) : Prop :=
  root_ok m' h ∧ (∀ p, fsview m' h p = fsview m h p) ∧
  ∀ p h' n t fl d, fsview m h p = Some (SFile h' n t fl) → file_content m h' d → file_content m' h' d.

Section marked.
Context (m : gmap addr (list byte)) (R : gset addr).
Hypothesis HR : marking m R [].
Hypothesis Hnone : m !! EMPTY_ROOT = None.
Let m0 : gmap addr (list byte) := filter (λ kv, kv.1 ∈ R) m.

Lemma marked_lookup h b : h ∈ R → m !! h = Some b → m0 !! h = Some b.
Proof. intros. by apply map_lookup_filter_Some. Qed.
Lemma marked_tree h es : h = EMPTY_ROOT ∨ h ∈ R → tree_at m h = Some es → tree_at m0 h = Some es.
Proof.
  unfold tree_at. case_bool_decide; [done|]. intros [?|Hh]; [done|].
  intros (b & Hb & He)%bind_Some. apply bind_Some. exists b. split; [by apply marked_lookup|done].
Qed.
Lemma marked_blob h d : h ∈ R → blob_at m h d → blob_at m0 h d.
Proof. intros Hh (Hz & b & Hb & He). split; [done|]. exists b. split; [by apply marked_lookup|done]. Qed.
Lemma blob_not_empty h d : blob_at m h d → h ≠ EMPTY_ROOT.
Proof. intros (_ & b & Hb & _) ->. by rewrite Hnone in Hb. Qed.
Lemma file_not_empty h d : file_content m h d → h ≠ EMPTY_ROOT.
Proof. intros [Hb|(b & hs & ds & Hb & _)]; [by eapply blob_not_empty|]. intros ->. by rewrite Hnone in Hb. Qed.
Lemma marked_file h d : h ∈ R → chunks_marked m R h → file_content m h d → file_content m0 h d.
Proof.
  intros Hh Hc [Hb|(b & hs & ds & Hb & He & -> & Hf)]; [left; by apply marked_blob|right].
  exists b, hs, ds. split; [by apply marked_lookup|]. split; [done|]. split; [done|].
  pose proof (from_bytes_to_allocvec _ _ He) as Hd. specialize (Hc _ _ _ Hb Hd).
  apply Forall2_same_length_lookup. split; [by eapply Forall2_length|]. intros i d c Hi Hi'.
  pose proof (Forall2_lookup_lr _ _ _ _ _ _ Hf Hi Hi') as Hblob. apply marked_blob; [|done].
  destruct (Hc c); [by eapply list_elem_of_lookup_2| |done]. by apply blob_not_empty in Hblob.
Qed.
Lemma marked_file_ok e : t_kind e = File → entry_marked m R [] e → file_ok m e → file_ok m0 e.
Proof.
  intros Hk Hm (d & Hc & Hs & Hb). pose proof (file_not_empty _ _ Hc) as Hne.
  destruct Hm as [?|Hm]; [done|]. rewrite Hk in Hm. destruct Hm as [Hh Hch].
  exists d. split; [by apply marked_file|]. split; [done|]. intros Hkn. apply marked_blob; auto.
Qed.
Lemma marked_wf es : wf m es → Forall (entry_marked m R []) es → wf m0 es.
Proof.
  induction 1 as [es Hs Hn Hv Hf Hd Hw IH]. intros Hm. rewrite Forall_forall in Hm.
  assert (Hsub : ∀ e es', e ∈ es → t_kind e = Dir → tree_at m (t_hash e) = Some es' →
    tree_at m0 (t_hash e) = Some es' ∧ wf m0 es').
  { intros e es' He Hk Ht. assert (t_hash e = EMPTY_ROOT ∨ t_hash e ∈ R) as Hh.
    { destruct (Hm e He) as [?|Hme]; [by left|]. rewrite Hk in Hme.
      destruct Hme as [?|[]%not_elem_of_nil]. by right. }
    split; [by apply marked_tree|]. eapply IH; [done..|].
    destruct (decide (t_hash e = EMPTY_ROOT)) as [E|E]; [|destruct Hh; [done|by eapply HR]].
    unfold tree_at in Ht. rewrite bool_decide_true in Ht by done. by simplify_eq. }
  constructor; [done|done|done| | |].
  - intros e He Hk. apply marked_file_ok; auto.
  - intros e He Hk. destruct (Hd e He Hk) as (es' & Ht & ?). exists es'. split; [|done]. by eapply Hsub.
  - intros e es' He Hk Ht. destruct (Hd e He Hk) as (es'' & Ht' & _).
    destruct (Hsub e es'' He Hk Ht') as [E ?]. rewrite E in Ht. by simplify_eq.
Qed.
Lemma marked_root_ok h : h = EMPTY_ROOT ∨ h ∈ R → root_ok m h → root_ok m0 h.
Proof.
  intros Hh (es & Ht & Hw). exists es. split; [by apply marked_tree|]. apply marked_wf; [done|].
  destruct (decide (h = EMPTY_ROOT)) as [E|E]; [|destruct Hh; [done|by eapply HR]].
  unfold tree_at in Ht. rewrite bool_decide_true in Ht by done. by simplify_eq.
Qed.

(** A store that keeps the marked objects shows a marked root as before. *)
Lemma marked_preserved m' h :
  (∀ h, h ∈ R → m' !! h = m !! h) → h = EMPTY_ROOT ∨ h ∈ R → root_ok m h → preserved m m' h.
Proof.
  intros Hm' Hh Hr. pose proof (marked_root_ok h Hh Hr) as H0.
  assert (Hs : m0 ⊆ m) by apply map_filter_subseteq.
  assert (Hs' : m0 ⊆ m').
  { apply map_subseteq_spec. intros k b [Hb Hk]%map_lookup_filter_Some. by rewrite Hm'. }
  split; [by eapply root_ok_mono|]. split.
  - intros p. by rewrite (fsview_mono m0 m'), (fsview_mono m0 m).
  - intros p h' n t fl d Hv Hd. rewrite (fsview_mono m0 m) in Hv by done.
    destruct (view_file _ _ _ _ _ _ _ H0 Hv) as (_ & d0 & Hd0 & _).
    assert (d = d0) as -> by (eapply file_content_fun; [done|by eapply file_content_mono]).
    by eapply file_content_mono.
Qed.
End marked.
End uses.

(** ** How long the search can go on *)
Section measure.
Context {CD : Codec}.
Implicit Types (m : gmap addr (list byte)) (R : gset addr).

Definition entries_at m (h : addr) : nat := match tree_at m h with Some es => length es | None => 0 end.
Fixpoint unvisited m R (hs : list addr) : nat :=
  match hs with
  | [] => 0
  | h :: hs => (if bool_decide (h ∈ R) then 0 else entries_at m h) + unvisited m R hs
  end.
(** The entries of the trees not yet marked. *)
Definition to_visit m R : nat := unvisited m R (elements (dom m)).

Lemma unvisited_mono m R R' hs : R ⊆ R' → (unvisited m R' hs ≤ unvisited m R hs)%nat.
Proof.
  intros HR. induction hs as [|h hs IH]; [done|]. cbn [unvisited].
  repeat case_bool_decide; try lia; exfalso; auto.
Qed.
Lemma unvisited_visit m R R' h hs :
  R ⊆ R' → h ∈ hs → h ∉ R → h ∈ R' → (entries_at m h + unvisited m R' hs ≤ unvisited m R hs)%nat.
Proof.
  intros HR Hh Hn Hin. induction hs as [|x hs IH]; [by apply not_elem_of_nil in Hh|].
  cbn [unvisited]. destruct (decide (x = h)) as [->|Hx].
  - rewrite (bool_decide_true (h ∈ R')), (bool_decide_false (h ∈ R)) by done.
    pose proof (unvisited_mono m R R' hs HR). lia.
  - apply elem_of_cons in Hh as [?|Hh]; [done|]. specialize (IH Hh). repeat case_bool_decide; try lia; exfalso; auto.
Qed.
Lemma to_visit_visit m R R' h es :
  R ⊆ R' → h ≠ EMPTY_ROOT → tree_at m h = Some es → h ∉ R → h ∈ R' → (length es + to_visit m R' ≤ to_visit m R)%nat.
Proof.
  intros HR Hne Ht Hn Hin. replace (length es) with (entries_at m h) by (unfold entries_at; by rewrite Ht).
  apply unvisited_visit; [done| |done|done]. apply elem_of_elements, elem_of_dom.
  unfold tree_at in Ht. rewrite bool_decide_false in Ht by done. apply bind_Some in Ht as (b & ? & _). by exists b.
Qed.
End measure.

Section mark.
Context {CD : Codec} {CO : CodecOk} {S : Type} {OS : ObjectStore S} {OK : ObjectStoreOk S}.
Implicit Types (s : S) (e : TreeEntry) (es : list TreeEntry) (m : gmap addr (list byte)) (R : gset addr) (work : list addr).

Lemma read_tree_for_gc_spec s h es :
  os_inv s → h ≠ EMPTY_ROOT → tree_at (objects s) h = Some es →
  wp (read_tree_for_gc h) (λ r s', okept s s' ∧ ((r = Ok (Some (Some es))) ∨ (r = Ok None ∧ ¬ serving s))) s.
Proof.
  intros I Hne Ht. unfold read_tree_for_gc. apply wp_bind, wp_total. destruct (tree_get_spec s h I) as [Hk Hg].
  destruct (tree_get h s) as [held s1]. cbn [fst snd] in *. pose proof (kept_objects _ _ _ _ _ _ _ Hk) as Ho.
  destruct held as [b|].
  - apply wp_bind, wp_ret, wp_ret. split; [done|]. left. destruct (decode_tree_at s h b es) as [-> _]; auto.
  - apply wp_bind, wp_catch, wp_lift_fs. eapply wp_mono; [apply obj_get_spec; by destruct Hk|].
    intros r s2 [Hk2 Hr]. pose proof (okept_trans _ _ _ Hk Hk2) as Hk3. destruct r as [v|x|]; simpl in Hr; [| |done].
    + rewrite Ho in Hr. destruct v as [b|]; apply wp_ret; (split; [done|]); left.
      * symmetry in Hr. pose proof (objects_addressed _ _ _ I Hr).
        destruct (decode_tree_at s h b es) as [-> _]; auto.
      * exfalso. unfold tree_at in Ht. rewrite bool_decide_false, <- Hr in Ht by done. done.
    + apply wp_ret. split; [done|]. right. split; [done|]. intros Hs. apply Hr, (kept_serving _ _ _ _ _ _ _ Hk), Hs.
Qed.

Lemma mark_chunks_elem cs R h : h ∈ mark_chunks cs R ↔ h ∈ R ∨ (h ∈ cs ∧ h ≠ EMPTY_ROOT).
Proof.
  revert R; induction cs as [|c cs IH]; intros R; cbn [mark_chunks]; [set_solver|]. rewrite IH.
  case_bool_decide as E; set_solver.
Qed.

(** The chunks of the manifest at [h]. *)
Definition chunk_of m (h c : addr) : Prop :=
  c ≠ EMPTY_ROOT ∧ ∃ b n hs, m !! h = Some b ∧ from_bytes b = Some (Chunked n hs) ∧ c ∈ hs.

Lemma mark_file_object_spec s h R d :
  os_inv s → file_content (objects s) h d →
  wp (mark_file_object h R) (λ r s', okept s s' ∧ ∃ R' read, r = Ok (R', read) ∧ R ⊆ R' ∧
    (∀ x, x ∈ R' → x ∈ R ∨ chunk_of (objects s) h x) ∧
    (read = true → chunks_marked (objects s) R' h) ∧ (serving s → read = true)) s.
Proof.
  intros I Hc. unfold mark_file_object. apply wp_bind, wp_catch, wp_lift_fs.
  eapply wp_mono; [by apply obj_get_spec|]. intros r s1 [Hk Hr].
  destruct r as [v|x|]; simpl in Hr; [|apply wp_ret; split; [done|]; exists R, false; naive_solver|done].
  destruct v as [b|]; apply wp_ret; (split; [done|]).
  2:{ exists R, true. split; [done|]. split; [done|]. split; [by left|]. split; [|done].
      intros _ b n hs Hb. congruence. }
  assert (∃ o, from_bytes b = Some o ∧ ∀ es, o ≠ Tree es) as (o & Ho & Hnt).
  { destruct Hc as [(_ & b' & Hb' & He)|(b' & hs & ds & Hb' & He & _)];
      apply from_bytes_to_allocvec in He; (assert (b' = b) as -> by congruence); by eexists. }
  unfold decode. rewrite Ho. destruct o as [d'|es|n hs].
  - exists R, true. split; [done|]. split; [done|]. split; [by left|]. split; [|done]. intros _ b' n hs Hb. congruence.
  - by edestruct Hnt.
  - exists (mark_chunks hs R), true. split; [done|]. split; [intros x Hx; apply mark_chunks_elem; by left|]. split.
    + intros x [Hx|[Hx Hn]]%mark_chunks_elem; [by left|right]. split; [done|]. by exists b, n, hs.
    + split; [|done]. intros _ b' n' hs' Hb' Hd' c Hcs. assert (b' = b) as -> by congruence. simplify_eq.
      destruct (decide (c = EMPTY_ROOT)); [by left|right]. apply mark_chunks_elem. by right.
Qed.

(** What one tree's entries add to the mark. *)
Record noted m (sv : Prop) es work R (inc : bool) work' R' (inc' : bool) : Prop := {
  noted_grows : R ⊆ R';
  noted_no_trees : no_trees m R R';
  noted_new x : x ∈ R' → x ∈ R ∨ ∃ e, e ∈ es ∧ t_hash e ≠ EMPTY_ROOT ∧ (x = t_hash e ∨ chunk_of m (t_hash e) x);
  noted_work : ∃ ws, work' = ws ++ work ∧ (length ws ≤ length es)%nat ∧
    ∀ x, x ∈ ws → ∃ e, e ∈ es ∧ t_kind e = Dir ∧ t_hash e = x ∧ x ≠ EMPTY_ROOT;
  noted_complete : inc' = false → inc = false ∧ Forall (entry_marked m R' work') es;
  noted_serving : sv → inc' = inc }.

Lemma noted_nil m sv work R inc : noted m sv [] work R inc work R inc.
Proof.
  split; [done|by left|by left| |done|done]. exists []. split; [done|]. split; [done|].
  by intros x []%not_elem_of_nil.
Qed.
(** An entry's own step, then the rest's. *)
Lemma noted_cons m sv e es work R inc work1 R1 inc1 work' R' inc' :
  noted m sv [e] work R inc work1 R1 inc1 → noted m sv es work1 R1 inc1 work' R' inc' →
  noted m sv (e :: es) work R inc work' R' inc'.
Proof.
  intros [Hg1 Ht1 Hn1 (ws1 & -> & Hl1 & Hw1) Hc1 Hs1] [Hg2 Ht2 Hn2 (ws2 & -> & Hl2 & Hw2) Hc2 Hs2]. split.
  - by etrans.
  - intros x [Hx|Hx]%Ht2; [by apply Ht1|by right].
  - intros x [[Hx|(e' & ->%list_elem_of_singleton & ?)]%Hn1|(e' & ? & ?)]%Hn2; [by left| |];
      right; eexists; (split; [|done]); [by left|by right].
  - exists (ws2 ++ ws1). rewrite app_assoc. split; [done|]. rewrite length_app. split; [simpl in *; lia|].
    intros x [(e' & ? & ?)%Hw2|(e' & ->%list_elem_of_singleton & ?)%Hw1]%elem_of_app;
      eexists; (split; [|done]); [by right|by left].
  - intros [Hi1 Hf2]%Hc2. destruct (Hc1 Hi1) as [? Hf1]. split; [done|]. constructor; [|done].
    apply Forall_cons in Hf1 as [Hf1 _]. eapply entry_marked_mono; [done| |done].
    intros x Hx. right. apply elem_of_app. by right.
  - intros Hsv. rewrite Hs2 by done. by apply Hs1.
Qed.

Lemma noted_file m sv e work R R' inc inc' d :
  t_kind e = File → t_hash e ≠ EMPTY_ROOT → file_content m (t_hash e) d → {[t_hash e]} ∪ R ⊆ R' →
  (∀ x, x ∈ R' → x ∈ {[t_hash e]} ∪ R ∨ chunk_of m (t_hash e) x) →
  (inc' = false → inc = false ∧ chunks_marked m R' (t_hash e)) → (sv → inc' = inc) →
  noted m sv [e] work R inc work R' inc'.
Proof.
  intros Hk Hne Hd Hg Hn Hc Hs. split; [set_solver| | | | |done].
  - intros x [[->%elem_of_singleton|Hx]%elem_of_union|(Hx & b & n & hs & Hb & Hdec & Hin)]%Hn; [right|by left|right].
    + by eapply file_no_tree.
    + destruct (file_chunks _ _ _ _ _ _ _ Hd Hb Hdec Hin) as (d' & Hd'). by eapply blob_no_tree.
  - intros x [[->%elem_of_singleton|Hx]%elem_of_union|Hx]%Hn; [right|by left|right];
      exists e; (split; [by left|]); auto.
  - exists []. split; [done|]. split; [simpl; lia|]. by intros x []%not_elem_of_nil.
  - intros [Hi Hch]%Hc. split; [done|]. constructor; [|done]. right. rewrite Hk. split; [set_solver|done].
Qed.

Lemma mark_entries_spec es s work R inc :
  os_inv s → (∀ e, e ∈ es → t_kind e = File → file_ok (objects s) e) →
  wp (mark_entries es work R inc) (λ r s', okept s s' ∧ ∃ work' R' inc', r = Ok (work', R', inc') ∧
    noted (objects s) (serving s) es work R inc work' R' inc') s.
Proof.
  revert s work R inc; induction es as [|e es IH]; intros s work R inc I Hf; cbn [mark_entries].
  { apply wp_ret. split; [by apply okept_refl|]. exists work, R, inc. split; [done|apply noted_nil]. }
  assert (Hrest : ∀ s1 work1 R1 inc1, okept s s1 → noted (objects s) (serving s) [e] work R inc work1 R1 inc1 →
    wp (mark_entries es work1 R1 inc1) (λ r s', okept s s' ∧ ∃ work' R' inc', r = Ok (work', R', inc') ∧
      noted (objects s) (serving s) (e :: es) work R inc work' R' inc') s1).
  { intros s1 work1 R1 inc1 Hk Hn. pose proof (kept_objects _ _ _ _ _ _ _ Hk) as Ho.
    eapply wp_mono; [apply IH; [by destruct Hk|rewrite Ho; intros e' He'; apply Hf; by right]|].
    intros r s2 [Hk2 (work' & R' & inc' & -> & Hn')]. split; [by eapply okept_trans|].
    exists work', R', inc'. split; [done|]. eapply noted_cons; [done|]. rewrite Ho in Hn'.
    destruct Hn' as [????? Hs]. split; try done. intros Hsv. by apply Hs, (kept_serving _ _ _ _ _ _ _ Hk). }
  case_bool_decide as Hne.
  { apply Hrest; [by apply okept_refl|]. split; [done|by left|by left| | |done].
    - exists []. split; [done|]. split; [simpl; lia|]. by intros x []%not_elem_of_nil.
    - intros ->. split; [done|]. constructor; [by left|done]. }
  destruct (t_kind e) eqn:Hk.
  - destruct (Hf e) as (d & Hd & _ & Hb); [by left|done|].
    destruct (_ || _) eqn:Hread; [|apply Hrest; [by apply okept_refl|]; eapply noted_file; eauto].
    + apply wp_bind. eapply wp_mono; [by eapply mark_file_object_spec|].
      intros r s1 (Hk1 & R' & read & -> & Hg & Hn & Hch & Hs). apply Hrest; [done|].
      eapply noted_file; [done|done|done|done|done| |].
      * destruct read; [|done]. intros ->. split; [done|]. by apply Hch.
      * intros Hsv. by rewrite Hs.
    + intros ->. split; [done|]. apply (blob_chunks_marked _ _ _ d). apply Hb. unfold known_blob.
      apply orb_false_iff in Hread as [H1 H2]. apply negb_false_iff in H1, H2. by rewrite H1, H2.
  - apply Hrest; [by apply okept_refl|]. split; [done|by left|by left| | |done].
    + exists [t_hash e]. split; [done|]. split; [simpl; lia|]. intros x ->%list_elem_of_singleton.
      exists e. split; [by left|done].
    + intros ->. split; [done|]. constructor; [|done]. right. rewrite Hk. right. by left.
Qed.

(** The search: what is marked is used, what waits is a tree, and unless a read
    failed everything used is marked or lies behind what waits. *)
Record searching m (roots work : list addr) R (inc : bool) : Prop := {
  search_trees h : h ∈ work → root_ok m h;
  search_used h : h ∈ R → uses m roots h;
  search_waiting h : h ∈ work → h = EMPTY_ROOT ∨ uses m roots h;
  search_marking : inc = false → marking m R work;
  search_roots : inc = false → ∀ r, r ∈ roots → r = EMPTY_ROOT ∨ r ∈ R ∨ r ∈ work }.

Lemma searching_skip m roots h work R inc :
  h = EMPTY_ROOT ∨ h ∈ R → searching m roots (h :: work) R inc → searching m roots work R inc.
Proof.
  intros Hh [Ht Hu Hw Hm Hr]. split; [|done| | |].
  - intros x Hx. apply Ht. by right.
  - intros x Hx. apply Hw. by right.
  - intros Hi x es Hx Hne Hx'. pose proof (Hm Hi x es Hx Hne Hx') as Hf. eapply Forall_impl; [done|].
    intros e [He|He]; [by left|]. destruct (decide (t_hash e = EMPTY_ROOT)); [by left|right].
    destruct (t_kind e); [done|]. destruct He as [|[E|]%elem_of_cons]; [by left| |by right]. rewrite E in *. destruct Hh; [done|by left].
  - intros Hi r Hin. destruct (Hr Hi r Hin) as [?|[?|[->|]%elem_of_cons]]; auto. destruct Hh; auto.
Qed.

(** A visited tree. *)
Lemma searching_visit m sv roots h es work R inc work' R' inc' :
  searching m roots (h :: work) R inc → h ≠ EMPTY_ROOT → tree_at m h = Some es → wf m es →
  noted m sv es work ({[h]} ∪ R) inc work' R' inc' → searching m roots work' R' inc'.
Proof.
  intros [Ht Hu Hw Hm Hr] Hne Hes Hwf [Hg Hnt Hnew (ws & -> & _ & Hws) Hc _].
  assert (Huh : uses m roots h) by (by destruct (Hw h) as [?|?]; [left| |]).
  destruct Hwf as [es _ _ _ _ Hdir Hsub]. split.
  - intros x [(e & He & Hk & <- & _)%Hws|Hx]%elem_of_app; [|apply Ht; by right].
    destruct (Hdir e He Hk) as (es' & ? & _). exists es'. split; [done|]. by eapply Hsub.
  - intros x [[->%elem_of_singleton|Hx]%elem_of_union|(e & He & Hnee & Hx)]%Hnew; [done|by apply Hu|].
    assert (uses m roots (t_hash e)) by (by eapply uses_entry).
    destruct Hx as [->|(? & b & n & hs & ? & ? & ?)]; [done|by eapply uses_chunk].
  - intros x [(e & He & Hk & <- & Hx)%Hws|Hx]%elem_of_app; [right; by eapply uses_entry|apply Hw; by right].
  - intros [-> Hf]%Hc x es' Hx Hnx Hx'. apply Hnt in Hx as [[->%elem_of_singleton|Hx]%elem_of_union|?]; [| |congruence].
    + by simplify_eq.
    + eapply Forall_impl; [by eapply Hm|]. intros e. apply entry_marked_mono; [set_solver|].
      intros y [->|Hy]%elem_of_cons; [left; set_solver|right; apply elem_of_app; by right].
  - intros [-> _]%Hc r Hin. destruct (Hr eq_refl r Hin) as [?|[?|[->|]%elem_of_cons]]; [by left| | |].
    + right; left; set_solver.
    + right; left; set_solver.
    + right; right. apply elem_of_app. by right.
Qed.

Lemma mark_loop_spec fuel s roots work R inc :
  os_inv s → searching (objects s) roots work R inc → (length work + to_visit (objects s) R < fuel)%nat →
  wp (mark_loop fuel work R inc) (λ r s', okept s s' ∧ ∃ R' inc', r = Ok (R', inc') ∧
    searching (objects s) roots [] R' inc' ∧ (serving s → inc' = inc)) s.
Proof.
  revert s work R inc; induction fuel as [|fuel IH]; intros s work R inc I HS Hf; [lia|].
  cbn [mark_loop]. destruct work as [|h work].
  { apply wp_ret. split; [by apply okept_refl|]. by exists R, inc. }
  cbn [length] in Hf.
  case_bool_decide as Hne; [apply IH; [done|eapply searching_skip; [|done]; by left|lia]|].
  case_bool_decide as HR; [apply IH; [done|eapply searching_skip; [|done]; by right|lia]|].
  destruct (search_trees _ _ _ _ _ HS h) as (es & Ht & Hw); [by left|].
  assert (Hrec : ∀ s1 work' R' inc1 inc', okept s s1 → (serving s → inc1 = inc) →
    (inc1 = false → inc = false) →
    noted (objects s) (serving s) es work ({[h]} ∪ R) inc1 work' R' inc' →
    wp (mark_loop fuel work' R' inc') (λ r s', okept s s' ∧ ∃ R' inc', r = Ok (R', inc') ∧
      searching (objects s) roots [] R' inc' ∧ (serving s → inc' = inc)) s1).
  { intros s1 work' R' inc1 inc' Hk Hi1 Hi1' Hn. pose proof (kept_objects _ _ _ _ _ _ _ Hk) as Ho.
    assert (HS' : searching (objects s) roots work' R' inc').
    { eapply searching_visit; [|done|done|done|done]. destruct HS. split; auto. }
    destruct Hn as [Hg _ _ (ws & -> & Hl & _) _ Hsn].
    assert ((length es + to_visit (objects s) R' ≤ to_visit (objects s) R)%nat)
      by (eapply to_visit_visit; [set_solver|done|done|done|set_solver]).
    eapply wp_mono; [apply IH; [by destruct Hk|by rewrite Ho|rewrite length_app, Ho; lia]|].
    intros r s2 [Hk2 (R2 & inc2 & -> & HS2 & Hs2)]. split; [by eapply okept_trans|]. rewrite Ho in HS2.
    exists R2, inc2. split; [done|]. split; [done|]. intros Hsv. rewrite Hs2, Hsn; auto.
    by apply (kept_serving _ _ _ _ _ _ _ Hk). }
  apply wp_bind. eapply wp_mono; [by apply read_tree_for_gc_spec|]. intros r s1 [Hk Hr].
  pose proof (kept_objects _ _ _ _ _ _ _ Hk) as Ho. destruct Hr as [->|[-> Hns]].
  - apply wp_bind. eapply wp_mono; [apply (mark_entries_spec es s1); [by destruct Hk|]|].
    { rewrite Ho. by destruct Hw as [? _ _ _ Hfile _ _]. }
    intros r s2 [Hk2 (work' & R' & inc' & -> & Hn)]. eapply Hrec; [by eapply okept_trans|done|done|].
    rewrite Ho in Hn. destruct Hn as [????? Hs]. split; try done.
    intros Hsv. by apply Hs, (kept_serving _ _ _ _ _ _ _ Hk).
  - eapply (Hrec s1 work _ true true); [done|done|done|]. split; [done|by left|by left| |done|done].
    exists []. split; [done|]. split; [simpl; lia|]. by intros x []%not_elem_of_nil.
Qed.
End mark.

(** * What garbage collection keeps and removes (storage/npkfs/fs.rs, [gc]) *)

Section gc.
Context {CD : Codec} {CO : CodecOk} {S : Type} {OS : ObjectStore S} {OK : ObjectStoreOk S}.
Implicit Types (s : S) (f : Fs S) (m : gmap addr (list byte)) (R : gset addr).

(** The roots the collector sees: a superblock slot that cannot be read is left
    out. *)
Definition read_roots s : list addr := match (all_root_hashes s).1 with Ok v => v | _ => [] end.

(** A run that swept nothing, and why. *)
Definition swept_nothing (unlocked : bool) (later : Z) f (r : res PathError GcStats) f' : Prop :=
  okept (fs_store f) (fs_store f') ∧
  match r with
  | Ok g => skipped g = true ∧ (serving (fs_store f) → stream_active f = true ∨ 0 < later)
  | Err x => ∃ e, x = Storage e ∧ (serving (fs_store f) → e = Locked ∧ unlocked = false)
  | Panic => False
  end.
(** A run that swept what was not marked, or stopped on the way. *)
Definition swept_unmarked (now : Z) f (r : res PathError GcStats) f' R : Prop :=
  let s := fs_store f in let s' := fs_store f' in
  os_inv s' ∧ current_root s' = current_root s ∧ (serving s → serving s') ∧
  (∀ x, x ∈ snapshots s' → x ∈ snapshots s ∨ current_root s = Some x) ∧
  objects s' ⊆ objects s ∧ (∀ h, h ∈ R → objects s' !! h = objects s !! h) ∧
  match r with
  | Ok g => g = mkGcStats (Z.of_nat (size R)) (removed_count g) false ∧ MUTATIONS_SINCE_GC f' = 0 ∧
      (∃ failed, LAST_GC f' = Some (mkLastGc now (Z.of_nat (size R)) (removed_count g) failed)) ∧
      (serving s → ∀ h, h ∉ R → objects s' !! h = None)
  | Err x => ¬ serving s
  | Panic => False
  end.

Lemma sweep_spec now s0 f R :
  let orphans all := List.filter (λ h, negb (bool_decide (h ∈ R))) all in
  okept s0 (fs_store f) →
  ∀ all, (∀ h, h ∈ all ↔ is_Some (objects s0 !! h)) →
  wp ('(removed, failed) ← on_store (lift_fs (remove_many (orphans all)));
      _ ← on_store (modify (tree_forget (orphans all)));
      _ ← on_store (lift_fs obj_trim);
      _ ← record_gc (mkLastGc now (Z.of_nat (size R)) removed failed);
      mret (mkGcStats (Z.of_nat (size R)) removed false))
    (λ r f', swept_unmarked now (set_store f s0) r f' R) f.
Proof.
  intros orphans Hk0 all Hall. pose proof Hk0 as [I Ho Hc Hsn Hsv].
  assert (Horph : ∀ h, h ∈ orphans all ↔ h ∉ R ∧ is_Some (objects s0 !! h)).
  { intros h. unfold orphans. rewrite list_elem_of_In, List.filter_In, <- list_elem_of_In, Hall, negb_true_iff, bool_decide_eq_false.
    tauto. }
  apply wp_bind, wp_on_store, wp_lift_fs. eapply wp_mono; [by apply remove_many_spec|].
  intros r s1 (I1 & Hc1 & Hsv1 & Hsn1 & Hsub & Hkeep & Hr).
  assert (Hbase : ∀ s', okept s1 s' →
    os_inv s' ∧ current_root s' = current_root s0 ∧ (serving s0 → serving s') ∧
    (∀ x, x ∈ snapshots s' → x ∈ snapshots s0 ∨ current_root s0 = Some x) ∧
    objects s' ⊆ objects s0 ∧ (∀ h, h ∈ R → objects s' !! h = objects s0 !! h)).
  { intros s' [I' Ho' Hc' Hsn' Hsv']. split; [done|]. split; [congruence|]. split; [auto|]. split; [|split].
    - rewrite Hc1, Hc in Hsn'. rewrite Hc in Hsn1.
      intros x [[[?|?]%Hsn|?]%Hsn1|?]%Hsn'; auto.
    - by rewrite Ho', <- Ho.
    - intros h Hh. rewrite Ho', Hkeep, Ho; [done|]. by intros [? _]%Horph. }
  destruct r as [[removed failed]|x|]; simpl in Hr; [| |done].
  2:{ destruct Hr as [_ Hns]. destruct (Hbase s1) as (? & ? & ? & ? & ? & ?); [by apply okept_refl|].
      repeat (split; [done|]). simpl. auto. }
  apply wp_bind, wp_on_store, wp_modify. cbn [fs_store set_store].
  pose proof (tree_forget_spec s1 (orphans all) I1) as Hk2. set (s2 := tree_forget _ _) in *.
  apply wp_bind, wp_on_store, wp_lift_fs. cbn [fs_store set_store].
  eapply wp_mono; [apply obj_trim_spec; by destruct Hk2|]. intros r s3 [Hk3 Hr3].
  pose proof (okept_trans _ _ _ Hk2 Hk3) as Hk4. destruct (Hbase s3 Hk4) as (? & ? & ? & ? & ? & ?).
  destruct r as [[]|x|]; simpl in Hr3; [| |done].
  - apply wp_bind. unfold wp, record_gc. cbn [fst snd]. unfold mret, M_ret. repeat (split; [done|]).
    split; [by eexists|]. cbn [fs_store set_store]. intros Hs h Hh.
    rewrite (kept_objects _ _ _ _ _ _ _ Hk4). destruct (objects s0 !! h) eqn:E.
    + apply Hr; [by apply Hsv|]. apply Horph. split; [done|]. by rewrite E.
    + rewrite Hkeep; [by rewrite Ho|]. intros [_ [? ?]]%Horph. congruence.
  - repeat (split; [done|]). intros Hs. apply Hr3, (kept_serving _ _ _ _ _ _ _ Hk2). auto.
Qed.

Lemma searching_start m roots : Forall (root_ok m) roots → searching m roots (rev roots) ∅ false.
Proof.
  intros Hf. rewrite Forall_forall in Hf. split.
  - intros h. rewrite list_elem_of_In, <- in_rev, <- list_elem_of_In. apply Hf.
  - set_solver.
  - intros h. rewrite list_elem_of_In, <- in_rev, <- list_elem_of_In. intros Hh.
    destruct (decide (h = EMPTY_ROOT)); [by left|right]. by apply uses_root.
  - intros _ h es Hh. set_solver.
  - intros _ r Hr. right; right. by rewrite list_elem_of_In, <- in_rev, <- list_elem_of_In.
Qed.

Lemma gc_spec unlocked now later f :
  fs_ok (fs_store f) →
  ∃ n, ∀ fuel, (n ≤ fuel)%nat →
  wp (gc unlocked now fuel later) (λ r f',
    swept_nothing unlocked later f r f' ∨
    ∃ R, searching (objects (fs_store f)) (read_roots (fs_store f)) [] R false ∧ swept_unmarked now f r f' R) f.
Proof.
  intros (I & Hcur & Hsn). set (s := fs_store f) in *.
  exists (length (read_roots s) + to_visit (objects s) ∅ + 1)%nat. intros fuel Hfuel.
  unfold gc. apply wp_bind. unfold wp at 1, get. cbn [fst].
  destruct unlocked; cbn [negb].
  2:{ apply wp_fail. left. split; [by apply okept_refl|]. by exists Locked. }
  destruct (stream_active f) eqn:Hst.
  { apply wp_ret. left. split; [by apply okept_refl|]. split; [done|]. by left. }
  apply wp_bind, wp_on_store, wp_lift_fs. pose proof (all_root_hashes_spec s I) as H1.
  unfold wp in H1 |- *. fold s. unfold read_roots in *.
  destruct (all_root_hashes s) as [r s1]. cbn [fst snd] in *. destruct H1 as [Hk1 H1].
  destruct r as [roots|x|]; simpl in H1; [| |done].
  2:{ left. split; [done|]. exists x. split; [done|]. intros Hs. by apply H1 in Hs. }
  destruct H1 as [Hroots _].
  pose proof (kept_objects _ _ _ _ _ _ _ Hk1) as Ho1. apply wp_bind, wp_on_store. cbn [fs_store set_store].
  eapply wp_mono; [apply (mark_loop_spec fuel s1 roots (rev roots) ∅ false); [by destruct Hk1| |]|].
  { rewrite Ho1. apply searching_start. apply Forall_forall. auto. }
  { rewrite Ho1, length_rev. lia. }
  intros r s2 [Hk2 (R & inc & -> & HS & Hinc)]. rewrite Ho1 in HS. pose proof (okept_trans _ _ _ Hk1 Hk2) as Hk.
  destruct inc.
  { apply wp_ret. left. split; [done|]. split; [done|]. intros Hs.
    by discriminate Hinc; apply (kept_serving _ _ _ _ _ _ _ Hk1). }
  apply wp_bind, wp_on_store, wp_lift_fs. cbn [fs_store set_store].
  eapply wp_mono; [apply all_object_hashes_spec; by destruct Hk2|]. intros r s3 [Hk3 Hr].
  pose proof (okept_trans _ _ _ Hk Hk3) as Hk4. destruct r as [all|x|]; simpl in Hr; [| |done].
  2:{ left. split; [done|]. exists x. split; [done|]. intros Hs.
      exfalso. by apply Hr, (kept_serving _ _ _ _ _ _ _ Hk). }
  destruct (0 <? later) eqn:Hl.
  { apply wp_ret. left. split; [done|]. split; [done|]. intros _. right. lia. }
  eapply wp_mono; [apply (sweep_spec now s); [done|]|].
  { intros h. by rewrite Hr, (kept_objects _ _ _ _ _ _ _ Hk). }
  intros r f' H. right. by exists R.
Qed.

Lemma preserved_same m h : root_ok m h → preserved m m h.
Proof. by split. Qed.
Lemma searched_preserved s s' roots R h :
  os_inv s → searching (objects s) roots [] R false → (∀ h, h ∈ R → objects s' !! h = objects s !! h) →
  root_ok (objects s) h → h = EMPTY_ROOT ∨ h ∈ roots → preserved (objects s) (objects s') h.
Proof.
  intros I HS Hm Hr Hh. apply (marked_preserved _ R); [by apply (search_marking _ _ _ _ _ HS)| |done| |done].
  - destruct (objects s !! EMPTY_ROOT) as [b|] eqn:E; [|done].
    apply objects_addressed in E; [|done]. by apply address_nonzero in E.
  - destruct Hh as [?|Hh]; [by left|].
    destruct (search_roots _ _ _ _ _ HS eq_refl h Hh) as [?|[?|[]%not_elem_of_nil]]; auto.
Qed.
Lemma read_roots_snapshots s :
  os_inv s → (∀ h, h ∈ read_roots s → h ∈ snapshots s) ∧ (serving s → ∀ h, h ∈ snapshots s → h ∈ read_roots s).
Proof.
  intros I. pose proof (all_root_hashes_spec s I) as H1. unfold wp in H1. unfold read_roots.
  destruct (all_root_hashes s) as [[v|x|] s1]; destruct H1 as [_ H1]; [done| |done]. simpl in *.
  split; [by intros h ?%not_elem_of_nil|]. intros Hs. by destruct H1.
Qed.
Lemma uses_more_roots m roots roots' h : (∀ r, r ∈ roots → r ∈ roots') → uses m roots h → uses m roots' h.
Proof. intros Hr. induction 1; [by apply uses_root; auto|by eapply uses_entry|by eapply uses_chunk]. Qed.
Lemma searched_uses s R h :
  os_inv s → Forall (root_ok (objects s)) (snapshots s) → serving s →
  searching (objects s) (read_roots s) [] R false → h ∈ R ↔ uses (objects s) (snapshots s) h.
Proof.
  intros I Hf Hs HS. destruct (read_roots_snapshots s I) as [Hin Hall]. split.
  - intros Hh. eapply uses_more_roots; [exact Hin|]. by apply (search_used _ _ _ _ _ HS).
  - intros Hu. eapply marks_every_use; [done|by apply (search_marking _ _ _ _ _ HS)| |done].
    intros r Hr. destruct (search_roots _ _ _ _ _ HS eq_refl r) as [?|[?|[]%not_elem_of_nil]]; auto.
Qed.

(** Whatever the device does, a collection that has time to finish (so many
    steps of the mark) never panics, and every root it read from a superblock slot
    shows afterwards the same paths with the same contents. *)
Theorem gc_keeps_every_root_it_read unlocked now later f :
  fs_ok (fs_store f) →
  ∃ n, ∀ fuel, (n ≤ fuel)%nat →
  wp (gc unlocked now fuel later) (λ r f', r ≠ Panic ∧
    ∀ h, h ∈ read_roots (fs_store f) → preserved (objects (fs_store f)) (objects (fs_store f')) h) f.
Proof.
  intros Hok. destruct (gc_spec unlocked now later f Hok) as [n Hn]. exists n. intros fuel Hf.
  eapply wp_mono; [by apply Hn|]. destruct Hok as (I & _ & Hsn). destruct (read_roots_snapshots _ I) as [Hsub _].
  intros r f' [[Hk Hr]|(R & HS & _ & _ & _ & _ & _ & Hkeep & Hr)].
  - split; [by destruct r|]. intros h Hh. rewrite (kept_objects _ _ _ _ _ _ _ Hk). auto using preserved_same.
  - split; [by destruct r|]. intros h Hh. eapply searched_preserved; eauto.
Qed.

(** The current root is one of the snapshots, as every commit leaves it. *)
Definition root_in_ring s : Prop := ∃ r, current_root s = Some r ∧ (r = EMPTY_ROOT ∨ r ∈ snapshots s).

End gc.

Import RefCodec.

Lemma gc_keeps_every_root_it_read_witness :
  ∃ n, ∀ fuel, (n ≤ fuel)%nat → wp (gc true 9 fuel 0) (λ r f',
    fsview (objects (fs_store f')) Example.root0 [ascii "g"] = Some (stat_of Example.g)) FsExample.fs0.
Proof.
  destruct (gc_keeps_every_root_it_read true 9 0 FsExample.fs0) as [n Hn]; [apply FsExample.ok0|].
  exists n. intros fuel Hf. eapply wp_mono; [by apply Hn|]. intros r f' [_ Hp].
  destruct (Hp Example.root0) as (_ & Hv & _); [by left|]. rewrite Hv. by rewrite Example.view0.
Defined.

