(* ===== verification/Range.v ===== *)
(** * Random access to a file (storage/npkfs/fs.rs, [RangeReader])

    A reader holds the file's chunk list and resolves where chunks start as it goes;
    what it has learned stays when a read fails.  What a failed read leaves in the
    caller's buffer is not modelled. *)

From S2P Require Import Prelude Bytes Format Object BlockStore ObjectStore Superblock Paths Fs ObjectSpec PathsSpec PathsParse PathsRebuild PathsOps PathsTheorems FsSpec FsTheorems.

(** What [read_at] changes of a chunked source: the starts resolved so far with the
    next one, and the chunk read last. *)
Record Cursor := mkCursor { starts : list Z; cur : option (Z * list byte) }.
Inductive RangeSource :=
  | Whole (b : list byte)
  | ChunkedSource (chunks : list addr) (c : Cursor).
Record RangeReader := mkRangeReader { total_size : Z; src : RangeSource }.

Definition size (r : RangeReader) : Z := total_size r.
Definition held (r : RangeReader) : Z :=
  match src r with
  | Whole b => zlen b
  | ChunkedSource _ c => match cur c with Some (_, b) => zlen b | None => 0 end
  end.
(** [Ok] of the content or [Err] of the reader. *)
Definition into_whole (r : RangeReader) : list byte + RangeReader :=
  match src r with
  | Whole b => inl b
  | src => inr (mkRangeReader (total_size r) src)
  end.

Section range.
Context `{!Codec} {S : Type} `{!ObjectStore S}.
Notation MP := (M S PathError).
Notation MC := (M (S * Cursor) PathError).

Definition open (path : list byte) (budget : Z) : MP (option RangeReader) :=
  root ← fs_current_root;
  r ← catch (walk root path);
  match r with
  | inr NotFound => mret None
  | inr e => fail e
  | inl w =>
      if negb (bool_decide (w_kind w = File)) then fail NotADirectory
      else
        o ← lift_fs (plaintext_size (w_hash w));
        encoded ← ok_or PCorrupt o;
        if budget <? encoded then fail (Storage OutOfMemory)
        else
          o ← lift_fs (obj_get (w_hash w));
          bytes ← ok_or PCorrupt o;
          if first_is_zero bytes then
            blob ← or_corrupt (decode_blob_inplace bytes);
            mret (Some (mkRangeReader (zlen blob) (Whole blob)))
          else
            o ← or_corrupt (decode bytes);
            match o with
            | Chunked total_size chunks => mret (Some (mkRangeReader total_size (ChunkedSource chunks (mkCursor [0] None))))
            | Blob b => mret (Some (mkRangeReader (zlen b) (Whole b)))
            | Tree _ => fail PCorrupt
            end
  end.

Definition get_starts : MC (list Z) := λ sc, (Ok (starts sc.2), sc).
Definition get_cur : MC (option (Z * list byte)) := λ sc, (Ok (cur sc.2), sc).
Definition set_starts (l : list Z) : MC unit := λ sc, (Ok tt, (sc.1, mkCursor l (cur sc.2))).
Definition set_cur (o : option (Z * list byte)) : MC unit := λ sc, (Ok tt, (sc.1, mkCursor (starts sc.2) o)).

(** The loop of [chunk_at], at most [fuel] times. *)
Fixpoint resolve_loop (fuel : nat) (chunks : list addr) (total pos : Z) : MC unit :=
  match fuel with
  | O => panic
  | Datatypes.S fuel =>
      st ← get_starts;
      if match last st with Some s => s <=? pos | None => false end && (zlen st <=? zlen chunks) then
        let k := zlen st - 1 in
        a ← of_opt (at_ st k);
        h ← of_opt (at_ chunks k);
        n ← on_fst (chunk_len h);
        let next := a + n in
        if 2 ^ 64 <=? next then fail PCorrupt
        else if (total <? next) || ((k + 1 =? zlen chunks) && negb (next =? total)) then fail PCorrupt
        else
          _ ← set_starts (st ++ [next]);
          resolve_loop fuel chunks total pos
      else mret tt
  end.

(** [starts.partition_point(|&s| s <= pos)] of an ascending list. *)
Fixpoint partition_point (pos : Z) (l : list Z) : Z :=
  match l with
  | [] => 0
  | s :: l => if s <=? pos then 1 + partition_point pos l else 0
  end.

(** Each turn adds a start, and there are no more than chunks and one. *)
Definition chunk_at (chunks : list addr) (total pos : Z) : MC Z :=
  _ ← resolve_loop (2 + length chunks) chunks total pos;
  st ← get_starts;
  let k := partition_point pos st in
  if (k =? 0) || (zlen st <=? k) then fail PCorrupt else mret (k - 1).

(** The whole chunks from [j] on that end by [end_]. *)
Fixpoint span_loop (fuel : nat) (chunks : list addr) (total end_ j : Z) : MC Z :=
  match fuel with
  | O => panic
  | Datatypes.S fuel =>
      st ← get_starts;
      if j <? zlen chunks then
        s ← of_opt (at_ st j);
        if s <? end_ then
          _ ← chunk_at chunks total s;
          st ← get_starts;
          next ← of_opt (at_ st (j + 1));
          if end_ <? next then mret j else span_loop fuel chunks total end_ (j + 1)
        else mret j
      else mret j
  end.

Context (worker_count : Z).

(** [cur] made to hold chunk [i]. *)
Definition load_chunk (chunks : list addr) (i len budget : Z) : MC unit :=
  c ← get_cur;
  if match c with Some (c, _) => c =? i | None => false end then mret tt
  else if budget <? len then fail (Storage OutOfMemory)
  else
    _ ← set_cur None;
    h ← of_opt (at_ chunks i);
    bytes ← on_fst (read_chunk h);
    if negb (zlen bytes =? len) then fail PCorrupt else set_cur (Some (i, bytes)).

(** [while pos < end]: how much was copied, and the buffer. *)
Fixpoint read_loop (fuel : nat) (chunks : list addr) (total end_ budget pos n : Z) (dst : list byte) : MC (Z * list byte) :=
  match fuel with
  | O => panic
  | Datatypes.S fuel =>
      if pos <? end_ then
        i ← chunk_at chunks total pos;
        st ← get_starts;
        si ← of_opt (at_ st i);
        si1 ← of_opt (at_ st (i + 1));
        if (pos =? si) && (si1 <=? end_) then
          j ← span_loop (Datatypes.S (length chunks)) chunks total end_ (i + 1);
          st ← get_starts;
          sj ← of_opt (at_ st j);
          let span := u64 (sj - si) in
          cs ← of_opt (sub chunks i (j - i));
          ss ← of_opt (sub st i (j - i + 1));
          part ← of_opt (sub dst n span);
          part ← on_fst (read_chunks_into worker_count cs ss part budget false);
          dst ← of_opt (splice dst n part);
          read_loop fuel chunks total end_ budget (u64 (pos + span)) (u64 (n + span)) dst
        else
          _ ← load_chunk chunks i (u64 (si1 - si)) budget;
          c ← get_cur;
          '(_, bytes) ← ok_or PCorrupt c;
          let at' := u64 (pos - si) in
          let take := Z.min (u64 (zlen bytes - at')) (u64 (end_ - pos)) in
          piece ← of_opt (sub bytes at' take);
          dst ← of_opt (splice dst n piece);
          read_loop fuel chunks total end_ budget (u64 (pos + take)) (u64 (n + take)) dst
      else mret (n, dst)
  end.

(** Every turn copies a byte or more, so the buffer's length bounds them. *)
Definition read_at (offset : Z) (dst : list byte) (budget : Z) : M (S * RangeReader) PathError (Z * list byte) := λ sr,
  let '(s, r) := sr in
  let total := total_size r in
  if (total <=? offset) || (zlen dst =? 0) then (Ok (0, dst), sr)
  else
    let end_ := Z.min (sat_add 64 offset (zlen dst)) total in
    match src r with
    | Whole b =>
        match sub b offset (end_ - offset) with
        | None => (Err PCorrupt, sr)
        | Some piece => match splice dst 0 piece with Some dst => (Ok (zlen piece, dst), sr) | None => (Panic, sr) end
        end
    | ChunkedSource chunks c =>
        let '(x, (s', c')) := read_loop (Datatypes.S (length dst)) chunks total end_ budget offset 0 dst (s, c) in
        (x, (s', mkRangeReader total (ChunkedSource chunks c')))
    end.
End range.

(** * Reads of a range return the range (storage/npkfs/fs.rs, [RangeReader]) *)

(** ** Pieces of a content *)
Section pieces.
Implicit Types (ds : list (list byte)) (d : list byte).

(** Where piece [i] starts. *)
Definition off ds (i : nat) : Z := zlen (concat (take i ds)).

Lemma off_0 ds : off ds 0 = 0. Proof. done. Qed.
Lemma off_end ds i : (length ds ≤ i)%nat → off ds i = zlen (concat ds).
Proof. intros. unfold off. by rewrite take_ge. Qed.
Lemma off_S ds i d : ds !! i = Some d → off ds (S i) = off ds i + zlen d.
Proof. intros Hd. unfold off. rewrite (take_S_r _ _ _ Hd), concat_app, zlen_app. cbn [concat]. by rewrite app_nil_r. Qed.
Lemma off_mono ds i j : (i ≤ j)%nat → off ds i ≤ off ds j.
Proof.
  intros Hij. unfold off. replace (take i ds) with (take i (take j ds)) by (rewrite take_take; f_equal; lia).
  rewrite <- (take_drop i (take j ds)) at 2. rewrite concat_app, zlen_app.
  pose proof (zlen_nonneg (concat (drop i (take j ds)))). lia.
Qed.
Lemma off_nonneg ds i : 0 ≤ off ds i. Proof. apply zlen_nonneg. Qed.
Lemma off_le ds i : off ds i ≤ zlen (concat ds).
Proof. rewrite <- (off_end ds (i + length ds)) by lia. apply off_mono. lia. Qed.

Lemma sums_off ds i : (i ≤ length ds)%nat → sums 0 ds !! i = Some (off ds i).
Proof. intros. rewrite sums_lookup by done. unfold off. f_equal. Qed.
Lemma off_take ds k i : (i ≤ k)%nat → off (take k ds) i = off ds i.
Proof. intros. unfold off. rewrite take_take. do 3 f_equal. lia. Qed.
(** The starts resolved so far. *)
Lemma resolved_at ds k i :
  (i ≤ k)%nat → (k ≤ length ds)%nat → at_ (sums 0 (take k ds)) (Z.of_nat i) = Some (off ds i).
Proof.
  intros. unfold at_. rewrite (proj2 (Z.leb_le _ _)), Nat2Z.id by lia. rewrite sums_off by (rewrite length_take; lia).
  by rewrite off_take.
Qed.
Lemma sums_snoc a ds d : sums a (ds ++ [d]) = sums a ds ++ [a + zlen (concat ds) + zlen d].
Proof.
  revert a; induction ds as [|x ds IH]; intros a; [cbn; rewrite zlen_nil; do 2 f_equal; lia|].
  rewrite zlen_concat_cons. rewrite <- app_comm_cons, !sums_cons, IH. cbn [app]. do 3 f_equal. lia.
Qed.
Lemma drop_sums a ds i : (i ≤ length ds)%nat → drop i (sums a ds) = sums (a + off ds i) (drop i ds).
Proof.
  revert a i; induction ds as [|d ds IH]; intros a [|i] Hi; [|simpl in Hi; lia| |].
  1,2: rewrite !drop_0; f_equal; rewrite off_0; lia.
  rewrite sums_cons. cbn [drop]. rewrite IH by (simpl in Hi; lia). f_equal. unfold off. cbn [take]. rewrite zlen_concat_cons. lia.
Qed.
Lemma take_sums a ds n : (n ≤ length ds)%nat → take (S n) (sums a ds) = sums a (take n ds).
Proof.
  revert a n; induction ds as [|d ds IH]; intros a [|n] Hn; [done|simpl in Hn; lia|done|].
  rewrite sums_cons, firstn_cons. cbn [take]. rewrite sums_cons. f_equal. apply IH. simpl in Hn. lia.
Qed.

(** ** Ranges *)
Lemma raw_sub_app (d : list byte) a n n' : 0 ≤ a → 0 ≤ n → 0 ≤ n' → raw_sub d a n ++ raw_sub d (a + n) n' = raw_sub d a (n + n').
Proof.
  intros. unfold raw_sub. rewrite !Z2Nat.inj_add by lia. rewrite <- drop_drop. by rewrite take_take_drop.
Qed.
Lemma raw_splice_twice (d : list byte) a x y :
  0 ≤ a → a + zlen x + zlen y ≤ zlen d → raw_splice (raw_splice d a x) (a + zlen x) y = raw_splice d a (x ++ y).
Proof.
  intros Ha Hl. pose proof (zlen_nonneg x). pose proof (zlen_nonneg y). apply list_eq. intros i.
  rewrite (lookup_raw_splice _ (a + zlen x)); [|rewrite ?zlen_raw_splice; lia..].
  rewrite !lookup_raw_splice by (rewrite ?zlen_app; lia). rewrite zlen_app.
  repeat case_decide; try lia; try done.
  - rewrite lookup_app_r by (unfold zlen in *; lia). f_equal. unfold zlen in *. lia.
  - by rewrite lookup_app_l by (unfold zlen in *; lia).
Qed.
Lemma raw_splice_nil (d : list byte) a : 0 ≤ a → raw_splice d a [] = d.
Proof. intros. unfold raw_splice. cbn. rewrite zlen_nil, Z.add_0_r. apply take_drop. Qed.
Lemma raw_sub_0 (d : list byte) a : raw_sub d a 0 = [].
Proof. done. Qed.

(** Pieces [i] to [j] are the range they cover. *)
Lemma concat_pieces ds i j :
  (i ≤ j)%nat → concat (take (j - i) (drop i ds)) = raw_sub (concat ds) (off ds i) (off ds j - off ds i).
Proof.
  intros Hij. unfold raw_sub. pose proof (off_mono ds i j Hij).
  assert (Hd : drop (Z.to_nat (off ds i)) (concat ds) = concat (drop i ds)).
  { rewrite <- (take_drop i ds) at 2. rewrite concat_app. apply drop_app_length'. unfold off, zlen. lia. }
  rewrite Hd. rewrite <- (take_drop (j - i) (drop i ds)) at 2. rewrite concat_app. symmetry. apply take_app_length'.
  assert (off ds j = off ds i + zlen (concat (take (j - i) (drop i ds)))) as ->; [|unfold zlen; lia].
  unfold off. rewrite <- zlen_app, <- concat_app. do 2 f_equal. rewrite take_take_drop. f_equal. lia.
Qed.
Lemma piece_range ds i d a n :
  ds !! i = Some d → 0 ≤ a → 0 ≤ n → a + n ≤ zlen d → raw_sub d a n = raw_sub (concat ds) (off ds i + a) n.
Proof.
  intros Hd Ha Hn Hl. pose proof (concat_pieces ds i (S i) ltac:(lia)) as E.
  replace (S i - i)%nat with 1%nat in E by lia. rewrite (drop_S _ _ _ Hd) in E. cbn [take concat] in E.
  rewrite app_nil_r, (off_S _ _ _ Hd) in E. replace (off ds i + zlen d - off ds i) with (zlen d) in E by lia.
  rewrite E at 1. pose proof (off_nonneg ds i). unfold raw_sub.
  rewrite Z2Nat.inj_add, <- drop_drop by lia. apply list_eq. intros k.
  destruct (decide (k < Z.to_nat n)%nat).
  - rewrite !lookup_take_lt, !lookup_drop, lookup_take_lt, !lookup_drop by lia. done.
  - by rewrite !lookup_take_ge by lia.
Qed.
End pieces.

(** ** Windows of whole chunks *)
Section windows.
Context {CD : Codec} {CO : CodecOk} {S : Type} {OS : ObjectStore S} {OK : ObjectStoreOk S}.
Implicit Types (s : S) (m : gmap addr (list byte)) (ds : list (list byte)) (hs : list addr).

(** What a window fetched: each chunk, or nothing where the store failed. *)
Definition fetched (o : option (list byte)) (d : list byte) : Prop := o = None ∨ o = Some d.

Lemma fetch_window_spec hs ds s got failed :
  os_inv s → Forall2 (λ d h, blob_at (objects s) h d) ds hs →
  wp (fetch_window hs got failed) (λ r s', okept s s' ∧ ∃ l failed', r = Ok (got ++ l, failed') ∧
    ((l = Some <$> ds ∧ failed' = failed) ∨
     (Forall2 fetched l ds ∧ ¬ serving s ∧ ∃ x, failed' = Some x ∧ (failed = Some x ∨ failed = None ∧ ∃ y, x = Storage y)))) s.
Proof.
  intros I Hf. revert s got failed I Hf; induction hs as [|h hs IH] in ds |- *; intros s got failed I Hf;
    inversion Hf as [|d h' ds' hs' Hd Hf' E1 E2]; subst; cbn [fetch_window].
  { apply wp_ret. split; [by apply okept_refl|]. exists [], failed. rewrite app_nil_r. split; [done|by left]. }
  pose proof (read_chunk_spec s h d I Hd) as H1. unfold wp in *.
  destruct (read_chunk h s) as [[c|x|] s1]; destruct H1 as [Hk H1]; [| |done];
    pose proof (kept_objects _ _ _ _ _ _ _ Hk) as Ho.
  - simpl in H1. subst c.
    specialize (IH ds' s1 (got ++ [Some d]) failed ltac:(by destruct Hk) ltac:(by rewrite Ho)).
    destruct (fetch_window hs _ _ s1) as [r s2]. destruct IH as [Hk2 (l & failed' & -> & IH)].
    split; [by eapply okept_trans|]. exists (Some d :: l), failed'. rewrite <- app_assoc. split; [done|].
    destruct IH as [[-> ->]|(Hl & Hs & Hx)]; [by left|right]. split; [constructor; [by right|done]|]. split; [|done].
    intros Hsv. by apply Hs, (kept_serving _ _ _ _ _ _ _ Hk).
  - assert (Hx : (∃ y, x = Storage y) ∧ ¬ serving s) by (destruct x; try done; eauto). destruct Hx as [Hx Hns].
    specialize (IH ds' s1 (got ++ [None]) (match failed with Some f => Some f | None => Some x end)
      ltac:(by destruct Hk) ltac:(by rewrite Ho)).
    destruct (fetch_window hs _ _ s1) as [r s2]. destruct IH as [Hk2 (l & failed' & -> & IH)].
    split; [by eapply okept_trans|]. exists (None :: l), failed'. rewrite <- app_assoc. split; [done|]. right.
    assert (Hfin : ∃ z, failed' = Some z ∧ (failed = Some z ∨ failed = None ∧ ∃ y, z = Storage y)).
    { destruct IH as [[_ ->]|(_ & _ & z & -> & Hz)]; destruct failed as [f|]; [eauto..| |].
      - exists z. split; [done|]. by destruct Hz as [?|[? ?]]; [left|].
      - exists z. split; [done|]. right. split; [done|]. by destruct Hz as [?|[? ?]]; [simplify_eq|]. }
    split; [|done]. constructor; [by left|]. destruct IH as [[-> _]|(Hl & _)]; [|done].
    clear. induction ds' as [|d ds IH]; constructor; [by right|done].
Qed.

(** Placing the pieces from [a - base] on: those fetched before the first that was
    not. *)
Lemma place_window_spec got ds more base a dst failed :
  Forall2 fetched got ds → 0 ≤ base ≤ a → a + zlen (concat ds) < 2 ^ 64 → a - base + zlen (concat ds) ≤ zlen dst →
  ∃ dst', place_window got (sums a (ds ++ more)) base dst failed = Some (dst', failed) ∧ zlen dst' = zlen dst ∧
    (got = Some <$> ds → dst' = raw_splice dst (a - base) (concat ds)).
Proof.
  intros Hf. revert a dst. induction Hf as [|o d got ds Ho Hf IH]; intros a dst Ha Hb Hl.
  { exists dst. split; [done|]. split; [done|]. intros _. cbn [concat]. by rewrite raw_splice_nil by lia. }
  rewrite zlen_concat_cons in *. pose proof (zlen_nonneg d). pose proof (zlen_nonneg (concat ds)).
  destruct Ho as [->| ->]; [by exists dst|].
  destruct (IH (a + zlen d) (raw_splice dst (a - base) d)) as (dst' & Hp & Hz & Heq); [lia|lia|rewrite zlen_raw_splice; lia|].
  exists dst'. rewrite <- app_comm_cons, sums_cons.
  assert (∃ rest, sums (a + zlen d) (ds ++ more) = (a + zlen d) :: rest) as [rest E] by (destruct (ds ++ more); by eexists).
  rewrite E in Hp |- *. cbn [place_window].
  rewrite (wrap_small 64 (a - base)), (wrap_small 64 (a + zlen d - base)) by (unfold fits; lia).
  replace (a + zlen d - base - (a - base)) with (zlen d) by lia.
  rewrite wrap_small by (unfold fits; lia). rewrite Z.eqb_refl. cbn [negb].
  rewrite splice_Some by lia. cbn [mbind option_bind]. rewrite Hp.
  split; [done|]. split; [by rewrite Hz, zlen_raw_splice by lia|]. intros [= Hg].
  rewrite (Heq Hg). cbn [concat]. replace (a + zlen d - base) with (a - base + zlen d) by lia.
  by rewrite raw_splice_twice by lia.
Qed.

Lemma window_loop_spec fuel hs ds s base window first dst :
  os_inv s → Forall2 (λ d h, blob_at (objects s) h d) ds hs → 0 < window →
  0 ≤ base → base + zlen (concat ds) < 2 ^ 64 → zlen dst = zlen (concat ds) →
  (first ≤ length ds)%nat → (length ds - first < fuel)%nat →
  wp (window_loop fuel hs (sums base ds) base window (Z.of_nat first) dst None) (λ r s', okept s s' ∧
    match r with
    | Ok (v, None) => v = raw_splice dst (off ds first) (concat (drop first ds))
    | Ok (_, Some x) => (∃ y, x = Storage y) ∧ ¬ serving s
    | _ => False
    end) s.
Proof.
  intros I Hf Hw Hb0 Hb Hdst. revert s first dst I Hf Hdst; induction fuel as [|fuel IH]; intros s first dst I Hf Hdst Hfst Hfuel; [lia|].
  cbn [window_loop]. pose proof (Forall2_length _ _ _ Hf) as Hlen.
  destruct (Z.ltb_spec (Z.of_nat first) (zlen hs)) as [Hlt|Hge]; cbn [andb].
  2:{ apply wp_ret. split; [by apply okept_refl|]. rewrite drop_ge by (unfold zlen in *; lia). cbn [concat].
      by rewrite raw_splice_nil by apply off_nonneg. }
  set (last := Z.min _ _). assert (∃ n : nat, last = Z.of_nat n ∧ (first < n ≤ length ds)%nat) as (n & Hn & Hnb).
  { exists (Z.to_nat last). unfold last, zlen in *. lia. }
  rewrite Hn. clearbody last. apply wp_bind.
  assert (Hseg : Forall2 (λ d h, blob_at (objects s) h d) (take (n - first) (drop first ds)) (raw_sub hs (Z.of_nat first) (Z.of_nat n - Z.of_nat first))).
  { unfold raw_sub. replace (Z.to_nat (Z.of_nat n - Z.of_nat first)) with (n - first)%nat by lia. rewrite Nat2Z.id.
    by apply Forall2_take, Forall2_drop. }
  eapply wp_mono; [by apply (fetch_window_spec _ (take (n - first) (drop first ds)))|].
  intros r s1 [Hk (l & failed' & -> & Hl)]. cbn [app]. pose proof (kept_objects _ _ _ _ _ _ _ Hk) as Ho.
  pose proof (off_mono ds first n ltac:(lia)) as Hmono. pose proof (off_le ds n) as Hle. pose proof (off_nonneg ds first).
  assert (Hcat : zlen (concat (take (n - first) (drop first ds))) = off ds n - off ds first).
  { rewrite concat_pieces by lia. apply zlen_raw_sub; lia. }
  destruct (place_window_spec l (take (n - first) (drop first ds)) (drop (n - first) (drop first ds)) base (base + off ds first) dst failed')
    as (dst' & Hp & Hz & Heq); [|lia|lia|lia|].
  { destruct Hl as [[-> _]|[? _]]; [|done]. clear. induction (take _ _) as [|d l IH]; constructor; [by right|done]. }
  rewrite Nat2Z.id, drop_sums by lia. rewrite take_drop in Hp. apply wp_bind. eapply wp_of_opt; [done|].
  destruct Hl as [[-> ->]|(_ & Hns & x & -> & [?|[_ Hx]])]; [|done|].
  - specialize (Heq eq_refl). replace (base + off ds first - base) with (off ds first) in Heq by lia.
    eapply wp_mono; [apply (IH s1 n dst'); [by destruct Hk|by rewrite Ho|by rewrite Hz|lia|lia]|].
    intros r s2 [Hk2 Hr]. split; [by eapply okept_trans|]. destruct r as [[v [x|]]|x|]; [| |done|done].
    + destruct Hr as [? Hs]. split; [done|]. intros Hsv. by apply Hs, (kept_serving _ _ _ _ _ _ _ Hk).
    + subst v dst'. pose proof (off_end ds (length ds) ltac:(lia)) as Hend.
      assert (Hrest : zlen (concat (drop n ds)) = zlen (concat ds) - off ds n).
      { rewrite <- (take_drop n ds) at 2. rewrite concat_app, zlen_app. unfold off. lia. }
      replace (off ds n) with (off ds first + zlen (concat (take (n - first) (drop first ds)))) by lia.
      rewrite raw_splice_twice by lia. f_equal. rewrite <- concat_app. f_equal.
      replace n with (first + (n - first))%nat at 2 by lia. by rewrite <- drop_drop, take_drop.
  - destruct fuel as [|fuel]; [lia|]. cbn [window_loop]. rewrite andb_false_r. apply wp_ret. by split.
Qed.

Lemma read_unshared_spec wc hs ds s dst budget a :
  os_inv s → Forall2 (λ d h, blob_at (objects s) h d) ds hs → Forall (λ d, zlen d ≤ budget) ds → 0 ≤ wc →
  0 ≤ a → a + zlen (concat ds) < 2 ^ 64 → zlen dst = zlen (concat ds) →
  wp (read_chunks_into wc hs (sums a ds) dst budget false)
     (λ r s', okept s s' ∧ pends (serving s) r (λ v, v = concat ds) (λ _, False)) s.
Proof.
  intros I Hf Hbud Hwc Ha Hb Hdst. unfold read_chunks_into. pose proof (zlen_nonneg (concat ds)).
  apply wp_bind. eapply (wp_of_opt _ a); [by destruct ds|].
  pose proof (Forall2_length _ _ _ Hf) as Hlen. apply wp_bind. eapply wp_of_opt.
  { replace (zlen hs) with (Z.of_nat (length ds)) by (unfold zlen; by rewrite Hlen). apply sums_end. }
  replace (a + zlen (concat ds) - a) with (zlen (concat ds)) by lia. rewrite wrap_small by (unfold fits; lia).
  rewrite Hdst, Z.eqb_refl, over_window_sums by done. cbn [negb]. apply wp_bind.
  eapply wp_mono; [apply (window_loop_spec _ hs ds s a _ 0); [done|done|lia|done|done|done|lia|lia]|].
  intros r s1 [Hk Hr]. destruct r as [[v [x|]]|x|]; [| |done|done].
  - apply wp_fail. split; [done|]. by destruct Hr as [[y ->] ?].
  - apply wp_ret. split; [done|]. subst v. cbn [pends]. rewrite off_0, drop_0. unfold raw_splice. cbn.
    rewrite drop_ge by (unfold zlen in *; lia). by rewrite app_nil_r.
Qed.
End windows.

(** ** The cursor *)
Lemma partition_point_spec pos l :
  0 ≤ partition_point pos l ≤ zlen l ∧
  (∀ i x, Z.of_nat i < partition_point pos l → l !! i = Some x → x ≤ pos) ∧
  (∀ x, l !! Z.to_nat (partition_point pos l) = Some x → pos < x).
Proof.
  induction l as [|s l (Hb & Hlo & Hhi)]; cbn [partition_point]; [by split; [|split]|].
  rewrite zlen_cons. destruct (Z.leb_spec s pos) as [Hs|Hs].
  - split; [lia|]. split.
    + intros [|i] x Hi Hx; [by simplify_eq/=|]. eapply (Hlo i); [lia|done].
    + intros x. replace (Z.to_nat (1 + partition_point pos l)) with (S (Z.to_nat (partition_point pos l))) by lia. apply Hhi.
  - split; [pose proof (zlen_nonneg l); lia|]. split; [lia|]. intros x Hx. by simplify_eq/=.
Qed.

Section cursor.
Context {CD : Codec} {CO : CodecOk} {S : Type} {OS : ObjectStore S} {OK : ObjectStoreOk S}.
Implicit Types (s : S) (m : gmap addr (list byte)).
Context (chunks : list addr) (ds : list (list byte)).
Let total := zlen (concat ds).

(** The starts of the first [k] chunks are resolved; the chunk held is the file's. *)
Record cursor_at m (k : nat) (c : Cursor) : Prop := {
  cursor_pieces : Forall2 (λ d h, blob_at m h d) ds chunks;
  cursor_bound : (k ≤ length ds)%nat;
  cursor_starts : starts c = sums 0 (take k ds);
  cursor_cur i b : cur c = Some (i, b) → 0 ≤ i ∧ ds !! Z.to_nat i = Some b }.

(** A step of the reader: the cursor stays right and learns at most. *)
Definition cpost {A} s (k : nat) (r : res PathError A) (sc : S * Cursor) (P : nat → A → Prop) : Prop :=
  okept s sc.1 ∧ ∃ k', (k ≤ k')%nat ∧ cursor_at (objects s) k' sc.2 ∧ pends (serving s) r (P k') (λ _, False).

Lemma cpost_bind {A B} (f : M (S * Cursor) PathError A) (g : A → M (S * Cursor) PathError B) s k c P Q :
  cursor_at (objects s) k c →
  wp f (λ r sc, cpost s k r sc P) (s, c) →
  (∀ a s1 c1 k1, okept s s1 → (k ≤ k1)%nat → cursor_at (objects s1) k1 c1 → P k1 a →
     wp (g a) (λ r sc, cpost s1 k1 r sc Q) (s1, c1)) →
  wp (a ← f; g a) (λ r sc, cpost s k r sc Q) (s, c).
Proof.
  intros Hc Hf Hg. apply wp_bind. eapply wp_mono; [exact Hf|]. intros r [s1 c1] (Hk & k1 & Hk1 & Hc1 & Hr).
  cbn [fst snd] in *. pose proof (kept_objects _ _ _ _ _ _ _ Hk) as Ho. destruct r as [a|x|]; [| |done].
  - eapply wp_mono; [apply (Hg a s1 c1 k1); [done|done|by rewrite Ho|done]|].
    intros r [s2 c2] (Hk2 & k2 & Hk2' & Hc2 & Hr2). split; [by eapply okept_trans|]. exists k2. split; [lia|].
    rewrite Ho in Hc2. split; [done|]. destruct r as [v|x|]; [done| |done]. eapply pends_err; [exact Hr2|by destruct Hk|done].
  - split; [done|]. exists k1. split; [done|]. split; [done|]. by eapply pends_err.
Qed.
Lemma cpost_ret {A} (a : A) s k c (P : nat → A → Prop) :
  os_inv s → cursor_at (objects s) k c → P k a → wp (mret a) (λ r sc, cpost s k r sc P) (s, c).
Proof. intros I Hc HP. apply wp_ret. split; [by apply okept_refl|]. by exists k. Qed.
(** A read of the store leaves the cursor. *)
Lemma store_step {A B} (f : M S PathError A) (g : A → M (S * Cursor) PathError B) s k c (P : A → Prop) Q :
  cursor_at (objects s) k c →
  wp f (λ r s', okept s s' ∧ pends (serving s) r P (λ _, False)) s →
  (∀ a s1, okept s s1 → cursor_at (objects s1) k c → P a → wp (g a) (λ r sc, cpost s1 k r sc Q) (s1, c)) →
  wp (a ← on_fst f; g a) (λ r sc, cpost s k r sc Q) (s, c).
Proof.
  intros Hc Hf Hg. apply wp_bind, wp_on_fst. eapply wp_mono; [exact Hf|]. intros r s1 [Hk Hr].
  pose proof (kept_objects _ _ _ _ _ _ _ Hk) as Ho. destruct r as [a|x|]; [| |done].
  - eapply wp_mono; [apply (Hg a s1); [done|by rewrite Ho|done]|].
    intros r [s2 c2] (Hk2 & k2 & Hk2' & Hc2 & Hr2). split; [by eapply okept_trans|]. exists k2. split; [lia|].
    rewrite Ho in Hc2. split; [done|]. destruct r as [v|x|]; [done| |done]. eapply pends_err; [exact Hr2|by destruct Hk|done].
  - split; [done|]. exists k. split; [done|]. split; [done|]. by eapply pends_err.
Qed.

Lemma get_starts_step {B} (g : list Z → M (S * Cursor) PathError B) Q s c k :
  cursor_at (objects s) k c → wp (g (sums 0 (take k ds))) Q (s, c) → wp (l ← get_starts; g l) Q (s, c).
Proof. intros Hc Hg. apply wp_bind. unfold wp at 1, get_starts. cbn [fst snd]. by rewrite (cursor_starts _ _ _ Hc). Qed.

Hypothesis Htotal : total < 2 ^ 64.

Lemma resolve_loop_spec fuel s k c pos :
  os_inv s → cursor_at (objects s) k c → 0 ≤ pos < total → (length ds - k < fuel)%nat →
  wp (resolve_loop fuel chunks total pos) (λ r sc, cpost s k r sc (λ k' _, pos < off ds k')) (s, c).
Proof.
  revert s k c; induction fuel as [|fuel IH]; intros s k c I Hc Hpos Hfuel; [lia|]. cbn [resolve_loop].
  pose proof Hc as [Hf Hb Hst Hcur]. pose proof (Forall2_length _ _ _ Hf) as Hlen.
  eapply get_starts_step; [done|].
  assert (Hlen' : zlen (sums 0 (take k ds)) = Z.of_nat k + 1).
  { unfold zlen. rewrite sums_length, length_take. lia. }
  assert (Hlast : last (sums 0 (take k ds)) = Some (off ds k)).
  { rewrite last_lookup, sums_length, length_take. replace (pred (Datatypes.S (k `min` length ds))) with k by lia.
    rewrite sums_off by (rewrite length_take; lia). by rewrite off_take. }
  rewrite Hlast, Hlen'. destruct (Z.leb_spec (off ds k) pos) as [Hle|Hgt]; cbn [andb].
  2:{ apply cpost_ret; [done|done|lia]. }
  assert (Hk : (k < length ds)%nat).
  { destruct (decide (k < length ds)%nat); [done|]. rewrite off_end in Hle by lia. fold total in Hle. lia. }
  rewrite (proj2 (Z.leb_le _ _)) by (unfold zlen; lia). replace (Z.of_nat k + 1 - 1) with (Z.of_nat k) by lia.
  apply wp_bind. eapply wp_of_opt; [apply resolved_at; lia|].
  destruct (lookup_lt_is_Some_2 ds k Hk) as [d Hd].
  destruct (Forall2_lookup_l _ _ _ _ _ Hf Hd) as (h & Hh & Hblob).
  apply wp_bind. eapply (wp_of_opt _ h).
  { unfold at_. by rewrite (proj2 (Z.leb_le _ _)), Nat2Z.id by lia. }
  eapply store_step; [done|by apply (chunk_len_spec s h d)|].
  cbn beta. intros n s1 Hk1 Hc1 ->. pose proof (kept_objects _ _ _ _ _ _ _ Hk1) as Ho.
  pose proof (off_S _ _ _ Hd) as HS. pose proof (off_le ds (Datatypes.S k)) as Hle'. fold total in Hle'.
  rewrite <- HS. rewrite (proj2 (Z.leb_gt _ _)), (proj2 (Z.ltb_ge _ _)) by lia. cbn [orb].
  replace (_ && _) with false.
  2:{ symmetry. apply andb_false_iff. rewrite negb_false_iff. destruct (Z.eqb_spec (Z.of_nat k + 1) (zlen chunks)); [right|by left].
      apply Z.eqb_eq. rewrite off_end by (unfold zlen in *; lia). done. }
  set (c' := mkCursor (sums 0 (take k ds) ++ [off ds (Datatypes.S k)]) (cur c)).
  assert (Hc' : cursor_at (objects s1) (Datatypes.S k) c').
  { split; [by rewrite Ho|lia| |done]. cbn [starts c']. rewrite (take_S_r _ _ _ Hd), sums_snoc, HS. done. }
  apply wp_bind. unfold wp at 1, set_starts. cbn [fst snd]. fold c'.
  eapply wp_mono; [apply (IH s1 (Datatypes.S k) c'); [by destruct Hk1|done|done|lia]|].
  intros r [s2 c2] (Hk2 & k2 & ? & Hc2 & Hr2). split; [done|]. exists k2. split; [lia|]. done.
Qed.

Lemma chunk_at_spec s k c pos :
  os_inv s → cursor_at (objects s) k c → 0 ≤ pos < total →
  wp (chunk_at chunks total pos) (λ r sc, cpost s k r sc (λ k' v, ∃ i, v = Z.of_nat i ∧ (i < k')%nat ∧
    off ds i ≤ pos < off ds (Datatypes.S i))) (s, c).
Proof.
  intros I Hc Hpos. unfold chunk_at. pose proof (Forall2_length _ _ _ (cursor_pieces _ _ _ Hc)) as Hlen.
  eapply cpost_bind; [done|apply resolve_loop_spec; [done|done|done|lia]|].
  intros [] s1 c1 k1 Hk1 Hkk Hc1 Hlt. cbn beta in Hlt. eapply get_starts_step; [done|].
  pose proof (cursor_bound _ _ _ Hc1) as Hb. destruct (partition_point_spec pos (sums 0 (take k1 ds))) as (Hpb & Hlo & Hhi).
  set (p := partition_point _ _) in *.
  assert (Hlook : ∀ i, (i ≤ k1)%nat → sums 0 (take k1 ds) !! i = Some (off ds i)).
  { intros i Hi. rewrite sums_off by (rewrite length_take; lia). by rewrite off_take. }
  assert (Hlen' : zlen (sums 0 (take k1 ds)) = Z.of_nat k1 + 1).
  { unfold zlen. rewrite sums_length, length_take. lia. }
  assert (1 ≤ p).
  { destruct (decide (1 ≤ p)); [done|]. assert (p = 0) as Hp by lia. rewrite Hp in Hhi.
    specialize (Hhi _ (Hlook 0%nat ltac:(lia))). rewrite off_0 in Hhi. lia. }
  assert (p ≤ Z.of_nat k1).
  { destruct (decide (p ≤ Z.of_nat k1)); [done|]. specialize (Hlo k1 _ ltac:(lia) (Hlook k1 ltac:(lia))). lia. }
  rewrite (proj2 (Z.eqb_neq _ _)), (proj2 (Z.leb_gt _ _)) by lia. cbn [orb].
  apply cpost_ret; [by destruct Hk1|done|]. exists (Z.to_nat (p - 1)). split; [lia|]. split; [lia|]. split.
  - eapply (Hlo (Z.to_nat (p - 1))); [lia|]. apply Hlook. lia.
  - apply Hhi. replace (Datatypes.S (Z.to_nat (p - 1))) with (Z.to_nat p) by lia. apply Hlook. lia.
Qed.

Lemma span_loop_spec fuel s k c end_ j :
  os_inv s → cursor_at (objects s) k c → end_ ≤ total → (j ≤ k)%nat → off ds j ≤ end_ → (length ds - j < fuel)%nat →
  wp (span_loop fuel chunks total end_ (Z.of_nat j)) (λ r sc, cpost s k r sc (λ k' v, ∃ j', v = Z.of_nat j' ∧
    (j ≤ j' ≤ k')%nat ∧ off ds j' ≤ end_)) (s, c).
Proof.
  revert s k c j; induction fuel as [|fuel IH]; intros s k c j I Hc Hend Hj Hoff Hfuel; [lia|]. cbn [span_loop].
  pose proof (Forall2_length _ _ _ (cursor_pieces _ _ _ Hc)) as Hlen. pose proof (cursor_bound _ _ _ Hc) as Hb.
  eapply get_starts_step; [done|].
  destruct (Z.ltb_spec (Z.of_nat j) (zlen chunks)) as [Hlt|Hge]; [|apply cpost_ret; [done|done|]; by exists j].
  apply wp_bind. eapply wp_of_opt; [apply resolved_at; lia|].
  destruct (Z.ltb_spec (off ds j) end_) as [Hlt'|Hge]; [|apply cpost_ret; [done|done|]; by exists j].
  pose proof (off_nonneg ds j). eapply cpost_bind; [done|apply chunk_at_spec; [done|done|lia]|]. cbn beta.
  intros v s1 c1 k1 Hk1 Hkk Hc1 (i & -> & Hi & Hio). eapply get_starts_step; [done|].
  pose proof (cursor_bound _ _ _ Hc1) as Hb1.
  assert (Hj1 : (Datatypes.S j ≤ k1)%nat).
  { destruct (decide (Datatypes.S j ≤ k1)%nat); [done|]. pose proof (off_mono ds (Datatypes.S i) j ltac:(lia)). lia. }
  replace (Z.of_nat j + 1) with (Z.of_nat (Datatypes.S j)) by lia.
  apply wp_bind. eapply wp_of_opt; [apply resolved_at; lia|].
  assert (I1 : os_inv s1) by (by destruct Hk1).
  destruct (Z.ltb_spec end_ (off ds (Datatypes.S j))); [apply cpost_ret; [done|done|]; exists j; split; [done|]; lia|].
  eapply wp_mono; [apply (IH s1 k1 c1 (Datatypes.S j)); [done|done|done|done|done|lia]|].
  intros r [s2 c2] (Hk2 & k2 & ? & Hc2 & Hr2). split; [done|]. exists k2. split; [done|]. split; [done|].
  destruct r as [v|x|]; [|done|done]. destruct Hr2 as (j' & -> & ? & ?). exists j'. split; [done|]. split; [lia|done].
Qed.

Lemma load_chunk_spec s k c i d budget :
  os_inv s → cursor_at (objects s) k c → ds !! i = Some d → zlen d ≤ budget →
  wp (load_chunk chunks (Z.of_nat i) (zlen d) budget) (λ r sc, cpost s k r sc (λ _ _, cur sc.2 = Some (Z.of_nat i, d))) (s, c).
Proof.
  intros I Hc Hd Hbud. unfold load_chunk. pose proof Hc as [Hf Hb Hst Hcur].
  apply wp_bind. unfold wp at 1, get_cur. cbn [fst snd].
  destruct (match cur c with Some (c0, _) => c0 =? Z.of_nat i | None => false end) eqn:E.
  { apply wp_ret. split; [by apply okept_refl|]. exists k. split; [done|]. split; [done|]. cbn [pends snd].
    destruct (cur c) as [[j b]|] eqn:Ec; [|done]. apply Z.eqb_eq in E as ->. destruct (Hcur _ _ eq_refl) as [_ Hb'].
    rewrite Nat2Z.id in Hb'. by simplify_eq. }
  rewrite (proj2 (Z.ltb_ge _ _)) by lia. apply wp_bind. unfold wp at 1, set_cur. cbn [fst snd].
  assert (Hc0 : cursor_at (objects s) k (mkCursor (starts c) None)) by (by split).
  destruct (Forall2_lookup_l _ _ _ _ _ Hf Hd) as (h & Hh & Hblob). apply wp_bind. eapply (wp_of_opt _ h).
  { unfold at_. by rewrite (proj2 (Z.leb_le _ _)), Nat2Z.id by lia. }
  apply wp_bind, wp_on_fst. eapply wp_mono; [by apply (read_chunk_spec s h d)|]. intros r s1 [Hk Hr].
  destruct r as [v|x|]; [| |done].
  - simpl in Hr. subst v. rewrite Z.eqb_refl. cbn [negb]. unfold wp, set_cur. cbn [fst snd]. split; [done|].
    exists k. split; [done|]. split; [|done]. split; [done|done|done|]. cbn [cur]. intros j b [= <- <-].
    rewrite Nat2Z.id. split; [lia|done].
  - split; [done|]. exists k. split; [done|]. split; [done|]. by eapply pends_err.
Qed.

(** What [read_loop] leaves: the range from [pos] to [end_], placed at [n]. *)
Definition filled (end_ pos n : Z) (dst : list byte) (v : Z * list byte) : Prop :=
  v = (n + (end_ - pos), raw_splice dst n (raw_sub (concat ds) pos (end_ - pos))).

Lemma filled_step end_ pos n dst t v :
  0 ≤ pos → 0 ≤ n → 0 ≤ t → pos + t ≤ end_ ≤ total → n + (end_ - pos) ≤ zlen dst →
  filled end_ (pos + t) (n + t) (raw_splice dst n (raw_sub (concat ds) pos t)) v → filled end_ pos n dst v.
Proof.
  unfold filled. intros ????? ->. assert (Hz : zlen (raw_sub (concat ds) pos t) = t) by (apply zlen_raw_sub; unfold total in *; lia).
  assert (Hz' : zlen (raw_sub (concat ds) (pos + t) (end_ - (pos + t))) = end_ - (pos + t)) by (apply zlen_raw_sub; unfold total in *; lia).
  f_equal; [lia|]. replace (n + t) with (n + zlen (raw_sub (concat ds) pos t)) by lia. rewrite raw_splice_twice by lia. f_equal. rewrite raw_sub_app by lia. f_equal. lia.
Qed.

Lemma whole_chunks_step {B} wc budget (g : Z → list byte → M (S * Cursor) PathError B) Q s k c i end_ n dst :
  os_inv s → cursor_at (objects s) k c → Forall (λ d, zlen d ≤ budget) ds → 0 ≤ wc → (Datatypes.S i ≤ k)%nat →
  off ds (Datatypes.S i) ≤ end_ ≤ total → 0 ≤ n → n + (end_ - off ds i) ≤ zlen dst →
  (∀ s1 k1 c1 t, okept s s1 → cursor_at (objects s1) k1 c1 → off ds (Datatypes.S i) ≤ off ds i + t ≤ end_ →
     wp (g t (raw_splice dst n (raw_sub (concat ds) (off ds i) t))) (λ r sc, cpost s1 k1 r sc Q) (s1, c1)) →
  wp (j ← span_loop (Datatypes.S (length chunks)) chunks total end_ (Z.of_nat (Datatypes.S i));
      st ← get_starts;
      sj ← of_opt (at_ st j);
      cs ← of_opt (sub chunks (Z.of_nat i) (j - Z.of_nat i));
      ss ← of_opt (sub st (Z.of_nat i) (j - Z.of_nat i + 1));
      part ← of_opt (sub dst n (u64 (sj - off ds i)));
      part ← on_fst (read_chunks_into wc cs ss part budget false);
      dst ← of_opt (splice dst n part);
      g (u64 (sj - off ds i)) dst) (λ r sc, cpost s k r sc Q) (s, c).
Proof.
  intros I Hc Hbud Hwc Hi Hend Hn Hroom Hg.
  pose proof (Forall2_length _ _ _ (cursor_pieces _ _ _ Hc)) as Hlen.
  eapply cpost_bind; [done|apply span_loop_spec; [done|done|lia|done|lia|lia]|]. cbn beta.
  intros v s1 c1 k1 Hk1 Hkk Hc1 (j & -> & Hj & Hoj). eapply get_starts_step; [done|].
  pose proof Hc1 as [Hf1 Hb1 _ _]. pose proof (off_mono ds (Datatypes.S i) j ltac:(lia)) as Hm.
  pose proof (off_mono ds i (Datatypes.S i) ltac:(lia)) as Hm'. pose proof (off_nonneg ds i) as H0.
  set (t := off ds j - off ds i). set (seg := take (j - i) (drop i ds)).
  assert (Hcat : concat seg = raw_sub (concat ds) (off ds i) t) by (apply concat_pieces; lia).
  assert (Hz : zlen (concat seg) = t) by (rewrite Hcat; apply zlen_raw_sub; unfold total, t in *; lia).
  apply wp_bind. eapply wp_of_opt; [apply resolved_at; lia|]. fold t.
  rewrite (wrap_small 64 t) by (unfold fits, t; lia).
  replace (Z.of_nat j - Z.of_nat i) with (Z.of_nat (j - i)) by lia.
  apply wp_bind. eapply wp_of_opt; [apply sub_Some; unfold zlen; lia|].
  apply wp_bind. eapply wp_of_opt; [apply sub_Some; unfold zlen; rewrite ?sums_length, ?length_take; lia|].
  apply wp_bind. eapply wp_of_opt; [apply sub_Some; unfold t; lia|].
  assert (Hss : raw_sub (sums 0 (take k1 ds)) (Z.of_nat i) (Z.of_nat (j - i) + 1) = sums (off ds i) seg).
  { unfold raw_sub. replace (Z.to_nat (Z.of_nat (j - i) + 1)) with (Datatypes.S (j - i)) by lia. rewrite Nat2Z.id.
    rewrite drop_sums by (rewrite length_take; lia). rewrite take_sums by (rewrite length_drop, length_take; lia).
    rewrite off_take by lia. unfold seg. rewrite skipn_firstn_comm, take_take. do 2 f_equal. lia. }
  assert (Hcs : Forall2 (λ d h, blob_at (objects s1) h d) seg (raw_sub chunks (Z.of_nat i) (Z.of_nat (j - i)))).
  { unfold raw_sub. rewrite !Nat2Z.id. by apply Forall2_take, Forall2_drop. }
  rewrite Hss. eapply store_step; [done|apply (read_unshared_spec wc _ seg); [by destruct Hk1|done| |done|done| |]|].
  - by apply Forall_take, Forall_drop.
  - rewrite Hz. unfold t. lia.
  - rewrite Hz. apply zlen_raw_sub; unfold t; lia.
  - cbn beta. intros part s2 Hk2 Hc2 ->. apply wp_bind. eapply wp_of_opt; [apply splice_Some; unfold t in *; lia|].
    rewrite Hcat. apply Hg; [by eapply okept_trans|done|]. unfold t. lia.
Qed.

Lemma piece_step {B} budget (g : Z → list byte → M (S * Cursor) PathError B) Q s k c i end_ pos n dst :
  os_inv s → cursor_at (objects s) k c → Forall (λ d, zlen d ≤ budget) ds → (Datatypes.S i ≤ k)%nat →
  off ds i ≤ pos < off ds (Datatypes.S i) → pos < end_ ≤ total → 0 ≤ n → n + (end_ - pos) ≤ zlen dst →
  (∀ s1 k1 c1 t, okept s s1 → cursor_at (objects s1) k1 c1 → 0 < t → pos + t ≤ end_ →
     wp (g t (raw_splice dst n (raw_sub (concat ds) pos t))) (λ r sc, cpost s1 k1 r sc Q) (s1, c1)) →
  wp (_ ← load_chunk chunks (Z.of_nat i) (u64 (off ds (Datatypes.S i) - off ds i)) budget;
      c ← get_cur;
      '(_, bytes) ← ok_or PCorrupt c;
      let take := Z.min (u64 (zlen bytes - u64 (pos - off ds i))) (u64 (end_ - pos)) in
      piece ← of_opt (sub bytes (u64 (pos - off ds i)) take);
      dst ← of_opt (splice dst n piece);
      g take dst) (λ r sc, cpost s k r sc Q) (s, c).
Proof.
  intros I Hc Hbud Hi Hpos Hend Hn Hroom Hg. pose proof Hc as [Hf Hb _ _].
  destruct (lookup_lt_is_Some_2 ds i) as [d Hd]; [lia|]. pose proof (off_S _ _ _ Hd) as HS.
  pose proof (off_le ds (Datatypes.S i)) as Hle. fold total in Hle. pose proof (off_nonneg ds i). pose proof (zlen_nonneg d).
  rewrite HS in *. replace (off ds i + zlen d - off ds i) with (zlen d) by lia.
  rewrite (wrap_small 64 (zlen d)), (wrap_small 64 (pos - off ds i)), (wrap_small 64 (end_ - pos)) by (unfold fits; lia).
  assert (Hdb : zlen d ≤ budget) by (rewrite Forall_forall in Hbud; by apply Hbud, (list_elem_of_lookup_2 _ i)).
  apply wp_bind. eapply wp_mono; [by apply load_chunk_spec|]. intros r [s1 c1] (Hk & k1 & Hkk & Hc1 & Hr).
  destruct r as [[]|x|]; [| |done].
  2:{ split; [done|]. exists k1. split; [done|]. split; [done|]. by eapply pends_err. }
  cbn [fst snd pends] in *. apply wp_bind. unfold wp at 1, get_cur. cbn [fst snd]. rewrite Hr.
  apply wp_bind, wp_ret. cbv zeta. rewrite (wrap_small 64 (zlen d - _)) by (unfold fits; lia).
  set (t := Z.min _ _). assert (Ht : 0 < t ∧ pos + t ≤ end_ ∧ pos - off ds i + t ≤ zlen d) by (unfold t; lia). clearbody t.
  apply wp_bind. eapply wp_of_opt; [apply sub_Some; lia|].
  rewrite (piece_range ds i d) by (done || lia). replace (off ds i + (pos - off ds i)) with pos by lia.
  assert (Hz : zlen (raw_sub (concat ds) pos t) = t) by (apply zlen_raw_sub; unfold total in *; lia).
  apply wp_bind. eapply wp_of_opt; [apply splice_Some; lia|].
  pose proof (kept_objects _ _ _ _ _ _ _ Hk) as Ho.
  eapply wp_mono; [apply (Hg s1 k1 c1); [done|by rewrite Ho|lia|lia]|].
  intros r [s2 c2] (Hk2 & k2 & ? & Hc2 & Hr2). split; [by eapply okept_trans|]. exists k2. split; [lia|].
  rewrite Ho in Hc2. split; [done|]. destruct r as [v|x|]; [done| |done]. eapply pends_err; [exact Hr2|by destruct Hk|done].
Qed.

Lemma read_loop_spec wc budget fuel s k c end_ pos n dst :
  os_inv s → cursor_at (objects s) k c → Forall (λ d, zlen d ≤ budget) ds → 0 ≤ wc →
  0 ≤ pos ≤ end_ → end_ ≤ total → 0 ≤ n → n + (end_ - pos) ≤ zlen dst → zlen dst < 2 ^ 64 → end_ - pos < Z.of_nat fuel →
  wp (read_loop wc fuel chunks total end_ budget pos n dst)
     (λ r sc, cpost s k r sc (λ _ v, filled end_ pos n dst v)) (s, c).
Proof.
  intros I Hc Hbud Hwc. revert s k c pos n dst I Hc;
    induction fuel as [|fuel IH]; intros s k c pos n dst I Hc Hpos Hend Hn Hroom Hdst Hfuel; [lia|]. cbn [read_loop].
  destruct (Z.ltb_spec pos end_) as [Hlt|Hge].
  2:{ apply cpost_ret; [done|done|]. unfold filled. assert (end_ - pos = 0) as -> by lia.
      rewrite raw_sub_0, raw_splice_nil, Z.add_0_r by lia. done. }
  assert (Hnext : ∀ s1 k1 c1 t, okept s s1 → cursor_at (objects s1) k1 c1 → 0 < t → pos + t ≤ end_ →
    wp (read_loop wc fuel chunks total end_ budget (u64 (pos + t)) (u64 (n + t)) (raw_splice dst n (raw_sub (concat ds) pos t)))
      (λ r sc, cpost s1 k1 r sc (λ _ v, filled end_ pos n dst v)) (s1, c1)).
  { intros s1 k1 c1 t Hk1 Hc1 Ht Hpt. rewrite !wrap_small by (unfold fits; lia).
    assert (Hz : zlen (raw_sub (concat ds) pos t) = t) by (apply zlen_raw_sub; unfold total in *; lia).
    assert (Hz' : zlen (raw_splice dst n (raw_sub (concat ds) pos t)) = zlen dst) by (apply zlen_raw_splice; lia).
    eapply wp_mono; [apply (IH s1 k1 c1); [by destruct Hk1|done|lia|lia|lia|lia|lia|lia]|].
    intros r [s2 c2] (Hk2 & k2 & ? & Hc2 & Hr2). split; [done|]. exists k2. split; [done|]. split; [done|].
    destruct r as [v|x|]; [|done|done]. eapply filled_step; [| | | | |exact Hr2]; lia. }
  eapply cpost_bind; [done|apply chunk_at_spec; [done|done|lia]|]. cbn beta.
  intros v s1 c1 k1 Hk1 Hkk Hc1 (i & -> & Hi & Hio). eapply get_starts_step; [done|].
  pose proof (cursor_bound _ _ _ Hc1) as Hb1. pose proof (cursor_pieces _ _ _ Hc1) as Hf1.
  replace (Z.of_nat i + 1) with (Z.of_nat (Datatypes.S i)) by lia.
  apply wp_bind. eapply wp_of_opt; [apply resolved_at; lia|]. apply wp_bind. eapply wp_of_opt; [apply resolved_at; lia|].
  assert (I1 : os_inv s1) by (by destruct Hk1). pose proof (off_nonneg ds i).
  destruct (Z.eqb_spec pos (off ds i)) as [Epos|Epos], (Z.leb_spec (off ds (Datatypes.S i)) end_) as [Ele|Ele]; cbn [andb].
  1: subst pos; apply (whole_chunks_step wc budget (λ t, read_loop wc fuel chunks total end_ budget (u64 (off ds i + t)) (u64 (n + t))));
      [done|done|done|done|lia|lia|lia|lia|];
    intros s2 k2 c2 t Hk2 Hc2 Ht; apply Hnext; [by eapply okept_trans|done|lia|lia].
  all: eapply (piece_step budget (λ t, read_loop wc fuel chunks total end_ budget (u64 (pos + t)) (u64 (n + t))));
    [done|done|done|lia|lia|lia|lia|lia|].
  all: intros s2 k2 c2 t Hk2 Hc2 Ht Hpt; apply Hnext; [by eapply okept_trans|done|lia|lia].
Qed.
End cursor.

(** ** The reader *)
Section reader.
Context {CD : Codec} {CO : CodecOk} {S : Type} {OS : ObjectStore S} {OK : ObjectStoreOk S}.
Implicit Types (s : S) (m : gmap addr (list byte)) (rd : RangeReader) (d : list byte).

(** [rd] reads the content [d], no chunk of it longer than [budget]. *)
Definition reader_ok m rd d (budget : Z) : Prop :=
  total_size rd = zlen d ∧ zlen d < 2 ^ 64 ∧
  match src rd with
  | Whole b => b = d
  | ChunkedSource chunks c => ∃ ds k, d = concat ds ∧ cursor_at chunks ds m k c ∧ Forall (λ d, zlen d ≤ budget) ds
  end.

(** The bytes of [d] at [offset], as many as there are and fit, into [dst]. *)
Definition range_of d (offset : Z) (dst : list byte) : Z * list byte :=
  let n := Z.max 0 (Z.min (zlen dst) (zlen d - offset)) in (n, raw_splice dst 0 (raw_sub d offset n)).

Lemma read_at_spec wc s rd d offset dst budget :
  os_inv s → reader_ok (objects s) rd d budget → 0 ≤ wc → 0 ≤ offset → zlen dst < 2 ^ 64 →
  wp (read_at wc offset dst budget) (λ r sr, okept s sr.1 ∧ reader_ok (objects s) sr.2 d budget ∧
    pends (serving s) r (λ v, v = range_of d offset dst) (λ _, False)) (s, rd).
Proof.
  intros I Hrd Hwc Hoff Hdst. pose proof Hrd as (Ht & Hz & Hsrc). unfold wp, read_at, range_of. cbn [fst snd]. rewrite Ht.
  pose proof (zlen_nonneg dst). pose proof (zlen_nonneg d).
  destruct (Z.leb_spec (zlen d) offset) as [Hle|Hgt]; cbn [orb].
  { split; [by apply okept_refl|]. split; [done|]. cbn [pends]. rewrite Z.max_l by lia.
    by rewrite raw_sub_0, raw_splice_nil by lia. }
  destruct (Z.eqb_spec (zlen dst) 0) as [E|E].
  { split; [by apply okept_refl|]. split; [done|]. cbn [pends]. rewrite E, Z.max_l by lia.
    by rewrite raw_sub_0, raw_splice_nil by lia. }
  set (n := Z.max 0 _). replace (Z.min (sat_add 64 offset (zlen dst)) (zlen d)) with (offset + n) by (unfold n, sat_add; lia).
  assert (Hn : 0 < n ∧ offset + n ≤ zlen d ∧ n ≤ zlen dst) by (unfold n; lia). clearbody n.
  replace (offset + n - offset) with n by lia. destruct (src rd) as [b|chunks c] eqn:Es.
  - subst b. rewrite sub_Some by lia. assert (Hzn : zlen (raw_sub d offset n) = n) by (apply zlen_raw_sub; lia).
    rewrite splice_Some by lia. split; [by apply okept_refl|]. split; [done|]. cbn [pends]. by rewrite Hzn.
  - destruct Hsrc as (ds & k & -> & Hc & Hbud).
    pose proof (read_loop_spec chunks ds Hz wc budget (Datatypes.S (length dst)) s k c (offset + n) offset 0 dst I Hc Hbud Hwc) as H1.
    unfold wp in H1. specialize (H1 ltac:(lia) ltac:(lia) ltac:(lia) ltac:(lia) Hdst ltac:(unfold zlen in *; lia)).
    destruct (read_loop _ _ _ _ _ _ _ _ _ _) as [r [s1 c1]]. destruct H1 as (Hk & k1 & _ & Hc1 & Hr). cbn [fst snd] in *.
    split; [done|]. split; [split; [done|]; split; [done|]; cbn [src]; by exists ds, k1|].
    destruct r as [v|x|]; [|done|done]. cbn [pends] in *. rewrite Hr. f_equal; [lia|]. do 2 f_equal. lia.
Qed.

(** A client: open the file, then read these ranges. *)
Fixpoint reads (wc budget : Z) (qs : list (Z * list byte)) : M (S * RangeReader) PathError (list (Z * list byte)) :=
  match qs with
  | [] => mret []
  | (offset, dst) :: qs => v ← read_at wc offset dst budget; vs ← reads wc budget qs; mret (v :: vs)
  end.
Definition with_reader {A} rd (m : M (S * RangeReader) PathError A) : M S PathError A := λ s,
  let '(r, (s', _)) := m (s, rd) in (r, s').
Definition open_and_read (wc budget : Z) (path : list byte) (qs : list (Z * list byte)) :
    M S PathError (option (list (Z * list byte))) :=
  o ← open path budget;
  match o with
  | None => mret None
  | Some rd => with_reader rd (vs ← reads wc budget qs; mret (Some vs))
  end.

Lemma reads_spec wc budget qs s rd d :
  os_inv s → reader_ok (objects s) rd d budget → 0 ≤ wc → Forall (λ q, 0 ≤ q.1 ∧ zlen q.2 < 2 ^ 64) qs →
  wp (reads wc budget qs) (λ r sr, okept s sr.1 ∧
    pends (serving s) r (λ vs, vs = (λ q, range_of d q.1 q.2) <$> qs) (λ _, False)) (s, rd).
Proof.
  intros I Hrd Hwc Hq. revert s rd I Hrd; induction Hq as [|[offset dst] qs [Ho Hd] Hq IH]; intros s rd I Hrd; cbn [reads].
  { apply wp_ret. by split; [apply okept_refl|]. }
  apply wp_bind. eapply wp_mono; [by apply read_at_spec|]. intros r [s1 rd1] (Hk & Hrd1 & Hr). cbn [fst snd] in *.
  pose proof (kept_objects _ _ _ _ _ _ _ Hk) as Hob.
  destruct r as [v|x|]; [|split; [done|by eapply pends_err]|done]. simpl in Hr. subst v.
  apply wp_bind. eapply wp_mono; [apply (IH s1 rd1); [by destruct Hk|by rewrite Hob]|].
  intros r [s2 rd2] [Hk2 Hr2]. cbn [fst snd] in *. pose proof (okept_trans _ _ _ Hk Hk2).
  destruct r as [vs|x|]; [| |done].
  - simpl in Hr2. subst vs. apply wp_ret. by split.
  - split; [done|]. eapply pends_err; [exact Hr2|by destruct Hk|done].
Qed.

(** The budget covers the object of the file at [h], and each chunk of it. *)
Definition affords m (h : addr) (budget : Z) : Prop :=
  ∀ b, m !! h = Some b → zlen b ≤ budget ∧
    ∀ n hs c d, from_bytes b = Some (Chunked n hs) → c ∈ hs → blob_at m c d → zlen d ≤ budget.

(** The object opened. *)
Lemma open_object_spec s h d budget :
  os_inv s → file_content (objects s) h d → zlen d < 2 ^ 64 → affords (objects s) h budget →
  wp (o ← lift_fs (plaintext_size h);
      encoded ← ok_or PCorrupt o;
      if budget <? encoded then fail (Storage OutOfMemory)
      else
        o ← lift_fs (obj_get h);
        bytes ← ok_or PCorrupt o;
        if first_is_zero bytes then
          blob ← or_corrupt (decode_blob_inplace bytes);
          mret (Some (mkRangeReader (zlen blob) (Whole blob)))
        else
          o ← or_corrupt (decode bytes);
          match o with
          | Chunked total_size chunks => mret (Some (mkRangeReader total_size (ChunkedSource chunks (mkCursor [0] None))))
          | Blob b => mret (Some (mkRangeReader (zlen b) (Whole b)))
          | Tree _ => fail PCorrupt
          end)
     (λ r s', okept s s' ∧ pends (serving s) r (λ o, ∃ rd, o = Some rd ∧ reader_ok (objects s) rd d budget) (λ _, False)) s.
Proof.
  intros I Hd Hz Haff. assert (∃ b, objects s !! h = Some b) as [b Hb].
  { destruct Hd as [(_ & b & ? & _)|(b & hs & ds & ? & _)]; by exists b. }
  destruct (Haff b Hb) as [Hzb Hch].
  apply wp_bind, wp_lift_fs. eapply wp_mono; [by apply plaintext_size_spec|]. intros r s1 [Hk Hr].
  destruct r as [o|x|]; simpl in Hr; [|split; [done|]; by destruct Hr|done]. subst o. rewrite Hb.
  apply wp_bind, wp_ret. rewrite (proj2 (Z.ltb_ge _ _)) by lia.
  pose proof (kept_objects _ _ _ _ _ _ _ Hk) as Ho.
  apply wp_bind, wp_lift_fs. eapply wp_mono; [apply obj_get_spec; by destruct Hk|]. intros r s2 [Hk2 Hr].
  pose proof (okept_trans _ _ _ Hk Hk2) as Hk3.
  destruct r as [o|x|]; simpl in Hr; [| |done].
  2:{ split; [done|]. intros Hsv. by apply Hr, (kept_serving _ _ _ _ _ _ _ Hk). }
  rewrite Ho, Hb in Hr. subst o. apply wp_bind, wp_ret. destruct Hd as [Hd|(b' & hs & ds & Hb' & He & -> & Hf)].
  - destruct (blob_bytes _ _ _ _ Hd Hb) as (Hdec & _ & ->). apply wp_bind. eapply wp_or_corrupt; [done|].
    apply wp_ret. split; [done|]. eexists. split; [done|]. by split; [|split].
  - simplify_eq. pose proof (from_bytes_to_allocvec _ _ He) as Hdec. destruct (encode_tag _ _ He) as [l ->].
    change (first_is_zero (tag _ :: l)) with false. apply wp_bind. eapply wp_or_corrupt; [unfold decode; by rewrite Hdec|].
    apply wp_ret. split; [done|]. eexists. split; [done|]. split; [done|]. split; [done|]. exists ds, 0%nat.
    split; [done|]. split; [split; [done|lia|done|done]|]. apply Forall_forall. intros d Hin.
    apply list_elem_of_lookup in Hin as [i Hi]. destruct (Forall2_lookup_l _ _ _ _ _ Hf Hi) as (c & Hc & Hblob).
    eapply Hch; [done|by eapply list_elem_of_lookup_2|done].
Qed.

Lemma open_spec s root path budget :
  os_inv s → current_root s = Some root → root_ok (objects s) root →
  (∀ segs h n t fl, parse_path path = Ok segs → fsview (objects s) root segs = Some (SFile h n t fl) →
     affords (objects s) h budget) →
  wp (open path budget) (λ r s', okept s s' ∧ pends (serving s) r
    (λ o, ∃ segs, parse_path path = Ok segs ∧
       match o with
       | Some rd => ∃ h d t fl, fsview (objects s) root segs = Some (SFile h (zlen d) t fl) ∧
           file_content (objects s) h d ∧ reader_ok (objects s) rd d budget
       | None => absent (fsview (objects s) root) segs NotFound
       end) (no_file (objects s) root path)) s.
Proof.
  intros I Hc Hr Haff. unfold open.
  apply (on_file_spec _ (λ h d rd, reader_ok (objects s) rd d budget)); [done|done|done|].
  intros w segs d t fl s1 Hk Hp Hv Hz Hd. pose proof (kept_objects _ _ _ _ _ _ _ Hk) as Ho. rewrite <- Ho.
  apply open_object_spec; [by destruct Hk|done|done|]. rewrite Ho. by eapply Haff.
Qed.
Lemma wp_with_reader {A} rd (m : M (S * RangeReader) PathError A) (Q : res PathError A → S → Prop) s :
  wp m (λ r sr, Q r sr.1) (s, rd) → wp (with_reader rd m) Q s.
Proof. unfold wp, with_reader. by destruct (m (s, rd)) as [r [s' rd']]. Qed.

(** C20. A range reader returns ranges of the file.  Opened at a path of the current
    tree, with a budget that covers the file's object and chunks, every read of any
    sequence copies exactly the bytes at its offset, as many as the file has and the
    buffer takes, whether the file is one blob or chunks of any lengths; a missing
    file is [None].  It fails only as the path tells or when the store does. *)
Theorem range_reads_return_the_file wc budget path qs s root :
  os_inv s → current_root s = Some root → root_ok (objects s) root → 0 ≤ wc →
  Forall (λ q, 0 ≤ q.1 ∧ zlen q.2 < 2 ^ 64) qs →
  (∀ segs h n t fl, parse_path path = Ok segs → fsview (objects s) root segs = Some (SFile h n t fl) →
     affords (objects s) h budget) →
  wp (open_and_read wc budget path qs) (λ r s', okept s s' ∧ pends (serving s) r
    (λ o, ∃ segs, parse_path path = Ok segs ∧
       match o with
       | Some vs => ∃ h d t fl, fsview (objects s) root segs = Some (SFile h (zlen d) t fl) ∧
           file_content (objects s) h d ∧ vs = (λ q, range_of d q.1 q.2) <$> qs
       | None => absent (fsview (objects s) root) segs NotFound
       end) (no_file (objects s) root path)) s.
Proof.
  intros I Hc Hr Hwc Hq Haff. unfold open_and_read. apply wp_bind.
  eapply wp_mono; [by apply (open_spec s root path budget)|]. intros r s1 [Hk H1].
  pose proof (kept_objects _ _ _ _ _ _ _ Hk) as Ho.
  destruct r as [o|x|]; [|by split; [|eapply pends_err]|done]. destruct H1 as (segs & Hp & H1).
  destruct o as [rd|]; [|apply wp_ret; split; [done|]; by exists segs].
  destruct H1 as (h & d & t & fl & Hv & Hd & Hrd). apply wp_with_reader, wp_bind.
  eapply wp_mono; [apply (reads_spec wc budget qs s1 rd d); [by destruct Hk|by rewrite Ho|done|done]|].
  intros r [s2 rd2] [Hk2 H2]. cbn [fst snd] in *. pose proof (okept_trans _ _ _ Hk Hk2).
  destruct r as [vs|x|]; [| |done].
  - simpl in H2. subst vs. apply wp_ret. split; [done|]. exists segs. split; [done|]. by exists h, d, t, fl.
  - split; [done|]. eapply pends_err; [exact H2|by destruct Hk|done].
Qed.
End reader.

Import RefCodec.

Lemma range_reads_return_the_file_witness :
  wp (open_and_read 1 100 (ascii "/g") [(1, [x00; x00]); (2, [x00; x00])])
    (λ r s', r = Ok (Some [(2, [x62; x63]); (1, [x63; x00])])) Example.store0.
Proof.
  eapply wp_mono; [apply (range_reads_return_the_file 1 100 (ascii "/g") _ Example.store0 Example.root0);
    [apply Example.store_inv|done|apply Example.root0_ok|done|by repeat constructor|]|].
  - intros segs h n t fl Hp Hv. rewrite Example.parse_g in Hp. apply Ok_inj in Hp as <-. rewrite Example.view0 in Hv.
    change (Some (stat_of Example.g) = Some (SFile h n t fl)) in Hv. apply (inj Some) in Hv.
    assert (h = Example.g_addr) as -> by (by injection Hv). intros b Hb.
    destruct (Example.g_blob [Example.g]) as (_ & b' & Hb' & He). change (objects Example.store0 !! Example.g_addr = Some b') in Hb'. rewrite Hb' in Hb. apply (inj Some) in Hb as <-.
    change (Some Example.g_bytes = Some b') in He. apply (inj Some) in He as <-. split; [by vm_compute|]. done.
  - intros r s' [_ H]. destruct r as [o|x|]; [| |done].
    + destruct H as (segs & Hp & H). rewrite Example.parse_g in Hp. apply Ok_inj in Hp as <-.
      destruct o as [vs|]; [|by apply Example.present0 in H]. destruct H as (h & d & t & fl & Hv & Hd & ->).
      rewrite Example.view0 in Hv. change (Some (stat_of Example.g) = Some (SFile h (zlen d) t fl)) in Hv. apply (inj Some) in Hv.
      assert (h = Example.g_addr) as -> by (by injection Hv).
      assert (d = Example.g_data) as -> by (eapply file_content_fun; [done|left; apply Example.g_blob]). done.
    + exfalso. destruct x; try (destruct H as [H|(segs & Hp & H)]; [by rewrite Example.parse_g in H|];
        rewrite Example.parse_g in Hp; apply Ok_inj in Hp as <-;
        destruct H as [H|(_ & t & fl & H)]; [by apply Example.present0 in H|by rewrite Example.view0 in H]).
      by apply H.
Defined.
