(* ===== verification/DirectIo.v ===== *)
(** * Reading and writing past the block cache

    Object data goes to the device in whole extents, not through the cache:
    [write_extent], [read_multi_extent] and [flush] of drivers/blkdev.rs, next to
    the cache's own [flush] and its end.  The contract: on blocks the cache has no
    copy of, a device write is what reads return; on blocks with nothing left to
    write back, a device read is.  [MemStore] meets it; CacheDirect.v shows that the
    cache does. *)

From S2P Require Import Prelude Bytes Format BlockStore BlockDev.

Class DirectIo (C : Type) := {
  write_extent : Z → Z → list byte → M C BlkError unit;        (* blkdev::write_extent *)
  read_multi_extent : list (Z * Z) → M C BlkError (list byte); (* into a buffer of the extents' size *)
  discard_ranges : list (Z * Z) → M C BlkError unit;
  dev_flush : M C BlkError unit;                               (* blkdev::flush *)
  cache_flush : M C FsError unit;                              (* BlockCache::flush *)
  cache_renew : C → C;                                         (* the cache dropped, BlockCache::new *)
}.

(** The [i]-th block of [data]. *)
Definition chunk (data : list byte) (i : Z) : block := raw_sub data (i * BLOCK_SIZE) BLOCK_SIZE.

(** The blocks of an extent, of a list of extents. *)
Definition span (x : Z * Z) : list Z := seqZ x.1 x.2.
Definition spans (l : list (Z * Z)) : list Z := mjoin (span <$> l).

Class DirectIoOk (C : Type) `{!BlockStore C} (check : block → bool) `{!BlockStoreOk C check} `{!DirectIo C} := {
  (** The cache has no copy of the block. *)
  uncached : C → Z → Prop;
  uncached_invalidate c b : store_inv c → uncached (invalidate b c) b ∧ ∀ b', uncached c b' → uncached (invalidate b c) b';
  uncached_direct c b : store_inv c → uncached c b → direct c b;

  write_extent_spec c start n data : store_inv c → 0 ≤ n → zlen data = n * BLOCK_SIZE →
    (∀ b, b ∈ span (start, n) → uncached c b) →
    wp (write_extent start n data) (λ r c', store_inv c' ∧ (healthy c → healthy c') ∧
      (∀ b, b ∉ span (start, n) → view c' b = view c b) ∧
      (∀ b, direct c b → direct c' b) ∧ (∀ b, uncached c b → uncached c' b) ∧
      served (healthy c) r (λ _, ∀ i, 0 ≤ i < n → view c' (start + i) = chunk data i)) c;

  read_multi_extent_spec c l : store_inv c → Forall (λ x, 0 ≤ x.2) l → (∀ b, b ∈ spans l → direct c b) →
    wp (read_multi_extent l) (λ r c', store_inv c' ∧ same (view c) (view c') ∧ (healthy c → healthy c') ∧
      (∀ b, direct c b → direct c' b) ∧ served (healthy c) r (λ bs, bs = mjoin (view c <$> spans l))) c;

  (** A discard may leave its blocks in any state. *)
  discard_spec c l : store_inv c → (∀ b, b ∈ spans l → uncached c b) →
    wp (discard_ranges l) (λ r c', store_inv c' ∧ (healthy c → healthy c') ∧ r ≠ Panic ∧
      (∀ b, b ∉ spans l → view c' b = view c b) ∧
      (∀ b, direct c b → direct c' b) ∧ (∀ b, uncached c b → uncached c' b)) c;

  dev_flush_spec c : store_inv c →
    wp dev_flush (λ r c', store_inv c' ∧ same (view c) (view c') ∧ (healthy c → healthy c') ∧
      (∀ b, direct c b → direct c' b) ∧ served (healthy c) r (λ _, True)) c;

  (** After a flush the device has everything. *)
  cache_flush_spec c : store_inv c →
    wp cache_flush (λ r c', store_inv c' ∧ same (view c) (view c') ∧ (healthy c → healthy c') ∧
      (∀ b, direct c b → direct c' b) ∧ ends (healthy c) r (λ _, ∀ b, direct c' b) True) c;

  (** What was not written back is gone with the cache. *)
  renew_spec c : store_inv c →
    store_inv (cache_renew c) ∧ (∀ b, uncached (cache_renew c) b) ∧
    ∀ b, direct c b → view (cache_renew c) b = view c b;
}.

(** ** Without a cache *)
Fixpoint mem_write_extent (n : nat) (start : Z) (data : list byte) (m : MemStore) : MemStore :=
  match n with
  | O => m
  | S n => mem_write_extent n (start + 1) (drop (Z.to_nat BLOCK_SIZE) data) (<[start := take (Z.to_nat BLOCK_SIZE) data]> m)
  end.

#[global] Instance mem_direct : DirectIo MemStore := {
  write_extent start n data := λ m, (Ok tt, mem_write_extent (Z.to_nat n) start data m);
  read_multi_extent l := λ m, (Ok (mjoin (mem_view m <$> spans l)), m);
  discard_ranges l := λ m, (Ok tt, m);
  dev_flush := λ m, (Ok tt, m);
  cache_flush := λ m, (Ok tt, m);
  cache_renew m := m;
}.

Lemma chunk_drop data i : 0 ≤ i → chunk (drop (Z.to_nat BLOCK_SIZE) data) i = chunk data (i + 1).
Proof. intros Hi. unfold chunk, raw_sub. rewrite drop_drop. do 2 f_equal. unfold BLOCK_SIZE. lia. Qed.

Lemma mem_write_extent_spec n start data (m : MemStore) : map_Forall (λ _ v, is_block v) m →
  zlen data = Z.of_nat n * BLOCK_SIZE → let m' := mem_write_extent n start data m in
  map_Forall (λ _ v, is_block v) m' ∧ (∀ b, ¬ start ≤ b < start + Z.of_nat n → mem_view m' b = mem_view m b) ∧
  ∀ i, 0 ≤ i < Z.of_nat n → mem_view m' (start + i) = chunk data i.
Proof.
  revert start data m. induction n as [|n IH]; intros start data m Hm Hl; simpl; [split_and!; [done|done|lia]|].
  set (v := take _ data). assert (zlen v = BLOCK_SIZE) as Hv.
  { unfold v, zlen, BLOCK_SIZE in *. rewrite length_take. lia. }
  destruct (IH (start + 1) (drop (Z.to_nat BLOCK_SIZE) data) (<[start := v]> m)) as (H1 & H2 & H3).
  { by apply map_Forall_insert_2. } { unfold zlen, BLOCK_SIZE in *. rewrite length_drop. lia. }
  destruct (mem_view_updated m start v) as [U1 U2]. split_and!; [done| |].
  - intros b Hb. rewrite H2 by lia. apply U2. lia.
  - intros i Hi. destruct (decide (i = 0)) as [->|].
    + rewrite Z.add_0_r, H2, U1 by lia. done.
    + replace (start + i) with (start + 1 + (i - 1)) by lia. rewrite H3 by lia. rewrite chunk_drop by lia. f_equal. lia.
Qed.

Lemma elem_of_span b x : b ∈ span x ↔ x.1 ≤ b < x.1 + x.2.
Proof. unfold span. rewrite elem_of_seqZ. done. Qed.

#[global] Program Instance mem_direct_ok check : DirectIoOk MemStore check := { uncached _ _ := True }.
Next Obligation. done. Qed.
Next Obligation. done. Qed.
Next Obligation.
  intros check c start n data I Hn Hl _. unfold wp. simpl.
  destruct (mem_write_extent_spec (Z.to_nat n) start data c) as (H1 & H2 & H3); [done|by rewrite Z2Nat.id|].
  rewrite Z2Nat.id in H2, H3 by done. split_and!; [done|done| |done|done|done].
  intros b Hb. apply H2. by rewrite elem_of_span in Hb.
Qed.
Next Obligation. intros. unfold wp. simpl. by split_and!. Qed.
Next Obligation. intros. unfold wp. simpl. by split_and!. Qed.
Next Obligation. intros. unfold wp. simpl. by split_and!. Qed.
Next Obligation. intros. unfold wp. simpl. by split_and!. Qed.
Next Obligation. intros. simpl. by split_and!. Qed.
