(* ===== verification/CacheDirect.v ===== *)
(** * Reading and writing past the cache

    The cache with the device's extent calls meets [DirectIoOk]: a device write of
    blocks the cache has no copy of is what reads return, a device read of blocks
    with nothing to write back returns what reads would, a flush writes all of it
    back, and a new cache shows what the device holds. *)

From S2P Require Import Prelude Bytes Format BlockStore BlockDev DirectIo Bitmap BitmapSpec Memory MemorySpec Heap Cache CacheList CacheClean CacheSpec CacheOps CacheFlush CacheRefine.

(** The extent calls of drivers/blkdev.rs. *)
Class ExtentDev (D : Type) := {
  dev_write_extent : Z → Z → list byte → M D BlkError unit;
  dev_read_multi_extent : list (Z * Z) → M D BlkError (list byte);
  dev_discard_ranges : list (Z * Z) → M D BlkError unit;
  dev_barrier : M D BlkError unit;                          (* blkdev::flush *)
}.

Class ExtentDevOk (D : Type) `{!BlockDev D} `{!BlockDevOk D} `{!ExtentDev D} := {
  dev_write_extent_spec d start n data : dev_inv d → 0 ≤ n → zlen data = n * BLOCK_SIZE →
    wp (dev_write_extent start n data) (λ r d', dev_inv d' ∧ (dev_ok d → dev_ok d') ∧
      (∀ b, b ∉ span (start, n) → dview d' b = dview d b) ∧
      served (dev_ok d) r (λ _, ∀ i, 0 ≤ i < n → dview d' (start + i) = chunk data i)) d;
  dev_read_multi_extent_spec d l : dev_inv d → Forall (λ x, 0 ≤ x.2) l →
    wp (dev_read_multi_extent l) (λ r d', dev_inv d' ∧ same (dview d) (dview d') ∧ (dev_ok d → dev_ok d') ∧
      served (dev_ok d) r (λ bs, bs = mjoin (dview d <$> spans l))) d;
  dev_discard_spec d l : dev_inv d →
    wp (dev_discard_ranges l) (λ r d', dev_inv d' ∧ (dev_ok d → dev_ok d') ∧ r ≠ Panic ∧
      ∀ b, b ∉ spans l → dview d' b = dview d b) d;
  dev_barrier_spec d : dev_inv d →
    wp dev_barrier (λ r d', dev_inv d' ∧ same (dview d) (dview d') ∧ (dev_ok d → dev_ok d') ∧ served (dev_ok d) r (λ _, True)) d;
}.

Section direct.
Context {D : Type} `{!BlockDev D} `{!BlockDevOk D} `{!ExtentDev D} `{!ExtentDevOk D}.
Context (check : list byte → bool) (shrinkers : option (list Memory.Shrinker)).
Notation St := (@St D).
Notation cache_inv := (cache_inv check).
Implicit Types (st : St).

(** A device call next to the cache. *)
Definition past {A} (m : M D BlkError A) : M St BlkError A := λ st, let '(r, d) := m (dev st) in (r, set_dev d st).

Lemma wp_past {A} (m : M D BlkError A) (Q : res BlkError A → St → Prop) st :
  wp m (λ r d, Q r (set_dev d st)) (dev st) → wp (past m) Q st.
Proof. unfold wp, past. by destruct (m (dev st)). Qed.

#[global] Instance cache_direct : DirectIo St := {
  write_extent start n data := past (dev_write_extent start n data);
  read_multi_extent l := past (dev_read_multi_extent l);
  discard_ranges l := past (dev_discard_ranges l);
  dev_flush := past dev_barrier;
  cache_flush := Cache.flush;
  cache_renew st := set_cache Cache.new st;
}.

(** The device changes only blocks with no copy in the cache. *)
Lemma dev_beside st d (l : list Z) : cache_inv st → dev_inv d → (dev_ok (dev st) → dev_ok d) → (∀ b, b ∈ l → cmap (cache st) !! b = None) →
  (∀ b, b ∉ l → dview d b = dview (dev st) b) →
  cache_inv (set_dev d st) ∧ (cache_healthy st → cache_healthy (set_dev d st)) ∧
  (∀ b, b ∉ l → cache_view (set_dev d st) b = cache_view st b) ∧ ∀ b, b ∈ l → cache_view (set_dev d st) b = dview d b.
Proof.
  intros (k & K & Hc) Hi Hok Hu Hf. split; [|split; [|split]].
  - exists k. split; [by apply core_dev|]. eapply contents_dev; [done|]. intros s x Hs Hx _. apply Hf. intros Hb.
    pose proof (held_slot st k (s_block x) s x K Hs Hx eq_refl) as E. by rewrite Hu in E.
  - intros [Hd Hr]. split; [by apply Hok|exact Hr].
  - intros b Hb. unfold cache_view. simpl. destruct (cmap (cache st) !! b); [done|by apply Hf].
  - intros b Hb. unfold cache_view. simpl. by rewrite Hu.
Qed.

(** A flush moves no slot and no frame. *)
Definition steady {A} (m : M St FsError A) : Prop := ∀ st,
  wp m (λ _ st', idle (cache st') = idle (cache st) ∧ mem st' = mem st ∧ usable st' = usable st) st.

Lemma steady_bind {A B} (m : M St FsError A) (k : A → M St FsError B) : steady m → (∀ a, steady (k a)) → steady (mbind k m).
Proof.
  intros Hm Hk st. apply wp_bind. eapply wp_mono; [apply Hm|]. intros [a|e|] st1 (E1 & E2 & E3); [|done|done].
  eapply wp_mono; [apply Hk|]. intros r st2 (F1 & F2 & F3). by rewrite F1, F2, F3.
Qed.
Lemma steady_step f : (∀ c c', f c = Some c' → idle c' = idle c) → steady (step f).
Proof. intros Hf st. unfold wp, step. destruct (f (cache st)) eqn:E; [|done]. split; [by apply Hf|done]. Qed.
Lemma steady_get_slot s : steady (get_slot s).
Proof. intros st. unfold wp, get_slot, gets, mbind, M_bind. by destruct (slot (cache st) s). Qed.
Lemma steady_pure {A} (m : M St FsError A) : (∀ st, cache (m st).2 = cache st ∧ mem (m st).2 = mem st ∧ usable (m st).2 = usable st) → steady m.
Proof. intros H st. unfold wp. specialize (H st). destruct (m st) as [r st']. simpl in H. destruct H as (E1 & E2 & E3). by rewrite E1, E2, E3. Qed.
Lemma steady_bytes s : steady (bytes s).
Proof. apply steady_bind; [apply steady_get_slot|]. intros; by apply steady_pure. Qed.
Lemma steady_mod s f : steady (step (mod_slot s f)).
Proof. apply steady_step. intros c c'. unfold mod_slot. destruct (slot c s); [|done]. by intros [= <-]. Qed.

Lemma flush_steady : steady Cache.flush.
Proof.
  apply steady_bind; [by apply steady_pure|]. intros o. apply steady_bind; [by destruct o; apply steady_pure|]. intros l. cbv zeta.
  case_bool_decide; [apply steady_step; by intros c c' [= <-]|]. generalize (sort_dedup l). intros k.
  apply steady_bind.
  { induction k as [|s k IH]; cbn [batch_of]; [by apply steady_pure|]. apply steady_bind; [apply steady_get_slot|]. intros x.
    apply steady_bind; [apply steady_bytes|]. intros v. apply steady_bind; [done|]. intros r. by apply steady_pure. }
  intros b. apply steady_bind; [apply steady_pure; intros st; unfold on_dev; by destruct (from_blk _ _)|]. intros _. apply steady_bind.
  { induction k as [|s k IH]; cbn [clean_all]; [by apply steady_pure|]. apply steady_bind; [apply steady_mod|]. done. }
  intros _. apply steady_step. by intros c c' [= <-].
Qed.

Lemma flush_keeps_clean b : keeps b Cache.flush.
Proof.
  apply keeps_bind; [apply keeps_gets|]. intros o. apply keeps_bind; [by destruct o; apply keeps_pure|]. intros l. cbv zeta.
  case_bool_decide; [by apply keeps_slots|]. generalize (sort_dedup l). intros k.
  apply keeps_bind.
  { induction k as [|s k IH]; cbn [batch_of]; [apply keeps_ret|]. apply keeps_bind; [apply keeps_get_slot|]. intros x.
    apply keeps_bind; [apply keeps_bytes|]. intros v. apply keeps_bind; [done|]. intros r. apply keeps_ret. }
  intros bs. apply keeps_bind; [apply keeps_on_dev|]. intros _. apply keeps_bind.
  { induction k as [|s k IH]; cbn [clean_all]; [apply keeps_ret|]. apply keeps_bind; [by apply keeps_mod|]. done. }
  intros _. by apply keeps_slots.
Qed.

Lemma flush_healthy st st' : cache_healthy st → (dev_ok (dev st) → dev_ok (dev st')) → cmap (cache st') = cmap (cache st) →
  idle (cache st') = idle (cache st) → mem st' = mem st → usable st' = usable st → cache_healthy st'.
Proof.
  intros [Hd Hr] Hok E1 E2 E3 E4. split; [by apply Hok|]. unfold roomy, high_watermark in *. by rewrite E1, E2, E3, E4.
Qed.

#[local] Notation uncached st b := (cmap (cache st) !! b = None).

Lemma invalidate_cmap st b : cache_inv st → wp (cache_invalidate b) (λ _ st', cmap (cache st') = base.delete b (cmap (cache st))) st.
Proof.
  intros (l & K & Hc). apply wp_bind, wp_gets. destruct (cmap (cache st) !! b) as [s|] eqn:Hm.
  2:{ apply wp_ret. by rewrite delete_id. }
  destruct (hit_slot st [] l b s K Hm) as ([i Hi]%list_elem_of_lookup & x & Hx & Hb & _).
  assert (dll (set_cmap (base.delete b (cmap (cache st))) (cache st)) l) as L0 by (by eapply dll_same; [apply (k_dll _ _ _ K)|..]).
  destruct (unlink_spec _ l i s L0 Hi) as (c1 & Ec1 & R1 & L1).
  apply wp_bind. eapply wp_step; [done|]. apply wp_bind. eapply wp_step; [exact Ec1|].
  destruct (relinked_slot _ _ s x R1 Hx) as (x1 & Hx1 & _).
  apply wp_bind. eapply (wp_mod s x1 (with_dirty false)); [exact Hx1|]. eapply wp_step; [done|]. exact (r_map _ _ R1).
Qed.

Lemma invalidate_uncached st b : cache_inv st →
  uncached (cache_invalidate b st).2 b ∧ ∀ b', uncached st b' → uncached (cache_invalidate b st).2 b'.
Proof.
  intros I. pose proof (invalidate_cmap st b I) as H. unfold wp in H. destruct (cache_invalidate b st) as [r st'].
  cbn [snd]. rewrite H. split; [apply lookup_delete_eq|]. intros b' Hb'. rewrite lookup_delete_None. by right.
Qed.

#[global] Program Instance cache_direct_ok : @DirectIoOk St (cache_store shrinkers) check (cache_store_ok check shrinkers) cache_direct := {
  uncached st b := uncached st b }.
Next Obligation. intros st b I. by apply invalidate_uncached. Qed.
Next Obligation. intros st b I Hb. by apply (uncached_clean check). Qed.
Next Obligation.
  intros st start n data I Hn Hl Hu. apply wp_past. pose proof I as (l & K & _).
  eapply wp_mono; [apply dev_write_extent_spec; [apply (k_dev _ _ _ K)|done|done]|]. intros r d (Hi & Hok & Hf & R).
  destruct (dev_beside st d (span (start, n)) I Hi Hok Hu Hf) as (I' & H' & V1 & V2).
  split; [done|]. split; [done|]. split; [done|]. split; [done|]. split; [done|].
  destruct r as [[]|e|]; cbn [served] in *; [|intros [? _]; auto|done]. intros i Hi'. simpl. rewrite V2; [by apply R|]. apply elem_of_span. simpl. lia.
Qed.
Next Obligation.
  intros st l I Hl Hd. apply wp_past. pose proof I as (k & K & _).
  eapply wp_mono; [apply dev_read_multi_extent_spec; [apply (k_dev _ _ _ K)|done]|]. intros r d (Hi & Hs & Hok & R).
  destruct (dev_same check st d I Hi Hs Hok) as (I' & V' & H'). split; [done|]. split; [done|]. split; [done|]. split; [done|].
  destruct r as [bs|e|]; cbn [served] in *; [|intros [? _]; auto|done]. rewrite R. f_equal. apply list_fmap_ext. intros i b Hb.
  symmetry. apply (clean_view check); [done|]. apply Hd. by eapply list_elem_of_lookup_2.
Qed.
Next Obligation.
  intros st l I Hu. apply wp_past. pose proof I as (k & K & _).
  eapply wp_mono; [apply dev_discard_spec; apply (k_dev _ _ _ K)|]. intros r d (Hi & Hok & Hr & Hf).
  destruct (dev_beside st d (spans l) I Hi Hok Hu Hf) as (I' & H' & V1 & _). done.
Qed.
Next Obligation.
  intros st I. apply wp_past. pose proof I as (k & K & _).
  eapply wp_mono; [apply dev_barrier_spec; apply (k_dev _ _ _ K)|]. intros r d (Hi & Hs & Hok & R).
  destruct (dev_same check st d I Hi Hs Hok) as (I' & V' & H'). split; [done|]. split; [done|]. split; [done|]. split; [done|].
  destruct r as [[]|e|]; cbn [served] in *; [done|intros [? _]; auto|done].
Qed.
Next Obligation.
  intros st I. pose proof (flush_spec check st I) as F. pose proof (flush_steady st) as S. pose proof (λ b, flush_keeps_clean b st) as Kp.
  unfold wp in *. cbn [cache_flush cache_direct]. destruct (Cache.flush st) as [r st']. destruct F as [(I' & V & Hok & Em) R], S as (E1 & E2 & E3).
  split; [done|]. split; [done|]. split; [intros Hh; by apply (flush_healthy st st')|].
  assert (r ≠ Panic) as Hr by (by destruct r). split; [intros b Hb; by apply Kp|].
  destruct r as [[]|e|]; cbn [ends]; [|split; [done|]; intros [? _]; auto|done].
  destruct R as [Hc _]. intros b s x Hx _. by apply (Hc s).
Qed.
Next Obligation.
  intros st I. pose proof I as (k & K & _).
  assert (cache_inv (set_cache Cache.new st)) as I' by (apply fresh_inv; apply K).
  split; [exact I'|]. split; [done|]. intros b Hb. symmetry. exact (clean_view check st b I Hb).
Qed.
End direct.

(** ** A device that serves every request *)
#[global] Instance mem_extent : ExtentDev MemStore := {
  dev_write_extent start n data := λ m, (Ok tt, mem_write_extent (Z.to_nat n) start data m);
  dev_read_multi_extent l := λ m, (Ok (mjoin (mem_view m <$> spans l)), m);
  dev_discard_ranges _ := λ m, (Ok tt, m);
  dev_barrier := λ m, (Ok tt, m);
}.
#[global] Program Instance mem_extent_ok : ExtentDevOk MemStore.
Next Obligation.
  intros d start n data I Hn Hl. unfold wp. simpl.
  destruct (mem_write_extent_spec (Z.to_nat n) start data d) as (H1 & H2 & H3); [done|by rewrite Z2Nat.id|].
  rewrite Z2Nat.id in H2, H3 by done. split; [done|]. split; [done|]. split; [|done].
  intros b Hb. apply H2. by rewrite elem_of_span in Hb.
Qed.
Next Obligation. intros. unfold wp. simpl. by split_and!. Qed.
Next Obligation. intros. unfold wp. simpl. by split_and!. Qed.
Next Obligation. intros. unfold wp. simpl. by split_and!. Qed.
