(* ===== verification/Chain.v ===== *)
(** * The indirect extent chain (storage/npkfs/storage.rs)

    An object of more than [DIRECT_EXTENTS] extents keeps the rest in a chain of
    blocks: a count, the next block (0 ends the chain), and up to
    [EXTENTS_PER_INDIRECT] extents.  Reading follows pointers that come from the
    disk; a block seen twice ends the walk.  Both walks run on fuel, and running
    out of it is a panic; how much is enough is shown below. *)

From S2P Require Import Prelude Bytes Format BlockStore Bitmap Superblock BitmapSpec BtreeNode Btree BtreeNodeSpec BtreeIo BtreeSpec.

(** [for j in 0..count] of the writer, from [j] on. *)
Fixpoint put_extents (l : list Extent) (j : Z) (buf : block) : option block :=
  match l with
  | [] => Some buf
  | e :: l =>
      let off := 12 + j * 16 in
      buf ← splice buf off (le64 (start_block e));
      buf ← splice buf (off + 8) (le64 (block_count e));
      put_extents l (j + 1) buf
  end.

Definition chain_block (next : Z) (l : list Extent) : option block :=
  buf ← splice zero_block 0 (le32 (u32 (zlen l)));
  buf ← splice buf 4 (le64 next);
  put_extents l 0 buf.

(** [for j in 0..count.min(EXTENTS_PER_INDIRECT)] of the reader. *)
Fixpoint get_extents (n : nat) (j : Z) (buf : block) : option (list Extent) :=
  match n with
  | O => Some []
  | S n =>
      let off := 12 + j * 16 in
      s ← sub buf off 8;
      c ← sub buf (off + 8) 8;
      r ← get_extents n (j + 1) buf;
      Some (mkExtent (of_le s) (of_le c) :: r)
  end.

Section chain.
Context {C : Type} `{!BlockStore C}.
Notation MB := (M (C * Bitmap.t) FsError).

(** [while offset < extents.len()]: a block per [EXTENTS_PER_INDIRECT]. *)
Fixpoint alloc_chain (fuel : nat) (offset len : Z) (blocks : list Z) : MB (list Z) :=
  if offset <? len then
    match fuel with
    | O => panic
    | S fuel =>
        b ← on_snd (Bitmap.alloc 1);
        alloc_chain fuel (offset + EXTENTS_PER_INDIRECT) len (blocks ++ [b])
    end
  else mret blocks.

(** [for (i, &block) in blocks.iter().enumerate()] *)
Fixpoint write_chain (blocks : list Z) (offset : Z) (extents : list Extent) : M C FsError unit :=
  match blocks with
  | [] => mret tt
  | b :: rest =>
      let count := Z.min (zlen extents - offset) EXTENTS_PER_INDIRECT in
      let next := match rest with n :: _ => n | [] => 0 end in
      part ← of_opt (sub extents offset count);
      buf ← of_opt (chain_block next part);
      _ ← write b buf;
      write_chain rest (offset + count) extents
  end.

Definition write_indirect_extents (extents : list Extent) : MB Z :=
  blocks ← alloc_chain (length extents) 0 (zlen extents) [];
  _ ← on_fst (write_chain blocks 0 extents);
  of_opt (at_ blocks 0).

(** [while block != 0] *)
Fixpoint chain_loop (fuel : nat) (b : Z) (extents : list Extent) (seen : list Z) : M C FsError (list Extent * list Z) :=
  if b =? 0 then mret (extents, seen)
  else if bool_decide (b ∈ seen) then fail Corrupt
  else
    match fuel with
    | O => panic
    | S fuel =>
        buf ← read b;
        c ← of_opt (sub buf 0 4);
        n ← of_opt (sub buf 4 8);
        es ← of_opt (get_extents (Z.to_nat (Z.min (of_le c) EXTENTS_PER_INDIRECT)) 0 buf);
        chain_loop fuel (of_le n) (extents ++ es) (seen ++ [b])
    end.

Definition read_indirect_chain (fuel : nat) (first : Z) : M C FsError (list Extent * list Z) :=
  chain_loop fuel first [] [].
Definition read_indirect_extents (fuel : nat) (first : Z) : M C FsError (list Extent) :=
  '(es, _) ← read_indirect_chain fuel first; mret es.

(** A read that fails ends the walk. *)
Fixpoint free_chain_loop (fuel : nat) (b : Z) (seen : list Z) : MB unit :=
  if b =? 0 then mret tt
  else if bool_decide (b ∈ seen) then mret tt
  else
    match fuel with
    | O => panic
    | S fuel =>
        r ← on_fst (attempt (read b));
        match r with
        | None => mret tt
        | Some buf =>
            n ← of_opt (sub buf 4 8);
            '(c, bm) ← get;
            bm ← of_opt (Bitmap.free b 1 bm);
            _ ← put (invalidate b c, bm);
            free_chain_loop fuel (of_le n) (seen ++ [b])
        end
    end.
Definition free_indirect_chain (fuel : nat) (first : Z) : MB unit := free_chain_loop fuel first [].
End chain.

(** * What a chain of extent blocks holds

    [chain f b es bs]: from block [b] on, the blocks [bs] hold the extents [es].
    The writer makes one, on blocks of its own; the reader returns it; on any disk
    content the walk ends. *)

(** ** One block *)
Definition ccount (v : block) : Z := of_le (raw_sub v 0 4).
Definition cnext (v : block) : Z := of_le (raw_sub v 4 8).
Definition cextent (v : block) (j : Z) : Extent :=
  mkExtent (of_le (raw_sub v (12 + j * 16) 8)) (of_le (raw_sub v (12 + j * 16 + 8) 8)).
Definition cextents (v : block) : list Extent :=
  cextent v <$> seqZ 0 (Z.min (ccount v) EXTENTS_PER_INDIRECT).

Lemma cnext_fits v : is_block v → fits 64 (cnext v).
Proof.
  intros Hv. unfold cnext, fits. pose proof (of_le_range (raw_sub v 4 8)) as H.
  rewrite zlen_raw_sub in H by (unfold is_block, BLOCK_SIZE in Hv; lia). exact H.
Qed.

Lemma get_extents_spec n j v : is_block v → 0 ≤ j → j + Z.of_nat n ≤ EXTENTS_PER_INDIRECT →
  get_extents n j v = Some (cextent v <$> seqZ j (Z.of_nat n)).
Proof.
  intros Hv. revert j. induction n as [|n IH]; intros j Hj Hn; [done|].
  rewrite seqZ_cons by lia. replace (Z.pred (Z.of_nat (S n))) with (Z.of_nat n) by lia.
  unfold is_block, BLOCK_SIZE in Hv. unfold EXTENTS_PER_INDIRECT in *. cbn [get_extents].
  rewrite !sub_Some by lia. cbn [mbind option_bind]. rewrite IH by lia. by replace (Z.succ j) with (j + 1) by lia.
Qed.

Lemma put_extents_spec l j v : is_block v → 0 ≤ j → j + zlen l ≤ EXTENTS_PER_INDIRECT → Forall extent_wf l →
  ∃ v', put_extents l j v = Some v' ∧ is_block v' ∧
    (∀ a n, 0 ≤ a → a + n ≤ 12 + j * 16 → raw_sub v' a n = raw_sub v a n) ∧
    cextent v' <$> seqZ j (zlen l) = l.
Proof.
  unfold is_block, BLOCK_SIZE, EXTENTS_PER_INDIRECT.
  revert j v. induction l as [|e l IH]; intros j v Hv Hj Hn Hf; cbn [put_extents]; [by exists v|].
  apply Forall_cons in Hf as [[Hs Hc] Hf]. rewrite zlen_cons in Hn |- *. pose proof (zlen_nonneg l).
  rewrite splice_Some by (rewrite ?zlen_le64; lia). cbn [mbind option_bind].
  set (v1 := raw_splice v (12 + j * 16) (le64 (start_block e))).
  assert (zlen v1 = 4096) as H1 by (unfold v1; rewrite zlen_raw_splice; rewrite ?zlen_le64; lia).
  rewrite splice_Some by (rewrite ?zlen_le64; lia). cbn [mbind option_bind].
  set (v2 := raw_splice v1 (12 + j * 16 + 8) (le64 (block_count e))).
  assert (zlen v2 = 4096) as H2 by (unfold v2; rewrite zlen_raw_splice; rewrite ?zlen_le64; lia).
  destruct (IH (j + 1) v2) as (v' & -> & Hb & Hlow & He); [done|lia|lia|done|]. exists v'. split_and!; try done.
  - intros a n Ha Hn'. rewrite Hlow by lia. unfold v2. rewrite sub_splice_disjoint by (rewrite ?zlen_le64; lia).
    unfold v1. by rewrite sub_splice_disjoint by (rewrite ?zlen_le64; lia).
  - rewrite seqZ_cons by lia. replace (Z.pred (zlen l + 1)) with (zlen l) by lia. replace (Z.succ j) with (j + 1) by lia.
    rewrite fmap_cons, He. f_equal. unfold cextent. rewrite !Hlow by lia.
    assert (raw_sub v2 (12 + j * 16 + 8) 8 = le64 (block_count e)) as ->.
    { apply (sub_splice_same v1 _ (le64 (block_count e))); rewrite ?zlen_le64; lia. }
    assert (raw_sub v2 (12 + j * 16) 8 = le64 (start_block e)) as ->.
    { unfold v2. rewrite sub_splice_disjoint by (rewrite ?zlen_le64; lia).
      apply (sub_splice_same v _ (le64 (start_block e))); rewrite ?zlen_le64; lia. }
    rewrite !of_le64 by done. by destruct e.
Qed.

Lemma chain_block_spec next l : fits 64 next → zlen l ≤ EXTENTS_PER_INDIRECT → Forall extent_wf l →
  ∃ v, chain_block next l = Some v ∧ is_block v ∧ cnext v = next ∧ cextents v = l.
Proof.
  intros Hnx Hl Hf. unfold chain_block. pose proof (zlen_nonneg l). unfold EXTENTS_PER_INDIRECT in Hl.
  assert (zlen zero_block = 4096) as H0 by (exact zero_block_is_block).
  rewrite splice_Some by (rewrite ?zlen_le32; lia). cbn [mbind option_bind]. set (v1 := raw_splice zero_block _ _).
  assert (zlen v1 = 4096) as H1 by (unfold v1; rewrite zlen_raw_splice; rewrite ?zlen_le32; lia).
  rewrite splice_Some by (rewrite ?zlen_le64; lia). cbn [mbind option_bind]. set (v2 := raw_splice v1 _ _).
  assert (zlen v2 = 4096) as H2 by (unfold v2; rewrite zlen_raw_splice; rewrite ?zlen_le64; lia).
  destruct (put_extents_spec l 0 v2) as (v & -> & Hb & Hlow & He); [done|lia|unfold EXTENTS_PER_INDIRECT; lia|done|].
  exists v. split_and!; [done|done| |].
  - unfold cnext. rewrite Hlow by lia.
    assert (raw_sub v2 4 8 = le64 next) as ->; [|by apply of_le64].
    apply (sub_splice_same v1 4 (le64 next)); rewrite ?zlen_le64; lia.
  - unfold cextents. assert (ccount v = zlen l) as ->; [|unfold EXTENTS_PER_INDIRECT; by rewrite Z.min_l by lia].
    unfold ccount. rewrite Hlow by lia. unfold v2. rewrite sub_splice_disjoint by (rewrite ?zlen_le64; lia).
    assert (raw_sub v1 0 4 = le32 (u32 (zlen l))) as ->.
    { apply (sub_splice_same zero_block 0 (le32 _)); rewrite ?zlen_le32; lia. }
    rewrite wrap_small by (unfold fits; lia). apply of_le32. unfold fits. lia.
Qed.

(** ** The chain *)
Inductive chain (f : Z → block) : Z → list Extent → list Z → Prop :=
  | chain_nil : chain f 0 [] []
  | chain_cons b es bs : b ≠ 0 → chain f (cnext (f b)) es bs → chain f b (cextents (f b) ++ es) (b :: bs).

Lemma chain_frame f g b es bs : chain f b es bs → (∀ x, x ∈ bs → g x = f x) → chain g b es bs.
Proof.
  induction 1 as [|b es bs Hb _ IH]; intros Hg; [constructor|].
  rewrite <- (Hg b) by set_solver. constructor; [done|]. rewrite Hg by set_solver. apply IH. set_solver.
Qed.

Lemma chain_fun f b es bs es' bs' : chain f b es bs → chain f b es' bs' → es = es' ∧ bs = bs'.
Proof.
  intros H. revert es' bs'. induction H as [|b es bs Hb _ IH]; intros es' bs' H'; inversion H'; subst; [done..|].
  by destruct (IH _ _ ltac:(eassumption)) as [-> ->].
Qed.

Lemma chain_head f b es bs : chain f b es bs → b ≠ 0 → b ∈ bs.
Proof. intros H Hb. destruct H; [done|]. apply elem_of_cons. by left. Qed.

(** ** Reading *)
Section store.
Context {C : Type} `{!BlockStore C} {check : block → bool} `{!BlockStoreOk C check}.
Notation view := (view (check := check)).
Notation store_inv := (store_inv (check := check)).
Notation healthy := (healthy (check := check)).
Notation direct := (direct (check := check)).

(** The walk never panics on a disk of fewer than [2 ^ 64] blocks, whatever they
    hold, and returns the chain there is. *)
Lemma chain_walk_spec fuel b es0 seen c : store_inv c → fits 64 b →
  NoDup seen → Forall (fits 64) seen → (Z.of_nat fuel + zlen seen > 2 ^ 64 ∨ ∃ es bs, chain (view c) b es bs ∧ (length bs ≤ fuel)%nat) →
  wp (chain_loop fuel b es0 seen) (λ r c', unchanged c c' ∧
    match r with
    | Ok (es, bs) => ∃ es1 bs1, chain (view c) b es1 bs1 ∧ es = es0 ++ es1 ∧ bs = seen ++ bs1 ∧ NoDup bs
    | Err e => ¬ healthy c ∨ (e = Corrupt ∧ ∀ es1 bs1, chain (view c) b es1 bs1 → ¬ NoDup (seen ++ bs1))
    | Panic => False
    end) c.
Proof.
  revert b es0 seen c. induction fuel as [|fuel IH]; intros b es0 seen c I Hb Hn Hf Hfuel; cbn [chain_loop].
  all: destruct (Z.eqb_spec b 0) as [->|Hb0].
  1,3: apply wp_ret; split; [by apply unchanged_refl|]; exists [], []; rewrite !app_nil_r; by split_and!; [constructor|..].
  all: case_bool_decide as Hin.
  1,3: apply wp_fail; split; [by apply unchanged_refl|]; right; split; [done|];
    intros es1 bs1 Hc%chain_head; [|done]; intros (_ & Hd & _)%NoDup_app; by apply (Hd b).
  { exfalso. destruct Hfuel as [Hbig|(es & bs & Hc & Hlen)].
    - assert (Forall (λ x, x ∈ seqZ 0 (2 ^ 64)) (b :: seen)) as Hall.
      { constructor; [apply elem_of_seqZ; unfold fits in Hb; lia|]. eapply Forall_impl; [exact Hf|].
        intros x Hx. apply elem_of_seqZ. unfold fits in Hx. lia. }
      assert (NoDup (b :: seen)) as Hn2 by (by constructor).
      assert (zlen (b :: seen) ≤ 2 ^ 64) as Hlen.
      { pose proof (submseteq_length _ _ (NoDup_submseteq _ (seqZ 0 (2 ^ 64)) Hn2 (proj1 (Forall_forall _ _) Hall))) as Hs.
        unfold zlen. apply Nat2Z.inj_le in Hs. etrans; [exact Hs|]. rewrite length_seqZ, Z2Nat.id; lia. }
      rewrite zlen_cons in Hlen. lia.
    - destruct Hc; [done|]. simpl in Hlen. lia. }
  apply wp_bind. eapply wp_mono; [by apply read_unchanged|]. intros r c1 [U R]. pose proof U as (I1 & V1 & H1 & _).
  destruct r as [v|e|]; cbn [ends] in R; [subst v|split; [done|left; apply R]|done].
  pose proof (view_block c b I) as Hv. pose proof Hv as Hv'. unfold is_block, BLOCK_SIZE in Hv'.
  apply wp_bind. eapply wp_of_opt; [apply sub_Some; lia|]. apply wp_bind. eapply wp_of_opt; [apply sub_Some; lia|].
  apply wp_bind. eapply wp_of_opt; [apply get_extents_spec; [done|lia|]|].
  { pose proof (of_le_range (raw_sub (view c b) 0 4)). unfold EXTENTS_PER_INDIRECT in *. lia. }
  pose proof (of_le_range (raw_sub (view c b) 0 4)) as Hcr. rewrite Z2Nat.id by (unfold EXTENTS_PER_INDIRECT; lia).
  fold (ccount (view c b)) (cextents (view c b)) (cnext (view c b)).
  eapply wp_mono; [apply IH; [done|by apply cnext_fits|..]|].
  - apply NoDup_app. split_and!; [done|set_solver|apply NoDup_singleton].
  - apply Forall_app. split; [done|]. by constructor.
  - destruct Hfuel as [Hbig|(es & bs & Hc & Hlen)]; [left; rewrite zlen_app, zlen_cons, zlen_nil; lia|right].
    inversion Hc; subst; [done|]. exists es1, bs0. simpl in Hlen. split; [|lia]. eapply chain_frame; [done|]. intros; apply V1.
  - intros r c2 [U2 R2]. split; [by eapply unchanged_trans|]. destruct r as [[es bs]|e|]; [| |done].
    + destruct R2 as (es1 & bs1 & Hc & -> & -> & Hnd). exists (cextents (view c b) ++ es1), (b :: bs1).
      rewrite <- !app_assoc in *. split_and!; [constructor; [done|]|done|done|done].
      eapply chain_frame; [done|]. intros; symmetry; apply V1.
    + destruct R2 as [Hno|[-> Hno]]; [left; auto|right]. split; [done|]. intros es1 bs1 Hc. inversion Hc; subst; [done|].
      rewrite (cons_middle b seen), app_assoc. eapply Hno. eapply chain_frame; [done|]. intros; apply V1.
Qed.

(** The walk along a chain of extent blocks ends on every disk: whatever the
    blocks hold it returns the chain's extents and its blocks, each once, or fails;
    it reports [Corrupt] only when the chain comes back to a block of its own.  As
    block numbers have 64 bits, [2 ^ 64] rounds are never used up. *)
Theorem chain_walk_ends fuel first c : store_inv c → fits 64 first → 2 ^ 64 < Z.of_nat fuel →
  wp (read_indirect_chain fuel first) (λ r c', unchanged c c' ∧ match r with
    | Ok (es, bs) => chain (view c) first es bs ∧ NoDup bs
    | Err e => ¬ healthy c ∨ e = Corrupt ∧ ∀ es bs, chain (view c) first es bs → ¬ NoDup bs
    | Panic => False
    end) c.
Proof.
  intros I Hf Hfu. eapply wp_mono; [apply (chain_walk_spec fuel first [] [] c); [done|done|constructor|constructor|left; rewrite zlen_nil; lia]|].
  intros r c' [U R]. split; [done|]. destruct r as [[es bs]|e|]; [|done|done]. destruct R as (es1 & bs1 & Hc & -> & -> & Hn). done.
Qed.
End store.

(** ** Writing *)
Section writer.
Context (blake3 : list byte → list byte).
Hypothesis blake3_len : ∀ bs, length (blake3 bs) = 32%nat.
Context {C : Type} `{!BlockStore C} `{!BlockStoreOk C (verify_node_checksum blake3)}.
Context (ok : Prop).
Notation St := (C * Bitmap.t)%type.
Notation vw := (vw blake3).
Notation good := (good blake3 ok).
Notation ext := (ext blake3 ok).
Notation tri := (tri blake3 ok).
Notation fault := (fault ok).

(** How many blocks [n] extents take. *)
Definition chain_len (n : Z) : Z := div_ceil n EXTENTS_PER_INDIRECT.

Lemma alloc_chain_spec fuel offset len blocks st : good st → 0 ≤ offset → len - offset ≤ Z.of_nat fuel →
  tri (alloc_chain fuel offset len blocks) st (λ bs al st', bs = blocks ++ al ∧ vw st' = vw st ∧
    zlen al = chain_len (Z.max 0 (len - offset))) (λ e st', e = DiskFull ∧ full st').
Proof.
  revert offset blocks st. induction fuel as [|fuel IH]; intros offset blocks st G H0 Hf; cbn [alloc_chain].
  - rewrite (proj2 (Z.ltb_ge _ _)) by lia. apply tri_ret; [done|]. rewrite app_nil_r. split_and!; [done..|].
    rewrite Z.max_l by lia. done.
  - destruct (Z.ltb_spec offset len).
    2:{ apply tri_ret; [done|]. rewrite app_nil_r. split_and!; [done..|]. rewrite Z.max_l by lia. done. }
    apply wp_bind. eapply wp_mono; [by apply (alloc1_spec blake3 blake3_len ok)|]. intros [b|e|] st1; [| |done].
    2:{ intros (-> & -> & Hfull). exists []. split; [by apply ext_refl|done]. }
    intros (X1 & Hv1 & Ha). eapply wp_mono.
    { apply (IH (offset + EXTENTS_PER_INDIRECT) (blocks ++ [b]) st1); [apply X1|unfold EXTENTS_PER_INDIRECT; lia..]. }
    intros r st2 (al & X2 & HQ). exists (b :: al). split; [by apply (ext_trans blake3 ok [b] al _ _ _ X1)|].
    destruct r as [bs|e|]; [|done|done]. destruct HQ as (-> & Hv2 & Hl). rewrite <- app_assoc. split_and!; [done|congruence|].
    rewrite zlen_cons, Hl. unfold chain_len, div_ceil, EXTENTS_PER_INDIRECT.
    rewrite (Z.max_r 0 (len - offset)) by lia. destruct (Z.max_spec 0 (len - (offset + 255))) as [[? ->]|[? ->]].
    + replace (len - offset + 255 - 1) with (len - (offset + 255) + 255 - 1 + 1 * 255) by lia. rewrite Z.div_add by lia. lia.
    + change ((0 + 255 - 1) / 255) with 0. apply (Z.div_unique_pos _ _ _ (len - offset - 1)); lia.
Qed.

Definition first_of (bs : list Z) : Z := match bs with b :: _ => b | [] => 0 end.

Lemma chain_len_cons n k : 0 ≤ n → chain_len n = k + 1 → 0 ≤ k →
  0 < n ∧ chain_len (n - Z.min n EXTENTS_PER_INDIRECT) = k.
Proof.
  unfold chain_len, div_ceil, EXTENTS_PER_INDIRECT. intros Hn Hk H0.
  assert (0 < n) by (destruct (decide (n = 0)) as [->|]; [change ((0 + 255 - 1) / 255) with 0 in Hk|]; lia).
  split; [done|]. destruct (Z.min_spec n 255) as [[? ->]|[? ->]].
  - replace (n - n) with 0 by lia. change ((0 + 255 - 1) / 255) with 0.
    pose proof (Z.div_lt_upper_bound (n + 255 - 1) 255 2). lia.
  - replace (n - 255 + 255 - 1) with (n + 255 - 1 + (-1) * 255) by lia. rewrite Z.div_add by lia. lia.
Qed.

Lemma write_chain_spec bs offset es c s : good (c, s) → NoDup bs → Forall (λ b, 0 < b ∧ fits 64 b) bs →
  Forall extent_wf es → 0 ≤ offset ≤ zlen es → zlen bs = chain_len (zlen es - offset) →
  wp (write_chain bs offset es) (λ r c', good (c', s) ∧
    (∀ x, x ∉ bs → view c' x = view c x ∧ (direct c x → direct c' x)) ∧
    match r with
    | Ok _ => chain (view c') (first_of bs) (drop (Z.to_nat offset) es) bs
    | Err _ => ¬ ok
    | Panic => False
    end) c.
Proof.
  intros G Hn Hb He. revert offset c G. induction bs as [|b bs IH]; intros offset c G Ho Hl; cbn [write_chain].
  { apply wp_ret. split_and!; [done|done|]. simpl.
    destruct (decide (offset = zlen es)) as [->|Hne]; [|exfalso].
    - unfold zlen. rewrite Nat2Z.id, drop_all. constructor.
    - unfold chain_len, div_ceil, EXTENTS_PER_INDIRECT in Hl. rewrite zlen_nil in Hl.
      pose proof (Z.div_le_lower_bound (zlen es - offset + 255 - 1) 255 1). lia. }
  apply NoDup_cons in Hn as [Hbn Hn]. apply Forall_cons in Hb as [[Hb0 Hbf] Hb].
  rewrite zlen_cons in Hl. destruct (chain_len_cons (zlen es - offset) (zlen bs)) as [Hpos Hl']; [lia|done|apply zlen_nonneg|].
  set (count := Z.min (zlen es - offset) EXTENTS_PER_INDIRECT) in *.
  assert (0 < count ≤ 255) as Hc by (unfold count, EXTENTS_PER_INDIRECT; lia).
  apply wp_bind. eapply wp_of_opt; [apply sub_Some; lia|].
  assert (fits 64 (first_of bs)) as Hnx by (destruct bs; [unfold fits; simpl; lia|by apply Forall_cons in Hb as [[_ ?] _]]).
  assert (zlen (raw_sub es offset count) = count) as Hz by (apply zlen_raw_sub; lia).
  destruct (chain_block_spec (first_of bs) (raw_sub es offset count)) as (v & Ev & Hv & Ecn & Ece);
    [done|unfold EXTENTS_PER_INDIRECT; lia|by apply Forall_take, Forall_drop|].
  apply wp_bind. eapply wp_of_opt; [exact Ev|]. destruct G as [G1 G2 G3]. simpl in *.
  apply wp_bind. eapply wp_mono; [apply wp_and; [by apply (write_spec c b v)|by apply (direct_write c b v)]|].
  intros r c1 [(I1 & H1 & R1) D1].
  assert (∀ x, x ≠ b → view c1 x = view c x) as F1 by (intros x Hx; destruct r as [[]|e|]; cbn [ends] in R1; [by apply R1|by apply R1|done]).
  destruct r as [[]|e|]; cbn [ends] in R1; [|split_and!; [by split; auto| |intros Hok; by apply (proj2 R1), G3]|done].
  2:{ intros x [? _]%not_elem_of_cons. auto. }
  eapply wp_mono; [apply (IH Hn Hb (offset + count) c1); [by split; auto|lia|rewrite <- Hl'; f_equal; lia]|].
  intros r c2 (G2' & F2 & R2). split_and!; [done| |].
  - intros x [??]%not_elem_of_cons. destruct (F2 x) as [-> ?]; [done|]. auto.
  - destruct r as [[]|e|]; [|done|done].
    assert (view c2 b = v) as Eb by (destruct (F2 b Hbn) as [-> _]; apply R1). cbn [first_of].
    replace (drop (Z.to_nat offset) es) with (cextents (view c2 b) ++ drop (Z.to_nat (offset + count)) es).
    + constructor; [lia|]. by rewrite Eb, Ecn.
    + rewrite Eb, Ece. unfold raw_sub. rewrite Z2Nat.inj_add by lia. rewrite <- drop_drop. apply take_drop.
Qed.

(** A chain on blocks of its own; on failure some blocks are left allocated. *)
Lemma write_indirect_spec es st : good st → es ≠ [] → Forall extent_wf es →
  tri (write_indirect_extents es) st (λ b al st', b ≠ 0 ∧ chain (vw st') b es al) fault.
Proof.
  intros G Hne He. unfold write_indirect_extents. apply wp_bind.
  eapply wp_mono; [apply (alloc_chain_spec (length es) 0 (zlen es) [] st G); [lia|unfold zlen; lia]|].
  intros r [c1 s1] (al & X1 & R). destruct r as [bs|e|]; [|exists al; split; [exact X1|by right]|done].
  destruct R as (-> & Hv & Hl). simpl app. pose proof (zlen_nonneg es). rewrite Z.max_r in Hl by lia.
  assert (Forall (λ b, 0 < b ∧ fits 64 b) al) as Hp.
  { apply Forall_forall. intros b Hb. by eapply ext_fresh_pos. }
  apply wp_bind, wp_on_fst. eapply wp_mono.
  { apply (write_chain_spec al 0 es c1 s1); [apply X1|apply X1|done|done|lia|done]. }
  intros r c2 (G2 & F2 & R2).
  assert (ext al st (c2, s1)) as X2 by (by eapply ext_fill).
  destruct r as [[]|e|]; [|exists al; split; [done|by left]|done].
  destruct al as [|b al].
  { exfalso. destruct es as [|e es]; [done|]. rewrite zlen_nil, zlen_cons in Hl. pose proof (zlen_nonneg es).
    unfold chain_len, div_ceil, EXTENTS_PER_INDIRECT in Hl.
    pose proof (Z.div_le_lower_bound (zlen es + 1 - 0 + 255 - 1) 255 1). lia. }
  exists (b :: al). split; [exact X2|]. apply Forall_cons in Hp as [[? _] _]. split; [lia|exact R2].
Qed.
End writer.

(** Block 7 of an empty disk: a chain of one block without extents. *)
Lemma chain_walk_ends_witness : ∃ c', read_indirect_chain (Z.to_nat (2 ^ 64 + 1)) 7 (∅ : MemStore) = (Ok ([], [7]), c').
Proof.
  assert (store_inv (check := λ _, true) (∅ : MemStore)) as I0 by apply map_Forall_empty.
  pose proof (chain_walk_ends (check := λ _, true) (Z.to_nat (2 ^ 64 + 1)) 7 (∅ : MemStore) I0 ltac:(split; vm_compute; congruence) ltac:(lia)) as H.
  unfold wp in H. generalize dependent (read_indirect_chain (Z.to_nat (2 ^ 64 + 1)) 7 (∅ : MemStore)). intros [r c'] [_ R].
  assert (chain (view (check := λ _, true) (∅ : MemStore)) 7 [] [7]) as Hc.
  { refine (chain_cons _ 7 [] [] _ _); [discriminate|]. vm_compute. constructor. }
  exists c'. f_equal. destruct r as [[es bs]|e|]; [|destruct R as [[]|[_ R]]; [exact I|]|destruct R].
  - destruct R as [R _]. by destruct (chain_fun _ _ _ _ _ _ R Hc) as [-> ->].
  - destruct (R [] [7] Hc). apply NoDup_singleton.
Defined.
