(* ===== verification/Aead.v ===== *)
(** * ChaCha20-Poly1305 and the disk keys (crypto/aead.rs)

    The cipher and the MAC are the repository's own code, on 32-bit words and on
    a 128-bit integer next to a byte.  BLAKE3 and AES-256-GCM are crates: their
    functions are arguments of the code that calls them. *)

From S2P Require Import Prelude Bytes.

(** ** ChaCha20 *)

(** [x.rotate_left(n)] on [u32]. *)
Definition rotl32 (x n : Z) : Z := Z.lor (u32 (Z.shiftl x n)) (Z.shiftr x (32 - n)).

Definition word (s : list Z) (i : nat) : Z := nth i s 0.
Definition set_word (i : nat) (x : Z) (s : list Z) : list Z := <[i := x]> s.

(** [s[a] = s[a].wrapping_add(s[b]); s[d] ^= s[a]; s[d] = s[d].rotate_left(n)] *)
Definition mix (a b d : nat) (n : Z) (s : list Z) : list Z :=
  let s := set_word a (u32 (word s a + word s b)) s in
  let s := set_word d (Z.lxor (word s d) (word s a)) s in
  set_word d (rotl32 (word s d) n) s.

Definition quarter_round (a b c d : nat) (s : list Z) : list Z :=
  let s := mix a b d 16 s in
  let s := mix c d b 12 s in
  let s := mix a b d 8 s in
  mix c d b 7 s.

Definition double_round (s : list Z) : list Z :=
  let s := quarter_round 0 4 8 12 s in
  let s := quarter_round 1 5 9 13 s in
  let s := quarter_round 2 6 10 14 s in
  let s := quarter_round 3 7 11 15 s in
  let s := quarter_round 0 5 10 15 s in
  let s := quarter_round 1 6 11 12 s in
  let s := quarter_round 2 7 8 13 s in
  quarter_round 3 4 9 14 s.

(** The little-endian words of [n] groups of four bytes. *)
Fixpoint words (n : nat) (bs : list byte) : list Z :=
  match n with O => [] | S n => of_le (take 4 bs) :: words n (drop 4 bs) end.

Definition chacha20_init (key : list byte) (counter : Z) (nonce : list byte) : list Z :=
  [0x61707865; 0x3320646e; 0x79622d32; 0x6b206574] ++ words 8 key ++ [counter] ++ words 3 nonce.

Definition chacha20_block (key : list byte) (counter : Z) (nonce : list byte) : list byte :=
  let initial := chacha20_init key counter nonce in
  let s := Nat.iter 10 double_round initial in
  mjoin ((λ i, le32 (u32 (word s i + word initial i))) <$> seq 0 16).

Definition xor_byte (a b : byte) : byte := byte_of (Z.lxor (bval a) (bval b)).
(** [for i in 0..take { data[offset + i] ^= block[i] }] *)
Definition xor_bytes (a b : list byte) : list byte := zip_with xor_byte a b.

(** [while offset < data.len()], on the bytes from [offset] on. *)
Fixpoint xor_loop (fuel : nat) (key nonce : list byte) (ctr : Z) (data : list byte) : option (list byte) :=
  match data with
  | [] => Some []
  | _ :: _ =>
      match fuel with
      | O => None
      | S fuel =>
          let block := chacha20_block key ctr nonce in
          rest ← xor_loop fuel key nonce (u32 (ctr + 1)) (drop 64 data);
          Some (xor_bytes (take 64 data) block ++ rest)
      end
  end.
Definition chacha20_xor (key nonce : list byte) (counter : Z) (data : list byte) : option (list byte) :=
  xor_loop (length data) key nonce counter data.

(** ** Poly1305 *)

(** [x.overflowing_add(y)] on [u128]. *)
Definition overflowing_add128 (x y : Z) : Z * bool := (wrap 128 (x + y), 2 ^ 128 <=? x + y).
Definition bit (c : bool) : Z := if c then 1 else 0.

(** The masks the code applies byte by byte. *)
Definition clamp_mask : list Z := [255; 255; 255; 0x0f; 0xfc; 255; 255; 0x0f; 0xfc; 255; 255; 0x0f; 0xfc; 255; 255; 0x0f].
Definition clamp_r (r : list byte) : list byte := zip_with (λ b m, byte_of (Z.land (bval b) m)) r clamp_mask.

Definition poly1305_mulmod (acc_lo acc_hi r : Z) : Z * Z :=
  let a0 := u64 acc_lo in
  let a1 := u64 (Z.shiftr acc_lo 64) in
  let a2 := acc_hi in
  let r0 := u64 r in
  let r1 := u64 (Z.shiftr r 64) in
  let d0 := wrap 128 (a0 * r0) in
  let m01 := wrap 128 (a0 * r1) in
  let m10 := wrap 128 (a1 * r0) in
  let m11 := wrap 128 (a1 * r1) in
  let m20 := wrap 128 (a2 * r0) in
  let d3 := wrap 128 (a2 * r1) in
  let d1 := wrap 128 (m01 + m10) in
  let d1_carry := bit (d1 <? m01) in
  let d2 := wrap 128 (m11 + m20 + wrap 128 (Z.shiftl d1_carry 64)) in
  let w0 := u64 d0 in
  let add1 := wrap 128 (u64 (Z.shiftr d0 64) + u64 d1) in
  let w1 := u64 add1 in
  let c1 := u64 (Z.shiftr add1 64) in
  let add2 := wrap 128 (u64 (Z.shiftr d1 64) + u64 d2 + c1) in
  let w2 := u64 add2 in
  let c2 := u64 (Z.shiftr add2 64) in
  let add3 := wrap 128 (u64 (Z.shiftr d2 64) + u64 d3 + c2) in
  let w3 := u64 add3 in
  let w4 := u64 (u64 (Z.shiftr d3 64) + u64 (Z.shiftr add3 64)) in
  let lo := Z.lor w0 (wrap 128 (Z.shiftl w1 64)) in
  let bits_128_129 := Z.land w2 3 in
  let above := Z.lor (Z.lor (Z.shiftr w2 2) (wrap 128 (Z.shiftl w3 62))) (wrap 128 (Z.shiftl w4 126)) in
  let mul5 := wrap 128 (above * 5) in
  let '(new_lo, c) := overflowing_add128 lo mul5 in
  let new_hi := u8 (bits_128_129 + bit c) in
  if 4 <=? new_hi then
    let extra := Z.shiftr new_hi 2 in
    let '(new_lo2, c2) := overflowing_add128 new_lo (wrap 128 (extra * 5)) in
    (new_lo2, u8 (Z.land new_hi 3 + bit c2))
  else (new_lo, new_hi).

Definition poly1305_reduce (acc_lo acc_hi : Z) : Z * Z :=
  let '(test, c) := overflowing_add128 acc_lo 5 in
  let test_hi := u8 (acc_hi + bit c) in
  if 4 <=? test_hi then
    let acc_hi := Z.land test_hi 3 in
    (test, if 4 <=? acc_hi then Z.land acc_hi 3 else acc_hi)
  else (acc_lo, acc_hi).

(** [acc += n + hi * 2^128], then the multiplication. *)
Definition poly1305_absorb (r n hi acc_lo acc_hi : Z) : Z * Z :=
  let '(sum, carry1) := overflowing_add128 acc_lo n in
  let acc_hi := if carry1 then u8 (acc_hi + 1) else acc_hi in
  poly1305_mulmod sum (u8 (acc_hi + hi)) r.

(** [while i + 16 <= message.len()], then the rest; [message] from [i] on. *)
Fixpoint poly1305_loop (fuel : nat) (r : Z) (message : list byte) (acc_lo acc_hi : Z) : option (Z * Z) :=
  if 16 <=? zlen message then
    match fuel with
    | O => None
    | S fuel =>
        let '(acc_lo, acc_hi) := poly1305_absorb r (of_le (take 16 message)) 1 acc_lo acc_hi in
        poly1305_loop fuel r (drop 16 message) acc_lo acc_hi
    end
  else if 0 <? zlen message then
    let remaining := zlen message in
    block ← splice (replicate 17 x00) 0 message;
    block ← splice block remaining [x01];
    let copy_len := Z.min (remaining + 1) 16 in
    part ← sub block 0 copy_len;
    b ← splice (replicate 16 x00) 0 part;
    let extra_hi := if 16 <? remaining + 1 then 1 else 0 in
    Some (poly1305_absorb r (of_le b) extra_hi acc_lo acc_hi)
  else Some (acc_lo, acc_hi).

Definition poly1305_mac (key message : list byte) : option (list byte) :=
  let r := of_le (clamp_r (take 16 key)) in
  let s := of_le (take 16 (drop 16 key)) in
  '(acc_lo, acc_hi) ← poly1305_loop (length message) r message 0 0;
  let '(acc_lo, acc_hi) := poly1305_reduce acc_lo acc_hi in
  Some (le_bytes 16 (wrap 128 (acc_lo + s))).

(** ** ChaCha20-Poly1305 *)
Definition TAG_SIZE : Z := 16.

Definition pad16 (l : list byte) : list byte := replicate (Z.to_nat ((16 - zlen l `mod` 16) `mod` 16)) x00.
Definition build_mac_input (aad ciphertext : list byte) : list byte :=
  aad ++ pad16 aad ++ ciphertext ++ pad16 ciphertext ++ le64 (zlen aad) ++ le64 (zlen ciphertext).

Definition aead_encrypt_aad (key nonce aad plaintext : list byte) : option (list byte) :=
  let poly_key := take 32 (chacha20_block key 0 nonce) in
  ciphertext ← chacha20_xor key nonce 1 plaintext;
  tag ← poly1305_mac poly_key (build_mac_input aad ciphertext);
  Some (ciphertext ++ tag).

(** [for i in 0..TAG_SIZE { diff |= tag[i] ^ expected_tag[i] }] *)
Definition tag_diff (tag expected : list byte) : Z :=
  fold_left (λ d x, Z.lor d (Z.lxor (bval x.1) (bval x.2))) (zip tag expected) 0.

(** The outer [None] is a panic. *)
Definition aead_decrypt_aad (key nonce aad ciphertext_and_tag : list byte) : option (option (list byte)) :=
  if zlen ciphertext_and_tag <? TAG_SIZE then Some None
  else
    let ct_len := zlen ciphertext_and_tag - TAG_SIZE in
    ciphertext ← sub ciphertext_and_tag 0 ct_len;
    tag ← sub ciphertext_and_tag ct_len TAG_SIZE;
    let poly_key := take 32 (chacha20_block key 0 nonce) in
    expected ← poly1305_mac poly_key (build_mac_input aad ciphertext);
    if negb (tag_diff tag expected =? 0) then Some None
    else
      plaintext ← chacha20_xor key nonce 1 ciphertext;
      Some (Some plaintext).

(** ** The disk keys

    The crates: [blake3::derive_key], keyed BLAKE3, and AES-256-GCM with its tag
    at the end of the ciphertext (sealing) or apart from it (opening). *)
Class Crates := {
  derive_key : list byte → list byte → list byte;
  keyed_hash : list byte → list byte → list byte;
  gcm_encrypt : list byte → list byte → list byte → option (list byte);
  gcm_decrypt : list byte → list byte → list byte → list byte → option (list byte) }.

Record DiskKeys := mkDiskKeys { key_data : list byte; key_address : list byte; key_vault : list byte }.

Definition CTX_DATA : list byte := ascii "nopeekOS npkfs data key v1".
Definition CTX_ADDRESS : list byte := ascii "nopeekOS npkfs address key v1".
Definition CTX_VAULT : list byte := ascii "nopeekOS vault key v1".

Section disk.
Context `{Crates}.
(** [DISK_KEYS] *)
Implicit Types (keys : option DiskKeys).

Definition set_disk_key (dek : list byte) : option DiskKeys :=
  Some (mkDiskKeys (derive_key CTX_DATA dek) (derive_key CTX_ADDRESS dek) (derive_key CTX_VAULT dek)).
Definition clear_disk_key : option DiskKeys := None.
Definition disk_unlocked keys : bool := match keys with Some _ => true | None => false end.
Definition vault_subkey keys : option (list byte) := key_vault <$> keys.

(** [address_hasher], fed with [bytes]. *)
Definition disk_address keys (bytes : list byte) : option (list byte) :=
  k ← keys; Some (keyed_hash (key_address k) bytes).
Definition object_key keys (address : list byte) : option (list byte * list byte) :=
  k ← keys; Some (keyed_hash (key_data k) address, take 12 address).

Definition aead_encrypt_aes (key nonce plaintext : list byte) : list byte := default [] (gcm_encrypt key nonce plaintext).
Definition aead_decrypt_aes_in_place (key nonce buf : list byte) : option (list byte) :=
  if zlen buf <? TAG_SIZE then None
  else
    let ct_len := Z.to_nat (zlen buf - TAG_SIZE) in
    gcm_decrypt key nonce (take ct_len buf) (drop ct_len buf).
End disk.

(** What the code relies on: sealing a plaintext adds a tag of sixteen bytes and
    opening undoes it; hashes have 32 bytes. *)
Class CratesOk `{Crates} := {
  gcm_roundtrip key nonce p : zlen p < 2 ^ 36 →
    ∃ ct tag, gcm_encrypt key nonce p = Some (ct ++ tag) ∧ length ct = length p ∧ length tag = 16%nat ∧
      gcm_decrypt key nonce ct tag = Some p;
  keyed_hash_length key bytes : length (keyed_hash key bytes) = 32%nat }.

(** Crates that keep the laws: no secrecy, a constant tag. *)
Module RefCrates.
#[export] Instance crates : Crates := {
  derive_key ctx dek := dek;
  keyed_hash key bytes := take 32 (bytes ++ replicate 32 x00);
  gcm_encrypt key nonce p := Some (p ++ replicate 16 x07);
  gcm_decrypt key nonce ct tag := if bool_decide (tag = replicate 16 x07) then Some ct else None }.
#[export] Instance crates_ok : CratesOk.
Proof.
  split.
  - intros key nonce p _. exists p, (replicate 16 x07). by split_and!.
  - intros key bytes. unfold keyed_hash, crates. rewrite length_take, length_app, length_replicate. lia.
Qed.
End RefCrates.
