(* ===== verification/AeadSpec.v ===== *)
(** * What the AEAD computes

    Poly1305 is evaluation of the message as a polynomial at [r] modulo
    [2^130 - 5]; the limb arithmetic of the code never overflows and gives exactly
    that.  The cipher is its own inverse, so that opening what was sealed gives
    the plaintext, and nothing opens whose tag is not the one of its bytes. *)

From S2P Require Import Prelude Bytes Aead.

(** ** Poly1305, as RFC 8439 defines it *)
Definition P1305 : Z := 2 ^ 130 - 5.
Definition CLAMP : Z := 0x0ffffffc0ffffffc0ffffffc0fffffff.

(** Sixteen bytes at a time, each block with a one after its last byte. *)
Fixpoint poly_eval (fuel : nat) (r : Z) (message : list byte) (acc : Z) : Z :=
  match message, fuel with
  | [], _ | _, O => acc
  | _, S fuel =>
      let b := take 16 message in
      poly_eval fuel r (drop 16 message) (((acc + of_le b + 2 ^ (8 * zlen b)) * r) `mod` P1305)
  end.
Definition poly1305 (key message : list byte) : list byte :=
  let r := Z.land (of_le (take 16 key)) CLAMP in
  let s := of_le (take 16 (drop 16 key)) in
  le_bytes 16 ((poly_eval (length message) r message 0 + s) `mod` 2 ^ 128).

(** ** Integers *)
Lemma lor_add a b k : 0 ≤ k → 0 ≤ a < 2 ^ k → Z.lor a (b * 2 ^ k) = a + b * 2 ^ k.
Proof.
  intros Hk Ha. rewrite <- Z.shiftl_mul_pow2 by done. pose proof (Z.add_lor_land a (Z.shiftl b k)) as E.
  assert (Z.land a (Z.shiftl b k) = 0) as H0; [|lia].
  apply Z.bits_inj'. intros n Hn. rewrite Z.land_spec, Z.bits_0. destruct (decide (n < k)).
  - by rewrite (Z.shiftl_spec_low b), andb_false_r by done.
  - rewrite <- (Z.mod_small a (2 ^ k)) by done. by rewrite Z.mod_pow2_bits_high by lia.
Qed.

Lemma land_le a b : 0 ≤ a → Z.land a b ≤ a.
Proof.
  intros Ha. pose proof (Z.add_lor_land (Z.land a b) (Z.ldiff a b)) as E.
  assert (Z.lor (Z.land a b) (Z.ldiff a b) = a) as E1.
  { apply Z.bits_inj'. intros i _. rewrite Z.lor_spec, Z.ldiff_spec, Z.land_spec. by destruct (Z.testbit a i), (Z.testbit b i). }
  assert (Z.land (Z.land a b) (Z.ldiff a b) = 0) as E2.
  { apply Z.bits_inj'. intros i _. rewrite !Z.land_spec, Z.ldiff_spec, Z.bits_0. by destruct (Z.testbit a i), (Z.testbit b i). }
  pose proof (proj2 (Z.ldiff_nonneg a b) (or_introl Ha)). lia.
Qed.

Lemma land_3 x : 0 ≤ Z.land x 3 ≤ 3.
Proof. change 3 with (Z.ones 2) at 1 2. rewrite Z.land_ones by lia. pose proof (Z.mod_pos_bound x 4). change (2 ^ 2) with 4. lia. Qed.

Lemma mod_eq_intro x y k p : x = y + k * p → x `mod` p = y `mod` p.
Proof. intros ->. apply Z_mod_plus_full. Qed.

(** The carries: four digits of up to 126 bits become four of 64. *)
Lemma carry_chain d0 d1 d2 d3 : 0 ≤ d0 < 2 ^ 126 → 0 ≤ d1 < 2 ^ 126 → 0 ≤ d2 < 2 ^ 126 → 0 ≤ d3 < 2 ^ 63 →
  let add1 := d0 / 2 ^ 64 + d1 `mod` 2 ^ 64 in
  let add2 := d1 / 2 ^ 64 + d2 `mod` 2 ^ 64 + add1 / 2 ^ 64 in
  let add3 := d2 / 2 ^ 64 + d3 + add2 / 2 ^ 64 in
  0 ≤ add1 < 2 ^ 65 ∧ 0 ≤ add2 < 2 ^ 65 ∧ 0 ≤ add3 < 2 ^ 64 ∧
  d0 `mod` 2 ^ 64 + add1 `mod` 2 ^ 64 * 2 ^ 64 + add2 `mod` 2 ^ 64 * 2 ^ 128 + add3 * 2 ^ 192 =
  d0 + d1 * 2 ^ 64 + d2 * 2 ^ 128 + d3 * 2 ^ 192.
Proof.
  intros H0 H1 H2 H3 add1 add2 add3. unfold add3, add2, add1.
  set (T := 2 ^ 64) in *. assert (T = 18446744073709551616) as HT by done.
  pose proof (Z.div_mod d0 T ltac:(lia)). pose proof (Z.mod_pos_bound d0 T ltac:(lia)).
  pose proof (Z.div_mod d1 T ltac:(lia)). pose proof (Z.mod_pos_bound d1 T ltac:(lia)).
  pose proof (Z.div_mod d2 T ltac:(lia)). pose proof (Z.mod_pos_bound d2 T ltac:(lia)).
  set (e1 := d0 / T + d1 `mod` T) in *.
  pose proof (Z.div_mod e1 T ltac:(lia)). pose proof (Z.mod_pos_bound e1 T ltac:(lia)).
  set (e2 := d1 / T + d2 `mod` T + e1 / T) in *.
  pose proof (Z.div_mod e2 T ltac:(lia)). pose proof (Z.mod_pos_bound e2 T ltac:(lia)).
  change (2 ^ 126) with 85070591730234615865843651857942052864 in *. change (2 ^ 63) with 9223372036854775808 in *.
  change (2 ^ 65) with 36893488147419103232. change (2 ^ 128) with 340282366920938463463374607431768211456.
  change (2 ^ 192) with 6277101735386680763835789423207666416102355444464034512896.
  split_and!; lia.
Qed.

(** ** One multiplication *)
Definition acc_of (x : Z * Z) : Z := x.1 + x.2 * 2 ^ 128.
Definition acc_ok (x : Z * Z) : Prop := fits 128 x.1 ∧ 0 ≤ x.2 ≤ 3.

(** The last steps: bits 130 and up, times five, are added back. *)
Lemma fold_spec lo hi above : fits 128 lo → 0 ≤ hi ≤ 3 → 0 ≤ above < 2 ^ 125 →
  let '(new_lo, c) := overflowing_add128 lo (wrap 128 (above * 5)) in
  let new_hi := u8 (hi + bit c) in
  let x := if 4 <=? new_hi then
             let '(new_lo2, c2) := overflowing_add128 new_lo (wrap 128 (Z.shiftr new_hi 2 * 5)) in
             (new_lo2, u8 (Z.land new_hi 3 + bit c2))
           else (new_lo, new_hi) in
  acc_ok x ∧ acc_of x `mod` P1305 = (lo + hi * 2 ^ 128 + above * 2 ^ 130) `mod` P1305.
Proof.
  unfold overflowing_add128, fits. intros Hlo Hhi Hab. rewrite (wrap_small 128 (above * 5)) by (unfold fits; lia).
  assert (∀ x y, 0 ≤ x < 2 ^ 128 → 0 ≤ y < 2 ^ 128 →
    x + y = wrap 128 (x + y) + bit (2 ^ 128 <=? x + y) * 2 ^ 128 ∧ 0 ≤ wrap 128 (x + y) < 2 ^ 128) as Hadd.
  { intros x y Hx Hy. split; [|by apply Z.mod_pos_bound]. unfold wrap. destruct (Z.leb_spec (2 ^ 128) (x + y)); simpl bit.
    - rewrite <- (Z.mod_unique_pos (x + y) (2 ^ 128) 1 (x + y - 2 ^ 128)); lia.
    - rewrite Z.mod_small; lia. }
  destruct (Hadd lo (above * 5)) as [E1 B1]; [done|lia|]. set (new_lo := wrap 128 (lo + above * 5)) in *.
  assert (0 ≤ bit (2 ^ 128 <=? lo + above * 5) ≤ 1) as Bb by (unfold bit; case_match; lia).
  set (c := bit (2 ^ 128 <=? lo + above * 5)) in *. rewrite (wrap_small 8 (hi + c)) by (unfold fits; lia).
  destruct (Z.leb_spec 4 (hi + c)) as [H4|H4].
  - assert (hi = 3 ∧ c = 1) as [-> ->] by lia. change (Z.shiftr (3 + 1) 2 * 5) with 5. change (Z.land (3 + 1) 3) with 0.
    rewrite (wrap_small 128 5) by (unfold fits; lia). destruct (Hadd new_lo 5) as [E2 B2]; [done|lia|].
    assert (0 ≤ bit (2 ^ 128 <=? new_lo + 5) ≤ 1) as Bb2 by (unfold bit; case_match; lia).
    set (c2 := bit (2 ^ 128 <=? new_lo + 5)) in *. rewrite (wrap_small 8 (0 + c2)) by (unfold fits; lia).
    split; [unfold acc_ok, fits; simpl; lia|]. unfold acc_of. simpl fst. simpl snd. symmetry.
    apply (mod_eq_intro _ _ (above + 1)). unfold P1305. lia.
  - split; [unfold acc_ok, fits; simpl; lia|]. unfold acc_of. simpl fst. simpl snd. symmetry.
    apply (mod_eq_intro _ _ above). unfold P1305. lia.
Qed.

(** From the digits on. *)
Lemma fold_digits d0 d1 d2 d3 : 0 ≤ d0 < 2 ^ 126 → 0 ≤ d1 < 2 ^ 126 → 0 ≤ d2 < 2 ^ 126 → 0 ≤ d3 < 2 ^ 63 →
  d0 + d1 * 2 ^ 64 + d2 * 2 ^ 128 + d3 * 2 ^ 192 < 2 ^ 255 →
  let w0 := u64 d0 in
  let add1 := wrap 128 (u64 (d0 / 2 ^ 64) + u64 d1) in
  let w1 := u64 add1 in
  let add2 := wrap 128 (u64 (d1 / 2 ^ 64) + u64 d2 + u64 (add1 / 2 ^ 64)) in
  let w2 := u64 add2 in
  let add3 := wrap 128 (u64 (d2 / 2 ^ 64) + u64 d3 + u64 (add2 / 2 ^ 64)) in
  let w3 := u64 add3 in
  let w4 := u64 (u64 (d3 / 2 ^ 64) + u64 (add3 / 2 ^ 64)) in
  let lo := Z.lor w0 (wrap 128 (w1 * 2 ^ 64)) in
  let above := Z.lor (Z.lor (w2 / 2 ^ 2) (wrap 128 (w3 * 2 ^ 62))) (wrap 128 (w4 * 2 ^ 126)) in
  fits 128 lo ∧ 0 ≤ above < 2 ^ 125 ∧
  lo + Z.land w2 3 * 2 ^ 128 + above * 2 ^ 130 = d0 + d1 * 2 ^ 64 + d2 * 2 ^ 128 + d3 * 2 ^ 192.
Proof.
  intros H0 H1 H2 H3 HV w0 add1 w1 add2 w2 add3 w3 w4 lo above.
  destruct (carry_chain d0 d1 d2 d3) as (B1 & B2 & B3 & E); [done..|].
  set (e1 := d0 / 2 ^ 64 + d1 `mod` 2 ^ 64) in *. set (e2 := d1 / 2 ^ 64 + d2 `mod` 2 ^ 64 + e1 / 2 ^ 64) in *.
  set (e3 := d2 / 2 ^ 64 + d3 + e2 / 2 ^ 64) in *.
  assert (∀ x, 0 ≤ x < 2 ^ 128 → u64 (x / 2 ^ 64) = x / 2 ^ 64) as Hu.
  { intros x Hx. apply wrap_small. split; [apply Z.div_pos; lia|apply Z.div_lt_upper_bound; lia]. }
  assert (add1 = e1) as E1 by (unfold add1; rewrite Hu by lia; apply (wrap_small 128 e1); unfold fits; lia).
  assert (add2 = e2) as E2 by (unfold add2; rewrite E1, !Hu by lia; apply (wrap_small 128 e2); unfold fits; lia).
  assert (add3 = e3) as E3.
  { unfold add3. rewrite E2, !Hu by lia. rewrite (wrap_small 64 d3) by (unfold fits; lia). apply (wrap_small 128 e3). unfold fits. lia. }
  assert (w4 = 0) as E4.
  { unfold w4. rewrite E3, !Z.div_small by lia. done. }
  assert (w3 = e3) as E5 by (unfold w3; rewrite E3; apply wrap_small; unfold fits; lia).
  pose proof (Z.mod_pos_bound d0 (2 ^ 64) ltac:(lia)) as M0. pose proof (Z.mod_pos_bound e1 (2 ^ 64) ltac:(lia)) as M1.
  pose proof (Z.mod_pos_bound e2 (2 ^ 64) ltac:(lia)) as M2.
  assert (w1 = e1 `mod` 2 ^ 64) as E6 by (unfold w1; by rewrite E1).
  assert (w2 = e2 `mod` 2 ^ 64) as E7 by (unfold w2; by rewrite E2).
  assert (lo = d0 `mod` 2 ^ 64 + w1 * 2 ^ 64) as E8.
  { unfold lo. rewrite (wrap_small 128) by (unfold fits; lia). by apply lor_add. }
  assert (0 ≤ w2 / 4 < 2 ^ 62) as M3 by (split; [apply Z.div_pos; lia|apply Z.div_lt_upper_bound; lia]).
  assert (e3 < 2 ^ 63) as M4 by lia.
  assert (above = w2 / 4 + e3 * 2 ^ 62) as E9.
  { unfold above. rewrite E4, E5. change (wrap 128 (0 * 2 ^ 126)) with 0. rewrite Z.lor_0_r.
    rewrite (wrap_small 128) by (unfold fits; lia). by apply lor_add. }
  assert (Z.land w2 3 = w2 `mod` 4) as E10 by (by apply (Z.land_ones w2 2)).
  rewrite E8, E9, E10. pose proof (Z.div_mod w2 4 ltac:(lia)). split; [unfold fits; lia|]. split; lia.
Qed.

Lemma mulmod_spec lo hi r : fits 128 lo → 0 ≤ hi ≤ 5 → 0 ≤ r → r `mod` 2 ^ 64 < 2 ^ 60 → r / 2 ^ 64 < 2 ^ 60 →
  acc_ok (poly1305_mulmod lo hi r) ∧
  acc_of (poly1305_mulmod lo hi r) `mod` P1305 = ((lo + hi * 2 ^ 128) * r) `mod` P1305.
Proof.
  intros Hlo Hhi Hr Hr0 Hr1. unfold fits in Hlo. unfold poly1305_mulmod.
  rewrite !Z.shiftr_div_pow2, !Z.shiftl_mul_pow2 by lia.
  assert (lo / 2 ^ 64 < 2 ^ 64) as Hl1 by (apply Z.div_lt_upper_bound; lia).
  assert (0 ≤ lo / 2 ^ 64) as Pl by (apply Z.div_pos; lia). assert (0 ≤ r / 2 ^ 64) as Pr by (apply Z.div_pos; lia).
  rewrite (wrap_small 64 (r / 2 ^ 64)), (wrap_small 64 (lo / 2 ^ 64)) by (unfold fits; lia).
  pose proof (Z.div_mod lo (2 ^ 64) ltac:(lia)) as Dl. pose proof (Z.mod_pos_bound lo (2 ^ 64) ltac:(lia)) as Bl.
  pose proof (Z.div_mod r (2 ^ 64) ltac:(lia)) as Dr. pose proof (Z.mod_pos_bound r (2 ^ 64) ltac:(lia)) as Br.
  change (lo `mod` 2 ^ 64) with (u64 lo) in *. change (r `mod` 2 ^ 64) with (u64 r) in *.
  set (a0 := u64 lo) in *. set (a1 := lo / 2 ^ 64) in *. set (r0 := u64 r) in *. set (r1 := r / 2 ^ 64) in *.
  clearbody a0 a1 r0 r1.
  assert (0 ≤ a0 * r0 < 2 ^ 124) as H00 by nia. assert (0 ≤ a0 * r1 < 2 ^ 124) as H01 by nia.
  assert (0 ≤ a1 * r0 < 2 ^ 124) as H10 by nia. assert (0 ≤ a1 * r1 < 2 ^ 124) as H11 by nia.
  assert (0 ≤ hi * r0 < 2 ^ 63) as H20 by nia. assert (0 ≤ hi * r1 < 6 * 2 ^ 60) as H21 by nia.
  assert ((lo + hi * 2 ^ 128) * r = a0 * r0 + (a0 * r1 + a1 * r0) * 2 ^ 64 + (a1 * r1 + hi * r0) * 2 ^ 128 + hi * r1 * 2 ^ 192) as EV.
  { rewrite Dl, Dr at 1. change (2 ^ 128) with (2 ^ 64 * 2 ^ 64). change (2 ^ 192) with (2 ^ 64 * 2 ^ 64 * 2 ^ 64). ring. }
  rewrite EV. clear EV Dl Dr Hl1.
  set (x00 := a0 * r0) in *. set (x01 := a0 * r1) in *. set (x10 := a1 * r0) in *. set (x11 := a1 * r1) in *.
  set (x20 := hi * r0) in *. set (x21 := hi * r1) in *. clearbody x00 x01 x10 x11 x20 x21.
  rewrite (wrap_small 128 x00), (wrap_small 128 x01), (wrap_small 128 x10), (wrap_small 128 x11),
    (wrap_small 128 x20), (wrap_small 128 x21), (wrap_small 128 (x01 + x10)) by (unfold fits; lia).
  rewrite (proj2 (Z.ltb_ge (x01 + x10) x01)) by lia. change (wrap 128 (bit false * 2 ^ 64)) with 0.
  rewrite Z.add_0_r, (wrap_small 128 (x11 + x20)) by (unfold fits; lia).
  destruct (fold_digits x00 (x01 + x10) (x11 + x20) x21) as (Hl & Ha & E); [lia..|].
  rewrite <- E. apply fold_spec; [done|apply land_3|done].
Qed.

(** ** The clamped key *)
Lemma land_digits x y m n : 0 ≤ x < 256 → 0 ≤ m < 256 → Z.land (x + 256 * y) (m + 256 * n) = Z.land x m + 256 * Z.land y n.
Proof.
  intros Hx Hm. assert (∀ a b, 0 ≤ a < 256 → a + 256 * b = Z.lor a (Z.shiftl b 8)) as Hd.
  { intros a b Ha. rewrite Z.shiftl_mul_pow2 by lia. rewrite lor_add by lia. lia. }
  assert (0 ≤ Z.land x m < 256) as Hl.
  { split; [apply Z.land_nonneg; lia|]. pose proof (land_le x m). lia. }
  rewrite !Hd by done. apply Z.bits_inj'. intros i Hi. rewrite !Z.land_spec, !Z.lor_spec, !Z.shiftl_spec, !Z.land_spec by done.
  destruct (decide (i < 8)).
  - rewrite !(Z.testbit_neg_r _ (i - 8)) by lia. by rewrite !orb_false_r.
  - assert (∀ a, 0 ≤ a < 256 → Z.testbit a i = false) as Hh.
    { intros a Ha. rewrite <- (Z.mod_small a (2 ^ 8)) by lia. apply Z.mod_pow2_bits_high. lia. }
    by rewrite (Hh x), (Hh m) by done.
Qed.

Lemma of_le_cons b l : of_le (b :: l) = bval b + 256 * of_le l.
Proof. reflexivity. Qed.

Fixpoint of_digits (l : list Z) : Z := match l with [] => 0 | m :: l => m + 256 * of_digits l end.

Lemma masked_land bs ms : length bs = length ms → Forall (λ m, 0 ≤ m < 256) ms →
  of_le (zip_with (λ b m, byte_of (Z.land (bval b) m)) bs ms) = Z.land (of_le bs) (of_digits ms).
Proof.
  revert ms. induction bs as [|b bs IH]; intros [|m ms] Hl Hf; try done. injection Hl as Hl.
  apply Forall_cons in Hf as [Hm Hf]. cbn [zip_with of_digits]. rewrite !of_le_cons, IH by done. pose proof (bval_range b).
  rewrite land_digits by done. f_equal. rewrite bval_byte_of. apply Z.mod_small.
  split; [apply Z.land_nonneg; lia|]. pose proof (land_le (bval b) m). lia.
Qed.

Lemma clamp_spec key : length key = 32%nat →
  let r := of_le (clamp_r (take 16 key)) in
  r = Z.land (of_le (take 16 key)) CLAMP ∧ 0 ≤ r ∧ r `mod` 2 ^ 64 < 2 ^ 60 ∧ r / 2 ^ 64 < 2 ^ 60.
Proof.
  intros Hk. assert (length (take 16 key) = 16%nat) as Hl by (rewrite length_take; lia).
  assert (of_le (clamp_r (take 16 key)) = Z.land (of_le (take 16 key)) CLAMP) as E.
  { assert (of_digits clamp_mask = CLAMP) as <- by (vm_compute; reflexivity).
    unfold clamp_r. apply masked_land; [by rewrite Hl|].
    unfold clamp_mask. repeat (constructor; [lia|]). constructor. }
  cbv zeta. rewrite E. set (x := of_le (take 16 key)). split; [done|].
  assert (0 ≤ x) as Hx by (pose proof (of_le_range (take 16 key)); lia).
  split; [apply Z.land_nonneg; lia|]. split.
  - rewrite <- Z.land_ones, <- Z.land_assoc by lia.
    pose proof (land_le (Z.land CLAMP (Z.ones 64)) x ltac:(by vm_compute)) as H. rewrite Z.land_comm in H.
    assert (Z.land CLAMP (Z.ones 64) < 2 ^ 60) by (by vm_compute). lia.
  - rewrite <- Z.shiftr_div_pow2, Z.shiftr_land by lia.
    pose proof (land_le (Z.shiftr CLAMP 64) (Z.shiftr x 64) ltac:(by vm_compute)) as H. rewrite Z.land_comm in H.
    assert (Z.shiftr CLAMP 64 < 2 ^ 60) by (by vm_compute). lia.
Qed.

(** ** The message *)
Lemma of_le_app l k : of_le (l ++ k) = of_le l + 2 ^ (8 * zlen l) * of_le k.
Proof.
  induction l as [|b l IH]; [change (2 ^ (8 * zlen (@nil byte))) with 1; change (of_le []) with 0; simpl app; lia|].
  simpl app. rewrite !of_le_cons, IH, zlen_cons. pose proof (zlen_nonneg l). replace (8 * (zlen l + 1)) with (8 + 8 * zlen l) by lia.
  rewrite Z.pow_add_r by lia. change (2 ^ 8) with 256. ring.
Qed.

Lemma of_le_zeros n : of_le (replicate n x00) = 0.
Proof. induction n as [|n IH]; [done|]. simpl. by rewrite of_le_cons, IH. Qed.

Lemma of_le_bound l n : zlen l ≤ n → 0 ≤ of_le l < 2 ^ (8 * n).
Proof.
  intros Hl. pose proof (of_le_range l) as [H1 H2]. split; [done|]. change 256 with (2 ^ 8) in H2.
  rewrite <- Z.pow_mul_r in H2 by (pose proof (zlen_nonneg l); lia).
  pose proof (Z.pow_le_mono_r 2 (8 * zlen l) (8 * n)). lia.
Qed.

Section poly.
Context (r : Z) (Hr : 0 ≤ r) (Hr0 : r `mod` 2 ^ 64 < 2 ^ 60) (Hr1 : r / 2 ^ 64 < 2 ^ 60).

Lemma absorb_spec x n h : acc_ok x → fits 128 n → 0 ≤ h ≤ 1 →
  let y := poly1305_absorb r n h x.1 x.2 in
  acc_ok y ∧ acc_of y `mod` P1305 = (((acc_of x) `mod` P1305 + n + h * 2 ^ 128) * r) `mod` P1305.
Proof.
  destruct x as [lo hi]. intros [Hlo Hhi] Hn Hh. simpl in *. unfold poly1305_absorb, overflowing_add128. unfold fits in *.
  assert (lo + n = wrap 128 (lo + n) + bit (2 ^ 128 <=? lo + n) * 2 ^ 128 ∧ 0 ≤ wrap 128 (lo + n) < 2 ^ 128) as [E B].
  { split; [|by apply Z.mod_pos_bound]. unfold wrap. destruct (Z.leb_spec (2 ^ 128) (lo + n)); simpl bit.
    - rewrite <- (Z.mod_unique_pos (lo + n) (2 ^ 128) 1 (lo + n - 2 ^ 128)); lia.
    - rewrite Z.mod_small; lia. }
  set (sum := wrap 128 (lo + n)) in *.
  assert (u8 ((if 2 ^ 128 <=? lo + n then u8 (hi + 1) else hi) + h) = hi + bit (2 ^ 128 <=? lo + n) + h) as Eh.
  { unfold bit. destruct (2 ^ 128 <=? lo + n); rewrite ?(wrap_small 8 (hi + 1)) by (unfold fits; lia); rewrite wrap_small by (unfold fits; lia); lia. }
  rewrite Eh. destruct (mulmod_spec sum (hi + bit (2 ^ 128 <=? lo + n) + h) r) as [H1 H2];
    [done|unfold bit; case_match; lia|done..|]. split; [done|]. rewrite H2.
  pose proof (Z.div_mod (acc_of (lo, hi)) P1305 ltac:(done)) as D. apply (mod_eq_intro _ _ (acc_of (lo, hi) / P1305 * r)).
  assert (sum + (hi + bit (2 ^ 128 <=? lo + n) + h) * 2 ^ 128 = acc_of (lo, hi) + n + h * 2 ^ 128) as ->
    by (unfold acc_of; simpl; lia).
  rewrite D at 1. ring.
Qed.

(** The last, short block: a one after the bytes, then zeros. *)
Lemma short_block l : 0 < zlen l < 16 →
  ∃ block block' part, splice (replicate 17 x00) 0 l = Some block ∧ splice block (zlen l) [x01] = Some block' ∧
    sub block' 0 (Z.min (zlen l + 1) 16) = Some part ∧
    splice (replicate 16 x00) 0 part = Some (l ++ [x01] ++ replicate (15 - length l) x00).
Proof.
  intros Hl. unfold zlen in *. eexists _, _, _.
  split; [apply splice_Some; unfold zlen; rewrite ?length_replicate; lia|].
  assert (raw_splice (replicate 17 x00) 0 l = l ++ replicate (17 - length l) x00) as ->.
  { unfold raw_splice, zlen. rewrite Z.add_0_l, Nat2Z.id, drop_replicate. done. }
  split; [apply splice_Some; unfold zlen; rewrite ?length_app, ?length_replicate; simpl; lia|].
  assert (raw_splice (l ++ replicate (17 - length l) x00) (Z.of_nat (length l)) [x01] = l ++ [x01] ++ replicate (16 - length l) x00) as ->.
  { unfold raw_splice, zlen. rewrite Nat2Z.id, take_app_length. do 2 f_equal. simpl length.
    rewrite drop_app_ge by lia. rewrite drop_replicate. f_equal. lia. }
  split; [apply sub_Some; [lia|lia|]; unfold zlen; rewrite !length_app, length_replicate; simpl; lia|].
  rewrite Z.min_l by lia.
  assert (raw_sub (l ++ [x01] ++ replicate (16 - length l) x00) 0 (Z.of_nat (length l) + 1) = l ++ [x01]) as ->.
  { unfold raw_sub. rewrite app_assoc. change (Z.to_nat 0) with 0%nat. rewrite drop_0.
    rewrite take_app_length'; [done|]. rewrite length_app. simpl. lia. }
  rewrite splice_Some by (unfold zlen; rewrite ?length_app, ?length_replicate; simpl; lia). f_equal.
  unfold raw_splice, zlen. rewrite Z.add_0_l, Nat2Z.id, drop_replicate, length_app. change (Z.to_nat 0) with 0%nat. rewrite take_0, app_nil_l.
  rewrite <- app_assoc. do 3 f_equal. simpl. lia.
Qed.

Lemma poly_loop_spec fuel message x : (length message ≤ fuel)%nat → acc_ok x →
  ∃ y, poly1305_loop fuel r message x.1 x.2 = Some y ∧ acc_ok y ∧
    acc_of y `mod` P1305 = poly_eval fuel r message (acc_of x `mod` P1305).
Proof.
  revert message x. induction fuel as [|fuel IH]; intros message x Hf Hx.
  { destruct message; [|simpl in Hf; lia]. exists x. split; [by destruct x|done]. }
  destruct message as [|b message]; [exists x; split; [by destruct x|done]|].
  cbn [poly1305_loop poly_eval]. set (m := b :: message) in *.
  assert (0 < zlen m) as Hpos by (unfold m; rewrite zlen_cons; pose proof (zlen_nonneg message); lia).
  destruct (Z.leb_spec 16 (zlen m)) as [H16|H16].
  - assert (zlen (take 16 m) = 16) as Ht by (unfold zlen in *; rewrite length_take; lia).
    destruct (absorb_spec x (of_le (take 16 m)) 1) as [Ha He]; [done|unfold fits; apply (of_le_bound _ 16); lia|lia|].
    destruct (poly1305_absorb r (of_le (take 16 m)) 1 x.1 x.2) as [lo hi] eqn:E.
    destruct (IH (drop 16 m) (lo, hi)) as (y & Hy & Hok & Hv); [rewrite length_drop; lia|done|].
    exists y. split_and!; [exact Hy|done|]. rewrite Hv, He, Ht. done.
  - rewrite (proj2 (Z.ltb_lt 0 (zlen m))) by done.
    destruct (short_block m) as (bl & bl' & part & -> & E2 & E3 & E4); [lia|].
    cbn [mbind option_bind]. rewrite E2. cbn [mbind option_bind]. rewrite E3. cbn [mbind option_bind]. rewrite E4. cbn [mbind option_bind].
    rewrite (proj2 (Z.ltb_ge 16 (zlen m + 1))) by lia. eexists. split; [done|].
    assert (of_le (m ++ [x01] ++ replicate (15 - length m) x00) = of_le m + 2 ^ (8 * zlen m)) as Ev.
    { rewrite !of_le_app, of_le_zeros. change (of_le [x01]) with 1. lia. }
    destruct (absorb_spec x (of_le (m ++ [x01] ++ replicate (15 - length m) x00)) 0) as [Ha He]; [done| |lia|].
    { unfold fits. apply (of_le_bound _ 16). unfold zlen in *. rewrite !length_app, length_replicate. change (length [x01]) with 1%nat. lia. }
    split; [done|]. rewrite He, Ev. rewrite (take_ge m) by (unfold zlen in *; lia).
    rewrite (drop_ge m) by (unfold zlen in *; lia).
    assert (∀ f a, poly_eval f r [] a = a) as -> by (by intros []). do 2 f_equal. lia.
Qed.
End poly.

Lemma reduce_spec x : acc_ok x → (poly1305_reduce x.1 x.2).1 = (acc_of x `mod` P1305) `mod` 2 ^ 128.
Proof.
  destruct x as [lo hi]. intros [Hlo Hhi]. simpl in *. unfold poly1305_reduce, overflowing_add128, acc_of, fits in *. simpl.
  unfold bit. destruct (Z.leb_spec (2 ^ 128) (lo + 5)) as [Hc|Hc].
  - assert (wrap 128 (lo + 5) = lo + 5 - 2 ^ 128) as ->.
    { symmetry. apply (Z.mod_unique_pos _ _ 1); lia. }
    rewrite (wrap_small 8) by (unfold fits; lia). destruct (Z.leb_spec 4 (hi + 1)); simpl.
    + assert (hi = 3) as -> by lia.
      rewrite <- (Z.mod_unique_pos (lo + 3 * 2 ^ 128) P1305 1 (lo + 5 - 2 ^ 128)); [|unfold P1305; lia..].
      rewrite Z.mod_small by lia. done.
    + rewrite (Z.mod_small _ P1305) by (unfold P1305; lia). rewrite Z.mod_add by lia. by rewrite Z.mod_small.
  - rewrite (wrap_small 8) by (unfold fits; lia). rewrite Z.add_0_r. rewrite (proj2 (Z.leb_gt 4 hi)) by lia. simpl.
    rewrite (Z.mod_small _ P1305) by (unfold P1305; lia). rewrite Z.mod_add by lia. by rewrite Z.mod_small.
Qed.

(** ** The cipher *)
Lemma mjoin_cons {A} (l : list A) (ls : list (list A)) : mjoin (l :: ls) = l ++ mjoin ls.
Proof. reflexivity. Qed.

Lemma zlen_mjoin_le32 (f : nat → Z) l : zlen (mjoin ((λ i, le32 (f i)) <$> l)) = 4 * zlen l.
Proof. induction l as [|i l IH]; [done|]. rewrite fmap_cons, mjoin_cons, zlen_app, zlen_cons, IH, zlen_le32. lia. Qed.

Lemma zlen_chacha20_block key ctr nonce : zlen (chacha20_block key ctr nonce) = 64.
Proof.
  unfold chacha20_block. cbv zeta. generalize (Nat.iter 10 double_round (chacha20_init key ctr nonce)). intros s.
  exact (zlen_mjoin_le32 (λ i, u32 (word s i + word (chacha20_init key ctr nonce) i)) (seq 0 16)).
Qed.
#[local] Opaque chacha20_block.

(** Byte [i] of the keystream. *)
Definition keystream (key nonce : list byte) (ctr : Z) (i : nat) : byte :=
  default x00 (chacha20_block key (u32 (ctr + Z.of_nat i / 64)) nonce !! (i `mod` 64)%nat).

Lemma keystream_next key nonce ctr i : keystream key nonce (u32 (ctr + 1)) i = keystream key nonce ctr (64 + i).
Proof.
  unfold keystream.
  assert (u32 (u32 (ctr + 1) + Z.of_nat i / 64) = u32 (ctr + Z.of_nat (64 + i) / 64)) as ->.
  { replace (Z.of_nat (64 + i)) with (Z.of_nat i + 1 * 64) by lia. rewrite Z.div_add by lia.
    unfold wrap. rewrite Z.add_mod_idemp_l by lia. by replace (ctr + 1 + Z.of_nat i / 64) with (ctr + (Z.of_nat i / 64 + 1)) by lia. }
  assert ((64 + i) `mod` 64 = i `mod` 64)%nat as ->; [|done].
  replace (64 + i)%nat with (i + 1 * 64)%nat by lia. apply Nat.Div0.mod_add.
Qed.

Lemma xor_loop_spec fuel key nonce ctr data : (length data ≤ fuel)%nat → fits 32 ctr →
  xor_loop fuel key nonce ctr data = Some (imap (λ i b, xor_byte b (keystream key nonce ctr i)) data).
Proof.
  revert ctr data. induction fuel as [|fuel IH]; intros ctr data Hf Hc.
  { by destruct data; [|simpl in Hf; lia]. }
  destruct data as [|b data]; [done|]. cbn [xor_loop]. set (d := b :: data) in *.
  rewrite IH; [|rewrite length_drop; lia|by apply wrap_fits]. cbn [mbind option_bind]. f_equal.
  rewrite <- (take_drop 64 d) at 3. rewrite imap_app. f_equal.
  - apply list_eq. intros i. unfold xor_bytes. rewrite lookup_zip_with, list_lookup_imap.
    destruct (take 64 d !! i) as [x|] eqn:Ex; [|done]. simpl.
    assert (i < 64)%nat as Hi by (apply lookup_lt_Some in Ex; rewrite length_take in Ex; lia).
    pose proof (zlen_chacha20_block key ctr nonce) as Hz. unfold zlen in Hz.
    destruct (lookup_lt_is_Some_2 (chacha20_block key ctr nonce) i) as [y Hy]; [lia|].
    rewrite Hy. simpl. unfold keystream. rewrite Z.div_small, Z.add_0_r, wrap_small, Nat.mod_small by (lia || done).
    by rewrite Hy.
  - apply imap_ext. intros i x Hx. unfold compose. rewrite keystream_next.
    assert (length (take 64 d) = 64%nat) as ->; [|done]. rewrite length_take.
    destruct (decide (64 ≤ length d)%nat); [lia|]. rewrite drop_ge in Hx by lia. done.
Qed.

Lemma xor_byte_twice a b : xor_byte (xor_byte a b) b = a.
Proof.
  unfold xor_byte. apply bval_inj. rewrite !bval_byte_of. pose proof (bval_range a) as Ha. pose proof (bval_range b) as Hb.
  change 256 with (2 ^ 8) in *. rewrite <- !Z.land_ones by lia. rewrite <- (Z.mod_small (bval a) (2 ^ 8)) at 2 by done.
  rewrite <- Z.land_ones by lia. apply Z.bits_inj'. intros i Hi. rewrite !Z.land_spec, !Z.lxor_spec, !Z.land_spec, !Z.lxor_spec.
  by destruct (Z.testbit (bval a) i), (Z.testbit (bval b) i), (Z.testbit (Z.ones 8) i).
Qed.

Lemma chacha20_xor_spec key nonce ctr data : fits 32 ctr →
  chacha20_xor key nonce ctr data = Some (imap (λ i b, xor_byte b (keystream key nonce ctr i)) data).
Proof. intros Hc. by apply xor_loop_spec. Qed.

Lemma mac_is_poly1305 key message : length key = 32%nat →
  poly1305_mac key message = Some (poly1305 key message).
Proof.
  intros Hk. destruct (clamp_spec key Hk) as (Er & H1 & H2 & H3). unfold poly1305_mac, poly1305. rewrite <- Er.
  set (r := of_le (clamp_r (take 16 key))) in *.
  destruct (poly_loop_spec r H1 H2 H3 (length message) message (0, 0)) as (y & El & Hy & Ev);
    [done|unfold acc_ok, fits; simpl; lia|]. simpl in El. rewrite El.
  change (acc_of (0, 0) `mod` P1305) with 0 in Ev. cbn [mbind option_bind]. pose proof (reduce_spec y Hy) as E.
  destruct y as [lo hi]. simpl in E. destruct (poly1305_reduce lo hi) as [lo' hi']. simpl in E. rewrite E, Ev.
  unfold wrap. by rewrite Z.add_mod_idemp_l by done.
Qed.

(** ** Sealing and opening *)
Definition one_time_key (key nonce : list byte) : list byte := take 32 (chacha20_block key 0 nonce).

Lemma one_time_key_length key nonce : length (one_time_key key nonce) = 32%nat.
Proof. unfold one_time_key. rewrite length_take. pose proof (zlen_chacha20_block key 0 nonce) as H. unfold zlen in H. lia. Qed.

Lemma mac_total key nonce m : poly1305_mac (one_time_key key nonce) m = Some (poly1305 (one_time_key key nonce) m).
Proof. apply mac_is_poly1305, one_time_key_length. Qed.

Lemma poly1305_length key m : length (poly1305 key m) = 16%nat.
Proof. apply length_le_bytes. Qed.

Lemma fold_diff l d : 0 ≤ d →
  let x := fold_left (λ d (x : byte * byte), Z.lor d (Z.lxor (bval x.1) (bval x.2))) l d in
  0 ≤ x ∧ (x = 0 ↔ d = 0 ∧ Forall (λ x, x.1 = x.2) l).
Proof.
  revert d. induction l as [|[a b] l IH]; intros d Hd; simpl; [split; [done|]; split; [by intros ->|by intros [? _]]|].
  pose proof (bval_range a). pose proof (bval_range b).
  assert (0 ≤ Z.lxor (bval a) (bval b)) as Hx by (apply Z.lxor_nonneg; lia).
  destruct (IH (Z.lor d (Z.lxor (bval a) (bval b)))) as [H1 H2]; [by apply Z.lor_nonneg|]. split; [done|].
  rewrite H2, Z.lor_eq_0_iff, Z.lxor_eq_0_iff, Forall_cons. simpl. split.
  - intros [[-> E%bval_inj] ?]. done.
  - by intros (-> & -> & ?).
Qed.

Lemma tag_diff_zero a b : length a = length b → (tag_diff a b =? 0) = bool_decide (a = b).
Proof.
  intros Hl. apply eq_bool_prop_intro. rewrite Is_true_true, Z.eqb_eq. unfold tag_diff.
  destruct (fold_diff (zip a b) 0 ltac:(done)) as [_ ->]. rewrite bool_decide_spec. clear -Hl. revert b Hl.
  induction a as [|x a IH]; intros [|y b] Hl; try done. injection Hl as Hl. specialize (IH b Hl). simpl. rewrite Forall_cons. simpl. naive_solver.
Qed.

Definition seal (key nonce aad ct : list byte) : list byte :=
  ct ++ poly1305 (one_time_key key nonce) (build_mac_input aad ct).
Definition crypt (key nonce data : list byte) : list byte :=
  imap (λ i b, xor_byte b (keystream key nonce 1 i)) data.

Lemma crypt_crypt key nonce data : crypt key nonce (crypt key nonce data) = data.
Proof.
  unfold crypt. apply list_eq. intros i. rewrite !list_lookup_imap. destruct (data !! i) as [b|]; [|done]. simpl.
  by rewrite xor_byte_twice.
Qed.

Lemma encrypt_spec key nonce aad pt : aead_encrypt_aad key nonce aad pt = Some (seal key nonce aad (crypt key nonce pt)).
Proof.
  unfold aead_encrypt_aad. fold (one_time_key key nonce). rewrite chacha20_xor_spec by done. cbn [mbind option_bind].
  by rewrite mac_total.
Qed.

Lemma seal_split key nonce aad ct : let c := seal key nonce aad ct in
  zlen c = zlen ct + 16 ∧ take (length c - 16) c = ct.
Proof.
  cbv zeta. assert (length (seal key nonce aad ct) = length ct + 16)%nat as Hl by (unfold seal; rewrite length_app, poly1305_length; done).
  split; [unfold zlen; lia|]. rewrite Hl. unfold seal. rewrite take_app_length'; [done|lia].
Qed.

(** Split at the tag. *)
Lemma decrypt_spec key nonce aad c : aead_decrypt_aad key nonce aad c = Some (
  if zlen c <? 16 then None
  else let ct := take (length c - 16) c in
       if bool_decide (c = seal key nonce aad ct) then Some (crypt key nonce ct) else None).
Proof.
  unfold aead_decrypt_aad, TAG_SIZE. destruct (Z.ltb_spec (zlen c) 16) as [Hs|Hs]; [done|]. unfold zlen in *.
  rewrite !sub_Some by (unfold zlen; lia). cbn [mbind option_bind].
  assert (raw_sub c 0 (Z.of_nat (length c) - 16) = take (length c - 16) c) as ->.
  { unfold raw_sub. change (Z.to_nat 0) with 0%nat. rewrite drop_0. f_equal. lia. }
  assert (raw_sub c (Z.of_nat (length c) - 16) 16 = drop (length c - 16) c) as ->.
  { unfold raw_sub. rewrite take_ge by (rewrite length_drop; lia). f_equal. lia. }
  fold (one_time_key key nonce). set (ct := take (length c - 16) c). rewrite mac_total. cbn [mbind option_bind].
  rewrite tag_diff_zero by (rewrite poly1305_length, length_drop; lia).
  rewrite chacha20_xor_spec by done. cbn [mbind option_bind]. fold (crypt key nonce ct).
  assert (bool_decide (drop (length c - 16) c = poly1305 (one_time_key key nonce) (build_mac_input aad ct)) =
    bool_decide (c = seal key nonce aad ct)) as ->; [|by destruct (bool_decide _)].
  pose proof (take_drop (length c - 16) c) as E. fold ct in E. apply bool_decide_ext. unfold seal. split; intros H.
  - by rewrite <- H, E.
  - rewrite <- E in H at 1. by apply app_inv_head in H.
Qed.

Lemma decrypt_seal key nonce aad ct : aead_decrypt_aad key nonce aad (seal key nonce aad ct) = Some (Some (crypt key nonce ct)).
Proof.
  rewrite decrypt_spec. destruct (seal_split key nonce aad ct) as [Hl Ht]. pose proof (zlen_nonneg ct).
  rewrite (proj2 (Z.ltb_ge _ _)) by lia. cbv zeta. rewrite Ht. by rewrite bool_decide_true.
Qed.

(** ** Claims *)

(** C18. The MAC is Poly1305: for every 32-byte key and every message, the limb
    arithmetic of [poly1305_mac] returns the tag RFC 8439 defines, the message
    evaluated as a polynomial at the clamped [r] modulo [2^130 - 5], plus [s]
    modulo [2^128]. *)
Theorem poly1305_mac_is_poly1305 key message : length key = 32%nat →
  poly1305_mac key message = Some (poly1305 key message).
Proof. apply mac_is_poly1305. Qed.

(** Sealing never fails, adds a tag of sixteen bytes, and opening what was sealed
    with the same key, nonce and associated data gives the plaintext back, of any
    length. *)
Theorem sealed_data_opens key nonce aad plaintext :
  ∃ sealed, aead_encrypt_aad key nonce aad plaintext = Some sealed ∧
    zlen sealed = zlen plaintext + TAG_SIZE ∧
    aead_decrypt_aad key nonce aad sealed = Some (Some plaintext).
Proof.
  eexists. split; [apply encrypt_spec|]. rewrite decrypt_seal, crypt_crypt. split; [|done].
  rewrite (proj1 (seal_split key nonce aad _)). unfold zlen, crypt, TAG_SIZE. by rewrite length_imap.
Qed.

(** C19. Opening never panics, and accepts exactly what carries the tag of its own
    ciphertext and associated data; what is accepted decrypts to what sealing
    would have encrypted to it. *)
Theorem opens_only_what_was_sealed key nonce aad c :
  ∃ r, aead_decrypt_aad key nonce aad c = Some r ∧
  ∀ plaintext, r = Some plaintext ↔ aead_encrypt_aad key nonce aad plaintext = Some c.
Proof.
  eexists. split; [apply decrypt_spec|]. intros pt. rewrite encrypt_spec. split.
  - destruct (zlen c <? 16); [done|]. cbv zeta. case_bool_decide as E; [|done]. intros [= <-]. by rewrite crypt_crypt, <- E.
  - intros [= <-]. apply (inj Some). rewrite <- decrypt_spec, decrypt_seal. by rewrite crypt_crypt.
Qed.

(** The tag covers the split between associated data and ciphertext: the bytes
    that are authenticated determine both. *)
Theorem mac_input_determines_its_parts aad ct aad' ct' :
  Forall (λ l : list byte, zlen l < 2 ^ 64) [aad; ct; aad'; ct'] →
  build_mac_input aad ct = build_mac_input aad' ct' → aad = aad' ∧ ct = ct'.
Proof.
  intros Hf E. rewrite !Forall_cons in Hf. destruct Hf as (H1 & H2 & H3 & H4 & _). unfold build_mac_input in E.
  assert (∀ (l : list byte), zlen l < 2 ^ 64 → of_le (le64 (zlen l)) = zlen l) as Hle.
  { intros l Hl. apply of_le64. unfold fits. pose proof (zlen_nonneg l). lia. }
  rewrite !app_assoc in E. apply app_inj_2 in E as [E Ec]; [|done]. apply app_inj_2 in E as [E Ea]; [|done].
  apply (f_equal of_le) in Ec, Ea. rewrite !Hle in Ec, Ea by done.
  assert (pad16 aad = pad16 aad' ∧ pad16 ct = pad16 ct') as [Pa Pc] by (unfold pad16; by rewrite Ea, Ec).
  rewrite Pa, Pc in E. apply app_inv_tail in E. unfold zlen in Ea. apply Nat2Z.inj in Ea.
  rewrite <- !app_assoc in E. apply app_inj_1 in E as [-> E]; [|done]. by apply app_inv_head in E.
Qed.

(** ** The test vectors of RFC 8439 *)
Definition hex_bytes (l : list Z) : list byte := byte_of <$> l.
Definition rfc_key : list byte := hex_bytes (seqZ 0x80 32).
Definition rfc_nonce : list byte := hex_bytes [0x07; 0; 0; 0; 0x40; 0x41; 0x42; 0x43; 0x44; 0x45; 0x46; 0x47].
Definition rfc_aad : list byte := hex_bytes [0x50; 0x51; 0x52; 0x53; 0xc0; 0xc1; 0xc2; 0xc3; 0xc4; 0xc5; 0xc6; 0xc7].
Definition rfc_text : list byte := ascii "Ladies and Gentlemen of the class of '99: If I could offer you only one tip for the future, sunscreen would be it.".
Definition rfc_mac_key : list byte := hex_bytes
  [0x85; 0xd6; 0xbe; 0x78; 0x57; 0x55; 0x6d; 0x33; 0x7f; 0x44; 0x52; 0xfe; 0x42; 0xd5; 0x06; 0xa8;
   0x01; 0x03; 0x80; 0x8a; 0xfb; 0x0d; 0xb2; 0xfd; 0x4a; 0xbf; 0xf6; 0xaf; 0x41; 0x49; 0xf5; 0x1b].

(** The keystream block, the tag and the sealed text of RFC 8439, sections 2.3.2,
    2.5.2 and 2.8.2, are what the code computes. *)
Theorem rfc8439_vectors :
  take 16 (chacha20_block (hex_bytes (seqZ 0 32)) 1 (hex_bytes [0; 0; 0; 9; 0; 0; 0; 0x4a; 0; 0; 0; 0])) =
    hex_bytes [0x10; 0xf1; 0xe7; 0xe4; 0xd1; 0x3b; 0x59; 0x15; 0x50; 0x0f; 0xdd; 0x1f; 0xa3; 0x20; 0x71; 0xc4] ∧
  poly1305_mac rfc_mac_key (ascii "Cryptographic Forum Research Group") =
    Some (hex_bytes [0xa8; 0x06; 0x1d; 0xc1; 0x30; 0x51; 0x36; 0xc6; 0xc2; 0x2b; 0x8b; 0xaf; 0x0c; 0x01; 0x27; 0xa9]) ∧
  ∃ sealed, aead_encrypt_aad rfc_key rfc_nonce rfc_aad rfc_text = Some sealed ∧
    take 16 sealed = hex_bytes [0xd3; 0x1a; 0x8d; 0x34; 0x64; 0x8e; 0x60; 0xdb; 0x7b; 0x86; 0xaf; 0xbc; 0x53; 0xef; 0x7e; 0xc2] ∧
    drop 114 sealed = hex_bytes [0x1a; 0xe1; 0x0b; 0x59; 0x4f; 0x09; 0xe2; 0x6a; 0x7e; 0x90; 0x2e; 0xcb; 0xd0; 0x60; 0x06; 0x91].
Proof. split_and!; [vm_compute; reflexivity..|]. eexists. split_and!; vm_compute; reflexivity. Qed.

Lemma poly1305_mac_is_poly1305_witness :
  poly1305_mac rfc_mac_key (ascii "Cryptographic Forum Research Group") =
    Some (poly1305 rfc_mac_key (ascii "Cryptographic Forum Research Group")).
Proof. apply poly1305_mac_is_poly1305. reflexivity. Defined.

Lemma mac_input_determines_its_parts_witness :
  build_mac_input rfc_aad rfc_text = build_mac_input rfc_aad rfc_text ∧ rfc_aad = rfc_aad ∧ rfc_text = rfc_text.
Proof.
  split; [reflexivity|]. apply mac_input_determines_its_parts; [|reflexivity].
  repeat (constructor; [vm_compute; reflexivity|]). constructor.
Defined.
