(* ===== verification/Storage.v ===== *)
(** * The object store (storage/npkfs/storage.rs)

    Objects by content address: encrypted, written in extents past the block
    cache, indexed by the B-tree, and made durable by a commit that covers a batch
    of them.  [State] is the mounted file system; [World] adds what outlives it,
    the device with the cache on it, the keys, and the counter of commits.  The
    cache in the source is a field of the state; here it is part of the store the
    calls run on, renewed by [mount].

    The source holds one lock for the state and lets go of it around the device
    transfers of [put] and [get]; the parts between are definitions of their own.
    Timings, logs and the benchmark calls are left out.  [halt_for_legacy_disk]
    stops the machine and is a panic here. *)

From S2P Require Import Prelude Bytes Format BlockStore BlockDev DirectIo Bitmap BtreeNode Btree Journal Superblock Chain Aead.

Record State := mkState {
  fs_sb : SuperblockRaw;
  fs_bitmap : Bitmap.t;
  fs_journal : Journal;
  fs_generation : Z;
  fs_pending : list Z;         (* pending_old_blocks *)
}.

Definition set_sb (x : SuperblockRaw) (s : State) := mkState x (fs_bitmap s) (fs_journal s) (fs_generation s) (fs_pending s).
Definition set_bitmap (x : Bitmap.t) (s : State) := mkState (fs_sb s) x (fs_journal s) (fs_generation s) (fs_pending s).
Definition set_journal (x : Journal) (s : State) := mkState (fs_sb s) (fs_bitmap s) x (fs_generation s) (fs_pending s).
Definition set_generation (x : Z) (s : State) := mkState (fs_sb s) (fs_bitmap s) (fs_journal s) x (fs_pending s).
Definition set_pending (x : list Z) (s : State) := mkState (fs_sb s) (fs_bitmap s) (fs_journal s) (fs_generation s) x.

(** The fields of the superblock the calls assign. *)
Record SbEdit := mkEdit {
  e_generation : Z; e_free : Z; e_btree_root : Z; e_root_tree : list byte; e_objects : Z;
  e_head : Z; e_seq : Z; e_slot0 : list byte; e_slot1 : list byte }.
Definition edit_of (sb : SuperblockRaw) : SbEdit :=
  mkEdit (generation sb) (free_blocks sb) (btree_root sb) (root_tree_hash sb) (object_count sb)
    (journal_head sb) (journal_seq sb) (keyslot0 sb) (keyslot1 sb).
Definition edited (sb : SuperblockRaw) (e : SbEdit) : SuperblockRaw :=
  mkSb (sb_magic sb) (version sb) (flags sb) (e_generation e) (total_blocks sb) (e_free e) (bitmap_start sb)
    (bitmap_count sb) (data_start sb) (e_btree_root e) (e_root_tree e) (e_objects e) (e_head e) (e_seq e)
    (install_salt sb) (e_slot0 e) (e_slot1 e) (sb_reserved sb) (checksum sb).

Definition with_root_tree (h : list byte) (sb : SuperblockRaw) :=
  let e := edit_of sb in edited sb (mkEdit (e_generation e) (e_free e) (e_btree_root e) h (e_objects e) (e_head e) (e_seq e) (e_slot0 e) (e_slot1 e)).
Definition with_generation (g : Z) (sb : SuperblockRaw) :=
  let e := edit_of sb in edited sb (mkEdit g (e_free e) (e_btree_root e) (e_root_tree e) (e_objects e) (e_head e) (e_seq e) (e_slot0 e) (e_slot1 e)).
Definition with_free (n : Z) (sb : SuperblockRaw) :=
  let e := edit_of sb in edited sb (mkEdit (e_generation e) n (e_btree_root e) (e_root_tree e) (e_objects e) (e_head e) (e_seq e) (e_slot0 e) (e_slot1 e)).
Definition with_index (root n : Z) (sb : SuperblockRaw) :=
  let e := edit_of sb in edited sb (mkEdit (e_generation e) (e_free e) root (e_root_tree e) n (e_head e) (e_seq e) (e_slot0 e) (e_slot1 e)).
Definition with_journal (head seq : Z) (sb : SuperblockRaw) :=
  let e := edit_of sb in edited sb (mkEdit (e_generation e) (e_free e) (e_btree_root e) (e_root_tree e) (e_objects e) head seq (e_slot0 e) (e_slot1 e)).
Definition with_slots (s0 s1 : list byte) (sb : SuperblockRaw) :=
  let e := edit_of sb in edited sb (mkEdit (e_generation e) (e_free e) (e_btree_root e) (e_root_tree e) (e_objects e) (e_head e) (e_seq e) s0 s1).

Section storage.
Context (blake3 : list byte → list byte).
Context `{!Crates}.
Context {C : Type} `{!BlockStore C} `{!BlockFua C} `{!DirectIo C}.
(** [fuel] bounds walks over blocks; [reserve] is [try_reserve_exact] of a number
    of bytes; [disk_blocks] is [blkdev::block_count()]. *)
Context (fuel : nat) (reserve : Z → bool) (disk_blocks : option Z).

Record World := mkWorld {
  w_store : C;
  w_fs : option State;
  w_keys : option DiskKeys;
  w_commits : Z;               (* fs::MUTATIONS_SINCE_GC *)
}.

Notation MS := (M (C * State) FsError).
Notation MW := (M World FsError).

(** ** Access to the parts *)
Definition gets {A} (f : State → A) : MS A := λ x, (Ok (f x.2), x).
Definition modify (f : State → State) : MS unit := λ x, (Ok tt, (x.1, f x.2)).
Definition on_store {A} (m : M C FsError A) : MS A := on_fst m.
Definition on_bitmap {A} (m : M (C * Bitmap.t) FsError A) : MS A := λ x,
  let '(r, (c, b)) := m (x.1, fs_bitmap x.2) in (r, (c, set_bitmap b x.2)).
Definition on_journal {A} (m : M (C * Journal) FsError A) : MS A := λ x,
  let '(r, (c, j)) := m (x.1, fs_journal x.2) in (r, (c, set_journal j x.2)).
Definition on_sb {A} (m : M (C * SuperblockRaw) FsError A) : MS A := λ x,
  let '(r, (c, b)) := m (x.1, fs_sb x.2) in (r, (c, set_sb b x.2)).

(** [fs_lock()] and [lock.as_mut().ok_or(FsError::NotMounted)?] *)
Definition locked {A} (m : MS A) : MW A := λ w,
  match w_fs w with
  | None => (Err NotMounted, w)
  | Some s =>
      let '(r, (c, s)) := m (w_store w, s) in (r, mkWorld c (Some s) (w_keys w) (w_commits w))
  end.
(** A device call without the lock. *)
Definition unlocked {A} (m : M C BlkError A) : MW A := λ w,
  let '(r, c) := from_blk m (w_store w) in (r, mkWorld c (w_fs w) (w_keys w) (w_commits w)).
Definition with_keys {A} (f : option DiskKeys → option A) : MW A := λ w,
  match f (w_keys w) with Some a => (Ok a, w) | None => (Err Locked, w) end.

(** [match m { Err(e) => h(e), ok => ok }] *)
Definition on_error {S A} (m : M S FsError A) (h : FsError → M S FsError A) : M S FsError A := λ s,
  match m s with (Err e, s) => h e s | r => r end.
Definition modify_store (f : C → C) : MS unit := λ x, (Ok tt, (f x.1, x.2)).
(** A local [b] borrowed next to the store. *)
Definition borrowing {B A} (b : B) (m : M (C * B) FsError A) : M C FsError B := λ c,
  let '(r, (c, b)) := m (c, b) in (match r with Ok _ => Ok b | Err e => Err e | Panic => Panic end, c).

(** ** Freeing *)

(** [for b in 0..count { cache.invalidate(start + b) }] *)
Fixpoint invalidate_run (n : nat) (b : Z) (c : C) : C :=
  match n with O => c | S n => invalidate_run n (u64 (b + 1)) (invalidate b c) end.

(** [bitmap.free] and the invalidation of the blocks. *)
Definition free_run (start count : Z) : M (C * Bitmap.t) FsError unit := λ '(c, b),
  match Bitmap.free start count b with
  | Some b => (Ok tt, (invalidate_run (Z.to_nat count) start c, b))
  | None => (Panic, (c, b))
  end.
Fixpoint free_extents (l : list Extent) : M (C * Bitmap.t) FsError unit :=
  match l with
  | [] => mret tt
  | e :: l => _ ← free_run (start_block e) (block_count e); free_extents l
  end.

Definition rollback_alloc (extents : list Extent) (indirect : Z) : MS unit :=
  _ ← on_bitmap (free_extents extents);
  if negb (indirect =? 0) then on_bitmap (free_indirect_chain fuel indirect) else mret tt.

(** ** The commit *)
Fixpoint free_old (l : list Z) : M (C * Bitmap.t) FsError unit :=
  match l with
  | [] => mret tt
  | b :: l => _ ← free_run b 1; free_old l
  end.

Definition commit (old_blocks : list Z) : MS unit :=
  _ ← on_journal prepare;
  _ ← modify (λ s, set_sb (with_journal (j_head (fs_journal s)) (j_seq (fs_journal s)) (fs_sb s)) s);
  _ ← on_bitmap Bitmap.sync;
  _ ← on_store cache_flush;
  _ ← on_store (from_blk dev_flush);
  _ ← on_sb (write_next_durable blake3);
  _ ← on_journal finalize;
  _ ← on_store cache_flush;
  on_bitmap (free_old old_blocks).

Fixpoint record_all (l : list (Z * Z)) (j : Journal) : Journal :=
  match l with [] => j | (b, n) :: l => record_all l (record_free b n j) end.

(** [fs.generation += 1], into the superblock with the free count. *)
Definition next_generation : MS unit :=
  modify (λ s, let g := u64 (fs_generation s + 1) in
    set_sb (with_free (Bitmap.free_count (fs_bitmap s)) (with_generation g (fs_sb s))) (set_generation g s)).

Definition commit_root_locked (new_root : list byte) : MS bool :=
  sb ← gets fs_sb;
  pending ← gets fs_pending;
  let need_root_flip := negb (bool_decide (root_tree_hash sb = new_root)) in
  _ ← modify (set_pending []);
  if negb need_root_flip && bool_decide (pending = []) then mret false
  else
    _ ← (if need_root_flip then modify (λ s, set_sb (with_root_tree new_root (fs_sb s)) s) else mret tt);
    _ ← next_generation;
    _ ← modify (λ s, set_journal (record_all ((λ b, (b, 1)) <$> pending) (fs_journal s)) s);
    _ ← commit pending;
    mret true.

Definition note_commit : MW unit := λ w, (Ok tt, mkWorld (w_store w) (w_fs w) (w_keys w) (u64 (w_commits w + 1))).
Definition commit_root (new_root : list byte) : MW unit :=
  done ← locked (commit_root_locked new_root);
  if done : bool then note_commit else mret tt.

Definition flush_pending : MW unit :=
  '(empty, root) ← locked (gets (λ s, (bool_decide (fs_pending s = []), root_tree_hash (fs_sb s))));
  if empty : bool then mret tt else commit_root root.

(** ** Storing an object *)

(** [let start = loop { match bitmap.alloc(try_size) ... }]: the size is halved
    until one fits; [None] when not even one block does. *)
Fixpoint alloc_halving (fuel : nat) (try_size : Z) : M Bitmap.t FsError (option (Z * Z)) :=
  r ← attempt (Bitmap.alloc try_size);
  match r with
  | Some s => mret (Some (s, try_size))
  | None =>
      if 1 <? try_size then
        match fuel with O => panic | S fuel => alloc_halving fuel (u64 (try_size + 1) / 2) end
      else mret None
  end.

Fixpoint free_all (l : list Extent) : M Bitmap.t FsError unit :=
  match l with
  | [] => mret tt
  | e :: l => b ← get; b ← of_opt (Bitmap.free (start_block e) (block_count e) b); _ ← put b; free_all l
  end.

(** [while allocated < blocks_needed] *)
Fixpoint alloc_extents (fuel : nat) (needed allocated : Z) (extents : list Extent) : M Bitmap.t FsError (list Extent) :=
  if allocated <? needed then
    match fuel with
    | O => panic
    | S fuel =>
        let remaining := needed - allocated in
        r ← alloc_halving (Z.to_nat remaining) remaining;
        match r with
        | Some (start, n) => alloc_extents fuel needed (allocated + n) (extents ++ [mkExtent start n])
        | None => _ ← free_all extents; fail DiskFull
        end
    end
  else mret extents.

Definition blocks_needed (len : Z) : Z := Z.max (u64 (len + BLOCK_SIZE - 1) / BLOCK_SIZE) 1.

Fixpoint invalidate_extents (l : list Extent) (c : C) : C :=
  match l with
  | [] => c
  | e :: l => invalidate_extents l (invalidate_run (Z.to_nat (block_count e)) (start_block e) c)
  end.

(** The first locked part of a put: the blocks, dropped from the cache. *)
Definition put_alloc (len : Z) : MS (list Extent) :=
  let needed := blocks_needed len in
  extents ← on_bitmap (on_snd (alloc_extents (Z.to_nat needed) needed 0 []));
  _ ← modify_store (invalidate_extents extents);
  mret extents.

(** Whole blocks straight from the data, a last partial one padded with zeros. *)
Definition write_one (e : Extent) (raw : list byte) : M C BlkError unit :=
  let whole := zlen raw / BLOCK_SIZE in
  head ← of_opt (sub raw 0 (whole * BLOCK_SIZE));
  _ ← write_extent (start_block e) whole head;
  if whole <? block_count e then
    tail ← of_opt (sub raw (whole * BLOCK_SIZE) (zlen raw - whole * BLOCK_SIZE));
    last ← of_opt (splice zero_block 0 tail);
    write_extent (u64 (start_block e + whole)) 1 last
  else mret tt.

Fixpoint write_data (l : list Extent) (data : list byte) (consumed : Z) : M C BlkError unit :=
  match l with
  | [] => mret tt
  | e :: l =>
      let span := block_count e * BLOCK_SIZE in
      let raw_end := Z.min (zlen data) (consumed + span) in
      raw ← of_opt (sub data consumed (raw_end - consumed));
      _ ← write_one e raw;
      write_data l data (consumed + span)
  end.

(** [direct[i] = all_extents[i]] on an array of zero extents. *)
Definition direct_of (l : list Extent) : list Extent :=
  take DIRECT_EXTENTS (l ++ replicate DIRECT_EXTENTS extent_zero).

Definition entry_for (hash : list byte) (plain disk : Z) (l : list Extent) (indirect : Z) : BTreeEntryRaw :=
  mkEntryRaw hash plain disk (u32 (zlen l)) 0 (direct_of l) indirect.

(** The last locked part: the index. *)
Definition put_index (hash : list byte) (plain disk : Z) (extents : list Extent) : MS unit :=
  indirect ← (if Z.of_nat DIRECT_EXTENTS <? zlen extents
              then on_bitmap (write_indirect_extents (drop DIRECT_EXTENTS extents)) else mret 0);
  root ← gets (λ s, btree_root (fs_sb s));
  let entry := entry_for hash plain disk extents indirect in
  '(new_root, old_blocks, was_new) ← on_error (on_bitmap (Btree.insert blake3 root entry))
    (λ e, _ ← rollback_alloc extents indirect; fail e);
  if negb was_new then rollback_alloc extents indirect
  else
    modify (λ s, set_pending (fs_pending s ++ old_blocks)
      (set_sb (with_free (Bitmap.free_count (fs_bitmap s))
         (with_index new_root (u64 (object_count (fs_sb s) + 1)) (fs_sb s))) s)).

Definition put_inner (hash payload : list byte) (verify : bool) : MW unit :=
  found ← locked (root ← gets (λ s, btree_root (fs_sb s)); on_store (Btree.lookup blake3 root hash));
  if bool_decide (is_Some (found : option BTreeEntryRaw)) then mret tt
  else
    _ ← (if verify then
           h ← with_keys (λ k, disk_address k payload);
           if bool_decide (h = hash) then mret tt else fail InvalidName
         else mret tt);
    '(key, nonce) ← with_keys (λ k, object_key k hash);
    let encrypted := aead_encrypt_aes key nonce payload in
    extents ← locked (put_alloc (zlen encrypted));
    _ ← on_error (unlocked (write_data extents encrypted 0)) (λ e, locked (_ ← rollback_alloc extents 0; fail e));
    locked (put_index hash (zlen payload) (zlen encrypted) extents).
Definition put_object (hash payload : list byte) : MW unit := put_inner hash payload true.
Definition put_addressed (hash payload : list byte) : MW unit := put_inner hash payload false.

(** ** Reading an object *)
Fixpoint sum_extents (l : list (Z * Z)) (data_start disk sum : Z) : option Z :=
  match l with
  | [] => Some sum
  | (start, count) :: l =>
      if 2 ^ 64 <=? start + count then None
      else if (count =? 0) || (start <? data_start) || (disk <? start + count) then None
      else if 2 ^ 64 <=? sum + count then None
      else sum_extents l data_start disk (sum + count)
  end.
Definition checked_extent_blocks (l : list (Z * Z)) (data_start disk : Z) : option Z :=
  sum ← sum_extents l data_start disk 0; if sum <=? disk then Some sum else None.

Definition extent_in_data_area (e : Extent) (data_start disk : Z) : bool :=
  (start_block e + block_count e <? 2 ^ 64) &&
  (negb (block_count e =? 0) && (data_start <=? start_block e) && (start_block e + block_count e <=? disk)).

(** [entry.extents[..direct_count]], then the chain. *)
Definition extents_of (entry : BTreeEntryRaw) : M C FsError (list Extent) :=
  let direct := Z.min (extent_count entry) (Z.of_nat DIRECT_EXTENTS) in
  l ← of_opt (sub (extents entry) 0 direct);
  if negb (indirect_block entry =? 0) then
    more ← read_indirect_extents fuel (indirect_block entry); mret (l ++ more)
  else mret l.

Definition pair_of (e : Extent) : Z * Z := (start_block e, block_count e).

(** The locked part of a read: what to transfer, or nothing stored. *)
Definition get_locked (hash : list byte) : MS (option (BTreeEntryRaw * list (Z * Z) * Z)) :=
  sb ← gets fs_sb;
  found ← on_store (Btree.lookup blake3 (btree_root sb) hash);
  match found with
  | None => mret None
  | Some entry =>
      l ← on_store (extents_of entry);
      let list := pair_of <$> l in
      n ← ok_or Corrupt (checked_extent_blocks list (data_start sb) (total_blocks sb));
      mret (Some (entry, list, n))
  end.

Definition get_object (hash : list byte) : MW (option (list byte)) :=
  found ← locked (get_locked hash);
  match found with
  | None => mret None
  | Some (entry, list, blocks) =>
      if 2 ^ 64 <=? blocks * BLOCK_SIZE then fail Corrupt
      else
        let bytes := blocks * BLOCK_SIZE in
        if (bytes <? disk_size entry) || (disk_size entry <? plaintext_size entry) then fail Corrupt
        else if negb (reserve bytes) then fail Corrupt
        else
          staging ← unlocked (read_multi_extent list);
          let staging := take (Z.to_nat (disk_size entry)) staging in
          if negb (plaintext_size entry <? disk_size entry) then fail Corrupt
          else
            '(key, nonce) ← with_keys (λ k, object_key k hash);
            plain ← ok_or Corrupt (aead_decrypt_aes_in_place key nonce staging);
            mret (Some plain)
  end.

Definition lookup_entry (hash : list byte) : MS (option BTreeEntryRaw) :=
  root ← gets (λ s, btree_root (fs_sb s)); on_store (Btree.lookup blake3 root hash).
Definition plaintext_size_of (hash : list byte) : MW (option Z) :=
  found ← locked (lookup_entry hash); mret (plaintext_size <$> found).
Definition has_object (hash : list byte) (w : World) : bool * World :=
  match locked (lookup_entry hash) w with
  | (Ok (Some _), w) => (true, w)
  | (_, w) => (false, w)
  end.

(** ** Removing objects *)
Definition REMOVE_BATCH_FREES : Z := 16 * MAX_JOURNAL_ENTRIES.

(** [None]: not stored. *)
Definition unlink (hash : list byte) : MS (option (list Z * list Extent)) :=
  found ← lookup_entry hash;
  match found with
  | None => mret None
  | Some entry =>
      '(indirect, chain) ← (if negb (indirect_block entry =? 0)
                            then on_store (read_indirect_chain fuel (indirect_block entry)) else mret ([], []));
      root ← gets (λ s, btree_root (fs_sb s));
      '(new_root, old) ← on_bitmap (Btree.delete blake3 root hash);
      _ ← modify (λ s, set_sb (with_index new_root (sat_sub (object_count (fs_sb s)) 1) (fs_sb s)) s);
      direct ← of_opt (sub (extents entry) 0 (Z.min (extent_count entry) (Z.of_nat DIRECT_EXTENTS)));
      let freed := direct ++ indirect ++ ((λ b, mkExtent b 1) <$> chain) in
      _ ← modify (λ s, set_journal (record_all ((pair_of <$> freed) ++ ((λ b, (b, 1)) <$> old)) (fs_journal s)) s);
      mret (Some (old, freed))
  end.

Definition commit_removals (old_blocks : list Z) (freed : list Extent) : MS unit :=
  if bool_decide (old_blocks = []) && bool_decide (freed = []) then mret tt
  else
    _ ← next_generation;
    _ ← commit old_blocks;
    on_bitmap (free_extents freed).

(** [for hash in rest.by_ref()]: one batch; the hashes left and whether there may
    be more. *)
Fixpoint remove_batch (hashes : list (list byte)) (removed failed : Z) (old : list Z) (freed : list Extent)
  : MS (list (list byte) * Z * Z * list Z * list Extent * bool) :=
  match hashes with
  | [] => mret ([], removed, failed, old, freed, false)
  | h :: rest =>
      r ← attempt (unlink h);
      let '(removed, failed, old, freed) :=
        match r with
        | Some (Some (o, f)) => (removed + 1, failed, old ++ o, freed ++ f)
        | Some None => (removed, failed, old, freed)
        | None => (removed, failed + 1, old, freed)
        end in
      n ← gets (λ s, pending (fs_journal s));
      if REMOVE_BATCH_FREES <=? n then mret (rest, removed, failed, old, freed, true)
      else remove_batch rest removed failed old freed
  end.

Definition remove_round (hashes : list (list byte)) (removed failed : Z) : MS (list (list byte) * Z * Z * bool) :=
  '(rest, removed, failed, old, freed, more) ← remove_batch hashes removed failed [] [];
  _ ← commit_removals old freed;
  mret (rest, removed, failed, more).

(** [loop]: the lock is let go of between the batches. *)
Fixpoint remove_loop (fuel : nat) (hashes : list (list byte)) (removed failed : Z) : MW (Z * Z) :=
  '(rest, removed, failed, more) ← locked (remove_round hashes removed failed);
  if negb more then mret (removed, failed)
  else match fuel with O => panic | S fuel => remove_loop fuel rest removed failed end.
Definition remove_many (hashes : list (list byte)) : MW (Z * Z) := remove_loop (length hashes) hashes 0 0.

(** ** The superblock, the index and the device *)
Definition current_root (w : World) : option (list byte) := (λ s, root_tree_hash (fs_sb s)) <$> w_fs w.
Definition is_mounted (w : World) : bool := match w_fs w with Some _ => true | None => false end.
Definition stats (w : World) : option (Z * Z * Z * Z) :=
  (λ s, (total_blocks (fs_sb s), free_blocks (fs_sb s), object_count (fs_sb s), fs_generation s)) <$> w_fs w.
Definition install_salt_of (w : World) : option (list byte) := (λ s, install_salt (fs_sb s)) <$> w_fs w.

Definition keyslots (sb : SuperblockRaw) : list (list byte) := [keyslot0 sb; keyslot1 sb].
Definition keyslot (i : Z) (w : World) : option (list byte) := s ← w_fs w; at_ (keyslots (fs_sb s)) i.
(** [is_empty] of crypto/keyslot.rs is an argument. *)
Definition has_keyslot (is_empty : list byte → bool) (w : World) : bool :=
  match w_fs w with Some s => existsb (λ k, negb (is_empty k)) (keyslots (fs_sb s)) | None => false end.

Definition set_keyslot (i : Z) (slot : list byte) : MW unit := locked (
  sb ← gets fs_sb;
  if zlen (keyslots sb) <=? i then fail InvalidName
  else
    _ ← modify (λ s, set_sb (if i =? 0 then with_slots slot (keyslot1 (fs_sb s)) (fs_sb s)
                             else with_slots (keyslot0 (fs_sb s)) slot (fs_sb s)) s);
    _ ← modify (λ s, let g := u64 (fs_generation s + 1) in set_sb (with_generation g (fs_sb s)) (set_generation g s));
    _ ← on_store cache_flush;
    _ ← on_store (from_blk dev_flush);
    _ ← on_sb (write_next_durable blake3);
    mret tt).

(** The discard's error is only logged. *)
Definition trim : MW unit := locked (λ x,
  match Bitmap.flush_trims (fs_bitmap x.2) with
  | None => (Panic, x)
  | Some (ranges, b) =>
      match discard_ranges ranges x.1 with
      | (Panic, c) => (Panic, (c, x.2))
      | (_, c) => (Ok tt, (c, set_bitmap b x.2))
      end
  end).

Fixpoint roots_loop (n : nat) (slot : Z) (out : list (list byte)) : M C FsError (list (list byte)) :=
  match n with
  | O => mret out
  | S n =>
      r ← attempt (read (SUPERBLOCK_START + slot));
      match r with
      | None => roots_loop n (slot + 1) out
      | Some buf =>
          let sb := sb_of buf in
          if negb (acceptable blake3 sb) then roots_loop n (slot + 1) out
          else if bool_decide (root_tree_hash sb = replicate 32 x00) then roots_loop n (slot + 1) out
          else roots_loop n (slot + 1) (out ++ [root_tree_hash sb])
      end
  end.
Definition all_root_hashes : MW (list (list byte)) := locked (on_store (roots_loop (Z.to_nat SUPERBLOCK_SLOTS) 0 [])).

Definition all_object_hashes : MW (list (list byte)) := locked (
  root ← gets (λ s, btree_root (fs_sb s));
  es ← on_store (iter_all blake3 fuel root);
  mret (hash <$> es)).

(** ** Formatting and mounting *)
Fixpoint wipe_journal (n : nat) (i : Z) : M C FsError unit :=
  match n with
  | O => mret tt
  | S n => _ ← write (JOURNAL_START + i) zero_block; wipe_journal n (i + 1)
  end.

Definition new_superblock (total bstart bcount dstart free : Z) (salt : list byte) : SuperblockRaw :=
  mkSb DISK_MAGIC DISK_VERSION 0 1 total free bstart bcount dstart 0 (replicate 32 x00) 0 0 0 salt
    (replicate SLOT_BYTES x00) (replicate SLOT_BYTES x00) (replicate RESERVED_BYTES x00) (replicate 32 x00).

(** [random]: the 32 bytes of [csprng::random_256]. *)
Definition mkfs (random : list byte) : M C FsError unit :=
  total ← ok_or (Disk NotInitialized) disk_blocks;
  if total <? META_END + 16 then fail DiskFull
  else
    c ← get;
    _ ← put (cache_renew c);
    _ ← wipe_journal (Z.to_nat JOURNAL_BLOCKS) 0;
    let bstart := META_END in
    let bcount := u64 (total + BLOCK_SIZE * 8 - 1) / (BLOCK_SIZE * 8) in
    let dstart := bstart + bcount in
    bmap ← of_opt (Bitmap.new_for_mkfs total bstart bcount dstart);
    salt ← of_opt (sub random 0 16);
    let sb := new_superblock total bstart bcount dstart (Bitmap.free_count bmap) salt in
    _ ← borrowing bmap Bitmap.sync;
    _ ← borrowing sb (write_all blake3);
    cache_flush.

Definition probe_disk : M C FsError SbProbe := c ← get; _ ← put (cache_renew c); probe blake3.

(** The loop over [frees]. *)
Fixpoint free_pairs (l : list (Z * Z)) (b : Bitmap.t) : option Bitmap.t :=
  match l with [] => Some b | (s, n) :: l => b ← Bitmap.free s n b; free_pairs l b end.

Definition mount_disk : M C FsError State :=
  c ← get;
  _ ← put (cache_renew c);
  best ← read_best blake3;
  match best with
  | None =>
      l ← read_legacy_magic;
      match l with Some _ => panic | None => fail NotFormatted end
  | Some sb =>
      n ← ok_or (Disk NotInitialized) disk_blocks;
      if n <? total_blocks sb then fail Corrupt
      else if JOURNAL_BLOCKS <=? journal_head sb then fail Corrupt
      else
        frees ← replay (journal_head sb) (journal_seq sb);
        bmap ← Bitmap.load_args reserve (total_blocks sb) (bitmap_start sb) (bitmap_count sb) (data_start sb);
        bmap ← (if bool_decide (frees = []) then mret bmap
                else
                  bmap ← of_opt (free_pairs frees bmap);
                  bmap ← borrowing bmap Bitmap.sync;
                  _ ← cache_flush;
                  mret bmap);
        mret (mkState sb bmap (Journal.new (journal_head sb) (journal_seq sb)) (generation sb) [])
  end.

Definition mount : MW unit := λ w,
  let '(r, c) := mount_disk (w_store w) in
  match r with
  | Ok s => (Ok tt, mkWorld c (Some s) (w_keys w) (w_commits w))
  | Err e => (Err e, mkWorld c (w_fs w) (w_keys w) (w_commits w))
  | Panic => (Panic, mkWorld c (w_fs w) (w_keys w) (w_commits w))
  end.
Definition unmount (w : World) : World := mkWorld (w_store w) None (w_keys w) (w_commits w).
End storage.
