(* ===== verification/StorageFrame.v ===== *)
(** * Which blocks an operation of the store touches

    [touched l st st']: from [st] to [st'] only blocks of [l] changed, were taken or
    were given back.  Allocation, release, rollback and device writes are specified
    with it; what is kept on other blocks stays as it is. *)

From S2P Require Import Prelude Bytes Format BlockStore BlockDev DirectIo Bitmap BitmapSpec BtreeNode Btree BtreeNodeSpec BtreeIo BtreeSpec Superblock Chain Aead Storage.

Section frame.
Context (blake3 : list byte → list byte).
Hypothesis blake3_len : ∀ bs, length (blake3 bs) = 32%nat.
Context {C : Type} `{!BlockStore C} `{!BlockStoreOk C (verify_node_checksum blake3)}.
Context `{!DirectIo C} `{!DirectIoOk C (verify_node_checksum blake3)}.
Context (ok : Prop).
Notation St := (C * Bitmap.t)%type.
Notation vw := (vw blake3).
Notation good := (good blake3 ok).
Notation ext := (ext blake3 ok).
Implicit Types (st : St) (l : list Z).

Record touched l st st' : Prop := {
  t_good : good st';
  t_geo : evolves st.2 st'.2;
  t_used b : 0 ≤ b → b ∉ l → in_use st' b = in_use st b;
  t_frame b : b ∉ l → vw st' b = vw st b;
  t_direct b : b ∉ l → direct st.1 b → direct st'.1 b;
}.

Lemma touched_refl st : good st → touched [] st st.
Proof. by split. Qed.

Lemma touched_mono l l' st st' : touched l st st' → (∀ b, b ∈ l → b ∈ l') → touched l' st st'.
Proof. intros [] Hl. split; [done|done|..]; intros b *; naive_solver. Qed.

Lemma touched_trans l st1 st2 st3 : touched l st1 st2 → touched l st2 st3 → touched l st1 st3.
Proof.
  intros T1 T2. split; [apply T2|etrans; [apply T1|apply T2]|..].
  - intros b H0 Hb. rewrite (t_used _ _ _ T2), (t_used _ _ _ T1) by done. done.
  - intros b Hb. rewrite (t_frame _ _ _ T2), (t_frame _ _ _ T1) by done. done.
  - intros b Hb Hd. by apply (t_direct _ _ _ T2), (t_direct _ _ _ T1).
Qed.

Lemma ext_touched al st st' : ext al st st' → touched al st st'.
Proof.
  intros X. split; [apply X|apply X| |apply X|apply X].
  intros b H0 Hb. rewrite (x_used _ _ _ _ _ X) by done. rewrite bool_decide_false by done. apply orb_false_r.
Qed.

(** An extension followed by changes to its own blocks. *)
Lemma touched_area l st st' b : touched l st st' → in_area st' b ↔ in_area st b.
Proof. intros T. unfold in_area. by rewrite (e_data _ _ (t_geo _ _ _ T)), (e_total _ _ (t_geo _ _ _ T)). Qed.

(** What is kept on blocks outside [l]. *)
Lemma touched_owned l st st' b : good st → touched l st st' → owned st b → b ∉ l → owned st' b.
Proof.
  intros G T Ho Hb. destruct (owned_pos blake3 ok st b G Ho). destruct Ho as [Ha Hu]. split; [by apply (touched_area _ _ _ _ T)|].
  rewrite (t_used _ _ _ T) by (done || lia). done.
Qed.

Lemma good_store st c' : good st → store_inv c' → (healthy st.1 → healthy c') → good (c', st.2).
Proof. intros [] Hi Hh. split; simpl; auto. Qed.

(** A step of the store alone. *)
Lemma touched_store l st c' : good st → store_inv c' → (healthy st.1 → healthy c') →
  (∀ b, b ∉ l → view c' b = view st.1 b) → (∀ b, b ∉ l → direct st.1 b → direct c' b) → touched l st (c', st.2).
Proof. intros G Hi Hh Hv Hd. split; simpl; try done. by apply good_store. Qed.

(** ** What stays whatever is allocated and given back

    Blocks in use before, and those outside the data area. *)
Definition kept st (b : Z) : Prop := 0 ≤ b ∧ (in_use st b = true ∨ ¬ in_area st b).

Record spared st st' : Prop := {
  sp_good : good st';
  sp_geo : evolves st.2 st'.2;
  sp_kept b : kept st b → vw st' b = vw st b ∧ in_use st' b = in_use st b ∧ (direct st.1 b → direct st'.1 b);
}.

Lemma spared_area st st' b : spared st st' → in_area st' b ↔ in_area st b.
Proof. intros T. unfold in_area. by rewrite (e_data _ _ (sp_geo _ _ T)), (e_total _ _ (sp_geo _ _ T)). Qed.

Lemma spared_refl st : good st → spared st st.
Proof. by split. Qed.

Lemma spared_trans st1 st2 st3 : spared st1 st2 → spared st2 st3 → spared st1 st3.
Proof.
  intros S1 S2. split; [apply S2|etrans; [apply S1|apply S2]|]. intros b Hb. destruct (sp_kept _ _ S1 b Hb) as (V1 & U1 & D1).
  assert (kept st2 b) as Hb2.
  { destruct Hb as [H0 [?|Ha]]; split; [done|left; congruence|done|right]. by rewrite (spared_area _ _ _ S1). }
  destruct (sp_kept _ _ S2 b Hb2) as (V2 & U2 & D2). split_and!; [congruence|congruence|auto].
Qed.

Lemma fresh_not_kept al st b : Forall (λ b, in_area st b ∧ in_use st b = false) al → kept st b → b ∉ al.
Proof. intros Hf [_ Hk] Hb. rewrite Forall_forall in Hf. destruct (Hf b Hb) as [? Hu]. destruct Hk; [congruence|done]. Qed.

Lemma touched_spared al st st' : touched al st st' → Forall (λ b, in_area st b ∧ in_use st b = false) al → spared st st'.
Proof.
  intros T Hf. split; [apply T|apply T|]. intros b Hb. pose proof (fresh_not_kept _ _ _ Hf Hb) as Hn.
  destruct Hb. split_and!; [by apply T|by apply T|by apply T].
Qed.

Lemma ext_spared al st st' : ext al st st' → spared st st'.
Proof. intros X. eapply touched_spared; [by apply ext_touched|apply X]. Qed.

(** What was allocated may be changed and given back. *)
Lemma ext_back al st st1 st2 : ext al st st1 → touched al st1 st2 → spared st st2.
Proof.
  intros X T. eapply touched_spared; [|apply X]. eapply touched_trans; [by apply ext_touched|done].
Qed.

Lemma spared_owned st st' b : good st → spared st st' → owned st b →
  owned st' b ∧ vw st' b = vw st b ∧ (direct st.1 b → direct st'.1 b).
Proof.
  intros G S Ho. destruct (owned_pos blake3 ok st b G Ho). destruct Ho as [Ha Hu].
  destruct (sp_kept _ _ S b) as (V & U & D); [split; [lia|by left]|]. split_and!; [|done|done].
  split; [by apply (spared_area _ _ _ S)|congruence].
Qed.

(** What stays of the blocks [l] in use. *)
Record keeps l st st' : Prop := {
  kp_good : good st';
  kp_geo : evolves st.2 st'.2;
  kp_block b : b ∈ l → owned st b → owned st' b ∧ vw st' b = vw st b ∧ (direct st.1 b → direct st'.1 b);
}.

Lemma keeps_mono l l' st st' : keeps l st st' → (∀ b, b ∈ l' → b ∈ l) → keeps l' st st'.
Proof. intros [] Hl. split; [done|done|]. auto. Qed.

Lemma spared_keeps l st st' : good st → spared st st' → keeps l st st'.
Proof. intros G S. split; [apply S|apply S|]. intros b _. by apply spared_owned. Qed.

Lemma touched_keeps l l' st st' : good st → touched l' st st' → (∀ b, b ∈ l → b ∉ l') → keeps l st st'.
Proof.
  intros G T Hd. split; [apply T|apply T|]. intros b Hb Ho. specialize (Hd b Hb).
  split_and!; [by eapply touched_owned|by apply T|by apply T].
Qed.

(** Allocating, changing what was allocated, and allocating again. *)
Lemma ext_touched_spared al fr st0 st st' : ext al st0 st → touched (al ++ fr) st st' →
  Forall (λ b, in_area st b ∧ in_use st b = false) fr → spared st0 st'.
Proof.
  intros X T Hf. apply (touched_spared (al ++ fr)).
  - eapply touched_trans; [eapply touched_mono; [by apply ext_touched|]|exact T]. intros b Hb. apply elem_of_app. by left.
  - apply Forall_app. split; [apply X|]. eapply Forall_impl; [exact Hf|]. intros b [Ha Hu].
    apply (ext_area _ _ _ _ _ _ X) in Ha. split; [done|]. destruct (in_use st0 b) eqn:E; [|done].
    assert (0 ≤ b). { destruct (in_area_pos blake3 ok st b); [apply X|by apply (ext_area _ _ _ _ _ _ X)|lia]. }
    rewrite (x_used _ _ _ _ _ X) in Hu by done. by rewrite E in Hu.
Qed.

(** ** Allocation *)
Definition pairs (es : list Extent) : list (Z * Z) := pair_of <$> es.
Definition blocks_of (es : list Extent) : list Z := spans (pairs es).

Lemma blocks_of_cons e es : blocks_of (e :: es) = seqZ (start_block e) (block_count e) ++ blocks_of es.
Proof. reflexivity. Qed.
Lemma blocks_of_app es fs : blocks_of (es ++ fs) = blocks_of es ++ blocks_of fs.
Proof. unfold blocks_of, spans, pairs. rewrite !fmap_app. apply join_app. Qed.
Lemma blocks_of_one s n : blocks_of [mkExtent s n] = seqZ s n.
Proof. rewrite blocks_of_cons. apply app_nil_r. Qed.

Lemma alloc_run st n : good st → 0 < n →
  wp (on_snd (Bitmap.alloc n)) (λ r st', match r with
    | Ok b => ext (seqZ b n) st st' ∧ st'.1 = st.1 ∧ Bitmap.free_count st'.2 = Bitmap.free_count st.2 - n
    | Err _ => st' = st ∧ (n = 1 → full st)
    | Panic => False
    end) st.
Proof.
  intros G Hn. destruct st as [c s]. apply wp_on_snd.
  eapply wp_mono; [apply wp_and; [apply (alloc_spec n); [apply G|lia]|]|].
  { instantiate (1 := λ r s', n = 1 → match r with Err _ => ∀ x, Bitmap.data_start s ≤ x < Bitmap.total_blocks s → used (Bitmap.data s) x = true | _ => True end).
    unfold wp. destruct (Bitmap.alloc n s) as [r s'] eqn:E. intros ->. pose proof (alloc_one s (gd_map _ _ _ G)) as H.
    unfold wp in H. rewrite E in H. destruct r; try done. apply H. }
  intros [b|e|] s' [H H1]; [| |done].
  - destruct H as (_ & Hd & Ht & Ev & Iv & _ & Hfree & Hm & Hc). split; [|done]. destruct G as [G1 G2 G3].
    split; try done; simpl.
    + intros x Hx. unfold in_use. simpl. rewrite Hm by done. destruct (decide (b ≤ x < b + n)).
      * rewrite bool_decide_true by (by apply elem_of_seqZ). by rewrite orb_true_r.
      * rewrite bool_decide_false by (by rewrite elem_of_seqZ). by rewrite orb_false_r.
    + apply Forall_forall. intros x Hx%elem_of_seqZ. split; [unfold in_area; simpl; lia|]. apply Hfree. lia.
    + apply NoDup_seqZ.
  - destruct H as (-> & -> & _). split; [done|]. intros E x Hx. by apply H1.
Qed.

Lemma alloc_halving_spec fuel n st : good st → 0 < n ≤ 2 ^ 60 → n ≤ Z.of_nat fuel →
  wp (on_snd (alloc_halving fuel n)) (λ r st', match r with
    | Ok (Some (b, k)) => 0 < k ≤ n ∧ ext (seqZ b k) st st' ∧ st'.1 = st.1 ∧
        Bitmap.free_count st'.2 = Bitmap.free_count st.2 - k
    | Ok None => st' = st ∧ full st
    | _ => False
    end) st.
Proof.
  revert n. induction fuel as [|fuel IH]; intros n G Hn Hf; [lia|]. destruct st as [c s]. cbn [alloc_halving].
  apply wp_on_snd, wp_bind, wp_attempt. pose proof (alloc_run (c, s) n G ltac:(lia)) as Ha.
  unfold wp, on_snd in Ha |- *. simpl in Ha. destruct (Bitmap.alloc n s) as [[b|e|] s']; [| |done].
  - destruct Ha as (X & Ec & Hc). simpl. split; [lia|]. by split_and!.
  - destruct Ha as [[= ->] Hfull]. destruct (Z.ltb_spec 1 n).
    + assert (u64 (n + 1) / 2 = (n + 1) / 2) as -> by (rewrite wrap_small by (unfold fits; lia); done).
      assert (0 < (n + 1) / 2 ≤ n ∧ (n + 1) / 2 < n) as [Hh1 Hh2].
      { split; [split; [apply Z.div_str_pos; lia|]|]; [apply Z.div_le_upper_bound|apply Z.div_lt_upper_bound]; lia. }
      specialize (IH ((n + 1) / 2) G ltac:(lia) ltac:(lia)). unfold wp, on_snd in IH. simpl in IH.
      destruct (alloc_halving fuel ((n + 1) / 2) s) as [[[[b k]|]|er|] s2]; [|done..].
      destruct IH as (Hk & X & Ec & Hc). split; [lia|]. by split_and!.
    + simpl. split; [done|]. apply Hfull. lia.
Qed.

(** ** Giving back *)
Lemma in_data_area st s n : good st → 0 ≤ n → (∀ x, x ∈ seqZ s n → in_area st x) → 0 < n → Bitmap.in_data st.2 s n = true.
Proof.
  intros G Hn Ha Hp. apply in_data_spec; [apply G|done|].
  destruct (Ha s), (Ha (s + n - 1)); [apply elem_of_seqZ; lia..|]. lia.
Qed.

Lemma bitmap_free_spec st s n : good st → 0 ≤ n → (∀ x, x ∈ seqZ s n → in_area st x) →
  ∃ m, Bitmap.free s n st.2 = Some m ∧ evolves st.2 m ∧ inv m ∧
    ∀ x, 0 ≤ x → used (Bitmap.data m) x = if decide (x ∈ seqZ s n) then false else in_use st x.
Proof.
  intros G Hn Ha. destruct (free_spec s n st.2 (gd_map _ _ _ G) Hn) as (m & Ef & Ev & Iv & Hm).
  exists m. split_and!; [done..|]. intros x Hx. destruct (decide (n = 0)) as [->|].
  - rewrite decide_False by (rewrite elem_of_seqZ; lia). destruct (Bitmap.in_data st.2 s 0); [|by subst].
    destruct Hm as [Hm _]. rewrite Hm by done. by rewrite decide_False by lia.
  - rewrite (in_data_area st s n) in Hm by (done || lia). destruct Hm as [Hm _]. rewrite Hm by done.
    destruct (decide (s ≤ x < s + n)); [rewrite decide_True|rewrite decide_False]; rewrite ?elem_of_seqZ; done.
Qed.

Lemma invalidate_run_spec n b (c : C) : store_inv c → 0 ≤ b → b + Z.of_nat n < 2 ^ 64 →
  let c' := invalidate_run n b c in
  store_inv c' ∧ (healthy c → healthy c') ∧ (∀ x, x ∉ seqZ b (Z.of_nat n) → view c' x = view c x) ∧
  (∀ x, direct c x → direct c' x) ∧ (∀ x, uncached c x ∨ x ∈ seqZ b (Z.of_nat n) → uncached c' x).
Proof.
  revert b c. induction n as [|n IH]; intros b c I H0 Hb; cbn [invalidate_run].
  { split_and!; [done..|]. intros x [?|Hx%elem_of_seqZ]; [done|lia]. }
  rewrite wrap_small by (unfold fits; lia).
  destruct (invalidate_spec c b I) as (I1 & H1 & V1). destruct (direct_invalidate c b I) as [_ D1].
  destruct (uncached_invalidate c b I) as [U1 U1'].
  destruct (IH (b + 1) (invalidate b c) I1) as (I2 & H2 & V2 & D2 & U2); [lia..|]. split_and!; [done|auto| |auto|].
  - intros x Hx. rewrite elem_of_seqZ in Hx. rewrite V2 by (rewrite elem_of_seqZ; lia). apply V1. lia.
  - intros x [Hx|Hx]; [apply U2; left; auto|]. rewrite elem_of_seqZ in Hx. destruct (decide (x = b)) as [->|]; apply U2; [by left|].
    right. apply elem_of_seqZ. lia.
Qed.

Lemma free_run_frame st s n : good st → 0 ≤ s → 0 ≤ n → (∀ x, x ∈ seqZ s n → in_area st x) →
  wp (free_run s n) (λ r st', r = Ok tt ∧ touched (seqZ s n) st st' ∧ ∀ x, x ∈ seqZ s n → in_use st' x = false) st.
Proof.
  intros G Hs Hn Ha. destruct (bitmap_free_spec st s n G Hn Ha) as (m & Ef & Ev & Iv & Hm). destruct st as [c b].
  unfold wp, free_run. simpl in Ef. rewrite Ef. destruct G as [G1 G2 G3]. simpl in *.
  assert (s + n < 2 ^ 64 ∨ n = 0) as Hw.
  { destruct (decide (n = 0)); [by right|left]. destruct (Ha (s + n - 1)) as [_ Hx]; [apply elem_of_seqZ; lia|].
    destruct (g_total _ (i_geo _ G2)). simpl in Hx. lia. }
  assert (∃ c', c' = invalidate_run (Z.to_nat n) s c ∧ store_inv c' ∧ (healthy c → healthy c') ∧
    (∀ x, x ∉ seqZ s n → view c' x = view c x) ∧ (∀ x, direct c x → direct c' x)) as (c' & <- & I' & H' & V' & D').
  { exists (invalidate_run (Z.to_nat n) s c). split; [done|]. destruct Hw as [Hw| ->]; [|by simpl; split_and!].
    pose proof (invalidate_run_spec (Z.to_nat n) s c G1 Hs) as Hi. cbv zeta in Hi. rewrite Z2Nat.id in Hi by done.
    destruct (Hi Hw) as (? & ? & ? & ? & _). by split_and!. }
  split; [done|]. split; [split|]; simpl; try done.
  - split; simpl; auto.
  - intros x Hx Hn'. unfold in_use. simpl. rewrite Hm by done. by rewrite decide_False.
  - intros x _. apply D'.
  - intros x Hx. unfold in_use. simpl. rewrite Hm by (apply elem_of_seqZ in Hx; lia). by rewrite decide_True.
Qed.

(** Extents in the data area. *)
Definition inside st (e : Extent) : Prop :=
  0 < block_count e ∧ Bitmap.data_start st.2 ≤ start_block e ∧ start_block e + block_count e ≤ Bitmap.total_blocks st.2.

Lemma inside_area st e x : inside st e → x ∈ seqZ (start_block e) (block_count e) → in_area st x.
Proof. intros (? & ? & ?) Hx%elem_of_seqZ. unfold in_area. lia. Qed.

Lemma inside_start st e : good st → inside st e → 0 < start_block e.
Proof. intros G (? & ? & ?). pose proof (g_start _ (i_geo _ (gd_map _ _ _ G))). lia. Qed.

Lemma inside_geo st st' e : evolves st.2 st'.2 → inside st e → inside st' e.
Proof. intros [? ? Ed Et ? ? ?]. unfold inside. by rewrite Ed, Et. Qed.

Lemma free_extents_spec es st : good st → Forall (inside st) es →
  wp (free_extents es) (λ r st', r = Ok tt ∧ touched (blocks_of es) st st' ∧ ∀ x, x ∈ blocks_of es → in_use st' x = false) st.
Proof.
  revert st. induction es as [|e es IH]; intros st G Hi; cbn [free_extents].
  { apply wp_ret. split; [done|]. split; [by apply touched_refl|]. intros x Hx. by apply not_elem_of_nil in Hx. }
  apply Forall_cons in Hi as [He Hi]. pose proof He as (Hc & _). apply wp_bind.
  eapply wp_mono; [apply free_run_frame; [done|pose proof (inside_start _ _ G He); lia|lia|by intros x; apply inside_area]|].
  intros r st1 (-> & T1 & U1). eapply wp_mono; [apply IH; [apply T1|]|].
  { eapply Forall_impl; [exact Hi|]. intros x. apply inside_geo, T1. }
  intros r st2 (-> & T2 & U2). rewrite blocks_of_cons. split; [done|]. split.
  - eapply touched_trans; eapply touched_mono; [exact T1| |exact T2|]; intros x Hx; apply elem_of_app; auto.
  - intros x Hx. destruct (decide (x ∈ blocks_of es)) as [|Hne]; [by apply U2|]. apply elem_of_app in Hx as [Hx|]; [|done].
    pose proof Hx as Hx'%elem_of_seqZ. rewrite (t_used _ _ _ T2) by (done || pose proof (inside_start _ _ G He); lia). by apply U1.
Qed.

Lemma free_old_spec l st : good st → Forall (in_area st) l →
  wp (free_old l) (λ r st', r = Ok tt ∧ touched l st st' ∧ ∀ x, x ∈ l → in_use st' x = false) st.
Proof.
  revert st. induction l as [|b l IH]; intros st G Hi; cbn [free_old].
  { apply wp_ret. split; [done|]. split; [by apply touched_refl|]. intros x Hx. by apply not_elem_of_nil in Hx. }
  apply Forall_cons in Hi as [Hb Hi]. destruct (in_area_pos _ _ _ _ G Hb).
  assert (∀ x, x ∈ seqZ b 1 ↔ x = b) as E1 by (intros x; rewrite elem_of_seqZ; lia).
  apply wp_bind. eapply wp_mono; [apply free_run_frame; [done|lia|lia|by intros x ->%E1]|].
  intros r st1 (-> & T1 & U1). eapply wp_mono; [apply IH; [apply T1|]|].
  { eapply Forall_impl; [exact Hi|]. intros x. by apply (touched_area _ _ _ _ T1). }
  intros r st2 (-> & T2 & U2). split; [done|]. split.
  - eapply touched_trans; eapply touched_mono; [exact T1| |exact T2|]; intros x Hx; apply elem_of_cons; [left; by apply E1|auto].
  - intros x Hx. destruct (decide (x ∈ l)) as [|Hne]; [by apply U2|]. apply elem_of_cons in Hx as [->|]; [|done].
    rewrite (t_used _ _ _ T2) by (done || lia). apply U1. by apply E1.
Qed.

Lemma free_chain_spec fuel b es bs seen st : good st → chain (vw st) b es bs → NoDup (seen ++ bs) →
  Forall (in_area st) bs → (length bs ≤ fuel)%nat →
  wp (free_chain_loop fuel b seen) (λ r st', r = Ok tt ∧ touched bs st st') st.
Proof.
  revert b es bs seen st. induction fuel as [|fuel IH]; intros b es bs seen st G Hc Hn Ha Hl; cbn [free_chain_loop].
  all: destruct Hc as [|b es bs Hb Hc]; [rewrite Z.eqb_refl; apply wp_ret; split; [done|by apply touched_refl]|].
  { simpl in Hl. lia. }
  rewrite (proj2 (Z.eqb_neq b 0)) by done. pose proof Hn as (_ & Hd & Hn')%NoDup_app. apply NoDup_cons in Hn' as [Hbn Hn'].
  rewrite bool_decide_false by (intros Hs; apply (Hd b Hs); apply elem_of_cons; by left).
  apply Forall_cons in Ha as [Hab Ha]. destruct (in_area_pos _ _ _ _ G Hab) as [Hb0 Hbf]. destruct st as [c s].
  apply wp_bind, wp_on_fst, wp_attempt. eapply wp_mono; [apply read_unchanged, G|]. intros r c1 [(I1 & V1 & H1 & D1) R].
  assert (touched [] (c, s) (c1, s)) as T1 by (apply touched_store; auto; intros x _; symmetry; apply V1).
  assert (∀ st', touched (b :: bs) (c1, s) st' → touched (b :: bs) (c, s) st') as Hcomp.
  { intros st' T. eapply touched_trans; [eapply touched_mono; [exact T1|]|exact T]. intros x Hx. by apply not_elem_of_nil in Hx. }
  destruct r as [v|e|]; cbn [ends] in R; [subst v|apply wp_ret; split; [done|]; apply Hcomp; eapply touched_mono;
    [by apply touched_refl, T1|intros x Hx; by apply not_elem_of_nil in Hx]|done].
  pose proof (view_block c b (gd_store _ _ _ G)) as Hv. unfold is_block, BLOCK_SIZE in Hv.
  apply wp_bind. eapply wp_of_opt; [apply sub_Some; lia|]. fold (cnext (view c b)).
  apply wp_bind, wp_get, wp_bind. pose proof (free_run_frame (c1, s) b 1 (t_good _ _ _ T1)) as Hfr.
  assert (∀ x, x ∈ seqZ b 1 ↔ x = b) as E1 by (intros x; rewrite elem_of_seqZ; lia).
  specialize (Hfr ltac:(lia) ltac:(lia) ltac:(by intros x ->%E1)). unfold wp, free_run in Hfr.
  destruct (Bitmap.free b 1 s) as [s'|] eqn:Ef; [|by destruct Hfr as [? _]]. simpl in Hfr. destruct Hfr as (_ & T2 & _).
  eapply wp_of_opt; [reflexivity|]. apply wp_bind, wp_put. eapply wp_mono.
  { eapply (IH _ es bs (seen ++ [b]) (invalidate b c1, s')); [apply T2|..|simpl in Hl; lia].
    - apply (chain_frame (vw (c, s))); [exact Hc|]. intros x Hx. rewrite (t_frame _ _ _ T2).
      + apply (t_frame _ _ _ T1). apply not_elem_of_nil.
      + intros ->%E1. done.
    - by rewrite <- app_assoc.
    - eapply Forall_impl; [exact Ha|]. intros x Hx. apply (touched_area _ _ _ _ T2). exact Hx. }
  intros r st' [-> T3]. split; [done|]. apply Hcomp. eapply touched_trans; eapply touched_mono; [exact T2| |exact T3|];
    intros x Hx; apply elem_of_cons; [left; by apply E1|auto].
Qed.

(** ** The extents of an object *)
Lemma free_all_spec es st : good st → Forall (inside st) es →
  wp (on_snd (free_all es)) (λ r st', r = Ok tt ∧ touched (blocks_of es) st st' ∧ st'.1 = st.1 ∧
    ∀ x, x ∈ blocks_of es → in_use st' x = false) st.
Proof.
  revert st. induction es as [|e es IH]; intros [c s] G Hi; apply wp_on_snd; cbn [free_all].
  { apply wp_ret. split_and!; [done|by apply touched_refl|done|]. intros x Hx. by apply not_elem_of_nil in Hx. }
  apply Forall_cons in Hi as [He Hi]. pose proof He as (Hc & _). pose proof (inside_start _ _ G He) as Hs0.
  apply wp_bind, wp_get, wp_bind.
  destruct (bitmap_free_spec (c, s) (start_block e) (block_count e) G) as (m & Ef & Ev & Iv & Hm);
    [lia|by intros x; apply inside_area|]. simpl in Ef. eapply wp_of_opt; [exact Ef|]. apply wp_bind, wp_put.
  assert (touched (seqZ (start_block e) (block_count e)) (c, s) (c, m)) as T1.
  { destruct G as [G1 G2 G3]. split; simpl; try done. intros x Hx Hn. unfold in_use. simpl. rewrite Hm by done. by rewrite decide_False. }
  pose proof (IH (c, m) (t_good _ _ _ T1)) as H. unfold wp, on_snd in H |- *. simpl in H.
  destruct (free_all es m) as [r m2]. destruct H as (-> & T2 & Ec & U2).
  { eapply Forall_impl; [exact Hi|]. intros x. apply inside_geo, T1. }
  rewrite blocks_of_cons. split_and!; [done| |done|].
  - eapply touched_trans; eapply touched_mono; [exact T1| |exact T2|]; intros x Hx; apply elem_of_app; auto.
  - intros x Hx. destruct (decide (x ∈ blocks_of es)) as [|Hne]; [by apply U2|]. apply elem_of_app in Hx as [Hx|]; [|done].
    pose proof Hx as Hx'%elem_of_seqZ. rewrite (t_used _ _ _ T2) by (done || lia). unfold in_use. simpl.
    rewrite Hm by lia. by rewrite decide_True.
Qed.

Lemma zlen_seqZ s n : 0 ≤ n → zlen (seqZ s n) = n.
Proof. intros. unfold zlen. rewrite length_seqZ. lia. Qed.

(** Extents allocated from [st0] on lie in the data area. *)
Lemma ext_inside es st0 st : ext (blocks_of es) st0 st → Forall (λ e, 0 < block_count e) es → Forall (inside st) es.
Proof.
  intros X Hp. rewrite Forall_forall in Hp |- *. intros e He. specialize (Hp e He).
  assert (∀ x, x ∈ seqZ (start_block e) (block_count e) → in_area st x) as Ha.
  { intros x Hx. apply (ext_area _ _ _ _ _ _ X). pose proof (proj1 (Forall_forall _ _) (x_fresh _ _ _ _ _ X)) as Hf.
    apply Hf. unfold blocks_of, spans, pairs. rewrite <- list_fmap_compose. apply list_elem_of_join. eexists.
    split; [exact Hx|]. apply list_elem_of_fmap. by exists e. }
  destruct (Ha (start_block e)), (Ha (start_block e + block_count e - 1)); [apply elem_of_seqZ; lia..|].
  unfold inside. lia.
Qed.

(** Either extents of the size needed, on free blocks, or no block left over. *)
Lemma alloc_extents_spec fuel needed allocated es st0 st : ext (blocks_of es) st0 st → st.1 = st0.1 →
  Forall (λ e, 0 < block_count e) es → 0 ≤ allocated → needed ≤ 2 ^ 60 → needed - allocated ≤ Z.of_nat fuel →
  zlen (blocks_of es) = allocated → allocated ≤ needed →
  wp (on_snd (alloc_extents fuel needed allocated es)) (λ r st', st'.1 = st0.1 ∧ match r with
    | Ok l => ext (blocks_of l) st0 st' ∧ Forall (λ e, 0 < block_count e) l ∧ zlen (blocks_of l) = needed
    | Err e => e = DiskFull ∧ spared st0 st' ∧ ∀ b, 0 ≤ b → in_use st' b = in_use st0 b
    | Panic => False
    end) st.
Proof.
  revert allocated es st. induction fuel as [|fuel IH]; intros allocated es st X Ec Hp H0 Hn Hf Hl Hle; cbn [alloc_extents].
  all: destruct (Z.ltb_spec allocated needed) as [Hlt|Hge]; [|destruct st; apply wp_on_snd, wp_ret; split_and!; [done..|lia]].
  { lia. }
  destruct st as [c s]. apply wp_on_snd, wp_bind.
  pose proof (alloc_halving_spec (Z.to_nat (needed - allocated)) (needed - allocated) (c, s) (x_good _ _ _ _ _ X)) as H.
  unfold wp, on_snd in H |- *. simpl in H, Ec. subst c.
  destruct (alloc_halving _ _ s) as [[[[b k]|]|e|] s1]; [| |destruct H; lia..].
  - destruct H as (Hk & X1 & _ & _); [lia|lia|]. specialize (IH (allocated + k) (es ++ [mkExtent b k]) (st0.1, s1)).
    unfold wp, on_snd in IH. simpl in IH. rewrite blocks_of_app, blocks_of_one in IH.
    destruct (alloc_extents fuel needed _ _ s1) as [r s2]. apply IH; [by eapply ext_trans|done| |lia|lia|lia| |lia].
    + apply Forall_app. split; [done|]. repeat constructor. simpl. lia.
    + rewrite zlen_app, zlen_seqZ; lia.
  - destruct H as [[= ->] _]; [lia|lia|].
    pose proof (free_all_spec es (st0.1, s) (x_good _ _ _ _ _ X) (ext_inside _ _ _ X Hp)) as H.
    unfold wp, on_snd in H. unfold mbind, M_bind. simpl in H |- *. destruct (free_all es s) as [r s2]. destruct H as (-> & T & _ & U).
    split_and!; [done|done|by eapply ext_back|].
    intros x Hx. destruct (decide (x ∈ blocks_of es)) as [Hin|Hni].
    + rewrite U by done. symmetry. by apply (proj1 (Forall_forall _ _) (x_fresh _ _ _ _ _ X) x Hin).
    + rewrite (t_used _ _ _ T), (x_used _ _ _ _ _ X), bool_decide_false by done. apply orb_false_r.
Qed.
End frame.
