(* ===== verification/StorageObject.v ===== *)
(** * One object on the disk

    [write_data] fills the extents of an object with its bytes, the last block
    padded with zeros; [extents_of] finds the extents again from the index entry.
    [object st k h e p bl]: the entry [e] and the blocks [bl] hold the payload [p]
    of address [h], sealed under the keys [k]. *)

From S2P Require Import Prelude Bytes Format BlockStore BlockDev DirectIo Bitmap BitmapSpec BtreeNode Btree BtreeNodeSpec BtreeIo BtreeSpec Superblock Chain Aead Storage StorageFrame.

(** ** Bytes in blocks *)
Definition zeros (n : Z) : list byte := replicate (Z.to_nat n) x00.

Lemma zlen_zeros n : 0 ≤ n → zlen (zeros n) = n.
Proof. intros. unfold zeros. rewrite zlen_replicate. lia. Qed.

Lemma join_chunks (f : Z → block) s n data : 0 ≤ n → zlen data = n * BLOCK_SIZE →
  (∀ i, 0 ≤ i < n → f (s + i) = chunk data i) → mjoin (f <$> seqZ s n) = data.
Proof.
  intros Hn. revert s data. pattern n. apply natlike_ind; [| |done]; clear n Hn.
  - intros s data Hl _. simpl. symmetry. apply nil_length_inv. unfold zlen in Hl. lia.
  - intros n Hn IH s data Hl Hf. rewrite seqZ_cons by lia. replace (Z.pred (Z.succ n)) with n by lia.
    rewrite fmap_cons. simpl. rewrite (IH (Z.succ s) (drop (Z.to_nat BLOCK_SIZE) data)).
    + rewrite <- (Z.add_0_r s) at 1. rewrite Hf by lia. unfold chunk, raw_sub. simpl. rewrite Z.mul_0_l. apply take_drop.
    + unfold zlen, BLOCK_SIZE in *. rewrite length_drop. lia.
    + intros i Hi. rewrite chunk_drop by lia. replace (Z.succ s + i) with (s + (i + 1)) by lia. apply Hf. lia.
Qed.

Lemma splice_zero (l : list byte) : zlen l ≤ BLOCK_SIZE → splice zero_block 0 l = Some (l ++ zeros (BLOCK_SIZE - zlen l)).
Proof.
  intros Hl. pose proof (zlen_nonneg l). unfold BLOCK_SIZE in *. assert (zlen zero_block = 4096) as H0 by (exact zero_block_is_block).
  rewrite splice_Some by lia. f_equal. unfold raw_splice. simpl. f_equal. unfold zero_block, zeros. rewrite drop_replicate.
  f_equal. unfold BLOCK_SIZE, zlen in *. lia.
Qed.

(** [len] bytes take [n] blocks. *)
Definition takes (n len : Z) : Prop := (n - 1) * BLOCK_SIZE ≤ len ≤ n * BLOCK_SIZE.

Lemma takes_needed len : 0 ≤ len < 2 ^ 60 → takes (blocks_needed len) len ∧ 1 ≤ blocks_needed len ≤ 2 ^ 48.
Proof.
  intros Hl. unfold takes, blocks_needed, BLOCK_SIZE. rewrite wrap_small by (unfold fits; lia).
  pose proof (Z.div_mod (len + 4096 - 1) 4096 ltac:(lia)). pose proof (Z.mod_pos_bound (len + 4096 - 1) 4096 ltac:(lia)). lia.
Qed.

Section object.
Context (blake3 : list byte → list byte).
Hypothesis blake3_len : ∀ bs, length (blake3 bs) = 32%nat.
Context {HCr : Crates} {HCrOk : CratesOk}.
Context {C : Type} `{!BlockStore C} `{!BlockStoreOk C (verify_node_checksum blake3)}.
Context `{!DirectIo C} `{!DirectIoOk C (verify_node_checksum blake3)}.
Notation view := (view (check := verify_node_checksum blake3)).
Notation store_inv := (store_inv (check := verify_node_checksum blake3)).
Notation healthy := (healthy (check := verify_node_checksum blake3)).
Notation direct := (direct (check := verify_node_checksum blake3)).
Notation uncached := (uncached (check := verify_node_checksum blake3)).
Implicit Types (c : C) (l : list Z).

(** ** Writing *)

(** Device writes into blocks [l]. *)
Record wrote l c c' : Prop := {
  wr_inv : store_inv c';
  wr_healthy : healthy c → healthy c';
  wr_frame b : b ∉ l → view c' b = view c b;
  wr_direct b : direct c b → direct c' b;
  wr_uncached b : uncached c b → uncached c' b;
}.

Lemma wrote_refl c : store_inv c → wrote [] c c.
Proof. by split. Qed.
Lemma wrote_trans l1 l2 c1 c2 c3 : wrote l1 c1 c2 → wrote l2 c2 c3 → wrote (l1 ++ l2) c1 c3.
Proof.
  intros W1 W2. split; [apply W2|intros; by apply W2, W1| |intros; by apply W2, W1|intros; by apply W2, W1].
  intros b [??]%not_elem_of_app. by rewrite (wr_frame _ _ _ W2), (wr_frame _ _ _ W1).
Qed.

Lemma write_extent_wrote c s n data : store_inv c → 0 ≤ n → zlen data = n * BLOCK_SIZE → (∀ b, b ∈ seqZ s n → uncached c b) →
  wp (write_extent s n data) (λ r c', wrote (seqZ s n) c c' ∧ served (healthy c) r (λ _, mjoin (view c' <$> seqZ s n) = data)) c.
Proof.
  intros I Hn Hl Hu. eapply wp_mono; [by apply (write_extent_spec c s n data)|].
  intros r c' (I1 & H1 & V1 & D1 & U1 & R). split; [by split|]. destruct r as [[]|e|]; cbn [served] in *; [|done..].
  by apply join_chunks.
Qed.

Lemma write_one_spec c e raw : store_inv c → 0 < block_count e → 0 ≤ start_block e → start_block e + block_count e < 2 ^ 64 →
  takes (block_count e) (zlen raw) → (∀ b, b ∈ seqZ (start_block e) (block_count e) → uncached c b) →
  wp (write_one e raw) (λ r c', wrote (seqZ (start_block e) (block_count e)) c c' ∧
    served (healthy c) r (λ _, mjoin (view c' <$> seqZ (start_block e) (block_count e)) =
      raw ++ zeros (block_count e * BLOCK_SIZE - zlen raw))) c.
Proof.
  intros I Hk Hs Hw [Ht1 Ht2] Hu. unfold write_one. set (s := start_block e) in *. set (k := block_count e) in *.
  pose proof (zlen_nonneg raw). set (whole := zlen raw / BLOCK_SIZE).
  assert (0 ≤ whole ∧ whole * BLOCK_SIZE ≤ zlen raw < (whole + 1) * BLOCK_SIZE) as (Hw0 & Hw1 & Hw2).
  { unfold whole, BLOCK_SIZE in *. pose proof (Z.div_mod (zlen raw) 4096 ltac:(lia)).
    pose proof (Z.mod_pos_bound (zlen raw) 4096 ltac:(lia)). lia. }
  unfold BLOCK_SIZE in Ht1, Ht2, Hw1, Hw2. assert (k - 1 ≤ whole ≤ k) as Hwk by lia.
  apply wp_bind. eapply wp_of_opt; [apply sub_Some; unfold BLOCK_SIZE; lia|].
  assert (zlen (raw_sub raw 0 (whole * BLOCK_SIZE)) = whole * BLOCK_SIZE) as Hh by (apply zlen_raw_sub; unfold BLOCK_SIZE; lia).
  apply wp_bind. eapply wp_mono; [apply write_extent_wrote; [done|done|done|]|].
  { intros b Hb%elem_of_seqZ. apply Hu, elem_of_seqZ. lia. }
  intros r c1 [W1 R1]. destruct (decide (whole = k)) as [Ek|Nk].
  - rewrite Ek in *. assert (zlen raw = k * 4096) as El by lia. destruct r as [[]|er|]; cbn [served] in R1; [|by split|done].
    rewrite Z.ltb_irrefl. apply wp_ret. split; [done|]. cbn [served]. rewrite R1, El.
    replace (k * BLOCK_SIZE - k * 4096) with 0 by (unfold BLOCK_SIZE; lia). unfold zeros, raw_sub. simpl. rewrite app_nil_r.
    apply take_ge. unfold BLOCK_SIZE, zlen in *. lia.
  - assert (whole = k - 1) as Ew by lia. assert (seqZ s k = seqZ s whole ++ [s + whole]) as Es.
    { replace k with (whole + 1) by lia. rewrite seqZ_app by lia. f_equal. }
    assert (wrote (seqZ s k) c c1) as W1'.
    { rewrite Es, <- (app_nil_r (_ ++ _)). destruct W1. split; try done. intros b [[? _]%not_elem_of_app _]%not_elem_of_app. auto. }
    destruct r as [[]|er|]; cbn [served] in R1; [|by split|done].
    rewrite (proj2 (Z.ltb_lt whole k)) by lia. apply wp_bind. eapply wp_of_opt; [apply sub_Some; unfold BLOCK_SIZE; lia|].
    set (tl := raw_sub raw (whole * BLOCK_SIZE) (zlen raw - whole * BLOCK_SIZE)).
    assert (zlen tl = zlen raw - whole * 4096) as Htl by (unfold tl; rewrite zlen_raw_sub; unfold BLOCK_SIZE; lia).
    apply wp_bind. eapply wp_of_opt; [apply splice_zero; unfold BLOCK_SIZE; lia|].
    rewrite wrap_small by (unfold fits; lia).
    assert (seqZ (s + whole) 1 = [s + whole]) as E1 by (unfold seqZ; simpl; f_equal; lia).
    eapply wp_mono; [apply (write_extent_wrote c1 (s + whole) 1); [apply W1|lia| |]|].
    { rewrite zlen_app, zlen_zeros; unfold BLOCK_SIZE; lia. }
    { rewrite E1. intros b ->%list_elem_of_singleton. apply W1, Hu. rewrite Es. apply elem_of_app. right. by apply list_elem_of_singleton. }
    rewrite E1. intros r c2 [W2 R2]. rewrite Es. split; [by eapply wrote_trans|].
    destruct r as [[]|er|]; cbn [served] in R2 |- *; [|by intros ?; apply R2, W1|done].
    rewrite fmap_app, join_app. assert (view c2 <$> seqZ s whole = view c1 <$> seqZ s whole) as ->.
    { apply list_fmap_ext. intros i x Hx%list_elem_of_lookup_2%elem_of_seqZ. apply (wr_frame _ _ _ W2).
      rewrite list_elem_of_singleton. lia. }
    rewrite R1, R2, app_assoc. f_equal; [|f_equal; unfold BLOCK_SIZE; lia].
    unfold tl, raw_sub. rewrite drop_0. etrans; [|apply (take_drop (Z.to_nat (whole * BLOCK_SIZE)) raw)]. f_equal.
    apply take_ge. unfold zlen, BLOCK_SIZE in *. rewrite length_drop. lia.
Qed.

Lemma zlen_blocks_of e es : 0 ≤ block_count e → zlen (blocks_of (e :: es)) = block_count e + zlen (blocks_of es).
Proof. intros He. rewrite blocks_of_cons, zlen_app, zlen_seqZ; lia. Qed.

(** The extents hold the bytes, the last block padded with zeros. *)
Lemma write_data_spec es data consumed c : store_inv c → 0 ≤ consumed → es ≠ [] →
  Forall (λ e, 0 < block_count e ∧ 0 ≤ start_block e ∧ start_block e + block_count e < 2 ^ 64) es →
  NoDup (blocks_of es) → (∀ b, b ∈ blocks_of es → uncached c b) →
  takes (zlen (blocks_of es)) (zlen data - consumed) →
  wp (write_data es data consumed) (λ r c', wrote (blocks_of es) c c' ∧
    served (healthy c) r (λ _, mjoin (view c' <$> blocks_of es) =
      drop (Z.to_nat consumed) data ++ zeros (zlen (blocks_of es) * BLOCK_SIZE - (zlen data - consumed)))) c.
Proof.
  revert consumed c. induction es as [|e es IH]; intros consumed c I H0 Hne Hf Hn Hu Ht; [done|]. clear Hne.
  apply Forall_cons in Hf as [(Hk & Hs & Hw) Hf]. unfold takes in Ht. rewrite zlen_blocks_of in Ht |- * by lia.
  rewrite blocks_of_cons in Hn, Hu |- *. apply NoDup_app in Hn as (_ & Hd & Hn). cbn [write_data].
  set (k := block_count e) in *. set (s := start_block e) in *. pose proof (zlen_nonneg (blocks_of es)) as Hb0.
  unfold BLOCK_SIZE in Ht. set (n := Z.min (zlen data) (consumed + k * BLOCK_SIZE) - consumed).
  assert (0 ≤ n ∧ consumed + n ≤ zlen data ∧ takes k n ∧ (zlen (blocks_of es) = 0 ∧ n = zlen data - consumed ∨ n = k * 4096)) as (Hn0 & Hn1 & Hn2 & Hn3).
  { unfold n, takes, BLOCK_SIZE. lia. }
  apply wp_bind. eapply wp_of_opt; [apply sub_Some; lia|]. set (raw := raw_sub data consumed n).
  assert (zlen raw = n) as Hr by (apply zlen_raw_sub; lia).
  assert (drop (Z.to_nat consumed) data = raw ++ drop (Z.to_nat (consumed + n)) data) as Ed.
  { unfold raw, raw_sub. rewrite Z2Nat.inj_add, <- drop_drop by lia. symmetry. apply take_drop. }
  apply wp_bind. eapply wp_mono; [apply (write_one_spec c e raw); [done|done|done|done|by rewrite Hr|]|].
  { intros b Hb. apply Hu. apply elem_of_app. by left. }
  rewrite Hr. fold k s. intros r c1 [W1 R1]. assert (wrote (seqZ s k ++ blocks_of es) c c1) as W1'.
  { destruct W1. split; try done. intros b [? _]%not_elem_of_app. auto. }
  destruct r as [[]|er|]; cbn [served] in R1; [|by split|done]. destruct es as [|e2 es].
  - apply wp_ret. split; [done|]. cbn [served]. unfold blocks_of, spans, pairs. simpl. rewrite !app_nil_r, Ed, R1, <- app_assoc.
    f_equal. assert (n = zlen data - consumed) as En. { destruct Hn3 as [[_ ?]|Hn3]; [done|]. change (zlen (blocks_of [])) with 0 in Ht. lia. }
    rewrite En. replace (consumed + (zlen data - consumed)) with (zlen data) by lia. unfold zlen at 2. rewrite Nat2Z.id, drop_all. simpl.
    f_equal. rewrite zlen_nil. lia.
  - assert (0 < zlen (blocks_of (e2 :: es))) as Hpos.
    { apply Forall_cons in Hf as [(? & _) _]. rewrite zlen_blocks_of by lia. pose proof (zlen_nonneg (blocks_of es)). lia. }
    assert (n = k * 4096) as En by lia. eapply wp_mono; [apply (IH (consumed + k * BLOCK_SIZE) c1)|].
    + apply W1.
    + unfold BLOCK_SIZE. lia.
    + done.
    + done.
    + done.
    + intros b Hb. apply W1, Hu. apply elem_of_app. by right.
    + unfold takes, BLOCK_SIZE. lia.
    + intros r c2 [W2 R2]. split; [by eapply wrote_trans|]. destruct r as [[]|er|]; cbn [served] in R2 |- *; [|by intros ?; apply R2, W1|done].
      rewrite fmap_app, join_app. assert (view c2 <$> seqZ s k = view c1 <$> seqZ s k) as ->.
      { apply list_fmap_ext. intros i x Hx%list_elem_of_lookup_2. apply (wr_frame _ _ _ W2). by apply Hd. }
      rewrite R1, R2, Ed, En. unfold BLOCK_SIZE. rewrite Z.sub_diag. unfold zeros at 1. simpl. rewrite app_nil_r, <- app_assoc.
      f_equal. f_equal. f_equal. lia.
Qed.

(** ** The entry *)

(** The extents an entry names, inline and in the chain on the blocks [cb]. *)
Definition describes (f : Z → block) (e : BTreeEntryRaw) (es : list Extent) (cb : list Z) : Prop :=
  ∃ more, es = take (Z.to_nat (Z.min (extent_count e) (Z.of_nat DIRECT_EXTENTS))) (extents e) ++ more ∧
    chain f (indirect_block e) more cb.

Lemma describes_frame f g e es cb : describes f e es cb → (∀ b, b ∈ cb → g b = f b) → describes g e es cb.
Proof. intros (more & -> & Hc) Hg. exists more. split; [done|]. by eapply chain_frame. Qed.

Lemma extents_of_spec fuel e es cb c : store_inv c → entry_wf e → describes (view c) e es cb → NoDup cb → (length cb ≤ fuel)%nat →
  wp (extents_of fuel e) (λ r c', unchanged (check := verify_node_checksum blake3) c c' ∧
    match r with Ok l => l = es | Err _ => ¬ healthy c | Panic => False end) c.
Proof.
  intros I Hw (more & -> & Hc) Hn Hl. unfold extents_of. pose proof (ew_count _ Hw) as [? _].
  apply wp_bind. eapply wp_of_opt; [apply sub_Some; unfold zlen; rewrite ?(ew_len _ Hw); lia|].
  unfold raw_sub. rewrite drop_0. destruct (Z.eqb_spec (indirect_block e) 0) as [E|Ne]; simpl negb; cbn iota.
  { rewrite E in Hc. inversion Hc; subst; [|done]. apply wp_ret. rewrite app_nil_r. split; [by apply unchanged_refl|done]. }
  unfold read_indirect_extents, read_indirect_chain. apply wp_bind, wp_bind.
  eapply wp_mono; [apply (chain_walk_spec fuel (indirect_block e) [] [] c); [done|apply Hw|constructor|constructor|]|].
  { right. by exists more, cb. }
  intros [[l bs]|er|] c' [U R]; [|split; [done|]|done].
  - destruct R as (es1 & bs1 & Hc1 & -> & -> & _). apply wp_ret. simpl. split; [done|].
    by destruct (chain_fun _ _ _ _ _ _ Hc Hc1) as [-> _].
  - destruct R as [?|[_ R]]; [done|]. by destruct (R more cb Hc).
Qed.

Lemma length_direct_of es : length (direct_of es) = DIRECT_EXTENTS.
Proof. unfold direct_of, DIRECT_EXTENTS. rewrite length_take, length_app, length_replicate. lia. Qed.

Lemma entry_for_wf hash plain disk es ind : length hash = 32%nat → fits 64 plain → fits 64 disk → Forall extent_wf es →
  fits 64 ind → entry_wf (entry_for hash plain disk es ind).
Proof.
  intros Hh Hp Hd He Hi. split; simpl; try done.
  - unfold fits. pose proof (Z.mod_pos_bound (zlen es) (2 ^ 32)). unfold wrap. lia.
  - apply length_direct_of.
  - unfold direct_of. apply Forall_take, Forall_app. split; [done|]. apply Forall_replicate. done.
Qed.

Lemma entry_for_describes f hash plain disk es ind cb : zlen es < 2 ^ 32 →
  (if Z.of_nat DIRECT_EXTENTS <? zlen es then chain f ind (drop DIRECT_EXTENTS es) cb else ind = 0 ∧ cb = []) →
  describes f (entry_for hash plain disk es ind) es cb.
Proof.
  intros Hl Hc. unfold describes. simpl. pose proof (zlen_nonneg es). rewrite wrap_small by (unfold fits; lia).
  unfold direct_of. destruct (Z.ltb_spec (Z.of_nat DIRECT_EXTENTS) (zlen es)) as [Hlt|Hge].
  - exists (drop DIRECT_EXTENTS es). split; [|done]. rewrite Z.min_r, Nat2Z.id by lia.
    rewrite take_take, Nat.min_id, take_app_le by (unfold zlen in *; lia). symmetry. apply take_drop.
  - destruct Hc as [-> ->]. exists []. split; [|constructor]. rewrite Z.min_l by lia. unfold zlen. rewrite Nat2Z.id, app_nil_r.
    rewrite take_take, Nat.min_l by (unfold zlen in *; lia). by rewrite take_app_length.
Qed.

(** ** The object *)
Context (ok : Prop).
Notation St := (C * Bitmap.t)%type.
Notation vw := (vw blake3).
Notation good := (good blake3 ok).
Notation ext := (ext blake3 ok).
Notation keeps := (keeps blake3 ok).
Implicit Types (st : St).

(** The extents [es] and the chain blocks [cb] of the entry [e] hold [p]. *)
Record object_at (k : DiskKeys) st (h : list byte) (e : BTreeEntryRaw) (p : list byte) (es : list Extent) (cb : list Z) : Prop := {
  o_describes : describes (vw st) e es cb;
  o_wf : entry_wf e;
  o_hash : hash e = h;
  o_inside : Forall (inside st) es;
  o_direct : Forall (direct st.1) (blocks_of es);
  o_plain : plaintext_size e = zlen p;
  o_disk : disk_size e = zlen p + 16;
  o_small : zlen p < 2 ^ 36;
  o_takes : takes (zlen (blocks_of es)) (disk_size e);
  o_opens : aead_decrypt_aes_in_place (keyed_hash (key_data k) h) (take 12 h)
    (take (Z.to_nat (disk_size e)) (mjoin (vw st <$> blocks_of es))) = Some p;
}.
Definition object (k : DiskKeys) st (h : list byte) (e : BTreeEntryRaw) (p : list byte) (bl : list Z) : Prop :=
  ∃ es cb, bl = blocks_of es ++ cb ∧ object_at k st h e p es cb.

Lemma object_at_keeps k l st st' h e p es cb : keeps l st st' → (∀ b, b ∈ blocks_of es ++ cb → b ∈ l ∧ owned st b) →
  object_at k st h e p es cb → object_at k st' h e p es cb.
Proof.
  intros S Ho [Hd Hw Hh Hin Hdi Hp Hz Hm Ht Hdec].
  assert (∀ b, b ∈ blocks_of es ∨ b ∈ cb → vw st' b = vw st b ∧ (direct st.1 b → direct st'.1 b)) as Hb.
  { intros b Hb%elem_of_app. destruct (Ho b Hb) as [H1 H2]. by destruct (kp_block _ _ _ _ _ S b H1 H2) as (_ & ? & ?). }
  rewrite Forall_forall in Hdi. split; try done.
  - eapply describes_frame; [exact Hd|]. intros b ?. apply Hb. by right.
  - eapply Forall_impl; [exact Hin|]. intros x. apply inside_geo, S.
  - apply Forall_forall. intros b ?. apply Hb; [by left|]. by apply Hdi.
  - rewrite <- Hdec. do 3 f_equal. apply list_fmap_ext. intros i b ?%list_elem_of_lookup_2. apply Hb. by left.
Qed.

Lemma object_keeps k l st st' h e p bl : keeps l st st' → (∀ b, b ∈ bl → b ∈ l ∧ owned st b) → object k st h e p bl →
  object k st' h e p bl.
Proof. intros S Ho (es & cb & -> & O). exists es, cb. split; [done|]. by eapply object_at_keeps. Qed.

(** What was sealed and written opens again. *)
Lemma sealed_object k st h es cb p : length h = 32%nat → zlen p < 2 ^ 36 → zlen es < 2 ^ 32 →
  let enc := aead_encrypt_aes (keyed_hash (key_data k) h) (take 12 h) p in
  let ind := first_of cb in
  (if Z.of_nat DIRECT_EXTENTS <? zlen es then chain (vw st) ind (drop DIRECT_EXTENTS es) cb else ind = 0 ∧ cb = []) →
  fits 64 ind → Forall (inside st) es → Forall extent_wf es → Forall (direct st.1) (blocks_of es) →
  takes (zlen (blocks_of es)) (zlen enc) →
  mjoin (vw st <$> blocks_of es) = enc ++ zeros (zlen (blocks_of es) * BLOCK_SIZE - zlen enc) →
  object k st h (entry_for h (zlen p) (zlen enc) es ind) p (blocks_of es ++ cb).
Proof.
  intros Hh Hp Hes enc ind Hc Hi Hin Hwf Hdi Ht Hj.
  destruct (gcm_roundtrip (keyed_hash (key_data k) h) (take 12 h) p Hp) as (ct & tag & E & Hct & Htag & Hdec).
  assert (enc = ct ++ tag) as Eenc by (unfold enc, aead_encrypt_aes; by rewrite E).
  assert (zlen enc = zlen p + 16) as Hz by (rewrite Eenc, zlen_app; unfold zlen; lia). pose proof (zlen_nonneg p).
  exists es, cb. split; [done|]. split; try done; simpl.
  - by apply entry_for_describes.
  - apply entry_for_wf; try done; unfold fits; lia.
  - rewrite Hj. rewrite take_app_le by (unfold zlen; lia).
    rewrite (take_ge enc) by (unfold zlen; lia). unfold aead_decrypt_aes_in_place, TAG_SIZE. rewrite Hz.
    rewrite (proj2 (Z.ltb_ge _ _)) by lia. replace (Z.to_nat (zlen p + 16 - 16)) with (length ct) by (unfold zlen; lia).
    rewrite Eenc, take_app_length, drop_app_length. done.
Qed.
End object.
