(* ===== verification/StorageSpec.v ===== *)
(** * What a mounted store holds

    [stores k L x objs]: the state [x] holds the objects [objs], a map from
    addresses to payloads sealed under the keys [k].  [L] lays them out: the index
    tree, its blocks and the blocks of each object, all different and in use, as
    are the blocks that wait for the next commit to be freed.  A put is an
    insertion into the map, a get a lookup; a failure leaves the map as it was. *)

From S2P Require Import Prelude Bytes Format BlockStore BlockDev DirectIo Bitmap BitmapSpec BtreeNode Btree BtreeNodeSpec BtreeIo BtreeRep BtreeSpec BtreeMap Journal Superblock Chain Aead Storage StorageFrame StorageObject.

(** ** The superblock under the calls' assignments *)
Lemma with_index_wf root n sb : sb_wf sb → fits 64 root → fits 64 n → sb_wf (with_index root n sb).
Proof. intros [? ? H64 ? ? ? ? ? ?] Hr Hn. split; simpl; try done. rewrite !Forall_cons in H64 |- *. tauto. Qed.
Lemma with_free_wf n sb : sb_wf sb → fits 64 n → sb_wf (with_free n sb).
Proof. intros [? ? H64 ? ? ? ? ? ?] Hn. split; simpl; try done. rewrite !Forall_cons in H64 |- *. tauto. Qed.
Lemma with_generation_wf n sb : sb_wf sb → fits 64 n → sb_wf (with_generation n sb).
Proof. intros [? ? H64 ? ? ? ? ? ?] Hn. split; simpl; try done. rewrite !Forall_cons in H64 |- *. tauto. Qed.
Lemma with_journal_wf a b sb : sb_wf sb → fits 64 a → fits 64 b → sb_wf (with_journal a b sb).
Proof. intros [? ? H64 ? ? ? ? ? ?] Hn Hm. split; simpl; try done. rewrite !Forall_cons in H64 |- *. tauto. Qed.
Lemma with_root_tree_wf h sb : sb_wf sb → length h = 32%nat → sb_wf (with_root_tree h sb).
Proof. intros [? ? ? ? ? ? ? ? ?] Hh. by split. Qed.

Record layout := Layout {
  l_height : nat;
  l_index : gmap (list byte) BTreeEntryRaw;
  l_nodes : list Z;
  l_blocks : gmap (list byte) (list Z);
}.
Definition footprint (L : layout) (pending : list Z) : list Z :=
  l_nodes L ++ pending ++ mjoin (map_to_list (l_blocks L)).*2.

Lemma footprint_blocks L pending a bl : l_blocks L !! a = Some bl → ∀ b, b ∈ bl → b ∈ footprint L pending.
Proof.
  intros Ha b Hb. unfold footprint. rewrite !elem_of_app. right. right. apply list_elem_of_join. exists bl. split; [done|].
  apply list_elem_of_fmap. exists (a, bl). split; [done|]. by apply elem_of_map_to_list.
Qed.

Section spec.
Context (blake3 : list byte → list byte).
Hypothesis blake3_len : ∀ bs, length (blake3 bs) = 32%nat.
Context {HCr : Crates} {HCrOk : CratesOk}.
Context {C : Type} `{!BlockStore C} `{!BlockStoreOk C (verify_node_checksum blake3)}.
Context `{!DirectIo C} `{!DirectIoOk C (verify_node_checksum blake3)}.
Context (ok : Prop) (fuel : nat).
Notation St := (C * Bitmap.t)%type.
Notation Sx := (C * State)%type.
Notation vw := (vw blake3).
Notation good := (good blake3 ok).
Notation ext := (ext blake3 ok).
Notation spared := (spared blake3 ok).
Notation touched := (touched blake3 ok).
Notation keeps := (keeps blake3 ok).
Notation tree := (tree blake3).
Notation object := (object blake3).
Implicit Types (x : Sx) (objs : gmap (list byte) (list byte)).

Definition mem x : St := (x.1, fs_bitmap x.2).

(** An address is in the index, in the map and in the layout, or in none of them. *)
Definition kept_at k L (st : St) objs a : Prop :=
  match l_index L !! a, objs !! a, l_blocks L !! a with
  | Some e, Some p, Some bl => object k st a e p bl
  | None, None, None => True
  | _, _, _ => False
  end.

(** The blocks hold the objects, under a bitmap that has them in use. *)
Record holds (k : DiskKeys) (L : layout) (st : St) (root : Z) (pending : list Z) objs : Prop := {
  h_tree : tree st root (l_height L) (l_index L) (l_nodes L);
  h_objects a : kept_at k L st objs a;
  h_nodup : NoDup (footprint L pending);
  h_owned : Forall (owned st) (footprint L pending);
}.

Record stores (k : DiskKeys) (L : layout) x objs : Prop := {
  s_good : good (mem x);
  s_holds : holds k L (mem x) (btree_root (fs_sb x.2)) (fs_pending x.2) objs;
  s_data : data_start (fs_sb x.2) = Bitmap.data_start (fs_bitmap x.2);
  s_total : total_blocks (fs_sb x.2) = Bitmap.total_blocks (fs_bitmap x.2);
  s_wf : sb_wf (fs_sb x.2);
}.

Lemma s_tree k L x objs : stores k L x objs → tree (mem x) (btree_root (fs_sb x.2)) (l_height L) (l_index L) (l_nodes L).
Proof. intros S. apply (s_holds _ _ _ _ S). Qed.
Lemma s_objects k L x objs : stores k L x objs → ∀ a, kept_at k L (mem x) objs a.
Proof. intros S. apply (s_holds _ _ _ _ S). Qed.
Lemma s_nodup k L x objs : stores k L x objs → NoDup (footprint L (fs_pending x.2)).
Proof. intros S. apply (s_holds _ _ _ _ S). Qed.
Lemma s_owned k L x objs : stores k L x objs → Forall (owned (mem x)) (footprint L (fs_pending x.2)).
Proof. intros S. apply (s_holds _ _ _ _ S). Qed.

(** ** The state under the operations *)
Lemma wp_on_bitmap {A} (m : M St FsError A) (Q : res FsError A → Sx → Prop) x :
  wp m (λ r st', Q r (st'.1, set_bitmap st'.2 x.2)) (mem x) → wp (on_bitmap m) Q x.
Proof. unfold wp, on_bitmap. fold (mem x). by destruct (m (mem x)) as [r [c b]]. Qed.

Lemma wp_stx_store {A} (m : M C FsError A) (Q : res FsError A → Sx → Prop) x :
  wp m (λ r c', Q r (c', x.2)) x.1 → wp (on_store m) Q x.
Proof. destruct x. apply wp_on_fst. Qed.

Lemma wp_stx_modify f (Q : res FsError unit → Sx → Prop) x : Q (Ok tt) (x.1, f x.2) → wp (modify f) Q x.
Proof. done. Qed.

Lemma wp_stx_gets {A} (f : State → A) (Q : res FsError A → Sx → Prop) x : Q (Ok (f x.2)) x → wp (gets f) Q x.
Proof. done. Qed.

Lemma unchanged_spared (c c' : C) b : good (c, b) → unchanged (check := verify_node_checksum blake3) c c' → spared (c, b) (c', b).
Proof.
  intros G (I & V & H & D). split; [by apply (good_store blake3 ok (c, b))|reflexivity|]. intros x _. split_and!; [exact (V x)|done|apply D].
Qed.

(** What is stored survives whatever keeps its blocks. *)
Lemma holds_keeps k L st st' root pending objs : holds k L st root pending objs → keeps (footprint L pending) st st' →
  holds k L st' root pending objs.
Proof.
  intros [T O N Ow] S. rewrite Forall_forall in Ow.
  assert (∀ b, b ∈ footprint L pending → owned st' b ∧ vw st' b = vw st b) as Hb.
  { intros b Hin. by destruct (kp_block _ _ _ _ _ S b Hin (Ow b Hin)) as (? & ? & _). }
  assert (∀ b, b ∈ l_nodes L → b ∈ footprint L pending) as Hl by (intros; apply elem_of_app; by left).
  split.
  - destruct T as [T|(m & R & Em & Hn & Ho)]; [by left|right]. exists m. split_and!; [|done|done|].
    + eapply rep_frame; [exact R|]. intros b Hin. by apply Hb, Hl.
    + apply Forall_forall. intros b Hin. by apply Hb, Hl.
  - intros a. specialize (O a). unfold kept_at in *.
    destruct (l_index L !! a) as [e|], (objs !! a) as [p|], (l_blocks L !! a) as [bl|] eqn:Ebl; try done.
    eapply object_keeps; [exact S| |exact O]. intros b Hin. pose proof (footprint_blocks L pending _ _ Ebl b Hin). auto.
  - done.
  - apply Forall_forall. intros b Hin. by apply Hb.
Qed.

(** Another bitmap of the same geometry that has the blocks in use. *)
Lemma holds_perm k L st root l l' objs : holds k L st root l objs → l ≡ₚ l' → holds k L st root l' objs.
Proof. intros [T O N Ow] Hp. split; [done|done|..]; unfold footprint in *; by rewrite <- Hp. Qed.

Lemma holds_bitmap k L (c : C) bm bm' root pending objs : holds k L (c, bm) root pending objs →
  Bitmap.data_start bm' = Bitmap.data_start bm → Bitmap.total_blocks bm' = Bitmap.total_blocks bm →
  (∀ b, b ∈ footprint L pending → used (Bitmap.data bm') b = true) → holds k L (c, bm') root pending objs.
Proof.
  intros [T O N Ow] Ed Et Hu.
  assert (∀ b, b ∈ footprint L pending → owned (c, bm') b) as Ho.
  { intros b Hb. rewrite Forall_forall in Ow. destruct (Ow b Hb) as [Ha _]. split; [|by apply Hu].
    unfold in_area in *. simpl in *. by rewrite Ed, Et. }
  split.
  - destruct T as [T|(m & R & Em & Hn & _)]; [by left|right]. exists m. split_and!; [done|done|done|].
    apply Forall_forall. intros b Hb. apply Ho. apply elem_of_app. by left.
  - intros a. specialize (O a). unfold kept_at in *. destruct (l_index L !! a), (objs !! a), (l_blocks L !! a); try done.
    destruct O as (es & cb & -> & [? ? ? Hin]). exists es, cb. split; [done|]. split; try done.
    eapply Forall_impl; [exact Hin|]. intros e. unfold inside. simpl. by rewrite Ed, Et.
  - done.
  - apply Forall_forall. apply Ho.
Qed.

Lemma stores_keeps k L x x' objs : stores k L x objs → keeps (footprint L (fs_pending x.2)) (mem x) (mem x') →
  fs_sb x'.2 = fs_sb x.2 → fs_pending x'.2 = fs_pending x.2 → stores k L x' objs.
Proof.
  intros [G H Hd Ht Hwf] S Esb Epe. split; rewrite ?Esb, ?Epe.
  - apply S.
  - by eapply holds_keeps.
  - rewrite Hd. symmetry. apply (e_data _ _ (kp_geo _ _ _ _ _ S)).
  - rewrite Ht. symmetry. apply (e_total _ _ (kp_geo _ _ _ _ _ S)).
  - done.
Qed.

(** ** The parts of a put *)
Lemma invalidate_extents_spec es (c : C) : store_inv c →
  Forall (λ e, 0 < block_count e ∧ 0 ≤ start_block e ∧ start_block e + block_count e < 2 ^ 64) es →
  let c' := invalidate_extents es c in
  store_inv c' ∧ (healthy c → healthy c') ∧ (∀ b, b ∉ blocks_of es → view c' b = view c b) ∧
  (∀ b, direct c b → direct c' b) ∧ (∀ b, uncached c b ∨ b ∈ blocks_of es → uncached c' b).
Proof.
  revert c. induction es as [|e es IH]; intros c I Hf; cbn [invalidate_extents].
  { split_and!; [done..|]. intros x [?|Hx]; [done|]. by apply not_elem_of_nil in Hx. }
  apply Forall_cons in Hf as [(H1 & H2 & H3) Hf].
  destruct (invalidate_run_spec blake3 (Z.to_nat (block_count e)) (start_block e) c I H2) as (I1 & Hh1 & V1 & D1 & U1); [lia|].
  rewrite Z2Nat.id in V1, U1 by lia. destruct (IH _ I1 Hf) as (I2 & Hh2 & V2 & D2 & U2). rewrite blocks_of_cons.
  split_and!; [done|auto| |auto|].
  - intros x [??]%not_elem_of_app. rewrite V2 by done. by apply V1.
  - intros x [Hx|[Hx|Hx]%elem_of_app]; apply U2; [left; apply U1; by left|left; apply U1; by right|by right].
Qed.

(** Extents of a good state are within the machine's range. *)
Lemma inside_range st e : good st → inside st e →
  0 < block_count e ∧ 0 ≤ start_block e ∧ start_block e + block_count e < 2 ^ 64.
Proof.
  intros G (H1 & H2 & H3). destruct (g_total _ (i_geo _ (gd_map _ _ _ G))). pose proof (g_start _ (i_geo _ (gd_map _ _ _ G))). lia.
Qed.
Lemma inside_wf st e : good st → inside st e → extent_wf e.
Proof. intros G (H1 & H2 & H3)%(inside_range st e); [|done]. unfold extent_wf, fits. lia. Qed.

(** The state after a step of the store and the bitmap. *)
Definition with_mem (st : St) x : Sx := (st.1, set_bitmap st.2 x.2).
Lemma mem_with st x : mem (with_mem st x) = st.
Proof. by destruct st. Qed.
Lemma with_mem_mem x : with_mem (mem x) x = x.
Proof. by destruct x as [c []]. Qed.

Lemma put_alloc_spec x len : good (mem x) → 0 ≤ len < 2 ^ 60 →
  wp (put_alloc len) (λ r x', ∃ st', x' = with_mem st' x ∧ match r with
    | Ok es => ext (blocks_of es) (mem x) st' ∧ Forall (inside st') es ∧ zlen (blocks_of es) = blocks_needed len ∧
        ∀ b, b ∈ blocks_of es → uncached st'.1 b
    | Err e => e = DiskFull ∧ spared (mem x) st' ∧ ∀ b, 0 ≤ b → in_use st' b = in_use (mem x) b
    | Panic => False
    end) x.
Proof.
  intros G Hl. destruct (takes_needed len Hl) as [_ Hb]. unfold put_alloc. apply wp_bind, wp_on_bitmap. eapply wp_mono.
  { apply (alloc_extents_spec blake3 ok (Z.to_nat (blocks_needed len)) (blocks_needed len) 0 [] (mem x) (mem x));
      [by apply ext_refl|done|done|lia|lia|lia|done|lia]. }
  intros [es|e|] st1 [Ec H]; [|by exists st1|done]. destruct H as (X & Hp & Hz). pose proof (ext_inside _ _ _ _ _ X Hp) as Hin.
  apply wp_bind. unfold wp at 1, modify_store. simpl. pose proof (x_good _ _ _ _ _ X) as G1.
  destruct (invalidate_extents_spec es st1.1 (gd_store _ _ _ G1)) as (I2 & H2 & V2 & D2 & U2).
  { eapply Forall_impl; [exact Hin|]. intros e. by apply inside_range. }
  exists (invalidate_extents es st1.1, st1.2). split; [done|]. split_and!.
  - eapply ext_fill; [exact X|done|by apply good_store|]. intros b Hb'. split; [by apply V2|apply D2].
  - exact Hin.
  - done.
  - intros b Hb'. apply U2. by right.
Qed.

Lemma rollback_spec x es ind more cb : good (mem x) → Forall (inside (mem x)) es → chain (vw (mem x)) ind more cb →
  NoDup (blocks_of es ++ cb) → Forall (in_area (mem x)) cb → (length cb ≤ fuel)%nat →
  wp (rollback_alloc fuel es ind) (λ r x', ∃ st', x' = with_mem st' x ∧ r = Ok tt ∧ touched (blocks_of es ++ cb) (mem x) st') x.
Proof.
  intros G Hin Hc Hn Ha Hl. apply NoDup_app in Hn as (_ & Hd & Hn). unfold rollback_alloc.
  apply wp_bind, wp_on_bitmap. eapply wp_mono; [by apply (free_extents_spec blake3 ok)|]. intros r st1 (-> & T1 & _).
  assert (∀ st2, touched cb st1 st2 → touched (blocks_of es ++ cb) (mem x) st2) as Hcomp.
  { intros st2 T2. eapply touched_trans; eapply touched_mono; [exact T1| |exact T2|]; intros b Hb; apply elem_of_app; auto. }
  destruct (Z.eqb_spec ind 0) as [->|Hne]; simpl negb; cbn iota.
  { inversion Hc; subst; [|done]. apply wp_ret. exists st1. split; [done|]. split; [done|]. apply Hcomp, touched_refl, T1. }
  apply wp_on_bitmap. replace (mem (st1.1, set_bitmap st1.2 x.2)) with st1 by (by destruct st1).
  eapply wp_mono; [apply (free_chain_spec blake3 ok fuel ind more cb []); [apply T1|..|done]|].
  - eapply chain_frame; [exact Hc|]. intros b Hb. apply (t_frame _ _ _ _ _ T1). intros Hb'. by apply (Hd b).
  - done.
  - eapply Forall_impl; [exact Ha|]. intros b. by apply (touched_area _ _ _ _ _ _ T1).
  - intros r st2 [-> T2]. exists st2. split; [done|]. split; [done|]. by apply Hcomp.
Qed.

Lemma wp_on_error {S A} (m : M S FsError A) h (Q : res FsError A → S → Prop) s :
  wp m (λ r s', match r with Err e => wp (h e) Q s' | _ => Q r s' end) s → wp (on_error m h) Q s.
Proof. unfold wp, on_error. by destruct (m s) as [[] ?]. Qed.

Lemma length_extents es : Forall (λ e, 0 < block_count e) es → zlen es ≤ zlen (blocks_of es).
Proof.
  induction 1 as [|e es He _ IH]; [done|]. rewrite zlen_cons, zlen_blocks_of by lia. lia.
Qed.

(** The chain for the extents past the inline ones. *)
Definition chained (f : Z → block) (es : list Extent) (cb : list Z) : Prop :=
  if Z.of_nat DIRECT_EXTENTS <? zlen es then chain f (first_of cb) (drop DIRECT_EXTENTS es) cb else first_of cb = 0 ∧ cb = [].

Lemma chained_chain f es cb : chained f es cb → ∃ more, chain f (first_of cb) more cb.
Proof. unfold chained. destruct (_ <? _); [by eexists|]. intros [_ ->]. eexists. constructor. Qed.

Lemma chained_frame f g es cb : chained f es cb → (∀ b, b ∈ cb → g b = f b) → chained g es cb.
Proof. unfold chained. destruct (_ <? _); [apply chain_frame|done]. Qed.

Lemma put_chain_spec x es : good (mem x) → Forall (inside (mem x)) es →
  wp (if Z.of_nat DIRECT_EXTENTS <? zlen es then on_bitmap (write_indirect_extents (drop DIRECT_EXTENTS es)) else mret 0)
    (λ r x', ∃ cb st', x' = with_mem st' x ∧ ext cb (mem x) st' ∧ match r with
      | Ok ind => ind = first_of cb ∧ fits 64 ind ∧ chained (vw st') es cb
      | Err e => fault ok e st'
      | Panic => False
      end) x.
Proof.
  intros G Hin. unfold chained. destruct (Z.ltb_spec (Z.of_nat DIRECT_EXTENTS) (zlen es)) as [Hlt|Hge].
  - apply wp_on_bitmap. eapply wp_mono.
    { apply (write_indirect_spec blake3 blake3_len ok (drop DIRECT_EXTENTS es) (mem x) G).
      - intros E%(f_equal length). rewrite length_drop in E. unfold zlen in Hlt. simpl in E. lia.
      - apply Forall_drop. eapply Forall_impl; [exact Hin|]. intros e. by apply inside_wf. }
    intros r st' (cb & X & H). exists cb, st'. split; [done|]. split; [done|]. destruct r as [ind|e|]; [|done|done].
    destruct H as [Hne Hc]. assert (ind = first_of cb) as -> by (by inversion Hc; subst).
    split; [done|]. split; [|done]. destruct cb as [|b cb]; [by inversion Hc|]. eapply ext_fresh_pos; [exact X|]. apply elem_of_cons. by left.
  - apply wp_ret. exists [], (mem x). rewrite with_mem_mem. split; [done|]. split; [by apply ext_refl|]. done.
Qed.

(** Every block in use after an insertion: the new ones and the old. *)
Lemma footprint_insert L a e bl h' bs' al frees pending : l_blocks L !! a = None → swapped al frees (l_nodes L) bs' →
  footprint (Layout h' (<[a := e]> (l_index L)) bs' (<[a := bl]> (l_blocks L))) (pending ++ frees) ≡ₚ
  (al ++ bl) ++ footprint L pending.
Proof.
  intros Ha (keep & E1 & E2). unfold footprint. simpl. rewrite map_to_list_insert by done. simpl. rewrite E1, E2. solve_Permutation.
Qed.

(** The state a successful put leaves. *)
Definition grown (s s' : State) : Prop := ∃ root n free frees bm,
  s' = set_pending (fs_pending s ++ frees) (set_sb (with_free free (with_index root n (fs_sb s))) (set_bitmap bm s)).

Lemma stores_none k L x objs a : stores k L x objs → (objs !! a = None ↔ l_index L !! a = None) ∧ (objs !! a = None ↔ l_blocks L !! a = None).
Proof.
  intros S. pose proof (s_objects _ _ _ _ S a) as H. unfold kept_at in H.
  by destruct (l_index L !! a), (objs !! a), (l_blocks L !! a).
Qed.

Lemma stores_insert k L x x' objs h p e es cb al frees h' bs' : stores k L x objs → objs !! h = None →
  ext (cb ++ al) (mem x) (mem x') → tree (mem x') (btree_root (fs_sb x'.2)) h' (<[h := e]> (l_index L)) bs' →
  swapped al frees (l_nodes L) bs' → object k (mem x') h e p (blocks_of es ++ cb) →
  NoDup (blocks_of es) → Forall (owned (mem x)) (blocks_of es) → (∀ b, b ∈ blocks_of es → b ∉ footprint L (fs_pending x.2)) →
  fs_pending x'.2 = fs_pending x.2 ++ frees → data_start (fs_sb x'.2) = data_start (fs_sb x.2) →
  total_blocks (fs_sb x'.2) = total_blocks (fs_sb x.2) → sb_wf (fs_sb x'.2) →
  stores k (Layout h' (<[h := e]> (l_index L)) bs' (<[h := blocks_of es ++ cb]> (l_blocks L))) x' (<[h := p]> objs).
Proof.
  intros S Hnone X T Hsw Ho Hn How Hdis Ep Ed Et Hwf. pose proof S as [G [_ O N Ow] Hd Ht _].
  destruct (stores_none _ _ _ _ h S) as [[Hi _] [Hb _]]. specialize (Hi Hnone). specialize (Hb Hnone).
  pose proof (footprint_insert L h e (blocks_of es ++ cb) h' bs' al frees (fs_pending x.2) Hb Hsw) as Hfp.
  rewrite Forall_forall in Ow, How. pose proof (proj1 (Forall_forall _ _) (x_fresh _ _ _ _ _ X)) as Hfr.
  assert (∀ b, b ∈ cb ++ al → b ∉ blocks_of es ∧ b ∉ footprint L (fs_pending x.2)) as Hnew.
  { intros b Hin. destruct (Hfr b Hin) as [_ Hu]. split; intros Hin2; [destruct (How b Hin2)|destruct (Ow b Hin2)]; congruence. }
  pose proof (x_nodup _ _ _ _ _ X) as Hna.
  split; rewrite ?Ep, ?Ed, ?Et; simpl.
  - apply X.
  - split.
    + exact T.
    + intros a. unfold kept_at. simpl. destruct (decide (a = h)) as [->|Hne]; [by rewrite !lookup_insert_eq|].
      rewrite !lookup_insert_ne by done. specialize (O a). unfold kept_at in O.
      destruct (l_index L !! a) as [e0|], (objs !! a) as [p0|], (l_blocks L !! a) as [bl|] eqn:Ebl; try done.
      eapply (object_keeps _ _ _ bl); [by eapply spared_keeps, ext_spared| |exact O].
      intros b Hin. split; [done|]. by eapply Ow, footprint_blocks.
    + rewrite Hfp. rewrite <- !app_assoc. assert (al ++ blocks_of es ++ cb ++ footprint L (fs_pending x.2) ≡ₚ (cb ++ al) ++ blocks_of es ++ footprint L (fs_pending x.2)) as -> by solve_Permutation.
      apply NoDup_app. split; [done|]. split.
      * intros b Hin [?|?]%elem_of_app; by destruct (Hnew b Hin).
      * apply NoDup_app. by split_and!.
    + rewrite Hfp. apply Forall_forall. intros b. rewrite !elem_of_app.
      assert (∀ b, owned (mem x) b → owned (mem x') b) as Hk by (intros b' Hb'; by destruct (ext_owned blake3 ok _ _ _ b' G X Hb')).
      intros [[Hb'|[Hb'|Hb']]|Hb'].
      * eapply ext_new; [exact X|]. apply elem_of_app. by right.
      * by apply Hk, How.
      * eapply ext_new; [exact X|]. apply elem_of_app. by left.
      * by apply Hk, Ow.
  - rewrite Hd. symmetry. apply (e_data _ _ (x_geo _ _ _ _ _ X)).
  - rewrite Ht. symmetry. apply (e_total _ _ (x_geo _ _ _ _ _ X)).
  - done.
Qed.

Lemma tree_root_fits st root h mm bs : good st → tree st root h mm bs → fits 64 root.
Proof.
  intros G [(-> & _)|(m & R & _ & _ & Ho)]; [done|]. destruct (rep_root _ _ _ _ _ _ _ _ R) as [Hb _]. rewrite Forall_forall in Ho.
  by destruct (owned_pos blake3 ok st root G (Ho _ Hb)).
Qed.

Lemma free_count_fits st : good st → fits 64 (Bitmap.free_count st.2).
Proof.
  intros G. rewrite (i_count _ (gd_map _ _ _ G)). destruct (g_total _ (i_geo _ (gd_map _ _ _ G))).
  pose proof (nfree_range (Bitmap.data st.2) (Z.to_nat (Bitmap.total_blocks st.2)) 0). unfold fits. lia.
Qed.

Lemma area_length st l : good st → NoDup l → Forall (in_area st) l → zlen l ≤ Bitmap.total_blocks st.2.
Proof.
  intros G Hn Ha. pose proof (g_start _ (i_geo _ (gd_map _ _ _ G))) as Hs.
  assert (l ⊆+ seqZ 0 (Bitmap.total_blocks st.2)) as Hsub.
  { apply NoDup_submseteq; [done|]. intros b Hb. rewrite Forall_forall in Ha. destruct (Ha b Hb). apply elem_of_seqZ. lia. }
  apply submseteq_length in Hsub. unfold zlen. rewrite length_seqZ in Hsub. lia.
Qed.

(** Whether the put's own blocks hold the sealed payload. *)
Record sealed k x (h p : list byte) (es : list Extent) : Prop := {
  se_nodup : NoDup (blocks_of es);
  se_inside : Forall (inside (mem x)) es;
  se_owned : Forall (owned (mem x)) (blocks_of es);
  se_direct : Forall (direct x.1) (blocks_of es);
  se_takes : takes (zlen (blocks_of es)) (zlen (aead_encrypt_aes (keyed_hash (key_data k) h) (take 12 h) p));
  se_bytes : let enc := aead_encrypt_aes (keyed_hash (key_data k) h) (take 12 h) p in
    mjoin (vw (mem x) <$> blocks_of es) = enc ++ zeros (zlen (blocks_of es) * BLOCK_SIZE - zlen enc);
}.

Lemma encrypt_length key nonce p : zlen p < 2 ^ 36 → zlen (aead_encrypt_aes key nonce p) = zlen p + 16.
Proof.
  intros Hp. destruct (gcm_roundtrip key nonce p Hp) as (ct & tag & E & Hct & Htag & _). unfold aead_encrypt_aes. rewrite E. simpl.
  rewrite zlen_app. unfold zlen. lia.
Qed.

(** Sealed blocks and a chain on new ones, seen from a later state. *)
Lemma sealed_later k x st h p es cb al : good (mem x) → sealed k x h p es → zlen p < 2 ^ 36 → length h = 32%nat →
  ext al (mem x) st → chained (vw st) es cb → fits 64 (first_of cb) →
  object k st h (entry_for h (zlen p) (zlen (aead_encrypt_aes (keyed_hash (key_data k) h) (take 12 h) p)) es (first_of cb)) p
    (blocks_of es ++ cb).
Proof.
  intros G [Hn Hin How Hdi Ht Hby] Hp Hh X Hc Hf. pose proof (spared_keeps _ _ (blocks_of es) _ _ G (ext_spared _ _ _ _ _ X)) as K.
  assert (∀ b, b ∈ blocks_of es → vw st b = vw (mem x) b ∧ direct st.1 b) as Hb.
  { intros b Hb. rewrite Forall_forall in How, Hdi. destruct (kp_block _ _ _ _ _ K b Hb (How b Hb)) as (_ & ? & HD). split; [done|]. by apply HD, Hdi. }
  apply sealed_object; try done.
  - assert (Forall (λ e, 0 < block_count e) es) as Hpos by (eapply Forall_impl; [exact Hin|]; by intros e [? _]).
    apply length_extents in Hpos. destruct Ht as [Ht _]. rewrite encrypt_length in Ht by done. unfold BLOCK_SIZE in Ht. lia.
  - eapply Forall_impl; [exact Hin|]. intros e. apply inside_geo, X.
  - eapply Forall_impl; [exact Hin|]. intros e. by apply inside_wf.
  - apply Forall_forall. intros b ?. by apply Hb.
  - rewrite <- Hby. f_equal. apply list_fmap_ext. intros i b ?%list_elem_of_lookup_2. by apply Hb.
Qed.

Notation fresh st l := (Forall (λ b, in_area st b ∧ in_use st b = false) l).

(** Whatever touches only a put's own and new blocks keeps the store. *)
Lemma stores_touched k L x objs es fr st' : stores k L x objs → (∀ b, b ∈ blocks_of es → b ∉ footprint L (fs_pending x.2)) →
  touched (blocks_of es ++ fr) (mem x) st' → fresh (mem x) fr → stores k L (with_mem st' x) objs.
Proof.
  intros S Hdis T Hfr. apply (stores_keeps _ _ x); [done| |done|done]. rewrite mem_with.
  eapply touched_keeps; [apply S|exact T|]. intros b Hb [Hb'|Hb']%elem_of_app; [by apply (Hdis b)|].
  pose proof (proj1 (Forall_forall _ _) (s_owned _ _ _ _ S) b Hb) as [_ Hu].
  rewrite Forall_forall in Hfr. destruct (Hfr b Hb') as [_ ?]. congruence.
Qed.

Lemma ext_touched_more es fr st st' : ext fr st st' → touched (blocks_of es ++ fr) st st'.
Proof. intros X. eapply touched_mono; [by apply ext_touched|]. intros b Hb. apply elem_of_app. by right. Qed.

(** The allocated blocks do not hit those of an earlier allocation. *)
Lemma ext_chain_kept cb al st st1 st2 b : ext cb st st1 → ext al st1 st2 → b ∈ cb → vw st2 b = vw st1 b.
Proof.
  intros X1 X2 Hb. destruct (ext_new blake3 ok _ _ _ _ X1 Hb) as [_ Hu]. destruct (ext_fresh_pos _ _ _ _ _ _ X1 Hb).
  by destruct (ext_keeps _ _ _ _ _ b X2 Hu) as (_ & ? & _); [lia|].
Qed.

(** Giving a put's blocks back after the chain and the insertion. *)
Lemma rollback_put x es cb al st1 st2 : good (mem x) → NoDup (blocks_of es) → Forall (inside (mem x)) es →
  Forall (owned (mem x)) (blocks_of es) → Bitmap.total_blocks (fs_bitmap x.2) ≤ Z.of_nat fuel →
  ext cb (mem x) st1 → chained (vw st1) es cb → ext al st1 st2 →
  wp (rollback_alloc fuel es (first_of cb))
    (λ r x', ∃ st3, x' = with_mem st3 x ∧ r = Ok tt ∧ touched (blocks_of es ++ cb ++ al) (mem x) st3) (with_mem st2 x).
Proof.
  intros G Hn Hin How Hfuel X1 Hc X2. assert (ext (cb ++ al) (mem x) st2) as X12 by by eapply ext_trans.
  destruct (chained_chain _ _ _ Hc) as [more Hmore]. pose proof (proj1 (Forall_forall _ _) (x_fresh _ _ _ _ _ X1)) as Hf1.
  rewrite Forall_forall in How. eapply wp_mono.
  { eapply (rollback_spec _ es (first_of cb) more cb); rewrite ?mem_with.
    - apply X12.
    - eapply Forall_impl; [exact Hin|]. intros e. apply inside_geo, X12.
    - eapply chain_frame; [exact Hmore|]. intros b Hb. by eapply ext_chain_kept.
    - apply NoDup_app. split; [done|]. split; [|apply X1]. intros b Hb Hb2. destruct (How b Hb), (Hf1 b Hb2). congruence.
    - apply Forall_forall. intros b Hb. apply (ext_area _ _ _ _ _ _ X2). by destruct (ext_new blake3 ok _ _ _ _ X1 Hb).
    - assert (zlen cb ≤ Bitmap.total_blocks (fs_bitmap x.2)) as Hlc; [|unfold zlen in Hlc; lia].
      apply (area_length (mem x) cb G); [apply X1|]. eapply Forall_impl; [apply X1|]. by intros b [? _]. }
  intros r x3 (st3 & -> & -> & T3). rewrite mem_with in T3. exists st3. split; [done|]. split; [done|].
  eapply touched_trans; [by apply ext_touched_more|]. eapply touched_mono; [exact T3|]. intros b. rewrite !elem_of_app. tauto.
Qed.

(** How the last part of a put of [p] at [h] ends. *)
Definition put_post k L x objs (h p : list byte) (r : res FsError unit) x' : Prop :=
  match r with
  | Ok _ => match objs !! h with
      | None => ∃ L', (l_height L ≤ l_height L' ≤ S (l_height L))%nat ∧ stores k L' x' (<[h := p]> objs) ∧ grown x.2 x'.2
      | Some _ => stores k L x' objs ∧ x' = with_mem (mem x') x
      end
  | Err e => stores k L x' objs ∧ x' = with_mem (mem x') x ∧ (¬ ok ∨ e = DiskFull)
  | Panic => False
  end.

Lemma put_index_spec k L x objs h p es : stores k L x objs → (l_height L < MAX_TREE_DEPTH)%nat →
  Bitmap.total_blocks (fs_bitmap x.2) ≤ Z.of_nat fuel → length h = 32%nat → zlen p < 2 ^ 36 → sealed k x h p es →
  (∀ b, b ∈ blocks_of es → b ∉ footprint L (fs_pending x.2)) →
  wp (put_index blake3 fuel h (zlen p) (zlen (aead_encrypt_aes (keyed_hash (key_data k) h) (take 12 h) p)) es) (λ r x', ∃ fr,
    touched (blocks_of es ++ fr) (mem x) (mem x') ∧ fresh (mem x) fr ∧ put_post k L x objs h p r x') x.
Proof.
  intros S Hh Hfuel Hl Hp Se Hdis. pose proof (s_good _ _ _ _ S) as G. pose proof Se as [Hn Hin How _ _ _].
  assert (∀ fr st' Q, touched (blocks_of es ++ fr) (mem x) st' → fresh (mem x) fr → (stores k L (with_mem st' x) objs → Q (with_mem st' x)) →
    ∃ fr, touched (blocks_of es ++ fr) (mem x) (mem (with_mem st' x)) ∧ fresh (mem x) fr ∧ Q (with_mem st' x)) as Hend.
  { intros fr st' Q T Hfr HQ. exists fr. rewrite mem_with. split_and!; [done|done|]. by eapply HQ, stores_touched. }
  pose proof (zlen_nonneg p) as Hp0. pose proof (encrypt_length (keyed_hash (key_data k) h) (take 12 h) p Hp) as Hz.
  unfold put_index. apply wp_bind. eapply wp_mono; [by apply put_chain_spec|]. intros r x1 (cb & st1 & -> & X1 & H1).
  destruct r as [ind|e|]; [|eapply (Hend _ _ (put_post k L x objs h p (Err e))); [by apply ext_touched_more|apply X1|];
    intros S'; split_and!; [done|by rewrite mem_with|destruct H1 as [?|[? _]]; auto]|done].
  destruct H1 as (-> & Hf & Hc). apply wp_bind, wp_stx_gets. cbv zeta. set (ent := entry_for _ _ _ _ _).
  assert (entry_wf ent) as Hwf.
  { apply entry_for_wf; [done|unfold fits; lia..| |done]. eapply Forall_impl; [exact Hin|]. intros e. by apply inside_wf. }
  apply wp_bind, wp_on_error, wp_on_bitmap. rewrite mem_with. simpl fs_sb.
  eapply wp_mono; [apply (tree_insert blake3 blake3_len ok st1 _ _ _ _ ent (x_good _ _ _ _ _ X1)
    (tree_keeps _ _ _ _ _ _ _ _ _ G X1 (s_tree _ _ _ _ S)) Hh Hwf)|].
  intros r st2 (al & X2 & H2). assert (ext (cb ++ al) (mem x) st2) as X12 by by eapply ext_trans.
  pose proof (rollback_put x es cb al st1 st2 G Hn Hin How Hfuel X1 Hc X2) as Hback.
  change (st2.1, set_bitmap st2.2 (with_mem st1 x).2) with (with_mem st2 x).
  destruct r as [[[root' frees] [|]]|e|]; [| | |done].
  - destruct H2 as (Hnone & h' & bs' & Hhh & T' & Hsw). apply wp_stx_modify. exists (cb ++ al).
    destruct st2 as [c2 m2]. split; [by apply ext_touched_more|]. split; [apply X12|].
    destruct (stores_none _ _ _ _ h S) as [[_ Hobj] _]. unfold put_post. rewrite Hobj by done.
    eexists (Layout h' _ bs' (<[h := blocks_of es ++ cb]> (l_blocks L))). split; [done|]. split; [|by eexists _, _, _, _, _].
    eapply stores_insert; [done|by apply Hobj|exact X12|exact T'|exact Hsw| |done..|].
    2:{ apply with_free_wf; [apply with_index_wf; [apply S|by eapply tree_root_fits; [apply X12|]|by apply wrap_fits]|apply (free_count_fits (c2, m2)), X12]. }
    eapply sealed_later; [done..|exact X12| |done]. eapply chained_frame; [exact Hc|]. intros b Hb. by eapply ext_chain_kept.
  - destruct H2 as (Hsome & -> & -> & ->). simpl negb. cbn iota. eapply wp_mono; [exact Hback|].
    intros r x3 (st3 & -> & -> & T3). eapply (Hend _ _ (put_post k L x objs h p (Ok tt))); [exact T3|apply X12|]. intros S'.
    unfold put_post. destruct (objs !! h) eqn:E; [split; [done|by rewrite mem_with]|].
    destruct (stores_none _ _ _ _ h S) as [[Hobj _] _]. change (hash ent) with h in Hsome. rewrite Hobj in Hsome by done. by destruct Hsome.
  - apply wp_bind. eapply wp_mono; [exact Hback|]. intros r x3 (st3 & -> & -> & T3). apply wp_fail.
    eapply (Hend _ _ (put_post k L x objs h p (Err e))); [exact T3|apply X12|]. intros S'.
    split_and!; [done|by rewrite mem_with|]. destruct H2 as [?|[? _]]; auto.
Qed.

(** ** Put *)
Definition world x (keys : option DiskKeys) (n : Z) : World := mkWorld x.1 (Some x.2) keys n.

Lemma wp_locked {A} (m : M Sx FsError A) (Q : res FsError A → World → Prop) x keys n :
  wp m (λ r x', Q r (world x' keys n)) x → wp (locked m) Q (world x keys n).
Proof. destruct x as [c s]. unfold wp, locked. simpl. by destruct (m (c, s)) as [r [c' s']]. Qed.

Lemma wp_unlocked {A} (m : M C BlkError A) (Q : res FsError A → World → Prop) x keys n :
  wp m (λ r c', Q (match r with Ok a => Ok a | Err e => Err (Disk e) | Panic => Panic end) (world (c', x.2) keys n)) x.1 →
  wp (unlocked m) Q (world x keys n).
Proof. unfold wp, unlocked, from_blk. simpl. by destruct (m x.1) as [[] c']. Qed.

Lemma wp_with_keys {A} (f : option DiskKeys → option A) a (Q : res FsError A → World → Prop) x keys n :
  f keys = Some a → Q (Ok a) (world x keys n) → wp (with_keys f) Q (world x keys n).
Proof. unfold wp, with_keys. simpl. by intros ->. Qed.

(** Writing the sealed bytes into the put's blocks. *)
Lemma put_write_spec k x x1 h p es : good (mem x) → x1 = with_mem (mem x1) x → zlen p < 2 ^ 36 →
  ext (blocks_of es) (mem x) (mem x1) → Forall (inside (mem x1)) es →
  (∀ b, b ∈ blocks_of es → uncached x1.1 b) →
  let enc := aead_encrypt_aes (keyed_hash (key_data k) h) (take 12 h) p in
  zlen (blocks_of es) = blocks_needed (zlen enc) →
  wp (write_data es enc 0) (λ r c', ext (blocks_of es) (mem x) (c', fs_bitmap x1.2) ∧
    served ok r (λ _, sealed k (c', x1.2) h p es)) x1.1.
Proof.
  intros G E1 Hp X Hin Hu enc Hz. pose proof (x_good _ _ _ _ _ X) as G1.
  assert (zlen enc = zlen p + 16) as Hl by by apply encrypt_length. pose proof (zlen_nonneg p) as Hp0.
  destruct (takes_needed (zlen enc)) as [Ht Hb]; [lia|]. rewrite <- Hz in Ht, Hb.
  eapply wp_mono; [apply (write_data_spec blake3 es enc 0 x1.1); try done|].
  - apply G1.
  - intros ->. change (zlen (blocks_of [])) with 0 in Hb. lia.
  - eapply Forall_impl; [exact Hin|]. intros e. by apply inside_range.
  - apply X.
  - by rewrite Z.sub_0_r.
  - intros r c' [W R]. assert (ext (blocks_of es) (mem x) (c', fs_bitmap x1.2)) as X'.
    { eapply ext_fill; [exact X|done|apply (good_store blake3 ok (mem x1)); [done|apply W|apply W]|].
      intros b Hb'. split; [by apply W|apply W]. }
    split; [done|]. destruct r as [[]|e|]; cbn [served] in *; [|by intros Hok; apply R, (gd_ok _ _ _ G1)|done].
    split; try done.
    + apply X.
    + apply Forall_forall. intros b Hb'. by eapply ext_new.
    + apply Forall_forall. intros b Hb'. apply uncached_direct; [apply W|]. by apply W, Hu.
    + cbv zeta. fold enc. rewrite Z.sub_0_r, drop_0 in R. exact R.
Qed.

Lemma stores_spared k L x st' objs : stores k L x objs → spared (mem x) st' → stores k L (with_mem st' x) objs.
Proof.
  intros S Sp. apply (stores_keeps _ _ x); [done| |done|done]. rewrite mem_with. apply spared_keeps; [apply S|done].
Qed.

Lemma lookup_spec k L x objs a : stores k L x objs → (l_height L < MAX_TREE_DEPTH)%nat →
  wp (lookup_entry blake3 a) (λ r x', ∃ st', x' = with_mem st' x ∧ spared (mem x) st' ∧
    match r with Ok o => o = l_index L !! a | Err _ => ¬ ok | Panic => False end) x.
Proof.
  intros S Hh. unfold lookup_entry. apply wp_bind, wp_stx_gets, wp_stx_store.
  eapply wp_mono; [apply (tree_lookup blake3 ok (mem x) _ _ _ _ a (s_good _ _ _ _ S) (s_tree _ _ _ _ S) Hh)|].
  intros r c' [U R]. exists (c', fs_bitmap x.2). split; [by destruct x as [c []]|].
  split; [apply (unchanged_spared x.1); [apply S|done]|]. destruct r as [o|e|]; [done| |done].
  intros Hok. by apply R, (gd_ok _ _ _ (s_good _ _ _ _ S)).
Qed.

(** An insertion into the map when the address is free. *)
Definition put_result k L x objs (h p : list byte) (verify : bool) (r : res FsError unit) x' : Prop :=
  match r with
  | Ok _ => match objs !! h with
      | None => (verify = true → keyed_hash (key_address k) p = h) ∧
          ∃ L', (l_height L ≤ l_height L' ≤ S (l_height L))%nat ∧ stores k L' x' (<[h := p]> objs) ∧ grown x.2 x'.2
      | Some _ => stores k L x' objs ∧ x' = with_mem (mem x') x
      end
  | Err e => stores k L x' objs ∧ x' = with_mem (mem x') x ∧
      (¬ ok ∨ e = DiskFull ∨ e = InvalidName ∧ verify = true ∧ keyed_hash (key_address k) p ≠ h)
  | Panic => False
  end.

Lemma put_rest_spec k L x objs h p n : stores k L x objs → (l_height L < MAX_TREE_DEPTH)%nat →
  Bitmap.total_blocks (fs_bitmap x.2) ≤ Z.of_nat fuel → length h = 32%nat → zlen p < 2 ^ 36 →
  let enc := aead_encrypt_aes (keyed_hash (key_data k) h) (take 12 h) p in
  wp (extents ← locked (put_alloc (zlen enc));
      _ ← on_error (unlocked (write_data extents enc 0)) (λ e, locked (_ ← rollback_alloc fuel extents 0; fail e));
      locked (put_index blake3 fuel h (zlen p) (zlen enc) extents))
    (λ r w', ∃ x', w' = world x' (Some k) n ∧ spared (mem x) (mem x') ∧ put_post k L x objs h p r x') (world x (Some k) n).
Proof.
  intros S Hh Hfuel Hl Hp enc. pose proof (s_good _ _ _ _ S) as G. pose proof (zlen_nonneg p) as Hp0.
  assert (zlen enc = zlen p + 16) as Hz by by apply encrypt_length.
  apply wp_bind, wp_locked. eapply wp_mono; [apply (put_alloc_spec x (zlen enc) G); lia|].
  intros [es|e|] x1 (st1 & -> & H1); [|exists (with_mem st1 x); rewrite mem_with; destruct H1 as (-> & Sp & _)|done].
  2:{ split; [done|]. split; [done|]. split_and!; [by apply stores_spared|by rewrite mem_with|by right]. }
  destruct H1 as (X1 & Hin1 & Hz1 & Hu1). rewrite <- (mem_with st1 x) in X1, Hin1.
  apply wp_bind, wp_on_error, wp_unlocked. eapply wp_mono.
  { apply (put_write_spec k x (with_mem st1 x) h p es G); rewrite ?mem_with in *; done. }
  simpl. intros r c2 [X2 R2]. set (x2 := (c2, set_bitmap st1.2 x.2)).
  assert (stores k L x2 objs) as S2.
  { change x2 with (with_mem (c2, st1.2) x). apply stores_spared; [done|]. by eapply ext_spared. }
  pose proof (proj1 (Forall_forall _ _) (x_fresh _ _ _ _ _ X2)) as Hfr.
  assert (∀ b, b ∈ blocks_of es → b ∉ footprint L (fs_pending x.2)) as Hdis.
  { intros b Hb Hb2. destruct (Hfr b Hb) as [_ ?]. destruct (proj1 (Forall_forall _ _) (s_owned _ _ _ _ S) b Hb2). congruence. }
  assert (Bitmap.total_blocks st1.2 = Bitmap.total_blocks (fs_bitmap x.2)) as Et by (apply (e_total _ _ (x_geo _ _ _ _ _ X2))).
  assert (Forall (inside (mem x2)) es) as Hin2 by (rewrite mem_with in Hin1; exact Hin1).
  destruct r as [[]|e|]; cbn [served] in R2; [| |done].
  - apply wp_locked. eapply wp_mono; [apply (put_index_spec k L x2 objs h p es S2); try done; simpl; lia|].
    intros r x3 (fr & T3 & Hf3 & P3). exists x3. split; [done|]. split; [by eapply ext_touched_spared|].
    destruct r as [[]|e|]; [exact P3|exact P3|done].
  - apply wp_locked, wp_bind. eapply wp_mono; [apply (rollback_spec x2 es 0 [] []); [apply X2|done|constructor| |done|simpl; lia]|].
    { rewrite app_nil_r. apply X2. }
    rewrite app_nil_r. intros r x3 (st3 & -> & -> & T3). apply wp_fail. exists (with_mem st3 x). split; [done|].
    rewrite mem_with. assert (spared (mem x) st3) as Sp by by eapply ext_back.
    split; [done|]. split_and!; [by apply stores_spared|by rewrite ?mem_with|by left].
Qed.

Lemma put_inner_spec k L x objs h p verify n : stores k L x objs → (l_height L < MAX_TREE_DEPTH)%nat →
  Bitmap.total_blocks (fs_bitmap x.2) ≤ Z.of_nat fuel → length h = 32%nat → zlen p < 2 ^ 36 →
  wp (put_inner blake3 fuel h p verify) (λ r w', ∃ x', w' = world x' (Some k) n ∧ spared (mem x) (mem x') ∧
    put_result k L x objs h p verify r x') (world x (Some k) n).
Proof.
  intros S Hh Hfuel Hl Hp. unfold put_inner. apply wp_bind, wp_locked. eapply wp_mono; [by apply (lookup_spec k L x objs h)|].
  intros r x1 (st1 & -> & Sp1 & R1). pose proof (stores_spared _ _ _ _ _ S Sp1) as S1.
  destruct r as [o|e|]; [|exists (with_mem st1 x); rewrite mem_with; split; [done|]; split; [done|];
    split_and!; [done|by rewrite ?mem_with|by left]|done].
  subst o. destruct (stores_none _ _ _ _ h S) as [[Hn1 Hn2] _]. case_bool_decide as Hs.
  { apply wp_ret. exists (with_mem st1 x). rewrite mem_with. split; [done|]. split; [done|]. unfold put_result.
    destruct (objs !! h); [split; [done|by rewrite ?mem_with]|]. rewrite Hn1 in Hs by done. by destruct Hs. }
  assert (objs !! h = None) as Hnone by (apply Hn2; by apply eq_None_not_Some).
  apply wp_bind. eapply (wp_mono _ (λ r w', w' = world (with_mem st1 x) (Some k) n ∧ match r with
    | Ok _ => verify = true → keyed_hash (key_address k) p = h
    | Err e => e = InvalidName ∧ verify = true ∧ keyed_hash (key_address k) p ≠ h | Panic => False end)).
  { destruct verify; [|by apply wp_ret]. apply wp_bind. eapply wp_with_keys; [done|]. by case_bool_decide; [apply wp_ret|apply wp_fail]. }
  intros [[]|e|] w2 [-> H2]; [|exists (with_mem st1 x); rewrite mem_with; split; [done|]; split; [done|];
    split_and!; [done|by rewrite ?mem_with|by auto]|done].
  apply wp_bind. eapply wp_with_keys; [done|]. cbv zeta. eapply wp_mono.
  { apply (put_rest_spec k L (with_mem st1 x) objs h p n S1 Hh); [|done|done]. simpl. by rewrite (e_total _ _ (sp_geo _ _ _ _ Sp1)). }
  intros r w' (x' & -> & Sp' & P). rewrite mem_with in Sp'. exists x'. split; [done|]. split; [by eapply spared_trans|].
  destruct r as [[]|e|]; unfold put_post, put_result in *; [|destruct P as (? & ? & ?); split_and!; [done|done|tauto]|done].
  rewrite Hnone in *. split; [done|]. destruct P as (L' & ? & ? & (root & m & free & frees & bm & E)).
  exists L'. split; [done|]. split; [done|]. exists root, m, free, frees, bm. by rewrite E.
Qed.

(** ** Get *)
Lemma sum_extents_spec es ds disk acc : 0 ≤ acc → disk < 2 ^ 64 → acc + zlen (blocks_of es) < 2 ^ 64 →
  Forall (λ e, 0 < block_count e ∧ ds ≤ start_block e ∧ start_block e + block_count e ≤ disk) es →
  sum_extents (pairs es) ds disk acc = Some (acc + zlen (blocks_of es)).
Proof.
  intros H0 Hd. revert acc H0. induction es as [|e es IH]; intros acc H0 Hs Hf; [cbn; f_equal; rewrite zlen_nil; lia|].
  apply Forall_cons in Hf as [(H1 & H2 & H3) Hf]. rewrite zlen_blocks_of in Hs |- * by lia. pose proof (zlen_nonneg (blocks_of es)).
  simpl. rewrite (proj2 (Z.leb_gt _ _)), (proj2 (Z.eqb_neq _ _)), (proj2 (Z.ltb_ge _ _)), (proj2 (Z.ltb_ge _ _)), (proj2 (Z.leb_gt _ _)) by lia.
  simpl. rewrite IH by (done || lia). f_equal. lia.
Qed.

(** The extents of a stored object pass the checks. *)
Lemma checked_extents k L x objs a es cb bl : stores k L x objs → l_blocks L !! a = Some bl → bl = blocks_of es ++ cb →
  Forall (inside (mem x)) es →
  checked_extent_blocks (pairs es) (data_start (fs_sb x.2)) (total_blocks (fs_sb x.2)) = Some (zlen (blocks_of es)) ∧
  NoDup (blocks_of es) ∧ NoDup cb ∧ zlen cb ≤ Bitmap.total_blocks (fs_bitmap x.2).
Proof.
  intros S Ha -> Hin. pose proof (s_good _ _ _ _ S) as G. destruct (g_total _ (i_geo _ (gd_map _ _ _ G))) as [Ht0 Ht].
  pose proof (s_nodup _ _ _ _ S) as Hn. pose proof (s_owned _ _ _ _ S) as Ho. unfold footprint in Hn, Ho.
  rewrite <- (insert_delete_id _ _ _ Ha), map_to_list_insert in Hn, Ho by apply lookup_delete_eq. simpl in Hn, Ho.
  rewrite (assoc_L (++)) in Hn, Ho. apply NoDup_app in Hn as (_ & _ & (Hn & _ & _)%NoDup_app).
  apply Forall_app in Ho as [_ (Ho & _)%Forall_app].
  assert (Forall (in_area (mem x)) (blocks_of es ++ cb)) as Har by (eapply Forall_impl; [exact Ho|]; by intros b [? _]).
  pose proof Hn as (Hn1 & _ & Hn2)%NoDup_app. apply Forall_app in Har as [Har1 Har2].
  pose proof (area_length _ _ G Hn1 Har1) as Hl1. pose proof (area_length _ _ G Hn2 Har2) as Hl2. simpl in Hl1, Hl2, Ht.
  split; [|done]. unfold checked_extent_blocks. rewrite (s_data _ _ _ _ S), (s_total _ _ _ _ S).
  rewrite sum_extents_spec; [|lia|simpl in *; lia|simpl in *; lia|].
  - cbn [mbind option_bind]. by rewrite (proj2 (Z.leb_le _ _)) by lia.
  - eapply Forall_impl; [exact Hin|]. by intros e0 (? & ? & ?).
Qed.

Lemma get_locked_spec k L x objs a : stores k L x objs → (l_height L < MAX_TREE_DEPTH)%nat →
  Bitmap.total_blocks (fs_bitmap x.2) ≤ Z.of_nat fuel →
  wp (get_locked blake3 fuel a) (λ r x', ∃ st', x' = with_mem st' x ∧ spared (mem x) st' ∧ match r with
    | Ok None => objs !! a = None
    | Ok (Some (e, l, n)) => ∃ p es cb, objs !! a = Some p ∧ l_blocks L !! a = Some (blocks_of es ++ cb) ∧
        object_at blake3 k (mem x) a e p es cb ∧ l = pairs es ∧ n = zlen (blocks_of es)
    | Err _ => ¬ ok
    | Panic => False
    end) x.
Proof.
  intros S Hh Hfuel. unfold get_locked. apply wp_bind, wp_stx_gets. pose proof (lookup_spec k L x objs a S Hh) as Hlk.
  unfold lookup_entry in Hlk. apply wp_bind. eapply wp_mono; [exact Hlk|]. clear Hlk.
  intros r x1 (st1 & -> & Sp1 & R1). destruct r as [o|e|]; [|by exists st1|done]. subst o.
  pose proof (s_objects _ _ _ _ S a) as Ho. unfold kept_at in Ho.
  destruct (l_index L !! a) as [e|], (objs !! a) as [p|], (l_blocks L !! a) as [bl|] eqn:Ebl; try done; [|apply wp_ret; by exists st1].
  destruct Ho as (es & cb & -> & Ho). pose proof Ho as [Hd Hw _ Hin _ _ _ _ _ _].
  destruct (checked_extents _ _ _ _ _ _ _ _ S Ebl eq_refl Hin) as (Hck & _ & Hnc & Hlc).
  assert (describes (vw st1) e es cb) as Hd1.
  { eapply describes_frame; [exact Hd|]. intros b Hb. pose proof (s_good _ _ _ _ S) as G.
    destruct (spared_owned _ _ _ _ b G Sp1) as (_ & ? & _); [|done].
    apply (proj1 (Forall_forall _ _) (s_owned _ _ _ _ S)). eapply footprint_blocks; [exact Ebl|]. apply elem_of_app. by right. }
  apply wp_bind, wp_stx_store. eapply wp_mono; [apply (extents_of_spec blake3 fuel e es cb); [apply Sp1|done|exact Hd1|done|]|].
  { unfold zlen in Hlc. lia. }
  intros r c2 [U2 R2]. assert (spared (mem x) (c2, st1.2)) as Sp2.
  { eapply spared_trans; [exact Sp1|]. destruct st1 as [c1 m1]. apply unchanged_spared; [apply Sp1|exact U2]. }
  destruct r as [l|er|]; [subst l|exists (c2, st1.2); split; [done|]; split; [done|]; intros Hok; by apply R2, (gd_ok _ _ _ (sp_good _ _ _ _ Sp1))|done].
  fold (pairs es). apply wp_bind. simpl. rewrite Hck. apply wp_ret. exists (c2, st1.2). split; [done|]. split; [done|]. by exists p, es, cb.
Qed.

Lemma get_object_spec reserve k L x objs a n : stores k L x objs → (l_height L < MAX_TREE_DEPTH)%nat →
  Bitmap.total_blocks (fs_bitmap x.2) ≤ Z.of_nat fuel →
  wp (get_object blake3 fuel reserve a) (λ r w', ∃ st', w' = world (with_mem st' x) (Some k) n ∧ spared (mem x) st' ∧ match r with
    | Ok o => o = objs !! a
    | Err e => ¬ ok ∨ e = Corrupt ∧ ∃ m, reserve m = false
    | Panic => False
    end) (world x (Some k) n).
Proof.
  intros S Hh Hfuel. pose proof (s_good _ _ _ _ S) as G. unfold get_object. apply wp_bind, wp_locked. eapply wp_mono; [by apply (get_locked_spec k L x objs a)|].
  intros r x1 (st1 & -> & Sp1 & R1). destruct r as [[[[e l] m]|]|er|]; [| |exists st1; by auto|done].
  2:{ apply wp_ret. exists st1. by auto. }
  destruct R1 as (p & es & cb & Hp & Ebl & Ho & -> & ->). pose proof (o_inside _ _ _ _ _ _ _ _ Ho) as Hin0.
  apply (object_at_keeps _ _ _ _ _ _ _ _ _ _ _ (spared_keeps _ _ (blocks_of es ++ cb) _ _ G Sp1)) in Ho.
  2:{ intros b Hb. split; [done|]. by eapply (proj1 (Forall_forall _ _) (s_owned _ _ _ _ S)), footprint_blocks. }
  destruct Ho as [Hd Hw Hh1 Hin Hdi Hps Hds Hm Ht Hdec]. pose proof (zlen_nonneg p). destruct Ht as [Ht1 Ht2]. unfold BLOCK_SIZE in Ht1, Ht2 |- *.
  rewrite (proj2 (Z.leb_gt _ _)), (proj2 (Z.ltb_ge _ _)), (proj2 (Z.ltb_ge (disk_size e) _)) by lia. simpl orb.
  destruct (reserve _) eqn:Er; simpl negb; cbn iota; [|apply wp_fail; exists st1; by eauto 10].
  apply wp_bind, wp_unlocked. eapply wp_mono; [apply (read_multi_extent_spec st1.1 (pairs es))|].
  { apply Sp1. }
  { unfold pairs. apply Forall_fmap. eapply Forall_impl; [exact Hin|]. intros e0 [? _]. simpl. lia. }
  { intros b Hb. rewrite Forall_forall in Hdi. by apply Hdi. }
  intros r c2 (I2 & V2 & H2 & D2 & R2). assert (spared (mem x) (c2, st1.2)) as Sp2.
  { eapply spared_trans; [exact Sp1|]. destruct st1 as [c1 m1]. apply unchanged_spared; [apply Sp1|by split_and!]. }
  destruct r as [bs|er|]; cbn [served] in R2; [|exists (c2, st1.2); split; [done|]; split; [done|]; left; intros Hok;
    by apply R2, (gd_ok _ _ _ (sp_good _ _ _ _ Sp1))|done].
  subst bs. rewrite (proj2 (Z.ltb_lt _ _)) by lia. simpl negb. cbn iota. apply wp_bind. eapply wp_with_keys; [done|].
  apply wp_bind. fold (blocks_of es). change (view st1.1) with (vw st1). rewrite Hdec. apply wp_ret, wp_ret.
  exists (c2, st1.2). split; [done|]. by split.
Qed.
End spec.
