(* ===== verification/StorageCommit.v ===== *)
(** * Commits, crashes and mounts

    [durable k c sb L objs]: what the device of [c] holds is a store of its own, with
    the superblock [sb] in force: a mount finds the objects [objs].  [mounted] ties
    the state in memory to it: the objects in memory are [objs], those on the device
    [objsd].  Puts and gets keep the device's; a commit makes them the same; a crash
    and a mount make memory what the device holds. *)

From S2P Require Import Prelude Bytes Format BlockStore BlockDev DirectIo Bitmap BitmapSpec BtreeNode Btree BtreeNodeSpec BtreeIo BtreeRep BtreeSpec BtreeMap Journal Superblock Chain Aead Storage StorageFrame StorageObject StorageSpec.

(** ** Programs that only read *)
Section reading.
Context {C : Type} `{!BlockStore C} {check : block → bool} `{!BlockStoreOk C check}.
Notation store_inv := (store_inv (check := check)).
Notation direct := (direct (check := check)).

Definition reader {A} (m : M C FsError A) : Prop := ∀ c, store_inv c →
  wp m (λ _ c', store_inv c' ∧ ∀ b, direct c b → direct c' b) c.

Lemma reader_ret {A} (a : A) : reader (mret a).
Proof. intros c I. by apply wp_ret. Qed.
Lemma reader_fail {A} e : reader (A := A) (fail e).
Proof. intros c I. by apply wp_fail. Qed.
Lemma reader_of_opt {A} (o : option A) : reader (of_opt o).
Proof. by destruct o; intros c I. Qed.
Lemma reader_read b : reader (read b).
Proof. intros c I. eapply wp_mono; [apply wp_and; [by apply read_spec|by apply direct_read]|]. intros r c' [(? & _) ?]. done. Qed.
Lemma reader_bind {A B} (m : M C FsError A) (f : A → M C FsError B) : reader m → (∀ a, reader (f a)) → reader (m ≫= f).
Proof.
  intros Hm Hf c I. apply wp_bind. eapply wp_mono; [by apply Hm|]. intros [a|e|] c1 [I1 D1]; [|done|done].
  eapply wp_mono; [by apply Hf|]. intros r c2 [I2 D2]. auto.
Qed.
Lemma reader_attempt {A} (m : M C FsError A) : reader m → reader (attempt m).
Proof. intros Hm c I. apply wp_attempt. eapply wp_mono; [by apply Hm|]. by intros [] c' ?. Qed.

Ltac reader := repeat (case_match || apply reader_bind || apply reader_ret || apply reader_fail || apply reader_of_opt
  || apply reader_attempt || apply reader_read || match goal with |- ∀ _, _ => intros ? end); auto.

Lemma reader_best blake3 : reader (read_best blake3).
Proof.
  assert (∀ n s best g, reader (best_loop blake3 n s best g)) as H; [|apply H].
  induction n as [|n IH]; intros s best g; cbn [best_loop]; reader.
Qed.
Lemma reader_replay head expected : reader (replay head expected).
Proof.
  assert (∀ n i frees, reader (replay_loop n i head expected frees)) as H; [|apply H].
  induction n as [|n IH]; intros i frees; cbn [replay_loop]; reader.
Qed.
Lemma reader_load reserve total start count dstart : reader (Bitmap.load_args reserve total start count dstart).
Proof.
  unfold Bitmap.load_args. assert (∀ n i d, reader (Bitmap.load_loop start n i d)) as Hl.
  { induction n as [|n IH]; intros i d; cbn [Bitmap.load_loop]; reader. }
  reader.
Qed.
End reading.

Section commit.
Context (blake3 : list byte → list byte).
Hypothesis blake3_len : ∀ bs, length (blake3 bs) = 32%nat.
Context {HCr : Crates} {HCrOk : CratesOk}.
Context {C : Type} `{!BlockStore C} `{!BlockStoreOk C (verify_node_checksum blake3)}.
Context `{!BlockFua C} `{!BlockFuaOk C (verify_node_checksum blake3)}.
Context `{!DirectIo C} `{!DirectIoOk C (verify_node_checksum blake3)}.
Notation sum_ok := (verify_node_checksum blake3).
Notation view := (view (check := sum_ok)).
Notation store_inv := (store_inv (check := sum_ok)).
Notation healthy := (healthy (check := sum_ok)).
Notation direct := (direct (check := sum_ok)).
Notation journal_inv := (journal_inv (check := sum_ok)).
Notation Sx := (C * State)%type.
Notation holds := (holds blake3).
Notation mem := mem.
Implicit Types (c : C) (objs : gmap (list byte) (list byte)).

(** ** What the device holds *)

(** The bitmap on the device. *)
Record image c sb (bm : Bitmap.t) : Prop := {
  im_inv : inv bm;
  im_total : Bitmap.total_blocks bm = total_blocks sb;
  im_data : Bitmap.data_start bm = data_start sb;
  im_start : Bitmap.bitmap_start bm = bitmap_start sb;
  im_count : Bitmap.bitmap_count bm = bitmap_count sb;
  im_meta : META_END ≤ bitmap_start sb;
  im_stored i : 0 ≤ i < bitmap_count sb → stored (Bitmap.data bm) i (view c (bitmap_start sb + i));
}.

(** What a mount takes from the journal. *)
Lemma scan_nonzero f n i head expected : Forall (λ x, 0 < x.1 ∧ 0 < x.2) (scan f n i head expected).
Proof.
  revert i. induction n as [|n IH]; intros i; cbn [scan]; [done|]. destruct (negb _); [done|]. destruct (negb _); [done|].
  destruct (_ <? _); [done|]. apply Forall_app. split; [|done]. apply Forall_forall. intros x Hx. unfold jranges in Hx.
  apply list_elem_of_In, List.filter_In in Hx as [_ Hx]. unfold nonzero in Hx. apply andb_true_iff in Hx as [?%Z.ltb_lt ?%Z.ltb_lt]. done.
Qed.

Definition replays c sb : list (Z * Z) := scan (view c) (Z.to_nat JOURNAL_BLOCKS) 0 (journal_head sb) (journal_seq sb).

#[local] Opaque scan.
Lemma replays_frame c c' sb : 0 ≤ journal_head sb < JOURNAL_BLOCKS → (∀ b, in_ring b → view c' b = view c b) →
  replays c' sb = replays c sb.
Proof.
  intros Hh Hf. unfold replays. apply scan_frame; [exact Hh|apply Z.le_refl| |exact Hf].
  rewrite Z2Nat.id; [apply Z.le_refl|unfold JOURNAL_BLOCKS; lia].
Qed.

Lemma replays_same c c' head seq sb : same (view c) (view c') → head = journal_head sb → seq = journal_seq sb →
  scan (view c) (Z.to_nat JOURNAL_BLOCKS) 0 head seq = replays c' sb.
Proof. intros V -> ->. symmetry. by apply scan_ext. Qed.
Lemma replays_nonzero c sb : Forall (λ x, 0 < x.1 ∧ 0 < x.2) (replays c sb).
Proof. apply scan_nonzero. Qed.
#[local] Opaque replays.

Record durable k c sb L objs : Prop := {
  du_store : store_inv c;
  du_ring : ring blake3 (view c) sb;
  du_wf : sb_wf sb;
  du_journal : journal_inv c (Journal.new (journal_head sb) (journal_seq sb));
  du_image : ∃ bm, image c sb bm ∧ holds k L (c, bm) (btree_root sb) [] objs;
  du_free b : b ∈ footprint L [] → ¬ covers (replays c sb) b;
  du_meta b : 0 ≤ b < data_start sb → direct c b;
  du_direct b : b ∈ footprint L [] → direct c b;
}.

Lemma image_area c sb bm : image c sb bm → META_END ≤ bitmap_start sb ∧ 0 ≤ bitmap_count sb ∧
  bitmap_start sb + bitmap_count sb ≤ data_start sb ≤ total_blocks sb.
Proof.
  intros []. pose proof (i_geo _ im_inv0) as G. pose proof (g_area _ G) as Ha. pose proof (g_start _ G) as Hs. pose proof (g_dirty _ G) as Hd.
  pose proof (zlen_nonneg (Bitmap.dirty_blocks bm)). rewrite im_start0, im_count0, im_data0 in Ha. rewrite im_data0, im_total0 in Hs.
  rewrite im_count0 in Hd. lia.
Qed.

(** The device's store depends on the metadata blocks and its own. *)
Lemma durable_frame k c c' sb L objs : durable k c sb L objs → store_inv c' →
  (∀ b, 0 ≤ b < data_start sb ∨ b ∈ footprint L [] → view c' b = view c b ∧ (direct c b → direct c' b)) →
  durable k c' sb L objs.
Proof.
  intros [I R W J (bm & Im & H) F M D] I' Hf. pose proof (image_area _ _ _ Im) as Ha.
  assert (META_END = 265) as HM by done. assert (SUPERBLOCK_SLOTS = 8 ∧ SUPERBLOCK_START = 1 ∧ JOURNAL_START = 9) as (HS1 & HS2 & HS3) by done.
  assert (∀ b, in_ring b → view c' b = view c b) as Hr by (intros b Hb; apply Hf; left; unfold in_ring in Hb; lia).
  split.
  - done.
  - eapply ring_frame; [exact R|]. intros s Hs. apply Hf. left. unfold is_slot in Hs. lia.
  - done.
  - by eapply journal_inv_frame.
  - exists bm. split.
    + destruct Im. split; try done. intros i Hi. rewrite (proj1 (Hf (bitmap_start sb + i) ltac:(left; lia))). by apply im_stored0.
    + eapply (holds_keeps _ False); [exact H|]. split; [split; [done|apply Im|done]|reflexivity|].
      intros b Hb Ho. destruct (Hf b (or_intror Hb)) as [? ?]. split_and!; [done|done|done].
  - intros b Hb. rewrite (replays_frame c c' sb (ji_head _ _ J) Hr). exact (F b Hb).
  - intros b Hb. apply Hf; [by left|]. by apply M.
  - intros b Hb. apply Hf; [by right|]. by apply D.
Qed.

(** A crash: what was not written back is gone, and the device is as it was. *)
Lemma durable_crash k c sb L objs : durable k c sb L objs → durable k (cache_renew c) sb L objs.
Proof.
  intros D. destruct (renew_spec c (du_store _ _ _ _ _ D)) as (I' & U' & V').
  eapply durable_frame; [exact D|done|]. intros b Hb. split.
  - apply V'. destruct Hb; [by apply (du_meta _ _ _ _ _ D)|by apply (du_direct _ _ _ _ _ D)].
  - intros _. by apply uncached_direct.
Qed.

(** ** Memory and device *)

(** What the calls but the commit leave of the state. *)
Record carried (s s' : State) : Prop := {
  ca_journal : fs_journal s' = fs_journal s;
  ca_gen : fs_generation s' = fs_generation s;
  ca_magic : sb_magic (fs_sb s') = sb_magic (fs_sb s);
  ca_version : version (fs_sb s') = version (fs_sb s);
  ca_start : bitmap_start (fs_sb s') = bitmap_start (fs_sb s);
  ca_count : bitmap_count (fs_sb s') = bitmap_count (fs_sb s);
  ca_root : root_tree_hash (fs_sb s') = root_tree_hash (fs_sb s);
}.
Lemma carried_grown s s' : grown s s' → carried s s'.
Proof. by intros (root & n & free & frees & bm & ->). Qed.
Lemma carried_mem x x' st : x' = with_mem (C := C) st x → carried x.2 x'.2.
Proof. by intros ->. Qed.

Record mounted (ok : Prop) k (x : Sx) L objs sbd Ld objsd : Prop := {
  m_stores : stores blake3 ok k L x objs;
  m_durable : durable k x.1 sbd Ld objsd;
  m_kept : Forall (owned (mem x)) (footprint Ld []);
  m_tracked : tracked (view x.1) (fs_bitmap x.2);
  m_start : bitmap_start (fs_sb x.2) = bitmap_start sbd ∧ Bitmap.bitmap_start (fs_bitmap x.2) = bitmap_start sbd;
  m_count : bitmap_count (fs_sb x.2) = bitmap_count sbd ∧ Bitmap.bitmap_count (fs_bitmap x.2) = bitmap_count sbd;
  m_data : data_start (fs_sb x.2) = data_start sbd;
  m_total : total_blocks (fs_sb x.2) = total_blocks sbd;
  m_sb : sb_magic (fs_sb x.2) = DISK_MAGIC ∧ version (fs_sb x.2) = DISK_VERSION;
  m_gen : fs_generation x.2 = generation sbd;
  m_journal : fs_journal x.2 = Journal.new (journal_head sbd) (journal_seq sbd);
  m_root : root_tree_hash (fs_sb x.2) = root_tree_hash sbd;
}.

Lemma tracked_frame f g bm : geometry bm → (∀ i, 0 ≤ i < Bitmap.bitmap_count bm → g (Bitmap.bitmap_start bm + i) = f (Bitmap.bitmap_start bm + i)) →
  tracked f bm → tracked g bm.
Proof.
  intros G Hf T i Hi. rewrite Hf; [by apply T|]. apply lookup_lt_Some in Hi. pose proof (g_dirty _ G). unfold zlen in *. lia.
Qed.

(** Whatever keeps the metadata and the device's blocks keeps what the device holds. *)
Lemma mounted_keeps ok k x x' L objs L' objs' sbd Ld objsd : mounted ok k x L objs sbd Ld objsd →
  keeps blake3 ok (footprint Ld []) (mem x) (mem x') →
  (∀ b, 0 ≤ b < data_start sbd → view x'.1 b = view x.1 b ∧ (direct x.1 b → direct x'.1 b)) →
  carried x.2 x'.2 → stores blake3 ok k L' x' objs' → mounted ok k x' L' objs' sbd Ld objsd.
Proof.
  intros [S D K T Hs Hc Hda Hto Hsb Hg Hj Hr] Kp Hmeta Ca S'. pose proof (s_good _ _ _ _ _ _ S) as G. pose proof (kp_geo _ _ _ _ _ Kp) as Ev.
  pose proof (s_data _ _ _ _ _ _ S) as E1. rewrite Forall_forall in K.
  assert (durable k x'.1 sbd Ld objsd) as D'.
  { eapply durable_frame; [exact D|apply Kp|]. intros b [Hb|Hb].
    - by apply Hmeta.
    - by destruct (kp_block _ _ _ _ _ Kp b Hb (K b Hb)) as (_ & ? & ?). }
  destruct (du_image _ _ _ _ _ D) as (bm & Im & _). pose proof (image_area _ _ _ Im) as Ha. destruct Ca.
  destruct Hs as [Hs1 Hs2], Hc as [Hc1 Hc2]. assert (META_END = 265) as HM by done.
  assert (Bitmap.bitmap_start (fs_bitmap x'.2) = bitmap_start sbd) as Hs3 by (etrans; [apply (e_start _ _ Ev)|exact Hs2]).
  assert (Bitmap.bitmap_count (fs_bitmap x'.2) = bitmap_count sbd) as Hc3 by (etrans; [apply (e_bcount _ _ Ev)|exact Hc2]).
  split; try done.
  - apply Forall_forall. intros b Hb. by destruct (kp_block _ _ _ _ _ Kp b Hb (K b Hb)).
  - eapply (tracked_frame (view x.1)).
    + apply (evolves_geometry _ _ Ev), (gd_map _ _ _ G).
    + intros i Hi. rewrite Hs3. rewrite Hc3 in Hi. apply Hmeta. lia.
    + apply (e_tracked _ _ Ev); [apply (gd_map _ _ _ G)|done].
  - split; congruence.
  - split; congruence.
  - rewrite (s_data _ _ _ _ _ _ S'), <- Hda, E1. apply (e_data _ _ Ev).
  - rewrite (s_total _ _ _ _ _ _ S'), <- Hto, (s_total _ _ _ _ _ _ S). apply (e_total _ _ Ev).
  - destruct Hsb. split; congruence.
  - congruence.
  - congruence.
  - congruence.
Qed.

(** In particular whatever spares the blocks in use. *)
Lemma mounted_spared ok k x x' L objs L' objs' sbd Ld objsd : mounted ok k x L objs sbd Ld objsd →
  spared blake3 ok (mem x) (mem x') → carried x.2 x'.2 → stores blake3 ok k L' x' objs' → mounted ok k x' L' objs' sbd Ld objsd.
Proof.
  intros Mo Sp Ca S'. pose proof (m_stores _ _ _ _ _ _ _ _ Mo) as S. eapply mounted_keeps; [exact Mo| | |done|done].
  - apply spared_keeps; [apply S|done].
  - intros b Hb. destruct (sp_kept _ _ _ _ Sp b) as (? & _ & ?); [|done]. split; [lia|right]. unfold BtreeIo.in_area. simpl.
    rewrite <- (s_data _ _ _ _ _ _ S), (m_data _ _ _ _ _ _ _ _ Mo). lia.
Qed.

(** ** Mounting *)
Lemma free_pairs_spec l bm : inv bm → Forall (λ x, 0 < x.1 ∧ 0 < x.2) l →
  ∃ bm', free_pairs l bm = Some bm' ∧ evolves bm bm' ∧ inv bm' ∧
    ∀ b, 0 ≤ b → ¬ covers l b → used (Bitmap.data bm') b = used (Bitmap.data bm) b.
Proof.
  intros Hi Hl. revert bm Hi. induction Hl as [|[s n] l [Hs Hn] Hl IH]; intros bm Hi; cbn [free_pairs].
  { exists bm. split_and!; [done|reflexivity|done|done]. }
  simpl in Hs, Hn. destruct (free_spec s n bm Hi ltac:(lia)) as (bm1 & -> & E1 & I1 & U1). cbn [mbind option_bind].
  destruct (IH bm1 I1) as (bm2 & -> & E2 & I2 & U2). exists bm2. split_and!; [done|by etrans|done|].
  intros b Hb Hc. rewrite covers_cons in Hc. simpl in Hc. rewrite U2 by tauto. destruct (Bitmap.in_data bm s n); [|by subst].
  destruct U1 as [U1 _]. rewrite U1 by done. by rewrite decide_False by tauto.
Qed.

(** A new bitmap written over the old one. *)
Lemma durable_reimage k c c' sb L objs bm' : durable k c sb L objs → store_inv c' → image c' sb bm' →
  (∀ b, 0 ≤ b < META_END ∨ b ∈ footprint L [] → view c' b = view c b) → (∀ b, direct c' b) →
  (∀ b, b ∈ footprint L [] → used (Bitmap.data bm') b = true) →
  durable k c' sb L objs ∧ holds k L (c', bm') (btree_root sb) [] objs.
Proof.
  intros [I R W J (bm & Im & H) F M D] I' Im' Hf Hd Hu.
  assert (META_END = 265) as HM by done. assert (SUPERBLOCK_SLOTS = 8 ∧ SUPERBLOCK_START = 1 ∧ JOURNAL_START = 9) as (HS1 & HS2 & HS3) by done.
  assert (∀ b, in_ring b → view c' b = view c b) as Hr by (intros b Hb; apply Hf; left; unfold in_ring in Hb; lia).
  assert (holds k L (c', bm') (btree_root sb) [] objs) as H'.
  { assert (holds k L (c', bm) (btree_root sb) [] objs) as H1.
    { eapply (holds_keeps _ False); [exact H|]. split; [split; [done|apply Im|done]|reflexivity|].
      intros b Hb Ho. split_and!; [done|apply Hf; by right|intros; apply Hd]. }
    apply (holds_bitmap _ _ _ _ bm); [done| | |done]; by rewrite ?(im_total _ _ _ Im), ?(im_data _ _ _ Im), ?(im_total _ _ _ Im'), ?(im_data _ _ _ Im'). }
  split; [|done]. split; [done| |done| | | |intros; apply Hd|intros; apply Hd].
  - eapply ring_frame; [exact R|]. intros s Hs. apply Hf. left. unfold is_slot in Hs. lia.
  - by eapply journal_inv_frame.
  - by exists bm'.
  - intros b Hb. rewrite (replays_frame c c' sb (ji_head _ _ J) Hr). exact (F b Hb).
Qed.

(** Writing the bitmap and flushing: the device has all of it. *)
Lemma sync_flush_spec c sb bm : store_inv c → healthy c → inv bm → tracked (view c) bm →
  Bitmap.bitmap_start bm = bitmap_start sb → Bitmap.bitmap_count bm = bitmap_count sb → Bitmap.data_start bm = data_start sb →
  Bitmap.total_blocks bm = total_blocks sb → META_END ≤ bitmap_start sb →
  wp (bm ← borrowing bm Bitmap.sync; _ ← cache_flush; mret bm) (λ r c', ∃ bm', r = Ok bm' ∧ store_inv c' ∧ healthy c' ∧
    image c' sb bm' ∧ tracked (view c') bm' ∧ Bitmap.data bm' = Bitmap.data bm ∧ (∀ b, direct c' b) ∧
    ∀ b, ¬ bitmap_start sb ≤ b < bitmap_start sb + bitmap_count sb → view c' b = view c b) c.
Proof.
  intros I Hh Hi T E1 E2 E3 E4 Hm. apply wp_bind. pose proof (sync_spec c bm I Hi T) as Hs. unfold wp at 1, borrowing. unfold wp in Hs.
  destruct (Bitmap.sync (c, bm)) as [r [c1 bm1]]. destruct Hs as (I1 & H1 & Hi1 & T1 & (db & E) & F1 & R1).
  destruct r as [[]|e|]; cbn [ends] in R1; [|by destruct R1|done]. apply wp_bind.
  eapply wp_mono; [by apply cache_flush_spec|]. intros r c2 (I2 & V2 & H2 & _ & R2).
  destruct r as [[]|e|]; cbn [ends] in R2; [|destruct R2 as [_ []]; auto|done]. apply wp_ret. exists bm1.
  split; [done|]. split; [done|]. split; [auto|]. subst bm1. split; [|split; [by eapply tracked_same|split; [done|split; [done|]]]].
  - split; try done. intros i Hb. rewrite (V2 _). rewrite <- E1, <- E2 in *. by apply R1.
  - intros b Hb. rewrite (V2 b). apply F1. unfold BitmapSpec.in_area. by rewrite E1, E2.
Qed.

(** A state with nothing pending, on a device it agrees with. *)
Lemma mounted_fresh ok k c sb bm L objs : durable k c sb L objs → healthy c → image c sb bm → tracked (view c) bm →
  holds k L (c, bm) (btree_root sb) [] objs → sb_magic sb = DISK_MAGIC → version sb = DISK_VERSION →
  mounted ok k (c, mkState sb bm (Journal.new (journal_head sb) (journal_seq sb)) (generation sb) []) L objs sb L objs.
Proof.
  intros D Hh Im T H Hm Hv. pose proof Im as []. split; try done; simpl.
  - split; simpl; try done; [|apply D]. split; [apply D|done|done].
  - apply H.
Qed.

Lemma ring_magic f sb : ring blake3 f sb → sb_magic sb = DISK_MAGIC ∧ version sb = DISK_VERSION.
Proof.
  intros R. destruct (rg_slot _ _ _ R) as [_ Ha]. rewrite (rg_here _ _ _ R) in Ha. unfold acceptable in Ha.
  apply andb_true_iff in Ha as [[?%bool_decide_eq_true ?%Z.eqb_eq]%andb_true_iff _]. done.
Qed.

(** The bitmap a mount loads is the device's. *)
Lemma load_image reserve c sb bm0 : store_inv c → healthy c → image c sb bm0 → sb_wf sb → reserve (div_ceil (total_blocks sb) 8) = true →
  wp (Bitmap.load_args reserve (total_blocks sb) (bitmap_start sb) (bitmap_count sb) (data_start sb))
    (λ r c', unchanged (check := sum_ok) c c' ∧ ∃ bm, r = Ok bm ∧ image c' sb bm ∧ tracked (view c') bm ∧ Bitmap.data bm = Bitmap.data bm0) c.
Proof.
  intros I Hh Im W Hres. pose proof (image_area _ _ _ Im) as Ha. assert (META_END = 265) as HM by done.
  pose proof (i_geo _ (im_inv _ _ _ Im)) as G. pose proof (g_total _ G) as Ht. rewrite (im_total _ _ _ Im) in Ht.
  pose proof (g_blocks _ G) as Hb. rewrite (im_count _ _ _ Im), (g_len _ G), (im_total _ _ _ Im) in Hb.
  eapply wp_mono; [apply wp_and; [apply (load_args_spec (check := sum_ok)); try done; unfold fits in Ht; lia|by apply (reader_load (check := sum_ok))]|].
  intros r c1 [(I1 & V1 & H1 & R1) [_ D1]]. split; [by split_and!|].
  destruct r as [bm|e|]; [|exfalso|done].
  - destruct R1 as (Hi & T1 & E1 & E2 & E3 & E4 & St). exists bm. split; [done|]. split; [|split; [done|]].
    + destruct Im. split; try done. intros i Hb'. rewrite (V1 _). by apply St.
    + assert (zlen (Bitmap.data bm) = zlen (Bitmap.data bm0)) as El.
      { rewrite (g_len _ (i_geo _ Hi)), (g_len _ G), E1. by rewrite (im_total _ _ _ Im). }
      apply (stored_inj _ _ (λ i, view c (bitmap_start sb + i)) El). intros i Hi'.
      rewrite <- (g_blocks _ (i_geo _ Hi)), E4 in Hi'. split; [by apply St|by apply (im_stored _ _ _ Im)].
  - destruct R1 as [?|[?|[?|[?|?]]]]; [done|lia|lia|congruence|done].
Qed.

Lemma mount_disk_spec ok reserve n k c sb L objs : durable k c sb L objs → healthy (cache_renew c) → total_blocks sb ≤ n →
  reserve (div_ceil (total_blocks sb) 8) = true →
  wp (mount_disk blake3 reserve (Some n)) (λ r c', ∃ s, r = Ok s ∧ mounted ok k (c', s) L objs sb L objs ∧
    fs_sb s = sb ∧ fs_pending s = []) c.
Proof.
  intros D0 Hh Hn Hres. pose proof (durable_crash _ _ _ _ _ D0) as D. clear D0. unfold mount_disk.
  apply wp_bind, wp_get, wp_bind, wp_put. set (c0 := cache_renew c) in *. clearbody c0. pose proof (du_store _ _ _ _ _ D) as I0.
  apply wp_bind. eapply wp_mono; [apply wp_and; [by apply (read_best_spec blake3 (check := sum_ok))|by apply (reader_best (check := sum_ok))]|].
  intros r c1 [(I1 & V1 & H1 & o & -> & Ho & _) [_ D1]].
  rewrite (ring_newest _ _ _ (du_ring _ _ _ _ _ D)) in Ho. specialize (Ho Hh) as ->.
  apply wp_bind. simpl ok_or. apply wp_ret. rewrite (proj2 (Z.ltb_ge _ _)) by done.
  pose proof (ji_head _ _ (du_journal _ _ _ _ _ D)) as Hj. rewrite (proj2 (Z.leb_gt _ _)) by apply Hj.
  apply wp_bind. eapply wp_mono; [apply wp_and; [by apply (replay_spec (check := sum_ok))|by apply (reader_replay (check := sum_ok))]|].
  intros r c2 [(I2 & V2 & H2 & R2) [_ D2]]. destruct r as [frees|e|]; cbn [ends] in R2; [|destruct R2 as [_ []]; auto|done].
  assert (durable k c2 sb L objs) as Du2.
  { eapply durable_frame; [exact D|done|]. intros b _. split; [by rewrite (V2 b), (V1 b)|auto]. }
  assert (frees = replays c2 sb) as Ef.
  { rewrite R2. by apply replays_same. }
  clear R2 V1 V2 D1 D2 D I0. destruct (du_image _ _ _ _ _ Du2) as (bm0 & Im0 & Hol0).
  apply wp_bind. eapply wp_mono; [apply (load_image reserve c2 sb bm0); [done|by auto|done|apply Du2|done]|].
  intros r c3 [U3 (bm & -> & Im3 & T3 & Ed)]. pose proof U3 as (I3 & V3 & H3 & D3).
  assert (durable k c3 sb L objs) as Du3.
  { eapply durable_frame; [exact Du2|done|]. intros b _. split; [apply (V3 b)|auto]. }
  assert (holds k L (c3, bm) (btree_root sb) [] objs) as Hol3.
  { pose proof (h_owned _ _ _ _ _ _ _ Hol0) as Ow. rewrite Forall_forall in Ow.
    apply (holds_bitmap _ _ _ _ bm0); [|by rewrite (im_data _ _ _ Im3), (im_data _ _ _ Im0)|by rewrite (im_total _ _ _ Im3), (im_total _ _ _ Im0)|].
    - eapply (holds_keeps _ False); [exact Hol0|]. split; [split; [done|apply Im0|done]|reflexivity|].
      intros b _ Ho. split_and!; [done|apply (V3 b)|apply D3].
    - intros b Hb. rewrite Ed. apply (Ow b Hb). }
  destruct (ring_magic _ _ (du_ring _ _ _ _ _ Du3)) as [Hm Hv]. apply wp_bind. case_bool_decide as Hemp.
  { apply wp_ret, wp_ret. eexists. split; [done|]. split; [|done]. apply mounted_fresh; auto. }
  destruct (free_pairs_spec frees bm (im_inv _ _ _ Im3)) as (bm4 & Ef4 & Ev4 & I4 & U4); [rewrite Ef; apply replays_nonzero|].
  apply wp_bind. eapply wp_of_opt; [exact Ef4|]. pose proof Im3 as [_ E1 E2 E3 E4 E5 _].
  eapply wp_mono; [apply (sync_flush_spec c3 sb bm4); auto; try congruence|].
  { apply (e_tracked _ _ Ev4); [apply (im_inv _ _ _ Im3)|done]. }
  { rewrite <- E3. apply (e_start _ _ Ev4). } { rewrite <- E4. apply (e_bcount _ _ Ev4). }
  { rewrite <- E2. apply (e_data _ _ Ev4). } { rewrite <- E1. apply (e_total _ _ Ev4). }
  intros r c5 (bm5 & -> & I5 & H5 & Im5 & T5 & Ed5 & D5 & F5). pose proof (image_area _ _ _ Im5) as Ha.
  pose proof (h_owned _ _ _ _ _ _ _ Hol3) as Ow. rewrite Forall_forall in Ow.
  destruct (durable_reimage k c3 c5 sb L objs bm5) as [Du5 Hol5]; [done|done|done| |done| |].
  - intros b Hb. apply F5. destruct Hb as [Hb|Hb]; [lia|]. destruct (Ow b Hb) as [[Ha1 Ha2] _]. simpl in Ha1. rewrite E2 in Ha1. lia.
  - intros b Hb. destruct (Ow b Hb) as [Ha' Hu]. rewrite Ed5, U4; [exact Hu| |].
    + destruct Ha' as [Ha1 _]. simpl in Ha1. assert (META_END = 265) as HM by done. lia.
    + rewrite Ef. by apply (du_free _ _ _ _ _ Du2).
  - apply wp_ret. eexists. split; [done|]. split; [|done]. by apply mounted_fresh.
Qed.

(** ** The commit *)

(** The two journal phases, with or without anything to record. *)
Definition staged_or_idle c j c1 j1 : Prop :=
  pending_frees j = [] ∧ j1 = j ∧ (∀ b, in_ring b → view c1 b = view c b) ∨
  j_seq j1 = j_seq j + 1 ∧ staged_entries (check := sum_ok) c j c1 j1.

Lemma commit_prepare c j : journal_inv c j → Forall range_ok (pending_frees j) → j_seq j + 1 < 2 ^ 64 →
  wp prepare (λ r '(c1, j1), journal_inv c1 j1 ∧ (healthy c → healthy c1) ∧ (∀ b, ¬ in_ring b → view c1 b = view c b) ∧
    ends (healthy c) r (λ _, pending_frees j1 = [] ∧ staged_or_idle c j c1 j1) True) (c, j).
Proof.
  intros J Hr Hs. destruct (decide (pending_frees j = [])) as [E|Ne].
  - unfold wp. rewrite prepare_idle by done. split_and!; [done..|]. cbn [ends]. split; [done|]. by left.
  - eapply wp_mono; [by apply (prepare_spec (check := sum_ok))|]. intros r [c1 j1] (J1 & H1 & S1 & Hs1 & R1). split; [done|]. split; [done|].
    split; [intros b Hb; by destruct (S1 b) as [|[? _]]|]. destruct r as [[]|e|]; cbn [ends] in *; [|done|done].
    destruct R1. split; [done|]. by right.
Qed.

Lemma commit_finalize c0 j0 c j : journal_inv c0 j0 → journal_inv c j → pending_frees j = [] → staged_or_idle c0 j0 c j →
  uncommitted_blocks j0 = [] → Forall range_ok (pending_frees j0) →
  wp finalize (λ r '(c1, j1), journal_inv c1 j1 ∧ (healthy c → healthy c1) ∧ (∀ b, ¬ in_ring b → view c1 b = view c b) ∧
    ends (healthy c) r (λ _, j1 = Journal.new (j_head j) (j_seq j) ∧
      ∀ b, covers (scan (view c1) (Z.to_nat JOURNAL_BLOCKS) 0 (j_head j) (j_seq j)) b → covers (pending_frees j0) b ∨
        pending_frees j0 = [] ∧ covers (scan (view c0) (Z.to_nat JOURNAL_BLOCKS) 0 (j_head j0) (j_seq j0)) b) True) (c, j).
Proof.
  intros J0 J Hp St Hu Hr. destruct St as [(E & -> & Hf)|[Hs St]].
  - unfold wp. rewrite finalize_idle by done. split; [done|]. split; [done|]. split; [done|]. cbn [ends]. split.
    { destruct j0; simpl in *; by subst. }
    intros b Hb. right. split; [done|]. rewrite (scan_frame (view c0)) in Hb; [exact Hb|apply J0|lia| |exact Hf].
    rewrite Z2Nat.id; [apply Z.le_refl|unfold JOURNAL_BLOCKS; lia].
  - eapply wp_mono; [apply (finalize_spec (check := sum_ok) c0 c j0 j J Hs); [apply J0|apply J0|exact St]|].
    intros r [c1 j1] (J1 & H1 & Hh1 & Hs1 & Hp1 & Hf1 & R1). split; [done|]. split; [done|]. split; [done|].
    destruct r as [[]|e|]; cbn [ends] in *; [|done|done]. destruct R1 as [Hu1 R1]. split.
    { destruct j1 as [h1 s1 p1 u1]. simpl in *. unfold Journal.new. congruence. }
    intros b Hb. left. rewrite <- Hh1, <- Hs1, R1 in Hb. destruct (kept_of_spec _ Hr) as (_ & Hk & _).
    rewrite filter_nonzero_ok in Hb by done. by apply kept_of_subset.
Qed.

Lemma record_all_spec l j : let j' := record_all l j in
  j_head j' = j_head j ∧ j_seq j' = j_seq j ∧ uncommitted_blocks j' = uncommitted_blocks j ∧
  (Forall (λ x, 0 < x.2) l → pending_frees j' = pending_frees j ++ l).
Proof.
  revert j. induction l as [|[b n] l IH]; intros j; cbn [record_all]; [by rewrite app_nil_r|].
  destruct (IH (record_free b n j)) as (E1 & E2 & E3 & E4). cbv zeta. rewrite E1, E2, E3. unfold record_free in *.
  destruct (Z.ltb_spec 0 n); simpl in *; split_and!; try done.
  - intros [_ Hl]%Forall_cons. rewrite E4 by done. by rewrite <- app_assoc.
  - intros [? _]%Forall_cons. simpl in *. lia.
Qed.

Definition singles (l : list Z) : list (Z * Z) := (λ b, (b, 1)) <$> l.
Lemma covers_singles l b : covers (singles l) b ↔ b ∈ l.
Proof.
  unfold covers, singles. split.
  - intros (s & n & (x & [= -> ->] & Hx)%list_elem_of_fmap & Hb). by replace b with x by lia.
  - intros Hb. exists b, 1. split; [|lia]. apply list_elem_of_fmap. by exists b.
Qed.

Lemma wp_on_journal {A} (m : M (C * Journal) FsError A) (Q : res FsError A → Sx → Prop) x :
  wp m (λ r st', Q r (st'.1, set_journal st'.2 x.2)) (x.1, fs_journal x.2) → wp (on_journal m) Q x.
Proof. unfold wp, on_journal. by destruct (m _) as [r [c b]]. Qed.
Lemma wp_on_sb {A} (m : M (C * SuperblockRaw) FsError A) (Q : res FsError A → Sx → Prop) x :
  wp m (λ r st', Q r (st'.1, set_sb st'.2 x.2)) (x.1, fs_sb x.2) → wp (on_sb m) Q x.
Proof. unfold wp, on_sb. by destruct (m _) as [r [c b]]. Qed.

(** The commit begins: it frees the blocks [pend], and [more] are freed after it; the
    ranges [fl] recorded for the journal are among these. *)
Record committing ok k (x : Sx) L objs pend more fl sbd Ld objsd : Prop := {
  cm_good : good blake3 ok (mem x);
  cm_holds : holds k L (mem x) (btree_root (fs_sb x.2)) (fs_pending x.2 ++ pend ++ more) objs;
  cm_durable : durable k x.1 sbd Ld objsd;
  cm_tracked : tracked (view x.1) (fs_bitmap x.2);
  cm_start : Bitmap.bitmap_start (fs_bitmap x.2) = bitmap_start (fs_sb x.2);
  cm_count : Bitmap.bitmap_count (fs_bitmap x.2) = bitmap_count (fs_sb x.2);
  cm_data : Bitmap.data_start (fs_bitmap x.2) = data_start (fs_sb x.2);
  cm_total : Bitmap.total_blocks (fs_bitmap x.2) = total_blocks (fs_sb x.2);
  cm_meta : META_END ≤ bitmap_start (fs_sb x.2);
  cm_fresh : fresh_sb sbd (fs_sb x.2);
  cm_gen : fs_generation x.2 = generation (fs_sb x.2);
  cm_journal : fs_journal x.2 = record_all fl (Journal.new (journal_head sbd) (journal_seq sbd));
  cm_counts : Forall (λ x, 0 < x.2) fl;
  cm_covers b : covers fl b → b ∈ pend ++ more;
  cm_seq : journal_seq sbd + 1 < 2 ^ 64;
  cm_idle : fl = [] → ∀ b, b ∈ footprint L [] → ¬ covers (replays x.1 sbd) b;
}.

(** A block of the bitmap area. *)
Definition in_map sb (b : Z) : Prop := bitmap_start sb ≤ b < bitmap_start sb + bitmap_count sb.

(** After the barrier: everything but the superblock is on the device. *)
Record flushed ok (x x' : Sx) : Prop := {
  fl_store : store_inv x'.1;
  fl_ok : ok → healthy x'.1;
  fl_journal : journal_inv x'.1 (fs_journal x'.2);
  fl_none : pending_frees (fs_journal x'.2) = [];
  fl_staged : staged_or_idle x.1 (fs_journal x.2) x'.1 (fs_journal x'.2);
  fl_inv : inv (fs_bitmap x'.2);
  fl_map : ∃ db, fs_bitmap x'.2 = Bitmap.set_dirty_blocks db (fs_bitmap x.2);
  fl_tracked : tracked (view x'.1) (fs_bitmap x'.2);
  fl_stored i : 0 ≤ i < bitmap_count (fs_sb x.2) → stored (Bitmap.data (fs_bitmap x.2)) i (view x'.1 (bitmap_start (fs_sb x.2) + i));
  fl_frame b : ¬ in_ring b → ¬ in_map (fs_sb x.2) b → view x'.1 b = view x.1 b;
  fl_state : x'.2 = set_bitmap (fs_bitmap x'.2) (set_sb (with_journal (j_head (fs_journal x'.2)) (j_seq (fs_journal x'.2)) (fs_sb x.2))
    (set_journal (fs_journal x'.2) x.2));
}.

Lemma committing_owned ok k x L objs pend more fl sbd Ld objsd b : committing ok k x L objs pend more fl sbd Ld objsd →
  b ∈ footprint L (fs_pending x.2 ++ pend ++ more) → owned (mem x) b.
Proof. intros Cm. apply (proj1 (Forall_forall _ _) (h_owned _ _ _ _ _ _ _ (cm_holds _ _ _ _ _ _ _ _ _ _ _ Cm))). Qed.

Lemma committing_journal ok k x L objs pend more fl sbd Ld objsd : committing ok k x L objs pend more fl sbd Ld objsd →
  let j := fs_journal x.2 in journal_inv x.1 j ∧ pending_frees j = fl ∧ Forall range_ok (pending_frees j) ∧
  uncommitted_blocks j = [] ∧ j_head j = journal_head sbd ∧ j_seq j = journal_seq sbd.
Proof.
  intros Cm. pose proof (record_all_spec fl (Journal.new (journal_head sbd) (journal_seq sbd))) as H.
  cbv zeta in *. rewrite <- (cm_journal _ _ _ _ _ _ _ _ _ _ _ Cm) in H. destruct H as (E1 & E2 & E3 & E4). simpl in E1, E2, E3.
  pose proof (cm_counts _ _ _ _ _ _ _ _ _ _ _ Cm) as Hp. assert (pending_frees (fs_journal x.2) = fl) as Ep by (by rewrite E4).
  split_and!; try done.
  - destruct (du_journal _ _ _ _ _ (cm_durable _ _ _ _ _ _ _ _ _ _ _ Cm)). split; rewrite ?E1, ?E2; done.
  - rewrite Ep. rewrite Forall_forall in Hp. apply Forall_forall. intros [b n] Hb. specialize (Hp _ Hb). unfold range_ok. simpl in *.
    pose proof (cm_good _ _ _ _ _ _ _ _ _ _ _ Cm) as G. pose proof (g_total _ (i_geo _ (gd_map _ _ _ G))) as Ht. simpl in Ht. unfold fits in Ht.
    assert (∀ y, b ≤ y < b + n → BtreeIo.in_area (mem x) y) as Ha.
    { intros y Hy. apply (committing_owned _ _ _ _ _ _ _ _ _ _ _ y Cm).
      unfold footprint. rewrite !elem_of_app. right. left. right. rewrite <- elem_of_app.
      apply (cm_covers _ _ _ _ _ _ _ _ _ _ _ Cm). by exists b, n. }
    destruct (in_area_pos _ _ _ _ G (Ha b ltac:(lia))) as [? _]. destruct (Ha (b + n - 1) ltac:(lia)) as [_ ?]. simpl in *. lia.
Qed.

(** The superblocks lie apart from the journal and the bitmap. *)
Lemma slot_apart sb s : META_END ≤ bitmap_start sb → is_slot s → ¬ in_ring (SUPERBLOCK_START + s) ∧ ¬ in_map sb (SUPERBLOCK_START + s).
Proof.
  unfold is_slot, in_ring, in_map. assert (META_END = 265 ∧ SUPERBLOCK_SLOTS = 8 ∧ SUPERBLOCK_START = 1 ∧ JOURNAL_START = 9) as (-> & -> & -> & ->) by done. lia.
Qed.

(** Data blocks lie apart from all of them. *)
Lemma area_apart ok k x L objs pend more fl sbd Ld objsd b s : committing ok k x L objs pend more fl sbd Ld objsd → is_slot s →
  b ∈ footprint L (fs_pending x.2 ++ pend ++ more) → ¬ in_ring b ∧ ¬ in_map (fs_sb x.2) b ∧ b ≠ SUPERBLOCK_START + s ∧ 0 ≤ b.
Proof.
  intros Cm Hs Hb. destruct (committing_owned _ _ _ _ _ _ _ _ _ _ _ b Cm Hb) as [[Ha _] _]. simpl in Ha.
  pose proof (g_area _ (i_geo _ (gd_map _ _ _ (cm_good _ _ _ _ _ _ _ _ _ _ _ Cm)))) as Hg.
  destruct Cm. simpl in Hg. rewrite cm_start0, cm_count0 in Hg. pose proof (g_dirty _ (i_geo _ (gd_map _ _ _ cm_good0))) as Hd.
  pose proof (zlen_nonneg (Bitmap.dirty_blocks (fs_bitmap x.2))). simpl in Hd. unfold in_ring, in_map, is_slot in *.
  assert (META_END = 265 ∧ SUPERBLOCK_SLOTS = 8 ∧ SUPERBLOCK_START = 1) as (E1 & E2 & E3) by done. lia.
Qed.

(** The blocks that wait are none of the others. *)
Lemma footprint_waiting L rest wait b : NoDup (footprint L (rest ++ wait)) → b ∈ footprint L rest → b ∈ footprint L (rest ++ wait) ∧ b ∉ wait.
Proof.
  unfold footprint. rewrite <- !app_assoc, !NoDup_app, !elem_of_app. setoid_rewrite elem_of_app. setoid_rewrite elem_of_app.
  intros (_ & H1 & _ & H2 & _ & H3 & _) [Hb|[Hb|Hb]]; split; auto; intros Hw.
  - apply (H1 b Hb). auto.
  - apply (H2 b Hb). auto.
  - by apply (H3 b Hw).
Qed.

Lemma holds_forget k L st root rest wait objs : holds k L st root (rest ++ wait) objs → holds k L st root rest objs.
Proof.
  intros [T O N Ow]. split; [done|done| |].
  - revert N. unfold footprint. rewrite <- !app_assoc, !NoDup_app. setoid_rewrite elem_of_app.
    intros (? & H1 & ? & H2 & ? & ? & ?). split_and!; [done| |done| |done].
    + intros b Hb [Hc|Hc]; apply (H1 b Hb); auto. right. apply elem_of_app. auto.
    + intros b Hb Hc. apply (H2 b Hb). auto.
  - rewrite Forall_forall in *. intros b Hb. apply Ow. by apply footprint_waiting.
Qed.

(** The superblock of the commit. *)
Definition next_sb (x1 : Sx) sb : SuperblockRaw := with_journal (j_head (fs_journal x1.2)) (j_seq (fs_journal x1.2)) sb.

(** After the superblock and the second journal phase, all written back, the device holds the new store. *)
Lemma commit_durable ok k x x1 L objs pend more fl sbd Ld objsd c1 c : committing ok k x L objs pend more fl sbd Ld objsd → flushed ok x x1 →
  let sb := set_checksum blake3 (next_sb x1 (fs_sb x.2)) in let s := SUPERBLOCK_START + generation sb `mod` SUPERBLOCK_SLOTS in
  (∀ b, b ≠ s → view c1 b = view x1.1 b) → view c1 s = sb_bytes sb → (∀ b, ¬ in_ring b → view c b = view c1 b) →
  store_inv c → journal_inv c (Journal.new (journal_head sb) (journal_seq sb)) →
  (∀ b, covers (replays c sb) b → b ∈ pend ++ more ∨ fl = [] ∧ covers (replays x.1 sbd) b) → (∀ b, direct c b) →
  durable k c sb L objs ∧ image c sb (fs_bitmap x1.2) ∧ tracked (view c) (fs_bitmap x1.2) ∧
  holds k L (c, fs_bitmap x1.2) (btree_root sb) (fs_pending x.2 ++ pend ++ more) objs.
Proof.
  intros Cm Fl sb s V1 Vs V I J R D. pose proof Cm as [G Ho Du T0 Es Ec Ed Et Em Fr _ _ _ _ _ Id]. pose proof Fr as (Wf & Fm & Fv & Fg).
  assert (is_slot (generation sb `mod` SUPERBLOCK_SLOTS)) as Hslot by (apply Z.mod_pos_bound; done).
  destruct (slot_apart (fs_sb x.2) _ Em Hslot) as [Ap1 Ap2]. fold s in Ap1, Ap2.
  assert (∀ i, 0 ≤ i < bitmap_count (fs_sb x.2) → view c (bitmap_start (fs_sb x.2) + i) = view x1.1 (bitmap_start (fs_sb x.2) + i)) as Vm.
  { intros i Hi. assert (META_END = 265 ∧ JOURNAL_START = 9 ∧ JOURNAL_BLOCKS = 256) as (? & ? & ?) by done.
    rewrite V, V1; [done| |unfold in_ring; lia]. intros E. apply Ap2. rewrite <- E. unfold in_map. lia. }
  destruct (fl_map _ _ _ Fl) as [db Ebm].
  assert (image c sb (fs_bitmap x1.2)) as Im.
  { split; [apply Fl|by rewrite Ebm..|done|]. intros i Hi. simpl in Hi |- *. rewrite Ebm, Vm by done. by apply Fl. }
  assert (holds k L (c, fs_bitmap x1.2) (btree_root sb) (fs_pending x.2 ++ pend ++ more) objs) as Hn.
  { apply (holds_bitmap _ _ _ c (fs_bitmap x.2)); [|by rewrite Ebm..|].
    - apply (holds_keeps _ False k L (mem x)); [exact Ho|]. split; [split; [done|apply G|done]|reflexivity|].
      intros b Hb Hw. destruct (area_apart _ _ _ _ _ _ _ _ _ _ _ b _ Cm Hslot Hb) as (A1 & A2 & A3 & _). split; [exact Hw|]. split; [|auto].
      unfold BtreeIo.vw. simpl. rewrite V, V1 by done. by apply (fl_frame _ _ _ Fl).
    - intros b Hb. rewrite Ebm. pose proof (h_owned _ _ _ _ _ _ _ Ho) as Ow. rewrite Forall_forall in Ow. apply (Ow b Hb). }
  split; [|split; [done|split; [|done]]].
  2: { eapply (tracked_frame (view x1.1)); [apply (fl_inv _ _ _ Fl)| |apply (fl_tracked _ _ _ Fl)].
       rewrite Ebm. simpl. by rewrite Es, Ec. }
  destruct (ji_seq _ _ J), (ji_head _ _ J). assert (JOURNAL_BLOCKS = 256) as HJ by done.
  assert (fresh_sb sbd (next_sb x1 (fs_sb x.2))) as Fr1.
  { split; [|done]. apply with_journal_wf; [done| |done]. simpl in *. unfold fits. lia. }
  split.
  - done.
  - eapply ring_frame; [apply (ring_next blake3 blake3_len (view x1.1) (view c1) sbd)|].
    + eapply ring_frame; [apply (du_ring _ _ _ _ _ Du)|]. intros t Ht. destruct (slot_apart _ _ Em Ht). by apply (fl_frame _ _ _ Fl).
    + exact Fr1.
    + exact V1.
    + exact Vs.
    + intros t Ht. apply V. by destruct (slot_apart _ _ Em Ht).
  - destruct Fr1 as (W1 & W2 & W3 & _). by destruct (set_checksum_ok blake3 blake3_len _ W1 W2 W3).
  - exact J.
  - exists (fs_bitmap x1.2). split; [done|]. by apply (holds_forget _ _ _ _ [] (fs_pending x.2 ++ pend ++ more)).
  - intros b Hb Hc. destruct (footprint_waiting L [] _ _ (h_nodup _ _ _ _ _ _ _ Ho) Hb) as [_ Hp].
    destruct (R b Hc) as [Hg|[E ?]]; [destruct Hp; apply elem_of_app; by right|]. by apply (Id E b Hb).
  - intros; apply D.
  - intros; apply D.
Qed.

Lemma staged_or_idle_frame c0 j0 c c' j : staged_or_idle c0 j0 c j → (∀ b, in_ring b → view c' b = view c b) → staged_or_idle c0 j0 c' j.
Proof.
  intros [(E & -> & Hf)|[Hs St]] Hr; [left|right].
  - split; [done|]. split; [done|]. intros b Hb. rewrite Hr by done. by apply Hf.
  - split; [done|]. by eapply staged_frame.
Qed.

(** Freeing the replaced blocks ends the commit. *)
Lemma commit_end ok k (x : Sx) L objs pend more : durable k x.1 (fs_sb x.2) L objs → (ok → healthy x.1) →
  image x.1 (fs_sb x.2) (fs_bitmap x.2) → tracked (view x.1) (fs_bitmap x.2) →
  holds k L (mem x) (btree_root (fs_sb x.2)) (fs_pending x.2 ++ pend ++ more) objs → fs_generation x.2 = generation (fs_sb x.2) →
  fs_journal x.2 = Journal.new (journal_head (fs_sb x.2)) (journal_seq (fs_sb x.2)) →
  wp (on_bitmap (free_old pend)) (λ r x', r = Ok tt ∧ mounted ok k x' L objs (fs_sb x.2) L objs ∧
    holds k L (mem x') (btree_root (fs_sb x.2)) (fs_pending x.2 ++ more) objs ∧
    fs_sb x'.2 = fs_sb x.2 ∧ fs_pending x'.2 = fs_pending x.2) x.
Proof.
  intros Du Hok Im T Ho Eg Ej. pose proof Im as []. pose proof (ring_magic _ _ (du_ring _ _ _ _ _ Du)).
  assert (good blake3 ok (mem x)) as G by (split; [apply Du|done|done]).
  assert (holds k L (mem x) (btree_root (fs_sb x.2)) ((fs_pending x.2 ++ more) ++ pend) objs) as Ho'.
  { eapply holds_perm; [exact Ho|]. rewrite <- app_assoc. apply Permutation_app_head, Permutation_app_comm. }
  pose proof (h_owned _ _ _ _ _ _ _ Ho') as Ow. rewrite Forall_forall in Ow. pose proof (h_nodup _ _ _ _ _ _ _ Ho') as Nd.
  pose proof (holds_forget _ _ _ _ _ _ _ Ho') as Hm. pose proof (holds_forget _ _ _ _ _ _ _ Hm) as Hr.
  assert (stores blake3 ok k L x objs) as S by (split; try done; apply Du).
  assert (mounted ok k x L objs (fs_sb x.2) L objs) as Mo.
  { split; try done. apply (h_owned _ _ _ _ _ _ _ (holds_forget _ _ _ _ [] _ _ Hr)). }
  assert (∀ b, b ∈ pend → b ∈ footprint L ((fs_pending x.2 ++ more) ++ pend)) as Hpe.
  { intros b Hb. unfold footprint. rewrite !elem_of_app. auto. }
  apply wp_on_bitmap. eapply wp_mono; [apply (free_old_spec blake3 ok); [exact G|]|].
  { apply Forall_forall. intros b Hb. by apply Ow, Hpe. }
  intros r st' (-> & Tc & _). assert (keeps blake3 ok (footprint L (fs_pending x.2 ++ more)) (mem x) st') as Kp.
  { eapply touched_keeps; [exact G|exact Tc|]. intros b Hb. by apply (footprint_waiting L (fs_pending x.2 ++ more) pend). }
  assert (∀ l, (∀ b, b ∈ footprint L l → b ∈ footprint L (fs_pending x.2 ++ more)) → keeps blake3 ok (footprint L l) (mem x) st') as Kp'.
  { intros l Hl. eapply keeps_mono; [exact Kp|exact Hl]. }
  split; [done|]. split; [|split; [destruct st'; by eapply holds_keeps|done]]. eapply mounted_keeps; [exact Mo| | | |].
  - destruct st'. apply Kp'. intros b Hb. by apply (footprint_waiting L [] (fs_pending x.2 ++ more)); [apply Hm|].
  - intros b Hb. cut (b ∉ pend); [intros Hp; split; [apply (t_frame _ _ _ _ _ Tc b Hp)|apply (t_direct _ _ _ _ _ Tc b Hp)]|].
    intros Hp. destruct (Ow b (Hpe b Hp)) as [[Ha _] _]. simpl in Ha. lia.
  - done.
  - eapply stores_keeps; [exact S| |done|done]. destruct st'. apply Kp'. intros b Hb. by apply footprint_waiting; [apply Hm|].
Qed.

(** What a commit leaves of memory: the objects, the blocks that wait for the next
    one, and those of [more]. *)
Record parted k (x x' : Sx) L objs more sbd : Prop := {
  pt_holds : holds k L (mem x') (btree_root (fs_sb x'.2)) (fs_pending x'.2 ++ more) objs;
  pt_pending : fs_pending x'.2 = fs_pending x.2;
  pt_root : root_tree_hash (fs_sb x'.2) = root_tree_hash (fs_sb x.2);
  pt_total : total_blocks (fs_sb x'.2) = total_blocks (fs_sb x.2);
  pt_data : data_start (fs_sb x'.2) = data_start (fs_sb x.2);
  pt_gen : generation (fs_sb x'.2) = generation (fs_sb x.2);
  pt_seq : journal_seq (fs_sb x'.2) ≤ journal_seq sbd + 1;
}.

(** The superblock, the second journal phase, and the end. *)
Lemma commit_after ok k x x1 L objs pend more fl sbd Ld objsd : committing ok k x L objs pend more fl sbd Ld objsd → flushed ok x x1 →
  wp (_ ← on_sb (write_next_durable blake3); _ ← on_journal finalize; _ ← on_store cache_flush; on_bitmap (free_old pend))
    (λ r x', match r with
      | Ok _ => mounted ok k x' L objs (fs_sb x'.2) L objs ∧ parted k x x' L objs more sbd
      | Err _ => ¬ ok
      | Panic => False
      end) x1.
Proof.
  intros Cm Fl. destruct (committing_journal _ _ _ _ _ _ _ _ _ _ _ Cm) as (J0 & Hp0 & Hr0 & Hu0 & Hh0 & Hs0).
  pose proof (cm_fresh _ _ _ _ _ _ _ _ _ _ _ Cm) as (Wf & Fm & Fv & _). pose proof (fl_journal _ _ _ Fl) as J1.
  assert (fs_sb x1.2 = next_sb x1 (fs_sb x.2)) as Esb by (rewrite (fl_state _ _ _ Fl); done).
  destruct (ji_seq _ _ J1) as [Q1 Q2], (ji_head _ _ J1) as [Q3 Q4]. assert (JOURNAL_BLOCKS = 256) as HJ by done.
  assert (sb_wf (next_sb x1 (fs_sb x.2))) as Wf1 by (apply with_journal_wf; [done| |done]; unfold fits; lia).
  assert (is_slot (generation (fs_sb x.2) `mod` SUPERBLOCK_SLOTS)) as Hslot by (apply Z.mod_pos_bound; done).
  destruct (slot_apart (fs_sb x.2) _ (cm_meta _ _ _ _ _ _ _ _ _ _ _ Cm) Hslot) as [Ap _].
  apply wp_bind, wp_on_sb. rewrite Esb.
  eapply wp_mono; [apply (write_next_spec blake3 blake3_len (check := sum_ok)); [apply Fl|done|done|done]|].
  intros r [c2 sb2] (I2 & H2 & -> & F2 & R2). destruct r as [s|e|]; cbn [ends] in R2; [|intros ?; apply R2; by apply (fl_ok _ _ _ Fl)|done].
  destruct R2 as [_ B2]. assert (∀ b, in_ring b → view c2 b = view x1.1 b) as Fr2.
  { intros b Hb. apply F2. intros ->. by apply Ap. }
  apply wp_bind, wp_on_journal. cbn [fst snd].
  eapply wp_mono; [apply (commit_finalize x.1 (fs_journal x.2)); [done|by eapply journal_inv_frame|apply Fl|by eapply staged_or_idle_frame, Fr2; apply Fl|done|done]|].
  intros r [c3 j3] (J3 & H3 & F3 & R3). destruct r as [[]|e|]; cbn [ends] in R3; [|intros ?; apply R3; apply H2; by apply (fl_ok _ _ _ Fl)|done].
  destruct R3 as [-> R3]. apply wp_bind, wp_stx_store. cbn [fst snd].
  eapply wp_mono; [apply cache_flush_spec, J3|]. intros r c4 (I4 & V4 & H4 & _ & R4).
  destruct r as [[]|e|]; cbn [ends] in R4; [|intros ?; apply R4, H3, H2; by apply (fl_ok _ _ _ Fl)|done].
  set (sb := set_checksum blake3 (next_sb x1 (fs_sb x.2))) in *.
  destruct (commit_durable ok k x x1 L objs pend more fl sbd Ld objsd c2 c4 Cm Fl) as (Du & Im & T & Ho).
  - exact F2.
  - exact B2.
  - intros b Hb. by rewrite (V4 b), F3.
  - done.
  - eapply journal_inv_frame; [exact J3|done|]. intros b _. apply V4.
  - intros b Hb. assert (covers (scan (view c3) (Z.to_nat JOURNAL_BLOCKS) 0 (j_head (fs_journal x1.2)) (j_seq (fs_journal x1.2))) b) as Hb'.
    { erewrite replays_same; [exact Hb|by intros ?|done|done]. }
    destruct (R3 b Hb') as [Hc|[E Hc]]; rewrite Hp0 in *.
    + left. by apply (cm_covers _ _ _ _ _ _ _ _ _ _ _ Cm).
    + right. split; [done|]. erewrite replays_same in Hc; [exact Hc|by intros ?|done|done].
  - exact R4.
  - assert (fs_pending x1.2 = fs_pending x.2) as Ep by (rewrite (fl_state _ _ _ Fl); done).
    eapply wp_mono; [apply (commit_end ok k _ L objs pend more); cbn [fst snd]; try done|].
    + intros Hk. apply H4, H3, H2. by apply (fl_ok _ _ _ Fl).
    + simpl. rewrite Ep. exact Ho.
    + rewrite (fl_state _ _ _ Fl). apply Cm.
    + intros r x' (-> & Mo & Hm & E & Ep'). rewrite E. split; [done|]. split; rewrite ?E, ?Ep'; [done|exact Ep|done|done|done|done|].
      simpl. destruct (fl_staged _ _ _ Fl) as [(_ & -> & _)|[-> _]]; lia.
Qed.

Lemma storage_commit_spec ok k x L objs pend more fl sbd Ld objsd : committing ok k x L objs pend more fl sbd Ld objsd →
  wp (commit blake3 pend) (λ r x', match r with
      | Ok _ => mounted ok k x' L objs (fs_sb x'.2) L objs ∧ parted k x x' L objs more sbd
      | Err _ => ¬ ok
      | Panic => False
      end) x.
Proof.
  intros Cm. pose proof Cm as []. destruct (committing_journal _ _ _ _ _ _ _ _ _ _ _ Cm) as (J0 & Hp0 & Hr0 & Hu0 & Hh0 & Hs0).
  destruct cm_good0 as [I0 Iv0 Hok0]. simpl in I0, Iv0, Hok0. unfold commit.
  apply wp_bind, wp_on_journal. eapply wp_mono; [apply commit_prepare; [done|done|lia]|].
  intros r [c1 j1] (J1 & H1 & F1 & R1). destruct r as [[]|e|]; cbn [ends] in R1; [|intros ?; apply R1; auto|done].
  destruct R1 as [Hp1 St1]. apply wp_bind, wp_stx_modify. apply wp_bind, wp_on_bitmap. unfold mem. simpl.
  assert (tracked (view c1) (fs_bitmap x.2)) as T1.
  { eapply (tracked_frame (view x.1)); [apply Iv0| |done]. intros i Hi. apply F1. rewrite cm_start0. unfold in_ring. lia. }
  eapply wp_mono; [apply (sync_spec (check := sum_ok) c1 (fs_bitmap x.2)); [apply J1|done|done]|].
  intros r [c2 bm2] (I2 & H2 & Iv2 & T2 & (db & Edb) & F2 & R2). simpl. destruct r as [[]|e|]; cbn [ends] in R2; [|intros ?; apply R2; auto|done].
  apply wp_bind, wp_stx_store. eapply wp_mono; [by apply cache_flush_spec|]. intros r c3 (I3 & V3 & H3 & _ & R3).
  destruct r as [[]|e|]; cbn [ends] in R3; [|intros ?; apply R3; auto|done].
  apply wp_bind, wp_stx_store. simpl. unfold from_blk. pose proof (dev_flush_spec c3 I3) as Hd. unfold wp in Hd |- *.
  destruct (dev_flush c3) as [r c4]. destruct Hd as (I4 & V4 & H4 & _ & R4).
  destruct r as [[]|e|]; cbn [served] in R4; [|intros ?; apply R4; auto|done].
  assert (∀ b, view c4 b = view c2 b) as V by (intros b; by rewrite (V4 b), (V3 b)).
  apply (commit_after ok k x _ L objs pend more fl sbd Ld objsd Cm). split; simpl; try done.
  - auto 10.
  - eapply journal_inv_frame; [exact J1|done|]. intros b Hb. rewrite V. apply F2. unfold BitmapSpec.in_area. rewrite cm_start0. unfold in_ring in Hb. lia.
  - eapply staged_or_idle_frame; [exact St1|].
    intros b Hb. rewrite V. apply F2. unfold BitmapSpec.in_area. rewrite cm_start0. unfold in_ring in Hb. lia.
  - by exists db.
  - eapply tracked_same; [|exact T2]. intros b. apply V.
  - intros i Hi. rewrite V, <- cm_start0. apply R2. by rewrite cm_count0.
  - intros b Hb Hm. rewrite V, F2, F1; [done|done|]. unfold BitmapSpec.in_area. by rewrite cm_start0, cm_count0.
Qed.

(** ** [commit_root] *)

(** The state [commit] gets. *)
Definition commit_state (x : Sx) root : Sx :=
  let g := u64 (fs_generation x.2 + 1) in
  (x.1, mkState (with_free (Bitmap.free_count (fs_bitmap x.2)) (with_generation g (with_root_tree root (fs_sb x.2))))
    (fs_bitmap x.2) (record_all (singles (fs_pending x.2)) (fs_journal x.2)) g []).

Lemma mounted_committing ok k x L objs sbd Ld objsd root : mounted ok k x L objs sbd Ld objsd →
  journal_seq sbd + 1 < 2 ^ 64 → generation sbd + 1 < 2 ^ 64 →
  (fs_pending x.2 = [] → ∀ b, b ∈ footprint L [] → ¬ covers (replays x.1 sbd) b) → length root = 32%nat →
  committing ok k (commit_state x root) L objs (fs_pending x.2) [] (singles (fs_pending x.2)) sbd Ld objsd.
Proof.
  intros [S D K T [Hs1 Hs2] [Hc1 Hc2] Hda Hto [Hm Hv] Hg Hj Hr] Hseq Hgen Hid Hl. pose proof S as [G H Hd Ht Wf].
  destruct (du_image _ _ _ _ _ D) as (bm & Im & _). assert (0 ≤ generation sbd) as Hg0 by apply (rg_gen _ _ _ (du_ring _ _ _ _ _ D)).
  assert (u64 (fs_generation x.2 + 1) = generation sbd + 1) as Eg by (rewrite Hg; apply wrap_small; split; [lia|exact Hgen]).
  unfold commit_state. rewrite Eg. split; try done; simpl; try congruence.
  - by rewrite app_nil_r.
  - rewrite Hs1. apply Im.
  - split; [|done]. apply with_free_wf; [|exact (free_count_fits _ _ _ G)].
    apply with_generation_wf; [|unfold fits; lia]. by apply with_root_tree_wf.
  - apply Forall_fmap, Forall_true. simpl. lia.
  - intros b Hb. rewrite app_nil_r. by apply covers_singles.
  - intros E. apply Hid. by destruct (fs_pending x.2).
Qed.

Lemma with_root_tree_same sb : with_root_tree (root_tree_hash sb) sb = sb.
Proof. by destruct sb. Qed.

Lemma commit_root_locked_spec ok k x L objs sbd Ld objsd root : mounted ok k x L objs sbd Ld objsd →
  length root = 32%nat → journal_seq sbd + 1 < 2 ^ 64 → generation sbd + 1 < 2 ^ 64 →
  (fs_pending x.2 = [] → ∀ b, b ∈ footprint L [] → ¬ covers (replays x.1 sbd) b) →
  wp (commit_root_locked blake3 root) (λ r x', match r with
    | Ok true => mounted ok k x' L objs (fs_sb x'.2) L objs ∧ fs_pending x'.2 = [] ∧ root_tree_hash (fs_sb x'.2) = root ∧
        total_blocks (fs_sb x'.2) = total_blocks (fs_sb x.2)
    | Ok false => x' = x ∧ root_tree_hash (fs_sb x.2) = root ∧ fs_pending x.2 = []
    | Err _ => ¬ ok
    | Panic => False
    end) x.
Proof.
  intros Mo Hl Hseq Hgen Hid. pose proof (mounted_committing _ _ _ _ _ _ _ _ _ Mo Hseq Hgen Hid Hl) as Cm.
  unfold commit_root_locked. apply wp_bind, wp_stx_gets, wp_bind, wp_stx_gets. apply wp_bind, wp_stx_modify.
  destruct (negb _ && _) eqn:Eb.
  { apply andb_true_iff in Eb as [E1%negb_true_iff E2%bool_decide_eq_true]. apply negb_false_iff, bool_decide_eq_true in E1.
    apply wp_ret. split; [|done]. destruct x as [c s]. destruct s. simpl in *. by rewrite E2. }
  apply wp_bind. apply (wp_mono _ (λ r x1, r = Ok tt ∧ x1 = (x.1, set_sb (with_root_tree root (fs_sb x.2)) (set_pending [] x.2)))).
  { case_bool_decide as E; simpl negb; cbn iota; [apply wp_ret|by apply wp_stx_modify]. split; [done|]. rewrite <- E, with_root_tree_same. done. }
  intros r x1 [-> ->]. apply wp_bind. unfold next_generation. apply wp_stx_modify, wp_bind, wp_stx_modify, wp_bind.
  eapply wp_mono; [apply (storage_commit_spec ok k _ _ _ _ _ _ _ _ _ Cm)|]. intros r x2 H2. destruct r as [[]|e|]; [|done|done]. apply wp_ret.
  destruct H2 as [Mo2 []]. done.
Qed.

End commit.
