(* ===== verification/StorageRemove.v ===== *)
(** * Removing objects

    [unlink] takes an entry out of the index and leaves its blocks to the commit that
    ends the batch; only then are they free.  [unlinking]: a mounted store with blocks
    [gone] out of the index, recorded for the journal in [fl]. *)

From S2P Require Import Prelude Bytes Format BlockStore BlockDev DirectIo Bitmap BitmapSpec BtreeNode Btree BtreeNodeSpec BtreeIo BtreeRep BtreeSpec BtreeMap Journal Superblock Chain Aead Storage StorageFrame StorageObject StorageSpec StorageCommit.

Section remove.
Context (blake3 : list byte → list byte).
Hypothesis blake3_len : ∀ bs, length (blake3 bs) = 32%nat.
Context {HCr : Crates} {HCrOk : CratesOk}.
Context {C : Type} `{!BlockStore C} `{!BlockStoreOk C (verify_node_checksum blake3)}.
Context `{!BlockFua C} `{!BlockFuaOk C (verify_node_checksum blake3)}.
Context `{!DirectIo C} `{!DirectIoOk C (verify_node_checksum blake3)}.
Context (ok : Prop) (fuel : nat).
Notation sum_ok := (verify_node_checksum blake3).
Notation view := (view (check := sum_ok)).
Notation holds := (holds blake3).
Notation mounted := (mounted blake3 ok).
Notation replays := (replays blake3).
Notation good := (good blake3 ok).
Notation ext := (ext blake3 ok).
Notation tree := (tree blake3).
Notation keyed := (keyed blake3).
Notation Sx := (C * State)%type.
Implicit Types (x : Sx) (st : C * Bitmap.t) (objs : gmap (list byte) (list byte)).

#[local] Opaque scan StorageCommit.replays.

(** ** The index *)
Definition without (a : list byte) (L : layout) h' bs' : layout := Layout h' (delete a (l_index L)) bs' (delete a (l_blocks L)).

Lemma footprint_delete L a bl h' bs' al frees wait : l_blocks L !! a = Some bl → swapped al frees (l_nodes L) bs' →
  footprint (without a L h' bs') (wait ++ frees ++ bl) ≡ₚ al ++ footprint L wait.
Proof.
  intros Ha (keep & E1 & E2). unfold footprint. simpl. rewrite <- (insert_delete_id _ _ _ Ha) at 2.
  rewrite map_to_list_insert by apply lookup_delete_eq. simpl. rewrite E1, E2. solve_Permutation.
Qed.

(** Without the entry, its blocks and the nodes replaced wait. *)
Lemma holds_delete k L st st' root root' wait objs a bl al al' h' bs' frees : good st → ext al st st' → (∀ b, b ∈ al' → b ∈ al) → NoDup al' →
  holds k L st root wait objs → l_blocks L !! a = Some bl → tree st' root' h' (delete a (l_index L)) bs' →
  swapped al' frees (l_nodes L) bs' →
  holds k (without a L h' bs') st' root' (wait ++ frees ++ bl) (delete a objs).
Proof.
  intros G X Hal Hn Hol Ha T Hsw. pose proof Hol as [_ O N Ow]. pose proof (footprint_delete L a bl h' bs' al' frees wait Ha Hsw) as Hfp.
  rewrite Forall_forall in Ow. pose proof (proj1 (Forall_forall _ _) (x_fresh _ _ _ _ _ X)) as Hfr. split.
  - exact T.
  - intros a'. unfold kept_at. simpl. destruct (decide (a' = a)) as [->|Hne]; [by rewrite !lookup_delete_eq|].
    rewrite !lookup_delete_ne by done. specialize (O a'). unfold kept_at in O.
    destruct (l_index L !! a') as [e0|], (objs !! a') as [p0|], (l_blocks L !! a') as [bl0|] eqn:Ebl; try done.
    eapply (object_keeps _ _ _ bl0); [by eapply spared_keeps, ext_spared| |exact O].
    intros b Hin. split; [done|]. by eapply Ow, footprint_blocks.
  - rewrite Hfp. apply NoDup_app. split; [done|]. split; [|done]. intros b Hb Hb'. destruct (Hfr b (Hal b Hb)) as [_ Hu].
    destruct (Ow b Hb'). congruence.
  - rewrite Hfp. apply Forall_forall. intros b [Hb|Hb]%elem_of_app; [by eapply ext_new, Hal|].
    by destruct (ext_owned blake3 ok _ _ _ b G X (Ow b Hb)).
Qed.

Lemma tree_zero st h mm bs : good st → tree st 0 h mm bs → bs = [].
Proof.
  intros G [(_ & _ & _ & ->)|(m & R & _ & _ & Ho)]; [done|]. pose proof (rep_nonzero _ _ _ _ _ _ _ _ _ G R Ho) as E. done.
Qed.

(** In a tree of at most two levels only the root is internal. *)
Lemma kids_leaves f lo hi kcs r m bs b : kids (rep blake3 f 0) lo hi kcs r m bs → b ∈ bs → ∃ es, leaf_is (f b) es.
Proof.
  revert lo m bs. induction kcs as [|[k c] kcs IH]; intros lo m bs Hk Hb.
  - destruct Hk as (clo & m1 & b1 & m2 & b2 & Hl & (_ & Hf & _ & _ & ->) & -> & ->). inversion Hl; subst.
    apply list_elem_of_singleton in Hb as ->. eauto.
  - apply kids_cons in Hk as (m1 & b1 & m2 & b2 & _ & _ & (_ & Hf & _ & _ & ->) & Hk & -> & ->).
    apply elem_of_app in Hb as [->%list_elem_of_singleton|Hb]; [eauto|]. by eapply IH.
Qed.

Lemma keyed_low st root h mm bs : tree st root h mm bs → (h ≤ 1)%nat → keyed st root bs.
Proof.
  intros [(_ & _ & _ & ->)|(m & R & _ & _ & _)] Hh p r Hp Hne Hi; [by apply not_elem_of_nil in Hp|].
  destruct h as [|h]; simpl in R; [destruct R as (_ & _ & _ & _ & ->); by apply list_elem_of_singleton in Hp|].
  assert (h = 0%nat) as -> by lia. destruct R as (_ & kcs & r' & bs' & _ & Hk & ->). apply elem_of_cons in Hp as [->|Hp]; [done|].
  destruct (kids_leaves _ _ _ _ _ _ _ _ Hk Hp) as [es He]. destruct Hi as [[_ Ht] _]. pose proof (li_type _ _ He) as Hl. by rewrite Ht in Hl.
Qed.

(** ** Taking one entry out *)

(** The state with the journal as the last commit left it. *)
Definition parked x sbd : Sx := (x.1, set_journal (Journal.new (journal_head sbd) (journal_seq sbd)) x.2).

Record unlinking k x L objs (gone : list Z) (fl : list (Z * Z)) sbd Ld objsd : Prop := {
  u_mounted : mounted k (parked x sbd) L objs sbd Ld objsd;
  u_holds : holds k L (mem x) (btree_root (fs_sb x.2)) (fs_pending x.2 ++ gone) objs;
  u_journal : fs_journal x.2 = record_all fl (Journal.new (journal_head sbd) (journal_seq sbd));
  u_counts : Forall (λ r : Z * Z, 0 < r.2) fl;
  u_covers b : covers fl b → b ∈ gone;
}.

Lemma mounted_unlinking k x L objs sbd Ld objsd : mounted k x L objs sbd Ld objsd → unlinking k x L objs [] [] sbd Ld objsd.
Proof.
  intros Mo. pose proof (m_journal _ _ _ _ _ _ _ _ _ Mo) as Hj. assert (parked x sbd = x) as E.
  { unfold parked. rewrite <- Hj. destruct x as [c s]. by destruct s. }
  split; rewrite ?E; [done| |done|constructor|]; [rewrite app_nil_r; apply (m_stores _ _ _ _ _ _ _ _ _ Mo)|].
  intros b (s & n & Hb & _). by apply not_elem_of_nil in Hb.
Qed.

Lemma unlinking_stores k x L objs gone fl sbd Ld objsd : unlinking k x L objs gone fl sbd Ld objsd → stores blake3 ok k L x objs.
Proof. intros U. destruct (m_stores _ _ _ _ _ _ _ _ _ (u_mounted _ _ _ _ _ _ _ _ _ U)). by split. Qed.

(** Whatever spares the blocks in use leaves the batch as it is. *)
Lemma unlinking_spared k x st' L objs gone fl sbd Ld objsd : unlinking k x L objs gone fl sbd Ld objsd → spared blake3 ok (mem x) st' →
  unlinking k (with_mem st' x) L objs gone fl sbd Ld objsd.
Proof.
  intros U Sp. pose proof (unlinking_stores _ _ _ _ _ _ _ _ _ U) as S. pose proof U as [Mo Ho Hj Hp Hc]. split; try done.
  - eapply (mounted_spared _ _ _ (parked x sbd)); [exact Mo|by destruct st'|done|]. destruct (stores_spared _ _ _ _ _ _ _ S Sp). by split.
  - rewrite mem_with. eapply holds_keeps; [exact Ho|]. apply spared_keeps; [apply S|done].
Qed.

Lemma record_all_app l l' j : record_all (l ++ l') j = record_all l' (record_all l j).
Proof. revert j. induction l as [|[b n] l IH]; intros j; simpl; [done|]. apply IH. Qed.

Lemma covers_pairs es b : covers (pairs es) b → b ∈ blocks_of es.
Proof.
  intros (s & n & Hb & Hr). unfold blocks_of, spans. apply list_elem_of_join. exists (seqZ s n). split; [by apply elem_of_seqZ|].
  apply list_elem_of_fmap. by exists (s, n).
Qed.
Lemma covers_app_l l l' b : covers (l ++ l') b ↔ covers l b ∨ covers l' b.
Proof. unfold covers. setoid_rewrite elem_of_app. naive_solver. Qed.

Lemma blocks_of_singles cb : blocks_of ((λ b, mkExtent b 1) <$> cb) = cb.
Proof. induction cb as [|b cb IH]; [done|]. rewrite fmap_cons, blocks_of_cons, IH. done. Qed.

Lemma keyed_spared st st' root bs : good st → spared blake3 ok st st' → Forall (owned st) bs → keyed st root bs → keyed st' root bs.
Proof.
  intros G Sp Ho Hk p r Hp. rewrite Forall_forall in Ho. destruct (spared_owned _ _ _ _ p G Sp (Ho p Hp)) as (_ & -> & _). by apply Hk.
Qed.

(** The extents and chain blocks of an entry, as [unlink] reads them. *)
Lemma unlink_chain_spec e es cb x : good (mem x) → describes (view x.1) e es cb → entry_wf e → NoDup cb → (length cb ≤ fuel)%nat →
  wp (if negb (indirect_block e =? 0) then on_store (read_indirect_chain fuel (indirect_block e)) else mret ([], []))
    (λ r x', ∃ st', x' = with_mem st' x ∧ spared blake3 ok (mem x) st' ∧ match r with
      | Ok (ind, chain) => take (Z.to_nat (Z.min (extent_count e) (Z.of_nat DIRECT_EXTENTS))) (extents e) ++ ind = es ∧ chain = cb
      | Err _ => ¬ ok
      | Panic => False
      end) x.
Proof.
  intros G (more & -> & Hc) Hw Hn Hl. pose proof (spared_refl _ _ _ G) as Sp0.
  destruct (Z.eqb_spec (indirect_block e) 0) as [E|Ne]; simpl negb; cbn iota.
  { rewrite E in Hc. inversion Hc; subst; [|done]. apply wp_ret. exists (mem x). by rewrite with_mem_mem. }
  apply wp_stx_store. unfold read_indirect_chain.
  eapply wp_mono; [apply (chain_walk_spec (check := sum_ok) fuel (indirect_block e) [] [] x.1); [apply G|apply Hw|constructor|constructor|]|].
  { right. by exists more, cb. }
  intros r c' [U R]. exists (c', fs_bitmap x.2). split; [by destruct x as [? []]|]. split; [by apply unchanged_spared|].
  destruct r as [[l bs]|er|]; [| |done].
  - destruct R as (es1 & bs1 & Hc1 & -> & -> & _). by destruct (chain_fun _ _ _ _ _ _ Hc Hc1) as [-> ->].
  - destruct R as [Hh|[_ R]]; [intros Hk; apply Hh; by apply (gd_ok _ _ _ G)|]. by destruct (R more cb Hc).
Qed.

Definition unlinked k x' L objs gone fl sbd Ld objsd (a : list byte) (old : list Z) (freed : list Extent) : Prop :=
  is_Some (objs !! a) ∧ freed ≠ [] ∧ Forall (inside (mem x')) freed ∧ ∃ L', (l_height L' ≤ l_height L)%nat ∧
  unlinking k x' L' (delete a objs) (gone ++ old ++ blocks_of freed) (fl ++ pairs freed ++ singles old) sbd Ld objsd.

(** The index without the entry. *)
Lemma unlink_delete_spec k x L objs gone fl sbd Ld objsd a p es cb e ind : unlinking k x L objs gone fl sbd Ld objsd →
  (l_height L < MAX_TREE_DEPTH)%nat → keyed (mem x) (btree_root (fs_sb x.2)) (l_nodes L) →
  objs !! a = Some p → l_index L !! a = Some e → l_blocks L !! a = Some (blocks_of es ++ cb) → object_at blake3 k (mem x) a e p es cb →
  take (Z.to_nat (Z.min (extent_count e) (Z.of_nat DIRECT_EXTENTS))) (extents e) ++ ind = es →
  wp (root ← gets (λ s, btree_root (fs_sb s));
      '(new_root, old) ← on_bitmap (Btree.delete blake3 root a);
      _ ← modify (λ s, set_sb (with_index new_root (sat_sub (object_count (fs_sb s)) 1) (fs_sb s)) s);
      direct ← of_opt (Bytes.sub (extents e) 0 (Z.min (extent_count e) (Z.of_nat DIRECT_EXTENTS)));
      let freed := direct ++ ind ++ ((λ b, mkExtent b 1) <$> cb) in
      _ ← modify (λ s, set_journal (record_all ((pair_of <$> freed) ++ ((λ b, (b, 1)) <$> old)) (fs_journal s)) s);
      mret (Some (old, freed)))
    (λ r x', match r with
      | Ok (Some (old, freed)) => unlinked k x' L objs gone fl sbd Ld objsd a old freed
      | Ok None => False
      | Err er => unlinking k x' L objs gone fl sbd Ld objsd ∧ (¬ ok ∨ er = DiskFull)
      | Panic => False
      end) x.
Proof.
  intros U Hh Hk Hp Hi Hb Ho Hes. pose proof (unlinking_stores _ _ _ _ _ _ _ _ _ U) as S. pose proof (s_good _ _ _ _ _ _ S) as G.
  apply wp_bind, wp_stx_gets, wp_bind, wp_on_bitmap.
  eapply wp_mono; [apply (tree_delete blake3 blake3_len ok (mem x) _ _ _ _ a G (s_tree _ _ _ _ _ _ S) Hh Hk)|].
  intros r st' (al & X & R). pose proof (ext_spared _ _ _ _ _ X) as Sp. destruct r as [[root' old]|er|]; [| |done].
  2:{ destruct R as [R|[_ R]]; [|by rewrite Hi in R]. split; [by apply (unlinking_spared _ _ st')|]. destruct R as [?|[? _]]; auto. }
  destruct R as (_ & h' & bs' & Hh' & T & Hsw). apply wp_bind, wp_stx_modify, wp_bind. pose proof (o_wf _ _ _ _ _ _ _ _ Ho) as Hw. pose proof (ew_count _ Hw) as [Hec _].
  eapply wp_of_opt; [apply sub_Some; unfold zlen; rewrite ?(ew_len _ Hw); lia|]. unfold raw_sub. rewrite drop_0, app_assoc, Hes.
  set (freed := es ++ _). apply wp_bind, wp_stx_modify, wp_ret.
  assert (∃ al', (∀ b, b ∈ al' → b ∈ al) ∧ NoDup al' ∧ swapped al' old (l_nodes L) bs') as (al' & Hal & Hnd & Hsw').
  { destruct Hsw as [[-> E]|Hsw]; [|exists al; split_and!; [done|apply X|done]]. exists []. split_and!; [by intros b ?%not_elem_of_nil|constructor|].
    rewrite (tree_zero _ _ _ _ (x_good _ _ _ _ _ X) T). exists []. by rewrite app_nil_r, E. }
  pose proof (holds_delete k L (mem x) st' _ root' _ objs a _ al al' h' bs' old G X Hal Hnd (u_holds _ _ _ _ _ _ _ _ _ U) Hb T Hsw') as H.
  assert (blocks_of freed = blocks_of es ++ cb) as Ef by (unfold freed; by rewrite blocks_of_app, blocks_of_singles).
  rewrite <- Ef, <- app_assoc in H.
  assert (Forall (inside (mem x)) freed) as Hin.
  { apply Forall_app. split; [apply Ho|]. apply Forall_fmap, Forall_forall. intros b Hcb.
    destruct (proj1 (Forall_forall _ _) (s_owned _ _ _ _ _ _ S) b) as [[? ?] _].
    { eapply footprint_blocks; [exact Hb|]. apply elem_of_app. by right. }
    unfold inside. simpl in *. lia. }
  split; [by eexists|]. split; [|split].
  { pose proof (o_takes _ _ _ _ _ _ _ _ Ho) as [_ Ht]. pose proof (o_disk _ _ _ _ _ _ _ _ Ho). pose proof (zlen_nonneg p).
    intros E. unfold freed in E. apply app_eq_nil in E as [-> _]. change (zlen (blocks_of [])) with 0 in Ht. lia. }
  { eapply Forall_impl; [exact Hin|]. intros y. apply inside_geo, (x_geo _ _ _ _ _ X). }
  exists (without a L h' bs'). split; [exact Hh'|]. pose proof U as [Mo _ Hj Hc Hcov].
  assert (fits 64 root') as Hr by (eapply tree_root_fits; [apply (x_good _ _ _ _ _ X)|exact T]).
  split.
  - eapply (mounted_spared _ _ _ (parked x sbd)); [exact Mo|by destruct st'|done|]. split; simpl.
    + destruct st'. apply X.
    + destruct st'. by eapply holds_forget.
    + rewrite (s_data _ _ _ _ _ _ S). symmetry. apply (e_data _ _ (x_geo _ _ _ _ _ X)).
    + rewrite (s_total _ _ _ _ _ _ S). symmetry. apply (e_total _ _ (x_geo _ _ _ _ _ X)).
    + apply with_index_wf; [apply S|done|]. pose proof (sw_u64 _ (s_wf _ _ _ _ _ _ S)) as H64. rewrite !Forall_cons in H64.
      unfold sat_sub, fits in *. lia.
  - destruct st'. exact H.
  - change (record_all (pairs freed ++ singles old) (fs_journal x.2) = record_all (fl ++ pairs freed ++ singles old) (Journal.new (journal_head sbd) (journal_seq sbd))).
    by rewrite Hj, <- record_all_app.
  - rewrite !Forall_app. split; [done|]. split; [|apply Forall_fmap, Forall_true; simpl; lia].
    apply Forall_fmap. eapply Forall_impl; [exact Hin|]. by intros y (? & _).
  - intros b. rewrite !covers_app_l, !elem_of_app. intros [Hb'|[Hb'|Hb']]; [auto|right; right; by apply covers_pairs|right; left; by apply covers_singles].
Qed.

Lemma unlink_object_spec k x L objs gone fl sbd Ld objsd a : unlinking k x L objs gone fl sbd Ld objsd →
  (l_height L ≤ 1)%nat → total_blocks (fs_sb x.2) ≤ Z.of_nat fuel →
  wp (unlink blake3 fuel a) (λ r x', match r with
    | Ok None => objs !! a = None ∧ unlinking k x' L objs gone fl sbd Ld objsd
    | Ok (Some (old, freed)) => unlinked k x' L objs gone fl sbd Ld objsd a old freed
    | Err er => unlinking k x' L objs gone fl sbd Ld objsd ∧ (¬ ok ∨ er = DiskFull)
    | Panic => False
    end) x.
Proof.
  intros U Hh Hf. assert (l_height L < MAX_TREE_DEPTH)%nat as Hd by (unfold MAX_TREE_DEPTH; lia).
  pose proof (unlinking_stores _ _ _ _ _ _ _ _ _ U) as S. unfold unlink. apply wp_bind.
  eapply wp_mono; [by apply (lookup_spec blake3 ok k L x objs a)|]. intros r x1 (st1 & -> & Sp1 & R1).
  pose proof (unlinking_spared _ _ _ _ _ _ _ _ _ _ U Sp1) as U1. clear U. destruct r as [o|e|]; [|by auto|done]. subst o.
  assert (total_blocks (fs_sb (with_mem st1 x).2) ≤ Z.of_nat fuel) as Hf1 by done. clear Hf. set (x1 := with_mem st1 x) in *. clearbody x1. clear x Sp1 S.
  pose proof (unlinking_stores _ _ _ _ _ _ _ _ _ U1) as S1. pose proof (s_objects _ _ _ _ _ _ S1 a) as Ho. unfold kept_at in Ho.
  destruct (l_index L !! a) as [e|] eqn:Ei, (objs !! a) as [p|] eqn:Ep, (l_blocks L !! a) as [bl|] eqn:Eb; try done.
  destruct Ho as (es & cb & -> & Ho). pose proof (s_good _ _ _ _ _ _ S1) as G1.
  destruct (checked_extents blake3 ok k L x1 objs a es cb _ S1 Eb eq_refl (o_inside _ _ _ _ _ _ _ _ Ho)) as (_ & _ & Hn & Hl).
  apply wp_bind. eapply wp_mono; [apply (unlink_chain_spec e es cb x1 G1 (o_describes _ _ _ _ _ _ _ _ Ho) (o_wf _ _ _ _ _ _ _ _ Ho) Hn)|].
  { rewrite (s_total _ _ _ _ _ _ S1) in Hf1. unfold zlen in Hl. lia. }
  intros r x2 (st2 & -> & Sp2 & R2). pose proof (unlinking_spared _ _ _ _ _ _ _ _ _ _ U1 Sp2) as U2.
  destruct r as [[ind chain]|er|]; [|by auto|done]. destruct R2 as [Hes ->].
  pose proof (unlinking_stores _ _ _ _ _ _ _ _ _ U2) as S2.
  assert (object_at blake3 k (mem (with_mem st2 x1)) a e p es cb) as Ho2.
  { rewrite mem_with. eapply object_at_keeps; [by apply (spared_keeps _ _ (blocks_of es ++ cb) _ _ G1 Sp2)| |exact Ho]. intros b Hb. split; [done|].
    by eapply (proj1 (Forall_forall _ _) (s_owned _ _ _ _ _ _ S1)), footprint_blocks. }
  pose proof (unlink_delete_spec k _ L objs gone fl sbd Ld objsd a p es cb e ind U2 Hd (keyed_low _ _ _ _ _ (s_tree _ _ _ _ _ _ S2) Hh) Ep Ei Eb Ho2 Hes) as H.
  eapply wp_mono; [exact H|]. by intros [[[old freed]|]|er|] x' R.
Qed.

(** ** A batch *)

(** What a batch has unlinked: nodes [old] and extents [freed]. *)
Record batch k x L objs (old : list Z) (freed : list Extent) fl sbd Ld objsd : Prop := {
  ba_unlinking : unlinking k x L objs (old ++ blocks_of freed) fl sbd Ld objsd;
  ba_inside : Forall (inside (mem x)) freed;
  ba_some : fl = [] → old = [] ∧ freed = [];
}.

(** Of [objs], the addresses [pre] are gone but for [f] that failed; [n] objects went. *)
Record swept objs objs' (pre : list (list byte)) (n f : Z) : Prop := {
  sw_other a : a ∉ pre → objs' !! a = objs !! a;
  sw_sub : objs' ⊆ objs;
  sw_gone : f = 0 → ∀ a, a ∈ pre → objs' !! a = None;
  sw_size : Z.of_nat (size objs) = Z.of_nat (size objs') + n;
  sw_failed : 0 ≤ f;
}.

Lemma swept_refl objs : swept objs objs [] 0 0.
Proof. split; [done|done| |lia|lia]. intros _ a Ha. by apply not_elem_of_nil in Ha. Qed.

Lemma swept_trans objs1 objs2 objs3 pre1 pre2 n1 n2 f1 f2 : swept objs1 objs2 pre1 n1 f1 → swept objs2 objs3 pre2 n2 f2 →
  swept objs1 objs3 (pre1 ++ pre2) (n1 + n2) (f1 + f2).
Proof.
  intros [O1 S1 G1 Z1 F1] [O2 S2 G2 Z2 F2]. split; [| | |lia|lia].
  - intros a Ha. rewrite elem_of_app in Ha. rewrite O2, O1 by tauto. done.
  - by etrans.
  - intros Hf a [Ha|Ha]%elem_of_app; [|apply G2; [lia|done]]. destruct (objs3 !! a) eqn:E; [|done].
    apply (lookup_weaken _ _ _ _ E) in S2. rewrite (G1 ltac:(lia) a Ha) in S2. done.
Qed.

Lemma swept_delete objs a : is_Some (objs !! a) → swept objs (delete a objs) [a] 1 0.
Proof.
  intros Ha. split; [| | | |lia].
  - intros b Hb. apply lookup_delete_ne. intros ->. apply Hb. by apply elem_of_cons; left.
  - apply delete_subseteq.
  - intros _ b ->%list_elem_of_singleton. apply lookup_delete_eq.
  - destruct Ha as [p Hp]. rewrite <- (insert_delete_id objs a p Hp) at 1. rewrite map_size_insert_None by apply lookup_delete_eq. lia.
Qed.
Lemma swept_absent objs a : objs !! a = None → swept objs objs [a] 0 0.
Proof. intros Ha. split; [done|done| |lia|lia]. by intros _ b ->%list_elem_of_singleton. Qed.
Lemma swept_failed objs a : swept objs objs [a] 0 1.
Proof. split; [done|done|lia|lia|lia]. Qed.

Lemma unlinking_perm k x L objs gone gone' fl sbd Ld objsd : unlinking k x L objs gone fl sbd Ld objsd → gone ≡ₚ gone' →
  unlinking k x L objs gone' fl sbd Ld objsd.
Proof.
  intros [Mo Ho Hj Hc Hcov] Hp. split; try done.
  - eapply holds_perm; [exact Ho|]. by rewrite Hp.
  - intros b Hb. rewrite <- Hp. by apply Hcov.
Qed.

Lemma unlinking_geo k x L objs gone fl sbd Ld objsd : unlinking k x L objs gone fl sbd Ld objsd →
  Bitmap.data_start (fs_bitmap x.2) = data_start sbd ∧ Bitmap.total_blocks (fs_bitmap x.2) = total_blocks sbd ∧ total_blocks (fs_sb x.2) = total_blocks sbd.
Proof.
  intros [Mo _ _ _ _]. pose proof (m_stores _ _ _ _ _ _ _ _ _ Mo) as S. pose proof (m_data _ _ _ _ _ _ _ _ _ Mo) as Ed.
  pose proof (m_total _ _ _ _ _ _ _ _ _ Mo) as Et. rewrite <- Ed, <- Et, (s_data _ _ _ _ _ _ S), (s_total _ _ _ _ _ _ S).
  split_and!; [done|done|]. rewrite <- (s_total _ _ _ _ _ _ S). done.
Qed.

Lemma unlinking_inside k x x' L objs L' objs' gone gone' fl fl' sbd Ld objsd es : unlinking k x L objs gone fl sbd Ld objsd →
  unlinking k x' L' objs' gone' fl' sbd Ld objsd → Forall (inside (mem x)) es → Forall (inside (mem x')) es.
Proof.
  intros (E1 & E2 & _)%unlinking_geo (E3 & E4 & _)%unlinking_geo Hin. eapply Forall_impl; [exact Hin|]. unfold inside. simpl.
  intros e. by rewrite E1, E2, E3, E4.
Qed.

Lemma batch_grows k x x' L objs old freed fl sbd Ld objsd a o f : batch k x L objs old freed fl sbd Ld objsd →
  unlinked k x' L objs (old ++ blocks_of freed) fl sbd Ld objsd a o f →
  ∃ L' fl', (l_height L' ≤ l_height L)%nat ∧ batch k x' L' (delete a objs) (old ++ o) (freed ++ f) fl' sbd Ld objsd.
Proof.
  intros [U Hin _] (Ha & Hf & Hin' & L' & Hh & U'). exists L', (fl ++ pairs f ++ singles o). split; [done|]. split.
  - eapply unlinking_perm; [exact U'|]. rewrite blocks_of_app. solve_Permutation.
  - apply Forall_app. split; [|done]. exact (unlinking_inside _ _ _ _ _ _ _ _ _ _ _ _ _ _ _ U U' Hin).
  - destruct f; [done|]. intros E. by apply app_eq_nil in E as [_ E].
Qed.

Lemma batch_same k x x' L objs old freed fl sbd Ld objsd : batch k x L objs old freed fl sbd Ld objsd →
  unlinking k x' L objs (old ++ blocks_of freed) fl sbd Ld objsd → batch k x' L objs old freed fl sbd Ld objsd.
Proof. intros [U Hin Hs] U'. split; [done| |done]. exact (unlinking_inside _ _ _ _ _ _ _ _ _ _ _ _ _ _ _ U U' Hin). Qed.

Lemma remove_batch_spec hashes k x L objs old freed fl sbd Ld objsd removed failed : batch k x L objs old freed fl sbd Ld objsd →
  (l_height L ≤ 1)%nat → total_blocks sbd ≤ Z.of_nat fuel →
  wp (remove_batch blake3 fuel hashes removed failed old freed) (λ r x', match r with
    | Ok (rest, removed', failed', old', freed', more) => ∃ pre L' objs' fl', hashes = pre ++ rest ∧
        (if more : bool then pre ≠ [] else rest = []) ∧ (l_height L' ≤ l_height L)%nat ∧
        batch k x' L' objs' old' freed' fl' sbd Ld objsd ∧ swept objs objs' pre (removed' - removed) (failed' - failed) ∧
        (freed' = [] → freed = [] ∧ objs' = objs)
    | _ => False
    end) x.
Proof.
  revert x L objs old freed fl removed failed. induction hashes as [|h hashes IH]; intros x L objs old freed fl removed failed Ba Hh Hf; cbn [remove_batch].
  { apply wp_ret. exists [], L, objs, fl. rewrite !Z.sub_diag. split_and!; [done|done|done|done|apply swept_refl|done]. }
  apply wp_bind, wp_attempt. destruct (unlinking_geo _ _ _ _ _ _ _ _ _ (ba_unlinking _ _ _ _ _ _ _ _ _ _ Ba)) as (_ & _ & Et).
  eapply wp_mono; [apply (unlink_object_spec k x L objs _ fl sbd Ld objsd h (ba_unlinking _ _ _ _ _ _ _ _ _ _ Ba) Hh); lia|].
  intros r x1 R1.
  assert (∀ rm fd o f L1 objs1 fl1 dr df, (l_height L1 ≤ l_height L)%nat → batch k x1 L1 objs1 o f fl1 sbd Ld objsd →
      swept objs objs1 [h] dr df → (f = [] → freed = [] ∧ objs1 = objs) → rm = removed + dr → fd = failed + df →
      wp (n ← gets (λ s, pending (fs_journal s)); if REMOVE_BATCH_FREES <=? n then mret (hashes, rm, fd, o, f, true)
          else remove_batch blake3 fuel hashes rm fd o f) (λ r x', match r with
        | Ok (rest, removed', failed', old', freed', more) => ∃ pre L' objs' fl', h :: hashes = pre ++ rest ∧
            (if more : bool then pre ≠ [] else rest = []) ∧ (l_height L' ≤ l_height L)%nat ∧
            batch k x' L' objs' old' freed' fl' sbd Ld objsd ∧ swept objs objs' pre (removed' - removed) (failed' - failed) ∧
        (freed' = [] → freed = [] ∧ objs' = objs)
        | _ => False
        end) x1) as Hgo.
  { intros rm fd o f L1 objs1 fl1 dr df Hh1 Ba1 Sw Hfr -> ->. apply wp_bind, wp_stx_gets. destruct (_ <=? _).
    - apply wp_ret. exists [h], L1, objs1, fl1. replace (removed + dr - removed) with dr by lia. replace (failed + df - failed) with df by lia.
      by split_and!.
    - eapply wp_mono; [apply (IH x1 L1 objs1 o f fl1 _ _ Ba1); [lia|done]|].
      intros [[[[[[rest rm] fd] o'] f'] more]|e|] x2 R2; [|done|done]. destruct R2 as (pre & L2 & objs2 & fl2 & -> & Hm & Hh2 & Ba2 & Sw2 & Hfr2).
      exists (h :: pre), L2, objs2, fl2. split; [done|]. split; [by destruct more|]. split; [lia|]. split; [done|]. split; [|intros E; destruct (Hfr2 E) as [E2 ->]; by apply Hfr].
      pose proof (swept_trans _ _ _ _ _ _ _ _ _ Sw Sw2) as Sw'. by replace (rm - removed) with (dr + (rm - (removed + dr))) by lia; replace (fd - failed) with (df + (fd - (failed + df))) by lia. }
  destruct r as [[[o f]|]|e|]; [| | |done].
  - pose proof R1 as (Ha & _). destruct (batch_grows _ _ _ _ _ _ _ _ _ _ _ _ _ _ Ba R1) as (L1 & fl1 & Hh1 & Ba1).
    eapply Hgo; [exact Hh1|exact Ba1|by apply swept_delete| |lia|lia].
    intros E. apply app_eq_nil in E as [_ E]. by destruct R1 as (_ & ? & _).
  - destruct R1 as [Ha U1]. eapply Hgo; [done|by eapply batch_same|by apply swept_absent|done|lia|lia].
  - destruct R1 as [U1 _]. eapply Hgo; [done|by eapply batch_same|by apply swept_failed|done|lia|lia].
Qed.

(** ** The commit of a batch *)
Definition numbered (sbd sbd' : SuperblockRaw) (n : Z) : Prop :=
  total_blocks sbd' = total_blocks sbd ∧ generation sbd' ≤ generation sbd + n ∧ journal_seq sbd' ≤ journal_seq sbd + n.

Lemma batch_committing k x L objs old freed fl sbd Ld objsd : batch k x L objs old freed fl sbd Ld objsd → fl ≠ [] →
  journal_seq sbd + 1 < 2 ^ 64 → generation sbd + 1 < 2 ^ 64 →
  let g := u64 (fs_generation x.2 + 1) in
  let x1 := (x.1, set_sb (with_free (Bitmap.free_count (fs_bitmap x.2)) (with_generation g (fs_sb x.2))) (set_generation g x.2)) in
  committing blake3 ok k x1 L objs old (blocks_of freed) fl sbd Ld objsd ∧ generation (fs_sb x1.2) = generation sbd + 1.
Proof.
  intros [U Hin Hs] Hfl Hseq Hgen g x1. pose proof U as [Mo Ho Hj Hc Hcov].
  destruct Mo as [S D K T [Hs1 Hs2] [Hc1 Hc2] Hda Hto [Hm Hv] Hg _ Hr]. pose proof S as [G _ Hd Ht Wf]. simpl in *.
  destruct (du_image _ _ _ _ _ _ D) as (bm & Im & _). assert (0 ≤ generation sbd) as Hg0 by apply (rg_gen _ _ _ (du_ring _ _ _ _ _ _ D)).
  assert (g = generation sbd + 1) as Eg by (unfold g; rewrite Hg; apply wrap_small; split; [lia|exact Hgen]).
  split; [|exact Eg]. unfold x1. rewrite Eg. split; try done; simpl; try congruence.
  - rewrite Hs1. apply Im.
  - split; [|done]. apply with_free_wf; [|exact (free_count_fits _ _ _ G)]. apply with_generation_wf; [done|unfold fits; lia].
Qed.

Lemma commit_removals_spec k x L objs old freed fl sbd Ld objsd : batch k x L objs old freed fl sbd Ld objsd →
  journal_seq sbd + 1 < 2 ^ 64 → generation sbd + 1 < 2 ^ 64 →
  wp (commit_removals blake3 old freed) (λ r x', match r with
    | Ok _ => freed = [] ∧ mounted k x' L objs sbd Ld objsd ∨ ∃ sbd', mounted k x' L objs sbd' L objs ∧ numbered sbd sbd' 1
    | Err _ => ¬ ok
    | Panic => False
    end) x.
Proof.
  intros Ba Hseq Hgen. pose proof Ba as [U Hin Hs]. unfold commit_removals. destruct (_ && _) eqn:E.
  { apply andb_true_iff in E as [->%bool_decide_eq_true ->%bool_decide_eq_true]. apply wp_ret. left. split; [done|].
    assert (fl = []) as ->.
    { destruct fl as [|[b n] fl]; [done|]. pose proof (u_counts _ _ _ _ _ _ _ _ _ U) as Hc. apply Forall_cons in Hc as [Hn _].
      assert (b ∈ ([] : list Z)) as Hb; [|by apply not_elem_of_nil in Hb]. apply (u_covers _ _ _ _ _ _ _ _ _ U). exists b, n.
      split; [apply elem_of_cons; by left|]. simpl in Hn. lia. }
    destruct U as [Mo _ Hj _ _]. simpl in Hj. unfold parked in Mo. rewrite <- Hj in Mo. destruct x as [c []]. exact Mo. }
  assert (fl ≠ []) as Hfl.
  { intros ->. destruct (Hs eq_refl) as [-> ->]. done. }
  destruct (batch_committing _ _ _ _ _ _ _ _ _ _ Ba Hfl Hseq Hgen) as [Cm Eg].
  apply wp_bind. unfold next_generation. apply wp_stx_modify, wp_bind. eapply wp_mono; [apply (storage_commit_spec blake3 blake3_len ok k _ _ _ _ _ _ _ _ _ Cm)|].
  intros r x1 R. destruct r as [[]|e|]; [|done|done]. destruct R as [Mo [Hp Ep _ Et Ed Eg1 Es]].
  pose proof (m_stores _ _ _ _ _ _ _ _ _ Mo) as S1. pose proof (s_good _ _ _ _ _ _ S1) as G1. apply wp_on_bitmap.
  destruct (unlinking_geo _ _ _ _ _ _ _ _ _ U) as (E1 & E2 & E3). pose proof (s_data _ _ _ _ _ _ S1) as F1. pose proof (s_total _ _ _ _ _ _ S1) as F2.
  pose proof (s_data _ _ _ _ _ _ (unlinking_stores _ _ _ _ _ _ _ _ _ U)) as F3.
  assert (Forall (inside (mem x1)) freed) as Hin1.
  { eapply Forall_impl; [exact Hin|]. unfold inside. simpl. intros e. rewrite <- F1, <- F2, Ed, Et. simpl. rewrite F3, E1, E2, E3. done. }
  eapply wp_mono; [by apply (free_extents_spec blake3 ok)|]. intros r st' (-> & Tc & _). right. exists (fs_sb x1.2).
  assert (∀ l, (∀ b, b ∈ footprint L l → b ∈ footprint L (fs_pending x1.2)) → keeps blake3 ok (footprint L l) (mem x1) st') as Kp.
  { intros l Hl. eapply touched_keeps; [exact G1|exact Tc|]. intros b Hb. by apply (footprint_waiting L (fs_pending x1.2)); [apply Hp|apply Hl]. }
  split.
  - eapply mounted_keeps; [exact Mo| | |done|].
    + destruct st'. apply Kp. intros b Hb. by apply (footprint_waiting L [] (fs_pending x1.2)); [apply (s_nodup _ _ _ _ _ _ S1)|].
    + intros b Hb. cut (b ∉ blocks_of freed); [intros Hn; split; [apply (t_frame _ _ _ _ _ Tc b Hn)|apply (t_direct _ _ _ _ _ Tc b Hn)]|].
      intros Hn. destruct (proj1 (Forall_forall _ _) (h_owned _ _ _ _ _ _ _ Hp) b) as [[Ha _] _]; [unfold footprint; rewrite !elem_of_app; auto|].
      simpl in Ha. lia.
    + eapply stores_keeps; [exact S1| |done|done]. destruct st'. by apply Kp.
  - unfold numbered. rewrite Et, Eg1. simpl in *. lia.
Qed.

(** ** All batches *)
Lemma remove_round_spec hashes k x L objs sbd Ld objsd removed failed : mounted k x L objs sbd Ld objsd → (l_height L ≤ 1)%nat →
  total_blocks sbd ≤ Z.of_nat fuel → journal_seq sbd + 1 < 2 ^ 64 → generation sbd + 1 < 2 ^ 64 →
  wp (remove_round blake3 fuel hashes removed failed) (λ r x', match r with
    | Ok (rest, removed', failed', more) => ∃ pre L' objs' sbd' Ld' objsd', hashes = pre ++ rest ∧ (if more : bool then pre ≠ [] else rest = []) ∧
        (l_height L' ≤ l_height L)%nat ∧ mounted k x' L' objs' sbd' Ld' objsd' ∧ numbered sbd sbd' 1 ∧
        swept objs objs' pre (removed' - removed) (failed' - failed) ∧ (objs' = objs ∧ objsd' = objsd ∨ objsd' = objs')
    | Err _ => ¬ ok
    | Panic => False
    end) x.
Proof.
  intros Mo Hh Hf Hseq Hgen. unfold remove_round. apply wp_bind.
  assert (batch k x L objs [] [] [] sbd Ld objsd) as Ba by (split; [by apply mounted_unlinking|constructor|done]).
  eapply wp_mono; [by apply (remove_batch_spec hashes k x L objs [] [] [] sbd Ld objsd removed failed Ba)|].
  intros [[[[[[rest rm] fd] old] freed] more]|e|] x1 R1; [|done|done]. destruct R1 as (pre & L1 & objs1 & fl1 & E & Hm & Hh1 & Ba1 & Sw & Hfr).
  apply wp_bind. eapply wp_mono; [by apply (commit_removals_spec k x1 L1 objs1 old freed fl1 sbd Ld objsd Ba1)|].
  intros [[]|e|] x2 R2; [|done|done]. apply wp_ret. destruct R2 as [[Ef Mo2]|(sbd' & Mo2 & Hn)].
  - exists pre, L1, objs1, sbd, Ld, objsd. split_and!; try done; [unfold numbered; lia|]. left. split; [|done]. by apply Hfr.
  - exists pre, L1, objs1, sbd', L1, objs1. split_and!; try done. by right.
Qed.

Lemma numbered_trans sb1 sb2 sb3 n m : numbered sb1 sb2 n → numbered sb2 sb3 m → numbered sb1 sb3 (n + m).
Proof. unfold numbered. lia. Qed.

Lemma remove_loop_spec n hashes k x L objs sbd Ld objsd removed failed keys cs : mounted k x L objs sbd Ld objsd → (l_height L ≤ 1)%nat →
  total_blocks sbd ≤ Z.of_nat fuel → journal_seq sbd + Z.of_nat n + 1 < 2 ^ 64 → generation sbd + Z.of_nat n + 1 < 2 ^ 64 → (length hashes ≤ n)%nat →
  wp (remove_loop blake3 fuel n hashes removed failed) (λ r w', ∃ x', w' = world x' keys cs ∧ match r with
    | Ok (removed', failed') => ∃ L' objs' sbd' Ld' objsd', mounted k x' L' objs' sbd' Ld' objsd' ∧ numbered sbd sbd' (Z.of_nat n + 1) ∧
        swept objs objs' hashes (removed' - removed) (failed' - failed) ∧ (objs' = objs ∧ objsd' = objsd ∨ objsd' = objs')
    | Err _ => ¬ ok
    | Panic => False
    end) (world x keys cs).
Proof.
  revert hashes x L objs sbd Ld objsd removed failed. induction n as [|n IH]; intros hashes x L objs sbd Ld objsd removed failed Mo Hh Hf Hseq Hgen Hl; cbn [remove_loop].
  all: apply wp_bind, wp_locked; eapply wp_mono; [apply (remove_round_spec hashes k x L objs sbd Ld objsd removed failed Mo Hh Hf); lia|].
  all: intros [[[[rest rm] fd] more]|e|] x1 R; [|by exists x1|done].
  all: destruct R as (pre & L1 & objs1 & sbd1 & Ld1 & objsd1 & E & Hm & Hh1 & Mo1 & Hn1 & Sw1 & Hd1); destruct more; simpl negb; cbn iota.
  - destruct hashes; [|simpl in Hl; lia]. symmetry in E. by apply app_eq_nil in E as [-> _].
  - apply wp_ret. exists x1. split; [done|]. subst rest. rewrite app_nil_r in E. subst hashes. by exists L1, objs1, sbd1, Ld1, objsd1.
  - pose proof Hn1 as (Et & Eg & Es). assert (length rest ≤ n)%nat as Hl1.
    { destruct pre; [done|]. subst hashes. rewrite length_app in Hl. simpl in Hl. lia. }
    eapply wp_mono; [apply (IH rest x1 L1 objs1 sbd1 Ld1 objsd1 rm fd Mo1); lia|].
    intros r w' (x2 & -> & R2). exists x2. split; [done|]. destruct r as [[rm2 fd2]|e|]; [|done|done].
    destruct R2 as (L2 & objs2 & sbd2 & Ld2 & objsd2 & Mo2 & Hn2 & Sw2 & Hd2). exists L2, objs2, sbd2, Ld2, objsd2. split; [done|].
    split; [unfold numbered in *; lia|]. split.
    + subst hashes. pose proof (swept_trans _ _ _ _ _ _ _ _ _ Sw1 Sw2) as Sw. by replace (rm2 - removed) with (rm - removed + (rm2 - rm)) by lia; replace (fd2 - failed) with (fd - failed + (fd2 - fd)) by lia.
    + destruct Hd2 as [[E1 E2]|E2]; subst; [done|by right].
  - apply wp_ret. exists x1. split; [done|]. subst rest. rewrite app_nil_r in E. subst hashes. exists L1, objs1, sbd1, Ld1, objsd1.
    split_and!; try done. unfold numbered in *. lia.
Qed.
End remove.
