(* ===== verification/StorageFormat.v ===== *)
(** * Formatting

    [mkfs] leaves an empty store on the device, whatever was on it before. *)

From S2P Require Import Prelude Bytes Format BlockStore BlockDev DirectIo Bitmap BitmapSpec BtreeNode Btree BtreeNodeSpec BtreeIo BtreeRep BtreeSpec BtreeMap Journal Superblock Chain Aead Storage StorageFrame StorageObject StorageSpec StorageCommit.

Section format.
Context (blake3 : list byte → list byte).
Hypothesis blake3_len : ∀ bs, length (blake3 bs) = 32%nat.
Context {HCr : Crates} {HCrOk : CratesOk}.
Context {C : Type} `{!BlockStore C} `{!BlockStoreOk C (verify_node_checksum blake3)}.
Context `{!BlockFua C} `{!BlockFuaOk C (verify_node_checksum blake3)}.
Context `{!DirectIo C} `{!DirectIoOk C (verify_node_checksum blake3)}.
Notation sum_ok := (verify_node_checksum blake3).
Notation view := (view (check := sum_ok)).
Notation store_inv := (store_inv (check := sum_ok)).
Notation healthy := (healthy (check := sum_ok)).
Notation direct := (direct (check := sum_ok)).
Notation replays := (replays blake3).
Notation durable := (durable blake3).
Implicit Types (c : C).

#[local] Opaque scan.

(** The layout of an empty store. *)
Definition no_layout : layout := Layout 0 ∅ [] ∅.

Lemma no_footprint : footprint no_layout [] = [].
Proof. unfold footprint. simpl. by rewrite map_to_list_empty. Qed.

Lemma wipe_journal_spec n i c : store_inv c →
  wp (wipe_journal n i) (λ r c', store_inv c' ∧ (healthy c → healthy c') ∧
    ends (healthy c) r (λ _, (∀ t, i ≤ t < i + Z.of_nat n → view c' (JOURNAL_START + t) = zero_block) ∧
      ∀ b, ¬ JOURNAL_START + i ≤ b < JOURNAL_START + i + Z.of_nat n → view c' b = view c b) True) c.
Proof.
  revert i c. induction n as [|n IH]; intros i c I; cbn [wipe_journal].
  { apply wp_ret. split; [done|]. split; [done|]. cbn [ends]. split; [lia|done]. }
  apply wp_bind. eapply wp_mono; [apply (write_spec (check := sum_ok)); [done|apply zero_block_is_block]|]. intros r c1 (I1 & H1 & R).
  destruct r as [[]|e|]; cbn [ends] in R; [|split; [done|]; split; [done|]; cbn [ends]; tauto|done].
  eapply wp_mono; [by apply IH|]. intros r c2 (I2 & H2 & R2). split; [done|]. split; [auto|].
  destruct r as [[]|e|]; cbn [ends] in *; [|split; [done|]; intros Hh; apply R2; auto|done].
  destruct R2 as [Hin Hout], R as [E O]. split.
  - intros t Ht. destruct (decide (t = i)) as [->|]; [rewrite Hout by lia; done|apply Hin; lia].
  - intros b Hb. rewrite Hout by lia. apply O. lia.
Qed.

(** A journal of zeros records nothing. *)
Lemma blank_journal c : store_inv c → (∀ b, in_ring b → view c b = zero_block) →
  journal_inv (check := sum_ok) c (Journal.new 0 0) ∧ ∀ sb, journal_head sb = 0 → replays c sb = [].
Proof.
  intros I Hz. split.
  - split; [done|done|done|]. intros b Hb. by rewrite Hz.
  - intros sb Hh. unfold StorageCommit.replays. rewrite Hh. apply scan_dead; [done|done|done|]. intros k _ v. unfold v. rewrite Hz by apply slot_at_ring. done.
Qed.

#[local] Opaque StorageCommit.replays.

Lemma mkfs_geometry total : META_END + 16 ≤ total < 2 ^ 63 →
  let count := u64 (total + BLOCK_SIZE * 8 - 1) / (BLOCK_SIZE * 8) in
  count = div_ceil (div_ceil total 8) BLOCK_SIZE ∧ 0 ≤ count ∧ META_END + count ≤ total.
Proof.
  assert (META_END = 265 ∧ BLOCK_SIZE = 4096) as [-> ->] by done. intros Ht. cbv zeta. rewrite (wrap_small 64) by (split; lia).
  unfold div_ceil. split; [|split; [apply Z.div_pos; lia|]].
  - replace (total + 4096 * 8 - 1) with (total + 8 - 1 + 4095 * 8) by lia. rewrite (Z.mul_comm 4096 8), <- Z.div_div by lia.
    rewrite Z.div_add by lia. f_equal. lia.
  - pose proof (Z.div_le_upper_bound (total + 4096 * 8 - 1) (4096 * 8) (total - 265)). lia.
Qed.

Lemma new_for_mkfs_fields total start count dstart bm : Bitmap.new_for_mkfs total start count dstart = Some bm →
  Bitmap.bitmap_start bm = start ∧ Bitmap.bitmap_count bm = count ∧ Bitmap.free_count bm = sat_sub total dstart.
Proof. unfold Bitmap.new_for_mkfs. destruct (Bitmap.mark_used _ _ _); [|done]. by intros [= <-]. Qed.

Lemma new_superblock_wf total start count dstart free salt : Forall (fits 64) [total; start; count; dstart; free] → length salt = 16%nat →
  sb_wf (new_superblock total start count dstart free salt).
Proof.
  rewrite !Forall_cons. intros (? & ? & ? & ? & ? & _) Hs.
  split; simpl; rewrite ?length_replicate; try done; rewrite !Forall_cons; split_and!; done.
Qed.

Lemma holds_nothing k (st : C * Bitmap.t) : holds blake3 k no_layout st 0 [] ∅.
Proof.
  split.
  - by left.
  - intros a. unfold kept_at. simpl. by rewrite !lookup_empty.
  - rewrite no_footprint. constructor.
  - by rewrite no_footprint.
Qed.

Lemma mkfs_spec k total random c : store_inv c → healthy (cache_renew c) → META_END + 16 ≤ total < 2 ^ 63 → length random = 32%nat →
  wp (mkfs blake3 (Some total) random) (λ r c', r = Ok tt ∧ healthy c' ∧ ∃ sb, durable k c' sb no_layout ∅ ∧
    (∀ b, direct c' b) ∧ replays c' sb = [] ∧ total_blocks sb = total ∧ generation sb = 1 ∧ journal_seq sb = 0 ∧
    root_tree_hash sb = replicate 32 x00) c.
Proof.
  intros I0 H0 Ht Hr. destruct (mkfs_geometry total Ht) as (Ec & Hc0 & Hc1). unfold mkfs.
  apply wp_bind. simpl ok_or. apply wp_ret. rewrite (proj2 (Z.ltb_ge _ _)) by lia.
  apply wp_bind, wp_get, wp_bind, wp_put. destruct (renew_spec c I0) as (I1 & _ & _). clear I0.
  set (c1 := cache_renew c) in *. clearbody c1. set (count := u64 _ / _) in *. assert (META_END = 265) as HM by done.
  apply wp_bind. eapply wp_mono; [by apply wipe_journal_spec|]. intros r c2 (I2 & H2 & R2).
  destruct r as [[]|e|]; cbn [ends] in R2; [|by destruct R2|done]. destruct R2 as [Z2 _].
  destruct (new_for_mkfs_inv total META_END count (META_END + count)) as (bm & Ebm & Ib & Eto & Eda & _ & Tr); [lia|lia|lia|lia|done|].
  destruct (new_for_mkfs_fields _ _ _ _ _ Ebm) as (Es & Ect & Efr).
  apply wp_bind. eapply wp_of_opt; [exact Ebm|]. apply wp_bind. eapply wp_of_opt; [apply sub_Some; unfold zlen; lia|].
  set (sb := new_superblock _ _ _ _ _ _).
  assert (sb_wf sb) as Wf.
  { apply new_superblock_wf; [|apply Nat2Z.inj; apply (zlen_raw_sub random 0 16); unfold zlen; lia]. rewrite !Forall_cons. unfold fits, sat_sub in *. split_and!; [lia..|done]. }
  apply wp_bind. pose proof (sync_spec c2 bm I2 Ib (Tr _)) as Hs. unfold wp at 1, borrowing. unfold wp in Hs.
  destruct (Bitmap.sync (c2, bm)) as [r [c3 bm3]]. destruct Hs as (I3 & H3 & Ib3 & _ & (db & ->) & F3 & R3).
  destruct r as [[]|e|]; cbn [ends] in R3; [|destruct R3 as [_ []]; auto|done].
  apply wp_bind. pose proof (write_all_ring blake3 blake3_len (check := sum_ok) c3 sb I3 Wf eq_refl eq_refl) as Hs. unfold wp at 1. unfold wp in Hs.
  destruct (write_all blake3 (c3, sb)) as [r [c4 sb4]]. destruct Hs as (I4 & H4 & -> & R4).
  destruct r as [[]|e|]; cbn [ends] in R4; [|destruct R4 as [_ []]; auto|done]. destruct R4 as [Rg F4].
  eapply wp_mono; [by apply cache_flush_spec|]. intros r c5 (I5 & V5 & H5 & _ & R5).
  destruct r as [[]|e|]; cbn [ends] in R5; [|destruct R5 as [_ []]; auto|done]. split; [done|]. split; [auto 10|].
  exists (Format.set_checksum blake3 sb). assert (JOURNAL_START = 9 ∧ SUPERBLOCK_SLOTS = 8 ∧ SUPERBLOCK_START = 1 ∧ JOURNAL_BLOCKS = 256) as (HJ & HS & HS1 & HB) by done.
  destruct (blank_journal c5 I5) as [J5 Rp].
  { intros b Hb. unfold in_ring in Hb. rewrite (V5 b), F4, F3 by (unfold BitmapSpec.in_area; rewrite ?Es; lia).
    replace b with (JOURNAL_START + (b - JOURNAL_START)) by lia. apply Z2. lia. }
  split; [|by rewrite Rp]. split; rewrite ?no_footprint.
  - done.
  - by eapply ring_frame; [exact Rg|].
  - by apply (set_checksum_ok blake3 blake3_len).
  - exact J5.
  - eexists. split; [|apply holds_nothing]. split; [exact Ib3|done..|]. simpl. intros i Hi. rewrite (V5 _), F4 by lia. rewrite <- Es. apply R3. lia.
  - intros b Hb. by apply not_elem_of_nil in Hb.
  - intros b _. apply R5.
  - intros b _. apply R5.
Qed.
End format.
