(* ===== verification/StorageTheorems.v ===== *)
(** * The object store

    The calls of storage.rs on a mounted store: what they do to the objects, what of
    it a crash takes back, and that a commit and a mount bring it home. *)

From S2P Require Import Prelude Bytes Format BlockStore BlockDev DirectIo Bitmap BitmapSpec BtreeNode Btree BtreeNodeSpec BtreeIo BtreeRep BtreeSpec BtreeMap Journal Superblock Chain Aead Storage StorageFrame StorageObject StorageSpec StorageCommit StorageRemove StorageFormat BtreeSafe.

Section theorems.
Context (blake3 : list byte → list byte).
Hypothesis blake3_len : ∀ bs, length (blake3 bs) = 32%nat.
Context {HCr : Crates} {HCrOk : CratesOk}.
Context {C : Type} `{!BlockStore C} `{!BlockStoreOk C (verify_node_checksum blake3)}.
Context `{!BlockFua C} `{!BlockFuaOk C (verify_node_checksum blake3)}.
Context `{!DirectIo C} `{!DirectIoOk C (verify_node_checksum blake3)}.
Context (fuel : nat) (reserve : Z → bool).
Notation sum_ok := (verify_node_checksum blake3).
Notation healthy := (healthy (check := sum_ok)).
Notation mounted := (mounted blake3).
Notation replays := (replays blake3).
Notation Sx := (C * State)%type.
Notation world := (world (C := C)).
Implicit Types (x : Sx) (objs : gmap (list byte) (list byte)).

#[local] Opaque scan StorageCommit.replays.

(** The index is not yet as deep as it may get, and chains fit the fuel. *)
Definition within L x : Prop := (l_height L < MAX_TREE_DEPTH)%nat ∧ total_blocks (fs_sb x.2) ≤ Z.of_nat fuel.

(** The objects after a put: the first one under an address stays. *)
Definition put_in (h p : list byte) objs : gmap (list byte) (list byte) :=
  match objs !! h with Some _ => objs | None => <[h := p]> objs end.

(** What a call leaves to the next commit: the journal as it is, and the blocks that wait. *)
Record waits x x' sbd : Prop := {
  wt_journal : replays x'.1 sbd = replays x.1 sbd;
  wt_pending : fs_pending x.2 `prefix_of` fs_pending x'.2;
}.

Lemma spared_waits ok k x x' L objs sbd Ld objsd : mounted ok k x L objs sbd Ld objsd → spared blake3 ok (mem x) (mem x') →
  fs_pending x.2 `prefix_of` fs_pending x'.2 → waits x x' sbd.
Proof.
  intros Mo Sp Hp. split; [|done]. pose proof (m_durable _ _ _ _ _ _ _ _ _ Mo) as D. pose proof (m_stores _ _ _ _ _ _ _ _ _ Mo) as S.
  destruct (du_image _ _ _ _ _ _ D) as (bm & Im & _). pose proof (image_area _ _ _ _ Im) as Ha.
  assert (META_END = 265 ∧ JOURNAL_START = 9 ∧ JOURNAL_BLOCKS = 256) as (HM & HJ & HB) by done.
  apply replays_frame; [apply (ji_head _ _ (du_journal _ _ _ _ _ _ D))|]. intros b Hb. unfold in_ring in Hb.
  apply (sp_kept _ _ _ _ Sp). split; [lia|right]. unfold BtreeIo.in_area. simpl. rewrite <- (s_data _ _ _ _ _ _ S), (m_data _ _ _ _ _ _ _ _ _ Mo). lia.
Qed.

Lemma put_keeps_mounted ok k x L objs sbd Ld objsd h p verify n : mounted ok k x L objs sbd Ld objsd → within L x →
  length h = 32%nat → zlen p < 2 ^ 36 →
  wp (put_inner blake3 fuel h p verify) (λ r w', ∃ x', w' = world x' (Some k) n ∧ waits x x' sbd ∧ match r with
    | Ok _ => (objs !! h = None → verify = true → keyed_hash (key_address k) p = h) ∧
        ∃ L', (l_height L ≤ l_height L' ≤ S (l_height L))%nat ∧ mounted ok k x' L' (put_in h p objs) sbd Ld objsd
    | Err e => mounted ok k x' L objs sbd Ld objsd ∧
        (¬ ok ∨ e = DiskFull ∨ e = InvalidName ∧ verify = true ∧ keyed_hash (key_address k) p ≠ h)
    | Panic => False
    end) (world x (Some k) n).
Proof.
  intros Mo [Hh Hf] Hl Hp. pose proof (m_stores _ _ _ _ _ _ _ _ _ Mo) as S. rewrite (s_total _ _ _ _ _ _ S) in Hf.
  eapply wp_mono; [by apply (put_inner_spec blake3 blake3_len ok fuel k L x objs h p verify n)|].
  intros r w' (x' & -> & Sp & R). exists x'. split; [done|]. split.
  { eapply spared_waits; [done|done|]. destruct r as [[]|e|]; cbn [put_result] in R; [destruct (objs !! h)| |done].
    - destruct R as [_ ->]. done.
    - destruct R as (_ & _ & _ & _ & (root & m & free & frees & bm & ->)). by exists frees.
    - destruct R as (_ & -> & _). done. }
  destruct r as [[]|e|]; cbn [put_result] in R.
  - unfold put_in. destruct (objs !! h).
    + destruct R as [S' E]. split; [done|]. exists L. split; [lia|]. eapply mounted_spared; [done|done|by eapply carried_mem|done].
    + destruct R as (Hk & L' & Hh' & S' & Gr). split; [auto|]. exists L'. split; [done|].
      eapply mounted_spared; [done|done|by apply carried_grown|done].
  - destruct R as (S' & E & He). split; [|done]. eapply mounted_spared; [done|done|by eapply carried_mem|done].
  - done.
Qed.

Lemma get_keeps_mounted ok k x L objs sbd Ld objsd a n : mounted ok k x L objs sbd Ld objsd → within L x →
  wp (get_object blake3 fuel reserve a) (λ r w', ∃ x', w' = world x' (Some k) n ∧ waits x x' sbd ∧ mounted ok k x' L objs sbd Ld objsd ∧ match r with
    | Ok o => o = objs !! a
    | Err e => ¬ ok ∨ e = Corrupt ∧ ∃ m, reserve m = false
    | Panic => False
    end) (world x (Some k) n).
Proof.
  intros Mo [Hh Hf]. pose proof (m_stores _ _ _ _ _ _ _ _ _ Mo) as S. rewrite (s_total _ _ _ _ _ _ S) in Hf.
  eapply wp_mono; [by apply (get_object_spec blake3 ok fuel reserve k L x objs a n)|].
  intros r w' (st' & -> & Sp & R). exists (with_mem st' x). split; [done|]. split; [by eapply spared_waits; [done|rewrite mem_with|]|]. split; [|done].
  eapply mounted_spared; [done|by rewrite mem_with|by eapply carried_mem|by apply stores_spared].
Qed.

(** The counters do not wrap, and no record of the journal is about a block now in use. *)
Definition may_commit L x sbd : Prop :=
  journal_seq sbd + 1 < 2 ^ 64 ∧ generation sbd + 1 < 2 ^ 64 ∧
  (fs_pending x.2 = [] → ∀ b, b ∈ footprint L [] → ¬ covers (replays x.1 sbd) b).

Lemma commit_root_mounted ok k x L objs sbd Ld objsd root keys n : mounted ok k x L objs sbd Ld objsd → may_commit L x sbd → length root = 32%nat →
  wp (commit_root blake3 root) (λ r w', ∃ x' n', w' = world x' keys n' ∧ match r with
    | Ok _ => fs_pending x'.2 = [] ∧ root_tree_hash (fs_sb x'.2) = root ∧ total_blocks (fs_sb x'.2) = total_blocks (fs_sb x.2) ∧
        (mounted ok k x' L objs (fs_sb x'.2) L objs ∨ x' = x ∧ root_tree_hash (fs_sb x.2) = root ∧ fs_pending x.2 = [])
    | Err _ => ¬ ok
    | Panic => False
    end) (world x keys n).
Proof.
  intros Mo (Hs & Hg & Hi) Hl. unfold commit_root. apply wp_bind, wp_locked.
  eapply wp_mono; [by apply (commit_root_locked_spec blake3 blake3_len ok k x L objs sbd Ld objsd root)|].
  intros r x' R. destruct r as [[]|e|]; [| |by exists x', n|done].
  - destruct R as (Mo' & Ep & Er & Et). unfold wp, note_commit. exists x', (u64 (n + 1)). split; [done|]. auto.
  - destruct R as (-> & Er & Ep). apply wp_ret. exists x, n. split; [done|]. auto 10.
Qed.

Lemma mount_durable ok k c sb L objs w n : durable blake3 k c sb L objs → w_store w = c → healthy (cache_renew c) →
  total_blocks sb ≤ n → reserve (div_ceil (total_blocks sb) 8) = true →
  wp (mount blake3 reserve (Some n)) (λ r w', r = Ok tt ∧ ∃ x, w' = world x (w_keys w) (w_commits w) ∧
    mounted ok k x L objs sb L objs ∧ fs_sb x.2 = sb ∧ fs_pending x.2 = []) w.
Proof.
  intros D <- Hh Hn Hr. pose proof (mount_disk_spec blake3 ok reserve n k (w_store w) sb L objs D Hh Hn Hr) as H.
  unfold wp, mount in *. destruct (mount_disk blake3 reserve (Some n) (w_store w)) as [r c'].
  destruct H as (s & -> & Mo & E & Ep). split; [done|]. by exists (c', s).
Qed.

(** ** The calls *)

(** C6. [put_object] on a mounted store adds the object under its address, or leaves
    the one already there: a later get sees it, what the device holds for the next
    mount stays as it was, and an error, from the device, a full disk or an address
    that is not the payload's, leaves all of it unchanged. *)
Theorem put_object_inserts ok k x L objs sbd Ld objsd h p n : mounted ok k x L objs sbd Ld objsd → within L x →
  length h = 32%nat → zlen p < 2 ^ 36 →
  wp (put_object blake3 fuel h p) (λ r w', ∃ x', w' = world x' (Some k) n ∧ match r with
    | Ok _ => (objs !! h = None → keyed_hash (key_address k) p = h) ∧ ∃ L', mounted ok k x' L' (put_in h p objs) sbd Ld objsd
    | Err e => mounted ok k x' L objs sbd Ld objsd ∧ (¬ ok ∨ e = DiskFull ∨ e = InvalidName ∧ keyed_hash (key_address k) p ≠ h)
    | Panic => False
    end) (world x (Some k) n).
Proof.
  intros Mo Hw Hl Hp. eapply wp_mono; [by apply put_keeps_mounted|]. intros r w' (x' & -> & _ & R). exists x'. split; [done|].
  destruct r as [[]|e|]; [|destruct R as [? [?|[?|(? & _ & ?)]]]; auto 6|done]. destruct R as (Hk & L' & _ & Mo'). split; [auto|]. by exists L'.
Qed.




(** [mkfs] then a mount: the store is empty, whatever the disk held before. *)
Theorem mkfs_then_mount_is_empty ok k c total random keys m : store_inv (check := sum_ok) c → healthy (cache_renew c) →
  META_END + 16 ≤ total < 2 ^ 63 → length random = 32%nat → (∀ i, reserve i = true) →
  wp (mkfs blake3 (Some total) random) (λ r c', r = Ok tt ∧ (healthy (cache_renew c') →
    wp (mount blake3 reserve (Some total)) (λ r w', r = Ok tt ∧ ∃ x sb, w' = world x keys m ∧ mounted ok k x no_layout ∅ sb no_layout ∅)
      (mkWorld c' None keys m))) c.
Proof.
  intros I Hh Ht Hl Hr. eapply wp_mono; [by apply (mkfs_spec blake3 blake3_len k total random c)|].
  intros r c' (-> & _ & sb & D & _ & _ & Et & _). split; [done|]. intros Hh'.
  eapply wp_mono; [by apply (mount_durable ok k c' sb no_layout ∅ (mkWorld c' None keys m) total D); [|done|lia|]|].
  intros r w' (-> & x & -> & Mo & _). split; [done|]. by exists x, sb.
Qed.



(** Without the disk key nothing is stored: [put_object] then succeeds only on an
    address that is already there, otherwise ends with [Locked] unless the device
    fails, and in every case the objects in memory and on the device stay as they
    were and no block in use changes. *)
Theorem put_needs_the_key ok k x L objs sbd Ld objsd h p n : mounted ok k x L objs sbd Ld objsd → within L x →
  wp (put_object blake3 fuel h p) (λ r w', ∃ x', w' = world x' None n ∧ mounted ok k x' L objs sbd Ld objsd ∧
    spared blake3 ok (mem x) (mem x') ∧ match r with
    | Ok _ => is_Some (objs !! h)
    | Err e => ¬ ok ∨ e = Locked ∧ objs !! h = None
    | Panic => False
    end) (world x None n).
Proof.
  intros Mo [Hh Hf]. pose proof (m_stores _ _ _ _ _ _ _ _ _ Mo) as S. unfold put_object, put_inner. apply wp_bind, wp_locked.
  eapply wp_mono; [by apply (lookup_spec blake3 ok k L x objs h)|]. intros r x1 (st1 & -> & Sp & R).
  assert (mounted ok k (with_mem st1 x) L objs sbd Ld objsd) as Mo1.
  { eapply mounted_spared; [done|by rewrite mem_with|by eapply carried_mem|by apply stores_spared]. }
  assert (spared blake3 ok (mem x) (mem (with_mem st1 x))) as Sp1 by (by rewrite mem_with).
  destruct r as [o|e|]; [|exists (with_mem st1 x); by auto|done]. subst o. destruct (stores_none _ _ _ _ _ _ h S) as [[Hn1 Hn2] _].
  case_bool_decide as Hs.
  - apply wp_ret. exists (with_mem st1 x). split_and!; [done|done|done|]. destruct (objs !! h); [done|]. rewrite Hn1 in Hs by done. by destruct Hs.
  - apply wp_bind, wp_bind. unfold wp, with_keys. simpl. exists (with_mem st1 x). split_and!; [done|done|done|].
    right. split; [done|]. apply Hn2. by apply eq_None_not_Some.
Qed.

Lemma wp_ends {S E A} (m : M S E A) (Q : res E A → S → Prop) s : wp m Q s → Q (m s).1 (m s).2.
Proof. unfold wp. by destruct (m s). Qed.

(** Formatting and mounting, as one. *)
Lemma boot_mounted ok k c total random s0 : store_inv (check := sum_ok) c → (∀ c, healthy (cache_renew c)) →
  META_END + 16 ≤ total < 2 ^ 63 → length random = 32%nat → (∀ i, reserve i = true) →
  let w := (mount blake3 reserve (Some total) (mkWorld (mkfs blake3 (Some total) random c).2 None (Some k) 0)).2 in
  let x := (w_store w, default s0 (w_fs w)) in mounted ok k x no_layout ∅ (fs_sb x.2) no_layout ∅.
Proof.
  intros I Hh Ht Hl Hr. pose proof (mkfs_spec blake3 blake3_len k total random c I (Hh _) Ht Hl) as H.
  apply wp_ends in H as (_ & _ & sb & D & _ & _ & E & _). revert D. generalize ((mkfs blake3 (Some total) random c).2). intros c' D.
  pose proof (mount_durable ok k c' sb no_layout ∅ (mkWorld c' None (Some k) 0) total D eq_refl (Hh _)) as H.
  apply wp_ends in H as (_ & x & Ew & Mo & Es & _); [|lia|done]. cbv zeta. rewrite Ew. rewrite <- Es in Mo. by destruct x.
Qed.
End theorems.

(** ** A store of 300 blocks *)
Section example.
Import RefCrates.

Definition ex_keys : DiskKeys := mkDiskKeys (replicate 32 x01) (replicate 32 x02) (replicate 32 x03).
Definition ex_disk : MemStore := (mkfs ex_hash (Some 300) (replicate 32 x05) (∅ : MemStore)).2.
Definition ex_boot : World := (mount ex_hash (λ _, true) (Some 300) (mkWorld ex_disk None (Some ex_keys) 0)).2.
Definition ex_x : MemStore * State :=
  (w_store ex_boot, default (mkState (new_superblock 0 0 0 0 0 []) ex_fresh (Journal.new 0 0) 0 []) (w_fs ex_boot)).

Lemma ex_mounted ok : mounted ex_hash ok ex_keys ex_x no_layout ∅ (fs_sb ex_x.2) no_layout ∅.
Proof.
  refine (boot_mounted ex_hash (λ _, eq_refl) (λ _, true) ok ex_keys (∅ : MemStore) 300 (replicate 32 x05) _ _ (λ _, I) _ eq_refl (λ _, eq_refl)).
  - apply map_Forall_empty.
  - split; vm_compute; congruence.
Qed.

Definition ex_payload : list byte := [x68; x69].
Definition ex_addr : list byte := [x68; x69] ++ replicate 30 x00.
Definition ex_root : list byte := replicate 32 x09.
Definition ex_put : World := (put_object ex_hash 300 ex_addr ex_payload (world ex_x (Some ex_keys) 0)).2.

Lemma ex_within : within 300 no_layout ex_x.
Proof. split; [apply Nat.ltb_lt; reflexivity|]. vm_compute. congruence. Qed.

Lemma put_object_inserts_witness : ∃ x' L', ex_put = world x' (Some ex_keys) 0 ∧
  mounted ex_hash True ex_keys x' L' {[ex_addr := ex_payload]} (fs_sb ex_x.2) no_layout ∅.
Proof.
  assert (wp (put_object ex_hash 300 ex_addr ex_payload) (λ r _, r = Ok tt) (world ex_x (Some ex_keys) 0)) as E by (vm_compute; reflexivity).
  pose proof (put_object_inserts ex_hash (λ _, eq_refl) 300 True ex_keys ex_x no_layout ∅ _ no_layout ∅ ex_addr ex_payload 0
    (ex_mounted True) ex_within eq_refl ltac:(vm_compute; reflexivity)) as H.
  pose proof (wp_ends _ _ _ (wp_and _ _ _ _ H E)) as [(x' & Ew & R) Er]. rewrite Er in R. destruct R as (_ & L' & Mo). exists x', L'. split; [exact Ew|exact Mo].
Defined.

Lemma ex_journal : StorageCommit.replays ex_hash ex_x.1 (fs_sb ex_x.2) = [].
Proof. vm_compute. reflexivity. Qed.
Lemma ex_counts : total_blocks (fs_sb ex_x.2) = 300 ∧ journal_seq (fs_sb ex_x.2) = 0 ∧ generation (fs_sb ex_x.2) = 1 ∧
  root_tree_hash (fs_sb ex_x.2) = replicate 32 x00.
Proof. vm_compute. auto. Qed.

(** After the put. *)
Lemma ex_stored : ∃ x' L', ex_put = world x' (Some ex_keys) 0 ∧ (l_height L' ≤ 1)%nat ∧
  StorageCommit.replays ex_hash x'.1 (fs_sb ex_x.2) = [] ∧
  mounted ex_hash True ex_keys x' L' {[ex_addr := ex_payload]} (fs_sb ex_x.2) no_layout ∅.
Proof.
  assert (wp (put_object ex_hash 300 ex_addr ex_payload) (λ r _, r = Ok tt) (world ex_x (Some ex_keys) 0)) as E by (vm_compute; reflexivity).
  pose proof (put_keeps_mounted ex_hash (λ _, eq_refl) 300 True ex_keys ex_x no_layout ∅ _ no_layout ∅ ex_addr ex_payload true 0
    (ex_mounted True) ex_within eq_refl ltac:(vm_compute; reflexivity)) as H.
  pose proof (wp_ends _ _ _ (wp_and _ _ _ _ H E)) as [(x' & Ew & [Wj _] & R) Er]. rewrite Er in R. destruct R as (_ & L' & [_ Hh] & Mo).
  exists x', L'. split; [exact Ew|]. split; [exact Hh|]. split; [|exact Mo]. rewrite Wj. apply ex_journal.
Qed.




Lemma mkfs_then_mount_is_empty_witness : ∃ x sb,
  (mount ex_hash (λ _, true) (Some 300) (mkWorld ex_disk None (Some ex_keys) 0)).2 = world x (Some ex_keys) 0 ∧
  mounted ex_hash True ex_keys x no_layout ∅ sb no_layout ∅.
Proof.
  assert (store_inv (check := verify_node_checksum ex_hash) (∅ : MemStore)) as I0 by apply map_Forall_empty.
  pose proof (mkfs_then_mount_is_empty ex_hash (λ _, eq_refl) (λ _, true) True ex_keys (∅ : MemStore) 300 (replicate 32 x05) (Some ex_keys) 0
    I0 I ltac:(split; vm_compute; congruence) eq_refl (λ _, eq_refl)) as H.
  apply wp_ends in H as [_ H]. pose proof (wp_ends _ _ _ (H I)) as (_ & x & sb & Ew & Mo). exists x, sb. split; [exact Ew|exact Mo].
Defined.

Definition ex_committed : World := (mbind (λ _, commit_root ex_hash ex_root) (put_object ex_hash 300 ex_addr ex_payload) (world ex_x (Some ex_keys) 0)).2.



Lemma put_needs_the_key_witness : (put_object ex_hash 300 ex_addr ex_payload (world ex_x None 0)).1 = Err Locked ∧
  ∃ x', (put_object ex_hash 300 ex_addr ex_payload (world ex_x None 0)).2 = world x' None 0 ∧
    mounted ex_hash True ex_keys x' no_layout ∅ (fs_sb ex_x.2) no_layout ∅.
Proof.
  pose proof (put_needs_the_key ex_hash 300 True ex_keys ex_x no_layout ∅ _ no_layout ∅ ex_addr ex_payload 0 (ex_mounted True) ex_within) as H.
  apply wp_ends in H as (x' & Ew & Mo & _ & R). split; [|exists x'; split; [exact Ew|exact Mo]].
  destruct ((put_object _ _ _ _ _).1) as [[]|e|]; [destruct R as [? [=]]|destruct R as [[]|[-> _]]; [exact I|reflexivity]|destruct R].
Defined.

(** ** A flaw

    A commit with nothing to free writes no journal record and keeps the sequence
    number, so the records of the commit before it are replayed again by the next
    mount.  After a removal has emptied the index, an object put in blocks of the
    removed one and committed loses them so. *)
Definition reboot (w : World) : World := (mount ex_hash (λ _, true) (Some 300) (mkWorld (w_store w : MemStore) None (Some ex_keys) 0)).2.
Definition ex_emptied : World := (remove_many ex_hash 300 [ex_addr] ex_committed).2.
Definition ex_addr2 : list byte := [x61] ++ replicate 31 x00.
Definition ex_again : World := (mbind (λ _, commit_root ex_hash (replicate 32 x0a)) (put_object ex_hash 300 ex_addr2 [x61]) (reboot ex_emptied)).2.

(** The root of the index, and whether block [b] is in use. *)
Definition index_and_use (b : Z) (w : World (C := MemStore)) : option (Z * bool) :=
  (λ s, (btree_root (fs_sb s), used (Bitmap.data (fs_bitmap s)) b)) <$> w_fs w.

(** The index is block 267, in use before the restart and free after it. *)
Lemma committed_blocks_freed_by_mount :
  index_and_use 267 ex_again = Some (267, true) ∧ index_and_use 267 (reboot ex_again) = Some (267, false).
Proof. vm_compute. split; reflexivity. Qed.
End example.

(** * What a read of an object may transfer

    The extents of an object come from blocks that may hold anything.  Before the
    device reads them, [checked_extent_blocks] has seen that each lies in the data
    area and that their sum is at most the disk. *)

(** An extent of the data area. *)
Definition extent_ok (ds disk : Z) (x : Z * Z) : Prop := 0 < x.2 ∧ ds ≤ x.1 ∧ x.1 + x.2 ≤ disk.
Definition total_of (l : list (Z * Z)) : Z := foldr (λ x n, x.2 + n) 0 l.

Lemma sum_extents_iff l ds disk acc n : Forall (λ x, fits 64 x.1 ∧ fits 64 x.2) l → fits 64 disk → 0 ≤ acc →
  sum_extents l ds disk acc = Some n ↔ Forall (extent_ok ds disk) l ∧ n = acc + total_of l ∧ (l = [] ∨ n < 2 ^ 64).
Proof.
  intros Hf [Hd0 Hd]. revert acc n. induction Hf as [|[s c] l [[Hs0 Hs] [Hc0 Hc]] Hf IH]; intros acc n Ha; cbn [sum_extents total_of foldr].
  { split; [intros [= <-]; split_and!; [constructor|lia|auto]|intros (_ & -> & _); f_equal; lia]. }
  simpl in Hs0, Hs, Hc0, Hc. unfold extent_ok at 1. rewrite Forall_cons. fold (total_of l). simpl.
  assert (0 ≤ total_of l) as Ht by (clear -Hf; unfold total_of; induction Hf as [|[s c] l [_ [? _]] _ IH]; simpl in *; lia).
  destruct (Z.leb_spec (2 ^ 64) (s + c)); [split; [done|]; intros (((_ & _ & ?) & _) & _); lia|].
  destruct (_ || _ || _) eqn:E.
  { split; [done|]. intros (((? & ? & ?) & _) & _). rewrite !orb_true_iff, Z.eqb_eq, !Z.ltb_lt in E. lia. }
  apply orb_false_iff in E as [[E1%Z.eqb_neq E2%Z.ltb_ge]%orb_false_iff E3%Z.ltb_ge].
  destruct (Z.leb_spec (2 ^ 64) (acc + c)).
  { split; [done|]. intros (_ & -> & [?|?]); [done|lia]. }
  rewrite IH by lia. split.
  - intros (H1 & -> & H2). split; [split; [lia|done]|]. split; [lia|]. right. destruct H2 as [->|H2]; simpl in *; lia.
  - intros ((_ & H1) & -> & [?|?]); [done|]. split; [done|]. split; [lia|]. right. lia.
Qed.

Lemma checked_iff l ds disk n : Forall (λ x, fits 64 x.1 ∧ fits 64 x.2) l → fits 64 disk →
  checked_extent_blocks l ds disk = Some n ↔ Forall (extent_ok ds disk) l ∧ n = total_of l ∧ n ≤ disk.
Proof.
  intros Hf Hd. unfold checked_extent_blocks. destruct (sum_extents l ds disk 0) as [m|] eqn:E; cbn [mbind option_bind].
  - apply sum_extents_iff in E as (H1 & -> & _); [|done|done|lia]. rewrite Z.add_0_l. destruct (Z.leb_spec (total_of l) disk).
    + split; [intros Heq; injection Heq as Heq; split_and!; [done|lia|lia]|]. by intros (_ & -> & _).
    + split; [done|]. intros (_ & -> & ?). lia.
  - split; [done|]. intros (H1 & -> & H2). exfalso. destruct Hd.
    assert (sum_extents l ds disk 0 = Some (total_of l)) as E'; [|congruence]. apply sum_extents_iff; [done|done|lia|]. split_and!; [done|done|]. right. lia.
Qed.

Section bounds.
Context (blake3 : list byte → list byte).
Context {C : Type} `{!BlockStore C} `{!BlockStoreOk C (verify_node_checksum blake3)}.
Notation sum_ok := (verify_node_checksum blake3).
Notation view := (view (check := sum_ok)).
Notation store_inv := (store_inv (check := sum_ok)).
Context (fuel : nat).
Hypothesis enough : 2 ^ 64 < Z.of_nat fuel.

Lemma cextent_wf v j : is_block v → 0 ≤ j < EXTENTS_PER_INDIRECT → extent_wf (cextent v j).
Proof.
  intros Hv Hj. unfold is_block, BLOCK_SIZE in Hv. unfold EXTENTS_PER_INDIRECT in Hj.
  split; apply (of_le_fits 8); apply Nat2Z.inj; apply (zlen_raw_sub v); lia.
Qed.

Lemma chain_extents_wf f b es bs : chain f b es bs → (∀ b, is_block (f b)) → Forall extent_wf es.
Proof.
  intros H Hf. induction H as [|b es bs _ _ IH]; [constructor|]. apply Forall_app. split; [|done].
  unfold cextents. apply Forall_fmap, Forall_forall. intros j Hj%elem_of_seqZ. simpl. by apply cextent_wf; [|lia].
Qed.

Lemma extents_of_any e c : store_inv c → entry_wf e →
  wp (extents_of fuel e) (λ r c', store_inv c' ∧ match r with Ok l => Forall extent_wf l | Err _ => True | Panic => False end) c.
Proof.
  intros I Hw. unfold extents_of. pose proof (ew_count _ Hw) as [? _].
  apply wp_bind. eapply wp_of_opt; [apply sub_Some; unfold zlen; rewrite ?(ew_len _ Hw); lia|].
  assert (Forall extent_wf (raw_sub (extents e) 0 (Z.min (extent_count e) (Z.of_nat DIRECT_EXTENTS)))) as Hd.
  { unfold raw_sub. apply Forall_take, Forall_drop, Hw. }
  destruct (negb _); [|by apply wp_ret]. unfold read_indirect_extents, read_indirect_chain. apply wp_bind, wp_bind.
  eapply wp_mono; [apply (chain_walk_spec (check := sum_ok) fuel (indirect_block e) [] [] c); [done|apply Hw|constructor|constructor|left; rewrite zlen_nil; lia]|].
  intros [[l bs]|er|] c' [(I' & _) R]; [|done|done]. destruct R as (es1 & bs1 & Hc & -> & _). apply wp_ret, wp_ret. split; [done|].
  apply Forall_app. split; [done|]. eapply chain_extents_wf; [exact Hc|]. intros b. by apply view_block.
Qed.

(** On a disk that may hold anything, [get] transfers only extents of the data
    area: the locked half of a read ends without a panic, and what it hands to the
    device is a list of nonempty extents between the start of the data area and the
    end of the disk, with the number of blocks they add up to, at most the disk's. *)
Theorem get_transfers_data_blocks_only (x : C * State) a : store_inv x.1 → sb_wf (fs_sb x.2) →
  wp (get_locked blake3 fuel a) (λ r _, match r with
    | Ok (Some (_, l, n)) => Forall (extent_ok (data_start (fs_sb x.2)) (total_blocks (fs_sb x.2))) l ∧
        n = total_of l ∧ n ≤ total_blocks (fs_sb x.2)
    | Panic => False
    | _ => True
    end) x.
Proof.
  intros I Hw. unfold get_locked. apply wp_bind. unfold wp at 1, gets. apply wp_bind. destruct x as [c s]. unfold on_store. apply wp_on_fst. simpl.
  assert (wp (Btree.lookup blake3 (btree_root (fs_sb s)) a) (λ r c', store_inv c' ∧
    match r with Ok o => ∀ e, o = Some e → entry_wf e | Err _ => True | Panic => False end) c) as Hl.
  { unfold Btree.lookup. destruct (_ =? 0); [by apply wp_ret|]. eapply wp_mono; [by apply lookup_loop_safe|]. by intros r c' (? & _ & _ & ?). }
  eapply wp_mono; [exact Hl|]. intros [[e|]|er|] c1 [I1 R]; [|done|done|done]. apply wp_bind, wp_on_fst.
  eapply wp_mono; [apply (extents_of_any e c1 I1); by apply R|]. intros [l|er|] c2 [I2 Hf]; [|done|done].
  apply wp_bind. unfold ok_or. destruct (checked_extent_blocks _ _ _) as [n|] eqn:E; [|done]. apply wp_ret, wp_ret.
  apply checked_iff in E; [done| |].
  - apply Forall_fmap. eapply Forall_impl; [exact Hf|]. by intros e0 [? ?].
  - pose proof (sw_u64 _ Hw) as H64. rewrite !Forall_cons in H64. apply H64.
Qed.
End bounds.

(** The store of StorageTheorems.v with one object in it, read back. *)
Definition ex_stored_state : State := default ex_x.2 (w_fs ex_put).

Lemma get_transfers_data_blocks_only_witness :
  wp (get_locked Superblock.ex_hash (Z.to_nat (2 ^ 64 + 1)) ex_addr) (λ r _, match r with
    | Ok (Some (_, l, n)) => Forall (extent_ok 266 300) l ∧ n = total_of l ∧ n ≤ 300
    | Panic => False
    | _ => True
    end) (w_store ex_put, ex_stored_state).
Proof.
  destruct ex_stored as (x' & L' & E & _ & _ & Mo). assert ((w_store ex_put, ex_stored_state) = x') as ->.
  { unfold ex_stored_state. rewrite E. by destruct x'. }
  pose proof (m_stores _ _ _ _ _ _ _ _ _ Mo) as S.
  pose proof (get_transfers_data_blocks_only Superblock.ex_hash (Z.to_nat (2 ^ 64 + 1)) ltac:(lia) x' ex_addr
    (gd_store _ _ _ (s_good _ _ _ _ _ _ S)) (s_wf _ _ _ _ _ _ S)) as H.
  rewrite (m_data _ _ _ _ _ _ _ _ _ Mo), (m_total _ _ _ _ _ _ _ _ _ Mo) in H.
  assert (data_start (fs_sb ex_x.2) = 266) as E1 by (vm_compute; reflexivity). rewrite E1, (proj1 ex_counts) in H. exact H.
Defined.
