(* ===== verification/NetBytes.v ===== *)
(** * What the network code shares

    Big-endian words ([from_be_bytes], [to_be_bytes]) with the values they stand for,
    addresses as the code holds them ([[u8; 4]], [[u8; 6]]: byte strings in network
    order), and [BTreeMap]: a [gmap] whose entries are visited in the order of their
    keys where the code iterates. *)

From S2P Require Import Prelude Bytes.

(** ** Big-endian words *)
Definition of_be (l : list byte) : Z := of_le (rev l).
Definition be_bytes (n : nat) (z : Z) : list byte := rev (le_bytes n z).
Definition be16 := be_bytes 2.
Definition be32 := be_bytes 4.

Lemma of_le_app_pow k l : of_le (k ++ l) = of_le k + 256 ^ zlen k * of_le l.
Proof.
  induction k as [|b k IH]; [simpl; unfold of_le at 2, zlen; simpl; lia|].
  change (of_le ((b :: k) ++ l)) with (bval b + 256 * of_le (k ++ l)).
  change (of_le (b :: k)) with (bval b + 256 * of_le k). rewrite IH, zlen_cons, Z.pow_add_r by (pose proof (zlen_nonneg k); lia). lia.
Qed.

Lemma of_be_nil : of_be [] = 0.
Proof. done. Qed.
Lemma of_be_app k l : of_be (k ++ l) = of_be k * 256 ^ zlen l + of_be l.
Proof. unfold of_be. rewrite rev_app_distr, of_le_app_pow. unfold zlen. rewrite length_rev. lia. Qed.
Lemma of_be_1 b : of_be [b] = bval b.
Proof. unfold of_be. simpl. unfold of_le. lia. Qed.
Lemma of_be_cons b l : of_be (b :: l) = bval b * 256 ^ zlen l + of_be l.
Proof. change (b :: l) with ([b] ++ l). by rewrite of_be_app, of_be_1. Qed.
Lemma of_be_range l : 0 ≤ of_be l < 256 ^ zlen l.
Proof. unfold of_be. pose proof (of_le_range (rev l)) as H. unfold zlen in *. by rewrite length_rev in H. Qed.

Lemma zlen_be_bytes n z : zlen (be_bytes n z) = Z.of_nat n.
Proof. unfold be_bytes, zlen. by rewrite length_rev, length_le_bytes. Qed.
Lemma of_be_be_bytes n z : 0 ≤ z < 256 ^ Z.of_nat n → of_be (be_bytes n z) = z.
Proof. intros. unfold of_be, be_bytes. rewrite rev_involutive. by apply of_le_le_bytes. Qed.
Lemma be_bytes_of_be l : be_bytes (length l) (of_be l) = l.
Proof. unfold be_bytes, of_be. rewrite <- length_rev, le_bytes_of_le. apply rev_involutive. Qed.
Lemma zlen_be16 z : zlen (be16 z) = 2.
Proof. apply zlen_be_bytes. Qed.
Lemma zlen_be32 z : zlen (be32 z) = 4.
Proof. apply zlen_be_bytes. Qed.
Lemma of_be16 z : fits 16 z → of_be (be16 z) = z.
Proof. intros [??]. apply of_be_be_bytes. simpl. lia. Qed.
Lemma of_be32 z : fits 32 z → of_be (be32 z) = z.
Proof. intros [??]. apply of_be_be_bytes. simpl. lia. Qed.

Lemma of_be_word a b : of_be [a; b] = bval a * 256 + bval b.
Proof. rewrite of_be_cons, of_be_1. unfold zlen. simpl. lia. Qed.
Lemma of_be_quad a b c d : of_be [a; b; c; d] = of_be [a; b] * 65536 + of_be [c; d].
Proof. change [a; b; c; d] with ([a; b] ++ [c; d]). by rewrite of_be_app. Qed.

#[global] Arguments of_be : simpl never.
#[global] Arguments be_bytes : simpl never.
#[global] Arguments be16 : simpl never.
#[global] Arguments be32 : simpl never.
#[export] Hint Rewrite zlen_be_bytes zlen_be16 zlen_be32 : npk.

(** [!w] of a [u16]. *)
Definition not16 (w : Z) : Z := 65535 - w.

(** ** Addresses *)
Notation ip4 := (list byte) (only parsing).
Notation mac := (list byte) (only parsing).
Definition zero4 : ip4 := replicate 4 x00.

(** ** [BTreeMap] *)
Class KeyOrder (K : Type) := key_le : relation K.
Class KeyOrderOk (K : Type) `{KeyOrder K} := {
  #[global] key_le_dec :: RelDecision key_le;
  #[global] key_le_total :: Total key_le;
  #[global] key_le_trans :: Transitive key_le;
  #[global] key_le_anti :: AntiSymm (=) key_le }.

#[global] Instance Z_key_order : KeyOrder Z := Z.le.
#[global] Instance Z_key_order_ok : KeyOrderOk Z.
Proof. split; unfold key_le, Z_key_order; apply _. Defined.

#[global] Instance bytes_key_order : KeyOrder (list byte) := λ k l, bytes_ltb l k = false.
#[global] Instance bytes_key_order_ok : KeyOrderOk (list byte).
Proof.
  split; unfold key_le, bytes_key_order.
  - intros k l. apply _.
  - intros k l. destruct (bytes_ltb l k) eqn:E; [|by left]. right. apply not_true_iff_false. by apply bytes_lt_asym.
  - intros k l m [->|H1]%bytes_ltb_false [->|H2]%bytes_ltb_false.
    + apply bytes_ltb_irrefl.
    + by apply not_true_iff_false, bytes_lt_asym.
    + by apply not_true_iff_false, bytes_lt_asym.
    + apply not_true_iff_false, bytes_lt_asym. by eapply bytes_lt_trans.
  - intros k l [->|H1]%bytes_ltb_false [E|H2]%bytes_ltb_false; [done..|]. by destruct (bytes_lt_asym _ _ H1).
Defined.

Section btree_iter.
Context {K : Type} `{Countable K} `{!KeyOrder K} `{!KeyOrderOk K} {V : Type}.
Implicit Types m : gmap K V.

Definition entry_le (p q : K * V) : Prop := key_le p.1 q.1.
#[global] Instance entry_le_dec : RelDecision entry_le.
Proof. intros p q. unfold entry_le. apply _. Defined.

(** [m.iter()]: the entries, smallest key first. *)
Definition btree_iter m : list (K * V) := merge_sort entry_le (map_to_list m).

Lemma btree_iter_perm m : btree_iter m ≡ₚ map_to_list m.
Proof. apply merge_sort_Permutation. Qed.

Lemma elem_of_btree_iter m k v : (k, v) ∈ btree_iter m ↔ m !! k = Some v.
Proof. by rewrite btree_iter_perm, elem_of_map_to_list. Qed.

Lemma btree_iter_nodup m : NoDup (btree_iter m).*1.
Proof. rewrite btree_iter_perm. apply NoDup_fst_map_to_list. Qed.

Lemma btree_iter_sorted m : StronglySorted entry_le (btree_iter m).
Proof.
  assert (Total entry_le) by (intros p q; unfold entry_le; apply (total key_le)).
  apply StronglySorted_merge_sort; try done.
  intros p q r H1 H2. unfold entry_le in *. by etransitivity.
Qed.
End btree_iter.

(** ** Code without state

    [?] on a result, and an index, slice or [unwrap] that may panic. *)
#[global] Instance res_ret {E} : MRet (res E) := λ A a, Ok a.
#[global] Instance res_bind {E} : MBind (res E) := λ A B k m,
  match m with Ok a => k a | Err e => Err e | Panic => Panic end.
#[global] Instance res_fmap {E} : FMap (res E) := λ A B f m, a ← m; mret (f a).
Definition unwrap {E A} (o : option A) : res E A := match o with Some a => Ok a | None => Panic end.

(** [buf[i]] of a [u8] buffer as a number. *)
Definition u8_at {E} (buf : list byte) (i : Z) : res E Z := b ← unwrap (at_ buf i); mret (bval b).
(** [u16::from_be_bytes([buf[i], buf[i + 1]])]. *)
Definition be16_at {E} (buf : list byte) (i : Z) : res E Z :=
  a ← unwrap (at_ buf i); b ← unwrap (at_ buf (i + 1)); mret (of_be [a; b]).

Lemma u8_at_ok {E} buf i : 0 ≤ i < zlen buf → ∃ v, @u8_at E buf i = Ok v ∧ 0 ≤ v < 256.
Proof. intros H. destruct (at_Some buf i H) as [b Hb]. exists (bval b). unfold u8_at. rewrite Hb. split; [done|apply bval_range]. Qed.

Lemma be16_at_ok {E} buf i : 0 ≤ i → i + 2 ≤ zlen buf → ∃ v, @be16_at E buf i = Ok v ∧ fits 16 v.
Proof.
  intros H0 H. destruct (at_Some buf i) as [a Ha]; [lia|]. destruct (at_Some buf (i + 1)) as [b Hb]; [lia|].
  exists (of_be [a; b]). unfold be16_at. rewrite Ha, Hb. split; [done|]. apply (of_be_range [a; b]).
Qed.

Lemma unwrap_sub_ok {E A} (buf : list A) a n : 0 ≤ a → 0 ≤ n → a + n ≤ zlen buf → @unwrap E _ (sub buf a n) = Ok (raw_sub buf a n).
Proof. intros. by rewrite sub_Some. Qed.

Lemma bind_ok {E A B} (a : A) (k : A → res E B) : Ok a ≫= k = k a.
Proof. done. Qed.

Lemma u8_at_Some {E} buf i b : at_ buf i = Some b → @u8_at E buf i = Ok (bval b).
Proof. intros H. unfold u8_at. by rewrite H. Qed.

(** Tuples are ordered by their first component, then their second. *)
#[global] Instance pair_key_order {A B} `{KeyOrder A, KeyOrder B} : KeyOrder (A * B) := λ p q,
  (p.1 ≠ q.1 ∧ key_le p.1 q.1) ∨ (p.1 = q.1 ∧ key_le p.2 q.2).
#[global] Instance pair_key_order_ok {A B} `{!EqDecision A, !KeyOrder A, !KeyOrderOk A, !KeyOrder B, !KeyOrderOk B} : KeyOrderOk (A * B).
Proof.
  split; unfold key_le at 1, pair_key_order.
  - intros p q. apply _.
  - intros [a b] [a' b']. simpl. destruct (decide (a = a')) as [->|N].
    + destruct (total key_le b b'); [left|right]; by right.
    + destruct (total key_le a a'); [left|right]; left; by split.
  - intros [a b] [a' b'] [a'' b'']. simpl. intros [[N1 H1]|[-> H1]] [[N2 H2]|[-> H2]].
    + left. split; [|by etransitivity]. intros ->. by apply N1, (anti_symm key_le).
    + by left.
    + by left.
    + right. split; [done|]. by etransitivity.
  - intros [a b] [a' b']. simpl. intros [[N1 H1]|[-> H1]] [[N2 H2]|[E H2]].
    + destruct N1. by apply (anti_symm key_le).
    + congruence.
    + congruence.
    + f_equal. by apply (anti_symm key_le).
Defined.

(** ** State and panics *)
Definition of_res {S E A} (r : res E A) : M S E A := λ s, (r, s).
Definition update {S E} (f : S → S) : M S E unit := λ s, (Ok tt, f s).

Section state_wp.
Context {S E : Type}.

Lemma wp_of_res {A} (r : res E A) a (Q : res E A → S → Prop) s : r = Ok a → Q (Ok a) s → wp (of_res r) Q s.
Proof. by intros ->. Qed.

Lemma wp_regroup {A B C} (m : M S E A) (k : A → M S E B) (l : B → M S E C) (Q : res E C → S → Prop) s :
  wp ((m ≫= k) ≫= l) Q s → wp (m ≫= λ a, k a ≫= l) Q s.
Proof. unfold wp, mbind, M_bind. by destruct (m s) as [[]]. Qed.

Lemma wp_update f (Q : res E unit → S → Prop) s : Q (Ok tt) (f s) → wp (update f) Q s.
Proof. done. Qed.
End state_wp.

(** ** Sums over maps *)
Section map_sum.
Context {K : Type} `{Countable K} {V : Type} (f : V → Z).
Implicit Types m : gmap K V.

Definition list_sum (l : list V) : Z := foldr (λ v s, f v + s) 0 l.
Definition map_sum m : Z := list_sum (map_to_list m).*2.

Lemma list_sum_cons v l : list_sum (v :: l) = f v + list_sum l.
Proof. done. Qed.

Lemma list_sum_perm l k : l ≡ₚ k → list_sum l = list_sum k.
Proof. induction 1; simpl; lia. Qed.

Lemma map_sum_empty : map_sum ∅ = 0.
Proof. unfold map_sum. by rewrite map_to_list_empty. Qed.

Lemma map_sum_insert m k v : m !! k = None → map_sum (<[k:=v]> m) = f v + map_sum m.
Proof. intros Hk. unfold map_sum. rewrite (list_sum_perm _ ((k, v) :: map_to_list m).*2); [done|]. by rewrite map_to_list_insert. Qed.

Lemma map_sum_delete m k v : m !! k = Some v → map_sum (delete k m) = map_sum m - f v.
Proof.
  intros Hk. rewrite <- (insert_delete_id m k v Hk) at 2. rewrite map_sum_insert by apply lookup_delete_eq. lia.
Qed.

Lemma map_sum_update m k v w : m !! k = Some v → map_sum (<[k:=w]> m) = map_sum m - f v + f w.
Proof.
  intros Hk. rewrite <- insert_delete_eq, map_sum_insert by apply lookup_delete_eq. rewrite (map_sum_delete _ _ _ Hk). lia.
Qed.

Lemma map_sum_nonneg m : map_Forall (λ _ v, 0 ≤ f v) m → 0 ≤ map_sum m.
Proof.
  intros Hf. unfold map_sum. assert (Forall (λ v, 0 ≤ f v) (map_to_list m).*2) as Hl.
  { apply Forall_fmap, Forall_forall. intros [k v] Hk%elem_of_map_to_list. simpl. by eapply Hf. }
  induction Hl; simpl; lia.
Qed.

Lemma map_sum_le m k v : map_Forall (λ _ v, 0 ≤ f v) m → m !! k = Some v → f v ≤ map_sum m.
Proof.
  intros Hf Hk. pose proof (map_sum_delete _ _ _ Hk). pose proof (map_sum_nonneg (delete k m) (map_Forall_delete _ _ _ Hf)). lia.
Qed.
End map_sum.

Lemma list_sum_ext {V} (f g : V → Z) (l : list V) : (∀ v, v ∈ l → f v = g v) → list_sum f l = list_sum g l.
Proof. induction l as [|v l IH]; intros H; simpl; [done|]. rewrite H by left. rewrite IH; [done|]. intros w Hw. apply H. by right. Qed.

Lemma list_sum_fmap {A} (f : A → Z) l : list_sum f l = list_sum id (f <$> l).
Proof. induction l; [done|]. rewrite fmap_cons, !list_sum_cons. unfold id. by rewrite IHl. Qed.

Lemma byte_field z : 0 ≤ z < 256 → bval (byte_of z) = z.
Proof. intros. rewrite bval_byte_of. by apply Z.mod_small. Qed.

(** ** Messages of consecutive fields *)

(** The [i]th of joined segments. *)
Lemma sub_segment (segs : list (list byte)) (i : nat) v rest a n :
  segs !! i = Some v → a = list_sum zlen (take i segs) → n = zlen v → sub (mjoin segs ++ rest) a n = Some v.
Proof.
  intros Hi -> ->. revert i Hi. induction segs as [|x segs IH]; intros i Hi; [done|]. change (mjoin (x :: segs)) with (x ++ mjoin segs). rewrite <- app_assoc.
  pose proof (zlen_nonneg v). destruct i as [|i].
  - injection Hi as ->. change (list_sum zlen (take 0 (v :: segs))) with 0. rewrite sub_Some by (rewrite 1?zlen_app; pose proof (zlen_nonneg (mjoin segs ++ rest)); lia).
    unfold raw_sub, zlen. by rewrite Nat2Z.id, drop_0, take_app_length.
  - cbn [take]. rewrite list_sum_cons. specialize (IH i Hi). apply sub_inv in IH as (H1 & H2 & H3 & E). pose proof (zlen_nonneg x).
    rewrite sub_Some by (rewrite ?zlen_app in *; lia). f_equal. etrans; [|symmetry; exact E].
    unfold raw_sub. f_equal. replace (Z.to_nat (zlen x + list_sum zlen (take i segs))) with (length x + Z.to_nat (list_sum zlen (take i segs)))%nat by (unfold zlen at 2; lia).
    by rewrite <- drop_drop, drop_app_length.
Qed.

Lemma at_of_sub (b : list byte) i x : sub b i 1 = Some [x] → at_ b i = Some x.
Proof. intros (? & ? & ? & E)%sub_inv. apply at_sub. by rewrite E. Qed.

Lemma be16_at_sub {E} (b : list byte) i v : sub b i 2 = Some v → @be16_at E b i = Ok (of_be v).
Proof.
  intros H. pose proof H as (H1 & _ & H2 & Hv)%sub_inv. destruct (at_Some b i) as [x Hx]; [lia|]. destruct (at_Some b (i + 1)) as [y Hy]; [lia|].
  unfold be16_at. rewrite Hx, Hy. cbn. do 2 f_equal. apply at_sub in Hx as [_ Hx], Hy as [_ Hy]. rewrite Hv.
  assert (raw_sub b i 2 = raw_sub b i 1 ++ raw_sub b (i + 1) 1) as ->; [|by rewrite Hx, Hy]. unfold raw_sub.
  replace (Z.to_nat (i + 1)) with (Z.to_nat i + 1)%nat by lia. rewrite <- drop_drop. change (Z.to_nat 2) with (1 + 1)%nat. by rewrite <- take_take_drop.
Qed.
