(* ===== verification/Csum.v ===== *)
(** * The Internet checksum ([net/src/csum.rs])

    The ones-complement sum of a buffer, eight bytes at a time, the pseudo-header's
    share, the fold to 16 bits and the incremental update of RFC 1624.  The 64-bit
    accumulator wraps as the code's does. *)

From S2P Require Import Prelude Bytes NetBytes.

Module csum.

(** [while i + 1 < rest.len()] over what [chunks_exact] left, and an odd last byte. *)
Fixpoint sum_rest (acc : Z) (rest : list byte) : Z :=
  match rest with
  | a :: b :: rest => sum_rest (u64 (acc + of_be [a; b])) rest
  | [a] => u64 (acc + Z.shiftl (bval a) 8)
  | [] => acc
  end.

(** [for c in data.chunks_exact(8)]. *)
Fixpoint sum_chunks (acc : Z) (data : list byte) : Z :=
  match data with
  | c0 :: c1 :: c2 :: c3 :: c4 :: c5 :: c6 :: c7 :: data =>
      sum_chunks (u64 (u64 (acc + of_be [c0; c1; c2; c3]) + of_be [c4; c5; c6; c7])) data
  | rest => sum_rest acc rest
  end.

Definition sum (data : list byte) : Z := sum_chunks 0 data.

Definition pseudo (src dst : ip4) (proto len : Z) : Z :=
  u64 (u64 (u64 (of_be src + of_be dst) + proto) + len).

(** [while s >> 16 != 0].  Five rounds end it for every [u64] ([fold_loop_done]). *)
Fixpoint fold_loop (fuel : nat) (s : Z) : Z :=
  match fuel with
  | O => s
  | S fuel => if Z.shiftr s 16 =? 0 then s else fold_loop fuel (u64 (Z.land s 65535 + Z.shiftr s 16))
  end.
Definition fold (s : Z) : Z := u16 (fold_loop 5 s).

(** [for &(old, new) in changes]. *)
Fixpoint update_loop (s : Z) (changes : list (Z * Z)) : Z :=
  match changes with
  | [] => s
  | (old, new) :: changes => update_loop (u64 (s + (not16 old + new))) changes
  end.
Definition update (check : Z) (changes : list (Z * Z)) : Z := not16 (fold (update_loop (not16 check) changes)).

End csum.

(** * The checksum is RFC 1071's

    [ones] is the residue modulo 65535 that ones-complement addition computes, with
    65535 for a multiple that is not zero.  The fold computes it for every 64-bit
    sum, so the eight-bytes-at-a-time sum folds to the sum of the 16-bit words with
    end-around carry, a checksum put into a packet makes it verify, and the
    incremental update is the checksum of the changed packet. *)

(** ** The reference: 16-bit words added with end-around carry *)
Fixpoint words (data : list byte) : list Z :=
  match data with
  | a :: b :: data => of_be [a; b] :: words data
  | [a] => [bval a * 256]
  | [] => []
  end.
Definition total (ws : list Z) : Z := foldr Z.add 0 ws.
Definition onec_add (a b : Z) : Z := if 65535 <? a + b then a + b - 65535 else a + b.
Definition rfc1071 (data : list byte) : Z := fold_left onec_add (words data) 0.

Definition ones (s : Z) : Z := if s =? 0 then 0 else (s - 1) `mod` 65535 + 1.

Lemma ones_range s : 0 ≤ ones s ≤ 65535.
Proof. unfold ones. destruct (s =? 0); [lia|]. pose proof (Z.mod_pos_bound (s - 1) 65535). lia. Qed.

Lemma ones_small s : 0 ≤ s ≤ 65535 → ones s = s.
Proof. intros. unfold ones. destruct (Z.eqb_spec s 0); [lia|]. rewrite Z.mod_small; lia. Qed.

(** [ones s] and [s] differ by a multiple of 65535, and are zero together. *)
Lemma ones_eq s : 0 ≤ s → ∃ k, 0 ≤ k ∧ s = ones s + 65535 * k ∧ (ones s = 0 → s = 0).
Proof.
  intros. unfold ones. destruct (Z.eqb_spec s 0); [exists 0; lia|]. exists ((s - 1) / 65535).
  pose proof (Z.div_mod (s - 1) 65535). pose proof (Z.mod_pos_bound (s - 1) 65535). lia.
Qed.

Lemma ones_unique s r k : 0 < r ≤ 65535 → s = r + 65535 * k → 0 < s → ones s = r.
Proof.
  intros Hr -> Hs. unfold ones. destruct (Z.eqb_spec (r + 65535 * k) 0); [lia|].
  replace (r + 65535 * k - 1) with (r - 1 + k * 65535) by lia. rewrite Z.mod_add, Z.mod_small; lia.
Qed.

Lemma ones_mult s t k : 0 < s → 0 < t → s = t + 65535 * k → ones s = ones t.
Proof.
  intros Hs Ht E. destruct (ones_eq t ltac:(lia)) as (j & Hj & Et & Hz). pose proof (ones_range t).
  apply (ones_unique _ _ (k + j)); [|lia..]. destruct (Z.eq_dec (ones t) 0); [lia|lia].
Qed.

Lemma ones_add s t : 0 ≤ s → 0 ≤ t → ones (ones s + t) = ones (s + t).
Proof.
  intros Hs Ht. destruct (ones_eq s Hs) as (k & Hk & E & Hz). pose proof (ones_range s).
  destruct (Z.eq_dec (ones s) 0) as [Z0|]; [rewrite Z0; rewrite (Hz Z0); done|].
  symmetry. apply (ones_mult _ _ k); lia.
Qed.

(** ** The fold *)
Ltac div_mod s := pose proof (Z.div_mod s 65536 ltac:(lia)); pose proof (Z.mod_pos_bound s 65536 ltac:(lia)); pose proof (Z.div_pos s 65536 ltac:(lia) ltac:(lia)).

Lemma fold_step s : 0 ≤ s → Z.land s 65535 + Z.shiftr s 16 = s - 65535 * (s / 65536).
Proof.
  intros. change 65535 with (Z.ones 16) at 1. rewrite Z.land_ones, Z.shiftr_div_pow2 by lia.
  change (2 ^ 16) with 65536. pose proof (Z.div_mod s 65536). lia.
Qed.

Lemma fold_loop_ones n s : fits 64 s → fits 64 (csum.fold_loop n s) ∧ ones (csum.fold_loop n s) = ones s.
Proof.
  revert s. induction n as [|n IH]; intros s Hs; cbn [csum.fold_loop]; [done|].
  destruct (Z.eqb_spec (Z.shiftr s 16) 0) as [|E]; [done|]. destruct Hs as [H0 H64]. rewrite Z.shiftr_div_pow2 in E by lia.
  change (2 ^ 16) with 65536 in E. rewrite fold_step by done. div_mod s.
  rewrite wrap_small by (unfold fits; lia). destruct (IH (s - 65535 * (s / 65536))) as [F ->]; [unfold fits; lia|].
  split; [done|]. symmetry. apply (ones_mult _ _ (s / 65536)); lia.
Qed.

Lemma fold_loop_bound n s B : 0 ≤ s ≤ B → B < 2 ^ 64 →
  csum.fold_loop (S n) s ≤ 65535 ∨ ∃ t, csum.fold_loop (S n) s = csum.fold_loop n t ∧ 0 ≤ t ≤ B / 65536 + 65535.
Proof.
  intros [H0 HB] H64. cbn [csum.fold_loop]. destruct (Z.eqb_spec (Z.shiftr s 16) 0) as [E|E].
  { div_mod s. left. rewrite Z.shiftr_div_pow2 in E by lia. change (2 ^ 16) with 65536 in E. lia. }
  right. eexists; split; [done|]. rewrite fold_step by done. pose proof (Z.div_le_mono s B 65536 ltac:(lia) HB). div_mod s. rewrite wrap_small by (unfold fits; lia). lia.
Qed.

(** Five rounds end the loop for every 64-bit sum. *)
Lemma fold_loop_done s : fits 64 s → 0 ≤ csum.fold_loop 5 s ≤ 65535.
Proof.
  intros Hs. split; [by apply (fold_loop_ones 5)|]. destruct Hs as [H0 H64].
  destruct (fold_loop_bound 4 s (2 ^ 64 - 1)) as [?|(t1 & -> & H1)]; [lia..|done|]. change ((2 ^ 64 - 1) / 65536 + 65535) with 281474976776190 in H1.
  destruct (fold_loop_bound 3 _ _ H1) as [?|(t2 & -> & H2)]; [lia|done|]. change (281474976776190 / 65536 + 65535) with 4295032831 in H2.
  destruct (fold_loop_bound 2 _ _ H2) as [?|(t3 & -> & H3)]; [lia|done|]. change (4295032831 / 65536 + 65535) with 131071 in H3.
  destruct (fold_loop_bound 1 _ _ H3) as [?|(t & -> & H4)]; [lia|done|]. change (131071 / 65536 + 65535) with 65536 in H4.
  destruct (Z.eq_dec t 65536) as [->|]; [done|]. cbn [csum.fold_loop]. rewrite Z.shiftr_div_pow2, Z.div_small by lia. cbn. lia.
Qed.

Lemma fold_ones s : fits 64 s → csum.fold s = ones s.
Proof.
  intros Hs. unfold csum.fold. pose proof (fold_loop_done s Hs). destruct (fold_loop_ones 5 s Hs) as [_ E].
  rewrite wrap_small by (unfold fits; lia). rewrite <- E. symmetry. by apply ones_small.
Qed.

(** ** The sum *)
Lemma words_range data : Forall (λ w, 0 ≤ w ≤ 65535) (words data).
Proof.
  remember (length data) as n. revert data Heqn. induction n as [n IH] using lt_wf_ind. intros [|a [|b data]] ->; simpl; constructor; try done.
  - pose proof (bval_range a). lia.
  - pose proof (of_be_range [a; b]) as H. change (256 ^ zlen [a; b]) with 65536 in H. lia.
  - eapply IH; [|done]. simpl. lia.
Qed.

Lemma total_nonneg data : 0 ≤ total (words data).
Proof. pose proof (words_range data) as H. induction H; simpl; lia. Qed.

Lemma sum_rest_eq acc rest : 0 ≤ acc → acc + 65536 * zlen rest < 2 ^ 64 → csum.sum_rest acc rest = acc + total (words rest) ∧ total (words rest) ≤ 65536 * zlen rest.
Proof.
  remember (length rest) as n. revert acc rest Heqn. induction n as [n IH] using lt_wf_ind. intros acc [|a [|b rest]] -> Ha Hb; unfold zlen in *; simpl in *.
  - lia.
  - pose proof (bval_range a). rewrite Z.shiftl_mul_pow2, wrap_small by (unfold fits; simpl; lia). simpl. lia.
  - pose proof (of_be_range [a; b]) as H. change (256 ^ zlen [a; b]) with 65536 in H. rewrite wrap_small by (unfold fits; lia).
    edestruct (IH (length rest)) as [-> ?]; [lia|done|lia|lia|]. lia.
Qed.

(** The wide sum is the sum of the words plus a multiple of 65535. *)
Lemma sum_chunks_eq acc data : 0 ≤ acc → acc + 2 ^ 31 * zlen data < 2 ^ 64 →
  ∃ k, 0 ≤ k ∧ csum.sum_chunks acc data = acc + total (words data) + 65535 * k ∧ total (words data) + 65535 * k ≤ 2 ^ 31 * zlen data ∧ (total (words data) = 0 → k = 0).
Proof.
  remember (length data) as n. revert acc data Heqn. induction n as [n IH] using lt_wf_ind. intros acc data -> Ha Hb.
  assert (csum.sum_chunks acc data = csum.sum_rest acc data ∨ (8 ≤ length data)%nat) as [E|Hl].
  { do 8 (destruct data as [|? data]; [by left|]). right. simpl. lia. }
  { exists 0. pose proof (zlen_nonneg data). rewrite E. destruct (sum_rest_eq acc data) as [-> ?]; lia. }
  do 8 (destruct data as [|? data]; [simpl in Hl; lia|]). clear Hl. cbn [csum.sum_chunks words]. unfold zlen in *. cbn [length] in *.
  assert (∀ a b : byte, 0 ≤ of_be [a; b] ≤ 65535) as Hw by (intros a' b'; pose proof (of_be_range [a'; b']) as H; change (256 ^ zlen [a'; b']) with 65536 in H; lia).
  pose proof (Hw b b0). pose proof (Hw b1 b2). pose proof (Hw b3 b4). pose proof (Hw b5 b6). rewrite !of_be_quad.
  rewrite (wrap_small 64 (acc + _)), wrap_small by (unfold fits; lia).
  edestruct (IH (length data)) as (k & Hk & -> & Hm & Hz); [lia|done|lia|lia|].
  pose proof (total_nonneg data). exists (k + of_be [b; b0] + of_be [b3; b4]). cbn [total foldr] in *. fold (total (words data)) in *. lia.
Qed.

Lemma sum_eq data : zlen data < 2 ^ 32 →
  fits 64 (csum.sum data) ∧ ∃ k, 0 ≤ k ∧ csum.sum data = total (words data) + 65535 * k ∧ (total (words data) = 0 → k = 0).
Proof.
  intros Hl. unfold csum.sum. pose proof (zlen_nonneg data). destruct (sum_chunks_eq 0 data) as (k & Hk & -> & Hm & Hz); [lia..|].
  pose proof (total_nonneg data). split; [unfold fits; lia|]. exists k. lia.
Qed.

Lemma fold_sum data : zlen data < 2 ^ 32 → csum.fold (csum.sum data) = ones (total (words data)).
Proof.
  intros Hl. destruct (sum_eq data Hl) as (Hf & k & Hk & E & Hz). rewrite fold_ones by done. pose proof (total_nonneg data).
  destruct (Z.eq_dec (total (words data)) 0) as [Z0|]; [rewrite E, (Hz Z0); f_equal; lia|]. rewrite E. apply (ones_mult _ _ k); lia.
Qed.

Lemma onec_fold ws a : Forall (λ w, 0 ≤ w ≤ 65535) ws → 0 ≤ a → fold_left onec_add ws (ones a) = ones (a + total ws).
Proof.
  intros H. revert a. induction H as [|w ws Hw H IH]; intros a Ha; simpl; [f_equal; lia|].
  assert (onec_add (ones a) w = ones (a + w)) as ->.
  { rewrite <- ones_add by lia. pose proof (ones_range a). unfold onec_add. destruct (Z.ltb_spec 65535 (ones a + w)); [|symmetry; apply ones_small; lia].
    symmetry. apply (ones_unique _ _ 1); lia. }
  rewrite IH by lia. f_equal. lia.
Qed.

(** C37. For any data shorter than 4 GiB the eight-byte sum, folded, is the sum of the
    data's 16-bit big-endian words with end-around carry, an odd last byte padded
    with zero: RFC 1071's definition. *)
Theorem csum_is_rfc1071 data : zlen data < 2 ^ 32 → csum.fold (csum.sum data) = rfc1071 data.
Proof.
  intros Hl. rewrite fold_sum by done. unfold rfc1071. change 0 with (ones 0) at 1.
  by rewrite onec_fold by (try apply words_range; lia).
Qed.

(** ** Changing words of a packet *)
Lemma words_app k l : Nat.Even (length k) → words (k ++ l) = words k ++ words l.
Proof.
  remember (length k) as n. revert k Heqn. induction n as [n IH] using lt_wf_ind. intros [|a [|b k]] -> He; simpl in *; [done|destruct He; lia|].
  f_equal. eapply IH; [|done|]; [lia|]. destruct He as [m Hm]. exists (m - 1)%nat. lia.
Qed.

Lemma total_app k l : total (k ++ l) = total k + total l.
Proof. induction k as [|w k IH]; simpl; [done|]. unfold total in *. lia. Qed.

Lemma words_be16 w : fits 16 w → words (be16 w) = [w].
Proof.
  intros Hw. pose proof (of_be16 w Hw) as E. pose proof (zlen_be16 w) as L.
  destruct (be16 w) as [|a [|b [|]]]; unfold zlen in L; simpl in L; try lia. simpl. by rewrite E.
Qed.

(** Replacing the word at an even offset. *)
Lemma total_splice data i w : 0 ≤ i → Z.Even i → i + 2 ≤ zlen data → fits 16 w →
  total (words (raw_splice data i (be16 w))) = total (words data) - of_be (raw_sub data i 2) + w.
Proof.
  intros Hi [m Em] Hl Hw. unfold zlen in Hl. set (k := take (Z.to_nat i) data). set (l := drop (Z.to_nat (i + 2)) data).
  assert (length k = Z.to_nat i) as Hk by (unfold k; rewrite length_take; lia).
  assert (Nat.Even (length k)) as He by (exists (Z.to_nat m); lia).
  assert (∃ a b, raw_sub data i 2 = [a; b]) as (a & b & E).
  { pose proof (zlen_raw_sub data i 2) as L. unfold zlen in L. destruct (raw_sub data i 2) as [|a [|b [|]]]; simpl in L; try lia. eauto. }
  assert (data = k ++ [a; b] ++ l) as Ed.
  { rewrite <- E. unfold raw_sub, k, l. replace (Z.to_nat (i + 2)) with (Z.to_nat i + Z.to_nat 2)%nat by lia. rewrite <- drop_drop, take_drop. by rewrite take_drop. }
  unfold raw_splice. rewrite zlen_be16. fold k l. rewrite E, Ed, !(words_app k) by done.
  assert (words (be16 w ++ l) = w :: words l) as ->.
  { rewrite words_app, words_be16; [done..|]. exists 1%nat. apply Nat2Z.inj. apply zlen_be16. }
  rewrite !total_app. cbn [app words total foldr]. lia.
Qed.

Lemma word_le_total data i : 0 ≤ i → Z.Even i → i + 2 ≤ zlen data → 0 ≤ of_be (raw_sub data i 2) ≤ 65535.
Proof. intros. pose proof (of_be_range (raw_sub data i 2)) as H'. rewrite zlen_raw_sub in H' by lia. change (256 ^ 2) with 65536 in H'. lia. Qed.

(** A packet whose checksum word is zero verifies once the complement of its
    folded sum is written there: the receiver's sum folds to 0xFFFF. *)
Lemma csum_inserted_verifies data i :
  zlen data < 2 ^ 32 → 0 ≤ i → Z.Even i → i + 2 ≤ zlen data → of_be (raw_sub data i 2) = 0 →
  csum.fold (csum.sum (raw_splice data i (be16 (not16 (csum.fold (csum.sum data)))))) = 65535.
Proof.
  intros Hl Hi He Hb Hz. rewrite (fold_sum data) by done. set (s := total (words data)).
  pose proof (ones_range s). rewrite fold_sum.
  2: { rewrite zlen_raw_splice; rewrite ?zlen_be16; lia. }
  rewrite total_splice by (done || (unfold fits, not16; lia)). fold s. pose proof (total_nonneg data).
  destruct (ones_eq s) as (k & Hk & E & _); [done|]. unfold not16. apply (ones_unique _ _ k); lia.
Qed.

(** Writing words one after another, each with the word it replaces. *)
Fixpoint write_words (ws : list (Z * Z)) (data : list byte) : list byte * list (Z * Z) :=
  match ws with
  | [] => (data, [])
  | (i, w) :: ws =>
      let '(data', cs) := write_words ws (raw_splice data i (be16 w)) in
      (data', (of_be (raw_sub data i 2), w) :: cs)
  end.

Definition word_at (len : Z) (p : Z * Z) : Prop := 0 ≤ p.1 ∧ Z.Even p.1 ∧ p.1 + 2 ≤ len ∧ fits 16 p.2.

Lemma write_words_total ws data data' cs : Forall (word_at (zlen data)) ws → write_words ws data = (data', cs) →
  zlen data' = zlen data ∧ length cs = length ws ∧
  ∀ s, 0 ≤ s → s + 131070 * zlen cs < 2 ^ 64 →
    csum.update_loop s cs = s + total (words data') - total (words data) + 65535 * zlen cs ∧ s ≤ csum.update_loop s cs < 2 ^ 64.
Proof.
  revert data data' cs. induction ws as [|[i w] ws IH]; intros data data' cs Hw E; simpl in E.
  { simplify_eq. split_and!; [done..|]. intros s Hs Hl. simpl. unfold zlen. simpl. unfold zlen in Hl. simpl in Hl. lia. }
  apply Forall_cons in Hw as [(Hi & He & Hl & Hf) Hw]. simpl in *. destruct (write_words ws _) as [d1 c1] eqn:E1. simplify_eq.
  assert (zlen (raw_splice data i (be16 w)) = zlen data) as L by (rewrite zlen_raw_splice; rewrite ?zlen_be16; lia).
  destruct (IH _ _ _ ltac:(by rewrite L) E1) as (L1 & Lc & H1). rewrite L1, L. split_and!; [done|simpl; lia|]. intros s Hs Hb.
  pose proof (word_le_total data i Hi He Hl). unfold fits in Hf. rewrite zlen_cons in *. pose proof (zlen_nonneg c1).
  cbn [csum.update_loop]. rewrite wrap_small by (unfold fits, not16; lia).
  destruct (H1 (s + (not16 (of_be (raw_sub data i 2)) + w))) as [E2 R]; [unfold not16; lia..|]. rewrite total_splice in E2 by done. unfold not16 in *. lia.
Qed.

(** Changing any number of words of a packet and updating its checksum with the
    old and new words (RFC 1624) gives the checksum of the changed packet, if that is
    not all zero. *)
Theorem csum_update_is_recomputed ws data data' cs :
  zlen data < 2 ^ 32 → zlen ws < 2 ^ 32 → Forall (word_at (zlen data)) ws →
  write_words ws data = (data', cs) → total (words data') ≠ 0 →
  csum.update (not16 (csum.fold (csum.sum data))) cs = not16 (csum.fold (csum.sum data')).
Proof.
  intros Hl Hn Hw E Hz. destruct (write_words_total _ _ _ _ Hw E) as (L & Lc & H). rewrite !fold_sum by (by rewrite ?L).
  unfold csum.update. replace (not16 (not16 (ones (total (words data))))) with (ones (total (words data))) by (unfold not16; lia).
  pose proof (ones_range (total (words data))). pose proof (total_nonneg data). pose proof (total_nonneg data').
  assert (zlen cs = zlen ws) as Lz by (unfold zlen; lia). destruct (H (ones (total (words data)))) as [E1 R]; [lia..|].
  rewrite fold_ones by (unfold fits; lia). rewrite E1 in *. f_equal. destruct (ones_eq (total (words data))) as (k & Hk & E2 & Ez); [done|].
  pose proof (zlen_nonneg ws). destruct (Z.eq_dec (total (words data)) 0) as [Z0|].
  - destruct ws as [|w ws]; [simpl in E; simplify_eq; lia|]. apply (ones_mult _ _ (zlen cs - k)); [|lia..]. rewrite Z0, ones_small in * by lia. lia.
  - apply (ones_mult _ _ (zlen cs - k)); [|lia..]. assert (ones (total (words data)) ≠ 0) by (intros Z0; by apply Ez in Z0). lia.
Qed.

(** ** Examples *)
Lemma csum_is_rfc1071_witness : csum.fold (csum.sum [x45; x00; xff]) = rfc1071 [x45; x00; xff].
Proof. apply csum_is_rfc1071. vm_compute. congruence. Defined.

Lemma csum_update_is_recomputed_witness :
  csum.update (not16 (csum.fold (csum.sum [x45; x00; x12; x34; x56]))) [(0x4500, 7); (0x1234, 0xffff)] = not16 (csum.fold (csum.sum [x00; x07; xff; xff; x56])).
Proof.
  apply (csum_update_is_recomputed [(0, 7); (2, 0xffff)] [x45; x00; x12; x34; x56]); [vm_compute; congruence..| |reflexivity|vm_compute; congruence].
  repeat constructor; try (vm_compute; congruence); [by exists 0|by exists 1].
Defined.
