(* ===== verification/Ip.v ===== *)
(** * IPv4 addresses, options, paths and ICMP errors ([net/src/ip.rs])

    The checks a datagram passes on the way in and out ([input_route], [early],
    [output_ok], [options_ok]), the identification counters, the path MTUs learned
    from routers, ICMP errors read, written and rate limited, and the routing table.
    Addresses are four bytes in network order; a [u32] of one is [of_be]. *)

From S2P Require Import Prelude Bytes NetBytes Csum.

Module ip.

(** ** Data *)
Record Iface := { if_ip : ip4; if_mask : ip4 }.
Inductive PktType := Host | Broadcast | Multicast | OtherHost.
Inductive Dest := Local | DestBroadcast.
Inductive Drop := DropOtherHost | UnicastInL2Multicast | BadOptions | SourceRoute | MartianSource | MartianDest | NotForUs.

#[global] Instance PktType_eq_dec : EqDecision PktType.
Proof. solve_decision. Defined.
#[global] Instance Dest_eq_dec : EqDecision Dest.
Proof. solve_decision. Defined.
#[global] Instance Drop_eq_dec : EqDecision Drop.
Proof. solve_decision. Defined.

(** ** Addresses *)
Definition u32_of (a : ip4) : Z := of_be a.
(** [a[0]]; an address has four bytes. *)
Definition octet0 (a : ip4) : Z := match a with b :: _ => bval b | [] => 0 end.

Definition is_zeronet (a : ip4) : bool := octet0 a =? 0.
Definition is_loopback (a : ip4) : bool := octet0 a =? 127.
Definition is_multicast (a : ip4) : bool := Z.land (octet0 a) 0xf0 =? 0xe0.
Definition is_lbcast (a : ip4) : bool := bool_decide (a = replicate 4 xff).
Definition is_reserved (a : ip4) : bool := (Z.land (octet0 a) 0xf0 =? 0xf0) && negb (is_lbcast a).
Definition is_zero (a : ip4) : bool := bool_decide (a = zero4).

(** [!m] and [m.count_ones()] of a [u32]. *)
Definition not32 (m : Z) : Z := 2 ^ 32 - 1 - m.
Definition count_ones (m : Z) : Z := zlen (filter (λ i, Z.testbit m i = true) (seqZ 0 32)).

(** ** The interface *)
Definition configured (f : Iface) : bool := negb (is_zero (if_ip f)).

Definition is_subnet_broadcast (f : Iface) (a : ip4) : bool :=
  if negb (configured f) then false else
  let ip := u32_of (if_ip f) in let mask := u32_of (if_mask f) in let a := u32_of a in
  if (31 <=? count_ones mask) || negb (Z.land a mask =? Z.land ip mask) then false
  else (Z.lor a mask =? 2 ^ 32 - 1) || (Z.land a (not32 mask) =? 0).

Definition source_ok (f : Iface) (src : ip4) : bool :=
  negb (configured f && bool_decide (src = if_ip f)) && negb (is_subnet_broadcast f src).

Definition early (l2 : PktType) (src dst : ip4) : res Drop unit :=
  if bool_decide (l2 = OtherHost) then Err DropOtherHost
  else if is_multicast src || is_lbcast src then Err MartianSource
  else if is_lbcast dst || (is_zero src && is_zero dst) then Ok tt
  else if is_zeronet src then Err MartianSource
  else if is_zeronet dst then Err MartianDest
  else if is_loopback dst then Err MartianDest
  else if is_loopback src then Err MartianSource
  else Ok tt.

Definition input_dest (f : Iface) (src dst : ip4) (dhcp_reply : bool) : res Drop Dest :=
  let brd := is_lbcast dst || (is_zero src && is_zero dst) in
  if brd || is_subnet_broadcast f dst then Ok DestBroadcast
  else if configured f && bool_decide (dst = if_ip f) then Ok Local
  else if dhcp_reply && negb (is_multicast dst) && negb (is_reserved dst) then Ok Local
  else Err NotForUs.

Definition input_route (f : Iface) (l2 : PktType) (src dst : ip4) (dhcp_reply : bool) : res Drop Dest :=
  _ ← early l2 src dst;
  dest ← input_dest f src dst dhcp_reply;
  if bool_decide (dest = Local) && negb (bool_decide (l2 = Host)) then Err UnicastInL2Multicast
  else if negb (is_zeronet src) && negb (source_ok f src) then Err MartianSource
  else Ok dest.

Definition output_ok (f : Iface) (dst : ip4) (stream : bool) : bool :=
  if is_loopback dst || is_zeronet dst || is_reserved dst then false
  else negb (stream && (is_lbcast dst || is_multicast dst || is_subnet_broadcast f dst)).

(** ** Options *)
Definition IPOPT_END := 0.
Definition IPOPT_NOOP := 1.
Definition IPOPT_RR := 7.
Definition IPOPT_TIMESTAMP := 68.
Definition IPOPT_LSRR := 131.
Definition IPOPT_CIPSO := 134.
Definition IPOPT_SSRR := 137.
Definition IPOPT_RA := 148.
Definition IPOPT_TS_TSONLY := 0.
Definition IPOPT_TS_TSANDADDR := 1.
Definition IPOPT_TS_PRESPEC := 3.

Definition bad {A} (i : Z) : res (Drop * Z) A := Err (BadOptions, i).

(** [(srr, rr, ts, cipso)]. *)
Record Seen := { srr : bool; rr : bool; ts : bool; cipso : bool }.

(** The tags of a CIPSO option, [while j < optlen]. *)
Fixpoint cipso_tags (fuel : nat) (o : list byte) (i optlen j : Z) : res (Drop * Z) unit :=
  match fuel with
  | O => Panic
  | S fuel =>
      if negb (j <? optlen) then Ok tt
      else if j + 1 =? optlen then bad (i + j)
      else
        tag_len ← u8_at o (j + 1);
        if (tag_len =? 0) || (optlen - j <? tag_len) then bad (i + j + 1)
        else cipso_tags fuel o i optlen (j + tag_len)
  end.

Definition timestamp_ok (o : list byte) (i optlen : Z) : res (Drop * Z) unit :=
  ptr ← u8_at o 2;
  if ptr <? 5 then bad (i + 2) else
  flg ← u8_at o 3;
  if ptr <=? optlen then
    if optlen <? ptr + 3 then bad (i + 2)
    else if Z.land flg 0xf =? IPOPT_TS_TSONLY then Ok tt
    else if (Z.land flg 0xf =? IPOPT_TS_TSANDADDR) || (Z.land flg 0xf =? IPOPT_TS_PRESPEC) then
      if optlen <? ptr + 7 then bad (i + 2) else Ok tt
    else Ok tt
  else if negb (Z.land flg 0xf =? IPOPT_TS_PRESPEC) && (Z.shiftr flg 4 =? 15) then bad (i + 3)
  else Ok tt.

(** [match o[0]]: one option [o] at offset [i]. *)
Definition option_ok (s : Seen) (o : list byte) (i optlen : Z) : res (Drop * Z) Seen :=
  t ← u8_at o 0;
  if (t =? IPOPT_SSRR) || (t =? IPOPT_LSRR) then
    if optlen <? 3 then bad (i + 1) else
    ptr ← u8_at o 2;
    if ptr <? 4 then bad (i + 2)
    else if srr s then bad i
    else Ok {| srr := true; rr := rr s; ts := ts s; cipso := cipso s |}
  else if t =? IPOPT_RR then
    if rr s then bad i
    else if optlen <? 3 then bad (i + 1) else
    ptr ← u8_at o 2;
    if ptr <? 4 then bad (i + 2)
    else if (ptr <=? optlen) && (optlen <? ptr + 3) then bad (i + 2)
    else Ok {| srr := srr s; rr := true; ts := ts s; cipso := cipso s |}
  else if t =? IPOPT_TIMESTAMP then
    if ts s then bad i
    else if optlen <? 4 then bad (i + 1) else
    _ ← timestamp_ok o i optlen;
    Ok {| srr := srr s; rr := rr s; ts := true; cipso := cipso s |}
  else if t =? IPOPT_RA then
    if optlen <? 4 then bad (i + 1) else Ok s
  else if t =? IPOPT_CIPSO then
    if cipso s then bad i
    else if optlen <? 8 then bad (i + 1) else
    doi ← unwrap (sub o 2 4);
    if bool_decide (doi = zero4) then bad (i + 2) else
    _ ← cipso_tags (length o) o i optlen 6;
    Ok {| srr := srr s; rr := rr s; ts := ts s; cipso := true |}
  else Ok s.

(** [while i < opts.len()]. *)
Fixpoint options_loop (fuel : nat) (opts : list byte) (s : Seen) (i : Z) : res (Drop * Z) Seen :=
  match fuel with
  | O => Panic
  | S fuel =>
      if negb (i <? zlen opts) then Ok s else
      let l := zlen opts - i in
      t ← u8_at opts i;
      if t =? IPOPT_END then Ok s
      else if t =? IPOPT_NOOP then options_loop fuel opts s (i + 1)
      else if l <? 2 then bad i else
      optlen ← u8_at opts (i + 1);
      if (optlen <? 2) || (l <? optlen) then bad i else
      o ← unwrap (sub opts i optlen);
      s ← option_ok s o i optlen;
      options_loop fuel opts s (i + optlen)
  end.

Definition none_seen : Seen := {| srr := false; rr := false; ts := false; cipso := false |}.

Definition options_ok (opts : list byte) : res (Drop * Z) unit :=
  s ← options_loop (S (length opts)) opts none_seen 0;
  if srr s then Err (SourceRoute, 0) else Ok tt.

(** ** Identification

    [keyed_hash] is BLAKE3's; [rnd] is the random source the caller hands in. *)
Record Idents := { id_key : list byte; ids : list Z; stamps : list Z }.

(** [next_power_of_two] of a number below 2^48. *)
Definition next_power_of_two (n : Z) : Z := if n <=? 1 then 1 else 2 ^ Z.log2_up n.
Definition clamp (z lo hi : Z) : Z := Z.max lo (Z.min hi z).

Definition idents_new (key : list byte) (ram_bytes : Z) (rnd : nat → Z) : Idents :=
  let n := clamp (next_power_of_two (Z.shiftr ram_bytes 16)) 2048 (256 * 1024) in
  {| id_key := key; ids := rnd <$> seq 0 (Z.to_nat n); stamps := replicate (Z.to_nat n) 0 |}.

Section idents.
Context (keyed_hash : list byte → list byte → list byte).

Definition ident_bucket (t : Idents) (dst src : ip4) (proto : Z) : res unit Z :=
  h ← unwrap (sub (keyed_hash (id_key t) (dst ++ src ++ [byte_of proto])) 0 4);
  mret (Z.land (of_le h) (zlen (ids t) - 1)).

Definition select (t : Idents) (dst src : ip4) (proto now : Z) (rnd : Z → Z) : res unit (Z * Idents) :=
  b ← ident_bucket t dst src proto;
  old ← unwrap (at_ (stamps t) b);
  let '(stamps', delta) :=
    if negb (old =? now) then (<[Z.to_nat b := now]> (stamps t), rnd (u32 (now - old))) else (stamps t, 0) in
  c ← unwrap (at_ (ids t) b);
  let id := u32 (c + delta) in
  mret (u16 id, {| id_key := id_key t; ids := <[Z.to_nat b := u32 (id + 1)]> (ids t); stamps := stamps' |}).
End idents.

(** ** Path MTU *)
Definition MIN_PMTU := 512 + 20 + 20.
Definition MTU_EXPIRES := 10 * 60 * 100.
Definition PMTU_MAX := 2048 * 5.

(** Per destination: the MTU and the tick it expires. *)
Notation Pmtu := (gmap (list byte) (Z * Z)).

Definition pmtu_get (m : Pmtu) (dst : ip4) (dev_mtu now : Z) : Z :=
  match m !! dst with
  | Some (mtu, expires) => if now <? expires then Z.min mtu dev_mtu else dev_mtu
  | None => dev_mtu
  end.

(** [min_by_key(|(_, v)| v.1)]: the first entry with the least expiry. *)
Definition oldest (m : Pmtu) : option (list byte) :=
  fst <$> foldr (λ p acc, match acc with
                          | Some q => if p.2.2 <=? q.2.2 then Some p else Some q
                          | None => Some p
                          end) None (btree_iter m).

Definition pmtu_update (m : Pmtu) (dst : ip4) (mtu dev_mtu now : Z) : Pmtu :=
  let old := pmtu_get m dst dev_mtu now in
  if old <? mtu then m else
  let mtu := if mtu <? MIN_PMTU then Z.min old MIN_PMTU else mtu in
  let m := if (PMTU_MAX <=? Z.of_nat (size m)) && negb (bool_decide (is_Some (m !! dst)))
           then match oldest m with Some k => delete k m | None => m end else m in
  <[dst := (mtu, u64 (now + MTU_EXPIRES))]> m.

(** ** ICMP errors *)
Definition ICMP_DEST_UNREACH := 3.
Definition ICMP_TIME_EXCEEDED := 11.
Definition ICMP_PARAMETERPROB := 12.
Definition ICMP_FRAG_NEEDED := 4.
Definition ICMP_EXC_FRAGTIME := 1.
Definition NR_ICMP_UNREACH := 15.

Record IcmpError := { kind : Z; code : Z; info : Z; inner : list byte }.

Definition inner_dst (e : IcmpError) : res unit ip4 := unwrap (sub (inner e) 16 4).
Definition inner_proto (e : IcmpError) : res unit Z := u8_at (inner e) 9.
Definition transport (e : IcmpError) : res unit (list byte) :=
  b0 ← u8_at (inner e) 0;
  let ihl := Z.land b0 0x0f * 4 in
  unwrap (sub (inner e) ihl (zlen (inner e) - ihl)).

(** [info] of a message of [kind] and [code]: the next hop's MTU, the pointer, or 0;
    [None] for what is not reported. *)
Definition icmp_info (icmp : list byte) (kind code : Z) : res unit (option Z) :=
  if kind =? ICMP_DEST_UNREACH then
    if NR_ICMP_UNREACH <? code then mret None
    else if code =? ICMP_FRAG_NEEDED then Some <$> be16_at icmp 6 else mret (Some 0)
  else if kind =? ICMP_PARAMETERPROB then Some <$> u8_at icmp 4
  else if kind =? ICMP_TIME_EXCEEDED then
    if code =? ICMP_EXC_FRAGTIME then mret None else mret (Some 0)
  else mret None.

Definition icmp_error (icmp : list byte) (our_ip : ip4) : res unit (option IcmpError) :=
  if zlen icmp <? 8 then mret None else
  kind ← u8_at icmp 0; code ← u8_at icmp 1;
  i ← icmp_info icmp kind code;
  match i with
  | None => mret None
  | Some info =>
      inner ← unwrap (sub icmp 8 (zlen icmp - 8));
      if zlen inner <? 20 then mret None else
      b0 ← u8_at inner 0;
      if negb (Z.shiftr b0 4 =? 4) then mret None else
      let ihl := Z.land b0 0x0f * 4 in
      if (ihl <? 20) || (zlen inner <? ihl + 8) then mret None else
      src ← unwrap (sub inner 12 4);
      if negb (bool_decide (src = our_ip)) then mret None
      else mret (Some {| kind := kind; code := code; info := info; inner := inner |})
  end.

Definition is_error_type (t : Z) : bool := negb (existsb (Z.eqb t) [0; 8; 13; 14; 15; 16; 17; 18]).

Definition icmp_error_message (orig : list byte) (kind code info : Z) : res unit (option (list byte)) :=
  if zlen orig <? 20 then mret None else
  b0 ← u8_at orig 0;
  let ihl := Z.land b0 0x0f * 4 in
  off ← be16_at orig 6;
  if negb (Z.land off 0x1fff =? 0) then mret None else
  proto ← u8_at orig 9;
  about_error ← (if proto =? 1 then
                   if zlen orig <=? ihl then mret true else t ← u8_at orig ihl; mret (is_error_type t)
                 else mret false);
  if about_error : bool then mret None else
  let room := 576 - 20 - 8 in
  quoted ← unwrap (sub orig 0 (Z.min (zlen orig) room));
  let m := [byte_of kind; byte_of code; x00; x00] ++ be32 info ++ quoted in
  let c := not16 (csum.fold (csum.sum m)) in
  m ← unwrap (splice m 2 (be16 c));
  mret (Some m).

(** ** The limits on ICMP errors *)
Definition HZ := 100.
Definition MSGS_PER_SEC := 1000.
Definition MSGS_BURST := 50.
Definition RATELIMIT := HZ.
Definition XRLIM_BURST_FACTOR := 6.
Definition RATEMASK := 0x1818.
Definition PEERS_MAX := 65536 + 128.
Definition PEER_MINTTL := 120 * HZ.

Record IcmpLimit := {
  credit : Z;
  stamp : Z;
  (** Per destination: tokens and when they were last topped up. *)
  peers : gmap (list byte) (Z * Z) }.

Definition icmp_limit_new : IcmpLimit := {| credit := 0; stamp := 0; peers := ∅ |}.

(** [icmpv4_mask_allow]: never limited. *)
Definition unlimited (kind code : Z) : bool :=
  (18 <? kind) || (Z.land RATEMASK (Z.shiftl 1 kind) =? 0) || ((kind =? ICMP_DEST_UNREACH) && (code =? ICMP_FRAG_NEEDED)).

(** [icmp_global_allow]: the credit topped up, [None] when there is none. *)
Definition global_allow (l : IcmpLimit) (now : Z) : option IcmpLimit :=
  if 0 <? credit l then Some l else
  let delta := Z.min (sat_sub now (stamp l)) HZ in
  if delta <? HZ / 50 then None else
  let incr := MSGS_PER_SEC * delta / HZ in
  if incr =? 0 then None
  else Some {| credit := Z.min (credit l + incr) MSGS_BURST; stamp := now; peers := peers l |}.

Definition peers_full (l : IcmpLimit) (dst : ip4) : bool :=
  (PEERS_MAX <=? Z.of_nat (size (peers l))) && negb (bool_decide (is_Some (peers l !! dst))).

(** [inet_peer_xrlim_allow]. *)
Definition peer_allow (l : IcmpLimit) (dst : ip4) (now : Z) : bool * IcmpLimit :=
  let with_peers ps := {| credit := credit l; stamp := stamp l; peers := ps |} in
  let l := if peers_full l dst
           then with_peers (filter (λ p, sat_sub now p.2.2 < PEER_MINTTL) (peers l)) else l in
  let with_peers ps := {| credit := credit l; stamp := stamp l; peers := ps |} in
  if peers_full l dst then (true, l) else
  let '(tokens, at') := default (XRLIM_BURST_FACTOR * RATELIMIT, now) (peers l !! dst) in
  let delta := sat_sub now at' in
  let '(tokens, at') :=
    if 0 <? delta then (Z.min (tokens + delta) (XRLIM_BURST_FACTOR * RATELIMIT), now) else (tokens, at') in
  if RATELIMIT <=? tokens then (true, with_peers (<[dst := (tokens - RATELIMIT, at')]> (peers l)))
  else (false, with_peers (<[dst := (tokens, at')]> (peers l))).

(** [rnd3] is what the random source draws from 0..3. *)
Definition allow (l : IcmpLimit) (dst : ip4) (kind code now rnd3 : Z) : bool * IcmpLimit :=
  if unlimited kind code then (true, l) else
  match global_allow l now with
  | None => (false, l)
  | Some l =>
      let '(ok, l) := peer_allow l dst now in
      if ok : bool then (true, {| credit := credit l - rnd3; stamp := stamp l; peers := peers l |}) else (false, l)
  end.

(** ** Routes *)
Record Route := { r_dst : ip4; r_len : Z; r_gw : ip4 }.
#[global] Instance Route_eq_dec : EqDecision Route.
Proof. solve_decision. Defined.

(** [u32::MAX << (32 - len)]: the shift is taken modulo the width. *)
Definition prefix_mask (len : Z) : Z :=
  if len =? 0 then 0 else u32 (Z.shiftl (2 ^ 32 - 1) ((32 - len) `mod` 32)).
Definition covers (r : Route) (a : ip4) : bool :=
  Z.land (u32_of a) (prefix_mask (r_len r)) =? Z.land (u32_of (r_dst r)) (prefix_mask (r_len r)).

(** [for r in &self.list]. *)
Fixpoint best_route (list : list Route) (best : option Route) (dst : ip4) : option Route :=
  match list with
  | [] => best
  | r :: list =>
      best_route list
        (if covers r dst && match best with None => true | Some b => r_len b <? r_len r end then Some r else best) dst
  end.

Definition next_hop (list : list Route) (dst : ip4) : option ip4 :=
  (λ r, if is_zero (r_gw r) then dst else r_gw r) <$> best_route list None dst.

Definition default_gateway (list : list Route) : option ip4 :=
  r_gw <$> head (filter (λ r, r_len r = 0 ∧ r_gw r ≠ zero4) list).

End ip.
