(* ===== verification/IpSpec.v ===== *)
(** * What the IPv4 checks guarantee

    The option parser is total and names an offending byte inside the options; a
    datagram delivered to us can be answered; routing is longest-prefix match; path
    MTUs only fall, to a floor, in a bounded table; ICMP errors are read back as
    written, and their rate per destination is bounded by the token bucket. *)

From S2P Require Import Prelude Bytes NetBytes Csum Ip.
Import ip.

(** ** Options *)

(** How a run of the option code may end: in a result, or in an error at a byte of
    the [n] bytes from offset [i]. *)
Definition ends_in {A} (i n : Z) (P : A → Prop) (r : res (Drop * Z) A) : Prop :=
  match r with
  | Ok a => P a
  | Err (d, p) => d = BadOptions ∧ i ≤ p < i + n
  | Panic => False
  end.

Lemma ends_bind {A B} i n (P : A → Prop) (Q : B → Prop) (m : res (Drop * Z) A) (k : A → res (Drop * Z) B) :
  ends_in i n P m → (∀ a, P a → ends_in i n Q (k a)) → ends_in i n Q (m ≫= k).
Proof. destruct m as [a|[d p]|]; simpl; [auto|done|done]. Qed.

Lemma ends_bad {A} i n (P : A → Prop) p : i ≤ p < i + n → ends_in i n P (bad p).
Proof. done. Qed.

Lemma ends_widen {A} i n j m (P : A → Prop) r : ends_in i n P r → j ≤ i → i + n ≤ j + m → ends_in j m P r.
Proof. destruct r as [a|[d p]|]; simpl; [done| |done]. intros [-> ?] ??. split; [done|lia]. Qed.

Lemma ends_u8 {B} i n (Q : B → Prop) buf j (k : Z → res (Drop * Z) B) :
  0 ≤ j < zlen buf → (∀ v, 0 ≤ v < 256 → u8_at (E := Drop * Z) buf j = Ok v → ends_in i n Q (k v)) → ends_in i n Q (u8_at buf j ≫= k).
Proof. intros Hj H. destruct (u8_at_ok (E := Drop * Z) buf j Hj) as (v & E & Hv). rewrite E. simpl. auto. Qed.

Ltac opt_step :=
  match goal with
  | |- ends_in _ _ _ (if ?c then _ else _) => destruct c eqn:?
  | |- ends_in _ _ _ (bad _) => apply ends_bad; lia
  | |- ends_in _ _ _ (u8_at _ _ ≫= _) => apply ends_u8; [lia|intros ? ? ?]
  | |- ends_in _ _ _ (Ok _) => simpl
  end.

Lemma cipso_tags_ends fuel o i j : 0 ≤ i → 6 ≤ j ≤ zlen o → zlen o - j < Z.of_nat fuel → ends_in i (zlen o) (λ _, True) (cipso_tags fuel o i (zlen o) j).
Proof.
  intros Hi. revert j. induction fuel as [|fuel IH]; intros j Hj Hf; simpl; [lia|].
  repeat opt_step; try done. apply IH; lia.
Qed.

Lemma timestamp_ends o i : 0 ≤ i → 4 ≤ zlen o → ends_in i (zlen o) (λ _, True) (timestamp_ok o i (zlen o)).
Proof. intros. unfold timestamp_ok. repeat opt_step; done. Qed.

(** ** The chain an option list is

    A list of options, each with its length in its second byte, up to an END or the
    end of the bytes. *)
Inductive opt_chain : list byte → list (list byte) → Prop :=
  | chain_nil : opt_chain [] []
  | chain_end rest : opt_chain (x00 :: rest) []
  | chain_noop rest os : opt_chain rest os → opt_chain (x01 :: rest) os
  | chain_opt t l body rest os :
      1 < bval t → bval l = zlen (t :: l :: body) → opt_chain rest os →
      opt_chain (t :: l :: body ++ rest) ((t :: l :: body) :: os).

Definition source_route (o : list byte) : bool :=
  match o with t :: _ => (bval t =? IPOPT_SSRR) || (bval t =? IPOPT_LSRR) | [] => false end.

Lemma option_ends s o i : 0 ≤ i → 2 ≤ zlen o →
  ends_in i (zlen o) (λ s', srr s' = srr s || source_route o) (option_ok s o i (zlen o)).
Proof.
  intros Hi Hl. destruct o as [|t o']; [unfold zlen in Hl; simpl in Hl; lia|]. set (o := t :: o') in *.
  assert (source_route o = ((bval t =? IPOPT_SSRR) || (bval t =? IPOPT_LSRR))) as -> by done.
  unfold option_ok. assert (u8_at (E := Drop * Z) o 0 = Ok (bval t)) as -> by done. rewrite bind_ok. clearbody o.
  destruct ((bval t =? IPOPT_SSRR) || (bval t =? IPOPT_LSRR)) eqn:Et. { repeat opt_step; by rewrite ?orb_true_r. }
  rewrite orb_false_r. repeat opt_step; try done.
  - eapply ends_bind; [by apply timestamp_ends; lia|]. done.
  - rewrite unwrap_sub_ok by lia. rewrite bind_ok. opt_step; [opt_step|]. eapply ends_bind; [apply cipso_tags_ends; unfold zlen in *; lia|]. done.
Qed.

Lemma options_loop_ends fuel opts s i : 0 ≤ i ≤ zlen opts → zlen opts - i < Z.of_nat fuel →
  ends_in 0 (zlen opts) (λ s', ∃ os, opt_chain (drop (Z.to_nat i) opts) os ∧ srr s' = srr s || existsb source_route os)
    (options_loop fuel opts s i).
Proof.
  revert s i. induction fuel as [|fuel IH]; intros s i Hi Hf; cbn [options_loop]; [lia|].
  destruct (Z.ltb_spec i (zlen opts)) as [Hlt|]; cbn [negb].
  2: { simpl. exists []. rewrite drop_ge by (unfold zlen in *; lia). split; [constructor|]. by rewrite orb_false_r. }
  destruct (drop (Z.to_nat i) opts) as [|t rest] eqn:Ed.
  { apply (f_equal length) in Ed. rewrite length_drop in Ed. unfold zlen in *. simpl in Ed. lia. }
  assert (at_ opts i = Some t) as Et by (apply at_sub; unfold raw_sub; rewrite Ed; split; [lia|done]).
  rewrite (u8_at_Some _ _ _ Et), bind_ok.
  assert (zlen opts - i = 1 + zlen rest) as Hr by (apply (f_equal length) in Ed; rewrite length_drop in Ed; unfold zlen in *; simpl in Ed; lia).
  assert (drop (Z.to_nat (i + 1)) opts = rest) as Ed1.
  { replace (Z.to_nat (i + 1)) with (Z.to_nat i + 1)%nat by lia. by rewrite <- drop_drop, Ed. }
  unfold IPOPT_END, IPOPT_NOOP. pose proof (bval_range t).
  destruct (Z.eqb_spec (bval t) 0) as [E0|E0].
  { simpl. exists []. rewrite (bval_inj t x00) by done. split; [constructor|]. by rewrite orb_false_r. }
  destruct (Z.eqb_spec (bval t) 1) as [E1|E1].
  { rewrite (bval_inj t x01) by done. specialize (IH s (i + 1) ltac:(lia) ltac:(lia)). rewrite Ed1 in IH.
    destruct (options_loop _ _ _ _) as [s'|[]|]; simpl in *; [|done..]. destruct IH as (os & Hc & Hs). exists os. by split; [constructor|]. }
  destruct (Z.ltb_spec (zlen opts - i) 2); [apply ends_bad; lia|].
  destruct rest as [|l rest]; [unfold zlen in *; simpl in *; lia|]. rewrite zlen_cons in Hr.
  assert (at_ opts (i + 1) = Some l) as El by (apply at_sub; unfold raw_sub; rewrite Ed1; split; [lia|done]).
  rewrite (u8_at_Some _ _ _ El), bind_ok. pose proof (bval_range l).
  destruct (_ || _) eqn:Eb; [apply ends_bad; lia|]. rewrite unwrap_sub_ok by lia. rewrite bind_ok.
  set (k := Z.to_nat (bval l - 2)).
  assert (raw_sub opts i (bval l) = t :: l :: take k rest) as Eo.
  { unfold raw_sub. rewrite Ed. replace (Z.to_nat (bval l)) with (S (S k)) by lia. done. }
  assert (drop (Z.to_nat (i + bval l)) opts = drop k rest) as Er.
  { replace (Z.to_nat (i + bval l)) with (Z.to_nat i + S (S k))%nat by lia. by rewrite <- drop_drop, Ed. }
  pose proof (zlen_raw_sub opts i (bval l) ltac:(lia) ltac:(lia) ltac:(lia)) as Lo. rewrite Eo in *.
  pose proof (option_ends s (t :: l :: take k rest) i ltac:(lia) ltac:(lia)) as Ho. rewrite Lo in Ho.
  eapply ends_bind; [eapply ends_widen; [exact Ho|lia..]|]. cbn beta. intros s1 Hs1.
  specialize (IH s1 (i + bval l) ltac:(lia) ltac:(lia)). rewrite Er in IH.
  destruct (options_loop _ _ _ _) as [s'|[]|]; simpl in *; [|done..]. destruct IH as (os & Hc & ->).
  exists ((t :: l :: take k rest) :: os). split; [|rewrite Hs1; symmetry; apply orb_assoc].
  rewrite <- (take_drop k rest) at 1. constructor; [lia|done|done].
Qed.

(** C40. Checking the options of a datagram ends without a panic whatever the bytes
    are.  An accepted list is a chain of options that fit in it with no source route
    among them; a rejected one names a byte inside the options, or is such a chain
    with a source route. *)
Theorem options_checked opts :
  match options_ok opts with
  | Ok _ => ∃ os, opt_chain opts os ∧ existsb source_route os = false
  | Err (BadOptions, p) => 0 ≤ p < zlen opts
  | Err (SourceRoute, p) => p = 0 ∧ ∃ os, opt_chain opts os ∧ existsb source_route os = true
  | _ => False
  end.
Proof.
  unfold options_ok. pose proof (zlen_nonneg opts) as Hn. pose proof (options_loop_ends (S (length opts)) opts none_seen 0) as H.
  specialize (H ltac:(lia) ltac:(unfold zlen; lia)). destruct (options_loop _ _ _ _) as [s|[d p]|]; [|by destruct H as [-> H]|done].
  rewrite bind_ok. destruct H as (os & Hc & Hs). simpl in Hs. rewrite Hs. destruct (existsb _ _) eqn:E; eauto.
Qed.

(** ** Routes *)

(** The address's first [len] bits. *)
Definition prefix (len : Z) (a : ip4) : Z := u32_of a / 2 ^ (32 - len).

Lemma mask_prefix len a : length a = 4%nat → 0 ≤ len ≤ 32 → Z.land (u32_of a) (prefix_mask len) = prefix len a * 2 ^ (32 - len).
Proof.
  intros La Hl. unfold prefix, prefix_mask. pose proof (of_be_range a) as Ha. unfold zlen in Ha. rewrite La in Ha. change (256 ^ Z.of_nat 4) with (2 ^ 32) in Ha.
  fold (u32_of a) in Ha. destruct (Z.eqb_spec len 0) as [->|Hz].
  { rewrite Z.land_0_r, Z.div_small by lia. done. }
  rewrite (Z.mod_small (32 - len)) by lia. rewrite <- Z.shiftr_div_pow2, <- Z.shiftl_mul_pow2 by lia.
  apply Z.bits_inj'. intros n Hn. unfold wrap. rewrite Z.land_spec, Z.shiftl_spec by lia.
  change (2 ^ 32 - 1) with (Z.ones 32). destruct (Z.lt_ge_cases n 32) as [H32|H32].
  - rewrite Z.mod_pow2_bits_low, Z.shiftl_spec by lia. destruct (Z.lt_ge_cases n (32 - len)).
    + rewrite !(Z.testbit_neg_r _ (n - (32 - len))) by lia. by rewrite andb_false_r.
    + rewrite Z.ones_spec_low, Z.shiftr_spec by lia. rewrite andb_true_r. f_equal. lia.
  - rewrite Z.mod_pow2_bits_high, andb_false_r by lia. rewrite Z.shiftr_spec by lia. symmetry.
    replace (n - (32 - len) + (32 - len)) with n by lia. destruct (Z.eq_dec (u32_of a) 0) as [->|]; [by rewrite Z.testbit_0_l|].
    apply Z.bits_above_log2; [lia|]. apply Z.log2_lt_pow2; [lia|]. apply (Z.lt_le_trans _ (2 ^ 32)); [lia|]. apply Z.pow_le_mono_r; lia.
Qed.

Definition route_wf (r : Route) : Prop := length (r_dst r) = 4%nat ∧ 0 ≤ r_len r ≤ 32.

Lemma covers_prefix r a : route_wf r → length a = 4%nat → covers r a = true ↔ prefix (r_len r) a = prefix (r_len r) (r_dst r).
Proof.
  intros [Hd Hl] La. unfold covers. rewrite !mask_prefix, Z.eqb_eq by done. pose proof (Z.pow_pos_nonneg 2 (32 - r_len r)). nia.
Qed.

(** [r] is what routing to [dst] chooses: of the routes that cover it the first of
    the longest. *)
Definition chosen (list : list Route) (dst : ip4) (r : Route) : Prop :=
  ∃ pre post, list = pre ++ r :: post ∧ prefix (r_len r) dst = prefix (r_len r) (r_dst r) ∧
    Forall (λ r', prefix (r_len r') dst = prefix (r_len r') (r_dst r') → r_len r' < r_len r) pre ∧
    Forall (λ r', prefix (r_len r') dst = prefix (r_len r') (r_dst r') → r_len r' ≤ r_len r) post.

Lemma best_route_from list b dst : Forall route_wf list → length dst = 4%nat →
  (best_route list (Some b) dst = Some b ∧ Forall (λ r', prefix (r_len r') dst = prefix (r_len r') (r_dst r') → r_len r' ≤ r_len b) list) ∨
  (∃ r, best_route list (Some b) dst = Some r ∧ r_len b < r_len r ∧ chosen list dst r).
Proof.
  intros Hw Hd. revert b. induction Hw as [|r list Hr Hw IH]; intros b; simpl; [left; by split|].
  destruct (covers r dst) eqn:Ec; simpl.
  - apply covers_prefix in Ec; [|done..]. destruct (Z.ltb_spec (r_len b) (r_len r)).
    + right. destruct (IH r) as [[-> Hf]|(r1 & -> & Hlt & pre & post & -> & Hp & H1 & H2)].
      * exists r. split_and!; [done..|]. exists [], list. by split_and!.
      * exists r1. split_and!; [done|lia|]. exists (r :: pre), post. split_and!; [done..| |done]. by constructor.
    + destruct (IH b) as [[-> Hf]|(r1 & -> & Hlt & pre & post & -> & Hp & H1 & H2)].
      * left. split; [done|]. constructor; [lia|done].
      * right. exists r1. split_and!; [done|lia|]. exists (r :: pre), post. split_and!; [done..| |done]. constructor; [lia|done].
  - assert (prefix (r_len r) dst ≠ prefix (r_len r) (r_dst r)) as Hn by (rewrite <- covers_prefix by done; by rewrite Ec).
    destruct (IH b) as [[-> Hf]|(r1 & -> & Hlt & pre & post & -> & Hp & H1 & H2)].
    + left. split; [done|]. by constructor.
    + right. exists r1. split_and!; [done..|]. exists (r :: pre), post. split_and!; [done..| |done]. by constructor.
Qed.

(** C38. A datagram is routed by longest-prefix match: the route chosen covers the
    destination and no other that does is longer, the first of equals; the next hop
    is its gateway, or the destination itself on-link.  There is none exactly when
    no route covers the destination. *)
Theorem next_hop_longest_prefix list dst : Forall route_wf list → length dst = 4%nat →
  match next_hop list dst with
  | Some hop => ∃ r, chosen list dst r ∧ hop = (if is_zero (r_gw r) then dst else r_gw r)
  | None => Forall (λ r, prefix (r_len r) dst ≠ prefix (r_len r) (r_dst r)) list
  end.
Proof.
  intros Hw Hd. unfold next_hop. induction Hw as [|r list Hr Hw IH]; simpl; [done|]. rewrite andb_true_r.
  destruct (covers r dst) eqn:Ec.
  - apply covers_prefix in Ec; [|done..]. destruct (best_route_from list r dst Hw Hd) as [[-> Hf]|(r1 & -> & Hlt & pre & post & -> & Hp & H1 & H2)]; simpl.
    + exists r. split; [|done]. exists [], list. by split_and!.
    + exists r1. split; [|done]. exists (r :: pre), post. split_and!; [done..| |done]. by constructor.
  - assert (prefix (r_len r) dst ≠ prefix (r_len r) (r_dst r)) as Hn by (rewrite <- covers_prefix by done; by rewrite Ec).
    destruct (best_route list None dst) as [r1|]; simpl in *; [|by constructor].
    destruct IH as (r2 & (pre & post & -> & Hp & H1 & H2) & E). exists r2. split; [|done]. exists (r :: pre), post. split_and!; [done..| |done]. by constructor.
Qed.

(** ** Delivery *)

Lemma early_ok l2 src dst : early l2 src dst = Ok tt →
  is_multicast src = false ∧ is_lbcast src = false ∧
  (is_lbcast dst || (is_zero src && is_zero dst) = true ∨ is_zeronet src = false ∧ is_loopback src = false).
Proof.
  unfold early. case_bool_decide; [done|]. destruct (is_multicast src), (is_lbcast src); simpl; try done.
  destruct (_ || _); [by auto|]. destruct (is_zeronet src), (is_zeronet dst), (is_loopback dst), (is_loopback src); try done; auto.
Qed.

(** Whoever sent a datagram that was delivered to our address can be answered by
    a stream: its source is no multicast, broadcast, loopback, zero or own address
    and no broadcast address of our network; only 240/4, accepted as a source, is
    refused as a destination.  The frame was for this host. *)
Theorem delivered_can_be_answered f l2 src dst dhcp : input_route f l2 src dst dhcp = Ok Local →
  l2 = Host ∧ (configured f = true → src ≠ if_ip f) ∧ output_ok f src true = negb (is_reserved src).
Proof.
  unfold input_route. destruct (early l2 src dst) as [[]| |] eqn:Ee; [|done..]. apply early_ok in Ee as (Hm & Hb & Hz). rewrite bind_ok.
  unfold input_dest. cbv zeta. destruct (_ || _ || _) eqn:Eb.
  { rewrite bind_ok. intros H. exfalso. repeat case_match; simplify_eq. }
  apply orb_false_iff in Eb as [Eb _]. destruct Hz as [Hz|[Hz Hl]]; [congruence|]. intros H.
  assert (negb (bool_decide (l2 = Host)) = false ∧ source_ok f src = true) as [Hh Hs].
  { assert (∀ c : bool, (if c then Ok Local else Err NotForUs) ≫= (λ dest, if bool_decide (dest = Local) && negb (bool_decide (l2 = Host)) then Err UnicastInL2Multicast
        else if negb (is_zeronet src) && negb (source_ok f src) then Err MartianSource else Ok dest) = Ok Local →
        negb (bool_decide (l2 = Host)) = false ∧ source_ok f src = true) as Hc.
    { intros [] Hc; [|done]. rewrite bind_ok, bool_decide_true, Hz in Hc by done. by destruct (negb _), (source_ok f src). }
    destruct (configured f && _); [by apply (Hc true)|]. exact (Hc _ H). }
  apply negb_false_iff, bool_decide_eq_true in Hh. unfold source_ok in Hs. apply andb_true_iff in Hs as [Hs1 Hs2]. apply negb_true_iff in Hs2.
  split_and!; [done| |].
  - intros Hc ->. by rewrite Hc, bool_decide_true in Hs1 by done.
  - unfold output_ok. rewrite Hl, Hz, Hm, Hb, Hs2. by destruct (is_reserved src).
Qed.

(** ** Path MTU *)
Lemma oldest_Some m : m ≠ ∅ → ∃ k, oldest m = Some k ∧ is_Some (m !! k).
Proof.
  intros Hm. unfold oldest. assert (∀ ps, (∀ p, p ∈ ps → m !! p.1 = Some p.2) → ps ≠ [] →
    ∃ p, foldr (λ p acc, match acc with Some q => if p.2.2 <=? q.2.2 then Some p else Some q | None => Some p end) None ps = Some p ∧ m !! p.1 = Some p.2) as H.
  { induction ps as [|p ps IH]; intros Hp Hn; [done|]. simpl. destruct ps as [|p' ps]; [exists p; simpl; split; [done|]; apply Hp; left|].
    destruct IH as (q & -> & Hq); [intros ??; apply Hp; by right|done|]. destruct (_ <=? _); eexists; split; eauto. apply Hp. left. }
  destruct (H (btree_iter m)) as (p & -> & Hp).
  - intros [k v] Hk. by apply elem_of_btree_iter.
  - intros E. apply Hm, map_to_list_empty_iff. apply Permutation_nil_r. by rewrite <- E, btree_iter_perm.
  - simpl. eauto.
Qed.

Lemma pmtu_update_size m dst mtu dev now : Z.of_nat (size m) ≤ PMTU_MAX → Z.of_nat (size (pmtu_update m dst mtu dev now)) ≤ PMTU_MAX.
Proof.
  intros Hs. unfold pmtu_update. destruct (_ <? _); [done|]. cbv zeta. destruct (m !! dst) as [v|] eqn:E.
  - rewrite bool_decide_true by done. rewrite andb_false_r, map_size_insert, E. done.
  - rewrite bool_decide_false by (by intros [? [=]]). rewrite andb_true_r. destruct (Z.leb_spec PMTU_MAX (Z.of_nat (size m))).
    + destruct (oldest_Some m) as (k & -> & v & Hk); [intros ->; rewrite map_size_empty in *; unfold PMTU_MAX in *; lia|].
      assert (k ≠ dst) by congruence. rewrite map_size_insert, lookup_delete_ne, E by done. rewrite map_size_delete, Hk.
      assert (size m ≠ 0%nat) by (intros E0; apply map_size_empty_iff in E0; by subst). lia.
    + rewrite map_size_insert, E. lia.
Qed.

(** A router's Fragmentation Needed only lowers the path MTU to its destination,
    never below 552 bytes unless it was there already, and to exactly what the router
    said when that is no less; other destinations keep theirs while the table has
    room, and the table stays within its limit. *)
Theorem pmtu_only_falls m dst mtu dev now :
  0 ≤ now → now + MTU_EXPIRES < 2 ^ 64 →
  let m' := pmtu_update m dst mtu dev now in
  let old := pmtu_get m dst dev now in
  Z.min MIN_PMTU old ≤ pmtu_get m' dst dev now ≤ old ∧
  (MIN_PMTU ≤ mtu ≤ old → pmtu_get m' dst dev now = mtu) ∧
  (Z.of_nat (size m) ≤ PMTU_MAX → Z.of_nat (size m') ≤ PMTU_MAX) ∧
  (∀ d dev' now', d ≠ dst → Z.of_nat (size m) < PMTU_MAX → pmtu_get m' d dev' now' = pmtu_get m d dev' now').
Proof.
  intros H0 Hn m' old. split_and!; [| | |apply pmtu_update_size|].
  all: assert (old ≤ dev) as Hd by (unfold old, pmtu_get; repeat case_match; lia).
  all: subst m'; unfold pmtu_update; cbv zeta; fold old; destruct (Z.ltb_spec old mtu) as [Hlt|Hge].
  all: try (fold old; lia).
  all: try done.
  4: { intros d dev' now' Hne Hs. rewrite (proj2 (Z.leb_gt PMTU_MAX _)) by done. simpl. unfold pmtu_get. by rewrite lookup_insert_ne by done. }
  all: unfold pmtu_get at 1; rewrite lookup_insert_eq.
  all: rewrite wrap_small by (unfold fits, MTU_EXPIRES in *; lia); rewrite (proj2 (Z.ltb_lt now _)) by (unfold MTU_EXPIRES; lia).
  all: destruct (Z.ltb_spec mtu MIN_PMTU); lia.
Qed.

(** ** ICMP errors *)

(** A datagram whose header is whole: version 4, a header of at least 20 bytes, eight
    bytes after it, from [src]. *)
Definition quotable (orig : list byte) (src : ip4) : Prop :=
  ∃ b0, orig !! 0%nat = Some b0 ∧ Z.shiftr (bval b0) 4 = 4 ∧ 20 ≤ Z.land (bval b0) 0x0f * 4 ∧
    Z.land (bval b0) 0x0f * 4 + 8 ≤ zlen orig ∧ raw_sub orig 12 4 = src.

(** What [icmp_error] reads of the [info] word. *)
Definition info_read (kind code info : Z) : Z :=
  if kind =? ICMP_DEST_UNREACH then if code =? ICMP_FRAG_NEEDED then info `mod` 2 ^ 16 else 0
  else if kind =? ICMP_PARAMETERPROB then info / 2 ^ 24 else 0.

(** The kinds and codes that are reported. *)
Definition reported (kind code : Z) : Prop :=
  kind = ICMP_DEST_UNREACH ∧ code ≤ NR_ICMP_UNREACH ∨ kind = ICMP_PARAMETERPROB ∨ kind = ICMP_TIME_EXCEEDED ∧ code ≠ ICMP_EXC_FRAGTIME.

Lemma be32_bytes z : fits 32 z → ∃ a b c d, be32 z = [a; b; c; d] ∧ bval a = z / 2 ^ 24 ∧ of_be [c; d] = z `mod` 2 ^ 16.
Proof.
  intros Hz. pose proof (of_be32 z Hz) as E. pose proof (zlen_be32 z) as L.
  destruct (be32 z) as [|a [|b [|c [|d [|]]]]]; unfold zlen in L; simpl in L; try lia. exists a, b, c, d. split; [done|].
  rewrite of_be_quad, of_be_word in E. pose proof (of_be_range [c; d]) as R. change (256 ^ zlen [c; d]) with (2 ^ 16) in R.
  pose proof (bval_range a). pose proof (bval_range b). split.
  - subst z. apply (Z.div_unique _ _ _ (bval b * 2 ^ 16 + of_be [c; d])); lia.
  - subst z. apply (Z.mod_unique _ _ (bval a * 256 + bval b)); lia.
Qed.

Lemma be16_bytes z : ∃ a b, be16 z = [a; b].
Proof. pose proof (zlen_be16 z) as L. destruct (be16 z) as [|a [|b [|]]]; unfold zlen in L; simpl in L; try lia. eauto. Qed.

(** What an ICMP error looks like on the wire. *)
Lemma icmp_message_shape orig kind code info m :
  icmp_error_message orig kind code info = Ok (Some m) →
  ∃ c, m = [byte_of kind; byte_of code] ++ be16 c ++ be32 info ++ take 548 orig ∧ csum.fold (csum.sum m) = 65535 ∧ 20 ≤ zlen orig.
Proof.
  unfold icmp_error_message. destruct (Z.ltb_spec (zlen orig) 20) as [|Hl]; [done|].
  destruct (u8_at_ok (E := unit) orig 0) as (b0 & -> & _); [lia|]. rewrite bind_ok.
  destruct (be16_at_ok (E := unit) orig 6) as (off & -> & _); [lia..|]. rewrite bind_ok. destruct (negb _); [done|].
  destruct (u8_at_ok (E := unit) orig 9) as (pr & -> & _); [lia|]. rewrite bind_ok.
  intros H. destruct ((if pr =? 1 then _ else _) : res unit bool) as [[]| |] in H; try done.
  rewrite bind_ok, unwrap_sub_ok, bind_ok in H by lia.
  assert (raw_sub orig 0 (Z.min (zlen orig) (576 - 20 - 8)) = take 548 orig) as Eq.
  { unfold raw_sub. rewrite drop_0. unfold zlen. destruct (Z.min_spec (Z.of_nat (length orig)) 548) as [[? E]|[? E]]; change (576 - 20 - 8) with 548; rewrite E; [|done].
    rewrite !take_ge; [done|lia|lia]. }
  rewrite Eq in H. set (m0 := [byte_of kind; byte_of code; x00; x00] ++ be32 info ++ take 548 orig) in *.
  assert (zlen m0 = 8 + zlen (take 548 orig)) as Lm by (unfold m0; rewrite !zlen_app, zlen_be32; unfold zlen; simpl; lia).
  pose proof (zlen_nonneg (take 548 orig)). assert (zlen (take 548 orig) ≤ 548) by (unfold zlen; rewrite length_take; lia).
  rewrite splice_Some in H by (rewrite ?zlen_be16; lia). cbn [unwrap] in H. rewrite bind_ok in H. injection H as <-.
  eexists. split_and!; [| |done].
  - unfold raw_splice. rewrite zlen_be16. done.
  - apply csum_inserted_verifies; [lia|lia|by exists 1|lia|]. done.
Qed.

(** An ICMP error reported about a datagram of ours is read back as it was
    written: kind, code, the MTU or pointer, and the first 548 bytes of the datagram;
    its checksum verifies. *)
Theorem icmp_error_roundtrip orig src kind code info m :
  fits 8 kind → fits 8 code → fits 32 info → reported kind code → quotable orig src →
  icmp_error_message orig kind code info = Ok (Some m) →
  icmp_error m src = Ok (Some {| ip.kind := kind; ip.code := code; ip.info := info_read kind code info; inner := take 548 orig |}) ∧
  csum.fold (csum.sum m) = 65535 ∧ zlen m ≤ 556.
Proof.
  intros Hk Hc Hi Hr (b0 & Hb0 & Hv & Hih & Hlen & Hsrc) H. apply icmp_message_shape in H as (c & -> & Hs & Hl).
  split_and!; [|done|]. 2: { assert (zlen (take 548 orig) ≤ 548) by (unfold zlen; rewrite length_take; lia). autorewrite with npk. lia. }
  destruct (be16_bytes c) as (c1 & c2 & ->). destruct (be32_bytes info Hi) as (i0 & i1 & i2 & i3 & -> & E0 & E23).
  set (q := take 548 orig). assert (Z.land (bval b0) 15 * 4 ≤ 60) as H60.
  { change 15 with (Z.ones 4). rewrite Z.land_ones by lia. pose proof (Z.mod_pos_bound (bval b0) (2 ^ 4)). lia. }
  assert (zlen q = Z.min 548 (zlen orig)) as Lq by (unfold q, zlen; rewrite length_take; lia).
  assert (q !! 0%nat = Some b0) as Hq0 by (unfold q; by rewrite lookup_take_lt by lia).
  assert (raw_sub q 12 4 = src) as Hq1.
  { rewrite <- Hsrc. unfold raw_sub, q. rewrite skipn_firstn_comm, take_take. done. }
  cbn [app]. set (m := byte_of kind :: byte_of code :: c1 :: c2 :: i0 :: i1 :: i2 :: i3 :: q).
  assert (zlen m = 8 + zlen q) as Lm by (unfold m, zlen; simpl; lia). clearbody q. pose proof (zlen_nonneg q).
  unfold icmp_error. rewrite (proj2 (Z.ltb_ge _ 8)) by lia.
  assert (u8_at (E := unit) m 0 = Ok kind) as -> by (unfold u8_at; simpl; rewrite bval_byte_of; f_equal; by apply Z.mod_small).
  assert (u8_at (E := unit) m 1 = Ok code) as -> by (unfold u8_at; simpl; rewrite bval_byte_of; f_equal; by apply Z.mod_small).
  rewrite !bind_ok. assert (icmp_info m kind code = Ok (Some (info_read kind code info))) as ->.
  { unfold icmp_info, info_read. destruct Hr as [[-> Hr]|[->|[-> Hr]]]; simpl.
    - rewrite (proj2 (Z.ltb_ge _ _)) by done. destruct (_ =? _); [|done]. unfold be16_at. simpl. by rewrite E23.
    - unfold u8_at. simpl. by rewrite E0.
    - by rewrite (proj2 (Z.eqb_neq _ _)). }
  rewrite bind_ok. rewrite unwrap_sub_ok, bind_ok by lia.
  assert (raw_sub m 8 (zlen m - 8) = q) as ->.
  { unfold raw_sub. replace (Z.to_nat (zlen m - 8)) with (length q) by (rewrite Lm; unfold zlen; lia). apply firstn_all. }
  rewrite (proj2 (Z.ltb_ge _ 20)) by lia. rewrite (u8_at_Some q 0 b0) by done. rewrite bind_ok, Hv. cbn [Z.eqb negb Pos.eqb].
  rewrite (proj2 (Z.ltb_ge _ 20)), (proj2 (Z.ltb_ge _ _)) by lia. cbn [orb]. rewrite unwrap_sub_ok, bind_ok, Hq1 by lia. by rewrite bool_decide_true.
Qed.

(** ** The rate limit *)
Record Call := { c_dst : ip4; c_kind : Z; c_code : Z; c_now : Z; c_rnd3 : Z }.

Definition step (l : IcmpLimit) (c : Call) : bool * IcmpLimit := allow l (c_dst c) (c_kind c) (c_code c) (c_now c) (c_rnd3 c).

(** The limited messages to [d] that a run of calls lets out. *)
Fixpoint sent (d : ip4) (l : IcmpLimit) (cs : list Call) : Z :=
  match cs with
  | [] => 0
  | c :: cs =>
      let '(ok, l') := step l c in
      (if ok && bool_decide (c_dst c = d) && negb (unlimited (c_kind c) (c_code c)) then 1 else 0) + sent d l' cs
  end.

(** The calls are at nondecreasing times from [t] to [u]. *)
Fixpoint timed (t u : Z) (cs : list Call) : Prop :=
  match cs with
  | [] => t ≤ u
  | c :: cs => t ≤ c_now c ∧ timed (c_now c) u cs
  end.

(** The tokens of [d] at time [t], and a table whose stamps are no later. *)
Definition tokens (l : IcmpLimit) (d : ip4) (t : Z) : Z :=
  match peers l !! d with Some (k, s) => Z.min 600 (k + (t - s)) | None => 600 end.
Definition limit_wf (D : gset (list byte)) (t : Z) (l : IcmpLimit) : Prop :=
  dom (peers l) ⊆ D ∧ map_Forall (λ _ p, 0 ≤ p.1 ≤ 600 ∧ p.2 ≤ t) (peers l).

Lemma not_full D l t d : limit_wf D t l → Z.of_nat (size D) ≤ PEERS_MAX → d ∈ D → peers_full l d = false.
Proof.
  intros [Hd _] Hs Hin. unfold peers_full. destruct (peers l !! d) as [p|] eqn:E; [by rewrite bool_decide_true, andb_false_r by done|].
  rewrite (proj2 (Z.leb_gt _ _)); [done|]. rewrite <- size_dom. assert (dom (peers l) ⊂ D) as Hsub%subset_size.
  { split; [done|]. intros Heq. apply not_elem_of_dom in E. set_solver. }
  lia.
Qed.

Lemma peer_allow_tokens D l d t : 0 ≤ t → limit_wf D t l → Z.of_nat (size D) ≤ PEERS_MAX → d ∈ D →
  let '(ok, l') := peer_allow l d t in
  limit_wf D t l' ∧ credit l' = credit l ∧ stamp l' = stamp l ∧
  ∀ d', tokens l' d' t = tokens l d' t - (if ok && bool_decide (d = d') then 100 else 0) ∧ 0 ≤ tokens l' d' t.
Proof.
  intros Ht Hw Hs Hin. unfold peer_allow. rewrite !(not_full D l t d Hw Hs Hin). destruct Hw as [Hd Hf].
  destruct (default _ _) as [k s] eqn:Ep. assert (0 ≤ k ≤ 600 ∧ s ≤ t ∧ tokens l d t = Z.min 600 (k + (t - s))) as (Hk & Hst & Et).
  { unfold tokens. destruct (peers l !! d) as [p|] eqn:E; simpl in Ep; subst.
    - destruct (Hf _ _ E) as [??]. done.
    - injection Ep as <- <-. unfold XRLIM_BURST_FACTOR, RATELIMIT, HZ. lia. }
  assert (∀ d', 0 ≤ tokens l d' t) as Hnn.
  { intros d'. unfold tokens. destruct (peers l !! d') as [[k' s']|] eqn:E; [|lia]. destruct (Hf _ _ E) as [??]. simpl in *. lia. }
  set (p := if 0 <? sat_sub t s then _ else _). assert (p = (Z.min 600 (k + (t - s)), t)) as ->.
  { subst p. unfold sat_sub. rewrite Z.max_r by lia. destruct (Z.ltb_spec 0 (t - s)); [|f_equal; lia]. f_equal. unfold XRLIM_BURST_FACTOR, RATELIMIT, HZ. lia. }
  assert (∀ v, limit_wf D t {| credit := credit l; stamp := stamp l; peers := <[d := (v, t)]> (peers l) |} ∨ ¬ 0 ≤ v ≤ 600) as Hins.
  { intros v. destruct (decide (0 ≤ v ≤ 600)); [|by right]. left. split; simpl; [set_solver|]. apply map_Forall_insert_2; [simpl; lia|done]. }
  assert (∀ v d', tokens {| credit := credit l; stamp := stamp l; peers := <[d := (v, t)]> (peers l) |} d' t = (if bool_decide (d = d') then Z.min 600 v else tokens l d' t)) as Htk.
  { intros v d'. unfold tokens at 1. simpl. case_bool_decide; [subst d'; rewrite lookup_insert_eq; lia|]. by rewrite lookup_insert_ne by done. }
  unfold RATELIMIT, HZ. destruct (Z.leb_spec 100 (Z.min 600 (k + (t - s)))).
  - split_and!; [destruct (Hins (Z.min 600 (k + (t - s)) - 100)); [done|lia]|done..|]. intros d'. rewrite Htk. specialize (Hnn d'). cbn [andb].
    case_bool_decide; [subst d'; lia|lia].
  - split_and!; [destruct (Hins (Z.min 600 (k + (t - s)))); [done|lia]|done..|]. intros d'. rewrite Htk. specialize (Hnn d'). cbn [andb].
    case_bool_decide; [subst d'; lia|lia].
Qed.

Lemma limit_wf_later D t u l : limit_wf D t l → t ≤ u → limit_wf D u l.
Proof. intros [Hd Hf] Htu. split; [done|]. eapply map_Forall_impl; [done|]. simpl. intros; lia. Qed.

Lemma tokens_later l d t u : t ≤ u → tokens l d u ≤ tokens l d t + (u - t).
Proof. intros. unfold tokens. destruct (peers l !! d) as [[k s]|]; lia. Qed.

Lemma global_allow_peers l t l' : global_allow l t = Some l' → peers l' = peers l.
Proof. unfold global_allow. intros H. repeat case_match; by simplify_eq. Qed.

Lemma sent_bounded D d cs l t u : 0 ≤ t → limit_wf D t l → Z.of_nat (size D) ≤ PEERS_MAX → Forall (λ c, c_dst c ∈ D) cs → timed t u cs →
  100 * sent d l cs ≤ tokens l d t + (u - t).
Proof.
  intros Ht Hw Hs Hc. revert l t Ht Hw. induction Hc as [|c cs Hin Hc IH]; intros l t Ht Hw; simpl.
  { intros. unfold tokens. destruct (peers l !! d) as [[k s]|] eqn:E; [|lia]. destruct Hw as [_ Hf]. destruct (Hf _ _ E). simpl in *. lia. }
  intros [Htc Hu]. pose proof (tokens_later l d t (c_now c) Htc) as Hl. pose proof (limit_wf_later _ _ _ _ Hw Htc) as Hw'.
  unfold step, allow. destruct (unlimited (c_kind c) (c_code c)); simpl.
  { rewrite andb_false_r. specialize (IH l (c_now c) ltac:(lia) Hw' Hu). lia. }
  destruct (global_allow l (c_now c)) as [l1|] eqn:Eg; simpl.
  2: { specialize (IH l (c_now c) ltac:(lia) Hw' Hu). lia. }
  apply global_allow_peers in Eg. assert (limit_wf D (c_now c) l1) as Hw1 by (unfold limit_wf; by rewrite Eg).
  pose proof (peer_allow_tokens D l1 (c_dst c) (c_now c) ltac:(lia) Hw1 Hs Hin) as Hp. destruct (peer_allow l1 (c_dst c) (c_now c)) as [ok l2].
  destruct Hp as (Hw2 & _ & _ & Htk). specialize (Htk d) as [Htk _]. assert (tokens l1 d (c_now c) = tokens l d (c_now c)) as E1 by (unfold tokens; by rewrite Eg).
  destruct ok; simpl in *; rewrite ?andb_true_r in *.
  - specialize (IH {| credit := credit l2 - c_rnd3 c; stamp := stamp l2; peers := peers l2 |} (c_now c) ltac:(lia) Hw2 Hu).
    change (tokens {| credit := _; stamp := _; peers := peers l2 |} d (c_now c)) with (tokens l2 d (c_now c)) in IH. case_bool_decide; lia.
  - specialize (IH l2 (c_now c) ltac:(lia) Hw2 Hu). lia.
Qed.


(** ** Identification *)
Section idents.
Context (keyed_hash : list byte → list byte → list byte) (keyed_hash_len : ∀ k m, zlen (keyed_hash k m) = 32).

(** A power of two of counters and stamps. *)
Definition idents_wf (t : Idents) : Prop := (∃ n, 0 ≤ n ∧ zlen (ids t) = 2 ^ n) ∧ zlen (stamps t) = zlen (ids t).

Lemma idents_new_wf key ram rnd : idents_wf (idents_new key ram rnd).
Proof.
  unfold idents_wf, idents_new, zlen. cbn [ids stamps]. rewrite length_fmap, length_seq, length_replicate. split; [|done].
  assert (∃ n, 0 ≤ n ∧ next_power_of_two (Z.shiftr ram 16) = 2 ^ n) as (n & Hn & ->).
  { unfold next_power_of_two. destruct (_ <=? _); [by exists 0|]. eexists; split; [apply Z.log2_up_nonneg|done]. }
  assert (∃ n', 0 ≤ n' ∧ clamp (2 ^ n) 2048 (256 * 1024) = 2 ^ n') as (n' & Hn' & ->).
  { unfold clamp. change 2048 with (2 ^ 11). change (256 * 1024) with (2 ^ 18).
    destruct (Z.min_spec (2 ^ 18) (2 ^ n)) as [[_ ->]|[_ ->]]; [by exists 18|]. destruct (Z.max_spec (2 ^ 11) (2 ^ n)) as [[_ ->]|[_ ->]]; [by exists n|by exists 11]. }
  exists n'. split; [done|]. rewrite Z2Nat.id; [done|]. by apply Z.pow_nonneg.
Qed.

Lemma ident_bucket_ok t dst src proto : idents_wf t → ∃ b, ident_bucket keyed_hash t dst src proto = Ok b ∧ 0 ≤ b < zlen (ids t).
Proof.
  intros [(n & Hn & Hl) _]. unfold ident_bucket. rewrite unwrap_sub_ok, bind_ok by (rewrite ?keyed_hash_len; lia). eexists; split; [done|].
  rewrite Hl. replace (2 ^ n - 1) with (Z.ones n) by (rewrite Z.ones_equiv; lia). rewrite Z.land_ones by done. apply Z.mod_pos_bound. by apply Z.pow_pos_nonneg.
Qed.

(** Choosing an identification never panics, and two datagrams of one flow in one
    tick get consecutive ones. *)
Lemma select_consecutive t dst src proto now rnd rnd' : idents_wf t →
  ∃ id t1 t2, select keyed_hash t dst src proto now rnd = Ok (u16 id, t1) ∧ idents_wf t1 ∧
    select keyed_hash t1 dst src proto now rnd' = Ok (u16 (id + 1), t2) ∧ idents_wf t2.
Proof.
  intros Hw. destruct (ident_bucket_ok t dst src proto Hw) as (b & Eb & Hb). pose proof Hw as [(n & Hn & Hl) Hs].
  destruct (at_Some (stamps t) b) as [old Ho]; [lia|]. destruct (at_Some (ids t) b) as [c Hc]; [lia|].
  set (st := if negb (old =? now) then <[Z.to_nat b := now]> (stamps t) else stamps t). set (delta := if negb (old =? now) then rnd (u32 (now - old)) else 0).
  set (t1 := {| id_key := id_key t; ids := <[Z.to_nat b := u32 (u32 (c + delta) + 1)]> (ids t); stamps := st |}).
  assert (select keyed_hash t dst src proto now rnd = Ok (u16 (u32 (c + delta)), t1)) as E1.
  { unfold select. rewrite Eb, bind_ok, Ho. cbn [unwrap]. rewrite bind_ok. unfold t1, st, delta. destruct (negb _); by rewrite Hc. }
  assert (zlen st = zlen (ids t)) as Lst by (unfold st; destruct (negb _); unfold zlen in *; rewrite ?length_insert; lia).
  assert (idents_wf t1) as Hw1 by (split; simpl; unfold zlen in *; rewrite length_insert; eauto).
  assert (ident_bucket keyed_hash t1 dst src proto = Ok b) as Eb1.
  { rewrite <- Eb. unfold ident_bucket. simpl. unfold zlen. by rewrite length_insert. }
  assert (at_ st b = Some now) as Ho1.
  { unfold at_ in *. rewrite (proj2 (Z.leb_le 0 b)) in * by lia. unfold st. destruct (Z.eqb_spec old now) as [->|]; simpl; [done|].
    apply list_lookup_insert_eq. unfold zlen in *. lia. }
  assert (at_ (ids t1) b = Some (u32 (u32 (c + delta) + 1))) as Hc1.
  { unfold at_. rewrite (proj2 (Z.leb_le 0 b)) by lia. apply list_lookup_insert_eq. unfold zlen in *. lia. }
  eexists _, t1, _. split_and!; [exact E1|done| |].
  - unfold select. rewrite Eb1, bind_ok. cbn [stamps t1]. rewrite Ho1. cbn [unwrap]. rewrite bind_ok, Z.eqb_refl. cbn [negb].
    rewrite Hc1. cbn [unwrap]. rewrite bind_ok. f_equal. f_equal. rewrite Z.add_0_r. unfold wrap. rewrite Z.mod_mod by lia.
    rewrite <- !Znumtheory.Zmod_div_mod; [done|lia..|by exists (2 ^ 16)].
  - split; simpl; unfold zlen in *; rewrite !length_insert; eauto.
Qed.
End idents.

(** ** Examples *)
Definition ex_me : Iface := {| if_ip := [x0a; x00; x00; x02]; if_mask := [xff; xff; xff; x00] |}.
Definition ex_routes : list Route :=
  [ {| r_dst := zero4; r_len := 0; r_gw := [x0a; x00; x00; x01] |}; {| r_dst := [x0a; x00; x00; x00]; r_len := 24; r_gw := zero4 |} ].

Lemma next_hop_longest_prefix_witness :
  next_hop ex_routes [x0a; x00; x00; x07] = Some [x0a; x00; x00; x07] ∧
  match next_hop ex_routes [x08; x08; x08; x08] with
  | Some hop => ∃ r, chosen ex_routes [x08; x08; x08; x08] r ∧ hop = (if is_zero (r_gw r) then [x08; x08; x08; x08] else r_gw r)
  | None => Forall (λ r, prefix (r_len r) [x08; x08; x08; x08] ≠ prefix (r_len r) (r_dst r)) ex_routes
  end.
Proof. split; [vm_compute; reflexivity|]. apply next_hop_longest_prefix; [repeat constructor; vm_compute; congruence|done]. Defined.

Lemma delivered_can_be_answered_witness :
  Host = Host ∧ (configured ex_me = true → [x0a; x00; x00; x01] ≠ if_ip ex_me) ∧ output_ok ex_me [x0a; x00; x00; x01] true = negb (is_reserved [x0a; x00; x00; x01]).
Proof. apply (delivered_can_be_answered ex_me Host [x0a; x00; x00; x01] (if_ip ex_me) false). vm_compute. reflexivity. Defined.

Lemma pmtu_only_falls_witness : pmtu_get (pmtu_update ∅ [x08; x08; x08; x08] 1400 1500 7) [x08; x08; x08; x08] 1500 7 = 1400.
Proof.
  destruct (pmtu_only_falls ∅ [x08; x08; x08; x08] 1400 1500 7) as (_ & H & _); [vm_compute; congruence..|]. apply H. vm_compute. split; congruence.
Defined.

Definition ex_orig : list byte := [x45; x00; x00; x1c; x00; x07; x00; x00; x40; x11; x00; x00; x0a; x00; x00; x02; x08; x08; x08; x08] ++ replicate 8 x2a.

Lemma icmp_error_roundtrip_witness : ∃ m, icmp_error_message ex_orig 3 4 1400 = Ok (Some m) ∧
  icmp_error m [x0a; x00; x00; x02] = Ok (Some {| kind := 3; code := 4; info := 1400; inner := ex_orig |}).
Proof.
  eexists. split; [vm_compute; reflexivity|]. eapply (icmp_error_roundtrip ex_orig [x0a; x00; x00; x02] 3 4 1400); [vm_compute; by split..| | |vm_compute; reflexivity].
  - left. split; [reflexivity|vm_compute; congruence].
  - exists x45. split_and!; [reflexivity..|vm_compute; congruence|vm_compute; congruence|reflexivity].
Defined.

