(* ===== verification/Frag.v ===== *)
(** * IPv4 reassembly ([net/src/frag.rs])

    The reassembly queues, what a fragment does to them ([input]) and their expiry
    ([expire]).  Queues are keyed by source, destination, identification and
    protocol.  Counters of bytes are [usize]: 64 bits. *)

From S2P Require Import Prelude Bytes NetBytes Csum.

Module frag.

Definition HZ := 100.
Definition FRAG_TIME := 30 * HZ.
Definition HIGH_THRESH := 4 * 1024 * 1024.
Definition MAX_DIST := 64.
Definition PEERS_MAX := 65536 + 128.
Definition FRAG_OVERHEAD := 256.
Definition IP_MF := 0x2000.
Definition IP_OFFSET := 0x1fff.

Definition Key : Type := list byte * list byte * Z * Z.

Record Queue := {
  frags : gmap Z (list byte);
  head : option (list byte);
  first : option (list byte);
  len : Z;
  meat : Z;
  last_in : bool;
  ecn : Z;
  rid : Z;
  expires : Z;
  qmem : Z }.

Inductive Defragged := Complete (out : list byte) | Pending | Dropped.

Record Defrag := {
  queues : gmap Key Queue;
  mem : Z;
  peers : gmap (list byte) (Z * Z);
  fails : Z;
  timeouts : Z;
  oks : Z }.

Definition frag_ecn (tos : Z) : Z := u8 (Z.shiftl 1 (Z.land tos 3)).

Definition NOT_ECT := 1.
Definition CE := 8.
Definition ecn_of (bits : Z) : option Z :=
  if negb (Z.land bits NOT_ECT =? 0) && negb (bits =? NOT_ECT) then None
  else Some (if negb (Z.land bits CE =? 0) then 3 else 0).

Definition new : Defrag := {| queues := ∅; mem := 0; peers := ∅; fails := 0; timeouts := 0; oks := 0 |}.

(** ** Changing the state *)
Definition set_queues (d : Defrag) (qs : gmap Key Queue) (m : Z) : Defrag :=
  {| queues := qs; mem := m; peers := peers d; fails := fails d; timeouts := timeouts d; oks := oks d |}.
Definition set_peers (d : Defrag) (ps : gmap (list byte) (Z * Z)) : Defrag :=
  {| queues := queues d; mem := mem d; peers := ps; fails := fails d; timeouts := timeouts d; oks := oks d |}.
Definition one_fail (d : Defrag) : Defrag :=
  {| queues := queues d; mem := mem d; peers := peers d; fails := u64 (fails d + 1); timeouts := timeouts d; oks := oks d |}.
Definition one_ok (d : Defrag) : Defrag :=
  {| queues := queues d; mem := mem d; peers := peers d; fails := fails d; timeouts := timeouts d; oks := u64 (oks d + 1) |}.
Definition one_timeout (d : Defrag) : Defrag :=
  {| queues := queues d; mem := mem d; peers := peers d; fails := fails d; timeouts := u64 (timeouts d + 1); oks := oks d |}.

Definition put_queue (key : Key) (q : Queue) (d : Defrag) : Defrag := set_queues d (<[key := q]> (queues d)) (mem d).

Definition empty_queue (rid now : Z) : Queue :=
  {| frags := ∅; head := None; first := None; len := 0; meat := 0; last_in := false; ecn := 0; rid := rid;
     expires := u64 (now + FRAG_TIME); qmem := 0 |}.
Definition set_rid (q : Queue) (r : Z) : Queue :=
  {| frags := frags q; head := head q; first := first q; len := len q; meat := meat q; last_in := last_in q;
     ecn := ecn q; rid := r; expires := expires q; qmem := qmem q |}.
Definition set_len (q : Queue) (l : Z) (last : bool) : Queue :=
  {| frags := frags q; head := head q; first := first q; len := l; meat := meat q; last_in := last;
     ecn := ecn q; rid := rid q; expires := expires q; qmem := qmem q |}.

Definition kill (key : Key) (d : Defrag) : Defrag :=
  one_fail (match queues d !! key with
            | Some q => set_queues d (delete key (queues d)) (u64 (mem d - qmem q))
            | None => d
            end).

(** ** A fragment's header *)
Record Hdr := { ihl : Z; tot : Z; frag_off : Z; key : Key }.

Definition header (ip : list byte) : res unit Hdr :=
  b0 ← u8_at ip 0;
  t ← be16_at ip 2;
  off ← be16_at ip 6;
  src ← unwrap (sub ip 12 4);
  dst ← unwrap (sub ip 16 4);
  id ← be16_at ip 4;
  proto ← u8_at ip 9;
  mret {| ihl := Z.land b0 0x0f * 4; tot := Z.min t (zlen ip); frag_off := off; key := (src, dst, id, proto) |}.

Definition offset (h : Hdr) : Z := Z.shiftl (Z.land (frag_off h) IP_OFFSET) 3.
Definition mf (h : Hdr) : bool := negb (Z.land (frag_off h) IP_MF =? 0).

(** ** Stages of [input] *)

(** [inet_frag_find]. *)
Definition find_queue (key : Key) (now : Z) (d : Defrag) : Defrag :=
  match queues d !! key with
  | Some _ => d
  | None => put_queue key (empty_queue 0 now) d
  end.

(** The source's fragment counter, one more. *)
Definition count_peer (src : list byte) (now : Z) (d : Defrag) : Z * Defrag :=
  let ps := if (PEERS_MAX <=? Z.of_nat (size (peers d))) && negb (bool_decide (is_Some (peers d !! src)))
            then filter (λ p, sat_sub now p.2.2 < FRAG_TIME) (peers d) else peers d in
  let r := u32 ((default (0, now) (ps !! src)).1 + 1) in
  (r, set_peers d (<[src := (r, now)]> ps)).

(** [ip_frag_too_far] and [ip_frag_reinit]. *)
Definition too_far (key : Key) (now : Z) : M Defrag unit unit :=
  d ← get;
  let '(r, d) := count_peer key.1.1.1 now d in
  q ← of_opt (queues d !! key);
  let start := rid q in
  if negb (bool_decide (frags q = ∅)) && (MAX_DIST <? u32 (r - start)) then
    put (one_fail (set_queues d (<[key := empty_queue r now]> (queues d)) (u64 (mem d - qmem q))))
  else put (put_queue key (set_rid q r) d).

(** [ip_frag_queue]: where the fragment ends, and the queue's length with it; [None]
    when it contradicts what is known of the datagram's end. *)
Definition place (h : Hdr) (q : Queue) : option (Z * Queue) :=
  let end0 := offset h + sat_sub (tot h) (ihl h) in
  if negb (mf h) then
    if (end0 <? len q) || (last_in q && negb (end0 =? len q)) then None
    else Some (end0, set_len q end0 true)
  else
    let end1 := Z.land end0 (Z.lnot 7) in
    if len q <? end1 then
      if last_in q then None else Some (end1, set_len q end1 (last_in q))
    else Some (end1, q).

(** [for (&o, d) in q.frags.range(..end)]: whether one overlaps, and by how much. *)
Definition overlaps (q : Queue) (offset end_ : Z) : bool * Z :=
  foldl (λ acc p, let e := p.1 + zlen p.2 in
                  if e <=? offset then acc else (true, acc.2 + (Z.min e end_ - Z.max p.1 offset)))
    (false, 0) (filter (λ p, p.1 < end_) (btree_iter (frags q))).

(** The queue with the fragment in it. *)
Definition insert_frag (h : Hdr) (ip data : list byte) (tos : Z) (q : Queue) : Queue :=
  {| frags := <[offset h := data]> (frags q);
     head := if offset h =? 0 then Some (take (Z.to_nat (ihl h)) ip) else head q;
     first := if offset h =? 0 then Some (take (Z.to_nat (tot h)) ip) else first q;
     len := len q; meat := u64 (meat q + zlen data); last_in := last_in q;
     ecn := Z.lor (ecn q) (frag_ecn tos); rid := rid q; expires := expires q;
     qmem := u64 (qmem q + (zlen data + FRAG_OVERHEAD)) |}.

Definition whole (q : Queue) : bool := bool_decide (is_Some (head q)) && last_in q && (meat q =? len q).

(** The bytes of the datagram, its header put right: the ECN field, the length, no
    fragment bits, a new checksum. *)
Definition rebuild (head : list byte) (parts : list (list byte)) (len ecn : Z) : res unit (list byte) :=
  let out := head ++ mjoin parts in
  tos ← u8_at out 1;
  out ← unwrap (splice out 1 [byte_of (Z.lor tos ecn)]);
  out ← unwrap (splice out 2 (be16 (u16 len)));
  out ← unwrap (splice out 6 [x00; x00]);
  out ← unwrap (splice out 10 [x00; x00]);
  hdr ← unwrap (sub out 0 (zlen head));
  unwrap (splice out 10 (be16 (not16 (csum.fold (csum.sum hdr))))).

(** [ip_frag_reasm]. *)
Definition reasm (key : Key) : M Defrag unit Defragged :=
  d ← get;
  q ← of_opt (queues d !! key);
  let d := set_queues d (delete key (queues d)) (u64 (mem d - qmem q)) in
  _ ← put d;
  hd ← of_opt (head q);
  let l := zlen hd + len q in
  match ecn_of (ecn q) with
  | None => _ ← put (one_fail d); mret Dropped
  | Some e =>
      if 65535 <? l then _ ← put (one_fail d); mret Dropped
      else
        out ← of_res (rebuild hd (snd <$> btree_iter (frags q)) l e);
        _ ← put (one_ok d);
        mret (Complete out)
  end.

Definition drop_queue (key : Key) : M Defrag unit Defragged :=
  d ← get; _ ← put (kill key d); mret Dropped.

(** [ip_frag_queue] from the fragment's place on. *)
Definition queue_frag (h : Hdr) (ip : list byte) : M Defrag unit Defragged :=
  d ← get;
  q ← of_opt (queues d !! key h);
  match place h q with
  | None => drop_queue (key h)
  | Some (end_, q) =>
      let d := put_queue (key h) q d in
      _ ← put d;
      if end_ =? offset h then drop_queue (key h) else
      let '(overlap, covered) := overlaps q (offset h) end_ in
      if overlap : bool then
        if covered =? end_ - offset h then mret Dropped else drop_queue (key h)
      else
        data ← of_opt (sub ip (ihl h) (end_ - offset h));
        tos ← of_res (u8_at ip 1);
        let q := insert_frag h ip data tos q in
        _ ← put (set_queues d (<[key h := q]> (queues d)) (u64 (mem d + (zlen data + FRAG_OVERHEAD))));
        if whole q then reasm (key h) else mret Pending
  end.

Definition input (ip : list byte) (now : Z) : M Defrag unit Defragged :=
  h ← of_res (header ip);
  d ← get;
  if HIGH_THRESH <? mem d then _ ← put (one_fail d); mret Dropped
  else
    _ ← put (find_queue (key h) now d);
    _ ← too_far (key h) now;
    queue_frag h ip.

(** ** Expiry *)
Definition expire_one (acc : Defrag * list (list byte)) (p : Key * Queue) : Defrag * list (list byte) :=
  let '(d, firsts) := acc in let '(k, q) := p in
  (one_timeout (one_fail (set_queues d (delete k (queues d)) (u64 (mem d - qmem q)))),
   firsts ++ option_list (first q)).

Definition expire (d : Defrag) (now : Z) : Defrag * list (list byte) :=
  foldl expire_one (d, []) (filter (λ p, expires p.2 ≤ now) (btree_iter (queues d))).

End frag.
