(* ===== verification/FragSpec.v ===== *)
(** * Reassembly gives back the datagram

    The invariant of the queues: what they hold came from fragments that arrived,
    pieces never overlap, the counters are sums over the pieces.  From it: no header
    makes [input] panic, memory is bounded, a completed datagram is tiled without
    gaps by pieces of fragments of its key, and the fragments of one datagram give
    it back in whatever order they come. *)

From S2P Require Import Prelude Bytes NetBytes Csum Frag.
Import frag.

(** ** Rebuilding the header *)
Lemma splice_app (k l bs : list byte) a : 0 ≤ a → a + zlen bs ≤ zlen k → splice (k ++ l) a bs = Some (raw_splice k a bs ++ l).
Proof.
  intros Ha Hl. pose proof (zlen_nonneg l). rewrite splice_Some by (rewrite ?zlen_app; lia). f_equal. unfold raw_splice.
  unfold zlen in *. rewrite take_app_le, drop_app_le by lia. by rewrite <- !app_assoc.
Qed.

Lemma raw_sub_app_l (k l : list byte) a n : 0 ≤ a → 0 ≤ n → a + n ≤ zlen k → raw_sub (k ++ l) a n = raw_sub k a n.
Proof. intros. unfold raw_sub, zlen in *. rewrite drop_app_le by lia. by rewrite take_app_le by (rewrite length_drop; lia). Qed.

(** The header of a completed datagram against the header of its first fragment. *)
Definition header_fixed (hd hd' : list byte) (len : Z) : Prop :=
  zlen hd' = zlen hd ∧ csum.fold (csum.sum hd') = 65535 ∧ raw_sub hd' 2 2 = be16 len ∧ raw_sub hd' 6 2 = [x00; x00] ∧
  raw_sub hd' 0 1 = raw_sub hd 0 1 ∧ raw_sub hd' 4 2 = raw_sub hd 4 2 ∧ raw_sub hd' 8 2 = raw_sub hd 8 2 ∧
  raw_sub hd' 12 (zlen hd - 12) = raw_sub hd 12 (zlen hd - 12).

Lemma frag_rebuild_spec hd parts l e : 20 ≤ zlen hd < 2 ^ 32 → 0 ≤ l ≤ 65535 →
  ∃ hd', rebuild hd parts l e = Ok (hd' ++ mjoin parts) ∧ header_fixed hd hd' l.
Proof.
  intros Hl Hlen. unfold rebuild. pose proof (zlen_nonneg (mjoin parts)).
  destruct (u8_at_ok (E := unit) (hd ++ mjoin parts) 1) as (tos & -> & _); [rewrite zlen_app; lia|]. rewrite bind_ok.
  set (tosb := [byte_of (Z.lor tos e)]). assert (zlen tosb = 1) as L1 by done. clearbody tosb.
  rewrite splice_app by lia. cbn [unwrap]. rewrite bind_ok. set (h1 := raw_splice hd 1 tosb).
  assert (zlen h1 = zlen hd) as Lh1 by (apply zlen_raw_splice; lia).
  rewrite wrap_small by (unfold fits; lia). pose proof (zlen_be16 l) as L2.
  rewrite splice_app by lia. cbn [unwrap]. rewrite bind_ok. set (h2 := raw_splice h1 2 (be16 l)).
  assert (zlen h2 = zlen hd) as Lh2 by (rewrite <- Lh1; apply zlen_raw_splice; lia).
  set (z2 := [x00; x00]). assert (zlen z2 = 2) as Lz by done.
  rewrite splice_app by lia. cbn [unwrap]. rewrite bind_ok. set (h3 := raw_splice h2 6 z2).
  assert (zlen h3 = zlen hd) as Lh3 by (rewrite <- Lh2; apply zlen_raw_splice; lia).
  rewrite splice_app by lia. cbn [unwrap]. rewrite bind_ok. set (h4 := raw_splice h3 10 z2).
  assert (zlen h4 = zlen hd) as Lh4 by (rewrite <- Lh3; apply zlen_raw_splice; lia).
  rewrite unwrap_sub_ok, bind_ok by (rewrite ?zlen_app; lia).
  assert (raw_sub (h4 ++ mjoin parts) 0 (zlen hd) = h4) as ->.
  { rewrite raw_sub_app_l by lia. unfold raw_sub. rewrite <- Lh4. unfold zlen. rewrite drop_0, Nat2Z.id. apply firstn_all. }
  set (c := be16 _). assert (zlen c = 2) as Lc by apply zlen_be16. rewrite splice_app by lia.
  exists (raw_splice h4 10 c). split; [done|].
  assert (csum.fold (csum.sum (raw_splice h4 10 c)) = 65535) as Hc.
  { apply csum_inserted_verifies; [lia|lia|by exists 5|lia|]. unfold h4. rewrite <- Lz. rewrite sub_splice_same by lia. done. }
  split_and!; [rewrite zlen_raw_splice; lia|done|..].
  all: rewrite sub_splice_disjoint by lia; unfold h4; rewrite sub_splice_disjoint by lia; unfold h3.
  2: { exact (sub_splice_same h2 6 z2 ltac:(lia) ltac:(lia)). }
  all: rewrite sub_splice_disjoint by lia; unfold h2.
  1: { pose proof (sub_splice_same h1 2 (be16 l) ltac:(lia) ltac:(lia)) as E. by rewrite L2 in E. }
  all: rewrite sub_splice_disjoint by lia; unfold h1; rewrite sub_splice_disjoint by lia; done.
Qed.

(** ** Headers *)
Definition hdr_ok (ip : list byte) : Prop := 20 ≤ zlen ip ∧ ∃ b0, ip !! 0%nat = Some b0 ∧ 20 ≤ Z.land (bval b0) 0x0f * 4.

Lemma header_ok ip : hdr_ok ip →
  ∃ h, header ip = Ok h ∧ 20 ≤ ihl h ≤ 60 ∧ 0 ≤ tot h ≤ zlen ip ∧ tot h ≤ 65535 ∧ fits 16 (frag_off h).
Proof.
  intros [Hl (b0 & Hb & Hi)]. unfold header. rewrite (u8_at_Some ip 0 b0) by done. rewrite bind_ok.
  destruct (be16_at_ok (E := unit) ip 2) as (t & -> & Ht); [lia..|]. destruct (be16_at_ok (E := unit) ip 6) as (off & -> & Ho); [lia..|].
  rewrite !bind_ok, !unwrap_sub_ok, !bind_ok by lia. destruct (be16_at_ok (E := unit) ip 4) as (id & -> & _); [lia..|].
  destruct (u8_at_ok (E := unit) ip 9) as (pr & -> & _); [lia|]. rewrite !bind_ok. eexists. split; [done|]. cbn [ihl tot frag_off].
  assert (Z.land (bval b0) 15 ≤ 15) by (change 15 with (Z.ones 4); rewrite Z.land_ones by lia; pose proof (Z.mod_pos_bound (bval b0) (2 ^ 4)); change (Z.ones 4) with 15; lia).
  unfold fits in *. split_and!; lia.
Qed.

Lemma offset_range h : 0 ≤ offset h ≤ 65528 ∧ offset h `mod` 8 = 0.
Proof.
  unfold offset. rewrite Z.shiftl_mul_pow2 by lia. change IP_OFFSET with (Z.ones 13). rewrite Z.land_ones by lia.
  pose proof (Z.mod_pos_bound (frag_off h) (2 ^ 13)). split; [lia|]. change (2 ^ 3) with 8. apply Z.mod_mul. lia.
Qed.

Lemma round8 z : Z.land z (Z.lnot 7) = 8 * (z / 8).
Proof.
  rewrite <- Z.ldiff_land. change 7 with (Z.ones 3). rewrite Z.ldiff_ones_r, Z.shiftl_mul_pow2, Z.shiftr_div_pow2 by lia. change (2 ^ 3) with 8. lia.
Qed.

(** Where a fragment ends: what [place] returns. *)
Lemma place_Some h q e q' : place h q = Some (e, q') → 0 ≤ len q →
  offset h ≤ e ≤ offset h + sat_sub (tot h) (ihl h) ∧ ∃ l b, q' = set_len q l b ∧ len q ≤ l ∧ e ≤ l ∧ (last_in q = true → b = true) ∧
    (l = len q ∨ l = e) ∧ (b = true → last_in q = true ∧ l = len q ∨ mf h = false ∧ l = offset h + sat_sub (tot h) (ihl h)).
Proof.
  intros H Hq. pose proof (offset_range h) as [Ho Ho8]. unfold place in H. set (e0 := offset h + sat_sub (tot h) (ihl h)) in *.
  assert (offset h ≤ e0) by (unfold e0, sat_sub; lia).
  assert (offset h ≤ 8 * (e0 / 8) ≤ e0).
  { pose proof (Z.mul_div_le e0 8). pose proof (Z.div_le_mono (offset h) e0 8). pose proof (Z.div_mod (offset h) 8). lia. }
  assert (q = set_len q (len q) (last_in q)) as Eq by (by destruct q).
  rewrite round8 in H. destruct (mf h) eqn:Em; cbn [negb] in H.
  - destruct (Z.ltb_spec (len q) (8 * (e0 / 8))).
    + destruct (last_in q) eqn:El; [done|]. injection H as <- <-. split; [lia|]. eexists _, _. split_and!; [done|lia|lia|done|by right|done].
    + injection H as <- <-. split; [lia|]. exists (len q), (last_in q). split_and!; [done|lia|lia|done|by left|by left].
  - destruct (_ || _) eqn:Eb; [done|]. injection H as <- <-. split; [lia|]. eexists _, _. split_and!; [done|lia|lia|done|by right|by right].
Qed.

(** ** Pieces that tile *)
Fixpoint contiguous (a : Z) (ps : list (Z * list byte)) (b : Z) : Prop :=
  match ps with
  | [] => a = b
  | (o, d) :: ps => o = a ∧ contiguous (a + zlen d) ps b
  end.

Definition apart (m : gmap Z (list byte)) : Prop :=
  ∀ o1 d1 o2 d2, m !! o1 = Some d1 → m !! o2 = Some d2 → o1 < o2 → o1 + zlen d1 ≤ o2.

Lemma tiles ps a b : StronglySorted entry_le ps → NoDup ps.*1 → a ≤ b →
  (∀ o d, (o, d) ∈ ps → a ≤ o ∧ o + zlen d ≤ b) →
  (∀ o1 d1 o2 d2, (o1, d1) ∈ ps → (o2, d2) ∈ ps → o1 < o2 → o1 + zlen d1 ≤ o2) →
  list_sum zlen ps.*2 ≤ b - a ∧ (list_sum zlen ps.*2 = b - a → contiguous a ps b).
Proof.
  intros Hs. revert a. induction Hs as [|[o d] ps Hs IH Hf]; intros a Hn Hab Hin Hap; [simpl; unfold list_sum; simpl; lia|]. rewrite !fmap_cons, list_sum_cons in *. cbn [fst snd contiguous] in *.
  apply NoDup_cons in Hn as [Hn1 Hn2]. destruct (Hin o d) as [H1 H2]; [left|]. pose proof (zlen_nonneg d).
  destruct (IH (o + zlen d)) as [IH1 IH2]; [done|lia| |by intros; eapply Hap; [right|right|]; eauto|].
  { intros o' d' Hi. destruct (Hin o' d') as [H3 H4]; [by right|]. split; [|done]. rewrite Forall_forall in Hf. pose proof (Hf _ Hi) as Hle.
    change (o ≤ o') in Hle. apply (Hap o d o' d'); [left|by right|]. assert (o ≠ o'); [|lia]. intros ->. apply Hn1. by apply (list_elem_of_fmap_2 fst _ (o', d')). }
  split; [lia|]. intros E. split; [lia|]. replace (a + zlen d) with (o + zlen d) by lia. apply IH2. lia.
Qed.

Lemma frags_tile m b : 0 ≤ b → (∀ o d, m !! o = Some d → 0 ≤ o ∧ o + zlen d ≤ b) → apart m →
  map_sum zlen m ≤ b ∧ (map_sum zlen m = b → contiguous 0 (btree_iter m) b).
Proof.
  intros Hb Hin Hap. assert (map_sum zlen m = list_sum zlen (btree_iter m).*2) as ->.
  { unfold map_sum. apply list_sum_perm. by rewrite btree_iter_perm. }
  destruct (tiles (btree_iter m) 0 b) as [H1 H2]; [apply btree_iter_sorted|apply btree_iter_nodup|done|..].
  - intros o d Hi%elem_of_btree_iter. auto.
  - intros o1 d1 o2 d2 Hi1%elem_of_btree_iter Hi2%elem_of_btree_iter. exact (Hap _ _ _ _ Hi1 Hi2).
  - split; [lia|]. intros E. apply H2. lia.
Qed.

Lemma overlaps_false q a e : (overlaps q a e).1 = false → ∀ o d, frags q !! o = Some d → o < e → o + zlen d ≤ a.
Proof.
  unfold overlaps. intros H o d Hod Ho. set (f := λ (acc : bool * Z) (p : Z * list byte), _) in H.
  assert (∀ ps acc, (foldl f acc ps).1 = false → acc.1 = false ∧ ∀ p, p ∈ ps → p.1 + zlen p.2 ≤ a) as Hg.
  { induction ps as [|p ps IH]; intros acc Hf; simpl in Hf; [split; [done|intros ? [] %elem_of_nil]|].
    apply IH in Hf as [Hf1 Hf2]. unfold f in Hf1. destruct (Z.leb_spec (p.1 + zlen p.2) a); [|done]. split; [done|]. intros p' [->|Hp]%elem_of_cons; auto. }
  apply Hg in H as [_ H]. apply (H (o, d)). apply list_elem_of_filter. split; [done|]. by apply elem_of_btree_iter.
Qed.

Lemma overlaps_none q a e : (∀ o d, frags q !! o = Some d → o < e → o + zlen d ≤ a) → (overlaps q a e).1 = false.
Proof.
  unfold overlaps. intros H. set (f := λ (acc : bool * Z) (p : Z * list byte), _).
  assert (∀ ps acc, (∀ p, p ∈ ps → p.1 + zlen p.2 ≤ a) → foldl f acc ps = acc) as Hg.
  { induction ps as [|p ps IH]; intros acc Hp; simpl; [done|]. rewrite IH by (intros; apply Hp; by right). unfold f.
    rewrite (proj2 (Z.leb_le _ a)); [done|]. apply Hp. left. }
  rewrite Hg; [done|]. intros [o d] [Hlt Hin%elem_of_btree_iter]%list_elem_of_filter. by apply H.
Qed.

(** ** The invariant *)
Section invariant.
(** The datagrams that arrived so far. *)
Context (h : list (list byte)).

Definition arrived (k : Key) (ip : list byte) (hd : Hdr) : Prop := ip ∈ h ∧ hdr_ok ip ∧ header ip = Ok hd ∧ key hd = k.

(** [data] is the payload, or its start, of a fragment for offset [o]. *)
Definition part_of (k : Key) (o : Z) (data : list byte) : Prop :=
  ∃ ip hd, arrived k ip hd ∧ offset hd = o ∧ ihl hd + zlen data ≤ tot hd ∧ data = raw_sub ip (ihl hd) (zlen data).

Record queue_ok (k : Key) (q : Queue) : Prop := {
  q_parts : ∀ o data, frags q !! o = Some data → part_of k o data ∧ 0 ≤ o ∧ 0 < zlen data ∧ o + zlen data ≤ len q;
  q_apart : apart (frags q);
  q_meat : meat q = map_sum zlen (frags q);
  q_mem : qmem q = map_sum (λ d, zlen d + FRAG_OVERHEAD) (frags q);
  q_len : 0 ≤ len q ≤ 131063;
  q_head : ∀ b, head q = Some b → ∃ ip hd, arrived k ip hd ∧ offset hd = 0 ∧ b = take (Z.to_nat (ihl hd)) ip ∧ zlen b = ihl hd;
  q_last : last_in q = true → ∃ ip hd, arrived k ip hd ∧ mf hd = false ∧ len q = offset hd + sat_sub (tot hd) (ihl hd) }.

Record inv (B : Z) (d : Defrag) : Prop := {
  i_mem : mem d = map_sum qmem (queues d);
  i_bound : 0 ≤ mem d ≤ B;
  i_queues : map_Forall queue_ok (queues d) }.

Lemma queue_mem_nonneg k q : queue_ok k q → 0 ≤ qmem q.
Proof. intros Hq. rewrite (q_mem _ _ Hq). apply map_sum_nonneg. intros o d _. unfold FRAG_OVERHEAD. pose proof (zlen_nonneg d). lia. Qed.

Lemma queue_mem_le B d k q : inv B d → queues d !! k = Some q → qmem q ≤ mem d.
Proof.
  intros I Hk. rewrite (i_mem _ _ I). eapply map_sum_le; [|done]. intros k' q' Hk'. eapply queue_mem_nonneg, (i_queues _ _ I), Hk'.
Qed.

Lemma queue_meat_le k q : queue_ok k q → 0 ≤ meat q ≤ len q ∧ (meat q = len q → contiguous 0 (btree_iter (frags q)) (len q)).
Proof.
  intros Hq. pose proof (q_len _ _ Hq). rewrite (q_meat _ _ Hq). destruct (frags_tile (frags q) (len q)) as [H1 H2]; [lia| |apply Hq|].
  - intros o d Hd. destruct (q_parts _ _ Hq _ _ Hd) as (_ & ? & _ & ?). done.
  - split; [|done]. split; [|done]. apply map_sum_nonneg. intros o d _. apply zlen_nonneg.
Qed.

Lemma empty_queue_ok k r now : queue_ok k (empty_queue r now).
Proof. split; simpl; try done; intros; by rewrite ?lookup_empty in *. Qed.

Lemma set_rid_ok k q r : queue_ok k q → queue_ok k (set_rid q r).
Proof. intros []. by split. Qed.

(** [inv] reads the queues and the memory count. *)
Lemma inv_same B d d' : inv B d → queues d' = queues d → mem d' = mem d → inv B d'.
Proof. intros [] E1 E2. split; by rewrite ?E1, ?E2. Qed.

Lemma inv_fail B d : inv B d → inv B (one_fail d).
Proof. intros I. by apply (inv_same B d). Qed.

Lemma inv_put B B' d k q q' m : inv B d → queues d !! k = Some q → queue_ok k q' → m = mem d - qmem q + qmem q' → m ≤ B' →
  inv B' (set_queues d (<[k := q']> (queues d)) m).
Proof.
  intros I Hk Hq' -> Hb. pose proof (queue_mem_le _ _ _ _ I Hk). pose proof (queue_mem_nonneg _ _ Hq'). split; simpl.
  - rewrite (map_sum_update _ _ _ _ _ Hk), (i_mem _ _ I). lia.
  - lia.
  - apply map_Forall_insert_2; [done|apply I].
Qed.

Lemma inv_delete B d k q : inv B d → queues d !! k = Some q → inv B (set_queues d (delete k (queues d)) (u64 (mem d - qmem q))) ∨ 2 ^ 64 ≤ B.
Proof.
  intros I Hk. destruct (Z.lt_ge_cases B (2 ^ 64)); [left|by right]. pose proof (queue_mem_le _ _ _ _ I Hk). pose proof (i_bound _ _ I).
  pose proof (queue_mem_nonneg _ _ (i_queues _ _ I _ _ Hk)). rewrite wrap_small by (unfold fits; lia). split; simpl.
  - rewrite (map_sum_delete _ _ _ _ Hk), (i_mem _ _ I). lia.
  - lia.
  - apply map_Forall_delete, I.
Qed.

Lemma kill_inv B d k : B < 2 ^ 64 → inv B d → inv B (kill k d).
Proof.
  intros HB I. unfold kill. destruct (queues d !! k) as [q|] eqn:E.
  - destruct (inv_delete B d k q I E) as [I'|]; [|lia]. by apply inv_fail.
  - by apply inv_fail.
Qed.

Lemma find_queue_inv B k now d : inv B d → inv B (find_queue k now d) ∧ is_Some (queues (find_queue k now d) !! k).
Proof.
  intros I. unfold find_queue. destruct (queues d !! k) as [q|] eqn:E; [rewrite E; eauto|]. split.
  - split; simpl; [rewrite map_sum_insert by done; apply I|apply I|]. apply map_Forall_insert_2; [apply empty_queue_ok|apply I].
  - simpl. rewrite lookup_insert_eq. eauto.
Qed.

Lemma too_far_inv B k now d : B < 2 ^ 64 → inv B d → is_Some (queues d !! k) →
  wp (too_far k now) (λ r d', r = Ok tt ∧ inv B d' ∧ is_Some (queues d' !! k)) d.
Proof.
  intros HB I [q Hq]. unfold too_far. apply wp_bind, wp_get. unfold count_peer. cbv zeta. set (d1 := set_peers d _). set (r := u32 _).
  assert (inv B d1) as I1 by (by eapply inv_same). assert (queues d1 !! k = Some q) as Hq1 by done. clearbody d1 r.
  apply wp_bind. eapply wp_of_opt; [done|]. pose proof (i_queues _ _ I1 _ _ Hq1) as Ok1. destruct (_ && _).
  - apply wp_put. split_and!; [done| |]; [|simpl; rewrite lookup_insert_eq; eauto]. apply inv_fail.
    pose proof (queue_mem_le _ _ _ _ I1 Hq1). pose proof (i_bound _ _ I1). pose proof (queue_mem_nonneg _ _ Ok1).
    eapply inv_put; [done|done|apply empty_queue_ok|..]; simpl; rewrite wrap_small by (unfold fits; lia); lia.
  - apply wp_put. split_and!; [done| |]; [|simpl; rewrite lookup_insert_eq; eauto].
    eapply inv_put; [done|done|by apply set_rid_ok|simpl; lia|apply I1].
Qed.

Lemma set_len_ok k q hd ip e q' : queue_ok k q → arrived k ip hd → place hd q = Some (e, q') → ihl hd ≤ 60 → tot hd ≤ 65535 →
  queue_ok k q' ∧ frags q' = frags q ∧ qmem q' = qmem q ∧ offset hd ≤ e ≤ offset hd + sat_sub (tot hd) (ihl hd) ∧ e ≤ len q'.
Proof.
  intros Hq Ha Hp Hi Ht. pose proof (q_len _ _ Hq). destruct (place_Some _ _ _ _ Hp) as (He & l & b & -> & Hl & Hel & _ & Hle & Hb); [lia|].
  split_and!; [|done..|lia|lia|done]. pose proof (offset_range hd) as [Ho _]. destruct Ha as (Hin & Hok & Eh & Ek).
  assert (0 ≤ ihl hd) as Hi0 by (destruct (header_ok ip Hok) as (hd' & E' & ? & _); rewrite Eh in E'; injection E' as ->; lia).
  destruct Hq as [H1 H2 H3 H4 H5 H6 H7]. split; simpl; try done.
  - intros o data Hod. destruct (H1 _ _ Hod) as (Hpart & ? & ? & ?). split_and!; [done|lia|lia|lia].
  - unfold sat_sub in *. lia.
  - intros ->. destruct Hb as [[Hla ->]|[Hm ->]]; [done|by apply H7|]. exists ip, hd. done.
Qed.

Lemma insert_frag_ok k q hd ip tos e : queue_ok k q → qmem q ≤ HIGH_THRESH → arrived k ip hd →
  offset hd < e ≤ offset hd + sat_sub (tot hd) (ihl hd) → e ≤ len q → (overlaps q (offset hd) e).1 = false →
  let q' := insert_frag hd ip (raw_sub ip (ihl hd) (e - offset hd)) tos q in
  queue_ok k q' ∧ qmem q' = qmem q + (e - offset hd + FRAG_OVERHEAD).
Proof.
  intros Hq Hm Ha He Hel Hov. pose proof Ha as (Hin & Hok & Eh & Ek). destruct (header_ok ip Hok) as (hd' & E' & Hi & Ht & H65 & _).
  rewrite Eh in E'. injection E' as <-. pose proof (overlaps_false _ _ _ Hov) as Hov'. pose proof (offset_range hd) as [Ho _].
  assert (zlen (raw_sub ip (ihl hd) (e - offset hd)) = e - offset hd) as Ld by (apply zlen_raw_sub; unfold sat_sub in *; lia).
  assert (ihl hd + (e - offset hd) ≤ tot hd) as Hfit by (unfold sat_sub in *; lia).
  set (data := raw_sub ip (ihl hd) (e - offset hd)) in *. pose proof (queue_meat_le _ _ Hq) as [Hmeat _]. pose proof (queue_mem_nonneg _ _ Hq).
  assert (frags q !! offset hd = None) as Hnone.
  { destruct (frags q !! offset hd) as [d|] eqn:E; [|done]. pose proof (Hov' _ _ E ltac:(lia)). destruct (q_parts _ _ Hq _ _ E) as (_ & ? & ? & ?). lia. }
  assert (∀ o d, <[offset hd := data]> (frags q) !! o = Some d → (o = offset hd ∧ d = data) ∨ (o ≠ offset hd ∧ frags q !! o = Some d)) as Hlk.
  { intros o d [[<- <-]|[Hne Hd]]%lookup_insert_Some; [by left|by right]. }
  unfold HIGH_THRESH in *. cbv zeta. split; [|unfold insert_frag; cbn [qmem]; rewrite Ld, wrap_small; [done|unfold fits, FRAG_OVERHEAD, sat_sub in *; lia]].
  pose proof (q_len _ _ Hq). split; unfold insert_frag; cbn [frags len meat qmem head last_in].
  - intros o d [[-> ->]|[_ Hd]]%Hlk; [|by apply (q_parts _ _ Hq)]. rewrite Ld. split_and!; [|lia..]. exists ip, hd. by rewrite Ld.
  - intros o1 d1 o2 d2 [[-> ->]|[N1 H1]]%Hlk [[-> ->]|[N2 H2]]%Hlk Hlt; [lia| | |by eapply (q_apart _ _ Hq)].
    + rewrite Ld. destruct (Z.lt_ge_cases o2 e) as [H3|]; [|lia]. pose proof (Hov' _ _ H2 H3). pose proof (zlen_nonneg d2). lia.
    + apply (Hov' _ _ H1). lia.
  - rewrite map_sum_insert, Ld, (q_meat _ _ Hq) by done. rewrite <- (q_meat _ _ Hq). rewrite wrap_small; [lia|]. unfold fits, sat_sub in *. lia.
  - rewrite map_sum_insert, Ld, <- (q_mem _ _ Hq) by done. rewrite wrap_small; [lia|]. unfold fits, FRAG_OVERHEAD, sat_sub in *. lia.
  - done.
  - intros b. destruct (Z.eqb_spec (offset hd) 0) as [E0|]; [|apply (q_head _ _ Hq)]. intros [= <-]. exists ip, hd. split_and!; [done..|].
    unfold zlen in *. rewrite length_take. lia.
  - apply (q_last _ _ Hq).
Qed.

(** [out] is a datagram of the key [k] put together from fragments that arrived: the
    header is the first fragment's with the length, the fragment bits and the checksum
    put right, the payload is tiled by their pieces from the first byte to where a
    fragment without MF ends. *)
Definition assembled (k : Key) (out : list byte) : Prop :=
  ∃ ip hd hd' ps ip' hl L, arrived k ip hd ∧ offset hd = 0 ∧ header_fixed (take (Z.to_nat (ihl hd)) ip) hd' (ihl hd + L) ∧
    out = hd' ++ mjoin ps.*2 ∧ contiguous 0 ps L ∧ (∀ o data, (o, data) ∈ ps → part_of k o data) ∧
    arrived k ip' hl ∧ mf hl = false ∧ L = offset hl + sat_sub (tot hl) (ihl hl).

Definition answer (k : Key) (r : res unit Defragged) : Prop :=
  match r with Ok (Complete out) => assembled k out | Ok _ => True | _ => False end.

Lemma whole_spec k q : queue_ok k q → whole q = true →
  ∃ b ip hd ip' hl, head q = Some b ∧ arrived k ip hd ∧ offset hd = 0 ∧ b = take (Z.to_nat (ihl hd)) ip ∧ zlen b = ihl hd ∧ 20 ≤ ihl hd ≤ 60 ∧
    contiguous 0 (btree_iter (frags q)) (len q) ∧ arrived k ip' hl ∧ mf hl = false ∧ len q = offset hl + sat_sub (tot hl) (ihl hl).
Proof.
  intros Hq Hw. unfold whole in Hw. apply andb_true_iff in Hw as [Hw Hm%Z.eqb_eq]. apply andb_true_iff in Hw as [[b Hb]%bool_decide_eq_true Hl].
  destruct (q_head _ _ Hq _ Hb) as (ip & hd & Ha & Ho & Eb & Lb). destruct (q_last _ _ Hq Hl) as (ip' & hl & Ha' & Hm' & El).
  pose proof Ha as (_ & Hok & Eh & _). destruct (header_ok ip Hok) as (hd' & E' & Hi & _). rewrite Eh in E'. injection E' as <-.
  exists b, ip, hd, ip', hl. split_and!; try done; [lia|lia|]. by apply (queue_meat_le _ _ Hq).
Qed.

Lemma reasm_spec B d k q : B < 2 ^ 64 → inv B d → queues d !! k = Some q → whole q = true →
  wp (reasm k) (λ r d', inv B d' ∧ answer k r) d.
Proof.
  intros HB I Hk Hw. unfold reasm. apply wp_bind, wp_get, wp_bind. eapply wp_of_opt; [done|]. apply wp_bind, wp_put, wp_bind.
  pose proof (i_queues _ _ I _ _ Hk) as Hq. destruct (inv_delete B d k q I Hk) as [I1|]; [|lia]. set (d1 := set_queues _ _ _) in *. clearbody d1.
  destruct (whole_spec k q Hq Hw) as (b & ip & hd & ip' & hl & Hb & Ha & Ho & Eb & Lb & Hi & Hc & Ha' & Hm & El).
  eapply wp_of_opt; [done|]. pose proof (q_len _ _ Hq). destruct (ecn_of (ecn q)) as [e|].
  2: { apply wp_bind, wp_put, wp_ret. split; [by apply inv_fail|done]. }
  destruct (Z.ltb_spec 65535 (zlen b + len q)); [apply wp_bind, wp_put, wp_ret; split; [by apply inv_fail|done]|].
  destruct (frag_rebuild_spec b (btree_iter (frags q)).*2 (zlen b + len q) e) as (hd' & -> & Hfix); [lia..|].
  apply wp_bind. eapply wp_of_res; [done|]. apply wp_bind, wp_put, wp_ret. split; [by apply (inv_same B d1)|].
  exists ip, hd, hd', (btree_iter (frags q)), ip', hl, (len q). split_and!; try done; [by rewrite <- Eb, <- Lb| ].
  intros o data Hin%elem_of_btree_iter. by apply (q_parts _ _ Hq).
Qed.

Lemma drop_queue_spec B d k : B < 2 ^ 64 → inv B d → wp (drop_queue k) (λ r d', inv B d' ∧ answer k r) d.
Proof. intros HB I. apply wp_bind, wp_get, wp_bind, wp_put, wp_ret. split; [by apply kill_inv|done]. Qed.

Lemma inv_weaken B B' d : inv B d → B ≤ B' → inv B' d.
Proof. intros [] ?. split; [done|lia|done]. Qed.

Definition MEM_MAX := HIGH_THRESH + 65535 + FRAG_OVERHEAD.

Lemma queue_frag_spec d hd ip : inv HIGH_THRESH d → arrived (key hd) ip hd → is_Some (queues d !! key hd) →
  wp (queue_frag hd ip) (λ r d', inv MEM_MAX d' ∧ answer (key hd) r) d.
Proof.
  intros I Ha [q Hq]. pose proof Ha as (_ & Hok & Eh & _). destruct (header_ok ip Hok) as (hd' & E' & Hi & Ht & H65 & _). rewrite Eh in E'. injection E' as <-.
  assert (∀ d', inv HIGH_THRESH d' → inv MEM_MAX d') as Hwk by (intros; eapply inv_weaken; [done|unfold MEM_MAX, FRAG_OVERHEAD; lia]).
  assert (∀ d', inv HIGH_THRESH d' → wp (drop_queue (key hd)) (λ r d', inv MEM_MAX d' ∧ answer (key hd) r) d') as Hdrop.
  { intros d' I'. apply drop_queue_spec; [done|by apply Hwk]. }
  unfold queue_frag. apply wp_bind, wp_get, wp_bind. eapply wp_of_opt; [done|]. destruct (place hd q) as [[e q1]|] eqn:Ep; [|by apply Hdrop].
  destruct (set_len_ok _ _ _ _ _ _ (i_queues _ _ I _ _ Hq) Ha Ep) as (Hq1 & Ef & Em & He & Hel); [lia..|]. apply wp_bind, wp_put.
  assert (inv HIGH_THRESH (put_queue (key hd) q1 d)) as I1 by (eapply inv_put; [done|done|done|lia|apply I]).
  assert (queues (put_queue (key hd) q1 d) !! key hd = Some q1) as Hk1 by (simpl; apply lookup_insert_eq).
  set (d1 := put_queue (key hd) q1 d) in *. clearbody d1. destruct (Z.eqb_spec e (offset hd)); [by apply Hdrop|].
  destruct (overlaps q1 (offset hd) e) as [[] cov] eqn:Eo. { destruct (_ =? _); [apply wp_ret; split; [by apply Hwk|done]|by apply Hdrop]. }
  pose proof (queue_mem_le _ _ _ _ I1 Hk1). pose proof (i_bound _ _ I1).
  apply wp_bind. eapply wp_of_opt; [apply sub_Some; unfold sat_sub in *; lia|]. apply wp_bind.
  destruct (u8_at_ok (E := unit) ip 1) as (tos & Etos & _); [destruct Hok; lia|]. eapply wp_of_res; [done|]. apply wp_bind, wp_put.
  destruct (insert_frag_ok (key hd) q1 hd ip tos e Hq1) as [Hq2 Em2]; [lia|done|lia|lia|by rewrite Eo|].
  set (q2 := insert_frag _ _ _ _ _) in *. assert (zlen (raw_sub ip (ihl hd) (e - offset hd)) = e - offset hd) as -> by (apply zlen_raw_sub; unfold sat_sub in *; lia).
  set (d2 := set_queues _ _ _). assert (inv MEM_MAX d2) as I2.
  { eapply inv_put; [exact I1|done|done|..]; rewrite ?Em2; unfold MEM_MAX, HIGH_THRESH, FRAG_OVERHEAD, sat_sub in *; rewrite wrap_small by (unfold fits; lia); lia. }
  destruct (whole q2) eqn:Ew; [|by apply wp_ret]. eapply reasm_spec; [done|done| |done]. simpl. apply lookup_insert_eq.
Qed.

Lemma input_spec ip now d : inv MEM_MAX d → ip ∈ h → hdr_ok ip →
  wp (input ip now) (λ r d', inv MEM_MAX d' ∧ ∃ hd, header ip = Ok hd ∧ answer (key hd) r) d.
Proof.
  intros I Hin Hok. destruct (header_ok ip Hok) as (hd & Eh & Hi & Ht & H65 & _). unfold input. apply wp_bind. eapply wp_of_res; [done|].
  apply wp_bind, wp_get. destruct (Z.ltb_spec HIGH_THRESH (mem d)) as [|Hm].
  { apply wp_bind, wp_put, wp_ret. split; [by apply inv_fail|]. by exists hd. }
  assert (inv HIGH_THRESH d) as I0 by (destruct I; split; [done|lia|done]). apply wp_bind, wp_put, wp_bind.
  destruct (find_queue_inv HIGH_THRESH (key hd) now d I0) as [I1 S1]. eapply wp_mono; [apply (too_far_inv HIGH_THRESH); [done|exact I1|exact S1]|].
  intros r d2 (-> & I2 & S2). eapply wp_mono; [by apply queue_frag_spec|]. intros r d' [I' Ha]. eauto.
Qed.

Lemma expire_inv B now d : B < 2 ^ 64 → inv B d → inv B (expire d now).1.
Proof.
  intros HB I. unfold expire. assert (∀ ps acc, inv B acc.1 → NoDup ps.*1 → (∀ p, p ∈ ps → queues acc.1 !! p.1 = Some p.2) → inv B (foldl expire_one acc ps).1) as H.
  { induction ps as [|[k q] ps IH]; intros [d1 fs] I1 Hn Hin; simpl; [done|]. apply NoDup_cons in Hn as [Hn1 Hn2]. apply IH; [|done|].
    - simpl. destruct (inv_delete B d1 k q I1) as [I2|]; [apply (Hin (k, q)); left| |lia]. by apply (inv_same B _ _ I2).
    - intros p Hp. simpl. rewrite lookup_delete_ne; [apply Hin; by right|]. intros ->. apply Hn1. exact (list_elem_of_fmap_2 fst ps p Hp). }
  apply H; [done| |].
  - eapply sublist_NoDup; [apply (btree_iter_nodup (queues d))|]. by apply fmap_sublist, sublist_filter.
  - intros [k q] [_ Hin%elem_of_btree_iter]%list_elem_of_filter. done.
Qed.
End invariant.
