(* ===== verification/FragTheorems.v ===== *)
(** * The theorems of reassembly

    In every state the code can reach: what a completed datagram is made of, and the
    memory bound.  And the fragments of one datagram, each once and in any order,
    complete it with the last. *)

From S2P Require Import Prelude Bytes NetBytes Csum Frag FragSpec.
Import frag.

(** ** Every reachable state *)
Inductive reach : list (list byte) → Defrag → Prop :=
  | reach_new : reach [] new
  | reach_input h d ip now : reach h d → hdr_ok ip → reach (ip :: h) (snd (input ip now d))
  | reach_expire h d now : reach h d → reach h (expire d now).1.

Lemma arrived_mono h h' k ip hd : h ⊆ h' → arrived h k ip hd → arrived h' k ip hd.
Proof. intros Hs (Hin & H). split; [by apply Hs|done]. Qed.

Lemma part_of_mono h h' k o data : h ⊆ h' → part_of h k o data → part_of h' k o data.
Proof. intros Hs (ip & hd & Ha & H). exists ip, hd. split; [by eapply arrived_mono|done]. Qed.

Lemma inv_mono h h' B d : h ⊆ h' → inv h B d → inv h' B d.
Proof.
  intros Hs [H1 H2 H3]. split; [done..|]. eapply map_Forall_impl; [done|]. intros k q []. split; try done.
  - intros o data Hd. destruct (q_parts o data Hd) as (Hp & ?). split; [by eapply part_of_mono|done].
  - intros b Hb. destruct (q_head b Hb) as (ip & hd & Ha & ?). exists ip, hd. split; [by eapply arrived_mono|done].
  - intros Hl. destruct (q_last Hl) as (ip & hd & Ha & ?). exists ip, hd. split; [by eapply arrived_mono|done].
Qed.

Lemma input_inv h d ip now : inv h MEM_MAX d → hdr_ok ip →
  wp (input ip now) (λ r d', inv (ip :: h) MEM_MAX d' ∧ ∃ hd, header ip = Ok hd ∧ answer (ip :: h) (key hd) r) d.
Proof. intros I Hok. apply input_spec; [eapply inv_mono; [|done]; intros ? ?; by right|left|done]. Qed.

Lemma reach_inv h d : reach h d → inv h MEM_MAX d.
Proof.
  induction 1 as [|h d ip now _ IH Hok|h d now _ IH].
  - split; simpl; [done|unfold MEM_MAX, HIGH_THRESH, FRAG_OVERHEAD; lia|apply map_Forall_empty].
  - pose proof (input_inv h d ip now IH Hok) as H. unfold wp in H. destruct (input ip now d). by destruct H.
  - by apply expire_inv.
Qed.

(** C26. Whatever fragments with whole headers arrived before, in whatever order and
    however many queues expired, the next one is handled without a panic, memory stays
    within 4 MiB and one fragment, and if it completes a datagram then each byte of
    the payload is, at its offset, a byte of a fragment that arrived with the same
    source, destination, identification and protocol; there are no gaps, a fragment
    without MF ends where the datagram does, and the header, the first fragment's with
    length and fragment bits put right, has a checksum that verifies. *)
Theorem reassembled_from_its_fragments h d ip now : reach h d → hdr_ok ip →
  ∃ r d' hd, input ip now d = (Ok r, d') ∧ header ip = Ok hd ∧ mem d' ≤ MEM_MAX ∧
    ∀ out, r = Complete out → assembled (ip :: h) (key hd) out.
Proof.
  intros Hr Hok. pose proof (input_inv h d ip now (reach_inv _ _ Hr) Hok) as H. unfold wp in H.
  destruct (input ip now d) as [r d'] eqn:E. destruct H as (I & hd & Eh & Ha). destruct r as [r| |]; [|done..].
  exists r, d', hd. split_and!; [done..|apply I|]. by intros out ->.
Qed.

(** ** One datagram's fragments *)

(** A fragment on its way: its bytes, when it arrives, and the range of the payload it
    carries. *)
Record Sent := { s_ip : list byte; s_now : Z; s_off : Z; s_len : Z }.

Section any_order.
Context (k : Key) (tos : Z) (payload : list byte).
Let P := zlen payload.

(** A fragment as a host or router sends it: of the datagram [k], its bytes those of
    the payload, MF set exactly when more follows, and then whole words of 8 bytes. *)
Definition fragment_of (f : Sent) : Prop :=
  hdr_ok (s_ip f) ∧ u8_at (E := unit) (s_ip f) 1 = Ok tos ∧ 0 < s_len f ∧ s_off f + s_len f ≤ P ∧
  ∃ hd, header (s_ip f) = Ok hd ∧ key hd = k ∧ offset hd = s_off f ∧ tot hd = ihl hd + s_len f ∧
    mf hd = (s_off f + s_len f <? P) ∧ (mf hd = true → s_len f `mod` 8 = 0) ∧
    raw_sub (s_ip f) (ihl hd) (s_len f) = raw_sub payload (s_off f) (s_len f).

Definition piece (f : Sent) : Z * list byte := (s_off f, raw_sub payload (s_off f) (s_len f)).
Definition pieces (fs : list Sent) : gmap Z (list byte) := list_to_map (piece <$> fs).

(** The payload cut into fragments. *)
Record cut (fs : list Sent) : Prop := {
  c_frags : Forall fragment_of fs;
  c_nodup : NoDup (s_off <$> fs);
  c_apart : apart (pieces fs);
  c_sum : list_sum s_len fs = P }.

Lemma pieces_cons f fs : pieces (f :: fs) = <[s_off f := (piece f).2]> (pieces fs).
Proof. done. Qed.

Lemma fragment_range f : fragment_of f → 0 ≤ s_off f ∧ 0 < s_len f ∧ s_off f + s_len f ≤ P.
Proof. intros (_ & _ & ? & ? & hd & _ & _ & Eo & _). pose proof (offset_range hd) as [? _]. lia. Qed.

Lemma piece_fst (fs : list Sent) : (piece <$> fs).*1 = s_off <$> fs.
Proof. rewrite <- list_fmap_compose. by apply list_fmap_ext. Qed.

Lemma pieces_perm fs fs' : fs ≡ₚ fs' → NoDup (s_off <$> fs) → pieces fs = pieces fs'.
Proof. intros Hp Hn. apply list_to_map_proper; [by rewrite piece_fst|]. by rewrite Hp. Qed.

Lemma cut_perm fs fs' : fs ≡ₚ fs' → cut fs → cut fs'.
Proof.
  intros Hp [H1 H2 H3 H4]. split; [by rewrite <- Hp|by rewrite <- Hp| |].
  - by rewrite <- (pieces_perm fs fs').
  - rewrite <- H4. symmetry. by apply list_sum_perm.
Qed.

Lemma pieces_lookup fs o d : NoDup (s_off <$> fs) → pieces fs !! o = Some d ↔ ∃ f, f ∈ fs ∧ piece f = (o, d).
Proof.
  intros Hn. unfold pieces. rewrite <- elem_of_list_to_map by (by rewrite piece_fst). rewrite list_elem_of_fmap. naive_solver.
Qed.

Lemma zlen_piece f : fragment_of f → zlen (piece f).2 = s_len f.
Proof. intros H%fragment_range. apply zlen_raw_sub; fold P; lia. Qed.

Lemma pieces_sum fs : Forall fragment_of fs → NoDup (s_off <$> fs) → map_sum zlen (pieces fs) = list_sum s_len fs.
Proof.
  induction 1 as [|f fs Hf Hfs IH]; intros Hn; [done|]. apply NoDup_cons in Hn as [Hn1 Hn2]. rewrite pieces_cons, map_sum_insert, list_sum_cons.
  - rewrite IH by done. f_equal. by apply zlen_piece.
  - apply not_elem_of_list_to_map. by rewrite piece_fst.
Qed.

Lemma list_sum_pos fs : Forall fragment_of fs → 0 ≤ list_sum s_len fs ∧ (fs ≠ [] → 0 < list_sum s_len fs).
Proof. induction 1 as [|f fs Hf%fragment_range Hfs IH]; [done|]. rewrite list_sum_cons. lia. Qed.

(** Contiguous pieces of the payload are the payload. *)
Lemma contiguous_payload ps a b : contiguous a ps b → 0 ≤ a → b ≤ P → (∀ o d, (o, d) ∈ ps → d = raw_sub payload o (zlen d)) →
  a ≤ b ∧ mjoin ps.*2 = raw_sub payload a (b - a).
Proof.
  revert a. induction ps as [|[o d] ps IH]; intros a Hc Ha Hb Hin.
  { simpl in Hc. subst. split; [lia|]. by rewrite Z.sub_diag. }
  rewrite fmap_cons. change (mjoin ((o, d).2 :: ps.*2)) with (d ++ mjoin ps.*2). cbn [snd contiguous] in *. destruct Hc as [-> Hc]. pose proof (zlen_nonneg d). destruct (IH (a + zlen d)) as [H1 ->]; [done|lia|done|by intros; apply Hin; right|].
  split; [lia|]. rewrite (Hin a d) at 1 by left. unfold raw_sub. replace (Z.to_nat (a + zlen d)) with (Z.to_nat a + Z.to_nat (zlen d))%nat by lia.
  rewrite <- drop_drop. replace (Z.to_nat (b - a)) with (Z.to_nat (zlen d) + Z.to_nat (b - (a + zlen d)))%nat by lia. symmetry. by rewrite take_take_drop.
Qed.

(** The queue after the fragments [ds]. *)
Definition ends (f : Sent) : bool := s_off f + s_len f =? P.
Record holding (ds : list Sent) (q : Queue) : Prop := {
  h_frags : frags q = pieces ds;
  h_len : 0 ≤ len q ≤ P;
  h_last : last_in q = existsb ends ds;
  h_full : last_in q = true → len q = P;
  h_ecn : ecn q = match ds with [] => 0 | _ => frag_ecn tos end;
  h_head : (∃ f, f ∈ ds ∧ s_off f = 0) → is_Some (head q);
  h_from : ∀ b, head q = Some b → ∃ f hd, f ∈ ds ∧ s_off f = 0 ∧ header (s_ip f) = Ok hd ∧ b = take (Z.to_nat (ihl hd)) (s_ip f) }.

(** The state after them, with the source's counter where the queue left it. *)
Definition ready (ds : list Sent) (d : Defrag) : Prop :=
  ∃ q t, queues d !! k = Some q ∧ holding ds q ∧ fits 32 (rid q) ∧ peers d !! k.1.1.1 = Some (rid q, t).
Definition waiting (ds : list Sent) (d : Defrag) : Prop :=
  match ds with [] => queues d !! k = None | _ => ready ds d end.

Lemma to_ready ds d now : waiting ds d → wp (too_far k now) (λ r d', r = Ok tt ∧ ready ds d' ∧ mem d' = mem d) (find_queue k now d).
Proof.
  intros Hw. assert (∃ q, queues (find_queue k now d) !! k = Some q ∧ holding ds q ∧ peers (find_queue k now d) = peers d ∧ mem (find_queue k now d) = mem d ∧
    (ds = [] ∨ fits 32 (rid q) ∧ ∃ t, peers d !! k.1.1.1 = Some (rid q, t))) as (q & Hq & Hh & Hp & Hm & Hr).
  { unfold find_queue. destruct ds as [|f ds]; simpl in Hw.
    - rewrite Hw. eexists. split_and!; [apply lookup_insert_eq| |done|done|by left]. split; simpl; try done; [unfold P; pose proof (zlen_nonneg payload); lia|].
      intros (f & [] %elem_of_nil & _).
    - destruct Hw as (q & t & Hq & Hh & Hf & Hp). rewrite Hq. exists q. split_and!; eauto. }
  set (d0 := find_queue k now d) in *. clearbody d0. unfold too_far. apply wp_bind, wp_get. unfold count_peer. cbv zeta.
  set (r := u32 _). set (ps := if _ && _ then _ else _) in *. apply wp_bind. eapply wp_of_opt; [exact Hq|].
  assert (negb (bool_decide (frags q = ∅)) && (MAX_DIST <? u32 (r - rid q)) = false) as ->.
  { destruct Hr as [->|(Hf & t & Ht)]; [by rewrite (h_frags _ _ Hh), bool_decide_true|]. apply andb_false_iff. right. apply Z.ltb_ge.
    assert (ps !! k.1.1.1 = Some (rid q, t)) as Hps by (unfold ps; rewrite Hp, Ht, (bool_decide_true (is_Some _)), andb_false_r by done; done).
    unfold r. rewrite Hps. simpl. unfold wrap. rewrite Zminus_mod_idemp_l. replace (rid q + 1 - rid q) with 1 by lia. done. }
  apply wp_put. split_and!; [done| |done]. exists (set_rid q r), now. split_and!; simpl; [apply lookup_insert_eq|by destruct Hh; split|by apply wrap_fits|apply lookup_insert_eq].
Qed.

Lemma place_fragment ds f hd q : fragment_of f → header (s_ip f) = Ok hd → holding ds q →
  ∃ l, place hd q = Some (s_off f + s_len f, set_len q l (last_in q || ends f)) ∧ 0 ≤ l ≤ P ∧ (last_in q || ends f = true → l = P).
Proof.
  intros Hf Eh Hh. pose proof (fragment_range f Hf) as (Ho & Hl & Hle). destruct Hf as (_ & _ & _ & _ & hd' & Eh' & _ & Eo & Et & Em & Em8 & _).
  rewrite Eh in Eh'. injection Eh' as <-. unfold place. rewrite Et, Eo. replace (sat_sub (ihl hd + s_len f) (ihl hd)) with (s_len f) by (unfold sat_sub; lia).
  pose proof (h_len _ _ Hh). pose proof (h_full _ _ Hh) as Hfull. unfold ends. destruct (mf hd) eqn:Emf; cbn [negb].
  - assert (s_off f + s_len f ≠ P) as Hne by lia. rewrite round8. assert (8 * ((s_off f + s_len f) / 8) = s_off f + s_len f) as ->.
    { pose proof (offset_range hd) as [_ Ho8]. rewrite Eo in Ho8. specialize (Em8 eq_refl). symmetry. apply Z.div_exact; [done|]. by rewrite Zplus_mod, Ho8, Em8. }
    rewrite (proj2 (Z.eqb_neq _ _)), orb_false_r by done. destruct (Z.ltb_spec (len q) (s_off f + s_len f)).
    + destruct (last_in q) eqn:El; [specialize (Hfull eq_refl); lia|]. eexists. split; [done|]. split; [lia|done].
    + exists (len q). split; [by destruct q|]. done.
  - assert (s_off f + s_len f = P) as EP by lia. rewrite EP, Z.eqb_refl, orb_true_r. rewrite (proj2 (Z.ltb_ge P (len q))) by lia.
    assert (last_in q && negb (P =? len q) = false) as ->. { destruct (last_in q); [|done]. rewrite Hfull by done. by rewrite Z.eqb_refl. }
    exists P. split; [done|]. lia.
Qed.

Lemma holding_insert ds f hd q l data : NoDup (s_off <$> f :: ds) → fragment_of f → header (s_ip f) = Ok hd → holding ds q → 0 ≤ l ≤ P →
  (last_in q || ends f = true → l = P) → data = raw_sub payload (s_off f) (s_len f) →
  holding (f :: ds) (insert_frag hd (s_ip f) data tos (set_len q l (last_in q || ends f))).
Proof.
  intros Hn Hf Eh Hh Hl Hfull ->. destruct Hf as (_ & _ & _ & _ & hd' & Eh' & _ & Eo & _). rewrite Eh in Eh'. injection Eh' as <-.
  split; unfold insert_frag; cbn [frags head len last_in ecn set_len]; rewrite ?Eo; try done.
  - by rewrite pieces_cons, (h_frags _ _ Hh).
  - cbn [existsb]. by rewrite (h_last _ _ Hh), orb_comm.
  - rewrite (h_ecn _ _ Hh). destruct ds; [done|apply Z.lor_diag].
  - intros (f' & [->|Hin]%elem_of_cons & E0); [by rewrite E0|]. destruct (_ =? 0); [done|]. apply (h_head _ _ Hh). eauto.
  - intros b. destruct (Z.eqb_spec (s_off f) 0) as [E0|].
    + intros [= <-]. exists f, hd. split_and!; [left|done..].
    + intros (f' & hd' & Hin & H)%(h_from _ _ Hh). exists f', hd'. split; [by right|done].
Qed.

Lemma ecn_one : ∃ e, ecn_of (frag_ecn tos) = Some e.
Proof.
  unfold frag_ecn. assert (0 ≤ Z.land tos 3 < 4) as H by (change 3 with (Z.ones 2); rewrite Z.land_ones by lia; by apply Z.mod_pos_bound).
  assert (Z.land tos 3 = 0 ∨ Z.land tos 3 = 1 ∨ Z.land tos 3 = 2 ∨ Z.land tos 3 = 3) as [E|[E|[E|E]]] by lia; rewrite E; eexists; reflexivity.
Qed.

(** A cut has a first and a last piece. *)
Lemma cut_tiles ds : cut ds → contiguous 0 (btree_iter (pieces ds)) P.
Proof.
  intros [Hf Hn Ha Hs]. pose proof (zlen_nonneg payload). destruct (frags_tile (pieces ds) P) as [_ Ht]; [unfold P; lia| |done|].
  { intros o d (f & Hin & [= <- <-])%pieces_lookup; [|done]. rewrite Forall_forall in Hf. pose proof (fragment_range f (Hf _ Hin)).
    pose proof (zlen_piece f (Hf _ Hin)) as Z1. unfold piece in Z1. simpl in Z1. rewrite Z1. lia. }
  apply Ht. by rewrite pieces_sum.
Qed.

Lemma contiguous_last a ps b : contiguous a ps b → ps = [] ∨ ∃ o d, (o, d) ∈ ps ∧ o + zlen d = b.
Proof.
  revert a. induction ps as [|[o d] ps IH]; intros a Hct; [by left|]. right. simpl in Hct. destruct Hct as [-> Hct]. destruct (IH _ Hct) as [->|(o' & d' & Hin & E)].
  - exists a, d. split; [left|]. by simpl in Hct.
  - exists o', d'. split; [by right|done].
Qed.

Lemma cut_ends ds : cut ds → ds ≠ [] → (∃ f, f ∈ ds ∧ s_off f = 0) ∧ existsb ends ds = true.
Proof.
  intros Hc Hne. pose proof (cut_tiles ds Hc) as Ht. pose proof (list_sum_pos ds (c_frags _ Hc)) as [_ Hpos]. specialize (Hpos Hne). rewrite (c_sum _ Hc) in Hpos.
  assert (∀ o d, (o, d) ∈ btree_iter (pieces ds) → ∃ f, f ∈ ds ∧ s_off f = o ∧ s_len f = zlen d) as Hin.
  { intros o d (f & Hin & E)%elem_of_btree_iter%pieces_lookup; [|apply Hc]. exists f. pose proof (zlen_piece f) as Z1. rewrite E in Z1. simpl in Z1.
    rewrite Z1 by (eapply Forall_forall; [apply Hc|done]). by injection E. }
  destruct (contiguous_last _ _ _ Ht) as [E|(o & d & Hi & E)]; [rewrite E in Ht; simpl in Ht; lia|]. split.
  - destruct (btree_iter (pieces ds)) as [|[o0 d0] ps]; [by apply elem_of_nil in Hi|]. simpl in Ht. destruct Ht as [-> _].
    destruct (Hin 0 d0) as (f & Hf & E0 & _); [left|]. eauto.
  - destruct (Hin o d Hi) as (f & Hf & E1 & E2). apply existsb_exists. exists f. split; [by apply list_elem_of_In|]. unfold ends. lia.
Qed.

(** Every fragment is in: the datagram is whole; one is missing: it is not. *)
Lemma whole_iff h ds rest q : cut (ds ++ rest) → ds ≠ [] → holding ds q → queue_ok h k q → whole q = bool_decide (rest = []).
Proof.
  intros Hc Hne Hh Hq. pose proof (c_frags _ Hc) as Hfr. apply Forall_app in Hfr as [Hfd Hfr]. pose proof (c_nodup _ Hc) as Hn.
  rewrite fmap_app in Hn. apply NoDup_app in Hn as (Hnd & _ & _). pose proof (c_sum _ Hc) as HP.
  assert (list_sum s_len (ds ++ rest) = list_sum s_len ds + list_sum s_len rest) as Happ.
  { clear. induction ds as [|f ds IH]; simpl; [done|]. unfold list_sum in *. lia. }
  rewrite Happ in HP. pose proof (list_sum_pos rest Hfr) as [_ Hpos].
  unfold whole. rewrite (q_meat _ _ _ Hq), (h_frags _ _ Hh), (pieces_sum ds Hfd Hnd). destruct (decide (rest = [])) as [Er|Er].
  - rewrite (bool_decide_true (rest = [])) by done. subst rest. rewrite app_nil_r in Hc. change (list_sum s_len []) with 0 in HP.
    destruct (cut_ends ds Hc Hne) as [H0 Hl]. assert (last_in q = true) as El by (by rewrite (h_last _ _ Hh)).
    rewrite El, (h_full _ _ Hh El), (proj2 (Z.eqb_eq _ P)), bool_decide_true by (lia || by apply (h_head _ _ Hh)). done.
  - rewrite (bool_decide_false (rest = [])) by done. specialize (Hpos Er). apply andb_false_iff. destruct (last_in q) eqn:El; [|left; by rewrite andb_false_r]. right.
    rewrite (h_full _ _ Hh El). apply Z.eqb_neq. lia.
Qed.

(** The whole datagram: a header put right from the fragment at offset 0, and the
    payload. *)
Definition datagram (fs : list Sent) (out : list byte) : Prop :=
  ∃ f hd hd', f ∈ fs ∧ s_off f = 0 ∧ header (s_ip f) = Ok hd ∧ header_fixed (take (Z.to_nat (ihl hd)) (s_ip f)) hd' (ihl hd + P) ∧ out = hd' ++ payload.

Lemma reasm_datagram h fs d q : cut fs → fs ≠ [] → 60 + P ≤ 65535 → inv h MEM_MAX d → queues d !! k = Some q → holding fs q → whole q = true →
  wp (reasm k) (λ r d', ∃ out, r = Ok (Complete out) ∧ datagram fs out ∧ queues d' !! k = None) d.
Proof.
  intros Hc Hne H65 I Hk Hh Hw. destruct (whole_spec h k q (i_queues _ _ _ I _ _ Hk) Hw) as (b & ip & hd & ip' & hl & Eb & Ha & Ho & Ebt & Lb & Hi & Hct & _).
  destruct (h_from _ _ Hh b Eb) as (f & hd0 & Hin & E0 & Eh & ->). pose proof (cut_ends fs Hc Hne) as [_ Hl]. rewrite <- (h_last _ _ Hh) in Hl.
  pose proof (h_full _ _ Hh Hl) as EP. unfold reasm. apply wp_bind, wp_get, wp_bind. eapply wp_of_opt; [done|]. apply wp_bind, wp_put, wp_bind. eapply wp_of_opt; [done|].
  assert (ecn q = frag_ecn tos) as -> by (rewrite (h_ecn _ _ Hh); by destruct fs). destruct ecn_one as [e ->].
  assert (zlen (take (Z.to_nat (ihl hd0)) (s_ip f)) = ihl hd0) as L0.
  { pose proof (c_frags _ Hc) as Hf. rewrite Forall_forall in Hf. destruct (Hf f Hin) as (Hok & _ & ? & _ & hd2 & E2 & _ & _ & Et & _).
    destruct (header_ok _ Hok) as (hd1 & E1 & ? & ? & ? & _). rewrite Eh in E1, E2. injection E1 as <-. injection E2 as <-. unfold zlen in *. rewrite length_take. lia. }
  rewrite L0 in *. rewrite EP in *. unfold P in *. pose proof (zlen_nonneg payload). rewrite (proj2 (Z.ltb_ge 65535 _)) by lia.
  destruct (frag_rebuild_spec (take (Z.to_nat (ihl hd0)) (s_ip f)) (btree_iter (frags q)).*2 (ihl hd0 + zlen payload) e) as (hd' & -> & Hfix); [lia..|].
  apply wp_bind. eapply wp_of_res; [done|]. apply wp_bind, wp_put, wp_ret. eexists. split; [done|]. split; [|simpl; apply lookup_delete_eq].
  exists f, hd0, hd'. split_and!; [done..|]. f_equal. rewrite (h_frags _ _ Hh) in *.
  destruct (contiguous_payload _ _ _ Hct) as [_ ->]; [lia|done| |].
  - intros o d' (f' & Hin' & [= <- <-])%elem_of_btree_iter%pieces_lookup; [|apply Hc]. pose proof (c_frags _ Hc) as Hf. rewrite Forall_forall in Hf.
    pose proof (zlen_piece f' (Hf _ Hin')) as Z1. unfold piece in Z1. simpl in Z1. by rewrite Z1.
  - unfold raw_sub. rewrite drop_0. apply take_ge. unfold zlen. lia.
Qed.

(** A fragment overlaps none of the others. *)
Lemma no_overlap ds f rest q : cut (f :: ds ++ rest) → frags q = pieces ds → (overlaps q (s_off f) (s_off f + s_len f)).1 = false.
Proof.
  intros Hc Ef. apply overlaps_none. intros o dt Hod Hlt. rewrite Ef in Hod. pose proof (c_apart _ Hc) as Hap. pose proof (c_nodup _ Hc) as Hn.
  pose proof (Forall_inv (c_frags _ Hc)) as Hf. rewrite fmap_cons, fmap_app in Hn. apply NoDup_cons in Hn as [Hn1 Hn2]. pose proof Hn2 as (Hnd & _ & _)%NoDup_app.
  apply pieces_lookup in Hod as (g & Hg & Eg); [|done].
  assert (pieces (f :: ds ++ rest) !! o = Some dt) as H1.
  { apply pieces_lookup; [rewrite fmap_cons, fmap_app; by constructor|]. exists g. split; [set_solver|done]. }
  assert (pieces (f :: ds ++ rest) !! s_off f = Some (piece f).2) as H2 by (rewrite pieces_cons; apply lookup_insert_eq).
  destruct (Z.lt_trichotomy o (s_off f)) as [Hlo|[Heq|Hgt]].
  - exact (Hap _ _ _ _ H1 H2 Hlo).
  - subst o. exfalso. apply Hn1. injection Eg as <- _. apply elem_of_app. left. by apply list_elem_of_fmap_2.
  - pose proof (Hap _ _ _ _ H2 H1 Hgt) as H3. rewrite zlen_piece in H3 by done. lia.
Qed.

(** What the fragment [f] does after [ds], with [rest] to come. *)
Lemma queue_step h ds f rest hd d : cut (f :: ds ++ rest) → 60 + P ≤ 65535 → header (s_ip f) = Ok hd → s_ip f ∈ h → inv h HIGH_THRESH d → ready ds d →
  wp (queue_frag hd (s_ip f)) (λ r d', match rest with
    | [] => ∃ out, r = Ok (Complete out) ∧ datagram (f :: ds) out ∧ queues d' !! k = None
    | _ => r = Ok Pending ∧ ready (f :: ds) d' ∧ mem d' = mem d + (s_len f + FRAG_OVERHEAD) end) d.
Proof.
  intros Hc H65 Eh Hin I (q & t & Hk & Hh & Hr & Hp). pose proof (c_frags _ Hc) as Hfs. apply Forall_cons in Hfs as [Hf Hfs]. apply Forall_app in Hfs as [Hfd _].
  pose proof (fragment_range f Hf) as (Ho & Hl & Hle). pose proof (place_fragment ds f hd q Hf Eh Hh) as (l & Epl & Hlr & Hlf).
  pose proof Hf as (Hok & Etos & _ & _ & hd' & Eh' & Ek & Eo & Et & _ & _ & Edata). rewrite Eh in Eh'. injection Eh' as <-.
  destruct (header_ok _ Hok) as (hd1 & E1 & Hi & Ht & Ht65 & _). rewrite Eh in E1. injection E1 as <-.
  assert (arrived h k (s_ip f) hd) as Ha by done. pose proof (i_queues _ _ _ I _ _ Hk) as Hq.
  destruct (set_len_ok h k q hd (s_ip f) _ _ Hq Ha Epl) as (Hq1 & Ef & Em & He & Hel); [lia..|]. unfold queue_frag. rewrite Ek.
  apply wp_bind, wp_get, wp_bind. eapply wp_of_opt; [exact Hk|]. rewrite Epl, Eo in *. apply wp_bind, wp_put.
  set (q1 := set_len q l _) in *. rewrite (proj2 (Z.eqb_neq _ (s_off f))) by lia.
  pose proof (c_nodup _ Hc) as Hn. rewrite fmap_cons, fmap_app in Hn. assert (NoDup (s_off <$> f :: ds)) as Hnd.
  { apply NoDup_cons in Hn as [Hn1 Hn2]. apply NoDup_app in Hn2 as (Hn2 & _ & _). constructor; [set_solver|done]. }
  assert ((overlaps q1 (s_off f) (s_off f + s_len f)).1 = false) as Eov by (eapply no_overlap; [exact Hc|by rewrite Ef, (h_frags _ _ Hh)]).
  destruct (overlaps q1 (s_off f) (s_off f + s_len f)) as [ov cov] eqn:Eovl. simpl in Eov. subst ov.
  replace (s_off f + s_len f - s_off f) with (s_len f) by lia. apply wp_bind. eapply wp_of_opt; [apply sub_Some; lia|]. apply wp_bind. eapply wp_of_res; [exact Etos|].
  apply wp_bind, wp_put. pose proof (queue_mem_le _ _ _ _ _ I Hk). pose proof (i_bound _ _ _ I). rewrite Edata.
  destruct (insert_frag_ok h k q1 hd (s_ip f) tos (s_off f + s_len f) Hq1) as [Hq2 Em2]; [lia|done|rewrite Eo; unfold sat_sub; lia|done|by rewrite Eo, Eovl|].
  rewrite Eo in Hq2, Em2. replace (s_off f + s_len f - s_off f) with (s_len f) in Hq2, Em2 by lia. rewrite Edata in Hq2, Em2.
  pose proof (holding_insert ds f hd q l _ Hnd Hf Eh Hh Hlr Hlf eq_refl) as Hh2. fold q1 in Hh2. set (q2 := insert_frag _ _ _ _ q1) in *.
  assert (zlen (raw_sub payload (s_off f) (s_len f)) = s_len f) as -> by (apply (zlen_piece f Hf)).
  assert (u64 (mem d + (s_len f + FRAG_OVERHEAD)) = mem d + (s_len f + FRAG_OVERHEAD)) as Ew by (apply wrap_small; unfold fits, FRAG_OVERHEAD, HIGH_THRESH in *; lia).
  cbn [mem put_queue set_queues] in *. rewrite Ew. rewrite (whole_iff h (f :: ds) rest q2) by done. set (d2 := set_queues _ _ _).
  assert (queues d2 !! k = Some q2) as Hk2 by (simpl; apply lookup_insert_eq). destruct rest as [|g rest].
  - rewrite bool_decide_true by done. rewrite app_nil_r in Hc. eapply reasm_datagram; try done.
    + apply (inv_put h HIGH_THRESH MEM_MAX _ k q1); [|simpl; apply lookup_insert_eq|done|rewrite Em2; cbn [mem put_queue set_queues]; lia|unfold MEM_MAX, FRAG_OVERHEAD in *; lia].
      eapply inv_put; [exact I|exact Hk|done|rewrite Em; lia|apply I].
    + rewrite (whole_iff h (f :: ds) [] q2); [done|by rewrite app_nil_r|done..].
  - rewrite bool_decide_false by done. apply wp_ret. split_and!; [done| |done]. exists q2, t. split_and!; [done|done|done|done].
Qed.

Definition receive (f : Sent) : M Defrag unit Defragged := input (s_ip f) (s_now f).

Lemma receive_step h ds f rest d : cut (f :: ds ++ rest) → 60 + P ≤ 65535 → inv h MEM_MAX d → waiting ds d → mem d ≤ HIGH_THRESH →
  wp (receive f) (λ r d', inv (s_ip f :: h) MEM_MAX d' ∧ match rest with
    | [] => ∃ out, r = Ok (Complete out) ∧ datagram (f :: ds) out ∧ queues d' !! k = None
    | _ => r = Ok Pending ∧ waiting (f :: ds) d' ∧ mem d' = mem d + (s_len f + FRAG_OVERHEAD) end) d.
Proof.
  intros Hc H65 I Hw Hm. pose proof (Forall_inv (c_frags _ Hc)) as Hf. pose proof Hf as (Hok & _ & _ & _ & hd & Eh & Ek & _).
  apply wp_and. { eapply wp_mono; [by apply input_inv|]. by intros r d' [? _]. }
  unfold receive, input. apply wp_bind. eapply wp_of_res; [exact Eh|]. apply wp_bind, wp_get. rewrite (proj2 (Z.ltb_ge HIGH_THRESH _)) by done. rewrite Ek.
  apply wp_bind, wp_put, wp_bind. assert (inv (s_ip f :: h) HIGH_THRESH d) as I1.
  { eapply inv_mono; [intros ? ?; by right|]. destruct I. split; [done|lia|done]. }
  destruct (find_queue_inv (s_ip f :: h) HIGH_THRESH k (s_now f) d I1) as [I2 S2].
  eapply wp_mono; [apply wp_and; [by apply (to_ready ds)|apply (too_far_inv (s_ip f :: h) HIGH_THRESH); [done|exact I2|exact S2]]|].
  intros r d' ((-> & Hr & Em) & _ & I3 & _). rewrite <- Em. apply (queue_step (s_ip f :: h)); try done. left.
Qed.

Lemma receive_all h fs ds d : cut (ds ++ fs) → fs ≠ [] → 60 + P ≤ 65535 → inv h MEM_MAX d → waiting ds d →
  mem d + list_sum (λ f, s_len f + FRAG_OVERHEAD) fs ≤ HIGH_THRESH →
  wp (mapM receive fs) (λ r d', ∃ out, r = Ok (replicate (length fs - 1) Pending ++ [Complete out]) ∧ datagram (ds ++ fs) out ∧ queues d' !! k = None) d.
Proof.
  revert h ds d. induction fs as [|f fs IH]; intros h ds d Hc Hne H65 I Hw Hm; [done|]. rewrite list_sum_cons in Hm.
  assert (f :: ds ++ fs ≡ₚ ds ++ f :: fs) as Hp by (by rewrite Permutation_middle). assert (cut (f :: ds ++ fs)) as Hc' by (by eapply cut_perm; [symmetry|]).
  pose proof (c_frags _ Hc') as Hfs. apply Forall_cons in Hfs as [Hf Hfs]. apply Forall_app in Hfs as [_ Hfs]. pose proof (fragment_range f Hf).
  assert (0 ≤ list_sum (λ f, s_len f + FRAG_OVERHEAD) fs) as Hs.
  { clear -Hfs. induction Hfs as [|g gs Hg%fragment_range Hgs IHs]; [done|]. rewrite list_sum_cons. unfold FRAG_OVERHEAD in *. lia. }
  cbn [mapM]. apply wp_bind. eapply wp_mono; [apply (receive_step h ds f fs); try done; unfold FRAG_OVERHEAD in *; lia|].
  intros r d' [I' H']. destruct fs as [|g fs].
  - destruct H' as (out & -> & Hd & Hk). cbn [mapM]. apply wp_bind, wp_ret, wp_ret. exists out. split_and!; [done| |done].
    destruct Hd as (f0 & hd & hd' & Hin & ?). exists f0, hd, hd'. split; [|done]. rewrite app_nil_r in Hp. rewrite <- Hp. exact Hin.
  - destruct H' as (-> & Hw' & Em). apply wp_bind. eapply wp_mono; [apply (IH (s_ip f :: h) (f :: ds)); try done; lia|].
    intros r d2 (out & -> & Hd & Hk). apply wp_ret. exists out. split_and!; [| |done].
    + f_equal. cbn [length]. by rewrite !Nat.sub_succ, !Nat.sub_0_r.
    + destruct Hd as (f0 & hd & hd' & Hin & ?). exists f0, hd, hd'. split; [|done]. rewrite <- Hp. exact Hin.
Qed.
End any_order.

(** C35. The fragments of a datagram, each once and in whatever order they arrive, give
    it back: all but the last leave it pending, the last completes it with exactly the
    payload that was cut, a header whose checksum verifies, and no queue left behind.
    The state before is any the code reaches with no queue of this datagram and room
    below the memory limit. *)
Theorem fragments_in_any_order_complete k tos payload fs h d :
  reach h d → queues d !! k = None → mem d + list_sum (λ f, s_len f + FRAG_OVERHEAD) fs ≤ HIGH_THRESH →
  cut k tos payload fs → fs ≠ [] → 60 + zlen payload ≤ 65535 →
  ∃ out d', mapM receive fs d = (Ok (replicate (length fs - 1) Pending ++ [Complete out]), d') ∧ datagram payload fs out ∧ queues d' !! k = None.
Proof.
  intros Hr Hk Hm Hc Hne H65. pose proof (receive_all k tos payload h fs [] d Hc Hne H65 (reach_inv _ _ Hr) Hk Hm) as H. unfold wp in H.
  destruct (mapM receive fs d) as [r d']. destruct H as (out & -> & Hd & Hn). eauto.
Qed.

(** ** An example: sixteen bytes in two fragments, the second first *)
Definition ex_header (off : list byte) : list byte :=
  [x45; x00; x00; x1c; x00; x07] ++ off ++ [x40; x11; x00; x00; x0a; x00; x00; x01; x0a; x00; x00; x02].
Definition ex_payload : list byte := (λ i, byte_of (Z.of_nat i)) <$> seq 0 16.
Definition ex_first : Sent := {| s_ip := ex_header [x20; x00] ++ take 8 ex_payload; s_now := 0; s_off := 0; s_len := 8 |}.
Definition ex_second : Sent := {| s_ip := ex_header [x00; x01] ++ drop 8 ex_payload; s_now := 5; s_off := 8; s_len := 8 |}.
Definition ex_key : Key := ([x0a; x00; x00; x01], [x0a; x00; x00; x02], 7, 17).

Lemma ex_hdr_ok f : f = ex_first ∨ f = ex_second → hdr_ok (s_ip f).
Proof. intros [->| ->]; (split; [vm_compute; congruence|exists x45; split; [done|vm_compute; congruence]]). Qed.

Lemma ex_fragments f : f = ex_first ∨ f = ex_second → fragment_of ex_key 0 ex_payload f.
Proof.
  intros Hf. split; [by apply ex_hdr_ok|]. destruct Hf as [->| ->]; (split_and!; [done|done|vm_compute; congruence|]); eexists; (split; [vm_compute; reflexivity|]);
    split_and!; try done; vm_compute; congruence.
Qed.

Lemma ex_cut : cut ex_key 0 ex_payload [ex_second; ex_first].
Proof.
  assert (NoDup (s_off <$> [ex_second; ex_first])) as Hn by (repeat constructor; vm_compute; set_solver). split.
  - repeat constructor; apply ex_fragments; auto.
  - done.
  - intros o1 d1 o2 d2 (f1 & Hf1 & [= <- <-])%pieces_lookup (f2 & Hf2 & [= <- <-])%pieces_lookup; [|done..].
    apply elem_of_cons in Hf1 as [->|Hf1%list_elem_of_singleton]; apply elem_of_cons in Hf2 as [->|Hf2%list_elem_of_singleton]; subst; vm_compute; congruence.
  - done.
Qed.

Lemma fragments_in_any_order_complete_witness :
  ∃ out d', mapM receive [ex_second; ex_first] new = (Ok (replicate 1 Pending ++ [Complete out]), d') ∧ datagram ex_payload [ex_second; ex_first] out ∧ queues d' !! ex_key = None.
Proof. apply (fragments_in_any_order_complete ex_key 0 ex_payload [ex_second; ex_first] [] new); [constructor|done|vm_compute; congruence|apply ex_cut|done|vm_compute; congruence]. Defined.

Lemma reassembled_from_its_fragments_witness :
  ∃ r d' hd, input (s_ip ex_second) 5 (snd (input (s_ip ex_first) 0 new)) = (Ok r, d') ∧ header (s_ip ex_second) = Ok hd ∧ mem d' ≤ MEM_MAX ∧
    ∀ out, r = Complete out → assembled [s_ip ex_second; s_ip ex_first] (key hd) out.
Proof. apply reassembled_from_its_fragments; [apply (reach_input [] new); [constructor|]|]; apply ex_hdr_ok; auto. Defined.
