(* ===== verification/Acd.v ===== *)
(** * IPv4 address conflict detection ([net/src/acd.rs])

    The client that probes an address, announces it and defends it (RFC 5227).  Time
    is microseconds; [rnd] is the random source the caller hands in, a step of its
    state [G].  [Out] collects what a call sends and reports. *)

From S2P Require Import Prelude Bytes NetBytes.

Module acd.

Definition USEC_PER_SEC := 1000000.
Definition PROBE_WAIT := 1.
Definition PROBE_MIN := 1.
Definition PROBE_MAX := 2.
Definition ANNOUNCE_WAIT := 2.
Definition TOTAL_TIME_UNITS := 7.
Definition ANNOUNCE_INTERVAL_USEC := 2 * USEC_PER_SEC.
Definition RATE_LIMIT_INTERVAL_USEC := 60 * USEC_PER_SEC.
Definition DEFEND_INTERVAL_USEC := 10 * USEC_PER_SEC.
Definition PROBE_NUM := 3.
Definition ANNOUNCE_NUM := 2.
Definition MAX_CONFLICTS := 10.
Definition DEFAULT_TIMEOUT_USEC := 200000.
Definition ARPOP_REQUEST := 1.
Definition ARPOP_REPLY := 2.
Definition ARP_LEN := 28.

Inductive State := Init | Started | WaitingProbe | Probing | WaitingAnnounce | Announcing | Running.
#[global] Instance State_eq_dec : EqDecision State.
Proof. solve_decision. Defined.

Inductive Event := Bind | Conflict.
Inductive Send := Probe (a : ip4) | Announcement (a : ip4).
#[global] Instance Event_eq_dec : EqDecision Event.
Proof. solve_decision. Defined.
#[global] Instance Send_eq_dec : EqDecision Send.
Proof. solve_decision. Defined.

Record Out := { send : list Send; events : list Event }.
Definition no_out : Out := {| send := []; events := [] |}.
Definition push_send (s : Send) (o : Out) : Out := {| send := send o ++ [s]; events := events o |}.
Definition push_event (e : Event) (o : Out) : Out := {| send := send o; events := events o ++ [e] |}.

Record Acd := {
  state : State;
  n_iteration : Z;
  n_conflict : Z;
  time_unit_usec : Z;
  defend_window : Z;
  address : ip4;
  own_mac : mac;
  timer : option Z }.

Definition clamp (z lo hi : Z) : Z := Z.max lo (Z.min hi z).

Definition new (m : mac) (timeout_usec : Z) : Acd :=
  let t := if timeout_usec =? 0 then DEFAULT_TIMEOUT_USEC else timeout_usec in
  {| state := Init; n_iteration := 0; n_conflict := 0;
     time_unit_usec := div_ceil (clamp t 1000 (60 * USEC_PER_SEC)) TOTAL_TIME_UNITS;
     defend_window := 0; address := zero4; own_mac := m; timer := None |}.

Definition is_running (a : Acd) : bool := negb (bool_decide (state a = Init)).
Definition is_bound (a : Acd) : bool := match state a with Announcing | Running => true | _ => false end.

(** ** Changing the client *)
Definition set_timer (a : Acd) (t : option Z) : Acd :=
  {| state := state a; n_iteration := n_iteration a; n_conflict := n_conflict a; time_unit_usec := time_unit_usec a;
     defend_window := defend_window a; address := address a; own_mac := own_mac a; timer := t |}.
Definition set_defend (a : Acd) (w : Z) : Acd :=
  {| state := state a; n_iteration := n_iteration a; n_conflict := n_conflict a; time_unit_usec := time_unit_usec a;
     defend_window := w; address := address a; own_mac := own_mac a; timer := timer a |}.
Definition set_conflicts (a : Acd) (n : Z) : Acd :=
  {| state := state a; n_iteration := n_iteration a; n_conflict := n; time_unit_usec := time_unit_usec a;
     defend_window := defend_window a; address := address a; own_mac := own_mac a; timer := timer a |}.
Definition set_address (a : Acd) (ip : ip4) : Acd :=
  {| state := state a; n_iteration := n_iteration a; n_conflict := n_conflict a; time_unit_usec := time_unit_usec a;
     defend_window := defend_window a; address := ip; own_mac := own_mac a; timer := timer a |}.

Definition set_state (st : State) (reset_counter : bool) (a : Acd) : Acd :=
  let again := bool_decide (st = state a) && negb reset_counter in
  {| state := if again then state a else st; n_iteration := if again then u32 (n_iteration a + 1) else 0; n_conflict := n_conflict a; time_unit_usec := time_unit_usec a;
     defend_window := defend_window a; address := address a; own_mac := own_mac a; timer := timer a |}.

Definition reset (a : Acd) : Acd := set_state Init true (set_timer a None).
Definition stop (a : Acd) : Acd := reset a.

Section random.
Context {G : Type} (rnd : G → Z * G).

Definition set_next_wakeup (a : Acd) (now usec random_usec : Z) (g : G) : Acd * G :=
  let '(next, g) := if 0 <? random_usec then let '(r, g) := rnd g in (u64 (usec + r `mod` random_usec), g) else (usec, g) in
  (set_timer a (Some (u64 (now + next))), g).

(** [ipv4acd_on_timeout]. *)
Definition on_timeout (a : Acd) (now : Z) (g : G) (out : Out) : Acd * G * Out :=
  let unit := time_unit_usec a in
  match state a with
  | Started =>
      let a := set_state WaitingProbe true (set_defend a 0) in
      let '(a, g) := if MAX_CONFLICTS <=? n_conflict a
                     then set_next_wakeup a now RATE_LIMIT_INTERVAL_USEC (PROBE_WAIT * unit) g
                     else set_next_wakeup a now 0 (PROBE_WAIT * unit) g in
      (a, g, out)
  | WaitingProbe | Probing =>
      let out := push_send (Probe (address a)) out in
      if n_iteration a <? PROBE_NUM - 2 then
        let '(a, g) := set_next_wakeup (set_state Probing false a) now (PROBE_MIN * unit) ((PROBE_MAX - PROBE_MIN) * unit) g in
        (a, g, out)
      else
        let '(a, g) := set_next_wakeup (set_state WaitingAnnounce true a) now (ANNOUNCE_WAIT * unit) 0 g in
        (a, g, out)
  | Announcing | WaitingAnnounce =>
      if bool_decide (state a = Announcing) && (ANNOUNCE_NUM - 1 <=? n_iteration a) then
        (set_state Running false a, g, out)
      else
        let out := push_send (Announcement (address a)) out in
        let '(a, g) := set_next_wakeup (set_state Announcing false a) now ANNOUNCE_INTERVAL_USEC 0 g in
        if n_iteration a =? 0 then (set_conflicts a 0, g, push_event Bind out) else (a, g, out)
  | Init | Running => (a, g, out)
  end.

(** [while let Some(t) = self.timer.filter(|&t| t <= now)].  Three timers at most are
    due at once ([tick_done]); out of fuel the timer is left due. *)
Fixpoint tick_loop (fuel : nat) (a : Acd) (now : Z) (g : G) (out : Out) : Acd * G * Out :=
  match fuel with
  | O => (a, g, out)
  | S fuel =>
      match timer a with
      | Some t =>
          if t <=? now then
            let '(a, g, out) := on_timeout (set_timer a None) (Z.max t now) g out in
            tick_loop fuel a now g out
          else (a, g, out)
      | None => (a, g, out)
      end
  end.
Definition tick (a : Acd) (now : Z) (g : G) (out : Out) : Acd * G * Out := tick_loop 4 a now g out.

Definition start (a : Acd) (ip : ip4) (reset_conflicts : bool) (now : Z) (g : G) (out : Out) : Acd * G * Out :=
  let a := set_address a ip in
  let a := if reset_conflicts then set_conflicts a 0 else a in
  let '(a, g) := set_next_wakeup a now 0 0 g in
  tick (set_state Started true a) now g out.
End random.

(** ** ARP packets *)
Definition arp_conflict (a : Acd) (op : Z) (sha : mac) (spa tpa : ip4) (announced : bool) (own : list mac) : bool :=
  if bool_decide (spa = address a) then true
  else if announced then false
  else (op =? ARPOP_REQUEST) && bool_decide (spa = zero4) && bool_decide (tpa = address a) && negb (bool_decide (sha ∈ own)).

Definition on_conflict (a : Acd) (out : Out) : Acd * Out :=
  (reset (set_conflicts a (u32 (n_conflict a + 1))), push_event Conflict out).

Definition packet (a : Acd) (arp : list byte) (now : Z) (own : list mac) (out : Out) : res unit (Acd * Out) :=
  if negb (is_running a) || (zlen arp <? ARP_LEN) then mret (a, out) else
  hrd ← unwrap (sub arp 0 2); pro ← unwrap (sub arp 2 2);
  hln ← u8_at arp 4; pln ← u8_at arp 5;
  if negb (bool_decide (hrd = [x00; x01])) || negb (bool_decide (pro = [x08; x00])) || negb (hln =? 6) || negb (pln =? 4) then mret (a, out) else
  op ← be16_at arp 6;
  if negb (op =? ARPOP_REQUEST) && negb (op =? ARPOP_REPLY) then mret (a, out) else
  sha ← unwrap (sub arp 8 6); spa ← unwrap (sub arp 14 4); tpa ← unwrap (sub arp 24 4);
  if bool_decide (sha = own_mac a) || (negb (bool_decide (spa = address a)) && negb (bool_decide (tpa = address a))) then mret (a, out) else
  match state a with
  | Announcing | Running =>
      if arp_conflict a op sha spa tpa true own then
        if defend_window a <? now then
          mret (set_defend a (u64 (now + DEFEND_INTERVAL_USEC)), push_send (Announcement (address a)) out)
        else mret (on_conflict a out)
      else mret (a, out)
  | Started | WaitingProbe | Probing | WaitingAnnounce =>
      if arp_conflict a op sha spa tpa false own then mret (on_conflict a out) else mret (a, out)
  | Init => mret (a, out)
  end.

End acd.

(** * What address conflict detection guarantees

    Safety: whatever ticks and packets come, the address is only taken after three
    probes for it went out, and nothing but announcements follows them.  Liveness:
    without a conflict it is taken within seven time units of the start. *)

Import acd.

Section random.
Context {G : Type} (rnd : G → Z * G).

(** ** Safety *)

(** What went out since the start, by state. *)
Definition log_ok (a : Acd) (log : Out) : Prop :=
  let probes n := replicate n (Probe (address a)) in
  match state a with
  | Init => True
  | Started | WaitingProbe => log = no_out ∧ n_iteration a = 0
  | Probing => events log = [] ∧ ((n_iteration a = 0 ∧ send log = probes 1%nat) ∨ (n_iteration a = 1 ∧ send log = probes 2%nat))
  | WaitingAnnounce => events log = [] ∧ send log = probes 3%nat ∧ n_iteration a = 0
  | Announcing | Running => events log = [Bind] ∧ 0 ≤ n_iteration a ≤ 1 ∧ ∃ n, send log = probes 3%nat ++ replicate n (Announcement (address a))
  end.

Lemma set_next_wakeup_same a now u r g :
  ∃ t g', set_next_wakeup rnd a now u r g = (set_timer a (Some t), g').
Proof. unfold set_next_wakeup. destruct (0 <? r); [destruct (rnd g)|]; eauto. Qed.

Ltac wakeup := match goal with |- context [set_next_wakeup rnd ?a ?n ?u ?r ?g] =>
  let t := fresh "t" in let g' := fresh "g" in destruct (set_next_wakeup_same a n u r g) as (t & g' & ->) end.

Lemma on_timeout_log a now g log : log_ok a log →
  let '(a', g', log') := on_timeout rnd a now g log in log_ok a' log' ∧ address a' = address a.
Proof.
  unfold log_ok, on_timeout. intros H. destruct (state a) eqn:Es; cbv zeta.
  - by rewrite Es.
  - destruct H as [-> Hn]. destruct (_ <=? _); wakeup; unfold set_state; rewrite andb_false_r; done.
  - destruct H as [-> Hn]. rewrite Hn. change (0 <? PROBE_NUM - 2) with true. cbn iota. wakeup.
    unfold set_state. rewrite Es. simpl. auto.
  - destruct H as [He [[Hn Hs]|[Hn Hs]]]; rewrite Hn; [change (0 <? PROBE_NUM - 2) with true|change (1 <? PROBE_NUM - 2) with false]; cbn iota; wakeup;
      unfold set_state; rewrite ?Es, ?andb_false_r; simpl; rewrite ?Hn, ?Hs; simpl; auto.
  - destruct H as (He & Hs & Hn). rewrite (bool_decide_false (WaitingAnnounce = Announcing)) by done. cbn [andb]. wakeup. unfold set_state. rewrite Es. simpl. rewrite He, Hs. split; [|done]. split_and!; [done..|lia|by exists 1%nat].
  - destruct H as (He & Hn & k & Hs). rewrite (bool_decide_true (Announcing = Announcing)) by done. cbn [andb]. destruct (Z.leb_spec (ANNOUNCE_NUM - 1) (n_iteration a)).
    { unfold set_state. rewrite Es. simpl. rewrite He, Hs. split; [|done]. split_and!; [done..|lia|by exists k]. }
    assert (n_iteration a = 0) as E0 by (unfold ANNOUNCE_NUM in *; lia). wakeup. unfold set_state. rewrite Es. simpl. rewrite E0. simpl. rewrite He, Hs.
    split; [|done]. split_and!; [done|done|done|]. exists (k + 1)%nat. by rewrite replicate_add, <- app_assoc.
  - rewrite Es. done.
Qed.

Lemma set_timer_log a t log : log_ok a log → log_ok (set_timer a t) log.
Proof. done. Qed.

Lemma tick_log a now g log : log_ok a log → let '(a', g', log') := tick rnd a now g log in log_ok a' log' ∧ address a' = address a.
Proof.
  unfold tick. generalize 4%nat as fuel. intros fuel. revert a g log. induction fuel as [|fuel IH]; intros a g log H; simpl; [done|].
  destruct (timer a) as [t|]; [|done]. destruct (t <=? now); [|done].
  pose proof (on_timeout_log (set_timer a None) (Z.max t now) g log (set_timer_log a None log H)) as H1.
  destruct (on_timeout _ _ _ _ _) as [[a1 g1] log1]. destruct H1 as [H1 E1]. specialize (IH a1 g1 log1 H1). destruct (tick_loop _ _ _ _ _ _) as [[a2 g2] log2].
  destruct IH as [H2 E2]. split; [done|]. by rewrite E2, E1.
Qed.

(** The next guard of [packet]: the client is left as it is, or the packet goes on. *)
Ltac unchanged := match goal with |- context [if ?c then mret (?a, ?l) else _] =>
  let E := fresh "E" in destruct c eqn:E; [exists a, l; split; [reflexivity|left; split; reflexivity]|] end.

Lemma packet_cases a arp now own log :
  ∃ a' log', packet a arp now own log = Ok (a', log') ∧
    ((a' = a ∧ log' = log) ∨ (is_bound a = true ∧ ∃ w, a' = set_defend a w ∧ log' = push_send (Announcement (address a)) log) ∨ (a', log') = on_conflict a log).
Proof.
  unfold packet. unchanged.
  assert (28 ≤ zlen arp) as Hl by (apply orb_false_iff in E as [_ E]; unfold ARP_LEN in *; lia). rewrite !unwrap_sub_ok by lia. rewrite !bind_ok.
  destruct (u8_at_ok (E := unit) arp 4) as (? & -> & _); [lia|]. destruct (u8_at_ok (E := unit) arp 5) as (? & -> & _); [lia|]. rewrite !bind_ok.
  unchanged. destruct (be16_at_ok (E := unit) arp 6) as (op & -> & _); [lia..|]. rewrite bind_ok.
  unchanged. rewrite !bind_ok. unchanged.
  destruct (state a) eqn:Es; try destruct (arp_conflict _ _ _ _ _ _ _); try destruct (defend_window a <? now).
  all: try (eexists _, _; split; [done|by left]).
  all: try (eexists _, _; split; [done|right; by right]).
  all: eexists _, _; split; [done|]; right; left; unfold is_bound; rewrite Es; eauto.
Qed.

(** ** Runs *)
Inductive Input := IStart (ip : ip4) (reset_conflicts : bool) (now : Z) | ITick (now : Z) | IPacket (arp : list byte) (now : Z) (own : list mac) | IStop.

(** A call of the client; a start begins a new log. *)
Definition act (i : Input) (s : Acd * G * Out) : res unit (Acd * G * Out) :=
  let '(a, g, log) := s in
  match i with
  | IStart ip rc now => Ok (start rnd a ip rc now g no_out)
  | ITick now => Ok (tick rnd a now g log)
  | IPacket arp now own => '(a, log) ← packet a arp now own log; Ok (a, g, log)
  | IStop => Ok (stop a, g, log)
  end.

(** The states the client reaches; it is started when it is stopped. *)
Inductive reach : Acd * G * Out → Prop :=
  | reach_new m t g : reach (new m t, g, no_out)
  | reach_act s s' i : reach s → (match i with IStart _ _ _ => is_running s.1.1 = false | _ => True end) → act i s = Ok s' → reach s'.

Lemma reach_log s : reach s → log_ok s.1.1 s.2.
Proof.
  induction 1 as [m t g|[[a g] log] s' i Hr IH Hst Ha]; [done|]. destruct i as [ip rc now|now|arp now own|]; cbn [act fst snd] in *.
  - injection Ha as <-. unfold start. destruct (set_next_wakeup_same (if rc then set_conflicts (set_address a ip) 0 else set_address a ip) now 0 0 g) as (t & g' & ->).
    set (a1 := set_state Started true _). assert (log_ok a1 no_out) as H1 by (unfold a1, set_state, log_ok; by rewrite andb_false_r).
    pose proof (tick_log a1 now g' no_out H1) as H2. destruct (tick _ _ _ _ _) as [[a2 g2] log2]. by destruct H2.
  - injection Ha as <-. pose proof (tick_log a now g log IH) as H2. destruct (tick _ _ _ _ _) as [[a2 g2] log2]. by destruct H2.
  - destruct (packet_cases a arp now own log) as (a' & log' & E & Hc). rewrite E in Ha. simpl in Ha. injection Ha as <-. simpl.
    destruct Hc as [[-> ->]|[(Hb & w & -> & ->)|Ec]]; [done| |].
    + unfold log_ok, is_bound in *. simpl. destruct (state a); try done; destruct IH as (He & Hn & k & Hs); split_and!; [done|lia|lia| |done|lia|lia|];
        exists (k + 1)%nat; by rewrite Hs, replicate_add, <- app_assoc.
    + unfold on_conflict in Ec. injection Ec as -> ->. unfold log_ok, reset, set_state. by rewrite andb_false_r.
  - injection Ha as <-. unfold log_ok, stop, reset, set_state. by rewrite andb_false_r.
Qed.

(** C36. The client takes an address only after probing: in every state it can reach
    through starts, ticks, packets and stops at any times, if the address counts as
    bound then since the start exactly three probes for it went out, followed by
    nothing but announcements of it, and the one event was the binding.  No packet
    makes the client panic. *)
Theorem acd_binds_after_three_probes a g log : reach (a, g, log) →
  (is_bound a = true → events log = [Bind] ∧ ∃ n, send log = replicate 3 (Probe (address a)) ++ replicate n (Announcement (address a))) ∧
  (∀ i, act i (a, g, log) ≠ Panic).
Proof.
  intros Hr. pose proof (reach_log _ Hr) as Hl. split.
  - unfold is_bound, log_ok in *. simpl in Hl. intros Hb. destruct (state a); try done; destruct Hl as (He & _ & Hs); done.
  - intros [| |arp now own|]; try done. simpl. destruct (packet_cases a arp now own log) as (a' & log' & -> & _). done.
Qed.

(** ** Liveness *)

(** Timers still to fire until the address is taken, and the time units they take
    after the next one. *)
Definition left (a : Acd) : option (nat * Z) :=
  match state a with
  | Started => Some (5%nat, 7)
  | WaitingProbe => Some (4%nat, 6)
  | Probing => Some (if n_iteration a =? 0 then (3%nat, 4) else (2%nat, 2))
  | WaitingAnnounce => Some (1%nat, 0)
  | _ => None
  end.

(** On the way to be bound by time [T], with [n] timers to fire. *)
Definition live (T : Z) (n : nat) (a : Acd) (log : Out) : Prop :=
  log_ok a log ∧ n_conflict a < MAX_CONFLICTS ∧ 1 ≤ time_unit_usec a ∧
  ∃ t r, timer a = Some t ∧ left a = Some (n, r) ∧ 0 ≤ t ∧ t + r * time_unit_usec a ≤ T.

(** Just bound, at time [t]. *)
Definition bound_at (t : Z) (a : Acd) (log : Out) : Prop :=
  state a = Announcing ∧ n_iteration a = 0 ∧ timer a = Some (t + ANNOUNCE_INTERVAL_USEC) ∧ events log = [Bind] ∧
  send log = replicate 3 (Probe (address a)) ++ [Announcement (address a)].

Lemma wakeup_range a now u r g : 0 ≤ now → 0 ≤ u → 0 ≤ r → now + u + r < 2 ^ 64 →
  ∃ t g', set_next_wakeup rnd a now u r g = (set_timer a (Some t), g') ∧ now + u ≤ t ≤ now + u + r ∧ (r = 0 → t = now + u).
Proof.
  intros. unfold set_next_wakeup. destruct (Z.ltb_spec 0 r).
  - destruct (rnd g) as [v g']. pose proof (Z.mod_pos_bound v r). rewrite (wrap_small 64 (u + _)) by (unfold fits; lia). rewrite wrap_small by (unfold fits; lia).
    eexists _, g'. split; [done|lia].
  - rewrite wrap_small by (unfold fits; lia). eexists _, g. split; [done|lia].
Qed.

(** The timer fired: the next one is set, with [n] left and [r] units after it. *)
Local Ltac still_live n r :=
  match goal with Hl : context [set_next_wakeup] |- _ =>
    let t' := fresh "t" in let g' := fresh "g" in let E := fresh "E" in let Ht := fresh "Ht" in
    cbn iota in *; edestruct wakeup_range as (t' & g' & E & Ht & _); [| | | |rewrite E in *]; [lia..|]; destruct Hl as [Hl _]; left; exists n, t';
    unfold set_state in *; cbn [state set_timer] in *; rewrite ?andb_false_r in *; try match goal with Es : state _ = _ |- _ => rewrite Es in * end;
    split_and!; [|done|done|lia]; split_and!; try done; exists t', r; split_and!; try done; try (unfold left; simpl; match goal with Hn : n_iteration _ = _ |- _ => by rewrite Hn end); simpl; lia
  end.

Lemma on_timeout_live T n a g log t : T + ANNOUNCE_INTERVAL_USEC < 2 ^ 64 → live T n a log → timer a = Some t →
  t ≤ T ∧ let '(a', g', log') := on_timeout rnd (set_timer a None) t g log in
  (∃ m t', live T m a' log' ∧ S m = n ∧ timer a' = Some t' ∧ t ≤ t') ∨ bound_at t a' log'.
Proof.
  intros HT (Hlog & Hc & Hu & t0 & r & Et & El & H0 & Hr) Et'. rewrite Et in Et'. injection Et' as ->. unfold left in El.
  assert (0 ≤ r) as Hr0 by (destruct (state a); try done; try (injection El as <- <-; lia); destruct (n_iteration a =? 0); injection El as <- <-; lia).
  split; [nia|]. pose proof (on_timeout_log (set_timer a None) t g log Hlog) as Hl. unfold log_ok in Hlog. unfold on_timeout in *.
  change (state (set_timer a None)) with (state a) in *. change (time_unit_usec (set_timer a None)) with (time_unit_usec a) in *.
  unfold PROBE_WAIT, PROBE_MIN, PROBE_MAX, ANNOUNCE_WAIT in *. cbv zeta in *. unfold ANNOUNCE_INTERVAL_USEC, USEC_PER_SEC in *. destruct (state a) eqn:Es; try done.
  - injection El as <- <-. change (n_conflict (set_state WaitingProbe true (set_defend (set_timer a None) 0))) with (n_conflict a) in *.
    rewrite (proj2 (Z.leb_gt MAX_CONFLICTS _)) in * by done. still_live 4%nat 6.
  - injection El as <- <-. destruct Hlog as [_ Hn]. change (n_iteration (set_timer a None)) with (n_iteration a) in *. rewrite Hn in *.
    change (0 <? PROBE_NUM - 2) with true in *. still_live 3%nat 4.
  - change (n_iteration (set_timer a None)) with (n_iteration a) in *. destruct Hlog as [_ [[Hn _]|[Hn _]]]; rewrite Hn in *; cbn in El; injection El as <- <-.
    + change (0 <? PROBE_NUM - 2) with true in *. still_live 2%nat 2.
    + change (1 <? PROBE_NUM - 2) with false in *. still_live 1%nat 0.
  - injection El as <- <-. destruct Hlog as (He & Hs & Hn). rewrite (bool_decide_false (WaitingAnnounce = Announcing)) in * by done. cbn [andb] in *.
    edestruct wakeup_range as (t' & g' & E & _ & Ht); [| | | |rewrite E in *]; [lia..|]. rewrite Ht by done. clear Hl E. unfold set_state. cbn [state n_iteration set_timer]. rewrite Es.
    cbn. right. split_and!; try done; simpl; by rewrite ?He, ?Hs.
Qed.

(** A tick at the deadline: fewer timers are left, or the address is taken. *)
Lemma tick_loop_live T fuel n a g log t : T + ANNOUNCE_INTERVAL_USEC < 2 ^ 64 → live T n a log → timer a = Some t →
  let '(a', g', log') := tick_loop rnd (S fuel) a t g log in (∃ m, (m < n)%nat ∧ live T m a' log') ∨ bound_at t a' log'.
Proof.
  intros HT. revert n a g log. induction fuel as [|fuel IH]; intros n a g log Hl Et; cbn [tick_loop]; rewrite Et, Z.leb_refl, Z.max_id;
    destruct (on_timeout_live T n a g log t HT Hl Et) as [_ H1]; destruct (on_timeout _ _ _ _ _) as [[a1 g1] log1].
  - destruct H1 as [(m & t' & H1 & <- & _)|H1]; [|by right]. left. exists m. split; [lia|done].
  - destruct H1 as [(m & t' & H1 & <- & Et1 & Hle)|H1].
    + destruct (Z.eq_dec t' t) as [->|].
      * specialize (IH m a1 g1 log1 H1 Et1). cbn [tick_loop] in IH. destruct (match timer a1 with Some _ => _ | None => _ end) as [[a2 g2] log2].
        destruct IH as [(m' & Hm & H2)|H2]; [|by right]. left. exists m'. split; [lia|done].
      * rewrite Et1, (proj2 (Z.leb_gt t' t)) by lia. left. exists m. split; [lia|done].
    + pose proof H1 as (_ & _ & Et1 & _). rewrite Et1, (proj2 (Z.leb_gt _ t)) by (unfold ANNOUNCE_INTERVAL_USEC, USEC_PER_SEC; lia). by right.
Qed.

(** Waiting for the next timer, [n] times. *)
Fixpoint elapse (n : nat) (s : Acd * G * Out) (now : Z) : Acd * G * Out * Z :=
  match n with
  | O => (s, now)
  | S n => let '(a, g, log) := s in
           match timer a with Some t => elapse n (tick rnd a t g log) t | None => (s, now) end
  end.

Lemma live_reaches T k n a g log now : T + ANNOUNCE_INTERVAL_USEC < 2 ^ 64 → (n ≤ k)%nat → live T n a log →
  ∃ m, (m ≤ k)%nat ∧ let '(a', g', log', t) := elapse m (a, g, log) now in bound_at t a' log' ∧ 0 ≤ t ≤ T.
Proof.
  intros HT. revert n a g log now. induction k as [|k IH]; intros n a g log now Hn Hl; pose proof Hl as (_ & _ & _ & t & r & Et & El & Ht0 & _).
  { exfalso. unfold left in El. repeat case_match; simplify_eq; lia. }
  destruct (on_timeout_live T n a g log t HT Hl Et) as [HtT _]. pose proof (tick_loop_live T 3 n a g log t HT Hl Et) as H1. change (tick_loop rnd 4) with (tick rnd) in H1.
  destruct (tick rnd a t g log) as [[a1 g1] log1] eqn:E1. destruct H1 as [(m & Hm & H1)|H1].
  - destruct (IH m a1 g1 log1 t ltac:(lia) H1) as (j & Hj & H2). exists (S j). split; [lia|]. cbn [elapse]. by rewrite Et, E1.
  - exists 1%nat. split; [lia|]. cbn [elapse]. by rewrite Et, E1.
Qed.

Lemma reach_elapse m s now : reach s → reach (elapse m s now).1.
Proof.
  revert s now. induction m as [|m IH]; intros [[a g] log] now Hr; simpl; [done|]. destruct (timer a) as [t|]; [|done].
  apply IH. by apply (reach_act (a, g, log) _ (ITick t)).
Qed.

Lemma elapse_log m a g log now : log_ok a log → let '(a', g', log', t) := elapse m (a, g, log) now in log_ok a' log' ∧ address a' = address a.
Proof.
  revert a g log now. induction m as [|m IH]; intros a g log now H; simpl; [done|]. destruct (timer a) as [t|]; [|done].
  pose proof (tick_log a t g log H) as H1. destruct (tick rnd a t g log) as [[a1 g1] log1]. destruct H1 as [H1 E1].
  specialize (IH a1 g1 log1 t H1). destruct (elapse _ _ _) as [[[a2 g2] log2] t2]. destruct IH as [H2 E2]. split; [done|congruence].
Qed.

Lemma announce_again a now g log : state a = Announcing → n_iteration a = 0 → 0 ≤ now → now + ANNOUNCE_INTERVAL_USEC < 2 ^ 64 →
  ∃ a', on_timeout rnd a now g log = (a', g, push_send (Announcement (address a)) log) ∧ state a' = Announcing ∧ n_iteration a' = 1 ∧
    timer a' = Some (now + ANNOUNCE_INTERVAL_USEC) ∧ address a' = address a.
Proof.
  intros Hs Hn H0 HT. unfold on_timeout. rewrite Hs, Hn, bool_decide_true by done. change (true && (ANNOUNCE_NUM - 1 <=? 0)) with false. cbn iota zeta.
  unfold set_next_wakeup. cbn [Z.ltb Z.compare]. unfold set_state. rewrite Hs, Hn, bool_decide_true by done. cbn [negb andb n_iteration set_timer].
  change (u32 (0 + 1) =? 0) with false. cbn iota. eexists. split; [done|]. split_and!; try done. simpl. rewrite wrap_small; [done|]. unfold fits, ANNOUNCE_INTERVAL_USEC, USEC_PER_SEC in *. lia.
Qed.

Lemma announce_last a now g log : state a = Announcing → n_iteration a = 1 → on_timeout rnd a now g log = (set_state Running false a, g, log).
Proof. intros Hs Hn. unfold on_timeout. by rewrite Hs, Hn. Qed.

(** From there on it is announced once more and then held. *)
Lemma bound_runs t a g log : 0 ≤ t → t + 2 * ANNOUNCE_INTERVAL_USEC < 2 ^ 64 → bound_at t a log →
  let '(a', g', log', t') := elapse 2 (a, g, log) t in
  state a' = Running ∧ timer a' = None ∧ events log' = [Bind] ∧ send log' = replicate 3 (Probe (address a)) ++ replicate 2 (Announcement (address a)) ∧
  t' = t + 2 * ANNOUNCE_INTERVAL_USEC.
Proof.
  intros H0 HT (Hs & Hn & Ht & He & Hsend). set (w := ANNOUNCE_INTERVAL_USEC) in *. assert (w = 2000000) as Ew by done.
  destruct (announce_again (set_timer a None) (t + w) g log Hs Hn) as (a1 & E1 & Hs1 & Hn1 & Ht1 & Ea1); [lia|fold w; lia|]. fold w in Ht1.
  assert (tick rnd a (t + w) g log = (a1, g, push_send (Announcement (address a)) log)) as T1.
  { unfold tick. cbn [tick_loop]. rewrite Ht, Z.leb_refl, Z.max_id, E1, Ht1. by rewrite (proj2 (Z.leb_gt _ _)) by lia. }
  assert (∀ log, tick rnd a1 (t + w + w) g log = (set_state Running false (set_timer a1 None), g, log)) as T2.
  { intros log'. unfold tick. cbn [tick_loop]. rewrite Ht1, Z.leb_refl, Z.max_id. by rewrite (announce_last (set_timer a1 None)). }
  cbn [elapse]. rewrite Ht, T1, Ht1, T2. unfold set_state. cbn [state set_timer timer]. rewrite Hs1. cbn. rewrite He, Hsend. split_and!; [done..|lia].
Qed.

(** An address nobody answers for is taken: from the start, waking at each
    deadline, at most four wakeups and seven time units later it is bound, and two
    announcement intervals later held for good, after three probes and two
    announcements.  Seven units are the timeout asked for, rounded up by less than
    seven microseconds. *)
Theorem acd_takes_a_free_address m timeout ip rc now g : 0 ≤ timeout → 0 ≤ now < 2 ^ 63 →
  let u := time_unit_usec (new m timeout) in
  7 * u < clamp (if timeout =? 0 then DEFAULT_TIMEOUT_USEC else timeout) 1000 (60 * USEC_PER_SEC) + 7 ∧
  ∃ n, (n ≤ 4)%nat ∧
  let '(a, g1, log, t) := elapse n (start rnd (new m timeout) ip rc now g no_out) now in
  is_bound a = true ∧ events log = [Bind] ∧ t ≤ now + 7 * u ∧
  let '(a', g2, log', t') := elapse 2 (a, g1, log) t in
  state a' = Running ∧ timer a' = None ∧ events log' = [Bind] ∧ send log' = replicate 3 (Probe ip) ++ replicate 2 (Announcement ip) ∧
  t' = t + 2 * ANNOUNCE_INTERVAL_USEC.
Proof.
  intros Hto Hnow u. set (c := clamp _ _ _). assert (1000 ≤ c ≤ 60000000) as Hc by (unfold c, clamp, USEC_PER_SEC, DEFAULT_TIMEOUT_USEC; lia).
  assert (u = (c + 7 - 1) / 7) as Eu by done. pose proof (Z.div_mod (c + 7 - 1) 7). pose proof (Z.mod_pos_bound (c + 7 - 1) 7).
  split; [lia|]. unfold start.
  destruct (wakeup_range (if rc then set_conflicts (set_address (new m timeout) ip) 0 else set_address (new m timeout) ip) now 0 0 g) as (t0 & g0 & E & _ & Ht0); [lia..|].
  rewrite E, Ht0, Z.add_0_r by done. set (a0 := set_state Started true _). unfold ANNOUNCE_INTERVAL_USEC, USEC_PER_SEC in *.
  assert (live (now + 7 * u) 5 a0 no_out ∧ timer a0 = Some now ∧ address a0 = ip) as (Hl & Et & Ea).
  { assert (state a0 = Started ∧ n_iteration a0 = 0 ∧ n_conflict a0 = 0 ∧ time_unit_usec a0 = u ∧ timer a0 = Some now ∧ address a0 = ip) as (Hs & Hn & Hcf & Hu & Et & Ea).
    { unfold a0, set_state. rewrite andb_false_r. by destruct rc. }
    clearbody a0. split_and!; [|done..]. unfold live, log_ok, left. rewrite Hs, Hn, Hcf, Hu. split_and!; [done..|unfold MAX_CONFLICTS; lia|lia|]. exists now, 7. split_and!; [done..|lia|lia]. }
  pose proof (tick_loop_live (now + 7 * u) 3 5 a0 g0 no_out now ltac:(unfold ANNOUNCE_INTERVAL_USEC, USEC_PER_SEC; lia) Hl Et) as H1. change (tick_loop rnd 4) with (tick rnd) in H1.
  pose proof (tick_log a0 now g0 no_out (proj1 Hl)) as H2. destruct (tick rnd a0 now g0 no_out) as [[a1 g1] log1]. destruct H2 as [H2 E2].
  assert (∃ n, (n ≤ 4)%nat ∧ let '(a', g', log', t) := elapse n (a1, g1, log1) now in bound_at t a' log' ∧ 0 ≤ t ≤ now + 7 * u) as (n & Hn & H3).
  { destruct H1 as [(k & Hk & H1)|H1]; [|exists 0%nat; split; [lia|]; simpl; split; [done|lia]].
    apply (live_reaches (now + 7 * u) 4 k a1 g1 log1 now); [unfold ANNOUNCE_INTERVAL_USEC, USEC_PER_SEC; lia|lia|done]. }
  exists n. split; [done|]. pose proof (elapse_log n a1 g1 log1 now H2) as H4. destruct (elapse n _ now) as [[[a2 g2] log2] t2]. destruct H3 as [Hb Ht]. destruct H4 as [_ Ea2].
  pose proof (bound_runs t2 a2 g2 log2 ltac:(lia) ltac:(unfold ANNOUNCE_INTERVAL_USEC, USEC_PER_SEC; lia) Hb) as Hr. rewrite Ea2, E2, Ea in Hr.
  unfold is_bound. pose proof Hb as (-> & _ & _ & He & _). split_and!; [done|done|lia|]. exact Hr.
Qed.
End random.

(** ** An example: the default timeout, a constant random source *)
Definition ex_rnd (g : unit) : Z * unit := (5, tt).
Definition ex_ip : ip4 := [x0a; x00; x00; x02].
Definition ex_boot : Acd * unit * Out := (new (replicate 6 x02) 0, tt, no_out).
Definition ex_started : Acd * unit * Out := start ex_rnd ex_boot.1.1 ex_ip true 1000 tt no_out.
(** Woken four times. *)
Definition ex_bound : Acd * unit * Out := Eval vm_compute in (elapse ex_rnd 4 ex_started 1000).1.

Lemma ex_reach : reach ex_rnd ex_bound.
Proof.
  assert (ex_bound = (elapse ex_rnd 4 ex_started 1000).1) as -> by (vm_compute; reflexivity).
  apply reach_elapse. apply (reach_act ex_rnd ex_boot _ (IStart ex_ip true 1000)); [constructor|reflexivity|vm_compute; reflexivity].
Qed.

Lemma acd_binds_after_three_probes_witness : events ex_bound.2 = [Bind] ∧ ∃ n, send ex_bound.2 = replicate 3 (Probe ex_ip) ++ replicate n (Announcement ex_ip).
Proof.
  destruct (acd_binds_after_three_probes ex_rnd ex_bound.1.1 tt ex_bound.2) as [H _]; [exact ex_reach|]. apply H. reflexivity.
Defined.

Lemma acd_takes_a_free_address_witness : ∃ n, (n ≤ 4)%nat ∧
  let '(a, g1, log, t) := elapse ex_rnd n (start ex_rnd (new (replicate 6 x02) 0) ex_ip true 1000 tt no_out) 1000 in
  is_bound a = true ∧ events log = [Bind] ∧ t ≤ 1000 + 7 * time_unit_usec (new (replicate 6 x02) 0) ∧
  let '(a', g2, log', t') := elapse ex_rnd 2 (a, g1, log) t in
  state a' = Running ∧ timer a' = None ∧ events log' = [Bind] ∧ send log' = replicate 3 (Probe ex_ip) ++ replicate 2 (Announcement ex_ip) ∧ t' = t + 2 * ANNOUNCE_INTERVAL_USEC.
Proof. apply (acd_takes_a_free_address ex_rnd (replicate 6 x02) 0 ex_ip true 1000 tt); [vm_compute; congruence|split; [vm_compute; congruence|reflexivity]]. Defined.
