(* ===== verification/Neigh.v ===== *)
(** * Neighbours ([net/src/neigh.rs])

    The ARP table: the NUD state machine of each next hop, the packets that wait for
    it, its timers and the garbage collection.  A call runs on the table and on what
    it leaves to do ([Out]); packets are of any type [P] with a [truesize].  Time is
    in ticks of 10 ms. *)

From S2P Require Import Prelude Bytes NetBytes.

Module neigh.

Definition HZ := 100.
Definition MCAST_PROBES := 3.
Definition UCAST_PROBES := 3.
Definition RETRANS_TIME := HZ.
Definition BASE_REACHABLE_TIME := 30 * HZ.
Definition DELAY_PROBE_TIME := 5 * HZ.
Definition GC_STALETIME := 60 * HZ.
Definition QUEUE_LEN_BYTES := 212992.
Definition LOCKTIME := HZ.
Definition GC_INTERVAL := 30 * HZ.
Definition GC_THRESH1 := 128.
Definition GC_THRESH2 := 512.
Definition GC_THRESH3 := 1024.
Definition ARPOP_REQUEST := 1.
Definition ARPOP_REPLY := 2.
Definition ARPHRD_ETHER := 1.
Definition ARPHRD_IEEE802 := 6.
Definition ETH_P_IP := 0x0800.

Inductive Nud := NudNone | Incomplete | Reachable | Stale | Delay | Probe | Failed.
#[global] Instance Nud_eq_dec : EqDecision Nud.
Proof. solve_decision. Defined.

Definition valid (s : Nud) : bool := match s with Reachable | Stale | Delay | Probe => true | _ => false end.
Definition connected (s : Nud) : bool := bool_decide (s = Reachable).
Definition in_timer (s : Nud) : bool := match s with Incomplete | Reachable | Delay | Probe => true | _ => false end.

Definition rand_reach_time (rnd base : Z) : Z := if base =? 0 then 0 else rnd `mod` base + Z.shiftr base 1.
Definition max_probes (s : Nud) : Z := UCAST_PROBES + (if bool_decide (s = Probe) then 0 else MCAST_PROBES).
Definition octet0 (a : ip4) : Z := match a with b :: _ => bval b | [] => 0 end.
Definition is_multicast (ip : ip4) : bool := Z.land (octet0 ip) 0xf0 =? 0xe0.
Definition is_loopback (ip : ip4) : bool := octet0 ip =? 127.

(** [Reply::Answer]. *)
Inductive Reply := Answer (dst_ha : mac) (dst_ip : ip4).

Section table.
Context {P : Type} (truesize : P → Z).

Record Out := { send : list (mac * P); solicit : list (ip4 * option mac); errors : list P }.

Record Neighbour := {
  nud : Nud;
  ha : mac;
  confirmed : Z;
  updated : Z;
  used : Z;
  probes : Z;
  timer : option Z;
  queue : list P;
  queue_bytes : Z }.

Record Table := {
  neighs : gmap (list byte) Neighbour;
  reachable_time : Z;
  last_rand : Z;
  last_flush : Z;
  next_gc : Z;
  drops : Z }.

Definition new : Table :=
  {| neighs := ∅; reachable_time := BASE_REACHABLE_TIME; last_rand := 0; last_flush := 0; next_gc := GC_INTERVAL; drops := 0 |}.
Definition no_out : Out := {| send := []; solicit := []; errors := [] |}.

(** ** Changing the table and the output *)
Definition St : Type := Table * Out.
Definition T := M St unit.

Definition set_neighs (t : Table) (ns : gmap (list byte) Neighbour) : Table :=
  {| neighs := ns; reachable_time := reachable_time t; last_rand := last_rand t; last_flush := last_flush t; next_gc := next_gc t; drops := drops t |}.
Definition set_flush (t : Table) (now : Z) : Table :=
  {| neighs := neighs t; reachable_time := reachable_time t; last_rand := last_rand t; last_flush := now; next_gc := next_gc t; drops := drops t |}.
Definition set_gc (t : Table) (at_ : Z) : Table :=
  {| neighs := neighs t; reachable_time := reachable_time t; last_rand := last_rand t; last_flush := last_flush t; next_gc := at_; drops := drops t |}.
Definition set_rand (t : Table) (at_ r : Z) : Table :=
  {| neighs := neighs t; reachable_time := r; last_rand := at_; last_flush := last_flush t; next_gc := next_gc t; drops := drops t |}.
Definition add_drops (t : Table) (n : Z) : Table :=
  {| neighs := neighs t; reachable_time := reachable_time t; last_rand := last_rand t; last_flush := last_flush t; next_gc := next_gc t; drops := u64 (drops t + n) |}.

Definition table : T Table := λ s, (Ok s.1, s).
Definition on_table (f : Table → Table) : T unit := λ s, (Ok tt, (f s.1, s.2)).
Definition put_neigh (ip : ip4) (n : Neighbour) : T unit := on_table (λ t, set_neighs t (<[ip := n]> (neighs t))).
Definition push_send (ps : list (mac * P)) : T unit := λ s, (Ok tt, (s.1, {| send := send s.2 ++ ps; solicit := solicit s.2; errors := errors s.2 |})).
Definition push_solicit (q : ip4 * option mac) : T unit := λ s, (Ok tt, (s.1, {| send := send s.2; solicit := solicit s.2 ++ [q]; errors := errors s.2 |})).
Definition push_errors (ps : list P) : T unit := λ s, (Ok tt, (s.1, {| send := send s.2; solicit := solicit s.2; errors := errors s.2 ++ ps |})).
(** [self.neighs.get_mut(&ip)]. *)
Definition neigh (ip : ip4) : T (option Neighbour) := t ← table; mret (neighs t !! ip).

Definition set_state (n : Neighbour) (s : Nud) (now : Z) : Neighbour :=
  {| nud := s; ha := ha n; confirmed := confirmed n; updated := now; used := used n; probes := probes n; timer := timer n; queue := queue n; queue_bytes := queue_bytes n |}.
Definition set_timer (n : Neighbour) (t : option Z) : Neighbour :=
  {| nud := nud n; ha := ha n; confirmed := confirmed n; updated := updated n; used := used n; probes := probes n; timer := t; queue := queue n; queue_bytes := queue_bytes n |}.
Definition set_probes (n : Neighbour) (p : Z) : Neighbour :=
  {| nud := nud n; ha := ha n; confirmed := confirmed n; updated := updated n; used := used n; probes := p; timer := timer n; queue := queue n; queue_bytes := queue_bytes n |}.
Definition set_queue (n : Neighbour) (q : list P) (b : Z) : Neighbour :=
  {| nud := nud n; ha := ha n; confirmed := confirmed n; updated := updated n; used := used n; probes := probes n; timer := timer n; queue := q; queue_bytes := b |}.
Definition set_used (n : Neighbour) (u : Z) : Neighbour :=
  {| nud := nud n; ha := ha n; confirmed := confirmed n; updated := updated n; used := u; probes := probes n; timer := timer n; queue := queue n; queue_bytes := queue_bytes n |}.
Definition set_confirmed (n : Neighbour) (c : Z) : Neighbour :=
  {| nud := nud n; ha := ha n; confirmed := c; updated := updated n; used := used n; probes := probes n; timer := timer n; queue := queue n; queue_bytes := queue_bytes n |}.
Definition set_updated (n : Neighbour) (u : Z) : Neighbour :=
  {| nud := nud n; ha := ha n; confirmed := confirmed n; updated := u; used := used n; probes := probes n; timer := timer n; queue := queue n; queue_bytes := queue_bytes n |}.
Definition set_ha (n : Neighbour) (a : mac) : Neighbour :=
  {| nud := nud n; ha := a; confirmed := confirmed n; updated := updated n; used := used n; probes := probes n; timer := timer n; queue := queue n; queue_bytes := queue_bytes n |}.

(** ** Entries *)
Definition lookup (t : Table) (ip : ip4) : option mac :=
  match neighs t !! ip with Some n => if valid (nud n) then Some (ha n) else None | None => None end.

(** What [forced_gc] takes: FAILED or not updated for 5 s, with no timer and no queue. *)
Definition victim (now : Z) (n : Neighbour) : bool :=
  (bool_decide (nud n = Failed) || negb ((sat_sub now (5 * HZ) <=? updated n) && (updated n <=? now)))
  && bool_decide (timer n = None) && bool_decide (length (queue n) = 0%nat).

Definition forced_gc (now : Z) : T Z :=
  t ← table;
  let max_clean := sat_sub (Z.of_nat (size (neighs t))) GC_THRESH2 in
  let victims := take (Z.to_nat max_clean) (fst <$> filter (λ p, victim now p.2 = true) (btree_iter (neighs t))) in
  _ ← on_table (λ t, set_flush (set_neighs t (foldl (λ m ip, delete ip m) (neighs t) victims)) now);
  mret (zlen victims).

Definition fresh (now : Z) : Neighbour :=
  {| nud := NudNone; ha := replicate 6 x00; confirmed := now; updated := now; used := now; probes := 0; timer := None; queue := []; queue_bytes := 0 |}.

Definition create (now : Z) (ip : ip4) : T bool :=
  t ← table;
  if bool_decide (is_Some (neighs t !! ip)) then mret true else
  let entries := Z.of_nat (size (neighs t)) in
  refused ← (if (GC_THRESH3 <=? entries) || ((GC_THRESH2 <=? entries) && (u64 (last_flush t + 5 * HZ) <? now))
             then n ← forced_gc now; mret ((n =? 0) && (GC_THRESH3 <=? entries)) else mret false);
  if refused : bool then mret false
  else _ ← put_neigh ip (fresh now); mret true.

(** ** Sending *)

(** [while n.queue_bytes + p.truesize() > QUEUE_LEN_BYTES]: the oldest packets go. *)
Fixpoint make_room (q : list P) (bytes size dropped : Z) : list P * Z * Z :=
  if QUEUE_LEN_BYTES <? u64 (bytes + size) then
    match q with
    | [] => (q, bytes, dropped)
    | old :: q => make_room q (u64 (bytes - truesize old)) size (dropped + 1)
    end
  else (q, bytes, dropped).

Definition probe (ip : ip4) : T unit :=
  o ← neigh ip;
  match o with
  | None => mret tt
  | Some n =>
      let dst := if probes n <? UCAST_PROBES then Some (ha n) else None in
      _ ← put_neigh ip (set_probes n (u32 (probes n + 1)));
      push_solicit (ip, dst)
  end.

(** The first part of [__neigh_event_send]: the state, and whether to probe at once. *)
Definition begin_send (n : Neighbour) (now : Z) : Neighbour * bool :=
  match nud n with
  | Stale => (set_timer (set_state n Delay now) (Some (u64 (now + DELAY_PROBE_TIME))), false)
  | Incomplete => (n, false)
  | _ => (set_timer (set_state (set_probes n UCAST_PROBES) Incomplete now) (Some (u64 (now + Z.max RETRANS_TIME (HZ / 100)))), true)
  end.

Definition event_send (now : Z) (ip : ip4) (p : option P) : T (option P) :=
  o ← neigh ip;
  match o with
  | None => mret None
  | Some n =>
      match nud n with
      | Reachable | Delay | Probe => mret p
      | _ =>
          let '(n, immediate_probe) := begin_send n now in
          now_p ← (match nud n, p with
                   | Incomplete, Some p =>
                       let '(q, b, d) := make_room (queue n) (queue_bytes n) (truesize p) 0 in
                       _ ← put_neigh ip (set_queue n (q ++ [p]) (u64 (b + truesize p)));
                       _ ← on_table (λ t, add_drops t d);
                       mret None
                   | Incomplete, None => _ ← put_neigh ip n; mret None
                   | _, _ => _ ← put_neigh ip n; mret p
                   end);
          _ ← (if immediate_probe : bool then probe ip else mret tt);
          mret now_p
      end
  end.

Definition output (now : Z) (ip : ip4) (p : P) : T unit :=
  ok ← create now ip;
  if negb ok then on_table (λ t, add_drops t 1) else
  o ← neigh ip; n ← of_opt o;
  if connected (nud n) then push_send [(ha n, p)] else
  _ ← put_neigh ip (set_used n now);
  r ← event_send now ip (Some p);
  match r with
  | Some p => o ← neigh ip; n ← of_opt o; push_send [(ha n, p)]
  | None => mret tt
  end.

Definition resolve (now : Z) (ip : ip4) : T bool :=
  ok ← create now ip;
  if negb ok then mret false else
  o ← neigh ip; n ← of_opt o;
  _ ← event_send now ip None;
  o' ← neigh ip;
  mret (match o' with Some n' => negb (probes n' =? probes n) | None => false end).

(** ** Timers *)
Definition invalidate (now : Z) (ip : ip4) : T unit :=
  o ← neigh ip;
  match o with
  | None => mret tt
  | Some n => _ ← put_neigh ip (set_queue (set_updated n now) [] 0); push_errors (queue n)
  end.

(** [match state] of [timer]: the entry and when it wants to be looked at again. *)
Definition timer_state (n : Neighbour) (now reachable_time : Z) : Neighbour * Z :=
  match nud n with
  | Reachable =>
      if now <=? u64 (confirmed n + reachable_time) then (n, u64 (confirmed n + reachable_time))
      else if now <=? u64 (used n + DELAY_PROBE_TIME) then (set_state n Delay now, u64 (now + DELAY_PROBE_TIME))
      else (set_state n Stale now, u64 (now + HZ))
  | Delay =>
      if now <=? u64 (confirmed n + DELAY_PROBE_TIME) then (set_state n Reachable now, u64 (confirmed n + reachable_time))
      else (set_probes (set_state n Probe now) 0, u64 (now + Z.max RETRANS_TIME (HZ / 100)))
  | _ => (n, u64 (now + Z.max RETRANS_TIME (HZ / 100)))
  end.

Definition probing (s : Nud) : bool := match s with Incomplete | Probe => true | _ => false end.

(** [n.state = Nud::Failed], which leaves [updated] to [invalidate]. *)
Definition set_failed (n : Neighbour) : Neighbour := set_state n Failed (updated n).

Definition timer_fired (now : Z) (ip : ip4) : T unit :=
  t ← table;
  match neighs t !! ip with
  | None => mret tt
  | Some n =>
      let n := set_timer n None in
      if negb (in_timer (nud n)) then put_neigh ip n else
      let '(n, next) := timer_state n now (reachable_time t) in
      if probing (nud n) && (max_probes (nud n) <=? probes n) then
        _ ← put_neigh ip (set_failed n); invalidate now ip
      else
        _ ← put_neigh ip (if in_timer (nud n) then set_timer n (Some (Z.max next (u64 (now + HZ / 100)))) else n);
        if probing (nud n) then probe ip else mret tt
  end.

Definition periodic (now rnd : Z) : T unit :=
  t ← table;
  _ ← (if (u64 (last_rand t + 300 * HZ) <? now) || (last_rand t =? 0)
       then on_table (λ t, set_rand t (Z.max now 1) (rand_reach_time rnd BASE_REACHABLE_TIME)) else mret tt);
  if Z.of_nat (size (neighs t)) <? GC_THRESH1 then mret tt else
  on_table (λ t, set_neighs t (omap (λ n,
    if in_timer (nud n) then Some n else
    let n := if (used n <? confirmed n) && (confirmed n <=? now) then set_used n (confirmed n) else n in
    if bool_decide (nud n = Failed) || (u64 (used n + GC_STALETIME) <=? now) then None else Some n) (neighs t))).

Definition due (now : Z) (n : Neighbour) : bool := match timer n with Some t => t <=? now | None => false end.

Definition tick (now rnd : Z) : T unit :=
  t ← table;
  _ ← mapM (λ p, timer_fired now p.1) (filter (λ p, due now p.2 = true) (btree_iter (neighs t)));
  t ← table;
  if next_gc t <=? now then
    _ ← periodic now rnd; on_table (λ t, set_gc t (u64 (now + Z.shiftr BASE_REACHABLE_TIME 1)))
  else mret tt.

(** ** ARP *)

(** [__neigh_update] with [new] REACHABLE or STALE: the entry, and what waited. *)
Definition update_neigh (n : Neighbour) (now : Z) (ha' : mac) (new : Nud) (overr : bool) (reachable_time : Z) : Neighbour * list P :=
  let old := nud n in
  let same_ha := valid old && bool_decide (ha n = ha') in
  let n := if connected new then set_confirmed n now else n in
  if valid old && negb same_ha && negb overr then (n, []) else
  let new := if valid old && same_ha && bool_decide (new = Stale) then old else new in
  let n := if negb (bool_decide (new = old)) || negb same_ha then set_updated n now else n in
  let n := if bool_decide (new = old) then n else
           let n := set_timer n None in
           let n := if bool_decide (new = Probe) then set_probes n 0 else n in
           let n := if in_timer new then set_timer n (Some (u64 (now + (if bool_decide (new = Reachable) then reachable_time else 0)))) else n in
           {| nud := new; ha := ha n; confirmed := confirmed n; updated := updated n; used := used n; probes := probes n; timer := timer n; queue := queue n; queue_bytes := queue_bytes n |} in
  let n := if same_ha then n else
           let n := set_ha n ha' in
           if connected new then n else set_confirmed n (sat_sub now (Z.shiftl BASE_REACHABLE_TIME 1)) in
  if bool_decide (new = old) then (n, []) else
  if valid old then (n, []) else (set_queue n [] 0, queue n).

Definition update (now : Z) (ip : ip4) (ha' : mac) (new : Nud) (overr : bool) : T unit :=
  t ← table;
  match neighs t !! ip with
  | None => mret tt
  | Some n =>
      let '(n, q) := update_neigh n now ha' new overr (reachable_time t) in
      _ ← put_neigh ip n;
      push_send ((λ p, (ha n, p)) <$> q)
  end.

Record Arp := { a_op : Z; a_sha : mac; a_sip : ip4; a_tha : mac; a_tip : ip4 }.

(** The checks of [arp_rcv] and the start of [arp_process]. *)
Definition arp_parse (arp : list byte) : res unit (option Arp) :=
  if zlen arp <? 8 then mret None else
  hrd ← be16_at arp 0; pro ← be16_at arp 2;
  hln ← u8_at arp 4; pln ← u8_at arp 5; op ← be16_at arp 6;
  if negb (hln =? 6) || negb (pln =? 4) || (zlen arp <? 28) then mret None else
  if (negb (hrd =? ARPHRD_ETHER) && negb (hrd =? ARPHRD_IEEE802)) || negb (pro =? ETH_P_IP) then mret None else
  if negb (op =? ARPOP_REPLY) && negb (op =? ARPOP_REQUEST) then mret None else
  sha ← unwrap (sub arp 8 6); sip ← unwrap (sub arp 14 4);
  tha ← unwrap (sub arp 18 6); tip ← unwrap (sub arp 24 4);
  mret (Some {| a_op := op; a_sha := sha; a_sip := sip; a_tha := tha; a_tip := tip |}).

Definition is_local (our_ip ip : ip4) : bool := negb (bool_decide (our_ip = zero4)) && bool_decide (ip = our_ip).
Definition all_ones : ip4 := replicate 4 xff.

Definition arp_input (now : Z) (arp : list byte) (to_us : bool) (our_ip : ip4) : T (option Reply) :=
  o ← of_res (arp_parse arp);
  match o with
  | None => mret None
  | Some a =>
      let '(sha, sip, tip, op) := (a_sha a, a_sip a, a_tip a, a_op a) in
      if is_multicast tip || is_loopback tip then mret None else
      if bool_decide (sip = zero4) then
        mret (if (op =? ARPOP_REQUEST) && is_local our_ip tip then Some (Answer sha sip) else None)
      else
      let martian := is_multicast sip || is_loopback sip || bool_decide (sip = all_ones) || is_local our_ip sip in
      if (op =? ARPOP_REQUEST) && is_local our_ip tip && negb martian then
        ok ← create now sip;
        _ ← (if ok : bool then update now sip sha Stale true else mret tt);
        mret (Some (Answer sha sip))
      else
        o ← neigh sip;
        match o with
        | None => mret None
        | Some n =>
            let is_garp := bool_decide (sip = tip) && (negb (op =? ARPOP_REPLY) || bool_decide (a_tha a = sha))
                           && negb (is_local our_ip sip) && negb (bool_decide (sip = all_ones)) && negb (is_multicast sip) in
            let overr := (u64 (updated n + LOCKTIME) <? now) || is_garp in
            let state := if (op =? ARPOP_REPLY) && to_us then Reachable else Stale in
            _ ← update now sip sha state overr;
            mret None
        end
  end.

Definition flush : T unit := on_table (λ t, set_neighs t ∅).

End table.
End neigh.
