(* ===== verification/NeighSpec.v ===== *)
(** * What the neighbour table guarantees

    Every packet handed to the table is sent to an address its next hop announced,
    reported as undeliverable, counted as dropped, or still waiting, and nothing else
    is sent; entries run a timer exactly in the states that need one; and a next hop
    that never answers gives its packets back after three requests. *)

From S2P Require Import Prelude Bytes NetBytes Neigh.
From AAC_tactics Require Import AAC.
From AAC_tactics Require Instances.
Import Instances.Lists.
Import neigh.

(** Lists up to the order of their elements, for rewriting modulo it. *)
#[local] Instance perm_lift {A} : AAC_lift (@Permutation A) (@Permutation A) | 0.
Proof. split; [apply Permutation_Equivalence|]. intros a b H c d H'. by rewrite H, H'. Defined.

(** Comparisons of known states, evaluated. *)
Local Ltac decide_nud := repeat match goal with |- context [bool_decide (@eq Nud ?a ?b)] =>
  let v := eval vm_compute in (bool_decide (@eq Nud a b)) in change (bool_decide (@eq Nud a b)) with v; cbn [andb orb negb in_timer] end.

Section table.
Context {P : Type} (truesize : P → Z) (truesize_range : ∀ p, 0 ≤ truesize p < 2 ^ 32).
Notation Table := (@Table P).
Notation Neighbour := (@Neighbour P).
Notation St := (@St P).

(** ** What waits in a table *)
Definition waits (x : list byte * Neighbour) : list (list byte * P) := (λ p, (x.1, p)) <$> queue x.2.
Definition waiting (m : gmap (list byte) Neighbour) : list (list byte * P) := map_to_list m ≫= waits.

Lemma waiting_insert m ip n : m !! ip = None → waiting (<[ip := n]> m) ≡ₚ waits (ip, n) ++ waiting m.
Proof. intros H. unfold waiting. by rewrite map_to_list_insert. Qed.

Lemma waiting_delete m ip n : m !! ip = Some n → waiting m ≡ₚ waits (ip, n) ++ waiting (delete ip m).
Proof. intros H. rewrite <- (insert_delete_id m ip n H) at 1. apply waiting_insert, lookup_delete_eq. Qed.

Lemma waiting_update m ip n n' : m !! ip = Some n → waits (ip, n') ++ waiting m ≡ₚ waits (ip, n) ++ waiting (<[ip := n']> m).
Proof.
  intros H. rewrite <- (insert_delete_eq m), waiting_insert by apply lookup_delete_eq. rewrite (waiting_delete m ip n H). by rewrite !app_assoc, (Permutation_app_comm (waits (ip, n'))).
Qed.

(** ** The account of a run *)
Section account.
(** The sender addresses of the ARP packets so far. *)
Context (seen : list (ip4 * mac)).

Record neigh_ok (ip : ip4) (n : Neighbour) : Prop := {
  n_queue : queue n ≠ [] → nud n = Incomplete;
  n_timer : is_Some (timer n) ↔ in_timer (nud n) = true;
  n_addr : valid (nud n) = true → (ip, ha n) ∈ seen;
  n_bytes : queue_bytes n = list_sum truesize (queue n);
  n_bound : queue_bytes n ≤ QUEUE_LEN_BYTES ∨ length (queue n) = 1%nat }.

(** The packets [given] with their next hops are: waiting, sent to an address the next
    hop announced, reported, dropped, or in the caller's hands ([fl]). *)
Definition account (given fl : list (ip4 * P)) (s : St) : Prop :=
  map_Forall neigh_ok (neighs s.1) ∧
  ∃ tr errs lost, send s.2 = (λ x : ip4 * mac * P, (x.1.2, x.2)) <$> tr ∧ errors s.2 = snd <$> errs ∧ drops s.1 = u64 (zlen lost) ∧
    Forall (λ x : ip4 * mac * P, x.1 ∈ seen) tr ∧
    waiting (neighs s.1) ++ ((λ x : ip4 * mac * P, (x.1.1, x.2)) <$> tr) ++ errs ++ lost ++ fl ≡ₚ given.

Lemma account_put given fl s ip n n' : account given fl s → neighs s.1 !! ip = Some n → neigh_ok ip n' → queue n' = queue n →
  wp (put_neigh ip n') (λ r s', r = Ok tt ∧ account given fl s' ∧ neighs s'.1 = <[ip := n']> (neighs s.1) ∧ reachable_time s'.1 = reachable_time s.1) s.
Proof.
  intros (Hok & tr & errs & lost & Es & Ee & Ed & Ht & Hp) Hk Hn Eq. unfold wp, put_neigh, on_table. split_and!; [done| |done|done]. split; [by apply map_Forall_insert_2|].
  exists tr, errs, lost. split_and!; [done..|]. cbn. rewrite <- Hp. f_equiv. pose proof (waiting_update _ _ _ n' Hk) as Hu. unfold waits at 1 2 in Hu. cbn in Hu. rewrite Eq in Hu.
  by apply Permutation_app_inv_l in Hu.
Qed.

Lemma account_fresh given fl s ip now : account given fl s → neighs s.1 !! ip = None →
  wp (put_neigh ip (fresh now)) (λ r s', r = Ok tt ∧ account given fl s' ∧ neighs s'.1 = <[ip := fresh now]> (neighs s.1)) s.
Proof.
  intros (Hok & tr & errs & lost & Es & Ee & Ed & Ht & Hp) Hk. unfold wp, put_neigh, on_table. split_and!; [done| |done]. split.
  - apply map_Forall_insert_2; [|done]. split; cbn; try done. by left.
  - exists tr, errs, lost. split_and!; [done..|]. cbn. rewrite <- Hp. f_equiv. by rewrite waiting_insert.
Qed.

Lemma list_sum_range (q : list P) : 0 ≤ list_sum truesize q.
Proof. induction q as [|p q IH]; [done|]. rewrite list_sum_cons. pose proof (truesize_range p). lia. Qed.

Lemma neigh_bytes ip n : neigh_ok ip n → 0 ≤ queue_bytes n < 2 ^ 33.
Proof.
  intros Hn. pose proof (n_bytes _ _ Hn) as E. pose proof (list_sum_range (queue n)). split; [lia|].
  destruct (n_bound _ _ Hn) as [Hb|Hl]; [unfold QUEUE_LEN_BYTES in *; lia|]. destruct (queue n) as [|p [|]]; [done| |done].
  rewrite list_sum_cons in E. change (list_sum truesize []) with 0 in E. pose proof (truesize_range p). lia.
Qed.

Lemma make_room_spec q sz d : 0 ≤ sz < 2 ^ 32 → list_sum truesize q < 2 ^ 33 →
  ∃ gone q' , make_room truesize q (list_sum truesize q) sz d = (q', list_sum truesize q', d + zlen gone) ∧ q = gone ++ q' ∧
    (list_sum truesize q' + sz ≤ QUEUE_LEN_BYTES ∨ q' = []).
Proof.
  intros Hs. revert d. induction q as [|p q IH]; intros d Hq; cbn [make_room].
  - exists [], []. rewrite Z.add_0_r. destruct (_ <? _); split_and!; auto.
  - rewrite list_sum_cons in *. pose proof (truesize_range p). pose proof (list_sum_range q). rewrite wrap_small by (unfold fits; lia).
    destruct (Z.ltb_spec QUEUE_LEN_BYTES (truesize p + list_sum truesize q + sz)).
    + rewrite wrap_small by (unfold fits; lia). replace (truesize p + list_sum truesize q - truesize p) with (list_sum truesize q) by lia.
      destruct (IH (d + 1)) as (gone & q' & E & -> & Hb); [lia|]. exists (p :: gone), q'. split_and!; [|done|done]. rewrite E, zlen_cons. f_equal. lia.
    + exists [], (p :: q). rewrite Z.add_0_r, list_sum_cons. split_and!; auto.
Qed.

(** Entries without packets may go. *)
Lemma account_delete given fl t o ip : account given fl (t, o) → (∀ n, neighs t !! ip = Some n → queue n = []) →
  account given fl (set_neighs t (delete ip (neighs t)), o).
Proof.
  intros (Hok & tr & errs & lost & Es & Ee & Ed & Ht & Hp) Hq. split; [by apply map_Forall_delete|]. exists tr, errs, lost. split_and!; [done..|]. cbn in *. rewrite <- Hp. f_equiv.
  destruct (neighs t !! ip) as [n|] eqn:E; [|by rewrite delete_id]. rewrite (waiting_delete _ _ _ E). unfold waits. cbn. by rewrite (Hq n).
Qed.

Lemma forced_gc_spec given fl s now : account given fl s →
  wp (forced_gc now) (λ r s', ∃ k, r = Ok k ∧ account given fl s' ∧ neighs s'.1 ⊆ neighs s.1) s.
Proof.
  destruct s as [t o]. intros Ha. unfold forced_gc. apply wp_bind. unfold wp at 1, table. set (vs := take _ _).
  assert (∀ ip, ip ∈ vs → ∀ n, neighs t !! ip = Some n → queue n = []) as Hv.
  { intros ip Hin n Hn. unfold vs in Hin. apply elem_of_take in Hin as (i & Hin & _). apply list_elem_of_lookup_2, list_elem_of_fmap in Hin as ([ip' n'] & -> & Hin).
    apply list_elem_of_filter in Hin as [Hvic Hin%elem_of_btree_iter]. cbn in *. rewrite Hn in Hin. injection Hin as <-. unfold victim in Hvic.
    apply andb_true_iff in Hvic as [_ Hl%bool_decide_eq_true]. by apply length_zero_iff_nil. }
  clearbody vs. apply wp_bind. unfold wp, on_table. cbn. eexists. split; [done|].
  assert (∀ m, m ⊆ neighs t → account given fl (set_neighs t m, o) → account given fl (set_neighs t (foldl (λ m ip, delete ip m) m vs), o) ∧ foldl (λ m ip, delete ip m) m vs ⊆ neighs t) as H.
  { clear Ha. induction vs as [|ip vs IH]; intros m Hm Ha; cbn; [done|]. apply IH; [by intros; eapply Hv; [right|]|etrans; [apply delete_subseteq|done]|].
    apply (account_delete given fl (set_neighs t m) o ip Ha). cbn. intros n Hn. apply (Hv ip); [left|]. by eapply lookup_weaken. }
  destruct (H (neighs t)) as [H1 H2]; [done|by destruct t|]. split; [|done]. exact H1.
Qed.

Lemma create_spec given fl s now ip : account given fl s →
  wp (create now ip) (λ r s', ∃ b, r = Ok b ∧ account given fl s' ∧ (b = true → is_Some (neighs s'.1 !! ip))) s.
Proof.
  intros Ha. unfold create. apply wp_bind. unfold wp at 1, table. case_bool_decide as Hin; [apply wp_ret; eauto|]. cbv zeta. apply wp_bind.
  assert (neighs s.1 !! ip = None) as Hnone by (by apply eq_None_not_Some).
  set (c := (_ || _)%bool). eapply (wp_mono _ (λ r s', ∃ b, r = Ok b ∧ account given fl s' ∧ neighs s'.1 !! ip = None)).
  - destruct c; [|apply wp_ret; eauto]. apply wp_bind. eapply wp_mono; [by apply forced_gc_spec|]. intros r s' (k & -> & Ha' & Hs). apply wp_ret.
    eexists. split_and!; [done|done|]. by eapply lookup_weaken_None.
  - intros r s' (b & -> & Ha' & Hn). destruct b; [apply wp_ret; by exists false|]. apply wp_bind. eapply wp_mono; [by apply account_fresh|].
    intros r s2 (-> & Ha2 & E). apply wp_ret. exists true. split_and!; [done|done|]. intros _. rewrite E, lookup_insert_eq. eauto.
Qed.

Lemma neigh_spec (s : St) ip : wp (neigh ip) (λ r s', r = Ok (neighs s.1 !! ip) ∧ s' = s) s.
Proof. apply wp_bind. unfold wp at 1, table. by apply wp_ret. Qed.

Lemma probe_spec given fl s ip : account given fl s → wp (probe ip) (λ r s', r = Ok tt ∧ account given fl s' ∧
  (∀ n, neighs s.1 !! ip = Some n → neighs s'.1 = <[ip := set_probes n (u32 (probes n + 1))]> (neighs s.1))) s.
Proof.
  intros Ha. unfold probe. apply wp_bind. eapply wp_mono; [apply neigh_spec|]. intros r ? [-> ->]. destruct (neighs s.1 !! ip) as [n|] eqn:E; [|by apply wp_ret].
  apply wp_bind. eapply wp_mono; [apply (account_put given fl s ip n); [done|done| |done]|].
  - destruct Ha as [Hok _]. destruct (Hok _ _ E). by split.
  - intros r s' (-> & Ha' & En & _). unfold wp, push_solicit. split_and!; [done|exact Ha'|]. by intros ? [= <-].
Qed.

(** A packet joins its next hop's queue, the oldest ones [gone]. *)
Lemma account_enqueue given fl s ip n0 n p gone q : account given ((ip, p) :: fl) s → neighs s.1 !! ip = Some n0 → queue n0 = gone ++ q →
  neigh_ok ip (set_queue n (q ++ [p]) (list_sum truesize (q ++ [p]))) →
  wp (put_neigh ip (set_queue n (q ++ [p]) (list_sum truesize (q ++ [p]))) ≫= λ _, on_table (λ t, add_drops t (zlen gone)))
    (λ r s', r = Ok tt ∧ account given fl s' ∧ neighs s'.1 = <[ip := set_queue n (q ++ [p]) (list_sum truesize (q ++ [p]))]> (neighs s.1)) s.
Proof.
  intros (Hok & tr & errs & lost & Es & Ee & Ed & Ht & Hp) Hk Eq Hn. set (n' := set_queue _ _ _) in *. unfold wp, put_neigh, on_table, mbind, M_bind. split_and!; [done| |done].
  split; [by apply map_Forall_insert_2|]. exists tr, errs, (lost ++ ((λ p, (ip, p)) <$> gone)). split_and!; [done..| |done|].
  { cbn. rewrite Ed, zlen_app. unfold wrap. rewrite Zplus_mod_idemp_l. by unfold zlen; rewrite length_fmap. }
  cbn. pose proof (waiting_update _ _ _ n' Hk) as Hu. unfold waits at 1 2 in Hu. cbn in Hu. rewrite Eq, !fmap_app in Hu.
  set (Q := (λ p, (ip, p)) <$> q) in *. set (G := (λ p, (ip, p)) <$> gone) in *. change ((λ p, (ip, p)) <$> [p]) with [(ip, p)] in Hu.
  assert (waiting (<[ip := n']> (neighs s.1)) ++ G ≡ₚ waiting (neighs s.1) ++ [(ip, p)]) as Hc.
  { apply (Permutation_app_inv_l Q). transitivity ((G ++ Q) ++ waiting (<[ip := n']> (neighs s.1))); [aac_reflexivity|]. rewrite <- Hu. aac_reflexivity. }
  rewrite <- Hp. set (W' := waiting (<[ip := n']> _)) in *. set (W := waiting (neighs s.1)) in *. clearbody W W' G. change ((ip, p) :: fl) with ([(ip, p)] ++ fl).
  transitivity ((W' ++ G) ++ ((λ x : ip4 * mac * P, (x.1.1, x.2)) <$> tr) ++ errs ++ lost ++ fl); [aac_reflexivity|]. rewrite Hc. aac_reflexivity.
Qed.

Definition in_hand (ip : ip4) (p : option P) : list (ip4 * P) := match p with Some p => [(ip, p)] | None => [] end.

Lemma begin_send_ok ip n now : neigh_ok ip n → nud n ≠ Reachable → nud n ≠ Delay → nud n ≠ Probe →
  neigh_ok ip (begin_send n now).1 ∧ queue (begin_send n now).1 = queue n ∧ queue_bytes (begin_send n now).1 = queue_bytes n ∧
  (nud (begin_send n now).1 = Delay ∨ nud (begin_send n now).1 = Incomplete).
Proof.
  intros [H1 H2 H3 H4 H5] N1 N2 N3. unfold begin_send. destruct (nud n) eqn:E; try done; (split; [split; cbn; try done; rewrite ?E; try done|split_and!; cbn; auto]).
  all: try (intros Hq; by specialize (H1 Hq)).
Qed.

Lemma event_send_spec given fl s now ip p : account given (in_hand ip p ++ fl) s → is_Some (neighs s.1 !! ip) →
  wp (event_send truesize now ip p) (λ r s', ∃ o n', r = Ok o ∧ account given (in_hand ip o ++ fl) s' ∧ neighs s'.1 !! ip = Some n' ∧ (o ≠ None → valid (nud n') = true) ∧ (p = None → o = None)) s.
Proof.
  intros Ha [n Hn]. unfold event_send. apply wp_bind. eapply wp_mono; [apply neigh_spec|]. intros r ? [-> ->]. rewrite Hn.
  assert (neigh_ok ip n) as Hok by (destruct Ha as [Hok _]; exact (Hok _ _ Hn)).
  destruct (decide (nud n = Reachable ∨ nud n = Delay ∨ nud n = Probe)) as [Hv|Hv].
  { destruct Hv as [E|[E|E]]; rewrite E; apply wp_ret; exists p, n; by rewrite E. }
  assert (∀ A (a b : A), match nud n with Reachable | Delay | Probe => a | _ => b end = b) as Em by (intros; destruct (nud n); naive_solver). rewrite Em. clear Em.
  destruct (begin_send_ok ip n now Hok) as (Hok1 & Eq & Eb & Hst); [naive_solver..|]. destruct (begin_send n now) as [n1 imm]. cbn [fst] in *. apply wp_bind.
  eapply (wp_mono _ (λ r s', ∃ o n', r = Ok o ∧ account given (in_hand ip o ++ fl) s' ∧ neighs s'.1 !! ip = Some n' ∧ (o ≠ None → valid (nud n') = true ∧ nud n1 ≠ Incomplete) ∧ (p = None → o = None))).
  - destruct Hst as [E|E]; rewrite E.
    + apply wp_bind. eapply wp_mono; [by apply (account_put given (in_hand ip p ++ fl) s ip n)|]. intros r s' (-> & Ha' & En & _). apply wp_ret. exists p, n1. rewrite En, lookup_insert_eq, E. done.
    + destruct p as [p|].
      2: { apply wp_bind. eapply wp_mono; [by apply (account_put given (in_hand ip None ++ fl) s ip n)|]. intros r s' (-> & Ha' & En & _). apply wp_ret. exists None, n1. rewrite En, lookup_insert_eq. done. }
      rewrite (n_bytes _ _ Hok1). pose proof (neigh_bytes _ _ Hok1) as Hb. rewrite (n_bytes _ _ Hok1) in Hb.
      destruct (make_room_spec (queue n1) (truesize p) 0) as (gone & q & -> & Eg & Hq); [done|lia|]. pose proof (list_sum_range q). pose proof (truesize_range p).
      assert (list_sum truesize q + truesize p = list_sum truesize (q ++ [p])) as El.
      { clear. induction q as [|x q IH]; cbn; [lia|]. unfold list_sum in *. cbn in *. lia. }
      assert (list_sum truesize q ≤ list_sum truesize (queue n1)) as Hle.
      { rewrite Eg. clear -truesize_range. induction gone as [|x g IH]; [done|]. cbn [app]. rewrite list_sum_cons. pose proof (truesize_range x). lia. }
      rewrite wrap_small, El by (unfold fits; lia). apply wp_regroup. apply wp_bind. rewrite Z.add_0_l.
      eapply wp_mono; [apply (account_enqueue given fl s ip n n1 p gone q Ha Hn); [by rewrite <- Eq|]|].
      * destruct Hok1 as [H1 H2 H3 _ _]. split; cbn; try done. rewrite <- El. destruct Hq as [?| ->]; [by left|by right].
      * intros r s' (-> & Ha' & En). apply wp_ret. eexists None, _. rewrite En, lookup_insert_eq. done.
  - intros r s' (o & n' & -> & Ha' & Hn' & Hv' & Hp'). apply wp_bind. destruct imm.
    + eapply wp_mono; [by apply (probe_spec given (in_hand ip o ++ fl))|]. intros r s2 (-> & Ha2 & En). apply wp_ret. eexists o, _. split_and!; [done|done|rewrite (En _ Hn'); apply lookup_insert_eq| |done].
      cbn. naive_solver.
    + apply wp_ret, wp_ret. exists o, n'. naive_solver.
Qed.

Lemma account_given given fl s x : account given fl s → account (x :: given) (x :: fl) s.
Proof.
  intros (Hok & tr & errs & lost & Es & Ee & Ed & Ht & Hp). split; [done|]. exists tr, errs, lost. split_and!; [done..|].
  rewrite <- Hp, !app_assoc. symmetry. apply Permutation_middle.
Qed.

Lemma account_drop given fl s x : account given (x :: fl) s → wp (on_table (λ t, add_drops t 1)) (λ r s', r = Ok tt ∧ account given fl s') s.
Proof.
  intros (Hok & tr & errs & lost & Es & Ee & Ed & Ht & Hp). unfold wp, on_table. split; [done|]. split; [done|]. exists tr, errs, (lost ++ [x]). split_and!; [done..| |done|].
  - cbn. rewrite Ed, zlen_app. unfold wrap. by rewrite Zplus_mod_idemp_l.
  - rewrite <- Hp. cbn. change (x :: fl) with ([x] ++ fl). aac_reflexivity.
Qed.

Lemma account_send given fl s ip p n : account given ((ip, p) :: fl) s → neighs s.1 !! ip = Some n → valid (nud n) = true →
  wp (push_send [(ha n, p)]) (λ r s', r = Ok tt ∧ account given fl s') s.
Proof.
  intros (Hok & tr & errs & lost & Es & Ee & Ed & Ht & Hp) Hn Hv. unfold wp, push_send. split; [done|]. split; [done|]. exists (tr ++ [(ip, ha n, p)]), errs, lost. split_and!; [|done..| |].
  - cbn. by rewrite Es, fmap_app.
  - apply Forall_app. split; [done|]. constructor; [|done]. cbn. by apply (n_addr _ _ (Hok _ _ Hn)).
  - rewrite <- Hp. cbn. rewrite fmap_app. cbn. change ((ip, p) :: fl) with ([(ip, p)] ++ fl). aac_reflexivity.
Qed.

Lemma output_spec given s now ip p : account given [] s → wp (output truesize now ip p) (λ r s', r = Ok tt ∧ account ((ip, p) :: given) [] s') s.
Proof.
  intros Ha. apply (account_given given [] s (ip, p)) in Ha. unfold output. apply wp_bind. eapply wp_mono; [by apply create_spec|]. intros r s1 (b & -> & Ha1 & Hb).
  destruct b; cbn [negb]; [|by apply (account_drop ((ip, p) :: given) [] _ (ip, p))]. destruct (Hb eq_refl) as [n Hn]. apply wp_bind. eapply wp_mono; [apply neigh_spec|]. intros r ? [-> ->].
  apply wp_bind. eapply wp_of_opt; [done|]. unfold connected. case_bool_decide as Er; [by eapply account_send; [..|rewrite Er]|]. apply wp_bind.
  assert (neigh_ok ip n) as Hok by (destruct Ha1 as [Hok _]; exact (Hok _ _ Hn)).
  eapply wp_mono; [apply (account_put ((ip, p) :: given) [(ip, p)] s1 ip n (set_used n now)); [done|done|by destruct Hok|done]|]. intros r s2 (-> & Ha2 & En & _). apply wp_bind.
  eapply wp_mono; [apply (event_send_spec ((ip, p) :: given) [] s2 now ip (Some p)); [done|rewrite En, lookup_insert_eq; eauto]|]. intros r s3 (o & n' & -> & Ha3 & Hn' & Hv & _).
  destruct o as [p'|]; [|by apply wp_ret]. apply wp_bind. eapply wp_mono; [apply neigh_spec|]. intros r ? [-> ->]. rewrite Hn'. apply wp_bind. eapply wp_of_opt; [done|].
  eapply account_send; [exact Ha3|exact Hn'|by apply Hv].
Qed.

Lemma resolve_spec given s now ip : account given [] s → wp (resolve truesize now ip) (λ r s', ∃ b, r = Ok b ∧ account given [] s') s.
Proof.
  intros Ha. unfold resolve. apply wp_bind. eapply wp_mono; [by apply create_spec|]. intros r s1 (b & -> & Ha1 & Hb). destruct b; cbn [negb]; [|apply wp_ret; eauto].
  destruct (Hb eq_refl) as [n Hn]. apply wp_bind. eapply wp_mono; [apply neigh_spec|]. intros r ? [-> ->]. apply wp_bind. eapply wp_of_opt; [done|]. apply wp_bind.
  eapply wp_mono; [apply (event_send_spec given [] s1 now ip None); [done|eauto]|]. intros r s3 (o & n' & -> & Ha3 & Hn' & Hv & Ho).
  rewrite Ho in Ha3 by done. apply wp_bind. eapply wp_mono; [apply neigh_spec|]. intros r ? [-> ->]. apply wp_ret. eauto.
Qed.

(** ** Giving a queue away *)

(** The waiting packets of an entry, reported. *)
Lemma account_report given s ip n n' : account given [] s → neighs s.1 !! ip = Some n → neigh_ok ip n' → queue n' = [] →
  wp (put_neigh ip n' ≫= λ _, push_errors (queue n)) (λ r s', r = Ok tt ∧ account given [] s' ∧ neighs s'.1 = <[ip := n']> (neighs s.1)) s.
Proof.
  intros (Hok & tr & errs & lost & Es & Ee & Ed & Ht & Hp) Hk Hn Eq. unfold wp, put_neigh, on_table, push_errors, mbind, M_bind. split_and!; [done| |done].
  split; [by apply map_Forall_insert_2|]. exists tr, (errs ++ waits (ip, n)), lost. split_and!; [done| |done..|].
  { cbn. rewrite Ee, fmap_app. f_equal. unfold waits. cbn. rewrite <- list_fmap_compose. symmetry. apply list_fmap_id. }
  cbn. pose proof (waiting_update _ _ _ n' Hk) as Hu. unfold waits at 1 in Hu. cbn in Hu. rewrite Eq in Hu. cbn in Hu. rewrite <- Hp, Hu. cbn. aac_reflexivity.
Qed.

(** The waiting packets of an entry, sent to an address its next hop announced. *)
Lemma account_flush given s ip n n' : account given [] s → neighs s.1 !! ip = Some n → neigh_ok ip n' → queue n' = [] → (ip, ha n') ∈ seen →
  wp (put_neigh ip n' ≫= λ _, push_send ((λ p, (ha n', p)) <$> queue n)) (λ r s', r = Ok tt ∧ account given [] s') s.
Proof.
  intros (Hok & tr & errs & lost & Es & Ee & Ed & Ht & Hp) Hk Hn Eq Hs. unfold wp, put_neigh, on_table, push_send, mbind, M_bind. split; [done|].
  split; [by apply map_Forall_insert_2|]. exists (tr ++ ((λ p, (ip, ha n', p)) <$> queue n)), errs, lost. split_and!; [|done..| |].
  { cbn. by rewrite Es, fmap_app, <- !list_fmap_compose. }
  { apply Forall_app. split; [done|]. by apply Forall_fmap, Forall_true. }
  cbn. pose proof (waiting_update _ _ _ n' Hk) as Hu. unfold waits at 1 in Hu. cbn in Hu. rewrite Eq in Hu. cbn in Hu. rewrite <- Hp, Hu. rewrite fmap_app, <- list_fmap_compose. cbn.
  change (waits (ip, n)) with (((λ x : ip4 * mac * P, (x.1.1, x.2)) ∘ (λ p, (ip, ha n', p))) <$> queue n). aac_reflexivity.
Qed.

(** ** Timers *)

(** The state after a timer, before its probes are counted. *)
Lemma timer_state_ok ip n now rt n' next : neigh_ok ip n → in_timer (nud n) = true → timer_state (set_timer n None) now rt = (n', next) →
  queue n' = queue n ∧ queue_bytes n' = queue_bytes n ∧ ha n' = ha n ∧ timer n' = None ∧
  (queue n ≠ [] → nud n' = Incomplete) ∧ (valid (nud n') = true → (ip, ha n) ∈ seen).
Proof.
  intros [H1 H2 H3 H4 H5] Hin. unfold timer_state. cbn [set_timer nud confirmed used]. intros E. destruct (nud n) eqn:En; try done.
  all: repeat match type of E with context [if ?c then _ else _] => destruct c end.
  all: injection E as <- <-; cbn; rewrite ?En; split_and!; auto; try done; intros Hq; by specialize (H1 Hq).
Qed.

Lemma timer_fired_spec given s now ip : account given [] s → wp (timer_fired now ip) (λ r s', r = Ok tt ∧ account given [] s') s.
Proof.
  intros Ha. unfold timer_fired. apply wp_bind. unfold wp at 1, table. destruct (neighs s.1 !! ip) as [n|] eqn:Hn; [|by apply wp_ret]. cbv zeta.
  assert (neigh_ok ip n) as Hok by (destruct Ha as [Hok _]; exact (Hok _ _ Hn)).
  destruct (in_timer (nud (set_timer n None))) eqn:Hin; cbn [negb].
  2: { eapply wp_mono; [apply (account_put given [] s ip n); [done|done| |done]|naive_solver]. destruct Hok as [H1 H2 H3 H4 H5]. split; try done. cbn in *. rewrite Hin. split; [by intros []|done]. }
  destruct (timer_state _ _ _) as [n' next] eqn:E. destruct (timer_state_ok ip n now _ n' next Hok Hin E) as (Eq & Eb & Eh & Et & Hq & Hs).
  destruct (probing (nud n') && (max_probes (nud n') <=? probes n')) eqn:Ep.
  - unfold invalidate. apply wp_bind. unfold wp at 1, put_neigh, on_table. apply wp_bind. eapply wp_mono; [apply neigh_spec|]. intros r ? [-> ->]. cbn [fst neighs set_neighs]. rewrite lookup_insert_eq.
    pose proof (account_report given s ip n (set_queue (set_updated (set_failed n') now) [] 0) Ha Hn) as Hr. unfold wp, put_neigh, on_table, push_errors, mbind, M_bind in *. cbn in *.
    rewrite insert_insert_eq, Eq. apply and_assoc in Hr as [Hr _]; [done| |done]. split; cbn; try done; [by rewrite Et|by left].
  - apply wp_bind. set (n2 := if in_timer _ then _ else _). eapply wp_mono; [apply (account_put given [] s ip n n2 Ha Hn)|].
    + destruct Hok as [H1 H2 H3 H4 H5]. unfold n2. destruct (in_timer (nud n')) eqn:Hin'; split; cbn; rewrite ?Eq, ?Eb, ?Eh, ?Et, ?Hin'; try done.
    + unfold n2. destruct (in_timer (nud n')); exact Eq.
    + intros r s1 (-> & Ha1 & _). destruct (probing _); [|by apply wp_ret]. eapply wp_mono; [by apply probe_spec|naive_solver].
Qed.

(** Entries that hold nothing may change or go together. *)
Lemma waiting_omap (f : Neighbour → option Neighbour) m : (∀ ip n, m !! ip = Some n → match f n with Some n' => queue n' = queue n | None => queue n = [] end) →
  waiting (omap f m) ≡ₚ waiting m.
Proof.
  induction m as [|ip n m Hn IH] using map_ind; intros Hf; [done|]. assert (waiting (omap f m) ≡ₚ waiting m) as IH'.
  { apply IH. intros ip' n' Hn'. apply (Hf ip'). rewrite lookup_insert_ne; [done|]. intros ->. by rewrite Hn in Hn'. }
  pose proof (Hf ip n (lookup_insert_eq _ _ _)) as Hq. rewrite (waiting_insert m) by done. destruct (f n) as [n'|] eqn:E.
  - rewrite (omap_insert_Some _ _ _ _ n') by done. rewrite waiting_insert by (by rewrite lookup_omap, Hn). rewrite IH'. unfold waits. cbn. by rewrite Hq.
  - rewrite omap_insert_None by done. rewrite delete_id by (by rewrite lookup_omap, Hn). rewrite IH'. unfold waits. cbn. by rewrite Hq.
Qed.

Lemma periodic_spec given s now rnd : account given [] s → wp (periodic now rnd) (λ r s', r = Ok tt ∧ account given [] s') s.
Proof.
  intros Ha. unfold periodic. apply wp_bind. unfold wp at 1, table. apply wp_bind. eapply (wp_mono _ (λ r s', r = Ok tt ∧ account given [] s' ∧ neighs s'.1 = neighs s.1)).
  { destruct (_ || _); [|by apply wp_ret]. unfold wp, on_table. split_and!; [done|exact Ha|done]. }
  intros r s1 (-> & Ha1 & E). destruct (_ <? _); [by apply wp_ret|]. unfold wp, on_table. split; [done|].
  set (f := λ n, if in_timer (nud n) then _ else _). destruct Ha1 as (Hok & tr & errs & lost & Es & Ee & Ed & Ht & Hp).
  assert (∀ ip n, neigh_ok ip n → match f n with Some n' => neigh_ok ip n' ∧ queue n' = queue n | None => queue n = [] end) as Hf.
  { intros ip n Hn. unfold f. destruct (in_timer (nud n)) eqn:Hin; [done|]. assert (queue n = []) as Hq by (destruct (queue n) eqn:Eq; [done|]; rewrite (n_queue _ _ Hn) in Hin by (by rewrite Eq); done).
    set (n' := if _ && _ then _ else _). assert (neigh_ok ip n' ∧ queue n' = queue n) as Hn' by (unfold n'; destruct (_ && _); [destruct Hn; by split|done]). by destruct (_ || _). }
  split.
  - intros ip n. cbn. rewrite lookup_omap. intros (n0 & Hn0 & E0)%bind_Some. specialize (Hf ip n0 (Hok _ _ Hn0)). rewrite E0 in Hf. by destruct Hf.
  - exists tr, errs, lost. split_and!; [done..|]. cbn. rewrite waiting_omap; [done|]. intros ip n Hn. specialize (Hf ip n (Hok _ _ Hn)). destruct (f n); naive_solver.
Qed.

Lemma tick_spec given s now rnd : account given [] s → wp (tick now rnd) (λ r s', r = Ok tt ∧ account given [] s') s.
Proof.
  intros Ha. unfold tick. apply wp_bind. unfold wp at 1, table. apply wp_bind. set (l := filter _ _). clearbody l.
  eapply (wp_mono _ (λ r s', (∃ us, r = Ok us) ∧ account given [] s')).
  { revert s Ha. induction l as [|x l IH]; intros s Ha; cbn [mapM]; [split; [by eexists|done]|]. apply wp_bind. eapply wp_mono; [by apply timer_fired_spec|]. intros r s' [-> Ha'].
    apply wp_bind. eapply wp_mono; [by apply IH|]. intros r s2 [[us ->] Ha2]. apply wp_ret. eauto. }
  intros r s1 [[us ->] Ha1]. apply wp_bind. unfold wp at 1, table. destruct (_ <=? _); [|by apply wp_ret]. apply wp_bind. eapply wp_mono; [by apply periodic_spec|].
  intros r s2 [-> Ha2]. unfold wp, on_table. split; [done|exact Ha2].
Qed.

(** ** ARP *)
Lemma update_neigh_ok ip n now ha' new overr rt n' q : neigh_ok ip n → (ip, ha') ∈ seen → new = Reachable ∨ new = Stale →
  update_neigh n now ha' new overr rt = (n', q) →
  neigh_ok ip n' ∧ (q = [] ∧ queue n' = queue n ∨ q = queue n ∧ queue n' = [] ∧ ha n' = ha').
Proof.
  intros [H1 H2 H3 H4 H5] Hs Hnew. unfold update_neigh, connected. cbv zeta.
  destruct Hnew as [-> | ->]; destruct (nud n) eqn:En; cbn [valid negb andb orb]; destruct (bool_decide (ha n = ha')) eqn:Eh; destruct overr; decide_nud.
  all: intros [= <- <-]; (split; [split|]); cbn; rewrite ?En; auto; try done.
  all: first [by left | intros Hq; by specialize (H1 Hq)].
Qed.

Lemma update_spec given s now ip ha' new overr : account given [] s → (ip, ha') ∈ seen → new = Reachable ∨ new = Stale →
  wp (update now ip ha' new overr) (λ r s', r = Ok tt ∧ account given [] s') s.
Proof.
  intros Ha Hs Hnew. unfold update. apply wp_bind. unfold wp at 1, table. destruct (neighs s.1 !! ip) as [n|] eqn:Hn; [|by apply wp_ret].
  assert (neigh_ok ip n) as Hok by (destruct Ha as [Hok _]; exact (Hok _ _ Hn)). destruct (update_neigh _ _ _ _ _ _) as [n' q] eqn:E.
  destruct (update_neigh_ok _ _ _ _ _ _ _ _ _ Hok Hs Hnew E) as [Hok' [[-> Eq]|(-> & Eq & Eh)]].
  - apply wp_bind. eapply wp_mono; [by apply (account_put given [] s ip n)|]. intros r s1 (-> & (Hok1 & tr & errs & lost & Es & Ee & Ed & Ht & Hp) & _). unfold wp, push_send. split; [done|].
    split; [done|]. exists tr, errs, lost. split_and!; [cbn; by rewrite app_nil_r|done..].
  - apply (account_flush given s ip n n'); [done..|by rewrite Eh].
Qed.

Lemma arp_input_spec given s now arp to_us our_ip :
  account given [] s → match arp_parse arp with Ok (Some a) => (a_sip a, a_sha a) ∈ seen | Ok None => True | _ => False end →
  wp (arp_input now arp to_us our_ip) (λ r s', ∃ o, r = Ok o ∧ account given [] s') s.
Proof.
  intros Ha Hs. unfold arp_input. destruct (arp_parse arp) as [[a|]| |] eqn:E; try done; (apply wp_bind; eapply wp_of_res; [done|]); [|apply wp_ret; eauto].
  cbv beta iota zeta. destruct (is_multicast (a_tip a) || is_loopback (a_tip a)); [apply wp_ret; eauto|]. case_bool_decide; [apply wp_ret; eauto|].
  match goal with |- context [if ?c && negb ?d then _ else _] => destruct (c && negb d) end.
  - apply wp_bind. eapply wp_mono; [by apply create_spec|]. intros r s1 (b & -> & Ha1 & _). apply wp_bind. destruct b; [|apply wp_ret, wp_ret; eauto].
    eapply wp_mono; [apply update_spec; eauto|]. intros r s2 [-> Ha2]. apply wp_ret. eauto.
  - apply wp_bind. eapply wp_mono; [apply neigh_spec|]. intros r ? [-> ->]. destruct (neighs s.1 !! _); [|apply wp_ret; eauto]. apply wp_bind.
    eapply wp_mono; [apply update_spec; [done|done|destruct (_ && to_us); auto]|]. intros r s2 [-> Ha2]. apply wp_ret. eauto.
Qed.
End account.

Lemma account_weaken seen seen' given fl s : seen ⊆ seen' → account seen given fl s → account seen' given fl s.
Proof.
  intros Hs (Hok & tr & errs & lost & Es & Ee & Ed & Ht & Hp). split.
  - intros ip n Hn. destruct (Hok ip n Hn). split; auto.
  - exists tr, errs, lost. split_and!; [done..| |done]. eapply Forall_impl; [done|]. intros x Hx. by apply Hs.
Qed.

Lemma arp_parse_total arp : ∃ o, arp_parse arp = Ok o.
Proof.
  unfold arp_parse. destruct (Z.ltb_spec (zlen arp) 8); [by eexists|].
  destruct (be16_at_ok (E := unit) arp 0) as (hrd & -> & _); [lia..|]. destruct (be16_at_ok (E := unit) arp 2) as (pro & -> & _); [lia..|].
  destruct (u8_at_ok (E := unit) arp 4) as (hln & -> & _); [lia|]. destruct (u8_at_ok (E := unit) arp 5) as (pln & -> & _); [lia|].
  destruct (be16_at_ok (E := unit) arp 6) as (op & -> & _); [lia..|]. rewrite !bind_ok.
  destruct (_ || (zlen arp <? 28)) eqn:E; [by eexists|]. repeat (destruct (_ && _ || _); [by eexists|]). apply orb_false_iff in E as [_ E].
  destruct (negb _ && negb _); [by eexists|]. rewrite !unwrap_sub_ok by lia. by eexists.
Qed.

(** ** Runs *)

(** The calls of the stack, [flush] apart, which forgets everything. *)
Inductive call :=
  | Output (now : Z) (ip : ip4) (p : P)
  | Resolve (now : Z) (ip : ip4)
  | Tick (now rnd : Z)
  | ArpIn (now : Z) (arp : list byte) (to_us : bool) (our_ip : ip4).

Definition exec (c : call) : T unit :=
  match c with
  | Output now ip p => output truesize now ip p
  | Resolve now ip => _ ← resolve truesize now ip; mret tt
  | Tick now rnd => tick now rnd
  | ArpIn now arp to_us our_ip => _ ← arp_input now arp to_us our_ip; mret tt
  end.

Fixpoint run (cs : list call) : T unit :=
  match cs with [] => mret tt | c :: cs => _ ← exec c; run cs end.

Definition handed (c : call) : list (ip4 * P) := match c with Output _ ip p => [(ip, p)] | _ => [] end.

(** The sender's addresses of an ARP packet that passes [arp_rcv]'s checks. *)
Definition announced (c : call) : list (ip4 * mac) :=
  match c with
  | ArpIn _ arp _ _ => match arp_parse arp with Ok (Some a) => [(a_sip a, a_sha a)] | _ => [] end
  | _ => []
  end.

Lemma exec_spec seen given s c : account seen given [] s →
  wp (exec c) (λ r s', r = Ok tt ∧ account (seen ++ announced c) (handed c ++ given) [] s') s.
Proof.
  intros Ha. assert (account (seen ++ announced c) given [] s) as Ha' by (by eapply account_weaken; [apply list_subseteq_app_l|]). destruct c as [now ip p|now ip|now rnd|now arp to_us our_ip]; cbn [exec handed app].
  - by apply output_spec.
  - apply wp_bind. eapply wp_mono; [by apply resolve_spec|]. intros r s' (b & -> & H). by apply wp_ret.
  - by apply tick_spec.
  - apply wp_bind. eapply wp_mono; [apply arp_input_spec; [done|]|].
    + cbn [announced]. destruct (arp_parse_total arp) as [[a|] ->]; [|done]. apply elem_of_app. right. left.
    + intros r s' (o & -> & H). by apply wp_ret.
Qed.

Lemma neigh_run_spec cs : ∀ seen given s, account seen given [] s →
  wp (run cs) (λ r s', r = Ok tt ∧ account (seen ++ (cs ≫= announced)) ((cs ≫= handed) ++ given) [] s') s.
Proof.
  induction cs as [|c cs IH]; intros seen given s Ha; cbn [run].
  - apply wp_ret. cbn. by rewrite app_nil_r.
  - apply wp_bind. eapply wp_mono; [by apply exec_spec|]. intros r s1 [-> Ha1]. eapply wp_mono; [by apply IH|]. intros r s2 [-> (Hok & tr & errs & lost & Es & Ee & Ed & Ht & Hp)].
    split; [done|]. cbn [mbind list_bind]. rewrite !app_assoc. split; [done|]. exists tr, errs, lost. split_and!; [done..|]. rewrite Hp. cbn. aac_reflexivity.
Qed.

(** C27. Whatever packets, requests, ARP packets and timer ticks a neighbour table sees,
    in any order and at any times, no call panics, and every packet handed over for a
    next hop is exactly once: sent to a hardware address that next hop announced in an
    ARP packet, reported in [errors], counted in [drops], or still waiting for an
    INCOMPLETE next hop; nothing else is sent or reported.  A queue holds at most
    [QUEUE_LEN_BYTES], or one packet, and an entry has a timer exactly in the states
    that run one. *)
Theorem neighbours_account_for_packets cs :
  ∃ t o, run cs (new, no_out) = (Ok tt, (t, o)) ∧
    (∃ tr errs lost,
       send o = (λ x : ip4 * mac * P, (x.1.2, x.2)) <$> tr ∧ errors o = snd <$> errs ∧ drops t = u64 (zlen lost) ∧
       Forall (λ x : ip4 * mac * P, x.1 ∈ cs ≫= announced) tr ∧
       waiting (neighs t) ++ ((λ x : ip4 * mac * P, (x.1.1, x.2)) <$> tr) ++ errs ++ lost ≡ₚ cs ≫= handed) ∧
    ∀ ip n, neighs t !! ip = Some n →
      (queue n ≠ [] → nud n = Incomplete) ∧ (is_Some (timer n) ↔ in_timer (nud n) = true) ∧ (valid (nud n) = true → (ip, ha n) ∈ cs ≫= announced) ∧
      (list_sum truesize (queue n) ≤ QUEUE_LEN_BYTES ∨ length (queue n) = 1%nat).
Proof.
  pose proof (neigh_run_spec cs [] [] (new, no_out)) as H. unfold wp in H. destruct (run cs (new, no_out)) as [r [t o]].
  destruct H as [-> (Hok & tr & errs & lost & Es & Ee & Ed & Ht & Hp)].
  { split; [apply map_Forall_empty|]. by exists [], [], []. }
  exists t, o. split; [done|]. split.
  - exists tr, errs, lost. rewrite !app_nil_r in Hp. by split_and!.
  - intros ip n Hn. destruct (Hok ip n Hn) as [H1 H2 H3 H4 H5]. rewrite H4 in H5. done.
Qed.

End table.

(** ** An exchange: a packet, the request, the answer *)
Definition ex_hop : ip4 := [x0a; x00; x00; x01].
Definition ex_mac : mac := [x02; x00; x00; x00; x00; x01].
Definition ex_us : ip4 := [x0a; x00; x00; x02].
Definition ex_reply : list byte :=
  [x00; x01; x08; x00; x06; x04; x00; x02] ++ ex_mac ++ ex_hop ++ [x02; x00; x00; x00; x00; x02] ++ ex_us.
Definition ex_calls : list (@call Z) := [Output 10 ex_hop 7; Tick 11 0; ArpIn 12 ex_reply true ex_us; Output 13 ex_hop 8].

Lemma neighbours_account_for_packets_witness :
  send (run (λ _, 1000) ex_calls (new, no_out)).2.2 = [(ex_mac, 7); (ex_mac, 8)] ∧
  ∃ t o, run (λ _, 1000) ex_calls (new, no_out) = (Ok tt, (t, o)) ∧
    (∃ tr errs lost,
       send o = (λ x : ip4 * mac * Z, (x.1.2, x.2)) <$> tr ∧ errors o = snd <$> errs ∧ drops t = u64 (zlen lost) ∧
       Forall (λ x : ip4 * mac * Z, x.1 ∈ ex_calls ≫= announced) tr ∧
       waiting (neighs t) ++ ((λ x : ip4 * mac * Z, (x.1.1, x.2)) <$> tr) ++ errs ++ lost ≡ₚ ex_calls ≫= handed) ∧
    ∀ ip n, neighs t !! ip = Some n →
      (queue n ≠ [] → nud n = Incomplete) ∧ (is_Some (timer n) ↔ in_timer (nud n) = true) ∧ (valid (nud n) = true → (ip, ha n) ∈ ex_calls ≫= announced) ∧
      (list_sum (λ _, 1000) (queue n) ≤ QUEUE_LEN_BYTES ∨ length (queue n) = 1%nat).
Proof. split; [vm_compute; reflexivity|]. apply (neighbours_account_for_packets (λ _, 1000)). intros _. lia. Defined.
