(* ===== verification/NeighLive.v ===== *)
(** * A next hop that never answers

    An entry that waits for an answer keeps its count of requests and its timer under
    every other call; each expiry sends one more request, and the one after the third
    gives the packets back. *)

From S2P Require Import Prelude Bytes NetBytes Neigh NeighSpec.
Import neigh.

Section live.
Context {P : Type} (truesize : P → Z).
Notation Neighbour := (@Neighbour P).
Notation Table := (@Table P).
Notation T := (@T P).

(** ** What the calls do to one entry *)
Section frame.
Context (ip : ip4) (holds : option Neighbour → Prop).

(** [m] keeps what [holds] of the entry for [ip]. *)
Definition frame {A} (m : T A) : Prop := ∀ s, holds (neighs s.1 !! ip) → holds (neighs (m s).2.1 !! ip).

Lemma frame_ret {A} (a : A) : frame (mret a).
Proof. by intros s H. Qed.

Lemma frame_bind {A B} (m : T A) (k : A → T B) : frame m → (∀ a, frame (k a)) → frame (m ≫= k).
Proof. intros Hm Hk s H. specialize (Hm s H). unfold mbind, M_bind. destruct (m s) as [[a| |] s1]; [by apply Hk|done..]. Qed.

Lemma frame_table {A} (k : Table → T A) : (∀ t, holds (neighs t !! ip) → frame (k t)) → frame (table ≫= k).
Proof. intros Hk s H. by apply (Hk s.1). Qed.

Lemma frame_neigh {A} ip' (k : option Neighbour → T A) : (∀ o, (ip' = ip → holds o) → frame (k o)) → frame (neigh ip' ≫= k).
Proof. intros Hk s H. apply (Hk (neighs s.1 !! ip')); [by intros ->|done]. Qed.

Lemma frame_of_opt {A B} (o : option A) (k : A → T B) : (∀ a, o = Some a → frame (k a)) → frame (of_opt o ≫= k).
Proof. intros Hk. destruct o as [a|]; [by apply (Hk a)|by intros s H]. Qed.

Lemma frame_put ip' n : (ip' = ip → holds (Some n)) → frame (put_neigh ip' n).
Proof. intros Hn s H. cbn. destruct (decide (ip' = ip)) as [->|]; [rewrite lookup_insert_eq; auto|by rewrite lookup_insert_ne]. Qed.

Lemma frame_on_table (f : Table → Table) : (∀ t, neighs (f t) = neighs t) → frame (on_table f).
Proof. intros Hf s H. cbn. by rewrite Hf. Qed.

Lemma frame_send ps : frame (push_send ps).
Proof. by intros s H. Qed.

Lemma frame_solicit q : frame (push_solicit q).
Proof. by intros s H. Qed.

Lemma frame_errors ps : frame (push_errors ps).
Proof. by intros s H. Qed.

Lemma frame_mapM {A B} (g : A → T B) l : (∀ x, x ∈ l → frame (g x)) → frame (mapM g l).
Proof.
  induction l as [|x l IH]; intros Hg; cbn [mapM]; [apply frame_ret|]. apply frame_bind; [apply Hg; left|]. intros a. apply frame_bind; [|intros; apply frame_ret].
  apply IH. intros y Hy. apply Hg. by right.
Qed.

Lemma frame_probe_other ip' : ip' ≠ ip → frame (probe ip').
Proof. intros Hne. apply frame_neigh. intros [n|] _; [|apply frame_ret]. apply frame_bind; [by apply frame_put|intros; apply frame_solicit]. Qed.

Lemma frame_timer_other now ip' : ip' ≠ ip → frame (timer_fired now ip').
Proof.
  intros Hne. apply frame_table. intros t _. destruct (neighs t !! ip') as [n|]; [|apply frame_ret]. cbv zeta. destruct (negb _); [by apply frame_put|]. destruct (timer_state _ _ _) as [n' next].
  destruct (_ && _); (apply frame_bind; [by apply frame_put|intros _]).
  - apply frame_neigh. intros [n2|] _; [|apply frame_ret]. apply frame_bind; [by apply frame_put|intros; apply frame_errors].
  - destruct (probing _); [by apply frame_probe_other|apply frame_ret].
Qed.

Lemma frame_update_other now ip' ha' new overr : ip' ≠ ip → frame (update now ip' ha' new overr).
Proof.
  intros Hne. apply frame_table. intros t _. destruct (neighs t !! ip') as [n|]; [|apply frame_ret]. destruct (update_neigh _ _ _ _ _ _) as [n' q].
  apply frame_bind; [by apply frame_put|intros; apply frame_send].
Qed.
End frame.

(** ** An entry that waits for an answer *)

(** [p] requests counted, the next one at [d]. *)
Definition asking (p d : Z) (o : option Neighbour) : Prop :=
  ∃ n, o = Some n ∧ nud n = Incomplete ∧ probes n = p ∧ timer n = Some d.

(** No packet waits. *)
Definition emptied (o : option Neighbour) : Prop := ∀ n, o = Some n → nud n = Failed ∧ queue n = [].

Section asked.
Context (ip : ip4) (p d : Z).
Notation keeps := (frame ip (asking p d)).

Lemma keeps_forced_gc now : keeps (forced_gc now).
Proof.
  apply frame_table. intros t (n & Hn & _ & _ & Ht). cbv zeta. set (vs := take _ _). assert (ip ∉ vs) as Hv.
  { unfold vs. intros (i & Hin & _)%elem_of_take. apply list_elem_of_lookup_2, list_elem_of_fmap in Hin as ([ip' n'] & E & Hin). cbn in E. subst ip'.
    apply list_elem_of_filter in Hin as [Hvic Hin%elem_of_btree_iter]. cbn in *. rewrite Hn in Hin. injection Hin as <-. unfold victim in Hvic. rewrite Ht in Hvic.
    apply andb_true_iff in Hvic as [[_ H%bool_decide_eq_true]%andb_true_iff _]. done. }
  apply frame_bind; [|intros; apply frame_ret]. clearbody vs. intros [t' o] H. cbn in *. clear Hn Ht. revert t' H. generalize (neighs (P := P)). intros f t'. generalize (f t'). clear f t'.
  induction vs as [|v vs IH]; intros m H; [done|]. cbn. apply not_elem_of_cons in Hv as [Hne Hv]. apply IH; [done|]. by rewrite lookup_delete_ne.
Qed.

Lemma keeps_create now ip' : keeps (create now ip').
Proof.
  apply frame_table. intros t (n & Hn & _). case_bool_decide as Hin; [apply frame_ret|]. assert (ip' ≠ ip) as Hne by (intros ->; apply Hin; rewrite Hn; eauto).
  cbv zeta. apply frame_bind.
  - destruct (_ || _); [|apply frame_ret]. apply frame_bind; [apply keeps_forced_gc|intros; apply frame_ret].
  - intros [|]; [apply frame_ret|]. apply frame_bind; [by apply frame_put|intros; apply frame_ret].
Qed.

Lemma keeps_event_send now ip' q : keeps (event_send truesize now ip' q).
Proof.
  apply frame_neigh. intros o Ho. destruct o as [n|]; [|apply frame_ret]. destruct (decide (ip' = ip)) as [->|Hne].
  - destruct (Ho eq_refl) as (n' & [= <-] & Hs & Hp & Ht). rewrite Hs. unfold begin_send. rewrite Hs. apply frame_bind; [|intros; by apply frame_ret].
    rewrite Hs. destruct q as [q|].
    + destruct (make_room _ _ _ _ _) as [[? ?] ?]. apply frame_bind; [apply frame_put; intros _; by eexists|intros]. apply frame_bind; [by apply frame_on_table|intros; apply frame_ret].
    + apply frame_bind; [apply frame_put; intros _; by eexists|intros; apply frame_ret].
  - assert (∀ b : bool, keeps (if b then probe ip' else mret tt)) as Hpr by (intros []; [by apply frame_probe_other|apply frame_ret]).
    assert (∀ n' (q' : option P), keeps (_ ← put_neigh ip' n'; mret q')) as Hput by (intros; apply frame_bind; [by apply frame_put|intros; apply frame_ret]).
    assert (∀ n' (b : bool), keeps (now_p ← (match nud n', q with
        | Incomplete, Some p => let '(q, b, d) := make_room truesize (queue n') (queue_bytes n') (truesize p) 0 in
            _ ← put_neigh ip' (set_queue n' (q ++ [p]) (u64 (b + truesize p))); _ ← on_table (λ t, add_drops t d); mret None
        | Incomplete, None => _ ← put_neigh ip' n'; mret None | _, _ => _ ← put_neigh ip' n'; mret q end);
        _ ← (if b : bool then probe ip' else mret tt); mret now_p)) as Hrest.
    { intros n' b. apply frame_bind; [|intros; apply frame_bind; [apply Hpr|intros; apply frame_ret]]. destruct (nud n'), q; try apply Hput.
      destruct (make_room _ _ _ _ _) as [[? ?] ?]. apply frame_bind; [by apply frame_put|intros]. apply frame_bind; [by apply frame_on_table|intros; apply frame_ret]. }
    destruct (begin_send n now) as [n' b]. destruct (nud n); try apply frame_ret; apply Hrest.
Qed.

Lemma keeps_output now ip' q : keeps (output truesize now ip' q).
Proof.
  apply frame_bind; [apply keeps_create|]. intros [|]; [|by apply frame_on_table]. cbn [negb]. apply frame_neigh. intros o Ho. apply frame_of_opt. intros n ->.
  destruct (connected _); [apply frame_send|]. apply frame_bind.
  { apply frame_put. intros E. destruct (Ho E) as (n' & [= <-] & Hn). by exists (set_used n now). }
  intros _. apply frame_bind; [apply keeps_event_send|]. intros [r|]; [|apply frame_ret]. apply frame_neigh. intros o _. apply frame_of_opt. intros n' _. apply frame_send.
Qed.

Lemma keeps_resolve now ip' : keeps (resolve truesize now ip').
Proof.
  apply frame_bind; [apply keeps_create|]. intros [|]; [|apply frame_ret]. cbn [negb]. apply frame_neigh. intros o _. apply frame_of_opt. intros n _.
  apply frame_bind; [apply keeps_event_send|]. intros _. apply frame_neigh. intros; apply frame_ret.
Qed.

Lemma keeps_arp now arp to_us our_ip : (∀ a, arp_parse arp = Ok (Some a) → a_sip a ≠ ip) → keeps (arp_input now arp to_us our_ip).
Proof.
  intros Hne. unfold arp_input. destruct (arp_parse arp) as [[a|]| |] eqn:E; try by intros s H. specialize (Hne a eq_refl).
  intros s H. change ((of_res (Ok (Some a)) ≫= ?k) s) with (k (Some a) s). revert s H. cbv beta iota zeta.
  match goal with |- ∀ s, _ → asking _ _ (neighs (?m s).2.1 !! _) => change (keeps m) end.
  destruct (_ || is_loopback _); [apply frame_ret|]. case_bool_decide; [apply frame_ret|].
  match goal with |- context [if ?c && negb ?e then _ else _] => destruct (c && negb e) end.
  - apply frame_bind; [apply keeps_create|]. intros b. apply frame_bind; [|intros; apply frame_ret]. destruct b; [by apply frame_update_other|apply frame_ret].
  - apply frame_neigh. intros [n|] _; [|apply frame_ret]. apply frame_bind; [by apply frame_update_other|intros; apply frame_ret].
Qed.
End asked.

(** ** Timers *)
Lemma frame_periodic ip (holds : option Neighbour → Prop) now rnd :
  (∀ n, holds (Some n) → in_timer (nud n) = true ∨ holds None ∧ ∀ u, holds (Some (set_used n u))) → frame ip holds (periodic now rnd).
Proof.
  intros Hh. apply frame_table. intros t _. apply frame_bind; [destruct (_ || _); [by apply frame_on_table|apply frame_ret]|]. intros _. destruct (_ <? _); [apply frame_ret|].
  intros s H. cbn. rewrite lookup_omap. destruct (neighs s.1 !! ip) as [n|]; [|done]. cbn. destruct (Hh n H) as [->|[Hnone Hu]]; [done|].
  destruct (in_timer (nud n)); [done|]. set (n' := if _ && _ then _ else _). assert (holds (Some n')) as H' by (unfold n'; destruct (_ && _); auto). by destruct (_ || _).
Qed.

Lemma asking_periodic ip p d now rnd : frame ip (asking p d) (periodic now rnd).
Proof. apply frame_periodic. intros n (n' & [= <-] & Hs & _). left. by rewrite Hs. Qed.

Lemma emptied_periodic ip now rnd : frame ip emptied (periodic now rnd).
Proof. apply frame_periodic. intros n Hn. right. destruct (Hn n eq_refl). split; [done|]. intros u n' [= <-]. done. Qed.

Lemma wp_periodic ip (A : option Neighbour → Prop) now rnd s : frame ip A (periodic now rnd) → A (neighs s.1 !! ip) →
  wp (periodic now rnd) (λ r s', r = Ok tt ∧ A (neighs s'.1 !! ip)) s.
Proof.
  intros Hf Ha. specialize (Hf s Ha). unfold wp. assert (∃ s', periodic now rnd s = (Ok tt, s')) as [s' E]; [|by rewrite E in *].
  unfold periodic, mbind, M_bind, table. destruct (_ || _); cbn; destruct (_ <? _); by eexists.
Qed.

Lemma timer_fired_total now ip (s : @St P) : ∃ s', timer_fired now ip s = (Ok tt, s').
Proof.
  unfold timer_fired, mbind, M_bind, table. destruct (neighs s.1 !! ip) as [n|]; [|by eexists]. cbv zeta. destruct (negb _); [by eexists|]. destruct (timer_state _ _ _) as [n' next].
  unfold invalidate, probe, neigh, mbind, M_bind, table. destruct (_ && _); cbn.
  - rewrite lookup_insert_eq. by eexists.
  - destruct (probing _); [|by eexists]. cbn. rewrite lookup_insert_eq. by eexists.
Qed.

(** What the expiry of an asking entry leaves. *)
Definition asked_again (p now : Z) : option Neighbour → Prop := if 6 <=? p then emptied else asking (p + 1) (now + 100).

Lemma timer_fires ip p d now (s : @St P) : asking p d (neighs s.1 !! ip) → 0 ≤ p ≤ 6 → 0 ≤ now → now + 100 < 2 ^ 64 →
  asked_again p now (neighs (timer_fired now ip s).2.1 !! ip).
Proof.
  intros (n & Hn & Hs & Hp & Ht) Hr H0 Hnow. unfold timer_fired, mbind, M_bind, table. rewrite Hn. cbv zeta. unfold timer_state. cbn [nud set_timer probes]. rewrite Hs. cbn [in_timer negb probing andb].
  cbn [nud set_timer probes]. rewrite Hs, Hp. unfold asked_again. change (max_probes Incomplete) with 6. change (HZ / 100) with 1. change (Z.max RETRANS_TIME 1) with 100. rewrite !wrap_small by (unfold fits; lia).
  destruct (Z.leb_spec 6 p); cbn [andb probing in_timer].
  - unfold invalidate, neigh, mbind, M_bind, table, put_neigh, on_table. cbn [fst snd neighs set_neighs]. rewrite lookup_insert_eq. cbn. rewrite lookup_insert_eq. intros n' [= <-]. done.
  - unfold probe, neigh, mbind, M_bind, table, put_neigh, on_table. cbn [fst snd neighs set_neighs]. rewrite lookup_insert_eq. unfold push_solicit, mret, M_ret. cbn [fst snd neighs set_neighs]. rewrite lookup_insert_eq.
    eexists. split; [done|]. cbn [nud probes timer set_probes set_timer]. rewrite Hp, wrap_small by (unfold fits; lia). split_and!; [done|done|]. f_equal. lia.
Qed.

Lemma wp_timer_other (A : option Neighbour → Prop) now ip ip' (s : @St P) : ip' ≠ ip → A (neighs s.1 !! ip) →
  wp (timer_fired now ip') (λ r s', r = Ok tt ∧ A (neighs s'.1 !! ip)) s.
Proof. intros Hne Ha. pose proof (frame_timer_other ip A now ip' Hne s Ha) as Hf. unfold wp. destruct (timer_fired_total now ip' s) as [s1 E]. by rewrite E in *. Qed.

Lemma wp_timers_other (A : option Neighbour → Prop) now ip (l : list (ip4 * Neighbour)) : ip ∉ l.*1 → ∀ s, A (neighs s.1 !! ip) →
  wp (mapM (λ x, timer_fired now x.1) l) (λ r s', (∃ us, r = Ok us) ∧ A (neighs s'.1 !! ip)) s.
Proof.
  induction l as [|x l IH]; intros Hni s Ha; cbn [mapM]; [split; [by eexists|done]|]. rewrite fmap_cons in Hni. apply not_elem_of_cons in Hni as [Hne Hni].
  apply wp_bind. eapply wp_mono; [apply (wp_timer_other A); [exact (not_eq_sym Hne)|done]|]. intros r s1 [-> H1]. apply wp_bind. eapply wp_mono; [by apply IH|].
  intros r s2 [[us ->] H2]. apply wp_ret. eauto.
Qed.

(** A round of expiries passes over [ip] once. *)
Lemma timers_fire ip p d now (l : list (ip4 * Neighbour)) : NoDup l.*1 → 0 ≤ p ≤ 6 → 0 ≤ now → now + 100 < 2 ^ 64 → ∀ s, asking p d (neighs s.1 !! ip) →
  wp (mapM (λ x, timer_fired now x.1) l) (λ r s', (∃ us, r = Ok us) ∧ (if decide (ip ∈ l.*1) then asked_again p now else asking p d) (neighs s'.1 !! ip)) s.
Proof.
  intros Hd Hp H0 Hnow. induction l as [|x l IH]; intros s Ha; [split; [by eexists|done]|]. rewrite fmap_cons in *. apply NoDup_cons in Hd as [Hx Hd]. cbn [mapM].
  destruct (decide (x.1 = ip)) as [Ex|Hne].
  - rewrite decide_True by (rewrite Ex; left). apply wp_bind. rewrite Ex in *. pose proof (timer_fires ip p d now s Ha Hp H0 Hnow) as Hf. destruct (timer_fired_total now ip s) as [s1 E].
    unfold wp at 1. rewrite E in *. apply wp_bind. eapply wp_mono; [by apply (wp_timers_other (asked_again p now))|]. intros r s2 [[us ->] H2]. apply wp_ret. eauto.
  - apply wp_bind. eapply wp_mono; [by apply (wp_timer_other (asking p d))|]. intros r s1 [-> H1]. apply wp_bind. eapply wp_mono; [by apply (IH Hd)|]. intros r s2 [[us ->] H2].
    apply wp_ret. split; [eauto|]. destruct (decide (ip ∈ l.*1)); [rewrite decide_True by (by right)|rewrite decide_False by (by rewrite elem_of_cons; intros [->|])]; done.
Qed.

Lemma tick_asking ip p d now rnd (s : @St P) : asking p d (neighs s.1 !! ip) → 0 ≤ p ≤ 6 → 0 ≤ now → now + 100 < 2 ^ 64 →
  wp (tick now rnd) (λ r s', r = Ok tt ∧ (if d <=? now then asked_again p now else asking p d) (neighs s'.1 !! ip)) s.
Proof.
  intros Ha Hp H0 Hnow. unfold tick. apply wp_bind. unfold wp at 1, table. apply wp_bind. set (l := filter _ _).
  assert (NoDup l.*1) as Hd by (eapply sublist_NoDup; [apply (btree_iter_nodup (neighs s.1))|]; apply fmap_sublist, sublist_filter).
  assert (ip ∈ l.*1 ↔ d ≤ now) as Hin.
  { destruct Ha as (n & Hn & _ & _ & Ht). rewrite list_elem_of_fmap. unfold l. split.
    - intros ([ip' n'] & -> & [Hdue Hin%elem_of_btree_iter]%list_elem_of_filter). cbn in *. rewrite Hn in Hin. injection Hin as <-. unfold due in Hdue. rewrite Ht in Hdue. lia.
    - intros Hle. exists (ip, n). split; [done|]. apply list_elem_of_filter. rewrite elem_of_btree_iter. split; [|done]. cbn. unfold due. rewrite Ht. lia. }
  eapply wp_mono; [by apply (timers_fire ip p d now l Hd)|]. clearbody l. intros r s1 [[us ->] H1]. apply wp_bind. unfold wp at 1, table.
  assert ((if d <=? now then asked_again p now else asking p d) (neighs s1.1 !! ip)) as H2.
  { destruct (Z.leb_spec d now); [rewrite decide_True in H1 by tauto|rewrite decide_False in H1 by (rewrite Hin; lia)]; done. }
  destruct (next_gc s1.1 <=? now); [|by apply wp_ret]. apply wp_bind. eapply (wp_mono _ (λ r s', r = Ok tt ∧ (if d <=? now then asked_again p now else asking p d) (neighs s'.1 !! ip))).
  - apply wp_periodic; [|done]. unfold asked_again. destruct (d <=? now), (6 <=? p); auto using asking_periodic, emptied_periodic.
  - intros r s2 [-> H3]. by unfold wp, on_table.
Qed.

(** ** Calls while nothing is heard of [ip] *)

(** [c] is not an ARP packet from [ip], nor a tick at [d] or later. *)
Definition quiet (ip : ip4) (d : Z) (c : @call P) : Prop :=
  ip ∉ (announced c).*1 ∧ match c with Tick now _ => 0 ≤ now < d | _ => True end.

Lemma frame_exec ip p d c : quiet ip d c → 0 ≤ p ≤ 6 → d + 100 < 2 ^ 64 → frame ip (asking p d) (exec truesize c).
Proof.
  intros [Hni Ht] Hp Hd. destruct c as [now ip' q|now ip'|now rnd|now arp to_us our_ip]; cbn [exec].
  - apply keeps_output.
  - apply frame_bind; [apply keeps_resolve|intros; apply frame_ret].
  - intros s Ha. pose proof (tick_asking ip p d now rnd s Ha Hp) as H. unfold wp in H. destruct (tick now rnd s) as [r s']. destruct H as [_ H]; [lia..|].
    destruct (Z.leb_spec d now); [lia|done].
  - apply frame_bind; [|intros; apply frame_ret]. apply keeps_arp. intros a E. unfold announced in Hni. rewrite E in Hni. cbn in Hni. set_solver.
Qed.

Lemma frame_run ip p d cs : Forall (quiet ip d) cs → 0 ≤ p ≤ 6 → d + 100 < 2 ^ 64 → frame ip (asking p d) (run truesize cs).
Proof. intros Hq Hp Hd. induction Hq as [|c cs Hc Hq IH]; cbn [run]; [apply frame_ret|]. apply frame_bind; [by apply frame_exec|by intros]. Qed.

(** ** The run *)
Section silence.
Context (truesize_range : ∀ p, 0 ≤ truesize p < 2 ^ 32).

Definition sound (s : @St P) : Prop := ∃ seen given, account truesize seen given [] s.

Lemma run_sound cs s (A : @St P → Prop) : sound s → (∀ s', sound s' → s' = (run truesize cs s).2 → A s') → wp (run truesize cs) (λ r s', r = Ok tt ∧ sound s' ∧ A s') s.
Proof.
  intros (seen & given & Ha) HA. pose proof (neigh_run_spec truesize truesize_range cs seen given s Ha) as H. unfold wp in *. destruct (run truesize cs s) as [r s']. destruct H as [-> Ha'].
  assert (sound s') as Hs by (by eexists _, _). split_and!; [done|done|]. by apply HA.
Qed.

Lemma wp_run_app cs cs' (Q : res unit unit → @St P → Prop) s :
  wp (run truesize cs) (λ r s', r = Ok tt ∧ wp (run truesize cs') Q s') s → wp (run truesize (cs ++ cs')) Q s.
Proof.
  revert s. induction cs as [|c cs IH]; intros s; cbn [run app]; [by intros [_ H]|]. intros H. apply wp_bind. unfold wp in *. unfold mbind, M_bind in H.
  destruct (exec truesize c s) as [[[]| |] s1]; [by apply IH|by destruct H..].
Qed.

Lemma wp_run_quiet ip p d cs cs' (Q : res unit unit → @St P → Prop) s : sound s → asking p d (neighs s.1 !! ip) → Forall (quiet ip d) cs → 0 ≤ p ≤ 6 → d + 100 < 2 ^ 64 →
  (∀ s', sound s' → asking p d (neighs s'.1 !! ip) → wp (run truesize cs') Q s') → wp (run truesize (cs ++ cs')) Q s.
Proof.
  intros Hs Ha Hq Hp Hd Hk. apply wp_run_app. eapply wp_mono; [apply (run_sound cs s (λ s', asking p d (neighs s'.1 !! ip)) Hs)|].
  - intros s' _ ->. by apply frame_run.
  - intros r s' (-> & Hs' & Ha'). auto.
Qed.

Lemma wp_run_tick ip p d now rnd cs (Q : res unit unit → @St P → Prop) s : sound s → asking p d (neighs s.1 !! ip) → 0 ≤ p ≤ 6 → 0 ≤ now → d ≤ now → now + 100 < 2 ^ 64 →
  (∀ s', sound s' → asked_again p now (neighs s'.1 !! ip) → wp (run truesize cs) Q s') → wp (run truesize (Tick now rnd :: cs)) Q s.
Proof.
  intros (seen & given & Hs) Ha Hp H0 Hd Hnow Hk. cbn [run exec]. apply wp_bind. pose proof (tick_spec truesize truesize_range seen given s now rnd Hs) as H1. pose proof (tick_asking ip p d now rnd s Ha Hp H0 Hnow) as H2.
  unfold wp in *. destruct (tick now rnd s) as [r s']. destruct H1 as [-> H1], H2 as [_ H2]. destruct (Z.leb_spec d now); [|lia]. apply Hk; [by eexists _, _|done].
Qed.

(** The first packet for a next hop without an entry asks for it. *)
Lemma create_new ip t0 (s : @St P) : neighs s.1 !! ip = None → Z.of_nat (size (neighs s.1)) < GC_THRESH2 →
  wp (create t0 ip) (λ r s', r = Ok true ∧ neighs s'.1 !! ip = Some (fresh t0)) s.
Proof.
  intros Hn Hsz. unfold create. apply wp_bind. unfold wp at 1, table. rewrite bool_decide_false by (rewrite Hn; by intros []). cbv zeta.
  destruct (Z.leb_spec GC_THRESH3 (Z.of_nat (size (neighs s.1)))); [unfold GC_THRESH2, GC_THRESH3 in *; lia|]. destruct (Z.leb_spec GC_THRESH2 (Z.of_nat (size (neighs s.1)))); [lia|]. cbn [andb orb].
  apply wp_bind, wp_ret, wp_bind. unfold wp at 1, put_neigh, on_table. apply wp_ret. split; [done|]. cbn. apply lookup_insert_eq.
Qed.

Lemma event_send_asks ip t0 q n (s : @St P) : neighs s.1 !! ip = Some n → nud n = NudNone → 0 ≤ t0 → t0 + 100 < 2 ^ 64 →
  wp (event_send truesize t0 ip (Some q)) (λ r s', r = Ok None ∧ asking 4 (t0 + 100) (neighs s'.1 !! ip)) s.
Proof.
  intros Hn Hs H0 Ht. unfold event_send. apply wp_bind. eapply wp_mono; [apply neigh_spec|]. intros r ? [-> ->]. rewrite Hn, Hs. unfold begin_send. rewrite Hs. cbn [nud set_timer set_state set_probes].
  change (Z.max RETRANS_TIME (HZ / 100)) with 100. rewrite (wrap_small _ (t0 + 100)) by (unfold fits; lia). destruct (make_room _ _ _ _ _) as [[q' bytes] dr]. apply wp_bind, wp_bind.
  unfold wp at 1, put_neigh, on_table. apply wp_bind. unfold wp at 1. apply wp_ret, wp_bind. unfold probe. apply wp_bind. eapply wp_mono; [apply neigh_spec|]. intros r ? [-> ->].
  cbn [fst snd neighs set_neighs add_drops]. rewrite lookup_insert_eq. cbv zeta. apply wp_bind. unfold wp at 1, put_neigh, on_table. unfold wp at 1, push_solicit. apply wp_ret. split; [done|].
  cbn [fst snd neighs set_neighs add_drops]. rewrite lookup_insert_eq. by eexists.
Qed.

Lemma wp_run_output ip t0 q cs (Q : res unit unit → @St P → Prop) s : sound s → neighs s.1 !! ip = None → Z.of_nat (size (neighs s.1)) < GC_THRESH2 → 0 ≤ t0 → t0 + 100 < 2 ^ 64 →
  (∀ s', sound s' → asking 4 (t0 + 100) (neighs s'.1 !! ip) → wp (run truesize cs) Q s') → wp (run truesize (Output t0 ip q :: cs)) Q s.
Proof.
  intros (seen & given & Hs) Hn Hsz H0 Ht Hk. cbn [run exec]. apply wp_bind. pose proof (output_spec truesize truesize_range seen given s t0 ip q Hs) as H1.
  assert (wp (output truesize t0 ip q) (λ r s', asking 4 (t0 + 100) (neighs s'.1 !! ip)) s) as H2.
  { unfold output. apply wp_bind. eapply wp_mono; [by apply create_new|]. intros r s1 [-> H3]. cbn [negb]. apply wp_bind. eapply wp_mono; [apply neigh_spec|]. intros r ? [-> ->].
    apply wp_bind. eapply wp_of_opt; [done|]. change (connected (nud (fresh t0))) with false. apply wp_bind. unfold wp at 1, put_neigh, on_table. apply wp_bind.
    eapply wp_mono; [apply (event_send_asks ip t0 q (set_used (fresh t0) t0)); [cbn; by rewrite lookup_insert_eq|done..]|]. intros r s2 [-> H4]. by apply wp_ret. }
  unfold wp in *. destruct (output truesize t0 ip q s) as [r s']. destruct H1 as [-> H1]. apply Hk; [by eexists _, _|done].
Qed.

Lemma run_gives_up ip q a b c t0 t1 t2 t3 r1 r2 r3 s : sound s → neighs s.1 !! ip = None → Z.of_nat (size (neighs s.1)) < GC_THRESH2 →
  0 ≤ t0 → t0 + 100 ≤ t1 → t1 + 100 ≤ t2 → t2 + 100 ≤ t3 → t3 + 100 < 2 ^ 64 → Forall (quiet ip (t0 + 100)) a → Forall (quiet ip (t1 + 100)) b → Forall (quiet ip (t2 + 100)) c →
  wp (run truesize (Output t0 ip q :: a ++ Tick t1 r1 :: b ++ Tick t2 r2 :: c ++ [Tick t3 r3])) (λ r s', r = Ok tt ∧ emptied (neighs s'.1 !! ip)) s.
Proof.
  intros Hs Hn Hsz H0 H1 H2 H3 H4 Ha Hb Hc. apply (wp_run_output ip); [done..|lia|]. clear s Hs Hn Hsz. intros s Hs Hq.
  apply (wp_run_quiet ip 4 (t0 + 100)); [done..|lia|lia|]. clear s Hs Hq. intros s Hs Hq. apply (wp_run_tick ip 4 (t0 + 100)); [done|done|lia..|]. clear s Hs Hq. intros s Hs Hq.
  apply (wp_run_quiet ip 5 (t1 + 100)); [done..|lia|lia|]. clear s Hs Hq. intros s Hs Hq. apply (wp_run_tick ip 5 (t1 + 100)); [done|done|lia..|]. clear s Hs Hq. intros s Hs Hq.
  apply (wp_run_quiet ip 6 (t2 + 100)); [done..|lia|lia|]. clear s Hs Hq. intros s Hs Hq. apply (wp_run_tick ip 6 (t2 + 100)); [done|done|lia..|]. clear s Hs Hq. intros s Hs Hq.
  by apply wp_ret.
Qed.

Lemma filter_none {A} (R : A → Prop) `{!∀ x, Decision (R x)} (l : list A) : (∀ x, x ∈ l → ¬ R x) → filter R l = [].
Proof. induction l as [|x l IH]; intros Hl; [done|]. rewrite filter_cons_False by (apply Hl; left). apply IH. intros y Hy. apply Hl. by right. Qed.

(** What waits for one next hop. *)
Lemma waiting_none (ip : ip4) (m : gmap (list byte) Neighbour) : emptied (m !! ip) → filter (λ x, x.1 = ip) (waiting m) = [].
Proof.
  intros He. apply filter_none. intros x ([ip' n] & Hx & Hin%elem_of_map_to_list)%list_elem_of_bind E'. unfold waits in Hx. cbn in Hx. apply list_elem_of_fmap in Hx as (q & -> & Hq). cbn in E'. subst ip'.
  destruct (He n Hin) as [_ E]. rewrite E in Hq. by apply not_elem_of_nil in Hq.
Qed.

End silence.
End live.

(** ** A silent next hop *)
Definition ex_live : list (@call Z) := [Output 20 ex_us 5; Tick 50 0].

