(* ===== verification/DhcpMessage.v ===== *)
(** * DHCP messages ([net/src/dhcp/message.rs])

    The BOOTP header and its options: every instance of a code is kept, PAD and END
    delimit them, and [file] and [sname] carry options when option 52 says so. *)

From S2P Require Import Prelude Bytes NetBytes.

Module message.

Definition BOOTREQUEST := 1.
Definition BOOTREPLY := 2.
Definition ARPHRD_ETHER := 1.
Definition HEADER_LEN := 240.
Definition BOOTP_MESSAGE_SIZE := 236 + 64.
Definition UDP_PAYLOAD_MAX_SIZE := 65535 - 20 - 8.
Definition MAGIC_COOKIE : list byte := byte_of <$> [99; 130; 83; 99].
Definition MAX_ENTRIES := 4096.
Definition OPT_PAD := 0.
Definition OPT_END := 255.
Definition OPT_OVERLOAD := 52.
Definition OVERLOAD_FILE := 1.
Definition OVERLOAD_SNAME := 2.

Record Message := {
  op : Z; htype : Z; hlen : Z; xid : Z; secs : Z; flags : Z;
  ciaddr : ip4; yiaddr : ip4; siaddr : ip4; giaddr : ip4;
  chaddr : list byte; sname : list byte; file : list byte;
  magic : bool;
  options : gmap Z (list (list byte));
  entries : Z }.

Inductive Error := BadMsg | TooBig.

Definition set_options (m : Message) (o : gmap Z (list (list byte))) (n : Z) : Message :=
  {| op := op m; htype := htype m; hlen := hlen m; xid := xid m; secs := secs m; flags := flags m; ciaddr := ciaddr m; yiaddr := yiaddr m; siaddr := siaddr m; giaddr := giaddr m;
     chaddr := chaddr m; sname := sname m; file := file m; magic := magic m; options := o; entries := n |}.
Definition set_names (m : Message) (s f : list byte) : Message :=
  {| op := op m; htype := htype m; hlen := hlen m; xid := xid m; secs := secs m; flags := flags m; ciaddr := ciaddr m; yiaddr := yiaddr m; siaddr := siaddr m; giaddr := giaddr m;
     chaddr := chaddr m; sname := s; file := f; magic := magic m; options := options m; entries := entries m |}.
Definition set_secs (m : Message) (s : Z) : Message :=
  {| op := op m; htype := htype m; hlen := hlen m; xid := xid m; secs := s; flags := flags m; ciaddr := ciaddr m; yiaddr := yiaddr m; siaddr := siaddr m; giaddr := giaddr m;
     chaddr := chaddr m; sname := sname m; file := file m; magic := magic m; options := options m; entries := entries m |}.
Definition set_ciaddr (m : Message) (a : ip4) : Message :=
  {| op := op m; htype := htype m; hlen := hlen m; xid := xid m; secs := secs m; flags := flags m; ciaddr := a; yiaddr := yiaddr m; siaddr := siaddr m; giaddr := giaddr m;
     chaddr := chaddr m; sname := sname m; file := file m; magic := magic m; options := options m; entries := entries m |}.

Definition zeros (n : nat) : list byte := replicate n x00.

Definition new (op xid : Z) (hw : mac) : Message :=
  {| op := op; htype := ARPHRD_ETHER; hlen := 6; xid := xid; secs := 0; flags := 0; ciaddr := zero4; yiaddr := zero4; siaddr := zero4; giaddr := zero4;
     chaddr := hw ++ zeros 10; sname := zeros 64; file := zeros 128; magic := true; options := ∅; entries := 0 |}.

Definition set_broadcast_flag (m : Message) (b : bool) : Message :=
  {| op := op m; htype := htype m; hlen := hlen m; xid := xid m; secs := secs m;
     flags := if b then Z.lor (flags m) 0x8000 else Z.land (flags m) (0xffff - 0x8000);
     ciaddr := ciaddr m; yiaddr := yiaddr m; siaddr := siaddr m; giaddr := giaddr m;
     chaddr := chaddr m; sname := sname m; file := file m; magic := magic m; options := options m; entries := entries m |}.

Definition has_option (m : Message) (code : Z) : bool := bool_decide (is_Some (options m !! code)).

(** ** Options *)
Definition append_impl (m : Message) (code : Z) (data : list byte) : res Error Message :=
  if MAX_ENTRIES <=? entries m then Err TooBig else
  mret (set_options m (<[code := default [] (options m !! code) ++ [data]]> (options m)) (entries m + 1)).

(** [while rest.len() > 255], in at most as many rounds as there are bytes. *)
Fixpoint append_loop (fuel : nat) (m : Message) (code : Z) (rest : list byte) : res Error Message :=
  match fuel with
  | S fuel =>
      if 255 <? zlen rest then m ← append_impl m code (take 255 rest); append_loop fuel m code (drop 255 rest)
      else append_impl m code rest
  | O => append_impl m code rest
  end.
Definition append_option (m : Message) (code : Z) (data : list byte) : res Error Message :=
  if (code =? OPT_PAD) || (code =? OPT_END) then Err BadMsg else append_loop (length data) m code data.

Definition option_exact (m : Message) (code len : Z) : option (list byte) :=
  match options m !! code with Some all => head (filter (λ v, zlen v = len) all) | None => None end.
Definition option_all (m : Message) (code : Z) : option (list byte) :=
  match options m !! code with Some all => Some (mjoin all) | None => None end.
Definition option_u8 (m : Message) (code : Z) : option Z := of_be <$> option_exact m code 1.
Definition option_u16 (m : Message) (code : Z) : option Z := of_be <$> option_exact m code 2.
Definition option_addr (m : Message) (code : Z) : option ip4 := option_exact m code 4.

(** [v.chunks(4)] of a multiple of four bytes. *)
Fixpoint quads (v : list byte) : list ip4 :=
  match v with
  | a :: b :: c :: d :: v => [a; b; c; d] :: quads v
  | _ => []
  end.
Definition option_addresses (m : Message) (code : Z) : res Error (option (list ip4)) :=
  match option_all m code with
  | None => mret None
  | Some v => if negb (zlen v `mod` 4 =? 0) then Err BadMsg else if zlen v =? 0 then mret None else mret (Some (quads v))
  end.

(** [while !b.is_empty()]: every round takes a byte at least. *)
Fixpoint options_loop (fuel : nat) (m : Message) (b : list byte) : res Error Message :=
  match fuel, b with
  | S fuel, code :: b =>
      if bval code =? OPT_PAD then options_loop fuel m b
      else if bval code =? OPT_END then mret m
      else match b with
           | [] => Err BadMsg
           | len :: b =>
               if zlen b <? bval len then Err BadMsg else
               m ← append_impl m (bval code) (take (Z.to_nat (bval len)) b);
               options_loop fuel m (drop (Z.to_nat (bval len)) b)
           end
  | _, _ => mret m
  end.
Definition parse_options (m : Message) (b : list byte) : res Error Message := options_loop (length b) m b.

(** ** Parsing *)
Definition parse (b : list byte) (op_ : Z) (xid_ : option Z) (hw : option mac) : res Error Message :=
  if (zlen b <? HEADER_LEN) || (UDP_PAYLOAD_MAX_SIZE <? zlen b) then Err BadMsg else
  b0 ← u8_at b 0;
  if negb (b0 =? BOOTREQUEST) && negb (b0 =? BOOTREPLY) then Err BadMsg else
  if negb (op_ =? 0) && negb (b0 =? op_) then Err BadMsg else
  x ← unwrap (sub b 4 4); let mxid := of_be x in
  if match xid_ with Some x => negb (x =? mxid) | None => false end then Err BadMsg else
  b1 ← u8_at b 1;
  if negb (b1 =? ARPHRD_ETHER) then Err BadMsg else
  hl ← u8_at b 2;
  if 16 <? hl then Err BadMsg else
  ha ← unwrap (sub b 28 hl);
  if match hw with Some h => negb (bool_decide (ha = h)) | None => false end then Err BadMsg else
  sc ← be16_at b 8; fl ← be16_at b 10;
  ci ← unwrap (sub b 12 4); yi ← unwrap (sub b 16 4); si ← unwrap (sub b 20 4); gi ← unwrap (sub b 24 4);
  ch ← unwrap (sub b 28 16); sn ← unwrap (sub b 44 64); fi ← unwrap (sub b 108 128); mg ← unwrap (sub b 236 4);
  let m := {| op := b0; htype := b1; hlen := hl; xid := mxid; secs := sc; flags := fl; ciaddr := ci; yiaddr := yi; siaddr := si; giaddr := gi;
              chaddr := ch; sname := sn; file := fi; magic := bool_decide (mg = MAGIC_COOKIE); options := ∅; entries := 0 |} in
  if negb (magic m) then mret m else
  rest ← unwrap (sub b HEADER_LEN (zlen b - HEADER_LEN));
  m ← parse_options m rest;
  let overload := default 0 (option_u8 m OPT_OVERLOAD) in
  m ← (if negb (Z.land overload OVERLOAD_FILE =? 0) then m ← parse_options m (file m); mret (set_names m (sname m) (zeros 128)) else mret m);
  if negb (Z.land overload OVERLOAD_SNAME =? 0) then m ← parse_options m (sname m); mret (set_names m (zeros 64) (file m)) else mret m.

(** ** Building *)
Definition put_option (code : Z) (v : list byte) : list byte := byte_of code :: byte_of (zlen v) :: v.
Definition put_options (o : gmap Z (list (list byte))) : list byte :=
  mjoin ((λ p : Z * list (list byte), mjoin (put_option p.1 <$> p.2)) <$> btree_iter o).
Definition header_bytes (m : Message) : list byte :=
  [byte_of (op m); byte_of (htype m); byte_of (hlen m); x00] ++ be32 (xid m) ++ be16 (secs m) ++ be16 (flags m) ++
  ciaddr m ++ yiaddr m ++ siaddr m ++ giaddr m ++ chaddr m ++ sname m ++ file m ++ (if magic m then MAGIC_COOKIE else zeros 4).

Definition build (m : Message) : res Error (list byte) :=
  let b := header_bytes m ++ put_options (options m) ++ [byte_of OPT_END] in
  if UDP_PAYLOAD_MAX_SIZE <? zlen b then Err TooBig else
  mret (b ++ zeros (Z.to_nat (BOOTP_MESSAGE_SIZE - zlen b))).

End message.

(** * What is built is parsed back

    A message whose fields fit the wire format, with option instances of at most 255
    bytes and no overload option, is read back exactly as it was built. *)
Import message.

(** ** Options *)
Lemma options_fuel f1 : ∀ f2 m b, (length b ≤ f1)%nat → (length b ≤ f2)%nat → options_loop f1 m b = options_loop f2 m b.
Proof.
  induction f1 as [|f1 IH]; intros f2 m b H1 H2; [destruct b; [by destruct f2|simpl in *; lia]|].
  destruct b as [|code b]; [by destruct f2|]. destruct f2 as [|f2]; [simpl in *; lia|]. cbn [options_loop].
  destruct (_ =? OPT_PAD); [apply IH; simpl in *; lia|]. destruct (_ =? OPT_END); [done|]. destruct b as [|len b]; [done|]. destruct (_ <? _); [done|].
  destruct (append_impl _ _ _) as [m'| |]; [|done..]. cbn [mbind res_bind]. apply IH; rewrite length_drop; simpl in *; lia.
Qed.

Lemma parse_options_put m code v rest : 0 < code < 255 → zlen v ≤ 255 →
  parse_options m (put_option code v ++ rest) = append_impl m code v ≫= λ m, parse_options m rest.
Proof.
  intros Hc Hv. unfold parse_options, put_option. cbn [app length]. remember (S (length (v ++ rest))) as f eqn:Ef. cbn [options_loop]. pose proof (zlen_nonneg v). rewrite !bval_byte_of, !Z.mod_small by lia.
  destruct (Z.eqb_spec code OPT_PAD) as [E|_]; [unfold OPT_PAD in E; lia|]. destruct (Z.eqb_spec code OPT_END) as [E|_]; [unfold OPT_END in E; lia|].
  destruct (Z.ltb_spec (zlen (v ++ rest)) (zlen v)) as [Hl|_]; [rewrite zlen_app in Hl; pose proof (zlen_nonneg rest); lia|].
  replace (Z.to_nat (zlen v)) with (length v) by (unfold zlen; lia). rewrite take_app_length, drop_app_length. destruct (append_impl m code v); [|done..]. cbn [mbind res_bind].
  apply options_fuel; rewrite ?Ef, ?length_app; lia.
Qed.

Lemma parse_options_instances code vs : ∀ m rest, 0 < code < 255 → Forall (λ v, zlen v ≤ 255) vs → vs ≠ [] → entries m + zlen vs ≤ MAX_ENTRIES →
  parse_options m (mjoin (put_option code <$> vs) ++ rest) =
  parse_options (set_options m (<[code := default [] (options m !! code) ++ vs]> (options m)) (entries m + zlen vs)) rest.
Proof.
  induction vs as [|v vs IH]; intros m rest Hc Hvs Hne Hn; [done|]. apply Forall_cons in Hvs as [Hv Hvs]. rewrite zlen_cons in *. pose proof (zlen_nonneg vs).
  change (mjoin (put_option code <$> v :: vs)) with (put_option code v ++ mjoin (put_option code <$> vs)). rewrite <- app_assoc, parse_options_put by done.
  unfold append_impl. destruct (Z.leb_spec MAX_ENTRIES (entries m)); [lia|]. cbn [mbind res_bind mret res_ret]. destruct vs as [|v' vs].
  - done.
  - rewrite IH; [|done..|cbn; lia]. cbn [set_options options entries]. rewrite lookup_insert_eq, insert_insert_eq. change (default [] (Some ?x)) with x. rewrite <- app_assoc. cbn [app].
    unfold set_options. cbn. do 2 f_equal. lia.
Qed.

Definition instances (l : list (Z * list (list byte))) : Z := list_sum (λ p, zlen p.2) l.

Lemma set_options_id m : set_options m (options m) (entries m) = m.
Proof. by destruct m. Qed.

Lemma parse_options_all l : ∀ m rest, Forall (λ p, 0 < p.1 < 255 ∧ p.2 ≠ [] ∧ Forall (λ v, zlen v ≤ 255) p.2) l → NoDup l.*1 →
  Forall (λ p, options m !! p.1 = None) l → entries m + instances l ≤ MAX_ENTRIES →
  parse_options m (mjoin ((λ p : Z * list (list byte), mjoin (put_option p.1 <$> p.2)) <$> l) ++ rest) =
  parse_options (set_options m (list_to_map l ∪ options m) (entries m + instances l)) rest.
Proof.
  induction l as [|[code vs] l IH]; intros m rest Hl Hd Hfree Hn.
  { change (list_to_map [] ∪ options m) with (∅ ∪ options m). change (instances []) with 0. by rewrite (left_id_L ∅ (∪)), Z.add_0_r, set_options_id. }
  apply Forall_cons in Hl as [(Hc & Hne & Hvs) Hl]. apply Forall_cons in Hfree as [Hf Hfree]. rewrite fmap_cons in Hd. apply NoDup_cons in Hd as [Hni Hd]. cbn [fst snd] in *.
  unfold instances in *. rewrite list_sum_cons in *. cbn [snd] in *. rewrite fmap_cons. cbn [fst snd]. change (mjoin (?x :: ?y)) with (x ++ mjoin y). rewrite <- app_assoc.
  assert (0 ≤ list_sum (λ p : Z * list (list byte), zlen p.2) l) as H0 by (clear; induction l; [done|]; rewrite list_sum_cons; pose proof (zlen_nonneg a.2); lia).
  rewrite parse_options_instances by (try done; lia). rewrite Hf. cbn [default app]. rewrite IH; [|done|done| |cbn; lia].
  - f_equal. unfold set_options. cbn. f_equal; [|lia]. rewrite <- insert_union_r by (apply not_elem_of_list_to_map_1; done). by rewrite insert_union_l.
  - apply Forall_forall. intros p Hp. cbn. rewrite lookup_insert_ne; [by eapply Forall_forall in Hfree|]. intros E. apply Hni. rewrite E. apply list_elem_of_fmap. by exists p.
Qed.

Lemma parse_options_end m rest : parse_options m (byte_of OPT_END :: rest) = Ok m.
Proof. done. Qed.

(** ** The header *)
Definition segments (m : Message) : list (list byte) :=
  [[byte_of (op m)]; [byte_of (htype m)]; [byte_of (hlen m)]; [x00]; be32 (xid m); be16 (secs m); be16 (flags m);
   ciaddr m; yiaddr m; siaddr m; giaddr m; chaddr m; sname m; file m; if magic m then MAGIC_COOKIE else zeros 4].

Lemma header_segments m : header_bytes m = mjoin (segments m).
Proof. unfold header_bytes, segments. cbn. by rewrite app_nil_r. Qed.

(** ** The round trip *)

(** The fields fit the wire format; option 52 is the builder's own business. *)
Record fits_wire (m : Message) : Prop := {
  w_op : op m = BOOTREQUEST ∨ op m = BOOTREPLY;
  w_htype : htype m = ARPHRD_ETHER;
  w_hlen : 0 ≤ hlen m ≤ 16;
  w_words : fits 32 (xid m) ∧ fits 16 (secs m) ∧ fits 16 (flags m);
  w_addrs : Forall (λ a, zlen a = 4) [ciaddr m; yiaddr m; siaddr m; giaddr m];
  w_names : zlen (chaddr m) = 16 ∧ zlen (sname m) = 64 ∧ zlen (file m) = 128;
  w_magic : magic m = true;
  w_options : map_Forall (λ code all, 0 < code < 255 ∧ all ≠ [] ∧ Forall (λ v, zlen v ≤ 255) all) (options m);
  w_entries : entries m = instances (btree_iter (options m)) ∧ entries m ≤ MAX_ENTRIES;
  w_overload : options m !! OPT_OVERLOAD = None }.

Lemma segments_len m : fits_wire m → zlen <$> segments m = [1; 1; 1; 1; 4; 2; 2; 4; 4; 4; 4; 16; 64; 128; 4].
Proof.
  intros [_ _ _ _ Ha (Hc & Hs & Hf) Hm _ _ _]. rewrite !Forall_cons in Ha. destruct Ha as (H1 & H2 & H3 & H4 & _). unfold segments. cbn [fmap list_fmap]. rewrite Hm, Hc, Hs, Hf, H1, H2, H3, H4. done.
Qed.

(** A field of a built message. *)
Lemma field_of m rest (i : nat) v a n : fits_wire m → segments m !! i = Some v → a = list_sum id (take i [1; 1; 1; 1; 4; 2; 2; 4; 4; 4; 4; 16; 64; 128; 4]) →
  [1; 1; 1; 1; 4; 2; 2; 4; 4; 4; 4; 16; 64; 128; 4] !! i = Some n → sub (mjoin (segments m) ++ rest) a n = Some v.
Proof.
  intros Hm Hi -> Hn. apply (sub_segment _ i); [done| |].
  - rewrite (list_sum_fmap zlen), <- (segments_len m Hm). f_equal. symmetry. apply fmap_take.
  - rewrite <- (segments_len m Hm), list_lookup_fmap, Hi in Hn. by injection Hn.
Qed.

Lemma header_len m : fits_wire m → zlen (mjoin (segments m)) = HEADER_LEN.
Proof.
  intros Hm. assert (∀ segs : list (list byte), zlen (mjoin segs) = list_sum id (zlen <$> segs)) as ->.
  { induction segs as [|x segs IH]; [done|]. change (mjoin (x :: segs)) with (x ++ mjoin segs). rewrite zlen_app, IH, fmap_cons, list_sum_cons. done. }
  by rewrite segments_len.
Qed.

Lemma options_read m0 m rest : fits_wire m → options m0 = ∅ → entries m0 = 0 →
  parse_options m0 (put_options (options m) ++ byte_of OPT_END :: rest) = Ok (set_options m0 (options m) (entries m)).
Proof.
  intros Hm Ho He. destruct (w_entries _ Hm) as [En Hmax]. unfold put_options. rewrite parse_options_all.
  - rewrite parse_options_end. do 2 f_equal; [|rewrite He; lia]. rewrite Ho, (right_id_L ∅ (∪)). rewrite <- (list_to_map_to_list (options m)) at 2.
    apply list_to_map_proper; [apply btree_iter_nodup|apply btree_iter_perm].
  - apply Forall_forall. intros [code all] Hin%elem_of_btree_iter. exact (w_options _ Hm _ _ Hin).
  - apply btree_iter_nodup.
  - apply Forall_forall. intros p _. by rewrite Ho.
  - rewrite He. lia.
Qed.

Lemma build_shape m b : fits_wire m → build m = Ok b →
  ∃ rest, b = mjoin (segments m) ++ put_options (options m) ++ byte_of OPT_END :: rest ∧ HEADER_LEN ≤ zlen b ≤ UDP_PAYLOAD_MAX_SIZE.
Proof.
  intros Hm. unfold build. rewrite header_segments. set (b0 := mjoin (segments m) ++ _). destruct (Z.ltb_spec UDP_PAYLOAD_MAX_SIZE (zlen b0)) as [|Hle]; [done|]. intros E.
  apply (f_equal (λ r, match r with Ok x => x | _ => [] end)) in E. cbv beta iota delta [mret res_ret] in E. subst b.
  exists (zeros (Z.to_nat (BOOTP_MESSAGE_SIZE - zlen b0))). split; [generalize (zeros (Z.to_nat (BOOTP_MESSAGE_SIZE - zlen b0))); intros z; unfold b0; generalize (mjoin (segments m)); intros h; by rewrite <- !app_assoc|].
  assert (HEADER_LEN ≤ zlen b0) by (unfold b0; rewrite zlen_app, (header_len m Hm); pose proof (zlen_nonneg (put_options (options m) ++ [byte_of OPT_END])); lia).
  rewrite zlen_app. unfold zeros. unfold zlen at 2 5. rewrite length_replicate. unfold UDP_PAYLOAD_MAX_SIZE, BOOTP_MESSAGE_SIZE, HEADER_LEN in *. lia.
Qed.

Lemma build_parse m b op_ xid_ hw :
  fits_wire m → build m = Ok b → op_ = 0 ∨ op_ = op m → (∀ x, xid_ = Some x → x = xid m) → (∀ h, hw = Some h → h = take (Z.to_nat (hlen m)) (chaddr m)) →
  parse b op_ xid_ hw = Ok m.
Proof.
  intros Hm Hb Hop Hx Hh. destruct (build_shape m b Hm Hb) as (rest & -> & Hlen). set (tl := put_options (options m) ++ byte_of OPT_END :: rest) in *.
  destruct (w_words _ Hm) as (Fx & Fs & Ff). pose proof (w_hlen _ Hm) as Fh. unfold parse.
  assert (∀ i v a n, segments m !! i = Some v → a = list_sum id (take i [1; 1; 1; 1; 4; 2; 2; 4; 4; 4; 4; 16; 64; 128; 4]) →
    [1; 1; 1; 1; 4; 2; 2; 4; 4; 4; 4; 16; 64; 128; 4] !! i = Some n → sub (mjoin (segments m) ++ tl) a n = Some v) as Hf by (intros; by eapply field_of).
  set (b := mjoin (segments m) ++ tl) in *. destruct (Z.ltb_spec (zlen b) HEADER_LEN); [lia|]. destruct (Z.ltb_spec UDP_PAYLOAD_MAX_SIZE (zlen b)); [lia|]. cbn [orb].
  assert (∀ i x a, segments m !! i = Some [byte_of x] → a = list_sum id (take i [1; 1; 1; 1; 4; 2; 2; 4; 4; 4; 4; 16; 64; 128; 4]) →
    [1; 1; 1; 1; 4; 2; 2; 4; 4; 4; 4; 16; 64; 128; 4] !! i = Some 1 → 0 ≤ x < 256 → @u8_at Error b a = Ok x) as H8.
  { intros i x a H1 H2 H3 H4. rewrite (u8_at_Some _ _ (byte_of x)); [by rewrite byte_field|]. apply at_of_sub. by apply (Hf i). }
  rewrite (H8 0%nat (op m) 0), bind_ok; [|done..|destruct (w_op _ Hm) as [-> | ->]; done].
  rewrite (H8 1%nat (htype m) 1), (H8 2%nat (hlen m) 2); [|done..|lia|done|done|done|by rewrite (w_htype _ Hm)].
  assert (negb (op m =? BOOTREQUEST) && negb (op m =? BOOTREPLY) = false) as -> by (destruct (w_op _ Hm) as [-> | ->]; done).
  assert (negb (op_ =? 0) && negb (op m =? op_) = false) as -> by (destruct Hop as [-> | ->]; [done|rewrite Z.eqb_refl; by destruct (_ =? 0)]).
  rewrite (Hf 4%nat (be32 (xid m)) 4 4) by done. cbn [unwrap]. rewrite bind_ok, of_be32 by done. cbv zeta.
  assert (match xid_ with Some x => negb (x =? xid m) | None => false end = false) as -> by (destruct xid_ as [x|]; [rewrite (Hx x eq_refl), Z.eqb_refl|]; done).
  rewrite bind_ok, (w_htype _ Hm), Z.eqb_refl. cbn [negb]. rewrite bind_ok. destruct (Z.ltb_spec 16 (hlen m)); [lia|].
  assert (sub b 28 (hlen m) = Some (take (Z.to_nat (hlen m)) (chaddr m))) as ->.
  { pose proof (Hf 11%nat (chaddr m) 28 16 eq_refl eq_refl eq_refl) as (_ & _ & ? & E)%sub_inv. rewrite sub_Some by lia. f_equal. rewrite E. unfold raw_sub. rewrite take_take. f_equal. lia. }
  cbn [unwrap]. rewrite bind_ok.
  assert (match hw with Some h => negb (bool_decide (take (Z.to_nat (hlen m)) (chaddr m) = h)) | None => false end = false) as ->
    by (destruct hw as [h|]; [rewrite (Hh h eq_refl), bool_decide_true by done|]; done).
  rewrite (be16_at_sub b 8 (be16 (secs m))), (be16_at_sub b 10 (be16 (flags m))), !bind_ok by first [by apply (Hf 5%nat) | by apply (Hf 6%nat)]. rewrite !of_be16 by done.
  rewrite (Hf 7%nat (ciaddr m) 12 4), (Hf 8%nat (yiaddr m) 16 4), (Hf 9%nat (siaddr m) 20 4), (Hf 10%nat (giaddr m) 24 4), (Hf 11%nat (chaddr m) 28 16), (Hf 12%nat (sname m) 44 64), (Hf 13%nat (file m) 108 128) by done.
  rewrite (Hf 14%nat MAGIC_COOKIE 236 4); [|unfold segments; by rewrite (w_magic _ Hm)|done..].
  cbn [unwrap]. rewrite !bind_ok. cbv zeta. rewrite bool_decide_true by done. cbn [magic negb].
  assert (sub b HEADER_LEN (zlen b - HEADER_LEN) = Some tl) as ->.
  { rewrite sub_Some by (unfold HEADER_LEN in *; lia). f_equal. unfold raw_sub, b. rewrite <- (header_len m Hm). unfold zlen. rewrite Nat2Z.id, drop_app_length, length_app, take_ge; [done|lia]. }
  cbn [unwrap]. rewrite bind_ok. unfold tl. rewrite (options_read _ m) by done. rewrite bind_ok. unfold option_u8, option_exact. cbn [options set_options]. rewrite (w_overload _ Hm). cbn.
  f_equal. pose proof (w_htype _ Hm) as Et. pose proof (w_magic _ Hm) as Em. clear -Et Em. destruct m. cbn in *. by subst.
Qed.

(** C32. A message that fits the wire format and that [build] accepts is parsed back to
    itself, options, instances and all, by a receiver that asks for its kind, its
    transaction or its hardware address, or for none of them. *)
Theorem dhcp_message_roundtrip m b op_ xid_ hw :
  fits_wire m → build m = Ok b → op_ = 0 ∨ op_ = op m → (∀ x, xid_ = Some x → x = xid m) → (∀ h, hw = Some h → h = take (Z.to_nat (hlen m)) (chaddr m)) →
  parse b op_ xid_ hw = Ok m.
Proof. apply build_parse. Qed.

(** ** Messages put together option by option *)
Lemma instances_map (o : gmap Z (list (list byte))) : instances (btree_iter o) = map_sum zlen o.
Proof.
  unfold instances, map_sum. rewrite (list_sum_perm _ _ _ (btree_iter_perm o)). induction (map_to_list o) as [|[k v] l IH]; [done|]. rewrite fmap_cons, !list_sum_cons, IH. done.
Qed.

(** The fields outside the options. *)
Definition same_header (m m' : Message) : Prop := set_options m' ∅ 0 = set_options m ∅ 0.

Lemma append_impl_fits m code data : fits_wire m → entries m < MAX_ENTRIES → 0 < code < 255 → code ≠ OPT_OVERLOAD → zlen data ≤ 255 →
  ∃ m', append_impl m code data = Ok m' ∧ fits_wire m' ∧ entries m' = entries m + 1 ∧ options m' = <[code := default [] (options m !! code) ++ [data]]> (options m) ∧ same_header m m'.
Proof.
  intros [W1 W2 W3 W4 W5 W6 W7 W8 [W9 W9'] W10] He Hc Hno Hd. unfold append_impl. destruct (Z.leb_spec MAX_ENTRIES (entries m)); [lia|]. eexists. split; [done|]. split_and!; try done.
  split; try done; cbn.
  - apply map_Forall_insert_2; [|done]. split_and!; [lia|lia|by destruct (default [] _)|]. apply Forall_app. split; [|by constructor]. destruct (options m !! code) as [all|] eqn:E; [|done]. by apply (W8 code all).
  - split; [|lia]. rewrite W9, !instances_map. destruct (options m !! code) as [all|] eqn:E; cbn.
    + rewrite (map_sum_update _ _ _ all) by done. rewrite zlen_app. unfold zlen at 5. cbn. lia.
    + rewrite map_sum_insert by done. unfold zlen at 2. cbn. lia.
  - by rewrite lookup_insert_ne.
Qed.

Lemma append_option_short m code data : 0 < code < 255 → zlen data ≤ 255 → append_option m code data = append_impl m code data.
Proof.
  intros Hc Hd. unfold append_option. destruct (Z.eqb_spec code OPT_PAD) as [E|_]; [unfold OPT_PAD in E; lia|]. destruct (Z.eqb_spec code OPT_END) as [E|_]; [unfold OPT_END in E; lia|]. cbn [orb].
  destruct (length data); [done|]. cbn [append_loop]. destruct (Z.ltb_spec 255 (zlen data)); [lia|done].
Qed.

Lemma put_options_len (o : gmap Z (list (list byte))) : map_Forall (λ _ all, Forall (λ v, zlen v ≤ 255) all) o → zlen (put_options o) ≤ 257 * map_sum zlen o.
Proof.
  intros Ho. rewrite <- instances_map. unfold put_options, instances. assert (∀ p, p ∈ btree_iter o → Forall (λ v, zlen v ≤ 255) p.2) as Hl.
  { intros [k v] Hin%elem_of_btree_iter. exact (Ho k v Hin). }
  induction (btree_iter o) as [|p l IH]; [done|]. rewrite fmap_cons, list_sum_cons. change (mjoin (?x :: ?y)) with (x ++ mjoin y). rewrite zlen_app.
  specialize (IH (λ p Hp, Hl p (list_elem_of_further _ _ _ Hp))). assert (zlen (mjoin (put_option p.1 <$> p.2)) ≤ 257 * zlen p.2); [|lia].
  pose proof (Hl p (list_elem_of_here _ _)) as Hp. clear -Hp. induction p.2 as [|v vs IHv]; [done|]. apply Forall_cons in Hp as [Hv Hp]. specialize (IHv Hp).
  rewrite fmap_cons. change (mjoin (?x :: ?y)) with (x ++ mjoin y). rewrite zlen_app, zlen_cons. unfold put_option at 1. rewrite !zlen_cons. lia.
Qed.

(** A message with a few options is never too long. *)
Lemma build_short m : fits_wire m → entries m ≤ 200 → ∃ b, build m = Ok b.
Proof.
  intros Hm He. unfold build. cbv zeta. destruct (Z.ltb_spec UDP_PAYLOAD_MAX_SIZE (zlen (header_bytes m ++ put_options (options m) ++ [byte_of OPT_END]))) as [Hl|_]; [|by eexists].
  exfalso. rewrite !zlen_app, header_segments, (header_len m Hm) in Hl. destruct (w_entries _ Hm) as [En _]. rewrite instances_map in En.
  assert (zlen (put_options (options m)) ≤ 257 * map_sum zlen (options m)) as Hp by (apply put_options_len; intros k v Hk; by destruct (w_options _ Hm k v Hk) as (_ & _ & ?)).
  unfold zlen at 2 in Hl. cbn in Hl. unfold UDP_PAYLOAD_MAX_SIZE, HEADER_LEN in Hl. lia.
Qed.

(** ** A DISCOVER *)
Definition ex_discover : Message :=
  set_options (new BOOTREQUEST 0x12345678 (byte_of <$> [2; 0; 0; 0; 0; 1]))
    {[ 53 := [[byte_of 1]]; 61 := [byte_of <$> [1; 2; 0; 0; 0; 0; 1]]; 55 := [byte_of <$> [1; 3]; [byte_of 6]] ]} 4.
Definition ex_discover_bytes : list byte := Eval vm_compute in match build ex_discover with Ok b => b | _ => [] end.

Lemma ex_discover_fits : fits_wire ex_discover.
Proof.
  split; try (vm_compute; done); try (vm_compute; intuition congruence).
  - repeat constructor.
  - by apply (bool_decide_unpack _).
Qed.

Lemma dhcp_message_roundtrip_witness :
  zlen ex_discover_bytes = BOOTP_MESSAGE_SIZE ∧ parse ex_discover_bytes BOOTREQUEST (Some 0x12345678) (Some (byte_of <$> [2; 0; 0; 0; 0; 1])) = Ok ex_discover.
Proof.
  split; [vm_compute; reflexivity|]. apply dhcp_message_roundtrip.
  - exact ex_discover_fits.
  - vm_compute; reflexivity.
  - right. reflexivity.
  - intros x [= <-]. reflexivity.
  - intros h [= <-]. vm_compute. reflexivity.
Defined.
