(* ===== verification/DhcpLease.v ===== *)
(** * DHCP leases ([net/src/dhcp/lease.rs])

    What an OFFER or ACK grants: the address, its mask, the times of the lease and the
    routes.  Times are microseconds. *)

From S2P Require Import Prelude Bytes NetBytes Ip DhcpMessage.

Module lease.
Import message.
Import ip.

Definition USEC_PER_SEC := 1000000.
Definition INFINITY := 2 ^ 64 - 1.
Definition OPT_SUBNET_MASK := 1.
Definition OPT_ROUTER := 3.
Definition OPT_DOMAIN_NAME_SERVER := 6.
Definition OPT_MTU_INTERFACE := 26.
Definition OPT_BROADCAST := 28.
Definition OPT_STATIC_ROUTE := 33.
Definition OPT_NTP_SERVER := 42.
Definition OPT_LEASE_TIME := 51.
Definition OPT_SERVER_IDENTIFIER := 54.
Definition OPT_RENEWAL_TIME := 58.
Definition OPT_REBINDING_TIME := 59.
Definition OPT_CLASSLESS_STATIC_ROUTE := 121.
Definition OPT_PRIVATE_CLASSLESS_STATIC_ROUTE := 249.
Definition IPV4_MIN_REASSEMBLY_SIZE := 576.

Record Lease := {
  address : ip4; subnet_mask : ip4; server_address : ip4;
  lifetime : Z; t1 : Z; t2 : Z;
  broadcast : option ip4;
  routers : list ip4; dns : list ip4; ntp : list ip4;
  static_routes : list Route; classless_routes : list Route;
  mtu : option Z;
  timestamp : Z }.

(** ** Prefixes *)
Definition default_prefixlen (a : ip4) : option Z :=
  let b := octet0 a in
  if b <=? 127 then Some 8 else if b <=? 191 then Some 16 else if b <=? 223 then Some 24 else None.

Definition prefixlen_to_netmask (len : Z) : ip4 :=
  if len =? 0 then zero4 else be32 (u32 (Z.shiftl 0xffffffff (32 - len))).

(** [m.trailing_zeros()] of a word that is not zero. *)
Fixpoint trailing_zeros (p : positive) : Z :=
  match p with xO p => 1 + trailing_zeros p | _ => 0 end.
Definition netmask_to_prefixlen (mask : ip4) : Z :=
  match of_be mask with Zpos m => 32 - trailing_zeros m | _ => 0 end.

Definition mask (a : ip4) (len : Z) : ip4 := be32 (Z.land (of_be a) (of_be (prefixlen_to_netmask len))).

Definition sec_to_usec (t : list byte) (max_as_infinity : bool) : Z :=
  let s := of_be t in
  if (s =? 2 ^ 32 - 1) && max_as_infinity then INFINITY else u64 (s * USEC_PER_SEC).

Definition is_unicast (a : ip4) : bool :=
  negb (is_zeronet a || is_loopback a || is_multicast a || is_reserved a || is_lbcast a).

(** ** Routes in a message *)

(** [addrs.chunks(2)] of an even number of addresses. *)
Fixpoint static_loop (addrs : list ip4) : list Route :=
  match addrs with
  | dst :: gw :: addrs =>
      match default_prefixlen dst with
      | None => static_loop addrs
      | Some len =>
          if bool_decide (mask dst len = zero4) then static_loop addrs
          else {| r_dst := mask dst len; r_len := len; r_gw := gw |} :: static_loop addrs
      end
  | _ => []
  end.
Definition static_routes_of (m : Message) : res Error (list Route) :=
  o ← option_addresses m OPT_STATIC_ROUTE;
  match o with
  | None => mret []
  | Some addrs => if negb (zlen addrs `mod` 2 =? 0) then Err BadMsg else mret (static_loop addrs)
  end.

(** [while !i.is_empty()]: every round takes five bytes at least. *)
Fixpoint classless_loop (fuel : nat) (i : list byte) (routes : list Route) : res Error (list Route) :=
  match fuel, i with
  | S fuel, l :: i =>
      let len := bval l in
      if 32 <? len then Err BadMsg else
      let n := div_ceil len 8 in
      if zlen i <? n then Err BadMsg else
      let dst := mask (take (Z.to_nat n) i ++ zeros (4 - Z.to_nat n)) len in
      let i := drop (Z.to_nat n) i in
      if zlen i <? 4 then Err BadMsg else
      classless_loop fuel (drop 4 i) (routes ++ [{| r_dst := dst; r_len := len; r_gw := take 4 i |}])
  | _, _ => mret routes
  end.
Definition classless_routes_of (m : Message) (code : Z) : res Error (list Route) :=
  match option_all m code with None => mret [] | Some v => classless_loop (length v) v [] end.

(** [.unwrap_or_default()] of a list. *)
Definition or_default {E A} (r : res E (list A)) : list A := match r with Ok l => l | _ => [] end.
Definition addresses_or_default (m : Message) (code : Z) : list ip4 :=
  match option_addresses m code with Ok (Some l) => l | _ => [] end.

(** ** The lease of a message *)
Definition lifetime_of (m : Message) (fallback_lifetime : Z) : option Z :=
  match option_exact m OPT_LEASE_TIME 4 with
  | Some t => if negb (bool_decide (t = zero4)) then Some (sec_to_usec t true)
              else if negb (fallback_lifetime =? 0) then Some fallback_lifetime else None
  | None => if negb (fallback_lifetime =? 0) then Some fallback_lifetime else None
  end.

Definition time_option (m : Message) (code : Z) : Z :=
  match option_exact m code 4 with Some t => sec_to_usec t true | None => 0 end.

(** T1 and T2 (RFC 2131 §4.4.5). *)
Definition times_of (m : Message) (lifetime : Z) : Z * Z :=
  if lifetime =? INFINITY then (0, 0) else
  let t2 := time_option m OPT_REBINDING_TIME in
  let t2 := if (t2 =? 0) || (lifetime <=? t2) then u64 (lifetime * 7) / 8 else t2 in
  let t1 := time_option m OPT_RENEWAL_TIME in
  let t1 := if (t1 =? 0) || (t2 <=? t1) then lifetime / 2 else t1 in
  (t1, if t2 <=? t1 then u64 (lifetime * 7) / 8 else t2).

Definition classless_of (m : Message) : list Route :=
  let c := or_default (classless_routes_of m OPT_CLASSLESS_STATIC_ROUTE) in
  if bool_decide (c = []) then or_default (classless_routes_of m OPT_PRIVATE_CLASSLESS_STATIC_ROUTE) else c.

Definition from_message (m : Message) (fallback_lifetime : Z) : option Lease :=
  if bool_decide (yiaddr m = zero4) || negb (is_unicast (yiaddr m)) then None else
  subnet_mask ← match option_addr m OPT_SUBNET_MASK with
                | Some mask => Some mask
                | None => prefixlen_to_netmask <$> default_prefixlen (yiaddr m)
                end;
  server_address ← option_addr m OPT_SERVER_IDENTIFIER;
  lifetime ← lifetime_of m fallback_lifetime;
  let lifetime := if lifetime <=? 30 * USEC_PER_SEC then 30 * USEC_PER_SEC else lifetime in
  let '(t1, t2) := times_of m lifetime in
  Some {| address := yiaddr m; subnet_mask := subnet_mask; server_address := server_address; lifetime := lifetime; t1 := t1; t2 := t2;
          broadcast := option_addr m OPT_BROADCAST;
          routers := addresses_or_default m OPT_ROUTER; dns := addresses_or_default m OPT_DOMAIN_NAME_SERVER; ntp := addresses_or_default m OPT_NTP_SERVER;
          static_routes := or_default (static_routes_of m); classless_routes := classless_of m;
          mtu := match option_u16 m OPT_MTU_INTERFACE with Some v => if IPV4_MIN_REASSEMBLY_SIZE <=? v then Some v else None | None => None end;
          timestamp := 0 |}.

Definition prefixlen (l : Lease) : Z := netmask_to_prefixlen (subnet_mask l).
Definition router (l : Lease) : option ip4 := head (filter (λ r, r ≠ zero4) (routers l)).
Definition same_binding (a b : Lease) : bool :=
  bool_decide (address a = address b) && bool_decide (subnet_mask a = subnet_mask b) && bool_decide (routers a = routers b).

(** [let mut add = |r|]. *)
Definition add_route (l : Lease) (out : list Route) (r : Route) : list Route :=
  if is_loopback (r_dst r) || bool_decide (r_dst r = address l) then out else
  let to_gw := {| r_dst := r_gw r; r_len := 32; r_gw := zero4 |} in
  let out := if negb (bool_decide (r_gw r = zero4)) && negb (bool_decide (to_gw ∈ out)) then out ++ [to_gw] else out in
  if bool_decide (r ∈ out) then out else out ++ [r].

Definition routes (l : Lease) : list Route :=
  let len := prefixlen l in
  let out := [{| r_dst := mask (address l) len; r_len := len; r_gw := zero4 |}] in
  if negb (bool_decide (classless_routes l = [])) then foldl (add_route l) out (classless_routes l) else
  let out := foldl (add_route l) out (static_routes l) in
  match router l with
  | Some gw => add_route l out {| r_dst := zero4; r_len := 0; r_gw := gw |}
  | None => out
  end.

End lease.

(** * What a lease grants *)
Import message ip lease.

(** ** Times *)
Lemma sec_to_usec_range t : zlen t = 4 → sec_to_usec t true = INFINITY ∨ 0 ≤ sec_to_usec t true < 2 ^ 53.
Proof.
  intros Ht. unfold sec_to_usec. pose proof (of_be_range t) as H. rewrite Ht in H. change (256 ^ 4) with (2 ^ 32) in H.
  destruct (_ && _); [by left|right]. unfold USEC_PER_SEC. rewrite wrap_small by (unfold fits; lia). lia.
Qed.

Lemma sec_to_usec_pos t : zlen t = 4 → t ≠ zero4 → 0 < sec_to_usec t true.
Proof.
  intros Ht Hz. unfold sec_to_usec. pose proof (of_be_range t) as H. rewrite Ht in H. change (256 ^ 4) with (2 ^ 32) in H. destruct (_ && _); [done|].
  unfold USEC_PER_SEC. rewrite wrap_small by (unfold fits; lia). assert (of_be t ≠ 0); [|lia]. intros E. apply Hz.
  rewrite <- (be_bytes_of_be t), E. assert (length t = 4%nat) as -> by (unfold zlen in Ht; lia). done.
Qed.

Lemma option_exact_len m code len v : option_exact m code len = Some v → zlen v = len.
Proof.
  unfold option_exact. destruct (options m !! code) as [all|]; [|done]. intros H. assert (v ∈ filter (λ v, zlen v = len) all) as Hin.
  { destruct (filter _ all); [done|]. injection H as ->. left. }
  by apply list_elem_of_filter in Hin as [? _].
Qed.

Lemma times_ordered m life : 30 * USEC_PER_SEC ≤ life < 2 ^ 60 → 0 < (times_of m life).1 < (times_of m life).2 ∧ (times_of m life).2 < life.
Proof.
  intros Hl. unfold USEC_PER_SEC in Hl. unfold times_of. destruct (Z.eqb_spec life INFINITY) as [E|_]; [unfold INFINITY in E; lia|]. cbv zeta. cbn [fst snd].
  assert (∀ code, 0 ≤ time_option m code) as Ho.
  { intros code. unfold time_option. destruct (option_exact m code 4) as [t|] eqn:E; [|lia]. destruct (sec_to_usec_range t (option_exact_len _ _ _ _ E)) as [-> |?]; [done|lia]. }
  pose proof (Ho OPT_REBINDING_TIME) as H2. pose proof (Ho OPT_RENEWAL_TIME) as H1. set (o2 := time_option m OPT_REBINDING_TIME) in *. set (o1 := time_option m OPT_RENEWAL_TIME) in *. clearbody o1 o2.
  rewrite (wrap_small _ (life * 7)) by (unfold fits; lia). set (d := life * 7 / 8) in *. set (h := life / 2) in *.
  assert (0 < h < d ∧ d < life) as Hd.
  { unfold d, h, USEC_PER_SEC in *. pose proof (Z.div_mod (life * 7) 8 ltac:(lia)). pose proof (Z.mod_pos_bound (life * 7) 8 ltac:(lia)). pose proof (Z.div_mod life 2 ltac:(lia)). pose proof (Z.mod_pos_bound life 2 ltac:(lia)). lia. }
  clearbody d h. set (x2 := if _ || _ then d else o2). assert (0 < x2 < life) as Hx2.
  { unfold x2. destruct (Z.eqb_spec o2 0); cbn [orb]; [lia|]. destruct (Z.leb_spec life o2); lia. }
  clearbody x2. set (x1 := if _ || _ then h else o1). assert (0 < x1 ∧ (x1 < x2 ∨ x1 = h)) as Hx1.
  { unfold x1. destruct (Z.eqb_spec o1 0); cbn [orb]; [lia|]. destruct (Z.leb_spec x2 o1); lia. }
  clearbody x1. destruct (Z.leb_spec x2 x1); lia.
Qed.

(** A lease the client accepts is for an address a host may hold, and either never
    ends, with no timers, or lasts at least thirty seconds with its renewal strictly
    inside its rebinding and that strictly inside its life, whatever times the server
    sent. *)
Theorem lease_times_ordered m fallback l : fallback = 0 ∨ 0 < fallback < 2 ^ 60 → from_message m fallback = Some l →
  is_unicast (address l) = true ∧
  (lifetime l = INFINITY ∧ t1 l = 0 ∧ t2 l = 0 ∨ 30 * USEC_PER_SEC ≤ lifetime l < 2 ^ 60 ∧ 0 < t1 l < t2 l ∧ t2 l < lifetime l).
Proof.
  intros Hf. unfold from_message. destruct (bool_decide _ || _) eqn:Eu; [done|]. apply orb_false_iff in Eu as [_ Eu%negb_false_iff].
  intros (sm & _ & Hl)%bind_Some. apply bind_Some in Hl as (sv & _ & Hl). apply bind_Some in Hl as (life & El & Hl). cbv zeta in Hl.
  set (life' := if life <=? 30 * USEC_PER_SEC then 30 * USEC_PER_SEC else life) in *.
  assert (life' = INFINITY ∨ 30 * USEC_PER_SEC ≤ life' < 2 ^ 60) as Hlife.
  { assert (life = INFINITY ∨ 0 ≤ life < 2 ^ 60) as H.
    { unfold lifetime_of in El. destruct (option_exact m OPT_LEASE_TIME 4) as [t|] eqn:Et.
      - destruct (negb (bool_decide _)); [injection El as <-; destruct (sec_to_usec_range t (option_exact_len _ _ _ _ Et)); [by left|right; lia]|].
        destruct (Z.eqb_spec fallback 0); [done|]. injection El as <-. right. lia.
      - destruct (Z.eqb_spec fallback 0); [done|]. injection El as <-. right. lia. }
    unfold life', INFINITY, USEC_PER_SEC in *. destruct (Z.leb_spec life (30 * 1000000)); lia. }
  destruct (times_of m life') as [x1 x2] eqn:Et. injection Hl as <-. cbn [address lifetime t1 t2]. split; [done|]. destruct Hlife as [E|Hlife].
  - left. rewrite E in *. unfold times_of in Et. rewrite Z.eqb_refl in Et. injection Et as <- <-. done.
  - right. pose proof (times_ordered m life' Hlife) as H. rewrite Et in H. cbn [fst snd] in H. tauto.
Qed.

(** ** Routes *)
Definition host_route (h : ip4) : Route := {| r_dst := h; r_len := 32; r_gw := zero4 |}.

(** Every gateway has its on-link route, and no route is listed twice. *)
Definition resolvable (rs : list Route) : Prop := NoDup rs ∧ ∀ r, r ∈ rs → r_gw r = zero4 ∨ host_route (r_gw r) ∈ rs.

Lemma add_route_resolvable l out r : resolvable out → resolvable (add_route l out r).
Proof.
  intros [Hd Hr]. unfold add_route. destruct (_ || _); [done|]. cbv zeta. fold (host_route (r_gw r)).
  set (out' := if _ && _ then _ else _). assert (resolvable out' ∧ (r_gw r = zero4 ∨ host_route (r_gw r) ∈ out')) as [[Hd' Hr'] Hg].
  { unfold out'. case_bool_decide as Ez; cbn [negb andb]; [split; [done|by left]|]. case_bool_decide as Ein; cbn [negb]; [split; [done|by right]|].
    split; [|right; apply elem_of_app; right; left]. split.
    - apply NoDup_app. split_and!; [done| |apply NoDup_singleton]. by intros x Hx ->%list_elem_of_singleton.
    - intros x [Hx| ->%list_elem_of_singleton]%elem_of_app; [|by left]. destruct (Hr x Hx); [by left|right; apply elem_of_app; by left]. }
  clearbody out'. case_bool_decide as Ein; [done|]. split.
  - apply NoDup_app. split_and!; [done| |apply NoDup_singleton]. by intros x Hx ->%list_elem_of_singleton.
  - intros x [Hx| ->%list_elem_of_singleton]%elem_of_app; [destruct (Hr' x Hx)|destruct Hg]; (by left) || (right; apply elem_of_app; by left).
Qed.

Lemma routes_resolvable l : resolvable (routes l).
Proof.
  unfold routes. cbv zeta. set (out := [_]). assert (resolvable out) as H0 by (split; [apply NoDup_singleton|intros r ->%list_elem_of_singleton; by left]). clearbody out.
  assert (∀ rs out, resolvable out → resolvable (foldl (add_route l) out rs)) as Hf by (induction rs as [|r rs IH]; intros o Ho; [done|apply IH, add_route_resolvable, Ho]).
  destruct (negb _); [by apply Hf|]. destruct (router l); [by apply add_route_resolvable, Hf|by apply Hf].
Qed.

Lemma best_route_in rs : ∀ b dst r, best_route rs b dst = Some r → r ∈ rs ∨ b = Some r.
Proof.
  induction rs as [|x rs IH]; intros b dst r H; cbn [best_route] in H; [by right|]. destruct (IH _ _ _ H) as [Hin|E]; [left; by right|].
  destruct (_ && _); [left; injection E as ->; left|by right].
Qed.

(** Every frame for the routes of a lease goes to an address on the link: the next hop
    of any destination is the destination itself or a gateway the lease's routes
    reach by an on-link route of its own, and no route is installed twice. *)
Theorem lease_next_hop_on_link l dst hop : next_hop (routes l) dst = Some hop →
  NoDup (routes l) ∧ (hop = dst ∨ host_route hop ∈ routes l).
Proof.
  destruct (routes_resolvable l) as [Hd Hr]. unfold next_hop. intros (r & Hb & ->)%fmap_Some. split; [done|].
  destruct (best_route_in _ _ _ _ Hb) as [Hin|]; [|done]. unfold is_zero. case_bool_decide as Ez; [by left|]. right. by destruct (Hr r Hin).
Qed.

(** ** An offer of 10.0.0.7/24 for an hour, T2 before T1 *)
Definition ex_offer : Message :=
  set_options {| op := BOOTREPLY; htype := ARPHRD_ETHER; hlen := 6; xid := 7; secs := 0; flags := 0; ciaddr := zero4; yiaddr := byte_of <$> [10; 0; 0; 7]; siaddr := zero4; giaddr := zero4;
                 chaddr := zeros 16; sname := zeros 64; file := zeros 128; magic := true; options := ∅; entries := 0 |}
    {[ OPT_SUBNET_MASK := [byte_of <$> [255; 255; 255; 0]]; OPT_ROUTER := [byte_of <$> [10; 0; 0; 1]]; OPT_LEASE_TIME := [byte_of <$> [0; 0; 14; 16]];
       OPT_SERVER_IDENTIFIER := [byte_of <$> [10; 0; 0; 1]]; OPT_REBINDING_TIME := [byte_of <$> [0; 0; 0; 10]] ]} 5.
Definition ex_lease : Lease := Eval vm_compute in default (Build_Lease [] [] [] 0 0 0 None [] [] [] [] [] None 0) (from_message ex_offer 0).

Lemma lease_times_ordered_witness :
  t1 ex_lease = 1800 * USEC_PER_SEC ∧ is_unicast (address ex_lease) = true ∧
  (lifetime ex_lease = INFINITY ∧ t1 ex_lease = 0 ∧ t2 ex_lease = 0 ∨
   30 * USEC_PER_SEC ≤ lifetime ex_lease < 2 ^ 60 ∧ 0 < t1 ex_lease < t2 ex_lease ∧ t2 ex_lease < lifetime ex_lease).
Proof. split; [vm_compute; reflexivity|]. apply (lease_times_ordered ex_offer 0); [by left|vm_compute; reflexivity]. Defined.

Lemma lease_next_hop_on_link_witness :
  NoDup (routes ex_lease) ∧ ((byte_of <$> [10; 0; 0; 1]) = (byte_of <$> [8; 8; 8; 8]) ∨ host_route (byte_of <$> [10; 0; 0; 1]) ∈ routes ex_lease).
Proof. apply (lease_next_hop_on_link ex_lease (byte_of <$> [8; 8; 8; 8])). vm_compute. reflexivity. Defined.
