(* ===== verification/Dhcp.v ===== *)
(** * The DHCP client ([net/src/dhcp.rs])

    INIT, SELECTING, REQUESTING and BOUND, INIT-REBOOT, RENEWING and REBINDING, with the
    four timers of the client.  A call runs on the client, on what it sends and
    reports ([Out]) and on the random source [rnd], a step of its state [G].  Time is
    microseconds. *)

From S2P Require Import Prelude Bytes NetBytes Ip DhcpMessage DhcpLease.

Module dhcp.
Import message lease.

Definition OPT_HOST_NAME := 12.
Definition OPT_DOMAIN_NAME := 15.
Definition OPT_REQUESTED_IP_ADDRESS := 50.
Definition OPT_MESSAGE_TYPE := 53.
Definition OPT_PARAMETER_REQUEST_LIST := 55.
Definition OPT_MAXIMUM_MESSAGE_SIZE := 57.
Definition OPT_CLIENT_IDENTIFIER := 61.
Definition OPT_RAPID_COMMIT := 80.
Definition DHCP_DISCOVER := 1.
Definition DHCP_OFFER := 2.
Definition DHCP_REQUEST := 3.
Definition DHCP_DECLINE := 4.
Definition DHCP_ACK := 5.
Definition DHCP_NAK := 6.
Definition RESTART_AFTER_NAK_MIN_USEC := USEC_PER_SEC.
Definition RESTART_AFTER_NAK_MAX_USEC := 30 * 60 * USEC_PER_SEC.
Definition MAX_REQUEST_ATTEMPTS_ON_REBOOTING := 2.
Definition MAX_REQUEST_ATTEMPTS := 5.
Definition TRANSIENT_FAILURE_ATTEMPTS := 3.
Definition REQ_OPTS : list Z :=
  [OPT_SUBNET_MASK; OPT_ROUTER; OPT_DOMAIN_NAME_SERVER; OPT_HOST_NAME; OPT_DOMAIN_NAME; OPT_MTU_INTERFACE; OPT_STATIC_ROUTE; OPT_CLASSLESS_STATIC_ROUTE].

Inductive State := Stopped | Init | Selecting | InitReboot | Rebooting | Requesting | Bound | Renewing | Rebinding.
#[global] Instance State_eq_dec : EqDecision State.
Proof. solve_decision. Defined.

(** [Event::Selecting] is [EvSelecting]. *)
Inductive Event := EvSelecting | IpAcquire | IpChange | Renew | Expired | Stop | TransientFailure.
Inductive Dest := Broadcast | Server (a : ip4).
Inductive Rx := RxNone | RxRaw | RxUdp.
Record Out := { send : list (Dest * list byte); events : list Event }.

(** ** Times *)
Definition sub_signed (t delta : Z) : Z :=
  if delta <? 0 then sat_add 64 t (- delta) else if t =? INFINITY then INFINITY else sat_sub t delta.
Definition reacquisition_timeout (now expire : Z) : Z := Z.max (sat_sub expire now / 2) (60 * USEC_PER_SEC).
Definition usec_to_sec16 (t : Z) : Z :=
  if t =? INFINITY then 65535
  else if 65534 * USEC_PER_SEC <=? t then 65534
  else u16 (div_ceil t USEC_PER_SEC).

(** ** The client *)
Record Client := {
  c_state : State; c_hw : mac; c_mtu : Z; rapid_commit : bool;
  request_broadcast : bool; last_addr : ip4; c_xid : Z; start_time : Z;
  start_delay : Z; t1_time : Z; t2_time : Z; expire_time : Z;
  discover_attempt : Z; request_attempt : Z; max_discover_attempts : Z; c_lease : option Lease;
  c_rx : Rx; timeout_resend : option Z; timeout_t1 : option Z; timeout_t2 : option Z;
  timeout_expire : option Z }.

Definition with_state (x0 : State) (x1 : Z) (x2 : Z) (c : Client) : Client :=
  {| c_state := x0; c_hw := c_hw c; c_mtu := c_mtu c; rapid_commit := rapid_commit c; request_broadcast := request_broadcast c; last_addr := last_addr c; c_xid := c_xid c; start_time := start_time c; start_delay := start_delay c; t1_time := t1_time c; t2_time := t2_time c; expire_time := expire_time c; discover_attempt := x1; request_attempt := x2; max_discover_attempts := max_discover_attempts c; c_lease := c_lease c; c_rx := c_rx c; timeout_resend := timeout_resend c; timeout_t1 := timeout_t1 c; timeout_t2 := timeout_t2 c; timeout_expire := timeout_expire c |}.
Definition with_xid (x0 : Z) (c : Client) : Client :=
  {| c_state := c_state c; c_hw := c_hw c; c_mtu := c_mtu c; rapid_commit := rapid_commit c; request_broadcast := request_broadcast c; last_addr := last_addr c; c_xid := x0; start_time := start_time c; start_delay := start_delay c; t1_time := t1_time c; t2_time := t2_time c; expire_time := expire_time c; discover_attempt := discover_attempt c; request_attempt := request_attempt c; max_discover_attempts := max_discover_attempts c; c_lease := c_lease c; c_rx := c_rx c; timeout_resend := timeout_resend c; timeout_t1 := timeout_t1 c; timeout_t2 := timeout_t2 c; timeout_expire := timeout_expire c |}.
Definition with_start (x0 : Z) (c : Client) : Client :=
  {| c_state := c_state c; c_hw := c_hw c; c_mtu := c_mtu c; rapid_commit := rapid_commit c; request_broadcast := request_broadcast c; last_addr := last_addr c; c_xid := c_xid c; start_time := x0; start_delay := start_delay c; t1_time := t1_time c; t2_time := t2_time c; expire_time := expire_time c; discover_attempt := discover_attempt c; request_attempt := request_attempt c; max_discover_attempts := max_discover_attempts c; c_lease := c_lease c; c_rx := c_rx c; timeout_resend := timeout_resend c; timeout_t1 := timeout_t1 c; timeout_t2 := timeout_t2 c; timeout_expire := timeout_expire c |}.
Definition with_delay (x0 : Z) (c : Client) : Client :=
  {| c_state := c_state c; c_hw := c_hw c; c_mtu := c_mtu c; rapid_commit := rapid_commit c; request_broadcast := request_broadcast c; last_addr := last_addr c; c_xid := c_xid c; start_time := start_time c; start_delay := x0; t1_time := t1_time c; t2_time := t2_time c; expire_time := expire_time c; discover_attempt := discover_attempt c; request_attempt := request_attempt c; max_discover_attempts := max_discover_attempts c; c_lease := c_lease c; c_rx := c_rx c; timeout_resend := timeout_resend c; timeout_t1 := timeout_t1 c; timeout_t2 := timeout_t2 c; timeout_expire := timeout_expire c |}.
Definition with_times (x0 : Z) (x1 : Z) (x2 : Z) (c : Client) : Client :=
  {| c_state := c_state c; c_hw := c_hw c; c_mtu := c_mtu c; rapid_commit := rapid_commit c; request_broadcast := request_broadcast c; last_addr := last_addr c; c_xid := c_xid c; start_time := start_time c; start_delay := start_delay c; t1_time := x0; t2_time := x1; expire_time := x2; discover_attempt := discover_attempt c; request_attempt := request_attempt c; max_discover_attempts := max_discover_attempts c; c_lease := c_lease c; c_rx := c_rx c; timeout_resend := timeout_resend c; timeout_t1 := timeout_t1 c; timeout_t2 := timeout_t2 c; timeout_expire := timeout_expire c |}.
Definition with_discover (x0 : Z) (c : Client) : Client :=
  {| c_state := c_state c; c_hw := c_hw c; c_mtu := c_mtu c; rapid_commit := rapid_commit c; request_broadcast := request_broadcast c; last_addr := last_addr c; c_xid := c_xid c; start_time := start_time c; start_delay := start_delay c; t1_time := t1_time c; t2_time := t2_time c; expire_time := expire_time c; discover_attempt := x0; request_attempt := request_attempt c; max_discover_attempts := max_discover_attempts c; c_lease := c_lease c; c_rx := c_rx c; timeout_resend := timeout_resend c; timeout_t1 := timeout_t1 c; timeout_t2 := timeout_t2 c; timeout_expire := timeout_expire c |}.
Definition with_request (x0 : Z) (c : Client) : Client :=
  {| c_state := c_state c; c_hw := c_hw c; c_mtu := c_mtu c; rapid_commit := rapid_commit c; request_broadcast := request_broadcast c; last_addr := last_addr c; c_xid := c_xid c; start_time := start_time c; start_delay := start_delay c; t1_time := t1_time c; t2_time := t2_time c; expire_time := expire_time c; discover_attempt := discover_attempt c; request_attempt := x0; max_discover_attempts := max_discover_attempts c; c_lease := c_lease c; c_rx := c_rx c; timeout_resend := timeout_resend c; timeout_t1 := timeout_t1 c; timeout_t2 := timeout_t2 c; timeout_expire := timeout_expire c |}.
Definition with_lease (x0 : option Lease) (c : Client) : Client :=
  {| c_state := c_state c; c_hw := c_hw c; c_mtu := c_mtu c; rapid_commit := rapid_commit c; request_broadcast := request_broadcast c; last_addr := last_addr c; c_xid := c_xid c; start_time := start_time c; start_delay := start_delay c; t1_time := t1_time c; t2_time := t2_time c; expire_time := expire_time c; discover_attempt := discover_attempt c; request_attempt := request_attempt c; max_discover_attempts := max_discover_attempts c; c_lease := x0; c_rx := c_rx c; timeout_resend := timeout_resend c; timeout_t1 := timeout_t1 c; timeout_t2 := timeout_t2 c; timeout_expire := timeout_expire c |}.
Definition with_last (x0 : ip4) (c : Client) : Client :=
  {| c_state := c_state c; c_hw := c_hw c; c_mtu := c_mtu c; rapid_commit := rapid_commit c; request_broadcast := request_broadcast c; last_addr := x0; c_xid := c_xid c; start_time := start_time c; start_delay := start_delay c; t1_time := t1_time c; t2_time := t2_time c; expire_time := expire_time c; discover_attempt := discover_attempt c; request_attempt := request_attempt c; max_discover_attempts := max_discover_attempts c; c_lease := c_lease c; c_rx := c_rx c; timeout_resend := timeout_resend c; timeout_t1 := timeout_t1 c; timeout_t2 := timeout_t2 c; timeout_expire := timeout_expire c |}.
Definition with_mtu (x0 : Z) (c : Client) : Client :=
  {| c_state := c_state c; c_hw := c_hw c; c_mtu := x0; rapid_commit := rapid_commit c; request_broadcast := request_broadcast c; last_addr := last_addr c; c_xid := c_xid c; start_time := start_time c; start_delay := start_delay c; t1_time := t1_time c; t2_time := t2_time c; expire_time := expire_time c; discover_attempt := discover_attempt c; request_attempt := request_attempt c; max_discover_attempts := max_discover_attempts c; c_lease := c_lease c; c_rx := c_rx c; timeout_resend := timeout_resend c; timeout_t1 := timeout_t1 c; timeout_t2 := timeout_t2 c; timeout_expire := timeout_expire c |}.
Definition with_rx (x0 : Rx) (c : Client) : Client :=
  {| c_state := c_state c; c_hw := c_hw c; c_mtu := c_mtu c; rapid_commit := rapid_commit c; request_broadcast := request_broadcast c; last_addr := last_addr c; c_xid := c_xid c; start_time := start_time c; start_delay := start_delay c; t1_time := t1_time c; t2_time := t2_time c; expire_time := expire_time c; discover_attempt := discover_attempt c; request_attempt := request_attempt c; max_discover_attempts := max_discover_attempts c; c_lease := c_lease c; c_rx := x0; timeout_resend := timeout_resend c; timeout_t1 := timeout_t1 c; timeout_t2 := timeout_t2 c; timeout_expire := timeout_expire c |}.
Definition with_resend (x0 : option Z) (c : Client) : Client :=
  {| c_state := c_state c; c_hw := c_hw c; c_mtu := c_mtu c; rapid_commit := rapid_commit c; request_broadcast := request_broadcast c; last_addr := last_addr c; c_xid := c_xid c; start_time := start_time c; start_delay := start_delay c; t1_time := t1_time c; t2_time := t2_time c; expire_time := expire_time c; discover_attempt := discover_attempt c; request_attempt := request_attempt c; max_discover_attempts := max_discover_attempts c; c_lease := c_lease c; c_rx := c_rx c; timeout_resend := x0; timeout_t1 := timeout_t1 c; timeout_t2 := timeout_t2 c; timeout_expire := timeout_expire c |}.
Definition with_t1 (x0 : option Z) (c : Client) : Client :=
  {| c_state := c_state c; c_hw := c_hw c; c_mtu := c_mtu c; rapid_commit := rapid_commit c; request_broadcast := request_broadcast c; last_addr := last_addr c; c_xid := c_xid c; start_time := start_time c; start_delay := start_delay c; t1_time := t1_time c; t2_time := t2_time c; expire_time := expire_time c; discover_attempt := discover_attempt c; request_attempt := request_attempt c; max_discover_attempts := max_discover_attempts c; c_lease := c_lease c; c_rx := c_rx c; timeout_resend := timeout_resend c; timeout_t1 := x0; timeout_t2 := timeout_t2 c; timeout_expire := timeout_expire c |}.
Definition with_t2 (x0 : option Z) (c : Client) : Client :=
  {| c_state := c_state c; c_hw := c_hw c; c_mtu := c_mtu c; rapid_commit := rapid_commit c; request_broadcast := request_broadcast c; last_addr := last_addr c; c_xid := c_xid c; start_time := start_time c; start_delay := start_delay c; t1_time := t1_time c; t2_time := t2_time c; expire_time := expire_time c; discover_attempt := discover_attempt c; request_attempt := request_attempt c; max_discover_attempts := max_discover_attempts c; c_lease := c_lease c; c_rx := c_rx c; timeout_resend := timeout_resend c; timeout_t1 := timeout_t1 c; timeout_t2 := x0; timeout_expire := timeout_expire c |}.
Definition with_expire (x0 : option Z) (c : Client) : Client :=
  {| c_state := c_state c; c_hw := c_hw c; c_mtu := c_mtu c; rapid_commit := rapid_commit c; request_broadcast := request_broadcast c; last_addr := last_addr c; c_xid := c_xid c; start_time := start_time c; start_delay := start_delay c; t1_time := t1_time c; t2_time := t2_time c; expire_time := expire_time c; discover_attempt := discover_attempt c; request_attempt := request_attempt c; max_discover_attempts := max_discover_attempts c; c_lease := c_lease c; c_rx := c_rx c; timeout_resend := timeout_resend c; timeout_t1 := timeout_t1 c; timeout_t2 := timeout_t2 c; timeout_expire := x0 |}.


Definition new (hw : mac) (mtu : Z) : Client :=
  {| c_state := Stopped; c_hw := hw; c_mtu := mtu; rapid_commit := true; request_broadcast := false; last_addr := zero4; c_xid := 0; start_time := 0; start_delay := 0;
     t1_time := 0; t2_time := 0; expire_time := 0; discover_attempt := 0; request_attempt := 0; max_discover_attempts := 2 ^ 64 - 1; c_lease := None; c_rx := RxNone;
     timeout_resend := None; timeout_t1 := None; timeout_t2 := None; timeout_expire := None |}.

Definition is_running (c : Client) : bool := negb (bool_decide (c_state c = Stopped)).
Definition lease_times (c : Client) : option (Z * Z * Z) := (λ _, (t1_time c, t2_time c, expire_time c)) <$> timeout_expire c.
Definition set_request_address (a : option ip4) (c : Client) : Client := with_last (default zero4 a) c.
Definition set_mtu (mtu : Z) (c : Client) : Client := if 68 <=? mtu then with_mtu mtu c else c.
Definition next_deadline (c : Client) : option Z :=
  foldr (λ t m, match t, m with Some t, Some m => Some (Z.min t m) | Some t, None => Some t | None, m => m end) None
    [timeout_resend c; timeout_t1 c; timeout_t2 c; timeout_expire c].

Definition set_state (st : State) (c : Client) : Client :=
  if bool_decide (c_state c = st) then c else
  with_state st
    (match st with Stopped | Bound => 0 | _ => discover_attempt c end)
    (match st with Rebooting | Requesting | Renewing | Rebinding => 0 | _ => request_attempt c end) c.
Definition disable_event_sources (c : Client) : Client :=
  with_expire None (with_t2 None (with_t1 None (with_resend None (with_rx RxNone c)))).
Definition initialize (c : Client) : Client :=
  with_lease None (with_xid 0 (set_state Stopped (disable_event_sources c))).

(** ** Messages *)

(** [let _ = m.append_option(..)]. *)
Definition append (m : Message) (code : Z) (data : list byte) : Message :=
  match append_option m code data with Ok m => m | _ => m end.

Definition lease_addr (c : Client) : ip4 := match c_lease c with Some l => address l | None => zero4 end.
Definition server (c : Client) : ip4 := match c_lease c with Some l => server_address l | None => zero4 end.

(** RFC 2131 §4.3.2: the address asked for, and whether it goes into [ciaddr]. *)
Definition asked (c : Client) (kind : Z) : ip4 * bool :=
  if kind =? DHCP_DISCOVER then (last_addr c, false)
  else if kind =? DHCP_REQUEST then
    match c_state c with
    | Requesting => (lease_addr c, false)
    | Rebooting => (last_addr c, false)
    | _ => (zero4, true)
    end
  else (lease_addr c, false).

Definition clamp (z lo hi : Z) : Z := Z.max lo (Z.min hi z).

Definition new_message (c : Client) (kind now : Z) : Message :=
  let m := message.new BOOTREQUEST (c_xid c) (c_hw c) in
  let elapsed := sat_sub now (start_time c) in
  let m := set_secs m (usec_to_sec16 (if elapsed =? 0 then USEC_PER_SEC else elapsed)) in
  let m := set_broadcast_flag m (request_broadcast c) in
  let m := append m OPT_MESSAGE_TYPE [byte_of kind] in
  let m := if (kind =? DHCP_REQUEST) && bool_decide (c_state c = Requesting) || (kind =? DHCP_DECLINE)
           then append m OPT_SERVER_IDENTIFIER (server c) else m in
  let m := append m OPT_CLIENT_IDENTIFIER (byte_of ARPHRD_ETHER :: c_hw c) in
  let '(addr, to_ciaddr) := asked c kind in
  let m := if to_ciaddr : bool then set_ciaddr m (lease_addr c) else m in
  let m := if bool_decide (addr = zero4) then m else append m OPT_REQUESTED_IP_ADDRESS addr in
  if kind =? DHCP_DECLINE then m else
  let m := append m OPT_PARAMETER_REQUEST_LIST (byte_of <$> merge_sort Z.le REQ_OPTS) in
  let m := append m OPT_MAXIMUM_MESSAGE_SIZE (be16 (clamp (c_mtu c) IPV4_MIN_REASSEMBLY_SIZE 65535)) in
  if rapid_commit c && (kind =? DHCP_DISCOVER) then append m OPT_RAPID_COMMIT [] else m.

Definition parse_message (c : Client) (b : list byte) : option (Z * option Lease) :=
  m ← match parse b BOOTREPLY (Some (c_xid c)) (Some (c_hw c)) with Ok m => Some m | _ => None end;
  kind ← option_u8 m OPT_MESSAGE_TYPE;
  if kind =? DHCP_OFFER then
    if bool_decide (c_state c = Selecting) then l ← from_message m 0; Some (DHCP_OFFER, Some l) else None
  else if kind =? DHCP_ACK then
    match c_state c with
    | Selecting =>
        if negb (rapid_commit c) || bool_decide (option_exact m OPT_RAPID_COMMIT 0 = None) then None
        else l ← from_message m 0; Some (DHCP_ACK, Some l)
    | Rebooting | Requesting | Renewing | Rebinding => l ← from_message m 0; Some (DHCP_ACK, Some l)
    | _ => None
    end
  else if kind =? DHCP_NAK then
    match c_state c with
    | Rebooting | Requesting | Renewing | Rebinding =>
        server ← option_addr m OPT_SERVER_IDENTIFIER;
        if match c_lease c with Some l => negb (bool_decide (server_address l = server)) | None => false end then None
        else Some (DHCP_NAK, None)
    | _ => None
    end
  else None.

Section random.
Context {G : Type} (rnd : G → Z * G).

Definition St : Type := Client * Out * G.
Definition D := M St unit.

Definition client : D Client := λ s, (Ok s.1.1, s).
Definition modify (f : Client → Client) : D unit := λ s, (Ok tt, (f s.1.1, s.1.2, s.2)).
Definition push_event (e : Event) : D unit := λ s, (Ok tt, (s.1.1, {| send := send s.1.2; events := events s.1.2 ++ [e] |}, s.2)).
Definition push_send (d : Dest) (b : list byte) : D unit := λ s, (Ok tt, (s.1.1, {| send := send s.1.2 ++ [(d, b)]; events := events s.1.2 |}, s.2)).
Definition draw : D Z := λ s, (Ok (rnd s.2).1, (s.1.1, s.1.2, (rnd s.2).2)).

Definition fuzz : D Z := r ← draw; mret (r `mod` (2 * USEC_PER_SEC) - USEC_PER_SEC).
Definition request_timeout (attempt : Z) : D Z :=
  let t := Z.shiftl 1 (Z.min (u64 (attempt + 1)) 6) * USEC_PER_SEC in
  d ← fuzz; mret (sub_signed t d).

(** [dhcp_client_send_message]. *)
Definition send_message (kind now : Z) : D unit :=
  c ← client;
  match build (new_message c kind now) with
  | Ok bytes =>
      if (kind =? DHCP_REQUEST) && bool_decide (c_state c = Renewing) then
        match c_lease c with
        | None => mret tt
        | Some l =>
            if bool_decide (address l = zero4) then mret tt
            else _ ← modify (with_rx RxUdp); push_send (Server (server_address l)) bytes
        end
      else if kind =? DHCP_DECLINE then _ ← modify (with_rx RxNone); push_send Broadcast bytes
      else _ ← modify (with_rx RxRaw); push_send Broadcast bytes
  | _ => mret tt
  end.

Definition stop : D unit :=
  c ← client;
  _ ← (if is_running c then push_event Stop else mret tt);
  modify initialize.

Definition start_delayed (now : Z) : D unit :=
  _ ← modify (λ c, with_lease None (disable_event_sources c));
  x ← draw;
  _ ← modify (λ c, with_start now (with_xid (u32 x) c));
  _ ← modify (λ c, if bool_decide (c_state c = InitReboot) then c else set_state Init c);
  modify (λ c, with_resend (Some (sat_add 64 now (start_delay c))) c).
Definition start_now (now : Z) : D unit := _ ← modify (with_delay 0); start_delayed now.

Definition restart (now : Z) : D unit :=
  c ← client;
  _ ← (match c_state c with Bound | Renewing | Rebinding => push_event Expired | _ => mret tt end);
  if bool_decide (c_state c = Rebooting) then start_now now else
  _ ← modify (λ c, with_delay (clamp (u64 (start_delay c * 2)) RESTART_AFTER_NAK_MIN_USEC RESTART_AFTER_NAK_MAX_USEC) c);
  start_delayed now.

(** ** Timers *)
Definition resend_send (next now : Z) : D unit :=
  _ ← modify (λ c, with_resend (Some (sat_add 64 now next)) c);
  c ← client;
  match c_state c with
  | Selecting =>
      _ ← send_message DHCP_DISCOVER now;
      c ← client;
      if TRANSIENT_FAILURE_ATTEMPTS <=? discover_attempt c then push_event TransientFailure else mret tt
  | _ => send_message DHCP_REQUEST now
  end.

Definition timeout_resend_fired (now : Z) : D unit :=
  c ← client;
  match c_state c with
  | Renewing => resend_send (reacquisition_timeout now (t2_time c)) now
  | Rebinding => resend_send (reacquisition_timeout now (expire_time c)) now
  | Init | Selecting =>
      _ ← modify (set_state Selecting);
      c ← client;
      if max_discover_attempts c <=? discover_attempt c then stop else
      _ ← modify (λ c, with_discover (u64 (discover_attempt c + 1)) c);
      c ← client; next ← request_timeout (discover_attempt c);
      resend_send next now
  | InitReboot | Rebooting =>
      _ ← modify (set_state Rebooting);
      c ← client;
      if MAX_REQUEST_ATTEMPTS_ON_REBOOTING <=? request_attempt c then restart now else
      _ ← modify (λ c, with_request (u64 (request_attempt c + 1)) c);
      c ← client; next ← request_timeout (request_attempt c);
      resend_send (next / 4) now
  | Requesting =>
      if MAX_REQUEST_ATTEMPTS <=? request_attempt c then restart now else
      _ ← modify (λ c, with_request (u64 (request_attempt c + 1)) c);
      c ← client; next ← request_timeout (request_attempt c);
      resend_send next now
  | Stopped | Bound => mret tt
  end.

Definition timeout_expire_fired (now : Z) : D unit := _ ← push_event Expired; start_now now.

(** [min()] of the pairs: the earliest, the first of equals. *)
Definition earlier (a b : Z * Z) : Z * Z := if (b.1 <? a.1) || ((b.1 =? a.1) && (b.2 <? a.2)) then b else a.
Definition due (c : Client) (now : Z) : option (Z * Z) :=
  foldr (λ p m,
    match p.1 with
    | Some t => if t <=? now then match m with Some q => Some (earlier (t, p.2) q) | None => Some (t, p.2) end else m
    | None => m
    end) None [(timeout_expire c, 0); (timeout_t2 c, 1); (timeout_t1 c, 2); (timeout_resend c, 3)].

Definition fire (k now : Z) : D unit :=
  if k =? 0 then _ ← modify (with_expire None); timeout_expire_fired now
  else if k =? 1 then _ ← modify (λ c, set_state Rebinding (with_rx RxNone (with_t2 None c))); timeout_resend_fired now
  else if k =? 2 then _ ← modify (λ c, set_state Renewing (with_t1 None c)); timeout_resend_fired now
  else _ ← modify (with_resend None); timeout_resend_fired now.

(** [loop]: seven timers at most fire before none is due. *)
Fixpoint tick_loop (fuel : nat) (now : Z) : D unit :=
  match fuel with
  | O => mret tt
  | S fuel => c ← client; match due c now with None => mret tt | Some (_, k) => _ ← fire k now; tick_loop fuel now end
  end.
Definition tick (now : Z) : D unit := tick_loop 8 now.

(** ** Calls *)
Definition start (now : Z) : D unit :=
  _ ← modify (λ c, if negb (bool_decide (last_addr c = zero4)) then set_state InitReboot c else c);
  _ ← start_now now;
  tick now.

Definition send_renew (now : Z) : D unit :=
  c ← client;
  if negb (bool_decide (c_state c = Bound)) then mret tt else
  _ ← modify (λ c, with_resend (Some now) (with_delay 0 (set_state Renewing c)));
  tick now.

Definition send_decline (now : Z) : D unit :=
  c ← client;
  if negb (is_running c) || bool_decide (c_lease c = None) then mret tt else
  _ ← send_message DHCP_DECLINE now;
  _ ← restart now;
  tick now.

Definition set_lease_timeouts (now : Z) : D unit :=
  c ← client;
  l ← of_opt (c_lease c);
  if lifetime l =? INFINITY then modify (λ c, with_expire None (with_t2 None (with_t1 None c))) else
  let expire := sat_add 64 (timestamp l) (lifetime l) in
  d1 ← fuzz; d2 ← fuzz;
  let t1' := sub_signed (sat_add 64 (timestamp l) (t1 l)) d1 in
  let t2' := Z.max (sub_signed (sat_add 64 (timestamp l) (t2 l)) d2) t1' in
  _ ← modify (λ c, with_expire (Some expire) (with_times t1' t2' expire c));
  if expire <=? now then mret tt else
  _ ← modify (with_t2 (Some t2'));
  if t2' <=? now then mret tt else
  modify (with_t1 (Some t1')).

Definition enter_requesting (now : Z) : D unit :=
  modify (λ c, with_resend (Some now) (set_state Requesting (disable_event_sources c))).

Definition bound_event (c : Client) (l : Lease) : Event :=
  match c_state c with
  | Renewing | Rebinding =>
      if match c_lease c with Some old => same_binding old l | None => false end then Renew else IpChange
  | _ => IpAcquire
  end.

Definition enter_bound (l : Lease) (now : Z) : D unit :=
  c ← client;
  _ ← modify (λ c, set_state Bound (with_delay 0 (disable_event_sources (with_lease (Some l) c))));
  _ ← modify (with_last (address l));
  _ ← set_lease_timeouts now;
  push_event (bound_event c l).

Definition with_timestamp (l : Lease) (now : Z) : Lease :=
  {| address := address l; subnet_mask := subnet_mask l; server_address := server_address l; lifetime := lifetime l; t1 := t1 l; t2 := t2 l; broadcast := broadcast l;
     routers := routers l; dns := dns l; ntp := ntp l; static_routes := static_routes l; classless_routes := classless_routes l; mtu := mtu l; timestamp := now |}.

Definition receive (b : list byte) (to_lease_addr : bool) (now : Z) : D unit :=
  c ← client;
  if match c_rx c with RxNone => true | RxUdp => negb to_lease_addr | RxRaw => false end then mret tt else
  match parse_message c b with
  | None => mret tt
  | Some (kind, l) =>
      _ ← (if kind =? DHCP_OFFER then
             l ← of_opt l;
             _ ← modify (with_lease (Some (with_timestamp l now)));
             _ ← push_event EvSelecting;
             enter_requesting now
           else if kind =? DHCP_ACK then
             l ← of_opt l; enter_bound (with_timestamp l now) now
           else restart now);
      tick now
  end.
End random.

End dhcp.
