(* ===== verification/DhcpSpec.v ===== *)
(** * What the DHCP client guarantees

    Safety: an address is held only between the events that give and take it, under a
    lease an ACK granted, and after a tick never past that lease's end.  Liveness: a
    running client always has a timer to wake it, and a tick leaves none due, in
    at most seven firings. *)

From S2P Require Import Prelude Bytes NetBytes Ip DhcpMessage DhcpLease Dhcp.
Import message lease dhcp.

(** Whether the address is held, by the events reported. *)
Definition hold (h : bool) (e : Event) : bool :=
  match e with IpAcquire | IpChange | Renew => true | Expired | Stop => false | EvSelecting | TransientFailure => h end.
Definition held (evs : list Event) : bool := foldl hold false evs.

Lemma held_snoc evs e : held (evs ++ [e]) = hold (held evs) e.
Proof. unfold held. by rewrite foldl_app. Qed.

(** BOUND and the states that renew it. *)
Definition has_binding (st : State) : bool := match st with Bound | Renewing | Rebinding => true | _ => false end.

Section random.
Context {G : Type} (rnd : G → Z * G).
Notation D := (@D G).
Notation St := (@St G).

(** Runs to the end, with a client and events that satisfy [P]. *)
Definition ends (m : D unit) (s : St) (P : Client → list Event → Prop) : Prop :=
  wp m (λ r s', r = Ok tt ∧ P s'.1.1 (events s'.1.2)) s.

Lemma dhcp_ends_bind (m : D unit) (k : unit → D unit) s P R :
  ends m s R → (∀ s', R s'.1.1 (events s'.1.2) → ends (k tt) s' P) → ends (m ≫= k) s P.
Proof. intros Hm Hk. apply wp_bind. eapply wp_mono; [exact Hm|]. intros r s' [-> HR]. by apply Hk. Qed.

Lemma ends_mono (m : D unit) s (P R : Client → list Event → Prop) : ends m s R → (∀ c ev, R c ev → P c ev) → ends m s P.
Proof. intros Hm HR. eapply wp_mono; [exact Hm|]. intros r s' [-> H]. split; [done|auto]. Qed.

Lemma ends_ret s (P : Client → list Event → Prop) : P s.1.1 (events s.1.2) → ends (mret tt) s P.
Proof. by intros H. Qed.

Lemma ends_modify f s (P : Client → list Event → Prop) : P (f s.1.1) (events s.1.2) → ends (modify f) s P.
Proof. by intros H. Qed.

Lemma ends_event e s (P : Client → list Event → Prop) : P s.1.1 (events s.1.2 ++ [e]) → ends (push_event e) s P.
Proof. by intros H. Qed.

Lemma ends_modify_then f (k : D unit) s P : (∀ s', s'.1.1 = f s.1.1 → events s'.1.2 = events s.1.2 → ends k s' P) → ends (_ ← modify f; k) s P.
Proof. intros Hk. eapply (dhcp_ends_bind _ _ _ _ (λ c ev, c = f s.1.1 ∧ ev = events s.1.2)); [by apply ends_modify|]. intros s' [E1 E2]. auto. Qed.

Lemma ends_event_then e (k : D unit) s P : (∀ s', s'.1.1 = s.1.1 → events s'.1.2 = events s.1.2 ++ [e] → ends k s' P) → ends (_ ← push_event e; k) s P.
Proof. intros Hk. eapply (dhcp_ends_bind _ _ _ _ (λ c ev, c = s.1.1 ∧ ev = events s.1.2 ++ [e])); [by apply ends_event|]. intros s' [E1 E2]. auto. Qed.

Lemma ends_client (k : Client → D unit) s P : ends (k s.1.1) s P → ends (c ← client; k c) s P.
Proof. by intros H. Qed.

Lemma ends_draw (k : Z → D unit) s P : (∀ x s', s'.1.1 = s.1.1 → events s'.1.2 = events s.1.2 → ends (k x) s' P) → ends (x ← draw rnd; k x) s P.
Proof. intros Hk. apply (Hk _ (s.1.1, s.1.2, (rnd s.2).2)); done. Qed.

Lemma ends_fuzz (k : Z → D unit) s P :
  (∀ d s', - USEC_PER_SEC ≤ d < USEC_PER_SEC → s'.1.1 = s.1.1 → events s'.1.2 = events s.1.2 → ends (k d) s' P) → ends (d ← fuzz rnd; k d) s P.
Proof.
  intros Hk. unfold fuzz, ends. apply wp_bind, wp_bind. unfold wp at 1, draw. apply wp_ret. apply Hk; [|done..].
  pose proof (Z.mod_pos_bound (rnd s.2).1 (2 * USEC_PER_SEC) ltac:(done)). lia.
Qed.

Lemma ends_of_opt {A} (o : option A) a (k : A → D unit) s P : o = Some a → ends (k a) s P → ends (a ← of_opt o; k a) s P.
Proof. by intros ->. Qed.

(** ** Sending and starting over *)
Definition only_rx (c c' : Client) : Prop := ∃ x, c' = with_rx x c.

Lemma send_message_ends kind now s : ends (send_message kind now) s (λ c ev, only_rx s.1.1 c ∧ ev = events s.1.2).
Proof.
  apply ends_client. assert (only_rx s.1.1 s.1.1) as H0 by (exists (c_rx s.1.1); by destruct s.1.1).
  destruct (build _); [|by apply ends_ret..]. destruct (_ && _).
  - destruct (c_lease s.1.1); [|by apply ends_ret]. destruct (bool_decide _); [by apply ends_ret|]. split; [done|]. split; [by eexists|done].
  - destruct (_ =? _); (split; [done|]; split; [by eexists|done]).
Qed.

(** A client that starts over at [now]. *)
Record restarted (now : Z) (c : Client) : Prop := {
  rs_state : c_state c = Init ∨ c_state c = InitReboot;
  rs_resend : timeout_resend c = Some (sat_add 64 now (start_delay c));
  rs_others : timeout_t1 c = None ∧ timeout_t2 c = None ∧ timeout_expire c = None }.

Lemma start_delayed_ends now s : ends (start_delayed rnd now) s (λ c ev,
  restarted now c ∧ c_hw c = c_hw s.1.1 ∧ start_delay c = start_delay s.1.1 ∧ request_attempt c = request_attempt s.1.1 ∧
  (c_state s.1.1 ≠ InitReboot → c_state c = Init) ∧ ev = events s.1.2).
Proof.
  unfold start_delayed. apply ends_modify_then. intros s1 E1 V1. apply ends_draw. intros x s2 E2 V2. apply ends_modify_then. intros s3 E3 V3. apply ends_modify_then. intros s4 E4 V4. apply ends_modify.
  rewrite V4, V3, V2, V1, E4, E3, E2, E1. cbn [c_state with_start with_xid with_lease disable_event_sources with_rx with_resend with_t1 with_t2 with_expire]. clear.
  case_bool_decide as Es; [|unfold set_state; cbn; case_bool_decide as Ei; cbn in Ei]; (split_and!; [split; cbn; auto|..]); cbn; auto; congruence.
Qed.

Lemma start_now_ends now s : ends (start_now rnd now) s (λ c ev,
  restarted now c ∧ c_hw c = c_hw s.1.1 ∧ start_delay c = 0 ∧ request_attempt c = request_attempt s.1.1 ∧ (c_state s.1.1 ≠ InitReboot → c_state c = Init) ∧ ev = events s.1.2).
Proof. apply ends_modify_then. intros s1 E1 V1. eapply ends_mono; [apply start_delayed_ends|]. intros c ev H. rewrite E1, V1 in H. exact H. Qed.

Lemma restart_ends now s : ends (restart rnd now) s (λ c ev,
  restarted now c ∧ c_hw c = c_hw s.1.1 ∧ request_attempt c = request_attempt s.1.1 ∧ (c_state s.1.1 ≠ InitReboot → c_state c = Init) ∧
  (c_state s.1.1 = Rebooting ∧ start_delay c = 0 ∨ USEC_PER_SEC ≤ start_delay c) ∧ ev = (if has_binding (c_state s.1.1) then events s.1.2 ++ [Expired] else events s.1.2)).
Proof.
  apply ends_client. eapply (dhcp_ends_bind _ _ _ _ (λ c ev, c = s.1.1 ∧ ev = (if has_binding (c_state s.1.1) then events s.1.2 ++ [Expired] else events s.1.2))).
  { destruct (c_state s.1.1); first [by apply ends_event | by apply ends_ret]. }
  intros s1 [E1 V1]. case_bool_decide as Er.
  - eapply ends_mono; [apply start_now_ends|]. intros c ev (H1 & H2 & H3 & H4 & H5 & ->). rewrite E1, V1 in *. split_and!; auto.
  - apply ends_modify_then. intros s2 E2 V2. eapply ends_mono; [apply start_delayed_ends|]. intros c ev (H1 & H2 & H3 & H4 & H5 & ->). rewrite E2, E1, V2, V1 in *. cbn in *. split_and!; auto.
    right. rewrite H3. unfold clamp, RESTART_AFTER_NAK_MIN_USEC. lia.
Qed.

Lemma stop_ends s : ends stop s (λ c ev, c = initialize s.1.1 ∧ ev = (if is_running s.1.1 then events s.1.2 ++ [Stop] else events s.1.2)).
Proof.
  apply ends_client. eapply (dhcp_ends_bind _ _ _ _ (λ c ev, c = s.1.1 ∧ ev = (if is_running s.1.1 then events s.1.2 ++ [Stop] else events s.1.2))).
  { destruct (is_running s.1.1); [by apply ends_event|by apply ends_ret]. }
  intros s1 [E1 V1]. apply ends_modify. by rewrite E1, V1.
Qed.

Lemma resend_send_ends next now s : ends (resend_send next now) s (λ c ev,
  only_rx (with_resend (Some (sat_add 64 now next)) s.1.1) c ∧ held ev = held (events s.1.2)).
Proof.
  apply ends_modify_then. intros s1 E1 V1. apply ends_client. rewrite <- E1, <- V1.
  assert (ends (send_message DHCP_REQUEST now) s1 (λ c ev, only_rx s1.1.1 c ∧ held ev = held (events s1.1.2))) as Hr.
  { eapply ends_mono; [apply send_message_ends|]. intros c ev [H ->]. done. }
  destruct (c_state s1.1.1); [exact Hr|exact Hr| |exact Hr..]. eapply dhcp_ends_bind; [apply send_message_ends|]. intros s2 [E2 V2]. apply ends_client.
  destruct (_ <=? _); [apply ends_event; rewrite held_snoc, V2|apply ends_ret; rewrite V2]; exact (conj E2 eq_refl).
Qed.

(** ** The invariant *)
Section inv.
Context (h : mac) (recv : list (list byte * Z)).

(** An ACK for us granted [l] when it arrived. *)
Definition granted (l : Lease) : Prop :=
  ∃ b t x m l0, (b, t) ∈ recv ∧ parse b BOOTREPLY (Some x) (Some h) = Ok m ∧ option_u8 m OPT_MESSAGE_TYPE = Some DHCP_ACK ∧
    from_message m 0 = Some l0 ∧ l = with_timestamp l0 t.

Record core (c : Client) (ev : list Event) : Prop := {
  i_hw : c_hw c = h;
  i_held : held ev = has_binding (c_state c);
  i_lease : has_binding (c_state c) = true → ∃ l, c_lease c = Some l ∧ granted l ∧
              (lifetime l = INFINITY ∨ timeout_expire c = Some (sat_add 64 (timestamp l) (lifetime l)));
  i_timers : timeout_t1 c ≠ None ∨ timeout_t2 c ≠ None ∨ timeout_expire c ≠ None → has_binding (c_state c) = true;
  i_req : 0 ≤ request_attempt c }.

(** Outside BOUND a running client will try again. *)
Definition live (c : Client) : Prop := c_state c ≠ Stopped → c_state c ≠ Bound → timeout_resend c ≠ None.
Definition inv (c : Client) (ev : list Event) : Prop := core c ev ∧ live c.

Definition due_in (o : option Z) (now : Z) : bool := match o with Some t => t <=? now | None => false end.
Definition weight (c : Client) (now : Z) : Z :=
  (if due_in (timeout_expire c) now then 3 else 0) + (if due_in (timeout_t2 c) now then 1 else 0) + (if due_in (timeout_t1 c) now then 1 else 0) +
  (if due_in (timeout_resend c) now then match c_state c with InitReboot | Rebooting => 2 | _ => 1 end else 0).

Lemma due_spec c now : match due c now with
  | Some (_, k) => k = 0 ∧ due_in (timeout_expire c) now = true ∨ k = 1 ∧ due_in (timeout_t2 c) now = true ∨ k = 2 ∧ due_in (timeout_t1 c) now = true ∨
                   k = 3 ∧ due_in (timeout_resend c) now = true
  | None => due_in (timeout_expire c) now = false ∧ due_in (timeout_t2 c) now = false ∧ due_in (timeout_t1 c) now = false ∧ due_in (timeout_resend c) now = false
  end.
Proof.
  unfold due. set (l := [_; _; _; _]). set (f := λ p m, _). assert (∀ l, match foldr f None l with
    | Some (_, k) => ∃ o, (o, k) ∈ l ∧ due_in o now = true | None => Forall (λ p, due_in p.1 now = false) l end) as H.
  { clear. induction l as [|[o k] l IH]; [by constructor|]. cbn [foldr]. unfold f at 1. cbn [fst snd]. destruct o as [t|]; [destruct (t <=? now) eqn:E|].
    - destruct (foldr f None l) as [[t' k']|]; [|exists (Some t); split; [left|done]]. unfold earlier. cbn [fst snd]. destruct IH as (o & Ho & Hd).
      destruct (_ || _); [exists o; split; [by right|done]|exists (Some t); split; [left|done]].
    - destruct (foldr f None l) as [[t' k']|]; [destruct IH as (o & Ho & Hd); exists o; split; [by right|done]|by constructor].
    - destruct (foldr f None l) as [[t' k']|]; [destruct IH as (o & Ho & Hd); exists o; split; [by right|done]|by constructor]. }
  specialize (H l). unfold l in *. clear l. destruct (foldr f None _) as [[t k]|].
  - destruct H as (o & Ho & Hd). rewrite !elem_of_cons, elem_of_nil in Ho. destruct Ho as [[= -> ->]|[[= -> ->]|[[= -> ->]|[[= -> ->]|[]]]]]; tauto.
  - rewrite !Forall_cons in H. cbn [fst] in H. tauto.
Qed.

Lemma weight_zero c now : due c now = None ↔ weight c now = 0.
Proof.
  pose proof (due_spec c now) as H. destruct (due c now) as [[t k]|].
  - split; [done|]. intros Hw. unfold weight in Hw. destruct H as [[_ H]|[[_ H]|[[_ H]|[_ H]]]]; rewrite H in Hw; repeat case_match; lia.
  - destruct H as (H1 & H2 & H3 & H4). unfold weight. rewrite H1, H2, H3, H4. done.
Qed.

(** ** One timer *)
Lemma sat_add_later now n : 0 ≤ now < 2 ^ 64 - 1 → 1 ≤ n → (sat_add 64 now n <=? now) = false.
Proof. intros. unfold sat_add. lia. Qed.

(** The timers that fire only once are as they were. *)
Definition same_timers (c c' : Client) : Prop := timeout_t1 c' = timeout_t1 c ∧ timeout_t2 c' = timeout_t2 c ∧ timeout_expire c' = timeout_expire c.

Lemma core_resend c ev o : core c ev → core (with_resend o c) ev.
Proof. intros [H1 H2 H3 H4 H5]. by split. Qed.

Lemma resend_inv next now s : core s.1.1 (events s.1.2) → 0 ≤ now < 2 ^ 64 - 1 → 1 ≤ next →
  ends (resend_send next now) s (λ c ev, inv c ev ∧ c_state c = c_state s.1.1 ∧ same_timers s.1.1 c ∧ due_in (timeout_resend c) now = false).
Proof.
  intros [H1 H2 H3 H4 H5] Hnow Hnext. eapply ends_mono; [apply resend_send_ends|]. intros c ev [[x ->] Hev]. cbn. split_and!; [|done|done|by apply sat_add_later].
  split; [split; cbn; try done; by rewrite Hev|by intros _ _].
Qed.

Lemma request_timeout_ends attempt (k : Z → D unit) s P :
  (∀ n s', 1 ≤ n → (1 ≤ attempt < 2 ^ 64 - 1 → 4 ≤ n) → s'.1.1 = s.1.1 → events s'.1.2 = events s.1.2 → ends (k n) s' P) → ends (n ← request_timeout rnd attempt; k n) s P.
Proof.
  intros Hk. unfold request_timeout. cbv zeta. unfold ends. apply wp_bind. set (e := Z.min _ 6). assert (0 ≤ e ≤ 6 ∧ (1 ≤ attempt < 2 ^ 64 - 1 → 2 ≤ e)) as [He1 He2].
  { unfold e, wrap. pose proof (Z.mod_pos_bound (attempt + 1) (2 ^ 64) ltac:(lia)). split; [lia|]. intros. rewrite Z.mod_small; lia. }
  clearbody e. assert (∀ d, - USEC_PER_SEC ≤ d < USEC_PER_SEC → 1 ≤ sub_signed (Z.shiftl 1 e * USEC_PER_SEC) d ∧ (2 ≤ e → 4 ≤ sub_signed (Z.shiftl 1 e * USEC_PER_SEC) d)) as Hd.
  { intros d Hd. rewrite Z.shiftl_1_l. assert (1 ≤ 2 ^ e ≤ 64 ∧ (2 ≤ e → 4 ≤ 2 ^ e)) as [Hp1 Hp2].
    { assert (e = 0 ∨ e = 1 ∨ e = 2 ∨ e = 3 ∨ e = 4 ∨ e = 5 ∨ e = 6) as Hc by lia. destruct Hc as [->|[->|[->|[->|[->|[->| ->]]]]]]; lia. }
    unfold sub_signed, USEC_PER_SEC, INFINITY, sat_add, sat_sub in *. destruct (Z.ltb_spec d 0); [lia|]. destruct (_ =? _); lia. }
  eapply (wp_bind (fuzz rnd)). unfold fuzz. apply wp_bind. unfold wp at 1, draw. apply wp_ret, wp_ret.
  pose proof (Z.mod_pos_bound (rnd s.2).1 (2 * USEC_PER_SEC) ltac:(done)) as Hm. destruct (Hd ((rnd s.2).1 `mod` (2 * USEC_PER_SEC) - USEC_PER_SEC)) as [Hn1 Hn2]; [lia|].
  apply Hk; [done|auto|done|done].
Qed.

Lemma restarted_inv now c ev : restarted now c → c_hw c = h → held ev = false → 0 ≤ request_attempt c → inv c ev.
Proof.
  intros [Hst Hr (Ht1 & Ht2 & Hte)] Hh Hev Hq. assert (has_binding (c_state c) = false) as Hb by (by destruct Hst as [-> | ->]).
  split; [split; try done; rewrite Hb; try done; naive_solver|]. intros _ _. by rewrite Hr.
Qed.

Lemma restarted_weight now c : restarted now c → weight c now ≤ 2 ∧ (c_state c = Init → weight c now ≤ 1) ∧ (0 ≤ now < 2 ^ 64 - 1 → 1 ≤ start_delay c → weight c now = 0).
Proof.
  intros [Hst Hr (Ht1 & Ht2 & Hte)]. unfold weight. rewrite Ht1, Ht2, Hte, Hr. cbn [due_in]. split_and!.
  - destruct (_ <=? _); [|lia]. destruct Hst as [-> | ->]; lia.
  - intros E. rewrite E. destruct (_ <=? _); lia.
  - intros Hn Hd. by rewrite sat_add_later.
Qed.

(** The weight of the timers that fire once. *)
Definition once_weight (c : Client) (now : Z) : Z :=
  (if due_in (timeout_expire c) now then 3 else 0) + (if due_in (timeout_t2 c) now then 1 else 0) + (if due_in (timeout_t1 c) now then 1 else 0).

Lemma weight_same c c' now : same_timers c c' → due_in (timeout_resend c') now = false → weight c' now = once_weight c now.
Proof. intros (H1 & H2 & H3) Hr. unfold weight, once_weight. rewrite H1, H2, H3, Hr. lia. Qed.

Lemma once_weight_nonneg c now : 0 ≤ once_weight c now.
Proof. unfold once_weight. repeat case_match; lia. Qed.

Lemma core_state c ev st : core c ev → has_binding st = has_binding (c_state c) → core (set_state st c) ev.
Proof.
  intros [H1 H2 H3 H4 H5] Hb. unfold set_state. case_bool_decide; [by split|]. split; cbn; rewrite ?Hb; try done. by destruct st.
Qed.

Lemma set_state_frame st c : c_state (set_state st c) = st ∧ same_timers c (set_state st c) ∧ timeout_resend (set_state st c) = timeout_resend c ∧ c_hw (set_state st c) = c_hw c.
Proof. unfold set_state. case_bool_decide as E; cbn; split_and!; done. Qed.

Lemma core_request c ev n : core c ev → 0 ≤ n → core (with_request n c) ev.
Proof. intros [H1 H2 H3 H4 H5] Hn. by split. Qed.

Lemma core_discover c ev n : core c ev → core (with_discover n c) ev.
Proof. intros [H1 H2 H3 H4 H5]. by split. Qed.

(** What the resend timer leaves to fire: one more for a client that starts over at once. *)
Definition after_resend (c : Client) (now : Z) : Z := once_weight c now + match c_state c with InitReboot | Rebooting => 1 | _ => 0 end.

Lemma resend_attempt attempt next_of now s : core s.1.1 (events s.1.2) → 0 ≤ now < 2 ^ 64 - 1 → (∀ n, 1 ≤ n → (1 ≤ attempt < 2 ^ 64 - 1 → 4 ≤ n) → 1 ≤ next_of n) →
  ends (n ← request_timeout rnd attempt; resend_send (next_of n) now) s (λ c ev, inv c ev ∧ weight c now ≤ once_weight s.1.1 now).
Proof.
  intros Hc Hnow Hn. apply request_timeout_ends. intros n s1 H1 H2 E1 V1. eapply ends_mono; [apply resend_inv; [by rewrite E1, V1|done|auto]|].
  intros c ev (Hi & _ & Hs & Hd). split; [done|]. rewrite E1 in Hs. by rewrite (weight_same s.1.1 c now Hs Hd).
Qed.

Lemma restart_inv now s : core s.1.1 (events s.1.2) →
  ends (restart rnd now) s (λ c ev, inv c ev ∧ restarted now c ∧ (c_state s.1.1 ≠ InitReboot → c_state c = Init) ∧ (c_state s.1.1 = Rebooting ∨ 1 ≤ start_delay c)).
Proof.
  intros Hc. eapply ends_mono; [apply restart_ends|]. intros c ev (H1 & H2 & H3 & H4 & H5 & ->). split_and!; [|done|done|unfold USEC_PER_SEC in H5; naive_solver lia].
  apply (restarted_inv now); [done|rewrite H2; apply Hc| |rewrite H3; apply Hc]. destruct (has_binding (c_state s.1.1)) eqn:E; [apply held_snoc|]. rewrite <- E. apply Hc.
Qed.

Lemma initialize_frame c : c_state (initialize c) = Stopped ∧ same_timers (disable_event_sources c) (initialize c) ∧ timeout_resend (initialize c) = None ∧ c_hw (initialize c) = c_hw c ∧
  request_attempt (initialize c) = request_attempt c.
Proof.
  unfold initialize. assert (timeout_resend (disable_event_sources c) = None ∧ c_hw (disable_event_sources c) = c_hw c ∧ request_attempt (disable_event_sources c) = request_attempt c) as (E1 & E2 & E3) by (by destruct c).
  set (d := disable_event_sources c) in *. clearbody d. rewrite <- E2, <- E3. destruct (set_state_frame Stopped d) as (F1 & (A & B & C) & F3 & F4).
  assert (request_attempt (set_state Stopped d) = request_attempt d) as F5 by (unfold set_state; by case_bool_decide).
  set (c1 := set_state Stopped d) in *. clearbody c1. unfold same_timers in *. cbn. rewrite F3. by split_and!.
Qed.

Lemma stop_inv now s : core s.1.1 (events s.1.2) → ends stop s (λ c ev, inv c ev ∧ c_state c = Stopped ∧ weight c now = 0).
Proof.
  intros Hc. eapply ends_mono; [apply stop_ends|]. intros c ev [-> ->]. destruct (initialize_frame s.1.1) as (E1 & (E2 & E3 & E4) & E5 & E6 & E7).
  generalize dependent (initialize s.1.1). intros c1 E1 E2 E3 E4 E5 E6 E7. cbn in E2, E3, E4.
  assert (held (if is_running s.1.1 then events s.1.2 ++ [Stop] else events s.1.2) = false) as Hh.
  { unfold is_running. case_bool_decide as Es; cbn [negb]; [|apply held_snoc]. rewrite (i_held _ _ Hc), Es. done. }
  split_and!; [|done|unfold weight; by rewrite E2, E3, E4, E5]. split; [|by intros H].
  split; rewrite ?E1, ?E2, ?E3, ?E4, ?E6, ?E7; try done; [apply Hc|naive_solver|apply Hc].
Qed.

Lemma resend_fired_inv now s : core s.1.1 (events s.1.2) → 0 ≤ now < 2 ^ 64 - 1 → (c_state s.1.1 = Stopped ∨ c_state s.1.1 = Bound → timeout_resend s.1.1 = None) →
  ends (timeout_resend_fired rnd now) s (λ c ev, inv c ev ∧ weight c now ≤ after_resend s.1.1 now).
Proof.
  intros Hc Hnow Hnone. pose proof (once_weight_nonneg s.1.1 now) as Hw. unfold after_resend. apply ends_client.
  assert (∀ e, ends (resend_send (reacquisition_timeout now e) now) s (λ c ev, inv c ev ∧ weight c now ≤ once_weight s.1.1 now)) as Hre.
  { intros e. eapply ends_mono; [apply resend_inv; [done|done|unfold reacquisition_timeout, USEC_PER_SEC; lia]|]. intros c ev (Hi & _ & Hs & Hd). split; [done|]. by rewrite (weight_same s.1.1 c now Hs Hd). }
  assert (∀ st, c_state s.1.1 = st → st = Init ∨ st = Selecting → ends (_ ← modify (set_state Selecting); c ← client; if max_discover_attempts c <=? discover_attempt c then stop else
     _ ← modify (λ c, with_discover (u64 (discover_attempt c + 1)) c); c ← client; next ← request_timeout rnd (discover_attempt c); resend_send next now) s
     (λ c ev, inv c ev ∧ weight c now ≤ once_weight s.1.1 now)) as Hsel.
  { intros st Est Hst. apply ends_modify_then. intros s1 E1 V1. assert (core s1.1.1 (events s1.1.2)) as Hc1 by (rewrite E1, V1; apply core_state; [done|rewrite Est; destruct Hst as [-> | ->]; done]).
    assert (once_weight s1.1.1 now = once_weight s.1.1 now) as Ew.
    { rewrite E1. destruct (set_state_frame Selecting s.1.1) as (_ & (A & B & C) & _). unfold once_weight. by rewrite A, B, C. }
    apply ends_client. destruct (_ <=? _); [eapply ends_mono; [by apply (stop_inv now)|]; intros c ev (Hi & _ & ->); done|]. apply ends_modify_then. intros s2 E2 V2. apply ends_client.
    eapply ends_mono; [apply (resend_attempt _ (λ n, n)); [rewrite E2, V2; by apply core_discover|done|auto]|]. intros c ev [Hi Hwc]. split; [done|].
    rewrite E2 in Hwc. change (once_weight (with_discover _ _) now) with (once_weight s1.1.1 now) in Hwc. lia. }
  assert (∀ st, c_state s.1.1 = st → st = InitReboot ∨ st = Rebooting → ends (_ ← modify (set_state Rebooting); c ← client; if MAX_REQUEST_ATTEMPTS_ON_REBOOTING <=? request_attempt c then restart rnd now else
     _ ← modify (λ c, with_request (u64 (request_attempt c + 1)) c); c ← client; next ← request_timeout rnd (request_attempt c); resend_send (next / 4) now) s
     (λ c ev, inv c ev ∧ weight c now ≤ once_weight s.1.1 now + 1)) as Hreb.
  { intros st Est Hst. apply ends_modify_then. intros s1 E1 V1. assert (core s1.1.1 (events s1.1.2)) as Hc1 by (rewrite E1, V1; apply core_state; [done|rewrite Est; destruct Hst as [-> | ->]; done]).
    destruct (set_state_frame Rebooting s.1.1) as (Es & (A & B & C) & _). assert (once_weight s1.1.1 now = once_weight s.1.1 now) as Ew by (rewrite E1; unfold once_weight; by rewrite A, B, C).
    pose proof (i_req _ _ Hc1) as Hq. apply ends_client. destruct (Z.leb_spec MAX_REQUEST_ATTEMPTS_ON_REBOOTING (request_attempt s1.1.1)) as [_|Hlt].
    - eapply ends_mono; [by apply restart_inv|]. intros c ev (Hi & Hr & Hst' & _). split; [done|]. destruct (restarted_weight now c Hr) as (_ & H1 & _). rewrite E1, Es in Hst'. specialize (H1 (Hst' ltac:(done))). lia.
    - unfold MAX_REQUEST_ATTEMPTS_ON_REBOOTING in Hlt. apply ends_modify_then. intros s2 E2 V2. apply ends_client.
      assert (request_attempt s2.1.1 = request_attempt s1.1.1 + 1) as Ea by (rewrite E2; cbn; rewrite wrap_small by (unfold fits; lia); done).
      eapply ends_mono; [apply (resend_attempt _ (λ n, n / 4)); [rewrite E2, V2; apply core_request; [done|unfold wrap; apply Z.mod_pos_bound; lia]|done|]|].
      + intros n _ H4. rewrite Ea in H4. specialize (H4 ltac:(lia)). apply Z.div_le_lower_bound; lia.
      + intros c ev [Hi Hwc]. split; [done|]. rewrite E2 in Hwc. change (once_weight (with_request _ _) now) with (once_weight s1.1.1 now) in Hwc. lia. }
  destruct (c_state s.1.1) eqn:Est; rewrite ?Z.add_0_r.
  - apply ends_ret. split; [split; [done|intros H; by rewrite Est in H]|]. unfold weight, once_weight in *. rewrite (Hnone (or_introl eq_refl)). cbn [due_in]. lia.
  - eapply Hsel; [done|by left].
  - eapply Hsel; [done|by right].
  - eapply Hreb; [done|by left].
  - eapply Hreb; [done|by right].
  - pose proof (i_req _ _ Hc) as Hq. destruct (Z.leb_spec MAX_REQUEST_ATTEMPTS (request_attempt s.1.1)) as [_|Hlt].
    + eapply ends_mono; [by apply restart_inv|]. intros c ev (Hi & Hr & _ & Hd). split; [done|]. destruct (restarted_weight now c Hr) as (_ & _ & H0). rewrite H0; [done|done|]. rewrite Est in Hd. by destruct Hd.
    + apply ends_modify_then. intros s2 E2 V2. apply ends_client.
      eapply ends_mono; [apply (resend_attempt _ (λ n, n)); [rewrite E2, V2; apply core_request; [done|unfold wrap; apply Z.mod_pos_bound; lia]|done|auto]|].
      intros c ev [Hi Hwc]. split; [done|]. rewrite E2 in Hwc. exact Hwc.
  - apply ends_ret. split; [split; [done|intros _ H; by rewrite Est in H]|]. unfold weight, once_weight in *. rewrite (Hnone (or_intror eq_refl)). cbn [due_in]. lia.
  - apply Hre.
  - apply Hre.
Qed.

(** ** The loop *)
Lemma once_weight_less c now : (due_in (timeout_t1 c) now = true → once_weight (with_t1 None c) now < once_weight c now) ∧
  (due_in (timeout_t2 c) now = true → once_weight (with_t2 None c) now < once_weight c now).
Proof. unfold once_weight. split; intros E; cbn [timeout_t1 timeout_t2 timeout_expire with_t1 with_t2 due_in]; rewrite E; destruct (due_in (timeout_expire c) now); repeat case_match; lia. Qed.

Lemma weight_once c now : once_weight c now ≤ weight c now.
Proof. unfold weight. fold (once_weight c now). repeat case_match; lia. Qed.

(** T1 and T2: the client moves to [st] and sends. *)
Lemma timer_to st c f now s : f s.1.1 = set_state st c → core c (events s.1.2) → 0 ≤ now < 2 ^ 64 - 1 → has_binding (c_state c) = true → st = Renewing ∨ st = Rebinding → once_weight c now < weight s.1.1 now →
  ends (_ ← modify f; timeout_resend_fired rnd now) s (λ c ev, inv c ev ∧ weight c now < weight s.1.1 now).
Proof.
  intros Ef Hc Hnow Hb Hst Hw. apply ends_modify_then. intros s1 E1 V1. rewrite Ef in E1. destruct (set_state_frame st c) as (F1 & (A & B & C) & _).
  eapply ends_mono; [apply resend_fired_inv; [rewrite E1, V1; apply core_state; [done|rewrite Hb; destruct Hst as [-> | ->]; done]|done|rewrite E1, F1; destruct Hst as [-> | ->]; naive_solver]|].
  intros c' ev [Hi Hw']. split; [done|]. assert (after_resend s1.1.1 now = once_weight c now); [|lia].
  rewrite E1. unfold after_resend, once_weight. rewrite A, B, C, F1. destruct Hst as [-> | ->]; lia.
Qed.

Lemma fire_inv k t now s : inv s.1.1 (events s.1.2) → 0 ≤ now < 2 ^ 64 - 1 → due s.1.1 now = Some (t, k) →
  ends (fire rnd k now) s (λ c ev, inv c ev ∧ weight c now < weight s.1.1 now).
Proof.
  intros [Hc Hl] Hnow Hdue. pose proof (due_spec s.1.1 now) as Hk. rewrite Hdue in Hk. pose proof (once_weight_nonneg s.1.1 now) as Hw0. unfold fire.
  destruct Hk as [[-> Hk]|[[-> Hk]|[[-> Hk]|[-> Hk]]]]; cbn [Z.eqb].
  - apply ends_modify_then. intros s1 E1 V1. apply ends_event_then. intros s2 E2 V2. eapply ends_mono; [apply start_now_ends|]. intros c ev (Hr & Hh & _ & Hq & _ & ->). rewrite E2, E1 in *. cbn in Hh, Hq. split.
    + apply (restarted_inv now); [done|rewrite Hh; apply Hc|by rewrite V2, held_snoc|rewrite Hq; apply Hc].
    + destruct (restarted_weight now c Hr) as [H2 _]. unfold weight at 2. rewrite Hk. repeat case_match; lia.
  - assert (has_binding (c_state s.1.1) = true) as Hb by (apply (i_timers _ _ Hc); right; left; by destruct (timeout_t2 s.1.1)).
    apply (timer_to Rebinding (with_rx RxNone (with_t2 None s.1.1))); [done|destruct Hc as [H1 H2 H3 H4 H5]; split; cbn; naive_solver|done|done|by right|]. change (once_weight (with_rx RxNone ?c) now) with (once_weight c now).
    pose proof (proj2 (once_weight_less s.1.1 now) Hk). pose proof (weight_once s.1.1 now). lia.
  - assert (has_binding (c_state s.1.1) = true) as Hb by (apply (i_timers _ _ Hc); left; by destruct (timeout_t1 s.1.1)).
    apply (timer_to Renewing (with_t1 None s.1.1)); [done|destruct Hc as [H1 H2 H3 H4 H5]; split; cbn; naive_solver|done|done|by left|]. pose proof (proj1 (once_weight_less s.1.1 now) Hk). pose proof (weight_once s.1.1 now). lia.
  - apply ends_modify_then. intros s1 E1 V1. eapply ends_mono; [apply resend_fired_inv; [rewrite E1, V1; by apply core_resend|done|by rewrite E1]|].
    intros c ev [Hi Hw]. split; [done|]. rewrite E1 in Hw. change (after_resend (with_resend None s.1.1) now) with (after_resend s.1.1 now) in Hw. unfold after_resend in Hw. unfold weight at 2. rewrite Hk.
    fold (once_weight s.1.1 now). destruct (c_state s.1.1); lia.
Qed.

Lemma tick_loop_inv now : 0 ≤ now < 2 ^ 64 - 1 → ∀ fuel s, inv s.1.1 (events s.1.2) → weight s.1.1 now < Z.of_nat fuel →
  ends (tick_loop rnd fuel now) s (λ c ev, inv c ev ∧ due c now = None).
Proof.
  intros Hnow fuel. induction fuel as [|fuel IH]; intros s Hi Hw; [pose proof (weight_once s.1.1 now); pose proof (once_weight_nonneg s.1.1 now); lia|].
  cbn [tick_loop]. apply ends_client. destruct (due s.1.1 now) as [[t k]|] eqn:Hd; [|by apply ends_ret].
  eapply dhcp_ends_bind; [by apply (fire_inv k t)|]. intros s1 [Hi1 Hw1]. apply IH; [done|lia].
Qed.

Lemma tick_inv now s : 0 ≤ now < 2 ^ 64 - 1 → inv s.1.1 (events s.1.2) → ends (tick rnd now) s (λ c ev, inv c ev ∧ due c now = None).
Proof. intros Hnow Hi. apply tick_loop_inv; [done|done|]. unfold weight. repeat case_match; lia. Qed.

(** ** Calls *)
Lemma start_inv now s : inv s.1.1 (events s.1.2) → 0 ≤ now < 2 ^ 64 - 1 → c_state s.1.1 = Stopped → ends (start rnd now) s (λ c ev, inv c ev ∧ due c now = None).
Proof.
  intros [Hc Hl] Hnow Hst. apply ends_modify_then. intros s1 E1 V1. assert (c_hw s1.1.1 = h ∧ 0 ≤ request_attempt s1.1.1) as [Hh Hq].
  { rewrite E1. destruct (negb _); [|split; apply Hc]. assert (core (set_state InitReboot s.1.1) (events s.1.2)) as Hc' by (apply core_state; [done|by rewrite Hst]). split; apply Hc'. }
  eapply dhcp_ends_bind; [apply start_now_ends|]. intros s2 (Hr & Eh & _ & Eq & _ & V2). apply tick_inv; [done|]. apply (restarted_inv now); [done|by rewrite Eh| |by rewrite Eq].
  rewrite V2, V1, (i_held _ _ Hc), Hst. done.
Qed.

Lemma send_renew_inv now s : inv s.1.1 (events s.1.2) → 0 ≤ now < 2 ^ 64 - 1 → ends (send_renew rnd now) s (λ c ev, inv c ev ∧ (due c now = None ∨ c = s.1.1)).
Proof.
  intros [Hc Hl] Hnow. apply ends_client. case_bool_decide as Eb; cbn [negb]; [|apply ends_ret; split; [by split|by right]]. apply ends_modify_then. intros s1 E1 V1.
  eapply ends_mono; [apply tick_inv; [done|]|naive_solver]. rewrite E1, V1.
  assert (core (set_state Renewing s.1.1) (events s.1.2)) as [H1 H2 H3 H4 H5] by (apply core_state; [done|by rewrite Eb]). set (c1 := set_state Renewing s.1.1) in *. clearbody c1. split; [by split|by intros _ _].
Qed.

Lemma core_rx c ev x : core c ev → core (with_rx x c) ev.
Proof. intros [H1 H2 H3 H4 H5]. by split. Qed.

Lemma send_decline_inv now s : inv s.1.1 (events s.1.2) → 0 ≤ now < 2 ^ 64 - 1 → ends (send_decline rnd now) s (λ c ev, inv c ev ∧ (due c now = None ∨ c = s.1.1)).
Proof.
  intros [Hc Hl] Hnow. apply ends_client. destruct (_ || _); [apply ends_ret; split; [by split|by right]|]. eapply dhcp_ends_bind; [apply send_message_ends|]. intros s1 [[x E1] V1].
  eapply dhcp_ends_bind; [apply restart_inv; rewrite E1, V1; by apply core_rx|]. intros s2 (Hi & _). eapply ends_mono; [by apply tick_inv|naive_solver].
Qed.

Lemma stop_call_inv s : inv s.1.1 (events s.1.2) → ends stop s (λ c ev, inv c ev ∧ c_state c = Stopped).
Proof. intros [Hc _]. eapply ends_mono; [by apply (stop_inv 0)|]. naive_solver. Qed.

Lemma bound_event_holds c l b : hold b (bound_event c l) = true.
Proof. unfold bound_event. destruct (c_state c); try done; destruct (match c_lease c with Some old => same_binding old l | None => false end); done. Qed.

(** The timers of a new lease. *)
Lemma set_lease_timeouts_ends now l s : c_lease s.1.1 = Some l → timeout_expire s.1.1 = None →
  ends (set_lease_timeouts rnd now) s (λ c ev, c_hw c = c_hw s.1.1 ∧ c_state c = c_state s.1.1 ∧ c_lease c = Some l ∧ request_attempt c = request_attempt s.1.1 ∧ ev = events s.1.2 ∧
    (lifetime l = INFINITY ∨ timeout_expire c = Some (sat_add 64 (timestamp l) (lifetime l)))).
Proof.
  intros Hl He. apply ends_client. eapply ends_of_opt; [done|]. destruct (Z.eqb_spec (lifetime l) INFINITY) as [Ei|_]; [by apply ends_modify; cbn; split_and!; auto|].
  cbv zeta. apply ends_fuzz. intros d1 s1 _ E1 V1. apply ends_fuzz. intros d2 s2 _ E2 V2. set (T1 := sub_signed _ d1). set (T2 := Z.max _ T1). clearbody T1 T2. apply ends_modify_then. intros s3 E3 V3.
  rewrite V2, V1 in V3. rewrite E2, E1 in E3.
  destruct (_ <=? now); [apply ends_ret; rewrite E3, V3; cbn; split_and!; auto|]. apply ends_modify_then. intros s4 E4 V4.
  destruct (_ <=? now); [apply ends_ret|apply ends_modify]; rewrite E4, E3, V4, V3; cbn; split_and!; auto.
Qed.

Lemma disable_frame c : c_state (disable_event_sources c) = c_state c ∧ c_lease (disable_event_sources c) = c_lease c ∧ c_hw (disable_event_sources c) = c_hw c ∧
  request_attempt (disable_event_sources c) = request_attempt c ∧ timeout_t1 (disable_event_sources c) = None ∧ timeout_t2 (disable_event_sources c) = None ∧ timeout_expire (disable_event_sources c) = None.
Proof. by destruct c. Qed.

Lemma bound_frame l c : let c' := with_last (address l) (set_state Bound (with_delay 0 (disable_event_sources (with_lease (Some l) c)))) in
  c_state c' = Bound ∧ c_lease c' = Some l ∧ timeout_expire c' = None ∧ c_hw c' = c_hw c ∧ request_attempt c' = request_attempt c.
Proof.
  cbv zeta. destruct (disable_frame (with_lease (Some l) c)) as (_ & A & B & C & _ & _ & E). cbn [c_lease c_hw request_attempt with_lease] in A, B, C. rewrite <- B, <- C.
  generalize dependent (disable_event_sources (with_lease (Some l) c)). intros d A B C E. unfold set_state. case_bool_decide as Ed; cbn in *; by split_and!.
Qed.

Lemma enter_bound_inv l now s : core s.1.1 (events s.1.2) → granted l → ends (enter_bound rnd l now) s (λ c ev, inv c ev).
Proof.
  intros Hc Hg. apply ends_client. apply ends_modify_then. intros s1 E1 V1. apply ends_modify_then. intros s2 E2 V2.
  assert (c_state s2.1.1 = Bound ∧ c_lease s2.1.1 = Some l ∧ timeout_expire s2.1.1 = None ∧ c_hw s2.1.1 = h ∧ 0 ≤ request_attempt s2.1.1) as (F1 & F2 & F3 & F4 & F5).
  { rewrite E2, E1. destruct (bound_frame l s.1.1) as (A & B & C & H1 & H2). rewrite A, B, C, H1, H2. split_and!; [done..|apply Hc|apply Hc]. }
  eapply dhcp_ends_bind; [by apply (set_lease_timeouts_ends now l)|]. intros s3 (G1 & G2 & G3 & G4 & G5 & G6). apply ends_event. split; [|intros _ Hb; by rewrite G2, F1 in Hb].
  split; rewrite ?G1, ?G2, ?G4, ?F1; try done; [by rewrite held_snoc, bound_event_holds|]. intros _. by exists l.
Qed.

Lemma parse_message_spec c b kind l : parse_message c b = Some (kind, l) →
  ∃ m, parse b BOOTREPLY (Some (c_xid c)) (Some (c_hw c)) = Ok m ∧ option_u8 m OPT_MESSAGE_TYPE = Some kind ∧
    (kind = DHCP_OFFER ∧ c_state c = Selecting ∧ is_Some l ∨ kind = DHCP_ACK ∧ (∃ l0, l = Some l0 ∧ from_message m 0 = Some l0) ∨ kind = DHCP_NAK ∧ c_state c ≠ InitReboot ∧ l = None).
Proof.
  unfold parse_message. destruct (parse _ _ _ _) as [m| |]; [|done..]. intros H. apply bind_Some in H as (m' & [= <-] & H). apply bind_Some in H as (k & Hk & H). exists m.
  destruct (Z.eqb_spec k DHCP_OFFER) as [->|_].
  { case_bool_decide; [|done]. apply bind_Some in H as (l0 & Hl & [= <- <-]). split_and!; [done|done|left; by split_and!]. }
  destruct (Z.eqb_spec k DHCP_ACK) as [->|_].
  { destruct (c_state c); try done; try destruct (_ || _); try done; apply bind_Some in H as (l0 & Hl & [= <- <-]); (split_and!; [done|done|right; left; split; [done|by exists l0]]). }
  destruct (Z.eqb_spec k DHCP_NAK) as [->|_]; [|done].
  destruct (c_state c); try done; apply bind_Some in H as (sv & _ & H); destruct (match c_lease c with Some l => _ | None => _ end); try done; injection H as <- <-; (split_and!; [done|done|right; right; by split_and!]).
Qed.

Lemma set_state_req st c : 0 ≤ request_attempt c → 0 ≤ request_attempt (set_state st c).
Proof. intros H. unfold set_state. case_bool_decide; [done|]. cbn. by destruct st. Qed.

Lemma enter_requesting_inv now s : held (events s.1.2) = false → c_hw s.1.1 = h → 0 ≤ request_attempt s.1.1 → ends (enter_requesting now) s (λ c ev, inv c ev).
Proof.
  intros Hh Hw Hq. apply ends_modify. destruct (disable_frame s.1.1) as (_ & _ & C & E & F1 & F2 & F3). rewrite <- C in Hw. rewrite <- E in Hq.
  generalize dependent (disable_event_sources s.1.1). intros d Hw Hq _ _ F1 F2 F3. destruct (set_state_frame Requesting d) as (G1 & (A & B & C) & _ & G2). apply (set_state_req Requesting) in Hq.
  generalize dependent (set_state Requesting d). intros c Hq G1 A B C G2. split; [|intros _ _; by cbn]. split; cbn; rewrite ?G1, ?G2, ?A, ?B, ?C, ?F1, ?F2, ?F3; try done. naive_solver.
Qed.

Lemma receive_inv b to_us now s : inv s.1.1 (events s.1.2) → 0 ≤ now < 2 ^ 64 - 1 → (b, now) ∈ recv →
  ends (receive rnd b to_us now) s (λ c ev, inv c ev ∧ (due c now = None ∨ c = s.1.1)).
Proof.
  intros [Hc Hl] Hnow Hin. apply ends_client. assert (ends (mret tt) s (λ c ev, inv c ev ∧ (due c now = None ∨ c = s.1.1))) as Hret by (apply ends_ret; split; [by split|by right]).
  destruct (match c_rx s.1.1 with RxNone => _ | _ => _ end); [done|]. destruct (parse_message s.1.1 b) as [[kind l]|] eqn:Ep; [|done].
  apply parse_message_spec in Ep as (m & Hm & Hk & Hcase). eapply (dhcp_ends_bind _ _ _ _ inv); [|intros s1 Hi1; eapply ends_mono; [by apply tick_inv|naive_solver]].
  destruct Hcase as [(-> & Hst & [l0 ->])|[(-> & l0 & -> & Hfrom)|(-> & Hst & ->)]].
  - eapply ends_of_opt; [done|]. apply ends_modify_then. intros s1 E1 V1. apply ends_event_then. intros s2 E2 V2. apply enter_requesting_inv.
    + rewrite V2, held_snoc, V1, (i_held _ _ Hc), Hst. done.
    + rewrite E2, E1. apply Hc.
    + rewrite E2, E1. apply Hc.
  - eapply ends_of_opt; [done|]. apply enter_bound_inv; [done|]. exists b, now, (c_xid s.1.1), m, l0. rewrite (i_hw _ _ Hc) in Hm. done.
  - eapply ends_mono; [by apply restart_inv|]. by intros c ev (Hi & _).
Qed.
End inv.

(** ** Runs *)
Inductive call :=
  | CStart (now : Z) | CTick (now : Z) | CRenew (now : Z) | CDecline (now : Z) | CReceive (b : list byte) (to_lease_addr : bool) (now : Z)
  | CStop | CMtu (mtu : Z) | CAddress (a : option ip4).

Definition exec (k : call) : D unit :=
  match k with
  | CStart now => start rnd now
  | CTick now => tick rnd now
  | CRenew now => send_renew rnd now
  | CDecline now => send_decline rnd now
  | CReceive b to now => receive rnd b to now
  | CStop => stop
  | CMtu mtu => modify (set_mtu mtu)
  | CAddress a => modify (set_request_address a)
  end.

(** [start] and [set_request_address] are for a stopped client. *)
Definition allowed (k : call) (s : St) : Prop :=
  match k with CStart _ | CAddress _ => is_running s.1.1 = false | _ => True end ∧
  match k with CStart now | CTick now | CRenew now | CDecline now | CReceive _ _ now => 0 ≤ now < 2 ^ 64 - 1 | _ => True end.

Definition received (k : call) : list (list byte * Z) := match k with CReceive b _ now => [(b, now)] | _ => [] end.

(** The states of a client for [h], and the datagrams it was handed. *)
Inductive reach (h : mac) (mtu : Z) : list (list byte * Z) → St → Prop :=
  | reach_new g : reach h mtu [] (new h mtu, {| send := []; events := [] |}, g)
  | reach_call recv s k s' : reach h mtu recv s → allowed k s → exec k s = (Ok tt, s') → reach h mtu (recv ++ received k) s'.

Lemma inv_more h recv recv' c ev : recv ⊆ recv' → inv h recv c ev → inv h recv' c ev.
Proof.
  intros Hs [[H1 H2 H3 H4 H5] Hl]. split; [|done]. split; try done. intros Hb. destruct (H3 Hb) as (l & E & (b & t & x & m & l0 & Hin & Hr) & Ht). exists l. split_and!; [done| |done].
  exists b, t, x, m, l0. split; [by apply Hs|done].
Qed.

Lemma exec_inv h recv k s : inv h recv s.1.1 (events s.1.2) → allowed k s → received k ⊆ recv → ends (exec k) s (λ c ev, inv h recv c ev).
Proof.
  intros Hi [Hr Ht] Hin. destruct k as [now|now|now|now|b to now| |mtu|a]; cbn [exec].
  - eapply ends_mono; [apply (start_inv h recv); [done|done|]|naive_solver]. unfold is_running in Hr. by case_bool_decide.
  - eapply ends_mono; [by apply (tick_inv h recv)|naive_solver].
  - eapply ends_mono; [by apply (send_renew_inv h recv)|naive_solver].
  - eapply ends_mono; [by apply (send_decline_inv h recv)|naive_solver].
  - eapply ends_mono; [apply (receive_inv h recv); [done|done|]|naive_solver]. apply Hin. left.
  - eapply ends_mono; [by apply (stop_call_inv h recv)|naive_solver].
  - apply ends_modify. unfold set_mtu. destruct (_ <=? _); [|done]. destruct Hi as [[H1 H2 H3 H4 H5] Hl]. by split.
  - apply ends_modify. destruct Hi as [[H1 H2 H3 H4 H5] Hl]. by split.
Qed.

Lemma dhcp_reach_inv h mtu recv s : reach h mtu recv s → inv h recv s.1.1 (events s.1.2).
Proof.
  induction 1 as [g|recv s k s' Hr IH Ha He]; [split; [split; try done; naive_solver|intros H; by destruct H]|].
  assert (ends (exec k) s (λ c ev, inv h (recv ++ received k) c ev)) as H.
  { apply exec_inv; [|done|intros x Hx; apply elem_of_app; by right]. eapply inv_more; [|done]. intros x Hx. apply elem_of_app. by left. }
  unfold ends, wp in H. rewrite He in H. by destruct H.
Qed.

Lemma next_deadline_timer c d : next_deadline c = Some d → timeout_resend c = Some d ∨ timeout_t1 c = Some d ∨ timeout_t2 c = Some d ∨ timeout_expire c = Some d.
Proof.
  unfold next_deadline. cbn. destruct (timeout_resend c), (timeout_t1 c), (timeout_t2 c), (timeout_expire c); intros H; try done; injection H as <-;
    repeat match goal with |- context [Z.min ?a ?b] => destruct (Z.min_spec a b) as [[_ ->]|[_ ->]] end; tauto.
Qed.

Lemma next_deadline_none c : next_deadline c = None → timeout_resend c = None ∧ timeout_expire c = None.
Proof. unfold next_deadline. cbn. by destruct (timeout_resend c), (timeout_t1 c), (timeout_t2 c), (timeout_expire c). Qed.


(** C30. The client never gets stuck: no allowed call panics, a running client has a timer
    to wake it unless it is bound for ever, and a tick at or after that deadline ends
    with every timer in the future. *)
Theorem dhcp_client_never_stuck h mtu recv s : reach h mtu recv s →
  (∀ k, allowed k s → ∃ s', exec k s = (Ok tt, s')) ∧
  (is_running s.1.1 = true →
   (c_state s.1.1 = Bound ∧ ∃ l, c_lease s.1.1 = Some l ∧ lifetime l = INFINITY) ∨
   ∃ d, next_deadline s.1.1 = Some d ∧ ∀ now, d ≤ now → 0 ≤ now < 2 ^ 64 - 1 → ∃ s', tick rnd now s = (Ok tt, s') ∧ ∀ d', next_deadline s'.1.1 = Some d' → now < d').
Proof.
  intros Hr. apply dhcp_reach_inv in Hr as Hi. split.
  - intros k Hk. assert (ends (exec k) s (λ c ev, inv h (recv ++ received k) c ev)) as H.
    { apply exec_inv; [|done|intros x Hx; apply elem_of_app; by right]. eapply inv_more; [|done]. intros x Hx. apply elem_of_app. by left. }
    unfold ends, wp in H. destruct (exec k s) as [r s']. destruct H as [-> _]. by eexists.
  - intros Hrun. destruct (next_deadline s.1.1) as [d|] eqn:Ed.
    + right. exists d. split; [done|]. intros now Hle Hnow. pose proof (tick_inv h recv now s Hnow Hi) as H. unfold ends, wp in H. destruct (tick rnd now s) as [r s']. destruct H as [-> [_ Hd]].
      exists s'. split; [done|]. intros d' Hd'. pose proof (due_spec s'.1.1 now) as Hs. rewrite Hd in Hs. destruct Hs as (S1 & S2 & S3 & S4).
      destruct (next_deadline_timer _ _ Hd') as [E|[E|[E|E]]]; rewrite E in *; cbn [due_in] in *; lia.
    + left. destruct (next_deadline_none _ Ed) as [E1 E2]. destruct Hi as [Hc Hl]. assert (c_state s.1.1 = Bound) as Eb.
      { destruct (decide (c_state s.1.1 = Bound)) as [?|Hn]; [done|]. unfold is_running in Hrun. case_bool_decide as Es; [done|]. by destruct (Hl Es Hn). }
      split; [done|]. destruct (i_lease _ _ _ _ Hc) as (l & El & _ & He); [by rewrite Eb|]. exists l. split; [done|]. destruct He as [?|He]; [done|]. by rewrite E2 in He.
Qed.

(** ** The exchange *)

(** A message in the making: its header, and the options so far. *)
Record making (c : Client) (m : Message) (n : Z) (opts : gmap Z (list (list byte))) : Prop := {
  k_fits : fits_wire m;
  k_entries : entries m = n;
  k_options : options m = opts;
  k_header : op m = BOOTREQUEST ∧ xid m = c_xid c ∧ hlen m = 6 ∧ chaddr m = c_hw c ++ zeros 10 }.

Lemma making_append c m n opts code data : making c m n opts → n < 200 → 0 < code < 255 → code ≠ OPT_OVERLOAD → zlen data ≤ 255 →
  making c (append m code data) (n + 1) (<[code := default [] (opts !! code) ++ [data]]> opts).
Proof.
  intros [H1 H2 H3 H4] Hn Hc Hno Hd. unfold append. rewrite append_option_short by done.
  destruct (append_impl_fits m code data H1) as (m' & -> & F1 & F2 & F3 & F4); [unfold MAX_ENTRIES; lia|done..|]. rewrite H3 in F3.
  split; [done|lia|done|]. unfold same_header, set_options in F4. injection F4 as E1 _ E2 E3 _ _ _ _ _ _ E4 _ _ _. by rewrite E1, E2, E3, E4.
Qed.

Lemma usec_to_sec16_fits t : fits 16 (usec_to_sec16 t).
Proof. unfold usec_to_sec16. destruct (_ =? _); [done|]. destruct (_ <=? _); [done|]. unfold fits, wrap. apply Z.mod_pos_bound. lia. Qed.

Lemma making_new c now : zlen (c_hw c) = 6 → fits 32 (c_xid c) →
  making c (set_broadcast_flag (set_secs (message.new BOOTREQUEST (c_xid c) (c_hw c)) (usec_to_sec16 now)) (request_broadcast c)) 0 ∅.
Proof.
  intros Hh Hx. split; [|done..]. split; try done; cbn; [by left|split_and!; [done|apply usec_to_sec16_fits|by destruct (request_broadcast c)]|repeat constructor|].
  split_and!; [|done..]. rewrite zlen_app, Hh. done.
Qed.

(** The REQUEST for an offer. *)
Lemma request_message c now l : c_state c = Requesting → c_lease c = Some l → zlen (c_hw c) = 6 → fits 32 (c_xid c) → zlen (address l) = 4 → address l ≠ zero4 → zlen (server_address l) = 4 →
  let m := new_message c DHCP_REQUEST now in
  ∃ opts, making c m 6 opts ∧ opts !! OPT_MESSAGE_TYPE = Some [[byte_of DHCP_REQUEST]] ∧ opts !! OPT_SERVER_IDENTIFIER = Some [server_address l] ∧ opts !! OPT_REQUESTED_IP_ADDRESS = Some [address l].
Proof.
  intros Hst Hl Hh Hx Ha Hz Hs m. unfold m, new_message. cbv zeta. set (t := if _ =? 0 then USEC_PER_SEC else _). clearbody t. pose proof (making_new c t Hh Hx) as H0.
  set (m0 := set_broadcast_flag _ _) in *. clearbody m0. change (DHCP_REQUEST =? DHCP_REQUEST) with true. rewrite bool_decide_true by done. cbn [andb orb].
  unfold server, asked, lease_addr. rewrite Hst, Hl. change (DHCP_REQUEST =? DHCP_DISCOVER) with false. change (DHCP_REQUEST =? DHCP_REQUEST) with true. cbv beta iota. rewrite bool_decide_false by done.
  change (DHCP_REQUEST =? DHCP_DECLINE) with false. rewrite andb_false_r. cbv iota.
  apply (making_append _ _ _ _ OPT_MESSAGE_TYPE [byte_of DHCP_REQUEST]) in H0; [|done..]. apply (making_append _ _ _ _ OPT_SERVER_IDENTIFIER (server_address l)) in H0; [|try done; lia..].
  apply (making_append _ _ _ _ OPT_CLIENT_IDENTIFIER (byte_of ARPHRD_ETHER :: c_hw c)) in H0; [|try done; rewrite zlen_cons; lia..].
  apply (making_append _ _ _ _ OPT_REQUESTED_IP_ADDRESS (address l)) in H0; [|try done; lia..].
  apply (making_append _ _ _ _ OPT_PARAMETER_REQUEST_LIST (byte_of <$> merge_sort Z.le REQ_OPTS)) in H0; [|done..].
  apply (making_append _ _ _ _ OPT_MAXIMUM_MESSAGE_SIZE (be16 (clamp (c_mtu c) IPV4_MIN_REASSEMBLY_SIZE 65535))) in H0; [|done..].
  eexists. split; [exact H0|]. rewrite !lookup_empty. cbn [default].
  split_and!; repeat (rewrite lookup_insert_eq || rewrite lookup_insert_ne by done); done.
Qed.

Lemma due_resend c now t : timeout_t1 c = None → timeout_t2 c = None → timeout_expire c = None → timeout_resend c = Some t → due c now = if t <=? now then Some (t, 3) else None.
Proof. intros E1 E2 E3 E4. unfold due. cbn [foldr fst snd]. rewrite E1, E2, E3, E4. done. Qed.

Lemma wp_request_timeout attempt (k : Z → D unit) (Q : res unit unit → St → Prop) c o g :
  (∀ n g', 1 ≤ n → wp (k n) Q (c, o, g')) → wp (n ← request_timeout rnd attempt; k n) Q (c, o, g).
Proof.
  intros Hk. set (R := λ (r : res unit Z) (s' : St), (∃ n, r = Ok n ∧ 1 ≤ n) ∧ s'.1 = (c, o)). assert (wp (request_timeout rnd attempt) R (c, o, g)) as H.
  { unfold request_timeout. cbv zeta. apply wp_bind. unfold fuzz. apply wp_bind. unfold wp at 1, draw. apply wp_ret, wp_ret. split; [|done]. eexists. split; [done|]. cbn [fst snd].
    pose proof (Z.mod_pos_bound (rnd g).1 (2 * USEC_PER_SEC) ltac:(done)) as Hm. set (e := Z.min _ 6). assert (0 ≤ e ≤ 6) as He.
    { unfold e, wrap. pose proof (Z.mod_pos_bound (attempt + 1) (2 ^ 64) ltac:(lia)). lia. }
    clearbody e. rewrite Z.shiftl_1_l. assert (1 ≤ 2 ^ e ≤ 64).
    { assert (e = 0 ∨ e = 1 ∨ e = 2 ∨ e = 3 ∨ e = 4 ∨ e = 5 ∨ e = 6) as Hc by lia. destruct Hc as [->|[->|[->|[->|[->|[->| ->]]]]]]; lia. }
    unfold sub_signed, USEC_PER_SEC, INFINITY, sat_add, sat_sub in *. destruct (Z.ltb_spec ((rnd g).1 `mod` (2 * 1000000) - 1000000) 0); [lia|]. destruct (_ =? _); lia. }
  apply wp_bind. eapply wp_mono; [exact H|]. intros r [[c' o'] g'] [(n & -> & Hn) E]. cbn in E. injection E as -> ->. by apply Hk.
Qed.

(** The REQUEST that follows an offer at once. *)
Lemma tick_requests now c o g : 0 ≤ now < 2 ^ 64 - 1 → c_state c = Requesting → 0 ≤ request_attempt c < MAX_REQUEST_ATTEMPTS →
  timeout_t1 c = None → timeout_t2 c = None → timeout_expire c = None → timeout_resend c = Some now → (∃ b, build (new_message c DHCP_REQUEST now) = Ok b) →
  wp (tick rnd now) (λ r s', r = Ok tt ∧ c_state s'.1.1 = Requesting ∧ c_lease s'.1.1 = c_lease c ∧ c_rx s'.1.1 = RxRaw ∧
    ∃ b, build (new_message c DHCP_REQUEST now) = Ok b ∧ send s'.1.2 = send o ++ [(Broadcast, b)]) (c, o, g).
Proof.
  intros Hnow Hst Hq H1 H2 H3 H4 [b Hb]. unfold tick. change 8%nat with (S 7). cbn [tick_loop]. apply wp_bind. unfold wp at 1, client. cbn [fst]. rewrite (due_resend _ _ now) by done. rewrite Z.leb_refl.
  apply wp_bind. change (fire rnd 3 now) with (_ ← modify (with_resend None); timeout_resend_fired rnd now). apply wp_bind. unfold wp at 1, modify. cbn [fst snd].
  unfold timeout_resend_fired. apply wp_bind. unfold wp at 1, client. cbn [fst c_state with_resend request_attempt]. rewrite Hst. destruct (Z.leb_spec MAX_REQUEST_ATTEMPTS (request_attempt c)); [lia|].
  apply wp_bind. unfold wp at 1, modify. cbn [fst snd]. apply wp_bind. unfold wp at 1, client. cbn [fst]. apply wp_request_timeout. intros n g' Hn.
  unfold resend_send. apply wp_bind. unfold wp at 1, modify. cbn [fst snd]. apply wp_bind. unfold wp at 1, client. cbn [fst c_state with_resend with_request]. rewrite Hst.
  unfold send_message. apply wp_bind. unfold wp at 1, client. cbn [fst]. set (c1 := with_resend _ _) in *. assert (new_message c1 DHCP_REQUEST now = new_message c DHCP_REQUEST now) as -> by reflexivity.
  rewrite Hb. change ((DHCP_REQUEST =? DHCP_REQUEST) && bool_decide (c_state c1 = Renewing)) with (bool_decide (c_state c = Renewing)). rewrite bool_decide_false by (by rewrite Hst).
  change (DHCP_REQUEST =? DHCP_DECLINE) with false. cbv iota. apply wp_bind. unfold wp at 1, modify. cbn [fst snd]. unfold wp at 1, push_send. cbn [fst snd send events].
  apply wp_bind. unfold wp at 1, client. cbn [fst]. rewrite (due_resend _ _ (sat_add 64 now n)) by done. rewrite sat_add_later by done. apply wp_ret. cbn. split_and!; [done..|]. by exists b.
Qed.

Lemma bind_ok_inv {E A B} (m : res E A) (k : A → res E B) b : m ≫= k = Ok b → ∃ a, m = Ok a ∧ k a = Ok b.
Proof. destruct m; [by eexists|done..]. Qed.

Lemma options_loop_yiaddr fuel : ∀ m b m', options_loop fuel m b = Ok m' → yiaddr m' = yiaddr m.
Proof.
  induction fuel as [|fuel IH]; intros m b m' H; [by injection H as <-|]. destruct b as [|code b]; [by injection H as <-|]. cbn [options_loop] in H.
  destruct (_ =? OPT_PAD); [by apply IH in H|]. destruct (_ =? OPT_END); [by injection H as <-|]. destruct b as [|len b]; [done|]. destruct (_ <? _); [done|].
  apply bind_ok_inv in H as (m1 & H1 & H). apply IH in H. rewrite H. unfold append_impl in H1. destruct (_ <=? _); [done|]. by injection H1 as <-.
Qed.

Lemma parse_yiaddr b k x hw m : parse b k x hw = Ok m → zlen (yiaddr m) = 4.
Proof.
  unfold parse. intros H. repeat match type of H with (if ?c then Err _ else _) = _ => destruct c; [done|] | _ ≫= _ = Ok _ => apply bind_ok_inv in H as (? & ? & H) | context [let _ := _ in _] => cbv zeta in H end.
  assert (zlen x8 = 4) as E8.
  { destruct (sub b 16 4) as [v|] eqn:E; [|done]. injection H8 as ->. apply sub_inv in E as (? & ? & ? & ->). rewrite zlen_raw_sub; lia. }
  set (m0 := Build_Message _ _ _ _ _ _ _ _ _ _ _ _ _ _ _ _) in H. assert (zlen (yiaddr m0) = 4) as E0 by exact E8. clearbody m0. destruct (negb (magic m0)); [by injection H as <-|].
  apply bind_ok_inv in H as (rest & _ & H). apply bind_ok_inv in H as (m1 & M1 & H). apply options_loop_yiaddr in M1. rewrite <- M1 in E0. clear M1 m0. apply bind_ok_inv in H as (m2 & M2 & H).
  assert (yiaddr m2 = yiaddr m1) as E2.
  { match type of M2 with (if ?c then _ else _) = _ => destruct c end; [|by injection M2 as ->]. apply bind_ok_inv in M2 as (m3 & M3 & M2). apply options_loop_yiaddr in M3. by injection M2 as <-. }
  match type of H with (if ?c then _ else _) = _ => destruct c end; [|injection H as <-; by rewrite E2]. apply bind_ok_inv in H as (m3 & M3 & H). apply options_loop_yiaddr in M3. injection H as <-. cbn. by rewrite M3, E2.
Qed.

(** What an OFFER the client takes holds. *)
Lemma offer_lease c b l : parse_message c b = Some (DHCP_OFFER, Some l) → zlen (address l) = 4 ∧ address l ≠ zero4 ∧ zlen (server_address l) = 4.
Proof.
  unfold parse_message. destruct (parse _ _ _ _) as [m| |] eqn:Hp; [|done..]. apply parse_yiaddr in Hp. intros H. apply bind_Some in H as (m' & [= <-] & H). apply bind_Some in H as (k & _ & H).
  assert (∀ r : option (Z * option Lease), (l' ← from_message m 0; Some (DHCP_OFFER, Some l')) = r → r = Some (DHCP_OFFER, Some l) → from_message m 0 = Some l) as Hfrom.
  { intros r <- (l' & -> & [= ->])%bind_Some. done. }
  destruct (Z.eqb_spec k DHCP_OFFER) as [_|_].
  - case_bool_decide; [|done]. apply (Hfrom _ eq_refl) in H. clear Hfrom. unfold from_message in H. destruct (bool_decide (yiaddr m = zero4)) eqn:Ez; [done|]. apply bool_decide_eq_false in Ez. cbn [orb] in H.
    destruct (negb _); [done|]. apply bind_Some in H as (sm & _ & H). apply bind_Some in H as (sv & Hsv & H). apply bind_Some in H as (life & _ & H). cbv zeta in H. destruct (times_of _ _) as [x1 x2]. injection H as <-.
    cbn. split_and!; [done|done|]. by apply option_exact_len in Hsv.
  - clear Hfrom. repeat case_match; simplify_eq; try done; repeat match goal with H : _ ≫= _ = Some _ |- _ => apply bind_Some in H as (? & ? & H) end; repeat case_match; simplify_eq.
Qed.

Lemma tick_requests_lease now c o g l : 0 ≤ now < 2 ^ 64 - 1 → c_state c = Requesting → request_attempt c = 0 →
  timeout_t1 c = None → timeout_t2 c = None → timeout_expire c = None → timeout_resend c = Some now →
  c_lease c = Some l → zlen (address l) = 4 → address l ≠ zero4 → zlen (server_address l) = 4 → zlen (c_hw c) = 6 → fits 32 (c_xid c) →
  wp (tick rnd now) (λ r s', r = Ok tt ∧ c_state s'.1.1 = Requesting ∧ c_rx s'.1.1 = RxRaw ∧ c_lease s'.1.1 = Some l ∧
    ∃ bytes m, send s'.1.2 = send o ++ [(Broadcast, bytes)] ∧ parse bytes BOOTREQUEST (Some (c_xid c)) (Some (c_hw c)) = Ok m ∧
      option_u8 m OPT_MESSAGE_TYPE = Some DHCP_REQUEST ∧ option_addr m OPT_REQUESTED_IP_ADDRESS = Some (address l) ∧ option_addr m OPT_SERVER_IDENTIFIER = Some (server_address l)) (c, o, g).
Proof.
  intros Hnow Hst Hq T1 T2 T3 T4 Hl La Lz Ls Hh Hx. destruct (request_message c now l) as (opts & Hm & O1 & O2 & O3); [done..|].
  destruct (build_short _ (k_fits _ _ _ _ Hm)) as [bytes Hb]; [rewrite (k_entries _ _ _ _ Hm); done|]. destruct (k_header _ _ _ _ Hm) as (K1 & K2 & K3 & K4).
  eapply wp_mono; [apply tick_requests; try done; [by rewrite Hq|by exists bytes]|]. intros r s' (-> & R1 & R2 & R3 & bytes' & Hb' & R4).
  assert (bytes' = bytes) as -> by congruence. split_and!; [done|done|done|by rewrite R2|]. clear Hb'. generalize dependent (new_message c DHCP_REQUEST now). intros m Hm Hb K1 K2 K3 K4.
  exists bytes, m. split_and!; [done| |..].
  - apply build_parse; [by apply Hm|done|by right; rewrite K1|intros x [= <-]; by rewrite K2|intros x [= <-]]. rewrite K3, K4. symmetry. apply take_app_length'. unfold zlen in Hh. lia.
  - unfold option_u8, option_exact. rewrite (k_options _ _ _ _ Hm), O1. done.
  - unfold option_addr, option_exact. rewrite (k_options _ _ _ _ Hm), O3. cbn. by rewrite decide_True.
  - unfold option_addr, option_exact. rewrite (k_options _ _ _ _ Hm), O2. cbn. by rewrite decide_True.
Qed.

(** The steps of a call on a whole state. *)
Lemma wp_dhcp_client {A} (k : Client → D A) Q c o g : wp (k c) Q (c, o, g) → wp (c ← client; k c) Q (c, o, g).
Proof. by intros H. Qed.
Lemma wp_dhcp_modify {A} f (k : unit → D A) Q c o g : wp (k tt) Q (f c, o, g) → wp (modify f ≫= k) Q (c, o, g).
Proof. by intros H. Qed.
Lemma wp_dhcp_event {A} e (k : unit → D A) Q c o g : wp (k tt) Q (c, {| send := send o; events := events o ++ [e] |}, g) → wp (push_event e ≫= k) Q (c, o, g).
Proof. by intros H. Qed.
Lemma wp_dhcp_last f Q c o (g : G) : Q (Ok tt) (f c, o, g) → wp (modify f) Q (c, o, g).
Proof. by intros H. Qed.
Lemma wp_dhcp_opt {A B} (a : A) (k : A → D B) Q s : wp (k a) Q s → wp (a ← of_opt (Some a); k a) Q s.
Proof. by intros H. Qed.

(** C31. An offer the client takes is asked for at once: it sends one broadcast that
    anyone reads as a REQUEST, with its transaction and hardware address, for the
    address offered and naming the server that offered it, and waits for the answer
    in REQUESTING with the offered lease. *)
Theorem dhcp_offer_is_requested c o g b to_us now l :
  c_state c = Selecting → c_rx c = RxRaw → zlen (c_hw c) = 6 → fits 32 (c_xid c) → 0 ≤ now < 2 ^ 64 - 1 → parse_message c b = Some (DHCP_OFFER, Some l) →
  ∃ s', receive rnd b to_us now (c, o, g) = (Ok tt, s') ∧ c_state s'.1.1 = Requesting ∧ c_rx s'.1.1 = RxRaw ∧ c_lease s'.1.1 = Some (with_timestamp l now) ∧
    ∃ bytes m, send s'.1.2 = send o ++ [(Broadcast, bytes)] ∧ parse bytes BOOTREQUEST (Some (c_xid c)) (Some (c_hw c)) = Ok m ∧
      option_u8 m OPT_MESSAGE_TYPE = Some DHCP_REQUEST ∧ option_addr m OPT_REQUESTED_IP_ADDRESS = Some (address l) ∧ option_addr m OPT_SERVER_IDENTIFIER = Some (server_address l).
Proof.
  intros Hst Hrx Hh Hx Hnow Hp. destruct (offer_lease _ _ _ Hp) as (La & Lz & Ls).
  assert (wp (receive rnd b to_us now) (λ r s', r = Ok tt ∧ c_state s'.1.1 = Requesting ∧ c_rx s'.1.1 = RxRaw ∧ c_lease s'.1.1 = Some (with_timestamp l now) ∧
    ∃ bytes m, send s'.1.2 = send o ++ [(Broadcast, bytes)] ∧ parse bytes BOOTREQUEST (Some (c_xid c)) (Some (c_hw c)) = Ok m ∧
      option_u8 m OPT_MESSAGE_TYPE = Some DHCP_REQUEST ∧ option_addr m OPT_REQUESTED_IP_ADDRESS = Some (address l) ∧ option_addr m OPT_SERVER_IDENTIFIER = Some (server_address l)) (c, o, g)) as H.
  2: { unfold wp in H. destruct (receive rnd b to_us now (c, o, g)) as [r s']. destruct H as [-> H]. by exists s'. }
  unfold receive. apply wp_dhcp_client. rewrite Hrx, Hp. change (DHCP_OFFER =? DHCP_OFFER) with true. cbv iota. apply wp_bind, wp_dhcp_opt, wp_dhcp_modify, wp_dhcp_event, wp_dhcp_last.
  set (l' := with_timestamp l now). destruct (disable_frame (with_lease (Some l') c)) as (D1 & D2 & D3 & _ & F1 & F2 & F3). cbn [c_state c_lease c_hw with_lease] in D1, D2, D3.
  assert (c_xid (disable_event_sources (with_lease (Some l') c)) = c_xid c) as D4 by done. generalize dependent (disable_event_sources (with_lease (Some l') c)). intros d D1 D2 D3 F1 F2 F3 D4.
  assert (c_state d ≠ Requesting) as Hne by (by rewrite D1, Hst). unfold set_state. rewrite bool_decide_false by done.
  eapply wp_mono; [apply (tick_requests_lease now _ _ _ l'); try done; [cbn; by rewrite D3|cbn; by rewrite D4]|]. cbn [c_xid c_hw with_resend with_state]. rewrite D3, D4. by intros r s' H.
Qed.
End random.

(** ** An exchange: DISCOVER, OFFER, REQUEST, ACK *)
Definition ex_rnd (g : Z) : Z * Z := (g, g).
Definition ex_hw : mac := byte_of <$> [2; 0; 0; 0; 0; 1].
Definition ex_server (kind : Z) : Message :=
  set_options {| op := BOOTREPLY; htype := ARPHRD_ETHER; hlen := 6; xid := 7; secs := 0; flags := 0; ciaddr := zero4; yiaddr := byte_of <$> [10; 0; 0; 7]; siaddr := zero4; giaddr := zero4;
                 chaddr := ex_hw ++ zeros 10; sname := zeros 64; file := zeros 128; magic := true; options := ∅; entries := 0 |}
    {[ OPT_MESSAGE_TYPE := [[byte_of kind]]; OPT_SUBNET_MASK := [byte_of <$> [255; 255; 255; 0]]; OPT_ROUTER := [byte_of <$> [10; 0; 0; 1]]; OPT_LEASE_TIME := [byte_of <$> [0; 0; 14; 16]];
       OPT_SERVER_IDENTIFIER := [byte_of <$> [10; 0; 0; 1]] ]} 5.
Definition ex_bytes (kind : Z) : list byte := match build (ex_server kind) with Ok b => b | _ => [] end.
Definition ex_offered : list byte := Eval vm_compute in ex_bytes DHCP_OFFER.
Definition ex_acked : list byte := Eval vm_compute in ex_bytes DHCP_ACK.

Definition ex_s0 : @St Z := (new ex_hw 1500, {| send := []; events := [] |}, 7).
Definition ex_s1 : @St Z := Eval vm_compute in (exec ex_rnd (CStart 1000) ex_s0).2.
Definition ex_s2 : @St Z := Eval vm_compute in (exec ex_rnd (CReceive ex_offered false 2000) ex_s1).2.
Definition ex_s3 : @St Z := Eval vm_compute in (exec ex_rnd (CReceive ex_acked false 3000) ex_s2).2.

Lemma ex_exchange : reach ex_rnd ex_hw 1500 [(ex_offered, 2000); (ex_acked, 3000)] ex_s3.
Proof.
  assert (reach ex_rnd ex_hw 1500 [] ex_s1) as H1.
  { apply (reach_call _ _ _ [] ex_s0 (CStart 1000)); [apply reach_new|by vm_compute|vm_compute; reflexivity]. }
  assert (reach ex_rnd ex_hw 1500 [(ex_offered, 2000)] ex_s2) as H2.
  { apply (reach_call _ _ _ [] ex_s1 (CReceive ex_offered false 2000)); [done|by vm_compute|vm_compute; reflexivity]. }
  apply (reach_call _ _ _ [(ex_offered, 2000)] ex_s2 (CReceive ex_acked false 3000)); [done|by vm_compute|vm_compute; reflexivity].
Qed.


Lemma dhcp_client_never_stuck_witness :
  next_deadline ex_s3.1.1 = Some 1801002993 ∧
  (∀ k, allowed k ex_s3 → ∃ s', exec ex_rnd k ex_s3 = (Ok tt, s')) ∧
  (is_running ex_s3.1.1 = true →
   (c_state ex_s3.1.1 = Bound ∧ ∃ l, c_lease ex_s3.1.1 = Some l ∧ lifetime l = INFINITY) ∨
   ∃ d, next_deadline ex_s3.1.1 = Some d ∧ ∀ now, d ≤ now → 0 ≤ now < 2 ^ 64 - 1 → ∃ s', tick ex_rnd now ex_s3 = (Ok tt, s') ∧ ∀ d', next_deadline s'.1.1 = Some d' → now < d').
Proof. split; [vm_compute; reflexivity|]. apply (dhcp_client_never_stuck ex_rnd ex_hw 1500 [(ex_offered, 2000); (ex_acked, 3000)]). exact ex_exchange. Defined.

Definition ex_offer_lease : Lease := Eval vm_compute in match parse_message ex_s1.1.1 ex_offered with Some (_, Some l) => l | _ => ex_lease end.

Lemma dhcp_offer_is_requested_witness :
  ∃ s', receive ex_rnd ex_offered false 2000 (ex_s1.1.1, ex_s1.1.2, 7) = (Ok tt, s') ∧ c_state s'.1.1 = Requesting ∧ c_rx s'.1.1 = RxRaw ∧ c_lease s'.1.1 = Some (with_timestamp ex_offer_lease 2000) ∧
    ∃ bytes m, send s'.1.2 = send ex_s1.1.2 ++ [(Broadcast, bytes)] ∧ parse bytes BOOTREQUEST (Some 7) (Some ex_hw) = Ok m ∧
      option_u8 m OPT_MESSAGE_TYPE = Some DHCP_REQUEST ∧ option_addr m OPT_REQUESTED_IP_ADDRESS = Some (address ex_offer_lease) ∧ option_addr m OPT_SERVER_IDENTIFIER = Some (server_address ex_offer_lease).
Proof.
  apply (dhcp_offer_is_requested ex_rnd ex_s1.1.1 ex_s1.1.2 7 ex_offered false 2000 ex_offer_lease); [reflexivity..|vm_compute; intuition congruence|lia|vm_compute; reflexivity].
Defined.
