(* ===== verification/DnsPacket.v ===== *)
(** * DNS names and messages ([net/src/dns/packet.rs], names of [net/src/dns.rs])

    Names as the resolver holds them, in lower case with dots between the labels; the
    query a transaction sends and the parts of a reply it reads.  A name in a message
    may be compressed: pointers go back to where a name was before.  [None] of the
    code is [Err tt] here; the loop over a name runs on fuel and running out of it is
    a panic, which the theorems exclude for every buffer. *)

From S2P Require Import Prelude Bytes NetBytes.

Module packet.

Definition TYPE_A := 1.
Definition TYPE_CNAME := 5.
Definition TYPE_SOA := 6.
Definition TYPE_OPT := 41.
Definition TYPE_ANY := 255.
Definition CLASS_IN := 1.
Definition RCODE_SUCCESS := 0.
Definition RCODE_FORMERR := 1.
Definition RCODE_SERVFAIL := 2.
Definition RCODE_NXDOMAIN := 3.
Definition RCODE_NOTIMP := 4.
Definition RCODE_REFUSED := 5.
Definition NAME_MAX := 253.
Definition LABEL_MAX := 63.
Definition HEADER_SIZE := 12.
Definition UNICAST_SIZE_MAX := 512.

(** ** Names *)
Definition dot : byte := byte_of 46.

(** [name.split('.')]. *)
Fixpoint split_dot (l : list byte) : list (list byte) :=
  match l with
  | [] => [[]]
  | c :: l =>
      if bool_decide (c = dot) then [] :: split_dot l
      else match split_dot l with s :: ss => (c :: s) :: ss | [] => [[c]] end
  end.

Definition to_ascii_lowercase (c : byte) : byte :=
  if (65 <=? bval c) && (bval c <=? 90) then byte_of (bval c + 32) else c.
Definition is_ascii_graphic (c : byte) : bool := (33 <=? bval c) && (bval c <=? 126).

Definition strip_dot (l : list byte) : list byte :=
  match last l with Some c => if bool_decide (c = dot) then removelast l else l | None => l end.

Definition normalize (name : list byte) : option (list byte) :=
  let n := strip_dot name in
  if bool_decide (n = []) || (NAME_MAX <? zlen n) then None else
  if existsb (λ label, bool_decide (label = []) || (LABEL_MAX <? zlen label) || negb (forallb is_ascii_graphic label)) (split_dot n) then None
  else Some (to_ascii_lowercase <$> n).

Definition name_endswith (name suffix : list byte) : bool :=
  bool_decide (suffix = []) || bool_decide (name = suffix) ||
  ((zlen suffix <? zlen name) && bool_decide (suffix `suffix_of` name) &&
   bool_decide (at_ name (zlen name - zlen suffix - 1) = Some dot)).

Record Key := { name : list byte; rtype : Z }.
#[global] Instance Key_eq_dec : EqDecision Key.
Proof. solve_decision. Defined.
#[global] Instance Key_countable : Countable Key.
Proof. apply (inj_countable' (λ k, (name k, rtype k)) (λ p, {| name := p.1; rtype := p.2 |})). by intros []. Defined.
#[global] Instance Key_order : KeyOrder Key := λ k l, key_le (name k, rtype k) (name l, rtype l).
#[global] Instance Key_order_ok : KeyOrderOk Key.
Proof.
  split; unfold key_le, Key_order.
  - intros k l. apply _.
  - intros k l. apply (total key_le).
  - intros k l m H1 H2. by etransitivity.
  - intros [n t] [n' t'] H1 H2. pose proof (anti_symm key_le _ _ H1 H2) as E. by injection E as -> ->.
Defined.

(** ** Messages *)
Inductive Section_ := Answer | Authority | Additional.
#[global] Instance Section_eq_dec : EqDecision Section_.
Proof. solve_decision. Defined.

Inductive RData := A (a : ip4) | Cname (target : list byte) | Soa (minimum : Z) | Other.
#[global] Instance RData_eq_dec : EqDecision RData.
Proof. solve_decision. Defined.

Record Rr := { r_name : list byte; r_type : Z; r_class : Z; ttl : Z; data : RData; section : Section_ }.
#[global] Instance Rr_eq_dec : EqDecision Rr.
Proof. solve_decision. Defined.

Definition cacheable (r : Rr) : bool := bool_decide (section r = Answer).
Definition key (r : Rr) : Key := {| name := r_name r; rtype := r_type r |}.

Record Opt := { udp_size : Z; ext_rcode : Z; version : Z }.
Record Reply := { id : Z; qr : bool; tc : bool; rcode : Z; question : list (Key * Z); rrs : list Rr; opt : option Opt }.

(** ** Queries *)
Definition put_label (label : list byte) : list byte := byte_of (zlen label) :: label.
Definition put_opt (size : Z) : list byte := [x00] ++ be16 TYPE_OPT ++ be16 size ++ be32 0 ++ be16 0.
Definition build_query (id : Z) (name : list byte) (rtype : Z) (edns_udp_size : option Z) : list byte :=
  be16 id ++ be16 0x0100 ++ be16 1 ++ be16 0 ++ be16 0 ++ be16 (match edns_udp_size with Some _ => 1 | None => 0 end) ++
  mjoin (put_label <$> split_dot name) ++ [x00] ++ be16 rtype ++ be16 CLASS_IN ++
  match edns_udp_size with Some size => put_opt size | None => [] end.

(** ** Replies *)
Definition got {B} (o : option B) : res unit B := match o with Some a => Ok a | None => Err tt end.
Definition u16_at (b : list byte) (i : Z) : res unit Z := x ← got (at_ b i); y ← got (at_ b (i + 1)); mret (of_be [x; y]).

(** [c as char], pushed on a [String]: two bytes from 128 on. *)
Definition push_char (c : byte) : list byte :=
  if bval c <? 128 then [c] else [byte_of (Z.lor 0xC0 (Z.shiftr (bval c) 6)); byte_of (Z.lor 0x80 (Z.land (bval c) 0x3F))].
Definition lower (label : list byte) : list byte := mjoin ((λ c, push_char (to_ascii_lowercase c)) <$> label).

Definition push_label (name label : list byte) : list byte :=
  (if bool_decide (name = []) then [] else name ++ [dot]) ++ lower label.

Fixpoint name_loop (fuel : nat) (b : list byte) (pos limit : Z) (name : list byte) (after : option Z) : res unit (list byte * Z) :=
  match fuel with
  | O => Panic
  | S fuel =>
      c ← got (at_ b pos);
      let len := bval c in
      if len =? 0 then mret (name, default (pos + 1) after)
      else if Z.land len 0xC0 =? 0xC0 then
        lo ← got (at_ b (pos + 1));
        let ptr := Z.lor (Z.shiftl (Z.land len 0x3F) 8) (bval lo) in
        if limit <=? ptr then Err tt else name_loop fuel b ptr ptr name (Some (default (pos + 2) after))
      else if Z.land len 0xC0 =? 0 then
        label ← got (sub b (pos + 1) len);
        if bool_decide (dot ∈ label) then Err tt else
        let name := push_label name label in
        if NAME_MAX <? zlen name then Err tt else name_loop fuel b (pos + 1 + len) limit name after
      else Err tt
  end.

(** A pointer lowers [limit] and a label lengthens the name. *)
Definition read_name (b : list byte) (pos : Z) : res unit (list byte * Z) :=
  name_loop (S (Z.to_nat (pos + NAME_MAX))) b pos pos [] None.

Fixpoint question_loop (n : nat) (b : list byte) (pos : Z) (qs : list (Key * Z)) : res unit (list (Key * Z) * Z) :=
  match n with
  | O => mret (qs, pos)
  | S n =>
      '(nm, p) ← read_name b pos;
      t ← u16_at b p; c ← u16_at b (p + 2);
      question_loop n b (p + 4) (qs ++ [({| name := nm; rtype := t |}, c)])
  end.

Definition rdata_of (b : list byte) (t class rd rdlen : Z) (rdata : list byte) : res unit RData :=
  let pos := rd + rdlen in
  if (t =? TYPE_A) && (class =? CLASS_IN) then if negb (rdlen =? 4) then Err tt else mret (A rdata)
  else if t =? TYPE_CNAME then
    '(target, end_) ← read_name b rd;
    if negb (end_ =? pos) then Err tt else mret (Cname target)
  else if t =? TYPE_SOA then
    '(_, m) ← read_name b rd;
    '(_, r) ← read_name b m;
    if negb (r + 20 =? pos) then Err tt else
    w ← unwrap (sub b (r + 16) 4);
    mret (Soa (of_be w))
  else mret Other.

Fixpoint rr_loop (n : nat) (i : Z) (b : list byte) (flags ancount nscount pos : Z) (rrs : list Rr) (opt : option Opt) (bad_opt : bool) : res unit (list Rr * option Opt * bool) :=
  match n with
  | O => mret (rrs, opt, bad_opt)
  | S n =>
      if (pos =? zlen b) && bool_decide (is_Some opt) then mret (rrs, opt, true) else
      '(nm, p) ← read_name b pos;
      t ← u16_at b p; class ← u16_at b (p + 2);
      w ← got (sub b (p + 4) 4); let ttl_raw := of_be w in
      rdlen ← u16_at b (p + 8);
      let rd := p + 10 in
      rdata ← got (sub b rd rdlen);
      let pos := rd + rdlen in
      if t =? TYPE_OPT then
        if bool_decide (is_Some opt) || bad_opt || negb (bool_decide (nm = [])) || (i <? ancount + nscount)
        then rr_loop n (i + 1) b flags ancount nscount pos rrs opt true
        else
          let version := u8 (Z.shiftr ttl_raw 16) in
          if negb (Z.land flags 0x8000 =? 0) && negb (version =? 0) then Err tt else
          rr_loop n (i + 1) b flags ancount nscount pos rrs (Some {| udp_size := class; ext_rcode := u8 (Z.shiftr ttl_raw 24); version := version |}) bad_opt
      else
        let ttl := if negb (Z.land ttl_raw 0x80000000 =? 0) then 0 else ttl_raw in
        d ← rdata_of b t class rd rdlen rdata;
        let sec := if i <? ancount then Answer else if i <? ancount + nscount then Authority else Additional in
        rr_loop n (i + 1) b flags ancount nscount pos (rrs ++ [{| r_name := nm; r_type := t; r_class := class; ttl := ttl; data := d; section := sec |}]) opt bad_opt
  end.

Definition parse (b : list byte) : res unit Reply :=
  if zlen b <? HEADER_SIZE then Err tt else
  id ← u16_at b 0; flags ← u16_at b 2;
  qdcount ← u16_at b 4; ancount ← u16_at b 6; nscount ← u16_at b 8; arcount ← u16_at b 10;
  '(question, pos) ← question_loop (Z.to_nat qdcount) b HEADER_SIZE [];
  '(rrs, opt, bad_opt) ← rr_loop (Z.to_nat (ancount + nscount + arcount)) 0 b flags ancount nscount pos [] None false;
  let opt := if bad_opt : bool then None else opt in
  let rcode := Z.land flags 0x000F in
  let rcode := match opt with Some o => Z.lor rcode (Z.shiftl (ext_rcode o) 4) | None => rcode end in
  mret {| id := id; qr := negb (Z.land flags 0x8000 =? 0); tc := negb (Z.land flags 0x0200 =? 0); rcode := rcode; question := question; rrs := rrs; opt := opt |}.

Definition is_reply_for (r : Reply) (k : Key) : bool :=
  qr r && match question r with [(k', c)] => bool_decide (k' = k) && (c =? CLASS_IN) | _ => false end.

End packet.

(** * Names in messages *)
Import packet.

(** [name_at b limit pos ls after]: the labels [ls] of the name at [pos], pointers
    going below [limit] and then ever further back, and the position after it. *)
Inductive name_at (b : list byte) : Z → Z → list (list byte) → Z → Prop :=
| na_end limit pos c : at_ b pos = Some c → bval c = 0 → name_at b limit pos [] (pos + 1)
| na_label limit pos c l ls after : at_ b pos = Some c → 0 < bval c < 64 → sub b (pos + 1) (bval c) = Some l → dot ∉ l →
    name_at b limit (pos + 1 + bval c) ls after → name_at b limit pos (l :: ls) after
| na_pointer limit pos hi lo ls after : at_ b pos = Some hi → 192 ≤ bval hi → at_ b (pos + 1) = Some lo →
    (bval hi - 192) * 256 + bval lo < limit →
    name_at b ((bval hi - 192) * 256 + bval lo) ((bval hi - 192) * 256 + bval lo) ls after → name_at b limit pos ls (pos + 2).

(** The labels in lower case with dots between them. *)
Definition text (ls : list (list byte)) : list byte := foldl push_label [] ls.

Lemma land_c0 c : (Z.land (bval c) 0xC0 =? 0xC0) = (192 <=? bval c) ∧ (Z.land (bval c) 0xC0 =? 0) = (bval c <? 64).
Proof. by destruct c. Qed.

Lemma pointer_value hi lo : 192 ≤ bval hi → Z.lor (Z.shiftl (Z.land (bval hi) 0x3F) 8) (bval lo) = (bval hi - 192) * 256 + bval lo.
Proof.
  intros H. assert (Z.land (bval hi) 0x3F = bval hi - 192) as -> by (revert H; destruct hi; vm_compute; congruence).
  rewrite Z.lor_comm, lor_above by (pose proof (bval_range lo); lia). lia.
Qed.

Lemma zlen_push_char c : 1 ≤ zlen (push_char c).
Proof. unfold push_char. destruct (_ <? _); done. Qed.

Lemma zlen_lower l : zlen l ≤ zlen (lower l).
Proof.
  unfold lower. induction l as [|c l IH]; [done|]. rewrite fmap_cons. change (mjoin (?x :: ?y)) with (x ++ mjoin y). rewrite zlen_app, zlen_cons.
  pose proof (zlen_push_char (to_ascii_lowercase c)). lia.
Qed.

Lemma push_label_longer nm l : zlen nm + zlen l ≤ zlen (push_label nm l).
Proof.
  unfold push_label. pose proof (zlen_lower l). case_bool_decide as E; [subst nm; done|]. rewrite !zlen_app. change (zlen [dot]) with 1. lia.
Qed.

Lemma text_longer nm ls : zlen nm ≤ zlen (foldl push_label nm ls).
Proof. revert nm. induction ls as [|l ls IH]; intros nm; [done|]. cbn. pose proof (IH (push_label nm l)). pose proof (push_label_longer nm l). pose proof (zlen_nonneg l). lia. Qed.

(** The loop decides [name_at], whatever the bytes are. *)
Lemma name_loop_exact fuel : ∀ b pos limit nm after, 0 ≤ limit → zlen nm ≤ NAME_MAX → limit + NAME_MAX - zlen nm < Z.of_nat fuel →
  match name_loop fuel b pos limit nm after with
  | Ok (n, a) => ∃ ls e, name_at b limit pos ls e ∧ n = foldl push_label nm ls ∧ a = default e after ∧ zlen n ≤ NAME_MAX
  | Err _ => ∀ ls e, name_at b limit pos ls e → NAME_MAX < zlen (foldl push_label nm ls)
  | Panic => False
  end.
Proof.
  induction fuel as [|fuel IH]; intros b pos limit nm after Hl Hn Hf; [lia|]. cbn [name_loop].
  destruct (at_ b pos) as [c|] eqn:Ec; cbn [got mbind res_bind]; [|intros ls e Ha; inversion Ha; congruence].
  destruct (land_c0 c) as [-> ->]. pose proof (bval_range c) as Hc. destruct (Z.eqb_spec (bval c) 0) as [E0|N0].
  { exists [], (pos + 1). split; [by eapply na_end|done]. }
  destruct (Z.leb_spec 192 (bval c)) as [Hp|Hp].
  - destruct (at_ b (pos + 1)) as [lo|] eqn:El; cbn [got mbind res_bind]; [|intros ls e Ha; inversion Ha; subst; simplify_eq; lia || congruence].
    rewrite pointer_value by done. set (ptr := (bval c - 192) * 256 + bval lo) in *. pose proof (bval_range lo). destruct (Z.leb_spec limit ptr) as [Hge|Hlt].
    { intros ls e Ha. inversion Ha; simplify_eq; lia. }
    specialize (IH b ptr ptr nm (Some (default (pos + 2) after)) ltac:(lia) Hn ltac:(lia)). destruct (name_loop _ _ _ _ _ _) as [[n a]|[]|]; [|intros ls e Ha; inversion Ha; simplify_eq; [lia..|by eapply IH]|done].
    destruct IH as (ls & e & Ha & -> & -> & Hle). exists ls, (pos + 2). split; [by eapply na_pointer|done].
  - destruct (Z.ltb_spec (bval c) 64) as [Hs|Hs]; [|intros ls e Ha; inversion Ha; simplify_eq; lia].
    destruct (sub b (pos + 1) (bval c)) as [l|] eqn:El; cbn [got mbind res_bind]; [|intros ls e Ha; inversion Ha; simplify_eq; lia || congruence].
    case_bool_decide as Hd; [intros ls e Ha; inversion Ha; simplify_eq; lia || congruence|]. pose proof El as (_ & _ & _ & Ev)%sub_inv.
    assert (zlen l = bval c) as Hll by (rewrite Ev; apply sub_inv in El; apply zlen_raw_sub; lia).
    pose proof (push_label_longer nm l) as Hg. destruct (Z.ltb_spec NAME_MAX (zlen (push_label nm l))) as [Hbig|Hfit].
    { intros ls e Ha. inversion Ha; simplify_eq; [|lia]. cbn. match goal with |- _ < zlen (foldl _ ?x ?y) => pose proof (text_longer x y) end. lia. }
    specialize (IH b (pos + 1 + bval c) limit (push_label nm l) after Hl Hfit ltac:(lia)). destruct (name_loop _ _ _ _ _ _) as [[n a]|[]|].
    + destruct IH as (ls & e & Ha & -> & -> & Hle). exists (l :: ls), e. split; [eapply na_label; [done|lia|done..]|done].
    + intros ls e Ha. inversion Ha; simplify_eq; [|lia]. cbn. by eapply IH.
    + done.
Qed.

(** One name at most is at a position. *)
Lemma name_at_fun b limit pos ls e : name_at b limit pos ls e → ∀ ls' e', name_at b limit pos ls' e' → ls = ls' ∧ e = e'.
Proof.
  induction 1 as [? ? c Hc H0|? ? c l ls e Hc Hr Hl Hd Ha IH|? ? hi lo ls e Hhi Hr Hlo Hlt Ha IH]; intros ls' e' Ha'; inversion Ha'; simplify_eq; try lia; [done|..].
  - match goal with H : name_at _ _ (_ + 1 + _) _ _ |- _ => destruct (IH _ _ H) as [-> ->] end. done.
  - match goal with H : name_at _ (_ * 256 + _) _ _ _ |- _ => destruct (IH _ _ H) as [-> _] end. done.
Qed.

Lemma name_at_end b limit pos ls e : name_at b limit pos ls e → 0 ≤ pos → pos < e ≤ zlen b.
Proof.
  assert (∀ i c, at_ b i = Some c → i < zlen b) as Hat by (intros i c (H0 & E)%at_sub; apply (f_equal zlen) in E; unfold raw_sub, zlen in E; rewrite length_take, length_drop in E; cbn in E; unfold zlen; lia).
  induction 1 as [? ? c Hc|? ? c l ls e Hc Hr Hl Hd Ha IH|? ? hi lo ls e Hhi Hr Hlo Hlt Ha IH]; intros Hp.
  - apply Hat in Hc. lia.
  - specialize (IH ltac:(lia)). lia.
  - apply Hat in Hlo. lia.
Qed.

Lemma read_name_decides b pos : 0 ≤ pos →
  match read_name b pos with
  | Ok (n, e) => ∃ ls, name_at b pos pos ls e ∧ n = text ls ∧ zlen n ≤ NAME_MAX
  | Err _ => ∀ ls e, name_at b pos pos ls e → NAME_MAX < zlen (text ls)
  | Panic => False
  end.
Proof.
  intros Hp. pose proof (name_loop_exact (S (Z.to_nat (pos + NAME_MAX))) b pos pos [] None Hp ltac:(done)) as H.
  assert (pos + NAME_MAX - 0 < Z.of_nat (S (Z.to_nat (pos + NAME_MAX)))) as Hf by (unfold NAME_MAX; lia). specialize (H Hf). clear Hf.
  unfold read_name. destruct (name_loop _ _ _ _ _ _) as [[n e]|[]|]; [|done..]. destruct H as (ls & e' & Ha & -> & -> & Hl). by exists ls.
Qed.

(** C33. Reading a name decides whether there is one: it ends on every buffer, finds the
    labels that pointers going ever further back lead to, and refuses a buffer only
    when it has no such name of at most 253 bytes. *)
Theorem read_name_exact b pos : 0 ≤ pos →
  match read_name b pos with
  | Ok (n, e) => ∃ ls, name_at b pos pos ls e ∧ n = text ls ∧ zlen n ≤ NAME_MAX
  | Err _ => ∀ ls e, name_at b pos pos ls e → NAME_MAX < zlen (text ls)
  | Panic => False
  end.
Proof.
  apply read_name_decides.
Qed.

Definition ex_compressed : list byte := byte_of <$> [3; 97; 98; 99; 0; 1; 88; 192; 0].
Lemma read_name_exact_witness : ∃ ls, name_at ex_compressed 5 5 ls 9 ∧ ascii "x.abc" = text ls ∧ zlen (ascii "x.abc") ≤ NAME_MAX.
Proof.
  pose proof (read_name_exact ex_compressed 5 ltac:(lia)) as H. replace (read_name ex_compressed 5) with (@Ok unit _ (ascii "x.abc", 9)) in H by (by vm_compute). exact H.
Defined.

Lemma read_name_of b pos ls e : 0 ≤ pos → name_at b pos pos ls e → zlen (text ls) ≤ NAME_MAX → read_name b pos = Ok (text ls, e).
Proof.
  intros Hp Ha Hl. pose proof (read_name_decides b pos Hp) as H. destruct (read_name b pos) as [[n e']|[]|]; [|specialize (H _ _ Ha); lia|done].
  destruct H as (ls' & Ha' & -> & _). by destruct (name_at_fun _ _ _ _ _ Ha _ _ Ha') as [-> ->].
Qed.

(** * Replies

    [safe r Q]: [r] does not panic, and what it returns satisfies [Q]. *)
Definition safe {B} (r : res unit B) (Q : B → Prop) : Prop := match r with Ok a => Q a | Err _ => True | Panic => False end.

Lemma safe_bind {B C} (r : res unit B) (k : B → res unit C) Q : safe r (λ a, safe (k a) Q) → safe (r ≫= k) Q.
Proof. by destruct r. Qed.
Lemma safe_got {B} (o : option B) Q : (∀ a, o = Some a → Q a) → safe (got o) Q.
Proof. destruct o; [intros H; by apply H|done]. Qed.

Lemma safe_u16 b i (Q : Z → Prop) : (∀ v, fits 16 v → 0 ≤ i → Q v) → safe (u16_at b i) Q.
Proof.
  intros H. unfold u16_at. apply safe_bind, safe_got. intros x Hx. apply safe_bind, safe_got. intros y Hy. cbn. apply H; [apply (of_be_range [x; y])|].
  by apply at_sub in Hx as [? _].
Qed.

Lemma safe_name b pos (Q : list byte * Z → Prop) : 0 ≤ pos → (∀ n e, zlen n ≤ NAME_MAX → pos < e ≤ zlen b → Q (n, e)) → safe (read_name b pos) Q.
Proof.
  intros Hp H. pose proof (read_name_decides b pos Hp) as Hx. destruct (read_name b pos) as [[n e]|[]|]; [|done..].
  destruct Hx as (ls & Ha & _ & Hl). apply H; [done|]. by apply name_at_end in Ha.
Qed.

(** What the resolver may rely on in a record. *)
Record wf_rr (r : Rr) : Prop := {
  wf_name : zlen (r_name r) ≤ NAME_MAX;
  wf_words : fits 16 (r_type r) ∧ fits 16 (r_class r);
  wf_ttl : 0 ≤ ttl r < 2 ^ 31;
  wf_data : match data r with
            | A a => zlen a = 4 ∧ r_type r = TYPE_A ∧ r_class r = CLASS_IN
            | Cname t => zlen t ≤ NAME_MAX ∧ r_type r = TYPE_CNAME
            | Soa m => fits 32 m ∧ r_type r = TYPE_SOA
            | Other => r_type r ≠ TYPE_CNAME ∧ r_type r ≠ TYPE_SOA ∧ r_type r ≠ TYPE_OPT
            end }.

Lemma safe_rdata b t class rd rdlen rdata (Q : RData → Prop) : 0 ≤ rd → sub b rd rdlen = Some rdata → t ≠ TYPE_OPT →
  (∀ d, match d with
        | A a => zlen a = 4 ∧ t = TYPE_A ∧ class = CLASS_IN
        | Cname n => zlen n ≤ NAME_MAX ∧ t = TYPE_CNAME
        | Soa m => fits 32 m ∧ t = TYPE_SOA
        | Other => t ≠ TYPE_CNAME ∧ t ≠ TYPE_SOA ∧ t ≠ TYPE_OPT
        end → Q d) → safe (rdata_of b t class rd rdlen rdata) Q.
Proof.
  intros Hrd (_ & H0 & Hle & Es)%sub_inv Ht HQ. unfold rdata_of. destruct ((t =? TYPE_A) && (class =? CLASS_IN)) eqn:Ea.
  - apply andb_true_iff in Ea as [->%Z.eqb_eq ->%Z.eqb_eq]. destruct (Z.eqb_spec rdlen 4) as [->|]; [|done]. apply HQ. split; [|done]. rewrite Es. apply zlen_raw_sub; lia.
  - destruct (Z.eqb_spec t TYPE_CNAME) as [->|Nc].
    + apply safe_bind, safe_name; [done|]. intros n e Hn He. destruct (Z.eqb_spec e (rd + rdlen)); [|done]. by apply HQ.
    + destruct (Z.eqb_spec t TYPE_SOA) as [->|Ns]; [|by apply HQ]. apply safe_bind, safe_name; [done|]. intros n e _ He. apply safe_bind, safe_name; [lia|]. intros n' r _ Hr.
      destruct (Z.eqb_spec (r + 20) (rd + rdlen)) as [E|]; [|done]. cbn [negb]. rewrite unwrap_sub_ok by lia. apply HQ. split; [|done].
      pose proof (of_be_range (raw_sub b (r + 16) 4)) as H. rewrite zlen_raw_sub in H by lia. exact H.
Qed.

Lemma safe_rr_loop n : ∀ i b flags an ns pos rs o bad (Q : list Rr * option Opt * bool → Prop), 0 ≤ pos → Forall wf_rr rs → (∀ x, o = Some x → fits 8 (ext_rcode x)) →
  (∀ rs o bad, Forall wf_rr rs → (∀ x, o = Some x → fits 8 (ext_rcode x)) → Q (rs, o, bad)) → safe (rr_loop n i b flags an ns pos rs o bad) Q.
Proof.
  induction n as [|n IH]; intros i b flags an ns pos rs o bad Q Hp Hrs Ho HQ; cbn [rr_loop]; [by apply HQ|].
  destruct (_ && _); [by apply HQ|]. apply safe_bind, safe_name; [done|]. intros nm p Hn Hpos. apply safe_bind, safe_u16. intros t Ft _. apply safe_bind, safe_u16. intros class Fc _.
  apply safe_bind, safe_got. intros w Hw. apply safe_bind, safe_u16. intros rdlen Fl _. apply safe_bind, safe_got. intros rdata Hrd. cbv zeta.
  assert (fits 32 (of_be w)) as Fw.
  { apply sub_inv in Hw as (? & ? & ? & ->). pose proof (of_be_range (raw_sub b (p + 4) 4)) as Hb. rewrite zlen_raw_sub in Hb by lia. exact Hb. }
  destruct Fl as [Fl _]. destruct (Z.eqb_spec t TYPE_OPT) as [->|Nt].
  - destruct (_ || _ || _ || _); [apply IH; [lia|done..]|]. destruct (_ && _); [done|]. apply IH; [lia|done| |done]. intros x [= <-]. cbn. by apply wrap_fits.
  - apply safe_bind. apply safe_rdata; [lia|done|done|]. intros d Hd. apply IH; [lia| |done|done]. apply Forall_app. split; [done|]. apply Forall_singleton.
    split; [done|done| |exact Hd]. cbn [ttl]. destruct Fw as [F0 F1]. destruct (Z.eqb_spec (Z.land (of_be w) 0x80000000) 0) as [E|]; [|done]. cbn [negb].
    change 0x80000000 with (Z.shiftl 1 31) in E. apply (f_equal (λ z, Z.testbit z 31)) in E. rewrite Z.land_spec, Z.bits_0, Z.shiftl_spec in E by lia. change (Z.testbit 1 (31 - 31)) with true in E.
    rewrite andb_true_r in E. split; [done|]. destruct (Z.lt_ge_cases (of_be w) (2 ^ 31)); [done|]. exfalso. apply Z.testbit_false in E; [|lia].
    rewrite <- (Z.div_unique (of_be w) (2 ^ 31) 1 (of_be w - 2 ^ 31)) in E by lia. done.
Qed.

Lemma safe_question_loop n : ∀ b pos qs (Q : list (Key * Z) * Z → Prop), 0 ≤ pos → Forall (λ q, zlen (name q.1) ≤ NAME_MAX) qs →
  (∀ qs pos, 0 ≤ pos → Forall (λ q : Key * Z, zlen (name q.1) ≤ NAME_MAX) qs → Q (qs, pos)) → safe (question_loop n b pos qs) Q.
Proof.
  induction n as [|n IH]; intros b pos qs Q Hp Hq HQ; cbn [question_loop]; [by apply HQ|]. apply safe_bind, safe_name; [done|]. intros nm p Hn He.
  apply safe_bind, safe_u16. intros t _ _. apply safe_bind, safe_u16. intros c _ _. apply IH; [lia| |done]. apply Forall_app. by split; [|apply Forall_singleton].
Qed.


(** * Queries are read back *)
Definition plain (c : byte) : Prop := bval c < 128 ∧ to_ascii_lowercase c = c.

Lemma lower_plain l : Forall plain l → lower l = l.
Proof.
  unfold lower. induction 1 as [|c l [Hc Hl] _ IH]; [done|]. rewrite fmap_cons. change (mjoin (?x :: ?y)) with (x ++ mjoin y). rewrite IH, Hl. unfold push_char.
  by destruct (Z.ltb_spec (bval c) 128); [|lia].
Qed.

Lemma split_dot_join l : ∃ s ss, split_dot l = s :: ss ∧ l = s ++ mjoin (cons dot <$> ss).
Proof.
  induction l as [|c l (s & ss & E & El)]; [by exists [], []|]. cbn [split_dot]. rewrite E. case_bool_decide as Hc.
  - exists [], (s :: ss). split; [done|]. cbn. by rewrite Hc, El at 1.
  - exists (c :: s), ss. split; [done|]. by rewrite El at 1.
Qed.

Lemma split_dot_free l : Forall (λ s, dot ∉ s) (split_dot l).
Proof.
  induction l as [|c l IH]; [constructor; [set_solver|done]|]. cbn [split_dot]. case_bool_decide as Hc; [constructor; [set_solver|done]|].
  destruct (split_dot l) as [|s ss]; [constructor; [set_solver|done]|]. apply Forall_cons in IH as [Hs Hss]. constructor; [set_solver|done].
Qed.

Lemma lowercase_dot c : to_ascii_lowercase c = dot ↔ c = dot.
Proof. split; [|by intros ->]. by destruct c. Qed.

Lemma split_dot_lowercase (l : list byte) : split_dot (to_ascii_lowercase <$> l) = (λ s : list byte, to_ascii_lowercase <$> s) <$> split_dot l.
Proof.
  induction l as [|c l IH]; [done|]. rewrite fmap_cons. cbn [split_dot]. rewrite IH. destruct (decide (c = dot)) as [->|N].
  - by rewrite !bool_decide_true.
  - rewrite !bool_decide_false by (by rewrite ?lowercase_dot). by destruct (split_dot l).
Qed.

Lemma graphic_plain c : is_ascii_graphic c = true → plain (to_ascii_lowercase c).
Proof. unfold plain. destruct c; vm_compute; intros H; (discriminate || by split). Qed.

Lemma normalize_spec s n : normalize s = Some n → zlen n ≤ NAME_MAX ∧ Forall (λ l, 0 < zlen l < 64 ∧ dot ∉ l ∧ Forall plain l) (split_dot n).
Proof.
  unfold normalize. set (m := strip_dot s). case_bool_decide; [done|]. cbn [orb]. destruct (Z.ltb_spec NAME_MAX (zlen m)) as [|Hm]; [done|].
  destruct (existsb _ _) eqn:Ex; [done|]. intros [= <-]. split; [unfold zlen in *; by rewrite length_fmap|]. rewrite split_dot_lowercase. apply Forall_fmap, Forall_forall. intros l Hl.
  apply not_true_iff_false in Ex. assert (bool_decide (l = []) || (LABEL_MAX <? zlen l) || negb (forallb is_ascii_graphic l) = false) as E.
  { apply not_true_iff_false. intros Ht. apply Ex, existsb_exists. exists l. split; [by apply list_elem_of_In|done]. }
  apply orb_false_iff in E as [[E1%bool_decide_eq_false E2%Z.ltb_ge]%orb_false_iff E3%negb_false_iff]. unfold LABEL_MAX in E2. cbn.
  assert (zlen (to_ascii_lowercase <$> l) = zlen l) as -> by (unfold zlen; by rewrite length_fmap). split_and!.
  - destruct l; [done|]. rewrite zlen_cons. pose proof (zlen_nonneg l). lia.
  - lia.
  - intros (c & E & Hc)%list_elem_of_fmap. symmetry in E. apply lowercase_dot in E as ->. eapply Forall_forall in Hl; [|apply split_dot_free]. done.
  - apply Forall_fmap. eapply Forall_impl; [apply Forall_forall; intros c Hc; apply (proj1 (forallb_forall _ _) E3), list_elem_of_In, Hc|]. intros c. apply graphic_plain.
Qed.

Lemma foldl_labels ls : ∀ acc, acc ≠ [] → Forall (λ l, Forall plain l) ls → foldl push_label acc ls = acc ++ mjoin (cons dot <$> ls).
Proof.
  induction ls as [|l ls IH]; intros acc Ha Hl; [cbn; by rewrite app_nil_r|]. apply Forall_cons in Hl as [Hl Hls]. cbn [foldl]. unfold push_label at 2. rewrite bool_decide_false by done.
  rewrite lower_plain, IH by (try done; by destruct acc). rewrite fmap_cons. change (mjoin (?x :: ?y)) with (x ++ mjoin y). by rewrite <- !app_assoc.
Qed.

Lemma text_split n : Forall (λ l, 0 < zlen l < 64 ∧ dot ∉ l ∧ Forall plain l) (split_dot n) → text (split_dot n) = n.
Proof.
  destruct (split_dot_join n) as (s & ss & E & En). rewrite E. intros [(Hs & _ & Hp) Hss]%Forall_cons. unfold text. cbn [foldl]. unfold push_label at 2. rewrite bool_decide_true by done. cbn [app].
  rewrite lower_plain by done. rewrite foldl_labels; [done|intros ->; by destruct Hs|]. eapply Forall_impl; [exact Hss|]. by intros l (_ & _ & ?).
Qed.

Lemma sub_mid (pre v tl : list byte) : sub (pre ++ v ++ tl) (zlen pre) (zlen v) = Some v.
Proof.
  pose proof (sub_segment [pre; v] 1 v tl (zlen pre) (zlen v) eq_refl ltac:(cbn; lia) eq_refl) as H. change (mjoin [pre; v]) with (pre ++ v ++ []) in H.
  by rewrite app_nil_r, <- app_assoc in H.
Qed.

Lemma labels_at ls : ∀ pre rest limit, Forall (λ l, 0 < zlen l < 64 ∧ dot ∉ l ∧ Forall plain l) ls →
  name_at (pre ++ mjoin (put_label <$> ls) ++ x00 :: rest) limit (zlen pre) ls (zlen pre + zlen (mjoin (put_label <$> ls)) + 1).
Proof.
  assert (∀ (pre : list byte) c tl, at_ (pre ++ c :: tl) (zlen pre) = Some c) as Hat by (intros pre c tl; apply at_of_sub, (sub_mid pre [c] tl)).
  induction ls as [|l ls IH]; intros pre rest limit Hl.
  - change (mjoin (put_label <$> [])) with (@nil byte). rewrite zlen_nil, Z.add_0_r. eapply na_end; [apply Hat|done].
  - apply Forall_cons in Hl as [(Hz & Hd & _) Hls]. rewrite fmap_cons. change (mjoin (put_label l :: ?y)) with (byte_of (zlen l) :: l ++ mjoin y). set (c := byte_of (zlen l)).
    assert (bval c = zlen l) as Ec by (apply byte_field; lia). specialize (IH (pre ++ c :: l) rest limit Hls). rewrite zlen_app, zlen_cons in IH. set (tl := mjoin (put_label <$> ls)) in *. clearbody tl.
    rewrite zlen_cons, zlen_app. cbn [app]. rewrite <- !app_assoc in *. cbn [app] in IH. eapply na_label; [apply Hat|lia| |done|].
    + rewrite Ec. pose proof (sub_mid (pre ++ [c]) l (tl ++ x00 :: rest)) as H. rewrite zlen_app in H. rewrite <- app_assoc in H. exact H.
    + rewrite Ec. replace (zlen pre + 1 + zlen l) with (zlen pre + (zlen l + 1)) by lia. replace (zlen pre + (zlen l + zlen tl + 1) + 1) with (zlen pre + (zlen l + 1) + zlen tl + 1) by lia. exact IH.
Qed.

(** The fields of a query, in order. *)
Definition fields (id : Z) (n : list byte) (t : Z) (edns : option Z) : list (list byte) :=
  [be16 id; be16 0x0100; be16 1; be16 0; be16 0; be16 (match edns with Some _ => 1 | None => 0 end);
   mjoin (put_label <$> split_dot n); [x00]; be16 t; be16 CLASS_IN] ++
  match edns with Some size => [[x00]; be16 TYPE_OPT; be16 size; be32 0; be16 0] | None => [] end.

Lemma build_fields id n t edns : build_query id n t edns = mjoin (fields id n t edns).
Proof. unfold build_query, fields. destruct edns; cbn; by rewrite ?app_nil_r. Qed.

Lemma sub_field segs (i : nat) (v : list byte) a n : segs !! i = Some v → a = list_sum zlen (take i segs) → n = zlen v → sub (mjoin segs) a n = Some v.
Proof. intros Hi Ha Hn. rewrite <- (app_nil_r (mjoin segs)). by apply (sub_segment _ i). Qed.

Lemma u16_field segs (i : nat) z a : segs !! i = Some (be16 z) → fits 16 z → a = list_sum zlen (take i segs) → u16_at (mjoin segs) a = Ok z.
Proof.
  intros Hi Fz Ha. pose proof (sub_field segs i (be16 z) a 2 Hi Ha eq_refl) as H. apply (be16_at_sub (E:=unit)) in H. rewrite of_be16 in H by done. revert H.
  unfold be16_at, u16_at. destruct (at_ _ a); [|done]. cbn. by destruct (at_ _ (a + 1)).
Qed.

Lemma opt_read id n t size pos : fits 16 size → pos = 17 + zlen (mjoin (put_label <$> split_dot n)) →
  rr_loop 1 0 (mjoin (fields id n t (Some size))) 256 0 0 pos [] None false = Ok ([], Some {| udp_size := size; ext_rcode := 0; version := 0 |}, false).
Proof.
  intros Fs Hp. set (b := mjoin (fields id n t (Some size))). pose proof (zlen_nonneg (mjoin (put_label <$> split_dot n))) as HL.
  assert (∀ i, (10 ≤ i)%nat → list_sum zlen (take i (fields id n t (Some size))) = pos + list_sum zlen (take (i - 10) [[x00]; be16 TYPE_OPT; be16 size; be32 0; be16 0])) as Hs.
  { intros i Hi. do 10 (destruct i as [|i]; [lia|]). rewrite Hp. cbn [fields app take list_sum foldr]. rewrite !zlen_be16. change (zlen [x00]) with 1. replace (S (S (S (S (S (S (S (S (S (S i))))))))) - 10)%nat with i by lia. unfold list_sum. lia. }
  assert (read_name b pos = Ok ([], pos + 1)) as Hr.
  { apply (read_name_of b pos []); [lia| |done]. apply (na_end _ _ _ x00); [|done]. apply at_of_sub, (sub_field _ 10); [done|rewrite Hs by lia; cbn; lia|done]. }
  assert (zlen b = pos + 11) as Hlen.
  { pose proof (sub_field (fields id n t (Some size)) 14 (be16 0) (pos + 9) 2 eq_refl) as H. rewrite Hs in H by lia. specialize (H ltac:(cbn; rewrite !zlen_be16, zlen_be32; change (zlen [x00]) with 1; lia) eq_refl).
    unfold b, fields. cbn. repeat first [rewrite zlen_app|rewrite zlen_cons|rewrite zlen_be16|rewrite zlen_be32|rewrite zlen_nil]. lia. }
  cbn [rr_loop]. rewrite bool_decide_false, andb_false_r by (by intros [? ?]). rewrite Hr, bind_ok. cbv beta iota. unfold b in *.
  rewrite (u16_field _ 11 TYPE_OPT (pos + 1)), (u16_field _ 12 size (pos + 1 + 2)), !bind_ok; [|done|done|rewrite Hs by lia; cbn; rewrite !zlen_be16; change (zlen [x00]) with 1; lia|done|done|rewrite Hs by lia; cbn; change (zlen [x00]) with 1; lia].
  rewrite (sub_field _ 13 (be32 0) (pos + 1 + 4) 4); [|done|rewrite Hs by lia; cbn; rewrite !zlen_be16; change (zlen [x00]) with 1; lia|done]. cbn [got]. rewrite bind_ok.
  rewrite (u16_field _ 14 0 (pos + 1 + 8)), bind_ok; [|done|done|rewrite Hs by lia; cbn; rewrite !zlen_be16, zlen_be32; change (zlen [x00]) with 1; lia].
  rewrite sub_Some by lia. cbn [got]. rewrite bind_ok. rewrite of_be32 by done. done.
Qed.

(** The query for a name the resolver takes is read back by its own parser: the one
    question of class IN, no answers, and the OPT record that was put in. *)
Theorem query_read_back s n id t edns : normalize s = Some n → fits 16 id → fits 16 t → (∀ size, edns = Some size → fits 16 size) →
  parse (build_query id n t edns) =
    Ok {| id := id; qr := false; tc := false; rcode := RCODE_SUCCESS; question := [({| name := n; rtype := t |}, CLASS_IN)]; rrs := [];
          opt := (λ size, {| udp_size := size; ext_rcode := 0; version := 0 |}) <$> edns |}.
Proof.
  intros [Hn Hl]%normalize_spec Fi Ft Fs. rewrite build_fields. set (L := zlen (mjoin (put_label <$> split_dot n))). pose proof (zlen_nonneg (mjoin (put_label <$> split_dot n))) as HL. fold L in HL.
  assert (∀ (i : nat) z a, fields id n t edns !! i = Some (be16 z) → fits 16 z → a = list_sum zlen (take i (fields id n t edns)) → u16_at (mjoin (fields id n t edns)) a = Ok z) as U by (intros; by eapply u16_field).
  assert (zlen (mjoin (fields id n t edns)) = 12 + L + 5 + match edns with Some _ => 11 | None => 0 end) as Hlen.
  { unfold fields. destruct edns; cbn; repeat first [rewrite zlen_app|rewrite zlen_cons|rewrite zlen_be16|rewrite zlen_be32|rewrite zlen_nil]; fold L; lia. }
  assert (read_name (mjoin (fields id n t edns)) 12 = Ok (n, 12 + L + 1)) as Hname.
  { rewrite <- (text_split n Hl) at 2. apply read_name_of; [done| |by rewrite text_split].
    pose proof (labels_at (split_dot n) (mjoin (take 6 (fields id n t edns))) (mjoin (drop 8 (fields id n t edns))) 12 Hl) as H.
    assert (zlen (mjoin (take 6 (fields id n t edns))) = 12) as E12 by (cbn; rewrite ?zlen_app, !zlen_be16, zlen_nil; lia). rewrite E12 in H. fold L in H.
    replace (mjoin (fields id n t edns)) with (mjoin (take 6 (fields id n t edns)) ++ mjoin (put_label <$> split_dot n) ++ x00 :: mjoin (drop 8 (fields id n t edns))); [exact H|].
    unfold fields. generalize (mjoin (put_label <$> split_dot n)). intros ls. destruct edns; cbn; by rewrite <- ?app_assoc, ?app_nil_r. }
  unfold parse. rewrite Hlen. destruct (Z.ltb_spec (12 + L + 5 + match edns with Some _ => 11 | None => 0 end) HEADER_SIZE) as [Hx|_]; [unfold HEADER_SIZE in Hx; destruct edns; lia|].
  rewrite (U 0%nat id 0), (U 1%nat 256 2), (U 2%nat 1 4), (U 3%nat 0 6), (U 4%nat 0 8), (U 5%nat (match edns with Some _ => 1 | None => 0 end) 10);
    [|first [done | by destruct edns]..]. rewrite !bind_ok. change (Z.to_nat 1) with 1%nat. change HEADER_SIZE with 12. cbn [question_loop]. rewrite Hname, bind_ok. cbv beta iota.
  rewrite (U 8%nat t (12 + L + 1)), (U 9%nat CLASS_IN (12 + L + 1 + 2)); [|done|done|cbn; rewrite !zlen_be16; fold L; change (zlen [x00]) with 1; lia|done|done|cbn; rewrite !zlen_be16; fold L; change (zlen [x00]) with 1; lia].
  rewrite !bind_ok. cbn [app question_loop mret res_ret mbind res_bind].
  destruct edns as [size|]; [|done]. change (Z.to_nat (0 + 0 + 1)) with 1%nat. rewrite opt_read by (try apply Fs; try done; fold L; lia). done.
Qed.

Lemma query_read_back_witness :
  parse (build_query 7 (ascii "example.org") TYPE_A (Some 1232)) =
    Ok {| id := 7; qr := false; tc := false; rcode := RCODE_SUCCESS; question := [({| name := ascii "example.org"; rtype := TYPE_A |}, CLASS_IN)]; rrs := [];
          opt := Some {| udp_size := 1232; ext_rcode := 0; version := 0 |} |}.
Proof. apply (query_read_back (ascii "Example.ORG.") (ascii "example.org") 7 TYPE_A (Some 1232)); [by vm_compute|done|done|by intros size [= <-]]. Defined.

(** The resolver also asks for names it read in a CNAME, which [normalize] has not seen.
    For the root its query says something else: the empty name is split into one empty
    label, whose length byte ends the name, and the type is read one byte early. *)
Lemma root_query_malformed id : fits 16 id → question <$> parse (build_query id [] TYPE_A None) = Ok [({| name := []; rtype := 0 |}, 0x0100)].
Proof.
  intros Fi. assert (∀ x y, question <$> parse ([x; y] ++ drop 2 (build_query 0 [] TYPE_A None)) = Ok [({| name := []; rtype := 0 |}, 0x0100)]) as H by (intros x y; by vm_compute).
  pose proof (zlen_be16 id) as Hz. unfold build_query. destruct (be16 id) as [|x [|y [|]]]; unfold zlen in Hz; cbn in Hz; [lia..| |lia]. exact (H x y).
Qed.
